(* ===== verification/_CoqProject ===== *)
-Q . S2P
Prelude.v
BranchHash.v
Perceptron.v
Tage.v
BranchStats.v
SFBase.v
SFSpec.v
SFRound.v
SFValue.v
SFAddSub.v
SFAddSub16.v
SFMul.v
SFCompare.v
SFFromInt.v
SFFloat.v
SFSpecFacts.v
SFToInt.v
SFTrunc.v
SFRoundInt.v
SFTheorems.v
FdtBase.v
FdtTags.v
FdtTree.v
FdtRead.v
FdtReadFacts.v
FdtCheck.v
FdtWrite.v
FdtWriteFacts.v
FdtFinish.v
FdtRoundtrip.v
FdtMachine.v
FdtInplace.v
FdtRw.v
FdtEdit.v
FdtRwFacts.v
FdtMove.v
FdtDemo.v
FdtTheorems.v
FdtRwTheorems.v
Arith.v
Pmp.v
PmpFacts.v
PmpTheorems.v
Devices.v
DevicesFacts.v
Mmu.v
MmuSpec.v
MmuFacts.v
MmuWalk.v
MmuStages.v
MmuDemo.v
MmuTheorems.v
Cachesim.v
CacheSpec.v
CacheAccess.v
CacheTheorems.v
Plic.v
PlicFacts.v
PlicTheorems.v
Clint.v
Decode.v
DecodeTheorems.v
Memory.v
Access.v
AccessBus.v
AccessPaths.v
AccessBare.v
AccessSame.v
AccessDemo.v
AccessTheorems.v
Csrs.v
CsrFacts.v
Isa.v
IsaFacts.v
Step.v
StepFacts.v
StepDemo.v
StepTheorems.v
TrapTheorems.v
AluTheorems.v
