(* ===== verification/Prelude.v ===== *)
(** * Verification of the Spike branch study and of the simulator around it

    The repository is a Chipyard tree with its own copy of the Spike simulator
    under [src/riscv-isa-sim].  That copy is modelled here, each part from its
    source files:

    - the branch study added to Spike: [riscv/perceptron_predictor.cc],
      [riscv/tage_predictor.cc] and the statistics hooks of
      [riscv/processor.cc];
    - the hart the study observes: decoding, the integer instructions, traps,
      the loop of [riscv/execute.cc], address translation, protection, the
      memory system with its TLB, caches, the interrupt controller and the timers;
    - Berkeley SoftFloat, which executes the floating-point instructions:
      [softfloat/*.c] and [softfloat/*.h];
    - libfdt, which reads and writes the device tree handed to the simulated
      machine: [fdt/*.c] and [fdt/*.h].

    ** How the parts interact

    [Step] runs a hart: [fetch_insn] loads parcels through the class [Memory],
    [decode_insn] finds the instruction, its function of [Isa] changes the
    registers and memory or throws, [Csrs] delivers the trap.  Each conditional
    branch and each [ebreak] marker goes through [BranchStats] and, behind the
    class [BranchPredictor], to [Perceptron] or [Tage].  [Memory] states what a
    hart expects of its memory; [Access] is the implementation, [mmu_t], over
    the walk of [Mmu], the checks of [Pmp] and the bus of [Devices], with
    devices behind the class [Device] and its law [SoundDevice].  Theorems of the
    hart are proved against [Memory]; [AccessTheorems] discharges it, and
    [StepDemo] runs one program on both a flat memory and on [mmu_t].

    ** The files

    [Prelude] (this file) holds the C integer notations, wrap-around and the
    shared arithmetic and tactics.

    Branch study.  [BranchHash]: [mix64], [log2_pow2], history folding.
    [Perceptron] and [Tage]: one record per class, one function per member
    function, [None] for undefined behaviour.  [BranchStats]: the fields of
    [processor_t] the study adds, the [ebreak] markers of the region of
    interest, the hook of conditional branches; it uses the predictors through
    the class [BranchPredictor], which both implement.  Theorems: no sequence of
    operations is undefined; prediction and training are those of a perceptron,
    and training converges on a separable history; the provider and the
    alternate are the two longest matches; allocation and aging; the counters are
    those of an offline replay of the branches of the region.

    SoftFloat.  [SFBase] (state, macros, primitives and what they compute),
    [SFSpec] and [SFSpecFacts] (IEEE 754 rounding as a reference and why it is
    the right one), [SFRound] (round and pack), [SFValue] (bit patterns as data,
    sums), [SFAddSub], [SFAddSub16], [SFMul], [SFCompare], [SFFromInt],
    [SFFloat], [SFToInt], [SFTrunc], [SFRoundInt] (the operations of binary16,
    binary32 and binary64 with their lemmas), [SFTheorems] (the claims).  A C
    function is a function over [fp], the state of rounding mode, tininess and
    flags.  Theorems: every operation delivers the exact result rounded once, with
    the flags of the standard.

    libfdt.  A blob is a [list Z] of bytes, a pointer into it an offset, and a
    function returns an [outcome]: a value, undefined behaviour (an access
    outside the buffer, a signed overflow) or exhausted fuel.
    - [FdtBase]: memory, big-endian access, constants, header accessors
      ([libfdt.h], [libfdt_env.h], [libfdt_internal.h], [fdt.h]).
    - [FdtTags]: [fdt.c]; [tok_at] says which token stands where.
    - [FdtTree]: [items_at] reads a stretch of the structure block as a tree;
      iterating [fdt_next_node] is its preorder walk.
    - [FdtRead]: [fdt_ro.c] and the cell counts of [fdt_addresses.c].
      [FdtReadFacts]: names, properties, subnodes, paths.  [FdtCheck]:
      [fdt_check_full], termination, searches, phandles, string lists.
    - [FdtWrite]: [fdt_sw.c] and [fdt_wip.c].  [FdtWriteFacts], [FdtFinish]: the
      invariant of a blob under construction and how each call keeps it.
      [FdtRoundtrip]: a tree as a value, the calls that write it, and the tree
      read back.  [FdtMachine]: the abstract writer the calls refine, and that
      they keep the length and the bytes.  [FdtInplace]: changes in place seen on
      the tree.
    - [FdtRw]: [fdt_rw.c] and [fdt_empty_tree.c].  [FdtEdit]: a change of the
      structure block as an edit of the tree.  [FdtRwFacts]: the calls on
      properties and on nodes.  [FdtMove]: the calls that move whole blocks.
    - [FdtDemo]: inputs on which the code loops, overflows or leaves its buffers,
      and a concrete blob.  [FdtTheorems], [FdtRwTheorems]: the claims.
    Theorems: the token reader is exact and stays in bounds; walks terminate
    and are preorder; lookups, searches and string lists compute functions of
    the tree; the full check accepts exactly the blobs that hold a tree; the
    writer keeps its invariant and refuses misuse without a change; what is
    written is read back; read-write calls edit the tree or fail without a
    change, and opening keeps the tree.

    Arithmetic and instructions of the hart.
    - [Arith]: [arith.h].  High words of products, saturation, rotations.
    - [Decode]: the opcodes of [encoding.h], the fields of [decode.h], the list of
      instructions and the cache of [processor_t::decode_insn] with its rearranged
      list.  [DecodeTheorems]: the search finds the one instruction that matches, and
      the cache and the rearranged list do not change that.
    - [Csrs], [CsrFacts]: privilege, virtualization and the registers traps touch
      ([csrs.cc], [processor.cc]), [take_trap], [take_interrupt], [mret], [sret].
    - [Isa], [IsaFacts]: RV32I, RV64I, M, Zca, Zcb ([insns/*.h]), one function per
      body, over the class [Memory].
    - [Step], [StepFacts]: the instruction cache of [mmu.h] and [step] of
      [execute.cc] with its fast and slow loop, and the events of a run.
      [StepDemo]: a program that runs.  [StepTheorems], for decoders whose
      instructions are all in [Isa]: a batch ends; its
      instructions keep registers in range; the fast loop is iterated slow
      steps; the statistics after a batch are those of its events.
    - [TrapTheorems]: which interrupt is taken, where a trap goes
      and what it saves, and that a return restores it.
    - [AluTheorems]: the operations of the architecture on integers, and
      that every arithmetic instruction computes its own.

    Memory of the hart.
    - [Devices], [DevicesFacts]: [devices.cc], the memories, bus and
      read-only memory, and the access functions of [sim.cc].
    - [Pmp], [PmpFacts], [PmpTheorems]: the PMP registers of [csrs.cc] and the
      checks of [mmu.cc]: the check is that of the architecture, and a locked
      entry stays.
    - [Mmu]: the walk of [mmu.cc] with its second stage.  [MmuSpec]: translation
      as the architecture describes it.  [MmuFacts], [MmuWalk], [MmuStages]: the
      lemmas.  [MmuDemo]: tables in memory.
      [MmuTheorems]: the walk refines the reference, in one stage and in two.
    - [Memory]: the interface.  [Access]: the TLB, refills, fast and slow paths,
      misaligned accesses, reservations, atomic and cache block operations of
      [mmu.h] and [mmu.cc].  [AccessBus], [AccessPaths]: the invariant of an
      [mmu_t], and that every operation keeps it and ends in a value or a trap.
      [AccessBare], [AccessSame]: without translation the TLB is only a cache.
      [AccessDemo]: two machines.  [AccessTheorems]: the claims, and two states in
      which the code does otherwise than it means to.
    - [Cachesim]: [cachesim.cc].  [CacheSpec], [CacheAccess], [CacheTheorems]:
      accesses along a hierarchy refine a reference on sets of lines, and requests
      are conserved.
    - [Plic]: [plic.cc].  [PlicFacts], [PlicTheorems]: the controller stays in order
      and drives its lines; claim and complete.
    - [Clint]: [clint.cc], the time register and the comparators of [csrs.cc]; the
      timer interrupts follow the comparators.

    ** Choices of the model

    Integers are [Z]; [u32], [s32] and the like write the wrap-around of each
    conversion, and signed overflow is undefined ([int_ok], [int_chk]), except
    in [Arith], where signed products and negations wrap.  The
    widths are those of LP64 with glibc; the host is little-endian, as RISC-V
    hosts and x86 are.  The vectors of the predictors and the blob are lists;
    an access outside is undefined, not ignored.  Exceptions of C++ are values
    of a sum type; what an object has changed before it throws stays changed.

    Loops that are not structural take fuel.  In libfdt the fuel of a walk is
    the length of the buffer plus one: each token is at least four bytes long, so
    a walk that does not use it up ends inside the block, and
    [FdtTheorems.walks_terminate] proves that [Fuel] is never the result under
    its hypotheses.  [FdtDemo] shows that the hypothesis on property lengths is
    needed.  The fuel of [fdt_path_offset_namelen] bounds only the nesting of
    aliases, which the code does not bound.  The turns of [step] through its outer
    loop are fuel, and [StepTheorems.step_ends] proves that [n + 1] turns are
    enough for a batch of [n] instructions.  In SoftFloat, the predictors, the
    page-table walks, the caches and the bus all loops have a bound of their own.

    Pointer arithmetic is arithmetic on offsets, so forming a pointer outside
    its object is not undefined in the model while using it is; alignment of
    pointers is not modelled.  [fdt_move] and [fdt_resize] are modelled between
    two separate buffers.  Pointer results are offsets, output parameters are
    further components of the result, [NULL] is [None].  A host address in the TLB
    is the memory and the offset it points to.

    ** Not modelled

    - SoftFloat: division, square root, remainder and fused multiply-add, which
      need the multi-word primitives, the reciprocal tables and an error analysis
      of their steps; binary128 and bfloat16, which the study does not use.
    - libfdt: [fdt_overlay.c], which the simulator never calls;
      [fdt_appendprop_addrrange]; [fdt_strerror.c], a table of messages; the
      inline wrappers of [libfdt.h], which convert their argument and call a
      modelled function.
    - The hart: the instructions that read and write control registers, the
      floating-point, atomic, vector, bit-manipulation and cryptographic
      extensions, [wfi], triggers, the commit log, and the tracers that would
      bypass the TLB.  Registers of these extensions are not in the state.
    - The simulator process: UART, arguments, host interface, debug module and
      disassembler are input and output.
    - The hardware generators, build scripts, boot loaders and tests of Chipyard:
      other languages or register-level I/O. *)

From Stdlib Require Import ZArith Lia Bool List Btauto.

(** ** Notations for the C operators

    All machine integers are [Z]; the C operators are written with a leading
    dot, in a scope of their own. *)

Declare Scope cint_scope.
Delimit Scope cint_scope with C.

Notation "a .& b" := (Z.land a b) (at level 36, left associativity) : cint_scope.
Notation "a .| b" := (Z.lor a b) (at level 38, left associativity) : cint_scope.
Notation "a .^ b" := (Z.lxor a b) (at level 37, left associativity) : cint_scope.
Notation "a .>> n" := (Z.shiftr a n) (at level 34, left associativity) : cint_scope.
Notation "a .<< n" := (Z.shiftl a n) (at level 34, left associativity) : cint_scope.

#[global] Open Scope Z_scope.
#[global] Open Scope cint_scope.

#[global] Arguments Z.mul _ _ : simpl never.
#[global] Arguments Z.add _ _ : simpl never.
#[global] Arguments Z.sub _ _ : simpl never.
#[global] Arguments Z.opp _ : simpl never.
#[global] Arguments Z.pow _ _ : simpl never.
#[global] Arguments Z.div _ _ : simpl never.
#[global] Arguments Z.modulo _ _ : simpl never.
#[global] Arguments Z.land _ _ : simpl never.
#[global] Arguments Z.lor _ _ : simpl never.
#[global] Arguments Z.lxor _ _ : simpl never.
#[global] Arguments Z.shiftl _ _ : simpl never.
#[global] Arguments Z.shiftr _ _ : simpl never.
#[global] Arguments Z.ltb _ _ : simpl never.
#[global] Arguments Z.leb _ _ : simpl never.
#[global] Arguments Z.eqb _ _ : simpl never.

(** ** Machine integers

    [uwrap w] and [swrap w] are the conversions to the unsigned and the
    two's-complement signed type of width [w]. *)

Definition uwrap (w x : Z) : Z := x mod 2 ^ w.

Definition swrap (w x : Z) : Z := (x + 2 ^ (w - 1)) mod 2 ^ w - 2 ^ (w - 1).

Notation u8 := (uwrap 8).
Notation u16 := (uwrap 16).
Notation u32 := (uwrap 32).
Notation u64 := (uwrap 64).
Notation s8 := (swrap 8).
Notation s16 := (swrap 16).
Notation s32 := (swrap 32).
Notation s64 := (swrap 64).

(** The C truth value of an integer, and the integer of a C [bool]. *)

Definition nz (x : Z) : bool := negb (x =? 0).

Definition b2z (b : bool) : Z := if b then 1 else 0.

Lemma b2z_range b : 0 <= b2z b <= 1.
Proof. destruct b; simpl; lia. Qed.

Arguments uwrap : simpl never.
Arguments swrap : simpl never.
Arguments nz : simpl never.

(** ** Automation *)

Create HintDb cint.

(** Split on the first boolean integer test of the goal. *)

Ltac case_test :=
  match goal with
  | |- context [if ?a =? ?b then _ else _] => destruct (Z.eqb_spec a b)
  | |- context [if ?a <? ?b then _ else _] => destruct (Z.ltb_spec a b)
  | |- context [if ?a <=? ?b then _ else _] => destruct (Z.leb_spec a b)
  | |- context [?a =? ?b] => destruct (Z.eqb_spec a b)
  | |- context [?a <? ?b] => destruct (Z.ltb_spec a b)
  | |- context [?a <=? ?b] => destruct (Z.leb_spec a b)
  end.

Lemma uwrap_small w x : 0 <= x < 2 ^ w -> uwrap w x = x.
Proof. apply Z.mod_small. Qed.

Lemma uwrap_range w x : 0 <= w -> 0 <= uwrap w x < 2 ^ w.
Proof. intros Hw. apply Z.mod_pos_bound. now apply Z.pow_pos_nonneg. Qed.

Lemma swrap_small w x :
  0 < w -> - 2 ^ (w - 1) <= x < 2 ^ (w - 1) -> swrap w x = x.
Proof.
  intros Hw Hx. unfold swrap.
  assert (2 ^ w = 2 * 2 ^ (w - 1)) as Hp
    by (rewrite <- Z.pow_succ_r by lia; f_equal; lia).
  rewrite Z.mod_small; lia.
Qed.

Lemma swrap_range w x :
  0 < w -> - 2 ^ (w - 1) <= swrap w x < 2 ^ (w - 1).
Proof.
  intros Hw. unfold swrap.
  assert (2 ^ w = 2 * 2 ^ (w - 1)) as Hp
    by (rewrite <- Z.pow_succ_r by lia; f_equal; lia).
  pose proof (Z.pow_pos_nonneg 2 (w - 1)).
  pose proof (Z.mod_pos_bound (x + 2 ^ (w - 1)) (2 ^ w)). lia.
Qed.

Lemma nz_true x : nz x = true <-> x <> 0.
Proof. unfold nz. destruct (Z.eqb_spec x 0); simpl; intuition congruence. Qed.

Lemma nz_false x : nz x = false <-> x = 0.
Proof. unfold nz. destruct (Z.eqb_spec x 0); simpl; intuition congruence. Qed.

(** Testing a bit with a mask. *)
Lemma nz_bit x k : 0 <= k -> nz (x .& 2 ^ k) = Z.testbit x k.
Proof.
  intros Hk. destruct (Z.testbit x k) eqn:E.
  - apply nz_true. intros H0. assert (Z.testbit (x .& 2 ^ k) k = false) as H1 by (rewrite H0; apply Z.bits_0).
    rewrite Z.land_spec, Z.pow2_bits_true, E in H1 by exact Hk. discriminate.
  - apply nz_false. apply Z.bits_inj'. intros i Hi. rewrite Z.land_spec, Z.bits_0. destruct (Z.eq_dec i k) as [->|].
    + rewrite E. reflexivity.
    + rewrite Z.pow2_bits_false by lia. apply andb_false_r.
Qed.

(** Masking never exceeds the mask. *)
Lemma land_le_r a b : 0 <= b -> 0 <= Z.land a b <= b.
Proof.
  intros Hb. split; [apply Z.land_nonneg; now right|].
  assert (b - Z.land a b = Z.ldiff b (Z.land a b)) as He.
  { apply Z.sub_nocarry_ldiff. apply Z.bits_inj'. intros n Hn.
    rewrite Z.ldiff_spec, Z.land_spec, Z.bits_0. btauto. }
  pose proof (proj2 (Z.ldiff_nonneg b (Z.land a b))). lia.
Qed.

(** ** Powers of two, division and bits *)

Lemma pow2_pos k : 0 <= k -> 0 < 2 ^ k.
Proof. intros Hk. now apply Z.pow_pos_nonneg. Qed.

Lemma pow2_split a b : 0 <= a -> 0 <= b -> 2 ^ (a + b) = 2 ^ a * 2 ^ b.
Proof. intros Ha Hb. now apply Z.pow_add_r. Qed.

Lemma pow2_le a b : 0 <= a <= b -> 2 ^ a <= 2 ^ b.
Proof. intros H. apply Z.pow_le_mono_r; lia. Qed.

Lemma pow2_lt a b : 0 <= a < b -> 2 ^ a < 2 ^ b.
Proof. intros H. apply Z.pow_lt_mono_r; lia. Qed.

Lemma pow2_succ k : 0 <= k -> 2 ^ (k + 1) = 2 * 2 ^ k.
Proof. intros Hk. rewrite Z.pow_add_r, Z.pow_1_r; lia. Qed.

Lemma pow2_pred k : 0 < k -> 2 ^ k = 2 * 2 ^ (k - 1).
Proof. intros Hk. rewrite <- pow2_succ by lia. f_equal. lia. Qed.

#[export] Hint Resolve pow2_pos : cint.

Lemma shiftr_div a n : 0 <= n -> a .>> n = a / 2 ^ n.
Proof. apply Z.shiftr_div_pow2. Qed.

Lemma shiftl_mul a n : 0 <= n -> a .<< n = a * 2 ^ n.
Proof. apply Z.shiftl_mul_pow2. Qed.

(** A mask of ones is a remainder. *)
Lemma land_mod a m n : 0 <= n -> m = 2 ^ n - 1 -> a .& m = a mod 2 ^ n.
Proof. intros Hn ->. rewrite <- Z.land_ones, Z.ones_equiv by lia. now rewrite Z.sub_1_r. Qed.

(** The masks of the low bits, computed on 64 bits. *)
Lemma low_mask x n : 0 <= n < 64 -> x .& (u64 (1 .<< n) - 1) = x mod 2 ^ n.
Proof.
  intros Hn. rewrite shiftl_mul, Z.mul_1_l by lia. rewrite uwrap_small by (split; [lia|apply pow2_lt; lia]).
  apply land_mod; lia.
Qed.

Lemma clear_low x n : 0 <= x < 2 ^ 64 -> 0 <= n < 64 -> x .& u64 (Z.lnot (u64 (1 .<< n) - 1)) = x / 2 ^ n * 2 ^ n.
Proof.
  intros Hx Hn. rewrite shiftl_mul, Z.mul_1_l by lia. rewrite (uwrap_small 64 (2 ^ n)) by (split; [lia|apply pow2_lt; lia]).
  replace (2 ^ n - 1) with (Z.ones n) by (rewrite Z.ones_equiv; lia).
  unfold uwrap. rewrite <- (Z.land_ones _ 64), (Z.land_comm (Z.lnot _)), Z.land_assoc by lia.
  rewrite (Z.land_ones x 64), (Z.mod_small x) by lia. rewrite <- Z.ldiff_land, Z.ldiff_ones_r by lia.
  rewrite shiftl_mul, shiftr_div by lia. reflexivity.
Qed.

(** Setting the lowest bit. *)
Lemma lor_b2z a b : 0 <= a -> a .| b2z b = a + b2z (b && Z.even a).
Proof.
  intros Ha. destruct b; simpl; [|rewrite Z.lor_0_r; lia].
  pose proof (Z.add_lor_land a 1) as H. rewrite (land_mod a 1 1), Z.pow_1_r, Zmod_even in H by lia.
  destruct (Z.even a); simpl; lia.
Qed.

(** Clearing the lowest bit, as [a &= ~(uint_fast64_t) b]. *)
Lemma clear_low_bit a b :
  0 <= a < 2 ^ 64 -> a .& u64 (Z.lnot (b2z b)) = a - b2z (b && Z.odd a).
Proof.
  intros Ha.
  assert (a .& u64 (Z.lnot (b2z b)) = Z.ldiff a (b2z b)) as ->.
  { unfold uwrap. rewrite <- Z.land_ones by lia. rewrite (Z.land_comm (Z.lnot _)), Z.land_assoc.
    rewrite Z.land_ones, Z.mod_small, Z.ldiff_land by lia. reflexivity. }
  destruct b; simpl; [|now rewrite Z.ldiff_0_r, Z.sub_0_r].
  pose proof (Z.land_ones a 1 ltac:(lia)) as H1. change (Z.ones 1) with 1 in H1.
  rewrite Z.pow_1_r, Zmod_odd in H1. unfold b2z. rewrite <- H1.
  rewrite Z.sub_nocarry_ldiff; apply Z.bits_inj'; intros n Hn;
    rewrite !Z.ldiff_spec, Z.land_spec, ?Z.bits_0; btauto.
Qed.

Lemma compare_ext a b c d :
  (a < b <-> c < d) -> (a = b <-> c = d) -> (a ?= b) = (c ?= d).
Proof. intros Hlt Heq. destruct (Z.compare_spec a b), (Z.compare_spec c d); trivial; lia. Qed.
