(* ===== verification/BranchHash.v ===== *)
(** * Hashing helpers of the branch predictors

    The file-local helpers that [perceptron_predictor.cc] and
    [tage_predictor.cc] both define: the 64-bit finaliser [mix64], the table
    size logarithm [log2_pow2] and the history folding loop, with the facts the
    predictors rely on: [mix64] is a permutation of the 64-bit words,
    [log2_pow2] is the integer logarithm, and the folded history is the
    column-wise parity of the history bits. *)

From stdpp Require Import base option list.
From S2P Require Import Prelude.

(** ** Undefined behaviour

    The C++ standard leaves an out-of-range vector access, an overflowing
    signed operation and an over-long shift undefined.  Operations that may do
    so return an [option]; [None] stands for undefined behaviour. *)

Definition int_ok (x : Z) : option Z :=
  if (- 2 ^ 31 <=? x) && (x <? 2 ^ 31) then Some x else None.

(** [uint64_t(1) << n] *)
Definition shl64 (x n : Z) : option Z :=
  if (0 <=? n) && (n <? 64) then Some (u64 (x .<< n)) else None.

(** [1 << n] on [int] *)
Definition shl_int_1 (n : Z) : option Z :=
  if (0 <=? n) && (n <? 31) then Some (1 .<< n) else None.

(** [v[i]] for an [int] or [size_t] index *)
Definition vget {A} (v : list A) (i : Z) : option A :=
  if i <? 0 then None else v !! Z.to_nat i.

Definition vset {A} (v : list A) (i : Z) (x : A) : option (list A) :=
  if (0 <=? i) && (i <? Z.of_nat (length v)) then Some (<[Z.to_nat i := x]> v)
  else None.

(** [v.size()] *)
Definition vsize {A} (v : list A) : Z := Z.of_nat (length v).

(** ** The helpers *)

Definition mix64 (x : Z) : Z :=
  let x := x .^ (x .>> 33) in
  let x := u64 (x * 0xff51afd7ed558ccd) in
  let x := x .^ (x .>> 33) in
  let x := u64 (x * 0xc4ceb9fe1a85ec53) in
  let x := x .^ (x .>> 33) in
  x.

(** The [while (value > 1)] loop; a [size_t] has 64 bits, so 64 iterations
    exhaust it. *)
Fixpoint log2_loop (fuel : nat) (value bits : Z) : Z :=
  match fuel with
  | O => bits
  | S fuel => if 1 <? value then log2_loop fuel (value .>> 1) (u32 (bits + 1))
              else bits
  end.

Definition log2_pow2 (value : Z) : Z := log2_loop 64 value 0.

(** The loop of [fold_history], over the rest of the history vector from
    position [i] on. *)
Fixpoint fold_loop (h : list bool) (i hist_len width folded : Z) : option Z :=
  match h with
  | [] => Some folded
  | b :: h' =>
      if i <? hist_len then
        if b then
          s ← shl64 1 (i mod width);
          fold_loop h' (i + 1) hist_len width (folded .^ s)
        else fold_loop h' (i + 1) hist_len width folded
      else Some folded
  end.

Definition fold_history (history : list bool) (hist_len width : Z) : option Z :=
  if (width =? 0) || (hist_len =? 0) then Some 0
  else
    folded ← fold_loop history 0 hist_len width 0;
    if width =? 64 then Some folded
    else s ← shl64 1 width; Some (folded .& (u64 (s - 1))).

(** ** Facts about the checked operations *)

Lemma int_ok_Some x : - 2 ^ 31 <= x < 2 ^ 31 -> int_ok x = Some x.
Proof.
  intros Hx. unfold int_ok.
  destruct (Z.leb_spec (- 2 ^ 31) x), (Z.ltb_spec x (2 ^ 31)); simpl; lia || done.
Qed.

Lemma shl64_1 n : 0 <= n < 64 -> shl64 1 n = Some (2 ^ n).
Proof.
  intros Hn. unfold shl64.
  destruct (Z.leb_spec 0 n), (Z.ltb_spec n 64); simpl; try lia.
  rewrite Z.shiftl_1_l, uwrap_small; [done|].
  split; [lia|]. apply Z.pow_lt_mono_r; lia.
Qed.

Lemma vget_Some {A} (v : list A) i :
  0 <= i < vsize v -> exists x, vget v i = Some x /\ v !! Z.to_nat i = Some x.
Proof.
  unfold vsize, vget. intros Hi. destruct (Z.ltb_spec i 0); [lia|].
  destruct (lookup_lt_is_Some_2 v (Z.to_nat i)) as [x Hx]; [lia|]. eauto.
Qed.

Lemma vget_nat {A} (v : list A) (i : nat) : vget v (Z.of_nat i) = v !! i.
Proof.
  unfold vget. destruct (Z.ltb_spec (Z.of_nat i) 0); [lia|]. by rewrite Nat2Z.id.
Qed.

Lemma vset_Some {A} (v : list A) i x :
  0 <= i < vsize v -> vset v i x = Some (<[Z.to_nat i := x]> v).
Proof.
  unfold vset, vsize. intros Hi.
  destruct (Z.leb_spec 0 i), (Z.ltb_spec i (Z.of_nat (length v))); simpl; lia || done.
Qed.

Lemma vset_nat {A} (v : list A) (i : nat) x :
  (i < length v)%nat -> vset v (Z.of_nat i) x = Some (<[i := x]> v).
Proof.
  intros Hi. rewrite vset_Some by (unfold vsize; lia). by rewrite Nat2Z.id.
Qed.

Lemma shl_int_1_Some n : 0 <= n < 31 -> shl_int_1 n = Some (2 ^ n).
Proof.
  intros Hn. unfold shl_int_1. destruct (Z.leb_spec 0 n), (Z.ltb_spec n 31); try lia.
  simpl. by rewrite Z.shiftl_1_l.
Qed.

#[export] Hint Rewrite @vget_nat : cint.

Lemma map_replicate {A B} (f : A -> B) n x : map f (replicate n x) = replicate n (f x).
Proof. induction n as [|n IH]; simpl; [done|by rewrite IH]. Qed.

Lemma map_const_replicate {A B} (l : list A) (x : B) :
  map (fun _ => x) l = replicate (length l) x.
Proof. induction l as [|a l IH]; simpl; [done|by rewrite IH]. Qed.

(** ** [mix64] is a permutation of the 64-bit words *)

Definition xorshift33 (x : Z) : Z := x .^ (x .>> 33).

(** The inverse finaliser: the multipliers are odd, so they have inverses
    modulo [2 ^ 64], and the xor-shift by 33 undoes itself on 64-bit words. *)
Definition unmix64 (x : Z) : Z :=
  let x := xorshift33 x in
  let x := u64 (x * 0x9cb4b2f8129337db) in
  let x := xorshift33 x in
  let x := u64 (x * 0x4f74430c22a54005) in
  xorshift33 x.

Lemma mix64_xorshift x :
  mix64 x = xorshift33 (u64 (xorshift33 (u64 (xorshift33 x * 0xff51afd7ed558ccd))
                             * 0xc4ceb9fe1a85ec53)).
Proof. reflexivity. Qed.

Lemma xorshift33_range x : 0 <= x < 2 ^ 64 -> 0 <= xorshift33 x < 2 ^ 64.
Proof.
  intros Hx. unfold xorshift33.
  assert (0 <= x .>> 33 < 2 ^ 64) as Hs.
  { rewrite Z.shiftr_div_pow2 by lia. split; [apply Z.div_pos; lia|].
    apply Z.div_lt_upper_bound; lia. }
  split; [by apply Z.lxor_nonneg; lia|].
  destruct (decide (x .^ (x .>> 33) = 0)) as [->|Hne]; [lia|].
  apply Z.log2_lt_pow2; [pose proof (proj2 (Z.lxor_nonneg x (x .>> 33))); lia|].
  eapply Z.le_lt_trans; [apply Z.log2_lxor; lia|].
  apply Z.max_lub_lt.
  - destruct (decide (x = 0)) as [->|]; [done|]. apply Z.log2_lt_pow2; lia.
  - destruct (decide (x .>> 33 = 0)) as [->|]; [done|]. apply Z.log2_lt_pow2; lia.
Qed.

Lemma xorshift33_involutive x : 0 <= x < 2 ^ 64 -> xorshift33 (xorshift33 x) = x.
Proof.
  intros Hx. unfold xorshift33. rewrite Z.shiftr_lxor, Z.shiftr_shiftr by lia.
  replace (x .>> (33 + 33)) with 0.
  - rewrite Z.lxor_0_r, Z.lxor_assoc, Z.lxor_nilpotent. apply Z.lxor_0_r.
  - rewrite Z.shiftr_div_pow2 by lia. symmetry. apply Z.div_small.
    split; [lia|]. transitivity (2 ^ 64); [lia|]. by apply Z.pow_lt_mono_r.
Qed.

Lemma u64_mul_inverse x a b :
  0 <= x < 2 ^ 64 -> u64 (a * b) = 1 -> u64 (u64 (x * a) * b) = x.
Proof.
  unfold uwrap. intros Hx Hab.
  rewrite Z.mul_mod_idemp_l, <- Z.mul_assoc by lia.
  rewrite <- Z.mul_mod_idemp_r, Hab, Z.mul_1_r by lia. by apply Z.mod_small.
Qed.

Lemma u64_range x : 0 <= u64 x < 2 ^ 64.
Proof. by apply uwrap_range. Qed.

#[export] Hint Resolve u64_range xorshift33_range : cint.

Lemma mix64_range x : 0 <= x < 2 ^ 64 -> 0 <= mix64 x < 2 ^ 64.
Proof. intros Hx. rewrite mix64_xorshift. auto with cint. Qed.

Lemma unmix64_mix64 x : 0 <= x < 2 ^ 64 -> unmix64 (mix64 x) = x.
Proof.
  intros Hx. rewrite mix64_xorshift. unfold unmix64; cbv zeta.
  rewrite xorshift33_involutive by auto with cint.
  rewrite u64_mul_inverse by (auto with cint || reflexivity).
  rewrite xorshift33_involutive by auto with cint.
  rewrite u64_mul_inverse by (auto with cint || reflexivity).
  by apply xorshift33_involutive.
Qed.

Lemma mix64_unmix64 x : 0 <= x < 2 ^ 64 -> mix64 (unmix64 x) = x.
Proof.
  intros Hx. rewrite mix64_xorshift. unfold unmix64; cbv zeta.
  rewrite xorshift33_involutive by auto with cint.
  rewrite u64_mul_inverse by (auto with cint || reflexivity).
  rewrite xorshift33_involutive by auto with cint.
  rewrite u64_mul_inverse by (auto with cint || reflexivity).
  by apply xorshift33_involutive.
Qed.

(** ** [log2_pow2] is the integer logarithm *)

Lemma log2_loop_spec fuel value bits :
  0 <= bits -> bits + Z.of_nat fuel < 2 ^ 32 ->
  0 <= value < 2 ^ Z.of_nat fuel ->
  log2_loop fuel value bits = bits + Z.log2 value.
Proof.
  revert value bits. induction fuel as [|fuel IH]; intros value bits Hb Hf Hv.
  { assert (value = 0) as -> by (simpl in Hv; lia). simpl. lia. }
  simpl. destruct (Z.ltb_spec 1 value).
  - rewrite uwrap_small by lia.
    rewrite Nat2Z.inj_succ, Z.pow_succ_r in Hv by lia.
    assert (0 <= value .>> 1 < 2 ^ Z.of_nat fuel).
    { rewrite Z.shiftr_div_pow2, Z.pow_1_r by lia.
      split; [apply Z.div_pos; lia|]. apply Z.div_lt_upper_bound; lia. }
    rewrite IH by lia. rewrite Z.log2_shiftr by lia.
    pose proof (Z.log2_pos value). lia.
  - assert (value = 0 \/ value = 1) as [-> | ->] by lia; simpl; lia.
Qed.

Lemma log2_pow2_log2 value : 0 <= value < 2 ^ 64 -> log2_pow2 value = Z.log2 value.
Proof. intros Hv. unfold log2_pow2. rewrite log2_loop_spec; lia. Qed.

(** ** The folded history *)

(** The parity of the history bits whose position is [j] modulo [width],
    among the positions below [hist_len]. *)
Fixpoint column_parity (h : list bool) (i hist_len width j : Z) : bool :=
  match h with
  | [] => false
  | b :: h' =>
      xorb (b && (i <? hist_len) && (i mod width =? j))
           (column_parity h' (i + 1) hist_len width j)
  end.

Lemma column_parity_past h i hist_len width j :
  hist_len <= i -> column_parity h i hist_len width j = false.
Proof.
  revert i. induction h as [|b h IH]; intros i Hi; simpl; [done|].
  rewrite IH by lia. destruct (Z.ltb_spec i hist_len); [lia|].
  by rewrite andb_false_r.
Qed.

Lemma fold_loop_spec h i hist_len width folded :
  0 < width <= 64 ->
  exists r, fold_loop h i hist_len width folded = Some r /\
    forall j, Z.testbit r j =
      xorb (Z.testbit folded j) (column_parity h i hist_len width j).
Proof.
  intros Hw. revert i folded. induction h as [|b h IH]; intros i folded; simpl.
  { eexists. split; [done|]. intros j. by rewrite xorb_false_r. }
  pose proof (Z.mod_pos_bound i width).
  destruct (Z.ltb_spec i hist_len) as [Hi|Hi].
  - destruct b; simpl.
    + rewrite shl64_1 by lia. simpl.
      destruct (IH (i + 1) (folded .^ 2 ^ (i mod width))) as (r & -> & Hr).
      eexists. split; [done|]. intros j. rewrite Hr, Z.lxor_spec.
      rewrite Z.pow2_bits_eqb by lia. by rewrite xorb_assoc.
    + destruct (IH (i + 1) folded) as (r & -> & Hr). eexists. split; [done|].
      intros j. rewrite Hr. by destruct (column_parity h (i + 1) hist_len width j).
  - eexists. split; [done|]. intros j.
    rewrite column_parity_past by lia. by rewrite andb_false_r, xorb_false_r.
Qed.

Lemma fold_loop_nonneg h i hist_len width folded r :
  0 < width -> 0 <= folded -> fold_loop h i hist_len width folded = Some r -> 0 <= r.
Proof.
  intros Hw. revert i folded. induction h as [|b h IH]; intros i folded Hf; simpl.
  { by intros [= ->]. }
  destruct (i <? hist_len); [|by intros [= ->]].
  destruct b; [|by apply IH].
  unfold shl64. destruct ((0 <=? i mod width) && (i mod width <? 64)); [|done].
  simpl. apply IH. apply Z.lxor_nonneg. pose proof (u64_range (1 .<< (i mod width))). lia.
Qed.

(** Folding is defined for every index or tag width of at most 63 bits; the
    result fits in [width] bits, and bit [j] of it is the parity of column
    [j]. *)
Lemma fold_history_spec h hist_len width :
  0 <= width < 64 ->
  exists r, fold_history h hist_len width = Some r /\ 0 <= r < 2 ^ width /\
    forall j, 0 <= j < width ->
      Z.testbit r j = column_parity h 0 hist_len width j.
Proof.
  intros Hw. unfold fold_history.
  destruct (Z.eqb_spec width 0) as [->|Hw0]; simpl.
  { exists 0. repeat split; lia. }
  destruct (Z.eqb_spec hist_len 0) as [->|Hh]; simpl.
  { exists 0. split_and!; [done|lia|apply Z.pow_pos_nonneg; lia|].
    intros j _. rewrite column_parity_past by lia. by apply Z.bits_0. }
  destruct (fold_loop_spec h 0 hist_len width 0) as (f & Hf & Hbits); [lia|].
  rewrite Hf; simpl. destruct (Z.eqb_spec width 64); [lia|].
  rewrite shl64_1 by lia; simpl.
  pose proof (Z.pow_pos_nonneg 2 width). pose proof (Z.pow_lt_mono_r 2 width 64).
  rewrite (uwrap_small 64 (2 ^ width - 1)) by lia.
  replace (2 ^ width - 1) with (Z.ones width) by (rewrite Z.ones_equiv; lia).
  rewrite Z.land_ones by lia. eexists. split; [done|].
  split; [by apply Z.mod_pos_bound; lia|].
  intros j Hj. rewrite Z.mod_pow2_bits_low by lia. by rewrite Hbits, Z.bits_0.
Qed.
