(* ===== verification/Perceptron.v ===== *)
(** * The perceptron branch predictor

    Model of [class perceptron_predictor_t]
    ([src/riscv-isa-sim/riscv/perceptron_predictor.{h,cc}]).  The object is a
    record with the class's fields; the member functions are state-passing
    functions into [option], where [None] is undefined behaviour (an
    out-of-range vector access, a signed overflow).  The theorems give a
    well-formedness invariant under which no operation is undefined, the exact
    behaviour of prediction and training against a mathematical perceptron,
    and convergence on a branch with a constant outcome. *)

From stdpp Require Import base option list.
From S2P Require Import Prelude BranchHash.

Record perceptron_predictor_t := mk_perceptron {
  hist_len : Z;
  theta : Z;
  max_weight : Z;
  min_weight : Z;
  bias : list Z;
  weights : list (list Z);
  history : list bool;
  last_score : Z;
}.

Definition perceptron_new (n_entries hist_len w_bits : Z)
  : option perceptron_predictor_t :=
  p ← shl_int_1 (u32 (w_bits - 1));
  mx ← int_ok (p - 1);
  mn ← int_ok (- p);
  Some {| hist_len := hist_len;
          theta := 76;
          max_weight := mx;
          min_weight := mn;
          bias := replicate (Z.to_nat n_entries) 0;
          weights := replicate (Z.to_nat n_entries)
                               (replicate (Z.to_nat hist_len) 0);
          history := replicate (Z.to_nat hist_len) false;
          last_score := 0 |}.

Definition index (p : perceptron_predictor_t) (pc : Z) : option Z :=
  let idx_bits := log2_pow2 (vsize (bias p)) in
  f ← fold_history (history p) (hist_len p) idx_bits;
  let hash := (pc .>> 2) .^ f in
  let hash := hash .^ mix64 pc in
  Some (s32 (hash .& u64 (vsize (bias p) - 1))).

Definition sat_inc (p : perceptron_predictor_t) (x : Z) : option Z :=
  if x =? max_weight p then Some x else int_ok (x + 1).

Definition sat_dec (p : perceptron_predictor_t) (x : Z) : option Z :=
  if x =? min_weight p then Some x else int_ok (x - 1).

(** [weights[idx][i]] *)
Definition weight_at (ws : list (list Z)) (idx : Z) (i : nat) : option Z :=
  row ← vget ws idx; row !! i.

(** [for (i = 0; i < hist_len; ++i) score += history[i] ? w : -w], with [n]
    iterations to go from position [i]. *)
Fixpoint score_loop (p : perceptron_predictor_t) (idx : Z) (n i : nat) (score : Z)
  : option Z :=
  match n with
  | O => Some score
  | S n =>
      h ← history p !! i;
      w ← weight_at (weights p) idx i;
      d ← (if h : bool then Some w else int_ok (- w));
      score ← int_ok (score + d);
      score_loop p idx n (S i) score
  end.

Definition score_of (p : perceptron_predictor_t) (idx : Z) : option Z :=
  b ← vget (bias p) idx;
  score_loop p idx (Z.to_nat (hist_len p)) 0 b.

Definition set_last_score (p : perceptron_predictor_t) (s : Z) :=
  {| hist_len := hist_len p; theta := theta p; max_weight := max_weight p;
     min_weight := min_weight p; bias := bias p; weights := weights p;
     history := history p; last_score := s |}.

Definition predict (p : perceptron_predictor_t) (pc : Z)
  : option (bool * perceptron_predictor_t) :=
  idx ← index p pc;
  score ← score_of p idx;
  Some (0 <=? score, set_last_score p score).

(** The weight update loop; each iteration reads [history[i]] and rewrites
    [weights[idx][i]]. *)
Fixpoint update_loop (p : perceptron_predictor_t) (idx : Z) (actual_taken : bool)
    (n i : nat) (ws : list (list Z)) : option (list (list Z)) :=
  match n with
  | O => Some ws
  | S n =>
      h ← history p !! i;
      row ← vget ws idx;
      w ← row !! i;
      w' ← (if Bool.eqb h actual_taken then sat_inc p w else sat_dec p w);
      row' ← vset row (Z.of_nat i) w';
      ws' ← vset ws idx row';
      update_loop p idx actual_taken n (S i) ws'
  end.

(** [history.insert(history.begin(), taken); history.pop_back();] *)
Definition push_history (h : list bool) (taken : bool) : list bool :=
  removelast (taken :: h).

Definition train (p : perceptron_predictor_t) (pc : Z) (actual_taken : bool)
  : option perceptron_predictor_t :=
  idx ← index p pc;
  score ← score_of p idx;
  a ← int_ok (Z.abs score);
  let predicted_taken := 0 <=? score in
  let mispredicted := negb (Bool.eqb predicted_taken actual_taken) in
  let should_train := mispredicted || (a <=? theta p) in
  bw ← (if should_train then
          b ← vget (bias p) idx;
          b' ← (if actual_taken then sat_inc p b else sat_dec p b);
          bias' ← vset (bias p) idx b';
          ws' ← update_loop p idx actual_taken (Z.to_nat (hist_len p)) 0 (weights p);
          Some (bias', ws')
        else Some (bias p, weights p));
  Some {| hist_len := hist_len p; theta := theta p; max_weight := max_weight p;
          min_weight := min_weight p; bias := bw.1; weights := bw.2;
          history := push_history (history p) actual_taken;
          last_score := last_score p |}.

Definition reset (p : perceptron_predictor_t) : perceptron_predictor_t :=
  {| hist_len := hist_len p; theta := theta p; max_weight := max_weight p;
     min_weight := min_weight p;
     bias := map (fun _ => 0) (bias p);
     weights := map (fun row => map (fun _ => 0) row) (weights p);
     history := map (fun _ => false) (history p);
     last_score := 0 |}.

Definition last_prediction_high_confidence (p : perceptron_predictor_t) : option bool :=
  a ← int_ok (Z.abs (last_score p)); Some (theta p <? a).

Definition last_abs_score (p : perceptron_predictor_t) : option Z :=
  int_ok (Z.abs (last_score p)).

(** ** The mathematical perceptron *)

(** The input vector: a taken branch counts as 1, a not-taken one as -1. *)
Definition bipolar (b : bool) : Z := if b then 1 else -1.

Fixpoint dot (row : list Z) (h : list bool) : Z :=
  match row, h with
  | w :: row, b :: h => w * bipolar b + dot row h
  | _, _ => 0
  end.

(** Saturating step of a weight towards agreement. *)
Definition nudge (mn mx : Z) (up : bool) (w : Z) : Z :=
  if up then Z.min mx (w + 1) else Z.max mn (w - 1).

Definition nudge_row (mn mx : Z) (taken : bool) (row : list Z) (h : list bool) : list Z :=
  zip_with (fun w b => nudge mn mx (Bool.eqb b taken) w) row h.

(** ** Well-formedness *)

Definition in_range (p : perceptron_predictor_t) (w : Z) : Prop :=
  min_weight p <= w <= max_weight p.

Record wf (p : perceptron_predictor_t) : Prop := {
  wf_max : 0 <= max_weight p;
  wf_min : min_weight p = - (max_weight p + 1);
  wf_entries : 1 <= vsize (bias p) <= 2 ^ 31;
  wf_rows : length (weights p) = length (bias p);
  wf_hist : hist_len p = vsize (history p);
  wf_bias : Forall (in_range p) (bias p);
  wf_weights : Forall (fun row => length row = length (history p) /\
                                  Forall (in_range p) row) (weights p);
  (** the sum of [hist_len + 1] weights fits in an [int] *)
  wf_fits : (hist_len p + 1) * (max_weight p + 1) < 2 ^ 31;
  wf_last : Z.abs (last_score p) < 2 ^ 31;
}.

(** The row a branch selects, and its score. *)
Definition row_of (p : perceptron_predictor_t) (idx : nat) : list Z :=
  default [] (weights p !! idx).

Definition bias_of (p : perceptron_predictor_t) (idx : nat) : Z :=
  default 0 (bias p !! idx).

Definition ref_score (p : perceptron_predictor_t) (idx : nat) : Z :=
  bias_of p idx + dot (row_of p idx) (history p).

(** The index as a mathematical function: the parity-folded history and the
    mixed program counter, reduced to the table size. *)
Definition ref_index (p : perceptron_predictor_t) (pc : Z) : nat :=
  Z.to_nat ((((pc .>> 2) .^ default 0 (fold_history (history p) (hist_len p)
                (Z.log2 (vsize (bias p))))) .^ mix64 pc) .& (vsize (bias p) - 1)).

Definition ref_trained (p : perceptron_predictor_t) (idx : nat) (taken : bool) : bool :=
  negb (Bool.eqb (0 <=? ref_score p idx) taken) || (Z.abs (ref_score p idx) <=? theta p).

Definition ref_train (p : perceptron_predictor_t) (pc : Z) (taken : bool)
  : perceptron_predictor_t :=
  let idx := ref_index p pc in
  let upd := ref_trained p idx taken in
  {| hist_len := hist_len p; theta := theta p; max_weight := max_weight p;
     min_weight := min_weight p;
     bias := if upd
             then <[idx := nudge (min_weight p) (max_weight p) taken (bias_of p idx)]> (bias p)
             else bias p;
     weights := if upd
                then <[idx := nudge_row (min_weight p) (max_weight p) taken
                                        (row_of p idx) (history p)]> (weights p)
                else weights p;
     history := take (length (history p)) (taken :: history p);
     last_score := last_score p |}.

(** ** Index computation *)

Lemma ref_index_bound p pc :
  wf p -> 0 <= Z.of_nat (ref_index p pc) < vsize (bias p).
Proof.
  intros Hwf. pose proof (wf_entries p Hwf). unfold ref_index.
  match goal with |- context [Z.land ?a ?b] =>
    pose proof (land_le_r a b) end. lia.
Qed.

Lemma index_ref p pc : wf p -> index p pc = Some (Z.of_nat (ref_index p pc)).
Proof.
  intros Hwf. pose proof (wf_entries p Hwf). unfold index, ref_index.
  rewrite log2_pow2_log2 by lia.
  assert (0 <= Z.log2 (vsize (bias p)) < 64) as Hl.
  { split; [apply Z.log2_nonneg|]. apply Z.log2_lt_pow2; lia. }
  destruct (fold_history_spec (history p) (hist_len p) _ Hl) as (r & -> & _).
  simpl. rewrite (uwrap_small 64) by lia.
  match goal with |- context [Z.land ?a ?b] =>
    pose proof (land_le_r a b) as Hb end.
  rewrite swrap_small by lia. rewrite Z2Nat.id by lia. done.
Qed.

Lemma bias_lookup p idx :
  (idx < length (bias p))%nat -> bias p !! idx = Some (bias_of p idx).
Proof.
  intros Hi. unfold bias_of.
  destruct (lookup_lt_is_Some_2 (bias p) idx Hi) as [x ->]. done.
Qed.

Lemma row_lookup p idx :
  (idx < length (weights p))%nat -> weights p !! idx = Some (row_of p idx).
Proof.
  intros Hi. unfold row_of.
  destruct (lookup_lt_is_Some_2 (weights p) idx Hi) as [x ->]. done.
Qed.

Section WellFormed.
Context (p : perceptron_predictor_t) (Hwf : wf p).
Context (idx : nat) (Hidx : (idx < length (bias p))%nat).

Lemma bias_of_range : in_range p (bias_of p idx).
Proof.
  apply (Forall_lookup_1 _ (bias p) idx); [apply Hwf|]. by apply bias_lookup.
Qed.

Lemma row_of_wf :
  length (row_of p idx) = length (history p) /\ Forall (in_range p) (row_of p idx).
Proof.
  pose proof (wf_rows p Hwf).
  eapply (Forall_lookup_1 (fun row => length row = length (history p) /\
                                      Forall (in_range p) row) (weights p) idx);
    [apply Hwf|]. apply row_lookup. lia.
Qed.
End WellFormed.

Lemma hist_len_nat p : wf p -> Z.to_nat (hist_len p) = length (history p).
Proof. intros Hwf. rewrite (wf_hist p Hwf). unfold vsize. lia. Qed.

(** ** The score loop computes the dot product *)

Lemma dot_bound mx row h :
  0 <= mx -> Forall (fun w => - (mx + 1) <= w <= mx) row ->
  Z.abs (dot row h) <= Z.of_nat (length row) * (mx + 1).
Proof.
  intros Hmx Hr. revert h. induction Hr as [|w row Hw Hr IH]; intros h; simpl; [lia|].
  destruct h as [|b h]; [nia|]. specialize (IH h). destruct b; simpl; nia.
Qed.

(** One iteration on the suffixes of the row and of the history. *)
Lemma score_loop_dot p idx (i : nat) row h s :
  wf p -> weights p !! idx = Some (row_of p idx) ->
  drop i (row_of p idx) = row -> drop i (history p) = h -> length row = length h ->
  Forall (in_range p) row ->
  Z.abs s + Z.of_nat (length row) * (max_weight p + 1) < 2 ^ 31 ->
  score_loop p (Z.of_nat idx) (length h) i s = Some (s + dot row h).
Proof.
  intros Hwf Hrow. pose proof (wf_max p Hwf). pose proof (wf_min p Hwf).
  revert i row s. induction h as [|b h IH]; intros i row s Hdr Hdh Hlen Hr Hs.
  { destruct row; [|done]. simpl. f_equal. lia. }
  destruct row as [|w row]; [done|]. apply Forall_cons in Hr as [Hw Hr].
  unfold in_range in Hw. simpl in Hs. simpl length. simpl score_loop.
  assert (history p !! i = Some b) as ->.
  { rewrite <- (Nat.add_0_r i), <- lookup_drop, Hdh. done. }
  assert (row_of p idx !! i = Some w) as Hwi.
  { rewrite <- (Nat.add_0_r i), <- lookup_drop, Hdr. done. }
  unfold weight_at. rewrite vget_nat, Hrow. simpl. rewrite Hwi. simpl.
  assert (exists d, (if b then Some w else int_ok (- w)) = Some d /\ d = w * bipolar b)
    as (d & -> & ->).
  { destruct b; [eexists; split; [done|simpl; lia]|].
    rewrite int_ok_Some by lia. eexists. split; [done|]. simpl. lia. }
  simpl. assert (Z.abs (w * bipolar b) <= max_weight p + 1) by (destruct b; simpl; lia).
  rewrite int_ok_Some by lia. simpl.
  rewrite (IH (S i) row).
  - f_equal. lia.
  - by replace (S i) with (i + 1)%nat by lia; rewrite <- drop_drop, Hdr.
  - by replace (S i) with (i + 1)%nat by lia; rewrite <- drop_drop, Hdh.
  - by injection Hlen.
  - done.
  - nia.
Qed.

Lemma ref_score_bound p idx :
  wf p -> (idx < length (bias p))%nat -> Z.abs (ref_score p idx) < 2 ^ 31.
Proof.
  intros Hwf Hidx. pose proof (bias_of_range p Hwf idx Hidx) as Hb.
  destruct (row_of_wf p Hwf idx Hidx) as [Hlen Hr].
  pose proof (wf_fits p Hwf). pose proof (wf_max p Hwf). pose proof (wf_min p Hwf).
  pose proof (wf_hist p Hwf). unfold in_range in Hb. unfold ref_score, vsize in *.
  assert (Z.abs (dot (row_of p idx) (history p)) <=
          Z.of_nat (length (row_of p idx)) * (max_weight p + 1)).
  { apply dot_bound; [lia|]. eapply Forall_impl; [exact Hr|]. unfold in_range. lia. }
  nia.
Qed.

Lemma score_of_ref p idx :
  wf p -> (idx < length (bias p))%nat ->
  score_of p (Z.of_nat idx) = Some (ref_score p idx).
Proof.
  intros Hwf Hidx. unfold score_of. rewrite vget_nat, bias_lookup by done. simpl.
  destruct (row_of_wf p Hwf idx Hidx) as [Hlen Hr].
  pose proof (bias_of_range p Hwf idx Hidx) as Hb.
  pose proof (wf_fits p Hwf). pose proof (wf_max p Hwf). pose proof (wf_min p Hwf).
  pose proof (wf_hist p Hwf). pose proof (wf_rows p Hwf).
  unfold in_range in Hb. unfold vsize in *.
  rewrite (hist_len_nat p Hwf).
  apply (score_loop_dot p idx 0 (row_of p idx)); auto; [apply row_lookup; lia|nia].
Qed.

(** ** The update loop nudges the row *)

Lemma sat_inc_nudge p w :
  wf p -> in_range p w ->
  sat_inc p w = Some (nudge (min_weight p) (max_weight p) true w).
Proof.
  intros Hwf Hw. pose proof (wf_fits p Hwf). pose proof (wf_max p Hwf).
  pose proof (wf_min p Hwf). pose proof (wf_hist p Hwf). unfold vsize, in_range in *.
  unfold sat_inc, nudge. destruct (Z.eqb_spec w (max_weight p)).
  - f_equal. lia.
  - rewrite int_ok_Some by nia. f_equal. lia.
Qed.

Lemma sat_dec_nudge p w :
  wf p -> in_range p w ->
  sat_dec p w = Some (nudge (min_weight p) (max_weight p) false w).
Proof.
  intros Hwf Hw. pose proof (wf_fits p Hwf). pose proof (wf_max p Hwf).
  pose proof (wf_min p Hwf). pose proof (wf_hist p Hwf). unfold vsize, in_range in *.
  unfold sat_dec, nudge. destruct (Z.eqb_spec w (min_weight p)).
  - f_equal. lia.
  - rewrite int_ok_Some by nia. f_equal. lia.
Qed.

Lemma sat_nudge p up w :
  wf p -> in_range p w ->
  (if up : bool then sat_inc p w else sat_dec p w)
  = Some (nudge (min_weight p) (max_weight p) up w).
Proof. destruct up; [apply sat_inc_nudge|apply sat_dec_nudge]. Qed.

Lemma nudge_in_range p up w :
  wf p -> in_range p w -> in_range p (nudge (min_weight p) (max_weight p) up w).
Proof.
  intros Hwf. pose proof (wf_max p Hwf). pose proof (wf_min p Hwf).
  unfold in_range, nudge. destruct up; lia.
Qed.

(** Loop invariant: before iteration [i] the row is [done ++ row], with [row]
    the untouched suffix; afterwards the suffix has been nudged. *)
Lemma update_loop_nudge p idx taken (i : nat) ws pre row h :
  wf p -> (idx < length ws)%nat -> drop i (history p) = h ->
  ws !! idx = Some (pre ++ row) -> length pre = i -> length row = length h ->
  Forall (in_range p) row ->
  update_loop p (Z.of_nat idx) taken (length h) i ws
  = Some (<[idx := pre ++ nudge_row (min_weight p) (max_weight p) taken row h]> ws).
Proof.
  intros Hwf. revert i ws pre row.
  induction h as [|b h IH]; intros i ws pre row Hidx Hdh Hws Hpre Hlen Hr.
  { destruct row; [|done]. simpl. by rewrite list_insert_id. }
  destruct row as [|w row]; [done|]. apply Forall_cons in Hr as [Hw Hr].
  simpl length. simpl update_loop.
  assert (history p !! i = Some b) as ->.
  { rewrite <- (Nat.add_0_r i), <- lookup_drop, Hdh. done. }
  simpl. rewrite vget_nat, Hws. simpl.
  rewrite lookup_app_r, Hpre, Nat.sub_diag by lia. simpl.
  rewrite sat_nudge by done. simpl.
  rewrite vset_nat by (rewrite length_app; simpl; lia). simpl.
  rewrite insert_app_r_alt, Hpre, Nat.sub_diag by lia. simpl.
  rewrite vset_nat by lia. simpl.
  rewrite (IH (S i) _ (pre ++ [nudge (min_weight p) (max_weight p) (Bool.eqb b taken) w]) row).
  - by rewrite list_insert_insert_eq, <- app_assoc.
  - by rewrite length_insert.
  - by replace (S i) with (i + 1)%nat by lia; rewrite <- drop_drop, Hdh.
  - rewrite list_lookup_insert_eq by lia. by rewrite <- app_assoc.
  - rewrite length_app. simpl. lia.
  - by injection Hlen.
  - done.
Qed.

Lemma push_history_take h b : push_history h b = take (length h) (b :: h).
Proof.
  unfold push_history. revert b. induction h as [|c h IH]; intros b; [done|].
  change (removelast (b :: c :: h)) with (b :: removelast (c :: h)).
  rewrite IH. done.
Qed.

(** ** Prediction and training against the reference *)

Lemma idx_lt p pc : wf p -> (ref_index p pc < length (bias p))%nat.
Proof. intros Hwf. pose proof (ref_index_bound p pc Hwf). unfold vsize in *. lia. Qed.

Lemma predict_ref p pc :
  wf p ->
  predict p pc = Some (0 <=? ref_score p (ref_index p pc),
                       set_last_score p (ref_score p (ref_index p pc))).
Proof.
  intros Hwf. unfold predict. rewrite index_ref by done. simpl.
  rewrite score_of_ref by (done || by apply idx_lt). done.
Qed.

Lemma train_ref p pc taken : wf p -> train p pc taken = Some (ref_train p pc taken).
Proof.
  intros Hwf. pose proof (idx_lt p pc Hwf) as Hi. pose proof (wf_rows p Hwf).
  unfold train, ref_train, ref_trained. rewrite index_ref by done. simpl.
  rewrite score_of_ref by done. simpl.
  rewrite int_ok_Some by (pose proof (ref_score_bound p _ Hwf Hi); lia). simpl.
  rewrite push_history_take.
  destruct (negb _ || _); simpl; [|done].
  rewrite vget_nat, bias_lookup by done. simpl.
  rewrite sat_nudge by (done || by apply bias_of_range). simpl.
  rewrite vset_nat by done. simpl.
  destruct (row_of_wf p Hwf _ Hi) as [Hlen Hr].
  rewrite (hist_len_nat p Hwf).
  rewrite (update_loop_nudge p _ taken 0 (weights p) [] (row_of p (ref_index p pc)));
    auto; [lia|]. apply row_lookup. lia.
Qed.

(** ** Preservation of well-formedness *)

Lemma wf_set_last_score p s : wf p -> Z.abs s < 2 ^ 31 -> wf (set_last_score p s).
Proof. intros [] Hs. constructor; done. Qed.

Lemma length_nudge_row mn mx t row h :
  length row = length h -> length (nudge_row mn mx t row h) = length h.
Proof. intros Hl. unfold nudge_row. rewrite length_zip_with. lia. Qed.

Lemma nudge_row_in_range p t row h :
  wf p -> Forall (in_range p) row ->
  Forall (in_range p) (nudge_row (min_weight p) (max_weight p) t row h).
Proof.
  intros Hwf Hr. revert h. induction Hr as [|w row Hw Hr IH]; intros [|b h]; simpl; auto.
  constructor; [by apply nudge_in_range|apply IH].
Qed.

Lemma wf_ref_train p pc taken : wf p -> wf (ref_train p pc taken).
Proof.
  intros Hwf. pose proof (idx_lt p pc Hwf) as Hi.
  destruct (row_of_wf p Hwf _ Hi) as [Hlen Hr].
  pose proof (bias_of_range p Hwf _ Hi) as Hb.
  assert (length (take (length (history p)) (taken :: history p)) = length (history p))
    as Hh by (rewrite length_take; simpl; lia).
  pose proof Hwf as Hwf'. destruct Hwf' as [? ? ? Hrows Hhist Hbias Hws ? ?].
  unfold vsize in *. unfold ref_train; constructor; simpl; auto.
  - destruct (ref_trained p (ref_index p pc) taken); [|done].
    unfold vsize. by rewrite length_insert.
  - destruct (ref_trained p (ref_index p pc) taken); [|done]. by rewrite !length_insert.
  - unfold vsize. simpl in Hh. lia.
  - destruct (ref_trained p (ref_index p pc) taken); [|done].
    apply Forall_insert; [done|]. by apply (nudge_in_range p).
  - simpl in Hh. rewrite Hh.
    destruct (ref_trained p (ref_index p pc) taken); [|done].
    apply Forall_insert; [done|]. split.
    + by apply length_nudge_row.
    + by apply (nudge_row_in_range p).
Qed.

Lemma wf_reset p : wf p -> wf (reset p).
Proof.
  intros Hwf. destruct Hwf as [Hmx Hmn ? Hrows Hhist Hbias Hws ? ?].
  unfold vsize in *. unfold reset.
  constructor; simpl; rewrite ?length_map; auto; unfold vsize; rewrite ?length_map; auto.
  - rewrite Forall_map. apply Forall_true. intros x. unfold in_range. simpl. lia.
  - rewrite Forall_map. eapply Forall_impl; [exact Hws|]. intros row [Hl _]. simpl.
    rewrite !length_map. split; [done|].
    rewrite Forall_map. apply Forall_true. intros x. unfold in_range. simpl. lia.
  - lia.
Qed.

(** The constructor's arguments are sensible: a non-empty table that an [int]
    can index, a weight width of 1 to 31 bits and a history short enough for
    the score to fit in an [int]. *)
Definition good_params (n_entries hist_len w_bits : Z) : Prop :=
  1 <= n_entries <= 2 ^ 31 /\ 0 <= hist_len /\ 1 <= w_bits <= 31 /\
  (hist_len + 1) * 2 ^ (w_bits - 1) < 2 ^ 31.

Lemma perceptron_new_wf n_entries hl w_bits :
  good_params n_entries hl w_bits ->
  exists p, perceptron_new n_entries hl w_bits = Some p /\ wf p /\
            reset p = p /\ vsize (bias p) = n_entries /\ hist_len p = hl /\
            max_weight p = 2 ^ (w_bits - 1) - 1.
Proof.
  intros (Hn & Hh & Hw & Hf). unfold perceptron_new.
  assert (0 < 2 ^ (w_bits - 1) <= 2 ^ 30).
  { split; [apply Z.pow_pos_nonneg; lia|]. apply Z.pow_le_mono_r; lia. }
  rewrite uwrap_small by lia.
  rewrite shl_int_1_Some by lia. simpl.
  rewrite int_ok_Some by lia. simpl. rewrite int_ok_Some by lia. simpl.
  eexists. split; [done|]. unfold reset, vsize; simpl.
  split_and!; auto; [|..].
  - constructor; simpl; unfold vsize; rewrite ?length_replicate; try lia.
    + apply Forall_replicate. unfold in_range; simpl; lia.
    + apply Forall_replicate. rewrite length_replicate. split; [done|].
      apply Forall_replicate. unfold in_range; simpl; lia.
  - by rewrite !map_replicate.
  - rewrite length_replicate. lia.
Qed.

(** ** Convergence on a branch with a constant outcome *)

(** [n] consecutive trainings of the same branch with the same outcome. *)
Fixpoint train_n (p : perceptron_predictor_t) (pc : Z) (taken : bool) (n : nat)
  : option perceptron_predictor_t :=
  match n with
  | O => Some p
  | S n => p' ← train p pc taken; train_n p' pc taken n
  end.

(** The same on the reference. *)
Fixpoint ref_train_n (p : perceptron_predictor_t) (pc : Z) (taken : bool) (n : nat)
  : perceptron_predictor_t :=
  match n with
  | O => p
  | S n => ref_train_n (ref_train p pc taken) pc taken n
  end.

Lemma train_n_ref p pc taken n :
  wf p -> train_n p pc taken n = Some (ref_train_n p pc taken n) /\
          wf (ref_train_n p pc taken n).
Proof.
  revert p. induction n as [|n IH]; intros p Hwf; simpl; [done|].
  rewrite train_ref by done. simpl. apply IH. by apply wf_ref_train.
Qed.

Lemma ref_train_n_add p pc taken m n :
  ref_train_n p pc taken (m + n) = ref_train_n (ref_train_n p pc taken m) pc taken n.
Proof. revert p. induction m as [|m IH]; intros p; simpl; [done|]. apply IH. Qed.

Lemma replicate_snoc_shift {A} k (x : A) l :
  replicate k x ++ x :: l = x :: replicate k x ++ l.
Proof. induction k as [|k IH]; simpl; [done|]. by rewrite IH. Qed.

(** [k] trainings put [k] copies of the outcome at the front of the history. *)
Lemma ref_train_n_history p pc taken k :
  history (ref_train_n p pc taken k)
  = take (length (history p)) (replicate k taken ++ history p).
Proof.
  revert p. induction k as [|k IH]; intros p; simpl.
  { by rewrite take_ge. }
  rewrite IH. simpl history.
  assert (length (take (length (history p)) (taken :: history p)) = length (history p))
    as -> by (rewrite length_take; simpl; lia).
  destruct (history p) as [|c h] eqn:Hh; [done|].
  rewrite <- replicate_snoc_shift, !take_app, length_replicate.
  f_equal. rewrite take_take. f_equal. simpl. lia.
Qed.

(** A history of [t] only. *)
Definition uniform (p : perceptron_predictor_t) (t : bool) : Prop :=
  history p = replicate (length (history p)) t.

(** After [n] effective updates towards outcome [t] on a uniform history. *)
Definition near (p : perceptron_predictor_t) (idx : nat) (t : bool) (n : nat) : Prop :=
  (if t then Z.min (max_weight p) (min_weight p + Z.of_nat n) <= bias_of p idx
   else bias_of p idx <= Z.max (min_weight p) (max_weight p - Z.of_nat n)) /\
  Forall (fun w => Z.min (max_weight p) (min_weight p + Z.of_nat n) <= w) (row_of p idx).

Lemma uniform_train p pc t : uniform p t -> history (ref_train p pc t) = history p.
Proof.
  unfold uniform, ref_train. simpl. generalize (length (history p)). intros n ->.
  assert (forall k, take k (t :: replicate k t) = replicate k t) as H.
  { induction k as [|k IH]; [done|]. simpl. by rewrite IH. }
  apply H.
Qed.

Lemma ref_train_hist_len p pc t : hist_len (ref_train p pc t) = hist_len p.
Proof. done. Qed.

Lemma ref_train_size p pc t : vsize (bias (ref_train p pc t)) = vsize (bias p).
Proof.
  unfold ref_train, vsize. simpl. destruct (ref_trained _ _ _); [|done].
  by rewrite length_insert.
Qed.

Lemma uniform_index p pc t :
  uniform p t -> ref_index (ref_train p pc t) pc = ref_index p pc.
Proof.
  intros Hu. unfold ref_index.
  by rewrite uniform_train, ref_train_hist_len, ref_train_size.
Qed.

(** An unconfident or wrong prediction moves the selected row. *)
Lemma trained_row p pc t :
  wf p -> ref_trained p (ref_index p pc) t = true ->
  bias_of (ref_train p pc t) (ref_index p pc)
  = nudge (min_weight p) (max_weight p) t (bias_of p (ref_index p pc)) /\
  row_of (ref_train p pc t) (ref_index p pc)
  = nudge_row (min_weight p) (max_weight p) t (row_of p (ref_index p pc)) (history p).
Proof.
  intros Hwf Ht. pose proof (idx_lt p pc Hwf). pose proof (wf_rows p Hwf).
  unfold bias_of at 1, row_of at 1, ref_train. simpl. rewrite Ht.
  rewrite !list_lookup_insert_eq by lia. done.
Qed.

Lemma untrained_row p pc t :
  uniform p t -> ref_trained p (ref_index p pc) t = false ->
  ref_score (ref_train p pc t) (ref_index p pc) = ref_score p (ref_index p pc).
Proof.
  intros Hu Ht. unfold ref_score. rewrite uniform_train by done.
  unfold bias_of, row_of, ref_train. simpl. by rewrite Ht.
Qed.

Lemma nudge_row_uniform p t row n k :
  Forall (fun w => Z.min (max_weight p) (min_weight p + Z.of_nat k) <= w) row ->
  Forall (fun w => Z.min (max_weight p) (min_weight p + Z.of_nat (S k)) <= w)
         (nudge_row (min_weight p) (max_weight p) t row (replicate n t)).
Proof.
  intros Hr. revert n. induction Hr as [|w row Hw Hr IH]; intros [|n]; simpl; auto.
  constructor; [|apply IH]. rewrite Bool.eqb_reflx. unfold nudge. lia.
Qed.

(** One training step: the row is either settled (correct and confident, hence
    never touched again) or one step nearer to saturation. *)
Lemma converge_step p pc t n :
  wf p -> uniform p t ->
  ref_trained p (ref_index p pc) t = false \/ near p (ref_index p pc) t n ->
  let p' := ref_train p pc t in
  ref_trained p' (ref_index p' pc) t = false \/ near p' (ref_index p' pc) t (S n).
Proof.
  intros Hwf Hu Hn p'. unfold p'. rewrite (uniform_index p pc t Hu).
  destruct (ref_trained p (ref_index p pc) t) eqn:Ht.
  - destruct Hn as [Hn|[Hb Hr]]; [done|]. right.
    destruct (trained_row p pc t Hwf Ht) as [Eb Er].
    unfold near. rewrite Eb, Er. simpl max_weight. simpl min_weight. split.
    + unfold nudge. pose proof (wf_max p Hwf). pose proof (wf_min p Hwf). destruct t; lia.
    + rewrite Hu. by apply nudge_row_uniform.
  - left. unfold ref_trained. rewrite untrained_row by done. exact Ht.
Qed.

Lemma ref_train_n_converges p pc t k n :
  wf p -> uniform p t ->
  ref_trained p (ref_index p pc) t = false \/ near p (ref_index p pc) t k ->
  let p' := ref_train_n p pc t n in
  wf p' /\ uniform p' t /\ max_weight p' = max_weight p /\
  (ref_trained p' (ref_index p' pc) t = false \/ near p' (ref_index p' pc) t (k + n)).
Proof.
  revert p k. induction n as [|n IH]; intros p k Hwf Hu Hn; simpl.
  { rewrite Nat.add_0_r. done. }
  destruct (IH (ref_train p pc t) (S k)) as (? & ? & Hmx & ?).
  - by apply wf_ref_train.
  - unfold uniform. rewrite uniform_train by done. exact Hu.
  - by apply converge_step.
  - rewrite Nat.add_succ_r. by rewrite Hmx.
Qed.

Lemma dot_uniform mx row n t :
  Forall (fun w => mx <= w) row -> 0 <= mx -> 0 <= bipolar t * dot row (replicate n t).
Proof.
  intros Hr Hmx. revert n. induction Hr as [|w row Hw Hr IH]; intros [|n]; simpl; try lia.
  specialize (IH n). destruct t; simpl in *; lia.
Qed.

(** A settled or saturated row predicts the outcome. *)
Lemma converged_predicts p idx t n :
  wf p -> uniform p t -> max_weight p - min_weight p <= Z.of_nat n ->
  ref_trained p idx t = false \/ near p idx t n ->
  (0 <=? ref_score p idx) = t.
Proof.
  intros Hwf Hu Hn [Hs|[Hb Hr]].
  - unfold ref_trained in Hs. apply orb_false_iff in Hs as [Hs _].
    apply negb_false_iff, Bool.eqb_prop in Hs. exact Hs.
  - pose proof (wf_max p Hwf). pose proof (wf_min p Hwf).
    assert (Forall (fun w => max_weight p <= w) (row_of p idx)) as Hr'.
    { eapply Forall_impl; [exact Hr|]. simpl. lia. }
    pose proof (dot_uniform _ _ (length (history p)) t Hr' ltac:(lia)) as Hd.
    unfold ref_score. rewrite Hu. destruct t; simpl in *.
    + apply Z.leb_le. lia.
    + apply Z.leb_gt. lia.
Qed.

(** ** Sequences of operations *)

Inductive perceptron_op :=
  | OpPredict (pc : Z)
  | OpTrain (pc : Z) (actual_taken : bool)
  | OpReset.

Definition run_op (p : perceptron_predictor_t) (o : perceptron_op)
  : option perceptron_predictor_t :=
  match o with
  | OpPredict pc => r ← predict p pc; Some r.2
  | OpTrain pc t => train p pc t
  | OpReset => Some (reset p)
  end.

Fixpoint run (p : perceptron_predictor_t) (os : list perceptron_op)
  : option perceptron_predictor_t :=
  match os with
  | [] => Some p
  | o :: os => p' ← run_op p o; run p' os
  end.

(** What no operation changes. *)
Definition same_shape (p q : perceptron_predictor_t) : Prop :=
  hist_len q = hist_len p /\ theta q = theta p /\ max_weight q = max_weight p /\
  min_weight q = min_weight p /\ length (bias q) = length (bias p).

Lemma run_op_wf p o :
  wf p -> exists q, run_op p o = Some q /\ wf q /\ same_shape p q.
Proof.
  intros Hwf. destruct o as [pc|pc t|]; simpl.
  - rewrite predict_ref by done. simpl. eexists. split; [done|]. split; [|done].
    apply wf_set_last_score; [done|]. by apply ref_score_bound, idx_lt.
  - rewrite train_ref by done. eexists. split; [done|].
    split; [by apply wf_ref_train|]. unfold same_shape. split_and!; try done.
    pose proof (ref_train_size p pc t). unfold vsize in *. lia.
  - eexists. split; [done|]. split; [by apply wf_reset|]. unfold same_shape. simpl.
    by rewrite length_map.
Qed.

Lemma run_wf p os :
  wf p -> exists q, run p os = Some q /\ wf q /\ same_shape p q.
Proof.
  revert p. induction os as [|o os IH]; intros p Hwf; simpl; [by eexists|].
  destruct (run_op_wf p o Hwf) as (q & -> & Hq & Hs). simpl.
  destruct (IH q Hq) as (r & -> & Hr & Hs'). eexists. split; [done|]. split; [done|].
  unfold same_shape in *. intuition congruence.
Qed.

(** Two well-formed predictors of the same shape have the same reset state. *)
Lemma reset_same_shape p q : wf p -> wf q -> same_shape p q -> reset q = reset p.
Proof.
  intros Hp Hq (Hh & Ht & Hmx & Hmn & Hb). unfold reset.
  assert (forall p, wf p -> map (fun row => map (fun _ : Z => 0) row) (weights p)
            = replicate (length (bias p)) (replicate (length (history p)) 0)) as Hw.
  { clear. intros p Hp. rewrite <- (wf_rows p Hp).
    pose proof (wf_weights p Hp) as H. induction H as [|row ws [Hl _] H IH]; simpl; [done|].
    by rewrite IH, map_const_replicate, Hl. }
  assert (length (history q) = length (history p)) as Hhist.
  { pose proof (wf_hist p Hp). pose proof (wf_hist q Hq). unfold vsize in *. lia. }
  by rewrite !Hw, !map_const_replicate, Hh, Ht, Hmx, Hmn, Hb, Hhist.
Qed.

(** * Properties *)

(** With sensible constructor arguments, no sequence of predictions,
    trainings and resets ever runs into undefined behaviour (no out-of-range
    vector access, no signed overflow), and every weight stays within the
    saturation bounds, whatever the branches are. *)
Theorem perceptron_safe n_entries hl w_bits os :
  good_params n_entries hl w_bits ->
  exists p q, perceptron_new n_entries hl w_bits = Some p /\
    run p os = Some q /\ wf q.
Proof.
  intros Hg. destruct (perceptron_new_wf _ _ _ Hg) as (p & Hp & Hwf & _).
  destruct (run_wf p os Hwf) as (q & Hq & Hwfq & _). eauto.
Qed.

Lemma perceptron_safe_witness :
  exists p q, perceptron_new 1024 48 8 = Some p /\
    run p [OpTrain 0x80000010 true; OpPredict 0x80000010; OpReset] = Some q /\ wf q.
Proof.
  apply perceptron_safe. unfold good_params. lia.
Defined.

(** On a well-formed predictor, [predict] returns whether
    [bias + sum_i w_i * x_i >= 0], with [x_i = 1] for a taken and [-1] for a
    not-taken history bit, records that score, and reports high confidence
    exactly when the score's magnitude exceeds the threshold; the tables and
    the history are unchanged. *)
Theorem perceptron_predict_correct p pc :
  wf p ->
  let s := bias_of p (ref_index p pc) + dot (row_of p (ref_index p pc)) (history p) in
  exists p', predict p pc = Some (0 <=? s, p') /\
    last_score p' = s /\
    last_prediction_high_confidence p' = Some (theta p <? Z.abs s) /\
    bias p' = bias p /\ weights p' = weights p /\ history p' = history p.
Proof.
  intros Hwf s. eexists. split; [by apply predict_ref|]. split; [done|]. split; [|done].
  pose proof (ref_score_bound p _ Hwf (idx_lt p pc Hwf)).
  unfold last_prediction_high_confidence. simpl.
  rewrite int_ok_Some by lia. done.
Qed.

(** A small trained predictor: 4 entries, 3 history bits, 4-bit weights. *)
Definition small_predictor : perceptron_predictor_t :=
  {| hist_len := 3; theta := 76; max_weight := 7; min_weight := -8;
     bias := [1; -2; 3; 0]; weights := [[1; 2; 3]; [0; 0; -8]; [7; 7; 7]; [0; -1; 1]];
     history := [true; false; true]; last_score := 0 |}.

Lemma small_predictor_wf : wf small_predictor.
Proof.
  constructor; unfold vsize; simpl; try lia; repeat constructor; simpl; lia.
Qed.

Lemma perceptron_predict_correct_witness :
  exists p', predict small_predictor 0x10 = Some (true, p') /\ last_score p' = 3.
Proof.
  destruct (perceptron_predict_correct small_predictor 0x10 small_predictor_wf)
    as (p' & H & Hs & _).
  exists p'. split; [rewrite H; vm_compute; reflexivity|rewrite Hs; vm_compute; reflexivity].
Defined.

(** C11: [train] is the perceptron learning rule: the selected row moves by one
    saturating step per weight (towards the outcome for a history bit that
    agrees with it, away for one that does not) exactly when the prediction was
    wrong or its magnitude at most the threshold; every other row is untouched,
    and the outcome is shifted into the history. *)
Theorem perceptron_train_correct p pc taken :
  wf p -> train p pc taken = Some (ref_train p pc taken) /\ wf (ref_train p pc taken).
Proof. intros Hwf. split; [by apply train_ref|by apply wf_ref_train]. Qed.

Lemma perceptron_train_correct_witness :
  train small_predictor 0x10 false
  = Some {| hist_len := 3; theta := 76; max_weight := 7; min_weight := -8;
            bias := [0; -2; 3; 0];
            weights := [[0; 3; 2]; [0; 0; -8]; [7; 7; 7]; [0; -1; 1]];
            history := [false; true; false]; last_score := 0 |}.
Proof.
  destruct (perceptron_train_correct small_predictor 0x10 false small_predictor_wf) as [-> _].
  vm_compute. reflexivity.
Defined.

(** C37: a branch with a constant outcome is learned: from every well-formed
    state, after [hist_len] executions to fill the history and as many as a
    weight has values, the branch is predicted correctly, and stays so. *)
Theorem perceptron_converges p pc taken n :
  wf p ->
  hist_len p + (max_weight p - min_weight p) <= Z.of_nat n ->
  exists p', train_n p pc taken n = Some p' /\ wf p' /\
             fst <$> predict p' pc = Some taken.
Proof.
  intros Hwf Hn. destruct (train_n_ref p pc taken n Hwf) as [-> Hwf'].
  eexists. split; [done|]. split; [done|]. rewrite predict_ref by done. simpl. f_equal.
  pose proof (wf_hist p Hwf) as Hh. unfold vsize in Hh.
  pose proof (wf_min p Hwf). pose proof (wf_max p Hwf).
  set (m := length (history p)) in *.
  replace n with (m + (n - m))%nat in Hwf' |- * by lia.
  rewrite ref_train_n_add in Hwf' |- *.
  destruct (train_n_ref p pc taken m Hwf) as [_ Hwfm].
  assert (length (history (ref_train_n p pc taken m)) = m) as Hlm.
  { rewrite ref_train_n_history, length_take, length_app, length_replicate. lia. }
  assert (uniform (ref_train_n p pc taken m) taken) as Hu.
  { unfold uniform. rewrite Hlm, ref_train_n_history.
    by rewrite take_app_length' by (by rewrite length_replicate). }
  assert (forall k q, max_weight (ref_train_n q pc taken k) = max_weight q /\
                      min_weight (ref_train_n q pc taken k) = min_weight q) as Hk.
  { clear. induction k as [|k IH]; intros q; [done|]. apply (IH (ref_train q pc taken)). }
  destruct (Hk m p) as [Hmx Hmn].
  destruct (ref_train_n_converges (ref_train_n p pc taken m) pc taken 0 (n - m))
    as (_ & Hu' & Hmx' & Hnear); [done|done| |].
  - right. split.
    + pose proof (bias_of_range _ Hwfm _ (idx_lt _ pc Hwfm)) as Hb. unfold in_range in Hb.
      destruct taken; lia.
    + destruct (row_of_wf _ Hwfm _ (idx_lt _ pc Hwfm)) as [_ Hr].
      eapply Forall_impl; [exact Hr|]. unfold in_range. simpl. lia.
  - eapply converged_predicts; [exact Hwf'|exact Hu'| |exact Hnear].
    destruct (Hk (n - m)%nat (ref_train_n p pc taken m)) as [-> ->]. lia.
Qed.

Lemma perceptron_converges_witness :
  exists p', train_n small_predictor 0x10 false 18 = Some p' /\
             fst <$> predict p' 0x10 = Some false.
Proof.
  destruct (perceptron_converges small_predictor 0x10 false 18 small_predictor_wf)
    as (p' & H & _ & Hp); [simpl; lia|]. eauto.
Defined.

(** [reset] returns the predictor to the state the constructor builds,
    after any sequence of operations. *)
Theorem perceptron_reset_fresh n_entries hl w_bits os :
  good_params n_entries hl w_bits ->
  exists p q, perceptron_new n_entries hl w_bits = Some p /\
    run p os = Some q /\ reset q = p.
Proof.
  intros Hg. destruct (perceptron_new_wf _ _ _ Hg) as (p & Hp & Hwf & Hr & _).
  destruct (run_wf p os Hwf) as (q & Hq & Hwfq & Hs).
  exists p, q. rewrite (reset_same_shape p q Hwf Hwfq Hs). done.
Qed.

Lemma perceptron_reset_fresh_witness :
  exists p q, perceptron_new 2 3 4 = Some p /\
    run p [OpTrain 16 true; OpTrain 24 false] = Some q /\ reset q = p.
Proof. apply perceptron_reset_fresh. unfold good_params. lia. Defined.
