(* ===== verification/Tage.v ===== *)
(** * The TAGE branch predictor

    Model of [class tage_predictor_t]
    ([src/riscv-isa-sim/riscv/tage_predictor.{h,cc}]): a bimodal base table and
    a list of tagged tables indexed with geometrically longer histories.  As in
    [Perceptron], [None] is undefined behaviour.  The theorems show that no
    sequence of operations is undefined, that counters, usefulness bits and tags
    keep their widths, that the provider and the alternate of a prediction are
    the two longest-history matches, and what training and allocation change. *)

From stdpp Require Import base option list.
From S2P Require Import Prelude BranchHash.

Record tage_table_info_t := mk_table_info {
  n_entries : Z;
  hist_len : Z;
  tag_bits : Z;
}.

Record tage_params_t := mk_params {
  base_entries : Z;
  base_ctr_bits : Z;
  tagged_ctr_bits : Z;
  usefulness_bits : Z;
  use_alt_on_weak : bool;
  usefulness_reset_period : Z;
  table_info : list tage_table_info_t;
}.

Definition boom_like_default : tage_params_t := {|
  base_entries := 2048;
  base_ctr_bits := 2;
  tagged_ctr_bits := 3;
  usefulness_bits := 2;
  use_alt_on_weak := true;
  usefulness_reset_period := 1 .<< 14;
  table_info :=
    [ mk_table_info 256 4 7;
      mk_table_info 256 8 7;
      mk_table_info 256 16 8;
      mk_table_info 256 32 9;
      mk_table_info 256 64 10 ];
|}.

Record tagged_entry_t := mk_entry {
  tag : Z;
  ctr : Z;
  useful : Z;
}.

Record last_lookup_t := mk_lookup {
  valid : bool;
  lk_pc : Z;
  final_prediction : bool;
  provider_prediction : bool;
  alternate_prediction : bool;
  provider_hit : bool;
  alternate_hit : bool;
  provider_weak : bool;
  used_alternate : bool;
  provider_bank : Z;
  alternate_bank : Z;
  provider_index : Z;
  alternate_index : Z;
  provider_tag : Z;
  alternate_tag : Z;
  indices : list Z;
  tags : list Z;
}.

(** [last_lookup = {}] *)
Definition empty_lookup : last_lookup_t := {|
  valid := false; lk_pc := 0; final_prediction := false; provider_prediction := false;
  alternate_prediction := false; provider_hit := false; alternate_hit := false;
  provider_weak := false; used_alternate := false; provider_bank := 0;
  alternate_bank := 0; provider_index := 0; alternate_index := 0; provider_tag := 0;
  alternate_tag := 0; indices := []; tags := [];
|}.

Record tage_predictor_t := mk_tage {
  params : tage_params_t;
  max_hist_len : Z;
  branch_updates : Z;
  base_table : list Z;
  tagged_tables : list (list tagged_entry_t);
  history : list bool;
  last_lookup : last_lookup_t;
}.

(** ** Field updates *)

Definition with_base (s : tage_predictor_t) (b : list Z) : tage_predictor_t :=
  mk_tage (params s) (max_hist_len s) (branch_updates s) b (tagged_tables s)
          (history s) (last_lookup s).

Definition with_tagged (s : tage_predictor_t) (ts : list (list tagged_entry_t)) : tage_predictor_t :=
  mk_tage (params s) (max_hist_len s) (branch_updates s) (base_table s) ts
          (history s) (last_lookup s).

Definition with_history (s : tage_predictor_t) (h : list bool) : tage_predictor_t :=
  mk_tage (params s) (max_hist_len s) (branch_updates s) (base_table s)
          (tagged_tables s) h (last_lookup s).

Definition with_updates (s : tage_predictor_t) (n : Z) : tage_predictor_t :=
  mk_tage (params s) (max_hist_len s) n (base_table s) (tagged_tables s)
          (history s) (last_lookup s).

Definition with_lookup (s : tage_predictor_t) (l : last_lookup_t) : tage_predictor_t :=
  mk_tage (params s) (max_hist_len s) (branch_updates s) (base_table s)
          (tagged_tables s) (history s) l.

(** [tagged_tables[bank][i]], read and written *)
Definition entry_get (ts : list (list tagged_entry_t)) (bank i : Z) : option tagged_entry_t :=
  t ← vget ts bank; vget t i.

Definition entry_set (ts : list (list tagged_entry_t)) (bank i : Z) (e : tagged_entry_t)
  : option (list (list tagged_entry_t)) :=
  t ← vget ts bank; t' ← vset t i e; vset ts bank t'.

(** ** Construction and reset *)

Definition zero_entry : tagged_entry_t := mk_entry 0 0 0.

Definition reset (s : tage_predictor_t) : tage_predictor_t :=
  mk_tage (params s) (max_hist_len s) 0
    (map (fun _ => 0) (base_table s))
    (map (fun t => map (fun _ => zero_entry) t) (tagged_tables s))
    (map (fun _ => false) (history s))
    empty_lookup.

(** The constructor's loop over [params.table_info]: the longest history and
    one zero-filled table per entry. *)
Definition tage_new (params : tage_params_t) : tage_predictor_t :=
  let mh := fold_left (fun m info => Z.max m (hist_len info)) (table_info params) 0 in
  let ts := map (fun info => replicate (Z.to_nat (n_entries info)) zero_entry)
                (table_info params) in
  reset (mk_tage params mh 0 (replicate (Z.to_nat (base_entries params)) 0) ts
                 (replicate (Z.to_nat mh) false) empty_lookup).

(** ** Index and tag hashes *)

Definition base_index (s : tage_predictor_t) (pc : Z) : Z :=
  s32 ((pc .>> 2) .& u64 (base_entries (params s) - 1)).

Definition table_index (s : tage_predictor_t) (table pc : Z) : option Z :=
  info ← vget (table_info (params s)) table;
  let idx_bits := log2_pow2 (n_entries info) in
  f ← fold_history (history s) (hist_len info) idx_bits;
  let hash := (pc .>> 2) .^ f in
  let hash := hash .^ mix64 (u64 (pc + u64 (table * 0x9e3779b97f4a7c15))) in
  Some (hash .& u64 (n_entries info - 1)).

Definition table_tag (s : tage_predictor_t) (table pc : Z) : option Z :=
  info ← vget (table_info (params s)) table;
  f ← fold_history (history s) (hist_len info) (tag_bits info);
  let tag := (pc .>> 2) .^ f in
  tag ← (if 1 <? tag_bits info then
           g ← fold_history (history s) (u64 (hist_len info / 2 + 1))
                            (u32 (tag_bits info - 1));
           Some (tag .^ g)
         else Some tag);
  let tag := tag .^ mix64 (pc .^ (u64 (table + 1))) in
  m ← shl64 1 (tag_bits info);
  Some (u16 (tag .& u64 (m - 1))).

(** ** Counters *)

Definition counter_predicts_taken (value : Z) : bool := 0 <=? value.

Definition counter_is_weak (value bits : Z) : bool :=
  (Z.abs value <=? 1) || (bits <=? 1).

Definition counter_is_strong (value bits : Z) : bool := negb (counter_is_weak value bits).

Definition counter_min (bits : Z) : option Z :=
  p ← shl_int_1 (u32 (bits - 1)); int_ok (- p).

Definition counter_max (bits : Z) : option Z :=
  p ← shl_int_1 (u32 (bits - 1)); int_ok (p - 1).

Definition sat_inc (value bits : Z) : option Z :=
  m ← counter_max bits; if value =? m then Some value else int_ok (value + 1).

Definition sat_dec (value bits : Z) : option Z :=
  m ← counter_min bits; if value =? m then Some value else int_ok (value - 1).

(** [x = actual_taken ? sat_inc(x, bits) : sat_dec(x, bits)] on an [int8_t]. *)
Definition bump (taken : bool) (value bits : Z) : option Z :=
  v ← (if taken then sat_inc value bits else sat_dec value bits); Some (s8 v).

(** ** Prediction *)

(** The assignments at the head of [predict], with the index and tag vectors
    filled in by the first loop. *)
Definition start_lookup (l : last_lookup_t) (pc : Z) (idxs tgs : list Z) : last_lookup_t := {|
  valid := true; lk_pc := pc;
  final_prediction := final_prediction l;
  provider_prediction := provider_prediction l;
  alternate_prediction := alternate_prediction l;
  provider_hit := false; alternate_hit := false;
  provider_weak := provider_weak l; used_alternate := used_alternate l;
  provider_bank := -1; alternate_bank := -1;
  provider_index := -1; alternate_index := -1;
  provider_tag := 0; alternate_tag := 0;
  indices := idxs; tags := tgs;
|}.

Definition set_provider (l : last_lookup_t) (bank idx tg : Z) : last_lookup_t := {|
  valid := valid l; lk_pc := lk_pc l; final_prediction := final_prediction l;
  provider_prediction := provider_prediction l;
  alternate_prediction := alternate_prediction l;
  provider_hit := true; alternate_hit := alternate_hit l;
  provider_weak := provider_weak l; used_alternate := used_alternate l;
  provider_bank := bank; alternate_bank := alternate_bank l;
  provider_index := s32 idx; alternate_index := alternate_index l;
  provider_tag := tg; alternate_tag := alternate_tag l;
  indices := indices l; tags := tags l;
|}.

Definition set_alternate (l : last_lookup_t) (bank idx tg : Z) : last_lookup_t := {|
  valid := valid l; lk_pc := lk_pc l; final_prediction := final_prediction l;
  provider_prediction := provider_prediction l;
  alternate_prediction := alternate_prediction l;
  provider_hit := provider_hit l; alternate_hit := true;
  provider_weak := provider_weak l; used_alternate := used_alternate l;
  provider_bank := provider_bank l; alternate_bank := bank;
  provider_index := provider_index l; alternate_index := s32 idx;
  provider_tag := provider_tag l; alternate_tag := tg;
  indices := indices l; tags := tags l;
|}.

(** The four results of a prediction. *)
Definition set_results (l : last_lookup_t) (final prov alt weak used : bool)
  : last_lookup_t := {|
  valid := valid l; lk_pc := lk_pc l; final_prediction := final;
  provider_prediction := prov; alternate_prediction := alt;
  provider_hit := provider_hit l; alternate_hit := alternate_hit l;
  provider_weak := weak; used_alternate := used;
  provider_bank := provider_bank l; alternate_bank := alternate_bank l;
  provider_index := provider_index l; alternate_index := alternate_index l;
  provider_tag := provider_tag l; alternate_tag := alternate_tag l;
  indices := indices l; tags := tags l;
|}.

(** [for (t = size - 1; t >= 0; --t)]: [t] tables are left to visit. *)
Fixpoint match_loop (ts : list (list tagged_entry_t)) (t : nat) (l : last_lookup_t)
  : option last_lookup_t :=
  match t with
  | O => Some l
  | S t =>
      i ← indices l !! t;
      g ← tags l !! t;
      e ← entry_get ts (Z.of_nat t) i;
      if tag e =? g then
        if negb (provider_hit l) then
          match_loop ts t (set_provider l (Z.of_nat t) i g)
        else if negb (alternate_hit l) then
          Some (set_alternate l (Z.of_nat t) i g)
        else match_loop ts t l
      else match_loop ts t l
  end.

Definition predict (s : tage_predictor_t) (pc : Z) : option (bool * tage_predictor_t) :=
  let n := length (table_info (params s)) in
  let bimodal_idx := base_index s pc in
  base ← vget (base_table s) bimodal_idx;
  let base_pred := counter_predicts_taken base in
  idxs ← mapM (fun t => table_index s (Z.of_nat t) pc) (seq 0 n);
  tgs ← mapM (fun t => table_tag s (Z.of_nat t) pc) (seq 0 n);
  l ← match_loop (tagged_tables s) n (start_lookup (last_lookup s) pc idxs tgs);
  alt ← (if alternate_hit l then
           e ← entry_get (tagged_tables s) (alternate_bank l) (alternate_index l);
           Some (counter_predicts_taken (ctr e))
         else Some base_pred);
  if negb (provider_hit l) then
    let weak := counter_is_weak base (base_ctr_bits (params s)) in
    Some (base_pred, with_lookup s (set_results l base_pred base_pred alt weak false))
  else
    e ← entry_get (tagged_tables s) (provider_bank l) (provider_index l);
    let prov := counter_predicts_taken (ctr e) in
    let weak := counter_is_weak (ctr e) (tagged_ctr_bits (params s)) in
    let used := use_alt_on_weak (params s) && weak && alternate_hit l in
    let final := if used then alt else prov in
    Some (final, with_lookup s (set_results l final prov alt weak used)).

(** ** Training *)

Definition update_usefulness (s : tage_predictor_t) (provider_correct alternate_correct : bool)
  : option tage_predictor_t :=
  let l := last_lookup s in
  if negb (provider_hit l) then Some s
  else
    e ← entry_get (tagged_tables s) (provider_bank l) (provider_index l);
    if Bool.eqb provider_correct alternate_correct then Some s
    else
      m ← (if usefulness_bits (params s) <? 32
           then Some (u32 (1 .<< usefulness_bits (params s))) else None);
      let max_useful := u8 (u32 (m - 1)) in
      let u := if provider_correct then
                 if useful e <? max_useful then u8 (useful e + 1) else useful e
               else if 0 <? useful e then u8 (useful e - 1) else useful e in
      ts ← entry_set (tagged_tables s) (provider_bank l) (provider_index l)
                     (mk_entry (tag e) (ctr e) u);
      Some (with_tagged s ts).

Definition age_usefulness (s : tage_predictor_t) : tage_predictor_t :=
  if usefulness_reset_period (params s) =? 0 then s
  else if negb (branch_updates s mod usefulness_reset_period (params s) =? 0) then s
  else with_tagged s
    (map (map (fun e => mk_entry (tag e) (ctr e) (useful e .>> 1))) (tagged_tables s)).

(** The first loop of [allocate_entries], over [n] tables from [t] on: the
    first entry that is not useful is taken over.  [None] in the inner option:
    no entry was free. *)
Fixpoint alloc_loop (l : last_lookup_t) (init_ctr : Z) (n t : nat)
    (ts : list (list tagged_entry_t)) : option (option (list (list tagged_entry_t))) :=
  match n with
  | O => Some None
  | S n =>
      i ← indices l !! t;
      e ← entry_get ts (Z.of_nat t) i;
      if useful e =? 0 then
        g ← tags l !! t;
        ts' ← entry_set ts (Z.of_nat t) i (mk_entry g init_ctr 0);
        Some (Some ts')
      else alloc_loop l init_ctr n (S t) ts
  end.

(** The second loop: every candidate becomes less useful. *)
Fixpoint decay_loop (l : last_lookup_t) (n t : nat) (ts : list (list tagged_entry_t))
  : option (list (list tagged_entry_t)) :=
  match n with
  | O => Some ts
  | S n =>
      i ← indices l !! t;
      e ← entry_get ts (Z.of_nat t) i;
      ts' ← (if 0 <? useful e
             then entry_set ts (Z.of_nat t) i (mk_entry (tag e) (ctr e) (u8 (useful e - 1)))
             else Some ts);
      decay_loop l n (S t) ts'
  end.

Definition allocate_entries (s : tage_predictor_t) (actual_taken : bool)
  : option tage_predictor_t :=
  let l := last_lookup s in
  let start_table := if provider_hit l then Z.to_nat (u64 (provider_bank l + 1)) else 0%nat in
  let init_ctr := if actual_taken then 0 else -1 in
  let n := (length (table_info (params s)) - start_table)%nat in
  r ← alloc_loop l init_ctr n start_table (tagged_tables s);
  match r with
  | Some ts => Some (with_tagged s ts)
  | None => ts ← decay_loop l n start_table (tagged_tables s); Some (with_tagged s ts)
  end.

Definition push_history (s : tage_predictor_t) (taken : bool) : tage_predictor_t :=
  match history s with
  | [] => s
  | _ => with_history s (removelast (taken :: history s))
  end.

(** [tagged_tables[bank][i].ctr] moved towards the outcome *)
Definition bump_entry (s : tage_predictor_t) (bank i : Z) (taken : bool)
  : option tage_predictor_t :=
  e ← entry_get (tagged_tables s) bank i;
  c ← bump taken (ctr e) (tagged_ctr_bits (params s));
  ts ← entry_set (tagged_tables s) bank i (mk_entry (tag e) c (useful e));
  Some (with_tagged s ts).

Definition bump_base (s : tage_predictor_t) (pc : Z) (taken : bool) : option tage_predictor_t :=
  b ← vget (base_table s) (base_index s pc);
  c ← bump taken b (base_ctr_bits (params s));
  bt ← vset (base_table s) (base_index s pc) c;
  Some (with_base s bt).

Definition train (s : tage_predictor_t) (pc : Z) (actual_taken : bool)
  : option tage_predictor_t :=
  s ← (if negb (valid (last_lookup s)) || negb (lk_pc (last_lookup s) =? pc)
       then r ← predict s pc; Some r.2 else Some s);
  let l := last_lookup s in
  let provider_correct := Bool.eqb (provider_prediction l) actual_taken in
  let alternate_correct := Bool.eqb (alternate_prediction l) actual_taken in
  s ← (if provider_hit l then
         s ← bump_entry s (provider_bank l) (provider_index l) actual_taken;
         s ← (if alternate_hit l && provider_weak l then
                bump_entry s (alternate_bank l) (alternate_index l) actual_taken
              else if negb (alternate_hit l) then bump_base s pc actual_taken
              else Some s);
         update_usefulness s provider_correct alternate_correct
       else bump_base s pc actual_taken);
  s ← (if negb (Bool.eqb (final_prediction l) actual_taken)
       then allocate_entries s actual_taken else Some s);
  let s := push_history s actual_taken in
  let s := with_updates s (u64 (branch_updates s + 1)) in
  Some (age_usefulness s).

Definition last_prediction_high_confidence (s : tage_predictor_t) : option bool :=
  let l := last_lookup s in
  if negb (valid l) then Some false
  else if negb (provider_hit l) then
    b ← vget (base_table s) (base_index s (lk_pc l));
    Some (counter_is_strong b (base_ctr_bits (params s)))
  else
    e ← entry_get (tagged_tables s) (provider_bank l) (provider_index l);
    Some (counter_is_strong (ctr e) (tagged_ctr_bits (params s))).

Definition last_used_alternate (s : tage_predictor_t) : bool :=
  valid (last_lookup s) && used_alternate (last_lookup s).

(** * Well-formedness *)

(** A signed counter of [bits] bits. *)
Definition ctr_ok (bits v : Z) : Prop := - 2 ^ (bits - 1) <= v < 2 ^ (bits - 1).

Definition entry_ok (P : tage_params_t) (e : tagged_entry_t) : Prop :=
  0 <= tag e < 2 ^ 16 /\ ctr_ok (tagged_ctr_bits P) (ctr e) /\
  0 <= useful e < 2 ^ usefulness_bits P.

Definition info_ok (info : tage_table_info_t) : Prop :=
  1 <= n_entries info <= 2 ^ 31 /\ 0 <= hist_len info < 2 ^ 62 /\ 0 <= tag_bits info <= 16.

(** Table sizes an [int] can index, counters that fit in [int8_t], usefulness
    bits that fit in [uint8_t], tags that fit in [uint16_t]. *)
Record params_ok (P : tage_params_t) : Prop := {
  ok_base_entries : 1 <= base_entries P <= 2 ^ 31;
  ok_base_ctr : 1 <= base_ctr_bits P <= 8;
  ok_tagged_ctr : 1 <= tagged_ctr_bits P <= 8;
  ok_useful : 0 <= usefulness_bits P <= 8;
  ok_tables : Z.of_nat (length (table_info P)) < 2 ^ 31;
  ok_infos : Forall info_ok (table_info P);
}.

Definition tables_ok (P : tage_params_t) (ts : list (list tagged_entry_t)) : Prop :=
  Forall2 (fun info t => vsize t = n_entries info /\ Forall (entry_ok P) t)
          (table_info P) ts.

(** Position [i] of table [bank] exists. *)
Definition slot_ok (P : tage_params_t) (bank i : Z) : Prop :=
  0 <= bank /\ exists info, table_info P !! Z.to_nat bank = Some info /\ 0 <= i < n_entries info.

Record lookup_ok (P : tage_params_t) (l : last_lookup_t) : Prop := {
  ok_indices : valid l = true ->
    Forall2 (fun info i => 0 <= i < n_entries info) (table_info P) (indices l);
  ok_tags : valid l = true ->
    Forall2 (fun _ g => 0 <= g < 2 ^ 16) (table_info P) (tags l);
  ok_provider : provider_hit l = true ->
    valid l = true /\ slot_ok P (provider_bank l) (provider_index l);
  ok_alternate : alternate_hit l = true ->
    valid l = true /\ slot_ok P (alternate_bank l) (alternate_index l);
}.

Record wf (s : tage_predictor_t) : Prop := {
  wf_params : params_ok (params s);
  wf_base_len : vsize (base_table s) = base_entries (params s);
  wf_base : Forall (ctr_ok (base_ctr_bits (params s))) (base_table s);
  wf_tables : tables_ok (params s) (tagged_tables s);
  wf_lookup : lookup_ok (params s) (last_lookup s);
  wf_history : vsize (history s) = max_hist_len s;
  wf_updates : 0 <= branch_updates s < 2 ^ 64;
}.

(** ** Table accesses *)

Lemma vset_get {A} (v v' : list A) i x :
  vset v i x = Some v' ->
  vsize v' = vsize v /\ vget v' i = Some x /\
  forall j, j <> i -> vget v' j = vget v j.
Proof.
  unfold vset. destruct (Z.leb_spec 0 i), (Z.ltb_spec i (Z.of_nat (length v)));
    simpl; try done. intros [= <-]. unfold vsize, vget. rewrite length_insert.
  split; [done|]. split.
  - destruct (Z.ltb_spec i 0); [lia|]. rewrite list_lookup_insert_eq by lia. done.
  - intros j Hj. destruct (Z.ltb_spec j 0); [done|].
    rewrite list_lookup_insert_ne by lia. done.
Qed.

Lemma vget_lookup {A} (v : list A) i x :
  vget v i = Some x <-> 0 <= i /\ v !! Z.to_nat i = Some x.
Proof. unfold vget. destruct (Z.ltb_spec i 0); intuition (done || lia). Qed.

Lemma tables_lookup P ts bank i :
  tables_ok P ts -> slot_ok P bank i ->
  exists t, vget ts bank = Some t /\ 0 <= i < vsize t /\ Forall (entry_ok P) t.
Proof.
  intros Hts (Hb & info & Hinfo & Hi).
  destruct (Forall2_lookup_l _ _ _ _ _ Hts Hinfo) as (t & Ht & Hn & He).
  exists t. rewrite vget_lookup. rewrite Hn. done.
Qed.

Lemma entry_get_ok P ts bank i :
  tables_ok P ts -> slot_ok P bank i ->
  exists e, entry_get ts bank i = Some e /\ entry_ok P e.
Proof.
  intros Hts Hs. destruct (tables_lookup P ts bank i Hts Hs) as (t & Ht & Hi & He).
  unfold entry_get. rewrite Ht. simpl.
  destruct (vget_Some t i Hi) as (e & -> & Hl). exists e. split; [done|].
  exact (Forall_lookup_1 _ _ _ _ He Hl).
Qed.

(** Writing an entry changes that entry only. *)
Lemma entry_set_ok P ts bank i e :
  tables_ok P ts -> slot_ok P bank i -> entry_ok P e ->
  exists ts', entry_set ts bank i e = Some ts' /\ tables_ok P ts' /\
    entry_get ts' bank i = Some e /\
    forall b j, (b, j) <> (bank, i) -> entry_get ts' b j = entry_get ts b j.
Proof.
  intros Hts Hs He. destruct (tables_lookup P ts bank i Hts Hs) as (t & Ht & Hi & Hte).
  unfold entry_set. rewrite Ht. simpl. rewrite vset_Some by done. simpl.
  pose proof Ht as Ht'. apply vget_lookup in Ht' as [Hb Hl].
  pose proof (lookup_lt_Some _ _ _ Hl) as Hlt.
  destruct (vset ts bank (<[Z.to_nat i:=e]> t)) as [ts'|] eqn:Hv.
  2: { rewrite vset_Some in Hv by (unfold vsize; lia). done. }
  pose proof Hv as Hv'. rewrite vset_Some in Hv' by (unfold vsize; lia).
  injection Hv' as Hts'.
  destruct (vset_get _ _ _ _ Hv) as (_ & Hg & Hne).
  assert (vset t i e = Some (<[Z.to_nat i:=e]> t)) as Hvt by (by apply vset_Some).
  destruct (vset_get _ _ _ _ Hvt) as (Hsz & Hgt & Hnet).
  eexists. split; [done|]. split; [|split].
  - rewrite <- Hts'. unfold tables_ok. apply Forall2_same_length_lookup_2.
    + rewrite length_insert. by apply (Forall2_length _ _ _ Hts).
    + intros k info tk Hk Htk. apply list_lookup_insert_Some in Htk
        as [(<- & <- & _)|(Hkn & Htk)].
      * destruct (Forall2_lookup_lr _ _ _ _ _ _ Hts Hk Hl) as [Hn _].
        split; [lia|]. by apply Forall_insert.
      * exact (Forall2_lookup_lr _ _ _ _ _ _ Hts Hk Htk).
  - unfold entry_get. rewrite Hg. done.
  - intros b j Hbj. unfold entry_get. destruct (decide (b = bank)) as [->|Hbn].
    + rewrite Hg, Ht. simpl. apply Hnet. congruence.
    + by rewrite Hne.
Qed.

(** ** Counters stay in range *)

Lemma pow2_8 bits : 1 <= bits <= 8 -> 1 <= 2 ^ (bits - 1) <= 128.
Proof.
  intros Hb. split; [apply (Z.pow_le_mono_r 2 0)|apply (Z.pow_le_mono_r 2 _ 7)]; lia.
Qed.

(** The saturating step on a counter of [bits] bits. *)
Definition ref_bump (taken : bool) (v bits : Z) : Z :=
  if taken then Z.min (2 ^ (bits - 1) - 1) (v + 1) else Z.max (- 2 ^ (bits - 1)) (v - 1).

Lemma bump_ref taken v bits :
  1 <= bits <= 8 -> ctr_ok bits v -> bump taken v bits = Some (ref_bump taken v bits).
Proof.
  intros Hb Hv. pose proof (pow2_8 bits Hb). unfold ctr_ok in Hv.
  unfold bump, sat_inc, sat_dec, counter_max, counter_min, ref_bump.
  rewrite (uwrap_small 32 (bits - 1)) by lia. rewrite shl_int_1_Some by lia. simpl.
  rewrite !int_ok_Some by lia. simpl. destruct taken; case_test; simpl.
  all: rewrite ?int_ok_Some by lia; simpl; rewrite swrap_small by lia; f_equal; lia.
Qed.

Lemma ref_bump_ok taken v bits :
  1 <= bits <= 8 -> ctr_ok bits v -> ctr_ok bits (ref_bump taken v bits).
Proof.
  intros Hb. pose proof (pow2_8 bits Hb). unfold ctr_ok, ref_bump. destruct taken; lia.
Qed.

(** ** Hashes are in range *)

Lemma base_index_ok s pc : wf s -> 0 <= base_index s pc < vsize (base_table s).
Proof.
  intros Hwf. pose proof (ok_base_entries _ (wf_params s Hwf)).
  rewrite (wf_base_len s Hwf). unfold base_index. rewrite (uwrap_small 64) by lia.
  match goal with |- context [Z.land ?a ?b] => pose proof (land_le_r a b) end.
  rewrite swrap_small by lia. lia.
Qed.

Lemma table_index_ok s t pc info :
  params_ok (params s) -> table_info (params s) !! t = Some info ->
  exists i, table_index s (Z.of_nat t) pc = Some i /\ 0 <= i < n_entries info.
Proof.
  intros HP Ht. destruct (Forall_lookup_1 _ _ _ _ (ok_infos _ HP) Ht) as (Hn & _ & _).
  unfold table_index. rewrite vget_nat, Ht. simpl. rewrite log2_pow2_log2 by lia.
  assert (0 <= Z.log2 (n_entries info) < 64) as Hl.
  { split; [apply Z.log2_nonneg|]. apply Z.log2_lt_pow2; lia. }
  destruct (fold_history_spec (history s) (hist_len info) _ Hl) as (r & -> & _). simpl.
  eexists. split; [done|]. rewrite (uwrap_small 64 (n_entries info - 1)) by lia.
  match goal with |- context [Z.land ?a (n_entries info - 1)] =>
    pose proof (land_le_r a (n_entries info - 1)) end. lia.
Qed.

Lemma table_tag_ok s t pc info :
  params_ok (params s) -> table_info (params s) !! t = Some info ->
  exists g, table_tag s (Z.of_nat t) pc = Some g /\ 0 <= g < 2 ^ 16.
Proof.
  intros HP Ht. destruct (Forall_lookup_1 _ _ _ _ (ok_infos _ HP) Ht) as (_ & _ & Hg).
  unfold table_tag. rewrite vget_nat, Ht. simpl.
  destruct (fold_history_spec (history s) (hist_len info) (tag_bits info))
    as (r & -> & _); [lia|]. simpl.
  assert (exists g, (if 1 <? tag_bits info then
           g ← fold_history (history s) (u64 (hist_len info / 2 + 1))
                            (u32 (tag_bits info - 1));
           Some ((pc .>> 2) .^ r .^ g) else Some ((pc .>> 2) .^ r)) = Some g) as (g & ->).
  { destruct (Z.ltb_spec 1 (tag_bits info)); [|eauto]. rewrite (uwrap_small 32) by lia.
    destruct (fold_history_spec (history s) (u64 (hist_len info / 2 + 1)) (tag_bits info - 1))
      as (r' & -> & _); [lia|]. simpl. eauto. }
  simpl. rewrite shl64_1 by lia. simpl. eexists. split; [done|]. by apply uwrap_range.
Qed.

Lemma mapM_Some_Forall2 {B C} (f : nat -> option B) (Q : C -> B -> Prop)
    (infos : list C) :
  (forall t c, infos !! t = Some c -> exists y, f t = Some y /\ Q c y) ->
  exists ys, mapM f (seq 0 (length infos)) = Some ys /\ Forall2 Q infos ys.
Proof.
  intros Hf. assert (forall k, (forall t c, infos !! t = Some c ->
      exists y, f (k + t)%nat = Some y /\ Q c y) ->
    exists ys, mapM f (seq k (length infos)) = Some ys /\ Forall2 Q infos ys) as H.
  { clear Hf. induction infos as [|c infos IH]; intros k Hf; simpl; [eauto|].
    destruct (Hf 0%nat c eq_refl) as (y & Hy & HQ). rewrite Nat.add_0_r in Hy.
    rewrite Hy. simpl. destruct (IH (S k)) as (ys & Hys & HF).
    { intros t c' Ht. destruct (Hf (S t) c' Ht) as (y' & Hy' & HQ'). exists y'.
      by rewrite Nat.add_succ_comm. }
    setoid_rewrite Hys. simpl. eauto. }
  by apply (H 0%nat).
Qed.

(** ** The match loop finds the two longest histories *)

(** Whether the entry of table [t] selected by the lookup carries its tag. *)
Definition bank_hits (ts : list (list tagged_entry_t)) (l : last_lookup_t) (t : nat) : bool :=
  match indices l !! t, tags l !! t with
  | Some i, Some g =>
      match entry_get ts (Z.of_nat t) i with
      | Some e => tag e =? g
      | None => false
      end
  | _, _ => false
  end.

(** The hitting tables below [n], longest history first. *)
Fixpoint hit_banks (hit : nat -> bool) (n : nat) : list nat :=
  match n with
  | O => []
  | S n => if hit n then n :: hit_banks hit n else hit_banks hit n
  end.

(** The index the lookup computed for table [t]. *)
Definition index_at (l : last_lookup_t) (t : nat) : Z := default 0 (indices l !! t).
Definition tag_at (l : last_lookup_t) (t : nat) : Z := default 0 (tags l !! t).

Definition apply_hits (l : last_lookup_t) (hs : list nat) : last_lookup_t :=
  match hs with
  | [] => l
  | [b] => set_provider l (Z.of_nat b) (index_at l b) (tag_at l b)
  | b :: c :: _ =>
      set_alternate (set_provider l (Z.of_nat b) (index_at l b) (tag_at l b))
                    (Z.of_nat c) (index_at l c) (tag_at l c)
  end.

Section Match.
Context (P : tage_params_t) (ts : list (list tagged_entry_t)).
Context (Hts : tables_ok P ts).

(** The lookup vectors cover the first [n] tables. *)
Definition covers (l : last_lookup_t) (n : nat) : Prop :=
  forall t, (t < n)%nat -> exists i g e,
    indices l !! t = Some i /\ tags l !! t = Some g /\
    entry_get ts (Z.of_nat t) i = Some e.

Lemma match_loop_alternate n l :
  covers l n -> provider_hit l = true -> alternate_hit l = false ->
  match_loop ts n l =
  Some (match hit_banks (bank_hits ts l) n with
        | [] => l
        | c :: _ => set_alternate l (Z.of_nat c) (index_at l c) (tag_at l c)
        end).
Proof.
  intros Hc Hp Ha. induction n as [|n IH]; simpl; [done|].
  destruct (Hc n ltac:(lia)) as (i & g & e & Hi & Hg & He).
  rewrite Hi, Hg. simpl. rewrite He. simpl. rewrite Hp, Ha. simpl.
  unfold bank_hits at 1. rewrite Hi, Hg, He. destruct (tag e =? g).
  - unfold index_at, tag_at. by rewrite Hi, Hg.
  - apply IH. intros t Ht. apply Hc. lia.
Qed.

Lemma match_loop_hits n l :
  covers l n -> provider_hit l = false -> alternate_hit l = false ->
  match_loop ts n l = Some (apply_hits l (hit_banks (bank_hits ts l) n)).
Proof.
  intros Hc Hp Ha. induction n as [|n IH]; simpl; [done|].
  destruct (Hc n ltac:(lia)) as (i & g & e & Hi & Hg & He).
  assert (covers l n) as Hc' by (intros t Ht; apply Hc; lia).
  rewrite Hi, Hg. simpl. rewrite He. simpl. rewrite Hp. simpl.
  unfold bank_hits at 1. rewrite Hi, Hg, He. destruct (tag e =? g); [|by apply IH].
  rewrite match_loop_alternate by done.
  change (bank_hits ts (set_provider l (Z.of_nat n) i g)) with (bank_hits ts l).
  unfold apply_hits, index_at, tag_at. simpl indices. simpl tags. rewrite Hi, Hg. simpl.
  by destruct (hit_banks (bank_hits ts l) n).
Qed.
End Match.

Lemma hit_banks_spec hit n b rest :
  hit_banks hit n = b :: rest ->
  (b < n)%nat /\ hit b = true /\ (forall t, (b < t < n)%nat -> hit t = false) /\
  rest = hit_banks hit b.
Proof.
  induction n as [|n IH]; simpl; [done|]. destruct (hit n) eqn:Hn.
  - intros [= <- <-]. split_and!; auto. lia.
  - intros H. destruct (IH H) as (Hlt & Hb & Hgt & Hr). split_and!; auto.
    intros t Ht. destruct (decide (t = n)) as [->|]; [done|]. apply Hgt. lia.
Qed.

Lemma hit_banks_nil hit n :
  hit_banks hit n = [] -> forall t, (t < n)%nat -> hit t = false.
Proof.
  induction n as [|n IH]; simpl; [lia|]. destruct (hit n) eqn:Hn; [done|].
  intros H t Ht. destruct (decide (t = n)) as [->|]; [done|]. apply IH; [done|lia].
Qed.

(** ** Prediction in closed form *)

(** The lookup [predict] records before it reads the counters. *)
Definition ref_lookup (s : tage_predictor_t) (pc : Z) : last_lookup_t :=
  let n := length (table_info (params s)) in
  let idxs := default [] (mapM (fun t => table_index s (Z.of_nat t) pc) (seq 0 n)) in
  let tgs := default [] (mapM (fun t => table_tag s (Z.of_nat t) pc) (seq 0 n)) in
  start_lookup (last_lookup s) pc idxs tgs.

Arguments ref_lookup : simpl never.

(** The tables whose entry matches, longest history first. *)
Definition ref_hits (s : tage_predictor_t) (pc : Z) : list nat :=
  hit_banks (bank_hits (tagged_tables s) (ref_lookup s pc))
            (length (table_info (params s))).

Definition base_counter (s : tage_predictor_t) (pc : Z) : Z :=
  default 0 (vget (base_table s) (base_index s pc)).

(** The counter of the entry that table [t] holds for the branch. *)
Definition bank_counter (s : tage_predictor_t) (pc : Z) (t : nat) : Z :=
  default 0 (ctr <$> entry_get (tagged_tables s) (Z.of_nat t)
                               (index_at (ref_lookup s pc) t)).

(** Provider prediction, alternate prediction and provider weakness: the
    longest match provides, the next one (or the base table) is the alternate. *)
Definition ref_provider (s : tage_predictor_t) (pc : Z) : bool :=
  match ref_hits s pc with
  | [] => counter_predicts_taken (base_counter s pc)
  | b :: _ => counter_predicts_taken (bank_counter s pc b)
  end.

Definition ref_alternate (s : tage_predictor_t) (pc : Z) : bool :=
  match ref_hits s pc with
  | _ :: c :: _ => counter_predicts_taken (bank_counter s pc c)
  | _ => counter_predicts_taken (base_counter s pc)
  end.

Definition ref_weak (s : tage_predictor_t) (pc : Z) : bool :=
  match ref_hits s pc with
  | [] => counter_is_weak (base_counter s pc) (base_ctr_bits (params s))
  | b :: _ => counter_is_weak (bank_counter s pc b) (tagged_ctr_bits (params s))
  end.

Definition ref_used_alternate (s : tage_predictor_t) (pc : Z) : bool :=
  match ref_hits s pc with
  | _ :: _ :: _ => use_alt_on_weak (params s) && ref_weak s pc
  | _ => false
  end.

Definition ref_final (s : tage_predictor_t) (pc : Z) : bool :=
  if ref_used_alternate s pc then ref_alternate s pc else ref_provider s pc.

Definition ref_result (s : tage_predictor_t) (pc : Z) : last_lookup_t :=
  set_results (apply_hits (ref_lookup s pc) (ref_hits s pc))
    (ref_final s pc) (ref_provider s pc) (ref_alternate s pc) (ref_weak s pc)
    (ref_used_alternate s pc).

Lemma ref_lookup_vectors s pc :
  params_ok (params s) ->
  mapM (fun t => table_index s (Z.of_nat t) pc) (seq 0 (length (table_info (params s))))
    = Some (indices (ref_lookup s pc)) /\
  mapM (fun t => table_tag s (Z.of_nat t) pc) (seq 0 (length (table_info (params s))))
    = Some (tags (ref_lookup s pc)) /\
  Forall2 (fun info i => 0 <= i < n_entries info) (table_info (params s))
          (indices (ref_lookup s pc)) /\
  Forall2 (fun _ g => 0 <= g < 2 ^ 16) (table_info (params s)) (tags (ref_lookup s pc)).
Proof.
  intros HP. unfold ref_lookup, start_lookup. simpl.
  destruct (mapM_Some_Forall2 (fun t => table_index s (Z.of_nat t) pc)
    (fun info i => 0 <= i < n_entries info) (table_info (params s)))
    as (idxs & -> & Hi).
  { intros t info Ht. by apply table_index_ok. }
  destruct (mapM_Some_Forall2 (fun t => table_tag s (Z.of_nat t) pc)
    (fun (_ : tage_table_info_t) g => 0 <= g < 2 ^ 16) (table_info (params s)))
    as (tgs & -> & Hg).
  { intros t info Ht. by eapply table_tag_ok. }
  done.
Qed.

(** Every table has a slot for the branch. *)
Lemma ref_slot_ok s pc t :
  params_ok (params s) -> (t < length (table_info (params s)))%nat ->
  slot_ok (params s) (Z.of_nat t) (index_at (ref_lookup s pc) t) /\
  indices (ref_lookup s pc) !! t = Some (index_at (ref_lookup s pc) t) /\
  tags (ref_lookup s pc) !! t = Some (tag_at (ref_lookup s pc) t) /\
  s32 (index_at (ref_lookup s pc) t) = index_at (ref_lookup s pc) t.
Proof.
  intros HP Ht. destruct (ref_lookup_vectors s pc HP) as (_ & _ & Hi & Hg).
  destruct (lookup_lt_is_Some_2 _ _ Ht) as [info Hinfo].
  destruct (Forall2_lookup_l _ _ _ _ _ Hi Hinfo) as (i & Hil & Hir).
  destruct (Forall2_lookup_l _ _ _ _ _ Hg Hinfo) as (g & Hgl & _).
  destruct (Forall_lookup_1 _ _ _ _ (ok_infos _ HP) Hinfo) as (Hn & _ & _).
  unfold index_at, tag_at. rewrite Hil, Hgl. simpl. split_and!; auto.
  - split; [lia|]. rewrite Nat2Z.id. eauto.
  - apply swrap_small; lia.
Qed.

Lemma ref_covers s pc :
  wf s -> covers (tagged_tables s) (ref_lookup s pc) (length (table_info (params s))).
Proof.
  intros Hwf t Ht. pose proof (wf_params s Hwf) as HP.
  destruct (ref_slot_ok s pc t HP Ht) as (Hs & Hi & Hg & _).
  destruct (entry_get_ok _ _ _ _ (wf_tables s Hwf) Hs) as (e & He & _). eauto 6.
Qed.

Lemma bank_counter_get s pc t :
  wf s -> (t < length (table_info (params s)))%nat ->
  exists e, entry_get (tagged_tables s) (Z.of_nat t) (index_at (ref_lookup s pc) t) = Some e /\
            ctr e = bank_counter s pc t.
Proof.
  intros Hwf Ht. pose proof (wf_params s Hwf) as HP.
  destruct (ref_slot_ok s pc t HP Ht) as (Hs & _).
  destruct (entry_get_ok _ _ _ _ (wf_tables s Hwf) Hs) as (e & He & _).
  exists e. split; [done|]. unfold bank_counter. by rewrite He.
Qed.

Lemma base_counter_get s pc :
  wf s -> vget (base_table s) (base_index s pc) = Some (base_counter s pc) /\
          ctr_ok (base_ctr_bits (params s)) (base_counter s pc).
Proof.
  intros Hwf. destruct (vget_Some _ _ (base_index_ok s pc Hwf)) as (b & Hb & Hl).
  unfold base_counter. rewrite Hb. split; [done|].
  exact (Forall_lookup_1 _ _ _ _ (wf_base s Hwf) Hl).
Qed.

Lemma tage_predict_ref s pc :
  wf s -> predict s pc = Some (ref_final s pc, with_lookup s (ref_result s pc)).
Proof.
  intros Hwf. pose proof (wf_params s Hwf) as HP. unfold predict.
  destruct (base_counter_get s pc Hwf) as [-> _]. simpl.
  destruct (ref_lookup_vectors s pc HP) as (-> & -> & _). cbn [mbind option_bind].
  change (start_lookup (last_lookup s) pc (indices (ref_lookup s pc)) (tags (ref_lookup s pc)))
    with (ref_lookup s pc).
  rewrite match_loop_hits by (done || by apply ref_covers). cbn [mbind option_bind].
  fold (ref_hits s pc).
  unfold ref_result, ref_final, ref_used_alternate, ref_provider, ref_alternate, ref_weak.
  destruct (ref_hits s pc) as [|b [|c rest]] eqn:Hh; simpl; [done|..].
  - apply hit_banks_spec in Hh as (Hb & _).
    destruct (ref_slot_ok s pc b HP Hb) as (_ & _ & _ & ->).
    destruct (bank_counter_get s pc b Hwf Hb) as (e & -> & Hc). simpl. rewrite Hc.
    by rewrite andb_false_r.
  - apply hit_banks_spec in Hh as (Hb & _ & _ & Hr). symmetry in Hr.
    apply hit_banks_spec in Hr as (Hc & _).
    destruct (ref_slot_ok s pc b HP Hb) as (_ & _ & _ & ->).
    destruct (ref_slot_ok s pc c HP) as (_ & _ & _ & ->); [lia|].
    destruct (bank_counter_get s pc b Hwf Hb) as (e & -> & He).
    destruct (bank_counter_get s pc c Hwf) as (e' & -> & He'); [lia|].
    simpl. rewrite He, He'. by rewrite andb_true_r.
Qed.

Lemma ref_result_ok s pc : wf s -> lookup_ok (params s) (ref_result s pc).
Proof.
  intros Hwf. pose proof (wf_params s Hwf) as HP.
  destruct (ref_lookup_vectors s pc HP) as (_ & _ & Hi & Hg).
  unfold ref_result. destruct (ref_hits s pc) as [|b [|c rest]] eqn:Hh.
  - constructor; simpl; done.
  - apply hit_banks_spec in Hh as (Hb & _).
    destruct (ref_slot_ok s pc b HP Hb) as (Hs & _ & _ & Hw).
    constructor; simpl; try done. intros _. split; [done|]. by rewrite Hw.
  - apply hit_banks_spec in Hh as (Hb & _ & _ & Hr). symmetry in Hr.
    apply hit_banks_spec in Hr as (Hc & _).
    destruct (ref_slot_ok s pc b HP Hb) as (Hs & _ & _ & Hw).
    destruct (ref_slot_ok s pc c HP) as (Hs' & _ & _ & Hw'); [lia|].
    constructor; simpl; try done; intros _; (split; [done|]); congruence.
Qed.

Lemma wf_with_lookup s l : wf s -> lookup_ok (params s) l -> wf (with_lookup s l).
Proof. intros [] Hl. constructor; done. Qed.

Lemma wf_with_tagged s ts : wf s -> tables_ok (params s) ts -> wf (with_tagged s ts).
Proof. intros [] Hl. constructor; done. Qed.

(** ** Training keeps the predictor well-formed *)

(** [q] differs from [s] in its tables at most. *)
Definition same_but_tables (s q : tage_predictor_t) : Prop :=
  params q = params s /\ max_hist_len q = max_hist_len s /\
  branch_updates q = branch_updates s /\ history q = history s /\
  last_lookup q = last_lookup s.

(** A step that is defined, keeps well-formedness and touches tables only. *)
Definition table_step (s : tage_predictor_t) (r : option tage_predictor_t) : Prop :=
  exists q, r = Some q /\ wf q /\ same_but_tables s q.

Lemma table_step_refl s : wf s -> table_step s (Some s).
Proof. intros Hwf. exists s. done. Qed.

Lemma table_step_bind s r f :
  table_step s r -> (forall q, wf q -> same_but_tables s q -> table_step q (f q)) ->
  table_step s (r ≫= f).
Proof.
  intros (q & -> & Hq & Hs) Hf. simpl. destruct (Hf q Hq Hs) as (q' & Hr & Hq' & Hs').
  exists q'. split; [done|]. split; [done|]. unfold same_but_tables in *.
  intuition congruence.
Qed.

Lemma bump_entry_step s bank i taken :
  wf s -> slot_ok (params s) bank i -> table_step s (bump_entry s bank i taken).
Proof.
  intros Hwf Hs. pose proof (ok_tagged_ctr _ (wf_params s Hwf)) as Hb.
  destruct (entry_get_ok _ _ _ _ (wf_tables s Hwf) Hs) as (e & He & Ht & Hc & Hu).
  unfold bump_entry. rewrite He. simpl. rewrite bump_ref by done. simpl.
  destruct (entry_set_ok (params s) (tagged_tables s) bank i
    (mk_entry (tag e) (ref_bump taken (ctr e) (tagged_ctr_bits (params s))) (useful e)))
    as (ts & -> & Hts & _); [apply Hwf|done| |].
  { split_and!; try apply Ht; try apply Hu; by apply ref_bump_ok. }
  simpl. eexists. split; [done|]. split; [by apply wf_with_tagged|done].
Qed.

Lemma bump_base_step s pc taken : wf s -> table_step s (bump_base s pc taken).
Proof.
  intros Hwf. pose proof (ok_base_ctr _ (wf_params s Hwf)) as Hb.
  destruct (base_counter_get s pc Hwf) as [Hg Hc]. unfold bump_base. rewrite Hg. simpl.
  rewrite bump_ref by done. simpl.
  rewrite vset_Some by (by apply base_index_ok). simpl.
  eexists. split; [done|]. split; [|done].
  destruct Hwf. constructor; simpl; auto.
  - unfold vsize in *. by rewrite length_insert.
  - apply Forall_insert; [done|]. by apply ref_bump_ok.
Qed.

Lemma useful_range P u :
  params_ok P -> 0 <= u < 2 ^ usefulness_bits P -> 0 <= u < 256.
Proof.
  intros HP Hu. pose proof (ok_useful _ HP).
  pose proof (Z.pow_le_mono_r 2 (usefulness_bits P) 8). lia.
Qed.

(** The usefulness counter saturates at its width. *)
Lemma update_usefulness_step s pr al :
  wf s -> table_step s (update_usefulness s pr al).
Proof.
  intros Hwf. pose proof (wf_params s Hwf) as HP. pose proof (ok_useful _ HP) as Hub.
  unfold update_usefulness. destruct (provider_hit (last_lookup s)) eqn:Hp;
    [|by apply table_step_refl]. simpl.
  destruct (ok_provider _ _ (wf_lookup s Hwf) Hp) as [_ Hs].
  destruct (entry_get_ok _ _ _ _ (wf_tables s Hwf) Hs) as (e & He & Ht & Hc & Hu).
  rewrite He. simpl. destruct (Bool.eqb pr al); [by apply table_step_refl|].
  destruct (Z.ltb_spec (usefulness_bits (params s)) 32); [|lia]. simpl.
  pose proof (useful_range _ _ HP Hu) as Hu8.
  assert (1 <= 2 ^ usefulness_bits (params s) <= 256).
  { split; [apply (Z.pow_le_mono_r 2 0)|apply (Z.pow_le_mono_r 2 _ 8)]; lia. }
  rewrite Z.shiftl_1_l. rewrite (uwrap_small 32 (2 ^ _)) by lia.
  rewrite (uwrap_small 32) by lia. rewrite (uwrap_small 8 (_ - 1)) by lia.
  match goal with |- context [entry_set _ _ _ ?e'] => set (en := e') end.
  destruct (entry_set_ok (params s) (tagged_tables s) (provider_bank (last_lookup s))
    (provider_index (last_lookup s)) en) as (ts & -> & Hts & _); [apply Hwf|done| |].
  { unfold en, entry_ok. simpl. split_and!; try apply Ht; try apply Hc;
      destruct pr; case_test; rewrite ?uwrap_small; lia. }
  simpl. eexists. split; [done|]. split; [by apply wf_with_tagged|done].
Qed.

(** ** Allocation *)

Section Alloc.
Context (P : tage_params_t) (l : last_lookup_t).
Context (HP : params_ok P) (Hl : lookup_ok P l) (Hv : valid l = true).

Lemma lookup_slot t :
  (t < length (table_info P))%nat ->
  indices l !! t = Some (index_at l t) /\ tags l !! t = Some (tag_at l t) /\
  slot_ok P (Z.of_nat t) (index_at l t) /\ 0 <= tag_at l t < 2 ^ 16.
Proof.
  intros Ht. destruct (lookup_lt_is_Some_2 _ _ Ht) as [info Hinfo].
  destruct (Forall2_lookup_l _ _ _ _ _ (ok_indices _ _ Hl Hv) Hinfo) as (i & Hil & Hir).
  destruct (Forall2_lookup_l _ _ _ _ _ (ok_tags _ _ Hl Hv) Hinfo) as (g & Hgl & Hgr).
  unfold index_at, tag_at. rewrite Hil, Hgl. simpl. split_and!; auto; try lia.
  split; [lia|]. rewrite Nat2Z.id. eauto.
Qed.

(** The usefulness of the candidate entry of table [t]. *)
Definition useful_at (ts : list (list tagged_entry_t)) (t : nat) : Z :=
  default 0 (useful <$> entry_get ts (Z.of_nat t) (index_at l t)).

Lemma alloc_loop_spec c n t ts :
  tables_ok P ts -> (t + n <= length (table_info P))%nat -> c = 0 \/ c = -1 ->
  (alloc_loop l c n t ts = Some None /\
   forall k, (t <= k < t + n)%nat -> useful_at ts k <> 0) \/
  (exists k ts', (t <= k < t + n)%nat /\ alloc_loop l c n t ts = Some (Some ts') /\
    tables_ok P ts' /\
    (forall j, (t <= j < k)%nat -> useful_at ts j <> 0) /\ useful_at ts k = 0 /\
    entry_get ts' (Z.of_nat k) (index_at l k) = Some (mk_entry (tag_at l k) c 0) /\
    forall b j, (b, j) <> (Z.of_nat k, index_at l k) ->
      entry_get ts' b j = entry_get ts b j).
Proof.
  intros Hts. revert t. induction n as [|n IH]; intros t Hn Hc.
  { left. split; [done|]. intros k Hk. lia. }
  destruct (lookup_slot t) as (Hi & Hg & Hs & Hgr); [lia|].
  destruct (entry_get_ok _ _ _ _ Hts Hs) as (e & He & _ & _ & Hu).
  assert (useful_at ts t = useful e) as Hua by (unfold useful_at; by rewrite He).
  simpl. rewrite Hi. simpl. rewrite He. simpl.
  destruct (Z.eqb_spec (useful e) 0) as [Hz|Hz].
  - rewrite Hg. simpl. right.
    destruct (entry_set_ok P ts (Z.of_nat t) (index_at l t) (mk_entry (tag_at l t) c 0))
      as (ts' & -> & Hts' & Hget & Hne); [done|done| |].
    { pose proof (ok_tagged_ctr _ HP). pose proof (pow2_8 (tagged_ctr_bits P) ltac:(lia)).
      unfold entry_ok, ctr_ok. simpl. split_and!; lia. }
    exists t, ts'. simpl. split_and!; auto; lia.
  - destruct (IH (S t)) as [[Ha Hall]|(k & ts' & Hk & Ha & Ht' & Hlt & Hrest)];
      [lia|done|left|right].
    + split; [done|]. intros k Hk. destruct (decide (k = t)) as [->|]; [lia|].
      apply Hall. lia.
    + exists k, ts'. split; [lia|]. split; [done|]. split; [done|]. split; [|done].
      intros j Hj. destruct (decide (j = t)) as [->|]; [lia|]. apply Hlt. lia.
Qed.

Lemma decay_loop_spec n t ts :
  tables_ok P ts -> (t + n <= length (table_info P))%nat ->
  exists ts', decay_loop l n t ts = Some ts' /\ tables_ok P ts' /\
    (forall k e, (t <= k < t + n)%nat ->
      entry_get ts (Z.of_nat k) (index_at l k) = Some e ->
      entry_get ts' (Z.of_nat k) (index_at l k)
      = Some (mk_entry (tag e) (ctr e) (Z.max 0 (useful e - 1)))) /\
    (forall b j, (forall k, (t <= k < t + n)%nat -> (b, j) <> (Z.of_nat k, index_at l k)) ->
      entry_get ts' b j = entry_get ts b j).
Proof.
  revert t ts. induction n as [|n IH]; intros t ts Hts Hn.
  { exists ts. split_and!; auto. intros k e Hk. lia. }
  destruct (lookup_slot t) as (Hi & _ & Hs & _); [lia|].
  destruct (entry_get_ok _ _ _ _ Hts Hs) as (e & He & Ht & Hc & Hu).
  pose proof (useful_range _ _ HP Hu). simpl. rewrite Hi. simpl. rewrite He. simpl.
  assert (exists ts', (if 0 <? useful e
           then entry_set ts (Z.of_nat t) (index_at l t)
                          (mk_entry (tag e) (ctr e) (u8 (useful e - 1)))
           else Some ts) = Some ts' /\ tables_ok P ts' /\
      entry_get ts' (Z.of_nat t) (index_at l t)
      = Some (mk_entry (tag e) (ctr e) (Z.max 0 (useful e - 1))) /\
      forall b j, (b, j) <> (Z.of_nat t, index_at l t) ->
        entry_get ts' b j = entry_get ts b j) as (ts1 & -> & Hts1 & Hg1 & Hne1).
  { destruct (Z.ltb_spec 0 (useful e)).
    - rewrite uwrap_small by lia.
      replace (Z.max 0 (useful e - 1)) with (useful e - 1) by lia.
      apply entry_set_ok; auto. unfold entry_ok. simpl. split_and!; auto; lia.
    - exists ts. split_and!; auto. rewrite He. destruct e as [g c u]. simpl in *.
      repeat f_equal. lia. }
  simpl. destruct (IH (S t) ts1) as (ts' & -> & Hts' & Hin & Hout); [done|lia|].
  exists ts'. split_and!; auto.
  - intros k e' Hk He'. destruct (decide (k = t)) as [->|Hkt].
    + rewrite He in He'. injection He' as <-. rewrite <- Hg1. apply Hout.
      intros k Hk' [= ?%Nat2Z.inj _]. lia.
    + apply Hin; [lia|]. rewrite Hne1; [done|]. intros [= ?%Nat2Z.inj _]. lia.
  - intros b j Hbj. rewrite Hout.
    + apply Hne1. apply Hbj. lia.
    + intros k Hk. apply Hbj. lia.
Qed.
End Alloc.

(** The first table that may be allocated: the one after the provider. *)
Definition start_table (l : last_lookup_t) : nat :=
  if provider_hit l then S (Z.to_nat (provider_bank l)) else 0%nat.

Lemma start_table_eq P l :
  params_ok P -> lookup_ok P l ->
  (if provider_hit l then Z.to_nat (u64 (provider_bank l + 1)) else 0%nat) = start_table l /\
  (start_table l <= length (table_info P))%nat.
Proof.
  intros HP Hl. unfold start_table. destruct (provider_hit l) eqn:Hp; [|lia].
  destruct (ok_provider _ _ Hl Hp) as (_ & Hb & info & Hinfo & _).
  pose proof (lookup_lt_Some _ _ _ Hinfo). pose proof (ok_tables _ HP).
  rewrite uwrap_small by lia. lia.
Qed.

Lemma allocate_step s taken :
  wf s -> valid (last_lookup s) = true -> table_step s (allocate_entries s taken).
Proof.
  intros Hwf Hv. pose proof (wf_params s Hwf) as HP. pose proof (wf_lookup s Hwf) as Hl.
  unfold allocate_entries. destruct (start_table_eq _ _ HP Hl) as [-> Hst].
  set (st := start_table (last_lookup s)) in *.
  destruct (alloc_loop_spec (params s) (last_lookup s) HP Hl Hv (if taken then 0 else -1)
    (length (table_info (params s)) - st) st (tagged_tables s))
    as [[-> _]|(k & ts' & _ & -> & Hts & _)]; try apply Hwf; try lia.
  { destruct taken; auto. }
  - simpl. destruct (decay_loop_spec (params s) (last_lookup s) HP Hl Hv
      (length (table_info (params s)) - st) st (tagged_tables s))
      as (ts & -> & Hts & _); [apply Hwf|lia|].
    simpl. eexists. split; [done|]. split; [by apply wf_with_tagged|done].
  - simpl. eexists. split; [done|]. split; [by apply wf_with_tagged|done].
Qed.

(** ** Training *)

Lemma length_removelast_cons {A} (x : A) xs : length (removelast (x :: xs)) = length xs.
Proof.
  revert x. induction xs as [|y xs IH]; intros x; [done|].
  change (removelast (x :: y :: xs)) with (x :: removelast (y :: xs)).
  simpl length. f_equal. apply (IH y).
Qed.

Lemma wf_push_history s taken : wf s -> wf (push_history s taken).
Proof.
  intros Hwf. unfold push_history. destruct (history s) as [|b h] eqn:Hh; [done|].
  destruct Hwf. constructor; simpl; auto.
  rewrite <- wf_history0, Hh. unfold vsize. f_equal.
  apply (length_removelast_cons taken (b :: h)).
Qed.

Lemma wf_with_updates s n : wf s -> 0 <= n < 2 ^ 64 -> wf (with_updates s n).
Proof. intros [] Hn. constructor; done. Qed.

Lemma wf_age s : wf s -> wf (age_usefulness s).
Proof.
  intros Hwf. unfold age_usefulness. destruct (_ =? 0); [done|].
  destruct (negb _); [done|]. apply wf_with_tagged; [done|].
  pose proof (wf_tables s Hwf) as Ht. unfold tables_ok in *. apply Forall2_fmap_r.
  eapply Forall2_impl; [exact Ht|]. intros info t [Hn He].
  split; [rewrite <- Hn; unfold vsize; f_equal; apply length_map|]. apply Forall_map.
  eapply Forall_impl; [exact He|]. intros e (Ha & Hb & Hc). unfold entry_ok. simpl.
  split_and!; try apply Ha; try apply Hb; rewrite Z.shiftr_div_pow2, Z.pow_1_r by lia.
  - apply Z.div_pos; lia.
  - apply Z.div_lt_upper_bound; lia.
Qed.

(** No operation changes the parameters. *)
Definition same_params (s q : tage_predictor_t) : Prop :=
  params q = params s /\ max_hist_len q = max_hist_len s.

Lemma same_params_of_tables s q : same_but_tables s q -> same_params s q.
Proof. unfold same_but_tables, same_params. tauto. Qed.


Lemma same_params_end s taken n :
  same_params s (age_usefulness (with_updates (push_history s taken) n)).
Proof.
  assert (same_params s (push_history s taken)) as H.
  { unfold push_history. by destruct (history s). }
  unfold age_usefulness. destruct (_ =? 0); [exact H|]. destruct (negb _); exact H.
Qed.

(** Training from a state whose lookup is for the branch. *)
Lemma train_valid s pc taken :
  wf s -> valid (last_lookup s) = true -> lk_pc (last_lookup s) = pc ->
  exists q, train s pc taken = Some q /\ wf q /\ same_params s q.
Proof.
  intros Hwf Hv Hpc. unfold train. rewrite Hv, Hpc, Z.eqb_refl. simpl.
  pose proof (wf_lookup s Hwf) as Hl. set (l := last_lookup s) in *.
  match goal with |- context [x ← ?body; _] => assert (table_step s body) as Hstep end.
  { destruct (provider_hit l) eqn:Hp; [|by apply bump_base_step].
    destruct (ok_provider _ _ Hl Hp) as [_ Hps].
    apply table_step_bind; [by apply bump_entry_step|]. intros q Hq Hsq.
    apply table_step_bind; [|intros q' Hq' _; by apply update_usefulness_step].
    destruct (alternate_hit l) eqn:Ha; simpl; [|by apply bump_base_step].
    destruct (provider_weak l); [|by apply table_step_refl].
    apply bump_entry_step; [done|]. destruct Hsq as (-> & _).
    by apply (ok_alternate _ _ Hl Ha). }
  destruct Hstep as (q & -> & Hq & Hsq). simpl.
  match goal with |- context [x ← ?body; _] => assert (table_step q body) as Hstep end.
  { destruct (negb _); [|by apply table_step_refl]. apply allocate_step; [done|].
    destruct Hsq as (_ & _ & _ & _ & ->). done. }
  destruct Hstep as (r & -> & Hr & Hsr). simpl. eexists. split; [done|]. split.
  - apply wf_age, wf_with_updates; [by apply wf_push_history|]. by apply uwrap_range.
  - pose proof (same_params_end r taken (u64 (branch_updates (push_history r taken) + 1))).
    apply same_params_of_tables in Hsq, Hsr. unfold same_params in *. intuition congruence.
Qed.

Lemma predict_wf s pc : wf s -> wf (with_lookup s (ref_result s pc)).
Proof. intros Hwf. apply wf_with_lookup; [done|]. by apply ref_result_ok. Qed.

Lemma ref_result_valid s pc :
  valid (ref_result s pc) = true /\ lk_pc (ref_result s pc) = pc.
Proof. unfold ref_result. by destruct (ref_hits s pc) as [|b [|c rest]]. Qed.

Lemma train_wf s pc taken :
  wf s -> exists q, train s pc taken = Some q /\ wf q /\ same_params s q.
Proof.
  intros Hwf. destruct (negb (valid (last_lookup s)) || negb (lk_pc (last_lookup s) =? pc))
    eqn:Hc.
  - destruct (ref_result_valid s pc) as [Hv Hp].
    destruct (train_valid (with_lookup s (ref_result s pc)) pc taken) as (q & Hq & Hwq);
      [by apply predict_wf|done|done|].
    exists q. split; [|done]. rewrite <- Hq. unfold train. rewrite Hc.
    cbn [last_lookup with_lookup]. rewrite Hv, Hp, Z.eqb_refl. rewrite tage_predict_ref by done.
    done.
  - apply orb_false_iff in Hc as [Hv Hp]. apply negb_false_iff in Hv, Hp.
    apply Z.eqb_eq in Hp. by apply train_valid.
Qed.

(** ** Construction, reset, sequences of operations *)

Lemma zero_entry_ok P : params_ok P -> entry_ok P zero_entry.
Proof.
  intros HP. pose proof (ok_tagged_ctr _ HP). pose proof (pow2_8 (tagged_ctr_bits P) ltac:(lia)).
  pose proof (ok_useful _ HP). unfold entry_ok, ctr_ok. simpl.
  pose proof (Z.pow_pos_nonneg 2 (usefulness_bits P)). split_and!; lia.
Qed.

(** The state [reset] leaves, by the sizes of the tables. *)
Definition fresh (P : tage_params_t) (mh : Z) : tage_predictor_t :=
  mk_tage P mh 0 (replicate (Z.to_nat (base_entries P)) 0)
    (map (fun info => replicate (Z.to_nat (n_entries info)) zero_entry) (table_info P))
    (replicate (Z.to_nat mh) false) empty_lookup.

Lemma reset_fresh s : wf s -> reset s = fresh (params s) (max_hist_len s).
Proof.
  intros Hwf. unfold reset, fresh. f_equal.
  - rewrite map_const_replicate, <- (wf_base_len s Hwf). unfold vsize. by rewrite Nat2Z.id.
  - pose proof (wf_tables s Hwf) as H. unfold tables_ok in H.
    induction H as [|info t infos ts [Hn _] H IH]; simpl; [done|].
    rewrite IH, map_const_replicate, <- Hn. unfold vsize. by rewrite Nat2Z.id.
  - rewrite map_const_replicate, <- (wf_history s Hwf). unfold vsize. by rewrite Nat2Z.id.
Qed.

Lemma fresh_wf P mh : params_ok P -> 0 <= mh -> wf (fresh P mh).
Proof.
  intros HP Hmh. pose proof (ok_base_entries _ HP). pose proof (ok_base_ctr _ HP) as Hb.
  pose proof (pow2_8 _ Hb).
  constructor; simpl; auto; unfold vsize; rewrite ?length_replicate; try lia.
  - apply Forall_replicate. unfold ctr_ok. lia.
  - unfold tables_ok. pose proof (ok_infos _ HP) as Hi.
    induction Hi as [|info infos [Hn _] Hi IH]; simpl; constructor; [|done].
    unfold vsize. rewrite length_replicate. split; [lia|].
    apply Forall_replicate. by apply zero_entry_ok.
  - constructor; done.
Qed.

Definition ref_max_hist (P : tage_params_t) : Z :=
  fold_left (fun m info => Z.max m (hist_len info)) (table_info P) 0.

Lemma ref_max_hist_nonneg P : 0 <= ref_max_hist P.
Proof.
  unfold ref_max_hist. assert (forall m, 0 <= m ->
    0 <= fold_left (fun m info => Z.max m (hist_len info)) (table_info P) m) as H.
  { induction (table_info P) as [|i is' IH]; intros m Hm; simpl; [done|]. apply IH. lia. }
  by apply H.
Qed.

Lemma tage_new_fresh P : params_ok P -> tage_new P = fresh P (ref_max_hist P).
Proof.
  intros HP. change (tage_new P) with (reset (fresh P (ref_max_hist P))).
  rewrite reset_fresh; [done|]. apply fresh_wf; [done|]. apply ref_max_hist_nonneg.
Qed.

Inductive tage_op :=
  | OpPredict (pc : Z)
  | OpTrain (pc : Z) (actual_taken : bool)
  | OpReset.

Definition run_op (s : tage_predictor_t) (o : tage_op) : option tage_predictor_t :=
  match o with
  | OpPredict pc => r ← predict s pc; Some r.2
  | OpTrain pc t => train s pc t
  | OpReset => Some (reset s)
  end.

Fixpoint run (s : tage_predictor_t) (os : list tage_op) : option tage_predictor_t :=
  match os with
  | [] => Some s
  | o :: os => s' ← run_op s o; run s' os
  end.


Lemma tage_run_op_wf s o : wf s -> exists q, run_op s o = Some q /\ wf q /\ same_params s q.
Proof.
  intros Hwf. destruct o as [pc|pc t|]; simpl.
  - rewrite tage_predict_ref by done. simpl. eexists. split; [done|].
    split; [by apply predict_wf|done].
  - by apply train_wf.
  - eexists. split; [done|]. rewrite reset_fresh by done. split; [|done].
    pose proof (wf_history s Hwf). unfold vsize in *.
    apply fresh_wf; [apply Hwf|lia].
Qed.

Lemma tage_run_wf s os : wf s -> exists q, run s os = Some q /\ wf q /\ same_params s q.
Proof.
  revert s. induction os as [|o os IH]; intros s Hwf; simpl; [by eexists|].
  destruct (tage_run_op_wf s o Hwf) as (q & -> & Hq & Hs). simpl.
  destruct (IH q Hq) as (r & -> & Hr & Hs'). exists r. split; [done|]. split; [done|].
  unfold same_params in *. intuition congruence.
Qed.

(** The confidence query is defined on every well-formed state. *)
Lemma confident_total s : wf s -> is_Some (last_prediction_high_confidence s).
Proof.
  intros Hwf. unfold last_prediction_high_confidence.
  destruct (valid (last_lookup s)); simpl; [|done].
  destruct (provider_hit (last_lookup s)) eqn:Hp; simpl.
  - destruct (ok_provider _ _ (wf_lookup s Hwf) Hp) as [_ Hs].
    destruct (entry_get_ok _ _ _ _ (wf_tables s Hwf) Hs) as (e & -> & _). done.
  - destruct (base_counter_get s (lk_pc (last_lookup s)) Hwf) as [-> _]. done.
Qed.

(** * Properties *)

Lemma boom_like_default_ok : params_ok boom_like_default.
Proof. constructor; simpl; try lia. repeat constructor; simpl; lia. Qed.

(** With parameters whose counters, usefulness bits and tags fit their C
    types, no sequence of predictions, trainings and resets of a freshly built
    predictor runs into undefined behaviour, and every counter, usefulness
    value, tag and recorded table index stays within its declared width. *)
Theorem tage_safe P os :
  params_ok P -> exists q, run (tage_new P) os = Some q /\ wf q.
Proof.
  intros HP. destruct (tage_run_wf (tage_new P) os) as (q & Hq & Hwq & _); [|eauto].
  rewrite tage_new_fresh by done. apply fresh_wf; [done|]. apply ref_max_hist_nonneg.
Qed.

Lemma tage_safe_witness :
  exists q, run (tage_new boom_like_default)
    [OpPredict 0x80000040; OpTrain 0x80000040 false; OpReset] = Some q /\ wf q.
Proof. apply tage_safe. apply boom_like_default_ok. Defined.

(** C3: [predict] takes its prediction from the longest matching history.  If
    no tagged entry matches, the base counter decides; otherwise the provider
    is the highest-numbered matching table, the alternate is the next matching
    table below it, the base table when there is none, and the alternate
    overrides a weak provider only if another table matched and the parameters
    ask for it.  All that training reads later is recorded in [last_lookup]: the
    indices and tags of every table, provider and alternate with their entries,
    both predictions, the weakness of the deciding counter and whether the
    alternate was used.  Nothing else changes. *)
Theorem tage_predict_longest_match s pc :
  wf s ->
  exists q, predict s pc = Some (final_prediction (last_lookup q), q) /\
    same_but_tables (with_lookup s (last_lookup q)) q /\
    base_table q = base_table s /\ tagged_tables q = tagged_tables s /\
    let l := last_lookup q in
    let n := length (table_info (params s)) in
    let hit := bank_hits (tagged_tables s) (ref_lookup s pc) in
    let base_says := counter_predicts_taken (base_counter s pc) in
    let says t := counter_predicts_taken (bank_counter s pc t) in
    (valid l = true /\ lk_pc l = pc /\
     indices l = indices (ref_lookup s pc) /\ tags l = tags (ref_lookup s pc)) /\
    (provider_hit l = false ->
       (forall t, (t < n)%nat -> hit t = false) /\ alternate_hit l = false /\
       final_prediction l = base_says /\
       provider_prediction l = base_says /\ alternate_prediction l = base_says /\
       provider_weak l = counter_is_weak (base_counter s pc) (base_ctr_bits (params s)) /\
       used_alternate l = false) /\
    (provider_hit l = true -> exists b,
       provider_bank l = Z.of_nat b /\ (b < n)%nat /\ hit b = true /\
       (forall t, (b < t < n)%nat -> hit t = false) /\
       provider_index l = index_at l b /\ provider_tag l = tag_at l b /\
       provider_prediction l = says b /\
       provider_weak l = counter_is_weak (bank_counter s pc b) (tagged_ctr_bits (params s)) /\
       (alternate_hit l = false ->
          (forall t, (t < b)%nat -> hit t = false) /\
          alternate_prediction l = base_says /\ used_alternate l = false /\
          final_prediction l = provider_prediction l) /\
       (alternate_hit l = true -> exists c,
          alternate_bank l = Z.of_nat c /\ (c < b)%nat /\ hit c = true /\
          (forall t, (c < t < b)%nat -> hit t = false) /\
          alternate_index l = index_at l c /\ alternate_tag l = tag_at l c /\
          alternate_prediction l = says c /\
          used_alternate l = use_alt_on_weak (params s) && provider_weak l /\
          final_prediction l =
            if used_alternate l then alternate_prediction l else provider_prediction l)).
Proof.
  intros Hwf. exists (with_lookup s (ref_result s pc)).
  split; [rewrite tage_predict_ref by done; done|].
  split; [done|]. split; [done|]. split; [done|].
  assert (forall t, (t < length (table_info (params s)))%nat ->
    s32 (index_at (ref_lookup s pc) t) = index_at (ref_lookup s pc) t) as Hs32
    by (intros t Ht; apply ref_slot_ok; [apply Hwf|done]).
  cbn [last_lookup with_lookup]. unfold ref_result, ref_final, ref_used_alternate,
    ref_provider, ref_alternate, ref_weak.
  destruct (ref_hits s pc) as [|b [|c rest]] eqn:Hh; simpl.
  - split; [done|]. split; [|done]. intros _. split; [|done]. by apply hit_banks_nil.
  - split; [done|]. split; [done|]. intros _. apply hit_banks_spec in Hh as (Hb & Ht & Hgt & Hr).
    exists b. do 4 (split; [done|]). split; [by apply Hs32|]. do 3 (split; [done|]).
    split; [|done]. intros _. split; [|done].
    by apply hit_banks_nil.
  - split; [done|]. split; [done|]. intros _. apply hit_banks_spec in Hh as (Hb & Ht & Hgt & Hr).
    exists b. do 4 (split; [done|]). split; [by apply Hs32|]. do 3 (split; [done|]).
    split; [done|]. intros _. symmetry in Hr.
    apply hit_banks_spec in Hr as (Hc & Hct & Hcgt & _). exists c. do 4 (split; [done|]).
    split; [apply Hs32; lia|done].
Qed.

(** A small predictor: two tagged tables of two entries, one of which matches. *)
Definition small_params : tage_params_t :=
  mk_params 2 2 3 2 true 8 [mk_table_info 2 2 4; mk_table_info 2 4 4].

Lemma small_params_ok : params_ok small_params.
Proof. constructor; simpl; try lia. repeat constructor; simpl; lia. Qed.

Lemma small_wf : wf (tage_new small_params).
Proof. rewrite tage_new_fresh by apply small_params_ok. by apply fresh_wf; [apply small_params_ok|]. Qed.

Lemma tage_predict_longest_match_witness :
  exists q, predict (tage_new small_params) 0x40 = Some (final_prediction (last_lookup q), q) /\
    final_prediction (last_lookup q) = true.
Proof.
  destruct (tage_predict_longest_match (tage_new small_params) 0x40 small_wf)
    as (q & H & _). exists q. split; [exact H|].
  assert (fst <$> predict (tage_new small_params) 0x40 = Some true) as H'
    by (vm_compute; reflexivity).
  rewrite H in H'. injection H' as H'. exact H'.
Defined.

(** C38: after a misprediction, [allocate_entries] considers the tables with a
    longer history than the provider.  The first of them whose selected entry
    is not useful is taken over: it gets the branch's tag, a weak counter in the
    direction of the outcome and no usefulness.  If all of them are useful, each
    of these entries loses one unit of usefulness.  No other entry changes. *)
Theorem tage_allocate_correct s taken :
  wf s -> valid (last_lookup s) = true ->
  let l := last_lookup s in
  let first := start_table l in
  let n := length (table_info (params s)) in
  let useful_of := useful_at l (tagged_tables s) in
  exists q, allocate_entries s taken = Some q /\ wf q /\ same_but_tables s q /\
    base_table q = base_table s /\
    ((exists k, (first <= k < n)%nat /\ useful_of k = 0 /\
        (forall j, (first <= j < k)%nat -> useful_of j <> 0) /\
        entry_get (tagged_tables q) (Z.of_nat k) (index_at l k)
          = Some (mk_entry (tag_at l k) (if taken then 0 else -1) 0) /\
        forall b j, (b, j) <> (Z.of_nat k, index_at l k) ->
          entry_get (tagged_tables q) b j = entry_get (tagged_tables s) b j)
     \/
     ((forall k, (first <= k < n)%nat -> useful_of k <> 0) /\
      (forall k e, (first <= k < n)%nat ->
        entry_get (tagged_tables s) (Z.of_nat k) (index_at l k) = Some e ->
        entry_get (tagged_tables q) (Z.of_nat k) (index_at l k)
          = Some (mk_entry (tag e) (ctr e) (Z.max 0 (useful e - 1)))) /\
      (forall b j, (forall k, (first <= k < n)%nat -> (b, j) <> (Z.of_nat k, index_at l k)) ->
        entry_get (tagged_tables q) b j = entry_get (tagged_tables s) b j))).
Proof.
  intros Hwf Hv l first n useful_of.
  pose proof (wf_params s Hwf) as HP. pose proof (wf_lookup s Hwf) as Hl.
  unfold allocate_entries. destruct (start_table_eq _ _ HP Hl) as [-> Hst].
  fold l first n in Hst |- *.
  assert (Hn : (first + (n - first) = n)%nat) by (unfold n; lia).
  destruct (alloc_loop_spec (params s) l HP Hl Hv (if taken then 0 else -1)
    (n - first) first (tagged_tables s))
    as [[-> Hall]|(k & ts' & Hk & -> & Hts & Hlt & Huk & Hget & Hne)];
    [apply Hwf|unfold n; lia|destruct taken; auto|..]; simpl; rewrite Hn in *.
  - destruct (decay_loop_spec (params s) l HP Hl Hv (n - first) first (tagged_tables s))
      as (ts & -> & Hts & Hin & Hout); [apply Hwf|unfold n in *; lia|].
    rewrite Hn in *. simpl. eexists. split; [done|].
    split; [by apply wf_with_tagged|]. split; [done|]. split; [done|]. by right.
  - eexists. split; [done|]. split; [by apply wf_with_tagged|]. split; [done|].
    split; [done|]. left. exists k. unfold useful_of. split_and!; auto; lia.
Qed.

(** The state after a first prediction of one branch. *)
Definition predicted_once : tage_predictor_t :=
  with_lookup (tage_new small_params) (ref_result (tage_new small_params) 0x48).

Lemma tage_allocate_correct_witness :
  exists q, allocate_entries predicted_once false = Some q /\ wf q.
Proof.
  destruct (tage_allocate_correct predicted_once false) as (q & Hq & Hw & _).
  - apply predict_wf, small_wf.
  - vm_compute. reflexivity.
  - eauto.
Defined.

(** [reset] returns the predictor to the state the constructor builds,
    after any sequence of operations. *)
Theorem tage_reset_fresh P os :
  params_ok P -> exists q, run (tage_new P) os = Some q /\ reset q = tage_new P.
Proof.
  intros HP. assert (wf (tage_new P)) as Hwf.
  { rewrite tage_new_fresh by done. apply fresh_wf; [done|]. apply ref_max_hist_nonneg. }
  destruct (tage_run_wf (tage_new P) os Hwf) as (q & Hq & Hwq & Hp & Hm).
  exists q. split; [done|]. rewrite reset_fresh by done. rewrite Hp, Hm.
  rewrite tage_new_fresh by done. done.
Qed.

Lemma tage_reset_fresh_witness :
  exists q, run (tage_new small_params) [OpTrain 0x40 true; OpTrain 0x44 false] = Some q /\
            reset q = tage_new small_params.
Proof. apply tage_reset_fresh. apply small_params_ok. Defined.
