(* ===== verification/BranchStats.v ===== *)
(** * Branch statistics of the simulated processor

    Model of the branch-predictor instrumentation of [processor_t]
    ([src/riscv-isa-sim/riscv/processor.{h,cc}]): the statistics counters, the
    region-of-interest markers delivered through [ebreak], and the hook every
    conditional branch instruction calls.  The two predictors are used through
    the interface [BranchPredictor], which [Perceptron] and [Tage] implement. *)

From stdpp Require Import base option list.
From S2P Require Import Prelude BranchHash Perceptron Tage.

(** ** The predictor interface *)

(** What the processor relies on: an invariant under which prediction,
    training and the confidence query are defined, a reset that forgets the
    past, and a confidence that is available after a prediction. *)
Class BranchPredictor (S : Type) := {
  bp_predict : S -> Z -> option (bool * S);
  bp_train : S -> Z -> bool -> option S;
  bp_reset : S -> S;
  bp_confident : S -> option bool;
  bp_inv : S -> Prop;
  (** states built from the same constructor arguments *)
  bp_same : S -> S -> Prop;
  bp_predict_total : forall s pc, bp_inv s ->
    exists b s', bp_predict s pc = Some (b, s') /\ bp_inv s' /\ bp_same s s' /\
                 is_Some (bp_confident s');
  bp_train_total : forall s pc t, bp_inv s ->
    exists s', bp_train s pc t = Some s' /\ bp_inv s' /\ bp_same s s';
  bp_reset_inv : forall s, bp_inv s -> bp_inv (bp_reset s) /\ bp_same s (bp_reset s);
  bp_reset_same : forall s s', bp_inv s -> bp_inv s' -> bp_same s s' ->
    bp_reset s' = bp_reset s;
  bp_same_refl : forall s, bp_same s s;
  bp_same_trans : forall s s' s'', bp_same s s' -> bp_same s' s'' -> bp_same s s'';
}.

#[export] Program Instance perceptron_predictor_bp
  : BranchPredictor perceptron_predictor_t := {|
  bp_predict := Perceptron.predict;
  bp_train := Perceptron.train;
  bp_reset := Perceptron.reset;
  bp_confident := Perceptron.last_prediction_high_confidence;
  bp_inv := Perceptron.wf;
  bp_same := Perceptron.same_shape;
|}.
Next Obligation.
  intros s pc Hwf. do 2 eexists. split; [by apply Perceptron.predict_ref|].
  pose proof (Perceptron.ref_score_bound s _ Hwf (Perceptron.idx_lt s pc Hwf)).
  split; [by apply Perceptron.wf_set_last_score|]. split; [done|].
  unfold Perceptron.last_prediction_high_confidence. simpl.
  rewrite int_ok_Some by lia. done.
Qed.
Next Obligation.
  intros s pc t Hwf. destruct (Perceptron.run_op_wf s (Perceptron.OpTrain pc t) Hwf) as (q & H).
  eauto.
Qed.
Next Obligation.
  intros s Hwf. destruct (Perceptron.run_op_wf s Perceptron.OpReset Hwf) as (q & [= <-] & H).
  done.
Qed.
Next Obligation. intros. by apply Perceptron.reset_same_shape. Qed.
Next Obligation. done. Qed.
Next Obligation. unfold Perceptron.same_shape. intuition congruence. Qed.

#[export] Program Instance tage_predictor_bp : BranchPredictor tage_predictor_t := {|
  bp_predict := Tage.predict;
  bp_train := Tage.train;
  bp_reset := Tage.reset;
  bp_confident := Tage.last_prediction_high_confidence;
  bp_inv := Tage.wf;
  bp_same := Tage.same_params;
|}.
Next Obligation.
  intros s pc Hwf. do 2 eexists. split; [by apply Tage.tage_predict_ref|].
  pose proof (Tage.predict_wf s pc Hwf) as Hwf'. split; [done|]. split; [done|].
  by apply Tage.confident_total.
Qed.
Next Obligation. intros. by apply Tage.train_wf. Qed.
Next Obligation.
  intros s Hwf. destruct (Tage.tage_run_op_wf s Tage.OpReset Hwf) as (q & [= <-] & H). done.
Qed.
Next Obligation.
  intros s s' Hs Hs' [Hp Hm]. rewrite !Tage.reset_fresh by done. by rewrite Hp, Hm.
Qed.
Next Obligation. done. Qed.
Next Obligation. unfold Tage.same_params. intuition congruence. Qed.

(** ** The processor's statistics state *)

Inductive branch_predictor_kind_t := perceptron | tage | hybrid.

Definition ROI_START_MARKER : Z := 1.
Definition ROI_END_MARKER : Z := 2.

Section Processor.
Context {Pp Tp : Type} `{!BranchPredictor Pp} `{!BranchPredictor Tp}.

Record processor_t := mk_processor {
  perceptron_stats_enabled : bool;
  roi_active : bool;
  branch_predictor_kind : branch_predictor_kind_t;
  perceptron_predictor : Pp;
  tage_predictor : Tp;
  perceptron_branch_count : Z;
  perceptron_mispredictions : Z;
  perceptron_roi_instructions : Z;
  perceptron_roi_start_instructions : Z;
}.

(** The statistics part of the constructor. *)
Definition processor_new (pp : Pp) (tp : Tp) : processor_t :=
  mk_processor false false perceptron pp tp 0 0 0 0.

Definition set_perceptron_stats (p : processor_t) (value : bool) : processor_t :=
  mk_processor value (roi_active p) (branch_predictor_kind p) (perceptron_predictor p)
    (tage_predictor p) (perceptron_branch_count p) (perceptron_mispredictions p)
    (perceptron_roi_instructions p) (perceptron_roi_start_instructions p).

Definition set_branch_predictor (p : processor_t) (kind : branch_predictor_kind_t)
  : processor_t :=
  mk_processor (perceptron_stats_enabled p) (roi_active p) kind (perceptron_predictor p)
    (tage_predictor p) (perceptron_branch_count p) (perceptron_mispredictions p)
    (perceptron_roi_instructions p) (perceptron_roi_start_instructions p).

(** [marker] is register [a0], [minstret] the retired-instruction counter. *)
Definition handle_roi_ebreak (p : processor_t) (marker minstret : Z)
  : bool * processor_t :=
  if negb (perceptron_stats_enabled p) then (false, p)
  else if marker =? ROI_START_MARKER then
    (true, mk_processor (perceptron_stats_enabled p) true (branch_predictor_kind p)
             (bp_reset (perceptron_predictor p)) (bp_reset (tage_predictor p))
             0 0 0 minstret)
  else if marker =? ROI_END_MARKER then
    let n := if roi_active p
             then u64 (perceptron_roi_instructions p
                       + u64 (minstret - perceptron_roi_start_instructions p))
             else perceptron_roi_instructions p in
    (true, mk_processor (perceptron_stats_enabled p) false (branch_predictor_kind p)
             (perceptron_predictor p) (tage_predictor p) (perceptron_branch_count p)
             (perceptron_mispredictions p) n (perceptron_roi_start_instructions p))
  else (false, p).

(** The first [switch]: the prediction, with the predictors it touches. *)
Definition predict_kind (kind : branch_predictor_kind_t) (pp : Pp) (tp : Tp) (pc : Z)
  : option (bool * Pp * Tp) :=
  match kind with
  | perceptron => '(b, pp) ← bp_predict pp pc; Some (b, pp, tp)
  | tage => '(b, tp) ← bp_predict tp pc; Some (b, pp, tp)
  | hybrid =>
      '(tage_pred, tp) ← bp_predict tp pc;
      '(perceptron_pred, pp) ← bp_predict pp pc;
      tc ← bp_confident tp;
      if tc : bool then Some (tage_pred, pp, tp)
      else
        pcf ← bp_confident pp;
        if pcf : bool then Some (perceptron_pred, pp, tp)
        else Some (tage_pred, pp, tp)
  end.

(** The second [switch]. *)
Definition train_kind (kind : branch_predictor_kind_t) (pp : Pp) (tp : Tp) (pc : Z)
    (actual_taken : bool) : option (Pp * Tp) :=
  match kind with
  | perceptron => pp ← bp_train pp pc actual_taken; Some (pp, tp)
  | tage => tp ← bp_train tp pc actual_taken; Some (pp, tp)
  | hybrid =>
      tp ← bp_train tp pc actual_taken;
      pp ← bp_train pp pc actual_taken;
      Some (pp, tp)
  end.

Definition note_conditional_branch (p : processor_t) (pc : Z) (actual_taken : bool)
  : option processor_t :=
  if negb (perceptron_stats_enabled p) then Some p
  else if negb (roi_active p) then Some p
  else
    let count := u64 (perceptron_branch_count p + 1) in
    '(predicted_taken, pp, tp) ← predict_kind (branch_predictor_kind p)
                                   (perceptron_predictor p) (tage_predictor p) pc;
    let miss := if negb (Bool.eqb predicted_taken actual_taken)
                then u64 (perceptron_mispredictions p + 1)
                else perceptron_mispredictions p in
    '(pp, tp) ← train_kind (branch_predictor_kind p) pp tp pc actual_taken;
    Some (mk_processor (perceptron_stats_enabled p) (roi_active p)
            (branch_predictor_kind p) pp tp count miss
            (perceptron_roi_instructions p) (perceptron_roi_start_instructions p)).

(** The instruction count the destructor prints for the region of interest. *)
Definition reported_roi_instructions (p : processor_t) (instructions : Z) : Z :=
  if roi_active p
  then u64 (perceptron_roi_instructions p
            + u64 (instructions - perceptron_roi_start_instructions p))
  else perceptron_roi_instructions p.

(** ** Events and runs *)

Inductive event :=
  | EvBranch (pc : Z) (taken : bool)
  | EvEbreak (marker minstret : Z)
  | EvStats (enabled : bool)
  | EvKind (kind : branch_predictor_kind_t).

Definition step (p : processor_t) (e : event) : option processor_t :=
  match e with
  | EvBranch pc t => note_conditional_branch p pc t
  | EvEbreak m i => Some (handle_roi_ebreak p m i).2
  | EvStats b => Some (set_perceptron_stats p b)
  | EvKind k => Some (set_branch_predictor p k)
  end.

Fixpoint run_events (p : processor_t) (es : list event) : option processor_t :=
  match es with
  | [] => Some p
  | e :: es => p' ← step p e; run_events p' es
  end.
End Processor.

Arguments processor_t : clear implicits.
Arguments mk_processor {Pp Tp}.

(** * Facts about the processor *)

Section Facts.
Context {Pp Tp : Type} `{!BranchPredictor Pp} `{!BranchPredictor Tp}.
Implicit Types p q : processor_t Pp Tp.

Definition predictors_ok (pp : Pp) (tp : Tp) : Prop := bp_inv pp /\ bp_inv tp.

(** The pair of predictors was built from the same arguments. *)
Definition predictors_same (pp pp' : Pp) (tp tp' : Tp) : Prop :=
  bp_same pp pp' /\ bp_same tp tp'.

Lemma predict_kind_total kind (pp : Pp) (tp : Tp) pc :
  predictors_ok pp tp ->
  exists b pp' tp', predict_kind kind pp tp pc = Some (b, pp', tp') /\
    predictors_ok pp' tp' /\ predictors_same pp pp' tp tp'.
Proof.
  intros [Hp Ht]. unfold predictors_ok, predictors_same.
  destruct (bp_predict_total pp pc Hp) as (b & pp' & Hpp & Hpi & Hps & [c Hpc]).
  destruct (bp_predict_total tp pc Ht) as (d & tp' & Htp & Hti & Hts & [f Htf]).
  pose proof (bp_same_refl pp). pose proof (bp_same_refl tp).
  destruct kind; simpl; rewrite ?Hpp, ?Htp; simpl; rewrite ?Hpc, ?Htf; simpl;
    [eauto 12|eauto 12|].
  destruct f; simpl; [|destruct c; simpl]; eauto 12.
Qed.

Lemma train_kind_total kind (pp : Pp) (tp : Tp) pc t :
  predictors_ok pp tp ->
  exists pp' tp', train_kind kind pp tp pc t = Some (pp', tp') /\
    predictors_ok pp' tp' /\ predictors_same pp pp' tp tp'.
Proof.
  intros [Hp Ht]. unfold predictors_ok, predictors_same.
  destruct (bp_train_total pp pc t Hp) as (pp' & Hpp & Hpi & Hps).
  destruct (bp_train_total tp pc t Ht) as (tp' & Htp & Hti & Hts).
  pose proof (bp_same_refl pp). pose proof (bp_same_refl tp).
  destruct kind; simpl; rewrite ?Hpp, ?Htp; simpl; eauto 12.
Qed.

(** ** The abstract statistics

    What the counters mean: whether statistics are on, whether a region of
    interest is open, the predictor kind, and the branches the current region
    has seen, each with the kind that was selected when it was executed. *)
Record branch := mk_branch {
  br_kind : branch_predictor_kind_t;
  br_pc : Z;
  br_taken : bool;
}.

Record stats := mk_stats {
  st_on : bool;
  st_open : bool;
  st_kind : branch_predictor_kind_t;
  st_branches : list branch;
}.

Definition stats_step (a : stats) (e : event) : stats :=
  match e with
  | EvBranch pc t =>
      if st_on a && st_open a
      then mk_stats true true (st_kind a) (st_branches a ++ [mk_branch (st_kind a) pc t])
      else a
  | EvEbreak m _ =>
      if negb (st_on a) then a
      else if m =? ROI_START_MARKER then mk_stats true true (st_kind a) []
      else if m =? ROI_END_MARKER then mk_stats true false (st_kind a) (st_branches a)
      else a
  | EvStats b => mk_stats b (st_open a) (st_kind a) (st_branches a)
  | EvKind k => mk_stats (st_on a) (st_open a) k (st_branches a)
  end.

(** ** Offline evaluation

    The reference the counters are compared with: a recorded list of branches
    is replayed on a pair of predictors, and the predictions are listed.  Each
    predictor is asked, and taught the outcome, only if the kind uses it; TAGE
    has the last word unless it is not confident and a perceptron that is in use
    is. *)
Definition uses_perceptron (k : branch_predictor_kind_t) : bool :=
  match k with tage => false | _ => true end.

Definition uses_tage (k : branch_predictor_kind_t) : bool :=
  match k with perceptron => false | _ => true end.

(** The prediction of one predictor, its confidence, and what the prediction
    leaves. *)
Definition consult {S : Type} `{!BranchPredictor S} (used : bool) (s : S) (pc : Z)
  : option (bool * bool * S) :=
  if used then '(b, s') ← bp_predict s pc; c ← bp_confident s'; Some (b, c, s')
  else Some (false, false, s).

Definition teach {S : Type} `{!BranchPredictor S} (used : bool) (s : S) (pc : Z) (t : bool)
  : option S :=
  if used then bp_train s pc t else Some s.

Definition replay_branch (b : branch) (pp : Pp) (tp : Tp) : option (bool * Pp * Tp) :=
  let up := uses_perceptron (br_kind b) in
  let ut := uses_tage (br_kind b) in
  '(p_taken, p_sure, pp) ← consult up pp (br_pc b);
  '(t_taken, t_sure, tp) ← consult ut tp (br_pc b);
  pp ← teach up pp (br_pc b) (br_taken b);
  tp ← teach ut tp (br_pc b) (br_taken b);
  Some (if ut && (t_sure || negb (up && p_sure)) then t_taken else p_taken, pp, tp).

Fixpoint replay (bs : list branch) (pp : Pp) (tp : Tp) : option (list bool * Pp * Tp) :=
  match bs with
  | [] => Some ([], pp, tp)
  | b :: bs =>
      '(x, pp, tp) ← replay_branch b pp tp;
      '(xs, pp, tp) ← replay bs pp tp;
      Some (x :: xs, pp, tp)
  end.

(** How many predictions differ from the outcome. *)
Definition misses (xs : list bool) (bs : list branch) : nat :=
  length (List.filter (fun '(x, b) => xorb x (br_taken b)) (zip xs bs)).

Lemma replay_app bs bs' pp tp :
  replay (bs ++ bs') pp tp =
  '(xs, pp, tp) ← replay bs pp tp;
  '(ys, pp, tp) ← replay bs' pp tp;
  Some (xs ++ ys, pp, tp).
Proof.
  revert pp tp. induction bs as [|b bs IH]; intros pp tp; simpl.
  { by destruct (replay bs' pp tp) as [[[ys pp'] tp']|]. }
  destruct (replay_branch b pp tp) as [[[x pp1] tp1]|]; simpl; [|done]. rewrite IH.
  destruct (replay bs pp1 tp1) as [[[xs pp2] tp2]|]; simpl; [|done].
  by destruct (replay bs' pp2 tp2) as [[[ys pp3] tp3]|].
Qed.

Lemma replay_length bs pp tp xs pp' tp' :
  replay bs pp tp = Some (xs, pp', tp') -> length xs = length bs.
Proof.
  revert pp tp xs. induction bs as [|b bs IH]; intros pp tp xs; simpl; [by intros [= <-]|].
  destruct (replay_branch b pp tp) as [[[x pp1] tp1]|]; simpl; [|done].
  destruct (replay bs pp1 tp1) as [[[ys pp2] tp2]|] eqn:Hr; simpl; [|done].
  intros [= <- <- <-]. simpl. f_equal. by apply (IH pp1 tp1).
Qed.

Lemma misses_snoc xs bs x b :
  length xs = length bs ->
  misses (xs ++ [x]) (bs ++ [b])
  = (misses xs bs + if xorb x (br_taken b) then 1 else 0)%nat.
Proof.
  intros H. unfold misses. rewrite zip_with_app by done. rewrite List.filter_app, length_app.
  f_equal. simpl. by destruct (xorb x (br_taken b)).
Qed.

Lemma misses_le xs bs : (misses xs bs <= length bs)%nat.
Proof.
  unfold misses. etransitivity; [apply List.filter_length_le|].
  rewrite length_zip_with. lia.
Qed.

(** The two switches of the hook are one step of the replay. *)
Lemma replay_branch_kinds b pp tp :
  predictors_ok pp tp ->
  replay_branch b pp tp =
  '(x, pp, tp) ← predict_kind (br_kind b) pp tp (br_pc b);
  '(pp, tp) ← train_kind (br_kind b) pp tp (br_pc b) (br_taken b);
  Some (x, pp, tp).
Proof.
  intros [Hp Ht]. destruct b as [k pc t]. unfold replay_branch. simpl.
  destruct (bp_predict_total pp pc Hp) as (x & pp1 & Hpp & Hpi & _ & [c Hpc]).
  destruct (bp_predict_total tp pc Ht) as (y & tp1 & Htp & Hti & _ & [f Htf]).
  destruct (bp_train_total pp1 pc t Hpi) as (pp2 & Hpt & _).
  destruct (bp_train_total tp1 pc t Hti) as (tp2 & Htt & _).
  destruct k; simpl; rewrite ?Hpp, ?Htp; simpl; rewrite ?Hpc, ?Htf; simpl;
    rewrite ?Hpt, ?Htt; simpl; rewrite ?Hpt; simpl; rewrite ?orb_true_r; try done.
  destruct f; simpl; [|destruct c]; simpl; rewrite ?Htt; simpl; rewrite ?Hpt; done.
Qed.

(** ** Simulation

    The predictors after [reset], from which every region starts. *)
Context (pp0 : Pp) (tp0 : Tp).
Context (Hok0 : predictors_ok pp0 tp0).
Context (Hreset : bp_reset pp0 = pp0 /\ bp_reset tp0 = tp0).

(** The simulation relation: the switches agree, the branch counter counts the
    branches of the region modulo [2 ^ 64], and the predictors and the
    misprediction counter are what a replay of these branches leaves. *)
Definition represents (p : processor_t Pp Tp) (a : stats) : Prop :=
  (perceptron_stats_enabled p = st_on a /\ roi_active p = st_open a /\
   branch_predictor_kind p = st_kind a) /\
  perceptron_branch_count p = u64 (Z.of_nat (length (st_branches a))) /\
  (exists xs, replay (st_branches a) pp0 tp0
                = Some (xs, perceptron_predictor p, tage_predictor p) /\
     perceptron_mispredictions p = u64 (Z.of_nat (misses xs (st_branches a)))) /\
  predictors_ok (perceptron_predictor p) (tage_predictor p) /\
  predictors_same pp0 (perceptron_predictor p) tp0 (tage_predictor p).

Lemma u64_succ x : u64 (u64 x + 1) = u64 (x + 1).
Proof. unfold uwrap. rewrite Zplus_mod_idemp_l. done. Qed.

Lemma note_branch_simulates p a pc t :
  represents p a ->
  exists q, note_conditional_branch p pc t = Some q /\
    represents q (stats_step a (EvBranch pc t)).
Proof.
  intros HR. pose proof HR as ((Hon & Hop & Hk) & Hb & (xs & Hxs & Hmi) & Hok & Hs1 & Hs2).
  unfold note_conditional_branch, stats_step. rewrite Hon, Hop.
  destruct (st_on a); simpl; [|eauto]. destruct (st_open a); simpl; [|eauto].
  pose proof (replay_branch_kinds (mk_branch (st_kind a) pc t) _ _ Hok) as Hrb. simpl in Hrb.
  rewrite Hk. destruct (predict_kind_total (st_kind a) _ _ pc Hok)
    as (b & pp & tp & Hpk & Hok1 & Hp1 & Ht1). rewrite Hpk in Hrb |- *. simpl in Hrb |- *.
  destruct (train_kind_total (st_kind a) pp tp pc t Hok1)
    as (pp' & tp' & Htk & Hok2 & Hp2 & Ht2). rewrite Htk in Hrb |- *. simpl in Hrb |- *.
  eexists. split; [done|]. split; [done|]. simpl. rewrite length_app. simpl. split_and!.
  - rewrite Hb, u64_succ. f_equal. lia.
  - exists (xs ++ [b]). rewrite replay_app, Hxs. simpl. rewrite Hrb. simpl.
    split; [done|]. rewrite misses_snoc by (by eapply replay_length). simpl. rewrite Hmi.
    destruct b, t; simpl; rewrite ?u64_succ; f_equal; lia.
  - done.
  - split; by do 2 (eapply bp_same_trans; [eassumption|]).
Qed.

Lemma ebreak_simulates p a m i :
  represents p a ->
  represents (handle_roi_ebreak p m i).2 (stats_step a (EvEbreak m i)).
Proof.
  intros HR. pose proof HR as ((Hon & Hop & Hk) & Hb & Hm & [Hp Ht] & Hs1 & Hs2).
  unfold handle_roi_ebreak, stats_step. rewrite Hon. destruct (st_on a); simpl; [|done].
  destruct (m =? ROI_START_MARKER); simpl.
  { destruct Hok0 as [Hp0 Ht0]. destruct Hreset as [Hrp Hrt].
    assert (bp_reset (perceptron_predictor p) = pp0) as Ep
      by (rewrite <- Hrp; by apply bp_reset_same).
    assert (bp_reset (tage_predictor p) = tp0) as Et
      by (rewrite <- Hrt; by apply bp_reset_same).
    unfold represents. simpl. rewrite Ep, Et.
    split; [done|]. split; [done|]. split; [by exists []|]. split; [done|].
    split; apply bp_same_refl. }
  destruct (m =? ROI_END_MARKER); simpl; by unfold represents; simpl.
Qed.

Lemma step_simulates p a e :
  represents p a -> exists q, step p e = Some q /\ represents q (stats_step a e).
Proof.
  intros HR. destruct e as [pc t|m i|b|k]; simpl.
  - by apply note_branch_simulates.
  - eexists. split; [done|]. by apply ebreak_simulates.
  - eexists. split; [done|]. destruct HR as ((? & ? & ?) & HR). by split.
  - eexists. split; [done|]. destruct HR as ((? & ? & ?) & HR). by split.
Qed.

Lemma run_simulates p a es :
  represents p a ->
  exists q, run_events p es = Some q /\ represents q (fold_left stats_step es a).
Proof.
  revert p a. induction es as [|e es IH]; intros p a HR; simpl; [eauto|].
  destruct (step_simulates p a e HR) as (q & -> & Hq). simpl. by apply IH.
Qed.

(** Only [set_branch_predictor] changes the predictor kind. *)
Definition kind_step (k : branch_predictor_kind_t) (e : event) : branch_predictor_kind_t :=
  match e with EvKind k' => k' | _ => k end.

Lemma run_kind p es q :
  run_events p es = Some q ->
  branch_predictor_kind q = fold_left kind_step es (branch_predictor_kind p).
Proof.
  revert p. induction es as [|e es IH]; intros p; simpl; [by intros [= ->]|].
  destruct (step p e) as [p1|] eqn:Hs; [|done]. simpl. intros Hr.
  rewrite (IH p1 Hr). f_equal. destruct e as [pc t|m i|b|k]; simpl in *.
  - unfold note_conditional_branch in Hs.
    destruct (negb (perceptron_stats_enabled p)); [by injection Hs as <-|].
    destruct (negb (roi_active p)); [by injection Hs as <-|].
    destruct (predict_kind _ _ _ _) as [[[b pp] tp]|]; [|done]. simpl in Hs.
    destruct (train_kind _ _ _ _ _) as [[pp' tp']|]; [|done]. simpl in Hs.
    by injection Hs as <-.
  - injection Hs as <-. unfold handle_roi_ebreak. destruct (negb _); [done|].
    destruct (m =? _); [done|]. by destruct (m =? _).
  - by injection Hs as <-.
  - by injection Hs as <-.
Qed.

(** ** Regions of interest are isolated *)

Lemma roi_start_same p q i :
  perceptron_stats_enabled p = true -> perceptron_stats_enabled q = true ->
  branch_predictor_kind q = branch_predictor_kind p ->
  predictors_ok (perceptron_predictor p) (tage_predictor p) ->
  predictors_ok (perceptron_predictor q) (tage_predictor q) ->
  predictors_same (perceptron_predictor p) (perceptron_predictor q)
                  (tage_predictor p) (tage_predictor q) ->
  handle_roi_ebreak q ROI_START_MARKER i = handle_roi_ebreak p ROI_START_MARKER i.
Proof.
  intros Hp Hq Hk [Hp1 Ht1] [Hp2 Ht2] [Hs Ht].
  unfold handle_roi_ebreak. rewrite Hp, Hq, Hk. simpl.
  by rewrite (bp_reset_same _ _ Hp1 Hp2 Hs), (bp_reset_same _ _ Ht1 Ht2 Ht).
Qed.

(** The predictors of a run keep their shape. *)
Lemma run_same p es q :
  predictors_ok (perceptron_predictor p) (tage_predictor p) ->
  run_events p es = Some q ->
  predictors_ok (perceptron_predictor q) (tage_predictor q) /\
  predictors_same (perceptron_predictor p) (perceptron_predictor q)
                  (tage_predictor p) (tage_predictor q).
Proof.
  revert p. induction es as [|e es IH]; intros p Hok; simpl.
  { intros [= <-]. split; [done|]. split; apply bp_same_refl. }
  destruct (step p e) as [p1|] eqn:Hs; [|done]. simpl. intros Hr.
  assert (predictors_ok (perceptron_predictor p1) (tage_predictor p1) /\
          predictors_same (perceptron_predictor p) (perceptron_predictor p1)
                          (tage_predictor p) (tage_predictor p1)) as [Hok1 Hs1].
  { assert (predictors_same (perceptron_predictor p) (perceptron_predictor p)
                          (tage_predictor p) (tage_predictor p)) as Hrefl
      by (split; apply bp_same_refl).
    destruct e as [pc t|m i|b|k]; simpl in Hs; [|injection Hs as <-..]; try done.
    - unfold note_conditional_branch in Hs.
      destruct (negb (perceptron_stats_enabled p)); [by injection Hs as <-|].
      destruct (negb (roi_active p)); [by injection Hs as <-|].
      destruct (predict_kind_total (branch_predictor_kind p) _ _ pc Hok)
        as (b & pp & tp & Hpk & Hok1 & Hs1). rewrite Hpk in Hs. simpl in Hs.
      destruct (train_kind_total (branch_predictor_kind p) pp tp pc t Hok1)
        as (pp' & tp' & Htk & Hok2 & Hs2). rewrite Htk in Hs. simpl in Hs.
      injection Hs as <-. simpl. split; [done|].
      destruct Hs1, Hs2. split; by eapply bp_same_trans.
    - unfold handle_roi_ebreak. destruct (negb _); [done|].
      destruct (m =? ROI_START_MARKER); simpl; [|by destruct (m =? ROI_END_MARKER)].
      destruct Hok as [Hp Ht]. destruct (bp_reset_inv _ Hp), (bp_reset_inv _ Ht). done. }
  destruct (IH p1 Hok1 Hr) as [Hok2 Hs2]. split; [done|].
  destruct Hs1, Hs2. split; by eapply bp_same_trans.
Qed.
End Facts.

(** * Properties *)

(** The processor with the predictors the constructor builds by default. *)
Definition default_processor (pp : perceptron_predictor_t)
  : processor_t perceptron_predictor_t tage_predictor_t :=
  processor_new pp (tage_new boom_like_default).

Lemma default_predictors :
  exists pp, perceptron_new 1024 48 8 = Some pp /\
    predictors_ok pp (tage_new boom_like_default) /\
    bp_reset pp = pp /\ bp_reset (tage_new boom_like_default) = tage_new boom_like_default.
Proof.
  destruct (perceptron_new_wf 1024 48 8) as (pp & Hpp & Hwf & Hr & _).
  { unfold good_params. lia. }
  assert (Tage.wf (tage_new boom_like_default)) as Ht.
  { rewrite tage_new_fresh by apply boom_like_default_ok.
    apply fresh_wf; [apply boom_like_default_ok|apply ref_max_hist_nonneg]. }
  exists pp. split; [done|]. split; [done|]. split; [done|].
  change (Tage.reset (tage_new boom_like_default) = tage_new boom_like_default).
  rewrite reset_fresh by done. by rewrite !tage_new_fresh by apply boom_like_default_ok.
Qed.

(** The statistics of a freshly constructed processor. *)
Definition no_stats : stats := mk_stats false false perceptron [].

Lemma default_represents pp :
  predictors_ok pp (tage_new boom_like_default) ->
  represents pp (tage_new boom_like_default) (default_processor pp) no_stats.
Proof.
  intros Hok. unfold represents. simpl. split; [done|]. split; [done|].
  split; [by exists []|]. split; [done|]. split; apply bp_same_refl.
Qed.

(** C35: the statistics are a faithful online evaluation.  For every sequence of
    branches, [ebreak] markers and option changes on a freshly constructed
    processor (with the default predictors), the hooks are defined; the branch
    counter is the number of branches executed in the current region of
    interest while statistics were enabled; and replaying exactly these branches
    offline, on newly built predictors, gives as many wrong predictions as the
    misprediction counter says and the same trained predictors.  The two
    counters are read modulo [2 ^ 64], their width, and are exact for a region
    of fewer branches. *)
Theorem statistics_refine_events es :
  exists pp q, perceptron_new 1024 48 8 = Some pp /\
    run_events (default_processor pp) es = Some q /\
    let a := fold_left stats_step es no_stats in
    let region := st_branches a in
    roi_active q = st_open a /\ branch_predictor_kind q = st_kind a /\
    exists predictions,
      replay region pp (tage_new boom_like_default)
        = Some (predictions, perceptron_predictor q, tage_predictor q) /\
      length predictions = length region /\
      perceptron_branch_count q = u64 (Z.of_nat (length region)) /\
      perceptron_mispredictions q = u64 (Z.of_nat (misses predictions region)) /\
      (Z.of_nat (length region) < 2 ^ 64 ->
         perceptron_branch_count q = Z.of_nat (length region) /\
         perceptron_mispredictions q = Z.of_nat (misses predictions region)).
Proof.
  destruct default_predictors as (pp & Hpp & Hok & Hr). exists pp.
  destruct (run_simulates _ _ Hok Hr _ _ es (default_represents pp Hok))
    as (q & Hq & (Hon & Hop & Hk) & Hb & (xs & Hxs & Hmi) & _).
  exists q. split; [done|]. split; [done|]. intros a region.
  split; [done|]. split; [done|]. exists xs. split; [done|].
  split; [exact (replay_length _ _ _ _ _ _ Hxs)|]. do 2 (split; [done|]). intros Hlt.
  pose proof (misses_le xs region). unfold region, a in *.
  rewrite Hmi, Hb. rewrite !uwrap_small by lia. done.
Qed.

(** A region of interest is measured in isolation: on two processors with
    the same options whose predictors were built alike, whatever they executed
    before, the start marker followed by any events leads to exactly the same
    state, hence to the same reported counts. *)
Theorem roi_isolated (pp : perceptron_predictor_t) es1 es2 p1 p2 i es :
  Perceptron.wf pp ->
  run_events (default_processor pp) es1 = Some p1 ->
  run_events (default_processor pp) es2 = Some p2 ->
  perceptron_stats_enabled p1 = true -> perceptron_stats_enabled p2 = true ->
  branch_predictor_kind p1 = branch_predictor_kind p2 ->
  run_events p1 (EvEbreak ROI_START_MARKER i :: es)
  = run_events p2 (EvEbreak ROI_START_MARKER i :: es).
Proof.
  intros Hwf H1 H2 He1 He2 Hk.
  destruct default_predictors as (_ & _ & [_ Ht] & _).
  assert (predictors_ok (perceptron_predictor (default_processor pp))
                        (tage_predictor (default_processor pp))) as Hok by done.
  destruct (run_same _ _ _ Hok H1) as [Hok1 [Hs1 Ht1]].
  destruct (run_same _ _ _ Hok H2) as [Hok2 [Hs2 Ht2]].
  change (run_events (handle_roi_ebreak p1 ROI_START_MARKER i).2 es
          = run_events (handle_roi_ebreak p2 ROI_START_MARKER i).2 es).
  rewrite (roi_start_same p2 p1 i); try done.
  simpl in Hs1, Ht1, Hs2, Ht2. unfold same_shape in *. unfold same_params in *.
  split; simpl; [unfold same_shape|unfold same_params]; intuition congruence.
Qed.

(** Enabling statistics after a training region, and right away. *)
Lemma roi_isolated_witness :
  exists pp p1 p2,
    run_events (default_processor pp)
      [EvStats true; EvEbreak 1 0; EvBranch 0x80000010 true; EvEbreak 2 9] = Some p1 /\
    run_events (default_processor pp) [EvStats true] = Some p2 /\
    run_events p1 [EvEbreak ROI_START_MARKER 20; EvBranch 0x80000020 false]
    = run_events p2 [EvEbreak ROI_START_MARKER 20; EvBranch 0x80000020 false].
Proof.
  destruct default_predictors as (pp & Hpp & Hok & Hr). exists pp.
  pose proof (default_represents pp Hok) as HR.
  destruct (run_simulates _ _ Hok Hr _ _
    [EvStats true; EvEbreak 1 0; EvBranch 0x80000010 true; EvEbreak 2 9] HR)
    as (p1 & H1 & (Hon1 & _) & _).
  destruct (run_simulates _ _ Hok Hr _ _ [EvStats true] HR) as (p2 & H2 & (Hon2 & _) & _).
  exists p1, p2. split; [exact H1|]. split; [exact H2|].
  eapply (roi_isolated pp); [apply Hok|exact H1|exact H2|exact Hon1|exact Hon2|].
  rewrite (run_kind _ _ _ H1), (run_kind _ _ _ H2). reflexivity.
Defined.

