(* ===== verification/SFBase.v ===== *)
(** * SoftFloat: state, primitives and field macros

    Model of the parts of Berkeley SoftFloat
    ([src/riscv-isa-sim/softfloat]) that every operation shares: the
    thread-local rounding mode, tininess mode and exception flags, the shifting
    and counting primitives of [primitives.h], the sign/exponent/fraction macros
    of [internals.h] and the NaN conventions of [specialize.h].

    The configuration is the one [platform.h] selects ([INLINE_LEVEL] 5,
    [SOFTFLOAT_FAST_INT64], [SOFTFLOAT_FAST_DIV64TO32], [SOFTFLOAT_ROUND_ODD]).
    The "fast" integer types have their LP64 glibc widths: [uint_fast8_t] and
    [int_fast8_t] have 8 bits, the 16-, 32- and 64-bit ones have 64.

    The right shifts of [primitives.h] "jam" the bits shifted off into the
    lowest bit of the result.  [jam] is their mathematical meaning; the lemmas
    show that a jammed value keeps everything a later rounding needs.  The
    leading-zero counts are the integer logarithm. *)

From Stdlib Require Import ZArith Lia Bool List.
From S2P Require Import Prelude.

Import ListNotations.

(** ** Modes, flags and the state monad *)

Inductive rounding_mode :=
  | softfloat_round_near_even
  | softfloat_round_minMag
  | softfloat_round_min
  | softfloat_round_max
  | softfloat_round_near_maxMag
  | softfloat_round_odd.

Inductive tininess :=
  | softfloat_tininess_beforeRounding
  | softfloat_tininess_afterRounding.

Definition rm_eqb (a b : rounding_mode) : bool :=
  match a, b with
  | softfloat_round_near_even, softfloat_round_near_even
  | softfloat_round_minMag, softfloat_round_minMag
  | softfloat_round_min, softfloat_round_min
  | softfloat_round_max, softfloat_round_max
  | softfloat_round_near_maxMag, softfloat_round_near_maxMag
  | softfloat_round_odd, softfloat_round_odd => true
  | _, _ => false
  end.

Definition softfloat_flag_inexact : Z := 1.
Definition softfloat_flag_underflow : Z := 2.
Definition softfloat_flag_overflow : Z := 4.
Definition softfloat_flag_infinite : Z := 8.
Definition softfloat_flag_invalid : Z := 16.

Record fp_state := mk_fp {
  softfloat_roundingMode : rounding_mode;
  softfloat_detectTininess : tininess;
  softfloat_exceptionFlags : Z;
}.

(** The initial values of [softfloat_state.c]. *)
Definition softfloat_state_init : fp_state :=
  mk_fp softfloat_round_near_even softfloat_tininess_afterRounding 0.

(** Computations over the thread-local state. *)
Definition fp (A : Type) : Type := fp_state -> A * fp_state.

Definition fret {A} (x : A) : fp A := fun st => (x, st).

Definition fbind {A B} (m : fp A) (k : A -> fp B) : fp B :=
  fun st => let (x, st') := m st in k x st'.

Declare Scope fp_scope.
Delimit Scope fp_scope with fp.
Notation "x <- m ;; k" := (fbind m (fun x => k))
  (at level 61, m at next level, right associativity) : fp_scope.
Notation "m ;; k" := (fbind m (fun _ => k))
  (at level 61, right associativity) : fp_scope.
#[global] Open Scope fp_scope.

Definition get_roundingMode : fp rounding_mode := fun st => (softfloat_roundingMode st, st).

Definition get_detectTininess : fp tininess := fun st => (softfloat_detectTininess st, st).

Definition softfloat_raiseFlags (flags : Z) : fp unit :=
  fun st => (tt, mk_fp (softfloat_roundingMode st) (softfloat_detectTininess st)
                       (softfloat_exceptionFlags st .| flags)).

(** The state after raising [flags]. *)
Definition raise (flags : Z) (st : fp_state) : fp_state :=
  mk_fp (softfloat_roundingMode st) (softfloat_detectTininess st)
        (softfloat_exceptionFlags st .| flags).

(** ** Primitives ([primitives.h]) *)

Definition softfloat_shortShiftRightJam64 (a dist : Z) : Z :=
  (a .>> dist) .| b2z (nz (a .& (u64 (u64 (1 .<< dist) - 1)))).

Definition softfloat_shiftRightJam32 (a dist : Z) : Z :=
  if dist <? 31
  then (a .>> dist) .| b2z (nz (u32 (a .<< (u64 (- dist) .& 31))))
  else b2z (nz a).

Definition softfloat_shiftRightJam64 (a dist : Z) : Z :=
  if dist <? 63
  then (a .>> dist) .| b2z (nz (u64 (a .<< (u64 (- dist) .& 63))))
  else b2z (nz a).

(** [softfloat_countLeadingZeros8[256]] *)
Definition countLeadingZeros8_table : list Z := [
    8; 7; 6; 6; 5; 5; 5; 5; 4; 4; 4; 4; 4; 4; 4; 4;
    3; 3; 3; 3; 3; 3; 3; 3; 3; 3; 3; 3; 3; 3; 3; 3;
    2; 2; 2; 2; 2; 2; 2; 2; 2; 2; 2; 2; 2; 2; 2; 2;
    2; 2; 2; 2; 2; 2; 2; 2; 2; 2; 2; 2; 2; 2; 2; 2;
    1; 1; 1; 1; 1; 1; 1; 1; 1; 1; 1; 1; 1; 1; 1; 1;
    1; 1; 1; 1; 1; 1; 1; 1; 1; 1; 1; 1; 1; 1; 1; 1;
    1; 1; 1; 1; 1; 1; 1; 1; 1; 1; 1; 1; 1; 1; 1; 1;
    1; 1; 1; 1; 1; 1; 1; 1; 1; 1; 1; 1; 1; 1; 1; 1;
    0; 0; 0; 0; 0; 0; 0; 0; 0; 0; 0; 0; 0; 0; 0; 0;
    0; 0; 0; 0; 0; 0; 0; 0; 0; 0; 0; 0; 0; 0; 0; 0;
    0; 0; 0; 0; 0; 0; 0; 0; 0; 0; 0; 0; 0; 0; 0; 0;
    0; 0; 0; 0; 0; 0; 0; 0; 0; 0; 0; 0; 0; 0; 0; 0;
    0; 0; 0; 0; 0; 0; 0; 0; 0; 0; 0; 0; 0; 0; 0; 0;
    0; 0; 0; 0; 0; 0; 0; 0; 0; 0; 0; 0; 0; 0; 0; 0;
    0; 0; 0; 0; 0; 0; 0; 0; 0; 0; 0; 0; 0; 0; 0; 0;
    0; 0; 0; 0; 0; 0; 0; 0; 0; 0; 0; 0; 0; 0; 0; 0
].

Definition softfloat_countLeadingZeros8 (a : Z) : Z :=
  nth (Z.to_nat a) countLeadingZeros8_table 0.

Definition softfloat_countLeadingZeros16 (a : Z) : Z :=
  let count := 8 in
  let '(count, a) := if 0x100 <=? a then (0, a .>> 8) else (count, a) in
  let count := u8 (count + softfloat_countLeadingZeros8 a) in
  count.

Definition softfloat_countLeadingZeros32 (a : Z) : Z :=
  let count := 0 in
  let '(count, a) := if a <? 0x10000 then (16, u32 (a .<< 16)) else (count, a) in
  let '(count, a) := if a <? 0x1000000 then (u8 (count + 8), u32 (a .<< 8)) else (count, a) in
  let count := u8 (count + softfloat_countLeadingZeros8 (a .>> 24)) in
  count.

Definition softfloat_countLeadingZeros64 (a : Z) : Z :=
  let count := 0 in
  let a32 := u32 (a .>> 32) in
  let '(count, a32) := if negb (nz a32) then (32, u32 a) else (count, a32) in
  let '(count, a32) :=
    if a32 <? 0x10000 then (u8 (count + 16), u32 (a32 .<< 16)) else (count, a32) in
  let '(count, a32) :=
    if a32 <? 0x1000000 then (u8 (count + 8), u32 (a32 .<< 8)) else (count, a32) in
  let count := u8 (count + softfloat_countLeadingZeros8 (a32 .>> 24)) in
  count.

(** ** Field macros ([internals.h]) *)

Definition signF16UI (a : Z) : bool := nz (u16 a .>> 15).
Definition expF16UI (a : Z) : Z := s8 (a .>> 10) .& 0x1F.
Definition fracF16UI (a : Z) : Z := a .& 0x03FF.
Definition packToF16UI (sign : bool) (exp sig : Z) : Z :=
  u64 ((u16 (b2z sign) .<< 15) + (u16 exp .<< 10) + sig).
Definition isNaNF16UI (a : Z) : bool :=
  (Z.lnot a .& 0x7C00 =? 0) && nz (a .& 0x03FF).

Definition signF32UI (a : Z) : bool := nz (u32 a .>> 31).
Definition expF32UI (a : Z) : Z := s64 (a .>> 23) .& 0xFF.
Definition fracF32UI (a : Z) : Z := a .& 0x007FFFFF.
Definition packToF32UI (sign : bool) (exp sig : Z) : Z :=
  u64 (u32 (u32 (u32 (b2z sign) .<< 31) + u32 (u32 exp .<< 23)) + sig).
Definition isNaNF32UI (a : Z) : bool :=
  (Z.lnot a .& 0x7F800000 =? 0) && nz (a .& 0x007FFFFF).

Definition signF64UI (a : Z) : bool := nz (u64 a .>> 63).
Definition expF64UI (a : Z) : Z := s64 (a .>> 52) .& 0x7FF.
Definition fracF64UI (a : Z) : Z := a .& 0x000FFFFFFFFFFFFF.
Definition packToF64UI (sign : bool) (exp sig : Z) : Z :=
  u64 (u64 (b2z sign .<< 63) + u64 (u64 exp .<< 52) + sig).
Definition isNaNF64UI (a : Z) : bool :=
  (Z.lnot a .& 0x7FF0000000000000 =? 0) && nz (a .& 0x000FFFFFFFFFFFFF).

(** ** NaN conventions ([specialize.h]) *)

Definition defaultNaNF16UI : Z := 0x7E00.
Definition defaultNaNF32UI : Z := 0x7FC00000.
Definition defaultNaNF64UI : Z := 0x7FF8000000000000.

Definition softfloat_isSigNaNF16UI (uiA : Z) : bool :=
  (uiA .& 0x7E00 =? 0x7C00) && nz (uiA .& 0x01FF).
Definition softfloat_isSigNaNF32UI (uiA : Z) : bool :=
  (uiA .& 0x7FC00000 =? 0x7F800000) && nz (uiA .& 0x003FFFFF).
Definition softfloat_isSigNaNF64UI (uiA : Z) : bool :=
  (uiA .& 0x7FF8000000000000 =? 0x7FF0000000000000) && nz (uiA .& 0x0007FFFFFFFFFFFF).

Definition softfloat_propagateNaNF16UI (uiA uiB : Z) : fp Z :=
  (if softfloat_isSigNaNF16UI uiA || softfloat_isSigNaNF16UI uiB
   then softfloat_raiseFlags softfloat_flag_invalid else fret tt) ;;
  fret defaultNaNF16UI.

Definition softfloat_propagateNaNF32UI (uiA uiB : Z) : fp Z :=
  (if softfloat_isSigNaNF32UI uiA || softfloat_isSigNaNF32UI uiB
   then softfloat_raiseFlags softfloat_flag_invalid else fret tt) ;;
  fret defaultNaNF32UI.

Definition softfloat_propagateNaNF64UI (uiA uiB : Z) : fp Z :=
  (if softfloat_isSigNaNF64UI uiA || softfloat_isSigNaNF64UI uiB
   then softfloat_raiseFlags softfloat_flag_invalid else fret tt) ;;
  fret defaultNaNF64UI.

(** The unions [ui16_f16], [ui32_f32] and [ui64_f64]: storing to the integer
    member truncates to its width; a float value is its bit pattern. *)
Definition f16_of_ui (ui : Z) : Z := u16 ui.
Definition f32_of_ui (ui : Z) : Z := u32 ui.
Definition f64_of_ui (ui : Z) : Z := u64 ui.

(** ** Jamming right shift *)

Definition jam (a d : Z) : Z := (a / 2 ^ d) .| b2z (negb (a mod 2 ^ d =? 0)).

Lemma jam_0 a : jam a 0 = a.
Proof. unfold jam. rewrite Z.pow_0_r, Z.div_1_r, Z.mod_1_r. simpl. apply Z.lor_0_r. Qed.

(** The low bit collects bit [d] and everything below it. *)
Lemma jam_alt a d :
  0 <= a -> 0 <= d ->
  jam a d = 2 * (a / 2 ^ (d + 1)) + b2z (negb (a mod 2 ^ (d + 1) =? 0)).
Proof.
  intros Ha Hd. unfold jam. pose proof (pow2_pos d Hd).
  rewrite lor_b2z by (apply Z.div_pos; lia).
  rewrite pow2_succ by lia. rewrite (Z.mul_comm 2 (2 ^ d)).
  rewrite <- Z.div_div by lia. rewrite Z.rem_mul_r by lia.
  pose proof (Z.mod_pos_bound a (2 ^ d)). set (q := a / 2 ^ d). set (r := a mod 2 ^ d) in *.
  pose proof (Z_div_mod_eq_full q 2). rewrite Zmod_even in *.
  destruct (Z.even q), (Z.eqb_spec r 0); simpl; case_test; simpl; nia.
Qed.

Lemma jam_nonneg a d : 0 <= a -> 0 <= d -> 0 <= jam a d.
Proof.
  intros Ha Hd. rewrite jam_alt by lia. pose proof (pow2_pos (d + 1)).
  assert (0 <= a / 2 ^ (d + 1)) by (apply Z.div_pos; lia).
  destruct (negb _); simpl; lia.
Qed.

(** [jam a d] lies between the truncated quotient and its successor, and equals
    it when the shift is exact. *)
Lemma jam_bounds a d :
  0 <= a -> 0 <= d -> a / 2 ^ d <= jam a d <= a / 2 ^ d + 1.
Proof.
  intros Ha Hd. unfold jam. pose proof (pow2_pos d Hd).
  rewrite lor_b2z by (apply Z.div_pos; lia).
  destruct (negb (a mod 2 ^ d =? 0) && Z.even (a / 2 ^ d)); simpl; lia.
Qed.

Lemma jam_exact a d : 0 <= d -> a mod 2 ^ d = 0 -> jam a d = a / 2 ^ d.
Proof. intros Hd H. unfold jam. rewrite H. simpl. apply Z.lor_0_r. Qed.

Lemma jam_zero_iff a d : 0 <= a -> 0 <= d -> jam a d = 0 <-> a = 0.
Proof.
  intros Ha Hd. rewrite jam_alt by lia. pose proof (pow2_pos (d + 1)).
  pose proof (Z_div_mod_eq_full a (2 ^ (d + 1))). pose proof (Z.mod_pos_bound a (2 ^ (d + 1))).
  assert (0 <= a / 2 ^ (d + 1)) by (apply Z.div_pos; lia).
  destruct (Z.eqb_spec (a mod 2 ^ (d + 1)) 0); simpl; nia.
Qed.

(** Jamming in two steps. *)
Lemma jam_jam a d d' :
  0 <= a -> 0 <= d -> 0 <= d' -> jam (jam a d) d' = jam a (d + d').
Proof.
  intros Ha Hd Hd'. destruct (Z.eq_dec d' 0) as [->|Hne].
  { now rewrite jam_0, Z.add_0_r. }
  pose proof (jam_nonneg a d Ha Hd).
  rewrite (jam_alt (jam a d)), (jam_alt a (d + d')) by lia.
  rewrite jam_alt by lia.
  replace (d + d' + 1) with ((d + 1) + d') by lia.
  rewrite (pow2_split (d + 1) d') by lia. rewrite (pow2_succ d') by lia.
  pose proof (pow2_pos (d + 1)). pose proof (pow2_pos d').
  set (P := 2 ^ (d + 1)) in *. set (Q := 2 ^ d') in *.
  rewrite <- (Z.div_div a P Q) by lia.
  rewrite (Z.rem_mul_r a P Q) by lia.
  set (q := a / P). set (r := a mod P).
  pose proof (Z.mod_pos_bound a P). fold r in H2.
  assert (Hb : 0 <= b2z (negb (r =? 0)) < 2) by (destruct (r =? 0); simpl; lia).
  set (b := b2z (negb (r =? 0))) in *.
  assert ((2 * q + b) / (2 * Q) = q / Q) as ->.
  { rewrite <- Z.div_div by lia. f_equal. symmetry. apply Z.div_unique with (r := b); lia. }
  assert ((2 * q + b) mod (2 * Q) = b + 2 * (q mod Q)) as ->.
  { rewrite Z.rem_mul_r by lia. f_equal; [|f_equal].
    - symmetry. apply Z.mod_unique with (q := q); lia.
    - f_equal. symmetry. apply Z.div_unique with (r := b); lia. }
  f_equal. f_equal. f_equal. pose proof (Z.mod_pos_bound q Q).
  unfold b. destruct (Z.eqb_spec r 0); simpl; repeat case_test; nia.
Qed.

(** A further shift by at least one bit cannot tell a jammed value from the
    original: same quotient, and the remainder is zero, below, at or above the
    half in the same cases (for at least two bits). *)
Lemma jam_div a d g :
  0 <= a -> 0 <= d -> 1 <= g -> jam a d / 2 ^ g = a / 2 ^ (d + g).
Proof.
  intros Ha Hd Hg. rewrite jam_alt by lia.
  replace (d + g) with ((d + 1) + (g - 1)) by lia. rewrite (pow2_split (d + 1) (g - 1)) by lia.
  rewrite (pow2_pred g) by lia.
  pose proof (pow2_pos (d + 1)). pose proof (pow2_pos (g - 1)).
  rewrite <- !Z.div_div by lia. f_equal.
  symmetry. apply Z.div_unique with (r := b2z (negb (a mod 2 ^ (d + 1) =? 0)));
    destruct (a mod 2 ^ (d + 1) =? 0); simpl; lia.
Qed.

Lemma jam_mod a d g :
  0 <= a -> 0 <= d -> 1 <= g ->
  jam a d mod 2 ^ g
  = 2 * (a mod 2 ^ (d + g) / 2 ^ (d + 1)) + b2z (negb (a mod 2 ^ (d + 1) =? 0)).
Proof.
  intros Ha Hd Hg. rewrite jam_alt by lia.
  replace (d + g) with ((d + 1) + (g - 1)) by lia. rewrite (pow2_split (d + 1)) by lia.
  rewrite (pow2_pred g) by lia.
  pose proof (pow2_pos (d + 1)). pose proof (pow2_pos (g - 1)).
  set (P := 2 ^ (d + 1)) in *. set (Q := 2 ^ (g - 1)) in *.
  rewrite (Z.rem_mul_r a P Q) by lia.
  pose proof (Z.mod_pos_bound a P). pose proof (Z.mod_pos_bound (a / P) Q).
  replace ((a mod P + P * ((a / P) mod Q)) / P) with ((a / P) mod Q)
    by (apply Z.div_unique with (r := a mod P); nia).
  set (q := a / P). set (b := b2z (negb (a mod P =? 0))).
  assert (0 <= b < 2) by (unfold b; destruct (a mod P =? 0); simpl; lia).
  rewrite Z.rem_mul_r by lia.
  replace ((2 * q + b) mod 2) with b by (apply Z.mod_unique with (q := q); lia).
  replace ((2 * q + b) / 2) with q by (apply Z.div_unique with (r := b); lia). lia.
Qed.

Lemma jam_mod_zero a d g :
  0 <= a -> 0 <= d -> 1 <= g -> jam a d mod 2 ^ g = 0 <-> a mod 2 ^ (d + g) = 0.
Proof.
  intros Ha Hd Hg. rewrite jam_mod by lia.
  replace (d + g) with ((d + 1) + (g - 1)) by lia. rewrite (pow2_split (d + 1) (g - 1)) by lia.
  pose proof (pow2_pos (d + 1)). pose proof (pow2_pos (g - 1)).
  set (P := 2 ^ (d + 1)) in *. set (Q := 2 ^ (g - 1)) in *.
  rewrite (Z.rem_mul_r a P Q) by lia.
  pose proof (Z.mod_pos_bound a P). pose proof (Z.mod_pos_bound (a / P) Q).
  replace ((a mod P + P * ((a / P) mod Q)) / P) with ((a / P) mod Q)
    by (apply Z.div_unique with (r := a mod P); nia).
  destruct (Z.eqb_spec (a mod P) 0); simpl; nia.
Qed.

Lemma jam_mod_half a d g :
  0 <= a -> 0 <= d -> 2 <= g ->
  (2 * (jam a d mod 2 ^ g) ?= 2 ^ g) = (2 * (a mod 2 ^ (d + g)) ?= 2 ^ (d + g)).
Proof.
  intros Ha Hd Hg. rewrite jam_mod by lia.
  replace (d + g) with ((d + 1) + (g - 1)) by lia. rewrite (pow2_split (d + 1)) by lia.
  rewrite (pow2_pred g) by lia. rewrite (pow2_pred (g - 1)) by lia.
  pose proof (pow2_pos (d + 1)). pose proof (pow2_pos (g - 1 - 1)).
  set (P := 2 ^ (d + 1)) in *. set (Q := 2 ^ (g - 1 - 1)) in *.
  rewrite (Z.rem_mul_r a P (2 * Q)) by lia.
  pose proof (Z.mod_pos_bound a P). pose proof (Z.mod_pos_bound (a / P) (2 * Q)).
  replace ((a mod P + P * ((a / P) mod (2 * Q))) / P) with ((a / P) mod (2 * Q))
    by (apply Z.div_unique with (r := a mod P); nia).
  set (x := (a / P) mod (2 * Q)) in *. set (r := a mod P) in *.
  apply compare_ext; destruct (Z.eqb_spec r 0) as [Hr|Hr]; simpl; rewrite ?Hr; nia.
Qed.

(** The leading bit survives when at least two bits remain. *)
Lemma jam_log2 a d : 0 <= d -> 2 ^ (d + 1) <= a -> Z.log2 (jam a d) = Z.log2 a - d.
Proof.
  intros Hd Ha. pose proof (pow2_pos (d + 1)).
  assert (0 < a) by lia. pose proof (Z.log2_spec a ltac:(lia)) as [Hl Hu].
  assert (d + 1 <= Z.log2 a) by (apply Z.log2_le_pow2; lia).
  set (L := Z.log2 a) in *. apply Z.log2_unique; [lia|]. rewrite jam_alt by lia.
  replace (2 ^ (L - d)) with (2 * 2 ^ (L - d - 1)) by (symmetry; apply pow2_pred; lia).
  replace (2 ^ Z.succ (L - d)) with (2 * 2 ^ (L - d))
    by (rewrite <- pow2_succ by lia; f_equal; lia).
  assert (2 ^ (L - d - 1) <= a / 2 ^ (d + 1) < 2 ^ (L - d)) as [Hq1 Hq2].
  { split.
    - apply Z.div_le_lower_bound; [lia|]. rewrite <- pow2_split by lia.
      replace (d + 1 + (L - d - 1)) with L by lia. lia.
    - apply Z.div_lt_upper_bound; [lia|]. rewrite <- pow2_split by lia.
      replace (d + 1 + (L - d)) with (Z.succ L) by lia. lia. }
  destruct (a mod 2 ^ (d + 1) =? 0); simpl; lia.
Qed.

(** ** The C shifts compute [jam] *)

(** [x << (W - d)], truncated to [W] bits, is zero exactly when the low [d]
    bits of [x] are. *)
Lemma shl_wrap_zero W x d :
  0 < d <= W -> nz (uwrap W (x .<< (W - d))) = negb (x mod 2 ^ d =? 0).
Proof.
  intros Hd. unfold nz, uwrap. f_equal. rewrite shiftl_mul by lia.
  replace (2 ^ W) with (2 ^ d * 2 ^ (W - d)) by (rewrite <- pow2_split by lia; f_equal; lia).
  pose proof (pow2_pos d). pose proof (pow2_pos (W - d)).
  rewrite Z.mul_mod_distr_r by lia.
  pose proof (Z.mod_pos_bound x (2 ^ d)). repeat case_test; nia.
Qed.

Lemma neg_dist_mask W k d :
  0 < k -> W = 2 ^ k -> 0 <= k <= 64 -> 0 < d < W -> u64 (- d) .& (W - 1) = W - d.
Proof.
  intros Hk -> Hk64 Hd. rewrite (land_mod _ _ k) by lia. unfold uwrap.
  rewrite <- Znumtheory.Zmod_div_mod; [|apply pow2_pos; lia|lia|].
  - symmetry. apply Z.mod_unique with (q := -1); lia.
  - exists (2 ^ (64 - k)). rewrite <- pow2_split by lia. f_equal. lia.
Qed.

Lemma jam_large a d k : 0 <= a < 2 ^ (k + 1) -> 0 <= k <= d -> jam a d = b2z (nz a).
Proof.
  intros Ha Hd. rewrite jam_alt by lia.
  pose proof (pow2_le (k + 1) (d + 1)).
  rewrite Z.div_small, Z.mod_small by lia. unfold nz. lia.
Qed.

Lemma shiftRightJam32_jam a d :
  0 <= a < 2 ^ 32 -> 0 < d -> softfloat_shiftRightJam32 a d = jam a d.
Proof.
  intros Ha Hd. unfold softfloat_shiftRightJam32. case_test.
  - change 31 with (32 - 1) at 1. rewrite (neg_dist_mask 32 5) by lia.
    rewrite shl_wrap_zero, shiftr_div by lia. reflexivity.
  - symmetry. apply (jam_large a d 31); lia.
Qed.

Lemma shiftRightJam64_jam a d :
  0 <= a < 2 ^ 64 -> 0 < d -> softfloat_shiftRightJam64 a d = jam a d.
Proof.
  intros Ha Hd. unfold softfloat_shiftRightJam64. case_test.
  - change 63 with (64 - 1) at 1. rewrite (neg_dist_mask 64 6) by lia.
    rewrite shl_wrap_zero, shiftr_div by lia. reflexivity.
  - symmetry. apply (jam_large a d 63); lia.
Qed.

Lemma shortShiftRightJam64_jam a d :
  0 <= a < 2 ^ 64 -> 0 < d < 64 -> softfloat_shortShiftRightJam64 a d = jam a d.
Proof.
  intros Ha Hd. unfold softfloat_shortShiftRightJam64.
  pose proof (pow2_lt d 64). pose proof (pow2_pos d).
  rewrite Z.shiftl_1_l, (uwrap_small 64 (2 ^ d)), (uwrap_small 64) by lia.
  rewrite (land_mod _ _ d), shiftr_div by lia. reflexivity.
Qed.

(** ** Leading zeros *)

Definition clz8_ok (a : Z) : bool :=
  softfloat_countLeadingZeros8 a =? (if a =? 0 then 8 else 7 - Z.log2 a).

Lemma clz8_table_ok : forallb (fun n => clz8_ok (Z.of_nat n)) (seq 0 256) = true.
Proof. vm_compute. reflexivity. Qed.

Lemma countLeadingZeros8_spec a :
  0 <= a < 256 ->
  softfloat_countLeadingZeros8 a = if a =? 0 then 8 else 7 - Z.log2 a.
Proof.
  intros Ha. pose proof clz8_table_ok as H. rewrite forallb_forall in H.
  specialize (H (Z.to_nat a)). rewrite Z2Nat.id in H by lia.
  apply Z.eqb_eq. apply H. apply in_seq. lia.
Qed.

(** The number of leading zeros of a [W]-bit word. *)
Definition clz (W a : Z) : Z := if a =? 0 then W else W - 1 - Z.log2 a.

Lemma log2_shiftl_small a n : 0 < a -> 0 <= n -> Z.log2 (a .<< n) = Z.log2 a + n.
Proof. intros. rewrite Z.log2_shiftl; lia. Qed.

Lemma countLeadingZeros16_spec a :
  0 <= a < 2 ^ 16 -> softfloat_countLeadingZeros16 a = clz 16 a.
Proof.
  intros Ha. unfold softfloat_countLeadingZeros16, clz. destruct (Z.leb_spec 0x100 a).
  - rewrite countLeadingZeros8_spec by
      (rewrite shiftr_div by lia; split; [apply Z.div_pos|apply Z.div_lt_upper_bound]; lia).
    assert (8 <= Z.log2 a < 16).
    { split; [apply Z.log2_le_pow2|apply Z.log2_lt_pow2]; lia. }
    rewrite Z.log2_shiftr by lia.
    destruct (Z.eqb_spec (a .>> 8) 0) as [Hz|Hz].
    { rewrite shiftr_div in Hz by lia. apply Z.div_small_iff in Hz; lia. }
    destruct (Z.eqb_spec a 0); [lia|]. rewrite uwrap_small; lia.
  - rewrite countLeadingZeros8_spec by lia. destruct (Z.eqb_spec a 0); [reflexivity|].
    assert (0 <= Z.log2 a < 8).
    { split; [apply Z.log2_nonneg|apply Z.log2_lt_pow2]; lia. }
    rewrite uwrap_small; lia.
Qed.

(** One step of the binary search: shift left when the top bits are clear. *)
Lemma clz_step32 a n :
  0 <= a < 2 ^ 32 -> 0 < n < 32 -> a < 2 ^ (32 - n) ->
  u32 (a .<< n) = a * 2 ^ n /\ 0 <= a * 2 ^ n < 2 ^ 32 /\
  clz 32 a = (if a =? 0 then 32 else n + clz 32 (a * 2 ^ n)).
Proof.
  intros Ha Hn Hlt. rewrite shiftl_mul by lia. pose proof (pow2_pos n).
  assert (a * 2 ^ n < 2 ^ 32).
  { replace (2 ^ 32) with (2 ^ (32 - n) * 2 ^ n) by (rewrite <- pow2_split by lia; f_equal; lia).
    nia. }
  split; [apply uwrap_small; nia|]. split; [nia|]. unfold clz.
  destruct (Z.eqb_spec a 0); [reflexivity|]. destruct (Z.eqb_spec (a * 2 ^ n) 0); [nia|].
  rewrite Z.log2_mul_pow2 by lia. lia.
Qed.

Lemma clz32_top a :
  2 ^ 24 <= a < 2 ^ 32 -> softfloat_countLeadingZeros8 (a .>> 24) = clz 32 a.
Proof.
  intros Ha. assert (24 <= Z.log2 a < 32).
  { split; [apply Z.log2_le_pow2|apply Z.log2_lt_pow2]; lia. }
  rewrite countLeadingZeros8_spec by
    (rewrite shiftr_div by lia; split; [apply Z.div_pos|apply Z.div_lt_upper_bound]; lia).
  unfold clz. destruct (Z.eqb_spec a 0); [lia|].
  destruct (Z.eqb_spec (a .>> 24) 0) as [Hz|Hz].
  { rewrite shiftr_div in Hz by lia. apply Z.div_small_iff in Hz; lia. }
  rewrite Z.log2_shiftr by lia. lia.
Qed.

Lemma clz_range W a : 0 <= a < 2 ^ W -> 0 <= W -> 0 <= clz W a <= W.
Proof.
  intros Ha HW. unfold clz. case_test; [lia|].
  assert (0 <= Z.log2 a < W); [|lia].
  split; [apply Z.log2_nonneg|apply Z.log2_lt_pow2; lia].
Qed.

(** The common tail of the 32- and 64-bit counts. *)
Definition clz32_tail (count a : Z) : Z :=
  let '(count, a) := if a <? 0x10000 then (u8 (count + 16), u32 (a .<< 16)) else (count, a) in
  let '(count, a) := if a <? 0x1000000 then (u8 (count + 8), u32 (a .<< 8)) else (count, a) in
  u8 (count + softfloat_countLeadingZeros8 (a .>> 24)).

Lemma clz32_tail_spec count a :
  0 <= a < 2 ^ 32 -> 0 <= count <= 32 -> clz32_tail count a = count + clz 32 a.
Proof.
  intros Ha Hc. unfold clz32_tail. pose proof (clz_range 32 a ltac:(lia) ltac:(lia)).
  destruct (Z.ltb_spec a 0x10000).
  - rewrite (uwrap_small 8 (count + 16)) by lia.
    destruct (clz_step32 a 16 ltac:(lia) ltac:(lia) ltac:(lia)) as (-> & Hr & Hz).
    destruct (Z.eqb_spec a 0) as [->|Ha0].
    { change (0 * 2 ^ 16 <? 0x1000000) with true. cbv iota.
      change (u32 ((0 * 2 ^ 16) .<< 8)) with 0.
      change (softfloat_countLeadingZeros8 (0 .>> 24)) with 8.
      change (clz 32 0) with 32.
      rewrite (uwrap_small 8 (count + 16 + 8)) by lia. rewrite uwrap_small; lia. }
    assert (2 ^ 16 <= a * 2 ^ 16) as Hb16 by lia. pose proof (clz_range 32 _ Hr ltac:(lia)).
    set (b := a * 2 ^ 16) in *. destruct (Z.ltb_spec b 0x1000000).
    + rewrite (uwrap_small 8 (count + 16 + 8)) by lia.
      destruct (clz_step32 b 8 ltac:(lia) ltac:(lia) ltac:(lia)) as (-> & Hr' & Hz').
      destruct (Z.eqb_spec b 0); [lia|]. pose proof (clz_range 32 _ Hr' ltac:(lia)).
      rewrite clz32_top by lia. rewrite uwrap_small; lia.
    + rewrite clz32_top by lia. rewrite uwrap_small; lia.
  - destruct (Z.ltb_spec a 0x1000000).
    + rewrite (uwrap_small 8 (count + 8)) by lia.
      destruct (clz_step32 a 8 ltac:(lia) ltac:(lia) ltac:(lia)) as (-> & Hr' & Hz').
      destruct (Z.eqb_spec a 0); [lia|]. pose proof (clz_range 32 _ Hr' ltac:(lia)).
      rewrite clz32_top by lia. rewrite uwrap_small; lia.
    + rewrite clz32_top by lia. rewrite uwrap_small; lia.
Qed.

Lemma countLeadingZeros32_spec a :
  0 <= a < 2 ^ 32 -> softfloat_countLeadingZeros32 a = clz 32 a.
Proof.
  intros Ha. rewrite <- (Z.add_0_l (clz 32 a)), <- clz32_tail_spec by lia. reflexivity.
Qed.

Lemma countLeadingZeros64_spec a :
  0 <= a < 2 ^ 64 -> softfloat_countLeadingZeros64 a = clz 64 a.
Proof.
  intros Ha. unfold softfloat_countLeadingZeros64.
  assert (0 <= a .>> 32 < 2 ^ 32) as Hs.
  { rewrite shiftr_div by lia. split; [apply Z.div_pos|apply Z.div_lt_upper_bound]; lia. }
  rewrite (uwrap_small 32 (a .>> 32)) by lia.
  destruct (nz (a .>> 32)) eqn:Hn; cbn [negb].
  - apply nz_true in Hn. change (clz32_tail 0 (a .>> 32) = clz 64 a).
    assert (2 ^ 32 <= a) as Hge.
    { apply Z.nlt_ge. intros Hlt. apply Hn. rewrite shiftr_div by lia. apply Z.div_small; lia. }
    rewrite clz32_tail_spec by lia. unfold clz. destruct (Z.eqb_spec a 0); [lia|].
    destruct (Z.eqb_spec (a .>> 32) 0); [lia|]. rewrite Z.log2_shiftr by lia.
    assert (32 <= Z.log2 a) by (apply Z.log2_le_pow2; lia). lia.
  - apply nz_false in Hn. rewrite shiftr_div in Hn by lia. apply Z.div_small_iff in Hn; [|lia].
    rewrite (uwrap_small 32 a) by lia. change (clz32_tail 32 a = clz 64 a).
    rewrite clz32_tail_spec by lia. unfold clz. case_test; lia.
Qed.
