(* ===== verification/SFRound.v ===== *)
(** * SoftFloat: rounding and packing

    The routines every operation ends in: [softfloat_roundPackToF16/F32/F64]
    and [softfloat_normRoundPackToF16/F32/F64].  Each is translated as it is
    written; the three are instances of one generic routine, which is proved to
    deliver exactly the result and the flags of the IEEE reference
    [round_result]. *)

From Stdlib Require Import ZArith Lia Bool List.
From S2P Require Import Prelude SFBase SFSpec.

(** ** The routines *)

(** [roundingMode != near_even && != near_maxMag ? (directed away ? away : 0) : half] *)
Definition round_increment (roundingMode : rounding_mode) (sign : bool) (half away : Z) : Z :=
  if negb (rm_eqb roundingMode softfloat_round_near_even)
     && negb (rm_eqb roundingMode softfloat_round_near_maxMag)
  then if rm_eqb roundingMode (if sign then softfloat_round_min else softfloat_round_max)
       then away else 0
  else half.

Definition is_before (t : tininess) : bool :=
  match t with softfloat_tininess_beforeRounding => true | _ => false end.

Definition softfloat_roundPackToF16 (sign : bool) (exp sig : Z) : fp Z :=
  roundingMode <- get_roundingMode ;;
  detectTininess <- get_detectTininess ;;
  let roundNearEven := rm_eqb roundingMode softfloat_round_near_even in
  let roundIncrement := round_increment roundingMode sign 0x8 0xF in
  let finish exp sig roundBits :=
    let sig := u64 (sig + roundIncrement) .>> 4 in
    let last sig :=
      let sig := sig .& u64 (Z.lnot (b2z (negb (nz (roundBits .^ 8)) && roundNearEven))) in
      let exp := if negb (nz sig) then 0 else exp in
      fret (f16_of_ui (packToF16UI sign exp sig)) in
    if nz roundBits then
      softfloat_raiseFlags softfloat_flag_inexact ;;
      if rm_eqb roundingMode softfloat_round_odd then
        fret (f16_of_ui (packToF16UI sign exp (sig .| 1)))
      else last sig
    else last sig in
  let roundBits := sig .& 0xF in
  if 0x1D <=? u32 exp then
    if exp <? 0 then
      let isTiny := is_before detectTininess || (exp <? -1)
                    || (u64 (sig + roundIncrement) <? 0x8000) in
      let sig := softfloat_shiftRightJam32 (u32 sig) (u64 (- exp)) in
      let exp := 0 in
      let roundBits := sig .& 0xF in
      (if isTiny && nz roundBits
       then softfloat_raiseFlags softfloat_flag_underflow else fret tt) ;;
      finish exp sig roundBits
    else if (0x1D <? exp) || (0x8000 <=? u64 (sig + roundIncrement)) then
      softfloat_raiseFlags (softfloat_flag_overflow .| softfloat_flag_inexact) ;;
      fret (f16_of_ui (u64 (packToF16UI sign 0x1F 0 - b2z (negb (nz roundIncrement)))))
    else finish exp sig roundBits
  else finish exp sig roundBits.

Definition softfloat_roundPackToF32 (sign : bool) (exp sig : Z) : fp Z :=
  roundingMode <- get_roundingMode ;;
  detectTininess <- get_detectTininess ;;
  let roundNearEven := rm_eqb roundingMode softfloat_round_near_even in
  let roundIncrement := round_increment roundingMode sign 0x40 0x7F in
  let finish exp sig roundBits :=
    let sig := u64 (sig + roundIncrement) .>> 7 in
    let last sig :=
      let sig := sig .& u64 (Z.lnot (b2z (negb (nz (roundBits .^ 0x40)) && roundNearEven))) in
      let exp := if negb (nz sig) then 0 else exp in
      fret (f32_of_ui (packToF32UI sign exp sig)) in
    if nz roundBits then
      softfloat_raiseFlags softfloat_flag_inexact ;;
      if rm_eqb roundingMode softfloat_round_odd then
        fret (f32_of_ui (packToF32UI sign exp (sig .| 1)))
      else last sig
    else last sig in
  let roundBits := sig .& 0x7F in
  if 0xFD <=? u32 exp then
    if exp <? 0 then
      let isTiny := is_before detectTininess || (exp <? -1)
                    || (u64 (sig + roundIncrement) <? 0x80000000) in
      let sig := softfloat_shiftRightJam32 (u32 sig) (u64 (- exp)) in
      let exp := 0 in
      let roundBits := sig .& 0x7F in
      (if isTiny && nz roundBits
       then softfloat_raiseFlags softfloat_flag_underflow else fret tt) ;;
      finish exp sig roundBits
    else if (0xFD <? exp) || (0x80000000 <=? u64 (sig + roundIncrement)) then
      softfloat_raiseFlags (softfloat_flag_overflow .| softfloat_flag_inexact) ;;
      fret (f32_of_ui (u32 (packToF32UI sign 0xFF 0 - b2z (negb (nz roundIncrement)))))
    else finish exp sig roundBits
  else finish exp sig roundBits.

Definition softfloat_roundPackToF64 (sign : bool) (exp sig : Z) : fp Z :=
  roundingMode <- get_roundingMode ;;
  detectTininess <- get_detectTininess ;;
  let roundNearEven := rm_eqb roundingMode softfloat_round_near_even in
  let roundIncrement := round_increment roundingMode sign 0x200 0x3FF in
  let finish exp sig roundBits :=
    let sig := u64 (sig + roundIncrement) .>> 10 in
    let last sig :=
      let sig := sig .& u64 (Z.lnot (b2z (negb (nz (roundBits .^ 0x200)) && roundNearEven))) in
      let exp := if negb (nz sig) then 0 else exp in
      fret (f64_of_ui (packToF64UI sign exp sig)) in
    if nz roundBits then
      softfloat_raiseFlags softfloat_flag_inexact ;;
      if rm_eqb roundingMode softfloat_round_odd then
        fret (f64_of_ui (packToF64UI sign exp (sig .| 1)))
      else last sig
    else last sig in
  let roundBits := sig .& 0x3FF in
  if 0x7FD <=? u16 exp then
    if exp <? 0 then
      let isTiny := is_before detectTininess || (exp <? -1)
                    || (u64 (sig + roundIncrement) <? 0x8000000000000000) in
      let sig := softfloat_shiftRightJam64 sig (u64 (- exp)) in
      let exp := 0 in
      let roundBits := sig .& 0x3FF in
      (if isTiny && nz roundBits
       then softfloat_raiseFlags softfloat_flag_underflow else fret tt) ;;
      finish exp sig roundBits
    else if (0x7FD <? exp) || (0x8000000000000000 <=? u64 (sig + roundIncrement)) then
      softfloat_raiseFlags (softfloat_flag_overflow .| softfloat_flag_inexact) ;;
      fret (f64_of_ui (u64 (packToF64UI sign 0x7FF 0 - b2z (negb (nz roundIncrement)))))
    else finish exp sig roundBits
  else finish exp sig roundBits.

Definition softfloat_normRoundPackToF16 (sign : bool) (exp sig : Z) : fp Z :=
  let shiftDist := s8 (softfloat_countLeadingZeros16 (u16 sig) - 1) in
  let exp := s64 (exp - shiftDist) in
  if (4 <=? shiftDist) && (u32 exp <? 0x1D) then
    fret (f16_of_ui (packToF16UI sign (if nz sig then exp else 0)
                                 (u64 (sig .<< (shiftDist - 4)))))
  else softfloat_roundPackToF16 sign exp (u64 (sig .<< shiftDist)).

Definition softfloat_normRoundPackToF32 (sign : bool) (exp sig : Z) : fp Z :=
  let shiftDist := s8 (softfloat_countLeadingZeros32 (u32 sig) - 1) in
  let exp := s64 (exp - shiftDist) in
  if (7 <=? shiftDist) && (u32 exp <? 0xFD) then
    fret (f32_of_ui (packToF32UI sign (if nz sig then exp else 0)
                                 (u64 (sig .<< (shiftDist - 7)))))
  else softfloat_roundPackToF32 sign exp (u64 (sig .<< shiftDist)).

Definition softfloat_normRoundPackToF64 (sign : bool) (exp sig : Z) : fp Z :=
  let shiftDist := s8 (softfloat_countLeadingZeros64 sig - 1) in
  let exp := s64 (exp - shiftDist) in
  if (10 <=? shiftDist) && (u32 exp <? 0x7FD) then
    fret (f64_of_ui (packToF64UI sign (if nz sig then exp else 0)
                                 (u64 (sig .<< (shiftDist - 10)))))
  else softfloat_roundPackToF64 sign exp (u64 (sig .<< shiftDist)).

(** ** The increment-and-clear rounding of the code *)

(** [(sig + increment) >> g], or the odd variant, and the tie fix-up. *)
Definition code_round (rm : rounding_mode) (sign : bool) (sig g : Z) : Z :=
  let q := (sig + round_increment rm sign (2 ^ (g - 1)) (2 ^ g - 1)) / 2 ^ g in
  let r := sig mod 2 ^ g in
  if negb (r =? 0) && rm_eqb rm softfloat_round_odd then q + b2z (Z.even q)
  else if (r =? 2 ^ (g - 1)) && rm_eqb rm softfloat_round_near_even
       then q - b2z (Z.odd q) else q.

Lemma div_add_carry a b P :
  0 < P -> 0 <= b <= P ->
  (a + b) / P = a / P + b2z (P <=? a mod P + b).
Proof.
  intros HP Hb. pose proof (Z_div_mod_eq_full a P). pose proof (Z.mod_pos_bound a P HP).
  symmetry. case_test; simpl.
  - apply Z.div_unique with (r := a mod P + b - P); lia.
  - apply Z.div_unique with (r := a mod P + b); lia.
Qed.

Lemma code_round_correct rm sign sig g :
  0 <= sig -> 1 <= g -> code_round rm sign sig g = round_shift rm sign sig g.
Proof.
  intros Hs Hg. unfold code_round, round_shift. destruct (Z.leb_spec g 0); [lia|].
  pose proof (pow2_pos (g - 1)). pose proof (pow2_pred g ltac:(lia)) as Hp.
  pose proof (Z.mod_pos_bound sig (2 ^ g)).
  set (P := 2 ^ g) in *. set (h := 2 ^ (g - 1)) in *.
  rewrite div_add_carry by (unfold round_increment; repeat match goal with
    |- context [if ?b then _ else _] => destruct b end; lia).
  set (q := sig / P). set (r := sig mod P) in *.
  pose proof (Z.negb_odd q) as Ho.
  assert (Heo : Z.even (q + 1) = negb (Z.even q)) by (rewrite Z.even_add; now destruct (Z.even q)).
  assert (Hoo : Z.odd (q + 1) = negb (Z.odd q)) by (rewrite Z.odd_add; now destruct (Z.odd q)).
  unfold round_increment, round_up.
  destruct (Z.compare_spec (2 * r) P), rm, sign; simpl;
    repeat case_test; simpl; try lia;
    rewrite ?Z.add_0_r, ?Hoo; destruct (Z.odd q); simpl in *; rewrite <- ?Ho; simpl; lia.
Qed.

(** ** The three routines as one *)

(** The common text, with the format's macros and constants as arguments: the
    half and the mask of the guard bits, the carry out of the significand, the
    largest exponent field but one, and that of an infinity. *)

Section Text.

Variables (cw g half mask top em2 einf : Z).
Variables (packUI : bool -> Z -> Z -> Z) (of_ui subw : Z -> Z) (shiftJam : Z -> Z -> Z).
Variable countLZ : Z -> Z.

Definition finish_text (rm : rounding_mode) (sign : bool) (exp sig roundBits : Z) : fp Z :=
  let roundIncrement := round_increment rm sign half mask in
  let sig := u64 (sig + roundIncrement) .>> g in
  let last sig :=
    let sig := sig .& u64 (Z.lnot (b2z (negb (nz (roundBits .^ half))
                                        && rm_eqb rm softfloat_round_near_even))) in
    let exp := if negb (nz sig) then 0 else exp in
    fret (of_ui (packUI sign exp sig)) in
  if nz roundBits then
    softfloat_raiseFlags softfloat_flag_inexact ;;
    if rm_eqb rm softfloat_round_odd then fret (of_ui (packUI sign exp (sig .| 1)))
    else last sig
  else last sig.

Definition roundPack_text (sign : bool) (exp sig : Z) : fp Z :=
  roundingMode <- get_roundingMode ;;
  detectTininess <- get_detectTininess ;;
  let roundIncrement := round_increment roundingMode sign half mask in
  let roundBits := sig .& mask in
  if em2 <=? uwrap cw exp then
    if exp <? 0 then
      let isTiny := is_before detectTininess || (exp <? -1)
                    || (u64 (sig + roundIncrement) <? top) in
      let sig := shiftJam sig (u64 (- exp)) in
      let exp := 0 in
      let roundBits := sig .& mask in
      (if isTiny && nz roundBits
       then softfloat_raiseFlags softfloat_flag_underflow else fret tt) ;;
      finish_text roundingMode sign exp sig roundBits
    else if (em2 <? exp) || (top <=? u64 (sig + roundIncrement)) then
      softfloat_raiseFlags (softfloat_flag_overflow .| softfloat_flag_inexact) ;;
      fret (of_ui (subw (packUI sign einf 0 - b2z (negb (nz roundIncrement)))))
    else finish_text roundingMode sign exp sig roundBits
  else finish_text roundingMode sign exp sig roundBits.

Variable roundPack : bool -> Z -> Z -> fp Z.

Definition normRoundPack_text (sign : bool) (exp sig : Z) : fp Z :=
  let shiftDist := s8 (countLZ sig - 1) in
  let exp := s64 (exp - shiftDist) in
  if (g <=? shiftDist) && (u32 exp <? em2) then
    fret (of_ui (packUI sign (if nz sig then exp else 0) (u64 (sig .<< (shiftDist - g)))))
  else roundPack sign exp (u64 (sig .<< shiftDist)).
End Text.

Section RoundPack.

(** The format, the number of guard bits, the width of the range test on the
    exponent, and the format's own macros. *)
Variables (f : fmt) (g cw : Z).
Variables (packUI : bool -> Z -> Z -> Z) (of_ui subw : Z -> Z) (shiftJam : Z -> Z -> Z).

Notation g_finish := (finish_text g (2 ^ (g - 1)) (2 ^ g - 1) packUI of_ui).

Notation g_roundPack := (roundPack_text cw g (2 ^ (g - 1)) (2 ^ g - 1) (2 ^ (fb f + g + 1))
  (max_exp f - 2) (max_exp f) packUI of_ui subw shiftJam).

Hypothesis Hf : fmt_ok f.
Hypothesis Hg : 2 <= g.
Hypothesis Hw : fb f + g + 1 < 64.
Hypothesis Hcw : eb f + 1 <= cw <= 64.
Hypothesis HpackUI : forall s e m,
  0 <= e <= max_exp f -> 0 <= m <= 2 ^ (fb f + 1) -> e * 2 ^ fb f + m < 2 ^ (fb f + eb f) ->
  packUI s e m = sign_bit f s + e * 2 ^ fb f + m.
Hypothesis Hof_ui : forall x, 0 <= x < 2 ^ (fb f + eb f + 1) -> of_ui x = x.
Hypothesis Hsubw : forall x, 0 <= x < 2 ^ (fb f + eb f + 1) -> subw x = x.
Hypothesis HshiftJam : forall a d,
  0 <= a < 2 ^ (fb f + g + 1) -> 0 < d < 2 ^ 64 -> shiftJam a d = jam a d.

Lemma round_increment_range rm sign :
  0 <= round_increment rm sign (2 ^ (g - 1)) (2 ^ g - 1) <= 2 ^ g - 1.
Proof.
  pose proof (pow2_pos (g - 1)). pose proof (pow2_pred g).
  unfold round_increment. destruct (_ && _); [destruct (rm_eqb _ _)|]; lia.
Qed.

Lemma pack_of_ui s e m :
  0 <= e <= max_exp f -> 0 <= m <= 2 ^ (fb f + 1) -> e * 2 ^ fb f + m < 2 ^ (fb f + eb f) ->
  of_ui (packUI s e m) = sign_bit f s + e * 2 ^ fb f + m.
Proof.
  intros He Hm Hlt. destruct Hf. rewrite HpackUI by lia. apply Hof_ui.
  pose proof (pow2_pos (fb f) ltac:(lia)). pose proof (pow2_pos (fb f + eb f) ltac:(lia)).
  rewrite pow2_succ by lia. unfold sign_bit.
  assert (0 <= e * 2 ^ fb f) by (apply Z.mul_nonneg_nonneg; lia). destruct s; lia.
Qed.

(** The rounded significand, its carry, and the packed result. *)
Lemma round_shift_bounds rm sign sig :
  0 <= sig < 2 ^ (fb f + g + 1) -> 0 <= round_shift rm sign sig g <= 2 ^ (fb f + 1).
Proof.
  intros Hs. destruct Hf. unfold round_shift. destruct (Z.leb_spec g 0); [lia|].
  pose proof (pow2_pos g ltac:(lia)). pose proof (pow2_pos (fb f + 1) ltac:(lia)).
  replace (fb f + g + 1) with (fb f + 1 + g) in Hs by lia. rewrite pow2_split in Hs by lia.
  assert (0 <= sig / 2 ^ g) by (apply Z.div_pos; lia).
  assert (sig / 2 ^ g < 2 ^ (fb f + 1)) by (apply Z.div_lt_upper_bound; lia).
  destruct (round_up _ _ _ _ _); simpl; lia.
Qed.

Lemma g_finish_correct rm sign exp sig st :
  0 <= sig < 2 ^ (fb f + g + 1) ->
  (0 <= exp <= max_exp f) ->
  let m := round_shift rm sign sig g in
  exp * 2 ^ fb f + m < 2 ^ (fb f + eb f) ->
  (m = 0 -> exp = 0) ->
  g_finish rm sign exp sig (sig .& (2 ^ g - 1)) st
  = (sign_bit f sign + exp * 2 ^ fb f + m,
     raise (if cut_exact sig g then 0 else softfloat_flag_inexact) st).
Proof.
  intros Hs He m Hlt Hm0. destruct Hf as [Hfb Heb].
  pose proof (round_shift_bounds rm sign sig Hs) as Hm. fold m in Hm.
  pose proof (code_round_correct rm sign sig g ltac:(lia) ltac:(lia)) as Hcr. fold m in Hcr.
  pose proof (round_increment_range rm sign) as Hi.
  pose proof (pow2_le (fb f + g + 1) 63 ltac:(lia)). pose proof (pow2_lt g 63 ltac:(lia)).
  pose proof (pow2_pos g ltac:(lia)) as Hgp.
  unfold finish_text, code_round in *. set (inc := round_increment _ _ _ _) in *.
  rewrite (land_mod sig _ g), (uwrap_small 64 (sig + inc)), shiftr_div by lia.
  set (q := (sig + inc) / 2 ^ g) in *. set (r := sig mod 2 ^ g) in *.
  assert (0 <= q < 2 ^ 64) as Hq.
  { split; [apply Z.div_pos|apply Z.div_lt_upper_bound]; nia. }
  unfold cut_exact. replace (g <=? 0) with false by (symmetry; apply Z.leb_gt; lia).
  fold r. simpl orb.
  assert (Hpk : of_ui (packUI sign exp m) = sign_bit f sign + exp * 2 ^ fb f + m).
  { apply pack_of_ui; lia. }
  assert (Hz : negb (nz (r .^ 2 ^ (g - 1))) = (r =? 2 ^ (g - 1))).
  { unfold nz. rewrite negb_involutive. apply eq_true_iff_eq.
    rewrite !Z.eqb_eq. apply Z.lxor_eq_0_iff. }
  rewrite clear_low_bit, Hz by lia.
  change (q .| 1) with (q .| b2z true). rewrite lor_b2z by lia.
  unfold nz at 1. destruct (Z.eqb_spec r 0) as [Hr0|Hr0]; simpl in Hcr |- *.
  - rewrite raise_0. pose proof (pow2_pos (g - 1) ltac:(lia)).
    replace (r =? 2 ^ (g - 1)) with false in * by (symmetry; apply Z.eqb_neq; lia).
    simpl in Hcr |- *. rewrite Z.sub_0_r, Hcr. unfold fret.
    unfold nz. destruct (Z.eqb_spec m 0) as [Hz0|Hz0]; simpl.
    + now rewrite <- (Hm0 Hz0) at 1; rewrite Hpk.
    + now rewrite Hpk.
  - unfold fbind, softfloat_raiseFlags. fold (raise softfloat_flag_inexact st).
    destruct (rm_eqb rm softfloat_round_odd) eqn:Hodd.
    + simpl in Hcr. rewrite Hcr. unfold fret. now rewrite Hpk.
    + replace (q - _) with m.
      * unfold fret, nz. destruct (Z.eqb_spec m 0) as [Hz0|Hz0]; simpl.
        -- now rewrite <- (Hm0 Hz0) at 1; rewrite Hpk.
        -- now rewrite Hpk.
      * rewrite <- Hcr. destruct (_ && _); simpl; lia.
Qed.

Section Normalized.
Variables (sign : bool) (exp sig : Z) (st : fp_state).
Hypothesis Hsig : 2 ^ (fb f + g) <= sig < 2 ^ (fb f + g + 1).
Hypothesis Hexp : - 2 ^ (cw - 1) <= exp < 2 ^ (cw - 1).

Notation rm := (softfloat_roundingMode st).
Notation inc := (round_increment rm sign (2 ^ (g - 1)) (2 ^ g - 1)).
Notation E := (exp - g + emin f).

Lemma norm_log2 : Z.log2 sig = fb f + g.
Proof.
  destruct Hf. pose proof (pow2_pos (fb f + g) ltac:(lia)).
  apply Z.log2_unique; [lia|]. rewrite <- Z.add_1_r. exact Hsig.
Qed.

Lemma norm_sig_nonneg : 0 <= sig < 2 ^ (fb f + g + 1).
Proof. destruct Hf. pose proof (pow2_pos (fb f + g) ltac:(lia)). lia. Qed.

Lemma norm_round_ge : 2 ^ fb f <= round_shift rm sign sig g.
Proof.
  destruct Hf. unfold round_shift. destruct (Z.leb_spec g 0); [lia|].
  pose proof (pow2_pos g ltac:(lia)). rewrite pow2_split in Hsig by lia.
  assert (2 ^ fb f <= sig / 2 ^ g) by (apply Z.div_le_lower_bound; lia).
  destruct (round_up _ _ _ _ _); simpl; lia.
Qed.

Lemma norm_carry : 2 ^ (fb f + 1) <= round_shift rm sign sig g <-> 2 ^ (fb f + g + 1) <= sig + inc.
Proof.
  destruct Hf. pose proof norm_sig_nonneg as Hs. pose proof (round_increment_range rm sign) as Hi.
  pose proof (round_shift_bounds rm sign sig Hs) as Hm.
  rewrite <- code_round_correct in * by lia. unfold code_round in *.
  pose proof (pow2_pos g ltac:(lia)).
  pose proof (pow2_succ (fb f) ltac:(lia)) as H2. pose proof (pow2_pos (fb f) ltac:(lia)).
  assert (Hq : 2 ^ (fb f + 1) <= (sig + inc) / 2 ^ g <-> 2 ^ (fb f + g + 1) <= sig + inc).
  { replace (fb f + g + 1) with (g + (fb f + 1)) by lia. rewrite (pow2_split g) by lia.
    split; intros Hle; [|apply Z.div_le_lower_bound; lia].
    pose proof (Z.mul_div_le (sig + inc) (2 ^ g) ltac:(lia)). nia. }
  rewrite <- Hq. clear Hq.
  assert (Ho : rm = softfloat_round_odd -> (sig + inc) / 2 ^ g < 2 ^ (fb f + 1)).
  { intros ->. assert (inc_odd : forall a b, round_increment softfloat_round_odd sign a b = 0)
      by (intros; now destruct sign). rewrite inc_odd, Z.add_0_r.
    apply Z.div_lt_upper_bound; [lia|].
    replace (fb f + g + 1) with (g + (fb f + 1)) in Hs by lia. rewrite pow2_split in Hs; lia. }
  set (q := (sig + inc) / 2 ^ g) in *. pose proof (Z.div2_odd q) as Hd.
  rewrite <- Z.negb_odd in *. set (h := Z.div2 q) in *.
  destruct (negb _ && rm_eqb rm softfloat_round_odd) eqn:Hc;
    [|destruct (_ && rm_eqb rm softfloat_round_near_even); destruct (Z.odd q); simpl in *; lia].
  apply andb_prop in Hc as [_ Hc].
  assert (rm = softfloat_round_odd) as Hrm by (destruct rm; (reflexivity || discriminate)).
  specialize (Ho Hrm). destruct (Z.odd q); simpl in *; lia.
Qed.

Lemma norm_ulp : ulp_exp f sig E = Z.max exp 0 + emin f.
Proof. unfold ulp_exp. rewrite norm_log2. lia. Qed.

Lemma norm_tiny :
  exp < 0 ->
  is_tiny f st sign sig E
  = is_before (softfloat_detectTininess st) || (exp <? -1) || (sig + inc <? 2 ^ (fb f + g + 1)).
Proof.
  intros Hneg. destruct Hf. unfold is_tiny. rewrite norm_log2.
  destruct (softfloat_detectTininess st); simpl.
  - apply Z.ltb_lt. lia.
  - replace (fb f + g + E - fb f - E) with g by lia.
    pose proof norm_sig_nonneg as Hs. pose proof (round_shift_bounds rm sign sig Hs) as Hb.
    pose proof norm_round_ge. pose proof norm_carry as Hc.
    pose proof (pow2_pos (fb f) ltac:(lia)).
    set (m := round_shift rm sign sig g) in *.
    assert (Z.log2 m = fb f + b2z (2 ^ (fb f + 1) <=? m)) as ->.
    { pose proof (pow2_succ (fb f + 1) ltac:(lia)). pose proof (pow2_pos (fb f + 1) ltac:(lia)).
      apply Z.log2_unique; [case_test; simpl; lia|]. unfold Z.succ.
      case_test; simpl; rewrite ?Z.add_0_r; lia. }
    destruct (Z.leb_spec (2 ^ (fb f + 1)) m); repeat case_test; simpl in *; try reflexivity; lia.
Qed.

Lemma norm_mag :
  round_mag f rm sign sig E
  = Z.max exp 0 * 2 ^ fb f + round_shift rm sign sig (g + Z.max (- exp) 0).
Proof. unfold round_mag. rewrite norm_ulp. f_equal; f_equal; lia. Qed.

Lemma norm_flags :
  round_flags f st sign sig E
  = if cut_exact sig (g + Z.max (- exp) 0) then 0
    else if is_tiny f st sign sig E
         then softfloat_flag_underflow .| softfloat_flag_inexact
         else softfloat_flag_inexact.
Proof.
  unfold round_flags. rewrite norm_ulp.
  now replace (Z.max exp 0 + emin f - E) with (g + Z.max (- exp) 0) by lia.
Qed.

Lemma pow_fmt : 2 ^ (fb f + eb f) = inf_mag f + 2 ^ fb f /\ 2 <= max_exp f - 1.
Proof.
  destruct Hf. unfold inf_mag, max_exp. rewrite pow2_split by lia.
  pose proof (pow2_le 2 (eb f) ltac:(lia)). change (2 ^ 2) with 4 in *. lia.
Qed.

Lemma exp_test : (max_exp f - 2 <=? uwrap cw exp) = (exp <? 0) || (max_exp f - 2 <=? exp).
Proof.
  destruct Hf, pow_fmt. pose proof (pow2_pred cw ltac:(lia)).
  pose proof (pow2_le (eb f) (cw - 1) ltac:(lia)). unfold max_exp in *.
  destruct (Z.ltb_spec exp 0); simpl.
  - apply Z.leb_le. replace (uwrap cw exp) with (exp + 2 ^ cw); [lia|].
    apply Z.mod_unique with (q := -1); lia.
  - now rewrite uwrap_small by lia.
Qed.

Lemma norm_overflow :
  0 <= exp ->
  (inf_mag f <=? round_mag f rm sign sig E)
  = (max_exp f - 2 <? exp) || (max_exp f - 2 <=? exp) && (2 ^ (fb f + g + 1) <=? sig + inc).
Proof.
  intros Hpos. destruct Hf. rewrite norm_mag. rewrite !Z.max_l, !Z.max_r, Z.add_0_r by lia.
  pose proof (round_shift_bounds rm sign sig norm_sig_nonneg) as Hb.
  pose proof norm_round_ge. pose proof norm_carry as Hc.
  pose proof (pow2_pos (fb f) ltac:(lia)). rewrite (pow2_succ (fb f)) in * by lia.
  unfold inf_mag. apply eq_true_iff_eq.
  rewrite orb_true_iff, andb_true_iff, Z.ltb_lt, !Z.leb_le, <- Hc. nia.
Qed.

Lemma norm_subnormal :
  exp < 0 ->
  round_shift rm sign sig (g + Z.max (- exp) 0) = round_shift rm sign (jam sig (- exp)) g
  /\ cut_exact sig (g + Z.max (- exp) 0) = cut_exact (jam sig (- exp)) g
  /\ 0 <= jam sig (- exp) < 2 ^ (fb f + g + 1).
Proof.
  intros Hneg. pose proof norm_sig_nonneg. rewrite Z.max_l, (Z.add_comm g) by lia.
  rewrite round_shift_jam, cut_exact_jam by lia. repeat split.
  - apply jam_nonneg; lia.
  - pose proof (jam_bounds sig (- exp) ltac:(lia) ltac:(lia)).
    assert (sig / 2 ^ (- exp) < 2 ^ (fb f + g)); [|pose proof (pow2_succ (fb f + g)); destruct Hf; lia].
    destruct Hf. apply Z.div_lt_upper_bound; [apply pow2_pos; lia|].
    pose proof (pow2_le 1 (- exp) ltac:(lia)). pose proof (pow2_pos (fb f + g) ltac:(lia)).
    rewrite pow2_succ in H by lia. nia.
Qed.

Lemma jam_round_le :
  exp < 0 -> round_shift rm sign (jam sig (- exp)) g <= 2 ^ fb f.
Proof.
  intros Hneg. destruct Hf. pose proof norm_sig_nonneg as Hs.
  rewrite round_shift_jam by lia. unfold round_shift. destruct (Z.leb_spec (- exp + g) 0); [lia|].
  assert (sig / 2 ^ (- exp + g) < 2 ^ fb f); [|destruct (round_up _ _ _ _ _); simpl; lia].
  apply Z.div_lt_upper_bound; [apply pow2_pos; lia|].
  rewrite <- pow2_split by lia. pose proof (pow2_le (fb f + g + 1) (- exp + g + fb f) ltac:(lia)). lia.
Qed.

Lemma overflow_inc : nz inc = overflow_to_inf rm sign.
Proof.
  pose proof (pow2_pos (g - 1) ltac:(lia)). pose proof (pow2_pred g ltac:(lia)).
  pose proof (pow2_le 1 (g - 1) ltac:(lia)). change (2 ^ 1) with 2 in *.
  unfold round_increment. destruct rm, sign; simpl;
    first [apply nz_true; lia | apply nz_false; reflexivity].
Qed.

(** Below the normal range. *)
Lemma g_roundPack_subnormal :
  exp < 0 -> g_roundPack sign exp sig st = round_result f sign sig E st.
Proof.
  intros Hneg. destruct Hf as [Hfb Heb], pow_fmt as [Hpf Hme]. pose proof norm_sig_nonneg as Hs.
  pose proof (round_increment_range rm sign) as Hi.
  pose proof (pow2_le (fb f + g + 1) 63 ltac:(lia)). pose proof (pow2_lt g 63 ltac:(lia)).
  pose proof (pow2_le (cw - 1) 63 ltac:(lia)). pose proof (pow2_pos (fb f) ltac:(lia)) as Hfp.
  unfold roundPack_text, get_roundingMode, get_detectTininess, round_result.
  do 2 (unfold fbind at 1).
  rewrite exp_test, (uwrap_small 64 (sig + inc)) by lia.
  replace (exp <? 0) with true by (symmetry; now apply Z.ltb_lt). simpl orb. cbv iota.
  destruct (norm_subnormal Hneg) as (Hrs & Hce & Hj). pose proof (jam_round_le Hneg).
  rewrite (uwrap_small 64 (- exp)), HshiftJam by lia.
  rewrite <- norm_tiny by lia.
  rewrite norm_mag, norm_flags, Hrs, Hce, Z.max_r, Z.mul_0_l, Z.add_0_l by lia.
  replace (inf_mag f <=? _) with false by (symmetry; apply Z.leb_gt; unfold inf_mag; nia).
  pose proof (round_shift_bounds rm sign _ Hj).
  set (a := jam sig (- exp)) in *. set (t := is_tiny f st sign sig E).
  transitivity (g_finish rm sign 0 a (a .& (2 ^ g - 1))
    (if t && nz (a .& (2 ^ g - 1)) then raise softfloat_flag_underflow st else st)).
  { unfold fbind. now destruct (_ && _). }
  rewrite g_finish_correct by (rewrite ?Hpf; unfold inf_mag; nia).
  rewrite Z.mul_0_l, Z.add_0_r. f_equal.
  unfold cut_exact. replace (g <=? 0) with false by (symmetry; apply Z.leb_gt; lia).
  rewrite (land_mod _ _ g) by lia. simpl orb. unfold nz.
  destruct (_ =? 0); simpl; [now rewrite andb_false_r|].
  rewrite andb_true_r. destruct t; simpl; [|reflexivity].
  now rewrite raise_raise.
Qed.

Lemma norm_not_tiny : 0 <= exp -> is_tiny f st sign sig E = false.
Proof.
  intros Hpos. destruct Hf. unfold is_tiny. rewrite norm_log2.
  destruct (softfloat_detectTininess st); apply Z.ltb_ge; [lia|].
  replace (fb f + g + E - fb f - E) with g by lia. pose proof norm_round_ge.
  pose proof (pow2_pos (fb f) ltac:(lia)).
  assert (fb f <= Z.log2 (round_shift rm sign sig g)) by (apply Z.log2_le_pow2; lia). lia.
Qed.

(** In the normal range, when nothing overflows. *)
Lemma g_finish_normal :
  0 <= exp -> (inf_mag f <=? round_mag f rm sign sig E) = false ->
  g_finish rm sign exp sig (sig .& (2 ^ g - 1)) st
  = (sign_bit f sign + round_mag f rm sign sig E, raise (round_flags f st sign sig E) st).
Proof.
  intros Hpos Hno. destruct Hf as [Hfb Heb], pow_fmt as [Hpf Hme].
  pose proof (round_shift_bounds rm sign sig norm_sig_nonneg). pose proof norm_round_ge.
  pose proof (pow2_pos (fb f) ltac:(lia)) as Hfp.
  apply Z.leb_gt in Hno. rewrite norm_mag, norm_flags, norm_not_tiny in * by lia.
  rewrite !Z.max_l, !Z.max_r, Z.add_0_r in * by lia.
  rewrite g_finish_correct by
    (try apply norm_sig_nonneg; rewrite ?Hpf; unfold inf_mag in *; nia).
  rewrite Z.add_assoc. now destruct (cut_exact _ _).
Qed.

Lemma g_roundPack_normal :
  0 <= exp -> g_roundPack sign exp sig st = round_result f sign sig E st.
Proof.
  intros Hpos. destruct Hf as [Hfb Heb], pow_fmt as [Hpf Hme]. pose proof norm_sig_nonneg as Hs.
  pose proof (round_increment_range rm sign) as Hi.
  pose proof (pow2_le (fb f + g + 1) 63 ltac:(lia)). pose proof (pow2_lt g 63 ltac:(lia)).
  pose proof (g_finish_normal Hpos) as Hfin. pose proof (pow2_pos (fb f) ltac:(lia)) as Hfp.
  unfold roundPack_text, get_roundingMode, get_detectTininess, round_result.
  do 2 (unfold fbind at 1).
  rewrite exp_test, (uwrap_small 64 (sig + inc)) by lia.
  replace (exp <? 0) with false by (symmetry; now apply Z.ltb_ge). simpl orb. cbv iota.
  rewrite norm_overflow in * by lia.
  destruct (Z.ltb_spec (max_exp f - 2) exp), (Z.leb_spec (max_exp f - 2) exp), (2 ^ (fb f + g + 1) <=? sig + inc);
    simpl in Hfin |- *; try lia; try (now apply Hfin).
  all: unfold fbind, softfloat_raiseFlags, fret, raise; f_equal.
  all: rewrite overflow_inc, HpackUI, Z.add_0_r by
    (rewrite ?Hpf; unfold inf_mag; pose proof (pow2_pos (fb f + 1)); lia).
  all: fold (inf_mag f); rewrite Hsubw, Hof_ui by
    (rewrite ?pow2_succ, ?Hpf by lia; unfold inf_mag, sign_bit; destruct sign, (overflow_to_inf _ _); simpl; rewrite ?Hpf; unfold inf_mag; nia).
  all: destruct (overflow_to_inf _ _); simpl; lia.
Qed.

Lemma g_roundPack_correct : g_roundPack sign exp sig st = round_result f sign sig E st.
Proof.
  destruct (Z_lt_le_dec exp 0); auto using g_roundPack_subnormal, g_roundPack_normal.
Qed.
End Normalized.

(** *** Normalising first *)

Variable countLZ : Z -> Z.

Variable roundPack : bool -> Z -> Z -> fp Z.

Notation g_normRoundPack := (normRoundPack_text g (max_exp f - 2) packUI of_ui countLZ roundPack).

Hypothesis HroundPack : forall sign exp sig st,
  2 ^ (fb f + g) <= sig < 2 ^ (fb f + g + 1) -> - 2 ^ (cw - 1) <= exp < 2 ^ (cw - 1) ->
  roundPack sign exp sig st = round_result f sign sig (exp - g + emin f) st.

Hypothesis HcountLZ : forall a, 0 <= a < 2 ^ (fb f + g + 2) -> countLZ a = clz (fb f + g + 2) a.
Hypothesis Hcw32 : cw <= 32.

Lemma clz_normalizes W a :
  0 < a < 2 ^ (W - 1) -> 1 <= W ->
  let d := clz W a - 1 in
  0 <= d < W /\ 2 ^ (W - 2) <= a * 2 ^ d < 2 ^ (W - 1) /\ d = W - 2 - Z.log2 a.
Proof.
  intros Ha HW d. unfold d, clz in *. replace (a =? 0) with false by (symmetry; apply Z.eqb_neq; lia).
  pose proof (Z.log2_spec a ltac:(lia)) as [Hl Hu]. pose proof (Z.log2_nonneg a).
  assert (Z.log2 a < W - 1) by (apply Z.log2_lt_pow2; lia).
  set (l := Z.log2 a) in *. repeat split; try lia.
  - replace (W - 2) with (l + (W - 1 - l - 1)) by lia. rewrite pow2_split by lia.
    apply Z.mul_le_mono_nonneg_r; [apply Z.lt_le_incl, pow2_pos|]; lia.
  - replace (W - 1) with (Z.succ l + (W - 1 - l - 1)) by lia. rewrite pow2_split by lia.
    replace (Z.succ l + (W - 1 - l - 1) - l - 1) with (W - 1 - l - 1) by lia.
    apply Z.mul_lt_mono_pos_r; [apply pow2_pos|]; lia.
Qed.

Lemma g_normRoundPack_correct sign exp sig st :
  0 < sig < 2 ^ (fb f + g + 1) ->
  - 2 ^ (cw - 1) + 64 <= exp < 2 ^ (cw - 1) ->
  g_normRoundPack sign exp sig st = round_result f sign sig (exp - g + emin f) st.
Proof.
  intros Hs He. destruct Hf as [Hfb Heb].
  pose proof (pow2_succ (fb f + g + 1) ltac:(lia)) as Hp. rewrite <- Z.add_assoc in Hp.
  change (1 + 1) with 2 in Hp.
  assert (fb f + g + 2 - 1 = fb f + g + 1) as Hw1 by lia.
  pose proof (clz_normalizes (fb f + g + 2) sig) as Hc. cbv zeta in Hc. rewrite Hw1 in Hc.
  replace (fb f + g + 2 - 2) with (fb f + g) in Hc by lia.
  specialize (Hc Hs ltac:(lia)). unfold normRoundPack_text. rewrite HcountLZ by lia.
  set (d := clz _ _ - 1) in *. destruct Hc as (Hd & Hn & _).
  pose proof (pow2_le (cw - 1) 31 ltac:(lia)).
  rewrite (swrap_small 8 d) by lia. rewrite swrap_small by lia.
  pose proof (pow2_le (fb f + g + 1) 63 ltac:(lia)).
  rewrite (shiftl_mul sig d), (uwrap_small 64 (sig * 2 ^ d)) by lia.
  assert (round_result f sign (sig * 2 ^ d) (exp - d - g + emin f) st
          = round_result f sign sig (exp - g + emin f) st) as <-.
  { rewrite <- (round_result_scale f sign sig _ d) by lia. f_equal. lia. }
  destruct (_ && _) eqn:Hcase; [|apply HroundPack; lia].
  apply andb_prop in Hcase as [Hgd Hex]. apply Z.leb_le in Hgd. apply Z.ltb_lt in Hex.
  assert (0 <= exp - d < max_exp f - 2) as Hex'.
  { destruct (Z_lt_le_dec (exp - d) 0).
    - replace (u32 (exp - d)) with (exp - d + 2 ^ 32) in Hex
        by (apply Z.mod_unique with (q := -1); lia).
      pose proof (pow2_le (eb f) 31 ltac:(lia)). unfold max_exp in *. lia.
    - rewrite uwrap_small in Hex; lia. }
  rewrite (proj2 (nz_true sig)) by lia.
  assert (Hdg : sig * 2 ^ d = sig * 2 ^ (d - g) * 2 ^ g)
    by (rewrite <- Z.mul_assoc, <- pow2_split by lia; do 2 f_equal; lia).
  pose proof (pow2_pos (d - g) ltac:(lia)).
  assert (Hk : round_shift (softfloat_roundingMode st) sign (sig * 2 ^ d) g = sig * 2 ^ (d - g)).
  { rewrite Hdg. pose proof (round_shift_scale (softfloat_roundingMode st) sign
      (sig * 2 ^ (d - g)) 0 g ltac:(nia) ltac:(lia)) as Hk. rewrite Z.add_0_l in Hk.
    rewrite Hk. unfold round_shift. now rewrite Z.pow_0_r, Z.mul_1_r. }
  assert (Hx : cut_exact (sig * 2 ^ d) g = true).
  { rewrite Hdg. pose proof (cut_exact_scale (sig * 2 ^ (d - g)) 0 g ltac:(lia)) as Hx.
    now rewrite Z.add_0_l in Hx. }
  pose proof (round_shift_bounds (softfloat_roundingMode st) sign (sig * 2 ^ d) ltac:(lia)) as Hb.
  pose proof (pow_fmt) as [Hpf _]. pose proof (pow2_pos (fb f) ltac:(lia)).
  rewrite (pow2_succ (fb f)) in Hb by lia. rewrite Hk in Hb.
  pose proof (pow2_le (fb f + 1) 63 ltac:(lia)). pose proof (pow2_succ (fb f) ltac:(lia)).
  assert (Hmul : 0 <= (exp - d) * 2 ^ fb f <= (max_exp f - 3) * 2 ^ fb f)
    by (split; [apply Z.mul_nonneg_nonneg|apply Z.mul_le_mono_nonneg_r]; lia).
  unfold inf_mag in Hpf.
  rewrite shiftl_mul, (uwrap_small 64), pack_of_ui by lia.
  unfold fret, round_result.
  rewrite norm_mag, norm_flags, Z.max_l, (Z.max_r (- _)), Z.add_0_r, Hk, Hx, raise_0 by lia.
  replace (inf_mag f <=? _) with false by (symmetry; apply Z.leb_gt; unfold inf_mag; lia).
  f_equal. lia.
Qed.

(** The same for the text at the constants the code writes. *)
Lemma roundPack_text_correct half mask top em2 einf sign exp sig st :
  half = 2 ^ (g - 1) -> mask = 2 ^ g - 1 -> top = 2 ^ (fb f + g + 1) ->
  em2 = max_exp f - 2 -> einf = max_exp f ->
  2 ^ (fb f + g) <= sig < 2 ^ (fb f + g + 1) -> - 2 ^ (cw - 1) <= exp < 2 ^ (cw - 1) ->
  roundPack_text cw g half mask top em2 einf packUI of_ui subw shiftJam sign exp sig st
  = round_result f sign sig (exp - g + emin f) st.
Proof. intros -> -> -> -> ->. apply g_roundPack_correct. Qed.

Lemma normRoundPack_text_correct em2 sign exp sig st :
  em2 = max_exp f - 2 ->
  0 < sig < 2 ^ (fb f + g + 1) -> - 2 ^ (cw - 1) + 64 <= exp < 2 ^ (cw - 1) ->
  normRoundPack_text g em2 packUI of_ui countLZ roundPack sign exp sig st
  = round_result f sign sig (exp - g + emin f) st.
Proof. intros ->. apply g_normRoundPack_correct. Qed.
End RoundPack.

(** ** The routines of the three formats *)

Lemma fmt_ok_F16 : fmt_ok F16.
Proof. unfold fmt_ok; simpl; lia. Qed.

Lemma fmt_ok_F32 : fmt_ok F32.
Proof. unfold fmt_ok; simpl; lia. Qed.

Lemma fmt_ok_F64 : fmt_ok F64.
Proof. unfold fmt_ok; simpl; lia. Qed.

Lemma packToF16UI_eq s e m :
  0 <= e <= 31 -> 0 <= m <= 2 ^ 11 -> packToF16UI s e m = sign_bit F16 s + e * 2 ^ 10 + m.
Proof.
  intros He Hm. unfold packToF16UI. rewrite (uwrap_small 16 e), !shiftl_mul by lia.
  destruct s; simpl b2z; change (u16 1) with 1; change (u16 0) with 0; rewrite uwrap_small;
    unfold sign_bit; simpl fb; simpl eb; lia.
Qed.

Lemma packToF32UI_eq s e m :
  0 <= e <= 255 -> 0 <= m <= 2 ^ 24 -> packToF32UI s e m = sign_bit F32 s + e * 2 ^ 23 + m.
Proof.
  intros He Hm. unfold packToF32UI.
  rewrite (uwrap_small 32 e), !shiftl_mul, (uwrap_small 32 (e * _)) by lia.
  destruct s; simpl b2z;
    change (u32 (u32 1 * 2 ^ 31)) with (2 ^ 31); change (u32 (u32 0 * 2 ^ 31)) with 0;
    rewrite (uwrap_small 32), (uwrap_small 64);
    unfold sign_bit; simpl fb; simpl eb; lia.
Qed.

Lemma packToF64UI_eq s e m :
  0 <= e <= 2047 -> 0 <= m <= 2 ^ 53 -> e * 2 ^ 52 + m < 2 ^ 63 ->
  packToF64UI s e m = sign_bit F64 s + e * 2 ^ 52 + m.
Proof.
  intros He Hm Hlt. unfold packToF64UI.
  rewrite (uwrap_small 64 e), !shiftl_mul, (uwrap_small 64 (e * _)) by lia.
  destruct s; simpl b2z;
    change (u64 (1 * 2 ^ 63)) with (2 ^ 63); change (u64 (0 * 2 ^ 63)) with 0; rewrite uwrap_small;
    unfold sign_bit; simpl fb; simpl eb; lia.
Qed.

Lemma shiftJam32_u32 W a d :
  0 <= a < 2 ^ W -> 0 <= W <= 32 -> 0 < d -> softfloat_shiftRightJam32 (u32 a) d = jam a d.
Proof.
  intros Ha HW Hd. pose proof (pow2_le W 32 ltac:(lia)).
  rewrite uwrap_small, shiftRightJam32_jam by lia. reflexivity.
Qed.

Lemma countLZ16_u16 a : 0 <= a < 2 ^ 16 -> softfloat_countLeadingZeros16 (u16 a) = clz 16 a.
Proof. intros Ha. rewrite uwrap_small, countLeadingZeros16_spec by lia. reflexivity. Qed.

Lemma countLZ32_u32 a : 0 <= a < 2 ^ 32 -> softfloat_countLeadingZeros32 (u32 a) = clz 32 a.
Proof. intros Ha. rewrite uwrap_small, countLeadingZeros32_spec by lia. reflexivity. Qed.

Create HintDb sf_args.
#[export] Hint Resolve fmt_ok_F16 fmt_ok_F32 fmt_ok_F64 packToF16UI_eq packToF32UI_eq packToF64UI_eq
  countLZ16_u16 countLZ32_u32 countLeadingZeros64_spec : sf_args.

(** Discharges the side conditions of the generic routines at a format. *)
Ltac fmt_args :=
  intros; auto with sf_args; unfold F16, F32, F64, max_exp in *; cbn [fb eb] in *;
  try lia;
  first [ solve [auto with sf_args]
        | apply uwrap_small; lia
        | eapply shiftJam32_u32; [eassumption|lia|lia]
        | apply shiftRightJam64_jam; lia ].

Lemma roundPackToF16_correct sign exp sig st :
  2 ^ 14 <= sig < 2 ^ 15 -> - 2 ^ 31 <= exp < 2 ^ 31 ->
  softfloat_roundPackToF16 sign exp sig st = round_result F16 sign sig (exp - 4 + emin F16) st.
Proof.
  intros Hs He.
  change (softfloat_roundPackToF16 sign exp sig) with
    (roundPack_text 32 4 0x8 0xF 0x8000 0x1D 0x1F packToF16UI f16_of_ui u64
       (fun a d => softfloat_shiftRightJam32 (u32 a) d) sign exp sig).
  apply (roundPack_text_correct F16); fmt_args.
Qed.

Lemma normRoundPackToF16_correct sign exp sig st :
  0 < sig < 2 ^ 15 -> - 2 ^ 31 + 64 <= exp < 2 ^ 31 ->
  softfloat_normRoundPackToF16 sign exp sig st = round_result F16 sign sig (exp - 4 + emin F16) st.
Proof.
  intros Hs He.
  change (softfloat_normRoundPackToF16 sign exp sig) with
    (normRoundPack_text 4 0x1D packToF16UI f16_of_ui
       (fun a => softfloat_countLeadingZeros16 (u16 a)) softfloat_roundPackToF16 sign exp sig).
  apply (normRoundPack_text_correct F16 4 32); try apply roundPackToF16_correct; fmt_args.
Qed.

Lemma roundPackToF32_correct sign exp sig st :
  2 ^ 30 <= sig < 2 ^ 31 -> - 2 ^ 31 <= exp < 2 ^ 31 ->
  softfloat_roundPackToF32 sign exp sig st = round_result F32 sign sig (exp - 7 + emin F32) st.
Proof.
  intros Hs He.
  change (softfloat_roundPackToF32 sign exp sig) with
    (roundPack_text 32 7 0x40 0x7F 0x80000000 0xFD 0xFF packToF32UI f32_of_ui u32
       (fun a d => softfloat_shiftRightJam32 (u32 a) d) sign exp sig).
  apply (roundPack_text_correct F32); fmt_args.
Qed.

Lemma normRoundPackToF32_correct sign exp sig st :
  0 < sig < 2 ^ 31 -> - 2 ^ 31 + 64 <= exp < 2 ^ 31 ->
  softfloat_normRoundPackToF32 sign exp sig st = round_result F32 sign sig (exp - 7 + emin F32) st.
Proof.
  intros Hs He.
  change (softfloat_normRoundPackToF32 sign exp sig) with
    (normRoundPack_text 7 0xFD packToF32UI f32_of_ui
       (fun a => softfloat_countLeadingZeros32 (u32 a)) softfloat_roundPackToF32 sign exp sig).
  apply (normRoundPack_text_correct F32 7 32); try apply roundPackToF32_correct; fmt_args.
Qed.

Lemma roundPackToF64_correct sign exp sig st :
  2 ^ 62 <= sig < 2 ^ 63 -> - 2 ^ 15 <= exp < 2 ^ 15 ->
  softfloat_roundPackToF64 sign exp sig st = round_result F64 sign sig (exp - 10 + emin F64) st.
Proof.
  intros Hs He.
  change (softfloat_roundPackToF64 sign exp sig) with
    (roundPack_text 16 10 0x200 0x3FF 0x8000000000000000 0x7FD 0x7FF packToF64UI f64_of_ui u64
       softfloat_shiftRightJam64 sign exp sig).
  apply (roundPack_text_correct F64); fmt_args.
Qed.

Lemma normRoundPackToF64_correct sign exp sig st :
  0 < sig < 2 ^ 63 -> - 2 ^ 15 + 64 <= exp < 2 ^ 15 ->
  softfloat_normRoundPackToF64 sign exp sig st = round_result F64 sign sig (exp - 10 + emin F64) st.
Proof.
  intros Hs He.
  change (softfloat_normRoundPackToF64 sign exp sig) with
    (normRoundPack_text 10 0x7FD packToF64UI f64_of_ui
       softfloat_countLeadingZeros64 softfloat_roundPackToF64 sign exp sig).
  apply (normRoundPack_text_correct F64 10 16); try apply roundPackToF64_correct; fmt_args.
Qed.
