(* ===== verification/SFValue.v ===== *)
(** * Bit patterns as IEEE data, sums and differences

    What a bit pattern of a format means: its fields, its class, and for a
    finite number its value, an integer multiple of the smallest subnormal
    [2 ^ emin].  The macros of [internals.h] and [specialize.h] are shown to
    compute these for the three formats, and the reference results the
    operations are proved against ([ieee_add], [ieee_mul], ...) are stated over
    them: exact integer arithmetic followed by one [round_result].

    The arithmetic that addition and subtraction share in every format: the
    reference [ieee_add_gen] case by case, aligning the smaller operand with a
    jamming shift, and the exact results for operands with equal exponents. *)

From Stdlib Require Import ZArith Lia Bool List.
From S2P Require Import Prelude.
From S2P Require Import SFBase.
From S2P Require Import SFSpec.
From S2P Require Import SFRound.

(** ** Fields and classes *)

Section Fields.
Variable f : fmt.

Definition is_pattern (a : Z) : Prop := 0 <= a < 2 ^ (fb f + eb f + 1).

Definition f_sign (a : Z) : bool := 2 ^ (fb f + eb f) <=? a.
Definition f_exp (a : Z) : Z := a / 2 ^ fb f mod 2 ^ eb f.
Definition f_frac (a : Z) : Z := a mod 2 ^ fb f.

Definition is_nan (a : Z) : bool := (f_exp a =? max_exp f) && negb (f_frac a =? 0).
Definition is_inf (a : Z) : bool := (f_exp a =? max_exp f) && (f_frac a =? 0).
Definition is_snan (a : Z) : bool := is_nan a && (f_frac a <? 2 ^ (fb f - 1)).
Definition is_finite (a : Z) : bool := negb (f_exp a =? max_exp f).

Definition default_nan : Z := inf_mag f + 2 ^ (fb f - 1).

(** The significand and the position of its last place above [emin]. *)
Definition f_mant (a : Z) : Z := if f_exp a =? 0 then f_frac a else 2 ^ fb f + f_frac a.
Definition f_shift (a : Z) : Z := Z.max (f_exp a) 1 - 1.

(** Magnitude and value of a finite pattern, in units of [2 ^ emin]. *)
Definition f_mag (a : Z) : Z := f_mant a * 2 ^ f_shift a.
Definition f_val (a : Z) : Z := if f_sign a then - f_mag a else f_mag a.

Definition with_sign (s : bool) (mag : Z) : Z := sign_bit f s + mag.

(** ** Reference results *)

(** An operation with a NaN operand: the default NaN, invalid for a
    signaling operand. *)
Definition ieee_nan (signaling : bool) : fp Z := fun st =>
  (default_nan, raise (if signaling then softfloat_flag_invalid else 0) st).

(** Round the exact value [V * 2 ^ E]; a zero takes the sign [zsign]. *)
Definition ieee_round (zsign : rounding_mode -> bool) (V E : Z) : fp Z := fun st =>
  if V =? 0 then (sign_bit f (zsign (softfloat_roundingMode st)), st)
  else round_result f (V <? 0) (Z.abs V) E st.

(** The sign of an exact zero sum of numbers with signs [sa] and [sb]. *)
Definition sum_zero_sign (sa sb : bool) (rm : rounding_mode) : bool :=
  if Bool.eqb sa sb then sa else rm_eqb rm softfloat_round_min.

Definition ieee_add_gen (sb : bool) (vb : Z) (a b : Z) : fp Z := fun st =>
  if is_nan a || is_nan b then ieee_nan (is_snan a || is_snan b) st
  else if is_inf a then
    if is_inf b && negb (Bool.eqb (f_sign a) sb) then ieee_nan true st
    else (with_sign (f_sign a) (inf_mag f), st)
  else if is_inf b then (with_sign sb (inf_mag f), st)
  else ieee_round (sum_zero_sign (f_sign a) sb) (f_val a + vb) (emin f) st.

Definition ieee_add (a b : Z) : fp Z := ieee_add_gen (f_sign b) (f_val b) a b.
Definition ieee_sub (a b : Z) : fp Z := ieee_add_gen (negb (f_sign b)) (- f_val b) a b.

Definition ieee_mul (a b : Z) : fp Z := fun st =>
  let s := xorb (f_sign a) (f_sign b) in
  if is_nan a || is_nan b then ieee_nan (is_snan a || is_snan b) st
  else if is_inf a || is_inf b then
    if (f_mag a =? 0) || (f_mag b =? 0) then ieee_nan true st
    else (with_sign s (inf_mag f), st)
  else ieee_round (fun _ => s) (f_val a * f_val b) (2 * emin f) st.

(** ** Facts about the fields *)

Hypothesis Hf : fmt_ok f.

Lemma f_frac_range a : 0 <= f_frac a < 2 ^ fb f.
Proof. destruct Hf. apply Z.mod_pos_bound. apply pow2_pos. lia. Qed.

Lemma f_exp_range a : 0 <= f_exp a <= max_exp f.
Proof.
  destruct Hf. unfold f_exp, max_exp. pose proof (Z.mod_pos_bound (a / 2 ^ fb f) (2 ^ eb f)).
  pose proof (pow2_pos (eb f)). lia.
Qed.

(** A pattern is its three fields. *)
Lemma pattern_fields a :
  is_pattern a -> a = sign_bit f (f_sign a) + f_exp a * 2 ^ fb f + f_frac a.
Proof.
  intros [Ha Hlt]. destruct Hf. unfold sign_bit, f_sign, f_exp, f_frac.
  rewrite pow2_succ, pow2_split in * by lia. pose proof (pow2_pos (fb f)). pose proof (pow2_pos (eb f)).
  pose proof (Z_div_mod_eq_full a (2 ^ fb f)). pose proof (Z.mod_pos_bound a (2 ^ fb f)).
  set (F := 2 ^ fb f) in *. set (P := 2 ^ eb f) in *. set (q := a / F) in *. set (r := a mod F) in *.
  destruct (Z.leb_spec (F * P) a).
  - replace (q mod P) with (q - P); [lia|]. apply Z.mod_unique with (q := 1); nia.
  - rewrite (Z.mod_small q P); nia.
Qed.

Lemma fields_pattern s e m :
  0 <= e <= max_exp f -> 0 <= m < 2 ^ fb f ->
  let a := sign_bit f s + e * 2 ^ fb f + m in
  is_pattern a /\ f_sign a = s /\ f_exp a = e /\ f_frac a = m.
Proof.
  intros He Hm a. destruct Hf. unfold is_pattern, f_sign, f_exp, f_frac, max_exp in *.
  rewrite pow2_succ, pow2_split in * by lia. unfold a, sign_bit. rewrite pow2_split by lia.
  pose proof (pow2_pos (fb f)). pose proof (pow2_pos (eb f)).
  set (F := 2 ^ fb f) in *. set (P := 2 ^ eb f) in *.
  assert (e * F <= (P - 1) * F) by (apply Z.mul_le_mono_nonneg_r; lia).
  assert (0 <= e * F) by (apply Z.mul_nonneg_nonneg; lia).
  assert (0 < F * P) by (apply Z.mul_pos_pos; lia).
  assert (((if s then F * P else 0) + e * F + m) / F = (if s then P else 0) + e) as ->.
  { symmetry. apply Z.div_unique with (r := m); destruct s; lia. }
  repeat split.
  - destruct s; lia.
  - destruct s; lia.
  - destruct s; [apply Z.leb_le|apply Z.leb_gt]; lia.
  - symmetry. apply Z.mod_unique with (q := if s then 1 else 0); destruct s; lia.
  - symmetry. apply Z.mod_unique with (q := (if s then P else 0) + e); destruct s; lia.
Qed.

Lemma f_mant_range a : 0 <= f_mant a < 2 ^ (fb f + 1).
Proof.
  destruct Hf. pose proof (f_frac_range a). unfold f_mant. rewrite pow2_succ by lia.
  case_test; lia.
Qed.

Lemma f_mant_normal a : f_exp a <> 0 -> 2 ^ fb f <= f_mant a.
Proof. intros He. pose proof (f_frac_range a). unfold f_mant. case_test; lia. Qed.

Lemma f_mag_nonneg a : 0 <= f_mag a.
Proof.
  pose proof (f_mant_range a). unfold f_mag, f_shift.
  apply Z.mul_nonneg_nonneg; [lia|]. apply Z.lt_le_incl, pow2_pos. lia.
Qed.

Lemma f_mag_zero a : f_mag a = 0 <-> f_exp a = 0 /\ f_frac a = 0.
Proof.
  pose proof (f_mant_normal a). pose proof (f_frac_range a).
  pose proof (pow2_pos (f_shift a) ltac:(unfold f_shift; lia)). destruct Hf.
  pose proof (pow2_pos (fb f) ltac:(lia)). unfold f_mag.
  rewrite Z.mul_eq_0. unfold f_mant in *. destruct (Z.eqb_spec (f_exp a) 0); lia.
Qed.

Lemma nan_not_inf a : is_nan a = true -> is_inf a = false.
Proof. unfold is_nan, is_inf. destruct (_ =? max_exp f), (f_frac a =? 0); easy. Qed.

Lemma finite_cases a :
  is_finite a = true -> is_nan a = false /\ is_inf a = false /\ is_snan a = false /\ f_exp a < max_exp f.
Proof.
  pose proof (f_exp_range a). unfold is_finite, is_snan, is_nan, is_inf.
  destruct (Z.eqb_spec (f_exp a) (max_exp f)); simpl; [easy|]. intros _. repeat split; lia.
Qed.
End Fields.

(** ** Exact results *)

Section Exact.
Context (f : fmt) (Hf : fmt_ok f).

Lemma round_shift_0 rm s M : round_shift rm s M 0 = M.
Proof. unfold round_shift. simpl. apply Z.mul_1_r. Qed.

(** A significand that fits the format is returned as it is. *)
Lemma round_result_pack s e m st :
  0 <= e -> 0 <= m < 2 ^ (fb f + 1) -> 2 ^ fb f <= m \/ e = 0 ->
  e * 2 ^ fb f + m < inf_mag f ->
  round_result f s m (e + emin f) st = (sign_bit f s + e * 2 ^ fb f + m, st).
Proof.
  intros He Hm Hn Hlt. destruct Hf as [Hfb Heb].
  assert (Hu : ulp_exp f m (e + emin f) = e + emin f).
  { unfold ulp_exp. pose proof (pow2_pos (fb f)). destruct (Z_lt_le_dec m (2 ^ fb f)).
    - assert (e = 0) as -> by lia. destruct (Z.eq_dec m 0) as [->|Hm0]; [simpl Z.log2; lia|].
      assert (Z.log2 m < fb f) by (apply Z.log2_lt_pow2; lia). lia.
    - assert (Z.log2 m = fb f) as ->; [|lia]. apply Z.log2_unique; [lia|]. unfold Z.succ. lia. }
  unfold round_result, round_mag, round_flags. rewrite Hu, Z.sub_diag, round_shift_0.
  replace (e + emin f - emin f) with e by lia.
  replace (inf_mag f <=? _) with false by (symmetry; apply Z.leb_gt; lia).
  simpl. rewrite raise_0. f_equal. lia.
Qed.

Lemma mant_bound a :
  is_finite f a = true -> f_shift f a * 2 ^ fb f + f_mant f a < inf_mag f.
Proof.
  intros Ha. destruct (finite_cases f Hf a Ha) as (_ & _ & _ & He).
  pose proof (f_frac_range f Hf a). pose proof (f_exp_range f Hf a).
  unfold f_shift, f_mant, inf_mag. destruct Hf. pose proof (pow2_pos (fb f)).
  assert (2 <= max_exp f) by (unfold max_exp; pose proof (pow2_le 2 (eb f)); change (2 ^ 2) with 4 in *; lia).
  destruct (Z.eqb_spec (f_exp f a) 0) as [->|]; simpl; [nia|]. rewrite Z.max_l by lia. nia.
Qed.

(** Rounding the magnitude of a finite number gives it back. *)
Lemma round_result_mag s a st :
  is_finite f a = true ->
  round_result f s (f_mag f a) (emin f) st
  = (sign_bit f s + f_exp f a * 2 ^ fb f + f_frac f a, st).
Proof.
  intros Ha. pose proof (f_mant_range f Hf a). pose proof (mant_bound a Ha).
  pose proof (f_exp_range f Hf a) as He. pose proof (f_mant_normal f Hf a) as Hn.
  pose proof (f_frac_range f Hf a).
  transitivity (round_result f s (f_mant f a) (f_shift f a + emin f) st).
  - destruct (Z.eq_dec (f_mant f a) 0) as [Hmz|Hm0].
    + unfold f_mag. destruct Hf. pose proof (pow2_pos (fb f)).
      assert (f_exp f a = 0) as Hea by (destruct (Z.eq_dec (f_exp f a) 0); [assumption|specialize (Hn ltac:(assumption)); lia]).
      unfold f_shift. rewrite Hea, Hmz. reflexivity.
    + rewrite <- (round_result_scale f s (f_mant f a) _ (f_shift f a)) by (unfold f_shift; lia).
      unfold f_mag. f_equal. lia.
  - assert (2 ^ fb f <= f_mant f a \/ f_shift f a = 0) as Hor.
    { destruct (Z.eq_dec (f_exp f a) 0); [right; unfold f_shift; lia|left; auto]. }
    rewrite round_result_pack by (trivial; unfold f_shift; lia).
    f_equal. unfold f_mant, f_shift. destruct (Z.eqb_spec (f_exp f a) 0) as [->|]; [simpl; lia|].
    rewrite Z.max_l by lia. lia.
Qed.

Lemma ieee_round_pos zs V E st : 0 < V -> ieee_round f zs V E st = round_result f false V E st.
Proof.
  intros HV. unfold ieee_round. destruct (Z.eqb_spec V 0); [lia|].
  destruct (Z.ltb_spec V 0); [lia|]. now rewrite Z.abs_eq by lia.
Qed.

(** Rounding a signed magnitude. *)
Lemma ieee_round_sign zs s M E st :
  0 < M -> ieee_round f zs (if s : bool then - M else M) E st = round_result f s M E st.
Proof.
  intros HM. destruct s; [|now apply ieee_round_pos].
  unfold ieee_round. destruct (Z.eqb_spec (- M) 0); [lia|].
  destruct (Z.ltb_spec (- M) 0); [|lia]. now rewrite Z.abs_neq, Z.opp_involutive by lia.
Qed.
End Exact.

(** ** Jamming a sum and a difference *)

Lemma jam_add x y D :
  0 <= x -> 0 <= y -> 0 <= D -> Z.even x = true ->
  x + jam y D = jam (x * 2 ^ D + y) D.
Proof.
  intros Hx Hy HD He. unfold jam. pose proof (pow2_pos D HD).
  assert (0 <= y / 2 ^ D) by (apply Z.div_pos; lia).
  rewrite Z.add_comm with (n := x * 2 ^ D), Z.div_add, Z.mod_add by lia.
  rewrite !lor_b2z by lia. rewrite Z.even_add, He. destruct (Z.even (y / 2 ^ D)); simpl; lia.
Qed.

Lemma jam_sub x y D :
  0 <= D -> 0 <= y <= x * 2 ^ D -> Z.even x = true ->
  x - jam y D = jam (x * 2 ^ D - y) D.
Proof.
  intros HD Hy He. unfold jam. pose proof (pow2_pos D HD) as HP.
  pose proof (Z_div_mod_eq_full y (2 ^ D)). pose proof (Z.mod_pos_bound y (2 ^ D) HP).
  set (P := 2 ^ D) in *. set (q := y / P) in *. set (r := y mod P) in *.
  assert (Hq : 0 <= q) by (apply Z.div_pos; lia).
  assert (0 <= (x * P - y) / P) by (apply Z.div_pos; lia).
  rewrite !lor_b2z by lia.
  destruct (Z.eqb_spec r 0) as [Hr|Hr]; simpl.
  - assert ((x * P - y) / P = x - q) as -> by (symmetry; apply Z.div_unique with (r := 0); nia).
    assert ((x * P - y) mod P = 0) as -> by (symmetry; apply Z.mod_unique with (q := x - q); nia).
    simpl. lia.
  - assert ((x * P - y) / P = x - q - 1) as -> by (symmetry; apply Z.div_unique with (r := P - r); nia).
    assert ((x * P - y) mod P = P - r) as -> by (symmetry; apply Z.mod_unique with (q := x - q - 1); nia).
    replace (P - r =? 0) with false by (symmetry; apply Z.eqb_neq; lia). simpl.
    rewrite !Z.even_sub, He. destruct (Z.even q); simpl; lia.
Qed.

Lemma jam_scale x n D : 0 <= n -> 0 <= x -> 0 <= D -> jam (x * 2 ^ n) (D + n) = jam x D.
Proof.
  intros Hn Hx HD. unfold jam. pose proof (pow2_pos n Hn). pose proof (pow2_pos D HD).
  rewrite pow2_split by lia. rewrite Z.div_mul_cancel_r, Z.mul_mod_distr_r by lia.
  f_equal. f_equal. f_equal. case_test; case_test; nia.
Qed.

(** ** The field macros compute the fields *)

Lemma land_shifted_mask a n k M :
  0 <= n -> 0 <= k -> M = (2 ^ n - 1) * 2 ^ k -> a .& M = a / 2 ^ k mod 2 ^ n * 2 ^ k.
Proof.
  intros Hn Hk ->. rewrite <- !shiftl_mul, <- shiftr_div by lia.
  rewrite <- (land_mod (a .>> k) (2 ^ n - 1) n) by lia.
  apply Z.bits_inj'. intros i Hi. rewrite Z.land_spec, !Z.shiftl_spec by lia.
  destruct (Z_lt_le_dec i k).
  - rewrite !(Z.testbit_neg_r _ (i - k)) by lia. apply andb_false_r.
  - rewrite Z.land_spec, Z.shiftr_spec by lia. do 2 f_equal. lia.
Qed.

Lemma lnot_mod a P : 0 < P -> Z.lnot a mod P = P - 1 - a mod P.
Proof.
  intros HP. unfold Z.lnot. pose proof (Z_div_mod_eq_full a P). pose proof (Z.mod_pos_bound a P HP).
  symmetry. apply Z.mod_unique with (q := - (a / P) - 1); [lia|]. rewrite <- Z.sub_1_r. lia.
Qed.

Lemma lnot_div a P : 0 < P -> Z.lnot a / P = Z.lnot (a / P).
Proof.
  intros HP. unfold Z.lnot. rewrite <- !Z.sub_1_r.
  pose proof (Z_div_mod_eq_full a P). pose proof (Z.mod_pos_bound a P HP).
  symmetry. apply Z.div_unique with (r := P - 1 - a mod P); lia.
Qed.

Section Macros.
Context (f : fmt) (Hf : fmt_ok f).

Lemma nan_mask a EM FM :
  EM = (2 ^ eb f - 1) * 2 ^ fb f -> FM = 2 ^ fb f - 1 ->
  (Z.lnot a .& EM =? 0) && nz (a .& FM) = is_nan f a.
Proof.
  intros HE HF. destruct Hf. rewrite (land_shifted_mask _ (eb f) (fb f)), (land_mod a FM (fb f)) by lia.
  pose proof (pow2_pos (fb f)). pose proof (pow2_pos (eb f)).
  rewrite lnot_div, lnot_mod by lia. unfold is_nan, f_exp, f_frac, nz. f_equal.
  unfold max_exp. apply eq_true_iff_eq. rewrite !Z.eqb_eq. nia.
Qed.

Lemma snan_mask a EM EV FM :
  EM = (2 ^ (eb f + 1) - 1) * 2 ^ (fb f - 1) -> EV = inf_mag f -> FM = 2 ^ (fb f - 1) - 1 ->
  (a .& EM =? EV) && nz (a .& FM) = is_snan f a.
Proof.
  intros HE HV HF. destruct Hf.
  rewrite (land_shifted_mask _ (eb f + 1) (fb f - 1)), (land_mod a FM (fb f - 1)) by lia.
  unfold is_snan, is_nan, f_exp, f_frac, nz. subst EV. unfold inf_mag, max_exp.
  rewrite (pow2_pred (fb f)), (pow2_succ (eb f)) by lia.
  pose proof (pow2_pos (fb f - 1)). pose proof (pow2_pos (eb f)).
  set (F := 2 ^ (fb f - 1)) in *. set (P := 2 ^ eb f) in *.
  assert (a / (2 * F) = a / F / 2) as -> by (rewrite Z.div_div, Z.mul_comm by lia; reflexivity).
  assert (a mod (2 * F) = F * (a / F mod 2) + a mod F) as ->
    by (rewrite Z.mul_comm, Z.rem_mul_r by lia; lia).
  assert (a / F mod (2 * P) = 2 * (a / F / 2 mod P) + a / F mod 2) as ->
    by (rewrite Z.rem_mul_r by lia; lia).
  set (q := a / F) in *. set (r := a mod F) in *.
  pose proof (Z.mod_pos_bound q 2). pose proof (Z.mod_pos_bound a F ltac:(lia)).
  pose proof (Z.mod_pos_bound (q / 2) P ltac:(lia)).
  apply eq_true_iff_eq. rewrite !andb_true_iff, !negb_true_iff, !Z.eqb_eq, !Z.eqb_neq, Z.ltb_lt.
  assert (forall x y, x * F = y * (2 * F) <-> x = 2 * y) as ->.
  { intros x y. rewrite Z.mul_assoc. split; intros Hxy; [|lia].
    apply Z.mul_reg_r in Hxy; lia. }
  assert (q mod 2 = 0 \/ q mod 2 = 1) as [-> | ->] by lia; lia.
Qed.
End Macros.

Lemma sign_field W a : 0 <= W -> 0 <= a < 2 ^ (W + 1) -> nz (uwrap (W + 1) a .>> W) = (2 ^ W <=? a).
Proof.
  intros HW Ha. rewrite uwrap_small, shiftr_div by lia. pose proof (pow2_pos W HW).
  unfold nz. destruct (Z.leb_spec (2 ^ W) a).
  - apply negb_true_iff, Z.eqb_neq. assert (1 <= a / 2 ^ W) by (apply Z.div_le_lower_bound; lia). lia.
  - now rewrite Z.div_small by lia.
Qed.

Lemma signF16UI_eq a : is_pattern F16 a -> signF16UI a = f_sign F16 a.
Proof. exact (sign_field 15 a ltac:(lia)). Qed.

Lemma signF32UI_eq a : is_pattern F32 a -> signF32UI a = f_sign F32 a.
Proof. exact (sign_field 31 a ltac:(lia)). Qed.

Lemma signF64UI_eq a : is_pattern F64 a -> signF64UI a = f_sign F64 a.
Proof. exact (sign_field 63 a ltac:(lia)). Qed.

Lemma exp_field a w k n m :
  0 <= n -> 0 <= k -> 0 < w -> m = 2 ^ n - 1 -> 0 <= a < 2 ^ (k + w - 1) ->
  swrap w (a .>> k) .& m = a / 2 ^ k mod 2 ^ n.
Proof.
  intros Hn Hk Hw Hm Ha. pose proof (pow2_pos k Hk). pose proof (pow2_pos (w - 1) ltac:(lia)).
  assert (0 <= a / 2 ^ k) by (apply Z.div_pos; lia).
  assert (a / 2 ^ k < 2 ^ (w - 1)).
  { apply Z.div_lt_upper_bound; [lia|]. rewrite <- pow2_split by lia.
    replace (k + (w - 1)) with (k + w - 1) by lia. lia. }
  now rewrite shiftr_div, swrap_small, (land_mod _ _ n) by lia.
Qed.

Lemma expF16UI_eq a : is_pattern F16 a -> expF16UI a = f_exp F16 a.
Proof. intros Ha. unfold is_pattern in Ha. simpl in Ha. apply exp_field; simpl; lia. Qed.

Lemma expF32UI_eq a : is_pattern F32 a -> expF32UI a = f_exp F32 a.
Proof. intros Ha. unfold is_pattern in Ha. simpl in Ha. apply exp_field; simpl; lia. Qed.

Lemma expF64UI_eq a : is_pattern F64 a -> expF64UI a = f_exp F64 a.
Proof. intros Ha. unfold is_pattern in Ha. simpl in Ha. apply exp_field; simpl; lia. Qed.

Lemma fracF16UI_eq a : fracF16UI a = f_frac F16 a.
Proof. apply land_mod; simpl; lia. Qed.

Lemma fracF32UI_eq a : fracF32UI a = f_frac F32 a.
Proof. apply land_mod; simpl; lia. Qed.

Lemma fracF64UI_eq a : fracF64UI a = f_frac F64 a.
Proof. apply land_mod; simpl; lia. Qed.

Lemma isNaNF16UI_eq a : isNaNF16UI a = is_nan F16 a.
Proof. now apply (nan_mask F16 fmt_ok_F16). Qed.

Lemma isNaNF32UI_eq a : isNaNF32UI a = is_nan F32 a.
Proof. now apply (nan_mask F32 fmt_ok_F32). Qed.

Lemma isNaNF64UI_eq a : isNaNF64UI a = is_nan F64 a.
Proof. now apply (nan_mask F64 fmt_ok_F64). Qed.

Lemma isSigNaNF16UI_eq a : softfloat_isSigNaNF16UI a = is_snan F16 a.
Proof. now apply (snan_mask F16 fmt_ok_F16). Qed.

Lemma isSigNaNF32UI_eq a : softfloat_isSigNaNF32UI a = is_snan F32 a.
Proof. now apply (snan_mask F32 fmt_ok_F32). Qed.

Lemma isSigNaNF64UI_eq a : softfloat_isSigNaNF64UI a = is_snan F64 a.
Proof. now apply (snan_mask F64 fmt_ok_F64). Qed.

(** NaN propagation is that of the reference. *)

Lemma propagateNaNF16UI_eq a b st :
  softfloat_propagateNaNF16UI a b st = ieee_nan F16 (is_snan F16 a || is_snan F16 b) st.
Proof.
  unfold softfloat_propagateNaNF16UI, ieee_nan. rewrite !isSigNaNF16UI_eq.
  destruct (_ || _); unfold fbind, fret; rewrite ?raise_0; reflexivity.
Qed.

Lemma propagateNaNF32UI_eq a b st :
  softfloat_propagateNaNF32UI a b st = ieee_nan F32 (is_snan F32 a || is_snan F32 b) st.
Proof.
  unfold softfloat_propagateNaNF32UI, ieee_nan. rewrite !isSigNaNF32UI_eq.
  destruct (_ || _); unfold fbind, fret; rewrite ?raise_0; reflexivity.
Qed.

Lemma propagateNaNF64UI_eq a b st :
  softfloat_propagateNaNF64UI a b st = ieee_nan F64 (is_snan F64 a || is_snan F64 b) st.
Proof.
  unfold softfloat_propagateNaNF64UI, ieee_nan. rewrite !isSigNaNF64UI_eq.
  destruct (_ || _); unfold fbind, fret; rewrite ?raise_0; reflexivity.
Qed.

(** ** The reference, case by case *)

Section Cases.
Context (f : fmt) (Hf : fmt_ok f).

Definition signed (s : bool) (M : Z) : Z := if s then - M else M.

Lemma f_val_signed a : f_val f a = signed (f_sign f a) (f_mag f a).
Proof. reflexivity. Qed.

Lemma signed_opp s M : - signed s M = signed (negb s) M.
Proof. destruct s; simpl; lia. Qed.

Lemma is_nan_iff a : is_nan f a = true <-> f_exp f a = max_exp f /\ f_frac f a <> 0.
Proof. unfold is_nan. now rewrite andb_true_iff, negb_true_iff, Z.eqb_eq, Z.eqb_neq. Qed.

Lemma is_inf_iff a : is_inf f a = true <-> f_exp f a = max_exp f /\ f_frac f a = 0.
Proof. unfold is_inf. now rewrite andb_true_iff, !Z.eqb_eq. Qed.

Lemma is_finite_iff a : is_finite f a = true <-> f_exp f a <> max_exp f.
Proof. unfold is_finite. now rewrite negb_true_iff, Z.eqb_neq. Qed.

(** The infinity of the sign of [a] is [a] itself. *)
Lemma inf_pattern a :
  is_pattern f a -> is_inf f a = true -> with_sign f (f_sign f a) (inf_mag f) = a.
Proof.
  intros Hp Hi. apply is_inf_iff in Hi as [He Hm].
  rewrite (pattern_fields f Hf a Hp) at 2. rewrite He, Hm. unfold with_sign, inf_mag. lia.
Qed.

Variables (sb : bool) (vb a b : Z) (st : fp_state).

Lemma add_gen_nan :
  is_nan f a = true \/ is_nan f b = true ->
  ieee_add_gen f sb vb a b st = ieee_nan f (is_snan f a || is_snan f b) st.
Proof. intros H. unfold ieee_add_gen. apply orb_true_iff in H. now rewrite H. Qed.

Lemma add_gen_inf_l :
  is_inf f a = true -> is_nan f b = false -> is_inf f b && negb (Bool.eqb (f_sign f a) sb) = false ->
  ieee_add_gen f sb vb a b st = (with_sign f (f_sign f a) (inf_mag f), st).
Proof.
  intros Ha Hb Hs. unfold ieee_add_gen. rewrite Hb, Ha, Hs.
  destruct (is_nan f a) eqn:Hn; [|reflexivity]. apply nan_not_inf in Hn. congruence.
Qed.

Lemma add_gen_inf_r :
  is_finite f a = true -> is_inf f b = true ->
  ieee_add_gen f sb vb a b st = (with_sign f sb (inf_mag f), st).
Proof.
  intros Ha Hb. unfold ieee_add_gen. destruct (finite_cases f Hf a Ha) as (-> & -> & _).
  rewrite Hb. destruct (is_nan f b) eqn:Hn; [|reflexivity]. apply nan_not_inf in Hn. congruence.
Qed.

Lemma add_gen_inf_inf :
  is_inf f a = true -> is_inf f b = true -> sb = negb (f_sign f a) ->
  ieee_add_gen f sb vb a b st = ieee_nan f true st.
Proof.
  intros Ha Hb ->. unfold ieee_add_gen. rewrite Ha, Hb.
  destruct (is_nan f a) eqn:Hn; [apply nan_not_inf in Hn; congruence|].
  destruct (is_nan f b) eqn:Hn'; [apply nan_not_inf in Hn'; congruence|].
  now destruct (f_sign f a).
Qed.

Lemma add_gen_finite :
  is_finite f a = true -> is_finite f b = true ->
  ieee_add_gen f sb vb a b st
  = ieee_round f (sum_zero_sign (f_sign f a) sb) (f_val f a + vb) (emin f) st.
Proof.
  intros Ha Hb. unfold ieee_add_gen.
  destruct (finite_cases f Hf a Ha) as (-> & -> & _), (finite_cases f Hf b Hb) as (-> & -> & _).
  reflexivity.
Qed.
End Cases.

(** ** Sums of magnitudes *)

Lemma even_scaled x k : 1 <= k -> Z.even (x * 2 ^ k) = true.
Proof. intros Hk. rewrite Z.even_mul, (Z.even_pow 2 k), orb_true_r by lia. reflexivity. Qed.

(** The aligned smaller operand, as the code computes it. *)
Lemma align_operand f k b eA :
  fmt_ok f -> 0 <= k -> f_exp f b < eA ->
  jam (f_frac f b * 2 ^ k + (if nz (f_exp f b) then 2 ^ (fb f + k) else f_frac f b * 2 ^ k))
      (eA - f_exp f b)
  = jam (f_mant f b * 2 ^ k) (eA - 1 - f_shift f b).
Proof.
  intros Hf Hk He. pose proof Hf as [Hf1 Hf2]. pose proof (f_frac_range f Hf b). pose proof (f_exp_range f Hf b).
  pose proof (pow2_pos k Hk). unfold f_mant, f_shift, nz.
  destruct (Z.eqb_spec (f_exp f b) 0) as [->|]; simpl.
  - rewrite <- (jam_scale (f_frac f b * 2 ^ k) 1) by (try nia; simpl; lia). rewrite Z.pow_1_r. f_equal; simpl; lia.
  - rewrite Z.max_l by lia. rewrite pow2_split by lia. f_equal; lia.
Qed.

Section Magnitudes.
Context (f : fmt) (Hf : fmt_ok f) (g cw : Z) (Hg : 3 <= g).
Context (roundPack normRoundPack : bool -> Z -> Z -> fp Z).
Hypothesis HroundPack : forall s e m st,
  2 ^ (fb f + g) <= m < 2 ^ (fb f + g + 1) -> - 2 ^ (cw - 1) <= e < 2 ^ (cw - 1) ->
  roundPack s e m st = round_result f s m (e - g + emin f) st.
Hypothesis HnormRoundPack : forall s e m st,
  0 < m < 2 ^ (fb f + g + 1) -> - 2 ^ (cw - 1) + 64 <= e < 2 ^ (cw - 1) ->
  normRoundPack s e m st = round_result f s m (e - g + emin f) st.

Notation G := (g - 1).

Variables (s : bool) (mA mB eA D : Z) (st : fp_state).
Hypothesis HmA : 2 ^ fb f <= mA < 2 ^ (fb f + 1).
Hypothesis HmB : 0 <= mB < 2 ^ (fb f + 1).
Hypothesis HD : 0 <= D.
Hypothesis HeA : 1 <= eA < 2 ^ (cw - 1) - 1.
Hypothesis Hcw2 : 64 <= 2 ^ (cw - 1).

Lemma sum_core :
  let z := mA * 2 ^ G + jam (mB * 2 ^ G) D in
  jam (mB * 2 ^ G) D < 2 ^ (fb f + g) ->
  (if z <? 2 ^ (fb f + g) then roundPack s (eA - 1) (z * 2) st else roundPack s eA z st)
  = round_result f s (mA * 2 ^ D + mB) (eA - 1 - D + emin f) st.
Proof.
  intros z Hj. destruct Hf. pose proof (pow2_pos G ltac:(lia)). pose proof (pow2_pos D HD).
  assert (0 <= jam (mB * 2 ^ G) D) by (apply jam_nonneg; nia).
  pose proof (pow2_pred (fb f + g) ltac:(lia)) as Hp. pose proof (pow2_succ (fb f + g) ltac:(lia)).
  assert (2 ^ (fb f + g) = 2 * (2 ^ fb f * 2 ^ G))
    by (rewrite Hp, <- pow2_split by lia; do 2 f_equal; lia).
  rewrite (pow2_succ (fb f)) in * by lia.
  assert (2 ^ fb f * 2 ^ G <= mA * 2 ^ G) by (apply Z.mul_le_mono_nonneg_r; lia).
  assert (mA * 2 ^ G < 2 * 2 ^ fb f * 2 ^ G) by (apply Z.mul_lt_mono_pos_r; lia).
  transitivity (round_result f s z (eA - 1 - G + emin f) st).
  - assert (HcwP : 0 < 2 ^ (cw - 1)) by lia. unfold z in *. destruct (Z.ltb_spec (mA * 2 ^ G + jam (mB * 2 ^ G) D) (2 ^ (fb f + g))).
    + rewrite HroundPack by lia. rewrite <- (round_result_scale f s (mA * 2 ^ G + jam (mB * 2 ^ G) D) _ 1) by lia.
      rewrite Z.pow_1_r. f_equal. lia.
    + rewrite HroundPack by lia. f_equal. lia.
  - unfold z. rewrite jam_add by (try apply even_scaled; try lia; nia).
    replace (mA * 2 ^ G * 2 ^ D + mB * 2 ^ G) with ((mA * 2 ^ D + mB) * 2 ^ G) by ring.
    replace (eA - 1 - G + emin f) with (eA - 1 - D - G + emin f + D) by lia.
    rewrite round_result_jam.
    + rewrite <- (round_result_scale f s (mA * 2 ^ D + mB) _ G) by (try lia; nia). f_equal. lia.
    + lia.
    + lia.
    + replace (D + fb f + 2) with (fb f + D + 2) by lia.
      rewrite !pow2_split by lia. pose proof (pow2_le 2 G ltac:(lia)).
      apply Z.mul_le_mono_nonneg; nia.
Qed.

Lemma diff_core :
  0 < mA * 2 ^ D - mB ->
  normRoundPack s (eA - 1) (mA * 2 ^ g - jam (mB * 2 ^ g) D) st
  = round_result f s (mA * 2 ^ D - mB) (eA - 1 - D + emin f) st.
Proof.
  intros Hpos. destruct Hf. pose proof (pow2_pos g ltac:(lia)). pose proof (pow2_pos D HD).
  rewrite jam_sub by (try apply even_scaled; try lia; nia).
  replace (mA * 2 ^ g * 2 ^ D - mB * 2 ^ g) with ((mA * 2 ^ D - mB) * 2 ^ g) by ring.
  set (M := mA * 2 ^ D - mB) in *.
  assert (0 < jam (M * 2 ^ g) D) as Hj0.
  { pose proof (jam_nonneg (M * 2 ^ g) D ltac:(nia) HD).
    pose proof (proj1 (jam_zero_iff (M * 2 ^ g) D ltac:(nia) HD)). nia. }
  assert (jam (M * 2 ^ g) D < 2 ^ (fb f + g + 1)) as Hj1.
  { pose proof (jam_bounds (M * 2 ^ g) D ltac:(nia) HD).
    assert (M * 2 ^ g / 2 ^ D <= mA * 2 ^ g)
      by (apply Z.div_le_upper_bound; [lia|]; unfold M; nia).
    replace (fb f + g + 1) with (fb f + 1 + g) by lia. rewrite pow2_split by lia.
    assert ((mA + 1) * 2 ^ g <= 2 ^ (fb f + 1) * 2 ^ g) by (apply Z.mul_le_mono_nonneg_r; lia).
    pose proof (pow2_le 3 g ltac:(lia)). change (2 ^ 3) with 8 in *. lia. }
  rewrite HnormRoundPack by lia.
  replace (eA - 1 - g + emin f) with (eA - 1 - D - g + emin f + D) by lia.
  transitivity (round_result f s (M * 2 ^ g) (eA - 1 - D - g + emin f) st).
  - destruct (Z_le_gt_dec D 1) as [Hle|Hgt].
    + assert (M * 2 ^ g = M * 2 ^ (g - D) * 2 ^ D) as Hs
        by (rewrite <- Z.mul_assoc, <- pow2_split by lia; do 2 f_equal; lia).
      assert (0 < M * 2 ^ (g - D)) by (apply Z.mul_pos_pos; [lia|apply pow2_pos; lia]).
      rewrite Hs, jam_exact, Z.div_mul by (try lia; apply Z.mod_mul; lia).
      rewrite <- (round_result_scale f s (M * 2 ^ (g - D)) _ D) by lia. f_equal. lia.
    + apply round_result_jam; [lia|lia|].
      replace (D + fb f + 2) with (D - 1 + fb f + 3) by lia. rewrite pow2_split by lia.
      apply Z.mul_le_mono_nonneg; try lia.
      * unfold M. rewrite pow2_split by lia. pose proof (pow2_pred D ltac:(lia)).
        pose proof (pow2_le 1 (D - 1) ltac:(lia)). rewrite (pow2_succ (fb f)) in * by lia.
        change (2 ^ 1) with 2 in *. pose proof (pow2_pos (fb f)). nia.
      * apply pow2_le. lia.
  - rewrite <- (round_result_scale f s M _ g) by lia. f_equal. lia.
Qed.
End Magnitudes.

(** ** Sums and differences of finite patterns *)

Section Finite.
Context (f : fmt) (Hf : fmt_ok f) (a b : Z) (st : fp_state).
Hypothesis Ha : is_finite f a = true.
Hypothesis Hb : is_finite f b = true.
Notation sa := (f_sign f a).
Notation addMags_ref := (ieee_add_gen f sa (signed sa (f_mag f b)) a b st).
Notation subMags_ref := (ieee_add_gen f (negb sa) (signed (negb sa) (f_mag f b)) a b st).

Lemma add_gen_sum :
  0 < f_mag f a + f_mag f b ->
  addMags_ref = round_result f sa (f_mag f a + f_mag f b) (emin f) st.
Proof.
  intros Hs. rewrite add_gen_finite by assumption. rewrite f_val_signed.
  rewrite <- (ieee_round_sign f (sum_zero_sign sa sa)) by lia. f_equal. destruct sa; simpl; lia.
Qed.

Lemma add_gen_sum_zero :
  f_mag f a + f_mag f b = 0 -> addMags_ref = (sign_bit f sa, st).
Proof.
  intros Hs. rewrite add_gen_finite by assumption. rewrite f_val_signed.
  unfold ieee_round, sum_zero_sign. rewrite Bool.eqb_reflx.
  replace (_ =? 0) with true; [reflexivity|]. symmetry. apply Z.eqb_eq. destruct sa; simpl; lia.
Qed.

Lemma add_gen_diff_pos :
  f_mag f b < f_mag f a ->
  subMags_ref = round_result f sa (f_mag f a - f_mag f b) (emin f) st.
Proof.
  intros Hs. rewrite add_gen_finite by assumption. rewrite f_val_signed.
  rewrite <- (ieee_round_sign f (sum_zero_sign sa (negb sa))) by lia.
  f_equal. destruct sa; simpl; lia.
Qed.

Lemma add_gen_diff_neg :
  f_mag f a < f_mag f b ->
  subMags_ref = round_result f (negb sa) (f_mag f b - f_mag f a) (emin f) st.
Proof.
  intros Hs. rewrite add_gen_finite by assumption. rewrite f_val_signed.
  rewrite <- (ieee_round_sign f (sum_zero_sign sa (negb sa))) by lia.
  f_equal. destruct sa; simpl; lia.
Qed.

Lemma add_gen_diff_zero :
  f_mag f a = f_mag f b ->
  subMags_ref = (sign_bit f (rm_eqb (softfloat_roundingMode st) softfloat_round_min), st).
Proof.
  intros Hs. rewrite add_gen_finite by assumption. rewrite f_val_signed, Hs.
  unfold ieee_round, sum_zero_sign. replace (Bool.eqb sa (negb sa)) with false by now destruct sa.
  replace (_ =? 0) with true; [reflexivity|]. symmetry. apply Z.eqb_eq. destruct sa; simpl; lia.
Qed.
End Finite.

(** Bringing two magnitudes to the exponent of the smaller one. *)
Section Aligned.
Context (f : fmt) (Hf : fmt_ok f) (a b : Z).
Hypothesis Hlt : f_exp f b < f_exp f a.
Notation D := (f_shift f a - f_shift f b).

Lemma aligned_shift : 0 <= D /\ f_shift f a = f_exp f a - 1 /\ 0 <= f_shift f b.
Proof. pose proof (f_exp_range f Hf b). unfold f_shift. lia. Qed.

Lemma aligned_mags :
  f_mag f a = f_mant f a * 2 ^ D * 2 ^ f_shift f b /\ f_mag f b = f_mant f b * 2 ^ f_shift f b.
Proof.
  destruct aligned_shift as (HD & _ & Hb). split; [|reflexivity].
  unfold f_mag. rewrite <- Z.mul_assoc, <- pow2_split by lia. do 2 f_equal. lia.
Qed.

Lemma aligned_lt : f_mant f b < f_mant f a * 2 ^ D.
Proof.
  destruct aligned_shift as (HD & Hsa & Hb). pose proof (f_exp_range f Hf b).
  pose proof (f_mant_range f Hf b). pose proof (f_mant_normal f Hf a ltac:(lia)).
  pose proof (f_frac_range f Hf b). destruct Hf. rewrite pow2_succ in * by lia.
  destruct (Z.eq_dec D 0) as [HD0|].
  - rewrite HD0, Z.pow_0_r. unfold f_mant at 1. unfold f_shift in *. case_test; lia.
  - pose proof (pow2_le 1 D ltac:(lia)). change (2 ^ 1) with 2 in *. nia.
Qed.

Lemma aligned_mag_lt : f_mag f b < f_mag f a.
Proof.
  destruct aligned_mags as [-> ->], aligned_shift as (_ & _ & Hb).
  apply Z.mul_lt_mono_pos_r; [now apply pow2_pos|apply aligned_lt].
Qed.

Lemma aligned_sum s st :
  round_result f s (f_mant f a * 2 ^ D + f_mant f b) (f_exp f a - 1 - D + emin f) st
  = round_result f s (f_mag f a + f_mag f b) (emin f) st.
Proof.
  destruct aligned_mags as [-> ->], aligned_shift as (HD & Hs & Hb).
  pose proof aligned_lt. pose proof (f_mant_range f Hf b).
  rewrite <- Z.mul_add_distr_r, <- (round_result_scale f s (_ + _) _ (f_shift f b)) by lia.
  f_equal. lia.
Qed.

Lemma aligned_diff s st :
  round_result f s (f_mant f a * 2 ^ D - f_mant f b) (f_exp f a - 1 - D + emin f) st
  = round_result f s (f_mag f a - f_mag f b) (emin f) st.
Proof.
  destruct aligned_mags as [-> ->], aligned_shift as (HD & Hs & Hb). pose proof aligned_lt.
  rewrite <- Z.mul_sub_distr_r, <- (round_result_scale f s (_ - _) _ (f_shift f b)) by lia.
  f_equal. lia.
Qed.
End Aligned.

(** Operands with the same exponent field. *)
Section SameExp.
Context (f : fmt) (Hf : fmt_ok f) (a b : Z) (st : fp_state).
Hypothesis Hsame : f_exp f a = f_exp f b.
Hypothesis Hfin : f_exp f a < max_exp f.

Lemma same_mags : f_mag f a = f_mant f a * 2 ^ f_shift f a /\ f_mag f b = f_mant f b * 2 ^ f_shift f a.
Proof. unfold f_mag, f_shift. now rewrite Hsame. Qed.

Lemma same_mant_diff : f_mant f a - f_mant f b = f_frac f a - f_frac f b.
Proof. unfold f_mant. rewrite Hsame. case_test; lia. Qed.

Lemma same_sum_subnormal s :
  f_exp f a = 0 ->
  round_result f s (f_mag f a + f_mag f b) (emin f) st
  = (sign_bit f s + f_frac f a + f_frac f b, st).
Proof.
  intros H0. pose proof (f_frac_range f Hf a). pose proof (f_frac_range f Hf b).
  destruct same_mags as [-> ->]. unfold f_mant, f_shift. rewrite <- Hsame, H0. simpl.
  rewrite !Z.mul_1_r. destruct Hf. pose proof (pow2_le 2 (eb f)).
  rewrite <- (Z.add_0_l (emin f)). rewrite (round_result_pack f Hf); try lia.
  - f_equal. lia.
  - rewrite pow2_succ; lia.
  - unfold inf_mag, max_exp. change (2 ^ 2) with 4 in *. nia.
Qed.

Lemma same_sum_normal s :
  0 < f_exp f a ->
  round_result f s (2 ^ (fb f + 1) + f_frac f a + f_frac f b) (f_exp f a - 1 + emin f) st
  = round_result f s (f_mag f a + f_mag f b) (emin f) st.
Proof.
  intros H0. pose proof (f_frac_range f Hf a). pose proof (f_frac_range f Hf b).
  destruct same_mags as [-> ->]. unfold f_mant, f_shift. rewrite <- Hsame.
  destruct (Z.eqb_spec (f_exp f a) 0); [lia|]. destruct Hf. rewrite pow2_succ by lia.
  rewrite <- Z.mul_add_distr_r, <- (round_result_scale f s (2 * _ + _ + _) _ (f_exp f a - 1)) by lia.
  f_equal; [f_equal; [lia|f_equal; lia]|lia].
Qed.

(** The exact difference, normalised as far as the exponent allows. *)
Lemma same_diff s d sh :
  0 < d < 2 ^ fb f -> sh = fb f - Z.log2 d ->
  let '(sh', e) := if f_shift f a - sh <? 0 then (f_shift f a, 0) else (sh, f_shift f a - sh) in
  round_result f s (d * 2 ^ f_shift f a) (emin f) st
  = (sign_bit f s + e * 2 ^ fb f + d * 2 ^ sh', st) /\ 0 <= sh' <= sh /\ 0 <= e <= max_exp f
  /\ 0 <= d * 2 ^ sh' < 2 ^ (fb f + 1) /\ e * 2 ^ fb f + d * 2 ^ sh' < 2 ^ (fb f + eb f).
Proof.
  intros Hd Hsh. destruct Hf. pose proof (Z.log2_spec d ltac:(lia)) as [Hl Hu].
  pose proof (Z.log2_nonneg d). pose proof (f_exp_range f Hf a).
  assert (0 <= f_shift f a < max_exp f - 1) as He.
  { unfold f_shift, max_exp in *. pose proof (pow2_le 2 (eb f)). change (2 ^ 2) with 4 in *. lia. }
  assert (Z.log2 d < fb f) by (apply Z.log2_lt_pow2; lia).
  pose proof (pow2_pos (fb f) ltac:(lia)) as Hfp.
  assert (Hscale : forall k, 0 <= k -> 2 ^ (Z.log2 d + k) <= d * 2 ^ k < 2 ^ (Z.log2 d + k + 1)).
  { intros k Hk. pose proof (pow2_pos k Hk).
    replace (Z.log2 d + k + 1) with (Z.succ (Z.log2 d) + k) by lia. rewrite !pow2_split by lia. nia. }
  pose proof (pow2_split (fb f) (eb f) ltac:(lia) ltac:(lia)).
  destruct (Z.ltb_spec (f_shift f a - sh) 0).
  - specialize (Hscale (f_shift f a) ltac:(lia)).
    pose proof (pow2_le (Z.log2 d + f_shift f a + 1) (fb f) ltac:(lia)).
    pose proof (pow2_pos (Z.log2 d + f_shift f a) ltac:(lia)).
    pose proof (pow2_lt (fb f) (fb f + 1) ltac:(lia)).
    pose proof (pow2_lt (fb f) (fb f + eb f) ltac:(lia)).
    split; [|repeat split; lia]. rewrite <- (Z.add_0_l (emin f)).
    apply (round_result_pack f Hf); try lia. unfold inf_mag. nia.
  - specialize (Hscale sh ltac:(lia)). replace (Z.log2 d + sh) with (fb f) in Hscale by lia.
    assert ((f_shift f a - sh) * 2 ^ fb f <= (max_exp f - 2) * 2 ^ fb f)
      by (apply Z.mul_le_mono_nonneg_r; lia).
    pose proof (pow2_succ (fb f) ltac:(lia)). unfold max_exp, inf_mag in *.
    split; [|repeat split; try lia].
    rewrite <- (round_result_pack f Hf) by (try lia; unfold inf_mag, max_exp; lia).
    rewrite <- (round_result_scale f s (d * 2 ^ sh) _ (f_shift f a - sh)) by lia.
    rewrite <- Z.mul_assoc, <- pow2_split by lia. f_equal; [do 2 f_equal; lia|lia].
Qed.
End SameExp.

(** ** The sums and differences the code forms *)

Section DiffExp.
Context (f : fmt) (Hf : fmt_ok f) (a b : Z).
Hypothesis Hlt : f_exp f b < f_exp f a.
Hypothesis Hfin : f_exp f a < max_exp f.

(** The smaller operand with [k] guard bits, shifted to the larger exponent. *)
Definition aligned (k : Z) : Z :=
  jam (f_frac f b * 2 ^ k + (if nz (f_exp f b) then 2 ^ (fb f + k) else f_frac f b * 2 ^ k))
      (f_exp f a - f_exp f b).

Lemma aligned_operand_range k :
  0 <= k ->
  0 <= f_frac f b * 2 ^ k + (if nz (f_exp f b) then 2 ^ (fb f + k) else f_frac f b * 2 ^ k)
  < 2 ^ (fb f + k + 1).
Proof.
  intros Hk. destruct Hf. pose proof (f_frac_range f Hf b). pose proof (pow2_pos k Hk).
  rewrite pow2_succ, pow2_split by lia. destruct (nz _); nia.
Qed.

Lemma aligned_range k : 1 <= k -> 0 <= aligned k <= 2 ^ (fb f + k).
Proof.
  intros Hk. destruct Hf. pose proof (aligned_operand_range k ltac:(lia)) as Hr.
  unfold aligned. set (y := _ + _) in *. set (d := f_exp f a - f_exp f b).
  assert (1 <= d) by lia. split; [apply jam_nonneg; lia|].
  pose proof (jam_bounds y d ltac:(lia) ltac:(lia)). rewrite pow2_succ in Hr by lia.
  assert (y / 2 ^ d < 2 ^ (fb f + k)); [|lia].
  pose proof (pow2_le 1 d ltac:(lia)). change (2 ^ 1) with 2 in *.
  apply Z.div_lt_upper_bound; [lia|]. pose proof (pow2_pos (fb f + k)). nia.
Qed.

Lemma aligned_eq k :
  0 <= k -> aligned k = jam (f_mant f b * 2 ^ k) (f_shift f a - f_shift f b).
Proof.
  intros Hk. unfold aligned. rewrite (align_operand f) by (trivial; lia). f_equal.
  pose proof (aligned_shift f Hf a b Hlt). lia.
Qed.

Lemma larger_mant : 2 ^ fb f + f_frac f a = f_mant f a /\ 2 ^ fb f <= f_mant f a < 2 ^ (fb f + 1).
Proof.
  pose proof (f_exp_range f Hf b). pose proof (f_mant_normal f Hf a ltac:(lia)).
  pose proof (f_mant_range f Hf a). split; [|lia].
  unfold f_mant. destruct (Z.eqb_spec (f_exp f a) 0); lia.
Qed.

Context (g cw : Z) (Hg : 3 <= g) (Hcw : eb f + 1 <= cw) (Hcw2 : 64 <= 2 ^ (cw - 1)).

Lemma larger_exp : 1 <= f_exp f a < 2 ^ (cw - 1) - 1.
Proof.
  pose proof (f_exp_range f Hf b). destruct Hf. pose proof (pow2_le (eb f) (cw - 1) ltac:(lia)).
  unfold max_exp in *. lia.
Qed.

Lemma sum_diff_exp (roundPack : bool -> Z -> Z -> fp Z) s st :
  (forall s e m st,
    2 ^ (fb f + g) <= m < 2 ^ (fb f + g + 1) -> - 2 ^ (cw - 1) <= e < 2 ^ (cw - 1) ->
    roundPack s e m st = round_result f s m (e - g + emin f) st) ->
  let z := 2 ^ (fb f + (g - 1)) + f_frac f a * 2 ^ (g - 1) + aligned (g - 1) in
  (if z <? 2 ^ (fb f + g) then roundPack s (f_exp f a - 1) (z * 2) st
   else roundPack s (f_exp f a) z st)
  = round_result f s (f_mag f a + f_mag f b) (emin f) st.
Proof.
  intros HroundPack z. destruct larger_mant as [Hm HmA].
  pose proof (aligned_shift f Hf a b Hlt) as (HD & _). pose proof (f_mant_range f Hf b).
  pose proof (aligned_range (g - 1) ltac:(lia)) as Hr. pose proof Hf as [Hf1 Hf2].
  pose proof (pow2_lt (fb f + (g - 1)) (fb f + g) ltac:(lia)).
  pose proof (sum_core f Hf g cw Hg roundPack HroundPack s (f_mant f a) (f_mant f b) (f_exp f a)
    (f_shift f a - f_shift f b) st HmA ltac:(lia) HD larger_exp Hcw2) as Hc. cbv zeta in Hc.
  rewrite <- aligned_eq in Hc by lia. rewrite <- (aligned_sum f Hf a b Hlt), <- Hc by lia.
  unfold z. rewrite <- Hm, (pow2_split (fb f) (g - 1)) by lia. now rewrite (Z.mul_add_distr_r (2 ^ fb f)).
Qed.

Lemma diff_diff_exp (normRoundPack : bool -> Z -> Z -> fp Z) s st :
  (forall s e m st,
    0 < m < 2 ^ (fb f + g + 1) -> - 2 ^ (cw - 1) + 64 <= e < 2 ^ (cw - 1) ->
    normRoundPack s e m st = round_result f s m (e - g + emin f) st) ->
  normRoundPack s (f_exp f a - 1) (2 ^ (fb f + g) + f_frac f a * 2 ^ g - aligned g) st
  = round_result f s (f_mag f a - f_mag f b) (emin f) st.
Proof.
  intros HnormRoundPack. destruct larger_mant as [Hm HmA].
  pose proof (aligned_shift f Hf a b Hlt) as (HD & _). pose proof (f_mant_range f Hf b).
  pose proof (aligned_lt f Hf a b Hlt).
  pose proof (diff_core f Hf g cw Hg normRoundPack HnormRoundPack s (f_mant f a) (f_mant f b)
    (f_exp f a) (f_shift f a - f_shift f b) st HmA ltac:(lia) HD larger_exp Hcw2) as Hc.
  rewrite <- (aligned_diff f Hf a b Hlt), <- Hc, <- aligned_eq, <- Hm by lia. destruct Hf.
  rewrite (pow2_split (fb f) g) by lia. now rewrite Z.mul_add_distr_r.
Qed.
End DiffExp.
