(* ===== verification/SFAddSub.v ===== *)
(** * SoftFloat: addition and subtraction

    [softfloat_addMags], [softfloat_subMags], [add] and [sub] of the three
    formats.  The [goto]s of the source are written out: [uiZ] is the exit that
    stores a bit pattern, [propagateNaN] the exit through the NaN rule.  The
    theorems say that each operation is the IEEE sum or difference: the exact
    integer sum of the operands, rounded once, with the flags and the special
    cases of the standard. *)

From Stdlib Require Import ZArith Lia Bool List.
From S2P Require Import Prelude SFBase SFSpec SFRound SFValue.

(** ** Single precision *)

Definition softfloat_addMagsF32 (uiA uiB : Z) : fp Z :=
  let to_uiZ uiZ := fret (f32_of_ui uiZ) in
  let propagateNaN := uiZ <- softfloat_propagateNaNF32UI uiA uiB ;; to_uiZ uiZ in
  let expA := expF32UI uiA in
  let sigA := fracF32UI uiA in
  let expB := expF32UI uiB in
  let sigB := fracF32UI uiB in
  let expDiff := s64 (expA - expB) in
  if negb (nz expDiff) then
    if negb (nz expA) then to_uiZ (u64 (uiA + sigB))
    else if expA =? 0xFF then
      if nz (sigA .| sigB) then propagateNaN else to_uiZ uiA
    else
      let signZ := signF32UI uiA in
      let expZ := expA in
      let sigZ := u64 (0x01000000 + sigA + sigB) in
      if negb (nz (sigZ .& 1)) && (expZ <? 0xFE) then
        to_uiZ (packToF32UI signZ expZ (sigZ .>> 1))
      else softfloat_roundPackToF32 signZ expZ (u64 (sigZ .<< 6))
  else
    let signZ := signF32UI uiA in
    let sigA := u64 (sigA .<< 6) in
    let sigB := u64 (sigB .<< 6) in
    let add expZ sigA sigB :=
      let sigZ := u64 (0x20000000 + sigA + sigB) in
      if sigZ <? 0x40000000 then
        softfloat_roundPackToF32 signZ (s64 (expZ - 1)) (u64 (sigZ .<< 1))
      else softfloat_roundPackToF32 signZ expZ sigZ in
    if expDiff <? 0 then
      if expB =? 0xFF then
        if nz sigB then propagateNaN else to_uiZ (packToF32UI signZ 0xFF 0)
      else
        let expZ := expB in
        let sigA := u64 (sigA + (if nz expA then 0x20000000 else sigA)) in
        let sigA := softfloat_shiftRightJam32 (u32 sigA) (u64 (- expDiff)) in
        add expZ sigA sigB
    else
      if expA =? 0xFF then
        if nz sigA then propagateNaN else to_uiZ uiA
      else
        let expZ := expA in
        let sigB := u64 (sigB + (if nz expB then 0x20000000 else sigB)) in
        let sigB := softfloat_shiftRightJam32 (u32 sigB) (u64 expDiff) in
        add expZ sigA sigB.

Definition softfloat_subMagsF32 (uiA uiB : Z) : fp Z :=
  let to_uiZ uiZ := fret (f32_of_ui uiZ) in
  let propagateNaN := uiZ <- softfloat_propagateNaNF32UI uiA uiB ;; to_uiZ uiZ in
  let expA := expF32UI uiA in
  let sigA := fracF32UI uiA in
  let expB := expF32UI uiB in
  let sigB := fracF32UI uiB in
  let expDiff := s64 (expA - expB) in
  if negb (nz expDiff) then
    if expA =? 0xFF then
      if nz (sigA .| sigB) then propagateNaN
      else softfloat_raiseFlags softfloat_flag_invalid ;; to_uiZ defaultNaNF32UI
    else
      let sigDiff := s64 (sigA - sigB) in
      if negb (nz sigDiff) then
        rm <- get_roundingMode ;;
        to_uiZ (packToF32UI (rm_eqb rm softfloat_round_min) 0 0)
      else
        let expA := if nz expA then s64 (expA - 1) else expA in
        let signZ := signF32UI uiA in
        let '(signZ, sigDiff) :=
          if sigDiff <? 0 then (negb signZ, s64 (- sigDiff)) else (signZ, sigDiff) in
        let shiftDist := s8 (softfloat_countLeadingZeros32 (u32 sigDiff) - 8) in
        let expZ := s64 (expA - shiftDist) in
        let '(shiftDist, expZ) := if expZ <? 0 then (s8 expA, 0) else (shiftDist, expZ) in
        to_uiZ (packToF32UI signZ expZ (s64 (sigDiff .<< shiftDist)))
  else
    let signZ := signF32UI uiA in
    let sigA := u64 (sigA .<< 7) in
    let sigB := u64 (sigB .<< 7) in
    let sub signZ expZ sigX sigY expDiff :=
      softfloat_normRoundPackToF32 signZ expZ
        (u64 (sigX - softfloat_shiftRightJam32 (u32 sigY) (u64 expDiff))) in
    if expDiff <? 0 then
      let signZ := negb signZ in
      if expB =? 0xFF then
        if nz sigB then propagateNaN else to_uiZ (packToF32UI signZ 0xFF 0)
      else
        sub signZ (s64 (expB - 1)) (sigB .| 0x40000000)
            (u64 (sigA + (if nz expA then 0x40000000 else sigA))) (s64 (- expDiff))
    else
      if expA =? 0xFF then
        if nz sigA then propagateNaN else to_uiZ uiA
      else
        sub signZ (s64 (expA - 1)) (sigA .| 0x40000000)
            (u64 (sigB + (if nz expB then 0x40000000 else sigB))) expDiff.

Definition f32_add (a b : Z) : fp Z :=
  let uiA := a in
  let uiB := b in
  if signF32UI (uiA .^ uiB) then softfloat_subMagsF32 uiA uiB
  else softfloat_addMagsF32 uiA uiB.

Definition f32_sub (a b : Z) : fp Z :=
  let uiA := a in
  let uiB := b in
  if signF32UI (uiA .^ uiB) then softfloat_addMagsF32 uiA uiB
  else softfloat_subMagsF32 uiA uiB.

(** ** Double precision *)

Definition softfloat_addMagsF64 (uiA uiB : Z) (signZ : bool) : fp Z :=
  let to_uiZ uiZ := fret (f64_of_ui uiZ) in
  let propagateNaN := uiZ <- softfloat_propagateNaNF64UI uiA uiB ;; to_uiZ uiZ in
  let expA := expF64UI uiA in
  let sigA := fracF64UI uiA in
  let expB := expF64UI uiB in
  let sigB := fracF64UI uiB in
  let expDiff := s64 (expA - expB) in
  if negb (nz expDiff) then
    if negb (nz expA) then to_uiZ (u64 (uiA + sigB))
    else if expA =? 0x7FF then
      if nz (sigA .| sigB) then propagateNaN else to_uiZ uiA
    else
      let expZ := expA in
      let sigZ := u64 (0x0020000000000000 + sigA + sigB) in
      softfloat_roundPackToF64 signZ expZ (u64 (sigZ .<< 9))
  else
    let sigA := u64 (sigA .<< 9) in
    let sigB := u64 (sigB .<< 9) in
    let add expZ sigA sigB :=
      let sigZ := u64 (0x2000000000000000 + sigA + sigB) in
      if sigZ <? 0x4000000000000000 then
        softfloat_roundPackToF64 signZ (s64 (expZ - 1)) (u64 (sigZ .<< 1))
      else softfloat_roundPackToF64 signZ expZ sigZ in
    if expDiff <? 0 then
      if expB =? 0x7FF then
        if nz sigB then propagateNaN else to_uiZ (packToF64UI signZ 0x7FF 0)
      else
        let expZ := expB in
        let sigA := if nz expA then u64 (sigA + 0x2000000000000000) else u64 (sigA .<< 1) in
        let sigA := softfloat_shiftRightJam64 sigA (u64 (- expDiff)) in
        add expZ sigA sigB
    else
      if expA =? 0x7FF then
        if nz sigA then propagateNaN else to_uiZ uiA
      else
        let expZ := expA in
        let sigB := if nz expB then u64 (sigB + 0x2000000000000000) else u64 (sigB .<< 1) in
        let sigB := softfloat_shiftRightJam64 sigB (u64 expDiff) in
        add expZ sigA sigB.

Definition softfloat_subMagsF64 (uiA uiB : Z) (signZ : bool) : fp Z :=
  let to_uiZ uiZ := fret (f64_of_ui uiZ) in
  let propagateNaN := uiZ <- softfloat_propagateNaNF64UI uiA uiB ;; to_uiZ uiZ in
  let expA := expF64UI uiA in
  let sigA := fracF64UI uiA in
  let expB := expF64UI uiB in
  let sigB := fracF64UI uiB in
  let expDiff := s64 (expA - expB) in
  if negb (nz expDiff) then
    if expA =? 0x7FF then
      if nz (sigA .| sigB) then propagateNaN
      else softfloat_raiseFlags softfloat_flag_invalid ;; to_uiZ defaultNaNF64UI
    else
      let sigDiff := s64 (sigA - sigB) in
      if negb (nz sigDiff) then
        rm <- get_roundingMode ;;
        to_uiZ (packToF64UI (rm_eqb rm softfloat_round_min) 0 0)
      else
        let expA := if nz expA then s64 (expA - 1) else expA in
        let '(signZ, sigDiff) :=
          if sigDiff <? 0 then (negb signZ, s64 (- sigDiff)) else (signZ, sigDiff) in
        let shiftDist := s8 (softfloat_countLeadingZeros64 (u64 sigDiff) - 11) in
        let expZ := s64 (expA - shiftDist) in
        let '(shiftDist, expZ) := if expZ <? 0 then (s8 expA, 0) else (shiftDist, expZ) in
        to_uiZ (packToF64UI signZ expZ (s64 (sigDiff .<< shiftDist)))
  else
    let sigA := u64 (sigA .<< 10) in
    let sigB := u64 (sigB .<< 10) in
    if expDiff <? 0 then
      let signZ := negb signZ in
      if expB =? 0x7FF then
        if nz sigB then propagateNaN else to_uiZ (packToF64UI signZ 0x7FF 0)
      else
        let sigA := u64 (sigA + (if nz expA then 0x4000000000000000 else sigA)) in
        let sigA := softfloat_shiftRightJam64 sigA (u64 (- expDiff)) in
        let sigB := sigB .| 0x4000000000000000 in
        let expZ := expB in
        let sigZ := u64 (sigB - sigA) in
        softfloat_normRoundPackToF64 signZ (s64 (expZ - 1)) sigZ
    else
      if expA =? 0x7FF then
        if nz sigA then propagateNaN else to_uiZ uiA
      else
        let sigB := u64 (sigB + (if nz expB then 0x4000000000000000 else sigB)) in
        let sigB := softfloat_shiftRightJam64 sigB (u64 expDiff) in
        let sigA := sigA .| 0x4000000000000000 in
        let expZ := expA in
        let sigZ := u64 (sigA - sigB) in
        softfloat_normRoundPackToF64 signZ (s64 (expZ - 1)) sigZ.

Definition f64_add (a b : Z) : fp Z :=
  let uiA := a in
  let signA := signF64UI uiA in
  let uiB := b in
  let signB := signF64UI uiB in
  if Bool.eqb signA signB then softfloat_addMagsF64 uiA uiB signA
  else softfloat_subMagsF64 uiA uiB signA.

Definition f64_sub (a b : Z) : fp Z :=
  let uiA := a in
  let signA := signF64UI uiA in
  let uiB := b in
  let signB := signF64UI uiB in
  if Bool.eqb signA signB then softfloat_subMagsF64 uiA uiB signA
  else softfloat_addMagsF64 uiA uiB signA.

(** ** Correctness *)

(** The reference for a sum or a difference of magnitudes with the sign of [a]. *)
Definition ref_addMags (f : fmt) (a b : Z) : fp Z :=
  ieee_add_gen f (f_sign f a) (signed (f_sign f a) (f_mag f b)) a b.

Definition ref_subMags (f : fmt) (a b : Z) : fp Z :=
  ieee_add_gen f (negb (f_sign f a)) (signed (negb (f_sign f a)) (f_mag f b)) a b.

(** The NaN and infinity cases that every routine reaches. *)
Section Special.
Context (f : fmt) (Hf : fmt_ok f) (of_ui : Z -> Z) (propagate : Z -> Z -> fp Z).
Hypothesis Hof_ui : forall x, is_pattern f x -> of_ui x = x.
Hypothesis Hprop : forall a b st, propagate a b st = ieee_nan f (is_snan f a || is_snan f b) st.
Variables (a b : Z) (st : fp_state) (sb : bool) (vb : Z).
Hypothesis Ha : is_pattern f a.

Lemma default_nan_pattern : is_pattern f (default_nan f).
Proof.
  unfold is_pattern, default_nan, inf_mag, max_exp. destruct Hf.
  rewrite pow2_succ, pow2_split by lia. pose proof (pow2_pred (fb f) ltac:(lia)).
  pose proof (pow2_pos (fb f - 1) ltac:(lia)). pose proof (pow2_le 2 (eb f)). change (2 ^ 2) with 4 in *. nia.
Qed.

Lemma special_nan :
  (f_exp f a = max_exp f /\ f_frac f a <> 0) \/ (f_exp f b = max_exp f /\ f_frac f b <> 0) ->
  (uiZ <- propagate a b ;; fret (of_ui uiZ)) st = ieee_add_gen f sb vb a b st.
Proof.
  intros H. rewrite add_gen_nan by now rewrite !is_nan_iff.
  unfold fbind. rewrite Hprop. unfold ieee_nan, fret. now rewrite Hof_ui by apply default_nan_pattern.
Qed.

Lemma special_inf_l :
  f_exp f a = max_exp f -> f_frac f a = 0 ->
  f_exp f b <> max_exp f \/ (f_exp f b = max_exp f /\ f_frac f b = 0 /\ sb = f_sign f a) ->
  fret (of_ui a) st = ieee_add_gen f sb vb a b st.
Proof.
  intros He Hm Hb. assert (is_inf f a = true) by now apply is_inf_iff.
  rewrite add_gen_inf_l; trivial.
  - rewrite inf_pattern by assumption. unfold fret. now rewrite Hof_ui.
  - apply not_true_iff_false. rewrite is_nan_iff. tauto.
  - destruct Hb as [Hb|(Hb & Hb0 & ->)]; [|rewrite Bool.eqb_reflx; apply andb_false_r].
    destruct (is_inf f b) eqn:Hi; [|reflexivity]. apply is_inf_iff in Hi. tauto.
Qed.

Lemma special_inf_r :
  f_exp f a <> max_exp f -> f_exp f b = max_exp f -> f_frac f b = 0 ->
  (with_sign f sb (inf_mag f), st) = ieee_add_gen f sb vb a b st.
Proof.
  intros He Hb Hm. rewrite add_gen_inf_r; trivial; [now apply is_finite_iff|now apply is_inf_iff].
Qed.

Lemma special_invalid :
  f_exp f a = max_exp f -> f_frac f a = 0 -> f_exp f b = max_exp f -> f_frac f b = 0 ->
  sb = negb (f_sign f a) ->
  (default_nan f, raise softfloat_flag_invalid st) = ieee_add_gen f sb vb a b st.
Proof.
  intros. rewrite add_gen_inf_inf by (trivial; now apply is_inf_iff). reflexivity.
Qed.
End Special.

Lemma nz_lor_frac x y : 0 <= x -> 0 <= y -> nz (x .| y) = nz x || nz y.
Proof.
  intros Hx Hy. unfold nz. destruct (Z.eqb_spec (x .| y) 0) as [H|H].
  - apply Z.lor_eq_0_iff in H as [-> ->]. reflexivity.
  - destruct (Z.eqb_spec x 0) as [->|], (Z.eqb_spec y 0) as [->|]; trivial. now rewrite Z.lor_0_l in H.
Qed.

Lemma shl_frac_nz x k : 0 <= k -> 0 <= x * 2 ^ k < 2 ^ 64 -> nz (u64 (x .<< k)) = nz x.
Proof.
  intros Hk Hx. rewrite shiftl_mul, uwrap_small by lia. unfold nz. f_equal.
  pose proof (pow2_pos k Hk). apply eq_true_iff_eq. rewrite !Z.eqb_eq. nia.
Qed.

(** The code's shifted operand is [aligned]. *)
Lemma aligned_codeF32 a b k c d :
  f_exp F32 b < f_exp F32 a -> 0 <= k <= 8 -> c = 2 ^ (23 + k) -> d = f_exp F32 a - f_exp F32 b ->
  softfloat_shiftRightJam32
    (u32 (u64 (u64 (f_frac F32 b .<< k) + (if nz (f_exp F32 b) then c else u64 (f_frac F32 b .<< k)))))
    (u64 d) = aligned F32 a b k.
Proof.
  intros Hlt Hk -> ->. pose proof (aligned_operand_range F32 fmt_ok_F32 b k ltac:(lia)) as Hr.
  pose proof (f_exp_range F32 fmt_ok_F32 a). pose proof (f_exp_range F32 fmt_ok_F32 b).
  pose proof (f_frac_range F32 fmt_ok_F32 b). pose proof (pow2_pos k ltac:(lia)).
  pose proof (pow2_le k 8 ltac:(lia)). pose proof (pow2_le (23 + k + 1) 32 ltac:(lia)).
  change (max_exp F32) with 255 in *. change (fb F32) with 23 in *.
  rewrite shiftl_mul, (uwrap_small 64 (f_frac F32 b * 2 ^ k)) by nia.
  rewrite (uwrap_small 64 (_ + _)), (uwrap_small 32), (uwrap_small 64) by lia.
  apply shiftRightJam32_jam; lia.
Qed.

(** Facts about the fields of the operands, for [lia]. *)
Ltac field_facts f Hf a b :=
  pose proof (f_exp_range f Hf a); pose proof (f_exp_range f Hf b);
  pose proof (f_frac_range f Hf a); pose proof (f_frac_range f Hf b).

Lemma of_ui32 x : is_pattern F32 x -> f32_of_ui x = x.
Proof. apply uwrap_small. Qed.

Lemma of_ui64 x : is_pattern F64 x -> f64_of_ui x = x.
Proof. apply uwrap_small. Qed.

Lemma max_exp_F32 : max_exp F32 = 255.
Proof. reflexivity. Qed.

(** The NaN and infinity exits. *)
Ltac special_exit Hf of_ui prop :=
  solve [ apply special_nan; [apply Hf|apply of_ui|apply prop|lia]
        | apply special_inf_l; [apply Hf|apply of_ui|assumption|lia|lia
            |first [left; lia | right; split; [lia|split; [lia|reflexivity]]]]
        | apply special_inf_r; [apply Hf|lia|lia|lia]
        | apply special_invalid; first [lia | reflexivity] ].

(** Tests of [nz] as propositions. *)
Ltac nz_cases :=
  repeat match goal with
  | |- context [nz ?x || nz ?y] => destruct (nz x) eqn:?, (nz y) eqn:?; cbn [negb andb orb]; cbv iota
  | |- context [if nz ?x then _ else _] => destruct (nz x) eqn:?
  end; rewrite ?nz_true, ?nz_false in *.

Ltac on_nz x :=
  let H := fresh "Hnz" in
  destruct (nz x) eqn:H; cbn [negb andb orb]; cbv iota; [apply nz_true in H|apply nz_false in H].

(** The end of the addition of unequal exponents. *)
Lemma add_codeF32 a b z s st :
  f_exp F32 b < f_exp F32 a -> f_exp F32 a < 255 ->
  z = 2 ^ 29 + u64 (f_frac F32 a .<< 6) + aligned F32 a b 6 ->
  (if u64 z <? 0x40000000 then softfloat_roundPackToF32 s (s64 (f_exp F32 a - 1)) (u64 (u64 z .<< 1))
   else softfloat_roundPackToF32 s (f_exp F32 a) (u64 z)) st
  = round_result F32 s (f_mag F32 a + f_mag F32 b) (emin F32) st.
Proof.
  intros Hlt Hfin ->. field_facts F32 fmt_ok_F32 a b.
  pose proof (aligned_range F32 fmt_ok_F32 a b Hlt 6 ltac:(lia)) as Hr. change (fb F32) with 23 in *.
  rewrite shiftl_mul, (uwrap_small 64 (f_frac F32 a * 2 ^ 6)) by lia.
  rewrite (uwrap_small 64 (_ + _)), shiftl_mul, (uwrap_small 64), swrap_small by lia.
  rewrite <- (sum_diff_exp F32 fmt_ok_F32 a b Hlt Hfin 7 32 ltac:(lia) ltac:(simpl; lia) ltac:(lia)
    softfloat_roundPackToF32) by (intros; apply roundPackToF32_correct; assumption).
  cbv zeta. change (fb F32 + (7 - 1)) with 29. change (7 - 1) with 6. change (2 ^ (fb F32 + 7)) with 0x40000000.
  now destruct (_ <? _).
Qed.

Lemma mag_pos f a : fmt_ok f -> 0 < f_exp f a -> 0 < f_mag f a.
Proof.
  intros Hf He. pose proof (f_mag_nonneg f Hf a). pose proof (proj1 (f_mag_zero f Hf a)). lia.
Qed.

Lemma subnormal_mag f a : f_exp f a = 0 -> f_mag f a = f_frac f a.
Proof. intros He. unfold f_mag, f_mant, f_shift. rewrite He. apply Z.mul_1_r. Qed.

(** Two subnormals: the integer sum of the patterns, carry included. *)
Lemma ref_add_subnormal f a b st :
  fmt_ok f -> is_pattern f a -> f_exp f a = 0 -> f_exp f b = 0 ->
  ref_addMags f a b st = (a + f_frac f b, st) /\ is_pattern f (a + f_frac f b).
Proof.
  intros Hf Hp Ha Hb. pose proof Hf as [Hf1 Hf2]. field_facts f Hf a b.
  pose proof (pattern_fields f Hf a Hp) as He. rewrite Ha, Z.mul_0_l, Z.add_0_r in He.
  pose proof (pow2_le 2 (eb f) ltac:(lia)). change (2 ^ 2) with 4 in *.
  assert (0 <> max_exp f) by (unfold max_exp; lia).
  split.
  - unfold ref_addMags. destruct (Z.eq_dec (f_frac f a + f_frac f b) 0).
    + rewrite add_gen_sum_zero by (trivial; try apply is_finite_iff; rewrite ?subnormal_mag by lia; lia).
      f_equal. lia.
    + rewrite add_gen_sum by (trivial; try apply is_finite_iff; rewrite ?subnormal_mag by lia; lia).
      rewrite (same_sum_subnormal f Hf) by lia. f_equal. lia.
  - unfold is_pattern. rewrite pow2_succ, pow2_split by lia. pose proof (pow2_pos (fb f)).
    rewrite He. unfold sign_bit. rewrite pow2_split by lia. destruct (f_sign f a); nia.
Qed.

Lemma inf_packF32 s st : fret (f32_of_ui (packToF32UI s 0xFF 0)) st = (with_sign F32 s (inf_mag F32), st).
Proof. now destruct s. Qed.

(** The addition of equal exponents, with its exact shortcut. *)
Lemma same_codeF32 a b s st :
  f_exp F32 a = f_exp F32 b -> 0 < f_exp F32 a < 255 ->
  (if negb (nz (u64 (0x01000000 + f_frac F32 a + f_frac F32 b) .& 1)) && (f_exp F32 a <? 254)
   then fret (f32_of_ui (packToF32UI s (f_exp F32 a) (u64 (0x01000000 + f_frac F32 a + f_frac F32 b) .>> 1)))
   else softfloat_roundPackToF32 s (f_exp F32 a)
          (u64 (u64 (0x01000000 + f_frac F32 a + f_frac F32 b) .<< 6))) st
  = round_result F32 s (f_mag F32 a + f_mag F32 b) (emin F32) st.
Proof.
  intros Heq He. field_facts F32 fmt_ok_F32 a b. change (fb F32) with 23 in *.
  rewrite (uwrap_small 64 (_ + _)) by lia.
  rewrite <- (same_sum_normal F32 fmt_ok_F32 a b st Heq) by lia.
  change (2 ^ (fb F32 + 1)) with 0x01000000. set (z := 0x01000000 + _ + _).
  rewrite (land_mod z 1 1), shiftr_div, Z.pow_1_r by lia. unfold nz. rewrite negb_involutive.
  destruct (Z.eqb_spec (z mod 2) 0) as [Hz|Hz], (Z.ltb_spec (f_exp F32 a) 254); cbn [andb]; cbv iota.
  2-4: rewrite shiftl_mul, uwrap_small, roundPackToF32_correct by lia;
    rewrite <- (round_result_scale F32 s z _ 6) by lia; f_equal; lia.
  pose proof (Z_div_mod_eq_full z 2). set (h := z / 2) in *.
  replace (round_result F32 s z _ st) with (round_result F32 s h (f_exp F32 a + emin F32) st).
  - rewrite packToF32UI_eq by lia. rewrite (round_result_pack F32 fmt_ok_F32) by
      (change (fb F32) with 23; change (inf_mag F32) with (255 * 2 ^ 23); lia).
    unfold fret. rewrite of_ui32; [reflexivity|].
    unfold is_pattern, sign_bit. change (2 ^ (fb F32 + eb F32)) with (2 ^ 31).
    change (2 ^ (fb F32 + eb F32 + 1)) with (2 ^ 32). destruct s; lia.
  - rewrite <- (round_result_scale F32 s h _ 1) by lia. f_equal; lia.
Qed.

Lemma addMagsF32_correct a b st :
  is_pattern F32 a -> is_pattern F32 b -> softfloat_addMagsF32 a b st = ref_addMags F32 a b st.
Proof.
  intros Ha Hb. unfold softfloat_addMagsF32, ref_addMags. cbv zeta.
  rewrite signF32UI_eq, !expF32UI_eq, !fracF32UI_eq by assumption.
  field_facts F32 fmt_ok_F32 a b. pose proof max_exp_F32 as Hmx. change (2 ^ fb F32) with (2 ^ 23) in *.
  pose proof (f_mag_nonneg F32 fmt_ok_F32 a). pose proof (f_mag_nonneg F32 fmt_ok_F32 b).
  rewrite (swrap_small 64 (_ - _)) by lia. rewrite !shl_frac_nz, nz_lor_frac, ?inf_packF32 by lia.
  pose proof (mag_pos F32 a fmt_ok_F32). pose proof (mag_pos F32 b fmt_ok_F32).
  on_nz (f_exp F32 a - f_exp F32 b).
  - destruct (Z.ltb_spec (f_exp F32 a - f_exp F32 b) 0).
    + destruct (Z.eqb_spec (f_exp F32 b) 255).
      * nz_cases; rewrite ?inf_packF32; special_exit fmt_ok_F32 of_ui32 propagateNaNF32UI_eq.
      * rewrite (aligned_codeF32 b a) by lia. rewrite (add_codeF32 b a) by lia.
        rewrite add_gen_sum, Z.add_comm by (try apply is_finite_iff; lia || apply fmt_ok_F32). reflexivity.
    + destruct (Z.eqb_spec (f_exp F32 a) 255);
        [nz_cases; special_exit fmt_ok_F32 of_ui32 propagateNaNF32UI_eq|].
      rewrite (aligned_codeF32 a b) by lia. rewrite (add_codeF32 a b) by lia.
      rewrite add_gen_sum by (try apply is_finite_iff; lia || apply fmt_ok_F32). reflexivity.
  - on_nz (f_exp F32 a).
    + destruct (Z.eqb_spec (f_exp F32 a) 255);
        [nz_cases; special_exit fmt_ok_F32 of_ui32 propagateNaNF32UI_eq|].
      rewrite add_gen_sum by (try apply is_finite_iff; lia || apply fmt_ok_F32).
      apply same_codeF32; lia.
    + destruct (ref_add_subnormal F32 a b st fmt_ok_F32 Ha ltac:(lia) ltac:(lia)) as [Hr Hp].
      unfold ref_addMags in Hr. rewrite Hr. unfold is_pattern in Hp.
      change (fb F32 + eb F32 + 1) with 32 in Hp. unfold fret, f32_of_ui.
      now rewrite (uwrap_small 64), (uwrap_small 32) by lia.
Qed.

Lemma lor_high x k c : 0 <= k -> 0 <= x < 2 ^ k -> c = 2 ^ k -> x .| c = c + x.
Proof.
  intros Hk Hx ->. rewrite <- (Z.lxor_lor x), <- Z.add_nocarry_lxor; [lia| |];
  apply Z.bits_inj'; intros n Hn; rewrite Z.land_spec, Z.bits_0, Z.pow2_bits_eqb by lia;
  destruct (Z.eqb_spec k n) as [<-|]; rewrite ?andb_false_r; trivial;
  (destruct (Z.eq_dec x 0) as [->|]; [now rewrite Z.bits_0|]);
  rewrite Z.bits_above_log2; trivial; try lia; apply Z.log2_lt_pow2; lia.
Qed.

Lemma sub_codeF32 a b s st :
  f_exp F32 b < f_exp F32 a -> f_exp F32 a < 255 ->
  softfloat_normRoundPackToF32 s (s64 (f_exp F32 a - 1))
    (u64 ((u64 (f_frac F32 a .<< 7) .| 0x40000000) - aligned F32 a b 7)) st
  = round_result F32 s (f_mag F32 a - f_mag F32 b) (emin F32) st.
Proof.
  intros Hlt Hfin. field_facts F32 fmt_ok_F32 a b.
  pose proof (aligned_range F32 fmt_ok_F32 a b Hlt 7 ltac:(lia)) as Hr. change (fb F32) with 23 in *.
  rewrite shiftl_mul, (uwrap_small 64 (f_frac F32 a * 2 ^ 7)), (lor_high _ 30) by lia.
  rewrite uwrap_small, swrap_small by lia.
  rewrite <- (diff_diff_exp F32 fmt_ok_F32 a b Hlt Hfin 7 32 ltac:(lia) ltac:(simpl; lia) ltac:(lia)
    softfloat_normRoundPackToF32) by (intros; apply normRoundPackToF32_correct; assumption).
  reflexivity.
Qed.

(** The exact difference of equal exponents. *)
Section SameDiff.
Context (f : fmt) (Hf : fmt_ok f) (a b : Z) (st : fp_state).
Context (packUI : bool -> Z -> Z -> Z) (of_ui countLZ : Z -> Z) (cz : Z).
Hypothesis HpackUI : forall s e m,
  0 <= e <= max_exp f -> 0 <= m <= 2 ^ (fb f + 1) -> e * 2 ^ fb f + m < 2 ^ (fb f + eb f) ->
  of_ui (packUI s e m) = sign_bit f s + e * 2 ^ fb f + m.
Hypothesis HcountLZ : forall d, 0 < d < 2 ^ fb f -> countLZ d - cz = fb f - Z.log2 d.
Hypothesis Hfb : fb f < 62 /\ eb f < 60.
Hypothesis Heq : f_exp f a = f_exp f b.
Hypothesis Hfin : f_exp f a < max_exp f.

Lemma same_diff_code s d :
  0 < d < 2 ^ fb f ->
  (let shiftDist := s8 (countLZ d - cz) in
   let expA := if nz (f_exp f a) then s64 (f_exp f a - 1) else f_exp f a in
   let expZ := s64 (expA - shiftDist) in
   let '(shiftDist, expZ) := if expZ <? 0 then (s8 expA, 0) else (shiftDist, expZ) in
   fret (of_ui (packUI s expZ (s64 (d .<< shiftDist)))) st)
  = round_result f s (d * 2 ^ f_shift f a) (emin f) st.
Proof.
  intros Hd. pose proof (f_exp_range f Hf a). destruct Hf as [Hf1 Hf2].
  pose proof (same_diff f Hf a st Hfin s d (fb f - Z.log2 d) Hd eq_refl) as Hs.
  assert (0 <= Z.log2 d < fb f) by (split; [apply Z.log2_nonneg|apply Z.log2_lt_pow2; lia]).
  pose proof (pow2_le (eb f) 59 ltac:(lia)). pose proof (pow2_le (fb f + 1) 62 ltac:(lia)).
  unfold max_exp in *.
  assert ((if nz (f_exp f a) then s64 (f_exp f a - 1) else f_exp f a) = f_shift f a) as ->.
  { unfold f_shift. destruct (nz (f_exp f a)) eqn:Hnz; rewrite ?nz_true, ?nz_false in Hnz.
    - rewrite swrap_small; lia.
    - lia. }
  rewrite HcountLZ, (swrap_small 8) by lia.
  assert (0 <= f_shift f a < 2 ^ 59) by (unfold f_shift; lia).
  cbv zeta. rewrite (swrap_small 64 (_ - _)) by lia.
  destruct (f_shift f a - (fb f - Z.log2 d) <? 0) eqn:Hc;
    [apply Z.ltb_lt in Hc; rewrite (swrap_small 8) by lia|];
    destruct Hs as (-> & Hsh & He & Hm & Hlt);
    unfold fret; rewrite shiftl_mul, swrap_small by lia; now rewrite HpackUI by lia.
Qed.
End SameDiff.

Lemma pack_of_ui32 s e m :
  0 <= e <= max_exp F32 -> 0 <= m <= 2 ^ (fb F32 + 1) -> e * 2 ^ fb F32 + m < 2 ^ (fb F32 + eb F32) ->
  f32_of_ui (packToF32UI s e m) = sign_bit F32 s + e * 2 ^ fb F32 + m.
Proof.
  apply (pack_of_ui F32 packToF32UI f32_of_ui fmt_ok_F32); intros.
  - now apply packToF32UI_eq.
  - now apply uwrap_small.
Qed.

Lemma clz_diffF32 d : 0 < d < 2 ^ fb F32 -> softfloat_countLeadingZeros32 (u32 d) - 8 = fb F32 - Z.log2 d.
Proof.
  change (fb F32) with 23. intros Hd. rewrite uwrap_small, countLeadingZeros32_spec by lia.
  unfold clz. destruct (Z.eqb_spec d 0); lia.
Qed.

Lemma same_diff_mags f a b :
  fmt_ok f -> f_exp f a = f_exp f b ->
  f_mag f a - f_mag f b = (f_frac f a - f_frac f b) * 2 ^ f_shift f a.
Proof.
  intros Hf Heq. destruct (same_mags f a b Heq) as [-> ->].
  rewrite <- (same_mant_diff f a b Heq). lia.
Qed.

Lemma sameDiffF32 a b st :
  f_exp F32 a = f_exp F32 b -> f_exp F32 a < 255 -> f_frac F32 a - f_frac F32 b <> 0 ->
  (let '(signZ, sigDiff) :=
     if f_frac F32 a - f_frac F32 b <? 0
     then (negb (f_sign F32 a), s64 (- (f_frac F32 a - f_frac F32 b)))
     else (f_sign F32 a, f_frac F32 a - f_frac F32 b) in
   let '(shiftDist, expZ) :=
     if s64 ((if nz (f_exp F32 a) then s64 (f_exp F32 a - 1) else f_exp F32 a)
             - s8 (softfloat_countLeadingZeros32 (u32 sigDiff) - 8)) <? 0
     then (s8 (if nz (f_exp F32 a) then s64 (f_exp F32 a - 1) else f_exp F32 a), 0)
     else (s8 (softfloat_countLeadingZeros32 (u32 sigDiff) - 8),
           s64 ((if nz (f_exp F32 a) then s64 (f_exp F32 a - 1) else f_exp F32 a)
                - s8 (softfloat_countLeadingZeros32 (u32 sigDiff) - 8))) in
   fret (f32_of_ui (packToF32UI signZ expZ (s64 (sigDiff .<< shiftDist))))) st
  = ref_subMags F32 a b st.
Proof.
  intros Heq Hfin Hd. field_facts F32 fmt_ok_F32 a b. change (2 ^ fb F32) with (2 ^ 23) in *.
  pose proof max_exp_F32 as Hmx. pose proof (same_diff_mags F32 a b fmt_ok_F32 Heq) as Hmags.
  pose proof (pow2_pos (f_shift F32 a) ltac:(unfold f_shift; lia)).
  pose proof (fun s d Hd => same_diff_code F32 fmt_ok_F32 a st packToF32UI f32_of_ui
    (fun d => softfloat_countLeadingZeros32 (u32 d)) 8 pack_of_ui32 clz_diffF32
    ltac:(simpl; lia) ltac:(lia) s d Hd) as Hcode. cbv zeta in Hcode.
  unfold ref_subMags. rewrite (swrap_small 64 (- _)) by lia.
  destruct (Z.ltb_spec (f_frac F32 a - f_frac F32 b) 0).
  - rewrite add_gen_diff_neg by (try apply fmt_ok_F32; try apply is_finite_iff; nia).
    replace (f_mag F32 b - f_mag F32 a) with (- (f_frac F32 a - f_frac F32 b) * 2 ^ f_shift F32 a) by lia.
    rewrite <- Hcode by (change (2 ^ fb F32) with (2 ^ 23); lia). now destruct (_ <? 0).
  - rewrite add_gen_diff_pos by (try apply fmt_ok_F32; try apply is_finite_iff; nia).
    rewrite Hmags, <- Hcode by (change (2 ^ fb F32) with (2 ^ 23); lia). now destruct (_ <? 0).
Qed.

Lemma invalid_exitF32 st :
  (softfloat_raiseFlags softfloat_flag_invalid ;; fret (f32_of_ui defaultNaNF32UI)) st
  = (default_nan F32, raise softfloat_flag_invalid st).
Proof. reflexivity. Qed.

Lemma subMagsF32_correct a b st :
  is_pattern F32 a -> is_pattern F32 b -> softfloat_subMagsF32 a b st = ref_subMags F32 a b st.
Proof.
  intros Ha Hb. unfold softfloat_subMagsF32. cbv zeta.
  rewrite signF32UI_eq, !expF32UI_eq, !fracF32UI_eq by assumption.
  field_facts F32 fmt_ok_F32 a b. pose proof max_exp_F32 as Hmx. change (2 ^ fb F32) with (2 ^ 23) in *.
  rewrite (swrap_small 64 (f_exp F32 a - f_exp F32 b)) by lia.
  rewrite (swrap_small 64 (f_frac F32 a - f_frac F32 b)) by lia.
  rewrite !shl_frac_nz, nz_lor_frac by lia.
  on_nz (f_exp F32 a - f_exp F32 b).
  - destruct (Z.ltb_spec (f_exp F32 a - f_exp F32 b) 0).
    + destruct (Z.eqb_spec (f_exp F32 b) 255); unfold ref_subMags.
      * nz_cases; rewrite ?inf_packF32; special_exit fmt_ok_F32 of_ui32 propagateNaNF32UI_eq.
      * rewrite (swrap_small 64 (- _)), (aligned_codeF32 b a), (sub_codeF32 b a) by lia.
        pose proof (aligned_mag_lt F32 fmt_ok_F32 b a ltac:(lia)).
        now rewrite add_gen_diff_neg by (try apply fmt_ok_F32; try apply is_finite_iff; lia).
    + unfold ref_subMags. destruct (Z.eqb_spec (f_exp F32 a) 255);
        [nz_cases; special_exit fmt_ok_F32 of_ui32 propagateNaNF32UI_eq|].
      rewrite (aligned_codeF32 a b), (sub_codeF32 a b) by lia.
      pose proof (aligned_mag_lt F32 fmt_ok_F32 a b ltac:(lia)).
      now rewrite add_gen_diff_pos by (try apply fmt_ok_F32; try apply is_finite_iff; lia).
  - destruct (Z.eqb_spec (f_exp F32 a) 255).
    + unfold ref_subMags.
      nz_cases; rewrite ?invalid_exitF32; special_exit fmt_ok_F32 of_ui32 propagateNaNF32UI_eq.
    + on_nz (f_frac F32 a - f_frac F32 b); [apply sameDiffF32; lia|].
      unfold ref_subMags.
      pose proof (same_diff_mags F32 a b fmt_ok_F32 ltac:(lia)) as Hm. rewrite Hnz0 in Hm.
      rewrite add_gen_diff_zero by (try apply fmt_ok_F32; try apply is_finite_iff; lia).
      unfold fbind, get_roundingMode, fret. now destruct (rm_eqb _ _).
Qed.

(** The sign of an exclusive or tells whether the signs differ. *)
Lemma sign_xor f a b :
  fmt_ok f -> is_pattern f a -> is_pattern f b ->
  is_pattern f (a .^ b) /\ f_sign f (a .^ b) = xorb (f_sign f a) (f_sign f b).
Proof.
  intros [Hf1 Hf2] Ha Hb. unfold is_pattern, f_sign in *. set (n := fb f + eb f) in *.
  assert (Hs : forall x, 0 <= x < 2 ^ (n + 1) -> (2 ^ n <=? x) = Z.testbit x n).
  { intros x Hx. rewrite Z.testbit_odd, shiftr_div by lia. pose proof (pow2_pos n ltac:(lia)).
    rewrite pow2_succ in Hx by lia. destruct (Z.leb_spec (2 ^ n) x).
    - replace (x / 2 ^ n) with 1; [reflexivity|]. apply Z.div_unique with (r := x - 2 ^ n); lia.
    - now rewrite Z.div_small by lia. }
  assert (Hr : 0 <= a .^ b < 2 ^ (n + 1)).
  { split; [apply Z.lxor_nonneg; lia|]. destruct (Z.eq_dec (a .^ b) 0) as [->|]; [apply pow2_pos; lia|].
    apply Z.log2_lt_pow2; [pose proof (proj2 (Z.lxor_nonneg a b)); lia|].
    pose proof (Z.log2_lxor a b ltac:(lia) ltac:(lia)).
    assert (forall x, 0 <= x < 2 ^ (n + 1) -> Z.log2 x < n + 1) as Hl.
    { intros x Hx. destruct (Z.eq_dec x 0) as [->|]; [simpl; lia|]. apply Z.log2_lt_pow2; lia. }
    pose proof (Hl a Ha). pose proof (Hl b Hb). lia. }
  split; [exact Hr|]. rewrite !Hs by assumption. apply Z.lxor_spec.
Qed.

Lemma ref_add_of_signs f a b st :
  (if xorb (f_sign f a) (f_sign f b) then ref_subMags f a b st else ref_addMags f a b st)
  = ieee_add f a b st.
Proof.
  unfold ref_subMags, ref_addMags, ieee_add. rewrite f_val_signed.
  now destruct (f_sign f a), (f_sign f b).
Qed.

Lemma ref_sub_of_signs f a b st :
  (if xorb (f_sign f a) (f_sign f b) then ref_addMags f a b st else ref_subMags f a b st)
  = ieee_sub f a b st.
Proof.
  unfold ref_subMags, ref_addMags, ieee_sub. rewrite f_val_signed, signed_opp.
  now destruct (f_sign f a), (f_sign f b).
Qed.

Lemma f32_add_correct a b st :
  is_pattern F32 a -> is_pattern F32 b -> f32_add a b st = ieee_add F32 a b st.
Proof.
  intros Ha Hb. destruct (sign_xor F32 a b fmt_ok_F32 Ha Hb) as [Hp Hs].
  unfold f32_add. rewrite signF32UI_eq, Hs, <- ref_add_of_signs by assumption.
  destruct (xorb _ _); auto using subMagsF32_correct, addMagsF32_correct.
Qed.

Lemma f32_sub_correct a b st :
  is_pattern F32 a -> is_pattern F32 b -> f32_sub a b st = ieee_sub F32 a b st.
Proof.
  intros Ha Hb. destruct (sign_xor F32 a b fmt_ok_F32 Ha Hb) as [Hp Hs].
  unfold f32_sub. rewrite signF32UI_eq, Hs, <- ref_sub_of_signs by assumption.
  destruct (xorb _ _); auto using subMagsF32_correct, addMagsF32_correct.
Qed.

(** *** Double precision *)

Lemma max_exp_F64 : max_exp F64 = 2047.
Proof. reflexivity. Qed.

Lemma aligned_codeF64 a b k c d :
  f_exp F64 b < f_exp F64 a -> 0 <= k <= 11 -> c = 2 ^ (52 + k) -> d = f_exp F64 a - f_exp F64 b ->
  softfloat_shiftRightJam64
    (u64 (u64 (f_frac F64 b .<< k) + (if nz (f_exp F64 b) then c else u64 (f_frac F64 b .<< k))))
    (u64 d) = aligned F64 a b k.
Proof.
  intros Hlt Hk -> ->. pose proof (aligned_operand_range F64 fmt_ok_F64 b k ltac:(lia)) as Hr.
  pose proof (f_exp_range F64 fmt_ok_F64 a). pose proof (f_exp_range F64 fmt_ok_F64 b).
  pose proof (f_frac_range F64 fmt_ok_F64 b). pose proof (pow2_pos k ltac:(lia)).
  pose proof (pow2_le k 11 ltac:(lia)). pose proof (pow2_le (52 + k + 1) 64 ltac:(lia)).
  change (max_exp F64) with 2047 in *. change (fb F64) with 52 in *.
  rewrite shiftl_mul, (uwrap_small 64 (f_frac F64 b * 2 ^ k)) by nia.
  rewrite (uwrap_small 64 (_ + _)), (uwrap_small 64) by lia.
  apply shiftRightJam64_jam; lia.
Qed.

(** The addition writes the subnormal case as a shift. *)
Lemma aligned_code_shl x e c :
  0 <= x < 2 ^ 62 ->
  (if nz e then u64 (x + c) else u64 (x .<< 1)) = u64 (x + (if nz e then c else x)).
Proof. intros Hx. destruct (nz e); trivial. rewrite shiftl_mul by lia. f_equal. lia. Qed.

Lemma add_codeF64 a b z s st :
  f_exp F64 b < f_exp F64 a -> f_exp F64 a < 2047 ->
  z = 2 ^ 61 + u64 (f_frac F64 a .<< 9) + aligned F64 a b 9 ->
  (if u64 z <? 0x4000000000000000 then softfloat_roundPackToF64 s (s64 (f_exp F64 a - 1)) (u64 (u64 z .<< 1))
   else softfloat_roundPackToF64 s (f_exp F64 a) (u64 z)) st
  = round_result F64 s (f_mag F64 a + f_mag F64 b) (emin F64) st.
Proof.
  intros Hlt Hfin ->. field_facts F64 fmt_ok_F64 a b.
  pose proof (aligned_range F64 fmt_ok_F64 a b Hlt 9 ltac:(lia)) as Hr. change (fb F64) with 52 in *.
  rewrite shiftl_mul, (uwrap_small 64 (f_frac F64 a * 2 ^ 9)) by lia.
  rewrite (uwrap_small 64 (_ + _)), shiftl_mul, (uwrap_small 64), swrap_small by lia.
  rewrite <- (sum_diff_exp F64 fmt_ok_F64 a b Hlt Hfin 10 16 ltac:(lia) ltac:(simpl; lia) ltac:(lia)
    softfloat_roundPackToF64) by (intros; apply roundPackToF64_correct; assumption).
  cbv zeta. change (fb F64 + (10 - 1)) with 61. change (10 - 1) with 9. change (2 ^ (fb F64 + 10)) with 0x4000000000000000.
  now destruct (_ <? _).
Qed.

Lemma inf_packF64 s st : fret (f64_of_ui (packToF64UI s 0x7FF 0)) st = (with_sign F64 s (inf_mag F64), st).
Proof. now destruct s. Qed.

Lemma same_codeF64 a b s st :
  f_exp F64 a = f_exp F64 b -> 0 < f_exp F64 a < 2047 ->
  softfloat_roundPackToF64 s (f_exp F64 a)
    (u64 (u64 (0x0020000000000000 + f_frac F64 a + f_frac F64 b) .<< 9)) st
  = round_result F64 s (f_mag F64 a + f_mag F64 b) (emin F64) st.
Proof.
  intros Heq He. field_facts F64 fmt_ok_F64 a b. change (fb F64) with 52 in *.
  rewrite (uwrap_small 64 (_ + _)) by lia.
  rewrite <- (same_sum_normal F64 fmt_ok_F64 a b st Heq) by lia.
  change (2 ^ (fb F64 + 1)) with 0x0020000000000000. set (z := 0x0020000000000000 + _ + _).
  rewrite shiftl_mul, uwrap_small, roundPackToF64_correct by lia.
  rewrite <- (round_result_scale F64 s z _ 9) by lia. f_equal. lia.
Qed.

Lemma addMagsF64_correct a b st :
  is_pattern F64 a -> is_pattern F64 b -> softfloat_addMagsF64 a b (f_sign F64 a) st = ref_addMags F64 a b st.
Proof.
  intros Ha Hb. unfold softfloat_addMagsF64, ref_addMags. cbv zeta.
  rewrite !expF64UI_eq, !fracF64UI_eq by assumption.
  field_facts F64 fmt_ok_F64 a b. pose proof max_exp_F64 as Hmx. change (2 ^ fb F64) with (2 ^ 52) in *.
  pose proof (f_mag_nonneg F64 fmt_ok_F64 a). pose proof (f_mag_nonneg F64 fmt_ok_F64 b).
  rewrite !aligned_code_shl by (rewrite ?shiftl_mul by lia; rewrite uwrap_small; lia).
  rewrite (swrap_small 64 (_ - _)) by lia. rewrite !shl_frac_nz, nz_lor_frac, ?inf_packF64 by lia.
  pose proof (mag_pos F64 a fmt_ok_F64). pose proof (mag_pos F64 b fmt_ok_F64).
  on_nz (f_exp F64 a - f_exp F64 b).
  - destruct (Z.ltb_spec (f_exp F64 a - f_exp F64 b) 0).
    + destruct (Z.eqb_spec (f_exp F64 b) 2047).
      * nz_cases; rewrite ?inf_packF64; special_exit fmt_ok_F64 of_ui64 propagateNaNF64UI_eq.
      * rewrite (aligned_codeF64 b a) by lia. rewrite (add_codeF64 b a) by lia.
        rewrite add_gen_sum, Z.add_comm by (try apply is_finite_iff; lia || apply fmt_ok_F64). reflexivity.
    + destruct (Z.eqb_spec (f_exp F64 a) 2047);
        [nz_cases; special_exit fmt_ok_F64 of_ui64 propagateNaNF64UI_eq|].
      rewrite (aligned_codeF64 a b) by lia. rewrite (add_codeF64 a b) by lia.
      rewrite add_gen_sum by (try apply is_finite_iff; lia || apply fmt_ok_F64). reflexivity.
  - on_nz (f_exp F64 a).
    + destruct (Z.eqb_spec (f_exp F64 a) 2047);
        [nz_cases; special_exit fmt_ok_F64 of_ui64 propagateNaNF64UI_eq|].
      rewrite add_gen_sum by (try apply is_finite_iff; lia || apply fmt_ok_F64).
      apply same_codeF64; lia.
    + destruct (ref_add_subnormal F64 a b st fmt_ok_F64 Ha ltac:(lia) ltac:(lia)) as [Hr Hp].
      unfold ref_addMags in Hr. rewrite Hr. unfold is_pattern in Hp.
      change (fb F64 + eb F64 + 1) with 64 in Hp. unfold fret, f64_of_ui.
      rewrite (uwrap_small 64 (a + _)), uwrap_small by lia. reflexivity.
Qed.

Lemma sub_codeF64 a b s st :
  f_exp F64 b < f_exp F64 a -> f_exp F64 a < 2047 ->
  softfloat_normRoundPackToF64 s (s64 (f_exp F64 a - 1))
    (u64 ((u64 (f_frac F64 a .<< 10) .| 0x4000000000000000) - aligned F64 a b 10)) st
  = round_result F64 s (f_mag F64 a - f_mag F64 b) (emin F64) st.
Proof.
  intros Hlt Hfin. field_facts F64 fmt_ok_F64 a b.
  pose proof (aligned_range F64 fmt_ok_F64 a b Hlt 10 ltac:(lia)) as Hr. change (fb F64) with 52 in *.
  rewrite shiftl_mul, (uwrap_small 64 (f_frac F64 a * 2 ^ 10)), (lor_high _ 62) by lia.
  rewrite uwrap_small, swrap_small by lia.
  rewrite <- (diff_diff_exp F64 fmt_ok_F64 a b Hlt Hfin 10 16 ltac:(lia) ltac:(simpl; lia) ltac:(lia)
    softfloat_normRoundPackToF64) by (intros; apply normRoundPackToF64_correct; assumption).
  reflexivity.
Qed.

Lemma pack_of_ui64 s e m :
  0 <= e <= max_exp F64 -> 0 <= m <= 2 ^ (fb F64 + 1) -> e * 2 ^ fb F64 + m < 2 ^ (fb F64 + eb F64) ->
  f64_of_ui (packToF64UI s e m) = sign_bit F64 s + e * 2 ^ fb F64 + m.
Proof.
  apply (pack_of_ui F64 packToF64UI f64_of_ui fmt_ok_F64); intros.
  - now apply packToF64UI_eq.
  - now apply uwrap_small.
Qed.

Lemma clz_diffF64 d : 0 < d < 2 ^ fb F64 -> softfloat_countLeadingZeros64 (u64 d) - 11 = fb F64 - Z.log2 d.
Proof.
  change (fb F64) with 52. intros Hd. rewrite uwrap_small, countLeadingZeros64_spec by lia.
  unfold clz. destruct (Z.eqb_spec d 0); lia.
Qed.

Lemma sameDiffF64 a b st :
  f_exp F64 a = f_exp F64 b -> f_exp F64 a < 2047 -> f_frac F64 a - f_frac F64 b <> 0 ->
  (let '(signZ, sigDiff) :=
     if f_frac F64 a - f_frac F64 b <? 0
     then (negb (f_sign F64 a), s64 (- (f_frac F64 a - f_frac F64 b)))
     else (f_sign F64 a, f_frac F64 a - f_frac F64 b) in
   let '(shiftDist, expZ) :=
     if s64 ((if nz (f_exp F64 a) then s64 (f_exp F64 a - 1) else f_exp F64 a)
             - s8 (softfloat_countLeadingZeros64 (u64 sigDiff) - 11)) <? 0
     then (s8 (if nz (f_exp F64 a) then s64 (f_exp F64 a - 1) else f_exp F64 a), 0)
     else (s8 (softfloat_countLeadingZeros64 (u64 sigDiff) - 11),
           s64 ((if nz (f_exp F64 a) then s64 (f_exp F64 a - 1) else f_exp F64 a)
                - s8 (softfloat_countLeadingZeros64 (u64 sigDiff) - 11))) in
   fret (f64_of_ui (packToF64UI signZ expZ (s64 (sigDiff .<< shiftDist))))) st
  = ref_subMags F64 a b st.
Proof.
  intros Heq Hfin Hd. field_facts F64 fmt_ok_F64 a b. change (2 ^ fb F64) with (2 ^ 52) in *.
  pose proof max_exp_F64 as Hmx. pose proof (same_diff_mags F64 a b fmt_ok_F64 Heq) as Hmags.
  pose proof (pow2_pos (f_shift F64 a) ltac:(unfold f_shift; lia)).
  pose proof (fun s d Hd => same_diff_code F64 fmt_ok_F64 a st packToF64UI f64_of_ui
    (fun d => softfloat_countLeadingZeros64 (u64 d)) 11 pack_of_ui64 clz_diffF64
    ltac:(simpl; lia) ltac:(lia) s d Hd) as Hcode. cbv zeta in Hcode.
  unfold ref_subMags. rewrite (swrap_small 64 (- _)) by lia.
  destruct (Z.ltb_spec (f_frac F64 a - f_frac F64 b) 0).
  - rewrite add_gen_diff_neg by (try apply fmt_ok_F64; try apply is_finite_iff; nia).
    replace (f_mag F64 b - f_mag F64 a) with (- (f_frac F64 a - f_frac F64 b) * 2 ^ f_shift F64 a) by lia.
    rewrite <- Hcode by (change (2 ^ fb F64) with (2 ^ 52); lia). now destruct (_ <? 0).
  - rewrite add_gen_diff_pos by (try apply fmt_ok_F64; try apply is_finite_iff; nia).
    rewrite Hmags, <- Hcode by (change (2 ^ fb F64) with (2 ^ 52); lia). now destruct (_ <? 0).
Qed.

Lemma invalid_exitF64 st :
  (softfloat_raiseFlags softfloat_flag_invalid ;; fret (f64_of_ui defaultNaNF64UI)) st
  = (default_nan F64, raise softfloat_flag_invalid st).
Proof. reflexivity. Qed.

Lemma subMagsF64_correct a b st :
  is_pattern F64 a -> is_pattern F64 b -> softfloat_subMagsF64 a b (f_sign F64 a) st = ref_subMags F64 a b st.
Proof.
  intros Ha Hb. unfold softfloat_subMagsF64. cbv zeta.
  rewrite !expF64UI_eq, !fracF64UI_eq by assumption.
  field_facts F64 fmt_ok_F64 a b. pose proof max_exp_F64 as Hmx. change (2 ^ fb F64) with (2 ^ 52) in *.
  rewrite (swrap_small 64 (f_exp F64 a - f_exp F64 b)) by lia.
  rewrite (swrap_small 64 (f_frac F64 a - f_frac F64 b)) by lia.
  rewrite !shl_frac_nz, nz_lor_frac by lia.
  on_nz (f_exp F64 a - f_exp F64 b).
  - destruct (Z.ltb_spec (f_exp F64 a - f_exp F64 b) 0).
    + destruct (Z.eqb_spec (f_exp F64 b) 2047); unfold ref_subMags.
      * nz_cases; rewrite ?inf_packF64; special_exit fmt_ok_F64 of_ui64 propagateNaNF64UI_eq.
      * rewrite (aligned_codeF64 b a), (sub_codeF64 b a) by lia.
        pose proof (aligned_mag_lt F64 fmt_ok_F64 b a ltac:(lia)).
        now rewrite add_gen_diff_neg by (try apply fmt_ok_F64; try apply is_finite_iff; lia).
    + unfold ref_subMags. destruct (Z.eqb_spec (f_exp F64 a) 2047);
        [nz_cases; special_exit fmt_ok_F64 of_ui64 propagateNaNF64UI_eq|].
      rewrite (aligned_codeF64 a b), (sub_codeF64 a b) by lia.
      pose proof (aligned_mag_lt F64 fmt_ok_F64 a b ltac:(lia)).
      now rewrite add_gen_diff_pos by (try apply fmt_ok_F64; try apply is_finite_iff; lia).
  - destruct (Z.eqb_spec (f_exp F64 a) 2047).
    + unfold ref_subMags.
      nz_cases; rewrite ?invalid_exitF64; special_exit fmt_ok_F64 of_ui64 propagateNaNF64UI_eq.
    + on_nz (f_frac F64 a - f_frac F64 b); [apply sameDiffF64; lia|].
      unfold ref_subMags.
      pose proof (same_diff_mags F64 a b fmt_ok_F64 ltac:(lia)) as Hm. rewrite Hnz0 in Hm.
      rewrite add_gen_diff_zero by (try apply fmt_ok_F64; try apply is_finite_iff; lia).
      unfold fbind, get_roundingMode, fret. now destruct (rm_eqb _ _).
Qed.

Lemma f64_add_correct a b st :
  is_pattern F64 a -> is_pattern F64 b -> f64_add a b st = ieee_add F64 a b st.
Proof.
  intros Ha Hb. unfold f64_add. rewrite !signF64UI_eq, <- ref_add_of_signs by assumption.
  pose proof (addMagsF64_correct a b st Ha Hb). pose proof (subMagsF64_correct a b st Ha Hb).
  destruct (f_sign F64 a), (f_sign F64 b); assumption.
Qed.

Lemma f64_sub_correct a b st :
  is_pattern F64 a -> is_pattern F64 b -> f64_sub a b st = ieee_sub F64 a b st.
Proof.
  intros Ha Hb. unfold f64_sub. rewrite !signF64UI_eq, <- ref_sub_of_signs by assumption.
  pose proof (addMagsF64_correct a b st Ha Hb). pose proof (subMagsF64_correct a b st Ha Hb).
  destruct (f_sign F64 a), (f_sign F64 b); assumption.
Qed.
