(* ===== verification/SFAddSub16.v ===== *)
(** * SoftFloat: half-precision addition and subtraction

    The half-precision routines are written differently from the others: the
    exact sum is formed in 32 bits, and operands far apart take the
    [addEpsilon] / [subEpsilon] exits, which nudge the larger operand by one
    unit according to the rounding mode.  They meet the same reference. *)

From Stdlib Require Import ZArith Lia Bool List.
From S2P Require Import Prelude SFBase SFSpec SFRound SFValue SFAddSub.

Definition softfloat_addMagsF16 (uiA uiB : Z) : fp Z :=
  let to_uiZ uiZ := fret (f16_of_ui uiZ) in
  let propagateNaN := uiZ <- softfloat_propagateNaNF16UI uiA uiB ;; to_uiZ uiZ in
  let pack signZ expZ sigZ := to_uiZ (packToF16UI signZ expZ sigZ) in
  let addEpsilon uiZ :=
    roundingMode <- get_roundingMode ;;
    uiZ <- (if negb (rm_eqb roundingMode softfloat_round_near_even) then
              if rm_eqb roundingMode
                   (if signF16UI uiZ then softfloat_round_min else softfloat_round_max) then
                let uiZ := u64 (uiZ + 1) in
                (if u16 (uiZ .<< 1) =? 0xF800
                 then softfloat_raiseFlags (softfloat_flag_overflow .| softfloat_flag_inexact)
                 else fret tt) ;;
                fret uiZ
              else if rm_eqb roundingMode softfloat_round_odd then fret (uiZ .| 1)
              else fret uiZ
            else fret uiZ) ;;
    softfloat_raiseFlags softfloat_flag_inexact ;;
    to_uiZ uiZ in
  let expA := expF16UI uiA in
  let sigA := fracF16UI uiA in
  let expB := expF16UI uiB in
  let sigB := fracF16UI uiB in
  let expDiff := s8 (expA - expB) in
  if negb (nz expDiff) then
    if negb (nz expA) then to_uiZ (u64 (uiA + sigB))
    else if expA =? 0x1F then
      if nz (sigA .| sigB) then propagateNaN else to_uiZ uiA
    else
      let signZ := signF16UI uiA in
      let expZ := expA in
      let sigZ := u64 (0x0800 + sigA + sigB) in
      if negb (nz (sigZ .& 1)) && (expZ <? 0x1E) then pack signZ expZ (sigZ .>> 1)
      else softfloat_roundPackToF16 signZ expZ (u64 (sigZ .<< 3))
  else
    let signZ := signF16UI uiA in
    let add expZ sigX sigY shiftDist :=
      let sig32Z := u64 (u64 (sigX .<< 19) + u64 (sigY .<< shiftDist)) in
      let '(expZ, sig32Z) :=
        if sig32Z <? 0x40000000 then (s8 (expZ - 1), u64 (sig32Z .<< 1)) else (expZ, sig32Z) in
      let sigZ := sig32Z .>> 16 in
      if nz (sig32Z .& 0xFFFF) then softfloat_roundPackToF16 signZ expZ (sigZ .| 1)
      else if negb (nz (sigZ .& 0xF)) && (expZ <? 0x1E) then pack signZ expZ (sigZ .>> 4)
      else softfloat_roundPackToF16 signZ expZ sigZ in
    if expDiff <? 0 then
      if expB =? 0x1F then
        if nz sigB then propagateNaN else to_uiZ (packToF16UI signZ 0x1F 0)
      else if expDiff <=? -13 then
        let uiZ := packToF16UI signZ expB sigB in
        if nz (expA .| sigA) then addEpsilon uiZ else to_uiZ uiZ
      else
        add expB (sigB .| 0x0400) (u64 (sigA + (if nz expA then 0x0400 else sigA)))
            (s8 (19 + expDiff))
    else
      let uiZ := uiA in
      if expA =? 0x1F then
        if nz sigA then propagateNaN else to_uiZ uiZ
      else if 13 <=? expDiff then
        if nz (expB .| sigB) then addEpsilon uiZ else to_uiZ uiZ
      else
        add expA (sigA .| 0x0400) (u64 (sigB + (if nz expB then 0x0400 else sigB)))
            (s8 (19 - expDiff)).

Definition softfloat_subMagsF16 (uiA uiB : Z) : fp Z :=
  let to_uiZ uiZ := fret (f16_of_ui uiZ) in
  let propagateNaN := uiZ <- softfloat_propagateNaNF16UI uiA uiB ;; to_uiZ uiZ in
  let pack signZ expZ sigZ := to_uiZ (packToF16UI signZ expZ sigZ) in
  let subEpsilon uiZ :=
    roundingMode <- get_roundingMode ;;
    let uiZ :=
      if negb (rm_eqb roundingMode softfloat_round_near_even) then
        if rm_eqb roundingMode softfloat_round_minMag
           || rm_eqb roundingMode
                (if signF16UI uiZ then softfloat_round_max else softfloat_round_min)
        then u64 (uiZ - 1)
        else if rm_eqb roundingMode softfloat_round_odd then u64 (uiZ - 1) .| 1
        else uiZ
      else uiZ in
    softfloat_raiseFlags softfloat_flag_inexact ;;
    to_uiZ uiZ in
  let expA := expF16UI uiA in
  let sigA := fracF16UI uiA in
  let expB := expF16UI uiB in
  let sigB := fracF16UI uiB in
  let expDiff := s8 (expA - expB) in
  if negb (nz expDiff) then
    if expA =? 0x1F then
      if nz (sigA .| sigB) then propagateNaN
      else softfloat_raiseFlags softfloat_flag_invalid ;; to_uiZ defaultNaNF16UI
    else
      let sigDiff := s64 (sigA - sigB) in
      if negb (nz sigDiff) then
        rm <- get_roundingMode ;;
        to_uiZ (packToF16UI (rm_eqb rm softfloat_round_min) 0 0)
      else
        let expA := if nz expA then s8 (expA - 1) else expA in
        let signZ := signF16UI uiA in
        let '(signZ, sigDiff) :=
          if sigDiff <? 0 then (negb signZ, s64 (- sigDiff)) else (signZ, sigDiff) in
        let shiftDist := s8 (softfloat_countLeadingZeros16 (u16 sigDiff) - 5) in
        let expZ := s8 (expA - shiftDist) in
        let '(shiftDist, expZ) := if expZ <? 0 then (expA, 0) else (shiftDist, expZ) in
        pack signZ expZ (u64 (sigDiff .<< shiftDist))
  else
    let signZ := signF16UI uiA in
    let sub signZ expZ sigX sigY expDiff :=
      let sig32Z := u64 (u64 (sigX .<< expDiff) - sigY) in
      let shiftDist := s8 (softfloat_countLeadingZeros32 (u32 sig32Z) - 1) in
      let sig32Z := u64 (sig32Z .<< shiftDist) in
      let expZ := s8 (expZ - shiftDist) in
      let sigZ := sig32Z .>> 16 in
      if nz (sig32Z .& 0xFFFF) then softfloat_roundPackToF16 signZ expZ (sigZ .| 1)
      else if negb (nz (sigZ .& 0xF)) && (u32 expZ <? 0x1E) then pack signZ expZ (sigZ .>> 4)
      else softfloat_roundPackToF16 signZ expZ sigZ in
    if expDiff <? 0 then
      let signZ := negb signZ in
      if expB =? 0x1F then
        if nz sigB then propagateNaN else to_uiZ (packToF16UI signZ 0x1F 0)
      else if expDiff <=? -13 then
        let uiZ := packToF16UI signZ expB sigB in
        if nz (expA .| sigA) then subEpsilon uiZ else to_uiZ uiZ
      else
        sub signZ (s8 (expA + 19)) (sigB .| 0x0400)
            (u64 (sigA + (if nz expA then 0x0400 else sigA))) (s8 (- expDiff))
    else
      let uiZ := uiA in
      if expA =? 0x1F then
        if nz sigA then propagateNaN else to_uiZ uiZ
      else if 13 <=? expDiff then
        if nz (expB .| sigB) then subEpsilon uiZ else to_uiZ uiZ
      else
        sub signZ (s8 (expB + 19)) (sigA .| 0x0400)
            (u64 (sigB + (if nz expB then 0x0400 else sigB))) expDiff.

Definition f16_add (a b : Z) : fp Z :=
  let uiA := a in
  let uiB := b in
  if signF16UI (uiA .^ uiB) then softfloat_subMagsF16 uiA uiB
  else softfloat_addMagsF16 uiA uiB.

Definition f16_sub (a b : Z) : fp Z :=
  let uiA := a in
  let uiB := b in
  if signF16UI (uiA .^ uiB) then softfloat_addMagsF16 uiA uiB
  else softfloat_subMagsF16 uiA uiB.

(** ** Nudging the larger operand *)

Section Epsilon.
Context (f : fmt) (Hf : fmt_ok f) (a b : Z) (s : bool) (st : fp_state).
Hypothesis Ha : 1 < f_exp f a < max_exp f.
Hypothesis Hlt : f_exp f b < f_exp f a.
Hypothesis Hb : 0 < f_mant f b.
Notation D := (f_shift f a - f_shift f b).
Hypothesis Hsmall : 4 * f_mant f b < 2 ^ D.
Notation rm := (softfloat_roundingMode st).
Notation mA := (f_mant f a).
Notation mB := (f_mant f b).
Notation E := (f_shift f b + emin f).
Notation maga := (f_exp f a * 2 ^ fb f + f_frac f a).

Lemma eps_facts :
  0 <= D /\ f_shift f a = f_exp f a - 1 /\ 0 <= f_shift f b /\ 2 ^ fb f <= mA < 2 ^ (fb f + 1)
  /\ maga = f_shift f a * 2 ^ fb f + mA /\ 0 < 2 ^ fb f.
Proof.
  pose proof (aligned_shift f Hf a b Hlt) as (HD & Hs & Hsb).
  pose proof (larger_mant f Hf a b Hlt) as (Hm & HmA). destruct Hf.
  pose proof (pow2_pos (fb f)). repeat split; try lia.
Qed.

Lemma round_not_tiny M :
  2 ^ (fb f + 1) <= M -> emin f + fb f <= Z.log2 M + E -> is_tiny f st s M E = false.
Proof.
  intros HM HE. destruct eps_facts as (_ & _ & _ & _ & _ & Hp). destruct Hf.
  unfold is_tiny. destruct (softfloat_detectTininess st); apply Z.ltb_ge; [lia|].
  rewrite pow2_succ in HM by lia. pose proof (Z.log2_spec M ltac:(lia)) as [Hl Hu].
  assert (fb f + 1 <= Z.log2 M) by (apply Z.log2_le_pow2; [lia|]; rewrite pow2_succ; lia).
  set (e := Z.log2 M + E - fb f). assert (fb f <= Z.log2 (round_shift rm s M (e - E))); [|lia].
  assert (2 ^ fb f <= round_shift rm s M (e - E)).
  { unfold round_shift, e. destruct (Z.leb_spec (Z.log2 M + E - fb f - E) 0); [lia|].
    assert (2 ^ fb f <= M / 2 ^ (Z.log2 M + E - fb f - E)).
    { apply Z.div_le_lower_bound; [apply pow2_pos; lia|]. rewrite <- pow2_split by lia.
      replace (Z.log2 M + E - fb f - E + fb f) with (Z.log2 M) by lia. lia. }
    destruct (round_up _ _ _ _ _); simpl; lia. }
  apply Z.log2_le_pow2; lia.
Qed.

Lemma add_epsilon_mag :
  let up := b2z (round_up rm s (Z.odd mA) false Lt) in
  round_mag f rm s (mA * 2 ^ D + mB) E = maga + up /\
  round_flags f st s (mA * 2 ^ D + mB) E = softfloat_flag_inexact.
Proof.
  intros up. destruct eps_facts as (HD & Hs & Hsb & HmA & Hmag & Hp). destruct Hf as [Hf1 Hf2].
  pose proof (pow2_pos D HD) as HP. set (M := mA * 2 ^ D + mB).
  assert (2 ^ (fb f + D) <= M < 2 ^ (fb f + D + 1)) as HM.
  { replace (fb f + D + 1) with (fb f + 1 + D) by lia. rewrite !(pow2_split _ D) by lia.
    assert (2 ^ fb f * 2 ^ D <= mA * 2 ^ D) by (apply Z.mul_le_mono_nonneg_r; lia).
    assert ((mA + 1) * 2 ^ D <= 2 ^ (fb f + 1) * 2 ^ D) by (apply Z.mul_le_mono_nonneg_r; lia).
    unfold M. lia. }
  assert (Z.log2 M = fb f + D) as Hl by (apply Z.log2_unique; [lia|]; unfold Z.succ; lia).
  assert (0 < D).
  { destruct (Z.eq_dec D 0) as [H0|]; [|lia]. rewrite H0 in Hsmall. simpl in Hsmall. lia. }
  assert (Hu : ulp_exp f M E = D + E) by (unfold ulp_exp; rewrite Hl; lia).
  assert (Hq : M / 2 ^ D = mA) by (symmetry; apply Z.div_unique with (r := mB); unfold M; lia).
  assert (Hr : M mod 2 ^ D = mB) by (symmetry; apply Z.mod_unique with (q := mA); unfold M; lia).
  split.
  - unfold round_mag. rewrite Hu. replace (D + E - E) with D by lia. unfold round_shift.
    destruct (Z.leb_spec D 0); [lia|]. rewrite Hq, Hr.
    replace (2 * mB ?= 2 ^ D) with Lt by (symmetry; apply Z.compare_lt_iff; lia).
    replace (mB =? 0) with false by (symmetry; apply Z.eqb_neq; lia). fold up. lia.
  - unfold round_flags. rewrite Hu. replace (D + E - E) with D by lia.
    unfold cut_exact. rewrite Hr. replace (D <=? 0) with false by (symmetry; apply Z.leb_gt; lia).
    replace (mB =? 0) with false by (symmetry; apply Z.eqb_neq; lia). simpl.
    rewrite round_not_tiny; trivial; [|lia].
    pose proof (pow2_le (fb f + 1) (fb f + D) ltac:(lia)). lia.
Qed.

Lemma sub_epsilon_mag :
  let up := b2z (round_up rm s (Z.odd (mA - 1)) false Gt) in
  round_mag f rm s (mA * 2 ^ D - mB) E = maga - 1 + up /\
  round_flags f st s (mA * 2 ^ D - mB) E = softfloat_flag_inexact.
Proof.
  intros up. destruct eps_facts as (HD & Hs & Hsb & HmA & Hmag & Hp). destruct Hf as [Hf1 Hf2].
  assert (2 <= D).
  { destruct (Z_le_gt_dec 2 D); trivial. pose proof (pow2_le D 1 ltac:(lia)). change (2 ^ 1) with 2 in *. lia. }
  set (M := mA * 2 ^ D - mB). rewrite pow2_succ in HmA by lia.
  pose proof (pow2_pred D ltac:(lia)) as HDp. pose proof (pow2_pos (D - 1) ltac:(lia)) as HP.
  (* the quotient, the remainder and the parity at the last place [c] *)
  assert (exists k q r, 1 <= k <= D /\ Z.log2 M = fb f + k /\ M / 2 ^ k = q /\ M mod 2 ^ k = r
      /\ 0 < r < 2 ^ k /\ 2 ^ k < 2 * r /\ Z.odd q = Z.odd (mA - 1)
      /\ (k + E - emin f) * 2 ^ fb f + q = maga - 1
      /\ 2 ^ (fb f + k) <= M) as (k & q & r & Hk & Hl & Hq & Hr & Hr0 & Hr2 & Hodd & Hv & HM).
  { destruct (Z.eq_dec mA (2 ^ fb f)) as [Hpow|Hnp].
    - exists (D - 1), (2 * 2 ^ fb f - 1), (2 ^ (D - 1) - mB).
      assert (HMl : 2 ^ (fb f + (D - 1)) <= M < 2 ^ (fb f + (D - 1) + 1)).
      { replace (fb f + (D - 1) + 1) with (fb f + D) by lia. rewrite !pow2_split by lia.
        unfold M. rewrite Hpow. nia. }
      repeat split; try lia.
      + apply Z.log2_unique; [lia|]. unfold Z.succ. lia.
      + symmetry. apply Z.div_unique with (r := 2 ^ (D - 1) - mB); [lia|]. unfold M. rewrite Hpow, HDp. ring.
      + symmetry. apply Z.mod_unique with (q := 2 * 2 ^ fb f - 1); [lia|]. unfold M. rewrite Hpow, HDp. ring.
      + rewrite Hpow, !Z.odd_sub, Z.odd_mul, (Z.odd_pow 2 (fb f)) by lia. reflexivity.
    - exists D, (mA - 1), (2 ^ D - mB).
      assert (HMl : 2 ^ (fb f + D) <= M < 2 ^ (fb f + D + 1)).
      { rewrite pow2_succ, !pow2_split by lia. unfold M. nia. }
      repeat split; try lia.
      + apply Z.log2_unique; [lia|]. unfold Z.succ. lia.
      + symmetry. apply Z.div_unique with (r := 2 ^ D - mB); [lia|]. unfold M. ring.
      + symmetry. apply Z.mod_unique with (q := mA - 1); [lia|]. unfold M. ring. }
  assert (Hu : ulp_exp f M E = k + E).
  { unfold ulp_exp. rewrite Hl. destruct (Z_le_gt_dec 0 (k + E - emin f)); [lia|].
    exfalso. assert ((k + E - emin f) * 2 ^ fb f <= - 2 ^ fb f) by nia.
    assert (q < 2 * 2 ^ fb f).
    { rewrite <- Hq. apply Z.div_lt_upper_bound; [lia|].
      pose proof (Z.log2_spec M ltac:(lia)) as [_ Hu']. rewrite Hl in Hu'. unfold Z.succ in Hu'.
      replace (fb f + k + 1) with (k + (fb f + 1)) in Hu' by lia.
      rewrite pow2_split, pow2_succ in Hu' by lia. lia. }
    nia. }
  split.
  - unfold round_mag. rewrite Hu. replace (k + E - E) with k by lia. unfold round_shift.
    destruct (Z.leb_spec k 0); [lia|]. rewrite Hq, Hr, Hodd.
    replace (2 * r ?= 2 ^ k) with Gt by (symmetry; apply Z.compare_gt_iff; lia).
    replace (r =? 0) with false by (symmetry; apply Z.eqb_neq; lia). fold up. lia.
  - unfold round_flags. rewrite Hu. replace (k + E - E) with k by lia.
    unfold cut_exact. rewrite Hr. replace (k <=? 0) with false by (symmetry; apply Z.leb_gt; lia).
    replace (r =? 0) with false by (symmetry; apply Z.eqb_neq; lia). simpl.
    rewrite round_not_tiny; trivial.
    + pose proof (pow2_le (fb f + 1) (fb f + k) ltac:(lia)). lia.
    + unfold ulp_exp in Hu. lia.
Qed.
End Epsilon.

(** ** The shared exits *)

Lemma of_ui16 x : is_pattern F16 x -> f16_of_ui x = x.
Proof. apply uwrap_small. Qed.

Lemma max_exp_F16 : max_exp F16 = 31.
Proof. reflexivity. Qed.

Lemma pack_of_ui16 s e m :
  0 <= e <= max_exp F16 -> 0 <= m <= 2 ^ (fb F16 + 1) -> e * 2 ^ fb F16 + m < 2 ^ (fb F16 + eb F16) ->
  f16_of_ui (packToF16UI s e m) = sign_bit F16 s + e * 2 ^ fb F16 + m.
Proof.
  apply (pack_of_ui F16 packToF16UI f16_of_ui fmt_ok_F16); intros.
  - now apply packToF16UI_eq.
  - now apply uwrap_small.
Qed.

Lemma inf_packF16 s st : fret (f16_of_ui (packToF16UI s 0x1F 0)) st = (with_sign F16 s (inf_mag F16), st).
Proof. now destruct s. Qed.

Lemma invalid_exitF16 st :
  (softfloat_raiseFlags softfloat_flag_invalid ;; fret (f16_of_ui defaultNaNF16UI)) st
  = (default_nan F16, raise softfloat_flag_invalid st).
Proof. reflexivity. Qed.

(** A normalised 31-bit sum is cut to 15 bits with a sticky bit, or packed when exact. *)
Lemma finish32 (test : bool) s e z st :
  2 ^ 30 <= z < 2 ^ 31 -> - 128 <= e < 128 -> (test = true -> 0 <= e < 0x1E) ->
  (if nz (z .& 0xFFFF) then softfloat_roundPackToF16 s e ((z .>> 16) .| 1)
   else if negb (nz ((z .>> 16) .& 0xF)) && test
        then fret (f16_of_ui (packToF16UI s e ((z .>> 16) .>> 4)))
        else softfloat_roundPackToF16 s e (z .>> 16)) st
  = round_result F16 s z (e - 20 + emin F16) st.
Proof.
  intros Hz He Htest. rewrite (land_mod z _ 16), shiftr_div by lia.
  assert (2 ^ 14 <= z / 2 ^ 16 < 2 ^ 15) as Hq
    by (split; [apply Z.div_le_lower_bound|apply Z.div_lt_upper_bound]; lia).
  assert (Hjam : round_result F16 s (jam z 16) (e - 4 + emin F16) st
                 = round_result F16 s z (e - 20 + emin F16) st).
  { rewrite <- (round_result_jam F16 s z _ 16) by (simpl; lia). f_equal. lia. }
  unfold nz at 1. destruct (Z.eqb_spec (z mod 2 ^ 16) 0) as [H0|H0]; cbn [negb]; cbv iota.
  - rewrite jam_exact in Hjam by lia.
    destruct (negb _ && test) eqn:Hc; [|rewrite <- Hjam; apply roundPackToF16_correct; lia].
    apply andb_prop in Hc as [Hd Ht]. specialize (Htest Ht).
    rewrite (land_mod _ 0xF 4) in Hd by lia. apply negb_true_iff, nz_false in Hd.
    rewrite shiftr_div by lia. set (q := z / 2 ^ 16) in *. rewrite <- Hjam.
    pose proof (Z_div_mod_eq_full q (2 ^ 4)). set (m := q / 2 ^ 4) in *.
    unfold fret. rewrite pack_of_ui16 by
      (change (max_exp F16) with 31; change (fb F16) with 10; change (eb F16) with 5; lia).
    rewrite <- (round_result_pack F16 fmt_ok_F16) by
      (change (fb F16) with 10; change (inf_mag F16) with (31 * 2 ^ 10); lia).
    rewrite <- (round_result_scale F16 s m _ 4) by lia. f_equal; lia.
  - rewrite <- Hjam, roundPackToF16_correct; try lia.
    + unfold jam. replace (z mod 2 ^ 16 =? 0) with false by (symmetry; now apply Z.eqb_neq). reflexivity.
    + change 1 with (b2z true). rewrite lor_b2z by lia. simpl.
      pose proof (Z.div2_odd (z / 2 ^ 16)) as Ho. rewrite <- Z.negb_odd. destruct (Z.odd (z / 2 ^ 16)); simpl in *; lia.
Qed.

(** The smaller operand as the half-precision code forms it. *)
Lemma small_operandF16 b :
  let y := u64 (f_frac F16 b + (if nz (f_exp F16 b) then 0x0400 else f_frac F16 b)) in
  y = f_mant F16 b * 2 ^ (1 - Z.min (f_exp F16 b) 1) /\ f_shift F16 b = f_exp F16 b - Z.min (f_exp F16 b) 1.
Proof.
  intros y. pose proof (f_frac_range F16 fmt_ok_F16 b). pose proof (f_exp_range F16 fmt_ok_F16 b).
  change (2 ^ fb F16) with 0x0400 in *. change (max_exp F16) with 31 in *.
  split; [|unfold f_shift; lia]. unfold y. rewrite uwrap_small by (destruct (nz _); lia).
  unfold f_mant, nz. destruct (Z.eqb_spec (f_exp F16 b) 0) as [->|]; cbn [negb]; cbv iota.
  - change (1 - Z.min 0 1) with 1. lia.
  - rewrite Z.min_r by lia. change (2 ^ fb F16) with 0x0400. change (2 ^ (1 - 1)) with 1. lia.
Qed.

Lemma large_operandF16 a : f_exp F16 a <> 0 -> f_frac F16 a .| 0x0400 = f_mant F16 a.
Proof.
  intros He. pose proof (f_frac_range F16 fmt_ok_F16 a). change (fb F16) with 10 in *.
  rewrite (lor_high _ 10) by lia. unfold f_mant. destruct (Z.eqb_spec (f_exp F16 a) 0); [lia|reflexivity].
Qed.

(** Addition of operands less than 13 binades apart. *)
Lemma add_codeF16 a b s d st :
  f_exp F16 b < f_exp F16 a -> f_exp F16 a < 31 -> d = 19 - (f_exp F16 a - f_exp F16 b) -> 7 <= d ->
  (let sig32Z := u64 (u64 ((f_frac F16 a .| 0x0400) .<< 19)
      + u64 (u64 (f_frac F16 b + (if nz (f_exp F16 b) then 0x0400 else f_frac F16 b)) .<< d)) in
   let '(expZ, sig32Z) :=
     if sig32Z <? 0x40000000 then (s8 (f_exp F16 a - 1), u64 (sig32Z .<< 1))
     else (f_exp F16 a, sig32Z) in
   if nz (sig32Z .& 0xFFFF) then softfloat_roundPackToF16 s expZ ((sig32Z .>> 16) .| 1)
   else if negb (nz ((sig32Z .>> 16) .& 0xF)) && (expZ <? 0x1E)
        then fret (f16_of_ui (packToF16UI s expZ ((sig32Z .>> 16) .>> 4)))
        else softfloat_roundPackToF16 s expZ (sig32Z .>> 16)) st
  = round_result F16 s (f_mag F16 a + f_mag F16 b) (emin F16) st.
Proof.
  intros Hlt Hfin Hd Hd7. pose proof (f_exp_range F16 fmt_ok_F16 b).
  destruct (small_operandF16 b) as [-> Hsb]. rewrite large_operandF16 by lia. cbv zeta.
  pose proof (aligned_shift F16 fmt_ok_F16 a b Hlt) as (HD & Hsa & Hsb0).
  pose proof (larger_mant F16 fmt_ok_F16 a b Hlt) as [_ HmA]. pose proof (f_mant_range F16 fmt_ok_F16 b) as HmB.
  change (fb F16) with 10 in *. rewrite <- (aligned_sum F16 fmt_ok_F16 a b Hlt).
  set (D := f_shift F16 a - f_shift F16 b) in *.
  set (mA := f_mant F16 a) in *. set (mB := f_mant F16 b) in *.
  rewrite !shiftl_mul by lia. rewrite <- (Z.mul_assoc mB), <- pow2_split by lia.
  replace (1 - Z.min (f_exp F16 b) 1 + d) with (19 - D) by lia.
  assert (HD12 : 0 <= D <= 12) by lia.
  assert (mB * 2 ^ (19 - D) < 2 ^ 11 * 2 ^ 19).
  { pose proof (pow2_le (19 - D) 19 ltac:(lia)). nia. }
  assert (HmBs : mB * 2 ^ (19 - D) < 2 ^ 30).
  { destruct (Z.eq_dec D 0) as [HD0|].
    - rewrite HD0. unfold mB, D in *. assert (f_exp F16 b = 0) as Hb0 by lia. unfold f_mant. rewrite Hb0.
      pose proof (f_frac_range F16 fmt_ok_F16 b). change (2 ^ fb F16) with (2 ^ 10) in *. change (0 =? 0) with true. cbv iota. change (2 ^ (19 - 0)) with (2 ^ 19). lia.
    - pose proof (pow2_le (19 - D) 18 ltac:(lia)). pose proof (pow2_pos (19 - D)). nia. }
  pose proof (pow2_pos (19 - D) ltac:(lia)). assert (0 <= mB * 2 ^ (19 - D)) by nia.
  rewrite (uwrap_small 64 (mA * 2 ^ 19)), (uwrap_small 64 (mB * _)), (uwrap_small 64 (_ + _)) by lia.
  assert (Hz : mA * 2 ^ 19 + mB * 2 ^ (19 - D) = (mA * 2 ^ D + mB) * 2 ^ (19 - D)).
  { rewrite Z.mul_add_distr_r, <- Z.mul_assoc, <- pow2_split by lia. do 2 f_equal. f_equal. lia. }
  set (z := mA * 2 ^ 19 + mB * 2 ^ (19 - D)) in *.
  assert (2 ^ 29 <= z < 2 ^ 31) by lia.
  rewrite (uwrap_small 64), (swrap_small 8) by lia.
  transitivity (round_result F16 s z (f_exp F16 a - 20 + emin F16) st).
  - destruct (Z.ltb_spec z 0x40000000).
    + rewrite finish32 by lia.
      rewrite <- (round_result_scale F16 s z _ 1) by lia. f_equal. lia.
    + rewrite finish32 by lia. reflexivity.
  - rewrite Hz. rewrite <- (round_result_scale F16 s (mA * 2 ^ D + mB) _ (19 - D)) by
      (try lia; pose proof (pow2_pos D); nia). f_equal. lia.
Qed.

(** Subtraction of operands less than 13 binades apart. *)
Lemma sub_codeF16 a b s d st :
  f_exp F16 b < f_exp F16 a -> f_exp F16 a < 31 -> d = f_exp F16 a - f_exp F16 b -> d <= 12 ->
  (let sig32Z := u64 (u64 ((f_frac F16 a .| 0x0400) .<< d)
      - u64 (f_frac F16 b + (if nz (f_exp F16 b) then 0x0400 else f_frac F16 b))) in
   let shiftDist := s8 (softfloat_countLeadingZeros32 (u32 sig32Z) - 1) in
   let sig32Z := u64 (sig32Z .<< shiftDist) in
   let expZ := s8 (s8 (f_exp F16 b + 19) - shiftDist) in
   if nz (sig32Z .& 0xFFFF) then softfloat_roundPackToF16 s expZ ((sig32Z .>> 16) .| 1)
   else if negb (nz ((sig32Z .>> 16) .& 0xF)) && (u32 expZ <? 0x1E)
        then fret (f16_of_ui (packToF16UI s expZ ((sig32Z .>> 16) .>> 4)))
        else softfloat_roundPackToF16 s expZ (sig32Z .>> 16)) st
  = round_result F16 s (f_mag F16 a - f_mag F16 b) (emin F16) st.
Proof.
  intros Hlt Hfin Hd Hd12. pose proof (f_exp_range F16 fmt_ok_F16 b).
  destruct (small_operandF16 b) as [-> Hsb]. rewrite large_operandF16 by lia. cbv zeta.
  pose proof (aligned_shift F16 fmt_ok_F16 a b Hlt) as (HD & Hsa & Hsb0).
  pose proof (larger_mant F16 fmt_ok_F16 a b Hlt) as [_ HmA]. pose proof (f_mant_range F16 fmt_ok_F16 b) as HmB.
  pose proof (aligned_lt F16 fmt_ok_F16 a b Hlt) as Hal.
  change (fb F16) with 10 in *. rewrite <- (aligned_diff F16 fmt_ok_F16 a b Hlt).
  set (D := f_shift F16 a - f_shift F16 b) in *.
  set (mA := f_mant F16 a) in *. set (mB := f_mant F16 b) in *.
  set (j := 1 - Z.min (f_exp F16 b) 1) in *.
  assert (Hj : 0 <= j <= 1) by (unfold j; lia). assert (HdD : d = D + j) by (unfold D, j; lia).
  pose proof (pow2_le D 12 ltac:(lia)). pose proof (pow2_le j 1 ltac:(lia)). pose proof (pow2_pos D HD).
  pose proof (pow2_pos j ltac:(lia)). change (2 ^ 1) with 2 in *.
  rewrite (shiftl_mul mA), HdD, pow2_split, Z.mul_assoc by lia.
  assert (mA * 2 ^ D <= 2 ^ 11 * 2 ^ 12) by (apply Z.mul_le_mono_nonneg; lia).
  set (M := mA * 2 ^ D - mB) in *.
  assert (Hz : mA * 2 ^ D * 2 ^ j - mB * 2 ^ j = M * 2 ^ j) by (unfold M; ring).
  assert (0 < M * 2 ^ j < 2 ^ 31) by nia.
  rewrite (uwrap_small 64 (mA * 2 ^ D * 2 ^ j)) by nia. rewrite Hz, (uwrap_small 64 (M * 2 ^ j)) by lia.
  rewrite (uwrap_small 32 (M * 2 ^ j)), countLeadingZeros32_spec by lia.
  pose proof (clz_normalizes 32 (M * 2 ^ j) ltac:(simpl; lia) ltac:(lia)) as (Hc & Hn & _).
  set (sh := clz 32 (M * 2 ^ j) - 1) in *. change (32 - 2) with 30 in Hn. change (32 - 1) with 31 in Hn.
  rewrite (swrap_small 8 sh), shiftl_mul, (uwrap_small 64), (swrap_small 8 (_ + 19)), swrap_small by lia.
  rewrite finish32.
  - transitivity (round_result F16 s (M * 2 ^ j) (f_exp F16 b - 1 + emin F16) st).
    + rewrite <- (round_result_scale F16 s (M * 2 ^ j) _ sh) by lia. f_equal. lia.
    + rewrite <- (round_result_scale F16 s M _ j) by lia. f_equal. unfold D, j in *. lia.
  - lia.
  - lia.
  - intros Ht. apply Z.ltb_lt in Ht. destruct (Z_lt_le_dec (f_exp F16 b + 19 - sh) 0).
    + replace (u32 (f_exp F16 b + 19 - sh)) with (f_exp F16 b + 19 - sh + 2 ^ 32) in Ht
        by (apply Z.mod_unique with (q := -1); lia). lia.
    + rewrite uwrap_small in Ht by lia. lia.
Qed.

(** ** Operands 13 binades apart or more *)

Section FarApart.
Variables (a b : Z) (s : bool) (st : fp_state).
Hypothesis Hfar : 13 <= f_exp F16 a - f_exp F16 b.
Hypothesis Hfin : f_exp F16 a < 31.
Notation X := (f_exp F16 a * 2 ^ 10 + f_frac F16 a).
Notation uiZ := (sign_bit F16 s + X).
Notation rm := (softfloat_roundingMode st).

Lemma far_small : 4 * f_mant F16 b < 2 ^ (f_shift F16 a - f_shift F16 b).
Proof.
  field_facts F16 fmt_ok_F16 a b. pose proof (f_mant_range F16 fmt_ok_F16 b).
  change (max_exp F16) with 31 in *. change (fb F16) with 10 in *. unfold f_shift, f_mant in *.
  destruct (Z.eqb_spec (f_exp F16 b) 0) as [Hz|].
  - pose proof (pow2_le 12 (Z.max (f_exp F16 a) 1 - 1 - (Z.max (f_exp F16 b) 1 - 1)) ltac:(lia)). lia.
  - pose proof (pow2_le 13 (Z.max (f_exp F16 a) 1 - 1 - (Z.max (f_exp F16 b) 1 - 1)) ltac:(lia)). lia.
Qed.

Lemma far_mant_pos : f_mag F16 b <> 0 -> 0 < f_mant F16 b.
Proof.
  intros Hb. pose proof (f_mant_range F16 fmt_ok_F16 b). unfold f_mag in Hb.
  destruct (Z.eq_dec (f_mant F16 b) 0) as [H0|]; [rewrite H0 in Hb; lia|lia].
Qed.

Lemma far_range : 13 * 2 ^ 10 <= X < 31 * 2 ^ 10 /\ is_pattern F16 uiZ /\ f_sign F16 uiZ = s.
Proof.
  field_facts F16 fmt_ok_F16 a b.
  pose proof (fields_pattern F16 fmt_ok_F16 s (f_exp F16 a) (f_frac F16 a)) as Hp.
  cbv zeta in Hp. change (fb F16) with 10 in *. change (max_exp F16) with 31 in *.
  rewrite Z.add_assoc. destruct Hp as (Hp & Hs & _); [lia|lia|]. repeat split; trivial; try apply Hp; lia.
Qed.

Lemma odd_frac : Z.odd (f_mant F16 a) = Z.odd uiZ /\ Z.odd (f_mant F16 a - 1) = negb (Z.odd uiZ).
Proof.
  pose proof (f_exp_range F16 fmt_ok_F16 b).
  assert (Z.odd (f_mant F16 a) = Z.odd uiZ) as Ho.
  { unfold f_mant. destruct (Z.eqb_spec (f_exp F16 a) 0); [lia|].
    change (2 ^ fb F16) with 1024. unfold sign_bit. rewrite !Z.odd_add, Z.odd_mul.
    change (Z.odd (2 ^ 10)) with false. rewrite andb_false_r.
    destruct s; [change (Z.odd (2 ^ (fb F16 + eb F16))) with false|];
      change (Z.odd 1024) with false; now rewrite ?xorb_false_l. }
  split; [exact Ho|]. rewrite Z.odd_sub, Ho. now destruct (Z.odd uiZ).
Qed.

Lemma far_exp : 1 < f_exp F16 a < max_exp F16 /\ f_exp F16 b < f_exp F16 a.
Proof. pose proof (f_exp_range F16 fmt_ok_F16 b). change (max_exp F16) with 31 in *. lia. Qed.

Hypothesis Hb : f_mag F16 b <> 0.

(** What the reference delivers for the sum ... *)
Lemma far_sum :
  round_result F16 s (f_mag F16 a + f_mag F16 b) (emin F16) st
  = let up := b2z (round_up rm s (Z.odd uiZ) false Lt) in
    if 31 * 2 ^ 10 <=? X + up
    then (sign_bit F16 s + (if overflow_to_inf rm s then 31 * 2 ^ 10 else 31 * 2 ^ 10 - 1),
          raise (softfloat_flag_overflow .| softfloat_flag_inexact) st)
    else (uiZ + up, raise softfloat_flag_inexact st).
Proof.
  destruct far_exp as [He Hlt]. destruct odd_frac as [Ho _].
  rewrite <- (aligned_sum F16 fmt_ok_F16 a b Hlt).
  destruct (add_epsilon_mag F16 fmt_ok_F16 a b s st He Hlt (far_mant_pos Hb) far_small) as [Hm Hfl].
  destruct (aligned_shift F16 fmt_ok_F16 a b Hlt) as (_ & Hs & _).
  replace (f_exp F16 a - 1 - (f_shift F16 a - f_shift F16 b)) with (f_shift F16 b) by lia.
  unfold round_result. rewrite Hm, Hfl, Ho. change (fb F16) with 10. change (inf_mag F16) with (31 * 2 ^ 10).
  cbv zeta. destruct (_ <=? _); [reflexivity|]. f_equal. lia.
Qed.

(** ... and for the difference. *)
Lemma far_diff :
  round_result F16 s (f_mag F16 a - f_mag F16 b) (emin F16) st
  = (uiZ - 1 + b2z (round_up rm s (negb (Z.odd uiZ)) false Gt), raise softfloat_flag_inexact st).
Proof.
  destruct far_exp as [He Hlt]. destruct odd_frac as [_ Ho]. pose proof far_range as (HX & _).
  rewrite <- (aligned_diff F16 fmt_ok_F16 a b Hlt).
  destruct (sub_epsilon_mag F16 fmt_ok_F16 a b s st Hlt (far_mant_pos Hb) far_small) as [Hm Hfl].
  destruct (aligned_shift F16 fmt_ok_F16 a b Hlt) as (_ & Hs & _).
  replace (f_exp F16 a - 1 - (f_shift F16 a - f_shift F16 b)) with (f_shift F16 b) by lia.
  unfold round_result. rewrite Hm, Hfl, Ho. change (fb F16) with 10. change (inf_mag F16) with (31 * 2 ^ 10).
  set (up := b2z _). assert (0 <= up <= 1) by apply b2z_range.
  destruct (Z.leb_spec (31 * 2 ^ 10) (X - 1 + up)); [lia|]. f_equal. lia.
Qed.

Lemma lor_1 x : 0 <= x -> x .| 1 = x + b2z (negb (Z.odd x)).
Proof. intros Hx. change 1 with (b2z true) at 1. rewrite lor_b2z by lia. now rewrite <- Z.negb_odd. Qed.

Lemma addEpsilon_correct ui sg :
  ui = uiZ -> sg = s ->
  (roundingMode <- get_roundingMode ;;
   uiZ <- (if negb (rm_eqb roundingMode softfloat_round_near_even) then
             if rm_eqb roundingMode
                  (if sg then softfloat_round_min else softfloat_round_max) then
               (if u16 (u64 (ui + 1) .<< 1) =? 0xF800
                then softfloat_raiseFlags (softfloat_flag_overflow .| softfloat_flag_inexact)
                else fret tt) ;;
               fret (u64 (ui + 1))
             else if rm_eqb roundingMode softfloat_round_odd then fret (ui .| 1)
             else fret ui
           else fret ui) ;;
   softfloat_raiseFlags softfloat_flag_inexact ;;
   fret (f16_of_ui uiZ)) st
  = round_result F16 s (f_mag F16 a + f_mag F16 b) (emin F16) st.
Proof.
  intros -> ->. rewrite far_sum. destruct far_range as (HX & Hp & _). unfold is_pattern in Hp.
  change (fb F16 + eb F16 + 1) with 16 in Hp.
  rewrite (lor_1 uiZ) by lia. rewrite (uwrap_small 64 (uiZ + 1)) by lia. rewrite shiftl_mul by lia.
  assert (Hov : (u16 ((uiZ + 1) * 2 ^ 1) =? 0xF800) = (31 * 2 ^ 10 <=? X + 1)).
  { unfold sign_bit. destruct s.
    - change (2 ^ (fb F16 + eb F16)) with (2 ^ 15).
      replace (u16 ((2 ^ 15 + X + 1) * 2 ^ 1)) with (2 * (X + 1)); [case_test; case_test; lia|].
      apply Z.mod_unique with (q := 1); lia.
    - rewrite uwrap_small by lia. case_test; case_test; lia. }
  rewrite Hov. clear Hov. unfold fbind, get_roundingMode, softfloat_raiseFlags, fret, f16_of_ui.
  pose proof (Z.div2_odd uiZ) as Hodd.
  assert (HoddX : X = 31 * 2 ^ 10 - 1 -> Z.odd uiZ = true).
  { intros HXm. unfold sign_bit. rewrite Z.odd_add, HXm. now destruct s. }
  destruct st as [mode tin fl]. cbv [softfloat_roundingMode softfloat_detectTininess softfloat_exceptionFlags raise].
  destruct (Z.leb_spec (31 * 2 ^ 10) (X + 1)) as [Hbig|Hbig]; destruct mode, s;
    cbn [rm_eqb negb andb round_up overflow_to_inf b2z]; cbn iota beta.
  all: rewrite ?andb_true_r, ?Z.add_0_r.
  all: try (destruct (Z.odd _) eqn:?; cbn [negb b2z]; rewrite ?Z.add_0_r).
  all: match goal with |- context [?x <=? ?y] => destruct (Z.leb_spec x y) end;
    try solve [exfalso; (lia || (specialize (HoddX ltac:(lia)); congruence))].
  all: rewrite ?(uwrap_small 16) by (unfold sign_bit; change (2 ^ (fb F16 + eb F16)) with (2 ^ 15); lia).
  all: rewrite <- ?Z.lor_assoc; solve [reflexivity | f_equal; lia].
Qed.

Lemma subEpsilon_correct ui sg :
  ui = uiZ -> sg = s ->
  (roundingMode <- get_roundingMode ;;
   softfloat_raiseFlags softfloat_flag_inexact ;;
   fret (f16_of_ui
     (if negb (rm_eqb roundingMode softfloat_round_near_even) then
        if rm_eqb roundingMode softfloat_round_minMag
           || rm_eqb roundingMode
                (if sg then softfloat_round_max else softfloat_round_min)
        then u64 (ui - 1)
        else if rm_eqb roundingMode softfloat_round_odd then u64 (ui - 1) .| 1
        else ui
      else ui))) st
  = round_result F16 s (f_mag F16 a - f_mag F16 b) (emin F16) st.
Proof.
  intros -> ->. rewrite far_diff. destruct far_range as (HX & Hp & _). unfold is_pattern in Hp.
  change (fb F16 + eb F16 + 1) with 16 in Hp.
  assert (0 <= sign_bit F16 s) by (unfold sign_bit; destruct s; simpl; lia).
  rewrite (uwrap_small 64 (uiZ - 1)), (lor_1 (uiZ - 1)) by lia.
  assert (Z.odd (uiZ - 1) = negb (Z.odd uiZ)) as ->
    by (rewrite Z.odd_sub; now destruct (Z.odd uiZ)).
  unfold fbind, get_roundingMode, softfloat_raiseFlags, fret, f16_of_ui.
  destruct st as [mode tin fl]. cbv [softfloat_roundingMode softfloat_detectTininess softfloat_exceptionFlags raise].
  destruct mode, s; cbn [rm_eqb negb andb orb round_up b2z]; cbn iota beta.
  all: rewrite ?negb_involutive, ?andb_true_r.
  all: try (destruct (Z.odd _); cbn [negb b2z]).
  all: rewrite (uwrap_small 16) by lia; f_equal; lia.
Qed.
End FarApart.

(** The larger operand when the smaller one is zero. *)
Lemma far_zero a b s st :
  f_exp F16 b < f_exp F16 a -> f_exp F16 a < 31 -> f_mag F16 b = 0 ->
  round_result F16 s (f_mag F16 a) (emin F16) st
  = (f16_of_ui (sign_bit F16 s + (f_exp F16 a * 2 ^ 10 + f_frac F16 a)), st).
Proof.
  intros Hlt Hfin Hb. field_facts F16 fmt_ok_F16 a b. change (fb F16) with 10 in *.
  rewrite (round_result_mag F16 fmt_ok_F16) by (apply is_finite_iff; change (max_exp F16) with 31; lia).
  change (fb F16) with 10. rewrite <- Z.add_assoc. f_equal. symmetry. apply of_ui16.
  unfold is_pattern, sign_bit. change (2 ^ (fb F16 + eb F16)) with (2 ^ 15).
  change (2 ^ (fb F16 + eb F16 + 1)) with (2 ^ 16). destruct s; lia.
Qed.

Lemma nz_fields b : nz (f_exp F16 b .| f_frac F16 b) = negb (f_mag F16 b =? 0).
Proof.
  pose proof (f_exp_range F16 fmt_ok_F16 b). pose proof (f_frac_range F16 fmt_ok_F16 b).
  rewrite nz_lor_frac by lia. pose proof (f_mag_zero F16 fmt_ok_F16 b). unfold nz.
  destruct (Z.eqb_spec (f_exp F16 b) 0), (Z.eqb_spec (f_frac F16 b) 0), (Z.eqb_spec (f_mag F16 b) 0); simpl; trivial; lia.
Qed.

Lemma same_codeF16 a b s st :
  f_exp F16 a = f_exp F16 b -> 0 < f_exp F16 a < 31 ->
  (if negb (nz (u64 (0x0800 + f_frac F16 a + f_frac F16 b) .& 1)) && (f_exp F16 a <? 0x1E)
   then fret (f16_of_ui (packToF16UI s (f_exp F16 a) (u64 (0x0800 + f_frac F16 a + f_frac F16 b) .>> 1)))
   else softfloat_roundPackToF16 s (f_exp F16 a)
          (u64 (u64 (0x0800 + f_frac F16 a + f_frac F16 b) .<< 3))) st
  = round_result F16 s (f_mag F16 a + f_mag F16 b) (emin F16) st.
Proof.
  intros Heq He. field_facts F16 fmt_ok_F16 a b. change (fb F16) with 10 in *.
  rewrite (uwrap_small 64 (_ + _)) by lia.
  rewrite <- (same_sum_normal F16 fmt_ok_F16 a b st Heq) by lia.
  change (2 ^ (fb F16 + 1)) with 0x0800. set (z := 0x0800 + _ + _).
  rewrite (land_mod z 1 1), shiftr_div, Z.pow_1_r by lia. unfold nz. rewrite negb_involutive.
  destruct (Z.eqb_spec (z mod 2) 0) as [Hz|Hz], (Z.ltb_spec (f_exp F16 a) 0x1E); cbn [andb]; cbv iota.
  2-4: rewrite shiftl_mul, uwrap_small, roundPackToF16_correct by lia;
    rewrite <- (round_result_scale F16 s z _ 3) by lia; f_equal; lia.
  pose proof (Z_div_mod_eq_full z 2). set (h := z / 2) in *.
  replace (round_result F16 s z _ st) with (round_result F16 s h (f_exp F16 a + emin F16) st).
  - rewrite packToF16UI_eq by lia. rewrite (round_result_pack F16 fmt_ok_F16) by
      (change (fb F16) with 10; change (inf_mag F16) with (31 * 2 ^ 10); lia).
    unfold fret. rewrite of_ui16; [reflexivity|].
    unfold is_pattern, sign_bit. change (2 ^ (fb F16 + eb F16)) with (2 ^ 15).
    change (2 ^ (fb F16 + eb F16 + 1)) with (2 ^ 16). destruct s; lia.
  - rewrite <- (round_result_scale F16 s h _ 1) by lia. f_equal; lia.
Qed.


Lemma addMagsF16_correct a b st :
  is_pattern F16 a -> is_pattern F16 b -> softfloat_addMagsF16 a b st = ref_addMags F16 a b st.
Proof.
  intros Ha Hb. unfold softfloat_addMagsF16, ref_addMags. cbv zeta.
  rewrite (signF16UI_eq a), !expF16UI_eq, !fracF16UI_eq by assumption.
  field_facts F16 fmt_ok_F16 a b. pose proof max_exp_F16 as Hmx. change (2 ^ fb F16) with (2 ^ 10) in *.
  pose proof (f_mag_nonneg F16 fmt_ok_F16 a). pose proof (f_mag_nonneg F16 fmt_ok_F16 b).
  rewrite (swrap_small 8 (f_exp F16 a - f_exp F16 b)) by lia. rewrite nz_lor_frac, !nz_fields by lia.
  pose proof (mag_pos F16 a fmt_ok_F16). pose proof (mag_pos F16 b fmt_ok_F16).
  on_nz (f_exp F16 a - f_exp F16 b).
  - destruct (Z.ltb_spec (f_exp F16 a - f_exp F16 b) 0).
    + destruct (Z.eqb_spec (f_exp F16 b) 31);
        [nz_cases; rewrite ?inf_packF16; special_exit fmt_ok_F16 of_ui16 propagateNaNF16UI_eq|].
      rewrite add_gen_sum, (Z.add_comm (f_mag F16 a)) by (try apply is_finite_iff; lia || apply fmt_ok_F16).
      destruct (Z.leb_spec (f_exp F16 a - f_exp F16 b) (-13)).
      * rewrite packToF16UI_eq, <- Z.add_assoc by lia.
        destruct (Z.eqb_spec (f_mag F16 a) 0) as [Hz0|Hz0]; cbn [negb]; cbv iota.
        -- unfold fret. rewrite Hz0, Z.add_0_r. symmetry. apply (far_zero b a); lia.
        -- destruct (far_range b a (f_sign F16 a)) as (_ & Hp & Hs); [lia|lia|].
           rewrite signF16UI_eq, Hs by exact Hp. apply (addEpsilon_correct b a); (lia || trivial).
      * rewrite (swrap_small 8) by lia. apply add_codeF16; lia.
    + destruct (Z.eqb_spec (f_exp F16 a) 31);
        [nz_cases; special_exit fmt_ok_F16 of_ui16 propagateNaNF16UI_eq|].
      rewrite add_gen_sum by (try apply is_finite_iff; lia || apply fmt_ok_F16).
      pose proof (pattern_fields F16 fmt_ok_F16 a Ha) as Hfa. rewrite <- Z.add_assoc in Hfa.
      destruct (Z.leb_spec 13 (f_exp F16 a - f_exp F16 b)).
      * destruct (Z.eqb_spec (f_mag F16 b) 0) as [Hz0|Hz0]; cbn [negb]; cbv iota.
        -- unfold fret. rewrite Hz0, Z.add_0_r, (far_zero a b) by lia. now rewrite Hfa at 1.
        -- apply (addEpsilon_correct a b); (lia || trivial).
      * rewrite (swrap_small 8) by lia. apply add_codeF16; lia.
  - on_nz (f_exp F16 a).
    + destruct (Z.eqb_spec (f_exp F16 a) 31);
        [nz_cases; special_exit fmt_ok_F16 of_ui16 propagateNaNF16UI_eq|].
      rewrite add_gen_sum by (try apply is_finite_iff; lia || apply fmt_ok_F16).
      apply same_codeF16; lia.
    + destruct (ref_add_subnormal F16 a b st fmt_ok_F16 Ha ltac:(lia) ltac:(lia)) as [Hr Hp].
      unfold ref_addMags in Hr. rewrite Hr. unfold is_pattern in Hp.
      change (fb F16 + eb F16 + 1) with 16 in Hp. unfold fret, f16_of_ui.
      now rewrite (uwrap_small 64), (uwrap_small 16) by lia.
Qed.

Lemma clz_diffF16 d : 0 < d < 2 ^ fb F16 -> softfloat_countLeadingZeros16 (u16 d) - 5 = fb F16 - Z.log2 d.
Proof.
  change (fb F16) with 10. intros Hd. rewrite uwrap_small, countLeadingZeros16_spec by lia.
  unfold clz. destruct (Z.eqb_spec d 0); lia.
Qed.

(** The exact difference of equal exponents, with the narrower exponent type. *)
Lemma same_diff_codeF16 a b s d st :
  f_exp F16 a = f_exp F16 b -> f_exp F16 a < 31 -> 0 < d < 2 ^ 10 ->
  (let expA := if nz (f_exp F16 a) then s8 (f_exp F16 a - 1) else f_exp F16 a in
   let shiftDist := s8 (softfloat_countLeadingZeros16 (u16 d) - 5) in
   let expZ := s8 (expA - shiftDist) in
   let '(shiftDist, expZ) := if expZ <? 0 then (expA, 0) else (shiftDist, expZ) in
   fret (f16_of_ui (packToF16UI s expZ (u64 (d .<< shiftDist))))) st
  = round_result F16 s (d * 2 ^ f_shift F16 a) (emin F16) st.
Proof.
  intros Heq Hfin Hd. field_facts F16 fmt_ok_F16 a b. cbv zeta.
  pose proof (same_diff F16 fmt_ok_F16 a st Hfin s d (10 - Z.log2 d) Hd eq_refl) as Hs.
  assert (0 <= Z.log2 d < 10) by (split; [apply Z.log2_nonneg|apply Z.log2_lt_pow2; lia]).
  rewrite clz_diffF16 by exact Hd. change (fb F16) with 10 in *. change (eb F16) with 5 in *.
  change (max_exp F16) with 31 in *.
  assert ((if nz (f_exp F16 a) then s8 (f_exp F16 a - 1) else f_exp F16 a) = f_shift F16 a) as ->.
  { unfold f_shift. on_nz (f_exp F16 a); [rewrite swrap_small|]; lia. }
  assert (0 <= f_shift F16 a < 31) by (unfold f_shift; lia).
  rewrite (swrap_small 8 (10 - _)), (swrap_small 8 (_ - _)) by lia.
  destruct (f_shift F16 a - (10 - Z.log2 d) <? 0); destruct Hs as (-> & Hsh & He & Hm & Hlt);
    unfold fret; rewrite shiftl_mul, uwrap_small by lia;
    now rewrite pack_of_ui16 by
      (change (fb F16) with 10; change (eb F16) with 5; change (max_exp F16) with 31; lia).
Qed.

Lemma subMagsF16_correct a b st :
  is_pattern F16 a -> is_pattern F16 b -> softfloat_subMagsF16 a b st = ref_subMags F16 a b st.
Proof.
  intros Ha Hb. unfold softfloat_subMagsF16, ref_subMags. cbv zeta.
  rewrite (signF16UI_eq a), !expF16UI_eq, !fracF16UI_eq by assumption.
  field_facts F16 fmt_ok_F16 a b. pose proof max_exp_F16 as Hmx. change (2 ^ fb F16) with (2 ^ 10) in *.
  rewrite (swrap_small 8 (f_exp F16 a - f_exp F16 b)) by lia.
  rewrite (swrap_small 64 (f_frac F16 a - f_frac F16 b)) by lia. rewrite nz_lor_frac, !nz_fields by lia.
  on_nz (f_exp F16 a - f_exp F16 b).
  - destruct (Z.ltb_spec (f_exp F16 a - f_exp F16 b) 0).
    + destruct (Z.eqb_spec (f_exp F16 b) 31);
        [nz_cases; rewrite ?inf_packF16; special_exit fmt_ok_F16 of_ui16 propagateNaNF16UI_eq|].
      pose proof (aligned_mag_lt F16 fmt_ok_F16 b a ltac:(lia)).
      rewrite add_gen_diff_neg by (try apply is_finite_iff; lia || apply fmt_ok_F16).
      destruct (Z.leb_spec (f_exp F16 a - f_exp F16 b) (-13)).
      * rewrite packToF16UI_eq, <- Z.add_assoc by lia.
        destruct (Z.eqb_spec (f_mag F16 a) 0) as [Hz0|Hz0]; cbn [negb]; cbv iota.
        -- unfold fret. rewrite Hz0, Z.sub_0_r. symmetry. apply (far_zero b a); lia.
        -- destruct (far_range b a (negb (f_sign F16 a))) as (_ & Hp & Hs); [lia|lia|].
           rewrite signF16UI_eq, Hs by exact Hp. apply (subEpsilon_correct b a); (lia || trivial).
      * rewrite (swrap_small 8 (- _)) by lia. apply (sub_codeF16 b a); lia.
    + destruct (Z.eqb_spec (f_exp F16 a) 31);
        [nz_cases; special_exit fmt_ok_F16 of_ui16 propagateNaNF16UI_eq|].
      pose proof (aligned_mag_lt F16 fmt_ok_F16 a b ltac:(lia)).
      rewrite add_gen_diff_pos by (try apply is_finite_iff; lia || apply fmt_ok_F16).
      pose proof (pattern_fields F16 fmt_ok_F16 a Ha) as Hfa. rewrite <- Z.add_assoc in Hfa.
      destruct (Z.leb_spec 13 (f_exp F16 a - f_exp F16 b)).
      * destruct (Z.eqb_spec (f_mag F16 b) 0) as [Hz0|Hz0]; cbn [negb]; cbv iota.
        -- unfold fret. rewrite Hz0, Z.sub_0_r, (far_zero a b) by lia. now rewrite Hfa at 1.
        -- apply (subEpsilon_correct a b); (lia || trivial).
      * apply (sub_codeF16 a b); lia.
  - destruct (Z.eqb_spec (f_exp F16 a) 31);
      [nz_cases; rewrite ?invalid_exitF16; special_exit fmt_ok_F16 of_ui16 propagateNaNF16UI_eq|].
    pose proof (same_diff_mags F16 a b fmt_ok_F16 ltac:(lia)) as Hm.
    pose proof (pow2_pos (f_shift F16 a) ltac:(unfold f_shift; lia)).
    on_nz (f_frac F16 a - f_frac F16 b).
    + rewrite (swrap_small 64 (- _)) by lia.
      destruct (Z.ltb_spec (f_frac F16 a - f_frac F16 b) 0).
      * rewrite add_gen_diff_neg by (try apply is_finite_iff; (nia || apply fmt_ok_F16)).
        replace (f_mag F16 b - f_mag F16 a) with (- (f_frac F16 a - f_frac F16 b) * 2 ^ f_shift F16 a) by lia.
        apply (same_diff_codeF16 a b); lia.
      * rewrite add_gen_diff_pos, Hm by (try apply is_finite_iff; (nia || apply fmt_ok_F16)).
        apply (same_diff_codeF16 a b); lia.
    + rewrite Hnz0 in Hm.
      rewrite add_gen_diff_zero by (try apply fmt_ok_F16; try apply is_finite_iff; lia).
      unfold fbind, get_roundingMode, fret. now destruct (rm_eqb _ _).
Qed.

Lemma f16_add_correct a b st :
  is_pattern F16 a -> is_pattern F16 b -> f16_add a b st = ieee_add F16 a b st.
Proof.
  intros Ha Hb. destruct (sign_xor F16 a b fmt_ok_F16 Ha Hb) as [Hp Hs].
  unfold f16_add. rewrite signF16UI_eq, Hs, <- ref_add_of_signs by assumption.
  destruct (xorb _ _); auto using subMagsF16_correct, addMagsF16_correct.
Qed.

Lemma f16_sub_correct a b st :
  is_pattern F16 a -> is_pattern F16 b -> f16_sub a b st = ieee_sub F16 a b st.
Proof.
  intros Ha Hb. destruct (sign_xor F16 a b fmt_ok_F16 Ha Hb) as [Hp Hs].
  unfold f16_sub. rewrite signF16UI_eq, Hs, <- ref_sub_of_signs by assumption.
  destruct (xorb _ _); auto using subMagsF16_correct, addMagsF16_correct.
Qed.
