(* ===== verification/SFMul.v ===== *)
(** * SoftFloat: multiplication

    [mul] of the three formats, with the subnormal normalisation and the
    64x64-bit product it uses.  The theorems say that each is the IEEE product:
    the exact integer product of the operands, rounded once. *)

From Stdlib Require Import ZArith Lia Bool List.
From S2P Require Import Prelude SFBase SFSpec SFRound SFValue SFAddSub SFAddSub16.

(** ** Operations *)

(** The structs [exp8_sig16], [exp16_sig32], [exp16_sig64]: exponent and significand. *)
Definition softfloat_normSubnormalF16Sig (sig : Z) : Z * Z :=
  let shiftDist := s8 (softfloat_countLeadingZeros16 (u16 sig) - 5) in
  (s8 (1 - shiftDist), u64 (sig .<< shiftDist)).

Definition softfloat_normSubnormalF32Sig (sig : Z) : Z * Z :=
  let shiftDist := s8 (softfloat_countLeadingZeros32 (u32 sig) - 8) in
  (s64 (1 - shiftDist), u64 (sig .<< shiftDist)).

Definition softfloat_normSubnormalF64Sig (sig : Z) : Z * Z :=
  let shiftDist := s8 (softfloat_countLeadingZeros64 sig - 11) in
  (s64 (1 - shiftDist), u64 (sig .<< shiftDist)).

(** [struct uint128] with its halves [v64] and [v0]. *)
Definition softfloat_mul64To128 (a b : Z) : Z * Z :=
  let a32 := u32 (a .>> 32) in
  let a0 := u32 a in
  let b32 := u32 (b .>> 32) in
  let b0 := u32 b in
  let v0 := u64 (a0 * b0) in
  let mid1 := u64 (a32 * b0) in
  let mid := u64 (mid1 + u64 (a0 * b32)) in
  let v64 := u64 (a32 * b32) in
  let v64 := u64 (v64 + (u64 (b2z (mid <? mid1) .<< 32) .| (mid .>> 32))) in
  let mid := u64 (mid .<< 32) in
  let v0 := u64 (v0 + mid) in
  let v64 := u64 (v64 + b2z (v0 <? mid)) in
  (v64, v0).

Definition f16_mul (a b : Z) : fp Z :=
  let to_uiZ uiZ := fret (f16_of_ui uiZ) in
  let uiA := a in
  let signA := signF16UI uiA in
  let expA := expF16UI uiA in
  let sigA := fracF16UI uiA in
  let uiB := b in
  let signB := signF16UI uiB in
  let expB := expF16UI uiB in
  let sigB := fracF16UI uiB in
  let signZ := xorb signA signB in
  let propagateNaN := uiZ <- softfloat_propagateNaNF16UI uiA uiB ;; to_uiZ uiZ in
  let infArg magBits :=
    if negb (nz magBits) then
      softfloat_raiseFlags softfloat_flag_invalid ;; to_uiZ defaultNaNF16UI
    else to_uiZ (packToF16UI signZ 0x1F 0) in
  let zero := to_uiZ (packToF16UI signZ 0 0) in
  if expA =? 0x1F then
    if nz sigA || (expB =? 0x1F) && nz sigB then propagateNaN
    else infArg (expB .| sigB)
  else if expB =? 0x1F then
    if nz sigB then propagateNaN else infArg (expA .| sigA)
  else if negb (nz expA) && negb (nz sigA) then zero
  else
    let '(expA, sigA) := if negb (nz expA) then softfloat_normSubnormalF16Sig sigA else (expA, sigA) in
    if negb (nz expB) && negb (nz sigB) then zero
    else
      let '(expB, sigB) := if negb (nz expB) then softfloat_normSubnormalF16Sig sigB else (expB, sigB) in
      let expZ := s8 (expA + expB - 0xF) in
      let sigA := u64 ((sigA .| 0x0400) .<< 4) in
      let sigB := u64 ((sigB .| 0x0400) .<< 5) in
      let sig32Z := u64 (sigA * sigB) in
      let sigZ := sig32Z .>> 16 in
      let sigZ := if nz (sig32Z .& 0xFFFF) then sigZ .| 1 else sigZ in
      if sigZ <? 0x4000 then
        softfloat_roundPackToF16 signZ (s8 (expZ - 1)) (u64 (sigZ .<< 1))
      else softfloat_roundPackToF16 signZ expZ sigZ.

Definition f32_mul (a b : Z) : fp Z :=
  let to_uiZ uiZ := fret (f32_of_ui uiZ) in
  let uiA := a in
  let signA := signF32UI uiA in
  let expA := expF32UI uiA in
  let sigA := fracF32UI uiA in
  let uiB := b in
  let signB := signF32UI uiB in
  let expB := expF32UI uiB in
  let sigB := fracF32UI uiB in
  let signZ := xorb signA signB in
  let propagateNaN := uiZ <- softfloat_propagateNaNF32UI uiA uiB ;; to_uiZ uiZ in
  let infArg magBits :=
    if negb (nz magBits) then
      softfloat_raiseFlags softfloat_flag_invalid ;; to_uiZ defaultNaNF32UI
    else to_uiZ (packToF32UI signZ 0xFF 0) in
  let zero := to_uiZ (packToF32UI signZ 0 0) in
  if expA =? 0xFF then
    if nz sigA || (expB =? 0xFF) && nz sigB then propagateNaN
    else infArg (expB .| sigB)
  else if expB =? 0xFF then
    if nz sigB then propagateNaN else infArg (expA .| sigA)
  else if negb (nz expA) && negb (nz sigA) then zero
  else
    let '(expA, sigA) := if negb (nz expA) then softfloat_normSubnormalF32Sig sigA else (expA, sigA) in
    if negb (nz expB) && negb (nz sigB) then zero
    else
      let '(expB, sigB) := if negb (nz expB) then softfloat_normSubnormalF32Sig sigB else (expB, sigB) in
      let expZ := s64 (expA + expB - 0x7F) in
      let sigA := u64 ((sigA .| 0x00800000) .<< 7) in
      let sigB := u64 ((sigB .| 0x00800000) .<< 8) in
      let sigZ := softfloat_shortShiftRightJam64 (u64 (sigA * sigB)) 32 in
      if sigZ <? 0x40000000 then
        softfloat_roundPackToF32 signZ (s64 (expZ - 1)) (u64 (sigZ .<< 1))
      else softfloat_roundPackToF32 signZ expZ sigZ.

Definition f64_mul (a b : Z) : fp Z :=
  let to_uiZ uiZ := fret (f64_of_ui uiZ) in
  let uiA := a in
  let signA := signF64UI uiA in
  let expA := expF64UI uiA in
  let sigA := fracF64UI uiA in
  let uiB := b in
  let signB := signF64UI uiB in
  let expB := expF64UI uiB in
  let sigB := fracF64UI uiB in
  let signZ := xorb signA signB in
  let propagateNaN := uiZ <- softfloat_propagateNaNF64UI uiA uiB ;; to_uiZ uiZ in
  let infArg magBits :=
    if negb (nz magBits) then
      softfloat_raiseFlags softfloat_flag_invalid ;; to_uiZ defaultNaNF64UI
    else to_uiZ (packToF64UI signZ 0x7FF 0) in
  let zero := to_uiZ (packToF64UI signZ 0 0) in
  if expA =? 0x7FF then
    if nz sigA || (expB =? 0x7FF) && nz sigB then propagateNaN
    else infArg (expB .| sigB)
  else if expB =? 0x7FF then
    if nz sigB then propagateNaN else infArg (expA .| sigA)
  else if negb (nz expA) && negb (nz sigA) then zero
  else
    let '(expA, sigA) := if negb (nz expA) then softfloat_normSubnormalF64Sig sigA else (expA, sigA) in
    if negb (nz expB) && negb (nz sigB) then zero
    else
      let '(expB, sigB) := if negb (nz expB) then softfloat_normSubnormalF64Sig sigB else (expB, sigB) in
      let expZ := s64 (expA + expB - 0x3FF) in
      let sigA := u64 ((sigA .| 0x0010000000000000) .<< 10) in
      let sigB := u64 ((sigB .| 0x0010000000000000) .<< 11) in
      let '(v64, v0) := softfloat_mul64To128 sigA sigB in
      let sigZ := v64 .| b2z (nz v0) in
      if sigZ <? 0x4000000000000000 then
        softfloat_roundPackToF64 signZ (s64 (expZ - 1)) (u64 (sigZ .<< 1))
      else softfloat_roundPackToF64 signZ expZ sigZ.

(** ** Normalised operands *)

(** [m * 2 ^ (e - 1)] is the magnitude of [a] in units of [2 ^ emin], with a full significand. *)
Definition norm_operand (f : fmt) (a e m : Z) : Prop :=
  2 ^ fb f <= m < 2 ^ (fb f + 1) /\
  exists k, 0 <= k <= fb f /\ m = f_mant f a * 2 ^ k /\ e = f_shift f a + 1 - k.

Lemma lor_present m k c : 0 <= k -> 2 ^ k <= m < 2 ^ (k + 1) -> c = 2 ^ k -> m .| c = m.
Proof.
  intros Hk Hm ->. pose proof (pow2_pos k Hk). rewrite pow2_succ in Hm by lia.
  replace m with (2 ^ k + (m - 2 ^ k)) at 1 by lia.
  rewrite <- (lor_high (m - 2 ^ k) k (2 ^ k)) by lia.
  rewrite <- Z.lor_assoc, Z.lor_diag, (lor_high _ k) by lia. lia.
Qed.

Section Normalize.
Context (f : fmt) (Hf : fmt_ok f) (normSub : Z -> Z * Z) (hidden : Z).
Hypothesis Hhidden : hidden = 2 ^ fb f.
Hypothesis HnormSub : forall d, 0 < d < 2 ^ fb f ->
  normSub d = (1 - (fb f - Z.log2 d), d * 2 ^ (fb f - Z.log2 d)).

Lemma normalize_code a :
  negb (nz (f_exp f a)) && negb (nz (f_frac f a)) = false ->
  let '(e, m) := if negb (nz (f_exp f a)) then normSub (f_frac f a) else (f_exp f a, f_frac f a) in
  norm_operand f a e (m .| hidden).
Proof.
  intros Hzero. pose proof (f_frac_range f Hf a) as Hr. pose proof (f_exp_range f Hf a). destruct Hf as [Hf1 Hf2].
  on_nz (f_exp f a).
  - unfold norm_operand. rewrite (lor_high _ (fb f)), Hhidden by lia. rewrite pow2_succ by lia.
    split; [lia|]. exists 0. unfold f_mant, f_shift. destruct (Z.eqb_spec (f_exp f a) 0); [lia|].
    rewrite Z.pow_0_r. lia.
  - destruct (nz (f_frac f a)) eqn:Hfr; [|discriminate].
    apply nz_true in Hfr. rewrite HnormSub by lia. set (d := f_frac f a) in *.
    assert (0 <= Z.log2 d < fb f) by (split; [apply Z.log2_nonneg|apply Z.log2_lt_pow2; lia]).
    pose proof (Z.log2_spec d ltac:(lia)) as [Hl Hu]. set (sh := fb f - Z.log2 d).
    assert (2 ^ fb f <= d * 2 ^ sh < 2 ^ (fb f + 1)) as Hm.
    { pose proof (pow2_pos sh ltac:(unfold sh; lia)).
      replace (fb f) with (Z.log2 d + sh) at 1 by (unfold sh; lia).
      replace (fb f + 1) with (Z.succ (Z.log2 d) + sh) by (unfold sh; lia).
      rewrite !pow2_split by (unfold sh; lia). nia. }
    unfold norm_operand. rewrite (lor_present _ (fb f)) by lia. split; [exact Hm|].
    exists sh. unfold f_mant, f_shift. rewrite Hnz. fold d. split; [unfold sh; lia|]. split; [reflexivity|].
    simpl. lia.
Qed.
End Normalize.

Lemma normSubnormalF16_spec d :
  0 < d < 2 ^ fb F16 ->
  softfloat_normSubnormalF16Sig d = (1 - (fb F16 - Z.log2 d), d * 2 ^ (fb F16 - Z.log2 d)).
Proof.
  intros Hd. unfold softfloat_normSubnormalF16Sig. cbv zeta. rewrite clz_diffF16 by exact Hd.
  change (fb F16) with 10 in *.
  assert (0 <= Z.log2 d < 10) by (split; [apply Z.log2_nonneg|apply Z.log2_lt_pow2; lia]).
  pose proof (pow2_le (10 - Z.log2 d) 10 ltac:(lia)).
  rewrite (swrap_small 8 (10 - _)), (swrap_small 8), shiftl_mul, uwrap_small by nia. reflexivity.
Qed.

Lemma normSubnormalF32_spec d :
  0 < d < 2 ^ fb F32 ->
  softfloat_normSubnormalF32Sig d = (1 - (fb F32 - Z.log2 d), d * 2 ^ (fb F32 - Z.log2 d)).
Proof.
  intros Hd. unfold softfloat_normSubnormalF32Sig. cbv zeta. rewrite clz_diffF32 by exact Hd.
  change (fb F32) with 23 in *.
  assert (0 <= Z.log2 d < 23) by (split; [apply Z.log2_nonneg|apply Z.log2_lt_pow2; lia]).
  pose proof (pow2_le (23 - Z.log2 d) 23 ltac:(lia)).
  rewrite (swrap_small 8), (swrap_small 64), shiftl_mul, uwrap_small by nia. reflexivity.
Qed.

Lemma normSubnormalF64_spec d :
  0 < d < 2 ^ fb F64 ->
  softfloat_normSubnormalF64Sig d = (1 - (fb F64 - Z.log2 d), d * 2 ^ (fb F64 - Z.log2 d)).
Proof.
  intros Hd. unfold softfloat_normSubnormalF64Sig. cbv zeta.
  change (fb F64) with 52 in *.
  assert (0 <= Z.log2 d < 52) by (split; [apply Z.log2_nonneg|apply Z.log2_lt_pow2; lia]).
  assert (softfloat_countLeadingZeros64 d - 11 = 52 - Z.log2 d) as ->.
  { rewrite countLeadingZeros64_spec by lia. unfold clz. destruct (Z.eqb_spec d 0); lia. }
  assert (d * 2 ^ (52 - Z.log2 d) < 2 ^ 53).
  { pose proof (Z.log2_spec d ltac:(lia)) as [_ Hu]. pose proof (pow2_pos (52 - Z.log2 d) ltac:(lia)).
    replace 53 with (Z.succ (Z.log2 d) + (52 - Z.log2 d)) by lia. rewrite pow2_split by lia. nia. }
  pose proof (pow2_pos (52 - Z.log2 d) ltac:(lia)).
  rewrite (swrap_small 8), (swrap_small 64), shiftl_mul, uwrap_small by nia. reflexivity.
Qed.

(** ** The 128-bit product *)

Lemma mul64To128_correct a b :
  0 <= a < 2 ^ 64 -> 0 <= b < 2 ^ 64 ->
  softfloat_mul64To128 a b = (a * b / 2 ^ 64, a * b mod 2 ^ 64).
Proof.
  intros Ha Hb. unfold softfloat_mul64To128. cbv zeta.
  assert (Hsplit : forall x, 0 <= x < 2 ^ 64 ->
    exists h l, u32 (x .>> 32) = h /\ u32 x = l /\ x = h * 2 ^ 32 + l /\ 0 <= h < 2 ^ 32 /\ 0 <= l < 2 ^ 32).
  { intros x Hx. exists (x / 2 ^ 32), (x mod 2 ^ 32). rewrite shiftr_div by lia.
    assert (0 <= x / 2 ^ 32 < 2 ^ 32) by (split; [apply Z.div_pos|apply Z.div_lt_upper_bound]; lia).
    rewrite (uwrap_small 32 (x / _)) by lia. pose proof (Z_div_mod_eq_full x (2 ^ 32)).
    pose proof (Z.mod_pos_bound x (2 ^ 32)). unfold uwrap. lia. }
  destruct (Hsplit a Ha) as (ah & al & -> & -> & Hae & Hah & Hal).
  destruct (Hsplit b Hb) as (bh & bl & -> & -> & Hbe & Hbh & Hbl).
  assert (Hprod : forall x y, 0 <= x < 2 ^ 32 -> 0 <= y < 2 ^ 32 -> 0 <= x * y <= (2 ^ 32 - 1) * (2 ^ 32 - 1)) by (intros; nia).
  pose proof (Hprod al bl Hal Hbl). pose proof (Hprod ah bl Hah Hbl).
  pose proof (Hprod al bh Hal Hbh). pose proof (Hprod ah bh Hah Hbh).
  rewrite (uwrap_small 64 (al * bl)), (uwrap_small 64 (ah * bl)), (uwrap_small 64 (al * bh)), (uwrap_small 64 (ah * bh)) by lia.
  set (p0 := al * bl) in *. set (p1 := ah * bl) in *. set (p2 := al * bh) in *. set (p3 := ah * bh) in *.
  assert (Hab : a * b = p3 * 2 ^ 64 + (p1 + p2) * 2 ^ 32 + p0) by (unfold p0, p1, p2, p3; subst; ring).
  clear Hae Hbe.
  set (c := b2z (2 ^ 64 <=? p1 + p2)).
  assert (Hmid : u64 (p1 + p2) = p1 + p2 - c * 2 ^ 64).
  { unfold c. symmetry. apply Z.mod_unique with (q := b2z (2 ^ 64 <=? p1 + p2)); destruct (Z.leb_spec (2 ^ 64) (p1 + p2)); simpl; lia. }
  rewrite Hmid. assert ((p1 + p2 - c * 2 ^ 64 <? p1) = (2 ^ 64 <=? p1 + p2)) as ->.
  { unfold c. destruct (Z.leb_spec (2 ^ 64) (p1 + p2)); simpl; [apply Z.ltb_lt|apply Z.ltb_ge]; lia. }
  fold c. set (mid := p1 + p2 - c * 2 ^ 64) in *.
  assert (Hmr : 0 <= mid < 2 ^ 64) by (rewrite <- Hmid; apply uwrap_range; lia).
  assert (0 <= c <= 1) by apply b2z_range.
  pose proof (Z_div_mod_eq_full mid (2 ^ 32)) as Hdm. pose proof (Z.mod_pos_bound mid (2 ^ 32) ltac:(lia)).
  set (mh := mid / 2 ^ 32) in *. set (ml := mid mod 2 ^ 32) in *.
  assert (0 <= mh < 2 ^ 32) by (unfold mh; split; [apply Z.div_pos|apply Z.div_lt_upper_bound]; lia).
  assert (u64 (c .<< 32) .| (mid .>> 32) = c * 2 ^ 32 + mh) as ->.
  { rewrite shiftl_mul, shiftr_div, uwrap_small by lia. fold mh. destruct (Z.eq_dec c 0) as [->|].
    - now rewrite Z.mul_0_l, Z.lor_0_l.
    - replace c with 1 by lia. rewrite Z.lor_comm, (lor_high mh 32) by lia. lia. }
  assert (u64 (mid .<< 32) = ml * 2 ^ 32) as ->.
  { rewrite shiftl_mul by lia. symmetry. apply Z.mod_unique with (q := mh); lia. }
  set (c0 := b2z (2 ^ 64 <=? p0 + ml * 2 ^ 32)). assert (0 <= c0 <= 1) by apply b2z_range.
  assert (Hlow : u64 (p0 + ml * 2 ^ 32) = p0 + ml * 2 ^ 32 - c0 * 2 ^ 64).
  { unfold c0. symmetry. apply Z.mod_unique with (q := b2z (2 ^ 64 <=? p0 + ml * 2 ^ 32));
      destruct (Z.leb_spec (2 ^ 64) (p0 + ml * 2 ^ 32)); simpl; lia. }
  rewrite Hlow. assert ((p0 + ml * 2 ^ 32 - c0 * 2 ^ 64 <? ml * 2 ^ 32) = (2 ^ 64 <=? p0 + ml * 2 ^ 32)) as ->.
  { unfold c0. destruct (Z.leb_spec (2 ^ 64) (p0 + ml * 2 ^ 32)); simpl; [apply Z.ltb_lt|apply Z.ltb_ge]; lia. }
  fold c0. set (low := p0 + ml * 2 ^ 32 - c0 * 2 ^ 64) in *.
  assert (0 <= low < 2 ^ 64) by (rewrite <- Hlow; apply uwrap_range; lia).
  assert (Hab' : a * b = (p3 + (c * 2 ^ 32 + mh) + c0) * 2 ^ 64 + low) by lia.
  assert (0 <= a * b < 2 ^ 128) by nia.
  rewrite (uwrap_small 64 (p3 + _)) by lia. rewrite (uwrap_small 64) by lia.
  f_equal; [apply Z.div_unique with (r := low)|apply Z.mod_unique with (q := p3 + (c * 2 ^ 32 + mh) + c0)]; lia.
Qed.

(** ** Products of magnitudes *)

Section Product.
Context (f : fmt) (Hf : fmt_ok f) (a b eA mA eB mB : Z).
Hypothesis HA : norm_operand f a eA mA.
Hypothesis HB : norm_operand f b eB mB.

Lemma norm_exp_range x e m :
  norm_operand f x e m -> f_exp f x < max_exp f -> - fb f + 1 <= e < max_exp f.
Proof.
  intros (_ & k & Hk & _ & He) Hx. pose proof (f_exp_range f Hf x). destruct Hf.
  unfold f_shift, max_exp in *. pose proof (pow2_le 2 (eb f) ltac:(lia)). change (2 ^ 2) with 4 in *. lia.
Qed.

Lemma product_mags s st :
  round_result f s (mA * mB) (eA + eB - 2 + 2 * emin f) st
  = round_result f s (f_mag f a * f_mag f b) (2 * emin f) st.
Proof.
  destruct HA as (HmA & ka & Hka & EA & EeA), HB as (HmB & kb & Hkb & EB & EeB).
  destruct Hf. pose proof (pow2_pos (fb f) ltac:(lia)).
  pose proof (pow2_pos ka ltac:(lia)). pose proof (pow2_pos kb ltac:(lia)).
  assert (0 < f_mant f a) by nia. assert (0 < f_mant f b) by nia.
  assert (0 <= f_shift f a) by (unfold f_shift; lia). assert (0 <= f_shift f b) by (unfold f_shift; lia).
  transitivity (round_result f s (f_mant f a * f_mant f b) (f_shift f a + f_shift f b + 2 * emin f) st).
  - rewrite <- (round_result_scale f s (f_mant f a * f_mant f b) _ (ka + kb)) by nia.
    rewrite EA, EB, (pow2_split ka kb) by lia. f_equal; [ring|lia].
  - rewrite <- (round_result_scale f s (f_mant f a * f_mant f b) _ (f_shift f a + f_shift f b)) by nia.
    unfold f_mag. rewrite (pow2_split (f_shift f a)) by lia. f_equal; [ring|lia].
Qed.

Context (g cw : Z) (Hg : 3 <= g) (Hcw : eb f + 3 <= cw) (Hcwf : 2 * fb f + 2 < 2 ^ (cw - 2)).
Context (roundPack : bool -> Z -> Z -> fp Z).
Hypothesis HroundPack : forall s e m st,
  2 ^ (fb f + g) <= m < 2 ^ (fb f + g + 1) -> - 2 ^ (cw - 1) <= e < 2 ^ (cw - 1) ->
  roundPack s e m st = round_result f s m (e - g + emin f) st.
Hypothesis Ha : f_exp f a < max_exp f.
Hypothesis Hb : f_exp f b < max_exp f.

Notation product := (mA * 2 ^ g * (mB * 2 ^ (g + 1))).
Notation W := (fb f + g + 2).

Lemma product_range :
  2 ^ (fb f + g - 1 + W) <= product < 2 ^ (fb f + g + 1 + W) /\
  2 ^ (fb f + g - 1) <= jam product W < 2 ^ (fb f + g + 1).
Proof.
  destruct HA as (HmA & _), HB as (HmB & _). destruct Hf.
  pose proof (pow2_pos g ltac:(lia)) as Hgp. pose proof (pow2_pos (fb f) ltac:(lia)) as Hfp.
  assert (E1 : 2 ^ (fb f + g - 1 + W) = 2 ^ fb f * 2 ^ g * (2 ^ fb f * 2 ^ (g + 1)))
    by (rewrite <- !pow2_split by lia; f_equal; lia).
  assert (E2 : 2 ^ (fb f + g + 1 + W) = 2 ^ (fb f + 1) * 2 ^ g * (2 ^ (fb f + 1) * 2 ^ (g + 1)))
    by (rewrite <- !pow2_split by lia; f_equal; lia).
  assert (Hr : 2 ^ (fb f + g - 1 + W) <= product < 2 ^ (fb f + g + 1 + W)).
  { rewrite E1, E2. rewrite (pow2_succ (fb f)), (pow2_succ g) in * by lia. clear E1 E2.
    set (F := 2 ^ fb f) in *. set (P := 2 ^ g) in *.
    assert (F * F <= mA * mB) by nia. assert (mA * mB < 2 * F * (2 * F)) by nia.
    assert (0 < P * (2 * P)) by nia. nia. }
  split; [exact Hr|]. pose proof Hr as Hr'. pose proof (pow2_pos W ltac:(lia)).
  assert (0 < 2 ^ (fb f + g - 1)) by (apply pow2_pos; lia).
  rewrite (pow2_split _ W), (pow2_split (fb f + g + 1) W) in Hr by lia.
  pose proof (jam_bounds product W ltac:(nia) ltac:(lia)) as Hj.
  assert (2 ^ (fb f + g - 1) <= product / 2 ^ W) by (apply Z.div_le_lower_bound; lia).
  assert (product / 2 ^ W < 2 ^ (fb f + g + 1)) by (apply Z.div_lt_upper_bound; lia).
  split; [lia|]. destruct (Z.eq_dec (jam product W) (2 ^ (fb f + g + 1))) as [He|]; [|lia].
  (* a jammed value is odd unless exact *)
  exfalso. revert He. rewrite jam_alt by (nia || lia).
  assert (product / 2 ^ (W + 1) < 2 ^ (fb f + g)).
  { apply Z.div_lt_upper_bound; [apply pow2_pos; lia|]. rewrite <- pow2_split by lia.
    replace (W + 1 + (fb f + g)) with (fb f + g + 1 + W) by lia. lia. }
  rewrite (pow2_succ (fb f + g)) by lia. pose proof (b2z_range (negb (product mod 2 ^ (W + 1) =? 0))). lia.
Qed.

Lemma product_core s e st :
  e = eA + eB - (2 ^ (eb f - 1) - 1) ->
  let z := jam product W in
  (if z <? 2 ^ (fb f + g) then roundPack s (e - 1) (z * 2) st else roundPack s e z st)
  = round_result f s (f_mag f a * f_mag f b) (2 * emin f) st.
Proof.
  intros He z. destruct product_range as [Hp Hz]. fold z in Hz.
  pose proof (norm_exp_range a eA mA HA Ha). pose proof (norm_exp_range b eB mB HB Hb).
  destruct Hf as [Hf1 Hf2]. pose proof (pow2_pred (eb f) ltac:(lia)) as Heb.
  pose proof (pow2_le (eb f) (cw - 2) ltac:(lia)). pose proof (pow2_succ (cw - 2) ltac:(lia)) as Hc2.
  replace (cw - 2 + 1) with (cw - 1) in Hc2 by lia. unfold max_exp in *.
  pose proof (pow2_pos (eb f - 1) ltac:(lia)).
  pose proof (pow2_pred (fb f + g) ltac:(lia)). pose proof (pow2_succ (fb f + g) ltac:(lia)).
  rewrite <- (product_mags s st).
  transitivity (round_result f s z (e - g + emin f) st).
  - destruct (Z.ltb_spec z (2 ^ (fb f + g))).
    + rewrite HroundPack by lia. rewrite <- (round_result_scale f s z _ 1) by lia. f_equal. lia.
    + rewrite HroundPack by lia. reflexivity.
  - unfold z. replace (e - g + emin f) with (e - g + emin f - W + W) by lia.
    rewrite round_result_jam.
    + destruct HA as (HmA & _), HB as (HmB & _). pose proof (pow2_pos (fb f) ltac:(lia)).
      rewrite <- (round_result_scale f s (mA * mB) _ (g + (g + 1))) by nia.
      rewrite (pow2_split g (g + 1)) by lia. f_equal; [ring|]. unfold emin. lia.
    + lia.
    + lia.
    + pose proof (pow2_le (W + fb f + 2) (fb f + g - 1 + W) ltac:(lia)). lia.
Qed.
End Product.

(** ** The reference, case by case *)

Section MulCases.
Context (f : fmt) (Hf : fmt_ok f) (a b : Z) (st : fp_state).
Notation s := (xorb (f_sign f a) (f_sign f b)).

Lemma inf_mag_nonzero x : is_inf f x = true -> (f_mag f x =? 0) = false.
Proof.
  intros Hi. apply is_inf_iff in Hi as [He _]. apply Z.eqb_neq. rewrite (f_mag_zero f Hf).
  destruct Hf. unfold max_exp in *. pose proof (pow2_le 2 (eb f) ltac:(lia)). change (2 ^ 2) with 4 in *. lia.
Qed.

Lemma mul_nan :
  is_nan f a = true \/ is_nan f b = true ->
  ieee_mul f a b st = ieee_nan f (is_snan f a || is_snan f b) st.
Proof. intros H. unfold ieee_mul. apply orb_true_iff in H. now rewrite H. Qed.

Lemma mul_inf x y :
  (x = a /\ y = b) \/ (x = b /\ y = a) -> is_inf f x = true -> is_nan f y = false ->
  ieee_mul f a b st
  = if f_mag f y =? 0 then ieee_nan f true st else (with_sign f s (inf_mag f), st).
Proof.
  intros Hxy Hx Hy. pose proof (inf_mag_nonzero x Hx).
  assert (is_nan f x = false) by (destruct (is_nan f x) eqn:Hn; trivial; apply nan_not_inf in Hn; congruence).
  unfold ieee_mul. destruct Hxy as [[<- <-]|[<- <-]]; rewrite Hx, Hy, H, H0, ?orb_true_r; simpl;
    rewrite ?orb_false_r; reflexivity.
Qed.

Lemma mul_finite :
  is_finite f a = true -> is_finite f b = true ->
  ieee_mul f a b st
  = if (f_mag f a =? 0) || (f_mag f b =? 0) then (sign_bit f s, st)
    else round_result f s (f_mag f a * f_mag f b) (2 * emin f) st.
Proof.
  intros Ha Hb. unfold ieee_mul.
  destruct (finite_cases f Hf a Ha) as (-> & -> & _), (finite_cases f Hf b Hb) as (-> & -> & _).
  simpl. pose proof (f_mag_nonneg f Hf a). pose proof (f_mag_nonneg f Hf b).
  assert (f_val f a * f_val f b = if s then - (f_mag f a * f_mag f b) else f_mag f a * f_mag f b) as ->
    by (unfold f_val; destruct (f_sign f a), (f_sign f b); simpl; ring).
  destruct (Z.eqb_spec (f_mag f a) 0) as [->|], (Z.eqb_spec (f_mag f b) 0) as [->|]; simpl;
    rewrite ?Z.mul_0_r, ?Z.mul_0_l; try (now destruct s).
  apply ieee_round_sign. nia.
Qed.
End MulCases.

(** ** The three multiplications as one *)

Section MulText.
Variables (signUI : Z -> bool) (expUI fracUI : Z -> Z) (packUI : bool -> Z -> Z -> Z) (of_ui : Z -> Z).
Variables (propagate : Z -> Z -> fp Z) (defaultNaN maxe : Z) (normSub : Z -> Z * Z).
Variable core : bool -> Z -> Z -> Z -> Z -> fp Z.

Definition mul_text (uiA uiB : Z) : fp Z :=
  let signZ := xorb (signUI uiA) (signUI uiB) in
  let propagateNaN := uiZ <- propagate uiA uiB ;; fret (of_ui uiZ) in
  let infArg magBits :=
    if negb (nz magBits) then
      softfloat_raiseFlags softfloat_flag_invalid ;; fret (of_ui defaultNaN)
    else fret (of_ui (packUI signZ maxe 0)) in
  let zero := fret (of_ui (packUI signZ 0 0)) in
  if expUI uiA =? maxe then
    if nz (fracUI uiA) || (expUI uiB =? maxe) && nz (fracUI uiB) then propagateNaN
    else infArg (expUI uiB .| fracUI uiB)
  else if expUI uiB =? maxe then
    if nz (fracUI uiB) then propagateNaN else infArg (expUI uiA .| fracUI uiA)
  else if negb (nz (expUI uiA)) && negb (nz (fracUI uiA)) then zero
  else
    let '(expA, sigA) := if negb (nz (expUI uiA)) then normSub (fracUI uiA) else (expUI uiA, fracUI uiA) in
    if negb (nz (expUI uiB)) && negb (nz (fracUI uiB)) then zero
    else
      let '(expB, sigB) := if negb (nz (expUI uiB)) then normSub (fracUI uiB) else (expUI uiB, fracUI uiB) in
      core signZ expA sigA expB sigB.

Context (f : fmt) (Hf : fmt_ok f) (hidden : Z).
Hypothesis Hsign : forall x, is_pattern f x -> signUI x = f_sign f x.
Hypothesis Hexp : forall x, is_pattern f x -> expUI x = f_exp f x.
Hypothesis Hfrac : forall x, fracUI x = f_frac f x.
Hypothesis Hof_ui : forall x, is_pattern f x -> of_ui x = x.
Hypothesis Hprop : forall a b st, propagate a b st = ieee_nan f (is_snan f a || is_snan f b) st.
Hypothesis Hdnan : defaultNaN = default_nan f.
Hypothesis Hmaxe : maxe = max_exp f.
Hypothesis Hinf : forall s, of_ui (packUI s maxe 0) = with_sign f s (inf_mag f).
Hypothesis Hzero : forall s, of_ui (packUI s 0 0) = sign_bit f s.
Hypothesis Hhidden : hidden = 2 ^ fb f.
Hypothesis HnormSub : forall d, 0 < d < 2 ^ fb f ->
  normSub d = (1 - (fb f - Z.log2 d), d * 2 ^ (fb f - Z.log2 d)).
Hypothesis Hcore : forall s a b eA mA eB mB st,
  norm_operand f a eA (mA .| hidden) -> norm_operand f b eB (mB .| hidden) ->
  f_exp f a < max_exp f -> f_exp f b < max_exp f ->
  core s eA mA eB mB st = round_result f s (f_mag f a * f_mag f b) (2 * emin f) st.

Lemma mag_zero_code x : nz (f_exp f x .| f_frac f x) = negb (f_mag f x =? 0) /\
  negb (nz (f_exp f x)) && negb (nz (f_frac f x)) = (f_mag f x =? 0).
Proof.
  pose proof (f_exp_range f Hf x). pose proof (f_frac_range f Hf x).
  rewrite nz_lor_frac by lia. pose proof (f_mag_zero f Hf x). unfold nz.
  destruct (Z.eqb_spec (f_exp f x) 0), (Z.eqb_spec (f_frac f x) 0), (Z.eqb_spec (f_mag f x) 0);
    simpl; split; trivial; lia.
Qed.

Lemma mul_text_correct a b st :
  is_pattern f a -> is_pattern f b -> mul_text a b st = ieee_mul f a b st.
Proof.
  intros Ha Hb. unfold mul_text. rewrite !Hsign, !Hexp, !Hfrac, Hmaxe in * by assumption. cbv zeta.
  destruct (mag_zero_code a) as [-> HzA], (mag_zero_code b) as [-> HzB].
  pose proof (f_exp_range f Hf a). pose proof (f_exp_range f Hf b).
  pose proof (is_nan_iff f a) as Hna. pose proof (is_nan_iff f b) as Hnb.
  assert (Hnan : is_nan f a = true \/ is_nan f b = true ->
    (uiZ <- propagate a b ;; fret (of_ui uiZ)) st = ieee_mul f a b st).
  { intros H1. rewrite mul_nan by assumption. unfold fbind. rewrite Hprop. unfold ieee_nan, fret.
    now rewrite Hof_ui by (apply default_nan_pattern, Hf). }
  assert (Hspecial : forall y,
    (if negb (negb (f_mag f y =? 0))
     then softfloat_raiseFlags softfloat_flag_invalid ;; fret (of_ui defaultNaN)
     else fret (of_ui (packUI (xorb (f_sign f a) (f_sign f b)) (max_exp f) 0))) st
    = if f_mag f y =? 0 then ieee_nan f true st
      else (with_sign f (xorb (f_sign f a) (f_sign f b)) (inf_mag f), st)).
  { intros y. rewrite negb_involutive. destruct (f_mag f y =? 0).
    - unfold fbind, softfloat_raiseFlags, fret, ieee_nan.
      now rewrite Hdnan, Hof_ui by (apply default_nan_pattern, Hf).
    - unfold fret. now rewrite Hinf. }
  destruct (Z.eqb_spec (f_exp f a) (max_exp f)) as [EA|EA].
  - destruct (nz (f_frac f a) || _) eqn:Hc.
    + apply Hnan. apply orb_true_iff in Hc as [Hc|Hc].
      * left. apply Hna. split; [exact EA|now apply nz_true].
      * right. apply andb_prop in Hc as [E F]. apply Hnb. split; [now apply Z.eqb_eq|now apply nz_true].
    + apply orb_false_iff in Hc as [Hfa Hfb]. apply nz_false in Hfa. rewrite Hspecial.
      symmetry. apply (mul_inf f Hf a b st a b); [tauto|now apply is_inf_iff|].
      apply not_true_iff_false. rewrite Hnb. intros [E F]. rewrite E, Z.eqb_refl in Hfb.
      apply nz_true in F. rewrite F in Hfb. discriminate.
  - assert (is_finite f a = true) as HfA by now apply is_finite_iff.
    destruct (Z.eqb_spec (f_exp f b) (max_exp f)) as [EB|EB].
    + on_nz (f_frac f b); [apply Hnan; right; now apply Hnb|]. rewrite Hspecial.
      symmetry. apply (mul_inf f Hf a b st b a); [tauto|now apply is_inf_iff|].
      apply not_true_iff_false. rewrite Hna. tauto.
    + assert (is_finite f b = true) as HfB by now apply is_finite_iff.
      rewrite mul_finite by assumption. rewrite HzA, HzB.
      pose proof (normalize_code f Hf normSub hidden Hhidden HnormSub a) as HnA.
      pose proof (normalize_code f Hf normSub hidden Hhidden HnormSub b) as HnB.
      rewrite HzA in HnA. rewrite HzB in HnB.
      destruct (f_mag f a =? 0); [unfold fret; now rewrite Hzero|]. simpl orb.
      destruct (if negb (nz (f_exp f a)) then _ else _) as [eA mA].
      destruct (f_mag f b =? 0); [unfold fret; now rewrite Hzero|].
      destruct (if negb (nz (f_exp f b)) then _ else _) as [eB mB].
      apply Hcore; auto; lia.
Qed.
End MulText.

(** ** Correctness *)

Definition mul_coreF16 (signZ : bool) (expA sigA expB sigB : Z) : fp Z :=
  let expZ := s8 (expA + expB - 0xF) in
  let sigA := u64 ((sigA .| 0x0400) .<< 4) in
  let sigB := u64 ((sigB .| 0x0400) .<< 5) in
  let sig32Z := u64 (sigA * sigB) in
  let sigZ := sig32Z .>> 16 in
  let sigZ := if nz (sig32Z .& 0xFFFF) then sigZ .| 1 else sigZ in
  if sigZ <? 0x4000 then softfloat_roundPackToF16 signZ (s8 (expZ - 1)) (u64 (sigZ .<< 1))
  else softfloat_roundPackToF16 signZ expZ sigZ.

Definition mul_coreF32 (signZ : bool) (expA sigA expB sigB : Z) : fp Z :=
  let expZ := s64 (expA + expB - 0x7F) in
  let sigA := u64 ((sigA .| 0x00800000) .<< 7) in
  let sigB := u64 ((sigB .| 0x00800000) .<< 8) in
  let sigZ := softfloat_shortShiftRightJam64 (u64 (sigA * sigB)) 32 in
  if sigZ <? 0x40000000 then softfloat_roundPackToF32 signZ (s64 (expZ - 1)) (u64 (sigZ .<< 1))
  else softfloat_roundPackToF32 signZ expZ sigZ.

Definition mul_coreF64 (signZ : bool) (expA sigA expB sigB : Z) : fp Z :=
  let expZ := s64 (expA + expB - 0x3FF) in
  let sigA := u64 ((sigA .| 0x0010000000000000) .<< 10) in
  let sigB := u64 ((sigB .| 0x0010000000000000) .<< 11) in
  let '(v64, v0) := softfloat_mul64To128 sigA sigB in
  let sigZ := v64 .| b2z (nz v0) in
  if sigZ <? 0x4000000000000000 then
    softfloat_roundPackToF64 signZ (s64 (expZ - 1)) (u64 (sigZ .<< 1))
  else softfloat_roundPackToF64 signZ expZ sigZ.

Lemma mul_coreF16_correct s a b eA mA eB mB st :
  norm_operand F16 a eA (mA .| 0x0400) -> norm_operand F16 b eB (mB .| 0x0400) ->
  f_exp F16 a < max_exp F16 -> f_exp F16 b < max_exp F16 ->
  mul_coreF16 s eA mA eB mB st = round_result F16 s (f_mag F16 a * f_mag F16 b) (2 * emin F16) st.
Proof.
  intros HA HB Ha Hb.
  pose proof (product_range F16 fmt_ok_F16 a b eA _ eB _ HA HB 4 32 ltac:(lia) ltac:(simpl; lia)) as [Hp Hz].
  pose proof (norm_exp_range F16 fmt_ok_F16 a eA _ HA Ha). pose proof (norm_exp_range F16 fmt_ok_F16 b eB _ HB Hb).
  pose proof (product_core F16 fmt_ok_F16 a b eA _ eB _ HA HB 4 32 ltac:(lia) ltac:(simpl; lia) ltac:(simpl; lia)
    softfloat_roundPackToF16 ltac:(intros; apply roundPackToF16_correct; assumption) Ha Hb s _ st eq_refl) as Hpc.
  cbv zeta in Hpc. rewrite <- Hpc. clear Hpc.
  destruct HA as (HmA & _), HB as (HmB & _). unfold mul_coreF16. cbv zeta.
  change (fb F16) with 10 in *. change (max_exp F16) with 31 in *. change (2 ^ (eb F16 - 1) - 1) with 15.
  change (10 + 4 + 2) with 16 in *. change (4 + 1) with 5 in *. change (10 + 1) with 11 in *.
  change (10 + 4 + 1) with 15 in *. change (15 + 16) with 31 in *.
  rewrite !(shiftl_mul _ 4), !(shiftl_mul _ 5), (uwrap_small 64 (_ * 2 ^ 4)), (uwrap_small 64 (_ * 2 ^ 5)) by lia.
  set (P := _ * 2 ^ 4 * (_ * 2 ^ 5)) in *.
  rewrite (uwrap_small 64 P), (land_mod P _ 16), shiftr_div by lia.
  assert ((if nz (P mod 2 ^ 16) then (P / 2 ^ 16) .| 1 else P / 2 ^ 16) = jam P 16) as ->.
  { unfold jam, nz. destruct (P mod 2 ^ 16 =? 0); simpl; [now rewrite Z.lor_0_r|reflexivity]. }
  rewrite shiftl_mul, Z.pow_1_r, uwrap_small, (swrap_small 8 (eA + eB - _)), swrap_small by lia.
  change (2 ^ (10 + 4)) with 0x4000. now destruct (_ <? _).
Qed.

Lemma mul_coreF32_correct s a b eA mA eB mB st :
  norm_operand F32 a eA (mA .| 0x00800000) -> norm_operand F32 b eB (mB .| 0x00800000) ->
  f_exp F32 a < max_exp F32 -> f_exp F32 b < max_exp F32 ->
  mul_coreF32 s eA mA eB mB st = round_result F32 s (f_mag F32 a * f_mag F32 b) (2 * emin F32) st.
Proof.
  intros HA HB Ha Hb.
  pose proof (product_range F32 fmt_ok_F32 a b eA _ eB _ HA HB 7 32 ltac:(lia) ltac:(simpl; lia)) as [Hp Hz].
  pose proof (norm_exp_range F32 fmt_ok_F32 a eA _ HA Ha). pose proof (norm_exp_range F32 fmt_ok_F32 b eB _ HB Hb).
  pose proof (product_core F32 fmt_ok_F32 a b eA _ eB _ HA HB 7 32 ltac:(lia) ltac:(simpl; lia) ltac:(simpl; lia)
    softfloat_roundPackToF32 ltac:(intros; apply roundPackToF32_correct; assumption) Ha Hb s _ st eq_refl) as Hpc.
  cbv zeta in Hpc. rewrite <- Hpc. clear Hpc.
  destruct HA as (HmA & _), HB as (HmB & _). unfold mul_coreF32. cbv zeta.
  change (fb F32) with 23 in *. change (max_exp F32) with 255 in *. change (2 ^ (eb F32 - 1) - 1) with 127.
  change (23 + 7 + 2) with 32 in *. change (7 + 1) with 8 in *. change (23 + 1) with 24 in *.
  change (23 + 7 + 1) with 31 in *. change (31 + 32) with 63 in *.
  rewrite !(shiftl_mul _ 7), !(shiftl_mul _ 8), (uwrap_small 64 (_ * 2 ^ 7)), (uwrap_small 64 (_ * 2 ^ 8)) by lia.
  set (P := _ * 2 ^ 7 * (_ * 2 ^ 8)) in *.
  rewrite (uwrap_small 64 P), shortShiftRightJam64_jam by lia.
  rewrite shiftl_mul, Z.pow_1_r, uwrap_small, (swrap_small 64 (eA + eB - _)), swrap_small by lia.
  change (2 ^ (23 + 7)) with 0x40000000. now destruct (_ <? _).
Qed.

Lemma mul_coreF64_correct s a b eA mA eB mB st :
  norm_operand F64 a eA (mA .| 0x0010000000000000) -> norm_operand F64 b eB (mB .| 0x0010000000000000) ->
  f_exp F64 a < max_exp F64 -> f_exp F64 b < max_exp F64 ->
  mul_coreF64 s eA mA eB mB st = round_result F64 s (f_mag F64 a * f_mag F64 b) (2 * emin F64) st.
Proof.
  intros HA HB Ha Hb.
  pose proof (product_range F64 fmt_ok_F64 a b eA _ eB _ HA HB 10 16 ltac:(lia) ltac:(simpl; lia)) as [Hp Hz].
  pose proof (norm_exp_range F64 fmt_ok_F64 a eA _ HA Ha). pose proof (norm_exp_range F64 fmt_ok_F64 b eB _ HB Hb).
  pose proof (product_core F64 fmt_ok_F64 a b eA _ eB _ HA HB 10 16 ltac:(lia) ltac:(simpl; lia) ltac:(simpl; lia)
    softfloat_roundPackToF64 ltac:(intros; apply roundPackToF64_correct; assumption) Ha Hb s _ st eq_refl) as Hpc.
  cbv zeta in Hpc. rewrite <- Hpc. clear Hpc.
  destruct HA as (HmA & _), HB as (HmB & _). unfold mul_coreF64. cbv zeta.
  change (fb F64) with 52 in *. change (max_exp F64) with 2047 in *. change (2 ^ (eb F64 - 1) - 1) with 1023.
  change (52 + 10 + 2) with 64 in *. change (10 + 1) with 11 in *. change (52 + 1) with 53 in *.
  change (52 + 10 + 1) with 63 in *.
  rewrite !(shiftl_mul _ 10), !(shiftl_mul _ 11), (uwrap_small 64 (_ * 2 ^ 10)), (uwrap_small 64 (_ * 2 ^ 11)) by lia.
  rewrite mul64To128_correct by lia.
  set (P := _ * 2 ^ 10 * (_ * 2 ^ 11)) in *.
  change ((P / 2 ^ 64) .| b2z (nz (P mod 2 ^ 64))) with (jam P 64).
  rewrite shiftl_mul, Z.pow_1_r, uwrap_small, (swrap_small 64 (eA + eB - _)), swrap_small by lia.
  change (2 ^ (52 + 10)) with 0x4000000000000000. now destruct (_ <? _).
Qed.

Lemma f16_mul_correct a b st :
  is_pattern F16 a -> is_pattern F16 b -> f16_mul a b st = ieee_mul F16 a b st.
Proof.
  apply (mul_text_correct signF16UI expF16UI fracF16UI packToF16UI f16_of_ui softfloat_propagateNaNF16UI
    defaultNaNF16UI 0x1F softfloat_normSubnormalF16Sig mul_coreF16 F16 fmt_ok_F16 0x0400);
    auto using signF16UI_eq, expF16UI_eq, fracF16UI_eq, of_ui16, propagateNaNF16UI_eq, normSubnormalF16_spec,
      mul_coreF16_correct; now intros [].
Qed.

Lemma f32_mul_correct a b st :
  is_pattern F32 a -> is_pattern F32 b -> f32_mul a b st = ieee_mul F32 a b st.
Proof.
  apply (mul_text_correct signF32UI expF32UI fracF32UI packToF32UI f32_of_ui softfloat_propagateNaNF32UI
    defaultNaNF32UI 0xFF softfloat_normSubnormalF32Sig mul_coreF32 F32 fmt_ok_F32 0x00800000);
    auto using signF32UI_eq, expF32UI_eq, fracF32UI_eq, of_ui32, propagateNaNF32UI_eq, normSubnormalF32_spec,
      mul_coreF32_correct; now intros [].
Qed.

Lemma f64_mul_correct a b st :
  is_pattern F64 a -> is_pattern F64 b -> f64_mul a b st = ieee_mul F64 a b st.
Proof.
  apply (mul_text_correct signF64UI expF64UI fracF64UI packToF64UI f64_of_ui softfloat_propagateNaNF64UI
    defaultNaNF64UI 0x7FF softfloat_normSubnormalF64Sig mul_coreF64 F64 fmt_ok_F64 0x0010000000000000);
    auto using signF64UI_eq, expF64UI_eq, fracF64UI_eq, of_ui64, propagateNaNF64UI_eq, normSubnormalF64_spec,
      mul_coreF64_correct; now intros [].
Qed.
