(* ===== verification/SFCompare.v ===== *)
(** * SoftFloat: comparisons, classification and NaN tests

    [eq], [le] and [lt] with their signaling and quiet variants, [isSignalingNaN]
    and [classify] of the three formats.  The comparisons work on the bit
    patterns; the theorems say that they decide the order of the values, that
    unordered operands compare false, and which of them raise invalid. *)

From Stdlib Require Import ZArith Lia Bool List.
From S2P Require Import Prelude SFBase SFSpec SFRound SFValue SFAddSub SFAddSub16 SFMul.

(** ** Operations *)

Definition f16_eq (a b : Z) : fp bool :=
  let uiA := a in
  let uiB := b in
  if isNaNF16UI uiA || isNaNF16UI uiB then
    (if softfloat_isSigNaNF16UI uiA || softfloat_isSigNaNF16UI uiB
     then softfloat_raiseFlags softfloat_flag_invalid else fret tt) ;;
    fret false
  else
    fret ((uiA =? uiB) || negb (nz (u16 ((uiA .| uiB) .<< 1)))).

Definition f16_eq_signaling (a b : Z) : fp bool :=
  let uiA := a in
  let uiB := b in
  if isNaNF16UI uiA || isNaNF16UI uiB then
    softfloat_raiseFlags softfloat_flag_invalid ;;
    fret false
  else
    fret ((uiA =? uiB) || negb (nz (u16 ((uiA .| uiB) .<< 1)))).

Definition f16_le (a b : Z) : fp bool :=
  let uiA := a in
  let uiB := b in
  if isNaNF16UI uiA || isNaNF16UI uiB then
    softfloat_raiseFlags softfloat_flag_invalid ;;
    fret false
  else
    let signA := signF16UI uiA in
    let signB := signF16UI uiB in
    fret (if negb (Bool.eqb signA signB) then signA || negb (nz (u16 ((uiA .| uiB) .<< 1)))
          else (uiA =? uiB) || xorb signA (uiA <? uiB)).

Definition f16_le_quiet (a b : Z) : fp bool :=
  let uiA := a in
  let uiB := b in
  if isNaNF16UI uiA || isNaNF16UI uiB then
    (if softfloat_isSigNaNF16UI uiA || softfloat_isSigNaNF16UI uiB
     then softfloat_raiseFlags softfloat_flag_invalid else fret tt) ;;
    fret false
  else
    let signA := signF16UI uiA in
    let signB := signF16UI uiB in
    fret (if negb (Bool.eqb signA signB) then signA || negb (nz (u16 ((uiA .| uiB) .<< 1)))
          else (uiA =? uiB) || xorb signA (uiA <? uiB)).

Definition f16_lt (a b : Z) : fp bool :=
  let uiA := a in
  let uiB := b in
  if isNaNF16UI uiA || isNaNF16UI uiB then
    softfloat_raiseFlags softfloat_flag_invalid ;;
    fret false
  else
    let signA := signF16UI uiA in
    let signB := signF16UI uiB in
    fret (if negb (Bool.eqb signA signB) then signA && nz (u16 ((uiA .| uiB) .<< 1))
          else negb (uiA =? uiB) && xorb signA (uiA <? uiB)).

Definition f16_lt_quiet (a b : Z) : fp bool :=
  let uiA := a in
  let uiB := b in
  if isNaNF16UI uiA || isNaNF16UI uiB then
    (if softfloat_isSigNaNF16UI uiA || softfloat_isSigNaNF16UI uiB
     then softfloat_raiseFlags softfloat_flag_invalid else fret tt) ;;
    fret false
  else
    let signA := signF16UI uiA in
    let signB := signF16UI uiB in
    fret (if negb (Bool.eqb signA signB) then signA && nz (u16 ((uiA .| uiB) .<< 1))
          else negb (uiA =? uiB) && xorb signA (uiA <? uiB)).

Definition f16_isSignalingNaN (a : Z) : bool := softfloat_isSigNaNF16UI a.

Definition f16_classify (a : Z) : Z :=
  let uiA := a in
  let infOrNaN := expF16UI uiA =? 0x1F in
  let subnormalOrZero := expF16UI uiA =? 0 in
  let sign := signF16UI uiA in
  let fracZero := fracF16UI uiA =? 0 in
  let isNaN := isNaNF16UI uiA in
  let isSNaN := softfloat_isSigNaNF16UI uiA in
  (b2z (sign && infOrNaN && fracZero) .<< 0) .|
  (b2z (sign && negb infOrNaN && negb subnormalOrZero) .<< 1) .|
  (b2z (sign && subnormalOrZero && negb fracZero) .<< 2) .|
  (b2z (sign && subnormalOrZero && fracZero) .<< 3) .|
  (b2z (negb sign && infOrNaN && fracZero) .<< 7) .|
  (b2z (negb sign && negb infOrNaN && negb subnormalOrZero) .<< 6) .|
  (b2z (negb sign && subnormalOrZero && negb fracZero) .<< 5) .|
  (b2z (negb sign && subnormalOrZero && fracZero) .<< 4) .|
  (b2z (isNaN && isSNaN) .<< 8) .|
  (b2z (isNaN && negb isSNaN) .<< 9).

Definition f32_eq (a b : Z) : fp bool :=
  let uiA := a in
  let uiB := b in
  if isNaNF32UI uiA || isNaNF32UI uiB then
    (if softfloat_isSigNaNF32UI uiA || softfloat_isSigNaNF32UI uiB
     then softfloat_raiseFlags softfloat_flag_invalid else fret tt) ;;
    fret false
  else
    fret ((uiA =? uiB) || negb (nz (u32 ((uiA .| uiB) .<< 1)))).

Definition f32_eq_signaling (a b : Z) : fp bool :=
  let uiA := a in
  let uiB := b in
  if isNaNF32UI uiA || isNaNF32UI uiB then
    softfloat_raiseFlags softfloat_flag_invalid ;;
    fret false
  else
    fret ((uiA =? uiB) || negb (nz (u32 ((uiA .| uiB) .<< 1)))).

Definition f32_le (a b : Z) : fp bool :=
  let uiA := a in
  let uiB := b in
  if isNaNF32UI uiA || isNaNF32UI uiB then
    softfloat_raiseFlags softfloat_flag_invalid ;;
    fret false
  else
    let signA := signF32UI uiA in
    let signB := signF32UI uiB in
    fret (if negb (Bool.eqb signA signB) then signA || negb (nz (u32 ((uiA .| uiB) .<< 1)))
          else (uiA =? uiB) || xorb signA (uiA <? uiB)).

Definition f32_le_quiet (a b : Z) : fp bool :=
  let uiA := a in
  let uiB := b in
  if isNaNF32UI uiA || isNaNF32UI uiB then
    (if softfloat_isSigNaNF32UI uiA || softfloat_isSigNaNF32UI uiB
     then softfloat_raiseFlags softfloat_flag_invalid else fret tt) ;;
    fret false
  else
    let signA := signF32UI uiA in
    let signB := signF32UI uiB in
    fret (if negb (Bool.eqb signA signB) then signA || negb (nz (u32 ((uiA .| uiB) .<< 1)))
          else (uiA =? uiB) || xorb signA (uiA <? uiB)).

Definition f32_lt (a b : Z) : fp bool :=
  let uiA := a in
  let uiB := b in
  if isNaNF32UI uiA || isNaNF32UI uiB then
    softfloat_raiseFlags softfloat_flag_invalid ;;
    fret false
  else
    let signA := signF32UI uiA in
    let signB := signF32UI uiB in
    fret (if negb (Bool.eqb signA signB) then signA && nz (u32 ((uiA .| uiB) .<< 1))
          else negb (uiA =? uiB) && xorb signA (uiA <? uiB)).

Definition f32_lt_quiet (a b : Z) : fp bool :=
  let uiA := a in
  let uiB := b in
  if isNaNF32UI uiA || isNaNF32UI uiB then
    (if softfloat_isSigNaNF32UI uiA || softfloat_isSigNaNF32UI uiB
     then softfloat_raiseFlags softfloat_flag_invalid else fret tt) ;;
    fret false
  else
    let signA := signF32UI uiA in
    let signB := signF32UI uiB in
    fret (if negb (Bool.eqb signA signB) then signA && nz (u32 ((uiA .| uiB) .<< 1))
          else negb (uiA =? uiB) && xorb signA (uiA <? uiB)).

Definition f32_isSignalingNaN (a : Z) : bool := softfloat_isSigNaNF32UI a.

Definition f32_classify (a : Z) : Z :=
  let uiA := a in
  let infOrNaN := expF32UI uiA =? 0xFF in
  let subnormalOrZero := expF32UI uiA =? 0 in
  let sign := signF32UI uiA in
  let fracZero := fracF32UI uiA =? 0 in
  let isNaN := isNaNF32UI uiA in
  let isSNaN := softfloat_isSigNaNF32UI uiA in
  (b2z (sign && infOrNaN && fracZero) .<< 0) .|
  (b2z (sign && negb infOrNaN && negb subnormalOrZero) .<< 1) .|
  (b2z (sign && subnormalOrZero && negb fracZero) .<< 2) .|
  (b2z (sign && subnormalOrZero && fracZero) .<< 3) .|
  (b2z (negb sign && infOrNaN && fracZero) .<< 7) .|
  (b2z (negb sign && negb infOrNaN && negb subnormalOrZero) .<< 6) .|
  (b2z (negb sign && subnormalOrZero && negb fracZero) .<< 5) .|
  (b2z (negb sign && subnormalOrZero && fracZero) .<< 4) .|
  (b2z (isNaN && isSNaN) .<< 8) .|
  (b2z (isNaN && negb isSNaN) .<< 9).

Definition f64_eq (a b : Z) : fp bool :=
  let uiA := a in
  let uiB := b in
  if isNaNF64UI uiA || isNaNF64UI uiB then
    (if softfloat_isSigNaNF64UI uiA || softfloat_isSigNaNF64UI uiB
     then softfloat_raiseFlags softfloat_flag_invalid else fret tt) ;;
    fret false
  else
    fret ((uiA =? uiB) || negb (nz ((uiA .| uiB) .& 0x7FFFFFFFFFFFFFFF))).

Definition f64_eq_signaling (a b : Z) : fp bool :=
  let uiA := a in
  let uiB := b in
  if isNaNF64UI uiA || isNaNF64UI uiB then
    softfloat_raiseFlags softfloat_flag_invalid ;;
    fret false
  else
    fret ((uiA =? uiB) || negb (nz ((uiA .| uiB) .& 0x7FFFFFFFFFFFFFFF))).

Definition f64_le (a b : Z) : fp bool :=
  let uiA := a in
  let uiB := b in
  if isNaNF64UI uiA || isNaNF64UI uiB then
    softfloat_raiseFlags softfloat_flag_invalid ;;
    fret false
  else
    let signA := signF64UI uiA in
    let signB := signF64UI uiB in
    fret (if negb (Bool.eqb signA signB) then signA || negb (nz ((uiA .| uiB) .& 0x7FFFFFFFFFFFFFFF))
          else (uiA =? uiB) || xorb signA (uiA <? uiB)).

Definition f64_le_quiet (a b : Z) : fp bool :=
  let uiA := a in
  let uiB := b in
  if isNaNF64UI uiA || isNaNF64UI uiB then
    (if softfloat_isSigNaNF64UI uiA || softfloat_isSigNaNF64UI uiB
     then softfloat_raiseFlags softfloat_flag_invalid else fret tt) ;;
    fret false
  else
    let signA := signF64UI uiA in
    let signB := signF64UI uiB in
    fret (if negb (Bool.eqb signA signB) then signA || negb (nz ((uiA .| uiB) .& 0x7FFFFFFFFFFFFFFF))
          else (uiA =? uiB) || xorb signA (uiA <? uiB)).

Definition f64_lt (a b : Z) : fp bool :=
  let uiA := a in
  let uiB := b in
  if isNaNF64UI uiA || isNaNF64UI uiB then
    softfloat_raiseFlags softfloat_flag_invalid ;;
    fret false
  else
    let signA := signF64UI uiA in
    let signB := signF64UI uiB in
    fret (if negb (Bool.eqb signA signB) then signA && nz ((uiA .| uiB) .& 0x7FFFFFFFFFFFFFFF)
          else negb (uiA =? uiB) && xorb signA (uiA <? uiB)).

Definition f64_lt_quiet (a b : Z) : fp bool :=
  let uiA := a in
  let uiB := b in
  if isNaNF64UI uiA || isNaNF64UI uiB then
    (if softfloat_isSigNaNF64UI uiA || softfloat_isSigNaNF64UI uiB
     then softfloat_raiseFlags softfloat_flag_invalid else fret tt) ;;
    fret false
  else
    let signA := signF64UI uiA in
    let signB := signF64UI uiB in
    fret (if negb (Bool.eqb signA signB) then signA && nz ((uiA .| uiB) .& 0x7FFFFFFFFFFFFFFF)
          else negb (uiA =? uiB) && xorb signA (uiA <? uiB)).

Definition f64_isSignalingNaN (a : Z) : bool := softfloat_isSigNaNF64UI a.

Definition f64_classify (a : Z) : Z :=
  let uiA := a in
  let infOrNaN := expF64UI uiA =? 0x7FF in
  let subnormalOrZero := expF64UI uiA =? 0 in
  let sign := signF64UI uiA in
  let fracZero := fracF64UI uiA =? 0 in
  let isNaN := isNaNF64UI uiA in
  let isSNaN := softfloat_isSigNaNF64UI uiA in
  (b2z (sign && infOrNaN && fracZero) .<< 0) .|
  (b2z (sign && negb infOrNaN && negb subnormalOrZero) .<< 1) .|
  (b2z (sign && subnormalOrZero && negb fracZero) .<< 2) .|
  (b2z (sign && subnormalOrZero && fracZero) .<< 3) .|
  (b2z (negb sign && infOrNaN && fracZero) .<< 7) .|
  (b2z (negb sign && negb infOrNaN && negb subnormalOrZero) .<< 6) .|
  (b2z (negb sign && subnormalOrZero && negb fracZero) .<< 5) .|
  (b2z (negb sign && subnormalOrZero && fracZero) .<< 4) .|
  (b2z (isNaN && isSNaN) .<< 8) .|
  (b2z (isNaN && negb isSNaN) .<< 9).

(** ** The reference *)

(** The order of values decides; [f_val] orders the infinities correctly too. *)
Definition ieee_cmp (f : fmt) (signaling : bool) (test : Z -> Z -> bool) (a b : Z) : fp bool :=
  fun st =>
    if is_nan f a || is_nan f b then
      (false, raise (if signaling || is_snan f a || is_snan f b then softfloat_flag_invalid else 0) st)
    else (test (f_val f a) (f_val f b), st).

(** The ten classes of RISC-V [FCLASS], as bit positions. *)
Definition class_of (f : fmt) (a : Z) : Z :=
  if is_nan f a then (if is_snan f a then 8 else 9)
  else if is_inf f a then (if f_sign f a then 0 else 7)
  else if f_mag f a =? 0 then (if f_sign f a then 3 else 4)
  else if f_exp f a =? 0 then (if f_sign f a then 2 else 5)
  else (if f_sign f a then 1 else 6).

(** ** Magnitude bits and values *)

Section Order.
Context (f : fmt) (Hf : fmt_ok f).

Definition mag_bits (a : Z) : Z := f_exp f a * 2 ^ fb f + f_frac f a.

Lemma mag_bits_lt a b : mag_bits a < mag_bits b <-> f_mag f a < f_mag f b.
Proof.
  assert (H : forall x y, f_exp f x < f_exp f y -> mag_bits x < mag_bits y /\ f_mag f x < f_mag f y).
  { intros x y Hxy. split; [|now apply aligned_mag_lt].
    pose proof (f_frac_range f Hf x). pose proof (f_frac_range f Hf y). unfold mag_bits.
    assert ((f_exp f x + 1) * 2 ^ fb f <= f_exp f y * 2 ^ fb f) by (apply Z.mul_le_mono_nonneg_r; lia). lia. }
  destruct (Z.lt_trichotomy (f_exp f a) (f_exp f b)) as [Hlt|[Heq|Hgt]].
  - specialize (H a b Hlt). lia.
  - destruct (same_mags f a b Heq) as [-> ->]. pose proof (same_mant_diff f a b Heq).
    pose proof (pow2_pos (f_shift f a) ltac:(unfold f_shift; lia)). unfold mag_bits. rewrite Heq, <- Z.mul_lt_mono_pos_r by lia. lia.
  - specialize (H b a Hgt). lia.
Qed.

Lemma mag_bits_pattern a : is_pattern f a -> a = sign_bit f (f_sign f a) + mag_bits a.
Proof. intros Hp. rewrite (pattern_fields f Hf a Hp) at 1. unfold mag_bits. lia. Qed.

Lemma mag_bits_range a : 0 <= mag_bits a < 2 ^ (fb f + eb f).
Proof.
  pose proof (f_frac_range f Hf a). pose proof (f_exp_range f Hf a). destruct Hf.
  unfold mag_bits, max_exp in *. rewrite pow2_split by lia. nia.
Qed.

Lemma mag_bits_zero a : mag_bits a = 0 <-> f_mag f a = 0.
Proof.
  pose proof (f_frac_range f Hf a). pose proof (f_exp_range f Hf a). rewrite (f_mag_zero f Hf).
  unfold mag_bits. destruct Hf. pose proof (pow2_pos (fb f)). nia.
Qed.

Variables (a b : Z).
Hypothesis Ha : is_pattern f a.
Hypothesis Hb : is_pattern f b.

(** The zero test the code makes on both operands. *)
Definition both_zero : bool := (f_mag f a =? 0) && (f_mag f b =? 0).

Lemma order_facts :
  (mag_bits a < mag_bits b <-> f_mag f a < f_mag f b) /\ (mag_bits b < mag_bits a <-> f_mag f b < f_mag f a)
  /\ 0 <= f_mag f a /\ 0 <= f_mag f b /\ 0 <= mag_bits a < 2 ^ (fb f + eb f)
  /\ 0 <= mag_bits b < 2 ^ (fb f + eb f)
  /\ a = sign_bit f (f_sign f a) + mag_bits a /\ b = sign_bit f (f_sign f b) + mag_bits b.
Proof.
  repeat split; try (apply mag_bits_lt); try (apply f_mag_nonneg; exact Hf);
    try apply mag_bits_range; apply mag_bits_pattern; assumption.
Qed.

Lemma eq_bits : (a =? b) || both_zero = (f_val f a =? f_val f b).
Proof.
  destruct order_facts as (H1 & H2 & H3 & H4 & H5 & H6 & Ea & Eb).
  unfold both_zero, f_val, sign_bit in *. apply eq_true_iff_eq.
  rewrite orb_true_iff, andb_true_iff, !Z.eqb_eq. destruct (f_sign f a), (f_sign f b); lia.
Qed.

Lemma le_bits :
  (if negb (Bool.eqb (f_sign f a) (f_sign f b)) then f_sign f a || both_zero
   else (a =? b) || xorb (f_sign f a) (a <? b)) = (f_val f a <=? f_val f b).
Proof.
  destruct order_facts as (H1 & H2 & H3 & H4 & H5 & H6 & Ea & Eb).
  unfold both_zero, f_val, sign_bit in *. apply eq_true_iff_eq.
  destruct (f_sign f a), (f_sign f b); cbn [negb Bool.eqb orb];
    rewrite ?xorb_true_l, ?xorb_false_l, ?orb_true_iff, ?andb_true_iff, ?negb_true_iff, ?Z.eqb_eq, ?Z.ltb_lt, ?Z.ltb_ge, ?Z.leb_le; lia.
Qed.

Lemma lt_bits :
  (if negb (Bool.eqb (f_sign f a) (f_sign f b)) then f_sign f a && negb both_zero
   else negb (a =? b) && xorb (f_sign f a) (a <? b)) = (f_val f a <? f_val f b).
Proof.
  destruct order_facts as (H1 & H2 & H3 & H4 & H5 & H6 & Ea & Eb).
  unfold both_zero, f_val, sign_bit in *. apply eq_true_iff_eq.
  destruct (f_sign f a), (f_sign f b); cbn [negb Bool.eqb andb];
    rewrite ?xorb_true_l, ?xorb_false_l, ?andb_true_iff, ?negb_true_iff, ?andb_false_iff, ?Z.eqb_neq, ?Z.eqb_eq, ?Z.ltb_lt, ?Z.ltb_ge; lia.
Qed.

(** Or-ing the patterns and dropping the sign tests both for zero. *)
Lemma both_zero_or : negb (nz ((a .| b) mod 2 ^ (fb f + eb f))) = both_zero.
Proof.
  destruct order_facts as (_ & _ & _ & _ & H5 & H6 & Ea & Eb). destruct Hf.
  unfold both_zero, nz. rewrite negb_involutive. apply eq_true_iff_eq.
  rewrite andb_true_iff, !Z.eqb_eq, <- !mag_bits_zero, <- Z.land_ones by lia.
  assert (Hm : forall x, 0 <= mag_bits x < 2 ^ (fb f + eb f) -> x = sign_bit f (f_sign f x) + mag_bits x ->
            Z.land x (Z.ones (fb f + eb f)) = mag_bits x).
  { intros x Hx Ex. rewrite Z.land_ones by lia. rewrite Ex at 1. unfold sign_bit.
    destruct (f_sign f x).
    - symmetry. apply Z.mod_unique with (q := 1); lia.
    - apply Z.mod_small. lia. }
  rewrite Z.land_lor_distr_l, !Hm, Z.lor_eq_0_iff by assumption. reflexivity.
Qed.
End Order.

(** [(uintN_t) (x << 1)] drops the sign bit. *)
Lemma shl1_zero W x : 0 < W -> nz (uwrap W (x .<< 1)) = nz (x mod 2 ^ (W - 1)).
Proof.
  intros HW. unfold nz, uwrap. f_equal. rewrite shiftl_mul by lia.
  rewrite (pow2_pred W) by lia. rewrite (Z.mul_comm 2), Z.pow_1_r.
  pose proof (pow2_pos (W - 1) ltac:(lia)).
  rewrite Z.mul_mod_distr_r by lia. apply eq_true_iff_eq. rewrite !Z.eqb_eq. lia.
Qed.

(** ** The comparisons as three texts *)

Section CompareText.
Context (f : fmt) (Hf : fmt_ok f).
Context (isNaN isSig : Z -> bool) (signUI : Z -> bool) (any : Z -> Z -> Z).
Hypothesis HisNaN : forall x, isNaN x = is_nan f x.
Hypothesis HisSig : forall x, isSig x = is_snan f x.
Hypothesis Hsign : forall x, is_pattern f x -> signUI x = f_sign f x.
Hypothesis Hany : forall a b, is_pattern f a -> is_pattern f b -> negb (nz (any a b)) = both_zero f a b.

Definition quiet_text (res : Z -> Z -> bool) (a b : Z) : fp bool :=
  if isNaN a || isNaN b then
    (if isSig a || isSig b then softfloat_raiseFlags softfloat_flag_invalid else fret tt) ;; fret false
  else fret (res a b).

Definition signaling_text (res : Z -> Z -> bool) (a b : Z) : fp bool :=
  if isNaN a || isNaN b then softfloat_raiseFlags softfloat_flag_invalid ;; fret false
  else fret (res a b).

Definition eq_res (a b : Z) : bool := (a =? b) || negb (nz (any a b)).
Definition le_res (a b : Z) : bool :=
  if negb (Bool.eqb (signUI a) (signUI b)) then signUI a || negb (nz (any a b))
  else (a =? b) || xorb (signUI a) (a <? b).
Definition lt_res (a b : Z) : bool :=
  if negb (Bool.eqb (signUI a) (signUI b)) then signUI a && nz (any a b)
  else negb (a =? b) && xorb (signUI a) (a <? b).

Section Operands.
Variables (a b : Z) (st : fp_state).
Hypothesis Ha : is_pattern f a.
Hypothesis Hb : is_pattern f b.

Lemma quiet_text_correct res test :
  res a b = test (f_val f a) (f_val f b) ->
  quiet_text res a b st = ieee_cmp f false test a b st.
Proof.
  intros Hr. unfold quiet_text, ieee_cmp. rewrite !HisNaN, !HisSig, Hr. simpl orb.
  destruct (_ || _); [|reflexivity].
  destruct (is_snan f a || is_snan f b); unfold fbind, fret; rewrite ?raise_0; reflexivity.
Qed.

Lemma signaling_text_correct res test :
  res a b = test (f_val f a) (f_val f b) ->
  signaling_text res a b st = ieee_cmp f true test a b st.
Proof.
  intros Hr. unfold signaling_text, ieee_cmp. rewrite !HisNaN, Hr.
  now destruct (_ || _).
Qed.

Lemma eq_res_correct : eq_res a b = (f_val f a =? f_val f b).
Proof. unfold eq_res. rewrite Hany, eq_bits by assumption. reflexivity. Qed.

Lemma le_res_correct : le_res a b = (f_val f a <=? f_val f b).
Proof. unfold le_res. rewrite Hany, !Hsign by assumption. now apply le_bits. Qed.

Lemma lt_res_correct : lt_res a b = (f_val f a <? f_val f b).
Proof.
  unfold lt_res. rewrite <- (negb_involutive (nz (any a b))), Hany, !Hsign by assumption.
  now apply lt_bits.
Qed.
End Operands.
End CompareText.

(** ** Correctness *)

Lemma both_zeroF16 a b :
  is_pattern F16 a -> is_pattern F16 b -> negb (nz ((fun a b => u16 ((a .| b) .<< 1)) a b)) = both_zero F16 a b.
Proof.
  intros Ha Hb. rewrite <- both_zero_or by (trivial; apply fmt_ok_F16).
  rewrite shl1_zero by lia. reflexivity.
Qed.

Lemma f16_eq_correct a b st :
  is_pattern F16 a -> is_pattern F16 b -> f16_eq a b st = ieee_cmp F16 false Z.eqb a b st.
Proof.
  intros Ha Hb. exact (quiet_text_correct F16 isNaNF16UI softfloat_isSigNaNF16UI isNaNF16UI_eq isSigNaNF16UI_eq a b st (eq_res (fun a b => u16 ((a .| b) .<< 1))) Z.eqb
    (eq_res_correct F16 fmt_ok_F16 (fun a b => u16 ((a .| b) .<< 1)) both_zeroF16 a b Ha Hb)).
Qed.

Lemma f16_eq_signaling_correct a b st :
  is_pattern F16 a -> is_pattern F16 b -> f16_eq_signaling a b st = ieee_cmp F16 true Z.eqb a b st.
Proof.
  intros Ha Hb. exact (signaling_text_correct F16 isNaNF16UI isNaNF16UI_eq a b st (eq_res (fun a b => u16 ((a .| b) .<< 1))) Z.eqb
    (eq_res_correct F16 fmt_ok_F16 (fun a b => u16 ((a .| b) .<< 1)) both_zeroF16 a b Ha Hb)).
Qed.

Lemma f16_le_quiet_correct a b st :
  is_pattern F16 a -> is_pattern F16 b -> f16_le_quiet a b st = ieee_cmp F16 false Z.leb a b st.
Proof.
  intros Ha Hb. exact (quiet_text_correct F16 isNaNF16UI softfloat_isSigNaNF16UI isNaNF16UI_eq isSigNaNF16UI_eq a b st (le_res signF16UI (fun a b => u16 ((a .| b) .<< 1))) Z.leb
    (le_res_correct F16 fmt_ok_F16 signF16UI (fun a b => u16 ((a .| b) .<< 1)) signF16UI_eq both_zeroF16 a b Ha Hb)).
Qed.

Lemma f16_le_correct a b st :
  is_pattern F16 a -> is_pattern F16 b -> f16_le a b st = ieee_cmp F16 true Z.leb a b st.
Proof.
  intros Ha Hb. exact (signaling_text_correct F16 isNaNF16UI isNaNF16UI_eq a b st (le_res signF16UI (fun a b => u16 ((a .| b) .<< 1))) Z.leb
    (le_res_correct F16 fmt_ok_F16 signF16UI (fun a b => u16 ((a .| b) .<< 1)) signF16UI_eq both_zeroF16 a b Ha Hb)).
Qed.

Lemma f16_lt_quiet_correct a b st :
  is_pattern F16 a -> is_pattern F16 b -> f16_lt_quiet a b st = ieee_cmp F16 false Z.ltb a b st.
Proof.
  intros Ha Hb. exact (quiet_text_correct F16 isNaNF16UI softfloat_isSigNaNF16UI isNaNF16UI_eq isSigNaNF16UI_eq a b st (lt_res signF16UI (fun a b => u16 ((a .| b) .<< 1))) Z.ltb
    (lt_res_correct F16 fmt_ok_F16 signF16UI (fun a b => u16 ((a .| b) .<< 1)) signF16UI_eq both_zeroF16 a b Ha Hb)).
Qed.

Lemma f16_lt_correct a b st :
  is_pattern F16 a -> is_pattern F16 b -> f16_lt a b st = ieee_cmp F16 true Z.ltb a b st.
Proof.
  intros Ha Hb. exact (signaling_text_correct F16 isNaNF16UI isNaNF16UI_eq a b st (lt_res signF16UI (fun a b => u16 ((a .| b) .<< 1))) Z.ltb
    (lt_res_correct F16 fmt_ok_F16 signF16UI (fun a b => u16 ((a .| b) .<< 1)) signF16UI_eq both_zeroF16 a b Ha Hb)).
Qed.

Lemma both_zeroF32 a b :
  is_pattern F32 a -> is_pattern F32 b -> negb (nz ((fun a b => u32 ((a .| b) .<< 1)) a b)) = both_zero F32 a b.
Proof.
  intros Ha Hb. rewrite <- both_zero_or by (trivial; apply fmt_ok_F32).
  rewrite shl1_zero by lia. reflexivity.
Qed.

Lemma f32_eq_correct a b st :
  is_pattern F32 a -> is_pattern F32 b -> f32_eq a b st = ieee_cmp F32 false Z.eqb a b st.
Proof.
  intros Ha Hb. exact (quiet_text_correct F32 isNaNF32UI softfloat_isSigNaNF32UI isNaNF32UI_eq isSigNaNF32UI_eq a b st (eq_res (fun a b => u32 ((a .| b) .<< 1))) Z.eqb
    (eq_res_correct F32 fmt_ok_F32 (fun a b => u32 ((a .| b) .<< 1)) both_zeroF32 a b Ha Hb)).
Qed.

Lemma f32_eq_signaling_correct a b st :
  is_pattern F32 a -> is_pattern F32 b -> f32_eq_signaling a b st = ieee_cmp F32 true Z.eqb a b st.
Proof.
  intros Ha Hb. exact (signaling_text_correct F32 isNaNF32UI isNaNF32UI_eq a b st (eq_res (fun a b => u32 ((a .| b) .<< 1))) Z.eqb
    (eq_res_correct F32 fmt_ok_F32 (fun a b => u32 ((a .| b) .<< 1)) both_zeroF32 a b Ha Hb)).
Qed.

Lemma f32_le_quiet_correct a b st :
  is_pattern F32 a -> is_pattern F32 b -> f32_le_quiet a b st = ieee_cmp F32 false Z.leb a b st.
Proof.
  intros Ha Hb. exact (quiet_text_correct F32 isNaNF32UI softfloat_isSigNaNF32UI isNaNF32UI_eq isSigNaNF32UI_eq a b st (le_res signF32UI (fun a b => u32 ((a .| b) .<< 1))) Z.leb
    (le_res_correct F32 fmt_ok_F32 signF32UI (fun a b => u32 ((a .| b) .<< 1)) signF32UI_eq both_zeroF32 a b Ha Hb)).
Qed.

Lemma f32_le_correct a b st :
  is_pattern F32 a -> is_pattern F32 b -> f32_le a b st = ieee_cmp F32 true Z.leb a b st.
Proof.
  intros Ha Hb. exact (signaling_text_correct F32 isNaNF32UI isNaNF32UI_eq a b st (le_res signF32UI (fun a b => u32 ((a .| b) .<< 1))) Z.leb
    (le_res_correct F32 fmt_ok_F32 signF32UI (fun a b => u32 ((a .| b) .<< 1)) signF32UI_eq both_zeroF32 a b Ha Hb)).
Qed.

Lemma f32_lt_quiet_correct a b st :
  is_pattern F32 a -> is_pattern F32 b -> f32_lt_quiet a b st = ieee_cmp F32 false Z.ltb a b st.
Proof.
  intros Ha Hb. exact (quiet_text_correct F32 isNaNF32UI softfloat_isSigNaNF32UI isNaNF32UI_eq isSigNaNF32UI_eq a b st (lt_res signF32UI (fun a b => u32 ((a .| b) .<< 1))) Z.ltb
    (lt_res_correct F32 fmt_ok_F32 signF32UI (fun a b => u32 ((a .| b) .<< 1)) signF32UI_eq both_zeroF32 a b Ha Hb)).
Qed.

Lemma f32_lt_correct a b st :
  is_pattern F32 a -> is_pattern F32 b -> f32_lt a b st = ieee_cmp F32 true Z.ltb a b st.
Proof.
  intros Ha Hb. exact (signaling_text_correct F32 isNaNF32UI isNaNF32UI_eq a b st (lt_res signF32UI (fun a b => u32 ((a .| b) .<< 1))) Z.ltb
    (lt_res_correct F32 fmt_ok_F32 signF32UI (fun a b => u32 ((a .| b) .<< 1)) signF32UI_eq both_zeroF32 a b Ha Hb)).
Qed.

Lemma both_zeroF64 a b :
  is_pattern F64 a -> is_pattern F64 b -> negb (nz ((fun a b => (a .| b) .& 0x7FFFFFFFFFFFFFFF) a b)) = both_zero F64 a b.
Proof.
  intros Ha Hb. rewrite <- both_zero_or by (trivial; apply fmt_ok_F64).
  rewrite (land_mod _ _ 63) by lia. reflexivity.
Qed.

Lemma f64_eq_correct a b st :
  is_pattern F64 a -> is_pattern F64 b -> f64_eq a b st = ieee_cmp F64 false Z.eqb a b st.
Proof.
  intros Ha Hb. exact (quiet_text_correct F64 isNaNF64UI softfloat_isSigNaNF64UI isNaNF64UI_eq isSigNaNF64UI_eq a b st (eq_res (fun a b => (a .| b) .& 0x7FFFFFFFFFFFFFFF)) Z.eqb
    (eq_res_correct F64 fmt_ok_F64 (fun a b => (a .| b) .& 0x7FFFFFFFFFFFFFFF) both_zeroF64 a b Ha Hb)).
Qed.

Lemma f64_eq_signaling_correct a b st :
  is_pattern F64 a -> is_pattern F64 b -> f64_eq_signaling a b st = ieee_cmp F64 true Z.eqb a b st.
Proof.
  intros Ha Hb. exact (signaling_text_correct F64 isNaNF64UI isNaNF64UI_eq a b st (eq_res (fun a b => (a .| b) .& 0x7FFFFFFFFFFFFFFF)) Z.eqb
    (eq_res_correct F64 fmt_ok_F64 (fun a b => (a .| b) .& 0x7FFFFFFFFFFFFFFF) both_zeroF64 a b Ha Hb)).
Qed.

Lemma f64_le_quiet_correct a b st :
  is_pattern F64 a -> is_pattern F64 b -> f64_le_quiet a b st = ieee_cmp F64 false Z.leb a b st.
Proof.
  intros Ha Hb. exact (quiet_text_correct F64 isNaNF64UI softfloat_isSigNaNF64UI isNaNF64UI_eq isSigNaNF64UI_eq a b st (le_res signF64UI (fun a b => (a .| b) .& 0x7FFFFFFFFFFFFFFF)) Z.leb
    (le_res_correct F64 fmt_ok_F64 signF64UI (fun a b => (a .| b) .& 0x7FFFFFFFFFFFFFFF) signF64UI_eq both_zeroF64 a b Ha Hb)).
Qed.

Lemma f64_le_correct a b st :
  is_pattern F64 a -> is_pattern F64 b -> f64_le a b st = ieee_cmp F64 true Z.leb a b st.
Proof.
  intros Ha Hb. exact (signaling_text_correct F64 isNaNF64UI isNaNF64UI_eq a b st (le_res signF64UI (fun a b => (a .| b) .& 0x7FFFFFFFFFFFFFFF)) Z.leb
    (le_res_correct F64 fmt_ok_F64 signF64UI (fun a b => (a .| b) .& 0x7FFFFFFFFFFFFFFF) signF64UI_eq both_zeroF64 a b Ha Hb)).
Qed.

Lemma f64_lt_quiet_correct a b st :
  is_pattern F64 a -> is_pattern F64 b -> f64_lt_quiet a b st = ieee_cmp F64 false Z.ltb a b st.
Proof.
  intros Ha Hb. exact (quiet_text_correct F64 isNaNF64UI softfloat_isSigNaNF64UI isNaNF64UI_eq isSigNaNF64UI_eq a b st (lt_res signF64UI (fun a b => (a .| b) .& 0x7FFFFFFFFFFFFFFF)) Z.ltb
    (lt_res_correct F64 fmt_ok_F64 signF64UI (fun a b => (a .| b) .& 0x7FFFFFFFFFFFFFFF) signF64UI_eq both_zeroF64 a b Ha Hb)).
Qed.

Lemma f64_lt_correct a b st :
  is_pattern F64 a -> is_pattern F64 b -> f64_lt a b st = ieee_cmp F64 true Z.ltb a b st.
Proof.
  intros Ha Hb. exact (signaling_text_correct F64 isNaNF64UI isNaNF64UI_eq a b st (lt_res signF64UI (fun a b => (a .| b) .& 0x7FFFFFFFFFFFFFFF)) Z.ltb
    (lt_res_correct F64 fmt_ok_F64 signF64UI (fun a b => (a .| b) .& 0x7FFFFFFFFFFFFFFF) signF64UI_eq both_zeroF64 a b Ha Hb)).
Qed.


Lemma isSignalingNaN_correct a :
  f16_isSignalingNaN a = is_snan F16 a /\ f32_isSignalingNaN a = is_snan F32 a
  /\ f64_isSignalingNaN a = is_snan F64 a.
Proof. repeat split; [apply isSigNaNF16UI_eq|apply isSigNaNF32UI_eq|apply isSigNaNF64UI_eq]. Qed.

(** Exactly the bit of the class is set. *)
Lemma classify_bits f a (infOrNaN subz fz nan snan s : bool) :
  fmt_ok f ->
  infOrNaN = (f_exp f a =? max_exp f) -> subz = (f_exp f a =? 0) -> fz = (f_frac f a =? 0) ->
  nan = is_nan f a -> snan = is_snan f a -> s = f_sign f a ->
  (b2z (s && infOrNaN && fz) .<< 0) .| (b2z (s && negb infOrNaN && negb subz) .<< 1) .|
  (b2z (s && subz && negb fz) .<< 2) .| (b2z (s && subz && fz) .<< 3) .|
  (b2z (negb s && infOrNaN && fz) .<< 7) .| (b2z (negb s && negb infOrNaN && negb subz) .<< 6) .|
  (b2z (negb s && subz && negb fz) .<< 5) .| (b2z (negb s && subz && fz) .<< 4) .|
  (b2z (nan && snan) .<< 8) .| (b2z (nan && negb snan) .<< 9) = 2 ^ class_of f a.
Proof.
  intros Hf -> -> -> -> -> ->. unfold class_of.
  pose proof (f_mag_zero f Hf a) as Hz. unfold is_inf, is_nan, is_snan, is_nan.
  assert (f_exp f a = 0 -> f_exp f a <> max_exp f) as Hex.
  { destruct Hf. unfold max_exp. pose proof (pow2_le 2 (eb f) ltac:(lia)). change (2 ^ 2) with 4 in *. lia. }
  destruct (Z.eqb_spec (f_mag f a) 0), (Z.eqb_spec (f_exp f a) 0), (Z.eqb_spec (f_frac f a) 0),
    (Z.eqb_spec (f_exp f a) (max_exp f)), (f_frac f a <? 2 ^ (fb f - 1)), (f_sign f a);
    try tauto; reflexivity.
Qed.

Lemma f16_classify_correct a : is_pattern F16 a -> f16_classify a = 2 ^ class_of F16 a.
Proof.
  intros Ha. apply classify_bits; rewrite ?expF16UI_eq, ?fracF16UI_eq, ?isNaNF16UI_eq,
    ?isSigNaNF16UI_eq, ?signF16UI_eq by assumption; trivial; apply fmt_ok_F16.
Qed.

Lemma f32_classify_correct a : is_pattern F32 a -> f32_classify a = 2 ^ class_of F32 a.
Proof.
  intros Ha. apply classify_bits; rewrite ?expF32UI_eq, ?fracF32UI_eq, ?isNaNF32UI_eq,
    ?isSigNaNF32UI_eq, ?signF32UI_eq by assumption; trivial; apply fmt_ok_F32.
Qed.

Lemma f64_classify_correct a : is_pattern F64 a -> f64_classify a = 2 ^ class_of F64 a.
Proof.
  intros Ha. apply classify_bits; rewrite ?expF64UI_eq, ?fracF64UI_eq, ?isNaNF64UI_eq,
    ?isSigNaNF64UI_eq, ?signF64UI_eq by assumption; trivial; apply fmt_ok_F64.
Qed.
