(* ===== verification/SFFromInt.v ===== *)
(** * SoftFloat: conversions from integers

    [ui32], [i32], [ui64] and [i64] to the three formats: each delivers the
    integer rounded once, with the sign of the integer and [+0] for zero. *)

From Stdlib Require Import ZArith Lia Bool List.
From S2P Require Import Prelude SFBase SFSpec SFRound SFValue SFAddSub SFAddSub16 SFMul.

(** ** Operations *)

Definition ui32_to_f16 (a : Z) : fp Z :=
  let shiftDist := s8 (softfloat_countLeadingZeros32 a - 21) in
  if 0 <=? shiftDist then
    fret (f16_of_ui (if nz a then packToF16UI false (0x18 - shiftDist) (u64 (a .<< shiftDist)) else 0))
  else
    let shiftDist := s8 (shiftDist + 4) in
    let sig := if shiftDist <? 0
               then (a .>> (- shiftDist)) .| b2z (nz (u32 (a .<< (shiftDist .& 31))))
               else u64 (a .<< shiftDist) in
    softfloat_roundPackToF16 false (0x1C - shiftDist) sig.

Definition i32_to_f16 (a : Z) : fp Z :=
  let sign := a <? 0 in
  let absA := if sign then u64 (- u64 a) else u64 a in
  let shiftDist := s8 (softfloat_countLeadingZeros32 (u32 absA) - 21) in
  if 0 <=? shiftDist then
    fret (f16_of_ui (if nz a then packToF16UI sign (0x18 - shiftDist) (u64 (absA .<< shiftDist)) else 0))
  else
    let shiftDist := s8 (shiftDist + 4) in
    let sig := if shiftDist <? 0
               then (absA .>> (- shiftDist)) .| b2z (nz (u32 (absA .<< (shiftDist .& 31))))
               else u64 (absA .<< shiftDist) in
    softfloat_roundPackToF16 sign (0x1C - shiftDist) sig.

Definition ui64_to_f16 (a : Z) : fp Z :=
  let shiftDist := s8 (softfloat_countLeadingZeros64 a - 53) in
  if 0 <=? shiftDist then
    fret (f16_of_ui (if nz a then packToF16UI false (0x18 - shiftDist) (u64 (a .<< shiftDist)) else 0))
  else
    let shiftDist := s8 (shiftDist + 4) in
    let sig := if shiftDist <? 0 then softfloat_shortShiftRightJam64 a (- shiftDist)
               else u64 (a .<< shiftDist) in
    softfloat_roundPackToF16 false (0x1C - shiftDist) sig.

Definition i64_to_f16 (a : Z) : fp Z :=
  let sign := a <? 0 in
  let absA := if sign then u64 (- u64 a) else u64 a in
  let shiftDist := s8 (softfloat_countLeadingZeros64 absA - 53) in
  if 0 <=? shiftDist then
    fret (f16_of_ui (if nz a then packToF16UI sign (0x18 - shiftDist) (u64 (absA .<< shiftDist)) else 0))
  else
    let shiftDist := s8 (shiftDist + 4) in
    let sig := if shiftDist <? 0 then softfloat_shortShiftRightJam64 absA (- shiftDist)
               else u64 (absA .<< shiftDist) in
    softfloat_roundPackToF16 sign (0x1C - shiftDist) sig.

Definition ui32_to_f32 (a : Z) : fp Z :=
  if negb (nz a) then fret (f32_of_ui 0)
  else if nz (a .& 0x80000000) then softfloat_roundPackToF32 false 0x9D ((a .>> 1) .| (a .& 1))
  else softfloat_normRoundPackToF32 false 0x9C a.

Definition i32_to_f32 (a : Z) : fp Z :=
  let sign := a <? 0 in
  if negb (nz (a .& 0x7FFFFFFF)) then
    fret (f32_of_ui (if sign then packToF32UI true 0x9E 0 else 0))
  else
    let absA := if sign then u64 (- u64 a) else u64 a in
    softfloat_normRoundPackToF32 sign 0x9C absA.

Definition ui64_to_f32 (a : Z) : fp Z :=
  let shiftDist := s8 (softfloat_countLeadingZeros64 a - 40) in
  if 0 <=? shiftDist then
    fret (f32_of_ui (if nz a then packToF32UI false (0x95 - shiftDist) (u64 (a .<< shiftDist)) else 0))
  else
    let shiftDist := s8 (shiftDist + 7) in
    let sig := if shiftDist <? 0 then softfloat_shortShiftRightJam64 a (- shiftDist)
               else u64 (a .<< shiftDist) in
    softfloat_roundPackToF32 false (0x9C - shiftDist) sig.

Definition i64_to_f32 (a : Z) : fp Z :=
  let sign := a <? 0 in
  let absA := if sign then u64 (- u64 a) else u64 a in
  let shiftDist := s8 (softfloat_countLeadingZeros64 absA - 40) in
  if 0 <=? shiftDist then
    fret (f32_of_ui (if nz a then packToF32UI sign (0x95 - shiftDist) (u64 (absA .<< shiftDist)) else 0))
  else
    let shiftDist := s8 (shiftDist + 7) in
    let sig := if shiftDist <? 0 then softfloat_shortShiftRightJam64 absA (- shiftDist)
               else u64 (absA .<< shiftDist) in
    softfloat_roundPackToF32 sign (0x9C - shiftDist) sig.

Definition ui32_to_f64 (a : Z) : fp Z :=
  let uiZ :=
    if negb (nz a) then 0
    else
      let shiftDist := s8 (softfloat_countLeadingZeros32 a + 21) in
      packToF64UI false (0x432 - shiftDist) (u64 (a .<< shiftDist)) in
  fret (f64_of_ui uiZ).

Definition i32_to_f64 (a : Z) : fp Z :=
  let uiZ :=
    if negb (nz a) then 0
    else
      let sign := a <? 0 in
      let absA := if sign then u64 (- u64 a) else u64 a in
      let shiftDist := s8 (softfloat_countLeadingZeros32 (u32 absA) + 21) in
      packToF64UI sign (0x432 - shiftDist) (u64 (absA .<< shiftDist)) in
  fret (f64_of_ui uiZ).

Definition ui64_to_f64 (a : Z) : fp Z :=
  if negb (nz a) then fret (f64_of_ui 0)
  else if nz (a .& 0x8000000000000000) then
    softfloat_roundPackToF64 false 0x43D (softfloat_shortShiftRightJam64 a 1)
  else softfloat_normRoundPackToF64 false 0x43C a.

Definition i64_to_f64 (a : Z) : fp Z :=
  let sign := a <? 0 in
  if negb (nz (u64 a .& 0x7FFFFFFFFFFFFFFF)) then
    fret (f64_of_ui (if sign then packToF64UI true 0x43E 0 else 0))
  else
    let absA := if sign then u64 (- u64 a) else u64 a in
    softfloat_normRoundPackToF64 sign 0x43C absA.

(** ** The reference *)

Definition ieee_of_int (f : fmt) (V : Z) : fp Z := ieee_round f (fun _ => false) V 0.

Definition uint_ok (w a : Z) : Prop := 0 <= a < 2 ^ w.
Definition sint_ok (w a : Z) : Prop := - 2 ^ (w - 1) <= a < 2 ^ (w - 1).

(** ** Integers as significands *)

Section Ints.
Context (f : fmt) (Hf : fmt_ok f).

Lemma of_int_nonzero V st :
  V <> 0 -> ieee_of_int f V st = round_result f (V <? 0) (Z.abs V) 0 st.
Proof. intros HV. unfold ieee_of_int, ieee_round. now destruct (Z.eqb_spec V 0). Qed.

Lemma emin_bounds : 0 <= - emin f - fb f /\ - emin f + 2 < max_exp f + fb f.
Proof.
  destruct Hf. unfold emin, max_exp. pose proof (pow2_pred (eb f) ltac:(lia)).
  pose proof (pow2_le 1 (eb f - 1) ltac:(lia)). change (2 ^ 1) with 2 in *. lia.
Qed.

Hypothesis Hwide : fb f < 2 ^ (eb f - 1).

(** A short integer is its own significand. *)
Lemma int_exact s V st :
  0 < V < 2 ^ (fb f + 1) ->
  let sd := fb f - Z.log2 V in
  0 <= sd <= fb f /\ 2 ^ fb f <= V * 2 ^ sd < 2 ^ (fb f + 1) /\ 0 <= - emin f - sd < max_exp f - 2 + 1 /\
  round_result f s V 0 st = (sign_bit f s + (- emin f - sd) * 2 ^ fb f + V * 2 ^ sd, st).
Proof.
  intros HV sd. destruct Hf as [Hf1 Hf2], emin_bounds as [He1 He2].
  assert (0 <= Z.log2 V < fb f + 1) by (split; [apply Z.log2_nonneg|apply Z.log2_lt_pow2; lia]).
  pose proof (Z.log2_spec V ltac:(lia)) as [Hl Hu].
  assert (Hm : 2 ^ fb f <= V * 2 ^ sd < 2 ^ (fb f + 1)).
  { pose proof (pow2_pos sd ltac:(unfold sd; lia)).
    replace (fb f) with (Z.log2 V + sd) at 1 by (unfold sd; lia).
    replace (fb f + 1) with (Z.succ (Z.log2 V) + sd) by (unfold sd; lia).
    rewrite !pow2_split by (unfold sd; lia). nia. }
  assert (He : 0 <= - emin f - sd < max_exp f - 1).
  { unfold emin, max_exp, sd in *. pose proof (pow2_pred (eb f) ltac:(lia)).
    pose proof (pow2_le 1 (eb f - 1) ltac:(lia)). change (2 ^ 1) with 2 in *. lia. }
  split; [unfold sd; lia|]. split; [exact Hm|]. split; [lia|].
  rewrite <- (round_result_pack f Hf) by
    (try lia; unfold inf_mag; rewrite pow2_succ in Hm by lia;
     assert ((- emin f - sd) * 2 ^ fb f <= (max_exp f - 2) * 2 ^ fb f) by (apply Z.mul_le_mono_nonneg_r; lia); lia).
  rewrite <- (round_result_scale f s V _ sd) by (unfold sd; lia). f_equal. lia.
Qed.
End Ints.

(** [-(uint64_t) a] for a negative [a] is its magnitude. *)
Lemma abs_code a : - 2 ^ 63 <= a < 2 ^ 63 -> (if a <? 0 then u64 (- u64 a) else u64 a) = Z.abs a.
Proof.
  intros Ha. destruct (Z.ltb_spec a 0).
  - replace (u64 a) with (a + 2 ^ 64) by (apply Z.mod_unique with (q := -1); lia).
    rewrite Z.abs_neq by lia. symmetry. apply Z.mod_unique with (q := -1); lia.
  - rewrite uwrap_small, Z.abs_eq; lia.
Qed.

(** ** The conversions that count leading zeros *)

Section CountText.
Variables (X X' g : Z) (packUI : bool -> Z -> Z -> Z) (of_ui : Z -> Z) (roundPack : bool -> Z -> Z -> fp Z).

Definition from_int_text (sign nza : bool) (V dist : Z) (jamCode : Z -> Z) : fp Z :=
  let shiftDist := s8 dist in
  if 0 <=? shiftDist then
    fret (of_ui (if nza then packUI sign (X - shiftDist) (u64 (V .<< shiftDist)) else 0))
  else
    let shiftDist := s8 (shiftDist + g) in
    let sig := if shiftDist <? 0 then jamCode shiftDist else u64 (V .<< shiftDist) in
    roundPack sign (X' - shiftDist) sig.

Context (f : fmt) (Hf : fmt_ok f) (cw : Z).
Hypothesis Hwide : fb f < 2 ^ (eb f - 1).
Hypothesis Hg : 2 <= g <= 10.
Hypothesis Hfg : fb f + g + 1 < 64.
Hypothesis Hcw : eb f + 1 <= cw.
Hypothesis Hcw64 : 64 < 2 ^ (cw - 2).
Hypothesis HX : X = - emin f.
Hypothesis HX' : X' = g - emin f.
Hypothesis Hpack : forall s e m,
  0 <= e <= max_exp f -> 0 <= m <= 2 ^ (fb f + 1) -> e * 2 ^ fb f + m < 2 ^ (fb f + eb f) ->
  of_ui (packUI s e m) = sign_bit f s + e * 2 ^ fb f + m.
Hypothesis Hof0 : of_ui 0 = 0.
Hypothesis HroundPack : forall s e m st,
  2 ^ (fb f + g) <= m < 2 ^ (fb f + g + 1) -> - 2 ^ (cw - 1) <= e < 2 ^ (cw - 1) ->
  roundPack s e m st = round_result f s m (e - g + emin f) st.

Lemma from_int_zero sign dist jamCode st :
  0 <= dist <= 64 -> from_int_text sign false 0 dist jamCode st = (0, st).
Proof.
  intros Hd. unfold from_int_text. cbv zeta. rewrite swrap_small by lia.
  replace (0 <=? dist) with true by (symmetry; apply Z.leb_le; lia). unfold fret. now rewrite Hof0.
Qed.

Lemma from_int_text_correct sign V dist jamCode st :
  0 < V < 2 ^ 64 -> dist = fb f - Z.log2 V ->
  (forall d, - 64 < d < 0 -> d = fb f + g - Z.log2 V -> jamCode d = jam V (- d)) ->
  from_int_text sign true V dist jamCode st = round_result f sign V 0 st.
Proof.
  intros HV Hdist Hjam. destruct Hf as [Hf1 Hf2].
  assert (0 <= Z.log2 V < 64) by (split; [apply Z.log2_nonneg|apply Z.log2_lt_pow2; lia]).
  pose proof (Z.log2_spec V ltac:(lia)) as [Hl Hu].
  unfold from_int_text. cbv zeta. rewrite (swrap_small 8 dist) by lia.
  destruct (Z.leb_spec 0 dist) as [Hpos|Hneg].
  - assert (V < 2 ^ (fb f + 1)) by (pose proof (pow2_le (Z.succ (Z.log2 V)) (fb f + 1)); lia).
    destruct (int_exact f Hf Hwide sign V st ltac:(lia)) as (Hsd & Hm & He & ->).
    rewrite <- Hdist in *. pose proof (pow2_le (fb f + 1) 63 ltac:(lia)).
    pose proof (pow2_split (fb f) (eb f) ltac:(lia) ltac:(lia)). pose proof (pow2_pos (fb f) ltac:(lia)).
    pose proof (pow2_succ (fb f) ltac:(lia)). unfold max_exp in *.
    assert ((- emin f - dist) * 2 ^ fb f <= (2 ^ eb f - 3) * 2 ^ fb f) by (apply Z.mul_le_mono_nonneg_r; lia).
    unfold fret. rewrite shiftl_mul, uwrap_small, HX, Hpack by (unfold max_exp; lia).
    reflexivity.
  - pose proof (pow2_split (fb f + g - Z.log2 V) (Z.log2 V)).
    rewrite (swrap_small 8 (dist + g)) by lia. set (d := dist + g) in *.
    assert (Hd : d = fb f + g - Z.log2 V) by (unfold d; lia).
    pose proof (pow2_le (fb f + g + 1) 63 ltac:(lia)).
    assert (He : - 2 ^ (cw - 1) <= X' - d < 2 ^ (cw - 1)).
    { rewrite HX'. destruct (emin_bounds f Hf) as [He1 He2]. unfold max_exp in *.
      pose proof (pow2_le (eb f - 1) (cw - 2) ltac:(lia)). pose proof (pow2_succ (cw - 2) ltac:(lia)) as Hc.
      replace (cw - 2 + 1) with (cw - 1) in Hc by lia. unfold emin in *. lia. }
    destruct (Z.ltb_spec d 0) as [Hdn|Hdp].
    + rewrite Hjam by lia.
      assert (2 ^ (- d + fb f + 2) <= V) by (pose proof (pow2_le (- d + fb f + 2) (Z.log2 V)); lia).
      assert (Hlog : Z.log2 (jam V (- d)) = fb f + g).
      { rewrite jam_log2; [lia|lia|]. pose proof (pow2_le (- d + 1) (Z.log2 V)). lia. }
      assert (0 < jam V (- d)).
      { pose proof (jam_nonneg V (- d)). pose proof (proj1 (jam_zero_iff V (- d) ltac:(lia) ltac:(lia))). lia. }
      rewrite HroundPack; trivial.
      * rewrite <- (round_result_jam f sign V 0 (- d)) by lia. f_equal. lia.
      * pose proof (Z.log2_spec (jam V (- d)) ltac:(lia)) as Hs. rewrite Hlog in Hs. exact Hs.
    + assert (Hm : 2 ^ (fb f + g) <= V * 2 ^ d < 2 ^ (fb f + g + 1)).
      { pose proof (pow2_pos d Hdp).
        replace (fb f + g) with (Z.log2 V + d) at 1 by lia.
        replace (fb f + g + 1) with (Z.succ (Z.log2 V) + d) by lia. rewrite !pow2_split by lia. nia. }
      rewrite shiftl_mul, uwrap_small, HroundPack by (trivial; lia).
      rewrite <- (round_result_scale f sign V 0 d) by lia. f_equal. lia.
Qed.
End CountText.

Lemma jam_code32 V d :
  0 <= V < 2 ^ 32 -> - 32 < d < 0 ->
  (V .>> (- d)) .| b2z (nz (u32 (V .<< (d .& 31)))) = jam V (- d).
Proof.
  intros HV Hd. rewrite (land_mod d 31 5) by lia.
  replace (d mod 2 ^ 5) with (32 - (- d)) by (apply Z.mod_unique with (q := -1); lia).
  rewrite shl_wrap_zero, shiftr_div by lia. reflexivity.
Qed.

Lemma clz_sub W V c F : 0 < V < 2 ^ W -> c = W - 1 - F -> clz W V - c = F - Z.log2 V.
Proof. intros HV ->. unfold clz. destruct (Z.eqb_spec V 0); lia. Qed.

(** ** Correctness *)

Lemma from_intF16 sign V dist jamCode st :
  0 < V < 2 ^ 64 -> dist = fb F16 - Z.log2 V ->
  (forall d, - 64 < d < 0 -> d = fb F16 + 4 - Z.log2 V -> jamCode d = jam V (- d)) ->
  from_int_text 0x18 0x1C 4 packToF16UI f16_of_ui softfloat_roundPackToF16 sign true V dist jamCode st
  = round_result F16 sign V 0 st.
Proof.
  apply (from_int_text_correct 0x18 0x1C 4 packToF16UI f16_of_ui softfloat_roundPackToF16 F16 fmt_ok_F16 32);
    try (simpl; lia); try reflexivity; intros; [now apply pack_of_ui16|now apply roundPackToF16_correct].
Qed.

Lemma from_intF32 sign V dist jamCode st :
  0 < V < 2 ^ 64 -> dist = fb F32 - Z.log2 V ->
  (forall d, - 64 < d < 0 -> d = fb F32 + 7 - Z.log2 V -> jamCode d = jam V (- d)) ->
  from_int_text 0x95 0x9C 7 packToF32UI f32_of_ui softfloat_roundPackToF32 sign true V dist jamCode st
  = round_result F32 sign V 0 st.
Proof.
  apply (from_int_text_correct 0x95 0x9C 7 packToF32UI f32_of_ui softfloat_roundPackToF32 F32 fmt_ok_F32 32);
    try (simpl; lia); try reflexivity; intros; [now apply pack_of_ui32|now apply roundPackToF32_correct].
Qed.

Lemma ui32_to_f16_correct a st : uint_ok 32 a -> ui32_to_f16 a st = ieee_of_int F16 a st.
Proof.
  intros Ha. unfold uint_ok in Ha.
  unfold ui32_to_f16.
  transitivity (from_int_text 0x18 0x1C 4 packToF16UI f16_of_ui softfloat_roundPackToF16 false (nz a) a
    (softfloat_countLeadingZeros32 a - 21) (fun sd => (a .>> (- sd)) .| b2z (nz (u32 (a .<< (sd .& 31))))) st); [reflexivity|].
  rewrite countLeadingZeros32_spec by lia.
  destruct (nz a) eqn:Hnz; rewrite ?nz_true, ?nz_false in Hnz.
  - rewrite of_int_nonzero by assumption. replace (a <? 0) with false by (symmetry; apply Z.ltb_ge; lia). rewrite (Z.abs_eq a) by lia.
    apply from_intF16; [lia|apply (clz_sub 32); [lia|reflexivity]|].
    assert (Z.log2 a < 32) by (apply Z.log2_lt_pow2; lia). simpl fb.
    intros d Hd Hde; apply jam_code32; lia.
  - rewrite Hnz. reflexivity.
Qed.

Lemma i32_to_f16_correct a st : sint_ok 32 a -> i32_to_f16 a st = ieee_of_int F16 a st.
Proof.
  intros Ha. unfold sint_ok in Ha.
  unfold i32_to_f16. cbv zeta. rewrite abs_code by lia.
  transitivity (from_int_text 0x18 0x1C 4 packToF16UI f16_of_ui softfloat_roundPackToF16 (a <? 0) (nz a) (Z.abs a)
    (softfloat_countLeadingZeros32 (u32 (Z.abs a)) - 21) (fun sd => ((Z.abs a) .>> (- sd)) .| b2z (nz (u32 ((Z.abs a) .<< (sd .& 31))))) st); [reflexivity|].
  rewrite (uwrap_small 32) by lia. rewrite countLeadingZeros32_spec by lia.
  destruct (nz a) eqn:Hnz; rewrite ?nz_true, ?nz_false in Hnz.
  - rewrite of_int_nonzero by assumption.
    apply from_intF16; [lia|apply (clz_sub 32); [lia|reflexivity]|].
    assert (Z.log2 (Z.abs a) < 32) by (apply Z.log2_lt_pow2; lia). simpl fb.
    intros d Hd Hde; apply jam_code32; lia.
  - rewrite Hnz. reflexivity.
Qed.

Lemma ui64_to_f16_correct a st : uint_ok 64 a -> ui64_to_f16 a st = ieee_of_int F16 a st.
Proof.
  intros Ha. unfold uint_ok in Ha.
  unfold ui64_to_f16.
  transitivity (from_int_text 0x18 0x1C 4 packToF16UI f16_of_ui softfloat_roundPackToF16 false (nz a) a
    (softfloat_countLeadingZeros64 a - 53) (fun sd => softfloat_shortShiftRightJam64 a (- sd)) st); [reflexivity|].
  rewrite countLeadingZeros64_spec by lia.
  destruct (nz a) eqn:Hnz; rewrite ?nz_true, ?nz_false in Hnz.
  - rewrite of_int_nonzero by assumption. replace (a <? 0) with false by (symmetry; apply Z.ltb_ge; lia). rewrite (Z.abs_eq a) by lia.
    apply from_intF16; [lia|apply (clz_sub 64); [lia|reflexivity]|].
    assert (Z.log2 a < 64) by (apply Z.log2_lt_pow2; lia). simpl fb.
    intros d Hd Hde; apply shortShiftRightJam64_jam; lia.
  - rewrite Hnz. reflexivity.
Qed.

Lemma i64_to_f16_correct a st : sint_ok 64 a -> i64_to_f16 a st = ieee_of_int F16 a st.
Proof.
  intros Ha. unfold sint_ok in Ha.
  unfold i64_to_f16. cbv zeta. rewrite abs_code by lia.
  transitivity (from_int_text 0x18 0x1C 4 packToF16UI f16_of_ui softfloat_roundPackToF16 (a <? 0) (nz a) (Z.abs a)
    (softfloat_countLeadingZeros64 (Z.abs a) - 53) (fun sd => softfloat_shortShiftRightJam64 (Z.abs a) (- sd)) st); [reflexivity|].
  rewrite countLeadingZeros64_spec by lia.
  destruct (nz a) eqn:Hnz; rewrite ?nz_true, ?nz_false in Hnz.
  - rewrite of_int_nonzero by assumption.
    apply from_intF16; [lia|apply (clz_sub 64); [lia|reflexivity]|].
    assert (Z.log2 (Z.abs a) < 64) by (apply Z.log2_lt_pow2; lia). simpl fb.
    intros d Hd Hde; apply shortShiftRightJam64_jam; lia.
  - rewrite Hnz. reflexivity.
Qed.

Lemma ui64_to_f32_correct a st : uint_ok 64 a -> ui64_to_f32 a st = ieee_of_int F32 a st.
Proof.
  intros Ha. unfold uint_ok in Ha.
  unfold ui64_to_f32.
  transitivity (from_int_text 0x95 0x9C 7 packToF32UI f32_of_ui softfloat_roundPackToF32 false (nz a) a
    (softfloat_countLeadingZeros64 a - 40) (fun sd => softfloat_shortShiftRightJam64 a (- sd)) st); [reflexivity|].
  rewrite countLeadingZeros64_spec by lia.
  destruct (nz a) eqn:Hnz; rewrite ?nz_true, ?nz_false in Hnz.
  - rewrite of_int_nonzero by assumption. replace (a <? 0) with false by (symmetry; apply Z.ltb_ge; lia). rewrite (Z.abs_eq a) by lia.
    apply from_intF32; [lia|apply (clz_sub 64); [lia|reflexivity]|].
    assert (Z.log2 a < 64) by (apply Z.log2_lt_pow2; lia). simpl fb.
    intros d Hd Hde; apply shortShiftRightJam64_jam; lia.
  - rewrite Hnz. reflexivity.
Qed.

Lemma i64_to_f32_correct a st : sint_ok 64 a -> i64_to_f32 a st = ieee_of_int F32 a st.
Proof.
  intros Ha. unfold sint_ok in Ha.
  unfold i64_to_f32. cbv zeta. rewrite abs_code by lia.
  transitivity (from_int_text 0x95 0x9C 7 packToF32UI f32_of_ui softfloat_roundPackToF32 (a <? 0) (nz a) (Z.abs a)
    (softfloat_countLeadingZeros64 (Z.abs a) - 40) (fun sd => softfloat_shortShiftRightJam64 (Z.abs a) (- sd)) st); [reflexivity|].
  rewrite countLeadingZeros64_spec by lia.
  destruct (nz a) eqn:Hnz; rewrite ?nz_true, ?nz_false in Hnz.
  - rewrite of_int_nonzero by assumption.
    apply from_intF32; [lia|apply (clz_sub 64); [lia|reflexivity]|].
    assert (Z.log2 (Z.abs a) < 64) by (apply Z.log2_lt_pow2; lia). simpl fb.
    intros d Hd Hde; apply shortShiftRightJam64_jam; lia.
  - rewrite Hnz. reflexivity.
Qed.


(** The test of the sign bit of an unsigned word. *)
Lemma high_bit W a c : 1 <= W -> 0 <= a < 2 ^ W -> c = 2 ^ (W - 1) -> nz (a .& c) = (2 ^ (W - 1) <=? a).
Proof.
  intros HW Ha ->. pose proof (pow2_pos (W - 1) ltac:(lia)). pose proof (pow2_pred W ltac:(lia)).
  rewrite (land_shifted_mask a 1 (W - 1) (2 ^ (W - 1))) by lia. unfold nz.
  destruct (Z.leb_spec (2 ^ (W - 1)) a).
  - replace (a / 2 ^ (W - 1)) with 1 by (apply Z.div_unique with (r := a - 2 ^ (W - 1)); lia).
    change (1 mod 2 ^ 1) with 1. apply negb_true_iff, Z.eqb_neq. lia.
  - now rewrite Z.div_small by lia.
Qed.

Lemma ui32_to_f32_correct a st : uint_ok 32 a -> ui32_to_f32 a st = ieee_of_int F32 a st.
Proof.
  intros Ha. unfold uint_ok in Ha. unfold ui32_to_f32. on_nz a; [|rewrite Hnz; reflexivity].
  rewrite of_int_nonzero by assumption.
  replace (a <? 0) with false by (symmetry; apply Z.ltb_ge; lia). rewrite (Z.abs_eq a) by lia.
  rewrite (high_bit 32) by lia. change (32 - 1) with 31.
  destruct (Z.leb_spec (2 ^ 31) a); [|now rewrite normRoundPackToF32_correct by lia].
  assert ((a .>> 1) .| (a .& 1) = jam a 1) as ->.
  { unfold jam. rewrite (land_mod a 1 1), shiftr_div, Z.pow_1_r by lia. f_equal.
    pose proof (Z.mod_pos_bound a 2). case_test; simpl; lia. }
  pose proof (jam_log2 a 1 ltac:(lia) ltac:(lia)) as Hl.
  assert (Z.log2 a = 31) as Hl31 by (apply Z.log2_unique; lia). rewrite Hl31 in Hl.
  assert (0 < jam a 1) by (pose proof (jam_nonneg a 1 ltac:(lia) ltac:(lia)); pose proof (proj1 (jam_zero_iff a 1 ltac:(lia) ltac:(lia))); lia).
  pose proof (Z.log2_spec (jam a 1) ltac:(lia)) as Hs. rewrite Hl in Hs.
  rewrite roundPackToF32_correct by lia.
  rewrite <- (round_result_jam F32 false a 0 1) by (simpl; lia). reflexivity.
Qed.

Lemma ui64_to_f64_correct a st : uint_ok 64 a -> ui64_to_f64 a st = ieee_of_int F64 a st.
Proof.
  intros Ha. unfold uint_ok in Ha. unfold ui64_to_f64. on_nz a; [|rewrite Hnz; reflexivity].
  rewrite of_int_nonzero by assumption.
  replace (a <? 0) with false by (symmetry; apply Z.ltb_ge; lia). rewrite (Z.abs_eq a) by lia.
  rewrite (high_bit 64) by lia. change (64 - 1) with 63.
  destruct (Z.leb_spec (2 ^ 63) a); [|now rewrite normRoundPackToF64_correct by lia].
  rewrite shortShiftRightJam64_jam by lia.
  pose proof (jam_log2 a 1 ltac:(lia) ltac:(lia)) as Hl.
  assert (Z.log2 a = 63) as Hl31 by (apply Z.log2_unique; lia). rewrite Hl31 in Hl.
  assert (0 < jam a 1) by (pose proof (jam_nonneg a 1 ltac:(lia) ltac:(lia)); pose proof (proj1 (jam_zero_iff a 1 ltac:(lia) ltac:(lia))); lia).
  pose proof (Z.log2_spec (jam a 1) ltac:(lia)) as Hs. rewrite Hl in Hs.
  rewrite roundPackToF64_correct by lia.
  rewrite <- (round_result_jam F64 false a 0 1) by (simpl; lia). reflexivity.
Qed.

(** The most negative integer and zero are caught by one mask test. *)
Lemma low_bits_zero W a m :
  1 <= W -> sint_ok W a -> m = 2 ^ (W - 1) - 1 -> a .& m = 0 -> a = 0 \/ a = - 2 ^ (W - 1).
Proof.
  intros HW Ha Hm H0. unfold sint_ok in Ha. rewrite (land_mod a m (W - 1)) in H0 by lia.
  pose proof (pow2_pos (W - 1) ltac:(lia)). pose proof (Z_div_mod_eq_full a (2 ^ (W - 1))) as Hd.
  rewrite H0, Z.add_0_r in Hd. set (q := a / 2 ^ (W - 1)) in *.
  assert (- 1 <= q < 1) by nia. assert (q = 0 \/ q = -1) as [E|E] by lia; rewrite E in Hd; lia.
Qed.

Lemma i32_to_f32_correct a st : sint_ok 32 a -> i32_to_f32 a st = ieee_of_int F32 a st.
Proof.
  intros Ha. unfold i32_to_f32. cbv zeta. on_nz (a .& 0x7FFFFFFF).
  - assert (a <> 0 /\ a <> - 2 ^ 31) as [H0 H1] by (split; intros ->; now apply Hnz).
    unfold sint_ok in Ha. rewrite abs_code, of_int_nonzero by lia.
    now rewrite normRoundPackToF32_correct by lia.
  - destruct (low_bits_zero 32 a 0x7FFFFFFF ltac:(lia) Ha eq_refl Hnz) as [->| ->]; [reflexivity|].
    rewrite of_int_nonzero by lia. change (- 2 ^ (32 - 1) <? 0) with true. transitivity (round_result F32 true (2 ^ 23) (0x9D + emin F32) st).
    + now rewrite (round_result_pack F32 fmt_ok_F32) by (change (fb F32) with 23; change (inf_mag F32) with (255 * 2 ^ 23); lia).
    + exact (eq_sym (round_result_scale F32 true (2 ^ 23) 8 8 st ltac:(lia) ltac:(lia))).
Qed.

Lemma i64_to_f64_correct a st : sint_ok 64 a -> i64_to_f64 a st = ieee_of_int F64 a st.
Proof.
  intros Ha. unfold i64_to_f64. cbv zeta.
  assert (u64 a .& 0x7FFFFFFFFFFFFFFF = a .& 0x7FFFFFFFFFFFFFFF) as ->.
  { rewrite !(land_mod _ _ 63) by lia. unfold uwrap. symmetry.
    apply Znumtheory.Zmod_div_mod; try lia. now exists 2. }
  on_nz (a .& 0x7FFFFFFFFFFFFFFF).
  - assert (a <> 0 /\ a <> - 2 ^ 63) as [H0 H1] by (split; intros ->; now apply Hnz).
    unfold sint_ok in Ha. rewrite abs_code, of_int_nonzero by lia.
    now rewrite normRoundPackToF64_correct by lia.
  - destruct (low_bits_zero 64 a 0x7FFFFFFFFFFFFFFF ltac:(lia) Ha eq_refl Hnz) as [->| ->]; [reflexivity|].
    rewrite of_int_nonzero by lia. change (- 2 ^ (64 - 1) <? 0) with true. transitivity (round_result F64 true (2 ^ 52) (0x43D + emin F64) st).
    + now rewrite (round_result_pack F64 fmt_ok_F64) by (change (fb F64) with 52; change (inf_mag F64) with (2047 * 2 ^ 52); lia).
    + exact (eq_sym (round_result_scale F64 true (2 ^ 52) 11 11 st ltac:(lia) ltac:(lia))).
Qed.

(** 32-bit integers are exact in double precision. *)
Lemma int_packF64 s V dist st :
  0 < V < 2 ^ 32 -> dist = 52 - Z.log2 V ->
  fret (f64_of_ui (packToF64UI s (0x432 - s8 dist) (u64 (V .<< s8 dist)))) st
  = round_result F64 s V 0 st.
Proof.
  intros HV Hd. destruct (int_exact F64 fmt_ok_F64 ltac:(simpl; lia) s V st ltac:(simpl; lia)) as (Hsd & Hm & He & ->).
  change (fb F64) with 52 in *. rewrite <- Hd in *. change (max_exp F64) with 2047 in *.
  change (- emin F64) with 0x432 in *. change (52 + 1) with 53 in *.
  rewrite swrap_small, shiftl_mul, uwrap_small by lia. unfold fret. rewrite pack_of_ui64; [reflexivity|..];
    change (fb F64) with 52; change (max_exp F64) with 2047; change (52 + eb F64) with 63; change (52 + 1) with 53; lia.
Qed.

Lemma ui32_to_f64_correct a st : uint_ok 32 a -> ui32_to_f64 a st = ieee_of_int F64 a st.
Proof.
  intros Ha. unfold uint_ok in Ha. unfold ui32_to_f64. cbv zeta. on_nz a; [|rewrite Hnz; reflexivity].
  rewrite of_int_nonzero by assumption.
  replace (a <? 0) with false by (symmetry; apply Z.ltb_ge; lia). rewrite (Z.abs_eq a) by lia.
  rewrite countLeadingZeros32_spec by lia. apply int_packF64; [lia|].
  unfold clz. destruct (Z.eqb_spec a 0); lia.
Qed.

Lemma i32_to_f64_correct a st : sint_ok 32 a -> i32_to_f64 a st = ieee_of_int F64 a st.
Proof.
  intros Ha. unfold sint_ok in Ha. unfold i32_to_f64. cbv zeta. on_nz a; [|rewrite Hnz; reflexivity].
  rewrite of_int_nonzero, abs_code by lia.
  rewrite (uwrap_small 32), countLeadingZeros32_spec by lia. apply int_packF64; [lia|].
  unfold clz. destruct (Z.eqb_spec (Z.abs a) 0); lia.
Qed.
