(* ===== verification/SFFloat.v ===== *)
(** * SoftFloat: conversions between formats

    The widening conversions are exact; the narrowing ones round once.  A NaN
    becomes the default NaN of the target format, raising invalid when it was
    signaling. *)

From Stdlib Require Import ZArith Lia Bool List.
From S2P Require Import Prelude SFBase SFSpec SFRound SFValue SFAddSub SFAddSub16 SFMul.

(** ** Operations *)

(** The macros [softfloat_fNUIToCommonNaN] of [specialize.h]; the common NaN
    carries no payload, and [softfloat_commonNaNToFNUI] is the default NaN. *)
Definition softfloat_f16UIToCommonNaN (uiA : Z) : fp unit :=
  if negb (nz (uiA .& 0x0200)) then softfloat_raiseFlags softfloat_flag_invalid else fret tt.
Definition softfloat_f32UIToCommonNaN (uiA : Z) : fp unit :=
  if negb (nz (uiA .& 0x00400000)) then softfloat_raiseFlags softfloat_flag_invalid else fret tt.
Definition softfloat_f64UIToCommonNaN (uiA : Z) : fp unit :=
  if negb (nz (uiA .& 0x0008000000000000)) then softfloat_raiseFlags softfloat_flag_invalid else fret tt.

Definition f16_to_f32 (a : Z) : fp Z :=
  let to_uiZ uiZ := fret (f32_of_ui uiZ) in
  let uiA := a in
  let sign := signF16UI uiA in
  let exp := expF16UI uiA in
  let frac := fracF16UI uiA in
  if exp =? 0x1F then
    if nz frac then softfloat_f16UIToCommonNaN uiA ;; to_uiZ defaultNaNF32UI
    else to_uiZ (packToF32UI sign 0xFF 0)
  else if negb (nz exp) && negb (nz frac) then to_uiZ (packToF32UI sign 0 0)
  else
    let '(exp, frac) :=
      if negb (nz exp) then
        let '(nexp, nsig) := softfloat_normSubnormalF16Sig frac in (s8 (nexp - 1), nsig)
      else (exp, frac) in
    to_uiZ (packToF32UI sign (exp + 0x70) (u64 (frac .<< 13))).

Definition f16_to_f64 (a : Z) : fp Z :=
  let to_uiZ uiZ := fret (f64_of_ui uiZ) in
  let uiA := a in
  let sign := signF16UI uiA in
  let exp := expF16UI uiA in
  let frac := fracF16UI uiA in
  if exp =? 0x1F then
    if nz frac then softfloat_f16UIToCommonNaN uiA ;; to_uiZ defaultNaNF64UI
    else to_uiZ (packToF64UI sign 0x7FF 0)
  else if negb (nz exp) && negb (nz frac) then to_uiZ (packToF64UI sign 0 0)
  else
    let '(exp, frac) :=
      if negb (nz exp) then
        let '(nexp, nsig) := softfloat_normSubnormalF16Sig frac in (s8 (nexp - 1), nsig)
      else (exp, frac) in
    to_uiZ (packToF64UI sign (exp + 0x3F0) (u64 (frac .<< 42))).

Definition f32_to_f64 (a : Z) : fp Z :=
  let to_uiZ uiZ := fret (f64_of_ui uiZ) in
  let uiA := a in
  let sign := signF32UI uiA in
  let exp := expF32UI uiA in
  let frac := fracF32UI uiA in
  if exp =? 0xFF then
    if nz frac then softfloat_f32UIToCommonNaN uiA ;; to_uiZ defaultNaNF64UI
    else to_uiZ (packToF64UI sign 0x7FF 0)
  else if negb (nz exp) && negb (nz frac) then to_uiZ (packToF64UI sign 0 0)
  else
    let '(exp, frac) :=
      if negb (nz exp) then
        let '(nexp, nsig) := softfloat_normSubnormalF32Sig frac in (s64 (nexp - 1), nsig)
      else (exp, frac) in
    to_uiZ (packToF64UI sign (exp + 0x380) (u64 (frac .<< 29))).

Definition f32_to_f16 (a : Z) : fp Z :=
  let to_uiZ uiZ := fret (f16_of_ui uiZ) in
  let uiA := a in
  let sign := signF32UI uiA in
  let exp := expF32UI uiA in
  let frac := fracF32UI uiA in
  if exp =? 0xFF then
    if nz frac then softfloat_f32UIToCommonNaN uiA ;; to_uiZ defaultNaNF16UI
    else to_uiZ (packToF16UI sign 0x1F 0)
  else
    let frac16 := (frac .>> 9) .| b2z (nz (frac .& 0x1FF)) in
    if negb (nz (exp .| frac16)) then to_uiZ (packToF16UI sign 0 0)
    else softfloat_roundPackToF16 sign (exp - 0x71) (frac16 .| 0x4000).

Definition f64_to_f16 (a : Z) : fp Z :=
  let to_uiZ uiZ := fret (f16_of_ui uiZ) in
  let uiA := a in
  let sign := signF64UI uiA in
  let exp := expF64UI uiA in
  let frac := fracF64UI uiA in
  if exp =? 0x7FF then
    if nz frac then softfloat_f64UIToCommonNaN uiA ;; to_uiZ defaultNaNF16UI
    else to_uiZ (packToF16UI sign 0x1F 0)
  else
    let frac16 := softfloat_shortShiftRightJam64 frac 38 in
    if negb (nz (exp .| frac16)) then to_uiZ (packToF16UI sign 0 0)
    else softfloat_roundPackToF16 sign (exp - 0x3F1) (frac16 .| 0x4000).

Definition f64_to_f32 (a : Z) : fp Z :=
  let to_uiZ uiZ := fret (f32_of_ui uiZ) in
  let uiA := a in
  let sign := signF64UI uiA in
  let exp := expF64UI uiA in
  let frac := fracF64UI uiA in
  if exp =? 0x7FF then
    if nz frac then softfloat_f64UIToCommonNaN uiA ;; to_uiZ defaultNaNF32UI
    else to_uiZ (packToF32UI sign 0xFF 0)
  else
    let frac32 := softfloat_shortShiftRightJam64 frac 22 in
    if negb (nz (exp .| frac32)) then to_uiZ (packToF32UI sign 0 0)
    else softfloat_roundPackToF32 sign (exp - 0x381) (frac32 .| 0x40000000).

(** ** The reference *)

Definition ieee_convert (f1 f2 : fmt) (a : Z) : fp Z := fun st =>
  if is_nan f1 a then ieee_nan f2 (is_snan f1 a) st
  else if is_inf f1 a then (with_sign f2 (f_sign f1 a) (inf_mag f2), st)
  else ieee_round f2 (fun _ => f_sign f1 a) (f_val f1 a) (emin f1) st.

(** ** Special operands *)

Lemma jam_lt a d k : 0 <= d -> 1 <= k -> 0 <= a < 2 ^ (k + d) -> 0 <= jam a d < 2 ^ k.
Proof.
  intros Hd Hk Ha. split; [apply jam_nonneg; lia|]. rewrite jam_alt by lia.
  assert (a / 2 ^ (d + 1) < 2 ^ (k - 1)).
  { apply Z.div_lt_upper_bound; [apply pow2_pos; lia|]. rewrite <- pow2_split by lia.
    replace (d + 1 + (k - 1)) with (k + d) by lia. lia. }
  rewrite (pow2_pred k) by lia. pose proof (b2z_range (negb (a mod 2 ^ (d + 1) =? 0))). lia.
Qed.

Lemma quiet_bit f a c :
  fmt_ok f -> is_nan f a = true -> c = 2 ^ (fb f - 1) -> negb (nz (a .& c)) = is_snan f a.
Proof.
  intros Hf Hn ->. unfold is_snan. rewrite Hn. simpl. destruct Hf.
  rewrite (land_shifted_mask a 1 (fb f - 1)) by lia. unfold nz, f_frac. rewrite negb_involutive.
  pose proof (pow2_pos (fb f - 1) ltac:(lia)) as HF. rewrite (pow2_pred (fb f)) by lia.
  rewrite (Z.mul_comm 2), Z.rem_mul_r by lia. change (2 ^ 1) with 2.
  pose proof (Z.mod_pos_bound (a / 2 ^ (fb f - 1)) 2). pose proof (Z.mod_pos_bound a (2 ^ (fb f - 1)) HF).
  set (t := a / 2 ^ (fb f - 1) mod 2) in *. assert (t = 0 \/ t = 1) as [-> | ->] by lia.
  - rewrite Z.mul_0_l, Z.mul_0_r, Z.add_0_r, Z.eqb_refl. symmetry. apply Z.ltb_lt. lia.
  - rewrite Z.mul_1_l, Z.mul_1_r. replace (2 ^ (fb f - 1) =? 0) with false by (symmetry; apply Z.eqb_neq; lia).
    symmetry. apply Z.ltb_ge. lia.
Qed.

Section Convert.
Context (f1 f2 : fmt) (Hf1 : fmt_ok f1) (Hf2 : fmt_ok f2).

Lemma convert_finite a st :
  is_finite f1 a = true ->
  ieee_convert f1 f2 a st
  = if f_mag f1 a =? 0 then (sign_bit f2 (f_sign f1 a), st)
    else round_result f2 (f_sign f1 a) (f_mag f1 a) (emin f1) st.
Proof.
  intros Ha. unfold ieee_convert. destruct (finite_cases f1 Hf1 a Ha) as (-> & -> & _).
  pose proof (f_mag_nonneg f1 Hf1 a). rewrite f_val_signed. unfold signed.
  destruct (Z.eqb_spec (f_mag f1 a) 0) as [->|Hm]; [now destruct (f_sign f1 a)|].
  apply ieee_round_sign. lia.
Qed.

(** The significand survives a widening. *)
Lemma widen_exact a e m s st :
  norm_operand f1 a e m -> f_exp f1 a < max_exp f1 -> fb f1 <= fb f2 ->
  let d := fb f2 - fb f1 in
  let K := emin f1 - d - emin f2 in
  fb f1 <= K -> K + max_exp f1 < max_exp f2 ->
  0 <= e + K - 1 < max_exp f2 - 1 /\
  round_result f2 s (f_mag f1 a) (emin f1) st
  = (sign_bit f2 s + (e + K - 1) * 2 ^ fb f2 + m * 2 ^ d, st).
Proof.
  intros Hn Hx Hfb d K HK1 HK2. pose proof (norm_exp_range f1 Hf1 a e m Hn Hx) as He.
  destruct Hn as (Hm & k & Hk & Em & Ee). split; [lia|]. destruct Hf1 as [H1 _], Hf2 as [H2 _].
  pose proof (pow2_pos d ltac:(lia)). pose proof (pow2_pos (fb f2) ltac:(lia)).
  pose proof (pow2_pos k ltac:(lia)). pose proof (pow2_pos (fb f1) ltac:(lia)).
  assert (0 < f_mant f1 a) by nia. assert (0 <= f_shift f1 a) by (unfold f_shift; lia).
  assert (Hmd : 2 ^ fb f2 <= m * 2 ^ d < 2 ^ (fb f2 + 1)).
  { replace (fb f2) with (fb f1 + d) by (unfold d; lia).
    replace (fb f1 + d + 1) with (fb f1 + 1 + d) by lia. rewrite !(pow2_split _ d) by lia. nia. }
  rewrite <- (round_result_pack f2 Hf2) by
    (try lia; unfold inf_mag; rewrite pow2_succ in Hmd by lia;
     assert ((e + K - 1) * 2 ^ fb f2 <= (max_exp f2 - 2) * 2 ^ fb f2) by (apply Z.mul_le_mono_nonneg_r; lia); lia).
  transitivity (round_result f2 s (f_mant f1 a) (f_shift f1 a + emin f1) st).
  - rewrite <- (round_result_scale f2 s (f_mant f1 a) _ (f_shift f1 a)) by lia.
    unfold f_mag. f_equal. lia.
  - rewrite <- (round_result_scale f2 s (f_mant f1 a) _ (k + d)) by lia.
    rewrite Em, pow2_split, Z.mul_assoc by lia. f_equal. unfold K, d. lia.
Qed.

(** Everything below half the smallest subnormal rounds alike. *)
Lemma round_result_tiny s M E M' E' st :
  0 < M -> 0 < M' -> Z.log2 M + E < emin f2 - 1 -> Z.log2 M' + E' < emin f2 - 1 ->
  round_result f2 s M E st = round_result f2 s M' E' st.
Proof.
  assert (H : forall M E, 0 < M -> Z.log2 M + E < emin f2 - 1 ->
    round_mag f2 (softfloat_roundingMode st) s M E
      = b2z (round_up (softfloat_roundingMode st) s false false Lt)
    /\ round_flags f2 st s M E = softfloat_flag_underflow .| softfloat_flag_inexact).
  { intros N F HN HF. destruct Hf2 as [H2 _].
    assert (Hu : ulp_exp f2 N F = emin f2) by (unfold ulp_exp; lia).
    pose proof (Z.log2_spec N HN) as [_ HN2]. pose proof (Z.log2_nonneg N).
    pose proof (pow2_le (Z.succ (Z.log2 N)) (emin f2 - F - 1) ltac:(lia)).
    pose proof (pow2_pred (emin f2 - F) ltac:(lia)).
    split.
    - unfold round_mag, round_shift. rewrite Hu, Z.sub_diag. destruct (Z.leb_spec (emin f2 - F) 0); [lia|].
      rewrite Z.div_small, Z.mod_small by lia. change (Z.odd 0) with false.
      replace (N =? 0) with false by (symmetry; apply Z.eqb_neq; lia).
      replace (2 * N ?= 2 ^ (emin f2 - F)) with Lt by (symmetry; apply Z.compare_lt_iff; lia). lia.
    - unfold round_flags, cut_exact. rewrite Hu. replace (emin f2 - F <=? 0) with false by (symmetry; apply Z.leb_gt; lia).
      rewrite Z.mod_small by lia. replace (N =? 0) with false by (symmetry; apply Z.eqb_neq; lia). simpl.
      replace (is_tiny f2 st s N F) with true; [reflexivity|]. symmetry. unfold is_tiny.
      destruct (softfloat_detectTininess st); apply Z.ltb_lt; [lia|].
      set (e := Z.log2 N + F - fb f2).
      assert (Z.log2 (round_shift (softfloat_roundingMode st) s N (e - F)) <= fb f2 + 1); [|lia].
      destruct (Z_lt_le_dec (round_shift (softfloat_roundingMode st) s N (e - F)) 1).
      { rewrite Z.log2_nonpos; lia. }
      apply Z.lt_succ_r. apply Z.log2_lt_pow2; [lia|]. unfold Z.succ.
      rewrite !pow2_succ by lia. pose proof (pow2_pos (fb f2) ltac:(lia)).
      unfold round_shift. destruct (Z.leb_spec (e - F) 0).
      + unfold e in *. assert (N * 2 ^ (- (Z.log2 N + F - fb f2 - F)) < 2 ^ (fb f2 + 1)); [|rewrite pow2_succ in *; lia].
        replace (fb f2 + 1) with (Z.succ (Z.log2 N) + (- (Z.log2 N + F - fb f2 - F))) by lia.
        rewrite pow2_split by lia. apply Z.mul_lt_mono_pos_r; [apply pow2_pos|]; lia.
      + assert (N / 2 ^ (e - F) < 2 ^ (fb f2 + 1)).
        { apply Z.div_lt_upper_bound; [apply pow2_pos; lia|]. rewrite <- pow2_split by lia.
          unfold e. replace (Z.log2 N + F - fb f2 - F + (fb f2 + 1)) with (Z.succ (Z.log2 N)) by lia. lia. }
        rewrite pow2_succ in * by lia.
        pose proof (b2z_range (round_up (softfloat_roundingMode st) s (Z.odd (N / 2 ^ (e - F)))
          (N mod 2 ^ (e - F) =? 0) (2 * (N mod 2 ^ (e - F)) ?= 2 ^ (e - F)))). lia. }
  intros HM HM' HE HE'. destruct (H M E HM HE) as [Ha Hb], (H M' E' HM' HE') as [Hc Hd].
  unfold round_result. now rewrite Ha, Hb, Hc, Hd.
Qed.
End Convert.

(** ** The conversions as two texts *)

Section ConvertText.
Context (f1 f2 : fmt) (Hf1 : fmt_ok f1) (Hf2 : fmt_ok f2).
Variables (signUI : Z -> bool) (expUI fracUI : Z -> Z) (packUI : bool -> Z -> Z -> Z) (of_ui : Z -> Z).
Variables (toCommon : Z -> fp unit) (dnan maxe1 maxe2 : Z).

Hypothesis Hsign : forall x, is_pattern f1 x -> signUI x = f_sign f1 x.
Hypothesis Hexp : forall x, is_pattern f1 x -> expUI x = f_exp f1 x.
Hypothesis Hfrac : forall x, fracUI x = f_frac f1 x.
Hypothesis Hcommon : forall x st, is_nan f1 x = true ->
  toCommon x st = (tt, raise (if is_snan f1 x then softfloat_flag_invalid else 0) st).
Hypothesis Hdnan : of_ui dnan = default_nan f2.
Hypothesis Hmaxe1 : maxe1 = max_exp f1.
Hypothesis Hinf : forall s, of_ui (packUI s maxe2 0) = with_sign f2 s (inf_mag f2).
Hypothesis Hzero : forall s, of_ui (packUI s 0 0) = sign_bit f2 s.
Hypothesis Hpack : forall s e m,
  0 <= e <= max_exp f2 -> 0 <= m <= 2 ^ (fb f2 + 1) -> e * 2 ^ fb f2 + m < 2 ^ (fb f2 + eb f2) ->
  of_ui (packUI s e m) = sign_bit f2 s + e * 2 ^ fb f2 + m.

Definition special_text (uiA : Z) (finite : fp Z) : fp Z :=
  if expUI uiA =? maxe1 then
    if nz (fracUI uiA) then toCommon uiA ;; fret (of_ui dnan)
    else fret (of_ui (packUI (signUI uiA) maxe2 0))
  else finite.

Lemma special_text_correct a finite st :
  is_pattern f1 a ->
  (is_finite f1 a = true -> finite st = ieee_convert f1 f2 a st) ->
  special_text a finite st = ieee_convert f1 f2 a st.
Proof.
  intros Ha Hfin. unfold special_text. rewrite Hsign, Hexp, Hfrac, Hmaxe1 by assumption.
  destruct (Z.eqb_spec (f_exp f1 a) (max_exp f1)) as [He|He].
  - unfold ieee_convert, is_nan at 1, is_inf. rewrite (proj2 (Z.eqb_eq _ _) He). unfold nz.
    destruct (Z.eqb_spec (f_frac f1 a) 0) as [Hm|Hm]; simpl.
    + unfold fret. now rewrite Hinf.
    + unfold fbind, fret. rewrite Hcommon, Hdnan; [reflexivity|]. now apply is_nan_iff.
  - apply Hfin. now apply is_finite_iff.
Qed.

Section Widen.
Variables (normSub : Z -> Z * Z) (w K d : Z).
Hypothesis HnormSub : forall x, 0 < x < 2 ^ fb f1 ->
  normSub x = (1 - (fb f1 - Z.log2 x), x * 2 ^ (fb f1 - Z.log2 x)).
Hypothesis Hd : d = fb f2 - fb f1.
Hypothesis HK : K = emin f1 - d - emin f2.
Hypothesis Hrange : 0 <= d /\ fb f1 <= K /\ K + max_exp f1 < max_exp f2 /\ fb f2 < 63 /\ 7 < w <= 64.
Hypothesis Hfb1 : fb f1 < 127.

Definition widen_text (uiA : Z) : fp Z :=
  special_text uiA
    (if negb (nz (expUI uiA)) && negb (nz (fracUI uiA)) then fret (of_ui (packUI (signUI uiA) 0 0))
     else
       let '(exp, frac) :=
         if negb (nz (expUI uiA)) then
           let '(nexp, nsig) := normSub (fracUI uiA) in (swrap w (nexp - 1), nsig)
         else (expUI uiA, fracUI uiA) in
       fret (of_ui (packUI (signUI uiA) (exp + K) (u64 (frac .<< d))))).

Lemma widen_text_correct a st :
  is_pattern f1 a -> widen_text a st = ieee_convert f1 f2 a st.
Proof.
  intros Ha. apply special_text_correct; trivial. intros Hfin.
  rewrite convert_finite, Hsign, Hexp, Hfrac by assumption.
  destruct (mag_zero_code f1 Hf1 a) as [_ Hz]. rewrite Hz.
  destruct (Z.eqb_spec (f_mag f1 a) 0) as [Hm0|Hm0]; [unfold fret; now rewrite Hzero|].
  apply is_finite_iff in Hfin. pose proof (f_exp_range f1 Hf1 a). pose proof (f_frac_range f1 Hf1 a).
  pose proof (normalize_code f1 Hf1 normSub (2 ^ fb f1) eq_refl HnormSub a Hz) as Hn.
  destruct Hf1 as [H11 H12], Hf2 as [H21 H22].
  pose proof (pow2_le (fb f2 + 1) 63 ltac:(lia)). pose proof (pow2_split (fb f2) (eb f2) ltac:(lia) ltac:(lia)).
  pose proof (pow2_pos (fb f2) ltac:(lia)). pose proof (pow2_succ (fb f2) ltac:(lia)).
  pose proof (pow2_pos d ltac:(lia)).
  assert (Hfd : 2 ^ fb f1 * 2 ^ d = 2 ^ fb f2) by (rewrite <- pow2_split by lia; f_equal; lia).
  unfold max_exp in *.
  on_nz (f_exp f1 a).
  - cbn [negb] in Hn. cbv iota beta in Hn. rewrite (lor_high _ (fb f1)) in Hn by lia.
    destruct (widen_exact f1 f2 Hf1 Hf2 a _ _ (f_sign f1 a) st Hn ltac:(unfold max_exp; lia) ltac:(lia)) as [He ->];
      [rewrite <- Hd, <- HK; lia|rewrite <- Hd, <- HK; unfold max_exp; lia|].
    rewrite <- Hd, <- HK in *. unfold max_exp in He.
    assert (f_frac f1 a * 2 ^ d < 2 ^ fb f2) by (rewrite <- Hfd; apply Z.mul_lt_mono_pos_r; lia).
    assert ((f_exp f1 a + K - 1) * 2 ^ fb f2 <= (2 ^ eb f2 - 3) * 2 ^ fb f2) by (apply Z.mul_le_mono_nonneg_r; lia).
    unfold fret. rewrite shiftl_mul, uwrap_small, Hpack by (unfold max_exp; lia).
    f_equal. rewrite (Z.mul_add_distr_r (2 ^ fb f1)), Hfd. lia.
  - destruct (nz (f_frac f1 a)) eqn:Hfr;
      [apply nz_true in Hfr|exfalso; apply nz_false in Hfr; apply Hm0; now apply (f_mag_zero f1 Hf1)].
    rewrite HnormSub in * by lia. set (x := f_frac f1 a) in *.
    assert (0 <= Z.log2 x < fb f1) by (split; [apply Z.log2_nonneg|apply Z.log2_lt_pow2; lia]).
    assert (Hm : 2 ^ fb f1 <= x * 2 ^ (fb f1 - Z.log2 x) < 2 ^ (fb f1 + 1)).
    { pose proof (Z.log2_spec x ltac:(lia)) as [Hl Hu]. pose proof (pow2_pos (fb f1 - Z.log2 x) ltac:(lia)).
      replace (fb f1) with (Z.log2 x + (fb f1 - Z.log2 x)) at 1 by lia.
      replace (fb f1 + 1) with (Z.succ (Z.log2 x) + (fb f1 - Z.log2 x)) by lia.
      rewrite !pow2_split by lia. nia. }
    cbn [negb] in Hn. cbv iota beta in Hn. rewrite (lor_present _ (fb f1)) in Hn by lia.
    destruct (widen_exact f1 f2 Hf1 Hf2 a _ _ (f_sign f1 a) st Hn ltac:(unfold max_exp; lia) ltac:(lia)) as [He ->];
      [rewrite <- Hd, <- HK; lia|rewrite <- Hd, <- HK; unfold max_exp; lia|].
    rewrite <- Hd, <- HK in *. unfold max_exp in He.
    set (m := x * 2 ^ (fb f1 - Z.log2 x)) in *. set (sh := fb f1 - Z.log2 x) in *.
    pose proof (pow2_le 7 (w - 1) ltac:(lia)).
    rewrite swrap_small by (unfold sh; lia). rewrite pow2_succ in Hm by lia.
    assert (m * 2 ^ d < 2 * 2 ^ fb f2) by (rewrite <- Hfd, Z.mul_assoc; apply Z.mul_lt_mono_pos_r; lia).
    assert ((1 - sh + K - 1) * 2 ^ fb f2 <= (2 ^ eb f2 - 3) * 2 ^ fb f2) by (apply Z.mul_le_mono_nonneg_r; lia).
    unfold fret. rewrite shiftl_mul, uwrap_small, Hpack by (unfold max_exp; lia).
    f_equal. replace (1 - sh - 1 + K) with (1 - sh + K - 1) by lia. reflexivity.
Qed.
End Widen.

Section Narrow.
Variables (roundPack : bool -> Z -> Z -> fp Z) (jamCode : Z -> Z) (g cw d off hidden : Z).
Hypothesis HroundPack : forall s e m st,
  2 ^ (fb f2 + g) <= m < 2 ^ (fb f2 + g + 1) -> - 2 ^ (cw - 1) <= e < 2 ^ (cw - 1) ->
  roundPack s e m st = round_result f2 s m (e - g + emin f2) st.
Hypothesis HjamCode : forall x, 0 <= x < 2 ^ fb f1 -> jamCode x = jam x d.
Hypothesis Hd : d = fb f1 - fb f2 - g.
Hypothesis Hrange : 0 <= d /\ 2 <= g.
Hypothesis Hoff : off = emin f2 - emin f1 - (fb f1 - fb f2) + 1.
Hypothesis Hhidden : hidden = 2 ^ (fb f2 + g).
Hypothesis Hcw : eb f1 < cw /\ 0 <= off < 2 ^ (cw - 1).
Hypothesis Htiny : emin f1 + fb f1 < emin f2 - 1.

Definition narrow_text (uiA : Z) : fp Z :=
  special_text uiA
    (if negb (nz (expUI uiA .| jamCode (fracUI uiA))) then fret (of_ui (packUI (signUI uiA) 0 0))
     else roundPack (signUI uiA) (expUI uiA - off) (jamCode (fracUI uiA) .| hidden)).

Lemma narrow_text_correct a st :
  is_pattern f1 a -> narrow_text a st = ieee_convert f1 f2 a st.
Proof.
  intros Ha. apply special_text_correct; trivial. intros Hfin.
  pose proof (f_exp_range f1 Hf1 a). pose proof (f_frac_range f1 Hf1 a) as Hr.
  rewrite convert_finite, Hsign, Hexp, Hfrac, HjamCode by assumption.
  apply is_finite_iff in Hfin. destruct Hf1 as [H11 H12], Hf2 as [H21 H22].
  assert (Hj : 0 <= jam (f_frac f1 a) d < 2 ^ (fb f2 + g)).
  { apply jam_lt; try lia. replace (fb f2 + g + d) with (fb f1) by lia. lia. }
  rewrite nz_lor_frac by lia.
  assert (nz (jam (f_frac f1 a) d) = nz (f_frac f1 a)) as ->.
  { unfold nz. f_equal. apply eq_true_iff_eq. rewrite !Z.eqb_eq. apply jam_zero_iff; lia. }
  pose proof (mag_zero_code f1 Hf1 a) as [_ Hz]. rewrite negb_orb, Hz.
  destruct (Z.eqb_spec (f_mag f1 a) 0) as [Hm0|Hm0]; [unfold fret; now rewrite Hzero|].
  rewrite (lor_high _ (fb f2 + g)) by lia. rewrite Hhidden.
  pose proof (pow2_le (eb f1) (cw - 1) ltac:(lia)). pose proof (pow2_succ (fb f2 + g) ltac:(lia)).
  pose proof (pow2_pos (fb f2 + g) ltac:(lia)) as HP.
  rewrite HroundPack by (unfold max_exp in *; lia).
  pose proof (f_mag_nonneg f1 Hf1 a).
  destruct (Z.eq_dec (f_exp f1 a) 0) as [He0|He0].
  - apply round_result_tiny; trivial; try lia.
    + assert (Z.log2 (2 ^ (fb f2 + g) + jam (f_frac f1 a) d) < fb f2 + g + 1)
        by (apply Z.log2_lt_pow2; lia). lia.
    + rewrite subnormal_mag in * by assumption.
      assert (Z.log2 (f_frac f1 a) < fb f1) by (apply Z.log2_lt_pow2; lia). lia.
  - assert (Hmant : f_mant f1 a = 2 ^ fb f1 + f_frac f1 a)
      by (unfold f_mant; destruct (Z.eqb_spec (f_exp f1 a) 0); lia).
    assert (Hpd : 2 ^ fb f1 = 2 ^ (fb f2 + g) * 2 ^ d) by (rewrite <- pow2_split by lia; f_equal; lia).
    pose proof (even_scaled 1 (fb f2 + g) ltac:(lia)) as Hev. rewrite Z.mul_1_l in Hev.
    rewrite jam_add, <- Hpd, <- Hmant by (trivial; lia).
    replace (f_exp f1 a - off - g + emin f2) with (f_exp f1 a - 1 + emin f1 + d) by lia.
    rewrite round_result_jam.
    + rewrite <- (round_result_scale f2 _ (f_mant f1 a) _ (f_shift f1 a)) by (unfold f_shift; lia).
      unfold f_mag, f_shift. f_equal. lia.
    + lia.
    + lia.
    + rewrite Hmant, Hpd. replace (d + fb f2 + 2) with (fb f2 + 2 + d) by lia. rewrite (pow2_split _ d) by lia.
      pose proof (pow2_le (fb f2 + 2) (fb f2 + g) ltac:(lia)). pose proof (pow2_pos d ltac:(lia)). nia.
Qed.
End Narrow.
End ConvertText.

(** ** Correctness *)

Lemma toCommonNaNF16 x st :
  is_nan F16 x = true ->
  softfloat_f16UIToCommonNaN x st = (tt, raise (if is_snan F16 x then softfloat_flag_invalid else 0) st).
Proof.
  intros Hn. unfold softfloat_f16UIToCommonNaN. rewrite (quiet_bit F16) by (trivial; apply fmt_ok_F16).
  destruct (is_snan F16 x); [reflexivity|]. now rewrite raise_0.
Qed.

Lemma toCommonNaNF32 x st :
  is_nan F32 x = true ->
  softfloat_f32UIToCommonNaN x st = (tt, raise (if is_snan F32 x then softfloat_flag_invalid else 0) st).
Proof.
  intros Hn. unfold softfloat_f32UIToCommonNaN. rewrite (quiet_bit F32) by (trivial; apply fmt_ok_F32).
  destruct (is_snan F32 x); [reflexivity|]. now rewrite raise_0.
Qed.

Lemma toCommonNaNF64 x st :
  is_nan F64 x = true ->
  softfloat_f64UIToCommonNaN x st = (tt, raise (if is_snan F64 x then softfloat_flag_invalid else 0) st).
Proof.
  intros Hn. unfold softfloat_f64UIToCommonNaN. rewrite (quiet_bit F64) by (trivial; apply fmt_ok_F64).
  destruct (is_snan F64 x); [reflexivity|]. now rewrite raise_0.
Qed.

Lemma f16_to_f32_correct a st : is_pattern F16 a -> f16_to_f32 a st = ieee_convert F16 F32 a st.
Proof.
  apply (widen_text_correct F16 F32 fmt_ok_F16 fmt_ok_F32 signF16UI expF16UI fracF16UI packToF32UI f32_of_ui
    softfloat_f16UIToCommonNaN defaultNaNF32UI 0x1F 0xFF) with
    (normSub := softfloat_normSubnormalF16Sig) (w := 8) (K := 0x70) (d := 13);
    auto using signF16UI_eq, expF16UI_eq, fracF16UI_eq, toCommonNaNF16, pack_of_ui32, normSubnormalF16_spec;
    solve [now intros [] | vm_compute; intuition discriminate].
Qed.

Lemma f16_to_f64_correct a st : is_pattern F16 a -> f16_to_f64 a st = ieee_convert F16 F64 a st.
Proof.
  apply (widen_text_correct F16 F64 fmt_ok_F16 fmt_ok_F64 signF16UI expF16UI fracF16UI packToF64UI f64_of_ui
    softfloat_f16UIToCommonNaN defaultNaNF64UI 0x1F 0x7FF) with
    (normSub := softfloat_normSubnormalF16Sig) (w := 8) (K := 0x3F0) (d := 42);
    auto using signF16UI_eq, expF16UI_eq, fracF16UI_eq, toCommonNaNF16, pack_of_ui64, normSubnormalF16_spec;
    solve [now intros [] | vm_compute; intuition discriminate].
Qed.

Lemma f32_to_f64_correct a st : is_pattern F32 a -> f32_to_f64 a st = ieee_convert F32 F64 a st.
Proof.
  apply (widen_text_correct F32 F64 fmt_ok_F32 fmt_ok_F64 signF32UI expF32UI fracF32UI packToF64UI f64_of_ui
    softfloat_f32UIToCommonNaN defaultNaNF64UI 0xFF 0x7FF) with
    (normSub := softfloat_normSubnormalF32Sig) (w := 64) (K := 0x380) (d := 29);
    auto using signF32UI_eq, expF32UI_eq, fracF32UI_eq, toCommonNaNF32, pack_of_ui64, normSubnormalF32_spec;
    solve [now intros [] | vm_compute; intuition discriminate].
Qed.

Lemma f32_to_f16_correct a st : is_pattern F32 a -> f32_to_f16 a st = ieee_convert F32 F16 a st.
Proof.
  intros Ha. transitivity (narrow_text signF32UI expF32UI fracF32UI packToF16UI f16_of_ui
    softfloat_f32UIToCommonNaN defaultNaNF16UI 0xFF 0x1F softfloat_roundPackToF16
    (fun frac => (frac .>> 9) .| b2z (nz (frac .& 0x1FF))) 0x71 0x4000 a st); [reflexivity|].
  apply (narrow_text_correct F32 F16 fmt_ok_F32 fmt_ok_F16 signF32UI expF32UI fracF32UI packToF16UI f16_of_ui
    softfloat_f32UIToCommonNaN defaultNaNF16UI 0xFF 0x1F) with
    (g := 4) (cw := 32) (d := 9); trivial.
  - apply signF32UI_eq.
  - apply expF32UI_eq.
  - apply fracF32UI_eq.
  - apply toCommonNaNF32.
  - now intros [].
  - now intros [].
  - intros. now apply roundPackToF16_correct.
  - intros x Hx. rewrite (land_mod x 0x1FF 9), shiftr_div by lia. reflexivity.
  - lia.
  - vm_compute. intuition discriminate.
  - vm_compute. intuition discriminate.
Qed.

Lemma f64_to_f16_correct a st : is_pattern F64 a -> f64_to_f16 a st = ieee_convert F64 F16 a st.
Proof.
  intros Ha. transitivity (narrow_text signF64UI expF64UI fracF64UI packToF16UI f16_of_ui
    softfloat_f64UIToCommonNaN defaultNaNF16UI 0x7FF 0x1F softfloat_roundPackToF16
    (fun frac => softfloat_shortShiftRightJam64 frac 38) 0x3F1 0x4000 a st); [reflexivity|].
  apply (narrow_text_correct F64 F16 fmt_ok_F64 fmt_ok_F16 signF64UI expF64UI fracF64UI packToF16UI f16_of_ui
    softfloat_f64UIToCommonNaN defaultNaNF16UI 0x7FF 0x1F) with
    (g := 4) (cw := 32) (d := 38); trivial.
  - apply signF64UI_eq.
  - apply expF64UI_eq.
  - apply fracF64UI_eq.
  - apply toCommonNaNF64.
  - now intros [].
  - now intros [].
  - intros. now apply roundPackToF16_correct.
  - intros x Hx. change (2 ^ fb F64) with (2 ^ 52) in Hx. apply shortShiftRightJam64_jam; lia.
  - lia.
  - vm_compute. intuition discriminate.
  - vm_compute. intuition discriminate.
Qed.

Lemma f64_to_f32_correct a st : is_pattern F64 a -> f64_to_f32 a st = ieee_convert F64 F32 a st.
Proof.
  intros Ha. transitivity (narrow_text signF64UI expF64UI fracF64UI packToF32UI f32_of_ui
    softfloat_f64UIToCommonNaN defaultNaNF32UI 0x7FF 0xFF softfloat_roundPackToF32
    (fun frac => softfloat_shortShiftRightJam64 frac 22) 0x381 0x40000000 a st); [reflexivity|].
  apply (narrow_text_correct F64 F32 fmt_ok_F64 fmt_ok_F32 signF64UI expF64UI fracF64UI packToF32UI f32_of_ui
    softfloat_f64UIToCommonNaN defaultNaNF32UI 0x7FF 0xFF) with
    (g := 7) (cw := 32) (d := 22); trivial.
  - apply signF64UI_eq.
  - apply expF64UI_eq.
  - apply fracF64UI_eq.
  - apply toCommonNaNF64.
  - now intros [].
  - now intros [].
  - intros. now apply roundPackToF32_correct.
  - intros x Hx. change (2 ^ fb F64) with (2 ^ 52) in Hx. apply shortShiftRightJam64_jam; lia.
  - lia.
  - vm_compute. intuition discriminate.
  - vm_compute. intuition discriminate.
Qed.

