(* ===== verification/SFSpecFacts.v ===== *)
(** * What the rounding reference promises

    [round_result] is the yardstick of every SoftFloat theorem, so it is
    characterised here without reference to how it is computed: among the
    numbers of the format, the nearest modes deliver a closest one (the even
    one on a tie in [near_even]), the directed modes the closest one on their
    side, and a value of the format is delivered unchanged. *)

From Stdlib Require Import ZArith Lia Bool List.
From S2P Require Import Prelude SFBase SFSpec SFRound SFValue.

(** ** Rounding to an integer *)

Definition to_nearest (rm : rounding_mode) : bool :=
  match rm with softfloat_round_near_even | softfloat_round_near_maxMag => true | _ => false end.

(** The directed modes seen from the magnitude: toward or away from zero. *)
Definition toward_zero (rm : rounding_mode) (sign : bool) : bool :=
  match rm with
  | softfloat_round_minMag => true
  | softfloat_round_min => negb sign
  | softfloat_round_max => sign
  | _ => false
  end.

Definition away_from_zero (rm : rounding_mode) (sign : bool) : bool :=
  match rm with
  | softfloat_round_min => sign
  | softfloat_round_max => negb sign
  | _ => false
  end.

Section Integers.
Variables (rm : rounding_mode) (s : bool) (M k : Z).
Hypothesis HM : 0 <= M.
Hypothesis Hk : 0 < k.
Notation P := (2 ^ k).
Notation R := (round_shift rm s M k).

Lemma round_shift_pos :
  exists q r, M = q * P + r /\ 0 <= r < P /\ 0 <= q /\
    R = q + b2z (round_up rm s (Z.odd q) (r =? 0) (2 * r ?= P)).
Proof.
  pose proof (pow2_pos k ltac:(lia)). exists (M / P), (M mod P).
  pose proof (Z_div_mod_eq_full M P). pose proof (Z.mod_pos_bound M P).
  assert (0 <= M / P) by (apply Z.div_pos; lia).
  unfold round_shift. destruct (Z.leb_spec k 0); [lia|]. repeat split; lia.
Qed.

Lemma round_shift_exact : M mod P = 0 -> R * P = M.
Proof.
  intros H0. pose proof (pow2_pos k ltac:(lia)). unfold round_shift.
  destruct (Z.leb_spec k 0); [lia|]. rewrite H0. change (2 * 0) with 0.
  replace (0 ?= P) with Lt by (symmetry; apply Z.compare_lt_iff; lia).
  rewrite Z.eqb_refl, round_up_exact. pose proof (Z_div_mod_eq_full M P). simpl. lia.
Qed.

(** No integer is closer in the nearest modes. *)
Lemma round_shift_nearest N : to_nearest rm = true -> Z.abs (R * P - M) <= Z.abs (N * P - M).
Proof.
  intros Hrm. destruct round_shift_pos as (q & r & HMq & Hr & Hq & HR). rewrite HR.
  assert (Hup : b2z (round_up rm s (Z.odd q) (r =? 0) (2 * r ?= P)) = 0 /\ 2 * r <= P
             \/ b2z (round_up rm s (Z.odd q) (r =? 0) (2 * r ?= P)) = 1 /\ P <= 2 * r).
  { destruct (Z.compare_spec (2 * r) P), rm; try discriminate; simpl; try lia; destruct (Z.odd q); simpl; lia. }
  destruct (Z_le_gt_dec N q).
  - assert (N * P <= q * P) by nia. destruct Hup as [[-> Hh]|[-> Hh]]; lia.
  - assert ((q + 1) * P <= N * P) by nia. destruct Hup as [[-> Hh]|[-> Hh]]; lia.
Qed.

(** A tie goes to the even integer, or away from zero. *)
Lemma round_shift_tie :
  2 * (M mod P) = P ->
  (rm = softfloat_round_near_even -> Z.even R = true) /\
  (rm = softfloat_round_near_maxMag -> M < R * P).
Proof.
  intros Ht. pose proof (pow2_pos k ltac:(lia)). unfold round_shift.
  destruct (Z.leb_spec k 0); [lia|]. rewrite Ht, Z.compare_refl.
  pose proof (Z_div_mod_eq_full M P).
  split; intros ->; simpl.
  - rewrite Z.even_add, <- Z.negb_odd. now destruct (Z.odd (M / P)).
  - lia.
Qed.

Lemma round_shift_down N : toward_zero rm s = true -> R * P <= M /\ (N * P <= M -> N <= R).
Proof.
  intros Hrm. destruct round_shift_pos as (q & r & HMq & Hr & Hq & HR).
  assert (R = q) as -> by (rewrite HR; destruct rm, s; try discriminate; simpl; lia).
  split; [lia|]. intros HN. nia.
Qed.

Lemma round_shift_up N : away_from_zero rm s = true -> M <= R * P /\ (M <= N * P -> R <= N).
Proof.
  intros Hrm. destruct round_shift_pos as (q & r & HMq & Hr & Hq & HR).
  assert (R = q + b2z (negb (r =? 0))) as -> by (rewrite HR; destruct rm, s; try discriminate; simpl; lia).
  destruct (Z.eqb_spec r 0); simpl; (split; [lia|]); intros HN; nia.
Qed.

(** Rounding to odd never hides an inexact result behind an even one. *)
Lemma round_shift_odd : rm = softfloat_round_odd -> M mod P <> 0 -> Z.odd R = true.
Proof.
  intros -> H0. unfold round_shift. destruct (Z.leb_spec k 0); [lia|].
  destruct (Z.eqb_spec (M mod P) 0); [lia|]. simpl.
  rewrite andb_true_r, Z.odd_add. now destruct (Z.odd (M / P)).
Qed.
End Integers.

(** Two integers equally close to [q * P + r], one of them a neighbour at least
    as close as the other neighbour: the fraction is a half. *)
Lemma half_way P q r N R :
  0 <= r < P -> R = q \/ R = q + 1 ->
  Z.abs (R * P - (q * P + r)) <= Z.abs ((2 * q + 1 - R) * P - (q * P + r)) ->
  Z.abs (N * P - (q * P + r)) = Z.abs (R * P - (q * P + r)) -> N <> R -> 2 * r = P.
Proof.
  intros Hr HR Hle Heq Hne. assert (exists d, N = q + d) as [d ->] by (exists (N - q); lia).
  assert (d = 0 \/ d = 1 \/ P * 2 <= d * P \/ d * P <= - P) as Hd by nia.
  replace ((q + d) * P) with (q * P + d * P) in Heq by ring.
  destruct HR as [-> | ->].
  - replace ((2 * q + 1 - q) * P) with (q * P + P) in Hle by ring.
    destruct Hd as [-> | [-> | Hd]]; lia.
  - replace ((2 * q + 1 - (q + 1)) * P) with (q * P) in Hle by ring.
    replace ((q + 1) * P) with (q * P + P) in * by ring.
    destruct Hd as [-> | [-> | Hd]]; lia.
Qed.

(** ** Rounding to a format *)

Section Formats.
Context (f : fmt) (Hf : fmt_ok f) (s : bool) (M E : Z) (st : fp_state).
Hypothesis HM : 0 < M.
Notation rm := (softfloat_roundingMode st).
Notation R := (round_shift rm s M (ulp_exp f M E - E)).
Notation e := (ulp_exp f M E - emin f).

(** The rounded significand stays within its binade or carries out of it. *)
Lemma rounded_range : 0 <= e /\ 0 <= R <= 2 ^ (fb f + 1) /\ (0 < e -> 2 ^ fb f <= R).
Proof.
  destruct Hf as [Hf1 Hf2]. pose proof (Z.log2_spec M HM) as [Hl Hu]. pose proof (Z.log2_nonneg M).
  assert (He : 0 <= e) by (unfold ulp_exp; lia).
  set (k := ulp_exp f M E - E). pose proof (pow2_pos (fb f) ltac:(lia)).
  assert (Hkl : Z.log2 M - fb f <= k) by (unfold k, ulp_exp; lia).
  assert (Hlow : 0 < e -> k = Z.log2 M - fb f) by (unfold k, ulp_exp; lia).
  split; [exact He|]. destruct (Z_le_gt_dec k 0) as [Hk|Hk].
  - unfold round_shift. replace (k <=? 0) with true by (symmetry; apply Z.leb_le; lia).
    assert (Hup : M * 2 ^ (- k) < 2 ^ (fb f + 1)).
    { pose proof (pow2_le (Z.succ (Z.log2 M) + - k) (fb f + 1) ltac:(lia)).
      rewrite pow2_split in H1 by lia. pose proof (pow2_pos (- k) ltac:(lia)). nia. }
    pose proof (pow2_pos (- k) ltac:(lia)). split; [nia|]. intros Hp.
    specialize (Hlow Hp). replace (fb f) with (Z.log2 M + - k) by lia. rewrite pow2_split by lia. nia.
  - destruct (round_shift_pos rm s M k ltac:(lia) ltac:(lia)) as (q & r & HMq & Hr & Hq & ->).
    pose proof (b2z_range (round_up rm s (Z.odd q) (r =? 0) (2 * r ?= 2 ^ k))).
    pose proof (pow2_pos k ltac:(lia)).
    assert (q < 2 ^ (fb f + 1)).
    { pose proof (pow2_le (Z.succ (Z.log2 M)) (fb f + 1 + k) ltac:(lia)) as Hle. rewrite (pow2_split _ k) in Hle by lia. nia. }
    split; [lia|]. intros Hp. specialize (Hlow Hp).
    assert (2 ^ fb f * 2 ^ k <= M) by (rewrite <- pow2_split by lia; replace (fb f + k) with (Z.log2 M) by lia; lia).
    nia.
Qed.

(** Without overflow the delivered magnitude is [R] units of the last place. *)
Hypothesis Hno : round_mag f rm s M E < inf_mag f.
Notation z := (fst (round_result f s M E st)).

Lemma rounded_value : is_pattern f z /\ is_finite f z = true /\ f_sign f z = s /\ f_mag f z = R * 2 ^ e.
Proof.
  destruct rounded_range as (He & HR & Hn). pose proof Hf as [Hf1 Hf2].
  unfold round_result. replace (inf_mag f <=? round_mag f rm s M E) with false by (symmetry; apply Z.leb_gt; lia).
  cbn [fst]. unfold round_mag in *. set (r := R) in *. set (x := e) in *.
  pose proof (pow2_pos (fb f) ltac:(lia)) as HF. rewrite pow2_succ in HR by lia.
  (* the exponent field and fraction of the magnitude bits *)
  assert (exists ef m, x * 2 ^ fb f + r = ef * 2 ^ fb f + m /\ 0 <= m < 2 ^ fb f /\ 0 <= ef < max_exp f
            /\ (if ef =? 0 then m else 2 ^ fb f + m) * 2 ^ (Z.max ef 1 - 1) = r * 2 ^ x) as (ef & m & Hxm & Hm & Hef & Hv).
  { unfold inf_mag in Hno. destruct (Z_lt_le_dec r (2 ^ fb f)) as [Hs|Hs].
    - exists 0, r. assert (x = 0) as -> by lia. rewrite Z.eqb_refl. simpl. repeat split; try lia; nia.
    - destruct (Z.eq_dec r (2 * 2 ^ fb f)) as [Hc|Hc].
      + exists (x + 2), 0. destruct (Z.eqb_spec (x + 2) 0); [lia|]. rewrite Z.max_l by lia.
        repeat split; try lia; try nia. rewrite Hc, Z.add_0_r. replace (x + 2 - 1) with (x + 1) by lia.
        rewrite pow2_succ by lia. ring.
      + exists (x + 1), (r - 2 ^ fb f). destruct (Z.eqb_spec (x + 1) 0); [lia|]. rewrite Z.max_l by lia.
        repeat split; try lia; try nia. replace (x + 1 - 1) with x by lia. f_equal. lia. }
  pose proof (fields_pattern f Hf s ef m ltac:(lia) Hm) as (Hp & Hs & Hx & Hy). cbv zeta in *.
  replace (sign_bit f s + (x * 2 ^ fb f + r)) with (sign_bit f s + ef * 2 ^ fb f + m) by lia.
  split; [exact Hp|]. split; [apply negb_true_iff, Z.eqb_neq; lia|]. split; [exact Hs|].
  unfold f_mag, f_mant, f_shift. rewrite Hx, Hy. exact Hv.
Qed.

(** Exact value and candidates over a common unit: [x] is [M * 2 ^ E] and
    [c] is [2 ^ emin], both over [2 ^ min E emin]. *)
Notation x := (M * 2 ^ Z.max 0 (E - emin f)).
Notation c := (2 ^ Z.max 0 (emin f - E)).

Lemma scaled_error N :
  exists u, 0 < u /\ N * 2 ^ e * c = (N * 2 ^ Z.max 0 (ulp_exp f M E - E)) * u
            /\ x = (M * 2 ^ Z.max 0 (E - ulp_exp f M E)) * u.
Proof.
  destruct rounded_range as (He & _). exists (2 ^ Z.max 0 (Z.min (ulp_exp f M E) E - emin f)).
  split; [apply pow2_pos; lia|].
  rewrite <- !Z.mul_assoc, <- !pow2_split by lia. split; do 2 f_equal; lia.
Qed.

Lemma finite_multiple p :
  is_finite f p = true ->
  (exists N, f_mag f p = N * 2 ^ e) \/ (f_mag f p < 2 ^ fb f * 2 ^ e /\ 0 < e).
Proof.
  intros Hp. destruct rounded_range as (He & _). pose proof (f_mant_range f Hf p).
  destruct (Z_le_gt_dec e (f_shift f p)).
  - left. exists (f_mant f p * 2 ^ (f_shift f p - e)). unfold f_mag.
    rewrite <- Z.mul_assoc, <- pow2_split by lia. do 2 f_equal. lia.
  - right. assert (0 <= f_shift f p) by (unfold f_shift; lia). split; [|lia]. destruct Hf. unfold f_mag.
    pose proof (pow2_pos (f_shift f p) ltac:(lia)).
    pose proof (pow2_le (fb f + 1 + f_shift f p) (fb f + e) ltac:(lia)) as Hle.
    rewrite !pow2_split in Hle by lia. rewrite pow2_succ in * by lia. rewrite Z.pow_1_r in Hle. nia.
Qed.

(** The start of the binade is at or below the exact value. *)
Lemma binade_start : 0 < e -> 2 ^ fb f * 2 ^ Z.max 0 (ulp_exp f M E - E) <= M * 2 ^ Z.max 0 (E - ulp_exp f M E).
Proof.
  intros Hp. destruct Hf. pose proof (Z.log2_spec M HM) as [Hl _]. pose proof (Z.log2_nonneg M).
  assert (ulp_exp f M E = Z.log2 M + E - fb f) as -> by (unfold ulp_exp in *; lia).
  destruct (Z_le_gt_dec (Z.log2 M) (fb f)).
  - rewrite Z.max_l, Z.pow_0_r, Z.mul_1_r, Z.max_r by lia.
    replace (fb f) with (Z.log2 M + (E - (Z.log2 M + E - fb f))) at 1 by lia. rewrite pow2_split by lia.
    pose proof (pow2_pos (E - (Z.log2 M + E - fb f)) ltac:(lia)). nia.
  - rewrite Z.max_r, (Z.max_l 0 (E - _)), Z.pow_0_r, Z.mul_1_r, <- pow2_split by lia.
    replace (fb f + (Z.log2 M + E - fb f - E)) with (Z.log2 M) by lia. exact Hl.
Qed.

Notation zmag := (f_mag f z).

(** The error of the delivered magnitude, and of any multiple of its last place. *)
Lemma error_exact : ulp_exp f M E - E <= 0 -> zmag * c = x.
Proof.
  intros Hk. destruct rounded_value as (_ & _ & _ & ->). destruct (scaled_error R) as (u & Hu & -> & ->).
  unfold round_shift. destruct (Z.leb_spec (ulp_exp f M E - E) 0); [|lia].
  rewrite Z.max_l, (Z.max_r 0 (E - _)), Z.mul_1_r by lia. do 3 f_equal. lia.
Qed.

Lemma error_scaled :
  0 < ulp_exp f M E - E ->
  exists u, 0 < u /\ x = M * u /\ zmag * c = R * 2 ^ (ulp_exp f M E - E) * u
    /\ forall p, is_finite f p = true ->
         (exists N, f_mag f p * c = N * 2 ^ (ulp_exp f M E - E) * u /\ f_mag f p = N * 2 ^ e)
         \/ (f_mag f p * c < 2 ^ fb f * 2 ^ (ulp_exp f M E - E) * u /\ 2 ^ fb f * 2 ^ (ulp_exp f M E - E) <= M
             /\ f_mag f p <= 2 ^ fb f * 2 ^ e /\ 2 ^ fb f <= R).
Proof.
  intros Hk. destruct rounded_value as (_ & _ & _ & ->). destruct rounded_range as (He & _ & HRl).
  exists (2 ^ Z.max 0 (Z.min (ulp_exp f M E) E - emin f)).
  pose proof (pow2_pos (Z.max 0 (Z.min (ulp_exp f M E) E - emin f)) ltac:(lia)) as Hu.
  assert (Hc : forall N, N * 2 ^ e * c = N * 2 ^ (ulp_exp f M E - E) * 2 ^ Z.max 0 (Z.min (ulp_exp f M E) E - emin f)).
  { intros N. rewrite <- !Z.mul_assoc, <- !pow2_split by lia. do 2 f_equal. lia. }
  split; [exact Hu|]. split; [do 2 f_equal; lia|]. split; [apply Hc|]. intros p Hp.
  destruct (finite_multiple p Hp) as [[N HN]|[Hlt Hp0]].
  - left. exists N. split; [rewrite HN; apply Hc|exact HN].
  - right. pose proof (binade_start Hp0) as Hb. rewrite Z.max_r, (Z.max_l 0 (E - _)), Z.pow_0_r, Z.mul_1_r in Hb by lia.
    split; [|split; [exact Hb|split; [lia|auto]]]. rewrite <- Hc. apply Z.mul_lt_mono_pos_r; [apply pow2_pos; lia|exact Hlt].
Qed.

Lemma mag_nearest p :
  to_nearest rm = true -> is_finite f p = true -> Z.abs (zmag * c - x) <= Z.abs (f_mag f p * c - x).
Proof.
  intros Hrm Hp. destruct (Z_le_gt_dec (ulp_exp f M E - E) 0) as [Hk|Hk].
  - rewrite error_exact by exact Hk. lia.
  - destruct (error_scaled ltac:(lia)) as (u & Hu & Hx & Hz & Hall). rewrite Hz, Hx.
    assert (Hn := fun N => round_shift_nearest rm s M (ulp_exp f M E - E) ltac:(lia) ltac:(lia) N Hrm : Z.abs (R * 2 ^ (ulp_exp f M E - E) - M) <= _).
    destruct (Hall p Hp) as [(N & -> & _)|(Hlt & Hb & _)].
    + specialize (Hn N). rewrite <- !Z.mul_sub_distr_r, !Z.abs_mul, (Z.abs_eq u) by lia. nia.
    + specialize (Hn (2 ^ fb f)). rewrite <- Z.mul_sub_distr_r, Z.abs_mul, (Z.abs_eq u) by lia. nia.
Qed.

Lemma mag_toward p :
  toward_zero rm s = true -> is_finite f p = true ->
  zmag * c <= x /\ (f_mag f p * c <= x -> f_mag f p <= zmag).
Proof.
  intros Hrm Hp. pose proof (pow2_pos (Z.max 0 (emin f - E)) ltac:(lia)) as Hc.
  destruct (Z_le_gt_dec (ulp_exp f M E - E) 0) as [Hk|Hk].
  - rewrite <- error_exact by exact Hk. split; [lia|]. nia.
  - destruct (error_scaled ltac:(lia)) as (u & Hu & Hx & Hz & Hall). rewrite Hz, Hx.
    pose proof (fun N => round_shift_down rm s M (ulp_exp f M E - E) ltac:(lia) ltac:(lia) N Hrm : R * 2 ^ (ulp_exp f M E - E) <= M /\ _) as Hn.
    destruct rounded_value as (_ & _ & _ & Hzm). destruct rounded_range as (He & _). pose proof (pow2_pos e He).
    split; [destruct (Hn 0); nia|]. intros Hle. rewrite Hzm.
    destruct (Hall p Hp) as [(N & HN & ->)|(Hlt & Hb & Hm & HR)].
    + destruct (Hn N) as [_ HR]. rewrite HN in Hle. nia.
    + nia.
Qed.

Lemma mag_away p :
  away_from_zero rm s = true -> is_finite f p = true ->
  x <= zmag * c /\ (x <= f_mag f p * c -> zmag <= f_mag f p).
Proof.
  intros Hrm Hp. pose proof (pow2_pos (Z.max 0 (emin f - E)) ltac:(lia)) as Hc.
  destruct (Z_le_gt_dec (ulp_exp f M E - E) 0) as [Hk|Hk].
  - rewrite <- error_exact by exact Hk. split; [lia|]. nia.
  - destruct (error_scaled ltac:(lia)) as (u & Hu & Hx & Hz & Hall). rewrite Hz, Hx.
    pose proof (fun N => round_shift_up rm s M (ulp_exp f M E - E) ltac:(lia) ltac:(lia) N Hrm : M <= R * 2 ^ (ulp_exp f M E - E) /\ _) as Hn.
    destruct rounded_value as (_ & _ & _ & Hzm). destruct rounded_range as (He & _). pose proof (pow2_pos e He).
    split; [destruct (Hn 0); nia|]. intros Hle. rewrite Hzm.
    destruct (Hall p Hp) as [(N & HN & ->)|(Hlt & Hb & Hm & HR)].
    + destruct (Hn N) as [_ HR]. rewrite HN in Hle. nia.
    + nia.
Qed.

(** An equally close number of another magnitude means the exact value is
    half way, and the delivered pattern is the even one. *)
Lemma mag_tie_even p :
  rm = softfloat_round_near_even -> is_finite f p = true ->
  Z.abs (f_mag f p * c - x) = Z.abs (zmag * c - x) -> f_mag f p <> zmag -> Z.even z = true.
Proof.
  intros Hrm Hp Heq Hne. pose proof (pow2_pos (Z.max 0 (emin f - E)) ltac:(lia)) as Hc.
  destruct (Z_le_gt_dec (ulp_exp f M E - E) 0) as [Hk|Hk]; [rewrite error_exact in Heq by exact Hk;
    rewrite <- error_exact in Heq by exact Hk; exfalso; nia|].
  destruct (error_scaled ltac:(lia)) as (u & Hu & Hx & Hz & Hall).
  assert (Hnear : to_nearest rm = true) by now rewrite Hrm.
  assert (Hn := fun N => round_shift_nearest rm s M (ulp_exp f M E - E) ltac:(lia) ltac:(lia) N Hnear : Z.abs (R * 2 ^ (ulp_exp f M E - E) - M) <= _).
  assert (Ht := round_shift_tie rm s M (ulp_exp f M E - E) ltac:(lia)).
  destruct rounded_value as (_ & _ & _ & Hzm). rewrite Hz, Hx in Heq. rewrite Hzm in Hne.
  assert (Z.even R = true) as HevR.
  { destruct (Hall p Hp) as [(N & HN & Hm)|(Hlt & Hb & Hm & HR)].
    - rewrite HN, <- !Z.mul_sub_distr_r, !Z.abs_mul, (Z.abs_eq u) in Heq by lia.
      apply Z.mul_reg_r in Heq; [|lia]. apply Ht; [|exact Hrm].
      assert (N <> R) by (intros ->; lia).
      destruct (round_shift_pos rm s M (ulp_exp f M E - E) ltac:(lia) ltac:(lia)) as (q & r & HMq & Hr & Hq & HR).
      pose proof (Z.mod_pos_bound M (2 ^ (ulp_exp f M E - E))). 
      rewrite HMq at 1. rewrite Z.add_comm, Z.mod_add, Z.mod_small by lia.
      specialize (Hn (2 * q + 1 - R)). pose proof (b2z_range (round_up rm s (Z.odd q) (r =? 0) (2 * r ?= 2 ^ (ulp_exp f M E - E)))).
      apply (half_way (2 ^ (ulp_exp f M E - E)) q r N R); lia.
    - specialize (Hn (2 ^ fb f)). rewrite <- (Z.mul_sub_distr_r _ _ u), Z.abs_mul, (Z.abs_eq u) in Heq by lia. exfalso. nia. }
  destruct Hf. unfold round_result. replace (inf_mag f <=? round_mag f rm s M E) with false by (symmetry; apply Z.leb_gt; lia).
  cbn [fst]. unfold round_mag, sign_bit. replace (fb f) with (fb f - 1 + 1) by lia.
  replace (fb f - 1 + 1 + eb f) with (fb f - 1 + eb f + 1) by lia. rewrite !pow2_succ by lia.
  rewrite !Z.even_add, Z.even_mul, Z.even_mul, HevR. destruct s; [rewrite Z.even_mul|]; now rewrite orb_true_r.
Qed.

(** The inexact flag tells whether the delivered value is the exact one. *)
Lemma mag_inexact : cut_exact M (ulp_exp f M E - E) = (zmag * c =? x).
Proof.
  unfold cut_exact. destruct (Z.leb_spec (ulp_exp f M E - E) 0) as [Hk|Hk].
  - symmetry. apply Z.eqb_eq, error_exact. exact Hk.
  - destruct (error_scaled Hk) as (u & Hu & -> & -> & _). cbn [orb].
    apply eq_true_iff_eq. rewrite !Z.eqb_eq. split; intros H0.
    + now rewrite round_shift_exact by lia.
    + apply Z.mul_reg_r in H0; [|lia]. pose proof (pow2_pos (ulp_exp f M E - E)).
      symmetry. apply (Z.mod_unique_pos _ _ R); lia.
Qed.
End Formats.

(** ** Overflow *)

Section Overflow.
Context (f : fmt) (Hf : fmt_ok f) (s : bool) (M E : Z) (st : fp_state).
Hypothesis HM : 0 < M.
Notation rm := (softfloat_roundingMode st).
Notation R := (round_shift rm s M (ulp_exp f M E - E)).
Notation e := (ulp_exp f M E - emin f).
Notation z := (fst (round_result f s M E st)).
Notation x := (M * 2 ^ Z.max 0 (E - emin f)).
Notation c := (2 ^ Z.max 0 (emin f - E)).

(** The first power of two above the finite numbers, in units of [2 ^ emin]. *)
Definition overflow_threshold : Z := 2 ^ (fb f + max_exp f - 1).

Lemma max_exp_ge : 3 <= max_exp f.
Proof. destruct Hf. unfold max_exp. pose proof (pow2_le 2 (eb f)). change (2 ^ 2) with 4 in *. lia. Qed.

Lemma finite_below p : is_finite f p = true -> f_mag f p < overflow_threshold.
Proof.
  intros Hp. destruct (finite_cases f Hf p Hp) as (_ & _ & _ & Hx). pose proof (f_mant_range f Hf p) as Hm.
  pose proof max_exp_ge. destruct Hf. unfold f_mag, overflow_threshold.
  assert (0 <= f_shift f p <= max_exp f - 2) by (unfold f_shift; lia).
  pose proof (pow2_pos (f_shift f p) ltac:(lia)).
  pose proof (pow2_le (fb f + 1 + f_shift f p) (fb f + max_exp f - 1) ltac:(lia)) as Hle.
  rewrite (pow2_split (fb f + 1)) in Hle by lia. nia.
Qed.

Lemma overflow_value : inf_mag f <= round_mag f rm s M E -> overflow_threshold <= R * 2 ^ e.
Proof.
  intros Hov. destruct (rounded_range f Hf s M E st HM) as (He & HR & Hn). pose proof max_exp_ge.
  unfold round_mag, inf_mag, overflow_threshold in *. destruct Hf. pose proof (pow2_pos (fb f) ltac:(lia)).
  rewrite pow2_succ in HR by lia. destruct (Z_le_gt_dec (max_exp f - 1) e) as [Hm|Hm].
  - pose proof (pow2_le (fb f + max_exp f - 1) (fb f + e) ltac:(lia)) as Hle. rewrite (pow2_split (fb f) e) in Hle by lia.
    specialize (Hn ltac:(lia)). pose proof (pow2_pos e He). nia.
  - assert (e = max_exp f - 2) as -> by nia. assert (R = 2 * 2 ^ fb f) as -> by nia.
    rewrite <- pow2_succ, <- pow2_split by lia. apply pow2_le. lia.
Qed.

(** The largest finite number bounds the others. *)
Lemma largest_finite : let w := sign_bit f s + (inf_mag f - 1) in
  is_pattern f w /\ is_finite f w = true /\ f_sign f w = s /\ f_mag f w = (2 ^ (fb f + 1) - 1) * 2 ^ (max_exp f - 2).
Proof.
  cbv zeta. pose proof max_exp_ge. destruct Hf. pose proof (pow2_pos (fb f) ltac:(lia)).
  pose proof (fields_pattern f Hf s (max_exp f - 1) (2 ^ fb f - 1) ltac:(lia) ltac:(lia)) as (Hp & Hs & Hx & Hy).
  cbv zeta in *. replace (sign_bit f s + (inf_mag f - 1)) with (sign_bit f s + (max_exp f - 1) * 2 ^ fb f + (2 ^ fb f - 1)) by (unfold inf_mag; lia).
  repeat split; try apply Hp; [apply negb_true_iff, Z.eqb_neq; lia|exact Hs|].
  unfold f_mag, f_mant, f_shift. rewrite Hx, Hy. destruct (Z.eqb_spec (max_exp f - 1) 0); [lia|].
  rewrite Z.max_l, pow2_succ by lia. f_equal; [lia|f_equal; lia].
Qed.

Lemma finite_at_most_largest p : is_finite f p = true -> f_mag f p <= (2 ^ (fb f + 1) - 1) * 2 ^ (max_exp f - 2).
Proof.
  intros Hp. destruct (finite_cases f Hf p Hp) as (_ & _ & _ & Hx). pose proof (f_mant_range f Hf p) as Hm.
  pose proof max_exp_ge. unfold f_mag. assert (0 <= f_shift f p <= max_exp f - 2) by (unfold f_shift; lia).
  pose proof (pow2_pos (f_shift f p) ltac:(lia)). pose proof (pow2_le (f_shift f p) (max_exp f - 2) ltac:(lia)). nia.
Qed.

Lemma result_sign : f_sign f z = s.
Proof.
  destruct (Z_lt_le_dec (round_mag f rm s M E) (inf_mag f)) as [Hno|Hov].
  - now destruct (rounded_value f Hf s M E st HM Hno) as (_ & _ & -> & _).
  - unfold round_result. replace (inf_mag f <=? _) with true by (symmetry; apply Z.leb_le; lia). cbn [fst].
    destruct (overflow_to_inf rm s); [|now destruct largest_finite as (_ & _ & -> & _)].
    destruct Hf. pose proof (pow2_pos (fb f) ltac:(lia)). pose proof max_exp_ge.
    destruct (fields_pattern f Hf s (max_exp f) 0 ltac:(lia) ltac:(lia)) as (_ & Hs & _).
    unfold inf_mag. rewrite Z.add_0_r in Hs. exact Hs.
Qed.

(** A finite result of a nearest mode did not overflow. *)
Lemma nearest_no_overflow :
  to_nearest rm = true -> is_finite f z = true -> round_mag f rm s M E < inf_mag f.
Proof.
  intros Hrm. destruct (Z.leb_spec (inf_mag f) (round_mag f rm s M E)) as [Hov|Hno]; [|auto].
  unfold round_result. replace (inf_mag f <=? _) with true by (symmetry; apply Z.leb_le; lia). cbn [fst].
  replace (overflow_to_inf rm s) with true by (now destruct rm).
  destruct Hf. pose proof (pow2_pos (fb f) ltac:(lia)). pose proof max_exp_ge.
  destruct (fields_pattern f Hf s (max_exp f) 0 ltac:(lia) ltac:(lia)) as (_ & _ & Hx & _).
  cbv zeta in Hx. rewrite Z.add_0_r in Hx. unfold is_finite, inf_mag. rewrite Hx, Z.eqb_refl. discriminate.
Qed.

Lemma away_no_overflow :
  away_from_zero rm s = true -> is_finite f z = true -> round_mag f rm s M E < inf_mag f.
Proof.
  intros Hrm. destruct (Z.leb_spec (inf_mag f) (round_mag f rm s M E)) as [Hov|Hno]; [|auto].
  unfold round_result. replace (inf_mag f <=? _) with true by (symmetry; apply Z.leb_le; lia). cbn [fst].
  replace (overflow_to_inf rm s) with true by (now destruct rm, s).
  destruct Hf. pose proof (pow2_pos (fb f) ltac:(lia)). pose proof max_exp_ge.
  destruct (fields_pattern f Hf s (max_exp f) 0 ltac:(lia) ltac:(lia)) as (_ & _ & Hx & _).
  cbv zeta in Hx. rewrite Z.add_0_r in Hx. unfold is_finite, inf_mag. rewrite Hx, Z.eqb_refl. discriminate.
Qed.

(** Rounding toward zero delivers the largest number at or below the exact
    magnitude, on overflow too. *)
Lemma toward_largest p :
  toward_zero rm s = true -> is_finite f p = true ->
  f_mag f z * c <= x /\ (f_mag f p * c <= x -> f_mag f p <= f_mag f z).
Proof.
  intros Hrm Hp. destruct (Z_lt_le_dec (round_mag f rm s M E) (inf_mag f)) as [Hno|Hov]; [now apply mag_toward|].
  unfold round_result. replace (inf_mag f <=? _) with true by (symmetry; apply Z.leb_le; lia). cbn [fst].
  replace (overflow_to_inf rm s) with false by (now destruct rm, s).
  destruct largest_finite as (_ & Hw & _ & Hm). split; [|intros _; rewrite Hm; now apply finite_at_most_largest].
  pose proof (overflow_value Hov) as Hv. pose proof (finite_below _ Hw) as Hlt.
  destruct (scaled_error f Hf s M E st HM R) as (u & Hu & Hc & Hx).
  assert (R * 2 ^ Z.max 0 (ulp_exp f M E - E) <= M * 2 ^ Z.max 0 (E - ulp_exp f M E)) as HR.
  { destruct (Z_le_gt_dec (ulp_exp f M E - E) 0).
    - unfold round_shift. destruct (Z.leb_spec (ulp_exp f M E - E) 0); [|lia].
      rewrite Z.max_l, Z.pow_0_r, Z.mul_1_r, Z.max_r by lia. replace (- (ulp_exp f M E - E)) with (E - ulp_exp f M E) by lia. lia.
    - rewrite Z.max_r, (Z.max_l 0 (E - _)), Z.pow_0_r, Z.mul_1_r by lia. now apply (round_shift_down rm s M (ulp_exp f M E - E) ltac:(lia) ltac:(lia) 0). }
  pose proof (pow2_pos (Z.max 0 (emin f - E)) ltac:(lia)). rewrite Hx. set (w := f_mag f _) in *.
  assert (w * c <= R * 2 ^ e * c) by (apply Z.mul_le_mono_nonneg_r; lia). rewrite Hc in *. nia.
Qed.
End Overflow.

(** ** The rounded value of a signed number *)

(** [V * 2 ^ E] and the unit [2 ^ emin] over their common unit. *)
Definition exact_num (f : fmt) (V E : Z) : Z := V * 2 ^ Z.max 0 (E - emin f).
Definition exact_unit (f : fmt) (E : Z) : Z := 2 ^ Z.max 0 (emin f - E).

(** How far a pattern is from the exact value. *)
Definition error (f : fmt) (V E p : Z) : Z := Z.abs (f_val f p * exact_unit f E - exact_num f V E).

Section Signed.
Context (f : fmt) (Hf : fmt_ok f) (zs : rounding_mode -> bool) (V E : Z) (st : fp_state).
Notation rm := (softfloat_roundingMode st).
Notation z := (fst (ieee_round f zs V E st)).

Lemma zero_val : f_val f (sign_bit f true) = 0 /\ f_val f (sign_bit f false) = 0 /\ is_finite f 0 = true /\ f_mag f 0 = 0.
Proof.
  pose proof (max_exp_ge f Hf). destruct Hf. pose proof (pow2_pos (fb f) ltac:(lia)).
  assert (Hs : forall s, f_exp f (sign_bit f s) = 0 /\ f_frac f (sign_bit f s) = 0).
  { intros s. destruct (fields_pattern f Hf s 0 0 ltac:(lia) ltac:(lia)) as (_ & _ & Hx & Hy).
    cbv zeta in Hx, Hy. now rewrite Z.mul_0_l, !Z.add_0_r in Hx, Hy. }
  assert (Hm : forall s, f_mag f (sign_bit f s) = 0) by (intros s; now apply f_mag_zero).
  unfold f_val. rewrite !Hm. repeat split; try now destruct (f_sign _ _).
  - destruct (Hs false) as [Hx _]. unfold is_finite. simpl in Hx. rewrite Hx. apply negb_true_iff, Z.eqb_neq. lia.
Qed.

Lemma round_zero : V = 0 -> f_val f z = 0.
Proof.
  intros ->. unfold ieee_round. rewrite Z.eqb_refl. cbn [fst]. destruct zero_val as (H1 & H2 & _).
  now destruct (zs rm).
Qed.

Notation s := (V <? 0).
Notation x := (Z.abs V * 2 ^ Z.max 0 (E - emin f)).

Lemma round_nonzero : V <> 0 -> ieee_round f zs V E st = round_result f s (Z.abs V) E st.
Proof. intros HV. unfold ieee_round. now destruct (Z.eqb_spec V 0). Qed.

Lemma exact_sign : exact_num f V E = if s then - x else x.
Proof. unfold exact_num. destruct (Z.ltb_spec V 0); lia. Qed.

Lemma val_sign : V <> 0 -> f_val f z = if s then - f_mag f z else f_mag f z.
Proof. intros HV. unfold f_val. rewrite round_nonzero, (result_sign f Hf) by lia. reflexivity. Qed.

(** A number of the other sign is no closer than zero. *)
Lemma error_signed p :
  (f_sign f p = s \/ f_mag f p = 0) /\ error f V E p = Z.abs (f_mag f p * exact_unit f E - x)
  \/ 0 < f_mag f p /\ error f V E p = x + f_mag f p * exact_unit f E.
Proof.
  pose proof (f_mag_nonneg f Hf p). unfold error, exact_unit. rewrite exact_sign.
  pose proof (pow2_pos (Z.max 0 (emin f - E)) ltac:(lia)). pose proof (pow2_pos (Z.max 0 (E - emin f)) ltac:(lia)).
  assert (0 <= x) by nia. unfold f_val. set (c := 2 ^ Z.max 0 (emin f - E)) in *. set (y := x) in *.
  assert (0 <= f_mag f p * c) by nia.
  destruct (f_sign f p), s; try (left; split; [now left|]; lia);
    (destruct (Z.eq_dec (f_mag f p) 0) as [->|]; [left; split; [now right|]; lia|right; split; lia]).
Qed.

Lemma error_own : V <> 0 -> error f V E z = Z.abs (f_mag f z * exact_unit f E - x).
Proof. intros HV. unfold error. rewrite val_sign, exact_sign by exact HV. destruct s; lia. Qed.

Theorem round_nearest p :
  to_nearest rm = true -> is_finite f z = true -> is_finite f p = true -> error f V E z <= error f V E p.
Proof.
  intros Hrm Hz Hp. destruct (Z.eq_dec V 0) as [HV|HV].
  - unfold error. rewrite round_zero by exact HV. unfold exact_num. rewrite HV. lia.
  - rewrite error_own by exact HV. rewrite round_nonzero in Hz |- * by exact HV.
    pose proof (nearest_no_overflow f Hf s (Z.abs V) E st Hrm Hz) as Hno.
    assert (Hn := fun p => mag_nearest f Hf s (Z.abs V) E st ltac:(lia) Hno p Hrm).
    destruct (error_signed p) as [[_ ->]|[Hpos ->]]; [exact (Hn p Hp)|].
    destruct zero_val as (_ & _ & H0 & Hm0). specialize (Hn 0 H0). rewrite Hm0 in Hn.
    pose proof (pow2_pos (Z.max 0 (emin f - E)) ltac:(lia)). unfold exact_unit.
    pose proof (pow2_pos (Z.max 0 (E - emin f)) ltac:(lia)). nia.
Qed.

Theorem round_tie_even p :
  rm = softfloat_round_near_even -> is_finite f z = true -> is_finite f p = true ->
  error f V E p = error f V E z -> f_val f p <> f_val f z -> Z.even z = true.
Proof.
  intros Hrm Hz Hp Heq Hne. assert (Hnear : to_nearest rm = true) by now rewrite Hrm.
  destruct zero_val as (_ & _ & H0 & Hm0).
  destruct (Z.eq_dec V 0) as [HV|HV].
  - exfalso. unfold error, exact_num in Heq. rewrite round_zero in Heq, Hne by exact HV. rewrite HV in Heq.
    pose proof (pow2_pos (Z.max 0 (emin f - E)) ltac:(lia)). unfold exact_unit in *. nia.
  - rewrite error_own in Heq by exact HV. rewrite val_sign in Hne by exact HV.
    rewrite round_nonzero in Hz, Heq, Hne |- * by exact HV.
    pose proof (nearest_no_overflow f Hf s (Z.abs V) E st Hnear Hz) as Hno.
    pose proof (mag_nearest f Hf s (Z.abs V) E st ltac:(lia) Hno 0 Hnear H0) as Hn. rewrite Hm0 in Hn.
    pose proof (pow2_pos (Z.max 0 (emin f - E)) ltac:(lia)). pose proof (pow2_pos (Z.max 0 (E - emin f)) ltac:(lia)).
    destruct (error_signed p) as [[Hs He]|[Hpos He]]; rewrite He in Heq; [|exfalso; unfold exact_unit in *; nia].
    apply (mag_tie_even f Hf s (Z.abs V) E st ltac:(lia) Hno p Hrm Hp Heq).
    intros Hm. apply Hne. unfold f_val. rewrite Hm. destruct Hs as [-> | Hs]; [reflexivity|].
    rewrite Hs in Hm. rewrite <- Hm. now destruct (f_sign f p), s.
Qed.

(** Toward minus infinity: the greatest number at or below the exact value. *)
Theorem round_down p :
  rm = softfloat_round_min -> is_finite f z = true -> is_finite f p = true ->
  f_val f z * exact_unit f E <= exact_num f V E
  /\ (f_val f p * exact_unit f E <= exact_num f V E -> f_val f p <= f_val f z).
Proof.
  intros Hrm Hz Hp. pose proof (pow2_pos (Z.max 0 (emin f - E)) ltac:(lia)). pose proof (f_mag_nonneg f Hf p).
  pose proof (f_mag_nonneg f Hf z). unfold exact_unit in *.
  destruct (Z.eq_dec V 0) as [HV|HV].
  - rewrite round_zero by exact HV. unfold exact_num. rewrite HV. split; [lia|nia].
  - rewrite val_sign, exact_sign by exact HV. rewrite round_nonzero in * by exact HV.
    assert (0 < x) by (pose proof (pow2_pos (Z.max 0 (E - emin f)) ltac:(lia)); nia).
    destruct (Z.ltb_spec V 0) as [Hn|Hn].
    + pose proof (away_no_overflow f Hf true (Z.abs V) E st ltac:(now rewrite Hrm) Hz) as Hno.
      destruct (mag_away f Hf true (Z.abs V) E st ltac:(lia) Hno p ltac:(now rewrite Hrm) Hp) as [Hb1 Hb2].
      split; [lia|]. unfold f_val. destruct (f_sign f p); intros Hle; [lia|exfalso; nia].
    + destruct (toward_largest f Hf false (Z.abs V) E st ltac:(lia) p ltac:(now rewrite Hrm) Hp) as [Hb1 Hb2].
      split; [lia|]. unfold f_val. destruct (f_sign f p); intros Hle; lia.
Qed.

(** Toward plus infinity: the least number at or above the exact value. *)
Theorem round_above p :
  rm = softfloat_round_max -> is_finite f z = true -> is_finite f p = true ->
  exact_num f V E <= f_val f z * exact_unit f E
  /\ (exact_num f V E <= f_val f p * exact_unit f E -> f_val f z <= f_val f p).
Proof.
  intros Hrm Hz Hp. pose proof (pow2_pos (Z.max 0 (emin f - E)) ltac:(lia)). pose proof (f_mag_nonneg f Hf p).
  pose proof (f_mag_nonneg f Hf z). unfold exact_unit in *.
  destruct (Z.eq_dec V 0) as [HV|HV].
  - rewrite round_zero by exact HV. unfold exact_num. rewrite HV. split; [lia|nia].
  - rewrite val_sign, exact_sign by exact HV. rewrite round_nonzero in * by exact HV.
    assert (0 < x) by (pose proof (pow2_pos (Z.max 0 (E - emin f)) ltac:(lia)); nia).
    destruct (Z.ltb_spec V 0) as [Hn|Hn].
    + destruct (toward_largest f Hf true (Z.abs V) E st ltac:(lia) p ltac:(now rewrite Hrm) Hp) as [Hb1 Hb2].
      split; [lia|]. unfold f_val. destruct (f_sign f p); intros Hle; lia.
    + pose proof (away_no_overflow f Hf false (Z.abs V) E st ltac:(now rewrite Hrm) Hz) as Hno.
      destruct (mag_away f Hf false (Z.abs V) E st ltac:(lia) Hno p ltac:(now rewrite Hrm) Hp) as [Hb1 Hb2].
      split; [lia|]. unfold f_val. destruct (f_sign f p); intros Hle; [exfalso; nia|lia].
Qed.

(** Toward zero: the largest magnitude not above the exact one. *)
Theorem round_to_zero p :
  rm = softfloat_round_minMag -> is_finite f p = true ->
  f_mag f z * exact_unit f E <= Z.abs (exact_num f V E)
  /\ (f_mag f p * exact_unit f E <= Z.abs (exact_num f V E) -> f_mag f p <= f_mag f z).
Proof.
  intros Hrm Hp. pose proof (pow2_pos (Z.max 0 (emin f - E)) ltac:(lia)). pose proof (f_mag_nonneg f Hf p).
  pose proof (pow2_pos (Z.max 0 (E - emin f)) ltac:(lia)). unfold exact_unit, exact_num in *.
  rewrite Z.abs_mul, (Z.abs_eq (2 ^ _)) by lia. destruct (Z.eq_dec V 0) as [HV|HV].
  - assert (f_mag f z = 0) as -> by (pose proof (round_zero HV); unfold f_val in *; destruct (f_sign f z); lia).
    rewrite HV. simpl Z.abs. split; [lia|nia].
  - rewrite round_nonzero by exact HV. apply toward_largest; trivial; [lia|now rewrite Hrm].
Qed.

(** Without overflow, inexact is raised exactly when the value was rounded;
    no other flag but underflow can come with it. *)
Theorem round_inexact :
  V <> 0 -> round_mag f rm s (Z.abs V) E < inf_mag f ->
  exists fl, snd (ieee_round f zs V E st) = raise fl st
    /\ (fl = 0 <-> error f V E z = 0)
    /\ (fl = 0 \/ fl = softfloat_flag_inexact \/ fl = softfloat_flag_underflow .| softfloat_flag_inexact).
Proof.
  intros HV Hno. exists (round_flags f st s (Z.abs V) E). rewrite error_own by exact HV.
  pose proof (mag_inexact f Hf s (Z.abs V) E st ltac:(lia) Hno) as Hc. rewrite round_nonzero by exact HV.
  split; [unfold round_result; now replace (inf_mag f <=? _) with false by (symmetry; apply Z.leb_gt; lia)|].
  unfold round_flags, exact_unit in *. rewrite Hc. destruct (Z.eqb_spec (f_mag f (fst (round_result f s (Z.abs V) E st)) * 2 ^ Z.max 0 (emin f - E)) x).
  - split; [split; lia|now left].
  - destruct (is_tiny _ _ _ _ _); (split; [split; [discriminate|lia]|auto]).
Qed.
End Signed.
