(* ===== verification/SFToInt.v ===== *)
(** * Conversion from floating point to integers

    [s_roundToI32.c], [s_roundToUI32.c], [s_roundToI64.c], [s_roundToUI64.c], the
    twelve conversions with a rounding mode and the six to 8- and 16-bit
    integers built on them.  Each is
    proved equal to [ieee_to_int]: the value rounded once to an integer,
    delivered when it is in the range of the target and otherwise replaced by
    the nearest bound with the invalid flag; a NaN gives the upper bound.

    The rounding mode is an argument here, not the global one.  These routines
    have no branch for [softfloat_round_odd] and treat it as rounding toward
    zero ([int_mode]). *)

From Stdlib Require Import ZArith Lia Bool List.
From S2P Require Import Prelude SFBase SFSpec SFRound SFValue SFAddSub SFMul.

(** ** Results of invalid conversions, [specialize.h] *)

Definition ui8_fromPosOverflow : Z := 0xFF.
Definition ui8_fromNegOverflow : Z := 0.
Definition i8_fromPosOverflow : Z := 0x7F.
Definition i8_fromNegOverflow : Z := - 0x7F - 1.
Definition ui16_fromPosOverflow : Z := 0xFFFF.
Definition ui16_fromNegOverflow : Z := 0.
Definition i16_fromPosOverflow : Z := 0x7FFF.
Definition i16_fromNegOverflow : Z := - 0x7FFF - 1.
Definition ui32_fromPosOverflow : Z := 0xFFFFFFFF.
Definition ui32_fromNegOverflow : Z := 0.
Definition ui32_fromNaN : Z := 0xFFFFFFFF.
Definition i32_fromPosOverflow : Z := 0x7FFFFFFF.
Definition i32_fromNegOverflow : Z := - 0x7FFFFFFF - 1.
Definition i32_fromNaN : Z := 0x7FFFFFFF.
Definition ui64_fromPosOverflow : Z := 0xFFFFFFFFFFFFFFFF.
Definition ui64_fromNegOverflow : Z := 0.
Definition ui64_fromNaN : Z := 0xFFFFFFFFFFFFFFFF.
Definition i64_fromPosOverflow : Z := 0x7FFFFFFFFFFFFFFF.
Definition i64_fromNegOverflow : Z := u64 (- 0x7FFFFFFFFFFFFFFF - 1).
Definition i64_fromNaN : Z := 0x7FFFFFFFFFFFFFFF.

(** ** Rounding to an integer *)

Definition softfloat_shiftRightJam64Extra (a extra dist : Z) : Z * Z :=
  let '(v, e) :=
    if dist <? 64 then (a .>> dist, u64 (a .<< (u64 (- dist) .& 63)))
    else (0, if dist =? 64 then a else b2z (nz a)) in
  (v, e .| b2z (nz extra)).

Definition raise_inexact_if (b : bool) : fp unit :=
  if b then softfloat_raiseFlags softfloat_flag_inexact else fret tt.

Definition softfloat_roundToI32 (sign : bool) (sig : Z) (roundingMode : rounding_mode) (exact : bool) : fp Z :=
  let invalid :=
    softfloat_raiseFlags softfloat_flag_invalid ;;
    fret (if sign then i32_fromNegOverflow else i32_fromPosOverflow) in
  let roundNearEven := rm_eqb roundingMode softfloat_round_near_even in
  let roundIncrement := round_increment roundingMode sign 0x800 0xFFF in
  let roundBits := sig .& 0xFFF in
  let sig := u64 (sig + roundIncrement) in
  if nz (sig .& 0xFFFFF00000000000) then invalid
  else
    let sig32 := sig .>> 12 in
    let sig32 := sig32 .& u64 (Z.lnot (b2z (negb (nz (roundBits .^ 0x800)) && roundNearEven))) in
    let ui := u32 (if sign then u64 (- sig32) else sig32) in
    let z := s32 ui in
    if nz z && xorb (z <? 0) sign then invalid
    else
      raise_inexact_if (exact && nz roundBits) ;;
      fret z.

Definition softfloat_roundToUI32 (sign : bool) (sig : Z) (roundingMode : rounding_mode) (exact : bool) : fp Z :=
  let invalid :=
    softfloat_raiseFlags softfloat_flag_invalid ;;
    fret (if sign then ui32_fromNegOverflow else ui32_fromPosOverflow) in
  let roundNearEven := rm_eqb roundingMode softfloat_round_near_even in
  let roundIncrement := round_increment roundingMode sign 0x800 0xFFF in
  let roundBits := sig .& 0xFFF in
  let sig := u64 (sig + roundIncrement) in
  if nz (sig .& 0xFFFFF00000000000) then invalid
  else
    let sig32 := sig .>> 12 in
    let sig32 := sig32 .& u64 (Z.lnot (b2z (negb (nz (roundBits .^ 0x800)) && roundNearEven))) in
    if sign && nz sig32 then invalid
    else
      raise_inexact_if (exact && nz roundBits) ;;
      fret sig32.

Definition softfloat_roundToI64 (sign : bool) (sig sigExtra : Z) (roundingMode : rounding_mode) (exact : bool) : fp Z :=
  let invalid :=
    softfloat_raiseFlags softfloat_flag_invalid ;;
    fret (s64 (if sign then i64_fromNegOverflow else i64_fromPosOverflow)) in
  let roundNearEven := rm_eqb roundingMode softfloat_round_near_even in
  let doIncrement := 0x8000000000000000 <=? sigExtra in
  let doIncrement :=
    if negb roundNearEven && negb (rm_eqb roundingMode softfloat_round_near_maxMag)
    then rm_eqb roundingMode (if sign then softfloat_round_min else softfloat_round_max) && nz sigExtra
    else doIncrement in
  let deliver sig :=
    let ui := if sign then u64 (- sig) else sig in
    let z := s64 ui in
    if nz z && xorb (z <? 0) sign then invalid
    else
      raise_inexact_if (exact && nz sigExtra) ;;
      fret z in
  if doIncrement then
    let sig := u64 (sig + 1) in
    if negb (nz sig) then invalid
    else deliver (sig .& u64 (Z.lnot (b2z (negb (nz (sigExtra .& 0x7FFFFFFFFFFFFFFF)) && roundNearEven))))
  else deliver sig.

Definition softfloat_roundToUI64 (sign : bool) (sig sigExtra : Z) (roundingMode : rounding_mode) (exact : bool) : fp Z :=
  let invalid :=
    softfloat_raiseFlags softfloat_flag_invalid ;;
    fret ((if sign then ui64_fromNegOverflow else ui64_fromPosOverflow)) in
  let roundNearEven := rm_eqb roundingMode softfloat_round_near_even in
  let doIncrement := 0x8000000000000000 <=? sigExtra in
  let doIncrement :=
    if negb roundNearEven && negb (rm_eqb roundingMode softfloat_round_near_maxMag)
    then rm_eqb roundingMode (if sign then softfloat_round_min else softfloat_round_max) && nz sigExtra
    else doIncrement in
  let deliver sig :=
    if sign && nz sig then invalid
    else
      raise_inexact_if (exact && nz sigExtra) ;;
      fret sig in
  if doIncrement then
    let sig := u64 (sig + 1) in
    if negb (nz sig) then invalid
    else deliver (sig .& u64 (Z.lnot (b2z (negb (nz (sigExtra .& 0x7FFFFFFFFFFFFFFF)) && roundNearEven))))
  else deliver sig.

(** ** Conversions with a rounding mode *)

Definition f16_to_i32 (a : Z) (roundingMode : rounding_mode) (exact : bool) : fp Z :=
  let uiA := a in
  let sign := signF16UI uiA in
  let exp := expF16UI uiA in
  let frac := fracF16UI uiA in
  let round sig32 := softfloat_roundToI32 sign (u64 sig32) roundingMode exact in
  if exp =? 0x1F then
    softfloat_raiseFlags softfloat_flag_invalid ;;
    fret ((if nz frac then i32_fromNaN else if sign then i32_fromNegOverflow else i32_fromPosOverflow))
  else
  let sig32 := frac in
  if nz exp then
    let sig32 := sig32 .| 0x0400 in
    let shiftDist := s8 (exp - 0x19) in
    if 0 <=? shiftDist then
      let sig32 := s64 (sig32 .<< shiftDist) in
      fret (if sign then s64 (- sig32) else sig32)
    else
      let shiftDist := s8 (exp - 0x0D) in
      round (if 0 <? shiftDist then s64 (sig32 .<< shiftDist) else sig32)
  else round sig32.

Definition f16_to_ui32 (a : Z) (roundingMode : rounding_mode) (exact : bool) : fp Z :=
  let uiA := a in
  let sign := signF16UI uiA in
  let exp := expF16UI uiA in
  let frac := fracF16UI uiA in
  let round sig32 := softfloat_roundToUI32 sign sig32 roundingMode exact in
  if exp =? 0x1F then
    softfloat_raiseFlags softfloat_flag_invalid ;;
    fret ((if nz frac then ui32_fromNaN else if sign then ui32_fromNegOverflow else ui32_fromPosOverflow))
  else
  let sig32 := frac in
  if nz exp then
    let sig32 := sig32 .| 0x0400 in
    let shiftDist := s8 (exp - 0x19) in
    if (0 <=? shiftDist) && negb sign then fret (u64 (sig32 .<< shiftDist))
    else
      let shiftDist := s8 (exp - 0x0D) in
      round (if 0 <? shiftDist then u64 (sig32 .<< shiftDist) else sig32)
  else round sig32.

Definition f16_to_i64 (a : Z) (roundingMode : rounding_mode) (exact : bool) : fp Z :=
  let uiA := a in
  let sign := signF16UI uiA in
  let exp := expF16UI uiA in
  let frac := fracF16UI uiA in
  let round sig32 := softfloat_roundToI32 sign (u64 sig32) roundingMode exact in
  if exp =? 0x1F then
    softfloat_raiseFlags softfloat_flag_invalid ;;
    fret (s64 (if nz frac then i64_fromNaN else if sign then i64_fromNegOverflow else i64_fromPosOverflow))
  else
  let sig32 := frac in
  if nz exp then
    let sig32 := sig32 .| 0x0400 in
    let shiftDist := s8 (exp - 0x19) in
    if 0 <=? shiftDist then
      let sig32 := s64 (sig32 .<< shiftDist) in
      fret (if sign then s64 (- sig32) else sig32)
    else
      let shiftDist := s8 (exp - 0x0D) in
      round (if 0 <? shiftDist then s64 (sig32 .<< shiftDist) else sig32)
  else round sig32.

Definition f16_to_ui64 (a : Z) (roundingMode : rounding_mode) (exact : bool) : fp Z :=
  let uiA := a in
  let sign := signF16UI uiA in
  let exp := expF16UI uiA in
  let frac := fracF16UI uiA in
  let round sig32 := softfloat_roundToUI32 sign sig32 roundingMode exact in
  if exp =? 0x1F then
    softfloat_raiseFlags softfloat_flag_invalid ;;
    fret ((if nz frac then ui64_fromNaN else if sign then ui64_fromNegOverflow else ui64_fromPosOverflow))
  else
  let sig32 := frac in
  if nz exp then
    let sig32 := sig32 .| 0x0400 in
    let shiftDist := s8 (exp - 0x19) in
    if (0 <=? shiftDist) && negb sign then fret (u64 (sig32 .<< shiftDist))
    else
      let shiftDist := s8 (exp - 0x0D) in
      round (if 0 <? shiftDist then u64 (sig32 .<< shiftDist) else sig32)
  else round sig32.

Definition f32_to_i32 (a : Z) (roundingMode : rounding_mode) (exact : bool) : fp Z :=
  let uiA := a in
  let sign := signF32UI uiA in
  let exp := expF32UI uiA in
  let sig := fracF32UI uiA in
  let sign := if (exp =? 0xFF) && nz sig then false else sign in
  let sig := if nz exp then sig .| 0x00800000 else sig in
  let sig64 := u64 (sig .<< 32) in
  let shiftDist := s64 (0xAA - exp) in
  let sig64 := if 0 <? shiftDist then softfloat_shiftRightJam64 sig64 shiftDist else sig64 in
  softfloat_roundToI32 sign sig64 roundingMode exact.

Definition f32_to_ui32 (a : Z) (roundingMode : rounding_mode) (exact : bool) : fp Z :=
  let uiA := a in
  let sign := signF32UI uiA in
  let exp := expF32UI uiA in
  let sig := fracF32UI uiA in
  let sign := if (exp =? 0xFF) && nz sig then false else sign in
  let sig := if nz exp then sig .| 0x00800000 else sig in
  let sig64 := u64 (sig .<< 32) in
  let shiftDist := s64 (0xAA - exp) in
  let sig64 := if 0 <? shiftDist then softfloat_shiftRightJam64 sig64 shiftDist else sig64 in
  softfloat_roundToUI32 sign sig64 roundingMode exact.

Definition f32_to_i64 (a : Z) (roundingMode : rounding_mode) (exact : bool) : fp Z :=
  let uiA := a in
  let sign := signF32UI uiA in
  let exp := expF32UI uiA in
  let sig := fracF32UI uiA in
  let shiftDist := s64 (0xBE - exp) in
  if shiftDist <? 0 then
    softfloat_raiseFlags softfloat_flag_invalid ;;
    fret (s64 (if (exp =? 0xFF) && nz sig then i64_fromNaN
          else if sign then i64_fromNegOverflow else i64_fromPosOverflow))
  else
    let sig := if nz exp then sig .| 0x00800000 else sig in
    let sig64 := u64 (sig .<< 40) in
    let '(sig64, extra) := if nz shiftDist then softfloat_shiftRightJam64Extra sig64 0 shiftDist else (sig64, 0) in
    softfloat_roundToI64 sign sig64 extra roundingMode exact.

Definition f32_to_ui64 (a : Z) (roundingMode : rounding_mode) (exact : bool) : fp Z :=
  let uiA := a in
  let sign := signF32UI uiA in
  let exp := expF32UI uiA in
  let sig := fracF32UI uiA in
  let shiftDist := s64 (0xBE - exp) in
  if shiftDist <? 0 then
    softfloat_raiseFlags softfloat_flag_invalid ;;
    fret ((if (exp =? 0xFF) && nz sig then ui64_fromNaN
          else if sign then ui64_fromNegOverflow else ui64_fromPosOverflow))
  else
    let sig := if nz exp then sig .| 0x00800000 else sig in
    let sig64 := u64 (sig .<< 40) in
    let '(sig64, extra) := if nz shiftDist then softfloat_shiftRightJam64Extra sig64 0 shiftDist else (sig64, 0) in
    softfloat_roundToUI64 sign sig64 extra roundingMode exact.

Definition f64_to_i32 (a : Z) (roundingMode : rounding_mode) (exact : bool) : fp Z :=
  let uiA := a in
  let sign := signF64UI uiA in
  let exp := expF64UI uiA in
  let sig := fracF64UI uiA in
  let sign := if (exp =? 0x7FF) && nz sig then false else sign in
  let sig := if nz exp then sig .| 0x0010000000000000 else sig in
  let shiftDist := s64 (0x427 - exp) in
  let sig := if 0 <? shiftDist then softfloat_shiftRightJam64 sig shiftDist else sig in
  softfloat_roundToI32 sign sig roundingMode exact.

Definition f64_to_ui32 (a : Z) (roundingMode : rounding_mode) (exact : bool) : fp Z :=
  let uiA := a in
  let sign := signF64UI uiA in
  let exp := expF64UI uiA in
  let sig := fracF64UI uiA in
  let sign := if (exp =? 0x7FF) && nz sig then false else sign in
  let sig := if nz exp then sig .| 0x0010000000000000 else sig in
  let shiftDist := s64 (0x427 - exp) in
  let sig := if 0 <? shiftDist then softfloat_shiftRightJam64 sig shiftDist else sig in
  softfloat_roundToUI32 sign sig roundingMode exact.

Definition f64_to_i64 (a : Z) (roundingMode : rounding_mode) (exact : bool) : fp Z :=
  let uiA := a in
  let sign := signF64UI uiA in
  let exp := expF64UI uiA in
  let sig := fracF64UI uiA in
  let sig := if nz exp then sig .| 0x0010000000000000 else sig in
  let shiftDist := s64 (0x433 - exp) in
  if shiftDist <=? 0 then
    if shiftDist <? -11 then
      softfloat_raiseFlags softfloat_flag_invalid ;;
      fret (s64 (if (exp =? 0x7FF) && nz (fracF64UI uiA) then i64_fromNaN
            else if sign then i64_fromNegOverflow else i64_fromPosOverflow))
    else softfloat_roundToI64 sign (u64 (sig .<< (- shiftDist))) 0 roundingMode exact
  else
    let '(v, extra) := softfloat_shiftRightJam64Extra sig 0 shiftDist in
    softfloat_roundToI64 sign v extra roundingMode exact.

Definition f64_to_ui64 (a : Z) (roundingMode : rounding_mode) (exact : bool) : fp Z :=
  let uiA := a in
  let sign := signF64UI uiA in
  let exp := expF64UI uiA in
  let sig := fracF64UI uiA in
  let sig := if nz exp then sig .| 0x0010000000000000 else sig in
  let shiftDist := s64 (0x433 - exp) in
  if shiftDist <=? 0 then
    if shiftDist <? -11 then
      softfloat_raiseFlags softfloat_flag_invalid ;;
      fret ((if (exp =? 0x7FF) && nz (fracF64UI uiA) then ui64_fromNaN
            else if sign then ui64_fromNegOverflow else ui64_fromPosOverflow))
    else softfloat_roundToUI64 sign (u64 (sig .<< (- shiftDist))) 0 roundingMode exact
  else
    let '(v, extra) := softfloat_shiftRightJam64Extra sig 0 shiftDist in
    softfloat_roundToUI64 sign v extra roundingMode exact.

(** ** Conversions to narrow integers *)

Definition get_flags : fp Z := fun st => (softfloat_exceptionFlags st, st).

Definition set_flags (flags : Z) : fp unit :=
  fun st => (tt, mk_fp (softfloat_roundingMode st) (softfloat_detectTininess st) flags).

Definition f16_to_i8 (a : Z) (roundingMode : rounding_mode) (exact : bool) : fp Z :=
  old_flags <- get_flags ;;
  sig32 <- f16_to_i32 a roundingMode exact ;;
  if 0x7F <? sig32 then
    set_flags (old_flags .| softfloat_flag_invalid) ;;
    fret i8_fromPosOverflow
  else if sig32 <? - 0x7F - 1 then
    set_flags (old_flags .| softfloat_flag_invalid) ;;
    fret i8_fromNegOverflow
  else fret sig32.

Definition f16_to_i16 (a : Z) (roundingMode : rounding_mode) (exact : bool) : fp Z :=
  old_flags <- get_flags ;;
  sig32 <- f16_to_i32 a roundingMode exact ;;
  if 0x7FFF <? sig32 then
    set_flags (old_flags .| softfloat_flag_invalid) ;;
    fret i16_fromPosOverflow
  else if sig32 <? - 0x7FFF - 1 then
    set_flags (old_flags .| softfloat_flag_invalid) ;;
    fret i16_fromNegOverflow
  else fret sig32.

Definition f32_to_i16 (a : Z) (roundingMode : rounding_mode) (exact : bool) : fp Z :=
  old_flags <- get_flags ;;
  sig32 <- f32_to_i32 a roundingMode exact ;;
  if 0x7FFF <? sig32 then
    set_flags (old_flags .| softfloat_flag_invalid) ;;
    fret i16_fromPosOverflow
  else if sig32 <? - 0x7FFF - 1 then
    set_flags (old_flags .| softfloat_flag_invalid) ;;
    fret i16_fromNegOverflow
  else fret sig32.

Definition f16_to_ui8 (a : Z) (roundingMode : rounding_mode) (exact : bool) : fp Z :=
  old_flags <- get_flags ;;
  sig32 <- f16_to_ui32 a roundingMode exact ;;
  if 0xFF <? sig32 then
    set_flags (old_flags .| softfloat_flag_invalid) ;;
    fret ui8_fromPosOverflow
  else fret sig32.

Definition f16_to_ui16 (a : Z) (roundingMode : rounding_mode) (exact : bool) : fp Z :=
  old_flags <- get_flags ;;
  sig32 <- f16_to_ui32 a roundingMode exact ;;
  if 0xFFFF <? sig32 then
    set_flags (old_flags .| softfloat_flag_invalid) ;;
    fret ui16_fromPosOverflow
  else fret sig32.

Definition f32_to_ui16 (a : Z) (roundingMode : rounding_mode) (exact : bool) : fp Z :=
  old_flags <- get_flags ;;
  sig32 <- f32_to_ui32 a roundingMode exact ;;
  if 0xFFFF <? sig32 then
    set_flags (old_flags .| softfloat_flag_invalid) ;;
    fret ui16_fromPosOverflow
  else fret sig32.
(** ** The reference *)

(** The mode an integer conversion really uses. *)
Definition int_mode (rm : rounding_mode) : rounding_mode :=
  match rm with softfloat_round_odd => softfloat_round_minMag | _ => rm end.

(** A rounded magnitude as an integer of the range, or its nearest bound. *)
Definition int_result (lo hi : Z) (s : bool) (R : Z) (inexact : bool) : fp Z := fun st =>
  let V := if s then - R else R in
  if (lo <=? V) && (V <=? hi) then (V, raise (if inexact then softfloat_flag_inexact else 0) st)
  else (if s then lo else hi, raise softfloat_flag_invalid st).

Definition ieee_to_int (f : fmt) (lo hi : Z) (rm : rounding_mode) (exact : bool) (a : Z) : fp Z := fun st =>
  if is_nan f a then (hi, raise softfloat_flag_invalid st)
  else if is_inf f a then (if f_sign f a then lo else hi, raise softfloat_flag_invalid st)
  else int_result lo hi (f_sign f a) (round_shift rm (f_sign f a) (f_mag f a) (- emin f))
         (exact && negb (cut_exact (f_mag f a) (- emin f))) st.

(** ** Below one half *)

Lemma round_shift_small rm s m k :
  0 <= m -> 2 * m < 2 ^ k -> 0 < k -> round_shift rm s m k = b2z (round_up rm s false (m =? 0) Lt).
Proof.
  intros Hm H2 Hk. unfold round_shift. destruct (Z.leb_spec k 0); [lia|].
  rewrite Z.div_small, Z.mod_small by lia. now replace (2 * m ?= 2 ^ k) with Lt by (symmetry; apply Z.compare_lt_iff; lia).
Qed.

Lemma cut_exact_small m k : 0 <= m < 2 ^ k -> 0 < k -> cut_exact m k = (m =? 0).
Proof. intros Hm Hk. unfold cut_exact. destruct (Z.leb_spec k 0); [lia|]. now rewrite Z.mod_small by lia. Qed.

(** Two shifts that leave less than a half round alike. *)
Lemma small_shifts rm s m k m' k' :
  0 <= m -> 0 <= m' -> (m = 0 <-> m' = 0) -> 2 * m < 2 ^ k -> 2 * m' < 2 ^ k' -> 0 < k -> 0 < k' ->
  round_shift rm s m k = round_shift rm s m' k' /\ cut_exact m k = cut_exact m' k'.
Proof.
  intros H1 H2 Hz H3 H4 H5 H6. rewrite !round_shift_small, !cut_exact_small by lia.
  replace (m' =? 0) with (m =? 0) by (apply eq_true_iff_eq; rewrite !Z.eqb_eq; lia). auto.
Qed.

(** ** The rounding routines *)

Lemma round_increment_mode rm s h w : round_increment rm s h w = round_increment (int_mode rm) s h w.
Proof. destruct rm, s; reflexivity. Qed.

Lemma raise_if_eq b st : raise_inexact_if b st = (tt, raise (if b then softfloat_flag_inexact else 0) st).
Proof. destruct b; [reflexivity|]. unfold raise_inexact_if, fret. now rewrite raise_0. Qed.

(** The two's-complement round trip detects what does not fit. *)
Lemma signed_check W (s : bool) R :
  0 < W -> 0 <= R < 2 ^ W ->
  let z := swrap W (uwrap W (if s then - R else R)) in
  let V := if s then - R else R in
  let ok := (- 2 ^ (W - 1) <=? V) && (V <=? 2 ^ (W - 1) - 1) in
  nz z && xorb (z <? 0) s = negb ok /\ (ok = true -> z = V).
Proof.
  intros HW HR. cbv zeta. pose proof (pow2_pred W HW) as Hp. pose proof (pow2_pos (W - 1) ltac:(lia)).
  assert (Hz : exists z, swrap W (uwrap W (if s then - R else R)) = z /\ - 2 ^ (W - 1) <= z < 2 ^ (W - 1)
               /\ (z = (if s then - R else R) \/ z = (if s then - R else R) + (if s then 2 ^ W else - 2 ^ W))).
  { eexists. split; [reflexivity|]. pose proof (swrap_range W (uwrap W (if s then - R else R)) HW) as Hr. split; [exact Hr|].
    unfold swrap in *. rewrite <- (Z.mod_small R (2 ^ W)) by lia. 
    assert (uwrap W (if s then - R else R) = if s then (if R =? 0 then 0 else 2 ^ W - R) else R) as Hu.
    { unfold uwrap. destruct s; [|apply Z.mod_small; lia]. destruct (Z.eqb_spec R 0) as [->|]; [reflexivity|].
      symmetry. apply Z.mod_unique_pos with (q := -1); lia. }
    rewrite (Z.mod_small R) by lia. rewrite Hu in *. destruct s.
    - destruct (Z.eqb_spec R 0) as [->|]; [left; rewrite Z.mod_small; lia|].
      destruct (Z_le_gt_dec R (2 ^ (W - 1))).
      + left. replace (2 ^ W - R + 2 ^ (W - 1)) with (2 ^ (W - 1) - R + 1 * 2 ^ W) by lia.
        rewrite Z.mod_add, Z.mod_small by lia. lia.
      + right. rewrite Z.mod_small by lia. lia.
    - destruct (Z_lt_le_dec R (2 ^ (W - 1))).
      + left. rewrite Z.mod_small by lia. lia.
      + right. replace (R + 2 ^ (W - 1)) with (R - 2 ^ (W - 1) + 1 * 2 ^ W) by lia. rewrite Z.mod_add, Z.mod_small by lia. lia. }
  destruct Hz as (z & -> & Hr & Hor). split.
  - apply eq_true_iff_eq. rewrite andb_true_iff, nz_true, negb_true_iff, andb_false_iff, !Z.leb_gt.
    destruct s, (Z.ltb_spec z 0); cbn [xorb]; intuition (try discriminate; try lia).
  - rewrite andb_true_iff, !Z.leb_le. destruct s; lia.
Qed.

(** The increment, the shift and the tie fix-up of the 32-bit routines. *)
Section Round32.
Variables (sign : bool) (sig : Z) (rm : rounding_mode).
Hypothesis Hsig : 0 <= sig < 2 ^ 63.
Notation inc := (round_increment rm sign 0x800 0xFFF).
Notation q := (u64 (sig + inc) .>> 12).
Notation sig32 := (q .& u64 (Z.lnot (b2z (negb (nz ((sig .& 0xFFF) .^ 0x800)) && rm_eqb rm softfloat_round_near_even)))).
Notation R := (round_shift (int_mode rm) sign sig 12).

Lemma round32_code :
  nz (u64 (sig + inc) .& 0xFFFFF00000000000) = (2 ^ 32 <=? q) /\
  sig32 = R /\ (2 ^ 32 <= q -> 2 ^ 32 <= R) /\ 0 <= R /\ (q < 2 ^ 32 -> R < 2 ^ 32)
  /\ nz (sig .& 0xFFF) = negb (cut_exact sig 12).
Proof.
  assert (Hi : 0 <= inc <= 0xFFF) by (destruct rm, sign; cbv; intuition discriminate).
  rewrite (uwrap_small 64) by lia. rewrite shiftr_div by lia.
  pose proof (Z_div_mod_eq_full (sig + inc) (2 ^ 12)). pose proof (Z.mod_pos_bound (sig + inc) (2 ^ 12) ltac:(lia)).
  assert (Hsub : ((sig + inc) / 2 ^ 12) .& u64 (Z.lnot (b2z (negb (nz ((sig .& 0xFFF) .^ 0x800)) && rm_eqb rm softfloat_round_near_even)))
     = R).
  { rewrite clear_low_bit by lia. rewrite <- code_round_correct by lia. unfold code_round. rewrite round_increment_mode.
    rewrite (land_mod sig 0xFFF 12) by lia. change (2 ^ (12 - 1)) with 0x800. change (2 ^ 12 - 1) with 0xFFF.
    assert (Hx : negb (nz ((sig mod 2 ^ 12) .^ 0x800)) = (sig mod 2 ^ 12 =? 0x800)).
    { unfold nz. rewrite negb_involutive. apply eq_true_iff_eq. rewrite !Z.eqb_eq. apply Z.lxor_eq_0_iff. }
    rewrite Hx. destruct (sig mod 2 ^ 12 =? 0x800), rm; cbn [int_mode rm_eqb andb]; rewrite ?andb_false_r; cbn [b2z]; try lia;
      destruct (negb _); lia. }
  rewrite Hsub. set (Q := (sig + inc) / 2 ^ 12) in *. split.
  { rewrite (land_shifted_mask _ 20 44) by lia.
    replace ((sig + inc) / 2 ^ 44) with (Q / 2 ^ 32) by (unfold Q; rewrite Z.div_div by lia; reflexivity).
    assert (0 <= Q < 2 ^ 52) by lia. rewrite (Z.mod_small (Q / 2 ^ 32))
      by (split; [apply Z.div_pos; lia|apply Z.div_lt_upper_bound; lia]).
    unfold nz. apply eq_true_iff_eq. rewrite negb_true_iff, Z.eqb_neq, Z.leb_le.
    pose proof (Z_div_mod_eq_full Q (2 ^ 32)). pose proof (Z.mod_pos_bound Q (2 ^ 32) ltac:(lia)). lia. }
  assert (HR : R = Q \/ R = Q - 1 /\ Q <> 0 /\ Q <> 2 ^ 32).
  { rewrite <- Hsub, clear_low_bit by lia. destruct (Z.odd Q) eqn:Ho; [|rewrite andb_false_r; simpl; lia].
    assert (Q <> 0 /\ Q <> 2 ^ 32) by (split; intros E; rewrite E in Ho; discriminate).
    destruct (_ && _); simpl; lia. }
  repeat split; try lia. rewrite (land_mod sig 0xFFF 12) by lia. unfold nz, cut_exact. reflexivity.
Qed.
End Round32.

Lemma roundToI32_correct sign sig rm exact st :
  0 <= sig < 2 ^ 63 ->
  softfloat_roundToI32 sign sig rm exact st
  = int_result (- 2 ^ 31) (2 ^ 31 - 1) sign (round_shift (int_mode rm) sign sig 12) (exact && negb (cut_exact sig 12)) st.
Proof.
  intros Hs. destruct (round32_code sign sig rm Hs) as (Hb & HR & Hbig & H0 & Hlt & Hx).
  unfold softfloat_roundToI32, int_result. cbv zeta. rewrite Hb, HR, Hx.
  set (R := round_shift (int_mode rm) sign sig 12) in *.
  destruct (Z.leb_spec (2 ^ 32) (u64 (sig + round_increment rm sign 0x800 0xFFF) .>> 12)) as [Hq|Hq].
  - replace ((- 2 ^ 31 <=? (if sign then - R else R)) && ((if sign then - R else R) <=? 2 ^ 31 - 1)) with false;
      [now destruct sign|]. symmetry. apply andb_false_iff. rewrite !Z.leb_gt. destruct sign; lia.
  - specialize (Hlt Hq).
    replace (u32 (if sign then u64 (- R) else R)) with (u32 (if sign then - R else R))
      by (destruct sign; [|reflexivity]; unfold uwrap; rewrite <- Znumtheory.Zmod_div_mod; [reflexivity|lia|lia|now exists (2 ^ 32)]).
    destruct (signed_check 32 sign R ltac:(lia) ltac:(lia)) as [Hz HV]. cbv zeta in Hz, HV. rewrite Hz.
    change (2 ^ (32 - 1)) with (2 ^ 31) in *. destruct ((- 2 ^ 31 <=? _) && _); [|now destruct sign].
    cbn [negb]. unfold fbind. rewrite raise_if_eq, HV by reflexivity. reflexivity.
Qed.

Lemma roundToUI32_correct sign sig rm exact st :
  0 <= sig < 2 ^ 63 ->
  softfloat_roundToUI32 sign sig rm exact st
  = int_result 0 (2 ^ 32 - 1) sign (round_shift (int_mode rm) sign sig 12) (exact && negb (cut_exact sig 12)) st.
Proof.
  intros Hs. destruct (round32_code sign sig rm Hs) as (Hb & HR & Hbig & H0 & Hlt & Hx).
  unfold softfloat_roundToUI32, int_result. cbv zeta. rewrite Hb, HR, Hx.
  set (R := round_shift (int_mode rm) sign sig 12) in *.
  destruct (Z.leb_spec (2 ^ 32) (u64 (sig + round_increment rm sign 0x800 0xFFF) .>> 12)) as [Hq|Hq].
  - replace ((0 <=? (if sign then - R else R)) && ((if sign then - R else R) <=? 2 ^ 32 - 1)) with false;
      [now destruct sign|]. symmetry. apply andb_false_iff. rewrite !Z.leb_gt. destruct sign; lia.
  - specialize (Hlt Hq).
    replace ((0 <=? (if sign then - R else R)) && ((if sign then - R else R) <=? 2 ^ 32 - 1)) with (negb (sign && nz R))
      by (apply eq_true_iff_eq; rewrite negb_true_iff, andb_false_iff, andb_true_iff, nz_false, !Z.leb_le; destruct sign; lia).
    destruct (sign && nz R) eqn:Hsn; [now destruct sign|]. cbn [negb]. unfold fbind. rewrite raise_if_eq.
    unfold fret. f_equal. destruct sign; [|reflexivity]. cbn [andb] in Hsn. apply nz_false in Hsn. lia.
Qed.

(** The increment of the 64-bit routines, on the fixed-point number with 64
    fraction bits. *)
Section Round64.
Variables (sign : bool) (sig extra : Z) (rm : rounding_mode).
Hypothesis Hextra : 0 <= extra < 2 ^ 64.
Notation R := (round_shift (int_mode rm) sign (sig * 2 ^ 64 + extra) 64).

Lemma round64_code :
  let inc := if negb (rm_eqb rm softfloat_round_near_even) && negb (rm_eqb rm softfloat_round_near_maxMag)
    then rm_eqb rm (if sign then softfloat_round_min else softfloat_round_max) && nz extra
    else 0x8000000000000000 <=? extra in
  R = (if inc then (sig + 1) - b2z ((negb (nz (extra .& 0x7FFFFFFFFFFFFFFF)) && rm_eqb rm softfloat_round_near_even) && Z.odd (sig + 1)) else sig)
  /\ nz extra = negb (cut_exact (sig * 2 ^ 64 + extra) 64).
Proof.
  cbv zeta. assert (Hq : (sig * 2 ^ 64 + extra) / 2 ^ 64 = sig) by (symmetry; apply Z.div_unique with (r := extra); lia).
  assert (Hr : (sig * 2 ^ 64 + extra) mod 2 ^ 64 = extra) by (symmetry; apply Z.mod_unique_pos with (q := sig); lia).
  split; [|unfold cut_exact; rewrite Hr; reflexivity].
  unfold round_shift. rewrite Hq, Hr. change (64 <=? 0) with false. cbv iota.
  assert (Hh : forall P, 2 ^ 64 = 2 * P -> P = 0x8000000000000000 -> (2 * extra ?= 2 ^ 64) = (extra ?= P))
    by (intros P H1 H2; apply compare_ext; lia).
  rewrite (Hh 0x8000000000000000 eq_refl eq_refl), (land_mod extra _ 63) by lia.
  assert (Ho : Z.odd (sig + 1) = negb (Z.odd sig)) by (rewrite Z.odd_add; now destruct (Z.odd sig)).
  assert (Hm : nz (extra mod 2 ^ 63) = negb ((extra =? 0) || (extra =? 0x8000000000000000))).
  { unfold nz. f_equal. apply eq_true_iff_eq. rewrite orb_true_iff, !Z.eqb_eq.
    pose proof (Z_div_mod_eq_full extra (2 ^ 63)). pose proof (Z.mod_pos_bound extra (2 ^ 63) ltac:(lia)).
    assert (0 <= extra / 2 ^ 63 < 2) by (split; [apply Z.div_pos; lia|apply Z.div_lt_upper_bound; lia]). lia. }
  rewrite Ho, Hm. clear Ho Hm Hh Hq Hr. unfold nz.
  destruct (Z.compare_spec extra 0x8000000000000000), (Z.eqb_spec extra 0), (Z.eqb_spec extra 0x8000000000000000),
    (Z.leb_spec 0x8000000000000000 extra); try lia; destruct rm, sign; cbn; try lia; destruct (Z.odd sig); cbn; lia.
Qed.

(** The increment of the code, given what it does with a word that did not wrap. *)
Lemma round64_text (deliver : Z -> fp Z) (invalid : fp Z) lo hi inexact st :
  0 <= sig < 2 ^ 64 ->
  (forall r, 0 <= r < 2 ^ 64 -> deliver r st = int_result lo hi sign r inexact st) ->
  invalid st = (if sign then lo else hi, raise softfloat_flag_invalid st) ->
  hi < 2 ^ 64 -> - 2 ^ 64 < lo ->
  (let roundNearEven := rm_eqb rm softfloat_round_near_even in
   let doIncrement := 0x8000000000000000 <=? extra in
   let doIncrement :=
     if negb roundNearEven && negb (rm_eqb rm softfloat_round_near_maxMag)
     then rm_eqb rm (if sign then softfloat_round_min else softfloat_round_max) && nz extra
     else doIncrement in
   if doIncrement then
     let sig := u64 (sig + 1) in
     if negb (nz sig) then invalid
     else deliver (sig .& u64 (Z.lnot (b2z (negb (nz (extra .& 0x7FFFFFFFFFFFFFFF)) && roundNearEven))))
   else deliver sig) st
  = int_result lo hi sign R inexact st.
Proof.
  intros Hs Hdel Hinv Hhi Hlo. destruct round64_code as [HR _]. cbv zeta in *. set (r := R) in *.
  destruct (if negb (rm_eqb rm softfloat_round_near_even) && _ then _ else _) eqn:Hinc; [|now rewrite HR, Hdel by lia].
  destruct (Z.eq_dec sig (2 ^ 64 - 1)) as [Hmax|Hmax].
  - rewrite Hmax in *. replace (u64 (2 ^ 64 - 1 + 1)) with 0 by reflexivity. cbn [nz Z.eqb negb].
    assert (r = 2 ^ 64) as -> by (rewrite HR; replace (Z.odd (2 ^ 64 - 1 + 1)) with false by reflexivity; rewrite andb_false_r; simpl; lia).
    change (negb (nz 0)) with true. cbv iota. rewrite Hinv. unfold int_result.
    destruct sign; [destruct (Z.leb_spec lo (- 2 ^ 64)); [lia|reflexivity]|].
    destruct (Z.leb_spec (2 ^ 64) hi); [lia|]. now rewrite andb_false_r.
  - rewrite (uwrap_small 64 (sig + 1)) by lia. unfold nz at 1. destruct (Z.eqb_spec (sig + 1) 0); [lia|].
    cbn [negb]. rewrite clear_low_bit by lia. rewrite <- HR. apply Hdel. rewrite HR. destruct (_ && Z.odd _); simpl; lia.
Qed.
End Round64.

Lemma roundToI64_correct sign sig extra rm exact st :
  0 <= sig < 2 ^ 64 -> 0 <= extra < 2 ^ 64 ->
  softfloat_roundToI64 sign sig extra rm exact st
  = int_result (- 2 ^ 63) (2 ^ 63 - 1) sign (round_shift (int_mode rm) sign (sig * 2 ^ 64 + extra) 64)
      (exact && negb (cut_exact (sig * 2 ^ 64 + extra) 64)) st.
Proof.
  intros Hs He. destruct (round64_code sign sig extra rm He) as (_ & Hx). rewrite <- Hx.
  apply (round64_text sign sig extra rm He); [exact Hs| |now destruct sign|lia|lia]. intros r Hr. cbv zeta. unfold int_result. cbv zeta.
  replace (if sign then u64 (- r) else r) with (u64 (if sign then - r else r)) by (destruct sign; [reflexivity|apply uwrap_small; lia]).
  destruct (signed_check 64 sign r ltac:(lia) ltac:(lia)) as [Hz HV]. cbv zeta in Hz, HV. rewrite Hz.
  change (2 ^ (64 - 1)) with (2 ^ 63) in *. destruct ((- 2 ^ 63 <=? _) && _); [|now destruct sign].
  cbn [negb]. unfold fbind. rewrite raise_if_eq, HV by reflexivity. reflexivity.
Qed.

Lemma roundToUI64_correct sign sig extra rm exact st :
  0 <= sig < 2 ^ 64 -> 0 <= extra < 2 ^ 64 ->
  softfloat_roundToUI64 sign sig extra rm exact st
  = int_result 0 (2 ^ 64 - 1) sign (round_shift (int_mode rm) sign (sig * 2 ^ 64 + extra) 64)
      (exact && negb (cut_exact (sig * 2 ^ 64 + extra) 64)) st.
Proof.
  intros Hs He. destruct (round64_code sign sig extra rm He) as (_ & Hx). rewrite <- Hx.
  apply (round64_text sign sig extra rm He); [exact Hs| |now destruct sign|lia|lia]. intros r Hr. unfold int_result. cbv zeta.
  replace ((0 <=? (if sign then - r else r)) && ((if sign then - r else r) <=? 2 ^ 64 - 1)) with (negb (sign && nz r))
    by (apply eq_true_iff_eq; rewrite negb_true_iff, andb_false_iff, andb_true_iff, nz_false, !Z.leb_le; destruct sign; lia).
  destruct (sign && nz r) eqn:Hsn; [now destruct sign|]. cbn [negb]. unfold fbind. rewrite raise_if_eq.
  unfold fret. f_equal. destruct sign; [|reflexivity]. cbn [andb] in Hsn. apply nz_false in Hsn. lia.
Qed.

(** ** Values as shifted significands *)

Lemma int_result_big lo hi s R x st :
  - R < lo -> hi < R -> int_result lo hi s R x st = (if s then lo else hi, raise softfloat_flag_invalid st).
Proof.
  intros Hlo Hhi. unfold int_result. cbv zeta.
  replace ((lo <=? (if s then - R else R)) && ((if s then - R else R) <=? hi)) with false; [reflexivity|].
  symmetry. apply andb_false_iff. rewrite !Z.leb_gt. destruct s; lia.
Qed.

Lemma round_shift_ge rm s M k B : 0 <= M -> B * 2 ^ Z.max 0 k <= M * 2 ^ Z.max 0 (- k) -> B <= round_shift rm s M k.
Proof.
  intros HM HB. unfold round_shift. destruct (Z.leb_spec k 0).
  - rewrite Z.max_l, Z.pow_0_r, Z.mul_1_r, Z.max_r in HB by lia. exact HB.
  - rewrite Z.max_r, (Z.max_l 0 (- k)), Z.pow_0_r, Z.mul_1_r in HB by lia. pose proof (pow2_pos k ltac:(lia)).
    assert (B <= M / 2 ^ k) by (apply Z.div_le_lower_bound; lia).
    pose proof (b2z_range (round_up rm s (Z.odd (M / 2 ^ k)) (M mod 2 ^ k =? 0) (2 * (M mod 2 ^ k) ?= 2 ^ k))). lia.
Qed.

Section Value.
Context (f : fmt) (Hf : fmt_ok f) (a : Z).
Hypothesis Hwide : fb f + 1 < - emin f.
Notation e := (f_exp f a).
Notation m := (f_mant f a).

Lemma mant_zero : m = 0 <-> e = 0 /\ f_frac f a = 0.
Proof.
  pose proof (f_mant_normal f Hf a). pose proof (pow2_pos (fb f) ltac:(destruct Hf; lia)).
  unfold f_mant in *. destruct (Z.eqb_spec e 0); lia.
Qed.

(** The exponent field alone places the significand; a subnormal number, off by
    one place, is below one half either way. *)
Lemma value_shift rm s :
  round_shift rm s (f_mag f a) (- emin f) = round_shift rm s m (1 - emin f - e)
  /\ cut_exact (f_mag f a) (- emin f) = cut_exact m (1 - emin f - e).
Proof.
  pose proof (f_mant_range f Hf a). pose proof (f_exp_range f Hf a). pose proof (f_frac_range f Hf a).
  destruct (Z.eq_dec e 0) as [He|He].
  - assert (f_mag f a = m) as -> by (unfold f_mag, f_shift; rewrite He; apply Z.mul_1_r). rewrite He.
    pose proof (pow2_le (fb f + 1) (- emin f) ltac:(destruct Hf; lia)).
    pose proof (pow2_le (fb f + 1) (1 - emin f - 0) ltac:(destruct Hf; lia)).
    assert (m < 2 ^ fb f) by (unfold f_mant; rewrite He; apply f_frac_range; exact Hf).
    rewrite pow2_succ in * by (destruct Hf; lia). destruct Hf. apply small_shifts; lia.
  - unfold f_mag. assert (f_shift f a = e - 1) as -> by (unfold f_shift; lia).
    replace (- emin f) with (1 - emin f - e + (e - 1)) by lia. rewrite round_shift_scale, cut_exact_scale by lia. auto.
Qed.

(** The same for a significand shifted left by [c], as the code holds it. *)
Lemma value_shift_code rm s c D :
  0 <= c -> D - c = 1 - emin f ->
  round_shift rm s (f_mag f a) (- emin f) = round_shift rm s (m * 2 ^ c) (D - e)
  /\ cut_exact (f_mag f a) (- emin f) = cut_exact (m * 2 ^ c) (D - e).
Proof.
  intros Hc HD. pose proof (f_mant_range f Hf a). destruct (value_shift rm s) as [-> ->].
  replace (D - e) with (1 - emin f - e + c) by lia. now rewrite round_shift_scale, cut_exact_scale by lia.
Qed.

Lemma to_int_special lo hi rm exact st :
  e = max_exp f ->
  ieee_to_int f lo hi rm exact a st
  = (if nz (f_frac f a) then hi else if f_sign f a then lo else hi, raise softfloat_flag_invalid st).
Proof.
  intros He. unfold ieee_to_int, is_nan, is_inf, nz. rewrite He, Z.eqb_refl. cbn [andb].
  destruct (f_frac f a =? 0); reflexivity.
Qed.

Lemma to_int_finite lo hi rm exact st :
  e < max_exp f ->
  ieee_to_int f lo hi rm exact a st
  = int_result lo hi (f_sign f a) (round_shift rm (f_sign f a) (f_mag f a) (- emin f))
      (exact && negb (cut_exact (f_mag f a) (- emin f))) st.
Proof.
  intros He. unfold ieee_to_int, is_nan, is_inf. destruct (Z.eqb_spec e (max_exp f)); [lia|]. reflexivity.
Qed.

(** The 32-bit conversions of the wider formats: twelve fraction bits, the
    rest jammed. *)
Section Via32.
Variables (roundTo : bool -> Z -> rounding_mode -> bool -> fp Z) (lo hi c D : Z).
Hypothesis HroundTo : forall sign sig rm exact st, 0 <= sig < 2 ^ 63 ->
  roundTo sign sig rm exact st
  = int_result lo hi sign (round_shift (int_mode rm) sign sig 12) (exact && negb (cut_exact sig 12)) st.
Hypothesis Hlo : - 2 ^ 33 < lo.
Hypothesis Hhi : hi < 2 ^ 33.
Hypothesis Hc : 0 <= c.
Hypothesis Hcw : fb f + 1 + c <= 63.
Hypothesis HD : D + 12 - c = 1 - emin f.
Hypothesis HD0 : 0 < D <= max_exp f.
Hypothesis Hbig : 45 <= fb f + c.

Lemma via32_correct rm exact st :
  roundTo (if (e =? max_exp f) && nz (f_frac f a) then false else f_sign f a)
    (if 0 <? D - e then softfloat_shiftRightJam64 (m * 2 ^ c) (D - e) else m * 2 ^ c) rm exact st
  = ieee_to_int f lo hi (int_mode rm) exact a st.
Proof.
  pose proof (f_mant_range f Hf a) as Hm. pose proof (f_exp_range f Hf a). destruct Hf as [Hf1 Hf2].
  pose proof (pow2_le (fb f + 1 + c) 63 ltac:(lia)) as Hle. pose proof (pow2_pos c Hc).
  rewrite pow2_split in Hle by lia. assert (Hx : 0 <= m * 2 ^ c < 2 ^ 63) by nia.
  destruct (Z.ltb_spec 0 (D - e)) as [Hd|Hd].
  - rewrite shiftRightJam64_jam by lia.
    assert (Hj : 0 <= jam (m * 2 ^ c) (D - e) < 2 ^ 63).
    { split; [apply jam_nonneg; lia|]. pose proof (jam_bounds (m * 2 ^ c) (D - e) ltac:(lia) ltac:(lia)).
      assert (m * 2 ^ c / 2 ^ (D - e) < 2 ^ 62); [|lia]. apply Z.div_lt_upper_bound; [apply pow2_pos; lia|].
      pose proof (pow2_le 1 (D - e) ltac:(lia)). lia. }
    rewrite HroundTo by exact Hj.
    rewrite to_int_finite by lia. destruct (Z.eqb_spec e (max_exp f)); [lia|]. cbn [andb].
    rewrite round_shift_jam, cut_exact_jam by lia.
    destruct (value_shift_code (int_mode rm) (f_sign f a) c (D + 12) ltac:(lia) ltac:(lia)) as [-> ->].
    now replace (D + 12 - e) with (D - e + 12) by lia.
  - assert (Hn : 2 ^ fb f <= m) by (apply f_mant_normal; [split; assumption|lia]).
    assert (Hs : 2 ^ 45 <= m * 2 ^ c) by (pose proof (pow2_le 45 (fb f + c) ltac:(lia)) as Hp; rewrite (pow2_split (fb f)) in Hp by lia; nia).
    rewrite HroundTo by lia. rewrite int_result_big by
      (pose proof (round_shift_ge (int_mode rm) (if (e =? max_exp f) && nz (f_frac f a) then false else f_sign f a) (m * 2 ^ c) 12 (2 ^ 33) ltac:(lia) ltac:(change (Z.max 0 12) with 12; change (Z.max 0 (- (12))) with 0; rewrite Z.pow_0_r; lia)); lia).
    destruct (Z.eq_dec e (max_exp f)) as [He|He].
    + rewrite to_int_special by exact He. rewrite He, Z.eqb_refl. cbn [andb]. now destruct (nz (f_frac f a)).
    + rewrite to_int_finite by lia. destruct (Z.eqb_spec e (max_exp f)); [lia|]. cbn [andb].
      destruct (value_shift_code (int_mode rm) (f_sign f a) c (D + 12) ltac:(lia) ltac:(lia)) as [-> _].
      rewrite int_result_big; trivial;
        (assert (2 ^ 33 <= round_shift (int_mode rm) (f_sign f a) (m * 2 ^ c) (D + 12 - e)); [|lia]);
        apply round_shift_ge; try lia; pose proof (pow2_le (Z.max 0 (D + 12 - e)) 12 ltac:(lia)); pose proof (pow2_pos (Z.max 0 (- (D + 12 - e))) ltac:(lia)); nia.
Qed.
End Via32.

(** The 64-bit conversions: sixty-four fraction bits in a second word. *)
Lemma extra_round rm s x d :
  0 <= x < 2 ^ 64 -> 0 < d ->
  let (v, y) := softfloat_shiftRightJam64Extra x 0 d in
  0 <= v < 2 ^ 64 /\ 0 <= y < 2 ^ 64
  /\ round_shift rm s (v * 2 ^ 64 + y) 64 = round_shift rm s x d
  /\ cut_exact (v * 2 ^ 64 + y) 64 = cut_exact x d.
Proof.
  intros Hx Hd. unfold softfloat_shiftRightJam64Extra. change (b2z (nz 0)) with 0. destruct (Z.ltb_spec d 64).
  - rewrite Z.lor_0_r, (neg_dist_mask 64 6) by lia. rewrite shiftr_div, shiftl_mul by lia. unfold uwrap.
    pose proof (pow2_pos d ltac:(lia)). pose proof (pow2_pos (64 - d) ltac:(lia)).
    assert (Hp : 2 ^ 64 = 2 ^ d * 2 ^ (64 - d)) by (rewrite <- pow2_split by lia; f_equal; lia).
    pose proof (Z_div_mod_eq_full x (2 ^ d)) as Hdm. pose proof (Z.mod_pos_bound x (2 ^ d) ltac:(lia)) as Hmb.
    assert ((x * 2 ^ (64 - d)) mod 2 ^ 64 = x mod 2 ^ d * 2 ^ (64 - d)) as -> by (rewrite Hp, Z.mul_mod_distr_r by lia; reflexivity).
    assert (0 <= x / 2 ^ d) by (apply Z.div_pos; lia). assert (x / 2 ^ d < 2 ^ 64) by (apply Z.div_lt_upper_bound; nia).
    assert (He : x / 2 ^ d * 2 ^ 64 + x mod 2 ^ d * 2 ^ (64 - d) = x * 2 ^ (64 - d)) by (rewrite Hp; nia).
    rewrite He. split; [lia|]. split; [nia|]. replace 64 with (d + (64 - d)) at 2 4 by lia.
    rewrite round_shift_scale, cut_exact_scale by lia. auto.
  - rewrite Z.lor_0_r. destruct (Z.eqb_spec d 64) as [->|]; [simpl; auto|].
    pose proof (b2z_range (nz x)). split; [lia|]. split; [lia|]. pose proof (pow2_le 65 d ltac:(lia)).
    apply small_shifts; try lia. unfold nz, b2z. destruct (Z.eqb_spec x 0); simpl; lia.
Qed.

Lemma to_int_overflow lo hi rm exact B st :
  0 <= B -> - 2 ^ B < lo -> hi < 2 ^ B -> 1 - emin f + B - fb f <= e -> 0 < e ->
  ieee_to_int f lo hi rm exact a st
  = (if (e =? max_exp f) && nz (f_frac f a) then hi else if f_sign f a then lo else hi, raise softfloat_flag_invalid st).
Proof.
  intros HB Hlo Hhi He He0. pose proof (f_exp_range f Hf a). destruct (Z.eqb_spec e (max_exp f)) as [Hx|Hx].
  - rewrite to_int_special by exact Hx. reflexivity.
  - rewrite to_int_finite by lia. cbn [andb]. destruct (value_shift rm (f_sign f a)) as [-> _].
    pose proof (f_mant_normal f Hf a ltac:(lia)). destruct Hf.
    assert (2 ^ B <= round_shift rm (f_sign f a) m (1 - emin f - e)); [|now rewrite int_result_big by lia].
    apply round_shift_ge; [lia|]. pose proof (pow2_pos (Z.max 0 (- (1 - emin f - e))) ltac:(lia)).
    assert (2 ^ B * 2 ^ Z.max 0 (1 - emin f - e) <= 2 ^ fb f * 2 ^ Z.max 0 (- (1 - emin f - e))); [|nia].
    rewrite <- !pow2_split by lia. apply pow2_le. lia.
Qed.

Section Via64.
Variables (roundTo : bool -> Z -> Z -> rounding_mode -> bool -> fp Z) (lo hi : Z).
Hypothesis HroundTo : forall sign sig extra rm exact st, 0 <= sig < 2 ^ 64 -> 0 <= extra < 2 ^ 64 ->
  roundTo sign sig extra rm exact st
  = int_result lo hi sign (round_shift (int_mode rm) sign (sig * 2 ^ 64 + extra) 64)
      (exact && negb (cut_exact (sig * 2 ^ 64 + extra) 64)) st.

(** A whole number of units, without fraction bits. *)
Lemma via64_whole rm exact v st :
  e < max_exp f -> 0 <= v < 2 ^ 64 -> v = m * 2 ^ (e - (1 - emin f)) -> 1 - emin f <= e ->
  roundTo (f_sign f a) v 0 rm exact st = ieee_to_int f lo hi (int_mode rm) exact a st.
Proof.
  intros He Hv Ev Hk. pose proof (f_mant_range f Hf a). rewrite HroundTo by lia. rewrite to_int_finite by exact He.
  destruct (value_shift (int_mode rm) (f_sign f a)) as [-> ->]. rewrite Z.add_0_r.
  pose proof (round_shift_scale (int_mode rm) (f_sign f a) v 0 64 ltac:(lia) ltac:(lia)) as Hr.
  pose proof (cut_exact_scale v 0 64 ltac:(lia)) as Hc. change (0 + 64) with 64 in *. rewrite Hr, Hc, round_shift_0.
  unfold cut_exact, round_shift. destruct (Z.leb_spec (1 - emin f - e) 0); [|lia]. cbn [orb].
  rewrite Ev. now replace (- (1 - emin f - e)) with (e - (1 - emin f)) by lia.
Qed.

Lemma via64_fraction rm exact c D st :
  e < max_exp f -> 0 <= c -> D - c = 1 - emin f -> fb f + 1 + c <= 64 -> e < D ->
  (let '(v, extra) := softfloat_shiftRightJam64Extra (m * 2 ^ c) 0 (D - e) in roundTo (f_sign f a) v extra rm exact) st
  = ieee_to_int f lo hi (int_mode rm) exact a st.
Proof.
  intros He Hc HD Hw Hd. pose proof (f_mant_range f Hf a). pose proof (pow2_pos c Hc). destruct Hf.
  pose proof (pow2_le (fb f + 1 + c) 64 ltac:(lia)) as Hp. rewrite pow2_split in Hp by lia.
  pose proof (extra_round (int_mode rm) (f_sign f a) (m * 2 ^ c) (D - e) ltac:(nia) ltac:(lia)) as Hx.
  destruct (softfloat_shiftRightJam64Extra (m * 2 ^ c) 0 (D - e)) as [v y]. destruct Hx as (Hv & Hy & Hr & Hcut).
  rewrite HroundTo, to_int_finite, Hr, Hcut by assumption.
  now destruct (value_shift_code (int_mode rm) (f_sign f a) c D Hc HD) as [-> ->].
Qed.
End Via64.
End Value.

(** ** The conversions with a rounding mode *)

Lemma wide_F16 : fb F16 + 1 < - emin F16.
Proof. reflexivity. Qed.
Lemma wide_F32 : fb F32 + 1 < - emin F32.
Proof. reflexivity. Qed.
Lemma wide_F64 : fb F64 + 1 < - emin F64.
Proof. reflexivity. Qed.

(** [if ( exp ) sig |= hidden] *)
Lemma mant_code f hidden a :
  fmt_ok f -> hidden = 2 ^ fb f -> (if nz (f_exp f a) then f_frac f a .| hidden else f_frac f a) = f_mant f a.
Proof.
  intros Hf Hh. pose proof (f_frac_range f Hf a). destruct Hf. unfold f_mant, nz.
  destruct (Z.eqb_spec (f_exp f a) 0); cbn [negb]; [reflexivity|]. rewrite (lor_high _ (fb f)) by lia. lia.
Qed.

Lemma lor_hidden f hidden a :
  fmt_ok f -> hidden = 2 ^ fb f -> f_exp f a <> 0 -> f_frac f a .| hidden = f_mant f a.
Proof. intros Hf Hh He. rewrite <- (mant_code f hidden a Hf Hh). unfold nz. now destruct (Z.eqb_spec (f_exp f a) 0). Qed.

Lemma f32_via32 roundTo lo hi a rm exact st :
  (forall sign sig rm exact st, 0 <= sig < 2 ^ 63 ->
    roundTo sign sig rm exact st
    = int_result lo hi sign (round_shift (int_mode rm) sign sig 12) (exact && negb (cut_exact sig 12)) st) ->
  - 2 ^ 33 < lo -> hi < 2 ^ 33 -> is_pattern F32 a ->
  (let sign := signF32UI a in let exp := expF32UI a in let sig := fracF32UI a in
   let sign := if (exp =? 0xFF) && nz sig then false else sign in
   let sig := if nz exp then sig .| 0x00800000 else sig in
   let sig64 := u64 (sig .<< 32) in
   let shiftDist := s64 (0xAA - exp) in
   let sig64 := if 0 <? shiftDist then softfloat_shiftRightJam64 sig64 shiftDist else sig64 in
   roundTo sign sig64 rm exact) st = ieee_to_int F32 lo hi (int_mode rm) exact a st.
Proof.
  intros Hr Hlo Hhi Ha. cbv zeta. rewrite signF32UI_eq, expF32UI_eq, fracF32UI_eq by exact Ha.
  pose proof (f_mant_range F32 fmt_ok_F32 a). pose proof (f_exp_range F32 fmt_ok_F32 a).
  change (fb F32 + 1) with 24 in *. change (max_exp F32) with 255 in *.
  rewrite (mant_code F32) by easy. rewrite shiftl_mul, uwrap_small, swrap_small by lia.
  apply (via32_correct F32 fmt_ok_F32 a wide_F32 roundTo lo hi 32 170); trivial; try lia; easy.
Qed.

Lemma f64_via32 roundTo lo hi a rm exact st :
  (forall sign sig rm exact st, 0 <= sig < 2 ^ 63 ->
    roundTo sign sig rm exact st
    = int_result lo hi sign (round_shift (int_mode rm) sign sig 12) (exact && negb (cut_exact sig 12)) st) ->
  - 2 ^ 33 < lo -> hi < 2 ^ 33 -> is_pattern F64 a ->
  (let sign := signF64UI a in let exp := expF64UI a in let sig := fracF64UI a in
   let sign := if (exp =? 0x7FF) && nz sig then false else sign in
   let sig := if nz exp then sig .| 0x0010000000000000 else sig in
   let shiftDist := s64 (0x427 - exp) in
   let sig := if 0 <? shiftDist then softfloat_shiftRightJam64 sig shiftDist else sig in
   roundTo sign sig rm exact) st = ieee_to_int F64 lo hi (int_mode rm) exact a st.
Proof.
  intros Hr Hlo Hhi Ha. cbv zeta. rewrite signF64UI_eq, expF64UI_eq, fracF64UI_eq by exact Ha.
  pose proof (f_mant_range F64 fmt_ok_F64 a). pose proof (f_exp_range F64 fmt_ok_F64 a).
  change (max_exp F64) with 2047 in *.
  rewrite (mant_code F64) by easy. rewrite swrap_small by lia.
  rewrite <- (via32_correct F64 fmt_ok_F64 a wide_F64 roundTo lo hi 0 1063); trivial; try lia; try easy.
  now rewrite Z.pow_0_r, Z.mul_1_r.
Qed.

Section Sixty_four.
Variables (roundTo : bool -> Z -> Z -> rounding_mode -> bool -> fp Z) (lo hi : Z) (ret : Z -> Z) (nanv negv posv : Z).
Hypothesis HroundTo : forall sign sig extra rm exact st, 0 <= sig < 2 ^ 64 -> 0 <= extra < 2 ^ 64 ->
  roundTo sign sig extra rm exact st
  = int_result lo hi sign (round_shift (int_mode rm) sign (sig * 2 ^ 64 + extra) 64)
      (exact && negb (cut_exact (sig * 2 ^ 64 + extra) 64)) st.
Hypothesis Hlo : - 2 ^ 64 < lo.
Hypothesis Hhi : hi < 2 ^ 64.
Hypothesis Hret : ret nanv = hi /\ ret negv = lo /\ ret posv = hi.

Lemma ret_invalid (c s : bool) :
  ret (if c then nanv else if s then negv else posv) = (if c then hi else if s then lo else hi).
Proof. destruct Hret as (H1 & H2 & H3), c, s; assumption. Qed.

Lemma f32_via64 a rm exact st :
  is_pattern F32 a ->
  (let sign := signF32UI a in let exp := expF32UI a in let sig := fracF32UI a in
   let shiftDist := s64 (0xBE - exp) in
   if shiftDist <? 0 then
     softfloat_raiseFlags softfloat_flag_invalid ;;
     fret (ret (if (exp =? 0xFF) && nz sig then nanv else if sign then negv else posv))
   else
     let sig := if nz exp then sig .| 0x00800000 else sig in
     let sig64 := u64 (sig .<< 40) in
     let '(sig64, extra) := if nz shiftDist then softfloat_shiftRightJam64Extra sig64 0 shiftDist else (sig64, 0) in
     roundTo sign sig64 extra rm exact) st
  = ieee_to_int F32 lo hi (int_mode rm) exact a st.
Proof.
  intros Ha. cbv zeta. rewrite signF32UI_eq, expF32UI_eq, fracF32UI_eq by exact Ha.
  pose proof (f_mant_range F32 fmt_ok_F32 a). pose proof (f_exp_range F32 fmt_ok_F32 a).
  change (fb F32 + 1) with 24 in *. change (max_exp F32) with 255 in *.
  rewrite swrap_small by lia. destruct (Z.ltb_spec (0xBE - f_exp F32 a) 0).
  - rewrite (to_int_overflow F32 fmt_ok_F32 a wide_F32 _ _ _ _ 64) by (trivial; change (emin F32) with (-149); change (fb F32) with 23; lia).
    unfold fbind, fret. cbn. now rewrite ret_invalid.
  - rewrite (mant_code F32) by easy. rewrite shiftl_mul, uwrap_small by lia. on_nz (0xBE - f_exp F32 a).
    + apply (via64_fraction F32 fmt_ok_F32 a wide_F32 roundTo lo hi HroundTo rm exact 40 190); try easy;
        change (max_exp F32) with 255; lia.
    + apply (via64_whole F32 fmt_ok_F32 a wide_F32 roundTo lo hi HroundTo); change (max_exp F32) with 255; change (emin F32) with (-149); try lia.
      do 2 f_equal. lia.
Qed.

Lemma f64_via64 a rm exact st :
  is_pattern F64 a ->
  (let sign := signF64UI a in let exp := expF64UI a in let sig := fracF64UI a in
   let sig := if nz exp then sig .| 0x0010000000000000 else sig in
   let shiftDist := s64 (0x433 - exp) in
   if shiftDist <=? 0 then
     if shiftDist <? -11 then
       softfloat_raiseFlags softfloat_flag_invalid ;;
       fret (ret (if (exp =? 0x7FF) && nz (fracF64UI a) then nanv else if sign then negv else posv))
     else roundTo sign (u64 (sig .<< (- shiftDist))) 0 rm exact
   else
     let '(v, extra) := softfloat_shiftRightJam64Extra sig 0 shiftDist in
     roundTo sign v extra rm exact) st
  = ieee_to_int F64 lo hi (int_mode rm) exact a st.
Proof.
  intros Ha. cbv zeta. rewrite signF64UI_eq, expF64UI_eq, fracF64UI_eq by exact Ha.
  pose proof (f_mant_range F64 fmt_ok_F64 a). pose proof (f_exp_range F64 fmt_ok_F64 a).
  change (fb F64 + 1) with 53 in *. change (max_exp F64) with 2047 in *.
  rewrite swrap_small by lia. rewrite (mant_code F64) by easy.
  destruct (Z.leb_spec (0x433 - f_exp F64 a) 0).
  - destruct (Z.ltb_spec (0x433 - f_exp F64 a) (-11)).
    + rewrite (to_int_overflow F64 fmt_ok_F64 a wide_F64 _ _ _ _ 64) by (trivial; change (emin F64) with (-1074); change (fb F64) with 52; lia).
      unfold fbind, fret. cbn. now rewrite ret_invalid.
    + rewrite shiftl_mul by lia. pose proof (pow2_le (- (0x433 - f_exp F64 a)) 11 ltac:(lia)).
      pose proof (pow2_pos (- (0x433 - f_exp F64 a)) ltac:(lia)). rewrite uwrap_small by nia.
      apply (via64_whole F64 fmt_ok_F64 a wide_F64 roundTo lo hi HroundTo); change (max_exp F64) with 2047; change (emin F64) with (-1074); try lia; try nia.
      do 2 f_equal. lia.
  - rewrite <- (via64_fraction F64 fmt_ok_F64 a wide_F64 roundTo lo hi HroundTo rm exact 0 1075); try easy;
      try (change (max_exp F64) with 2047; lia). now rewrite Z.pow_0_r, Z.mul_1_r.
Qed.
End Sixty_four.

Lemma f32_to_i32_correct a rm exact st :
  is_pattern F32 a -> f32_to_i32 a rm exact st = ieee_to_int F32 (- 2 ^ 31) (2 ^ 31 - 1) (int_mode rm) exact a st.
Proof. apply (f32_via32 softfloat_roundToI32); [exact roundToI32_correct|lia|lia]. Qed.

Lemma f32_to_ui32_correct a rm exact st :
  is_pattern F32 a -> f32_to_ui32 a rm exact st = ieee_to_int F32 0 (2 ^ 32 - 1) (int_mode rm) exact a st.
Proof. apply (f32_via32 softfloat_roundToUI32); [exact roundToUI32_correct|lia|lia]. Qed.

Lemma f64_to_i32_correct a rm exact st :
  is_pattern F64 a -> f64_to_i32 a rm exact st = ieee_to_int F64 (- 2 ^ 31) (2 ^ 31 - 1) (int_mode rm) exact a st.
Proof. apply (f64_via32 softfloat_roundToI32); [exact roundToI32_correct|lia|lia]. Qed.

Lemma f64_to_ui32_correct a rm exact st :
  is_pattern F64 a -> f64_to_ui32 a rm exact st = ieee_to_int F64 0 (2 ^ 32 - 1) (int_mode rm) exact a st.
Proof. apply (f64_via32 softfloat_roundToUI32); [exact roundToUI32_correct|lia|lia]. Qed.

Lemma f32_to_i64_correct a rm exact st :
  is_pattern F32 a -> f32_to_i64 a rm exact st = ieee_to_int F32 (- 2 ^ 63) (2 ^ 63 - 1) (int_mode rm) exact a st.
Proof. apply (f32_via64 softfloat_roundToI64 _ _ s64 i64_fromNaN i64_fromNegOverflow i64_fromPosOverflow roundToI64_correct); easy. Qed.

Lemma f32_to_ui64_correct a rm exact st :
  is_pattern F32 a -> f32_to_ui64 a rm exact st = ieee_to_int F32 0 (2 ^ 64 - 1) (int_mode rm) exact a st.
Proof. apply (f32_via64 softfloat_roundToUI64 _ _ (fun x => x) ui64_fromNaN ui64_fromNegOverflow ui64_fromPosOverflow roundToUI64_correct); easy. Qed.

Lemma f64_to_i64_correct a rm exact st :
  is_pattern F64 a -> f64_to_i64 a rm exact st = ieee_to_int F64 (- 2 ^ 63) (2 ^ 63 - 1) (int_mode rm) exact a st.
Proof. apply (f64_via64 softfloat_roundToI64 _ _ s64 i64_fromNaN i64_fromNegOverflow i64_fromPosOverflow roundToI64_correct); easy. Qed.

Lemma f64_to_ui64_correct a rm exact st :
  is_pattern F64 a -> f64_to_ui64 a rm exact st = ieee_to_int F64 0 (2 ^ 64 - 1) (int_mode rm) exact a st.
Proof. apply (f64_via64 softfloat_roundToUI64 _ _ (fun x => x) ui64_fromNaN ui64_fromNegOverflow ui64_fromPosOverflow roundToUI64_correct); easy. Qed.

(** The binary16 conversions go through the 32-bit rounding for every target:
    the values are small. *)

Lemma int_result_bounds lo hi lo' hi' s R x st :
  0 <= R <= hi -> R <= hi' -> lo = lo' /\ lo <= 0 \/ lo <= - R /\ lo' <= - R ->
  (s = true -> lo = lo') \/ lo <= - R /\ lo' <= - R ->
  int_result lo hi s R x st = int_result lo' hi' s R x st.
Proof.
  intros H1 H2 H3 H4. unfold int_result. cbv zeta. destruct s.
  - destruct (Z.leb_spec lo (- R)), (Z.leb_spec lo' (- R)), (Z.leb_spec (- R) hi), (Z.leb_spec (- R) hi'); try lia;
      cbn [andb]; trivial. f_equal. lia.
  - destruct (Z.leb_spec lo R), (Z.leb_spec lo' R), (Z.leb_spec R hi), (Z.leb_spec R hi'); try lia; reflexivity.
Qed.

Section Half.
Variables (a : Z) (rm : rounding_mode) (exact : bool) (st : fp_state).
Notation e := (f_exp F16 a).
Notation m := (f_mant F16 a).
Notation s := (f_sign F16 a).
Hypothesis He : e < 31.
Notation sig := (if 0 <? e - 13 then m * 2 ^ (e - 13) else m).

Lemma half_facts : 0 <= m < 2048 /\ 0 <= e /\ 0 <= sig < 2 ^ 28.
Proof.
  pose proof (f_mant_range F16 fmt_ok_F16 a). pose proof (f_exp_range F16 fmt_ok_F16 a).
  change (2 ^ (fb F16 + 1)) with 2048 in *. split; [lia|]. split; [lia|].
  destruct (Z.ltb_spec 0 (e - 13)); [|lia].
  pose proof (pow2_le (e - 13) 17 ltac:(lia)). pose proof (pow2_pos (e - 13) ltac:(lia)). nia.
Qed.

(** Twelve fraction bits are enough: what does not fit is below one half. *)
Lemma half_round :
  round_shift (int_mode rm) s (f_mag F16 a) (- emin F16) = round_shift (int_mode rm) s sig 12
  /\ cut_exact (f_mag F16 a) (- emin F16) = cut_exact sig 12.
Proof.
  destruct half_facts as (Hm & He0 & _). destruct (value_shift F16 fmt_ok_F16 a wide_F16 (int_mode rm) s) as [-> ->].
  change (1 - emin F16) with 25. destruct (Z.ltb_spec 0 (e - 13)).
  - replace 12 with (25 - e + (e - 13)) by lia. rewrite round_shift_scale, cut_exact_scale by lia. auto.
  - destruct (Z.eq_dec e 13) as [->|]; [auto|]. pose proof (pow2_le 13 (25 - e) ltac:(lia)). apply small_shifts; lia.
Qed.

Lemma half_bound : 0 <= round_shift (int_mode rm) s sig 12 <= 2 ^ 17.
Proof.
  destruct half_facts as (_ & _ & Hs). unfold round_shift. change (12 <=? 0) with false. cbv iota.
  assert (0 <= sig / 2 ^ 12) by (apply Z.div_pos; lia). assert (sig / 2 ^ 12 < 2 ^ 16) by (apply Z.div_lt_upper_bound; lia).
  match goal with |- context [b2z ?b] => pose proof (b2z_range b) end. lia.
Qed.

Lemma half_signed lo hi :
  lo <= - 2 ^ 17 -> 2 ^ 17 <= hi ->
  softfloat_roundToI32 s (u64 sig) rm exact st = ieee_to_int F16 lo hi (int_mode rm) exact a st.
Proof.
  intros Hlo Hhi. destruct half_facts as (_ & _ & Hs). pose proof half_bound. rewrite uwrap_small by lia.
  rewrite roundToI32_correct by lia. rewrite to_int_finite by exact He. destruct half_round as [-> ->].
  apply int_result_bounds; lia.
Qed.

Lemma half_unsigned hi :
  2 ^ 17 <= hi ->
  softfloat_roundToUI32 s sig rm exact st = ieee_to_int F16 0 hi (int_mode rm) exact a st.
Proof.
  intros Hhi. destruct half_facts as (_ & _ & Hs). pose proof half_bound.
  rewrite roundToUI32_correct by lia. rewrite to_int_finite by exact He. destruct half_round as [-> ->].
  apply int_result_bounds; lia.
Qed.

(** From twenty-five on the value is a whole number. *)
Lemma half_whole lo hi :
  25 <= e -> lo <= - 2 ^ 17 \/ s = false /\ lo <= 0 -> 2 ^ 17 <= hi ->
  0 <= m * 2 ^ (e - 25) < 2 ^ 17 /\
  ieee_to_int F16 lo hi (int_mode rm) exact a st = (if s then - (m * 2 ^ (e - 25)) else m * 2 ^ (e - 25), st).
Proof.
  intros He2 Hlo Hhi. destruct half_facts as (Hm & _ & _). pose proof (pow2_le (e - 25) 5 ltac:(lia)).
  pose proof (pow2_pos (e - 25) ltac:(lia)). assert (Hb : 0 <= m * 2 ^ (e - 25) < 2 ^ 17) by nia. split; [exact Hb|].
  rewrite to_int_finite by exact He. destruct (value_shift F16 fmt_ok_F16 a wide_F16 (int_mode rm) s) as [-> ->].
  change (1 - emin F16) with 25. unfold round_shift, cut_exact. destruct (Z.leb_spec (25 - e) 0); [|lia].
  cbn [orb negb]. rewrite andb_false_r. replace (- (25 - e)) with (e - 25) by lia. unfold int_result. cbv zeta. rewrite raise_0.
  replace ((lo <=? _) && (_ <=? hi)) with true; [reflexivity|]. symmetry. apply andb_true_iff. rewrite !Z.leb_le. destruct s; lia.
Qed.
End Half.

Section Half_conversions.
Variables (lo hi : Z) (ret : Z -> Z) (nanv negv posv : Z).
Hypothesis Hret : ret nanv = hi /\ ret negv = lo /\ ret posv = hi.
Hypothesis Hhi : 2 ^ 17 <= hi.

Lemma f16_signed_text a rm exact st :
  lo <= - 2 ^ 17 -> is_pattern F16 a ->
  (let sign := signF16UI a in let exp := expF16UI a in let frac := fracF16UI a in
   let round sig32 := softfloat_roundToI32 sign (u64 sig32) rm exact in
   if exp =? 0x1F then
     softfloat_raiseFlags softfloat_flag_invalid ;;
     fret (ret (if nz frac then nanv else if sign then negv else posv))
   else
   let sig32 := frac in
   if nz exp then
     let sig32 := sig32 .| 0x0400 in
     let shiftDist := s8 (exp - 0x19) in
     if 0 <=? shiftDist then
       let sig32 := s64 (sig32 .<< shiftDist) in
       fret (if sign then s64 (- sig32) else sig32)
     else
       let shiftDist := s8 (exp - 0x0D) in
       round (if 0 <? shiftDist then s64 (sig32 .<< shiftDist) else sig32)
   else round sig32) st
  = ieee_to_int F16 lo hi (int_mode rm) exact a st.
Proof.
  intros Hlo Ha. cbv zeta. rewrite signF16UI_eq, expF16UI_eq, fracF16UI_eq by exact Ha.
  pose proof (f_exp_range F16 fmt_ok_F16 a) as Hx. change (max_exp F16) with 31 in Hx.
  destruct (Z.eqb_spec (f_exp F16 a) 0x1F) as [He|He].
  - rewrite to_int_special by exact He. unfold fbind, fret. cbn. now rewrite (ret_invalid lo hi ret nanv negv posv Hret).
  - assert (He31 : f_exp F16 a < 31) by lia. destruct (half_facts a He31) as (Hm & He0 & Hs).
    pose proof (half_signed a rm exact st He31 lo hi Hlo Hhi) as Hr. rewrite !(swrap_small 8) by lia. on_nz (f_exp F16 a).
    + rewrite (lor_hidden F16) by easy. destruct (Z.leb_spec 0 (f_exp F16 a - 0x19)).
      * destruct (half_whole a rm exact st He31 lo hi ltac:(lia) ltac:(lia) Hhi) as [Hb ->].
        rewrite shiftl_mul, (swrap_small 64 (f_mant F16 a * 2 ^ (f_exp F16 a - 25))) by lia. unfold fret. destruct (f_sign F16 a); [|reflexivity]. now rewrite swrap_small by lia.
      * rewrite <- Hr. change 0x0D with 13. destruct (Z.ltb_spec 0 (f_exp F16 a - 13)); [|reflexivity].
        now rewrite shiftl_mul, swrap_small by lia.
    + rewrite <- Hr. assert (f_mant F16 a = f_frac F16 a) as -> by (unfold f_mant; now rewrite Hnz). now rewrite Hnz.
Qed.

Lemma f16_unsigned_text a rm exact st :
  lo = 0 -> is_pattern F16 a ->
  (let sign := signF16UI a in let exp := expF16UI a in let frac := fracF16UI a in
   let round sig32 := softfloat_roundToUI32 sign sig32 rm exact in
   if exp =? 0x1F then
     softfloat_raiseFlags softfloat_flag_invalid ;;
     fret (ret (if nz frac then nanv else if sign then negv else posv))
   else
   let sig32 := frac in
   if nz exp then
     let sig32 := sig32 .| 0x0400 in
     let shiftDist := s8 (exp - 0x19) in
     if (0 <=? shiftDist) && negb sign then fret (u64 (sig32 .<< shiftDist))
     else
       let shiftDist := s8 (exp - 0x0D) in
       round (if 0 <? shiftDist then u64 (sig32 .<< shiftDist) else sig32)
   else round sig32) st
  = ieee_to_int F16 lo hi (int_mode rm) exact a st.
Proof.
  intros Hlo Ha. cbv zeta. rewrite signF16UI_eq, expF16UI_eq, fracF16UI_eq by exact Ha.
  pose proof (f_exp_range F16 fmt_ok_F16 a) as Hx. change (max_exp F16) with 31 in Hx.
  destruct (Z.eqb_spec (f_exp F16 a) 0x1F) as [He|He].
  - rewrite to_int_special by exact He. unfold fbind, fret. cbn. now rewrite (ret_invalid lo hi ret nanv negv posv Hret).
  - assert (He31 : f_exp F16 a < 31) by lia. destruct (half_facts a He31) as (Hm & He0 & Hs).
    pose proof (half_unsigned a rm exact st He31 hi Hhi) as Hr. replace (ieee_to_int F16 0 hi) with (ieee_to_int F16 lo hi) in Hr by now rewrite Hlo. rewrite !(swrap_small 8) by lia. on_nz (f_exp F16 a).
    + rewrite (lor_hidden F16) by easy. destruct ((0 <=? f_exp F16 a - 0x19) && negb (f_sign F16 a)) eqn:Hw.
      * apply andb_true_iff in Hw as [Hw Hsg]. apply Z.leb_le in Hw. apply negb_true_iff in Hsg.
        destruct (half_whole a rm exact st He31 lo hi ltac:(lia) ltac:(right; split; [exact Hsg|lia]) Hhi) as [Hb ->].
        rewrite Hsg. rewrite shiftl_mul, uwrap_small by lia. reflexivity.
      * rewrite <- Hr. change 0x0D with 13. destruct (Z.ltb_spec 0 (f_exp F16 a - 13)); [|reflexivity].
        now rewrite shiftl_mul, uwrap_small by lia.
    + rewrite <- Hr. assert (f_mant F16 a = f_frac F16 a) as -> by (unfold f_mant; now rewrite Hnz). now rewrite Hnz.
Qed.
End Half_conversions.

Lemma f16_to_i32_correct a rm exact st :
  is_pattern F16 a -> f16_to_i32 a rm exact st = ieee_to_int F16 (- 2 ^ 31) (2 ^ 31 - 1) (int_mode rm) exact a st.
Proof. apply (f16_signed_text _ _ (fun x => x) i32_fromNaN i32_fromNegOverflow i32_fromPosOverflow); easy. Qed.

Lemma f16_to_i64_correct a rm exact st :
  is_pattern F16 a -> f16_to_i64 a rm exact st = ieee_to_int F16 (- 2 ^ 63) (2 ^ 63 - 1) (int_mode rm) exact a st.
Proof. apply (f16_signed_text _ _ s64 i64_fromNaN i64_fromNegOverflow i64_fromPosOverflow); easy. Qed.

Lemma f16_to_ui32_correct a rm exact st :
  is_pattern F16 a -> f16_to_ui32 a rm exact st = ieee_to_int F16 0 (2 ^ 32 - 1) (int_mode rm) exact a st.
Proof. apply (f16_unsigned_text _ _ (fun x => x) ui32_fromNaN ui32_fromNegOverflow ui32_fromPosOverflow); easy. Qed.

Lemma f16_to_ui64_correct a rm exact st :
  is_pattern F16 a -> f16_to_ui64 a rm exact st = ieee_to_int F16 0 (2 ^ 64 - 1) (int_mode rm) exact a st.
Proof. apply (f16_unsigned_text _ _ (fun x => x) ui64_fromNaN ui64_fromNegOverflow ui64_fromPosOverflow); easy. Qed.

(** ** Narrow targets *)

Lemma narrow_range lo hi lo' hi' s R x st :
  lo <= lo' -> hi' <= hi -> lo' <= 0 <= hi' -> 0 <= R ->
  int_result lo' hi' s R x st
  = let (z, st') := int_result lo hi s R x st in
    if hi' <? z then (hi', raise softfloat_flag_invalid st)
    else if z <? lo' then (lo', raise softfloat_flag_invalid st) else (z, st').
Proof.
  intros H1 H2 H3 H4. unfold int_result. cbv zeta. set (V := if s then - R else R).
  assert (HV : s = true /\ V = - R \/ s = false /\ V = R) by (unfold V; destruct s; auto).
  destruct (Z.leb_spec lo' V), (Z.leb_spec V hi'), (Z.leb_spec lo V), (Z.leb_spec V hi); try lia; cbn [andb];
    destruct HV as [[-> HV]|[-> HV]]; repeat case_test; try lia; try reflexivity; f_equal; lia.
Qed.

Lemma narrow_to_int f lo hi lo' hi' rm exact a st :
  fmt_ok f -> lo <= lo' -> hi' <= hi -> lo' <= 0 <= hi' ->
  ieee_to_int f lo' hi' rm exact a st
  = let (z, st') := ieee_to_int f lo hi rm exact a st in
    if hi' <? z then (hi', raise softfloat_flag_invalid st)
    else if z <? lo' then (lo', raise softfloat_flag_invalid st) else (z, st').
Proof.
  intros Hf H1 H2 H3. unfold ieee_to_int. destruct (is_nan f a); [repeat case_test; try lia; f_equal; lia|].
  destruct (is_inf f a); [destruct (f_sign f a); repeat case_test; try lia; f_equal; lia|].
  apply narrow_range; trivial. pose proof (f_mag_nonneg f Hf a). apply round_shift_ge; [lia|].
  pose proof (pow2_pos (Z.max 0 (- - emin f)) ltac:(lia)). nia.
Qed.

Lemma to_int_state f lo hi rm exact a st : exists k, snd (ieee_to_int f lo hi rm exact a st) = raise k st.
Proof.
  unfold ieee_to_int, int_result. cbv zeta. destruct (is_nan f a), (is_inf f a); repeat match goal with |- context [if ?b then (_, raise _ _) else _] => destruct b end; cbn [snd]; eexists; reflexivity.
Qed.

(** The wide conversion followed by the range test that restores the flags. *)
Lemma narrow_text (conv : fp Z) f lo hi lo' hi' rm exact a st :
  conv st = ieee_to_int f lo hi rm exact a st ->
  fmt_ok f -> lo <= lo' -> hi' <= hi -> lo' <= 0 <= hi' ->
  (old_flags <- get_flags ;;
   sig32 <- conv ;;
   if hi' <? sig32 then set_flags (old_flags .| softfloat_flag_invalid) ;; fret hi'
   else if sig32 <? lo' then set_flags (old_flags .| softfloat_flag_invalid) ;; fret lo'
   else fret sig32) st
  = ieee_to_int f lo' hi' rm exact a st.
Proof.
  intros Hc Hf H1 H2 H3. unfold fbind, get_flags, set_flags, fret. rewrite Hc, (narrow_to_int f lo hi lo' hi') by lia || assumption.
  destruct (to_int_state f lo hi rm exact a st) as [k Hk]. destruct (ieee_to_int f lo hi rm exact a st) as [z st'].
  cbn [snd] in Hk. subst st'. destruct (hi' <? z), (z <? lo'); reflexivity.
Qed.

Lemma f16_to_i8_correct a rm exact st :
  is_pattern F16 a -> f16_to_i8 a rm exact st = ieee_to_int F16 (- 2 ^ 7) (2 ^ 7 - 1) (int_mode rm) exact a st.
Proof. intros Ha. apply (narrow_text _ F16 _ _ (- 2 ^ 7) (2 ^ 7 - 1) _ _ _ _ (f16_to_i32_correct a rm exact st Ha)); easy. Qed.

Lemma f16_to_i16_correct a rm exact st :
  is_pattern F16 a -> f16_to_i16 a rm exact st = ieee_to_int F16 (- 2 ^ 15) (2 ^ 15 - 1) (int_mode rm) exact a st.
Proof. intros Ha. apply (narrow_text _ F16 _ _ (- 2 ^ 15) (2 ^ 15 - 1) _ _ _ _ (f16_to_i32_correct a rm exact st Ha)); easy. Qed.

Lemma f32_to_i16_correct a rm exact st :
  is_pattern F32 a -> f32_to_i16 a rm exact st = ieee_to_int F32 (- 2 ^ 15) (2 ^ 15 - 1) (int_mode rm) exact a st.
Proof. intros Ha. apply (narrow_text _ F32 _ _ (- 2 ^ 15) (2 ^ 15 - 1) _ _ _ _ (f32_to_i32_correct a rm exact st Ha)); easy. Qed.

(** Unsigned targets need no lower test: the wide conversion delivers no
    negative number. *)
Lemma narrow_unsigned_text (conv : fp Z) f hi hi' rm exact a st :
  conv st = ieee_to_int f 0 hi rm exact a st -> fmt_ok f -> 0 <= hi' <= hi ->
  (old_flags <- get_flags ;;
   sig32 <- conv ;;
   if hi' <? sig32 then set_flags (old_flags .| softfloat_flag_invalid) ;; fret hi' else fret sig32) st
  = ieee_to_int f 0 hi' rm exact a st.
Proof.
  intros Hc Hf Hhi. rewrite <- (narrow_text conv f 0 hi 0 hi') by lia || assumption.
  unfold fbind, get_flags, fret. rewrite Hc. destruct (ieee_to_int f 0 hi rm exact a st) as [z st'] eqn:Hz.
  destruct (hi' <? z); [reflexivity|]. destruct (Z.ltb_spec z 0) as [Hneg|]; [exfalso|reflexivity].
  assert (0 <= fst (ieee_to_int f 0 hi rm exact a st)); [|rewrite Hz in *; simpl in *; lia].
  unfold ieee_to_int, int_result. cbv zeta. destruct (is_nan f a), (is_inf f a), (f_sign f a); cbn [fst]; try lia; repeat case_test; cbn [andb fst]; lia.
Qed.

Lemma f16_to_ui8_correct a rm exact st :
  is_pattern F16 a -> f16_to_ui8 a rm exact st = ieee_to_int F16 0 (2 ^ 8 - 1) (int_mode rm) exact a st.
Proof. intros Ha. apply (narrow_unsigned_text _ F16 _ (2 ^ 8 - 1) _ _ _ _ (f16_to_ui32_correct a rm exact st Ha)); easy. Qed.

Lemma f16_to_ui16_correct a rm exact st :
  is_pattern F16 a -> f16_to_ui16 a rm exact st = ieee_to_int F16 0 (2 ^ 16 - 1) (int_mode rm) exact a st.
Proof. intros Ha. apply (narrow_unsigned_text _ F16 _ (2 ^ 16 - 1) _ _ _ _ (f16_to_ui32_correct a rm exact st Ha)); easy. Qed.

Lemma f32_to_ui16_correct a rm exact st :
  is_pattern F32 a -> f32_to_ui16 a rm exact st = ieee_to_int F32 0 (2 ^ 16 - 1) (int_mode rm) exact a st.
Proof. intros Ha. apply (narrow_unsigned_text _ F32 _ (2 ^ 16 - 1) _ _ _ _ (f32_to_ui32_correct a rm exact st Ha)); easy. Qed.
