(* ===== verification/SFTrunc.v ===== *)
(** * Truncating conversions from floating point to integers

    The twelve [_r_minMag] routines.  They round toward zero whatever the global
    mode and test for inexactness in four different ways (the bits shifted out,
    shifting back and comparing, shifting the bits to the top of a word); each is
    proved equal to [ieee_to_int] in the mode [minMag]. *)

From Stdlib Require Import ZArith Lia Bool List.
From S2P Require Import Prelude SFBase SFSpec SFRound SFValue SFAddSub SFMul SFToInt.

(** ** Truncating conversions *)

Definition f16_to_i32_r_minMag (a : Z) (exact : bool) : fp Z :=
  let uiA := a in
  let exp := expF16UI uiA in
  let frac := fracF16UI uiA in
  let shiftDist := s8 (exp - 0x0F) in
  if shiftDist <? 0 then
    raise_inexact_if (exact && nz (exp .| frac)) ;;
    fret 0
  else
    let sign := signF16UI uiA in
    if exp =? 0x1F then
      softfloat_raiseFlags softfloat_flag_invalid ;;
      fret ((if (exp =? 0x1F) && nz frac then i32_fromNaN
            else if sign then i32_fromNegOverflow else i32_fromPosOverflow))
    else
      let alignedSig := s64 ((frac .| 0x0400) .<< shiftDist) in
      raise_inexact_if (exact && nz (alignedSig .& 0x3FF)) ;;
      let z := alignedSig .>> 10 in
      fret (if sign then s64 (- z) else z).

Definition f16_to_ui32_r_minMag (a : Z) (exact : bool) : fp Z :=
  let uiA := a in
  let exp := expF16UI uiA in
  let frac := fracF16UI uiA in
  let shiftDist := s8 (exp - 0x0F) in
  if shiftDist <? 0 then
    raise_inexact_if (exact && nz (exp .| frac)) ;;
    fret 0
  else
    let sign := signF16UI uiA in
    if sign || (exp =? 0x1F) then
      softfloat_raiseFlags softfloat_flag_invalid ;;
      fret ((if (exp =? 0x1F) && nz frac then ui32_fromNaN
            else if sign then ui32_fromNegOverflow else ui32_fromPosOverflow))
    else
      let alignedSig := u64 ((frac .| 0x0400) .<< shiftDist) in
      raise_inexact_if (exact && nz (alignedSig .& 0x3FF)) ;;
      let z := alignedSig .>> 10 in
      fret z.

Definition f16_to_i64_r_minMag (a : Z) (exact : bool) : fp Z :=
  let uiA := a in
  let exp := expF16UI uiA in
  let frac := fracF16UI uiA in
  let shiftDist := s8 (exp - 0x0F) in
  if shiftDist <? 0 then
    raise_inexact_if (exact && nz (exp .| frac)) ;;
    fret 0
  else
    let sign := signF16UI uiA in
    if exp =? 0x1F then
      softfloat_raiseFlags softfloat_flag_invalid ;;
      fret (s64 (if (exp =? 0x1F) && nz frac then i64_fromNaN
            else if sign then i64_fromNegOverflow else i64_fromPosOverflow))
    else
      let alignedSig := s64 ((frac .| 0x0400) .<< shiftDist) in
      raise_inexact_if (exact && nz (alignedSig .& 0x3FF)) ;;
      let z := alignedSig .>> 10 in
      fret (if sign then s64 (- z) else z).

Definition f16_to_ui64_r_minMag (a : Z) (exact : bool) : fp Z :=
  let uiA := a in
  let exp := expF16UI uiA in
  let frac := fracF16UI uiA in
  let shiftDist := s8 (exp - 0x0F) in
  if shiftDist <? 0 then
    raise_inexact_if (exact && nz (exp .| frac)) ;;
    fret 0
  else
    let sign := signF16UI uiA in
    if sign || (exp =? 0x1F) then
      softfloat_raiseFlags softfloat_flag_invalid ;;
      fret ((if (exp =? 0x1F) && nz frac then ui64_fromNaN
            else if sign then ui64_fromNegOverflow else ui64_fromPosOverflow))
    else
      let alignedSig := u64 ((frac .| 0x0400) .<< shiftDist) in
      raise_inexact_if (exact && nz (alignedSig .& 0x3FF)) ;;
      let z := alignedSig .>> 10 in
      fret z.

Definition f32_to_i32_r_minMag (a : Z) (exact : bool) : fp Z :=
  let uiA := a in
  let exp := expF32UI uiA in
  let sig := fracF32UI uiA in
  let shiftDist := s64 (0x9E - exp) in
  if 32 <=? shiftDist then
    raise_inexact_if (exact && nz (exp .| sig)) ;;
    fret 0
  else
    let sign := signF32UI uiA in
    if shiftDist <=? 0 then
      if uiA =? packToF32UI true 0x9E 0 then fret (- 0x7FFFFFFF - 1)
      else
        softfloat_raiseFlags softfloat_flag_invalid ;;
        fret (if (exp =? 0xFF) && nz sig then i32_fromNaN
              else if sign then i32_fromNegOverflow else i32_fromPosOverflow)
    else
      let sig := u64 ((sig .| 0x00800000) .<< 8) in
      let absZ := s64 (sig .>> shiftDist) in
      raise_inexact_if (exact && negb (u64 (u64 absZ .<< shiftDist) =? sig)) ;;
      fret (if sign then s64 (- absZ) else absZ).

Definition f32_to_ui32_r_minMag (a : Z) (exact : bool) : fp Z :=
  let uiA := a in
  let exp := expF32UI uiA in
  let sig := fracF32UI uiA in
  let shiftDist := s64 (0x9E - exp) in
  if 32 <=? shiftDist then
    raise_inexact_if (exact && nz (exp .| sig)) ;;
    fret 0
  else
    let sign := signF32UI uiA in
    if sign || (shiftDist <? 0) then
      softfloat_raiseFlags softfloat_flag_invalid ;;
      fret (if (exp =? 0xFF) && nz sig then ui32_fromNaN
            else if sign then ui32_fromNegOverflow else ui32_fromPosOverflow)
    else
      let sig := u64 ((sig .| 0x00800000) .<< 8) in
      let z := sig .>> shiftDist in
      raise_inexact_if (exact && negb (u64 (z .<< shiftDist) =? sig)) ;;
      fret z.

Definition f32_to_i64_r_minMag (a : Z) (exact : bool) : fp Z :=
  let uiA := a in
  let exp := expF32UI uiA in
  let sig := fracF32UI uiA in
  let shiftDist := s64 (0xBE - exp) in
  if 64 <=? shiftDist then
    raise_inexact_if (exact && nz (exp .| sig)) ;;
    fret 0
  else
    let sign := signF32UI uiA in
    if shiftDist <=? 0 then
      if uiA =? packToF32UI true 0xBE 0 then fret (- 0x7FFFFFFFFFFFFFFF - 1)
      else
        softfloat_raiseFlags softfloat_flag_invalid ;;
        fret (s64 (if (exp =? 0xFF) && nz sig then i64_fromNaN
              else if sign then i64_fromNegOverflow else i64_fromPosOverflow))
    else
      let sig := sig .| 0x00800000 in
      let sig64 := u64 (sig .<< 40) in
      let absZ := s64 (sig64 .>> shiftDist) in
      let shiftDist := s64 (40 - shiftDist) in
      raise_inexact_if (exact && (shiftDist <? 0) && nz (u32 (sig .<< (u64 shiftDist .& 31)))) ;;
      fret (if sign then s64 (- absZ) else absZ).

Definition f32_to_ui64_r_minMag (a : Z) (exact : bool) : fp Z :=
  let uiA := a in
  let exp := expF32UI uiA in
  let sig := fracF32UI uiA in
  let shiftDist := s64 (0xBE - exp) in
  if 64 <=? shiftDist then
    raise_inexact_if (exact && nz (exp .| sig)) ;;
    fret 0
  else
    let sign := signF32UI uiA in
    if sign || (shiftDist <? 0) then
      softfloat_raiseFlags softfloat_flag_invalid ;;
      fret (if (exp =? 0xFF) && nz sig then ui64_fromNaN
            else if sign then ui64_fromNegOverflow else ui64_fromPosOverflow)
    else
      let sig := sig .| 0x00800000 in
      let sig64 := u64 (sig .<< 40) in
      let z := sig64 .>> shiftDist in
      let shiftDist := s64 (40 - shiftDist) in
      raise_inexact_if (exact && (shiftDist <? 0) && nz (u32 (sig .<< (u64 shiftDist .& 31)))) ;;
      fret z.

Definition f64_to_i32_r_minMag (a : Z) (exact : bool) : fp Z :=
  let uiA := a in
  let exp := expF64UI uiA in
  let sig := fracF64UI uiA in
  let shiftDist := s64 (0x433 - exp) in
  if 53 <=? shiftDist then
    raise_inexact_if (exact && nz (exp .| sig)) ;;
    fret 0
  else
    let sign := signF64UI uiA in
    if shiftDist <? 22 then
      if sign && (exp =? 0x41E) && (sig <? 0x0000000000200000) then
        raise_inexact_if (exact && nz sig) ;;
        fret (- 0x7FFFFFFF - 1)
      else
        softfloat_raiseFlags softfloat_flag_invalid ;;
        fret (if (exp =? 0x7FF) && nz sig then i32_fromNaN
              else if sign then i32_fromNegOverflow else i32_fromPosOverflow)
    else
      let sig := sig .| 0x0010000000000000 in
      let absZ := s64 (sig .>> shiftDist) in
      raise_inexact_if (exact && negb (u64 (u64 absZ .<< shiftDist) =? sig)) ;;
      fret (if sign then s64 (- absZ) else absZ).

Definition f64_to_ui32_r_minMag (a : Z) (exact : bool) : fp Z :=
  let uiA := a in
  let exp := expF64UI uiA in
  let sig := fracF64UI uiA in
  let shiftDist := s64 (0x433 - exp) in
  if 53 <=? shiftDist then
    raise_inexact_if (exact && nz (exp .| sig)) ;;
    fret 0
  else
    let sign := signF64UI uiA in
    if sign || (shiftDist <? 21) then
      softfloat_raiseFlags softfloat_flag_invalid ;;
      fret (if (exp =? 0x7FF) && nz sig then ui32_fromNaN
            else if sign then ui32_fromNegOverflow else ui32_fromPosOverflow)
    else
      let sig := sig .| 0x0010000000000000 in
      let z := sig .>> shiftDist in
      raise_inexact_if (exact && negb (u64 (z .<< shiftDist) =? sig)) ;;
      fret z.

Definition f64_to_i64_r_minMag (a : Z) (exact : bool) : fp Z :=
  let uiA := a in
  let sign := signF64UI uiA in
  let exp := expF64UI uiA in
  let sig := fracF64UI uiA in
  let shiftDist := s64 (0x433 - exp) in
  if shiftDist <=? 0 then
    if shiftDist <? -10 then
      if uiA =? packToF64UI true 0x43E 0 then fret (- 0x7FFFFFFFFFFFFFFF - 1)
      else
        softfloat_raiseFlags softfloat_flag_invalid ;;
        fret (s64 (if (exp =? 0x7FF) && nz sig then i64_fromNaN
              else if sign then i64_fromNegOverflow else i64_fromPosOverflow))
    else
      let sig := sig .| 0x0010000000000000 in
      let absZ := s64 (u64 (sig .<< (- shiftDist))) in
      fret (if sign then s64 (- absZ) else absZ)
  else if 53 <=? shiftDist then
    raise_inexact_if (exact && nz (exp .| sig)) ;;
    fret 0
  else
    let sig := sig .| 0x0010000000000000 in
    let absZ := s64 (sig .>> shiftDist) in
    raise_inexact_if (exact && negb (u64 (s64 (absZ .<< shiftDist)) =? sig)) ;;
    fret (if sign then s64 (- absZ) else absZ).

Definition f64_to_ui64_r_minMag (a : Z) (exact : bool) : fp Z :=
  let uiA := a in
  let exp := expF64UI uiA in
  let sig := fracF64UI uiA in
  let shiftDist := s64 (0x433 - exp) in
  if 53 <=? shiftDist then
    raise_inexact_if (exact && nz (exp .| sig)) ;;
    fret 0
  else
    let sign := signF64UI uiA in
    let invalid :=
      softfloat_raiseFlags softfloat_flag_invalid ;;
      fret (if (exp =? 0x7FF) && nz sig then ui64_fromNaN
            else if sign then ui64_fromNegOverflow else ui64_fromPosOverflow) in
    if sign then invalid
    else if shiftDist <=? 0 then
      if shiftDist <? -11 then invalid
      else fret (u64 ((sig .| 0x0010000000000000) .<< (- shiftDist)))
    else
      let sig := sig .| 0x0010000000000000 in
      let z := sig .>> shiftDist in
      raise_inexact_if (exact && nz (u64 (sig .<< (u64 (- shiftDist) .& 63)))) ;;
      fret z.

(** ** The truncating conversions *)

Section Truncate.
Context (f : fmt) (Hf : fmt_ok f) (a : Z) (Ha : is_pattern f a).
Hypothesis Hwide : fb f + 1 < - emin f.
Notation e := (f_exp f a).
Notation m := (f_mant f a).
Notation s := (f_sign f a).
Notation frac := (f_frac f a).
Notation minMag := softfloat_round_minMag.
Variables (lo hi : Z) (exact : bool) (st : fp_state).
Notation spec := (ieee_to_int f lo hi minMag exact a st).

(** Below one. *)
Lemma trunc_tiny :
  e < max_exp f -> e + fb f < 1 - emin f -> lo <= 0 <= hi ->
  spec = (0, raise (if exact && nz (e .| frac) then softfloat_flag_inexact else 0) st).
Proof.
  intros He Hk Hb. pose proof (f_mant_range f Hf a). pose proof (f_exp_range f Hf a). pose proof (f_frac_range f Hf a).
  rewrite to_int_finite by exact He. destruct (value_shift f Hf a Hwide minMag s) as [-> ->].
  pose proof (pow2_le (fb f + 1) (1 - emin f - e) ltac:(destruct Hf; lia)).
  rewrite cut_exact_small by (destruct Hf; lia).
  assert (round_shift minMag s m (1 - emin f - e) = 0) as ->.
  { unfold round_shift. destruct (Z.leb_spec (1 - emin f - e) 0); [destruct Hf; lia|]. rewrite Z.div_small by lia. reflexivity. }
  replace (negb (m =? 0)) with (nz (e .| frac)).
  - unfold int_result. cbv zeta. destruct s; change (- 0) with 0; destruct (Z.leb_spec lo 0), (Z.leb_spec 0 hi); try lia; reflexivity.
  - rewrite nz_lor_frac by lia. pose proof (mant_zero f Hf a). unfold nz. apply eq_true_iff_eq.
    rewrite orb_true_iff, !negb_true_iff, !Z.eqb_neq. lia.
Qed.

(** In range, with the significand shifted left by [c] and then right by [d]. *)
Lemma trunc_in_range c d :
  e < max_exp f -> 0 <= c -> 0 < d -> d = 1 - emin f - e + c ->
  let R := m * 2 ^ c / 2 ^ d in
  lo <= (if s then - R else R) <= hi ->
  spec = (if s then - R else R, raise (if exact && negb ((m * 2 ^ c) mod 2 ^ d =? 0) then softfloat_flag_inexact else 0) st).
Proof.
  intros He Hc Hd Ed R Hb. pose proof (f_mant_range f Hf a). rewrite to_int_finite by exact He.
  destruct (value_shift f Hf a Hwide minMag s) as [-> ->].
  rewrite <- (round_shift_scale minMag s m _ c), <- (cut_exact_scale m _ c), <- Ed by lia.
  assert (round_shift minMag s (m * 2 ^ c) d = R) as -> by (unfold round_shift, R; destruct (Z.leb_spec d 0); [lia|]; simpl; lia).
  unfold cut_exact. destruct (Z.leb_spec d 0); [lia|]. cbn [orb]. unfold int_result. cbv zeta.
  replace ((lo <=? _) && _) with true by (symmetry; apply andb_true_iff; rewrite !Z.leb_le; lia). reflexivity.
Qed.

Lemma trunc_whole :
  e < max_exp f -> 1 - emin f <= e ->
  let R := m * 2 ^ (e - (1 - emin f)) in
  lo <= (if s then - R else R) <= hi -> spec = (if s then - R else R, st).
Proof.
  intros He Hk R Hb. rewrite to_int_finite by exact He. destruct (value_shift f Hf a Hwide minMag s) as [-> ->].
  unfold round_shift, cut_exact. destruct (Z.leb_spec (1 - emin f - e) 0); [|lia]. cbn [orb negb]. rewrite andb_false_r.
  replace (- (1 - emin f - e)) with (e - (1 - emin f)) by lia. fold R. unfold int_result. cbv zeta. rewrite raise_0.
  replace ((lo <=? _) && _) with true by (symmetry; apply andb_true_iff; rewrite !Z.leb_le; lia). reflexivity.
Qed.

(** A negative number for an unsigned target. *)
Lemma trunc_negative :
  lo = 0 -> s = true -> 1 - emin f <= e + fb f -> 0 < e ->
  spec = (if (e =? max_exp f) && nz frac then hi else if s then lo else hi, raise softfloat_flag_invalid st).
Proof.
  intros Hlo Hs Hk He0. pose proof (f_exp_range f Hf a). destruct (Z.eqb_spec e (max_exp f)) as [Hx|Hx].
  - rewrite to_int_special by exact Hx. reflexivity.
  - rewrite to_int_finite by lia. cbn [andb]. destruct (value_shift f Hf a Hwide minMag s) as [-> _].
    pose proof (f_mant_normal f Hf a ltac:(lia)). destruct Hf.
    assert (1 <= round_shift minMag s m (1 - emin f - e)) as HR.
    { apply round_shift_ge; [pose proof (f_mant_range f Hf a); lia|]. rewrite Z.mul_1_l. pose proof (pow2_pos (Z.max 0 (- (1 - emin f - e))) ltac:(lia)).
      assert (2 ^ Z.max 0 (1 - emin f - e) <= 2 ^ fb f * 2 ^ Z.max 0 (- (1 - emin f - e))); [|nia].
      rewrite <- pow2_split by lia. apply pow2_le. lia. }
    unfold int_result. rewrite Hs in *. cbv zeta. destruct (Z.leb_spec lo (- round_shift minMag true m (1 - emin f - e))); [lia|reflexivity].
Qed.

(** At the upper end of a signed target: only the most negative integer fits. *)
Lemma trunc_boundary B e0 :
  lo = - 2 ^ B -> hi = 2 ^ B - 1 -> 0 <= B -> e0 = 1 - emin f + B - fb f -> fb f <= B -> e0 <= e -> 0 < e0 < max_exp f ->
  spec = if a =? sign_bit f true + e0 * 2 ^ fb f then (- 2 ^ B, st)
         else (if (e =? max_exp f) && nz frac then hi else if s then lo else hi, raise softfloat_flag_invalid st).
Proof.
  intros Hlo Hhi HB He0 HfB He Hmax. pose proof (f_exp_range f Hf a). pose proof (f_frac_range f Hf a).
  pose proof (pow2_pos (fb f) ltac:(destruct Hf; lia)) as HF.
  destruct (fields_pattern f Hf true e0 0 ltac:(lia) ltac:(lia)) as (_ & Fs & Fe & Fr). cbv zeta in Fs, Fe, Fr.
  rewrite Z.add_0_r in *. destruct (Z.eqb_spec a (sign_bit f true + e0 * 2 ^ fb f)) as [Heq|Hne].
  - rewrite <- Heq in Fs, Fe, Fr. pose proof (pow2_pos B HB).
    assert (Em : m * 2 ^ (e - (1 - emin f)) = 2 ^ B).
    { unfold f_mant. rewrite Fe, Fr. destruct (Z.eqb_spec e0 0); [lia|].
      rewrite Z.add_0_r, <- pow2_split by (destruct Hf; lia). f_equal. lia. }
    rewrite trunc_whole; rewrite ?Fs, ?Em, ?Hlo, ?Hhi; trivial; destruct Hf; lia.
  - destruct (Z.eqb_spec e (max_exp f)) as [Hx|Hx]; [rewrite to_int_special by exact Hx; reflexivity|].
    rewrite to_int_finite by lia. cbn [andb]. destruct (value_shift f Hf a Hwide minMag s) as [-> _].
    pose proof (f_mant_normal f Hf a ltac:(lia)) as Hmn. pose proof (pow2_pos B HB).
    assert (HR : round_shift minMag s m (1 - emin f - e) = m * 2 ^ (e - (1 - emin f))).
    { unfold round_shift. destruct (Z.leb_spec (1 - emin f - e) 0); [|lia]. f_equal. f_equal. lia. }
    rewrite HR. set (R := m * 2 ^ (e - (1 - emin f))).
    assert (Hge : 2 ^ B <= R).
    { unfold R. replace B with (fb f + (B - fb f)) by lia. destruct Hf. rewrite pow2_split by lia.
      pose proof (pow2_le (B - fb f) (e - (1 - emin f)) ltac:(lia)). pose proof (pow2_pos (B - fb f) ltac:(lia)). nia. }
    assert (Hgt : s = true -> 2 ^ B < R).
    { intros Hs. pose proof (pattern_fields f Hf a Ha) as Hpf. rewrite Hs in Hpf. unfold R in *.
      replace B with (fb f + (B - fb f)) by lia. destruct Hf. rewrite pow2_split by lia.
      destruct (Z.eq_dec e e0) as [E|E].
      - rewrite E in Hpf |- *. replace (e0 - (1 - emin f)) with (B - fb f) by lia. pose proof (pow2_pos (B - fb f) ltac:(lia)).
        assert (2 ^ fb f < m); [|nia]. unfold f_mant. destruct (Z.eqb_spec e 0); lia.
      - pose proof (pow2_le (B - fb f + 1) (e - (1 - emin f)) ltac:(lia)). rewrite pow2_succ in * by lia.
        pose proof (pow2_pos (B - fb f) ltac:(lia)). nia. }
    unfold int_result. cbv zeta. destruct s.
    + specialize (Hgt eq_refl). destruct (Z.leb_spec lo (- R)); [lia|reflexivity].
    + destruct (Z.leb_spec R hi); [lia|]. now rewrite andb_false_r.
Qed.
End Truncate.

(** The inexact test by shifting back. *)
Lemma shift_back x d : 0 <= x < 2 ^ 64 -> 0 < d -> negb (u64 ((x / 2 ^ d) .<< d) =? x) = negb (x mod 2 ^ d =? 0).
Proof.
  intros Hx Hd. pose proof (pow2_pos d ltac:(lia)). pose proof (Z_div_mod_eq_full x (2 ^ d)). pose proof (Z.mod_pos_bound x (2 ^ d) ltac:(lia)).
  assert (0 <= x / 2 ^ d) by (apply Z.div_pos; lia). rewrite shiftl_mul, uwrap_small by nia.
  f_equal. apply eq_true_iff_eq. rewrite !Z.eqb_eq. nia.
Qed.

Lemma div_bound x d B : 0 <= x < 2 ^ (B + d) -> 0 <= d -> 0 <= B -> 0 <= x / 2 ^ d < 2 ^ B.
Proof.
  intros Hx Hd HB. pose proof (pow2_pos d Hd). split; [apply Z.div_pos; lia|].
  apply Z.div_lt_upper_bound; [lia|]. rewrite <- pow2_split by lia. now replace (d + B) with (B + d) by lia.
Qed.

Lemma fbind_raise_if {A} b (k : fp A) st :
  (raise_inexact_if b ;; k) st = k (raise (if b then softfloat_flag_inexact else 0) st).
Proof. unfold fbind. now rewrite raise_if_eq. Qed.

Lemma fbind_invalid (z : Z) st : (softfloat_raiseFlags softfloat_flag_invalid ;; fret z) st = (z, raise softfloat_flag_invalid st).
Proof. reflexivity. Qed.

Section Trunc_F32.
Variables (a : Z) (exact : bool) (st : fp_state).
Hypothesis Ha : is_pattern F32 a.
Notation e := (f_exp F32 a).
Notation m := (f_mant F32 a).

Lemma fields_F32 :
  signF32UI a = f_sign F32 a /\ expF32UI a = e /\ fracF32UI a = f_frac F32 a /\ 0 <= m < 2 ^ 24 /\ 0 <= e <= 255
  /\ (e <> 0 -> f_frac F32 a .| 0x00800000 = m /\ 2 ^ 23 <= m).
Proof.
  repeat split; try apply signF32UI_eq; try apply expF32UI_eq; try apply fracF32UI_eq; try exact Ha;
    try apply (f_mant_range F32 fmt_ok_F32 a); try apply (f_exp_range F32 fmt_ok_F32 a).
  - now apply (lor_hidden F32).
  - now apply (f_mant_normal F32 fmt_ok_F32 a).
Qed.

Lemma f32_to_i32_r_minMag_correct :
  f32_to_i32_r_minMag a exact st = ieee_to_int F32 (- 2 ^ 31) (2 ^ 31 - 1) softfloat_round_minMag exact a st.
Proof.
  destruct fields_F32 as (Hs & He & Hr & Hm & Hx & Hh). unfold f32_to_i32_r_minMag. cbv zeta. rewrite Hs, He, Hr, swrap_small by lia.
  destruct (Z.leb_spec 32 (0x9E - e)).
  - rewrite fbind_raise_if. symmetry. apply trunc_tiny; trivial using fmt_ok_F32, wide_F32;
      change (max_exp F32) with 255; change (emin F32) with (-149); change (fb F32) with 23; lia.
  - destruct Hh as [Hor Hn]; [lia|]. rewrite Hor. destruct (Z.leb_spec (0x9E - e) 0).
    + rewrite (trunc_boundary F32 fmt_ok_F32 a Ha wide_F32 _ _ exact st 31 158) by
        (try reflexivity; change (max_exp F32) with 255; change (fb F32) with 23; lia).
      change (packToF32UI true 0x9E 0) with (sign_bit F32 true + 158 * 2 ^ fb F32).
      destruct (a =? sign_bit F32 true + 158 * 2 ^ fb F32); reflexivity.
    + rewrite (shiftl_mul m 8), (uwrap_small 64 (m * 2 ^ 8)) by lia. rewrite shiftr_div by lia.
      pose proof (pow2_le 32 (31 + (0x9E - e)) ltac:(lia)).
      pose proof (div_bound (m * 2 ^ 8) (0x9E - e) 31 ltac:(lia) ltac:(lia) ltac:(lia)) as Hb.
      rewrite (swrap_small 64 (m * 2 ^ 8 / _)), (uwrap_small 64 (m * 2 ^ 8 / _)) by lia.
      rewrite shift_back, fbind_raise_if by lia.
      rewrite (trunc_in_range F32 fmt_ok_F32 a wide_F32 _ _ exact st 8 (0x9E - e)) by
        (change (max_exp F32) with 255; change (emin F32) with (-149); destruct (f_sign F32 a); lia).
      unfold fret. destruct (f_sign F32 a); [now rewrite swrap_small by lia|reflexivity].
Qed.

Lemma f32_to_ui32_r_minMag_correct :
  f32_to_ui32_r_minMag a exact st = ieee_to_int F32 0 (2 ^ 32 - 1) softfloat_round_minMag exact a st.
Proof.
  destruct fields_F32 as (Hs & He & Hr & Hm & Hx & Hh). unfold f32_to_ui32_r_minMag. cbv zeta. rewrite Hs, He, Hr, swrap_small by lia.
  destruct (Z.leb_spec 32 (0x9E - e)).
  - rewrite fbind_raise_if. symmetry. apply trunc_tiny; trivial using fmt_ok_F32, wide_F32;
      change (max_exp F32) with 255; change (emin F32) with (-149); change (fb F32) with 23; lia.
  - destruct Hh as [Hor Hn]; [lia|]. rewrite Hor. destruct (f_sign F32 a) eqn:Hsg; cbn [orb].
    + rewrite (trunc_negative F32 fmt_ok_F32 a wide_F32) by
        (trivial; change (emin F32) with (-149); change (fb F32) with 23; lia). now rewrite Hsg.
    + destruct (Z.ltb_spec (0x9E - e) 0).
      * rewrite (to_int_overflow F32 fmt_ok_F32 a wide_F32 _ _ _ _ 32) by (try lia; change (emin F32) with (-149); change (fb F32) with 23; lia).
        now rewrite Hsg.
      * rewrite (shiftl_mul m 8), (uwrap_small 64 (m * 2 ^ 8)) by lia. rewrite shiftr_div by lia.
        destruct (Z.eq_dec e 0x9E) as [He2|He2].
        -- rewrite He2. change (0x9E - 0x9E) with 0. rewrite Z.pow_0_r, Z.div_1_r, Z.shiftl_0_r, uwrap_small, Z.eqb_refl by lia.
           rewrite fbind_raise_if. cbn [negb]. rewrite andb_false_r, raise_0.
           rewrite (trunc_whole F32 fmt_ok_F32 a wide_F32) by
             (change (max_exp F32) with 255; change (emin F32) with (-149); rewrite ?Hsg, ?He2; change (158 - (1 - -149)) with 8; lia).
           rewrite Hsg, He2. reflexivity.
        -- pose proof (pow2_le 32 (32 + (0x9E - e)) ltac:(lia)).
           pose proof (div_bound (m * 2 ^ 8) (0x9E - e) 32 ltac:(lia) ltac:(lia) ltac:(lia)) as Hb.
           rewrite shift_back, fbind_raise_if by lia.
           rewrite (trunc_in_range F32 fmt_ok_F32 a wide_F32 _ _ exact st 8 (0x9E - e)) by
             (change (max_exp F32) with 255; change (emin F32) with (-149); rewrite ?Hsg; lia).
           now rewrite Hsg.
Qed.

(** The inexact test of the 64-bit conversions: the bits of the significand
    below the shift, pushed to the top of a word. *)
Lemma low_bits_F32 d : 0 < d < 64 ->
  (s64 (40 - d) <? 0) && nz (u32 (m .<< (u64 (s64 (40 - d)) .& 31))) = negb ((m * 2 ^ 40) mod 2 ^ d =? 0).
Proof.
  intros Hd. rewrite swrap_small by lia. destruct (Z.ltb_spec (40 - d) 0).
  - cbn [andb]. replace (40 - d) with (- (d - 40)) by lia. change 31 with (32 - 1). rewrite (neg_dist_mask 32 5), shl_wrap_zero by lia.
    replace d with (d - 40 + 40) at 2 by lia. rewrite pow2_split, Z.mul_mod_distr_r by (try lia; pose proof (pow2_pos (d - 40)); lia).
    f_equal. apply eq_true_iff_eq. rewrite !Z.eqb_eq. lia.
  - replace (m * 2 ^ 40) with (m * 2 ^ (40 - d) * 2 ^ d) by (rewrite <- Z.mul_assoc, <- pow2_split by lia; do 2 f_equal; lia).
    rewrite Z.mod_mul by (pose proof (pow2_pos d); lia). reflexivity.
Qed.

Lemma f32_to_i64_r_minMag_correct :
  f32_to_i64_r_minMag a exact st = ieee_to_int F32 (- 2 ^ 63) (2 ^ 63 - 1) softfloat_round_minMag exact a st.
Proof.
  destruct fields_F32 as (Hs & He & Hr & Hm & Hx & Hh). unfold f32_to_i64_r_minMag. cbv zeta. rewrite Hs, He, Hr, (swrap_small 64 (0xBE - e)) by lia.
  destruct (Z.leb_spec 64 (0xBE - e)).
  - rewrite fbind_raise_if. symmetry. apply trunc_tiny; trivial using fmt_ok_F32, wide_F32;
      change (max_exp F32) with 255; change (emin F32) with (-149); change (fb F32) with 23; lia.
  - destruct Hh as [Hor Hn]; [lia|]. rewrite Hor. destruct (Z.leb_spec (0xBE - e) 0).
    + rewrite (trunc_boundary F32 fmt_ok_F32 a Ha wide_F32 _ _ exact st 63 190) by
        (try reflexivity; change (max_exp F32) with 255; change (fb F32) with 23; lia).
      change (packToF32UI true 0xBE 0) with (sign_bit F32 true + 190 * 2 ^ fb F32).
      destruct (a =? sign_bit F32 true + 190 * 2 ^ fb F32); [reflexivity|]. rewrite fbind_invalid.
      now rewrite (ret_invalid (- 2 ^ 63) (2 ^ 63 - 1) s64 i64_fromNaN i64_fromNegOverflow i64_fromPosOverflow) by easy.
    + rewrite <- andb_assoc, low_bits_F32, fbind_raise_if by lia. rewrite (shiftl_mul m 40), (uwrap_small 64 (m * 2 ^ 40)), shiftr_div by lia.
      pose proof (pow2_le 64 (63 + (0xBE - e)) ltac:(lia)).
      pose proof (div_bound (m * 2 ^ 40) (0xBE - e) 63 ltac:(lia) ltac:(lia) ltac:(lia)) as Hb.
      rewrite (swrap_small 64 (m * 2 ^ 40 / _)) by lia.
      rewrite (trunc_in_range F32 fmt_ok_F32 a wide_F32 _ _ exact st 40 (0xBE - e)) by
        (change (max_exp F32) with 255; change (emin F32) with (-149); destruct (f_sign F32 a); lia).
      unfold fret. destruct (f_sign F32 a); [now rewrite swrap_small by lia|reflexivity].
Qed.

Lemma f32_to_ui64_r_minMag_correct :
  f32_to_ui64_r_minMag a exact st = ieee_to_int F32 0 (2 ^ 64 - 1) softfloat_round_minMag exact a st.
Proof.
  destruct fields_F32 as (Hs & He & Hr & Hm & Hx & Hh). unfold f32_to_ui64_r_minMag. cbv zeta. rewrite Hs, He, Hr, (swrap_small 64 (0xBE - e)) by lia.
  destruct (Z.leb_spec 64 (0xBE - e)).
  - rewrite fbind_raise_if. symmetry. apply trunc_tiny; trivial using fmt_ok_F32, wide_F32;
      change (max_exp F32) with 255; change (emin F32) with (-149); change (fb F32) with 23; lia.
  - destruct Hh as [Hor Hn]; [lia|]. rewrite Hor. destruct (f_sign F32 a) eqn:Hsg; cbn [orb].
    + rewrite (trunc_negative F32 fmt_ok_F32 a wide_F32) by
        (trivial; change (emin F32) with (-149); change (fb F32) with 23; lia). now rewrite Hsg.
    + destruct (Z.ltb_spec (0xBE - e) 0).
      * rewrite (to_int_overflow F32 fmt_ok_F32 a wide_F32 _ _ _ _ 64) by (try lia; change (emin F32) with (-149); change (fb F32) with 23; lia).
        now rewrite Hsg.
      * rewrite (shiftl_mul m 40), (uwrap_small 64 (m * 2 ^ 40)), shiftr_div by lia.
        destruct (Z.eq_dec e 0xBE) as [He2|He2].
        -- rewrite He2. change (0xBE - 0xBE) with 0. rewrite Z.pow_0_r, Z.div_1_r.
           change (s64 (40 - 0) <? 0) with false. rewrite andb_false_r. cbn [andb]. rewrite fbind_raise_if, raise_0.
           rewrite (trunc_whole F32 fmt_ok_F32 a wide_F32) by
             (change (max_exp F32) with 255; change (emin F32) with (-149); rewrite ?Hsg, ?He2; change (190 - (1 - -149)) with 40; lia).
           rewrite Hsg, He2. reflexivity.
        -- pose proof (pow2_le 64 (64 + (0xBE - e)) ltac:(lia)).
           pose proof (div_bound (m * 2 ^ 40) (0xBE - e) 64 ltac:(lia) ltac:(lia) ltac:(lia)) as Hb.
           rewrite <- andb_assoc, low_bits_F32, fbind_raise_if by lia.
           rewrite (trunc_in_range F32 fmt_ok_F32 a wide_F32 _ _ exact st 40 (0xBE - e)) by
             (change (max_exp F32) with 255; change (emin F32) with (-149); rewrite ?Hsg; lia).
           now rewrite Hsg.
Qed.
End Trunc_F32.

Section Trunc_F64.
Variables (a : Z) (exact : bool) (st : fp_state).
Hypothesis Ha : is_pattern F64 a.
Notation e := (f_exp F64 a).
Notation m := (f_mant F64 a).

Lemma fields_F64 :
  signF64UI a = f_sign F64 a /\ expF64UI a = e /\ fracF64UI a = f_frac F64 a /\ 0 <= m < 2 ^ 53 /\ 0 <= e <= 2047
  /\ (e <> 0 -> f_frac F64 a .| 0x0010000000000000 = m /\ 2 ^ 52 <= m).
Proof.
  repeat split; try apply signF64UI_eq; try apply expF64UI_eq; try apply fracF64UI_eq; try exact Ha;
    try apply (f_mant_range F64 fmt_ok_F64 a); try apply (f_exp_range F64 fmt_ok_F64 a).
  - now apply (lor_hidden F64).
  - now apply (f_mant_normal F64 fmt_ok_F64 a).
Qed.

(** The in-range branch of the routines that shift the bare significand. *)
Lemma trunc_F64 lo hi B :
  0x433 - e > 0 -> e < 2047 -> 53 <= B + (0x433 - e) -> 0 <= B ->
  lo <= - (2 ^ B - 1) \/ f_sign F64 a = false /\ lo <= 0 -> 2 ^ B - 1 <= hi ->
  0 <= m / 2 ^ (0x433 - e) < 2 ^ B /\
  ieee_to_int F64 lo hi softfloat_round_minMag exact a st
  = (if f_sign F64 a then - (m / 2 ^ (0x433 - e)) else m / 2 ^ (0x433 - e),
     raise (if exact && negb (m mod 2 ^ (0x433 - e) =? 0) then softfloat_flag_inexact else 0) st).
Proof.
  intros Hd He HB HB0 Hlo Hhi. destruct fields_F64 as (_ & _ & _ & Hm & Hx & _).
  pose proof (pow2_le 53 (B + (0x433 - e)) ltac:(lia)).
  pose proof (div_bound m (0x433 - e) B ltac:(lia) ltac:(lia) HB0) as Hb. split; [exact Hb|].
  rewrite (trunc_in_range F64 fmt_ok_F64 a wide_F64 _ _ exact st 0 (0x433 - e)); rewrite ?Z.pow_0_r, ?Z.mul_1_r; trivial;
    try (change (max_exp F64) with 2047; change (emin F64) with (-1074); lia).
  destruct (f_sign F64 a); lia.
Qed.

Lemma tiny_F64 lo hi :
  53 <= 0x433 - e -> lo <= 0 <= hi ->
  ieee_to_int F64 lo hi softfloat_round_minMag exact a st
  = (0, raise (if exact && nz (e .| f_frac F64 a) then softfloat_flag_inexact else 0) st).
Proof.
  intros He Hb. apply trunc_tiny; trivial using fmt_ok_F64, wide_F64;
    change (max_exp F64) with 2047; change (emin F64) with (-1074); change (fb F64) with 52; lia.
Qed.

Lemma f64_to_i32_r_minMag_correct :
  f64_to_i32_r_minMag a exact st = ieee_to_int F64 (- 2 ^ 31) (2 ^ 31 - 1) softfloat_round_minMag exact a st.
Proof.
  destruct fields_F64 as (Hs & He & Hr & Hm & Hx & Hh). unfold f64_to_i32_r_minMag. cbv zeta. rewrite Hs, He, Hr, swrap_small by lia.
  destruct (Z.leb_spec 53 (0x433 - e)); [rewrite fbind_raise_if, tiny_F64 by lia; reflexivity|].
  destruct Hh as [Hor Hn]; [lia|]. rewrite Hor. destruct (Z.ltb_spec (0x433 - e) 22).
  - destruct (f_sign F64 a && (e =? 0x41E) && (f_frac F64 a <? 0x0000000000200000)) eqn:Hmin.
    + rewrite !andb_true_iff, Z.eqb_eq, Z.ltb_lt in Hmin. destruct Hmin as [[Hsg He2] Hfr].
      pose proof (f_frac_range F64 fmt_ok_F64 a) as [Hf0 _].
      assert (Hmf : m = 2 ^ 52 + f_frac F64 a) by (unfold f_mant; rewrite He2; reflexivity).
      assert (Hq : m / 2 ^ 21 = 2 ^ 31) by (symmetry; apply Z.div_unique with (r := f_frac F64 a); lia).
      assert (Hmod : m mod 2 ^ 21 = f_frac F64 a) by (symmetry; apply Z.mod_unique_pos with (q := 2 ^ 31); lia).
      rewrite (trunc_in_range F64 fmt_ok_F64 a wide_F64 _ _ exact st 0 21); rewrite ?Z.pow_0_r, ?Z.mul_1_r, ?Hq, ?Hsg;
        try (change (max_exp F64) with 2047; change (emin F64) with (-1074); lia).
      rewrite Hmod, fbind_raise_if. reflexivity.
    + rewrite fbind_invalid. rewrite !andb_false_iff, Z.eqb_neq, Z.ltb_ge in Hmin.
      destruct (Z_lt_le_dec e 0x41F) as [He2|He2].
      * assert (e = 0x41E) as He3 by lia. pose proof (f_frac_range F64 fmt_ok_F64 a) as [Hf0 Hf1].
        assert (Hmf : m = 2 ^ 52 + f_frac F64 a) by (unfold f_mant; rewrite He3; reflexivity).
        rewrite to_int_finite by (change (max_exp F64) with 2047; lia).
        destruct (value_shift F64 fmt_ok_F64 a wide_F64 softfloat_round_minMag (f_sign F64 a)) as [-> _].
        change (1 - emin F64 - e) with (1075 - e). rewrite He3. change (0x41E =? 0x7FF) with false. cbn [andb].
        change (1075 - 0x41E) with 21. unfold round_shift. change (21 <=? 0) with false. cbv iota. cbn [round_up b2z]. rewrite Z.add_0_r.
        assert (2 ^ 31 <= m / 2 ^ 21) by (apply Z.div_le_lower_bound; lia).
        assert (f_sign F64 a = true -> 2 ^ 31 < m / 2 ^ 21) as Hneg.
        { intros Hsg. assert (2 ^ 31 + 1 <= m / 2 ^ 21); [|lia]. apply Z.div_le_lower_bound; [lia|].
          destruct Hmin as [[Hmin|Hmin]|Hmin]; [congruence|lia|]. change 0x200000 with (2 ^ 21) in Hmin. lia. }
        unfold int_result. cbv zeta. destruct (f_sign F64 a).
        -- specialize (Hneg eq_refl). destruct (Z.leb_spec (- 2 ^ 31) (- (m / 2 ^ 21))); [lia|reflexivity].
        -- destruct (Z.leb_spec (m / 2 ^ 21) (2 ^ 31 - 1)); [lia|]. rewrite andb_false_r. reflexivity.
      * rewrite (to_int_overflow F64 fmt_ok_F64 a wide_F64 _ _ _ _ 32) by (try lia; change (emin F64) with (-1074); change (fb F64) with 52; lia).
        reflexivity.
  - destruct (trunc_F64 (- 2 ^ 31) (2 ^ 31 - 1) 31) as [Hb ->]; try lia.
    rewrite shiftr_div by lia. rewrite (swrap_small 64 (m / _)), (uwrap_small 64 (m / _)), shift_back, fbind_raise_if by lia.
    unfold fret. destruct (f_sign F64 a); [now rewrite swrap_small by lia|reflexivity].
Qed.

Lemma f64_to_ui32_r_minMag_correct :
  f64_to_ui32_r_minMag a exact st = ieee_to_int F64 0 (2 ^ 32 - 1) softfloat_round_minMag exact a st.
Proof.
  destruct fields_F64 as (Hs & He & Hr & Hm & Hx & Hh). unfold f64_to_ui32_r_minMag. cbv zeta. rewrite Hs, He, Hr, swrap_small by lia.
  destruct (Z.leb_spec 53 (0x433 - e)); [rewrite fbind_raise_if, tiny_F64 by lia; reflexivity|].
  destruct Hh as [Hor Hn]; [lia|]. rewrite Hor. destruct (f_sign F64 a) eqn:Hsg; cbn [orb].
  - rewrite (trunc_negative F64 fmt_ok_F64 a wide_F64) by
      (trivial; change (emin F64) with (-1074); change (fb F64) with 52; lia). now rewrite Hsg.
  - destruct (Z.ltb_spec (0x433 - e) 21).
    + rewrite (to_int_overflow F64 fmt_ok_F64 a wide_F64 _ _ _ _ 32) by (try lia; change (emin F64) with (-1074); change (fb F64) with 52; lia).
      now rewrite Hsg.
    + destruct (trunc_F64 0 (2 ^ 32 - 1) 32) as [Hb ->]; try lia; [right; split; [exact Hsg|lia]|].
      rewrite shiftr_div, shift_back, fbind_raise_if, Hsg by lia. reflexivity.
Qed.

Lemma f64_to_i64_r_minMag_correct :
  f64_to_i64_r_minMag a exact st = ieee_to_int F64 (- 2 ^ 63) (2 ^ 63 - 1) softfloat_round_minMag exact a st.
Proof.
  destruct fields_F64 as (Hs & He & Hr & Hm & Hx & Hh). unfold f64_to_i64_r_minMag. cbv zeta. rewrite Hs, He, Hr, swrap_small by lia.
  destruct (Z.leb_spec (0x433 - e) 0).
  - destruct Hh as [Hor Hn]; [lia|]. rewrite Hor. destruct (Z.ltb_spec (0x433 - e) (-10)).
    + rewrite (trunc_boundary F64 fmt_ok_F64 a Ha wide_F64 _ _ exact st 63 1086) by
        (try reflexivity; change (max_exp F64) with 2047; change (fb F64) with 52; lia).
      change (packToF64UI true 0x43E 0) with (sign_bit F64 true + 1086 * 2 ^ fb F64).
      destruct (a =? sign_bit F64 true + 1086 * 2 ^ fb F64); [reflexivity|]. rewrite fbind_invalid.
      now rewrite (ret_invalid (- 2 ^ 63) (2 ^ 63 - 1) s64 i64_fromNaN i64_fromNegOverflow i64_fromPosOverflow) by easy.
    + replace (- (0x433 - e)) with (e - 1075) by lia. pose proof (pow2_le (e - 1075) 10 ltac:(lia)).
      pose proof (pow2_pos (e - 1075) ltac:(lia)). assert (0 <= m * 2 ^ (e - 1075) < 2 ^ 63) by nia.
      rewrite shiftl_mul, uwrap_small, (swrap_small 64 (m * _)) by lia.
      rewrite (trunc_whole F64 fmt_ok_F64 a wide_F64) by
        (change (max_exp F64) with 2047; change (1 - emin F64) with 1075; try destruct (f_sign F64 a); lia).
      change (1 - emin F64) with 1075. unfold fret. destruct (f_sign F64 a); [now rewrite swrap_small by lia|reflexivity].
  - destruct (Z.leb_spec 53 (0x433 - e)); [rewrite fbind_raise_if, tiny_F64 by lia; reflexivity|].
    destruct Hh as [Hor Hn]; [lia|]. rewrite Hor.
    destruct (trunc_F64 (- 2 ^ 63) (2 ^ 63 - 1) 63) as [Hb ->]; try lia.
    rewrite shiftr_div by lia. rewrite (swrap_small 64 (m / _)) by lia.
    assert (Hsh : s64 ((m / 2 ^ (0x433 - e)) .<< (0x433 - e)) = (m / 2 ^ (0x433 - e)) .<< (0x433 - e)).
    { pose proof (Z_div_mod_eq_full m (2 ^ (0x433 - e))). pose proof (Z.mod_pos_bound m (2 ^ (0x433 - e)) ltac:(apply pow2_pos; lia)).
      rewrite shiftl_mul by lia. apply swrap_small; [lia|]. pose proof (pow2_pos (0x433 - e) ltac:(lia)). nia. }
    rewrite Hsh, shift_back, fbind_raise_if by lia.
    unfold fret. destruct (f_sign F64 a); [now rewrite swrap_small by lia|reflexivity].
Qed.

Lemma f64_to_ui64_r_minMag_correct :
  f64_to_ui64_r_minMag a exact st = ieee_to_int F64 0 (2 ^ 64 - 1) softfloat_round_minMag exact a st.
Proof.
  destruct fields_F64 as (Hs & He & Hr & Hm & Hx & Hh). unfold f64_to_ui64_r_minMag. cbv zeta. rewrite Hs, He, Hr, swrap_small by lia.
  destruct (Z.leb_spec 53 (0x433 - e)); [rewrite fbind_raise_if, tiny_F64 by lia; reflexivity|].
  destruct Hh as [Hor Hn]; [lia|]. rewrite Hor. destruct (f_sign F64 a) eqn:Hsg.
  - rewrite (trunc_negative F64 fmt_ok_F64 a wide_F64) by
      (trivial; change (emin F64) with (-1074); change (fb F64) with 52; lia). now rewrite Hsg.
  - destruct (Z.leb_spec (0x433 - e) 0).
    + destruct (Z.ltb_spec (0x433 - e) (-11)).
      * rewrite (to_int_overflow F64 fmt_ok_F64 a wide_F64 _ _ _ _ 64) by (try lia; change (emin F64) with (-1074); change (fb F64) with 52; lia).
        now rewrite Hsg.
      * replace (- (0x433 - e)) with (e - 1075) by lia. pose proof (pow2_le (e - 1075) 11 ltac:(lia)).
        pose proof (pow2_pos (e - 1075) ltac:(lia)). assert (0 <= m * 2 ^ (e - 1075) < 2 ^ 64) by nia.
        rewrite shiftl_mul, uwrap_small by lia.
        rewrite (trunc_whole F64 fmt_ok_F64 a wide_F64) by
          (change (max_exp F64) with 2047; change (1 - emin F64) with 1075; rewrite ?Hsg; lia).
        rewrite Hsg. reflexivity.
    + destruct (trunc_F64 0 (2 ^ 64 - 1) 64) as [Hb ->]; try lia; [right; split; [exact Hsg|lia]|].
      change 63 with (64 - 1). rewrite (neg_dist_mask 64 6), shl_wrap_zero, shiftr_div, fbind_raise_if, Hsg by lia. reflexivity.
Qed.
End Trunc_F64.

Section Trunc_F16.
Variables (a : Z) (exact : bool) (st : fp_state).
Hypothesis Ha : is_pattern F16 a.
Notation e := (f_exp F16 a).
Notation m := (f_mant F16 a).

Lemma fields_F16 :
  signF16UI a = f_sign F16 a /\ expF16UI a = e /\ fracF16UI a = f_frac F16 a /\ 0 <= m < 2 ^ 11 /\ 0 <= e <= 31
  /\ (e <> 0 -> f_frac F16 a .| 0x0400 = m).
Proof.
  repeat split; try apply signF16UI_eq; try apply expF16UI_eq; try apply fracF16UI_eq; try exact Ha;
    try apply (f_mant_range F16 fmt_ok_F16 a); try apply (f_exp_range F16 fmt_ok_F16 a).
  now apply (lor_hidden F16).
Qed.

(** Ten fraction bits after the shift. *)
Lemma trunc_F16 lo hi :
  15 <= e < 31 -> lo <= - 2 ^ 16 \/ f_sign F16 a = false /\ lo <= 0 -> 2 ^ 16 <= hi ->
  0 <= m * 2 ^ (e - 15) < 2 ^ 26 /\ 0 <= m * 2 ^ (e - 15) / 2 ^ 10 < 2 ^ 16 /\
  ieee_to_int F16 lo hi softfloat_round_minMag exact a st
  = (if f_sign F16 a then - (m * 2 ^ (e - 15) / 2 ^ 10) else m * 2 ^ (e - 15) / 2 ^ 10,
     raise (if exact && nz ((m * 2 ^ (e - 15)) .& 0x3FF) then softfloat_flag_inexact else 0) st).
Proof.
  intros He Hlo Hhi. destruct fields_F16 as (_ & _ & _ & Hm & _). pose proof (pow2_le (e - 15) 15 ltac:(lia)).
  pose proof (pow2_pos (e - 15) ltac:(lia)). assert (Hx : 0 <= m * 2 ^ (e - 15) < 2 ^ 26) by nia.
  pose proof (div_bound (m * 2 ^ (e - 15)) 10 16 Hx ltac:(lia) ltac:(lia)) as Hb. split; [exact Hx|]. split; [exact Hb|].
  rewrite (trunc_in_range F16 fmt_ok_F16 a wide_F16 _ _ exact st (e - 15) 10) by
    (change (max_exp F16) with 31; change (emin F16) with (-24); try destruct (f_sign F16 a); lia).
  now rewrite (land_mod _ 0x3FF 10) by lia.
Qed.

Lemma tiny_F16 lo hi :
  e < 15 -> lo <= 0 <= hi ->
  ieee_to_int F16 lo hi softfloat_round_minMag exact a st
  = (0, raise (if exact && nz (e .| f_frac F16 a) then softfloat_flag_inexact else 0) st).
Proof.
  intros He Hb. apply trunc_tiny; trivial using fmt_ok_F16, wide_F16;
    change (max_exp F16) with 31; change (emin F16) with (-24); change (fb F16) with 10; lia.
Qed.

Lemma trunc_signed_text lo hi (ret : Z -> Z) nanv negv posv :
  ret nanv = hi /\ ret negv = lo /\ ret posv = hi -> lo <= - 2 ^ 16 -> 2 ^ 16 <= hi ->
  (let exp := expF16UI a in let frac := fracF16UI a in
   let shiftDist := s8 (exp - 0x0F) in
   if shiftDist <? 0 then
     raise_inexact_if (exact && nz (exp .| frac)) ;;
     fret 0
   else
     let sign := signF16UI a in
     if exp =? 0x1F then
       softfloat_raiseFlags softfloat_flag_invalid ;;
       fret (ret (if (exp =? 0x1F) && nz frac then nanv else if sign then negv else posv))
     else
       let alignedSig := s64 ((frac .| 0x0400) .<< shiftDist) in
       raise_inexact_if (exact && nz (alignedSig .& 0x3FF)) ;;
       let z := alignedSig .>> 10 in
       fret (if sign then s64 (- z) else z)) st
  = ieee_to_int F16 lo hi softfloat_round_minMag exact a st.
Proof.
  intros Hret Hlo Hhi. destruct fields_F16 as (Hs & He & Hr & Hm & Hx & Hh). cbv zeta.
  rewrite Hs, He, Hr, (swrap_small 8) by lia. destruct (Z.ltb_spec (e - 0x0F) 0); [rewrite fbind_raise_if, tiny_F16 by lia; reflexivity|].
  rewrite Hh by lia. destruct (Z.eqb_spec e 0x1F) as [Hmax|Hmax].
  - rewrite fbind_invalid, (ret_invalid lo hi ret nanv negv posv Hret), to_int_special by exact Hmax. reflexivity.
  - destruct (trunc_F16 lo hi) as (Ha1 & Hb & ->); try lia.
    change (e - 0x0F) with (e - 15). rewrite shiftl_mul, (swrap_small 64 (m * _)), fbind_raise_if, shiftr_div by lia.
    unfold fret. destruct (f_sign F16 a); [now rewrite swrap_small by lia|reflexivity].
Qed.

Lemma trunc_unsigned_text hi nanv negv posv :
  nanv = hi /\ negv = 0 /\ posv = hi -> 2 ^ 16 <= hi ->
  (let exp := expF16UI a in let frac := fracF16UI a in
   let shiftDist := s8 (exp - 0x0F) in
   if shiftDist <? 0 then
     raise_inexact_if (exact && nz (exp .| frac)) ;;
     fret 0
   else
     let sign := signF16UI a in
     if sign || (exp =? 0x1F) then
       softfloat_raiseFlags softfloat_flag_invalid ;;
       fret (if (exp =? 0x1F) && nz frac then nanv else if sign then negv else posv)
     else
       let alignedSig := u64 ((frac .| 0x0400) .<< shiftDist) in
       raise_inexact_if (exact && nz (alignedSig .& 0x3FF)) ;;
       let z := alignedSig .>> 10 in
       fret z) st
  = ieee_to_int F16 0 hi softfloat_round_minMag exact a st.
Proof.
  intros (-> & -> & ->) Hhi. destruct fields_F16 as (Hs & He & Hr & Hm & Hx & Hh). cbv zeta.
  rewrite Hs, He, Hr, (swrap_small 8) by lia. destruct (Z.ltb_spec (e - 0x0F) 0); [rewrite fbind_raise_if, tiny_F16 by lia; reflexivity|].
  rewrite Hh by lia. destruct (f_sign F16 a) eqn:Hsg; cbn [orb].
  - rewrite (trunc_negative F16 fmt_ok_F16 a wide_F16) by
      (trivial; change (emin F16) with (-24); change (fb F16) with 10; lia). now rewrite Hsg.
  - destruct (Z.eqb_spec e 0x1F) as [Hmax|Hmax].
    + rewrite fbind_invalid, to_int_special by exact Hmax. rewrite Hsg. reflexivity.
    + destruct (trunc_F16 0 hi) as (Ha1 & Hb & ->); try lia; [right; split; [exact Hsg|lia]|].
      change (e - 0x0F) with (e - 15). rewrite shiftl_mul, uwrap_small, fbind_raise_if, shiftr_div, Hsg by lia. reflexivity.
Qed.

Lemma f16_to_i32_r_minMag_correct :
  f16_to_i32_r_minMag a exact st = ieee_to_int F16 (- 2 ^ 31) (2 ^ 31 - 1) softfloat_round_minMag exact a st.
Proof. apply (trunc_signed_text _ _ (fun x => x) i32_fromNaN i32_fromNegOverflow i32_fromPosOverflow); easy. Qed.

Lemma f16_to_i64_r_minMag_correct :
  f16_to_i64_r_minMag a exact st = ieee_to_int F16 (- 2 ^ 63) (2 ^ 63 - 1) softfloat_round_minMag exact a st.
Proof. apply (trunc_signed_text _ _ s64 i64_fromNaN i64_fromNegOverflow i64_fromPosOverflow); easy. Qed.

Lemma f16_to_ui32_r_minMag_correct :
  f16_to_ui32_r_minMag a exact st = ieee_to_int F16 0 (2 ^ 32 - 1) softfloat_round_minMag exact a st.
Proof. apply (trunc_unsigned_text _ ui32_fromNaN ui32_fromNegOverflow ui32_fromPosOverflow); easy. Qed.

Lemma f16_to_ui64_r_minMag_correct :
  f16_to_ui64_r_minMag a exact st = ieee_to_int F16 0 (2 ^ 64 - 1) softfloat_round_minMag exact a st.
Proof. apply (trunc_unsigned_text _ ui64_fromNaN ui64_fromNegOverflow ui64_fromPosOverflow); easy. Qed.
End Trunc_F16.
