(* ===== verification/SFRoundInt.v ===== *)
(** * SoftFloat: rounding to an integral value

    Model of [f16_roundToInt.c], [f32_roundToInt.c], [f64_roundToInt.c] and
    [fall_maxmin.c]: rounding on the bit pattern, by adding to the bits below the
    units and clearing them, and the minimum and maximum. *)

From Stdlib Require Import ZArith Lia Bool List.
From S2P Require Import Prelude SFBase SFSpec SFRound SFValue SFCompare SFToInt SFTrunc.

(** ** The functions of the library *)

Definition f16_roundToInt (a : Z) (roundingMode : rounding_mode) (exact : bool) : fp Z :=
  let uiA := a in
  let exp := expF16UI uiA in
  if exp <=? 0xE then
    if negb (nz (u16 (uiA .<< 1))) then fret a
    else
      raise_inexact_if exact ;;
      let uiZ := uiA .& packToF16UI true 0 0 in
      fret (f16_of_ui
        match roundingMode with
        | softfloat_round_near_even =>
            if negb (nz (fracF16UI uiA)) then uiZ else if exp =? 0xE then uiZ .| packToF16UI false 0xF 0 else uiZ
        | softfloat_round_near_maxMag => if exp =? 0xE then uiZ .| packToF16UI false 0xF 0 else uiZ
        | softfloat_round_min => if nz uiZ then packToF16UI true 0xF 0 else uiZ
        | softfloat_round_max => if negb (nz uiZ) then packToF16UI false 0xF 0 else uiZ
        | _ => uiZ
        end)
  else if 0x19 <=? exp then
    if (exp =? 0x1F) && nz (fracF16UI uiA) then
      uiZ <- softfloat_propagateNaNF16UI uiA 0 ;; fret (f16_of_ui uiZ)
    else fret a
  else
    let lastBitMask := u64 (1 .<< (0x19 - exp)) in
    let roundBitsMask := lastBitMask - 1 in
    let uiZ :=
      match roundingMode with
      | softfloat_round_near_maxMag => u64 (uiA + (lastBitMask .>> 1))
      | softfloat_round_near_even =>
          let uiZ := u64 (uiA + (lastBitMask .>> 1)) in
          if negb (nz (uiZ .& roundBitsMask)) then uiZ .& u64 (Z.lnot lastBitMask) else uiZ
      | _ => if rm_eqb roundingMode (if signF16UI uiA then softfloat_round_min else softfloat_round_max)
             then u64 (uiA + roundBitsMask) else uiA
      end in
    let uiZ := uiZ .& u64 (Z.lnot roundBitsMask) in
    raise_inexact_if (exact && negb (uiZ =? uiA)) ;;
    fret (f16_of_ui uiZ).

Definition f32_roundToInt (a : Z) (roundingMode : rounding_mode) (exact : bool) : fp Z :=
  let uiA := a in
  let exp := expF32UI uiA in
  if exp <=? 0x7E then
    if negb (nz (u32 (uiA .<< 1))) then fret a
    else
      raise_inexact_if exact ;;
      let uiZ := uiA .& packToF32UI true 0 0 in
      fret (f32_of_ui
        match roundingMode with
        | softfloat_round_near_even =>
            if negb (nz (fracF32UI uiA)) then uiZ else if exp =? 0x7E then uiZ .| packToF32UI false 0x7F 0 else uiZ
        | softfloat_round_near_maxMag => if exp =? 0x7E then uiZ .| packToF32UI false 0x7F 0 else uiZ
        | softfloat_round_min => if nz uiZ then packToF32UI true 0x7F 0 else uiZ
        | softfloat_round_max => if negb (nz uiZ) then packToF32UI false 0x7F 0 else uiZ
        | _ => uiZ
        end)
  else if 0x96 <=? exp then
    if (exp =? 0xFF) && nz (fracF32UI uiA) then
      uiZ <- softfloat_propagateNaNF32UI uiA 0 ;; fret (f32_of_ui uiZ)
    else fret a
  else
    let lastBitMask := u64 (1 .<< (0x96 - exp)) in
    let roundBitsMask := lastBitMask - 1 in
    let uiZ :=
      match roundingMode with
      | softfloat_round_near_maxMag => u64 (uiA + (lastBitMask .>> 1))
      | softfloat_round_near_even =>
          let uiZ := u64 (uiA + (lastBitMask .>> 1)) in
          if negb (nz (uiZ .& roundBitsMask)) then uiZ .& u64 (Z.lnot lastBitMask) else uiZ
      | _ => if rm_eqb roundingMode (if signF32UI uiA then softfloat_round_min else softfloat_round_max)
             then u64 (uiA + roundBitsMask) else uiA
      end in
    let uiZ := uiZ .& u64 (Z.lnot roundBitsMask) in
    raise_inexact_if (exact && negb (uiZ =? uiA)) ;;
    fret (f32_of_ui uiZ).

Definition f64_roundToInt (a : Z) (roundingMode : rounding_mode) (exact : bool) : fp Z :=
  let uiA := a in
  let exp := expF64UI uiA in
  if exp <=? 0x3FE then
    if negb (nz (uiA .& 0x7FFFFFFFFFFFFFFF)) then fret a
    else
      raise_inexact_if exact ;;
      let uiZ := uiA .& packToF64UI true 0 0 in
      fret (f64_of_ui
        match roundingMode with
        | softfloat_round_near_even =>
            if negb (nz (fracF64UI uiA)) then uiZ else if exp =? 0x3FE then uiZ .| packToF64UI false 0x3FF 0 else uiZ
        | softfloat_round_near_maxMag => if exp =? 0x3FE then uiZ .| packToF64UI false 0x3FF 0 else uiZ
        | softfloat_round_min => if nz uiZ then packToF64UI true 0x3FF 0 else uiZ
        | softfloat_round_max => if negb (nz uiZ) then packToF64UI false 0x3FF 0 else uiZ
        | _ => uiZ
        end)
  else if 0x433 <=? exp then
    if (exp =? 0x7FF) && nz (fracF64UI uiA) then
      uiZ <- softfloat_propagateNaNF64UI uiA 0 ;; fret (f64_of_ui uiZ)
    else fret a
  else
    let lastBitMask := u64 (1 .<< (0x433 - exp)) in
    let roundBitsMask := lastBitMask - 1 in
    let uiZ :=
      match roundingMode with
      | softfloat_round_near_maxMag => u64 (uiA + (lastBitMask .>> 1))
      | softfloat_round_near_even =>
          let uiZ := u64 (uiA + (lastBitMask .>> 1)) in
          if negb (nz (uiZ .& roundBitsMask)) then uiZ .& u64 (Z.lnot lastBitMask) else uiZ
      | _ => if rm_eqb roundingMode (if signF64UI uiA then softfloat_round_min else softfloat_round_max)
             then u64 (uiA + roundBitsMask) else uiA
      end in
    let uiZ := uiZ .& u64 (Z.lnot roundBitsMask) in
    raise_inexact_if (exact && negb (uiZ =? uiA)) ;;
    fret (f64_of_ui uiZ).

(** [COMPARE_MAX] and [COMPARE_MIN] at the three widths. *)
Definition f16_max (a b : Z) : fp Z :=
  lt <- f16_lt_quiet b a ;;
  greater <- (if lt then fret true else eq <- f16_eq b a ;; fret (eq && signF16UI b)) ;;
  if isNaNF16UI a && isNaNF16UI b then fret (f16_of_ui defaultNaNF16UI)
  else fret (if greater || isNaNF16UI b then a else b).

Definition f16_min (a b : Z) : fp Z :=
  lt <- f16_lt_quiet a b ;;
  less <- (if lt then fret true else eq <- f16_eq a b ;; fret (eq && signF16UI a)) ;;
  if isNaNF16UI a && isNaNF16UI b then fret (f16_of_ui defaultNaNF16UI)
  else fret (if less || isNaNF16UI b then a else b).

Definition f32_max (a b : Z) : fp Z :=
  lt <- f32_lt_quiet b a ;;
  greater <- (if lt then fret true else eq <- f32_eq b a ;; fret (eq && signF32UI b)) ;;
  if isNaNF32UI a && isNaNF32UI b then fret (f32_of_ui defaultNaNF32UI)
  else fret (if greater || isNaNF32UI b then a else b).

Definition f32_min (a b : Z) : fp Z :=
  lt <- f32_lt_quiet a b ;;
  less <- (if lt then fret true else eq <- f32_eq a b ;; fret (eq && signF32UI a)) ;;
  if isNaNF32UI a && isNaNF32UI b then fret (f32_of_ui defaultNaNF32UI)
  else fret (if less || isNaNF32UI b then a else b).

Definition f64_max (a b : Z) : fp Z :=
  lt <- f64_lt_quiet b a ;;
  greater <- (if lt then fret true else eq <- f64_eq b a ;; fret (eq && signF64UI b)) ;;
  if isNaNF64UI a && isNaNF64UI b then fret (f64_of_ui defaultNaNF64UI)
  else fret (if greater || isNaNF64UI b then a else b).

Definition f64_min (a b : Z) : fp Z :=
  lt <- f64_lt_quiet a b ;;
  less <- (if lt then fret true else eq <- f64_eq a b ;; fret (eq && signF64UI a)) ;;
  if isNaNF64UI a && isNaNF64UI b then fret (f64_of_ui defaultNaNF64UI)
  else fret (if less || isNaNF64UI b then a else b).

(** ** The reference *)

(** The value rounded to an integer once; the sign of a zero stays.  Inexact is the
    only flag of a number, and only when it is asked for. *)
Definition ieee_round_to_int (f : fmt) (rm : rounding_mode) (exact : bool) (a : Z) : fp Z := fun st =>
  if is_nan f a then ieee_nan f (is_snan f a) st
  else if is_inf f a then (a, st)
  else
    let s := f_sign f a in
    let R := round_shift rm s (f_mag f a) (- emin f) in
    ieee_round f (fun _ => s) (if s then - R else R) 0
      (raise (if exact && negb (cut_exact (f_mag f a) (- emin f)) then softfloat_flag_inexact else 0) st).

(** The larger and the smaller number; a NaN loses to a number, two give the default
    NaN; a zero with a sign is below one without. *)
Definition ieee_minmax (f : fmt) (first : bool) (a b : Z) : fp Z := fun st =>
  (if is_nan f a && is_nan f b then default_nan f
   else if is_nan f b then a else if is_nan f a then b else if first then a else b,
   raise (if is_snan f a || is_snan f b then softfloat_flag_invalid else 0) st).

Definition below (f : fmt) (a b : Z) : bool := (f_val f a <? f_val f b) || (f_val f a =? f_val f b) && f_sign f a.
Definition ieee_max (f : fmt) (a b : Z) : fp Z := ieee_minmax f (below f b a) a b.
Definition ieee_min (f : fmt) (a b : Z) : fp Z := ieee_minmax f (below f a b) a b.

(** ** Rounding the bits above the units *)

Section Bits.
Context (k : Z) (Hk : 0 < k).

Lemma half_pow : 2 ^ k = 2 * 2 ^ (k - 1).
Proof. rewrite <- Z.pow_succ_r by lia. f_equal. lia. Qed.

Lemma add_half A : (A + 2 ^ (k - 1)) / 2 ^ k = A / 2 ^ k + b2z (2 ^ k <=? 2 * (A mod 2 ^ k)).
Proof.
  pose proof (pow2_pos (k - 1)). pose proof half_pow. pose proof (Z_div_mod_eq_full A (2 ^ k)). pose proof (Z.mod_pos_bound A (2 ^ k)).
  symmetry. destruct (Z.leb_spec (2 ^ k) (2 * (A mod 2 ^ k))); unfold b2z.
  - apply Z.div_unique with (r := A mod 2 ^ k - 2 ^ (k - 1)); lia.
  - apply Z.div_unique with (r := A mod 2 ^ k + 2 ^ (k - 1)); lia.
Qed.

Lemma add_half_mod A : (A + 2 ^ (k - 1)) mod 2 ^ k =? 0 = (2 * (A mod 2 ^ k) =? 2 ^ k).
Proof.
  pose proof (pow2_pos (k - 1)). pose proof half_pow. pose proof (Z.mod_pos_bound A (2 ^ k)).
  rewrite <- Zplus_mod_idemp_l. apply eq_true_iff_eq. rewrite !Z.eqb_eq. split; intros E.
  - destruct (Z.lt_ge_cases (A mod 2 ^ k) (2 ^ (k - 1))); [rewrite Z.mod_small in E by lia; lia|].
    rewrite <- (Z.mod_unique _ _ 1 (A mod 2 ^ k + 2 ^ (k - 1) - 2 ^ k)) in E by lia. lia.
  - replace (A mod 2 ^ k + 2 ^ (k - 1)) with (2 ^ k) by lia. apply Z.mod_same. lia.
Qed.

Lemma add_ones A : (A + (2 ^ k - 1)) / 2 ^ k = A / 2 ^ k + b2z (negb (A mod 2 ^ k =? 0)).
Proof.
  pose proof (pow2_pos (k - 1)). pose proof half_pow. pose proof (Z_div_mod_eq_full A (2 ^ k)). pose proof (Z.mod_pos_bound A (2 ^ k)).
  symmetry. destruct (Z.eqb_spec (A mod 2 ^ k) 0); unfold negb, b2z.
  - apply Z.div_unique with (r := 2 ^ k - 1); lia.
  - apply Z.div_unique with (r := A mod 2 ^ k - 1); lia.
Qed.

(** What the routines add and clear. *)
Definition units_text (rm : rounding_mode) (s : bool) (A : Z) : Z :=
  match rm with
  | softfloat_round_near_maxMag => (A + 2 ^ (k - 1)) / 2 ^ k
  | softfloat_round_near_even =>
      let z := (A + 2 ^ (k - 1)) / 2 ^ k in
      if (A + 2 ^ (k - 1)) mod 2 ^ k =? 0 then z - b2z (Z.odd z) else z
  | _ => if rm_eqb rm (if s then softfloat_round_min else softfloat_round_max) then (A + (2 ^ k - 1)) / 2 ^ k else A / 2 ^ k
  end.

Lemma units_text_correct rm s A : units_text rm s A = round_shift (int_mode rm) s A k.
Proof.
  unfold round_shift, units_text. destruct (Z.leb_spec k 0); [lia|]. rewrite ?add_half_mod, ?add_half, ?add_ones.
  pose proof (Z.mod_pos_bound A (2 ^ k)). pose proof (pow2_pos k). set (q := A / 2 ^ k). set (r := A mod 2 ^ k) in *.
  destruct rm; cbn [int_mode round_up rm_eqb].
  - destruct (Z.compare_spec (2 * r) (2 ^ k)), (Z.eqb_spec (2 * r) (2 ^ k)), (Z.leb_spec (2 ^ k) (2 * r)); try lia; unfold b2z at 1; cbn [b2z].
    rewrite Z.odd_add. cbn. destruct (Z.odd q); cbn; lia.
  - destruct s; cbn; lia.
  - destruct s; cbn; [reflexivity|lia].
  - destruct s; cbn; [lia|reflexivity].
  - destruct (Z.compare_spec (2 * r) (2 ^ k)), (Z.leb_spec (2 ^ k) (2 * r)); try lia; reflexivity.
  - destruct s; cbn; lia.
Qed.

(** Bits above the units do not matter when they leave the parity alone. *)
Lemma round_shift_above rm s t A : round_shift rm s (2 ^ (k + 1) * t + A) k = 2 * t + round_shift rm s A k.
Proof.
  unfold round_shift. destruct (Z.leb_spec k 0); [lia|]. pose proof (pow2_pos k). rewrite pow2_succ by lia.
  replace (2 * 2 ^ k * t + A) with (A + 2 * t * 2 ^ k) by lia. rewrite Z.div_add, Z_mod_plus_full by lia.
  replace (Z.odd (A / 2 ^ k + 2 * t)) with (Z.odd (A / 2 ^ k)) by (rewrite Z.odd_add, Z.odd_mul; simpl; now rewrite xorb_false_r). lia.
Qed.

Lemma round_shift_whole rm s A : A mod 2 ^ k = 0 -> round_shift rm s A k * 2 ^ k = A.
Proof.
  intros E. unfold round_shift. destruct (Z.leb_spec k 0); [lia|]. pose proof (pow2_pos k). pose proof (Z_div_mod_eq_full A (2 ^ k)).
  rewrite E, Z.mul_0_r. replace (0 ?= 2 ^ k) with Lt by (symmetry; apply Z.compare_lt_iff; lia). rewrite round_up_exact. unfold b2z. lia.
Qed.
End Bits.

(** ** Integers in a format *)

Section Format.
Context (f : fmt) (Hf : fmt_ok f) (Hwide : 3 <= eb f) (Hnarrow : fb f < 2 ^ (eb f - 1)).

(** The exponent field of one. *)
Definition bias : Z := 2 ^ (eb f - 1) - 1.

Lemma emin_bias : emin f = 1 - bias - fb f.
Proof. unfold emin, bias. lia. Qed.

Lemma bias_facts : 3 <= bias /\ fb f <= bias /\ 2 * bias = max_exp f - 1 /\ Z.odd bias = true.
Proof.
  destruct Hf. unfold bias, max_exp. pose proof (pow2_le 2 (eb f - 1) ltac:(lia)). assert (2 ^ eb f = 2 * 2 ^ (eb f - 1)) by (rewrite <- Z.pow_succ_r by lia; f_equal; lia).
  repeat split; [lia|lia|lia|]. rewrite Z.odd_sub. replace (2 ^ (eb f - 1)) with (2 * 2 ^ (eb f - 2)) by (rewrite <- Z.pow_succ_r by lia; f_equal; lia).
  now rewrite Z.odd_mul.
Qed.

(** A significand [M] at the exponent field [e], or one more than fits it. *)
Lemma round_whole s e M n st :
  1 <= e -> e + 1 < max_exp f -> 2 ^ fb f <= M <= 2 ^ (fb f + 1) -> 0 <= n -> e - 1 + emin f = - n ->
  forall R, R * 2 ^ n = M -> round_result f s R 0 st = (sign_bit f s + (e - 1) * 2 ^ fb f + M, st).
Proof.
  intros He Hmax HM Hn Hen R HR. destruct Hf as [Hfb Heb]. pose proof (pow2_pos (fb f) ltac:(lia)). pose proof (pow2_pos n Hn).
  assert (0 < R) by nia. rewrite <- (round_result_scale f s R 0 n) by lia. rewrite HR. replace (0 - n) with (e - 1 + emin f) by lia.
  assert ((e + 1) * 2 ^ fb f < inf_mag f) by (unfold inf_mag; nia). rewrite pow2_succ in HM by lia.
  destruct (Z.eq_dec M (2 * 2 ^ fb f)) as [->|].
  - replace (2 * 2 ^ fb f) with (2 ^ fb f * 2 ^ 1) at 1 by lia. replace (e - 1 + emin f) with (e + emin f - 1) by lia.
    rewrite round_result_scale by lia. rewrite (round_result_pack f Hf s e) by (first [nia|rewrite pow2_succ by lia; lia|left; lia]). f_equal. lia.
  - apply round_result_pack; [split; lia|lia|rewrite pow2_succ by lia; lia|lia|nia].
Qed.

Section Operand.
Variables (a : Z) (rm : rounding_mode) (exact : bool) (st : fp_state).
Hypothesis Ha : is_pattern f a.
Notation e := (f_exp f a).
Notation m := (f_frac f a).
Notation s := (f_sign f a).

Definition small_text : Z :=
  let z := sign_bit f s in
  match rm with
  | softfloat_round_near_even => if m =? 0 then z else if e =? bias - 1 then z + bias * 2 ^ fb f else z
  | softfloat_round_near_maxMag => if e =? bias - 1 then z + bias * 2 ^ fb f else z
  | softfloat_round_min => if s then sign_bit f true + bias * 2 ^ fb f else z
  | softfloat_round_max => if s then z else sign_bit f false + bias * 2 ^ fb f
  | _ => z
  end.

(** The text of the three routines. *)
Definition round_int_text : fp Z := fun st =>
  if e <=? bias - 1 then
    if a mod 2 ^ (fb f + eb f) =? 0 then (a, st)
    else (small_text, raise (if exact then softfloat_flag_inexact else 0) st)
  else if bias + fb f <=? e then
    if (e =? max_exp f) && negb (m =? 0) then ieee_nan f (is_snan f a) st else (a, st)
  else
    let z := units_text (bias + fb f - e) rm s a * 2 ^ (bias + fb f - e) in
    (z, raise (if exact && negb (z =? a) then softfloat_flag_inexact else 0) st).

Lemma magnitude_zero : (a mod 2 ^ (fb f + eb f) =? 0) = (f_mag f a =? 0).
Proof.
  rewrite (mag_bits_pattern f Hf a Ha) at 1. pose proof (mag_bits_range f Hf a). pose proof (mag_bits_zero f Hf a).
  replace ((sign_bit f s + mag_bits f a) mod 2 ^ (fb f + eb f)) with (mag_bits f a);
    [apply eq_true_iff_eq; rewrite !Z.eqb_eq; assumption|].
  unfold sign_bit. destruct s; [|now rewrite Z.mod_small by lia]. apply Z.mod_unique with (q := 1); lia.
Qed.

Lemma finite_small : e < max_exp f -> is_nan f a = false /\ is_inf f a = false.
Proof. intros He. unfold is_nan, is_inf. destruct (Z.eqb_spec e (max_exp f)); [lia|easy]. Qed.

Lemma round_one st' : round_result f s 1 0 st' = (sign_bit f s + bias * 2 ^ fb f, st').
Proof.
  destruct bias_facts as (H1 & Hfm & H2 & _). destruct Hf. pose proof (pow2_pos (fb f) ltac:(lia)).
  rewrite (round_whole s bias (2 ^ fb f) (fb f)); rewrite ?pow2_succ, ?emin_bias by lia; try lia. f_equal. lia.
Qed.

(** Below one: the magnitude rounds to zero or one. *)
Lemma small_text_correct : e <= bias - 1 -> f_mag f a <> 0 ->
  ieee_round_to_int f (int_mode rm) exact a st = (small_text, raise (if exact then softfloat_flag_inexact else 0) st).
Proof.
  intros He Hm0. destruct bias_facts as (H1 & Hfm & H2 & _). destruct Hf as [Hfb Heb]. destruct finite_small as [En Ei]; [lia|].
  unfold ieee_round_to_int. rewrite En, Ei. cbv zeta. set (k := - emin f). assert (Hk : k = bias + fb f - 1) by (unfold k; rewrite emin_bias; lia).
  pose proof (f_mag_nonneg f Hf a). pose proof (f_mant_range f Hf a). pose proof (f_mant_normal f Hf a).
  assert (Hlt : f_mag f a < 2 ^ k /\ (2 * f_mag f a ?= 2 ^ k) = (if e =? bias - 1 then if m =? 0 then Eq else Gt else Lt)).
  { unfold f_mag, f_shift, f_mant in *. rewrite pow2_succ in * by lia. pose proof (pow2_pos (fb f) ltac:(lia)). pose proof (f_frac_range f Hf a).
    assert (2 ^ k = 2 * 2 ^ fb f * 2 ^ (bias - 2)) as -> by (rewrite <- pow2_succ, <- pow2_split by lia; f_equal; lia).
    pose proof (pow2_pos (bias - 2) ltac:(lia)). destruct (Z.eqb_spec e (bias - 1)) as [->|Hne].
    - destruct (Z.eqb_spec (bias - 1) 0); [lia|]. replace (Z.max (bias - 1) 1 - 1) with (bias - 2) by lia. split; [nia|].
      destruct (Z.eqb_spec m 0) as [->|]; [apply Z.compare_eq_iff; lia|apply Z.compare_gt_iff; nia].
    - assert (2 * 2 ^ (Z.max e 1 - 1) <= 2 ^ (bias - 2)) by (rewrite <- (pow2_succ (Z.max e 1 - 1)) by lia; apply pow2_le; lia).
      pose proof (pow2_pos (Z.max e 1 - 1) ltac:(lia)). rewrite Z.compare_lt_iff. split; nia. }
  destruct Hlt as [Hlt Hcmp]. assert (Hd : f_mag f a / 2 ^ k = 0 /\ f_mag f a mod 2 ^ k = f_mag f a) by (split; [apply Z.div_small|apply Z.mod_small]; lia).
  unfold round_shift, cut_exact. destruct (Z.leb_spec k 0); [lia|]. destruct Hd as [-> ->]. rewrite Hcmp. destruct (Z.eqb_spec (f_mag f a) 0); [lia|].
  cbn [orb negb Z.odd]. rewrite andb_true_r, Z.add_0_l. set (st' := raise _ st).
  assert (Hone : forall b : bool, ieee_round f (fun _ => s) (if s then - b2z b else b2z b) 0 st' = (sign_bit f s + (if b then bias * 2 ^ fb f else 0), st')).
  { intros [|]; unfold b2z; [rewrite ieee_round_sign by lia; apply round_one|]. replace (if s then - 0 else 0) with 0 by (now destruct s).
    unfold ieee_round. simpl. now rewrite Z.add_0_r. }
  rewrite Hone. unfold small_text. f_equal.
  destruct rm; cbn [int_mode round_up negb andb]; destruct s; cbn [andb negb]; try destruct (e =? bias - 1); try destruct (m =? 0); cbn; lia.
Qed.

(** Without a fraction: the number is an integer. *)
Lemma large_correct : bias + fb f <= e -> e < max_exp f -> ieee_round_to_int f (int_mode rm) exact a st = (a, st).
Proof.
  intros He Hmax. destruct bias_facts as (H1 & Hfm & H2 & _). pose proof Hf as [Hfb Heb]. destruct (finite_small Hmax) as [En Ei].
  unfold ieee_round_to_int. rewrite En, Ei. cbv zeta. set (k := - emin f). assert (Hk : k = bias + fb f - 1) by (unfold k; rewrite emin_bias; lia).
  pose proof (f_mant_normal f Hf a ltac:(lia)). pose proof (pow2_pos (fb f) ltac:(lia)). pose proof (pow2_pos k ltac:(lia)).
  assert (Hmag : f_mag f a = f_mant f a * 2 ^ (e - 1 - k) * 2 ^ k).
  { unfold f_mag, f_shift. rewrite <- Z.mul_assoc, <- pow2_split by lia. do 2 f_equal. lia. }
  assert (Hmod : f_mag f a mod 2 ^ k = 0) by (rewrite Hmag; apply Z.mod_mul; lia).
  pose proof (round_shift_whole k ltac:(lia) (int_mode rm) s _ Hmod) as HR. set (R := round_shift _ _ _ _) in *.
  pose proof (pow2_pos (e - 1 - k) ltac:(lia)). assert (0 < f_mag f a) by (rewrite Hmag; repeat apply Z.mul_pos_pos; lia).
  unfold cut_exact. rewrite Hmod, Z.eqb_refl, orb_true_r, andb_false_r, raise_0, ieee_round_sign by nia.
  rewrite <- (round_result_scale f s R 0 k) by nia. rewrite HR. replace (0 - k) with (emin f) by (unfold k; lia).
  rewrite round_result_mag by (first [assumption|unfold is_finite; destruct (Z.eqb_spec e (max_exp f)); [lia|reflexivity]]).
  now rewrite <- (pattern_fields f Hf a Ha).
Qed.

(** The bits above the units are an even multiple of them. *)
Lemma above_units : bias <= e < bias + fb f -> exists t, a = 2 ^ (bias + fb f - e + 1) * t + f_mant f a /\
  2 ^ (bias + fb f - e + 1) * t = sign_bit f s + (e - 1) * 2 ^ fb f.
Proof.
  intros He. destruct bias_facts as (H1 & Hfm & H2 & Hodd). pose proof Hf as [Hfb Heb]. set (k := bias + fb f - e).
  assert (Hm : f_mant f a = 2 ^ fb f + m) by (unfold f_mant; destruct (Z.eqb_spec e 0); [lia|reflexivity]).
  assert (exists u, sign_bit f s = 2 ^ (k + 1) * u) as [u Hu].
  { unfold sign_bit. destruct s; [|exists 0; lia]. exists (2 ^ (fb f + eb f - (k + 1))). rewrite <- pow2_split by (unfold k; lia). f_equal. lia. }
  assert (exists v, (e - 1) * 2 ^ fb f = 2 ^ (k + 1) * v) as [v Hv].
  { destruct (Z.eq_dec k (fb f)) as [E|].
    - assert (e = bias) as -> by (unfold k in E; lia). rewrite E. exists ((bias - 1) / 2). rewrite pow2_succ by lia.
      pose proof (Z.odd_spec bias) as [Ho _]. destruct (Ho Hodd) as [c Hc]. rewrite Hc. replace (2 * c + 1 - 1) with (c * 2) by lia. rewrite Z.div_mul by lia. lia.
    - exists ((e - 1) * 2 ^ (fb f - (k + 1))). replace (fb f) with (k + 1 + (fb f - (k + 1))) at 1 by lia. rewrite pow2_split by (unfold k in *; lia). lia. }
  exists (u + v). split; [|lia]. rewrite Hm. rewrite (pattern_fields f Hf a Ha) at 1. lia.
Qed.

(** Between: the significand is cut at the units. *)
Lemma middle_correct : bias <= e < bias + fb f ->
  ieee_round_to_int f (int_mode rm) exact a st =
  let z := units_text (bias + fb f - e) rm s a * 2 ^ (bias + fb f - e) in
  (z, raise (if exact && negb (z =? a) then softfloat_flag_inexact else 0) st).
Proof.
  intros He. destruct bias_facts as (H1 & Hfm & H2 & _). pose proof Hf as [Hfb Heb]. destruct (above_units He) as (t & Ht & Hst).
  destruct finite_small as [En Ei]; [lia|]. unfold ieee_round_to_int. rewrite En, Ei. cbv zeta. set (k := bias + fb f - e) in *.
  pose proof (f_mant_normal f Hf a ltac:(lia)). pose proof (f_mant_range f Hf a) as Hmr. rewrite pow2_succ in Hmr by lia. set (M := f_mant f a) in *.
  assert (0 < k <= fb f) as Hk by (unfold k; lia). pose proof (pow2_pos k ltac:(lia)).
  assert (f_mag f a = M * 2 ^ (e - 1) /\ - emin f = k + (e - 1)) as [-> ->] by (unfold f_mag, f_shift; rewrite emin_bias; split; [do 2 f_equal; lia|unfold k; lia]).
  rewrite round_shift_scale, cut_exact_scale by lia. rewrite units_text_correct by lia.
  replace (round_shift (int_mode rm) s a k) with (2 * t + round_shift (int_mode rm) s M k) by (rewrite Ht; symmetry; apply round_shift_above; lia).
  set (R := round_shift (int_mode rm) s M k). rewrite pow2_succ in Hst, Ht by lia.
  replace ((2 * t + R) * 2 ^ k) with (sign_bit f s + (e - 1) * 2 ^ fb f + R * 2 ^ k) by lia. set (z := R * 2 ^ k).
  assert (HR : 2 ^ fb f <= z <= 2 * 2 ^ fb f /\ (z =? M) = cut_exact M k).
  { unfold z, R, round_shift, cut_exact. destruct (Z.leb_spec k 0); [lia|]. pose proof (Z_div_mod_eq_full M (2 ^ k)) as Hd. pose proof (Z.mod_pos_bound M (2 ^ k) ltac:(lia)).
    assert (2 ^ fb f = 2 ^ (fb f - k) * 2 ^ k) as Hp by (rewrite <- pow2_split by lia; f_equal; lia).
    assert (2 ^ (fb f - k) <= M / 2 ^ k) by (apply Z.div_le_lower_bound; lia). assert (M / 2 ^ k < 2 * 2 ^ (fb f - k)) by (apply Z.div_lt_upper_bound; lia).
    set (q := M / 2 ^ k) in *. set (r := M mod 2 ^ k) in *. cbn [orb]. destruct (Z.eqb_spec r 0) as [E|E].
    - rewrite E, Z.mul_0_r. replace (0 ?= 2 ^ k) with Lt by (symmetry; apply Z.compare_lt_iff; lia). rewrite round_up_exact. unfold b2z. rewrite Hp. split; [nia|apply Z.eqb_eq; lia].
    - assert (0 <= b2z (round_up (int_mode rm) s (Z.odd q) false (2 * r ?= 2 ^ k)) <= 1) as Hb by (destruct (round_up _ _ _ _ _); cbn; lia).
      set (b := b2z _) in *. rewrite Hp. split; [nia|]. apply Z.eqb_neq. intros Ez. assert ((q + b) * 2 ^ k = q * 2 ^ k + r) as E2 by lia.
      assert (r = b * 2 ^ k) by lia. assert (b = 0 \/ b = 1) as [->| ->] by lia; lia. }
  destruct HR as [HR Hz]. assert (0 < R) by (unfold z in HR; nia). rewrite ieee_round_sign by lia.
  rewrite (round_whole s e z k) by (first [reflexivity|rewrite ?pow2_succ, ?emin_bias by lia; unfold k; lia]).
  rewrite <- Hz. replace (sign_bit f s + (e - 1) * 2 ^ fb f + z =? a) with (z =? M) by (apply eq_true_iff_eq; rewrite !Z.eqb_eq; lia).
  reflexivity.
Qed.

Theorem round_int_text_correct : round_int_text st = ieee_round_to_int f (int_mode rm) exact a st.
Proof.
  destruct bias_facts as (H1 & Hfm & H2 & _). pose proof Hf as [Hfb Heb]. pose proof (f_exp_range f Hf a). unfold round_int_text. rewrite magnitude_zero.
  destruct (Z.leb_spec e (bias - 1)).
  - destruct (Z.eqb_spec (f_mag f a) 0) as [E|E]; [|symmetry; now apply small_text_correct].
    destruct finite_small as [En Ei]; [lia|]. unfold ieee_round_to_int. rewrite En, Ei, E.
    assert (round_shift (int_mode rm) s 0 (- emin f) = 0 /\ cut_exact 0 (- emin f) = true) as [-> ->].
    { rewrite emin_bias. rewrite round_shift_small by (pose proof (pow2_pos (- (1 - bias - fb f)) ltac:(lia)); lia).
      split; [now rewrite round_up_exact|]. unfold cut_exact. now rewrite Z.mod_0_l, orb_true_r by (pose proof (pow2_pos (- (1 - bias - fb f)) ltac:(lia)); lia). }
    cbv zeta. rewrite andb_false_r, raise_0. replace (if s then - 0 else 0) with 0 by (now destruct s). unfold ieee_round. simpl. f_equal.
    apply (f_mag_zero f Hf) in E as [E1 E2]. rewrite (pattern_fields f Hf a Ha) at 1. rewrite E1, E2. lia.
  - destruct (Z.leb_spec (bias + fb f) e); [|symmetry; apply middle_correct; lia].
    unfold is_nan, is_inf. destruct (Z.eqb_spec e (max_exp f)) as [E|E]; cbn [andb].
    + unfold ieee_round_to_int, is_nan, is_inf. rewrite E, Z.eqb_refl. cbn [andb]. now destruct (m =? 0).
    + symmetry. apply large_correct; lia.
Qed.
End Operand.
End Format.

(** ** The masks *)

Lemma land_top a n : 0 <= n -> 0 <= a < 2 ^ (n + 1) -> a .& 2 ^ n = if 2 ^ n <=? a then 2 ^ n else 0.
Proof.
  intros Hn Ha. rewrite pow2_succ in Ha by lia. apply Z.bits_inj'. intros i Hi. rewrite Z.land_spec, Z.pow2_bits_eqb by lia.
  destruct (Z.eqb_spec n i) as [<-|Hne].
  - rewrite andb_true_r. destruct (Z.leb_spec (2 ^ n) a).
    + rewrite Z.pow2_bits_true by lia. apply Z.testbit_true; [lia|]. now rewrite <- (Z.div_unique a (2 ^ n) 1 (a - 2 ^ n)) by lia.
    + rewrite Z.bits_0. rewrite <- (Z.mod_small a (2 ^ n)) by lia. apply Z.mod_pow2_bits_high. lia.
  - rewrite andb_false_r. destruct (2 ^ n <=? a); [now rewrite Z.pow2_bits_false by lia|now rewrite Z.bits_0].
Qed.

Section Masks.
Context (k : Z) (Hk : 0 < k < 63).

Lemma clear_unit x : 0 <= x < 2 ^ 64 -> x mod 2 ^ k = 0 -> x .& u64 (Z.lnot (2 ^ k)) = (x / 2 ^ k - b2z (Z.odd (x / 2 ^ k))) * 2 ^ k.
Proof.
  intros Hx E. pose proof (pow2_pos k ltac:(lia)). assert (Hq : x = (x / 2 ^ k) .<< k) by (rewrite shiftl_mul by lia; pose proof (Z_div_mod_eq_full x (2 ^ k)); lia).
  set (q := x / 2 ^ k) in *. assert (0 <= q) by (apply Z.div_pos; lia).
  assert (x .& u64 (Z.lnot (2 ^ k)) = Z.ldiff x (2 ^ k)) as ->.
  { rewrite Z.ldiff_land. unfold uwrap. rewrite <- Z.land_ones, (Z.land_comm (Z.lnot _)), Z.land_assoc by lia. now rewrite (Z.land_ones x), (Z.mod_small x) by lia. }
  rewrite Hq at 1. replace (2 ^ k) with (1 .<< k) at 1 by (rewrite shiftl_mul by lia; lia). rewrite <- Z.shiftl_ldiff, shiftl_mul by lia. f_equal.
  change 1 with (Z.ones 1). rewrite Z.ldiff_ones_r, shiftl_mul, shiftr_div, Z.pow_1_r by lia.
  rewrite (Z.div_mod q 2) at 2 by lia. rewrite Zmod_odd. destruct (Z.odd q); cbn; lia.
Qed.

(** The code of the routines, on 64 bits. *)
Definition units_code (rm : rounding_mode) (s : bool) (A : Z) : Z :=
  let lastBitMask := u64 (1 .<< k) in
  let roundBitsMask := lastBitMask - 1 in
  let uiZ :=
    match rm with
    | softfloat_round_near_maxMag => u64 (A + (lastBitMask .>> 1))
    | softfloat_round_near_even =>
        let uiZ := u64 (A + (lastBitMask .>> 1)) in
        if negb (nz (uiZ .& roundBitsMask)) then uiZ .& u64 (Z.lnot lastBitMask) else uiZ
    | _ => if rm_eqb rm (if s then softfloat_round_min else softfloat_round_max)
           then u64 (A + roundBitsMask) else A
    end in
  uiZ .& u64 (Z.lnot roundBitsMask).

Lemma units_code_text rm s A : 0 <= A -> A + 2 ^ k < 2 ^ 64 -> units_code rm s A = units_text k rm s A * 2 ^ k.
Proof.
  intros HA Hs. pose proof (pow2_pos (k - 1) ltac:(lia)) as Hp. pose proof (half_pow k ltac:(lia)) as Hh. pose proof (pow2_lt k 64 ltac:(lia)).
  assert (HL : u64 (1 .<< k) = 2 ^ k) by (rewrite shiftl_mul, Z.mul_1_l, uwrap_small by lia; reflexivity).
  assert (Hhalf : 2 ^ k .>> 1 = 2 ^ (k - 1)) by (rewrite shiftr_div, Z.pow_1_r, Hh by lia; rewrite Z.mul_comm; apply Z.div_mul; lia).
  assert (Hclear : forall x, 0 <= x < 2 ^ 64 -> x .& u64 (Z.lnot (2 ^ k - 1)) = x / 2 ^ k * 2 ^ k) by (intros x Hx; rewrite <- HL at 1; apply clear_low; lia).
  assert (Hlow : forall x, x .& (2 ^ k - 1) = x mod 2 ^ k) by (intros x; rewrite <- HL at 1; apply low_mask; lia).
  unfold units_code, units_text. rewrite HL, Hhalf, Hlow, !(uwrap_small 64 (A + _)) by lia. cbv zeta.
  destruct rm; [|destruct s; cbn; rewrite ?Hclear by lia; reflexivity..].
  unfold nz. rewrite negb_involutive. set (x := A + 2 ^ (k - 1)) in *. destruct (Z.eqb_spec (x mod 2 ^ k) 0) as [E|E]; [|now rewrite Hclear by lia].
  rewrite clear_unit by (trivial; lia). assert (0 <= x / 2 ^ k) by (apply Z.div_pos; lia). pose proof (Z_div_mod_eq_full x (2 ^ k)).
  assert (0 <= (x / 2 ^ k - b2z (Z.odd (x / 2 ^ k))) * 2 ^ k <= x).
  { destruct (Z.odd (x / 2 ^ k)) eqn:Eo; unfold b2z; [|nia]. assert (x / 2 ^ k <> 0) by (intros E0; now rewrite E0 in Eo). nia. }
  rewrite Hclear by lia. now rewrite Z.div_mul by lia.
Qed.

Lemma units_text_bound rm s A : 0 <= A -> 0 <= units_text k rm s A * 2 ^ k <= A + 2 ^ k.
Proof.
  intros HA. rewrite units_text_correct by lia. unfold round_shift. destruct (Z.leb_spec k 0); [lia|]. pose proof (pow2_pos k ltac:(lia)).
  pose proof (Z_div_mod_eq_full A (2 ^ k)). pose proof (Z.mod_pos_bound A (2 ^ k) ltac:(lia)). assert (0 <= A / 2 ^ k) by (apply Z.div_pos; lia).
  destruct (round_up _ _ _ _ _); unfold b2z; nia.
Qed.
End Masks.

(** ** The three formats *)

Section Code.
Context (f : fmt) (W : Z) (Hf : fmt_ok f) (Hwide : 3 <= eb f) (Hnarrow : fb f < 2 ^ (eb f - 1)) (HW : W = fb f + eb f + 1) (HW64 : W <= 64).
Context (propagate : Z -> Z -> fp Z) (Hprop : forall a st, propagate a 0 st = ieee_nan f (is_snan f a) st).
Variables (a : Z) (rm : rounding_mode) (exact : bool) (st : fp_state).
Hypothesis Ha : is_pattern f a.
Notation e := (f_exp f a).
Notation m := (f_frac f a).
Notation s := (f_sign f a).

(** The common code, over the fields. *)
Definition round_int_code (zero : bool) (uiZ one : Z) : fp Z :=
  if e <=? bias f - 1 then
    if zero then fret a
    else
      raise_inexact_if exact ;;
      fret (uwrap W
        match rm with
        | softfloat_round_near_even =>
            if negb (nz m) then uiZ else if e =? bias f - 1 then uiZ .| one else uiZ
        | softfloat_round_near_maxMag => if e =? bias f - 1 then uiZ .| one else uiZ
        | softfloat_round_min => if nz uiZ then sign_bit f true + one else uiZ
        | softfloat_round_max => if negb (nz uiZ) then one else uiZ
        | _ => uiZ
        end)
  else if bias f + fb f <=? e then
    if (e =? max_exp f) && nz m then uiZ <- propagate a 0 ;; fret (uwrap W uiZ) else fret a
  else
    let uiZ := units_code (bias f + fb f - e) rm s a in
    raise_inexact_if (exact && negb (uiZ =? a)) ;; fret (uwrap W uiZ).

Lemma one_range : 0 <= bias f * 2 ^ fb f < 2 ^ (fb f + eb f) /\ (forall b : bool, sign_bit f b .| (bias f * 2 ^ fb f) = sign_bit f b + bias f * 2 ^ fb f).
Proof.
  destruct (bias_facts f Hf Hwide Hnarrow) as (H1 & _ & H2 & _). pose proof Hf as [Hfb Heb]. pose proof (pow2_pos (fb f) ltac:(lia)).
  assert (0 <= bias f * 2 ^ fb f < 2 ^ (fb f + eb f)) as Hr by (rewrite pow2_split by lia; unfold max_exp in H2; nia).
  split; [exact Hr|]. intros b. unfold sign_bit. destruct b; [|now rewrite Z.lor_0_l]. rewrite <- (Z.add_lor_land (2 ^ (fb f + eb f))) by lia.
  replace (2 ^ (fb f + eb f) .& (bias f * 2 ^ fb f)) with 0; [lia|]. rewrite Z.land_comm, land_top by (rewrite ?pow2_succ; lia).
  destruct (Z.leb_spec (2 ^ (fb f + eb f)) (bias f * 2 ^ fb f)); [lia|reflexivity].
Qed.

Lemma round_int_code_text zero : zero = (a mod 2 ^ (fb f + eb f) =? 0) -> round_int_code zero (sign_bit f s) (bias f * 2 ^ fb f) st = round_int_text f a rm exact st.
Proof.
  intros ->. destruct (bias_facts f Hf Hwide Hnarrow) as (H1 & Hfm & H2 & _). pose proof Hf as [Hfb Heb]. destruct one_range as [Hone Hlor].
  pose proof (pow2_pos (fb f + eb f) ltac:(lia)). assert (2 ^ W = 2 * 2 ^ (fb f + eb f)) as HWp by (rewrite HW; apply pow2_succ; lia).
  unfold round_int_code, round_int_text. destruct (Z.leb_spec e (bias f - 1)).
  - destruct (_ =? 0); [reflexivity|]. rewrite fbind_raise_if. unfold fret. f_equal. rewrite uwrap_small; unfold small_text, nz;
      rewrite ?Hlor, ?negb_involutive; unfold sign_bit in *; destruct rm, s; repeat case_test; cbn [negb]; lia.
  - destruct (Z.leb_spec (bias f + fb f) e).
    + unfold nz. destruct (_ && _); [|reflexivity]. unfold fbind. rewrite Hprop. unfold ieee_nan, fret, default_nan, inf_mag. f_equal. apply uwrap_small.
      pose proof (pow2_pos (fb f - 1) ltac:(lia)). assert (2 ^ fb f = 2 * 2 ^ (fb f - 1)) by (rewrite <- pow2_succ by lia; f_equal; lia).
      rewrite HWp, pow2_split by lia. unfold max_exp. pose proof (pow2_pos (eb f) ltac:(lia)). nia.
    + cbv zeta. set (k := bias f + fb f - e). assert (0 < k <= fb f) as Hk by (unfold k; lia). pose proof (pow2_le k (fb f) ltac:(lia)).
      assert (0 <= a /\ a + 2 ^ k < 2 ^ W) as [Ha0 Hb].
      { split; [apply Ha|]. rewrite (pattern_fields f Hf a Ha). pose proof (f_frac_range f Hf a). pose proof (pow2_pos (fb f) ltac:(lia)).
        assert ((e + 2) * 2 ^ fb f <= 2 ^ (fb f + eb f)) by (rewrite pow2_split, (Z.mul_comm (2 ^ fb f)) by lia; apply Z.mul_le_mono_nonneg_r; unfold max_exp in *; lia).
        rewrite HWp. unfold sign_bit. destruct s; nia. }
      pose proof (pow2_le W 64 ltac:(lia)). rewrite units_code_text by lia. pose proof (units_text_bound k ltac:(lia) rm s a Ha0).
      rewrite fbind_raise_if. unfold fret. now rewrite uwrap_small by lia.
Qed.
End Code.

Lemma sign_mask f a : fmt_ok f -> is_pattern f a -> a .& 2 ^ (fb f + eb f) = sign_bit f (f_sign f a).
Proof. intros [Hfb Heb] Ha. rewrite land_top by (trivial; lia). unfold sign_bit, f_sign. reflexivity. Qed.

Lemma f16_roundToInt_correct a rm exact st : is_pattern F16 a -> f16_roundToInt a rm exact st = ieee_round_to_int F16 (int_mode rm) exact a st.
Proof.
  intros Ha. rewrite <- (round_int_text_correct F16 fmt_ok_F16) by (trivial; simpl; lia).
  rewrite <- (round_int_code_text F16 16 fmt_ok_F16 ltac:(simpl; lia) ltac:(simpl; lia) eq_refl ltac:(lia) softfloat_propagateNaNF16UI
    ltac:(intros; rewrite propagateNaNF16UI_eq; f_equal; now rewrite orb_false_r) a rm exact st Ha _ eq_refl).
  destruct (fields_F16 a Ha) as (Hs & He & Hr & _). unfold f16_roundToInt. cbv zeta. rewrite Hs, He, Hr, (shl1_zero 16) by lia.
  unfold nz at 1. rewrite negb_involutive. change (packToF16UI true 0 0) with (2 ^ (fb F16 + eb F16)). rewrite sign_mask by (trivial; apply fmt_ok_F16).
  reflexivity.
Qed.

Lemma f32_roundToInt_correct a rm exact st : is_pattern F32 a -> f32_roundToInt a rm exact st = ieee_round_to_int F32 (int_mode rm) exact a st.
Proof.
  intros Ha. rewrite <- (round_int_text_correct F32 fmt_ok_F32) by (trivial; simpl; lia).
  rewrite <- (round_int_code_text F32 32 fmt_ok_F32 ltac:(simpl; lia) ltac:(simpl; lia) eq_refl ltac:(lia) softfloat_propagateNaNF32UI
    ltac:(intros; rewrite propagateNaNF32UI_eq; f_equal; now rewrite orb_false_r) a rm exact st Ha _ eq_refl).
  destruct (fields_F32 a Ha) as (Hs & He & Hr & _). unfold f32_roundToInt. cbv zeta. rewrite Hs, He, Hr, (shl1_zero 32) by lia.
  unfold nz at 1. rewrite negb_involutive. change (packToF32UI true 0 0) with (2 ^ (fb F32 + eb F32)). rewrite sign_mask by (trivial; apply fmt_ok_F32).
  reflexivity.
Qed.

Lemma f64_roundToInt_correct a rm exact st : is_pattern F64 a -> f64_roundToInt a rm exact st = ieee_round_to_int F64 (int_mode rm) exact a st.
Proof.
  intros Ha. rewrite <- (round_int_text_correct F64 fmt_ok_F64) by (trivial; simpl; lia).
  rewrite <- (round_int_code_text F64 64 fmt_ok_F64 ltac:(simpl; lia) ltac:(simpl; lia) eq_refl ltac:(lia) softfloat_propagateNaNF64UI
    ltac:(intros; rewrite propagateNaNF64UI_eq; f_equal; now rewrite orb_false_r) a rm exact st Ha _ eq_refl).
  destruct (fields_F64 a Ha) as (Hs & He & Hr & _). unfold f64_roundToInt. cbv zeta. rewrite Hs, He, Hr, (land_mod a 0x7FFFFFFFFFFFFFFF 63) by lia.
  unfold nz at 1. rewrite negb_involutive. change (packToF64UI true 0 0) with (2 ^ (fb F64 + eb F64)). rewrite sign_mask by (trivial; apply fmt_ok_F64).
  reflexivity.
Qed.

(** ** Minimum and maximum *)

(** The text of the macros, for [COMPARE_MAX] on [b] and [a] and for [COMPARE_MIN] on
    [a] and [b]. *)
Definition minmax_text (f : fmt) (x y a b : Z) : fp Z :=
  lt <- ieee_cmp f false Z.ltb x y ;;
  first <- (if lt then fret true else eq <- ieee_cmp f false Z.eqb x y ;; fret (eq && f_sign f x)) ;;
  if is_nan f a && is_nan f b then fret (default_nan f)
  else fret (if first || is_nan f b then a else b).

Lemma minmax_text_correct f x y a b st : x = a /\ y = b \/ x = b /\ y = a -> minmax_text f x y a b st = ieee_minmax f (below f x y) a b st.
Proof.
  intros Hxy. unfold minmax_text, ieee_minmax, ieee_cmp, below. cbn [orb].
  assert (is_nan f x || is_nan f y = is_nan f a || is_nan f b /\ is_snan f x || is_snan f y = is_snan f a || is_snan f b) as [-> ->]
    by (destruct Hxy as [[-> ->]|[-> ->]]; [split; reflexivity|split; apply orb_comm]).
  assert (is_snan f a || is_snan f b = true -> is_nan f a || is_nan f b = true) as Hs by (unfold is_snan; destruct (is_nan f a), (is_nan f b); cbn; congruence).
  unfold fbind, fret. destruct (is_nan f a) eqn:Ea, (is_nan f b) eqn:Eb; cbn in *;
    try (destruct (is_snan f a || is_snan f b); cbn; rewrite ?raise_raise, ?Z.lor_diag, ?raise_0; reflexivity).
  assert (is_snan f a || is_snan f b = false) as -> by (destruct (is_snan f a || is_snan f b); [now specialize (Hs eq_refl)|reflexivity]).
  rewrite raise_0. destruct (f_val f x <? f_val f y); cbn; [reflexivity|]. now rewrite orb_false_r.
Qed.

(** The text with the comparisons and the fields of a format. *)
Lemma minmax_code f (isNaN signUI : Z -> bool) (lt_quiet eq : Z -> Z -> fp bool) nan x y a b st :
  (forall z, isNaN z = is_nan f z) -> signUI x = f_sign f x -> (forall st, lt_quiet x y st = ieee_cmp f false Z.ltb x y st) ->
  (forall st, eq x y st = ieee_cmp f false Z.eqb x y st) -> nan = default_nan f ->
  (lt <- lt_quiet x y ;;
   first <- (if lt then fret true else e <- eq x y ;; fret (e && signUI x)) ;;
   if isNaN a && isNaN b then fret nan else fret (if first || isNaN b then a else b)) st = minmax_text f x y a b st.
Proof.
  intros HN Hs Hlt Heq ->. unfold minmax_text, fbind. rewrite Hlt, !HN. destruct (ieee_cmp f false Z.ltb x y st) as [[|] st']; [reflexivity|].
  rewrite Heq, Hs. reflexivity.
Qed.

Lemma f16_max_correct a b st : is_pattern F16 a -> is_pattern F16 b -> f16_max a b st = ieee_max F16 a b st.
Proof.
  intros Ha Hb. unfold ieee_max. rewrite <- minmax_text_correct by tauto. apply (minmax_code F16 isNaNF16UI signF16UI f16_lt_quiet f16_eq);
    [apply isNaNF16UI_eq|apply signF16UI_eq|intros; apply f16_lt_quiet_correct|intros; apply f16_eq_correct|reflexivity]; assumption.
Qed.

Lemma f16_min_correct a b st : is_pattern F16 a -> is_pattern F16 b -> f16_min a b st = ieee_min F16 a b st.
Proof.
  intros Ha Hb. unfold ieee_min. rewrite <- minmax_text_correct by tauto. apply (minmax_code F16 isNaNF16UI signF16UI f16_lt_quiet f16_eq);
    [apply isNaNF16UI_eq|apply signF16UI_eq|intros; apply f16_lt_quiet_correct|intros; apply f16_eq_correct|reflexivity]; assumption.
Qed.

Lemma f32_max_correct a b st : is_pattern F32 a -> is_pattern F32 b -> f32_max a b st = ieee_max F32 a b st.
Proof.
  intros Ha Hb. unfold ieee_max. rewrite <- minmax_text_correct by tauto. apply (minmax_code F32 isNaNF32UI signF32UI f32_lt_quiet f32_eq);
    [apply isNaNF32UI_eq|apply signF32UI_eq|intros; apply f32_lt_quiet_correct|intros; apply f32_eq_correct|reflexivity]; assumption.
Qed.

Lemma f32_min_correct a b st : is_pattern F32 a -> is_pattern F32 b -> f32_min a b st = ieee_min F32 a b st.
Proof.
  intros Ha Hb. unfold ieee_min. rewrite <- minmax_text_correct by tauto. apply (minmax_code F32 isNaNF32UI signF32UI f32_lt_quiet f32_eq);
    [apply isNaNF32UI_eq|apply signF32UI_eq|intros; apply f32_lt_quiet_correct|intros; apply f32_eq_correct|reflexivity]; assumption.
Qed.

Lemma f64_max_correct a b st : is_pattern F64 a -> is_pattern F64 b -> f64_max a b st = ieee_max F64 a b st.
Proof.
  intros Ha Hb. unfold ieee_max. rewrite <- minmax_text_correct by tauto. apply (minmax_code F64 isNaNF64UI signF64UI f64_lt_quiet f64_eq);
    [apply isNaNF64UI_eq|apply signF64UI_eq|intros; apply f64_lt_quiet_correct|intros; apply f64_eq_correct|reflexivity]; assumption.
Qed.

Lemma f64_min_correct a b st : is_pattern F64 a -> is_pattern F64 b -> f64_min a b st = ieee_min F64 a b st.
Proof.
  intros Ha Hb. unfold ieee_min. rewrite <- minmax_text_correct by tauto. apply (minmax_code F64 isNaNF64UI signF64UI f64_lt_quiet f64_eq);
    [apply isNaNF64UI_eq|apply signF64UI_eq|intros; apply f64_lt_quiet_correct|intros; apply f64_eq_correct|reflexivity]; assumption.
Qed.
