(* ===== verification/SFTheorems.v ===== *)
(** * What the SoftFloat routines guarantee

    The theorems about the floating-point library, each over the three formats
    of the hardware: the arithmetic routines deliver the result IEEE 754
    prescribes, bit for bit and flag for flag; that result is a closest number
    (or the neighbour on the mode's side); comparisons, classification and
    conversions agree with the values of their operands.

    The theorems about the conversions of [SFToInt] and [SFTrunc], their round
    trip with the conversions from integers, and those about [SFRoundInt]. *)

From Stdlib Require Import ZArith Lia Bool List.
From S2P Require Import Prelude.
From S2P Require Import SFBase.
From S2P Require Import SFSpec.
From S2P Require Import SFRound.
From S2P Require Import SFValue.
From S2P Require Import SFAddSub.
From S2P Require Import SFAddSub16.
From S2P Require Import SFMul.
From S2P Require Import SFCompare.
From S2P Require Import SFFromInt.
From S2P Require Import SFFloat.
From S2P Require Import SFSpecFacts.
From S2P Require Import SFToInt.
From S2P Require Import SFTrunc.
From S2P Require Import SFRoundInt.

(** ** Finite operands *)

Section Finite.
Context (f : fmt) (Hf : fmt_ok f) (a b : Z) (st : fp_state).
Hypothesis Ha : is_finite f a = true.
Hypothesis Hb : is_finite f b = true.

Lemma finite_add :
ieee_add f a b st = ieee_round f (sum_zero_sign (f_sign f a) (f_sign f b)) (f_val f a + f_val f b) (emin f) st.
Proof.
destruct (finite_cases f Hf a Ha) as (H1 & H2 & _), (finite_cases f Hf b Hb) as (H3 & H4 & _).
unfold ieee_add, ieee_add_gen. now rewrite H1, H2, H3, H4.
Qed.

Lemma finite_sub :
ieee_sub f a b st = ieee_round f (sum_zero_sign (f_sign f a) (negb (f_sign f b))) (f_val f a - f_val f b) (emin f) st.
Proof.
destruct (finite_cases f Hf a Ha) as (H1 & H2 & _), (finite_cases f Hf b Hb) as (H3 & H4 & _).
unfold ieee_sub, ieee_add_gen. now rewrite H1, H2, H3, H4, Z.add_opp_r.
Qed.

Lemma finite_mul :
ieee_mul f a b st = ieee_round f (fun _ => xorb (f_sign f a) (f_sign f b)) (f_val f a * f_val f b) (2 * emin f) st.
Proof.
destruct (finite_cases f Hf a Ha) as (H1 & H2 & _), (finite_cases f Hf b Hb) as (H3 & H4 & _).
unfold ieee_mul. cbv zeta. now rewrite H1, H2, H3, H4.
Qed.
End Finite.

(** ** The interface of an arithmetic operation

    [rounds_exactly] is what a routine promises to its callers: on finite
    operands it is one rounding of the exact result.  The consequences are
    proved against this promise, and each routine discharges it. *)

Class RoundsExactly (f : fmt) (op : Z -> Z -> fp Z) (exact : Z -> Z -> Z) (E : Z) : Prop := {
  re_fmt : fmt_ok f;
  re_round a b st :
    is_pattern f a -> is_pattern f b -> is_finite f a = true -> is_finite f b = true ->
    exists zs, op a b st = ieee_round f zs (exact (f_val f a) (f_val f b)) E st;
}.

Ltac discharge_rounds ok fin :=
  split; [easy|]; intros a b st Ha Hb Fa Fb; rewrite ok by assumption;
  rewrite fin by easy; eexists; reflexivity.

#[export] Instance f16_add_rounds : RoundsExactly F16 f16_add Z.add (emin F16).
Proof. discharge_rounds f16_add_correct finite_add. Qed.
#[export] Instance f32_add_rounds : RoundsExactly F32 f32_add Z.add (emin F32).
Proof. discharge_rounds f32_add_correct finite_add. Qed.
#[export] Instance f64_add_rounds : RoundsExactly F64 f64_add Z.add (emin F64).
Proof. discharge_rounds f64_add_correct finite_add. Qed.
#[export] Instance f16_sub_rounds : RoundsExactly F16 f16_sub Z.sub (emin F16).
Proof. discharge_rounds f16_sub_correct finite_sub. Qed.
#[export] Instance f32_sub_rounds : RoundsExactly F32 f32_sub Z.sub (emin F32).
Proof. discharge_rounds f32_sub_correct finite_sub. Qed.
#[export] Instance f64_sub_rounds : RoundsExactly F64 f64_sub Z.sub (emin F64).
Proof. discharge_rounds f64_sub_correct finite_sub. Qed.
#[export] Instance f16_mul_rounds : RoundsExactly F16 f16_mul Z.mul (2 * emin F16).
Proof. discharge_rounds f16_mul_correct finite_mul. Qed.
#[export] Instance f32_mul_rounds : RoundsExactly F32 f32_mul Z.mul (2 * emin F32).
Proof. discharge_rounds f32_mul_correct finite_mul. Qed.
#[export] Instance f64_mul_rounds : RoundsExactly F64 f64_mul Z.mul (2 * emin F64).
Proof. discharge_rounds f64_mul_correct finite_mul. Qed.

(** A finite result of a nearest mode is a closest number of the format to the
    exact result, and the one with an even last bit when two are equally
    close in [near_even]. *)
Definition delivers_nearest (f : fmt) (op : Z -> Z -> fp Z) (exact : Z -> Z -> Z) (E : Z) : Prop :=
  forall a b st, is_pattern f a -> is_pattern f b -> is_finite f a = true -> is_finite f b = true ->
    to_nearest (softfloat_roundingMode st) = true ->
    let z := fst (op a b st) in
    let err := error f (exact (f_val f a) (f_val f b)) E in
    is_finite f z = true ->
    forall p, is_finite f p = true ->
      err z <= err p
      /\ (softfloat_roundingMode st = softfloat_round_near_even ->
          err p = err z -> f_val f p <> f_val f z -> Z.even z = true).

(** A result of a directed mode is the closest number of the format on the
    mode's side: below, above, or toward zero. *)
Definition delivers_directed (f : fmt) (op : Z -> Z -> fp Z) (exact : Z -> Z -> Z) (E : Z) : Prop :=
  forall a b st, is_pattern f a -> is_pattern f b -> is_finite f a = true -> is_finite f b = true ->
    let z := fst (op a b st) in
    let c := exact_unit f E in
    let x := exact_num f (exact (f_val f a) (f_val f b)) E in
    is_finite f z = true ->
    forall p, is_finite f p = true ->
      match softfloat_roundingMode st with
      | softfloat_round_min => f_val f z * c <= x /\ (f_val f p * c <= x -> f_val f p <= f_val f z)
      | softfloat_round_max => x <= f_val f z * c /\ (x <= f_val f p * c -> f_val f z <= f_val f p)
      | softfloat_round_minMag =>
          f_mag f z * c <= Z.abs x /\ (f_mag f p * c <= Z.abs x -> f_mag f p <= f_mag f z)
      | _ => True
      end.

Section Clients.
Context {f : fmt} {op : Z -> Z -> fp Z} {exact : Z -> Z -> Z} {E : Z} `{RoundsExactly f op exact E}.

Lemma rounds_nearest : delivers_nearest f op exact E.
Proof.
intros a b st Ha Hb Fa Fb Hrm. destruct (re_round a b st Ha Hb Fa Fb) as [zs ->]. cbv zeta.
intros Hz p Hp. split.
- apply round_nearest; trivial. apply re_fmt.
- intros Hev. apply round_tie_even; trivial. apply re_fmt.
Qed.

Lemma rounds_directed : delivers_directed f op exact E.
Proof.
intros a b st Ha Hb Fa Fb. destruct (re_round a b st Ha Hb Fa Fb) as [zs ->]. cbv zeta.
intros Hz p Hp. destruct (softfloat_roundingMode st) eqn:Hrm; trivial.
- apply round_to_zero; trivial. apply re_fmt.
- apply round_down; trivial. apply re_fmt.
- apply round_above; trivial. apply re_fmt.
Qed.
End Clients.

(** ** Widening is exact and narrowing undoes it *)

Section Widening.
Context (f1 f2 : fmt) (Hf1 : fmt_ok f1) (Hf2 : fmt_ok f2).
Notation K := (emin f1 - (fb f2 - fb f1) - emin f2).
Hypothesis Hfb : fb f1 <= fb f2.
Hypothesis HK1 : fb f1 <= K.
Hypothesis HK2 : K + max_exp f1 < max_exp f2.

Lemma normal_form a :
f_mag f1 a <> 0 -> exists e m, norm_operand f1 a e m.
Proof.
intros Ha. destruct (mag_zero_code f1 Hf1 a) as [_ Hz]. rewrite (proj2 (Z.eqb_neq _ 0) Ha) in Hz.
pose proof (normalize_code f1 Hf1 (fun d => (1 - (fb f1 - Z.log2 d), d * 2 ^ (fb f1 - Z.log2 d)))
  (2 ^ fb f1) eq_refl (fun _ _ => eq_refl) a Hz) as Hn.
destruct (negb (nz (f_exp f1 a))); eauto.
Qed.

Lemma widen_value a st :
is_finite f1 a = true ->
let r := ieee_convert f1 f2 a st in
snd r = st /\ is_pattern f2 (fst r) /\ is_finite f2 (fst r) = true
/\ f_sign f2 (fst r) = f_sign f1 a /\ f_mag f2 (fst r) = f_mag f1 a * 2 ^ (emin f1 - emin f2).
Proof.
intros Ha. cbv zeta. rewrite convert_finite by assumption. pose proof (max_exp_ge f2 Hf2).
destruct (finite_cases f1 Hf1 a Ha) as (_ & _ & _ & Hx).
pose proof Hf1 as [Hf11 _]. pose proof Hf2 as [Hf21 _]. pose proof (pow2_pos (fb f2) ltac:(lia)).
destruct (Z.eqb_spec (f_mag f1 a) 0) as [->|Hm0]; cbn [fst snd].
- destruct (fields_pattern f2 Hf2 (f_sign f1 a) 0 0 ltac:(lia) ltac:(lia)) as (Hp & Hs & He & Hr).
  cbv zeta in *. rewrite Z.mul_0_l, !Z.add_0_r in *. repeat split; try apply Hp; trivial.
  + apply negb_true_iff, Z.eqb_neq. lia.
  + now apply (f_mag_zero f2 Hf2).
- destruct (normal_form a Hm0) as (e & m & Hn).
  destruct (widen_exact f1 f2 Hf1 Hf2 a e m (f_sign f1 a) st Hn Hx Hfb HK1 HK2) as [He ->]. cbn [fst snd].
  destruct Hn as (Hm & k & Hk & Em & Ee). rewrite pow2_succ in Hm by lia.
  pose proof (pow2_pos (fb f2 - fb f1) ltac:(lia)) as Hd.
  assert (Hsp : 2 ^ fb f2 = 2 ^ fb f1 * 2 ^ (fb f2 - fb f1)) by (rewrite <- pow2_split by lia; f_equal; lia).
  destruct (fields_pattern f2 Hf2 (f_sign f1 a) (e + K) ((m - 2 ^ fb f1) * 2 ^ (fb f2 - fb f1)) ltac:(lia) ltac:(nia))
    as (Hp & Hs & Hex & Hr). cbv zeta in *.
  replace (sign_bit f2 (f_sign f1 a) + (e + K - 1) * 2 ^ fb f2 + m * 2 ^ (fb f2 - fb f1))
    with (sign_bit f2 (f_sign f1 a) + (e + K) * 2 ^ fb f2 + (m - 2 ^ fb f1) * 2 ^ (fb f2 - fb f1)) by (rewrite Hsp; ring).
  repeat split; try apply Hp; trivial; [apply negb_true_iff, Z.eqb_neq; lia|].
  unfold f_mag, f_mant, f_shift. rewrite Hex, Hr. destruct (Z.eqb_spec (e + K) 0); [lia|].
  replace (2 ^ fb f2 + (m - 2 ^ fb f1) * 2 ^ (fb f2 - fb f1)) with (m * 2 ^ (fb f2 - fb f1)) by (rewrite Hsp; ring).
  fold (f_shift f1 a) (f_mant f1 a). rewrite Em, <- !Z.mul_assoc, <- !pow2_split by (unfold f_shift in *; lia).
  do 2 f_equal. rewrite Z.max_l by lia. lia.
Qed.

Lemma narrow_widened a st st' :
is_pattern f1 a -> is_nan f1 a = false ->
ieee_convert f2 f1 (fst (ieee_convert f1 f2 a st)) st' = (a, st').
Proof.
intros Hp Hn. destruct (is_finite f1 a) eqn:Hfin.
- destruct (widen_value a st Hfin) as (_ & Hpw & Hfw & Hs & Hm). cbv zeta in *.
  set (w := fst _) in *. rewrite convert_finite, Hs, Hm by assumption.
  pose proof (pow2_pos (emin f1 - emin f2) ltac:(destruct Hf1; lia)). pose proof (f_mag_nonneg f1 Hf1 a).
  replace (f_mag f1 a * 2 ^ (emin f1 - emin f2) =? 0) with (f_mag f1 a =? 0) by (apply eq_true_iff_eq; rewrite !Z.eqb_eq; nia).
  destruct (Z.eqb_spec (f_mag f1 a) 0) as [Hm0|Hm0].
  + apply (f_mag_zero f1 Hf1) in Hm0 as [Hx Hr]. rewrite (pattern_fields f1 Hf1 a Hp) at 2. rewrite Hx, Hr. f_equal. lia.
  + pose proof (round_result_scale f1 (f_sign f1 a) (f_mag f1 a) (emin f1) (emin f1 - emin f2) st' ltac:(lia) ltac:(destruct Hf1; lia)) as Hsc.
    replace (emin f1 - (emin f1 - emin f2)) with (emin f2) in Hsc by lia. rewrite Hsc, round_result_mag by assumption.
    f_equal. symmetry. apply pattern_fields; assumption.
- assert (is_inf f1 a = true /\ f_exp f1 a = max_exp f1 /\ f_frac f1 a = 0) as (Hi & Hx & Hr).
  { unfold is_finite, is_nan, is_inf in *. destruct (Z.eqb_spec (f_exp f1 a) (max_exp f1)), (Z.eqb_spec (f_frac f1 a) 0); easy. }
  unfold ieee_convert at 2. rewrite Hn, Hi. cbn [fst]. pose proof Hf2 as [Hf21 _]. pose proof (max_exp_ge f2 Hf2).
  pose proof (pow2_pos (fb f2) ltac:(lia)).
  destruct (fields_pattern f2 Hf2 (f_sign f1 a) (max_exp f2) 0 ltac:(lia) ltac:(lia)) as (_ & Hs & Hx2 & Hr2).
  cbv zeta in *. rewrite Z.add_0_r in *. unfold with_sign, inf_mag, ieee_convert, is_nan, is_inf. rewrite Hs, Hx2, Hr2, !Z.eqb_refl.
  cbn [negb andb]. f_equal. rewrite (pattern_fields f1 Hf1 a Hp) at 2. rewrite Hx, Hr. unfold with_sign, inf_mag. lia.
Qed.
End Widening.

(** ** Arithmetic *)

(** C1: Addition is IEEE 754 addition in every format: for all bit patterns,
    rounding modes and tininess modes, the delivered pattern and the exception
    flags are those of the exact sum rounded once; NaNs, infinities (with
    invalid for their difference), signed zeros, subnormals, overflow and
    underflow included. *)
Theorem addition_correct a b st :
  (is_pattern F16 a -> is_pattern F16 b -> f16_add a b st = ieee_add F16 a b st) /\
  (is_pattern F32 a -> is_pattern F32 b -> f32_add a b st = ieee_add F32 a b st) /\
  (is_pattern F64 a -> is_pattern F64 b -> f64_add a b st = ieee_add F64 a b st).
Proof. auto using f16_add_correct, f32_add_correct, f64_add_correct. Qed.

Lemma addition_correct_witness :
  f32_add 0x3F800000 0x33800001 softfloat_state_init = (0x3F800001, raise softfloat_flag_inexact softfloat_state_init).
Proof.
  rewrite (proj1 (proj2 (addition_correct 0x3F800000 0x33800001 softfloat_state_init))) by (split; reflexivity || discriminate).
  vm_compute. reflexivity.
Defined.

(** Subtraction is IEEE 754 subtraction in every format, for all patterns,
    modes and flags. *)
Theorem subtraction_correct a b st :
  (is_pattern F16 a -> is_pattern F16 b -> f16_sub a b st = ieee_sub F16 a b st) /\
  (is_pattern F32 a -> is_pattern F32 b -> f32_sub a b st = ieee_sub F32 a b st) /\
  (is_pattern F64 a -> is_pattern F64 b -> f64_sub a b st = ieee_sub F64 a b st).
Proof. auto using f16_sub_correct, f32_sub_correct, f64_sub_correct. Qed.

Lemma subtraction_correct_witness :
  f64_sub 0x7FF0000000000000 0x7FF0000000000000 softfloat_state_init
  = (0x7FF8000000000000, raise softfloat_flag_invalid softfloat_state_init).
Proof.
  rewrite (proj2 (proj2 (subtraction_correct 0x7FF0000000000000 0x7FF0000000000000 softfloat_state_init)))
    by (split; reflexivity || discriminate).
  vm_compute. reflexivity.
Defined.

(** C20: Multiplication is IEEE 754 multiplication in every format, for all
    patterns, modes and flags, the normalisation of subnormal operands and the
    64-by-64-bit product of the double format included. *)
Theorem multiplication_correct a b st :
  (is_pattern F16 a -> is_pattern F16 b -> f16_mul a b st = ieee_mul F16 a b st) /\
  (is_pattern F32 a -> is_pattern F32 b -> f32_mul a b st = ieee_mul F32 a b st) /\
  (is_pattern F64 a -> is_pattern F64 b -> f64_mul a b st = ieee_mul F64 a b st).
Proof. auto using f16_mul_correct, f32_mul_correct, f64_mul_correct. Qed.

Lemma multiplication_correct_witness :
  f64_mul 0x4008000000000000 0xC014000000000000 softfloat_state_init = (0xC02E000000000000, softfloat_state_init).
Proof.
  rewrite (proj2 (proj2 (multiplication_correct 0x4008000000000000 0xC014000000000000 softfloat_state_init)))
    by (split; reflexivity || discriminate).
  vm_compute. reflexivity.
Defined.

(** In the nearest modes a finite sum, difference or product is a closest
    number of the format to the exact result: no finite pattern has a smaller
    error, and when another value is equally close in [near_even] the delivered
    pattern is the even one. *)
Theorem arithmetic_nearest :
  (delivers_nearest F16 f16_add Z.add (emin F16) /\ delivers_nearest F32 f32_add Z.add (emin F32)
     /\ delivers_nearest F64 f64_add Z.add (emin F64)) /\
  (delivers_nearest F16 f16_sub Z.sub (emin F16) /\ delivers_nearest F32 f32_sub Z.sub (emin F32)
     /\ delivers_nearest F64 f64_sub Z.sub (emin F64)) /\
  (delivers_nearest F16 f16_mul Z.mul (2 * emin F16) /\ delivers_nearest F32 f32_mul Z.mul (2 * emin F32)
     /\ delivers_nearest F64 f64_mul Z.mul (2 * emin F64)).
Proof.
  refine (conj (conj _ (conj _ _)) (conj (conj _ (conj _ _)) (conj _ (conj _ _)))); apply rounds_nearest; exact _.
Qed.

(** One plus half an ulp: both neighbours are equally close, the even one is delivered. *)
Lemma arithmetic_nearest_witness :
  fst (f16_add 0x3C00 0x1000 softfloat_state_init) = 0x3C00 /\
  error F16 (f_val F16 0x3C00 + f_val F16 0x1000) (emin F16) 0x3C00
    <= error F16 (f_val F16 0x3C00 + f_val F16 0x1000) (emin F16) 0x3C01.
Proof.
  split; [vm_compute; reflexivity|].
  refine (proj1 (proj1 (proj1 arithmetic_nearest) 0x3C00 0x1000 softfloat_state_init _ _ _ _ _ _ 0x3C01 _));
    try reflexivity; split; reflexivity || discriminate.
Defined.

(** In the directed modes a finite sum, difference or product is the closest
    number of the format on the mode's side: the greatest one not above the
    exact result toward minus infinity, the least one not below it toward plus
    infinity, the largest magnitude not above it toward zero. *)
Theorem arithmetic_directed :
  (delivers_directed F16 f16_add Z.add (emin F16) /\ delivers_directed F32 f32_add Z.add (emin F32)
     /\ delivers_directed F64 f64_add Z.add (emin F64)) /\
  (delivers_directed F16 f16_sub Z.sub (emin F16) /\ delivers_directed F32 f32_sub Z.sub (emin F32)
     /\ delivers_directed F64 f64_sub Z.sub (emin F64)) /\
  (delivers_directed F16 f16_mul Z.mul (2 * emin F16) /\ delivers_directed F32 f32_mul Z.mul (2 * emin F32)
     /\ delivers_directed F64 f64_mul Z.mul (2 * emin F64)).
Proof.
  refine (conj (conj _ (conj _ _)) (conj (conj _ (conj _ _)) (conj _ (conj _ _)))); apply rounds_directed; exact _.
Qed.

Lemma arithmetic_directed_witness :
  let st := mk_fp softfloat_round_max softfloat_tininess_afterRounding 0 in
  fst (f16_add 0x3C00 0x0001 st) = 0x3C01 /\
  exact_num F16 (f_val F16 0x3C00 + f_val F16 0x0001) (emin F16) <= f_val F16 0x3C01 * exact_unit F16 (emin F16).
Proof.
  cbv zeta. split; [vm_compute; reflexivity|].
  refine (proj1 (proj1 (proj1 arithmetic_directed) 0x3C00 0x0001 (mk_fp softfloat_round_max softfloat_tininess_afterRounding 0) _ _ _ _ _ 0x3C01 _));
    try reflexivity; split; reflexivity || discriminate.
Defined.

Lemma ieee_add_comm f a b st : ieee_add f a b st = ieee_add f b a st.
Proof.
  unfold ieee_add, ieee_add_gen. rewrite (orb_comm (is_nan f b)), (orb_comm (is_snan f b)), (Z.add_comm (f_val f b)).
  destruct (is_nan f a || is_nan f b); [reflexivity|].
  destruct (is_inf f a), (is_inf f b); cbn [andb]; try reflexivity.
  - destruct (f_sign f a), (f_sign f b); reflexivity.
  - unfold ieee_round, sum_zero_sign. destruct (f_val f a + f_val f b =? 0); [|reflexivity].
    destruct (f_sign f a), (f_sign f b); reflexivity.
Qed.

Lemma ieee_mul_comm f a b st : ieee_mul f a b st = ieee_mul f b a st.
Proof.
  unfold ieee_mul. cbv zeta. rewrite (orb_comm (is_nan f b)), (orb_comm (is_snan f b)), (orb_comm (is_inf f b)),
    (xorb_comm (f_sign f b)), (orb_comm (f_mag f b =? 0)), (Z.mul_comm (f_val f b)). reflexivity.
Qed.

(** Addition and multiplication commute in every format, results and flags
    alike, although the code treats its operands asymmetrically (the sign of the
    first selects the routine, the exponent difference the branch). *)
Theorem arithmetic_commutes a b st :
  (is_pattern F16 a -> is_pattern F16 b -> f16_add a b st = f16_add b a st /\ f16_mul a b st = f16_mul b a st) /\
  (is_pattern F32 a -> is_pattern F32 b -> f32_add a b st = f32_add b a st /\ f32_mul a b st = f32_mul b a st) /\
  (is_pattern F64 a -> is_pattern F64 b -> f64_add a b st = f64_add b a st /\ f64_mul a b st = f64_mul b a st).
Proof.
  repeat split; intros;
    rewrite ?f16_add_correct, ?f32_add_correct, ?f64_add_correct, ?f16_mul_correct, ?f32_mul_correct, ?f64_mul_correct by assumption;
    auto using ieee_add_comm, ieee_mul_comm.
Qed.

Lemma arithmetic_commutes_witness :
  f16_add 0x0001 0xFBFF softfloat_state_init = f16_add 0xFBFF 0x0001 softfloat_state_init.
Proof.
  apply (proj1 (arithmetic_commutes 0x0001 0xFBFF softfloat_state_init)); split; reflexivity || discriminate.
Defined.

(** ** Rounding and packing *)

(** Rounding and packing is correct rounding: for a normalised significand
    with its guard bits and any exponent, the routine delivers the pattern and
    the flags of the value [sig * 2 ^ (exp - g + emin)] rounded once, through
    its overflow, subnormal and carry branches, in all six rounding modes and
    both tininess modes. *)
Theorem roundPack_correct sign exp sig st :
  (2 ^ 14 <= sig < 2 ^ 15 -> - 2 ^ 31 <= exp < 2 ^ 31 ->
     softfloat_roundPackToF16 sign exp sig st = round_result F16 sign sig (exp - 4 + emin F16) st) /\
  (2 ^ 30 <= sig < 2 ^ 31 -> - 2 ^ 31 <= exp < 2 ^ 31 ->
     softfloat_roundPackToF32 sign exp sig st = round_result F32 sign sig (exp - 7 + emin F32) st) /\
  (2 ^ 62 <= sig < 2 ^ 63 -> - 2 ^ 15 <= exp < 2 ^ 15 ->
     softfloat_roundPackToF64 sign exp sig st = round_result F64 sign sig (exp - 10 + emin F64) st).
Proof. auto using roundPackToF16_correct, roundPackToF32_correct, roundPackToF64_correct. Qed.

(** A significand of all ones carries into the exponent; below the normal range
    it is jammed into a subnormal with underflow. *)
Lemma roundPack_correct_witness :
  softfloat_roundPackToF32 false 0x7E 0x7FFFFFFF softfloat_state_init = (0x40000000, raise softfloat_flag_inexact softfloat_state_init) /\
  softfloat_roundPackToF32 true (-20) 0x40000001 softfloat_state_init
    = (0x80000008, raise (softfloat_flag_underflow .| softfloat_flag_inexact) softfloat_state_init).
Proof.
  split.
  - rewrite (proj1 (proj2 (roundPack_correct false 0x7E 0x7FFFFFFF softfloat_state_init))) by lia. vm_compute. reflexivity.
  - rewrite (proj1 (proj2 (roundPack_correct true (-20) 0x40000001 softfloat_state_init))) by lia. vm_compute. reflexivity.
Defined.

(** Normalising, rounding and packing is correct rounding for every positive
    significand below the sign position, the shortcut that packs without
    rounding included. *)
Theorem normRoundPack_correct sign exp sig st :
  (0 < sig < 2 ^ 15 -> - 2 ^ 31 + 64 <= exp < 2 ^ 31 ->
     softfloat_normRoundPackToF16 sign exp sig st = round_result F16 sign sig (exp - 4 + emin F16) st) /\
  (0 < sig < 2 ^ 31 -> - 2 ^ 31 + 64 <= exp < 2 ^ 31 ->
     softfloat_normRoundPackToF32 sign exp sig st = round_result F32 sign sig (exp - 7 + emin F32) st) /\
  (0 < sig < 2 ^ 63 -> - 2 ^ 15 + 64 <= exp < 2 ^ 15 ->
     softfloat_normRoundPackToF64 sign exp sig st = round_result F64 sign sig (exp - 10 + emin F64) st).
Proof. auto using normRoundPackToF16_correct, normRoundPackToF32_correct, normRoundPackToF64_correct. Qed.

Lemma normRoundPack_correct_witness :
  softfloat_normRoundPackToF64 false 0x43C 3 softfloat_state_init = (0x4008000000000000, softfloat_state_init).
Proof.
  rewrite (proj2 (proj2 (normRoundPack_correct false 0x43C 3 softfloat_state_init))) by lia. vm_compute. reflexivity.
Defined.

(** ** Primitives *)

(** The shift-right-and-jam primitives compute the quotient with its last
    bit set when anything was shifted out, for every distance, and the leading
    zero counters count; neither depends on undefined shifts. *)
Theorem primitives_correct a d :
  (0 <= a < 2 ^ 32 -> 0 < d -> softfloat_shiftRightJam32 a d = jam a d) /\
  (0 <= a < 2 ^ 64 -> 0 < d -> softfloat_shiftRightJam64 a d = jam a d) /\
  (0 <= a < 2 ^ 64 -> 0 < d < 64 -> softfloat_shortShiftRightJam64 a d = jam a d) /\
  (0 <= a < 2 ^ 16 -> softfloat_countLeadingZeros16 a = clz 16 a) /\
  (0 <= a < 2 ^ 32 -> softfloat_countLeadingZeros32 a = clz 32 a) /\
  (0 <= a < 2 ^ 64 -> softfloat_countLeadingZeros64 a = clz 64 a).
Proof.
  auto 10 using shiftRightJam32_jam, shiftRightJam64_jam, shortShiftRightJam64_jam,
    countLeadingZeros16_spec, countLeadingZeros32_spec, countLeadingZeros64_spec.
Qed.

Lemma primitives_correct_witness : softfloat_shiftRightJam32 0x80000001 200 = 1 /\ softfloat_countLeadingZeros64 1 = 63.
Proof.
  split.
  - rewrite (proj1 (primitives_correct 0x80000001 200)) by lia. vm_compute. reflexivity.
  - rewrite (proj2 (proj2 (proj2 (proj2 (proj2 (primitives_correct 1 1)))))) by lia. vm_compute. reflexivity.
Defined.

(** The 64-by-64-bit multiplication from 32-bit halves is exact: the two
    words are in range and make up the product, no carry is lost. *)
Theorem mul64To128_exact a b :
  0 <= a < 2 ^ 64 -> 0 <= b < 2 ^ 64 ->
  let (hi, lo) := softfloat_mul64To128 a b in
  0 <= hi < 2 ^ 64 /\ 0 <= lo < 2 ^ 64 /\ hi * 2 ^ 64 + lo = a * b.
Proof.
  intros Ha Hb. rewrite mul64To128_correct by assumption.
  pose proof (Z_div_mod_eq_full (a * b) (2 ^ 64)). pose proof (Z.mod_pos_bound (a * b) (2 ^ 64) ltac:(lia)).
  assert (0 <= a * b < 2 ^ 64 * 2 ^ 64) by nia. set (P := 2 ^ 64) in *.
  split; [split; [apply Z.div_pos; lia|apply Z.div_lt_upper_bound; lia]|]. lia.
Qed.

Lemma mul64To128_exact_witness : softfloat_mul64To128 0xFFFFFFFFFFFFFFFF 0xFFFFFFFFFFFFFFFF = (0xFFFFFFFFFFFFFFFE, 1).
Proof.
  pose proof (mul64To128_exact 0xFFFFFFFFFFFFFFFF 0xFFFFFFFFFFFFFFFF ltac:(lia) ltac:(lia)) as Hm.
  destruct (softfloat_mul64To128 _ _) as [hi lo]. f_equal; lia.
Defined.

(** ** Comparisons *)

(** A comparison routine decides a relation of the values, false and invalid
    (always, or for a signaling operand only) when an operand is a NaN. *)
Definition compares (f : fmt) (signaling : bool) (test : Z -> Z -> bool) (cmp : Z -> Z -> fp bool) : Prop :=
  forall a b st, is_pattern f a -> is_pattern f b -> cmp a b st = ieee_cmp f signaling test a b st.

(** The eighteen comparison routines decide equality and order of the
    values of their operands: zeros of both signs are equal, infinities bound
    the numbers, a NaN compares false, and the quiet routines raise invalid for
    a signaling NaN only while the signaling ones raise it for every NaN. *)
Theorem comparisons_correct :
  (compares F16 false Z.eqb f16_eq /\ compares F16 true Z.eqb f16_eq_signaling /\ compares F16 true Z.leb f16_le
   /\ compares F16 false Z.leb f16_le_quiet /\ compares F16 true Z.ltb f16_lt /\ compares F16 false Z.ltb f16_lt_quiet) /\
  (compares F32 false Z.eqb f32_eq /\ compares F32 true Z.eqb f32_eq_signaling /\ compares F32 true Z.leb f32_le
   /\ compares F32 false Z.leb f32_le_quiet /\ compares F32 true Z.ltb f32_lt /\ compares F32 false Z.ltb f32_lt_quiet) /\
  (compares F64 false Z.eqb f64_eq /\ compares F64 true Z.eqb f64_eq_signaling /\ compares F64 true Z.leb f64_le
   /\ compares F64 false Z.leb f64_le_quiet /\ compares F64 true Z.ltb f64_lt /\ compares F64 false Z.ltb f64_lt_quiet).
Proof.
  repeat apply conj; intros a b st Ha Hb;
    auto using f16_eq_correct, f16_eq_signaling_correct, f16_le_correct, f16_le_quiet_correct, f16_lt_correct, f16_lt_quiet_correct,
      f32_eq_correct, f32_eq_signaling_correct, f32_le_correct, f32_le_quiet_correct, f32_lt_correct, f32_lt_quiet_correct,
      f64_eq_correct, f64_eq_signaling_correct, f64_le_correct, f64_le_quiet_correct, f64_lt_correct, f64_lt_quiet_correct.
Qed.

Lemma comparisons_correct_witness :
  f32_eq 0x80000000 0 softfloat_state_init = (true, softfloat_state_init) /\
  f32_le 0x7FC00000 0 softfloat_state_init = (false, raise softfloat_flag_invalid softfloat_state_init).
Proof.
  split.
  - rewrite (proj1 (proj1 (proj2 comparisons_correct))) by (split; reflexivity || discriminate). vm_compute. reflexivity.
  - rewrite (proj1 (proj2 (proj2 (proj1 (proj2 comparisons_correct))))) by (split; reflexivity || discriminate). vm_compute. reflexivity.
Defined.

(** Classification is one-hot: every pattern gets exactly the mask bit of its
    class among the ten RISC-V classes, and the signaling-NaN test agrees. *)
Theorem classify_correct a :
  (is_pattern F16 a -> f16_classify a = 2 ^ class_of F16 a /\ f16_isSignalingNaN a = (class_of F16 a =? 8)) /\
  (is_pattern F32 a -> f32_classify a = 2 ^ class_of F32 a /\ f32_isSignalingNaN a = (class_of F32 a =? 8)) /\
  (is_pattern F64 a -> f64_classify a = 2 ^ class_of F64 a /\ f64_isSignalingNaN a = (class_of F64 a =? 8)).
Proof.
  destruct (isSignalingNaN_correct a) as (-> & -> & ->).
  assert (H : forall f, is_snan f a = (class_of f a =? 8)).
  { intros f. unfold class_of, is_snan. destruct (is_nan f a); cbn [andb]; [now destruct (_ <? _)|].
    destruct (is_inf f a), (f_sign f a), (f_mag f a =? 0), (f_exp f a =? 0); reflexivity. }
  rewrite !H. auto using f16_classify_correct, f32_classify_correct, f64_classify_correct.
Qed.

Lemma classify_correct_witness : f32_classify 0x7F800001 = 2 ^ 8 /\ f32_isSignalingNaN 0x7F800001 = true.
Proof.
  destruct (proj1 (proj2 (classify_correct 0x7F800001))) as [-> ->]; [split; reflexivity || discriminate|].
  split; vm_compute; reflexivity.
Defined.

(** ** Conversions *)

(** The twelve conversions from 32- and 64-bit integers, signed and unsigned,
    deliver the integer rounded once to the format, with its flags; the most
    negative integer, zero and the jammed large integers included. *)
Theorem from_int_correct a st :
  (uint_ok 32 a -> ui32_to_f16 a st = ieee_of_int F16 a st /\ ui32_to_f32 a st = ieee_of_int F32 a st
                   /\ ui32_to_f64 a st = ieee_of_int F64 a st) /\
  (sint_ok 32 a -> i32_to_f16 a st = ieee_of_int F16 a st /\ i32_to_f32 a st = ieee_of_int F32 a st
                   /\ i32_to_f64 a st = ieee_of_int F64 a st) /\
  (uint_ok 64 a -> ui64_to_f16 a st = ieee_of_int F16 a st /\ ui64_to_f32 a st = ieee_of_int F32 a st
                   /\ ui64_to_f64 a st = ieee_of_int F64 a st) /\
  (sint_ok 64 a -> i64_to_f16 a st = ieee_of_int F16 a st /\ i64_to_f32 a st = ieee_of_int F32 a st
                   /\ i64_to_f64 a st = ieee_of_int F64 a st).
Proof.
  repeat split;
    auto using ui32_to_f16_correct, ui32_to_f32_correct, ui32_to_f64_correct, i32_to_f16_correct, i32_to_f32_correct,
      i32_to_f64_correct, ui64_to_f16_correct, ui64_to_f32_correct, ui64_to_f64_correct, i64_to_f16_correct,
      i64_to_f32_correct, i64_to_f64_correct.
Qed.

Lemma from_int_correct_witness :
  i32_to_f32 (- 2 ^ 31) softfloat_state_init = (0xCF000000, softfloat_state_init).
Proof.
  rewrite (proj1 (proj2 (proj1 (proj2 (from_int_correct (- 2 ^ 31) softfloat_state_init)) ltac:(unfold sint_ok; lia)))).
  vm_compute. reflexivity.
Defined.

(** The six conversions between the formats are one rounding of the value
    (exact where the target is wider), keep infinities and the sign of zero, and
    turn every NaN into the default NaN, invalid for a signaling one. *)
Theorem float_to_float_correct a st :
  (is_pattern F16 a -> f16_to_f32 a st = ieee_convert F16 F32 a st /\ f16_to_f64 a st = ieee_convert F16 F64 a st) /\
  (is_pattern F32 a -> f32_to_f16 a st = ieee_convert F32 F16 a st /\ f32_to_f64 a st = ieee_convert F32 F64 a st) /\
  (is_pattern F64 a -> f64_to_f16 a st = ieee_convert F64 F16 a st /\ f64_to_f32 a st = ieee_convert F64 F32 a st).
Proof.
  auto using f16_to_f32_correct, f16_to_f64_correct, f32_to_f16_correct, f32_to_f64_correct, f64_to_f16_correct, f64_to_f32_correct.
Qed.

Lemma float_to_float_correct_witness :
  f64_to_f32 0x3FB999999999999A softfloat_state_init = (0x3DCCCCCD, raise softfloat_flag_inexact softfloat_state_init).
Proof.
  rewrite (proj2 (proj2 (proj2 (float_to_float_correct 0x3FB999999999999A softfloat_state_init)) ltac:(split; reflexivity || discriminate))).
  vm_compute. reflexivity.
Defined.

(** Widening and narrowing back is the identity: a number or infinity of the
    smaller format returns unchanged, whatever the rounding mode, and no flag is
    raised on the way. *)
Theorem widen_narrow_roundtrip a st :
  (is_pattern F16 a -> is_nan F16 a = false ->
     (w <- f16_to_f32 a;; f32_to_f16 w) st = (a, st) /\ (w <- f16_to_f64 a;; f64_to_f16 w) st = (a, st)) /\
  (is_pattern F32 a -> is_nan F32 a = false -> (w <- f32_to_f64 a;; f64_to_f32 w) st = (a, st)).
Proof.
  assert (Hst : forall f1 f2, fmt_ok f1 -> fmt_ok f2 -> fb f1 <= fb f2 ->
      fb f1 <= emin f1 - (fb f2 - fb f1) - emin f2 -> emin f1 - (fb f2 - fb f1) - emin f2 + max_exp f1 < max_exp f2 ->
      is_pattern f1 a -> is_nan f1 a = false ->
      is_pattern f2 (fst (ieee_convert f1 f2 a st)) /\ snd (ieee_convert f1 f2 a st) = st
      /\ ieee_convert f2 f1 (fst (ieee_convert f1 f2 a st)) st = (a, st)).
  { intros f1 f2 H1 H2 H3 H4 H5 Hp Hn. pose proof (narrow_widened f1 f2 H1 H2 H3 H4 H5 a st st Hp Hn).
    destruct (is_finite f1 a) eqn:Hfin; [destruct (widen_value f1 f2 H1 H2 H3 H4 H5 a st Hfin) as (? & ? & _); auto|].
    assert (Hi : is_inf f1 a = true) by (unfold is_finite, is_nan, is_inf in *; destruct (_ =? max_exp f1), (f_frac f1 a =? 0); easy).
    split; [|split; [|assumption]]; unfold ieee_convert; rewrite Hn, Hi; cbn [fst snd]; [|reflexivity].
    pose proof (max_exp_ge f2 H2). pose proof (pow2_pos (fb f2) ltac:(destruct H2; lia)).
    destruct (fields_pattern f2 H2 (f_sign f1 a) (max_exp f2) 0 ltac:(lia) ltac:(lia)) as (Hp2 & _).
    cbv zeta in Hp2. now rewrite Z.add_0_r in Hp2. }
  split; [intros Hp Hn; split|intros Hp Hn]; unfold fbind.
  - rewrite f16_to_f32_correct by assumption.
    destruct (Hst F16 F32) as (Hw & Hs & Hr); try easy. destruct (ieee_convert F16 F32 a st) as [w st'].
    cbn [fst snd] in *. subst st'. now rewrite f32_to_f16_correct.
  - rewrite f16_to_f64_correct by assumption.
    destruct (Hst F16 F64) as (Hw & Hs & Hr); try easy. destruct (ieee_convert F16 F64 a st) as [w st'].
    cbn [fst snd] in *. subst st'. now rewrite f64_to_f16_correct.
  - rewrite f32_to_f64_correct by assumption.
    destruct (Hst F32 F64) as (Hw & Hs & Hr); try easy. destruct (ieee_convert F32 F64 a st) as [w st'].
    cbn [fst snd] in *. subst st'. now rewrite f64_to_f32_correct.
Qed.

Lemma widen_narrow_roundtrip_witness :
  (w <- f16_to_f32 0x8001;; f32_to_f16 w) softfloat_state_init = (0x8001, softfloat_state_init).
Proof.
  apply (proj1 (widen_narrow_roundtrip 0x8001 softfloat_state_init)); [split; reflexivity || discriminate|].
  vm_compute. reflexivity.
Defined.

(** ** Integers that fit the significand *)

Section Exact.
Context (f : fmt) (Hf : fmt_ok f) (V : Z) (st : fp_state).
Hypothesis Hroom : - emin f + 2 < max_exp f.
Hypothesis Hemin : emin f <= 0.
Hypothesis HV : Z.abs V < 2 ^ (fb f + 1).

Lemma int_value :
  snd (ieee_of_int f V st) = st /\ is_pattern f (fst (ieee_of_int f V st)) /\ is_finite f (fst (ieee_of_int f V st)) = true
  /\ f_val f (fst (ieee_of_int f V st)) = V * 2 ^ (- emin f).
Proof.
  destruct (Z.eq_dec V 0) as [H0|Hne].
  - rewrite H0. unfold ieee_of_int, ieee_round. rewrite Z.eqb_refl. cbn [fst snd sign_bit].
    destruct (zero_val f Hf) as (_ & Hz & Hfin & _). pose proof (pow2_pos (fb f + eb f + 1) ltac:(destruct Hf; lia)).
    split; [reflexivity|]. split; [split; lia|]. split; [exact Hfin|]. exact Hz.
  - rewrite of_int_nonzero by exact Hne.
    pose proof (Z.log2_lt_pow2 (Z.abs V) (fb f + 1) ltac:(lia)) as [Hl _]. specialize (Hl HV).
    assert (Hk : ulp_exp f (Z.abs V) 0 - 0 <= 0) by (unfold ulp_exp; lia).
    destruct (rounded_range f Hf (V <? 0) (Z.abs V) 0 st ltac:(lia)) as (He & HR & _).
    pose proof (pow2_pos (fb f) ltac:(destruct Hf; lia)). rewrite pow2_succ in HR by (destruct Hf; lia).
    assert (Hno : round_mag f (softfloat_roundingMode st) (V <? 0) (Z.abs V) 0 < inf_mag f).
    { unfold round_mag, inf_mag. unfold ulp_exp in *. nia. }
    pose proof (rounded_value f Hf (V <? 0) (Z.abs V) 0 st ltac:(lia) Hno) as (Hp & Hfin & Hs & _).
    pose proof (error_exact f Hf (V <? 0) (Z.abs V) 0 st ltac:(lia) Hno Hk) as Hx.
    replace (Z.max 0 (emin f - 0)) with 0 in Hx by lia. replace (Z.max 0 (0 - emin f)) with (- emin f) in Hx by lia.
    rewrite Z.pow_0_r, Z.mul_1_r in Hx. repeat split; try apply Hp; trivial.
    + unfold round_result. replace (inf_mag f <=? _) with false by (symmetry; apply Z.leb_gt; lia). cbn [snd].
      unfold round_flags, cut_exact. destruct (Z.leb_spec (ulp_exp f (Z.abs V) 0 - 0) 0); [|lia]. apply raise_0.
    + unfold f_val. rewrite Hs, Hx. destruct (Z.ltb_spec V 0); lia.
Qed.

Lemma int_roundtrip lo hi rm exact :
  lo <= V <= hi ->
  ieee_to_int f lo hi rm exact (fst (ieee_of_int f V st)) st = (V, st).
Proof.
  intros HVr. destruct int_value as (_ & Hp & Hfin & Hval). set (w := fst _) in *.
  destruct (finite_cases f Hf w Hfin) as (_ & _ & _ & Hx). rewrite to_int_finite by exact Hx.
  pose proof (f_mag_nonneg f Hf w). pose proof (pow2_pos (- emin f) ltac:(lia)).
  assert (Hmag : f_mag f w = Z.abs V * 2 ^ (- emin f)) by (unfold f_val in Hval; destruct (f_sign f w); nia).
  assert (HVs : (if f_sign f w then - Z.abs V else Z.abs V) = V).
  { unfold f_val in Hval. rewrite Hmag in Hval. destruct (f_sign f w); nia. }
  rewrite Hmag. pose proof (round_shift_scale rm (f_sign f w) (Z.abs V) 0 (- emin f) ltac:(lia) ltac:(lia)) as Hr.
  pose proof (cut_exact_scale (Z.abs V) 0 (- emin f) ltac:(lia)) as Hc. rewrite Z.add_0_l in *.
  rewrite Hr, Hc, round_shift_0. unfold int_result. cbv zeta. rewrite HVs. cbn [cut_exact Z.leb orb negb].
  replace ((lo <=? V) && (V <=? hi)) with true by (symmetry; apply andb_true_iff; rewrite !Z.leb_le; lia).
  change (cut_exact (Z.abs V) 0) with true. cbn [negb]. now rewrite andb_false_r, raise_0.
Qed.
End Exact.

(** ** Theorems *)

(** C40: The eighteen conversions with a rounding mode deliver the value rounded
    once to an integer when it is in the range of the target, raising inexact
    only when asked to and only when the value was not an integer; out of range
    they deliver the nearest bound with invalid and nothing else, for infinities
    too, and the upper bound for NaNs.  The mode [odd] acts as rounding toward
    zero. *)
Theorem float_to_int_correct a rm exact st :
  (is_pattern F16 a ->
     f16_to_i8 a rm exact st = ieee_to_int F16 (- 2 ^ 7) (2 ^ 7 - 1) (int_mode rm) exact a st /\
     f16_to_ui8 a rm exact st = ieee_to_int F16 0 (2 ^ 8 - 1) (int_mode rm) exact a st /\
     f16_to_i16 a rm exact st = ieee_to_int F16 (- 2 ^ 15) (2 ^ 15 - 1) (int_mode rm) exact a st /\
     f16_to_ui16 a rm exact st = ieee_to_int F16 0 (2 ^ 16 - 1) (int_mode rm) exact a st /\
     f16_to_i32 a rm exact st = ieee_to_int F16 (- 2 ^ 31) (2 ^ 31 - 1) (int_mode rm) exact a st /\
     f16_to_ui32 a rm exact st = ieee_to_int F16 0 (2 ^ 32 - 1) (int_mode rm) exact a st /\
     f16_to_i64 a rm exact st = ieee_to_int F16 (- 2 ^ 63) (2 ^ 63 - 1) (int_mode rm) exact a st /\
     f16_to_ui64 a rm exact st = ieee_to_int F16 0 (2 ^ 64 - 1) (int_mode rm) exact a st) /\
  (is_pattern F32 a ->
     f32_to_i16 a rm exact st = ieee_to_int F32 (- 2 ^ 15) (2 ^ 15 - 1) (int_mode rm) exact a st /\
     f32_to_ui16 a rm exact st = ieee_to_int F32 0 (2 ^ 16 - 1) (int_mode rm) exact a st /\
     f32_to_i32 a rm exact st = ieee_to_int F32 (- 2 ^ 31) (2 ^ 31 - 1) (int_mode rm) exact a st /\
     f32_to_ui32 a rm exact st = ieee_to_int F32 0 (2 ^ 32 - 1) (int_mode rm) exact a st /\
     f32_to_i64 a rm exact st = ieee_to_int F32 (- 2 ^ 63) (2 ^ 63 - 1) (int_mode rm) exact a st /\
     f32_to_ui64 a rm exact st = ieee_to_int F32 0 (2 ^ 64 - 1) (int_mode rm) exact a st) /\
  (is_pattern F64 a ->
     f64_to_i32 a rm exact st = ieee_to_int F64 (- 2 ^ 31) (2 ^ 31 - 1) (int_mode rm) exact a st /\
     f64_to_ui32 a rm exact st = ieee_to_int F64 0 (2 ^ 32 - 1) (int_mode rm) exact a st /\
     f64_to_i64 a rm exact st = ieee_to_int F64 (- 2 ^ 63) (2 ^ 63 - 1) (int_mode rm) exact a st /\
     f64_to_ui64 a rm exact st = ieee_to_int F64 0 (2 ^ 64 - 1) (int_mode rm) exact a st).
Proof.
  split; [|split]; intros Ha; repeat split;
    auto using f16_to_i8_correct, f16_to_ui8_correct, f16_to_i16_correct, f16_to_ui16_correct, f16_to_i32_correct,
      f16_to_ui32_correct, f16_to_i64_correct, f16_to_ui64_correct, f32_to_i16_correct, f32_to_ui16_correct,
      f32_to_i32_correct, f32_to_ui32_correct, f32_to_i64_correct, f32_to_ui64_correct, f64_to_i32_correct,
      f64_to_ui32_correct, f64_to_i64_correct, f64_to_ui64_correct.
Qed.

(** Two and a half rounds to the even neighbour; minus one is invalid for an unsigned target. *)
Lemma float_to_int_correct_witness :
  f64_to_i32 0x4004000000000000 softfloat_round_near_even true softfloat_state_init
    = (2, raise softfloat_flag_inexact softfloat_state_init) /\
  f64_to_ui64 0xBFF0000000000000 softfloat_round_near_even true softfloat_state_init
    = (0, raise softfloat_flag_invalid softfloat_state_init).
Proof.
  split.
  - destruct (proj2 (proj2 (float_to_int_correct 0x4004000000000000 softfloat_round_near_even true softfloat_state_init)))
      as (-> & _); [split; reflexivity || discriminate|]. vm_compute. reflexivity.
  - destruct (proj2 (proj2 (float_to_int_correct 0xBFF0000000000000 softfloat_round_near_even true softfloat_state_init)))
      as (_ & _ & _ & ->); [split; reflexivity || discriminate|]. vm_compute. reflexivity.
Defined.

(** The twelve truncating conversions are the conversion in the mode toward
    zero, whatever their shortcut for small values, their test at the most
    negative integer and their way to detect lost bits. *)
Theorem truncation_correct a exact st :
  (is_pattern F16 a ->
     f16_to_i32_r_minMag a exact st = ieee_to_int F16 (- 2 ^ 31) (2 ^ 31 - 1) softfloat_round_minMag exact a st /\
     f16_to_ui32_r_minMag a exact st = ieee_to_int F16 0 (2 ^ 32 - 1) softfloat_round_minMag exact a st /\
     f16_to_i64_r_minMag a exact st = ieee_to_int F16 (- 2 ^ 63) (2 ^ 63 - 1) softfloat_round_minMag exact a st /\
     f16_to_ui64_r_minMag a exact st = ieee_to_int F16 0 (2 ^ 64 - 1) softfloat_round_minMag exact a st) /\
  (is_pattern F32 a ->
     f32_to_i32_r_minMag a exact st = ieee_to_int F32 (- 2 ^ 31) (2 ^ 31 - 1) softfloat_round_minMag exact a st /\
     f32_to_ui32_r_minMag a exact st = ieee_to_int F32 0 (2 ^ 32 - 1) softfloat_round_minMag exact a st /\
     f32_to_i64_r_minMag a exact st = ieee_to_int F32 (- 2 ^ 63) (2 ^ 63 - 1) softfloat_round_minMag exact a st /\
     f32_to_ui64_r_minMag a exact st = ieee_to_int F32 0 (2 ^ 64 - 1) softfloat_round_minMag exact a st) /\
  (is_pattern F64 a ->
     f64_to_i32_r_minMag a exact st = ieee_to_int F64 (- 2 ^ 31) (2 ^ 31 - 1) softfloat_round_minMag exact a st /\
     f64_to_ui32_r_minMag a exact st = ieee_to_int F64 0 (2 ^ 32 - 1) softfloat_round_minMag exact a st /\
     f64_to_i64_r_minMag a exact st = ieee_to_int F64 (- 2 ^ 63) (2 ^ 63 - 1) softfloat_round_minMag exact a st /\
     f64_to_ui64_r_minMag a exact st = ieee_to_int F64 0 (2 ^ 64 - 1) softfloat_round_minMag exact a st).
Proof.
  split; [|split]; intros Ha; repeat split;
    auto using f16_to_i32_r_minMag_correct, f16_to_ui32_r_minMag_correct, f16_to_i64_r_minMag_correct,
      f16_to_ui64_r_minMag_correct, f32_to_i32_r_minMag_correct, f32_to_ui32_r_minMag_correct,
      f32_to_i64_r_minMag_correct, f32_to_ui64_r_minMag_correct, f64_to_i32_r_minMag_correct,
      f64_to_ui32_r_minMag_correct, f64_to_i64_r_minMag_correct, f64_to_ui64_r_minMag_correct.
Qed.

(** Just below minus two to the thirty-one truncates to the most negative integer. *)
Lemma truncation_correct_witness :
  f64_to_i32_r_minMag 0xC1E0000000000001 true softfloat_state_init
  = (- 2 ^ 31, raise softfloat_flag_inexact softfloat_state_init).
Proof.
  destruct (proj2 (proj2 (truncation_correct 0xC1E0000000000001 true softfloat_state_init))) as (-> & _);
    [split; reflexivity || discriminate|]. vm_compute. reflexivity.
Defined.

(** An integer that fits the significand survives the conversion to floating
    point and back, in every rounding mode and without a flag: all 32-bit
    integers through binary64, and those below two to the twenty-four through
    binary32. *)
Theorem int_float_roundtrip V rm exact st :
  (sint_ok 32 V -> (w <- i32_to_f64 V;; f64_to_i32 w rm exact) st = (V, st)) /\
  (uint_ok 32 V -> (w <- ui32_to_f64 V;; f64_to_ui32 w rm exact) st = (V, st)) /\
  (sint_ok 32 V -> Z.abs V < 2 ^ 24 -> (w <- i32_to_f32 V;; f32_to_i32 w rm exact) st = (V, st)).
Proof.
  unfold sint_ok, uint_ok, fbind. repeat split; intros Hr; [| |intros Ha].
  - rewrite i32_to_f64_correct by exact Hr.
    destruct (int_value F64 fmt_ok_F64 V st eq_refl ltac:(discriminate) ltac:(change (fb F64 + 1) with 53; lia)) as (Hst & Hp & _).
    pose proof (int_roundtrip F64 fmt_ok_F64 V st eq_refl ltac:(discriminate) ltac:(change (fb F64 + 1) with 53; lia)
      (- 2 ^ 31) (2 ^ 31 - 1) (int_mode rm) exact ltac:(lia)) as Hrt.
    destruct (ieee_of_int F64 V st) as [w st']. cbn [fst snd] in *. subst st'. now rewrite f64_to_i32_correct.
  - rewrite ui32_to_f64_correct by exact Hr.
    destruct (int_value F64 fmt_ok_F64 V st eq_refl ltac:(discriminate) ltac:(change (fb F64 + 1) with 53; lia)) as (Hst & Hp & _).
    pose proof (int_roundtrip F64 fmt_ok_F64 V st eq_refl ltac:(discriminate) ltac:(change (fb F64 + 1) with 53; lia)
      0 (2 ^ 32 - 1) (int_mode rm) exact ltac:(lia)) as Hrt.
    destruct (ieee_of_int F64 V st) as [w st']. cbn [fst snd] in *. subst st'. now rewrite f64_to_ui32_correct.
  - rewrite i32_to_f32_correct by exact Hr.
    destruct (int_value F32 fmt_ok_F32 V st eq_refl ltac:(discriminate) ltac:(change (fb F32 + 1) with 24; lia)) as (Hst & Hp & _).
    pose proof (int_roundtrip F32 fmt_ok_F32 V st eq_refl ltac:(discriminate) ltac:(change (fb F32 + 1) with 24; lia)
      (- 2 ^ 31) (2 ^ 31 - 1) (int_mode rm) exact ltac:(lia)) as Hrt.
    destruct (ieee_of_int F32 V st) as [w st']. cbn [fst snd] in *. subst st'. now rewrite f32_to_i32_correct.
Qed.

Lemma int_float_roundtrip_witness :
  (w <- i32_to_f64 (- 2 ^ 31);; f64_to_i32 w softfloat_round_max true) softfloat_state_init = (- 2 ^ 31, softfloat_state_init).
Proof. apply (proj1 (int_float_roundtrip (- 2 ^ 31) softfloat_round_max true softfloat_state_init)). unfold sint_ok. lia. Defined.

(** C21: Rounding to an integral value delivers, in the three formats, the operand rounded once to an integer in the mode
    that is passed, with the operand's sign when that integer is zero; a number without a fraction and an infinity come
    back unchanged, a NaN becomes the default NaN, with invalid when it is signaling.  Inexact is raised only when it is
    asked for and only when the operand was not an integer.  The mode [odd] acts as rounding toward zero. *)
Theorem round_to_int_correct a rm exact st :
  (is_pattern F16 a -> f16_roundToInt a rm exact st = ieee_round_to_int F16 (int_mode rm) exact a st) /\
  (is_pattern F32 a -> f32_roundToInt a rm exact st = ieee_round_to_int F32 (int_mode rm) exact a st) /\
  (is_pattern F64 a -> f64_roundToInt a rm exact st = ieee_round_to_int F64 (int_mode rm) exact a st).
Proof. split; [|split]; intros Ha; auto using f16_roundToInt_correct, f32_roundToInt_correct, f64_roundToInt_correct. Qed.

(** Two and a half rounds to the even neighbour; minus a quarter rounds up to minus zero. *)
Lemma round_to_int_correct_witness :
  f32_roundToInt 0x40200000 softfloat_round_near_even true softfloat_state_init = (0x40000000, raise softfloat_flag_inexact softfloat_state_init) /\
  f64_roundToInt 0xBFD0000000000000 softfloat_round_max false softfloat_state_init = (0x8000000000000000, softfloat_state_init).
Proof.
  split.
  - rewrite (proj1 (proj2 (round_to_int_correct 0x40200000 softfloat_round_near_even true softfloat_state_init))); [|split; reflexivity || discriminate].
    vm_compute. reflexivity.
  - rewrite (proj2 (proj2 (round_to_int_correct 0xBFD0000000000000 softfloat_round_max false softfloat_state_init))); [|split; reflexivity || discriminate].
    vm_compute. reflexivity.
Defined.

(** Minimum and maximum deliver one of their operands: the smaller and the larger value, minus zero below zero, a number
    rather than a NaN, and the default NaN for two NaNs; a signaling NaN raises invalid. *)
Theorem minmax_correct a b st :
  (is_pattern F16 a -> is_pattern F16 b -> f16_min a b st = ieee_min F16 a b st /\ f16_max a b st = ieee_max F16 a b st) /\
  (is_pattern F32 a -> is_pattern F32 b -> f32_min a b st = ieee_min F32 a b st /\ f32_max a b st = ieee_max F32 a b st) /\
  (is_pattern F64 a -> is_pattern F64 b -> f64_min a b st = ieee_min F64 a b st /\ f64_max a b st = ieee_max F64 a b st).
Proof.
  split; [|split]; intros Ha Hb; split;
    auto using f16_min_correct, f16_max_correct, f32_min_correct, f32_max_correct, f64_min_correct, f64_max_correct.
Qed.
