(* ===== verification/FdtBase.v ===== *)
(** * libfdt: memory, big-endian words and the blob header

    A device tree blob is a [list Z] of bytes and a pointer into it is an
    offset.  [outcome] separates the three ways a C function can end: it
    returns, it does something undefined (an access outside the buffer, a
    signed overflow), or a loop runs past the fuel it was given.

    Models [libfdt.h] (the unaligned loads and stores, the header accessors),
    [libfdt_env.h] (byte order), [fdt.h] (layout and tags) and the helpers of
    [libfdt_internal.h]. *)

From stdpp Require Import base option list.
From S2P Require Import Prelude.
From S2P Require Import BranchHash.

(** ** Outcomes *)

Inductive outcome (A : Type) : Type :=
| Ret (a : A)
| Undef
| Fuel.
Arguments Ret {A} a.
Arguments Undef {A}.
Arguments Fuel {A}.

#[global] Instance outcome_ret : MRet outcome := fun A a => Ret a.
#[global] Instance outcome_bind : MBind outcome := fun A B k m =>
  match m with Ret a => k a | Undef => Undef | Fuel => Fuel end.

#[global] Instance outcome_eq_dec {A} `{EqDecision A} : EqDecision (outcome A).
Proof. solve_decision. Defined.

(** Neither undefined behaviour nor missing fuel. *)
Definition returns {A} (m : outcome A) : Prop := exists a, m = Ret a.

Definition of_option {A} (x : option A) : outcome A :=
  match x with Some a => Ret a | None => Undef end.

(** The result of a signed [int] operation. *)
Definition int_chk (x : Z) : outcome Z := of_option (int_ok x).

Lemma bind_ret {A B} (a : A) (k : A -> outcome B) : (Ret a ≫= k) = k a.
Proof. reflexivity. Qed.

Lemma bind_Ret_inv {A B} (m : outcome A) (k : A -> outcome B) b :
  (m ≫= k) = Ret b -> exists a, m = Ret a /\ k a = Ret b.
Proof. destruct m; simpl; intros H; try discriminate. eauto. Qed.

Lemma int_chk_ok x : - 2 ^ 31 <= x < 2 ^ 31 -> int_chk x = Ret x.
Proof. intros Hx. unfold int_chk. by rewrite int_ok_Some. Qed.

Lemma int_chk_undef x : ~ (- 2 ^ 31 <= x < 2 ^ 31) -> int_chk x = Undef.
Proof.
  intros Hx. unfold int_chk, int_ok.
  destruct (Z.leb_spec (- 2 ^ 31) x), (Z.ltb_spec x (2 ^ 31)); simpl; lia || done.
Qed.

(** ** Bytes *)

Definition ld8 (m : list Z) (p : Z) : outcome Z := of_option (vget m p).

Definition st8 (m : list Z) (p v : Z) : outcome (list Z) := of_option (vset m p v).

(** [fdt32_ld], [fdt64_ld]: big-endian loads at any alignment. *)
Definition fdt32_ld (m : list Z) (p : Z) : outcome Z :=
  b0 ← ld8 m p; b1 ← ld8 m (p + 1); b2 ← ld8 m (p + 2); b3 ← ld8 m (p + 3);
  Ret (u32 (b0 .<< 24) .| (u32 (b1 .<< 16)) .| (u32 (b2 .<< 8)) .| b3).

Definition fdt64_ld (m : list Z) (p : Z) : outcome Z :=
  b0 ← ld8 m p; b1 ← ld8 m (p + 1); b2 ← ld8 m (p + 2); b3 ← ld8 m (p + 3);
  b4 ← ld8 m (p + 4); b5 ← ld8 m (p + 5); b6 ← ld8 m (p + 6); b7 ← ld8 m (p + 7);
  Ret (u64 (b0 .<< 56) .| (u64 (b1 .<< 48)) .| (u64 (b2 .<< 40)) .| (u64 (b3 .<< 32))
       .| (u64 (b4 .<< 24)) .| (u64 (b5 .<< 16)) .| (u64 (b6 .<< 8)) .| b7).

Definition fdt32_st (m : list Z) (p value : Z) : outcome (list Z) :=
  m ← st8 m p (u8 (value .>> 24));
  m ← st8 m (p + 1) (u8 ((value .>> 16) .& 0xff));
  m ← st8 m (p + 2) (u8 ((value .>> 8) .& 0xff));
  st8 m (p + 3) (u8 (value .& 0xff)).

Definition fdt64_st (m : list Z) (p value : Z) : outcome (list Z) :=
  m ← st8 m p (u8 (value .>> 56));
  m ← st8 m (p + 1) (u8 ((value .>> 48) .& 0xff));
  m ← st8 m (p + 2) (u8 ((value .>> 40) .& 0xff));
  m ← st8 m (p + 3) (u8 ((value .>> 32) .& 0xff));
  m ← st8 m (p + 4) (u8 ((value .>> 24) .& 0xff));
  m ← st8 m (p + 5) (u8 ((value .>> 16) .& 0xff));
  m ← st8 m (p + 6) (u8 ((value .>> 8) .& 0xff));
  st8 m (p + 7) (u8 (value .& 0xff)).

(** The host is little-endian: the n-th byte in memory of an integer object is
    its n-th least significant one. *)
Definition EXTRACT_BYTE (x n : Z) : Z := (x .>> (8 * n)) .& 0xff.

Definition fdt32_to_cpu (x : Z) : Z :=
  u32 ((EXTRACT_BYTE x 0 .<< 24) .| (EXTRACT_BYTE x 1 .<< 16)
       .| (EXTRACT_BYTE x 2 .<< 8) .| EXTRACT_BYTE x 3).

Definition cpu_to_fdt32 (x : Z) : Z :=
  u32 ((EXTRACT_BYTE x 0 .<< 24) .| (EXTRACT_BYTE x 1 .<< 16)
       .| (EXTRACT_BYTE x 2 .<< 8) .| EXTRACT_BYTE x 3).

Definition cpu_to_fdt64 (x : Z) : Z :=
  u64 ((EXTRACT_BYTE x 0 .<< 56) .| (EXTRACT_BYTE x 1 .<< 48)
       .| (EXTRACT_BYTE x 2 .<< 40) .| (EXTRACT_BYTE x 3 .<< 32)
       .| (EXTRACT_BYTE x 4 .<< 24) .| (EXTRACT_BYTE x 5 .<< 16)
       .| (EXTRACT_BYTE x 6 .<< 8) .| EXTRACT_BYTE x 7).

(** A plain access to an integer object of the host. *)
Definition load32 (m : list Z) (p : Z) : outcome Z :=
  b0 ← ld8 m p; b1 ← ld8 m (p + 1); b2 ← ld8 m (p + 2); b3 ← ld8 m (p + 3);
  Ret (b0 .| (b1 .<< 8) .| (b2 .<< 16) .| (b3 .<< 24)).

Definition store32 (m : list Z) (p x : Z) : outcome (list Z) :=
  m ← st8 m p (EXTRACT_BYTE x 0); m ← st8 m (p + 1) (EXTRACT_BYTE x 1);
  m ← st8 m (p + 2) (EXTRACT_BYTE x 2); st8 m (p + 3) (EXTRACT_BYTE x 3).

Definition store64 (m : list Z) (p x : Z) : outcome (list Z) :=
  m ← st8 m p (EXTRACT_BYTE x 0); m ← st8 m (p + 1) (EXTRACT_BYTE x 1);
  m ← st8 m (p + 2) (EXTRACT_BYTE x 2); m ← st8 m (p + 3) (EXTRACT_BYTE x 3);
  m ← st8 m (p + 4) (EXTRACT_BYTE x 4); m ← st8 m (p + 5) (EXTRACT_BYTE x 5);
  m ← st8 m (p + 6) (EXTRACT_BYTE x 6); st8 m (p + 7) (EXTRACT_BYTE x 7).

(** [memcpy(p, bs, length bs)], from an object outside the blob. *)
Fixpoint write (m : list Z) (p : Z) (bs : list Z) : outcome (list Z) :=
  match bs with
  | [] => Ret m
  | b :: bs => m ← st8 m p b; write m (p + 1) bs
  end.

(** The [n] bytes at [p]. *)
Fixpoint read (m : list Z) (p : Z) (n : nat) : outcome (list Z) :=
  match n with
  | O => Ret []
  | S n => b ← ld8 m p; bs ← read m (p + 1) n; Ret (b :: bs)
  end.

(** [memmove(dst, src, n)] inside the blob. *)
Definition memmove (m : list Z) (dst src n : Z) : outcome (list Z) :=
  bs ← read m src (Z.to_nat n); write m dst bs.

(** [memset(p, c, n)] *)
Definition memset (m : list Z) (p c n : Z) : outcome (list Z) :=
  write m p (replicate (Z.to_nat n) c).

(** [memcmp(p, s, length s) == 0]; every byte of both objects must exist. *)
Definition memcmp_eq (m : list Z) (p : Z) (s : list Z) : outcome bool :=
  bs ← read m p (length s); Ret (bool_decide (bs = s)).

(** [memchr(p, c, n)]: the offset from [p] of the first byte [c]. *)
Fixpoint memchr (m : list Z) (p c : Z) (n : nat) : outcome (option Z) :=
  match n with
  | O => Ret None
  | S n =>
      b ← ld8 m p;
      if b =? c then Ret (Some 0)
      else r ← memchr m (p + 1) c n; Ret (option_map Z.succ r)
  end.

(** [strlen(p)]: the fuel is the buffer, past which the scan is undefined. *)
Fixpoint strlen_loop (fuel : nat) (m : list Z) (p : Z) : outcome Z :=
  match fuel with
  | O => Fuel
  | S fuel =>
      b ← ld8 m p;
      if b =? 0 then Ret 0 else n ← strlen_loop fuel m (p + 1); Ret (n + 1)
  end.

Definition strlen (m : list Z) (p : Z) : outcome Z := strlen_loop (S (length m)) m p.

(** ** Layout and constants *)

Definition FDT_MAGIC : Z := 0xd00dfeed.
Definition FDT_SW_MAGIC : Z := u32 (Z.lnot FDT_MAGIC).
Definition FDT_TAGSIZE : Z := 4.
Definition FDT_BEGIN_NODE : Z := 0x1.
Definition FDT_END_NODE : Z := 0x2.
Definition FDT_PROP : Z := 0x3.
Definition FDT_NOP : Z := 0x4.
Definition FDT_END : Z := 0x9.
Definition FDT_V1_SIZE : Z := 28.
Definition FDT_V2_SIZE : Z := 32.
Definition FDT_V3_SIZE : Z := 36.
Definition FDT_V16_SIZE : Z := 36.
Definition FDT_V17_SIZE : Z := 40.
Definition FDT_FIRST_SUPPORTED_VERSION : Z := 0x02.
Definition FDT_LAST_SUPPORTED_VERSION : Z := 0x11.
Definition FDT_ERR_NOTFOUND : Z := 1.
Definition FDT_ERR_EXISTS : Z := 2.
Definition FDT_ERR_NOSPACE : Z := 3.
Definition FDT_ERR_BADOFFSET : Z := 4.
Definition FDT_ERR_BADPATH : Z := 5.
Definition FDT_ERR_BADPHANDLE : Z := 6.
Definition FDT_ERR_BADSTATE : Z := 7.
Definition FDT_ERR_TRUNCATED : Z := 8.
Definition FDT_ERR_BADMAGIC : Z := 9.
Definition FDT_ERR_BADVERSION : Z := 10.
Definition FDT_ERR_BADSTRUCTURE : Z := 11.
Definition FDT_ERR_BADLAYOUT : Z := 12.
Definition FDT_ERR_INTERNAL : Z := 13.
Definition FDT_ERR_BADNCELLS : Z := 14.
Definition FDT_ERR_BADVALUE : Z := 15.
Definition FDT_ERR_BADOVERLAY : Z := 16.
Definition FDT_ERR_NOPHANDLES : Z := 17.
Definition FDT_ERR_BADFLAGS : Z := 18.
Definition FDT_MAX_PHANDLE : Z := 0xfffffffe.
Definition sizeof_fdt_header : Z := 40.
Definition sizeof_fdt_reserve_entry : Z := 16.
Definition sizeof_fdt_property : Z := 12.

Definition fdt_magic (m : list Z) := fdt32_ld m 0.
Definition fdt_totalsize (m : list Z) := fdt32_ld m 4.
Definition fdt_off_dt_struct (m : list Z) := fdt32_ld m 8.
Definition fdt_off_dt_strings (m : list Z) := fdt32_ld m 12.
Definition fdt_off_mem_rsvmap (m : list Z) := fdt32_ld m 16.
Definition fdt_version (m : list Z) := fdt32_ld m 20.
Definition fdt_last_comp_version (m : list Z) := fdt32_ld m 24.
Definition fdt_boot_cpuid_phys (m : list Z) := fdt32_ld m 28.
Definition fdt_size_dt_strings (m : list Z) := fdt32_ld m 32.
Definition fdt_size_dt_struct (m : list Z) := fdt32_ld m 36.

Definition fdt_set_magic (m : list Z) (val : Z) := store32 m 0 (cpu_to_fdt32 val).
Definition fdt_set_totalsize (m : list Z) (val : Z) := store32 m 4 (cpu_to_fdt32 val).
Definition fdt_set_off_dt_struct (m : list Z) (val : Z) := store32 m 8 (cpu_to_fdt32 val).
Definition fdt_set_off_dt_strings (m : list Z) (val : Z) := store32 m 12 (cpu_to_fdt32 val).
Definition fdt_set_off_mem_rsvmap (m : list Z) (val : Z) := store32 m 16 (cpu_to_fdt32 val).
Definition fdt_set_version (m : list Z) (val : Z) := store32 m 20 (cpu_to_fdt32 val).
Definition fdt_set_last_comp_version (m : list Z) (val : Z) := store32 m 24 (cpu_to_fdt32 val).
Definition fdt_set_boot_cpuid_phys (m : list Z) (val : Z) := store32 m 28 (cpu_to_fdt32 val).
Definition fdt_set_size_dt_strings (m : list Z) (val : Z) := store32 m 32 (cpu_to_fdt32 val).
Definition fdt_set_size_dt_struct (m : list Z) (val : Z) := store32 m 36 (cpu_to_fdt32 val).

(** [FDT_ALIGN] on a [size_t]. *)
Definition FDT_ALIGN (x a : Z) : Z := u64 (x + a - 1) .& u64 (Z.lnot (u64 (a - 1))).

Definition FDT_TAGALIGN (x : Z) : Z := FDT_ALIGN x FDT_TAGSIZE.

(** [fdt_offset_ptr_], [fdt_mem_rsv_]: pointers without checks. *)
Definition fdt_offset_ptr_ (m : list Z) (offset : Z) : outcome Z :=
  o ← fdt_off_dt_struct m; Ret (o + offset).

Definition fdt_mem_rsv_ (m : list Z) (n : Z) : outcome Z :=
  o ← fdt_off_mem_rsvmap m; Ret (o + n * sizeof_fdt_reserve_entry).
(** ** The blob as a total function of the address *)

Definition byte (m : list Z) (i : Z) : Z := default 0 (vget m i).

Definition is_byte (b : Z) : Prop := 0 <= b < 256.

Definition bytes_ok (m : list Z) : Prop := Forall is_byte m.

(** A big-endian word from its bytes. *)
Definition be (bs : list Z) : Z := foldl (fun acc b => acc * 256 + b) 0 bs.

Definition word (m : list Z) (p : Z) : Z :=
  be [byte m p; byte m (p + 1); byte m (p + 2); byte m (p + 3)].

Definition dword (m : list Z) (p : Z) : Z := word m p * 2 ^ 32 + word m (p + 4).

Definition be32 (v : Z) : list Z :=
  [(v / 2 ^ 24) mod 256; (v / 2 ^ 16) mod 256; (v / 2 ^ 8) mod 256; v mod 256].

Definition be64 (v : Z) : list Z := be32 (v / 2 ^ 32) ++ be32 v.

(** The blob after [bs] was copied to [p]. *)
Definition upd (m : list Z) (p : Z) (bs : list Z) : list Z :=
  take (Z.to_nat p) m ++ bs ++ drop (Z.to_nat p + length bs) m.

Definition slice (m : list Z) (p : Z) (n : nat) : list Z := take n (drop (Z.to_nat p) m).

Lemma vget_lookup_pos {A} (m : list A) i : 0 <= i -> vget m i = m !! Z.to_nat i.
Proof. intros Hi. unfold vget. by destruct (Z.ltb_spec i 0); [lia|]. Qed.

Lemma ld8_ok m p : 0 <= p < vsize m -> ld8 m p = Ret (byte m p).
Proof. intros Hp. unfold ld8, byte. destruct (vget_Some m p Hp) as (x & -> & _). done. Qed.

Lemma ld8_undef m p : ~ (0 <= p < vsize m) -> ld8 m p = Undef.
Proof.
  unfold ld8, vget, vsize. intros Hp. destruct (Z.ltb_spec p 0); [done|].
  rewrite lookup_ge_None_2; [done|lia].
Qed.

Lemma ld8_inv m p b : ld8 m p = Ret b -> 0 <= p < vsize m /\ b = byte m p.
Proof.
  intros H. destruct (decide (0 <= p < vsize m)) as [Hp|Hp].
  - rewrite ld8_ok in H by done. split; congruence.
  - by rewrite ld8_undef in H.
Qed.

Lemma byte_range m p : bytes_ok m -> is_byte (byte m p).
Proof.
  intros Hm. unfold byte, vget. destruct (p <? 0); [done|].
  destruct (m !! Z.to_nat p) eqn:E; [|done]. simpl. by eapply Forall_lookup_1 in E.
Qed.

Lemma lor_add a b k : 0 <= k -> 0 <= b < 2 ^ k -> (a * 2 ^ k) .| b = a * 2 ^ k + b.
Proof.
  intros Hk Hb. pose proof (Z.add_lor_land (a * 2 ^ k) b) as E.
  assert ((a * 2 ^ k) .& b = 0) as Hz; [|lia].
  rewrite <- shiftl_mul by lia. apply Z.bits_inj'. intros n Hn. rewrite Z.land_spec, Z.bits_0.
  destruct (Z.ltb_spec n k).
  - by rewrite Z.shiftl_spec_low.
  - rewrite <- (Z.mod_small b (2 ^ k)) by lia. by rewrite Z.mod_pow2_bits_high, andb_false_r by lia.
Qed.

Lemma be_lor b0 b1 b2 b3 :
  is_byte b0 -> is_byte b1 -> is_byte b2 -> is_byte b3 ->
  (b0 .<< 24) .| (b1 .<< 16) .| (b2 .<< 8) .| b3 = be [b0; b1; b2; b3].
Proof.
  unfold is_byte, be. intros. simpl. rewrite !shiftl_mul by lia.
  rewrite (lor_add b0 (b1 * 2 ^ 16) 24) by lia.
  replace (b0 * 2 ^ 24 + b1 * 2 ^ 16) with ((b0 * 256 + b1) * 2 ^ 16) by lia.
  rewrite (lor_add _ (b2 * 2 ^ 8) 16) by lia.
  replace ((b0 * 256 + b1) * 2 ^ 16 + b2 * 2 ^ 8) with (((b0 * 256 + b1) * 256 + b2) * 2 ^ 8) by lia.
  rewrite lor_add; lia.
Qed.

Lemma be_range b0 b1 b2 b3 :
  is_byte b0 -> is_byte b1 -> is_byte b2 -> is_byte b3 -> 0 <= be [b0; b1; b2; b3] < 2 ^ 32.
Proof. unfold is_byte, be. simpl. lia. Qed.

Lemma word_range m p : bytes_ok m -> 0 <= word m p < 2 ^ 32.
Proof. intros Hm. apply be_range; by apply byte_range. Qed.

Lemma fdt32_ld_ok m p :
  bytes_ok m -> 0 <= p -> p + 4 <= vsize m -> fdt32_ld m p = Ret (word m p).
Proof.
  intros Hm Hp Hs. unfold fdt32_ld. rewrite !ld8_ok by lia. simpl.
  pose proof (byte_range m p Hm). pose proof (byte_range m (p + 1) Hm).
  pose proof (byte_range m (p + 2) Hm). unfold is_byte in *.
  rewrite !uwrap_small by (rewrite ?shiftl_mul; lia).
  f_equal. apply be_lor; by apply byte_range.
Qed.

Lemma fdt32_ld_undef m p : 0 <= p -> vsize m < p + 4 -> fdt32_ld m p = Undef.
Proof.
  intros Hp Hs. unfold fdt32_ld.
  repeat match goal with
  | |- context [ld8 m ?q] =>
      destruct (decide (0 <= q < vsize m)); [rewrite (ld8_ok m q) by done|by rewrite (ld8_undef m q)]
  end; lia.
Qed.

(** Reversing the bytes of a host word reads it big-endian. *)
Lemma extract_byte x n : 0 <= n -> EXTRACT_BYTE x n = (x / 2 ^ (8 * n)) mod 256.
Proof. intros Hn. unfold EXTRACT_BYTE. by rewrite shiftr_div, (land_mod _ 0xff 8) by lia. Qed.

Lemma swap32 x :
  u32 ((EXTRACT_BYTE x 0 .<< 24) .| (EXTRACT_BYTE x 1 .<< 16)
       .| (EXTRACT_BYTE x 2 .<< 8) .| EXTRACT_BYTE x 3)
  = be [x mod 256; (x / 2 ^ 8) mod 256; (x / 2 ^ 16) mod 256; (x / 2 ^ 24) mod 256].
Proof.
  rewrite !extract_byte by lia. simpl. rewrite Z.div_1_r.
  rewrite be_lor by (apply Z.mod_pos_bound; lia).
  apply uwrap_small, be_range; apply Z.mod_pos_bound; lia.
Qed.

Lemma swap32_bytes b0 b1 b2 b3 :
  is_byte b0 -> is_byte b1 -> is_byte b2 -> is_byte b3 ->
  fdt32_to_cpu (b0 .| (b1 .<< 8) .| (b2 .<< 16) .| (b3 .<< 24)) = be [b0; b1; b2; b3].
Proof.
  intros H0 H1 H2 H3. unfold fdt32_to_cpu. rewrite swap32.
  assert (b0 .| (b1 .<< 8) .| (b2 .<< 16) .| (b3 .<< 24) = be [b3; b2; b1; b0]) as ->.
  { rewrite <- be_lor by done. rewrite (Z.lor_comm b0), (Z.lor_comm _ (b2 .<< 16)).
    rewrite (Z.lor_comm _ (b3 .<< 24)). by rewrite !Z.lor_assoc. }
  unfold is_byte, be in *. simpl. Z.div_mod_to_equations; lia.
Qed.

Lemma fdt32_to_cpu_load m p :
  bytes_ok m -> 0 <= p -> p + 4 <= vsize m ->
  (x ← load32 m p; Ret (fdt32_to_cpu x)) = Ret (word m p).
Proof.
  intros Hm Hp Hs. unfold load32. rewrite !ld8_ok by lia. simpl.
  f_equal. apply swap32_bytes; by apply byte_range.
Qed.

(** ** Writing *)

Lemma vsize_upd m p bs : 0 <= p -> p + vsize bs <= vsize m -> vsize (upd m p bs) = vsize m.
Proof. unfold vsize, upd. intros. rewrite !length_app, length_take, length_drop. lia. Qed.

Lemma vsize_nonneg {A} (m : list A) : 0 <= vsize m.
Proof. unfold vsize. lia. Qed.

Lemma vsize_cons {A} (x : A) l : vsize (x :: l) = vsize l + 1.
Proof. unfold vsize. simpl. lia. Qed.

Lemma vsize_app {A} (l k : list A) : vsize (l ++ k) = vsize l + vsize k.
Proof. unfold vsize. rewrite length_app. lia. Qed.

Lemma vget_upd m p bs i :
  0 <= p -> p + vsize bs <= vsize m ->
  vget (upd m p bs) i = if decide (p <= i < p + vsize bs) then vget bs (i - p) else vget m i.
Proof.
  unfold vsize, upd. intros Hp Hs. destruct (Z.ltb_spec i 0) as [Hi|Hi].
  { rewrite decide_False by lia. unfold vget. by destruct (Z.ltb_spec i 0); [|lia]. }
  rewrite (vget_lookup_pos (_ ++ _)) by lia. case_decide.
  - rewrite vget_lookup_pos by lia. rewrite lookup_app_r; rewrite length_take; [|lia..].
    rewrite lookup_app_l by lia. f_equal. lia.
  - rewrite vget_lookup_pos by lia. destruct (decide (i < p)).
    + rewrite lookup_app_l by (rewrite length_take; lia). apply lookup_take_lt. lia.
    + rewrite lookup_app_r; rewrite length_take; [|lia].
      rewrite lookup_app_r by lia. rewrite lookup_drop. f_equal. lia.
Qed.

Lemma upd_app m p b bs :
  0 <= p -> p + 1 + vsize bs <= vsize m ->
  upd (<[Z.to_nat p := b]> m) (p + 1) bs = upd m p (b :: bs).
Proof.
  unfold vsize. intros Hp Hs. unfold upd.
  replace (Z.to_nat (p + 1)) with (S (Z.to_nat p)) by lia.
  rewrite (take_S_r _ _ b) by (rewrite list_lookup_insert_eq; [done|lia]).
  rewrite take_insert_ge by lia. rewrite <- app_assoc. simpl. do 3 f_equal.
  rewrite drop_insert_lt by lia. f_equal. lia.
Qed.

Lemma write_ok m p bs :
  0 <= p -> p + vsize bs <= vsize m -> write m p bs = Ret (upd m p bs).
Proof.
  revert m p. induction bs as [|b bs IH]; intros m p Hp Hs; simpl.
  - unfold upd. simpl. by rewrite Nat.add_0_r, take_drop.
  - rewrite vsize_cons in Hs. pose proof (vsize_nonneg bs).
    unfold st8. rewrite vset_Some by lia. simpl.
    rewrite IH, upd_app by (unfold vsize in *; rewrite ?length_insert; lia). done.
Qed.

Lemma byte_upd m p bs i :
  0 <= p -> p + vsize bs <= vsize m ->
  byte (upd m p bs) i = if decide (p <= i < p + vsize bs) then byte bs (i - p) else byte m i.
Proof. intros. unfold byte. rewrite vget_upd by done. by case_decide. Qed.

Lemma bytes_ok_upd m p bs : bytes_ok m -> bytes_ok bs -> bytes_ok (upd m p bs).
Proof.
  intros Hm Hb. unfold upd. apply Forall_app. split; [by apply Forall_take|].
  apply Forall_app. split; [done|by apply Forall_drop].
Qed.

Lemma be32_ok v : bytes_ok (be32 v).
Proof. unfold be32. repeat constructor; apply Z.mod_pos_bound; lia. Qed.

Lemma be64_ok v : bytes_ok (be64 v).
Proof. apply Forall_app. split; apply be32_ok. Qed.

Lemma be_be32 v : be (be32 v) = u32 v.
Proof. unfold be, be32, uwrap. simpl. Z.div_mod_to_equations. lia. Qed.

Lemma store32_write m p v : store32 m p (cpu_to_fdt32 v) = write m p (be32 v).
Proof.
  unfold store32. change (cpu_to_fdt32 v) with (fdt32_to_cpu v). unfold fdt32_to_cpu.
  rewrite swap32, !extract_byte by lia. simpl write.
  set (x := be _).
  assert (x = be [v mod 256; (v / 2 ^ 8) mod 256; (v / 2 ^ 16) mod 256; (v / 2 ^ 24) mod 256]) as Hx
    by done.
  unfold be in Hx. simpl in Hx.
  replace ((x / 2 ^ (8 * 0)) mod 256) with ((v / 2 ^ 24) mod 256) by (rewrite Hx; Z.div_mod_to_equations; lia).
  replace ((x / 2 ^ (8 * 1)) mod 256) with ((v / 2 ^ 16) mod 256) by (rewrite Hx; Z.div_mod_to_equations; lia).
  replace ((x / 2 ^ (8 * 2)) mod 256) with ((v / 2 ^ 8) mod 256) by (rewrite Hx; Z.div_mod_to_equations; lia).
  replace ((x / 2 ^ (8 * 3)) mod 256) with (v mod 256) by (rewrite Hx; Z.div_mod_to_equations; lia).
  replace (p + 1 + 1 + 1) with (p + 3) by lia. replace (p + 1 + 1) with (p + 2) by lia.
  destruct (st8 m p _); simpl; try done. destruct (st8 _ (p + 1) _); simpl; try done.
  destruct (st8 _ (p + 2) _); simpl; try done. by destruct (st8 _ (p + 3) _).
Qed.

Lemma fdt32_st_write m p v : fdt32_st m p v = write m p (be32 v).
Proof.
  unfold fdt32_st, be32. simpl write. unfold uwrap. change (2 ^ 8) with 256 at 1 2 3 4.
  rewrite !(land_mod _ 0xff 8), !shiftr_div by lia. change (2 ^ 8) with 256. rewrite !Z.mod_mod by lia.
  replace (p + 1 + 1 + 1) with (p + 3) by lia. replace (p + 1 + 1) with (p + 2) by lia.
  destruct (st8 m p _); simpl; try done. destruct (st8 _ (p + 1) _); simpl; try done.
  destruct (st8 _ (p + 2) _); simpl; try done. by destruct (st8 _ (p + 3) _).
Qed.

Lemma be_lor64 b0 b1 b2 b3 b4 b5 b6 b7 :
  is_byte b0 -> is_byte b1 -> is_byte b2 -> is_byte b3 ->
  is_byte b4 -> is_byte b5 -> is_byte b6 -> is_byte b7 ->
  (b0 .<< 56) .| (b1 .<< 48) .| (b2 .<< 40) .| (b3 .<< 32)
  .| (b4 .<< 24) .| (b5 .<< 16) .| (b6 .<< 8) .| b7
  = be [b0; b1; b2; b3] * 2 ^ 32 + be [b4; b5; b6; b7].
Proof.
  intros. rewrite <- (lor_add _ _ 32) by (try apply be_range; lia || done).
  rewrite <- !be_lor by done. rewrite <- shiftl_mul by lia.
  rewrite !Z.shiftl_lor, !Z.shiftl_shiftl by lia. by rewrite !Z.lor_assoc.
Qed.

Lemma fdt64_ld_ok m p :
  bytes_ok m -> 0 <= p -> p + 8 <= vsize m -> fdt64_ld m p = Ret (dword m p).
Proof.
  intros Hm Hp Hs. unfold fdt64_ld. rewrite !ld8_ok by lia. simpl.
  pose proof (fun q => byte_range m q Hm) as Hb. unfold is_byte in Hb.
  pose proof (Hb p). pose proof (Hb (p + 1)). pose proof (Hb (p + 2)). pose proof (Hb (p + 3)).
  pose proof (Hb (p + 4)). pose proof (Hb (p + 5)). pose proof (Hb (p + 6)).
  rewrite !uwrap_small by (rewrite ?shiftl_mul; lia). f_equal.
  rewrite be_lor64 by apply Hb. unfold dword, word.
  replace (p + 4 + 1) with (p + 5) by lia.
  replace (p + 4 + 2) with (p + 6) by lia. by replace (p + 4 + 3) with (p + 7) by lia.
Qed.

Lemma swap64 x :
  cpu_to_fdt64 x
  = be [x mod 256; (x / 2 ^ 8) mod 256; (x / 2 ^ 16) mod 256; (x / 2 ^ 24) mod 256] * 2 ^ 32
    + be [(x / 2 ^ 32) mod 256; (x / 2 ^ 40) mod 256; (x / 2 ^ 48) mod 256; (x / 2 ^ 56) mod 256].
Proof.
  assert (forall y, is_byte (y mod 256)) as Hb by (intros; apply Z.mod_pos_bound; lia).
  unfold cpu_to_fdt64. rewrite !extract_byte by lia. simpl. rewrite Z.div_1_r.
  rewrite be_lor64 by apply Hb. apply uwrap_small.
  pose proof (be_range (x mod 256) ((x / 2 ^ 8) mod 256) ((x / 2 ^ 16) mod 256)
    ((x / 2 ^ 24) mod 256) (Hb _) (Hb _) (Hb _) (Hb _)).
  pose proof (be_range ((x / 2 ^ 32) mod 256) ((x / 2 ^ 40) mod 256) ((x / 2 ^ 48) mod 256)
    ((x / 2 ^ 56) mod 256) (Hb _) (Hb _) (Hb _) (Hb _)). lia.
Qed.

Lemma be_digits h l b0 b1 b2 b3 b4 b5 b6 b7 :
  is_byte b0 -> is_byte b1 -> is_byte b2 -> is_byte b3 ->
  is_byte b4 -> is_byte b5 -> is_byte b6 -> is_byte b7 ->
  h = be [b0; b1; b2; b3] -> l = be [b4; b5; b6; b7] ->
  [EXTRACT_BYTE (h * 2 ^ 32 + l) 0; EXTRACT_BYTE (h * 2 ^ 32 + l) 1;
   EXTRACT_BYTE (h * 2 ^ 32 + l) 2; EXTRACT_BYTE (h * 2 ^ 32 + l) 3;
   EXTRACT_BYTE (h * 2 ^ 32 + l) 4; EXTRACT_BYTE (h * 2 ^ 32 + l) 5;
   EXTRACT_BYTE (h * 2 ^ 32 + l) 6; EXTRACT_BYTE (h * 2 ^ 32 + l) 7]
  = [b7; b6; b5; b4; b3; b2; b1; b0].
Proof.
  unfold is_byte, be. simpl. intros. rewrite !extract_byte by lia. simpl.
  repeat f_equal; Z.div_mod_to_equations; lia.
Qed.

Lemma be64_bytes v :
  be64 v = [(v / 2 ^ 56) mod 256; (v / 2 ^ 48) mod 256; (v / 2 ^ 40) mod 256; (v / 2 ^ 32) mod 256;
            (v / 2 ^ 24) mod 256; (v / 2 ^ 16) mod 256; (v / 2 ^ 8) mod 256; v mod 256].
Proof. unfold be64, be32. simpl. by rewrite !Z.div_div by lia. Qed.

Lemma store64_write m p v : store64 m p (cpu_to_fdt64 v) = write m p (be64 v).
Proof.
  assert (forall y, is_byte (y mod 256)) as Hb by (intros; apply Z.mod_pos_bound; lia).
  unfold store64. rewrite swap64.
  pose proof (be_digits _ _ _ _ _ _ _ _ _ _ (Hb v) (Hb (v / 2 ^ 8)) (Hb (v / 2 ^ 16))
    (Hb (v / 2 ^ 24)) (Hb (v / 2 ^ 32)) (Hb (v / 2 ^ 40)) (Hb (v / 2 ^ 48)) (Hb (v / 2 ^ 56))
    eq_refl eq_refl) as E.
  injection E as -> -> -> -> -> -> -> ->. rewrite be64_bytes.
  simpl write. rewrite <- !Z.add_assoc.
  change (1 + (1 + (1 + (1 + (1 + (1 + 1)))))) with 7. change (1 + (1 + (1 + (1 + (1 + 1))))) with 6.
  change (1 + (1 + (1 + (1 + 1)))) with 5. change (1 + (1 + (1 + 1))) with 4.
  change (1 + (1 + 1)) with 3. change (1 + 1) with 2.
  by repeat (destruct (st8 _ _ _); simpl; [|done..]).
Qed.

(** ** Byte strings at an address *)

Definition bytes_at (m : list Z) (p : Z) (bs : list Z) : Prop :=
  forall i, 0 <= i < vsize bs -> vget m (p + i) = vget bs i.

(** The NUL-terminated string [s] at [p]. *)
Definition cstr_at (m : list Z) (p : Z) (s : list Z) : Prop :=
  bytes_at m p (s ++ [0]) /\ Forall (fun b => b <> 0) s.

Lemma vget_None {A} (m : list A) i : vget m i = None <-> ~ (0 <= i < vsize m).
Proof.
  unfold vget, vsize. destruct (Z.ltb_spec i 0); [split; [lia|done]|].
  rewrite lookup_ge_None. lia.
Qed.

Lemma vget_byte m i : 0 <= i < vsize m -> vget m i = Some (byte m i).
Proof. intros Hi. unfold byte. by destruct (vget_Some m i Hi) as (x & -> & _). Qed.

Lemma vget_byte_inv m i b : vget m i = Some b -> 0 <= i < vsize m /\ byte m i = b.
Proof.
  intros H. destruct (decide (0 <= i < vsize m)) as [Hi|Hi].
  - rewrite vget_byte in H by done. split; congruence.
  - apply vget_None in Hi. congruence.
Qed.

Lemma vget_cons {A} (x : A) l i : vget (x :: l) i = if i =? 0 then Some x else vget l (i - 1).
Proof.
  unfold vget. destruct (Z.eqb_spec i 0) as [->|]; [done|].
  destruct (Z.ltb_spec i 0), (Z.ltb_spec (i - 1) 0); try lia; try done.
  replace (Z.to_nat i) with (S (Z.to_nat (i - 1))) by lia. done.
Qed.

Lemma vget_app {A} (l k : list A) i :
  vget (l ++ k) i = if decide (i < vsize l) then vget l i else vget k (i - vsize l).
Proof.
  unfold vsize. case_decide.
  - unfold vget. destruct (Z.ltb_spec i 0); [done|]. by rewrite lookup_app_l by lia.
  - rewrite !vget_lookup_pos by lia. rewrite lookup_app_r by lia. f_equal. lia.
Qed.

Lemma bytes_at_nil m p : bytes_at m p [].
Proof. intros i Hi. unfold vsize in Hi. simpl in Hi. lia. Qed.

Lemma bytes_at_cons m p b bs :
  bytes_at m p (b :: bs) <-> vget m p = Some b /\ bytes_at m (p + 1) bs.
Proof.
  unfold bytes_at. setoid_rewrite vsize_cons. split.
  - intros H. split.
    + pose proof (vsize_nonneg bs). specialize (H 0 ltac:(lia)).
      by rewrite Z.add_0_r, vget_cons in H.
    + intros i Hi. specialize (H (i + 1) ltac:(lia)). rewrite vget_cons in H.
      destruct (Z.eqb_spec (i + 1) 0); [lia|].
      replace (p + 1 + i) with (p + (i + 1)) by lia. rewrite H. f_equal. lia.
  - intros [H0 H] i Hi. rewrite vget_cons. destruct (Z.eqb_spec i 0) as [->|].
    + by rewrite Z.add_0_r.
    + rewrite <- H by lia. f_equal. lia.
Qed.

Lemma bytes_at_app m p bs cs :
  bytes_at m p (bs ++ cs) <-> bytes_at m p bs /\ bytes_at m (p + vsize bs) cs.
Proof.
  revert p. induction bs as [|b bs IH]; intros p; simpl.
  - unfold vsize at 1. simpl. rewrite Z.add_0_r. split; [|tauto]. split; [apply bytes_at_nil|done].
  - rewrite !bytes_at_cons, IH, vsize_cons.
    replace (p + 1 + vsize bs) with (p + (vsize bs + 1)) by lia. tauto.
Qed.

Lemma bytes_at_range m p bs : bytes_at m p bs -> bs <> [] -> 0 <= p /\ p + vsize bs <= vsize m.
Proof.
  intros H Hne. assert (0 < vsize bs) by (destruct bs; [done|]; rewrite vsize_cons;
    pose proof (vsize_nonneg bs); lia).
  assert (forall i, 0 <= i < vsize bs -> 0 <= p + i < vsize m) as Hr.
  { intros i Hi. specialize (H i Hi). destruct (decide (0 <= p + i < vsize m)) as [|Hn]; [done|].
    apply vget_None in Hn. rewrite Hn in H. symmetry in H. apply vget_None in H. lia. }
  pose proof (Hr 0). pose proof (Hr (vsize bs - 1)). lia.
Qed.

Lemma bytes_at_unique m p bs cs :
  bytes_at m p bs -> bytes_at m p cs -> length bs = length cs -> bs = cs.
Proof.
  revert p cs. induction bs as [|b bs IH]; intros p [|c cs]; simpl; intros Hb Hc Hl; try done.
  apply bytes_at_cons in Hb as [Hb0 Hb], Hc as [Hc0 Hc]. f_equal; [congruence|eauto].
Qed.

Lemma bytes_at_agree m m' p bs :
  (forall i, p <= i < p + vsize bs -> vget m' i = vget m i) ->
  bytes_at m p bs -> bytes_at m' p bs.
Proof. intros Ha H i Hi. rewrite Ha by lia. by apply H. Qed.

Lemma bytes_at_upd m p bs : 0 <= p -> p + vsize bs <= vsize m -> bytes_at (upd m p bs) p bs.
Proof.
  intros Hp Hs i Hi. rewrite vget_upd by done. rewrite decide_True by lia. f_equal. lia.
Qed.

(** Reading finds the bytes that are there. *)
Lemma read_inv m p n bs : read m p n = Ret bs -> length bs = n /\ bytes_at m p bs.
Proof.
  revert p bs. induction n as [|n IH]; intros p bs; simpl.
  - intros [= <-]. split; [done|apply bytes_at_nil].
  - intros H. apply bind_Ret_inv in H as (b & Hb & H). apply bind_Ret_inv in H as (bs' & Hr & H).
    injection H as <-. apply IH in Hr as [Hl Hr]. split; [simpl; lia|].
    apply bytes_at_cons. split; [|done]. apply ld8_inv in Hb as [Hi ->]. by apply vget_byte.
Qed.

Lemma read_at m p bs : bytes_at m p bs -> read m p (length bs) = Ret bs.
Proof.
  revert p. induction bs as [|b bs IH]; intros p H; simpl; [done|].
  apply bytes_at_cons in H as [Hb H]. unfold ld8. rewrite Hb. simpl. by rewrite IH.
Qed.

Lemma read_total m p n : 0 <= p -> p + Z.of_nat n <= vsize m -> exists bs, read m p n = Ret bs.
Proof.
  revert p. induction n as [|n IH]; intros p Hp Hs; simpl; [eauto|].
  rewrite ld8_ok by lia. simpl. destruct (IH (p + 1)) as [bs ->]; [lia..|]. simpl. eauto.
Qed.

Lemma memcmp_at m p s : bytes_at m p s -> memcmp_eq m p s = Ret true.
Proof. intros H. unfold memcmp_eq. rewrite read_at by done. simpl. by rewrite bool_decide_true. Qed.

Lemma memcmp_spec m p s :
  0 <= p -> p + vsize s <= vsize m ->
  exists r, memcmp_eq m p s = Ret r /\ (r = true <-> bytes_at m p s).
Proof.
  intros Hp Hs. unfold memcmp_eq. destruct (read_total m p (length s)) as [bs E]; [done..|].
  rewrite E. simpl. eexists. split; [done|]. rewrite bool_decide_eq_true.
  apply read_inv in E as [Hl Hb]. split; [by intros ->|]. intros H. by eapply bytes_at_unique.
Qed.

(** The search for a byte. *)
Lemma memchr_Some m p c n k :
  memchr m p c n = Ret (Some k) ->
  0 <= k < Z.of_nat n /\ vget m (p + k) = Some c /\
  forall i, 0 <= i < k -> exists b, vget m (p + i) = Some b /\ b <> c.
Proof.
  revert p k. induction n as [|n IH]; intros p k; simpl; [done|]. intros H.
  apply bind_Ret_inv in H as (b & Hb & H). apply ld8_inv in Hb as [Hp ->].
  destruct (Z.eqb_spec (byte m p) c) as [E|E].
  - injection H as <-. rewrite Z.add_0_r, vget_byte, E by done. split_and!; [lia..|done|]. lia.
  - apply bind_Ret_inv in H as ([j|] & Hj & H); [|done]. simpl in H. injection H as <-.
    apply IH in Hj as (Hr & Hg & Hb). split_and!; [lia..| |].
    + rewrite <- Hg. f_equal. lia.
    + intros i Hi. destruct (decide (i = 0)) as [->|].
      * rewrite Z.add_0_r, vget_byte by done. eauto.
      * destruct (Hb (i - 1)) as (b & Hv & Hne); [lia|]. exists b. rewrite <- Hv. split; [f_equal; lia|done].
Qed.

Lemma memchr_None m p c n :
  memchr m p c n = Ret None ->
  forall i, 0 <= i < Z.of_nat n -> exists b, vget m (p + i) = Some b /\ b <> c.
Proof.
  revert p. induction n as [|n IH]; intros p; simpl; [lia|]. intros H i Hi.
  apply bind_Ret_inv in H as (b & Hb & H). apply ld8_inv in Hb as [Hp ->].
  destruct (Z.eqb_spec (byte m p) c) as [E|E]; [done|].
  apply bind_Ret_inv in H as ([j|] & Hj & H); [done|]. destruct (decide (i = 0)) as [->|].
  - rewrite Z.add_0_r, vget_byte by done. eauto.
  - destruct (IH _ Hj (i - 1)) as (b & Hv & Hne); [lia|]. exists b. rewrite <- Hv.
    split; [f_equal; lia|done].
Qed.

Lemma memchr_total m p c n :
  0 <= p -> p + Z.of_nat n <= vsize m -> exists r, memchr m p c n = Ret r.
Proof.
  revert p. induction n as [|n IH]; intros p Hp Hs; simpl; [eauto|].
  rewrite ld8_ok by lia. simpl. destruct (byte m p =? c); [eauto|].
  destruct (IH (p + 1)) as [r ->]; [lia..|]. simpl. eauto.
Qed.

Lemma cstr_nonzero m p s i : cstr_at m p s -> 0 <= i < vsize s -> exists b, vget m (p + i) = Some b /\ b <> 0.
Proof.
  intros [H Hs] Hi. apply bytes_at_app in H as [H _]. rewrite H by done.
  rewrite vget_byte by done. eexists. split; [done|].
  destruct (vget_Some s i Hi) as (x & Hv & Hx). unfold byte. rewrite Hv. simpl.
  exact (proj1 (Forall_lookup _ _) Hs _ _ Hx).
Qed.

Lemma cstr_end m p s : cstr_at m p s -> vget m (p + vsize s) = Some 0.
Proof. intros [H _]. apply bytes_at_app in H as [_ H]. by apply bytes_at_cons in H as [H _]. Qed.

Lemma memchr_cstr m p s n :
  cstr_at m p s -> vsize s < Z.of_nat n -> memchr m p 0 n = Ret (Some (vsize s)).
Proof.
  revert p n. induction s as [|b s IH]; intros p n H Hn.
  - apply cstr_end in H. unfold vsize in *. simpl in *. rewrite Z.add_0_r in H.
    destruct n as [|n]; [lia|]. simpl. unfold ld8. by rewrite H.
  - destruct n as [|n]; [rewrite vsize_cons in Hn; pose proof (vsize_nonneg s); lia|].
    destruct H as [H Hs]. inversion Hs; subst. simpl in H.
    apply bytes_at_cons in H as [Hb H]. simpl. unfold ld8. rewrite Hb. simpl.
    destruct (Z.eqb_spec b 0); [done|]. rewrite IH; [|done|rewrite vsize_cons in Hn; lia].
    simpl. by rewrite vsize_cons.
Qed.

Lemma memchr_is_cstr m p n k :
  memchr m p 0 n = Ret (Some k) -> exists s, cstr_at m p s /\ vsize s = k.
Proof.
  revert p k. induction n as [|n IH]; intros p k; simpl; [done|]. intros H.
  apply bind_Ret_inv in H as (b & Hb & H). apply ld8_inv in Hb as [Hp ->].
  destruct (Z.eqb_spec (byte m p) 0) as [E|E].
  - injection H as <-. exists []. split; [|done]. split; [|constructor].
    apply bytes_at_cons. split; [by rewrite vget_byte, E|apply bytes_at_nil].
  - apply bind_Ret_inv in H as ([j|] & Hj & H); [|done]. simpl in H. injection H as <-.
    apply IH in Hj as (s & [Hs1 Hs2] & <-). exists (byte m p :: s). split; [|by rewrite vsize_cons].
    split; [|by constructor]. simpl. apply bytes_at_cons. split; [by rewrite vget_byte|done].
Qed.

Lemma cstr_unique m p s s' : cstr_at m p s -> cstr_at m p s' -> s = s'.
Proof.
  revert p s'. induction s as [|b s IH]; intros p [|b' s'] [H Hs] [H' Hs']; try done; simpl in *.
  - apply bytes_at_cons in H as [H _], H' as [H' _]. inversion Hs'; subst. congruence.
  - apply bytes_at_cons in H as [H _], H' as [H' _]. inversion Hs; subst. congruence.
  - apply bytes_at_cons in H as [H0 H], H' as [H0' H']. inversion Hs; inversion Hs'; subst.
    f_equal; [congruence|]. apply (IH (p + 1)); by split.
Qed.

Lemma strlen_cstr m p s : cstr_at m p s -> strlen m p = Ret (vsize s).
Proof.
  intros H. assert (vsize s < Z.of_nat (S (length m))) as Hl.
  { destruct H as [H _]. apply bytes_at_range in H; [|by destruct s].
    rewrite vsize_app in H. unfold vsize in *. simpl in *. lia. }
  unfold strlen. revert Hl. generalize (S (length m)) as n. intros n. revert p s H.
  induction n as [|n IH]; intros p s H Hl; [pose proof (vsize_nonneg s); lia|]. simpl.
  destruct s as [|b s].
  - apply cstr_end in H. unfold vsize in *. simpl in *. rewrite Z.add_0_r in H.
    unfold ld8. by rewrite H.
  - destruct H as [H Hs]. inversion Hs; subst. simpl in H.
    apply bytes_at_cons in H as [Hb H]. unfold ld8. rewrite Hb. simpl.
    destruct (Z.eqb_spec b 0); [done|]. rewrite vsize_cons in Hl |- *.
    rewrite (IH (p + 1) s); [done|done|lia].
Qed.

(** Words. *)
Lemma word_at m p v : bytes_at m p (be32 v) -> word m p = u32 v.
Proof.
  intros H. rewrite <- be_be32. unfold word. f_equal. unfold be32 in *.
  rewrite !bytes_at_cons in H. destruct H as (H0 & H1 & H2 & H3 & _).
  replace (p + 1 + 1 + 1) with (p + 3) in H3 by lia. replace (p + 1 + 1) with (p + 2) in H2 by lia.
  apply vget_byte_inv in H0 as [_ ->], H1 as [_ ->], H2 as [_ ->], H3 as [_ ->]. done.
Qed.

Lemma word_agree m m' p :
  (forall i, p <= i < p + 4 -> vget m' i = vget m i) -> word m' p = word m p.
Proof. intros H. unfold word, byte. by rewrite !H by lia. Qed.

Lemma word_upd_ne m p bs q :
  0 <= p -> p + vsize bs <= vsize m -> q + 4 <= p \/ p + vsize bs <= q ->
  word (upd m p bs) q = word m q.
Proof. intros Hp Hs Hq. apply word_agree. intros i Hi. rewrite vget_upd by done. by rewrite decide_False by lia. Qed.

Lemma word_upd_eq m p v : 0 <= p -> p + 4 <= vsize m -> word (upd m p (be32 v)) p = u32 v.
Proof. intros. by apply word_at, bytes_at_upd. Qed.

Lemma dword_at m p v : 0 <= v < 2 ^ 64 -> bytes_at m p (be64 v) -> dword m p = v.
Proof.
  intros Hv H. unfold be64 in H. apply bytes_at_app in H as [H1 H2].
  change (vsize (be32 (v / 2 ^ 32))) with 4 in H2. apply word_at in H1, H2.
  unfold dword. rewrite H1, H2. unfold uwrap. Z.div_mod_to_equations. lia.
Qed.

(** ** Alignment *)

Definition align4 (x : Z) : Z := (x + 3) / 4 * 4.

Lemma align4_spec x : x <= align4 x < x + 4 /\ (align4 x) mod 4 = 0.
Proof. unfold align4. rewrite Z.mod_mul by lia. split; [Z.div_mod_to_equations; lia|done]. Qed.

Lemma align4_id x : x mod 4 = 0 -> align4 x = x.
Proof. unfold align4. intros. Z.div_mod_to_equations. lia. Qed.

Lemma align4_shift a x : a mod 4 = 0 -> align4 (a + x) = a + align4 x.
Proof. unfold align4. intros. Z.div_mod_to_equations. lia. Qed.

Lemma FDT_TAGALIGN_ok x : 0 <= x < 2 ^ 63 -> FDT_TAGALIGN x = align4 x.
Proof.
  intros Hx. unfold FDT_TAGALIGN, FDT_ALIGN, FDT_TAGSIZE, align4.
  rewrite (uwrap_small _ (4 - 1)), (uwrap_small _ (x + 4 - 1)) by lia.
  replace (x + 4 - 1) with (x + 3) by lia.
  assert (u64 (Z.lnot (4 - 1)) = 2 ^ 64 - 4) as -> by reflexivity.
  replace (2 ^ 64 - 4) with (Z.ones 62 * 2 ^ 2) by reflexivity.
  rewrite <- shiftl_mul by lia. apply Z.bits_inj'. intros n Hn.
  replace ((x + 3) / 4 * 4) with (((x + 3) .>> 2) .<< 2)
    by (rewrite shiftl_mul, shiftr_div by lia; done).
  rewrite Z.land_spec. destruct (Z.ltb_spec n 2).
  { by rewrite !Z.shiftl_spec_low, andb_false_r by lia. }
  rewrite !Z.shiftl_spec_high, Z.shiftr_spec by lia. replace (n - 2 + 2) with n by lia.
  destruct (Z.ltb_spec (n - 2) 62).
  - by rewrite Z.ones_spec_low, andb_true_r by lia.
  - rewrite Z.ones_spec_high, andb_false_r by lia.
    rewrite <- (Z.mod_small (x + 3) (2 ^ 64)) by lia. by rewrite Z.mod_pow2_bits_high by lia.
Qed.

(** ** The header *)

Lemma set_hdr_ok m p v :
  0 <= p -> p + 4 <= vsize m -> store32 m p (cpu_to_fdt32 v) = Ret (upd m p (be32 v)).
Proof. intros. rewrite store32_write. by apply write_ok. Qed.

#[global] Arguments fdt32_ld : simpl never.
#[global] Arguments fdt64_ld : simpl never.
#[global] Arguments load32 : simpl never.
#[global] Arguments store32 : simpl never.
#[global] Arguments store64 : simpl never.
#[global] Arguments ld8 : simpl never.
#[global] Arguments st8 : simpl never.
#[global] Arguments word : simpl never.
#[global] Arguments dword : simpl never.
#[global] Arguments byte : simpl never.
#[global] Arguments int_chk : simpl never.
#[global] Arguments vsize : simpl never.
#[global] Arguments vget : simpl never.
