(* ===== verification/FdtTags.v ===== *)
(** * libfdt: header checks and the walk over the structure block

    Models [fdt.c]: the header sanity checks, the bounds-checked pointer
    [fdt_offset_ptr], the token reader [fdt_next_tag] and the walks built on it.
    The reader is related to a declarative reading of the bytes: [tok_at] says
    which token stands at an offset, and [next_tag_token] and
    [next_tag_complete] show that [fdt_next_tag] finds exactly those. *)

From stdpp Require Import base option list.
From S2P Require Import Prelude.
From S2P Require Import BranchHash.
From S2P Require Import FdtBase.

Definition INT32_MAX : Z := 2 ^ 31 - 1.

(** A field of the blob read through a [fdt32_t] object. *)
Definition ld_fdt32 (m : list Z) (p : Z) : outcome Z :=
  x ← load32 m p; Ret (fdt32_to_cpu x).

Definition fdt_ro_probe_ (m : list Z) : outcome Z :=
  totalsize ← fdt_totalsize m;
  let sized := if totalsize <? INT32_MAX then Ret totalsize else Ret (- FDT_ERR_TRUNCATED) in
  magic ← fdt_magic m;
  if magic =? FDT_MAGIC then
    version ← fdt_version m;
    if version <? FDT_FIRST_SUPPORTED_VERSION then Ret (- FDT_ERR_BADVERSION)
    else
      last_comp ← fdt_last_comp_version m;
      if FDT_LAST_SUPPORTED_VERSION <? last_comp then Ret (- FDT_ERR_BADVERSION)
      else sized
  else if magic =? FDT_SW_MAGIC then
    size ← fdt_size_dt_struct m;
    if size =? 0 then Ret (- FDT_ERR_BADSTATE) else sized
  else Ret (- FDT_ERR_BADMAGIC).

Definition check_off_ (hdrsize totalsize off : Z) : bool :=
  (hdrsize <=? off) && (off <=? totalsize).

Definition check_block_ (hdrsize totalsize base size : Z) : bool :=
  if negb (check_off_ hdrsize totalsize base) then false
  else if u32 (base + size) <? base then false
  else if negb (check_off_ hdrsize totalsize (u32 (base + size))) then false
  else true.

Definition fdt_header_size_ (version : Z) : Z :=
  if version <=? 1 then FDT_V1_SIZE
  else if version <=? 2 then FDT_V2_SIZE
  else if version <=? 3 then FDT_V3_SIZE
  else if version <=? 16 then FDT_V16_SIZE
  else FDT_V17_SIZE.

Definition fdt_header_size (m : list Z) : outcome Z :=
  version ← fdt_version m; Ret (fdt_header_size_ version).

Definition fdt_check_header (m : list Z) : outcome Z :=
  magic ← fdt_magic m;
  if negb (magic =? FDT_MAGIC) then Ret (- FDT_ERR_BADMAGIC) else
  hdrsize ← fdt_header_size m;
  version ← fdt_version m;
  if version <? FDT_FIRST_SUPPORTED_VERSION then Ret (- FDT_ERR_BADVERSION) else
  last_comp ← fdt_last_comp_version m;
  if FDT_LAST_SUPPORTED_VERSION <? last_comp then Ret (- FDT_ERR_BADVERSION) else
  if version <? last_comp then Ret (- FDT_ERR_BADVERSION) else
  totalsize ← fdt_totalsize m;
  if (totalsize <? hdrsize) || (INT32_MAX <? totalsize) then Ret (- FDT_ERR_TRUNCATED) else
  off_mem_rsvmap ← fdt_off_mem_rsvmap m;
  if negb (check_off_ hdrsize totalsize off_mem_rsvmap) then Ret (- FDT_ERR_TRUNCATED) else
  off_dt_struct ← fdt_off_dt_struct m;
  struct_ok ←
    (if version <? 17 then Ret (check_off_ hdrsize totalsize off_dt_struct)
     else
       size_dt_struct ← fdt_size_dt_struct m;
       Ret (check_block_ hdrsize totalsize off_dt_struct size_dt_struct));
  if negb struct_ok then Ret (- FDT_ERR_TRUNCATED) else
  off_dt_strings ← fdt_off_dt_strings m;
  size_dt_strings ← fdt_size_dt_strings m;
  if negb (check_block_ hdrsize totalsize off_dt_strings size_dt_strings)
  then Ret (- FDT_ERR_TRUNCATED) else
  Ret 0.

(** The pointer is [None] for [NULL].  [offset] is an [int], [len] an
    [unsigned int]; mixed comparisons are unsigned. *)
Definition fdt_offset_ptr (m : list Z) (offset len : Z) : outcome (option Z) :=
  off_dt_struct ← fdt_off_dt_struct m;
  totalsize ← fdt_totalsize m;
  let absoffset := u32 (offset + off_dt_struct) in
  if (absoffset <? u32 offset) || (u32 (absoffset + len) <? absoffset)
     || (totalsize <? u32 (absoffset + len)) then Ret None else
  version ← fdt_version m;
  if 0x11 <=? version then
    size_dt_struct ← fdt_size_dt_struct m;
    if (u32 (offset + len) <? u32 offset) || (size_dt_struct <? u32 (offset + len))
    then Ret None
    else p ← fdt_offset_ptr_ m offset; Ret (Some p)
  else p ← fdt_offset_ptr_ m offset; Ret (Some p).

(** The loop over the name of a node: the offset after its terminator. *)
Fixpoint name_loop (fuel : nat) (m : list Z) (offset : Z) : outcome (option Z) :=
  match fuel with
  | O => Fuel
  | S fuel =>
      p ← fdt_offset_ptr m offset 1;
      offset ← int_chk (offset + 1);
      match p with
      | None => Ret None
      | Some p => c ← ld8 m p; if c =? 0 then Ret (Some offset) else name_loop fuel m offset
      end
  end.

(** The end of the token body that starts after the tag at [offset]; [None]
    for a token without a good body. *)
Definition tag_body (m : list Z) (tag offset : Z) : outcome (option Z) :=
  if tag =? FDT_BEGIN_NODE then name_loop (S (length m)) m offset
  else if tag =? FDT_PROP then
    lenp ← fdt_offset_ptr m offset 4;
    match lenp with
    | None => Ret None
    | Some lenp =>
        len ← ld_fdt32 m lenp;
        let offset := s32 (offset + (sizeof_fdt_property - FDT_TAGSIZE + len)) in
        version ← fdt_version m;
        if (version <? 0x10) && (8 <=? len) && nz (u32 (offset - len) mod 8) then
          offset ← int_chk (offset + 4); Ret (Some offset)
        else Ret (Some offset)
    end
  else if (tag =? FDT_END) || (tag =? FDT_END_NODE) || (tag =? FDT_NOP) then Ret (Some offset)
  else Ret None.

(** The tag at [startoffset] and [*nextoffset]. *)
Definition fdt_next_tag (m : list Z) (startoffset : Z) : outcome (Z * Z) :=
  tagp ← fdt_offset_ptr m startoffset FDT_TAGSIZE;
  match tagp with
  | None => Ret (FDT_END, - FDT_ERR_TRUNCATED)
  | Some tagp =>
      tag ← ld_fdt32 m tagp;
      let offset := s32 (startoffset + FDT_TAGSIZE) in
      body ← tag_body m tag offset;
      match body with
      | None => Ret (FDT_END, - FDT_ERR_BADSTRUCTURE)
      | Some offset =>
          len ← int_chk (offset - startoffset);
          p ← fdt_offset_ptr m startoffset (u32 len);
          match p with
          | None => Ret (FDT_END, - FDT_ERR_BADSTRUCTURE)
          | Some _ => Ret (tag, s32 (FDT_TAGALIGN offset))
          end
      end
  end.

(** An offset whose tag is [want]: the next offset, or [-FDT_ERR_BADOFFSET]. *)
Definition check_tag_offset (m : list Z) (want offset : Z) : outcome Z :=
  if (offset <? 0) || nz (offset mod FDT_TAGSIZE) then Ret (- FDT_ERR_BADOFFSET)
  else
    r ← fdt_next_tag m offset;
    if r.1 =? want then Ret r.2 else Ret (- FDT_ERR_BADOFFSET).

Definition fdt_check_node_offset_ (m : list Z) (offset : Z) : outcome Z :=
  check_tag_offset m FDT_BEGIN_NODE offset.

Definition fdt_check_prop_offset_ (m : list Z) (offset : Z) : outcome Z :=
  check_tag_offset m FDT_PROP offset.

(** The loop of [fdt_next_node]; [depth] is [None] for a [NULL] pointer. *)
Fixpoint next_node_loop (fuel : nat) (m : list Z) (offset : Z) (depth : option Z)
  : outcome (Z * option Z) :=
  match fuel with
  | O => Fuel
  | S fuel =>
      r ← fdt_next_tag m offset;
      let '(tag, nextoffset) := r in
      if tag =? FDT_BEGIN_NODE then
        match depth with
        | None => Ret (offset, None)
        | Some d => d ← int_chk (d + 1); Ret (offset, Some d)
        end
      else if tag =? FDT_END_NODE then
        match depth with
        | None => next_node_loop fuel m nextoffset None
        | Some d =>
            d ← int_chk (d - 1);
            if d <? 0 then Ret (nextoffset, Some d)
            else next_node_loop fuel m nextoffset (Some d)
        end
      else if tag =? FDT_END then
        if (0 <=? nextoffset)
           || ((nextoffset =? - FDT_ERR_TRUNCATED) && bool_decide (depth = None))
        then Ret (- FDT_ERR_NOTFOUND, depth)
        else Ret (nextoffset, depth)
      else next_node_loop fuel m nextoffset depth
  end.

Definition fdt_next_node (m : list Z) (offset : Z) (depth : option Z) : outcome (Z * option Z) :=
  if 0 <=? offset then
    nextoffset ← fdt_check_node_offset_ m offset;
    if nextoffset <? 0 then Ret (nextoffset, depth)
    else next_node_loop (S (length m)) m nextoffset depth
  else next_node_loop (S (length m)) m 0 depth.

Definition fdt_first_subnode (m : list Z) (offset : Z) : outcome Z :=
  r ← fdt_next_node m offset (Some 0);
  let '(offset, depth) := r in
  if (offset <? 0) || negb (bool_decide (depth = Some 1)) then Ret (- FDT_ERR_NOTFOUND)
  else Ret offset.

Fixpoint next_subnode_loop (fuel : nat) (m : list Z) (offset depth : Z) : outcome Z :=
  match fuel with
  | O => Fuel
  | S fuel =>
      r ← fdt_next_node m offset (Some depth);
      let '(offset, d) := r in
      let depth := default 0 d in
      if (offset <? 0) || (depth <? 1) then Ret (- FDT_ERR_NOTFOUND)
      else if 1 <? depth then next_subnode_loop fuel m offset depth
      else Ret offset
  end.

Definition fdt_next_subnode (m : list Z) (offset : Z) : outcome Z :=
  next_subnode_loop (S (length m)) m offset 1.

(** [fdt_find_string_]: [n] candidate positions are left. *)
Fixpoint find_string_loop (n : nat) (m : list Z) (p : Z) (s : list Z) : outcome (option Z) :=
  match n with
  | O => Ret None
  | S n =>
      eq ← memcmp_eq m p (s ++ [0]);
      if (eq : bool) then Ret (Some p) else find_string_loop n m (p + 1) s
  end.

Definition fdt_find_string_ (m : list Z) (strtab tabsize : Z) (s : list Z) : outcome (option Z) :=
  len ← int_chk (vsize s + 1);
  let last := strtab + tabsize - len in
  find_string_loop (Z.to_nat (last - strtab + 1)) m strtab s.

(** The error and the new contents of [buf], an object of its own. *)
Definition fdt_move (m buf : list Z) (bufsize : Z) : outcome (Z * list Z) :=
  totalsize_ ← fdt_ro_probe_ m;
  if totalsize_ <? 0 then Ret (totalsize_, buf) else
  totalsize ← fdt_totalsize m;
  if u32 bufsize <? totalsize then Ret (- FDT_ERR_NOSPACE, buf) else
  bs ← read m 0 (Z.to_nat totalsize);
  buf ← write buf 0 bs;
  Ret (0, buf).
#[global] Arguments ld_fdt32 : simpl never.
#[global] Arguments fdt_offset_ptr : simpl never.
#[global] Arguments fdt_next_tag : simpl never.
#[global] Arguments fdt_next_node : simpl never.

(** ** Blobs a walk may be started on *)

Notation total m := (word m 4).
Notation sbase m := (word m 8).
Notation strbase m := (word m 12).
Notation ver m := (word m 20).

(** The size of the structure block a walk may see. *)
Definition slimit (m : list Z) : Z :=
  if 17 <=? ver m then Z.min (total m - sbase m) (word m 36) else total m - sbase m.

Record blob_ok (m : list Z) : Prop := {
  bo_bytes : bytes_ok m;
  bo_header : FDT_V16_SIZE <= vsize m;
  bo_header17 : 17 <= ver m -> FDT_V17_SIZE <= vsize m;
  bo_total : total m <= vsize m;
  bo_small : total m < INT32_MAX;
  bo_struct : 4 <= sbase m <= total m
}.

Ltac hdr :=
  unfold fdt_magic, fdt_totalsize, fdt_off_dt_struct, fdt_off_dt_strings, fdt_off_mem_rsvmap,
    fdt_version, fdt_last_comp_version, fdt_size_dt_strings, fdt_size_dt_struct,
    fdt_boot_cpuid_phys, FDT_V16_SIZE, FDT_V17_SIZE in *;
  repeat match goal with
  | |- context [fdt32_ld ?m ?p] => rewrite (fdt32_ld_ok m p) by (done || lia)
  end.

Lemma ld_fdt32_ok m p :
  bytes_ok m -> 0 <= p -> p + 4 <= vsize m -> ld_fdt32 m p = Ret (word m p).
Proof. apply fdt32_to_cpu_load. Qed.

Lemma slimit_le m : slimit m <= total m - sbase m.
Proof. unfold slimit. case_test; lia. Qed.

(** The first test of the goal succeeds. *)
Ltac first_test_true :=
  match goal with |- (if ?c then _ else _) = _ => replace c with true; [done|] end;
  symmetry; rewrite ?orb_true_iff, ?Z.ltb_lt; lia.

Lemma offset_ptr_ok m o len :
  blob_ok m -> - 2 ^ 31 <= o < 2 ^ 31 -> 0 <= len < 2 ^ 32 ->
  fdt_offset_ptr m o len
  = Ret (if decide (0 <= o /\ o + len <= slimit m) then Some (sbase m + o) else None).
Proof.
  intros [Hb Hh Hh17 Ht Hs Hst] Ho Hl. unfold fdt_offset_ptr, fdt_offset_ptr_. hdr. simpl.
  pose proof (word_range m 36 Hb). unfold slimit, INT32_MAX in *.
  destruct (Z.ltb_spec o 0) as [Hneg|Hpos].
  - rewrite decide_False by lia.
    assert (u32 o = o + 2 ^ 32) as Ho32 by (unfold uwrap; Z.div_mod_to_equations; lia).
    rewrite Ho32. destruct (Z.ltb_spec (o + word m 8) 0).
    + assert (u32 (o + word m 8) = o + word m 8 + 2 ^ 32) as -> by (unfold uwrap; Z.div_mod_to_equations; lia).
      destruct (Z.ltb_spec (o + word m 8 + 2 ^ 32 + len) (2 ^ 32)).
      * rewrite (uwrap_small 32 (_ + len)) by lia. first_test_true.
      * assert (u32 (o + word m 8 + 2 ^ 32 + len) = o + word m 8 + len) as ->
          by (unfold uwrap; Z.div_mod_to_equations; lia).
        first_test_true.
    + rewrite (uwrap_small 32 (o + _)) by lia. destruct (Z.ltb_spec (o + word m 8) (o + 2 ^ 32)); [done|lia].
  - rewrite (uwrap_small 32 o), (uwrap_small 32 (o + word m 8)) by lia.
    destruct (Z.leb_spec 17 (ver m)) as [Hv|Hv]; [specialize (Hh17 Hv); rewrite ?fdt32_ld_ok by (done || lia); simpl|].
    all: destruct (Z.ltb_spec (o + word m 8 + len) (2 ^ 32)); [
      rewrite (uwrap_small 32 (o + word m 8 + len)), ?(uwrap_small 32 (o + len)) by lia;
      case_decide; repeat case_test; simpl; try done; lia || (f_equal; f_equal; lia)
    | assert (u32 (o + word m 8 + len) = o + word m 8 + len - 2 ^ 32) as ->
          by (unfold uwrap; Z.div_mod_to_equations; lia);
      rewrite decide_False by lia; first_test_true ].
Qed.

(** ** Tokens *)

Inductive token : Type :=
| TBegin (name : list Z)
| TEndNode
| TProp (nameoff : Z) (val : list Z)
| TNop
| TEnd.

Definition tag_of (t : token) : Z :=
  match t with
  | TBegin _ => FDT_BEGIN_NODE
  | TEndNode => FDT_END_NODE
  | TProp _ _ => FDT_PROP
  | TNop => FDT_NOP
  | TEnd => FDT_END
  end.

(** Where the value of the property at [o] starts: before version 16, values
    of eight bytes or more are aligned to eight. *)
Definition prop_data (version o len : Z) : Z :=
  if (version <? 0x10) && (8 <=? len) && nz ((o + 12) mod 8) then o + 16 else o + 12.

(** The token [t] fills the structure block from [o] to [e], padding
    excluded. *)
Definition tok_at (m : list Z) (o : Z) (t : token) (e : Z) : Prop :=
  word m (sbase m + o) = tag_of t /\
  match t with
  | TBegin name => cstr_at m (sbase m + o + 4) name /\ e = o + 4 + vsize name + 1
  | TProp nameoff val =>
      word m (sbase m + o + 4) = vsize val /\ word m (sbase m + o + 8) = nameoff /\
      bytes_at m (sbase m + prop_data (ver m) o (vsize val)) val /\
      e = prop_data (ver m) o (vsize val) + vsize val
  | _ => e = o + 4
  end.

Lemma tok_at_len m o t e : tok_at m o t e -> o + 4 <= e.
Proof.
  intros [_ H]. destruct t as [name| |nameoff val| |]; try lia.
  - destruct H as [_ ->]. pose proof (vsize_nonneg name). lia.
  - destruct H as (_ & _ & _ & ->). pose proof (vsize_nonneg val).
    unfold prop_data. destruct (_ && _); lia.
Qed.

Lemma cstr_head m p b name :
  cstr_at m p (b :: name) <-> vget m p = Some b /\ b <> 0 /\ cstr_at m (p + 1) name.
Proof.
  unfold cstr_at. simpl. rewrite bytes_at_cons, Forall_cons. tauto.
Qed.

Lemma cstr_nil m p : cstr_at m p [] <-> vget m p = Some 0.
Proof.
  unfold cstr_at. simpl. rewrite bytes_at_cons. split; [tauto|].
  intros ?. split_and!; [done|apply bytes_at_nil|constructor].
Qed.

Lemma name_loop_ok m fuel o :
  blob_ok m -> 0 <= o -> sbase m + o <= total m -> vsize m < sbase m + o + Z.of_nat fuel ->
  (exists name, cstr_at m (sbase m + o) name /\ o + vsize name + 1 <= slimit m /\
     name_loop fuel m o = Ret (Some (o + vsize name + 1))) \/
  (name_loop fuel m o = Ret None /\
     forall name, cstr_at m (sbase m + o) name -> slimit m < o + vsize name + 1).
Proof.
  intros Hm. pose proof Hm as [Hb Hh Hh17 Ht Hs Hst]. pose proof (slimit_le m).
  unfold INT32_MAX in *. revert o. induction fuel as [|fuel IH]; intros o Ho Hot Hf; [lia|].
  simpl. rewrite offset_ptr_ok by (done || lia). rewrite bind_ret. rewrite int_chk_ok by lia. simpl.
  case_decide as Hd.
  2: { right. split; [done|]. intros name _. pose proof (vsize_nonneg name). lia. }
  rewrite ld8_ok by lia. simpl. destruct (Z.eqb_spec (byte m (sbase m + o)) 0) as [E|E].
  - left. exists []. unfold vsize at 1 2. simpl. split_and!; [|lia|f_equal; f_equal; lia].
    apply cstr_nil. rewrite vget_byte, E by lia. done.
  - destruct (IH (o + 1)) as [(name & Hn & Hl & ->)|[-> Hn]]; [lia..| |].
    + left. exists (byte m (sbase m + o) :: name). rewrite vsize_cons.
      split_and!; [|lia|f_equal; f_equal; lia]. apply cstr_head.
      rewrite vget_byte by lia. replace (sbase m + o + 1) with (sbase m + (o + 1)) by lia. done.
    + right. split; [done|]. intros [|b name] Hc.
      * apply cstr_nil in Hc. rewrite vget_byte in Hc by lia. congruence.
      * apply cstr_head in Hc as (_ & _ & Hc). rewrite vsize_cons.
        replace (sbase m + o + 1) with (sbase m + (o + 1)) in Hc by lia.
        specialize (Hn name Hc). lia.
Qed.

(** The lengths at which the arithmetic on the end of a property overflows an
    [int]; [safe_at] excludes them. *)
Definition safe_at (m : list Z) (o : Z) : Prop :=
  o + 8 <= slimit m -> word m (sbase m + o) = FDT_PROP -> o + 16 + word m (sbase m + o + 4) < 2 ^ 31.

Lemma next_tag_complete m o t e :
  blob_ok m -> 0 <= o -> tok_at m o t e -> e <= slimit m ->
  fdt_next_tag m o = Ret (tag_of t, align4 e).
Proof.
  intros Hm Ho Htok He. pose proof Hm as [Hb Hh Hh17 Ht Hs Hst]. pose proof (slimit_le m).
  unfold INT32_MAX in *. pose proof (tok_at_len _ _ _ _ Htok). destruct Htok as [Htag Hbody].
  assert (tag_body m (tag_of t) (o + 4) = Ret (Some e)) as Hbd.
  { unfold tag_body. destruct t as [name| |nameoff val| |]; simpl tag_of.
    - destruct Hbody as [Hn ->]. replace (FDT_BEGIN_NODE =? FDT_BEGIN_NODE) with true by done.
      destruct (name_loop_ok m (S (length m)) (o + 4)) as [(name' & Hn' & _ & ->)|[-> Hno]];
        try (unfold vsize in *; lia); try done.
      + replace (sbase m + (o + 4)) with (sbase m + o + 4) in Hn' by lia.
        by rewrite (cstr_unique _ _ _ _ Hn' Hn).
      + replace (sbase m + (o + 4)) with (sbase m + o + 4) in Hno by lia.
        specialize (Hno _ Hn). lia.
    - subst e. done.
    - destruct Hbody as (Hlen & Hno & Hval & ->). simpl. unfold prop_data in *.
      pose proof (vsize_nonneg val).
      rewrite offset_ptr_ok by (done || lia). rewrite bind_ret.
      rewrite decide_True by (destruct (_ && _); lia).
      rewrite ld_fdt32_ok by (done || destruct (_ && _); lia). rewrite bind_ret. hdr. simpl.
      replace (sbase m + (o + 4)) with (sbase m + o + 4) by lia. rewrite Hlen.
      unfold sizeof_fdt_property, FDT_TAGSIZE.
      rewrite swrap_small by (destruct (_ && _); lia).
      replace (o + 4 + (12 - 4 + vsize val) - vsize val) with (o + 12) by lia.
      rewrite uwrap_small by (destruct (_ && _); lia).
      destruct (_ && _); [rewrite int_chk_ok by lia|]; simpl; do 2 f_equal; lia.
    - subst e. done.
    - subst e. done. }
  unfold fdt_next_tag. rewrite offset_ptr_ok by (done || unfold FDT_TAGSIZE; lia). rewrite bind_ret.
  rewrite decide_True by (unfold FDT_TAGSIZE; lia). rewrite ld_fdt32_ok by (done || lia). rewrite bind_ret.
  rewrite Htag. unfold FDT_TAGSIZE. rewrite swrap_small by lia. rewrite Hbd. simpl.
  rewrite int_chk_ok by lia. simpl. rewrite uwrap_small by lia.
  rewrite offset_ptr_ok by (done || lia). rewrite bind_ret. rewrite decide_True by lia.
  rewrite FDT_TAGALIGN_ok by lia. pose proof (align4_spec e). rewrite swrap_small by lia. done.
Qed.

Lemma bytes_at_read m p n : 0 <= p -> p + Z.of_nat n <= vsize m -> exists bs, length bs = n /\ bytes_at m p bs.
Proof. intros Hp Hn. destruct (read_total m p n Hp Hn) as [bs E]. apply read_inv in E. eauto. Qed.

Lemma tag_body_spec m o :
  blob_ok m -> 0 <= o -> o + 4 <= slimit m -> safe_at m o ->
  tag_body m (word m (sbase m + o)) (o + 4) = Ret None \/
  exists e, tag_body m (word m (sbase m + o)) (o + 4) = Ret (Some e) /\ o + 4 <= e < 2 ^ 31 /\
    (e <= slimit m -> exists t, tok_at m o t e).
Proof.
  intros Hm Ho Hin Hsafe. pose proof Hm as [Hb Hh Hh17 Ht Hs Hst]. pose proof (slimit_le m).
  unfold INT32_MAX in *. unfold tag_body, safe_at in *.
  destruct (Z.eqb_spec (word m (sbase m + o)) FDT_BEGIN_NODE) as [Hbeg|Hbeg].
  { destruct (name_loop_ok m (S (length m)) (o + 4)) as [(name & Hn & Hl & He)|[He _]];
      try (unfold vsize in *; lia); try done; [|by left].
    right. eexists. split; [exact He|]. pose proof (vsize_nonneg name). split; [lia|].
    intros _. exists (TBegin name). split; [done|].
    replace (sbase m + o + 4) with (sbase m + (o + 4)) by lia. split; [done|lia]. }
  destruct (Z.eqb_spec (word m (sbase m + o)) FDT_PROP) as [Hp|Hp].
  { rewrite offset_ptr_ok by (done || lia). rewrite bind_ret.
    case_decide as Hd; [|by left]. specialize (Hsafe ltac:(lia) Hp). right.
    pose proof (word_range m (sbase m + o + 4) Hb).
    rewrite ld_fdt32_ok by (done || lia). rewrite bind_ret.
    replace (sbase m + (o + 4)) with (sbase m + o + 4) by lia.
    set (len := word m (sbase m + o + 4)) in *. hdr. simpl.
    unfold sizeof_fdt_property, FDT_TAGSIZE. rewrite swrap_small by lia.
    replace (o + 4 + (12 - 4 + len) - len) with (o + 12) by lia. rewrite uwrap_small by lia.
    exists (prop_data (ver m) o len + len). split_and!.
    - unfold prop_data. destruct (_ && _); [rewrite int_chk_ok by lia|]; simpl; do 2 f_equal; lia.
    - unfold prop_data. destruct (_ && _); lia.
    - unfold prop_data. destruct (_ && _); lia.
    - intros He. assert (o + 12 <= prop_data (ver m) o len) by (unfold prop_data; destruct (_ && _); lia).
      destruct (bytes_at_read m (sbase m + prop_data (ver m) o len) (Z.to_nat len)) as (val & Hl & Hv); [lia..|].
      exists (TProp (word m (sbase m + o + 8)) val). assert (vsize val = len) as Hvl by (unfold vsize; lia).
      split; [done|]. rewrite Hvl. split_and!; done. }
  destruct (Z.eqb_spec (word m (sbase m + o)) FDT_END) as [Ht1|Ht1].
  { right. exists (o + 4). split_and!; [done|lia..|]. intros _. by exists TEnd. }
  destruct (Z.eqb_spec (word m (sbase m + o)) FDT_END_NODE) as [Ht2|Ht2].
  { right. exists (o + 4). split_and!; [done|lia..|]. intros _. by exists TEndNode. }
  destruct (Z.eqb_spec (word m (sbase m + o)) FDT_NOP) as [Ht3|Ht3].
  { right. exists (o + 4). split_and!; [done|lia..|]. intros _. by exists TNop. }
  by left.
Qed.

(** With [safe_at], [fdt_next_tag] returns, and finds the token at [o] when
    there is one. *)
Lemma next_tag_spec m o :
  blob_ok m -> - 2 ^ 31 <= o < 2 ^ 31 -> safe_at m o ->
  (exists t e, 0 <= o /\ tok_at m o t e /\ e <= slimit m /\
     fdt_next_tag m o = Ret (tag_of t, align4 e)) \/
  fdt_next_tag m o = Ret (FDT_END, - FDT_ERR_TRUNCATED) \/
  fdt_next_tag m o = Ret (FDT_END, - FDT_ERR_BADSTRUCTURE).
Proof.
  intros Hm Ho Hsafe. pose proof Hm as [Hb Hh Hh17 Ht Hs Hst]. pose proof (slimit_le m).
  unfold INT32_MAX in *.
  destruct (decide (0 <= o /\ o + 4 <= slimit m)) as [Hin|Hout].
  2: { right. left. unfold fdt_next_tag. rewrite offset_ptr_ok by (done || unfold FDT_TAGSIZE; lia). rewrite bind_ret. by rewrite decide_False by (unfold FDT_TAGSIZE; lia). }
  assert (fdt_next_tag m o = (body ← tag_body m (word m (sbase m + o)) (o + 4);
    match body with
    | Some e => len ← int_chk (e - o);
          p ← fdt_offset_ptr m o (u32 len);
          match p with
          | None => Ret (FDT_END, - FDT_ERR_BADSTRUCTURE)
          | Some _ => Ret (word m (sbase m + o), s32 (FDT_TAGALIGN e))
          end
    | None => Ret (FDT_END, - FDT_ERR_BADSTRUCTURE) end)) as E.
  { unfold fdt_next_tag. rewrite offset_ptr_ok by (done || unfold FDT_TAGSIZE; lia). rewrite bind_ret.
    rewrite decide_True by (unfold FDT_TAGSIZE; lia). rewrite ld_fdt32_ok by (done || lia). rewrite bind_ret.
    unfold FDT_TAGSIZE. by rewrite swrap_small by lia. }
  destruct (tag_body_spec m o) as [Hn|(e & He & Her & Htok)]; try done; try lia.
  { right. right. by rewrite E, Hn. }
  destruct (decide (e <= slimit m)) as [Hle|Hgt].
  - left. destruct (Htok Hle) as [t Ht']. exists t, e. split_and!; try done; try lia.
    apply next_tag_complete; done || lia.
  - right. right. rewrite E, He. simpl. rewrite int_chk_ok by lia. simpl. rewrite uwrap_small by lia.
    rewrite offset_ptr_ok by (done || lia). rewrite bind_ret. by rewrite decide_False by lia.
Qed.
