(* ===== verification/FdtTree.v ===== *)
(** * libfdt: the tree a structure block holds, and the walk over it

    [items_at] reads a stretch of the structure block as a list of properties,
    nested nodes and NOPs, each with the offset of its tag.  The walk lemmas
    show that iterating [fdt_next_node] visits the nodes of such a stretch in
    preorder with their depths, which is what every search of [fdt_ro.c] is
    built on. *)

From stdpp Require Import base option list.
From S2P Require Import Prelude.
From S2P Require Import BranchHash.
From S2P Require Import FdtBase.
From S2P Require Import FdtTags.

(** ** The strings block *)

Definition strlimit (m : list Z) : Z :=
  if 17 <=? ver m then Z.min (total m - strbase m) (word m 32) else total m - strbase m.

(** The string [s] at offset [off] of the strings block. *)
Definition string_at (m : list Z) (off : Z) (s : list Z) : Prop :=
  0 <= off /\ off + vsize s + 1 <= strlimit m /\ cstr_at m (strbase m + off) s.

(** ** Trees *)

Inductive item : Type :=
| INop
| IProp (off : Z) (name val : list Z)
| INode (off : Z) (name : list Z) (body : list item).

Definition item_off (it : item) : Z :=
  match it with INop => 0 | IProp off _ _ => off | INode off _ _ => off end.

(** The items that fill the block from the first offset to the last. *)
Inductive items_at (m : list Z) : Z -> list item -> Z -> Prop :=
| at_nil o : items_at m o [] o
| at_nop o e its o' :
    tok_at m o TNop e -> e <= slimit m -> items_at m (align4 e) its o' ->
    items_at m o (INop :: its) o'
| at_prop o nameoff name val e its o' :
    tok_at m o (TProp nameoff val) e -> e <= slimit m -> string_at m nameoff name ->
    items_at m (align4 e) its o' ->
    items_at m o (IProp o name val :: its) o'
| at_node o name e body o1 e1 its o' :
    tok_at m o (TBegin name) e -> e <= slimit m -> items_at m (align4 e) body o1 ->
    tok_at m o1 TEndNode e1 -> e1 <= slimit m -> items_at m (align4 e1) its o' ->
    items_at m o (INode o name body :: its) o'.

(** The node at [o] with its name and contents, and the offset after it. *)
Definition node_at (m : list Z) (o : Z) (name : list Z) (body : list item) (next : Z) : Prop :=
  exists e o1 e1, tok_at m o (TBegin name) e /\ e <= slimit m /\ items_at m (align4 e) body o1 /\
    tok_at m o1 TEndNode e1 /\ e1 <= slimit m /\ next = align4 e1.

Lemma items_at_app m o its o1 its' o' :
  items_at m o its o1 -> items_at m o1 its' o' -> items_at m o (its ++ its') o'.
Proof. induction 1; intros; simpl; eauto using items_at. Qed.

(** ** The nodes of a tree in preorder, with their depths *)

Definition deeper (d : option Z) : option Z := option_map Z.succ d.

Fixpoint visits (d : option Z) (it : item) : list (item * option Z) :=
  match it with
  | INode _ _ body => (it, deeper d) :: flat_map (visits (deeper d)) body
  | _ => []
  end.

Definition visits_all (d : option Z) (its : list item) : list (item * option Z) :=
  flat_map (visits d) its.

(** Iterated [fdt_next_node] from [(o, d)] visits [l] and gets to [(o', d')]. *)
Fixpoint chain (m : list Z) (o : Z) (d : option Z) (l : list (item * option Z)) (o' : Z) (d' : option Z) : Prop :=
  match l with
  | [] => o = o' /\ d = d'
  | (it, d1) :: l => fdt_next_node m o d = Ret (item_off it, d1) /\ chain m (item_off it) d1 l o' d'
  end.

Lemma chain_app m l1 l2 o d o1 d1 o2 d2 :
  chain m o d l1 o1 d1 -> chain m o1 d1 l2 o2 d2 -> chain m o d (l1 ++ l2) o2 d2.
Proof.
  revert o d. induction l1 as [|[o' d'] l1 IH]; intros o d; simpl.
  - by intros [-> ->].
  - intros (E & H) H2. split_and!; eauto.
Qed.

(** Depths do not overflow: every level has at least a tag before it. *)
Definition depth_ok (d : option Z) (o : Z) : Prop :=
  match d with None => True | Some d => 0 <= d <= o end.

Lemma align4_aligned e : nz (align4 e mod FDT_TAGSIZE) = false.
Proof. apply nz_false. apply align4_spec. Qed.

Section Walk.
Context (m : list Z) (Hm : blob_ok m).

Lemma slimit_small : slimit m < 2 ^ 31 - 5.
Proof. destruct Hm. pose proof (slimit_le m). unfold INT32_MAX in *. lia. Qed.

Lemma check_offset_ok o t e :
  0 <= o -> o mod 4 = 0 -> tok_at m o t e -> e <= slimit m ->
  check_tag_offset m (tag_of t) o = Ret (align4 e).
Proof.
  intros Ho Ha Ht He. unfold check_tag_offset, FDT_TAGSIZE.
  destruct (Z.ltb_spec o 0); [lia|]. rewrite Ha. simpl.
  erewrite next_tag_complete by done. simpl. by rewrite Z.eqb_refl.
Qed.

(** A stretch without the end of a level, walked from the loop of
    [fdt_next_node]. *)
Lemma walk_items o its o' :
  items_at m o its o' -> forall d fuel prev dprev,
  0 <= o -> o mod 4 = 0 -> depth_ok d o -> slimit m < o + Z.of_nat fuel ->
  fdt_next_node m prev dprev = next_node_loop fuel m o d ->
  0 <= o' /\ o' mod 4 = 0 /\ o <= o' /\
  exists prev' dprev' fuel', slimit m < o' + Z.of_nat fuel' /\
    chain m prev dprev (visits_all d its) prev' dprev' /\
    fdt_next_node m prev' dprev' = next_node_loop fuel' m o' d.
Proof.
  pose proof slimit_small as Hsm. induction 1 as [o|o e its o' Ht He Hits IH|o no nm val e its o' Ht He Hstr Hits IH
    |o name e body o1 e1 its o' Ht He Hbody IHb Ht1 He1 Hits IH];
    intros d fuel prev dprev Ho Ha Hd Hf Hn.
  - split_and!; try done. exists prev, dprev, fuel. split_and!; done.
  - pose proof (tok_at_len _ _ _ _ Ht). pose proof (align4_spec e) as [Hal Ham].
    destruct fuel as [|fuel]; [lia|]. simpl in Hn.
    erewrite (next_tag_complete m o) in Hn by done. simpl in Hn.
    destruct (IH d fuel prev dprev) as (H1 & H2 & H3 & H4); try done; try lia.
    { destruct d; simpl in *; [lia|done]. }
    split_and!; done || lia.
  - pose proof (tok_at_len _ _ _ _ Ht). pose proof (align4_spec e) as [Hal Ham].
    destruct fuel as [|fuel]; [lia|]. simpl in Hn.
    erewrite (next_tag_complete m o) in Hn by done. simpl in Hn.
    destruct (IH d fuel prev dprev) as (H1 & H2 & H3 & H4); try done; try lia.
    { destruct d; simpl in *; [lia|done]. }
    split_and!; done || lia.
  - pose proof (tok_at_len _ _ _ _ Ht). pose proof (align4_spec e) as [Hal Ham].
    destruct fuel as [|fuel]; [lia|]. simpl in Hn.
    erewrite (next_tag_complete m o) in Hn by done. simpl in Hn.
    assert (fdt_next_node m prev dprev = Ret (o, deeper d)) as Hfirst.
    { rewrite Hn. destruct d as [d|]; [|done]. simpl in *. rewrite int_chk_ok by lia. done. }
    assert (fdt_next_node m o (deeper d) = next_node_loop (S (length m)) m (align4 e) (deeper d)) as Hin.
    { unfold fdt_next_node. destruct (Z.leb_spec 0 o); [|lia]. unfold fdt_check_node_offset_.
      change FDT_BEGIN_NODE with (tag_of (TBegin name)). erewrite check_offset_ok by done. simpl. destruct (Z.ltb_spec (align4 e) 0); [lia|done]. }
    destruct (IHb (deeper d) (S (length m)) o (deeper d)) as (Hb1 & Hb2 & Hb3 & p1 & dp1 & f1 & Hf1 & Hc1 & Hn1);
      try done; try lia.
    { destruct d; simpl in *; [lia|done]. }
    { destruct Hm. pose proof (slimit_le m). unfold vsize in *. lia. }
    pose proof (tok_at_len _ _ _ _ Ht1). pose proof (align4_spec e1) as [Hal1 Ham1].
    destruct f1 as [|f1]; [lia|]. simpl in Hn1.
    erewrite (next_tag_complete m o1) in Hn1 by done. simpl in Hn1.
    assert (fdt_next_node m p1 dp1 = next_node_loop f1 m (align4 e1) d) as Hn2.
    { rewrite Hn1. destruct d as [d|]; [|done]. simpl in *. rewrite int_chk_ok by lia. simpl.
      replace (Z.succ d - 1) with d by lia. destruct (Z.ltb_spec d 0); [lia|done]. }
    destruct (IH d f1 p1 dp1) as (Hr1 & Hr2 & Hr3 & p2 & dp2 & f2 & Hf2 & Hc2 & Hnr); try done; try lia.
    { destruct d; simpl in *; [lia|done]. }
    split_and!; try done; try lia. exists p2, dp2, f2. split_and!; try done.
    simpl. split_and!; try done. by eapply chain_app.
Qed.

End Walk.
(** A visited node is really there. *)
Definition visited_ok (m : list Z) (v : item * option Z) : Prop :=
  match v.1 with
  | INode o name body => 0 <= o /\ o mod 4 = 0 /\ exists next, node_at m o name body next
  | _ => False
  end.

Lemma items_at_mono m o its o' : items_at m o its o' -> o <= o'.
Proof.
  induction 1 as [| o e its o' Ht| o no nm val e its o' Ht| o name e body o1 e1 its o' Ht He Hb IHb Ht1]; try lia;
    apply tok_at_len in Ht; pose proof (align4_spec e); try lia.
  apply tok_at_len in Ht1. pose proof (align4_spec e1). lia.
Qed.

Lemma visits_ok m o its o' :
  items_at m o its o' -> forall d, 0 <= o -> o mod 4 = 0 -> Forall (visited_ok m) (visits_all d its) /\ o' mod 4 = 0.
Proof.
  induction 1 as [o|o e its o' Ht He Hits IH|o no nm val e its o' Ht He Hs Hits IH
    |o name e body o1 e1 its o' Ht He Hbody IHb Ht1 He1 Hits IH]; intros d Ho Ha.
  - split; [constructor|done].
  - pose proof (tok_at_len _ _ _ _ Ht). pose proof (align4_spec e) as [? ?]. apply (IH d); lia.
  - pose proof (tok_at_len _ _ _ _ Ht). pose proof (align4_spec e) as [? ?]. apply (IH d); lia.
  - pose proof (tok_at_len _ _ _ _ Ht). pose proof (align4_spec e) as [? ?].
    pose proof (items_at_mono _ _ _ _ Hbody). pose proof (tok_at_len _ _ _ _ Ht1).
    pose proof (align4_spec e1) as [? ?].
    destruct (IHb (deeper d)) as [Hvb _]; [lia..|]. destruct (IH d) as [Hv Hal]; [lia..|].
    split; [|done]. simpl. apply Forall_cons. split.
    + split_and!; [done..|]. exists (align4 e1), e, o1, e1. done.
    + apply Forall_app. done.
Qed.

(** Induction on a tree with the hypothesis for every item of a body. *)
Lemma item_nested_ind (P : item -> Prop) :
  P INop -> (forall off name val, P (IProp off name val)) ->
  (forall off name body, Forall P body -> P (INode off name body)) -> forall it, P it.
Proof.
  intros Hnop Hprop Hnode. fix IH 1. intros [|off name val|off name body]; [done..|].
  apply Hnode. induction body as [|it body IHb]; constructor; [apply IH|done].
Qed.

(** [d'] is a level below [d]. *)
Definition below (d d' : option Z) : Prop :=
  match d, d' with
  | None, None => True
  | Some x, Some y => x < y
  | _, _ => False
  end.

Lemma below_trans d d1 d2 : below d d1 -> below d1 d2 -> below d d2.
Proof. destruct d, d1, d2; simpl; done || lia. Qed.

Lemma below_deeper d : below d (deeper d).
Proof. destruct d; simpl; done || lia. Qed.

Lemma visits_below it : forall d, Forall (fun v => below d v.2) (visits d it).
Proof.
  induction it as [| |off name body IH] using item_nested_ind; intros d; simpl; try constructor.
  - apply below_deeper.
  - apply Forall_flat_map. eapply Forall_impl; [exact IH|]. intros it Hit.
    eapply Forall_impl; [apply Hit|]. intros v Hv. by eapply below_trans, Hv; apply below_deeper.
Qed.

Lemma visits_all_below d its : Forall (fun v => below d v.2) (visits_all d its).
Proof. apply Forall_flat_map, Forall_true. intros it. apply visits_below. Qed.

Lemma chain_end m l o d p dp :
  chain m o d l p dp -> Forall (fun v => v.2 = None) l -> d = None -> dp = None.
Proof.
  revert o d. induction l as [|[it d1] l IH]; intros o d; simpl; [by intros [_ <-]|].
  intros [_ Hc] Hall _. inversion Hall; subst. eauto.
Qed.

Section Walk2.
Context (m : list Z) (Hm : blob_ok m).

(** Walking a node from its own offset visits its descendants, then leaves it. *)
Lemma walk_node o name body next :
  0 <= o -> o mod 4 = 0 -> node_at m o name body next ->
  exists p dp, chain m o (Some 0) (visits_all (Some 0) body) p dp /\
    fdt_next_node m p dp = Ret (next, Some (- 1)) /\ 0 <= next.
Proof.
  intros Ho Ha (e & o1 & e1 & Ht & He & Hb & Ht1 & He1 & ->).
  pose proof (tok_at_len _ _ _ _ Ht). pose proof (align4_spec e) as [? ?].
  pose proof (tok_at_len _ _ _ _ Ht1). pose proof (align4_spec e1) as [? ?].
  assert (fdt_next_node m o (Some 0) = next_node_loop (S (length m)) m (align4 e) (Some 0)) as Hin.
  { unfold fdt_next_node. destruct (Z.leb_spec 0 o); [|lia]. unfold fdt_check_node_offset_.
    change FDT_BEGIN_NODE with (tag_of (TBegin name)).
    erewrite check_offset_ok by done. simpl. destruct (Z.ltb_spec (align4 e) 0); [lia|done]. }
  destruct (walk_items m Hm _ _ _ Hb (Some 0) (S (length m)) o (Some 0)) as (Hb1 & Hb2 & Hb3 & p & dp & f & Hf & Hc & Hn);
    simpl; try done; try lia.
  { destruct Hm. pose proof (slimit_le m). unfold vsize in *. lia. }
  exists p, dp. split_and!; [done| |lia]. destruct f as [|f]; [lia|]. simpl in Hn.
  erewrite (next_tag_complete m o1) in Hn by done. done.
Qed.

(** Walking from the start without a depth visits every node. *)
Lemma walk_root its o e :
  items_at m 0 its o -> tok_at m o TEnd e -> e <= slimit m ->
  exists p, chain m (- 1) None (visits_all None its) p None /\
    fdt_next_node m p None = Ret (- FDT_ERR_NOTFOUND, None).
Proof.
  intros Hits Ht He. pose proof (tok_at_len _ _ _ _ Ht).
  pose proof (align4_spec e) as [? ?].
  destruct (walk_items m Hm _ _ _ Hits None (S (length m)) (- 1) None) as (Hr1 & Hr2 & Hr3 & p & dp & f & Hf & Hc & Hn);
    simpl; try done; try lia.
  { destruct Hm. pose proof (slimit_le m). unfold vsize in *. lia. }
  assert (dp = None) as ->.
  { eapply chain_end; [exact Hc| |done]. eapply Forall_impl; [apply visits_all_below|].
    intros [it [d|]]; simpl; done. }
  exists p. split; [done|]. destruct f as [|f]; [lia|]. simpl in Hn.
  erewrite (next_tag_complete m o) in Hn by done. simpl in Hn.
  destruct (Z.leb_spec 0 (align4 e)); [done|lia].
Qed.
End Walk2.
