(* ===== verification/FdtRead.v ===== *)
(** * libfdt: read-only access

    Models [fdt_ro.c] (names, strings, properties, searches, string lists, the
    full check) and [fdt_addresses.c].  A C function that returns a pointer and
    stores a length through [lenp] returns a pair here: the pointer, [None] for
    [NULL], and the value stored.  A string argument with its length is the list
    of its bytes. *)

From stdpp Require Import base option list strings.
From S2P Require Import Prelude.
From S2P Require Import BranchHash.
From S2P Require Import FdtBase.
From S2P Require Import FdtTags.

(** A string literal of the source. *)
Definition str (s : string) : list Z :=
  map (fun a => Z.of_N (Ascii.N_of_ascii a)) (String.list_ascii_of_string s).

Definition c_slash : Z := 47.
Definition c_at : Z := 64.

(** [strrchr(p, c)]: the offset of the last [c] before the terminator. *)
Fixpoint strrchr_loop (fuel : nat) (m : list Z) (p c : Z) (last : option Z) : outcome (option Z) :=
  match fuel with
  | O => Fuel
  | S fuel =>
      b ← ld8 m p;
      if b =? 0 then Ret last
      else strrchr_loop fuel m (p + 1) c (if b =? c then Some p else last)
  end.

Definition strrchr (m : list Z) (p c : Z) : outcome (option Z) :=
  strrchr_loop (S (length m)) m p c None.

(** ** Names and strings *)

Definition fdt_get_name (m : list Z) (nodeoffset : Z) : outcome (option Z * Z) :=
  nh ← fdt_offset_ptr_ m nodeoffset;
  err ← fdt_ro_probe_ m;
  if err <? 0 then Ret (None, err) else
  err ← fdt_check_node_offset_ m nodeoffset;
  if err <? 0 then Ret (None, err) else
  let nameptr := nh + 4 in
  version ← fdt_version m;
  if version <? 0x10 then
    leaf ← strrchr m nameptr c_slash;
    match leaf with
    | None => Ret (None, - FDT_ERR_BADSTRUCTURE)
    | Some leaf => len ← strlen m (leaf + 1); Ret (Some (leaf + 1), s32 len)
    end
  else len ← strlen m nameptr; Ret (Some nameptr, s32 len).

Definition fdt_nodename_eq_ (m : list Z) (offset : Z) (s : list Z) : outcome bool :=
  r ← fdt_get_name m offset;
  match r with
  | (None, _) => Ret false
  | (Some p, olen) =>
      if olen <? vsize s then Ret false else
      eq ← memcmp_eq m p s;
      if negb eq then Ret false else
      c ← ld8 m (p + vsize s);
      if c =? 0 then Ret true
      else if negb (bool_decide (c_at ∈ s)) && (c =? c_at) then Ret true
      else Ret false
  end.

Definition fdt_get_string (m : list Z) (stroffset : Z) : outcome (option Z * Z) :=
  totalsize ← fdt_ro_probe_ m;
  off_dt_strings ← fdt_off_dt_strings m;
  let absoffset := u32 (stroffset + off_dt_strings) in
  if totalsize <? 0 then Ret (None, totalsize) else
  if totalsize <=? absoffset then Ret (None, - FDT_ERR_BADOFFSET) else
  let len := u32 (totalsize - absoffset) in
  let finish (len : Z) :=
    n ← memchr m absoffset 0 (Z.to_nat len);
    match n with
    | None => Ret (None, - FDT_ERR_TRUNCATED)
    | Some n => Ret (Some absoffset, s32 n)
    end in
  magic ← fdt_magic m;
  if magic =? FDT_MAGIC then
    if stroffset <? 0 then Ret (None, - FDT_ERR_BADOFFSET) else
    version ← fdt_version m;
    if 17 <=? version then
      size_dt_strings ← fdt_size_dt_strings m;
      if size_dt_strings <=? stroffset then Ret (None, - FDT_ERR_BADOFFSET) else
      if u32 (size_dt_strings - stroffset) <? len then finish (u32 (size_dt_strings - stroffset))
      else finish len
    else finish len
  else if magic =? FDT_SW_MAGIC then
    size_dt_strings ← fdt_size_dt_strings m;
    if (0 <=? stroffset) || (u32 stroffset <? u32 (- size_dt_strings))
    then Ret (None, - FDT_ERR_BADOFFSET) else
    neg ← int_chk (- stroffset);
    if neg <? len then finish neg else finish len
  else Ret (None, - FDT_ERR_INTERNAL).

Definition fdt_string (m : list Z) (stroffset : Z) : outcome (option Z) :=
  r ← fdt_get_string m stroffset; Ret r.1.

Definition fdt_string_eq_ (m : list Z) (stroffset : Z) (s : list Z) : outcome bool :=
  r ← fdt_get_string m stroffset;
  match r with
  | (None, _) => Ret false
  | (Some p, slen) => if slen =? vsize s then memcmp_eq m p s else Ret false
  end.

(** ** Memory reservations *)

Definition fdt_mem_rsv (m : list Z) (n : Z) : outcome (option Z) :=
  let offset := s32 (u64 (n * sizeof_fdt_reserve_entry)) in
  off_mem_rsvmap ← fdt_off_mem_rsvmap m;
  let absoffset := s32 (off_mem_rsvmap + offset) in
  if u32 absoffset <? off_mem_rsvmap then Ret None else
  totalsize ← fdt_totalsize m;
  if u64 (totalsize - sizeof_fdt_reserve_entry) <? u64 absoffset then Ret None else
  p ← fdt_mem_rsv_ m n; Ret (Some p).

(** The error, the address and the size. *)
Definition fdt_get_mem_rsv (m : list Z) (n : Z) : outcome (Z + Z * Z) :=
  err ← fdt_ro_probe_ m;
  if err <? 0 then Ret (inl err) else
  re ← fdt_mem_rsv m n;
  match re with
  | None => Ret (inl (- FDT_ERR_BADOFFSET))
  | Some re =>
      address ← fdt64_ld m re;
      size ← fdt64_ld m (re + 8);
      Ret (inr (address, size))
  end.

Fixpoint num_mem_rsv_loop (fuel : nat) (m : list Z) (i : Z) : outcome Z :=
  match fuel with
  | O => Fuel
  | S fuel =>
      re ← fdt_mem_rsv m i;
      match re with
      | None => Ret (- FDT_ERR_TRUNCATED)
      | Some re =>
          size ← fdt64_ld m (re + 8);
          if size =? 0 then Ret i else i ← int_chk (i + 1); num_mem_rsv_loop fuel m i
      end
  end.

Definition fdt_num_mem_rsv (m : list Z) : outcome Z := num_mem_rsv_loop (S (length m)) m 0.

(** ** Properties *)

Fixpoint nextprop_loop (fuel : nat) (m : list Z) (offset : Z) : outcome Z :=
  match fuel with
  | O => Fuel
  | S fuel =>
      r ← fdt_next_tag m offset;
      let '(tag, nextoffset) := r in
      if tag =? FDT_END then
        if 0 <=? nextoffset then Ret (- FDT_ERR_BADSTRUCTURE) else Ret nextoffset
      else if tag =? FDT_PROP then Ret offset
      else if tag =? FDT_NOP then nextprop_loop fuel m nextoffset
      else Ret (- FDT_ERR_NOTFOUND)
  end.

Definition nextprop_ (m : list Z) (offset : Z) : outcome Z := nextprop_loop (S (length m)) m offset.

Definition fdt_first_property_offset (m : list Z) (nodeoffset : Z) : outcome Z :=
  offset ← fdt_check_node_offset_ m nodeoffset;
  if offset <? 0 then Ret offset else nextprop_ m offset.

Definition fdt_next_property_offset (m : list Z) (offset : Z) : outcome Z :=
  offset ← fdt_check_prop_offset_ m offset;
  if offset <? 0 then Ret offset else nextprop_ m offset.

Definition fdt_get_property_by_offset_ (m : list Z) (offset : Z) : outcome (option Z * Z) :=
  err ← fdt_check_prop_offset_ m offset;
  if err <? 0 then Ret (None, err) else
  prop ← fdt_offset_ptr_ m offset;
  len ← fdt32_ld m (prop + 4);
  Ret (Some prop, s32 len).

Definition fdt_get_property_by_offset (m : list Z) (offset : Z) : outcome (option Z * Z) :=
  version ← fdt_version m;
  if version <? 0x10 then Ret (None, - FDT_ERR_BADVERSION)
  else fdt_get_property_by_offset_ m offset.

(** The property, its offset [*poffset], and [*lenp]. *)
Fixpoint get_property_loop (fuel : nat) (m : list Z) (offset : Z) (name : list Z)
  : outcome (option (Z * Z) * Z) :=
  match fuel with
  | O => Fuel
  | S fuel =>
      if offset <? 0 then Ret (None, offset) else
      r ← fdt_get_property_by_offset_ m offset;
      match r with
      | (None, _) => Ret (None, - FDT_ERR_INTERNAL)
      | (Some prop, len) =>
          nameoff ← fdt32_ld m (prop + 8);
          eq ← fdt_string_eq_ m (s32 nameoff) name;
          if (eq : bool) then Ret (Some (prop, offset), len)
          else
            offset ← fdt_next_property_offset m offset;
            get_property_loop fuel m offset name
      end
  end.

Definition fdt_get_property_namelen_ (m : list Z) (offset : Z) (name : list Z)
  : outcome (option (Z * Z) * Z) :=
  offset ← fdt_first_property_offset m offset;
  get_property_loop (S (length m)) m offset name.

Definition fdt_get_property_namelen (m : list Z) (offset : Z) (name : list Z)
  : outcome (option Z * Z) :=
  version ← fdt_version m;
  if version <? 0x10 then Ret (None, - FDT_ERR_BADVERSION)
  else r ← fdt_get_property_namelen_ m offset name; Ret (option_map fst r.1, r.2).

Definition fdt_get_property (m : list Z) (nodeoffset : Z) (name : list Z) : outcome (option Z * Z) :=
  fdt_get_property_namelen m nodeoffset name.

(** [prop->data], after the realignment of old versions. *)
Definition prop_value_ptr (m : list Z) (prop offset : Z) : outcome Z :=
  version ← fdt_version m;
  len ← fdt32_ld m (prop + 4);
  if (version <? 0x10) && nz (u64 (offset + sizeof_fdt_property) mod 8) && (8 <=? len)
  then Ret (prop + 12 + 4) else Ret (prop + 12).

Definition fdt_getprop_namelen (m : list Z) (nodeoffset : Z) (name : list Z)
  : outcome (option Z * Z) :=
  r ← fdt_get_property_namelen_ m nodeoffset name;
  match r with
  | (None, len) => Ret (None, len)
  | (Some (prop, poffset), len) => p ← prop_value_ptr m prop poffset; Ret (Some p, len)
  end.

(** With [namep]: the value, the name and [*lenp]. *)
Definition fdt_getprop_by_offset (m : list Z) (offset : Z) : outcome (option (Z * Z) * Z) :=
  r ← fdt_get_property_by_offset_ m offset;
  match r with
  | (None, len) => Ret (None, len)
  | (Some prop, len) =>
      nameoff ← fdt32_ld m (prop + 8);
      s ← fdt_get_string m (s32 nameoff);
      match s with
      | (None, namelen) => Ret (None, namelen)
      | (Some name, _) => p ← prop_value_ptr m prop offset; Ret (Some (p, name), len)
      end
  end.

Definition fdt_getprop (m : list Z) (nodeoffset : Z) (name : list Z) : outcome (option Z * Z) :=
  fdt_getprop_namelen m nodeoffset name.

(** The four-byte value found, or [other]. *)
Definition phandle_value (m : list Z) (php : option Z * Z) (other : outcome Z) : outcome Z :=
  match php with
  | (Some p, len) => if len =? 4 then fdt32_ld m p else other
  | (None, _) => other
  end.

Definition fdt_get_phandle (m : list Z) (nodeoffset : Z) : outcome Z :=
  php ← fdt_getprop m nodeoffset (str "phandle");
  phandle_value m php (
    php ← fdt_getprop m nodeoffset (str "linux,phandle");
    phandle_value m php (Ret 0)).

(** ** Searches *)

Fixpoint subnode_loop (fuel : nat) (m : list Z) (offset : Z) (depth : Z) (name : list Z) : outcome Z :=
  match fuel with
  | O => Fuel
  | S fuel =>
      if (0 <=? offset) && (0 <=? depth) then
        found ← (if depth =? 1 then fdt_nodename_eq_ m offset name else Ret false);
        if (found : bool) then Ret offset
        else
          r ← fdt_next_node m offset (Some depth);
          subnode_loop fuel m r.1 (default 0 r.2) name
      else if depth <? 0 then Ret (- FDT_ERR_NOTFOUND)
      else Ret offset
  end.

Definition fdt_subnode_offset_namelen (m : list Z) (offset : Z) (name : list Z) : outcome Z :=
  err ← fdt_ro_probe_ m;
  if err <? 0 then Ret err else subnode_loop (S (S (length m))) m offset 0 name.

Definition fdt_subnode_offset (m : list Z) (parentoffset : Z) (name : list Z) : outcome Z :=
  fdt_subnode_offset_namelen m parentoffset name.

(** The first component of a path and the rest from its separator on. *)
Fixpoint split_slash (p : list Z) : list Z * list Z :=
  match p with
  | [] => ([], [])
  | b :: p' => if b =? c_slash then ([], p) else (b :: (split_slash p').1, (split_slash p').2)
  end.

Fixpoint skip_slashes (p : list Z) : list Z :=
  match p with
  | [] => []
  | b :: p' => if b =? c_slash then skip_slashes p' else p
  end.

(** The loop over the components, [p] being the bytes before [end]. *)
Fixpoint path_loop (fuel : nat) (m : list Z) (offset : Z) (p : list Z) : outcome Z :=
  match fuel with
  | O => Fuel
  | S fuel =>
      match skip_slashes p with
      | [] => Ret offset
      | p' =>
          offset ← fdt_subnode_offset_namelen m offset (split_slash p').1;
          if offset <? 0 then Ret offset else path_loop fuel m offset (split_slash p').2
      end
  end.

(** An absolute path. *)
Definition path_absolute (m : list Z) (path : list Z) : outcome Z :=
  err ← fdt_ro_probe_ m;
  if err <? 0 then Ret err else path_loop (S (length path)) m 0 path.

(** [fdt_get_alias_namelen]; the path ["/aliases"] is absolute. *)
Definition fdt_get_alias_namelen (m : list Z) (name : list Z) : outcome (option Z) :=
  aliasoffset ← path_absolute m (str "/aliases");
  if aliasoffset <? 0 then Ret None
  else r ← fdt_getprop_namelen m aliasoffset name; Ret r.1.

Definition fdt_get_alias (m : list Z) (name : list Z) : outcome (option Z) :=
  fdt_get_alias_namelen m name.

(** [fdt_path_offset_namelen]; [fuel] bounds the nesting of aliases, which the
    code does not. *)
Fixpoint fdt_path_offset_namelen (fuel : nat) (m : list Z) (path : list Z) : outcome Z :=
  if bool_decide (head path = Some c_slash) then path_absolute m path else
  match fuel with
  | O => Fuel
  | S fuel =>
      err ← fdt_ro_probe_ m;
      if err <? 0 then Ret err else
      alias ← fdt_get_alias_namelen m (split_slash path).1;
      match alias with
      | None => Ret (- FDT_ERR_BADPATH)
      | Some p =>
          len ← strlen m p;
          target ← read m p (Z.to_nat len);
          offset ← fdt_path_offset_namelen fuel m target;
          path_loop (S (length path)) m offset (split_slash path).2
      end
  end.

Definition fdt_path_offset (fuel : nat) (m : list Z) (path : list Z) : outcome Z :=
  fdt_path_offset_namelen fuel m path.

(** [fdt_supernode_atdepth_offset]: the offset or error, and [*nodedepth] when
    it is stored. *)
Definition search_error (offset : Z) : Z :=
  if (offset =? - FDT_ERR_NOTFOUND) || (0 <=? offset) then - FDT_ERR_BADOFFSET
  else if offset =? - FDT_ERR_BADOFFSET then - FDT_ERR_BADSTRUCTURE
  else offset.

Fixpoint supernode_loop (fuel : nat) (m : list Z) (nodeoffset supernodedepth offset depth supernodeoffset : Z)
  : outcome (Z * option Z) :=
  match fuel with
  | O => Fuel
  | S fuel =>
      if (0 <=? offset) && (offset <=? nodeoffset) then
        let supernodeoffset := if depth =? supernodedepth then offset else supernodeoffset in
        if offset =? nodeoffset then
          Ret (if depth <? supernodedepth then - FDT_ERR_NOTFOUND else supernodeoffset, Some depth)
        else
          r ← fdt_next_node m offset (Some depth);
          supernode_loop fuel m nodeoffset supernodedepth r.1 (default 0 r.2) supernodeoffset
      else Ret (search_error offset, None)
  end.

Definition fdt_supernode_atdepth_offset (m : list Z) (nodeoffset supernodedepth : Z)
  : outcome (Z * option Z) :=
  err ← fdt_ro_probe_ m;
  if err <? 0 then Ret (err, None) else
  if supernodedepth <? 0 then Ret (- FDT_ERR_NOTFOUND, None) else
  supernode_loop (S (S (length m))) m nodeoffset supernodedepth 0 0 (- FDT_ERR_INTERNAL).

Definition fdt_node_depth (m : list Z) (nodeoffset : Z) : outcome Z :=
  r ← fdt_supernode_atdepth_offset m nodeoffset 0;
  let '(err, nodedepth) := r in
  if negb (err =? 0) then Ret (if err <? 0 then err else - FDT_ERR_INTERNAL)
  else of_option nodedepth.

Definition fdt_parent_offset (m : list Z) (nodeoffset : Z) : outcome Z :=
  nodedepth ← fdt_node_depth m nodeoffset;
  if nodedepth <? 0 then Ret nodedepth
  else r ← fdt_supernode_atdepth_offset m nodeoffset (nodedepth - 1); Ret r.1.

(** [fdt_get_path]: drop the last component of the path in [buf]. *)
Fixpoint drop_component (fuel : nat) (buf : list Z) (p : Z) : outcome Z :=
  match fuel with
  | O => Fuel
  | S fuel =>
      let p := p - 1 in
      c ← ld8 buf (p - 1);
      if c =? c_slash then Ret p else drop_component fuel buf p
  end.

Fixpoint drop_components (n : nat) (buf : list Z) (p : Z) : outcome Z :=
  match n with
  | O => Ret p
  | S n => p ← drop_component (S (length buf)) buf p; drop_components n buf p
  end.

Fixpoint get_path_loop (fuel : nat) (m : list Z) (nodeoffset buflen offset depth : Z)
    (buf : list Z) (p pdepth : Z) : outcome (Z * list Z) :=
  match fuel with
  | O => Fuel
  | S fuel =>
      if (0 <=? offset) && (offset <=? nodeoffset) then
        p ← drop_components (Z.to_nat (pdepth - depth)) buf p;
        let pdepth := Z.min pdepth depth in
        let advance (buf : list Z) (p pdepth : Z) :=
          if offset =? nodeoffset then
            if pdepth <? depth + 1 then Ret (- FDT_ERR_NOSPACE, buf)
            else
              let p := if 1 <? p then p - 1 else p in
              buf ← st8 buf p 0; Ret (0, buf)
          else
            r ← fdt_next_node m offset (Some depth);
            get_path_loop fuel m nodeoffset buflen r.1 (default 0 r.2) buf p pdepth in
        if depth <=? pdepth then
          r ← fdt_get_name m offset;
          match r with
          | (None, namelen) => Ret (namelen, buf)
          | (Some name, namelen) =>
              if p + namelen + 1 <=? buflen then
                bs ← read m name (Z.to_nat namelen);
                buf ← write buf p bs;
                buf ← st8 buf (p + namelen) c_slash;
                advance buf (p + namelen + 1) (pdepth + 1)
              else advance buf p pdepth
          end
        else advance buf p pdepth
      else Ret (search_error offset, buf)
  end.

Definition fdt_get_path (m : list Z) (nodeoffset : Z) (buf : list Z) (buflen : Z) : outcome (Z * list Z) :=
  err ← fdt_ro_probe_ m;
  if err <? 0 then Ret (err, buf) else
  if buflen <? 2 then Ret (- FDT_ERR_NOSPACE, buf) else
  get_path_loop (S (S (length m))) m nodeoffset buflen 0 0 buf 0 0.

(** The searches that try every node in order with a test on it: [Some r]
    makes the search return [r]. *)
Fixpoint node_search (fuel : nat) (m : list Z) (test : Z -> outcome (option Z)) (offset : Z) : outcome Z :=
  match fuel with
  | O => Fuel
  | S fuel =>
      r ← fdt_next_node m offset None;
      if r.1 <? 0 then Ret r.1
      else
        found ← test r.1;
        match found with
        | Some res => Ret res
        | None => node_search fuel m test r.1
        end
  end.

Definition fdt_node_offset_by_prop_value (m : list Z) (startoffset : Z) (propname propval : list Z) : outcome Z :=
  err ← fdt_ro_probe_ m;
  if err <? 0 then Ret err else
  node_search (S (S (length m))) m (fun offset =>
    r ← fdt_getprop m offset propname;
    match r with
    | (Some val, len) =>
        if len =? vsize propval then
          eq ← memcmp_eq m val propval;
          Ret (if (eq : bool) then Some offset else None)
        else Ret None
    | (None, _) => Ret None
    end) startoffset.

Definition fdt_node_offset_by_phandle (m : list Z) (phandle : Z) : outcome Z :=
  if (phandle =? 0) || (phandle =? u32 (- 1)) then Ret (- FDT_ERR_BADPHANDLE) else
  err ← fdt_ro_probe_ m;
  if err <? 0 then Ret err else
  node_search (S (S (length m))) m (fun offset =>
    v ← fdt_get_phandle m offset;
    Ret (if v =? phandle then Some offset else None)) (- 1).

Fixpoint max_phandle_loop (fuel : nat) (m : list Z) (offset max : Z) : outcome (Z + Z) :=
  match fuel with
  | O => Fuel
  | S fuel =>
      r ← fdt_next_node m offset None;
      if r.1 <? 0 then Ret (if r.1 =? - FDT_ERR_NOTFOUND then inr max else inl r.1)
      else
        value ← fdt_get_phandle m r.1;
        max_phandle_loop fuel m r.1 (if max <? value then value else max)
  end.

(** The error, or [*phandle]. *)
Definition fdt_find_max_phandle (m : list Z) : outcome (Z + Z) :=
  max_phandle_loop (S (S (length m))) m (- 1) 0.

Definition fdt_generate_phandle (m : list Z) : outcome (Z + Z) :=
  r ← fdt_find_max_phandle m;
  match r with
  | inl err => Ret (inl err)
  | inr max =>
      if max =? FDT_MAX_PHANDLE then Ret (inl (- FDT_ERR_NOPHANDLES))
      else Ret (inr (u32 (max + 1)))
  end.

(** ** String lists *)

Fixpoint stringlist_contains_loop (fuel : nat) (m : list Z) (strlist listlen : Z) (s : list Z) : outcome Z :=
  match fuel with
  | O => Fuel
  | S fuel =>
      if vsize s <=? listlen then
        eq ← memcmp_eq m strlist (s ++ [0]);
        if (eq : bool) then Ret 1 else
        p ← memchr m strlist 0 (Z.to_nat listlen);
        match p with
        | None => Ret 0
        | Some p => stringlist_contains_loop fuel m (strlist + p + 1) (listlen - (p + 1)) s
        end
      else Ret 0
  end.

Definition fdt_stringlist_contains (m : list Z) (strlist listlen : Z) (s : list Z) : outcome Z :=
  stringlist_contains_loop (S (S (length m))) m strlist listlen s.

(** The loops over the strings between [list] and [end]; [strnlen] stops at
    [end]. *)
Definition strnlen (m : list Z) (p n : Z) : outcome Z :=
  r ← memchr m p 0 (Z.to_nat n); Ret (default n r).

Fixpoint stringlist_count_loop (fuel : nat) (m : list Z) (list end_ count : Z) : outcome Z :=
  match fuel with
  | O => Fuel
  | S fuel =>
      if list <? end_ then
        n ← strnlen m list (end_ - list);
        let length := n + 1 in
        if end_ <? list + length then Ret (- FDT_ERR_BADVALUE)
        else stringlist_count_loop fuel m (list + length) end_ (count + 1)
      else Ret count
  end.

Definition fdt_stringlist_count (m : list Z) (nodeoffset : Z) (property : list Z) : outcome Z :=
  r ← fdt_getprop m nodeoffset property;
  match r with
  | (None, length) => Ret length
  | (Some list, length) => stringlist_count_loop (S (S (List.length m))) m list (list + length) 0
  end.

Fixpoint stringlist_search_loop (fuel : nat) (m : list Z) (list end_ : Z) (s : Datatypes.list Z) (idx : Z) : outcome Z :=
  match fuel with
  | O => Fuel
  | S fuel =>
      if list <? end_ then
        n ← strnlen m list (end_ - list);
        let length := n + 1 in
        if end_ <? list + length then Ret (- FDT_ERR_BADVALUE) else
        eq ← (if length =? vsize s + 1 then memcmp_eq m list (s ++ [0]) else Ret false);
        if (eq : bool) then Ret idx
        else stringlist_search_loop fuel m (list + length) end_ s (idx + 1)
      else Ret (- FDT_ERR_NOTFOUND)
  end.

Definition fdt_stringlist_search (m : list Z) (nodeoffset : Z) (property s : list Z) : outcome Z :=
  r ← fdt_getprop m nodeoffset property;
  match r with
  | (None, length) => Ret length
  | (Some list, length) => stringlist_search_loop (S (S (List.length m))) m list (list + length) s 0
  end.

Fixpoint stringlist_get_loop (fuel : nat) (m : list Z) (list end_ idx : Z) : outcome (option Z * Z) :=
  match fuel with
  | O => Fuel
  | S fuel =>
      if list <? end_ then
        n ← strnlen m list (end_ - list);
        let length := n + 1 in
        if end_ <? list + length then Ret (None, - FDT_ERR_BADVALUE)
        else if idx =? 0 then Ret (Some list, length - 1)
        else stringlist_get_loop fuel m (list + length) end_ (idx - 1)
      else Ret (None, - FDT_ERR_NOTFOUND)
  end.

Definition fdt_stringlist_get (m : list Z) (nodeoffset : Z) (property : list Z) (idx : Z)
  : outcome (option Z * Z) :=
  r ← fdt_getprop m nodeoffset property;
  match r with
  | (None, length) => Ret (None, length)
  | (Some list, length) => stringlist_get_loop (S (S (List.length m))) m list (list + length) idx
  end.

Definition fdt_node_check_compatible (m : list Z) (nodeoffset : Z) (compatible : list Z) : outcome Z :=
  r ← fdt_getprop m nodeoffset (str "compatible");
  match r with
  | (None, len) => Ret len
  | (Some prop, len) =>
      c ← fdt_stringlist_contains m prop len compatible; Ret (b2z (c =? 0))
  end.

Definition fdt_node_offset_by_compatible (m : list Z) (startoffset : Z) (compatible : list Z) : outcome Z :=
  err ← fdt_ro_probe_ m;
  if err <? 0 then Ret err else
  node_search (S (S (length m))) m (fun offset =>
    err ← fdt_node_check_compatible m offset compatible;
    Ret (if (err <? 0) && negb (err =? - FDT_ERR_NOTFOUND) then Some err
         else if err =? 0 then Some offset else None)) startoffset.

(** ** The full check *)

Fixpoint check_full_loop (fuel : nat) (m : list Z) (offset depth : Z) : outcome Z :=
  match fuel with
  | O => Fuel
  | S fuel =>
      r ← fdt_next_tag m offset;
      let '(tag, nextoffset) := r in
      if nextoffset <? 0 then Ret nextoffset
      else if tag =? FDT_NOP then check_full_loop fuel m nextoffset depth
      else if tag =? FDT_END then
        if negb (depth =? 0) then Ret (- FDT_ERR_BADSTRUCTURE) else Ret 0
      else if tag =? FDT_BEGIN_NODE then
        let depth := u32 (depth + 1) in
        if INT32_MAX <? depth then Ret (- FDT_ERR_BADSTRUCTURE)
        else check_full_loop fuel m nextoffset depth
      else if tag =? FDT_END_NODE then
        if depth =? 0 then Ret (- FDT_ERR_BADSTRUCTURE)
        else check_full_loop fuel m nextoffset (u32 (depth - 1))
      else if tag =? FDT_PROP then
        r ← fdt_getprop_by_offset m offset;
        match r with
        | (None, err) => Ret err
        | (Some _, _) => check_full_loop fuel m nextoffset depth
        end
      else Ret (- FDT_ERR_INTERNAL)
  end.

(** [fuel] bounds the number of tokens. *)
Definition check_full (fuel : nat) (m : list Z) (bufsize : Z) : outcome Z :=
  if bufsize <? FDT_V1_SIZE then Ret (- FDT_ERR_TRUNCATED) else
  err ← fdt_check_header m;
  if negb (err =? 0) then Ret err else
  totalsize ← fdt_totalsize m;
  if bufsize <? totalsize then Ret (- FDT_ERR_TRUNCATED) else
  num_memrsv ← fdt_num_mem_rsv m;
  if num_memrsv <? 0 then Ret num_memrsv else check_full_loop fuel m 0 0.

Definition fdt_check_full (m : list Z) (bufsize : Z) : outcome Z :=
  check_full (S (length m)) m bufsize.

(** ** Cell counts ([fdt_addresses.c]) *)

Definition FDT_MAX_NCELLS : Z := 4.

Definition fdt_cells (m : list Z) (nodeoffset : Z) (name : list Z) : outcome Z :=
  r ← fdt_getprop m nodeoffset name;
  match r with
  | (None, len) => Ret len
  | (Some c, len) =>
      if negb (len =? 4) then Ret (- FDT_ERR_BADNCELLS) else
      val ← ld_fdt32 m c;
      if FDT_MAX_NCELLS <? val then Ret (- FDT_ERR_BADNCELLS) else Ret val
  end.

Definition fdt_address_cells (m : list Z) (nodeoffset : Z) : outcome Z :=
  val ← fdt_cells m nodeoffset (str "#address-cells");
  if val =? 0 then Ret (- FDT_ERR_BADNCELLS)
  else if val =? - FDT_ERR_NOTFOUND then Ret 2
  else Ret val.

Definition fdt_size_cells (m : list Z) (nodeoffset : Z) : outcome Z :=
  val ← fdt_cells m nodeoffset (str "#size-cells");
  if val =? - FDT_ERR_NOTFOUND then Ret 1 else Ret val.

#[global] Arguments fdt_get_name : simpl never.
#[global] Arguments fdt_get_string : simpl never.
#[global] Arguments fdt_getprop : simpl never.
#[global] Arguments fdt_getprop_namelen : simpl never.
#[global] Arguments fdt_get_phandle : simpl never.
#[global] Arguments fdt_mem_rsv : simpl never.
