(* ===== verification/FdtReadFacts.v ===== *)
(** * libfdt: what the read-only functions find

    For a complete blob whose structure block holds a tree ([items_at]), the
    functions of [fdt_ro.c] are shown to compute the expected functions of that
    tree: the name of a node, its first property of a given name, its first
    subnode that matches, the first node a search accepts. *)

From stdpp Require Import base option list strings.
From S2P Require Import Prelude.
From S2P Require Import BranchHash.
From S2P Require Import FdtBase.
From S2P Require Import FdtTags.
From S2P Require Import FdtTree.
From S2P Require Import FdtRead.

(** A finished blob of a supported version. *)
Record complete (m : list Z) : Prop := {
  co_blob : blob_ok m;
  co_magic : word m 0 = FDT_MAGIC;
  co_version : FDT_FIRST_SUPPORTED_VERSION <= ver m;
  co_last_comp : word m 24 <= FDT_LAST_SUPPORTED_VERSION;
  co_strings : strbase m <= total m
}.

(** The leaf of a node name: before version 16 names were full paths. *)
Fixpoint after_slash (s : list Z) (last : option (list Z)) : option (list Z) :=
  match s with
  | [] => last
  | b :: s => after_slash s (if b =? c_slash then Some s else last)
  end.

Definition leaf (version : Z) (name : list Z) : option (list Z) :=
  if version <? 0x10 then after_slash name None else Some name.

(** The name [s] selects a node named [nm]: equal, or equal up to a unit
    address [s] does not give. *)
Definition name_matches (nm s : list Z) : bool :=
  bool_decide (take (length s) nm = s) &&
  match drop (length s) nm with
  | [] => true
  | c :: _ => negb (bool_decide (c_at ∈ s)) && (c =? c_at)
  end.

(** The properties before the first subnode. *)
Fixpoint props (its : list item) : list (Z * list Z * list Z) :=
  match its with
  | IProp off name val :: its => (off, name, val) :: props its
  | INop :: its => props its
  | _ => []
  end.

Section Read.
Context (m : list Z) (Hc : complete m).

Local Lemma Hm : blob_ok m.
Proof. apply Hc. Qed.

Lemma ro_probe_complete : fdt_ro_probe_ m = Ret (total m).
Proof.
  destruct Hc as [[Hb Hh Hh17 Ht Hs Hst] Hmg Hv Hl Hsb]. unfold fdt_ro_probe_. hdr. simpl.
  rewrite Hmg, Z.eqb_refl. unfold FDT_FIRST_SUPPORTED_VERSION, FDT_LAST_SUPPORTED_VERSION in *.
  destruct (Z.ltb_spec (ver m) 2); [lia|]. destruct (Z.ltb_spec 17 (word m 24)); [lia|].
  simpl. destruct (Z.ltb_spec (total m) INT32_MAX); [done|lia].
Qed.

Lemma total_nonneg : 0 <= total m.
Proof. destruct Hc as [[]]. lia. Qed.

(** Strings. *)
Lemma get_string_spec off :
  - 2 ^ 31 <= off < 2 ^ 31 ->
  (exists s, string_at m off s /\ fdt_get_string m off = Ret (Some (strbase m + off), vsize s)) \/
  (exists err, err < 0 /\ fdt_get_string m off = Ret (None, err) /\ forall s, ~ string_at m off s).
Proof.
  intros Ho. pose proof Hc as [[Hb Hh Hh17 Ht Hs Hst] Hmg Hv Hl Hsb].
  pose proof (word_range m 12 Hb). pose proof (word_range m 32 Hb). unfold INT32_MAX in *.
  unfold fdt_get_string. rewrite ro_probe_complete. hdr. simpl.
  destruct (Z.ltb_spec (total m) 0); [lia|]. rewrite Hmg. simpl.
  assert (strlimit m <= total m - strbase m) as Hsl by (unfold strlimit; case_test; lia).
  assert (forall len, len <= total m - (strbase m + off) -> 0 <= off -> strbase m + off < total m ->
    0 <= len -> len = strlimit m - off ->
    let r := (n ← memchr m (strbase m + off) 0 (Z.to_nat len);
      match n with
      | None => Ret (None, - FDT_ERR_TRUNCATED)
      | Some n => Ret (Some (strbase m + off), s32 n)
      end) in
    (exists s, string_at m off s /\ r = Ret (Some (strbase m + off), vsize s)) \/
    (exists err, err < 0 /\ r = Ret (None, err) /\ forall s, ~ string_at m off s)) as Hfin.
  { intros len Hlen Hoff Hin Hpos Heq r. unfold r.
    destruct (memchr_total m (strbase m + off) 0 (Z.to_nat len)) as [[k|] E]; [lia..| |]; rewrite E; simpl.
    - left. pose proof (memchr_Some _ _ _ _ _ E) as (Hk & _ & _).
      apply memchr_is_cstr in E as (s & Hcs & Hsz). exists s. subst k.
      rewrite swrap_small by lia. split; [|done]. split_and!; [lia|lia|done].
    - right. eexists. split; [|split; [done|]]; [unfold FDT_ERR_TRUNCATED; lia|].
      intros s (Hs1 & Hs2 & Hs3). pose proof (vsize_nonneg s).
      destruct (memchr_None _ _ _ _ E (vsize s)) as (b & Hb1 & Hb2); [lia|].
      apply cstr_end in Hs3. congruence. }
  destruct (Z.ltb_spec off 0) as [Hneg|Hpos].
  { right. exists (- FDT_ERR_BADOFFSET). split; [done|]. split; [by destruct (_ <=? _)|]. intros s (? & _). lia. }
  rewrite (uwrap_small _ (off + strbase m)) by lia.
  destruct (Z.leb_spec (total m) (off + strbase m)) as [Hout|Hin].
  { right. eexists. split_and!; [|done|]; [unfold FDT_ERR_BADOFFSET; lia|].
    intros s (? & ? & _). pose proof (vsize_nonneg s). lia. }
  rewrite (uwrap_small _ (total m - _)) by lia. rewrite (Z.add_comm off).
  unfold strlimit in Hfin, Hsl. destruct (Z.leb_spec 17 (ver m)) as [Hv17|Hv17].
  - destruct (Z.leb_spec (word m 32) off) as [Hbig|Hsmall].
    { right. eexists. split_and!; [|done|]; [unfold FDT_ERR_BADOFFSET; lia|].
      intros s (? & Hlim & _). pose proof (vsize_nonneg s). unfold strlimit in Hlim.
      destruct (Z.leb_spec 17 (ver m)); lia. }
    rewrite (uwrap_small _ (word m 32 - off)) by lia.
    destruct (Z.ltb_spec (word m 32 - off) (total m - (strbase m + off))); apply Hfin; lia.
  - apply Hfin; lia.
Qed.

Lemma string_unique off s s' : string_at m off s -> string_at m off s' -> s = s'.
Proof. intros (_ & _ & H) (_ & _ & H'). by eapply cstr_unique. Qed.

Lemma strlimit_le : strlimit m <= total m - strbase m.
Proof. unfold strlimit. case_test; lia. Qed.

Lemma string_eq_named n nm s :
  string_at m n nm -> fdt_string_eq_ m (s32 n) s = Ret (bool_decide (nm = s)).
Proof.
  intros Hn. pose proof Hn as (H0 & H1 & H2). pose proof strlimit_le.
  pose proof Hc as [[Hb Hh Hh17 Ht Hs Hst] _ _ _ _]. unfold INT32_MAX in *.
  pose proof (vsize_nonneg nm). pose proof (word_range m 12 Hb).
  rewrite swrap_small by lia. unfold fdt_string_eq_.
  destruct (get_string_spec n) as [(s' & Hs' & ->)|(err & _ & _ & Hno)]; [lia| |by destruct (Hno nm)].
  rewrite (string_unique _ _ _ Hs' Hn). simpl. destruct (Z.eqb_spec (vsize nm) (vsize s)) as [E|E].
  - destruct (memcmp_spec m (strbase m + n) s) as (r & -> & Hr); [lia..|]. f_equal.
    apply eq_true_iff_eq. rewrite Hr, bool_decide_eq_true. split; [|intros <-].
    + intros Hs1. destruct H2 as [H2 _]. apply bytes_at_app in H2 as [H2 _].
      eapply bytes_at_unique; [exact H2|exact Hs1|]. unfold vsize in E. lia.
    + destruct H2 as [H2 _]. by apply bytes_at_app in H2 as [H2 _].
  - rewrite bool_decide_false; [done|]. intros ->. done.
Qed.

(** Names. *)
Lemma check_node_ok o name body next :
  0 <= o -> o mod 4 = 0 -> node_at m o name body next ->
  exists e, tok_at m o (TBegin name) e /\ e <= slimit m /\ fdt_check_node_offset_ m o = Ret (align4 e).
Proof.
  intros Ho Ha (e & o1 & e1 & Ht & He & _). exists e. split_and!; try done.
  unfold fdt_check_node_offset_. change FDT_BEGIN_NODE with (tag_of (TBegin name)).
  apply check_offset_ok; done || apply Hm.
Qed.

Definition leaf_rel (x : option Z) (y : option (list Z)) : Prop :=
  match x, y with
  | None, None => True
  | Some q, Some r => cstr_at m (q + 1) r
  | _, _ => False
  end.

Lemma strrchr_cstr s : forall fuel p last last',
  cstr_at m p s -> vsize s < Z.of_nat fuel -> leaf_rel last last' ->
  exists x, strrchr_loop fuel m p c_slash last = Ret x /\ leaf_rel x (after_slash s last').
Proof.
  induction s as [|b s IH]; intros fuel p last last' Hs Hf Hl;
    (destruct fuel as [|fuel]; [unfold vsize in Hf; lia|]); simpl.
  - apply cstr_nil in Hs. unfold ld8. rewrite Hs. simpl. eauto.
  - apply cstr_head in Hs as (Hb & Hne & Hs). unfold ld8. rewrite Hb. simpl.
    destruct (Z.eqb_spec b 0); [done|]. rewrite vsize_cons in Hf.
    apply IH; [done|lia|]. by destruct (b =? c_slash).
Qed.

Lemma cstr_len p s : cstr_at m p s -> 0 <= p /\ p + vsize s + 1 <= vsize m.
Proof.
  intros [H _]. apply bytes_at_range in H; [|by destruct s]. rewrite vsize_app in H.
  unfold vsize in *. simpl in *. lia.
Qed.

Lemma after_slash_len s : forall last r, after_slash s last = Some r ->
  vsize r <= vsize s \/ last = Some r.
Proof.
  induction s as [|b s IH]; intros last r; simpl; [auto|]. intros H. rewrite vsize_cons.
  apply IH in H as [H|H]; [lia|]. destruct (b =? c_slash); [|auto]. injection H as ->. lia.
Qed.

Lemma get_name_spec o name body next :
  0 <= o -> o mod 4 = 0 -> node_at m o name body next ->
  match leaf (ver m) name with
  | Some nm => exists p, fdt_get_name m o = Ret (Some p, vsize nm) /\ cstr_at m p nm
  | None => fdt_get_name m o = Ret (None, - FDT_ERR_BADSTRUCTURE)
  end.
Proof.
  intros Ho Ha Hn. destruct (check_node_ok _ _ _ _ Ho Ha Hn) as (e & Ht & He & Hck).
  pose proof (tok_at_len _ _ _ _ Ht). destruct Ht as [_ [Hcs ->]].
  pose proof Hc as [[Hb Hh Hh17 Htot Hs Hst] _ _ _ _]. unfold INT32_MAX in *. pose proof (slimit_le m).
  pose proof (align4_spec (o + 4 + vsize name + 1)) as [? ?]. pose proof (vsize_nonneg name).
  unfold fdt_get_name, fdt_offset_ptr_. hdr. simpl. rewrite ro_probe_complete. simpl.
  destruct (Z.ltb_spec (total m) 0); [lia|]. rewrite Hck. simpl.
  destruct (Z.ltb_spec (align4 (o + 4 + vsize name + 1)) 0); [lia|]. unfold leaf.
  destruct (Z.ltb_spec (ver m) 16).
  - unfold strrchr. destruct (strrchr_cstr name (S (length m)) (sbase m + o + 4) None None) as (x & -> & Hx);
      [done| |done|].
    { apply cstr_len in Hcs. unfold vsize in *. lia. }
    simpl. destruct x as [q|], (after_slash name None) as [r|] eqn:E; simpl in Hx; try done.
    rewrite (strlen_cstr _ _ _ Hx). simpl. exists (q + 1). split; [|done].
    apply after_slash_len in E as [E|E]; [|done]. pose proof (vsize_nonneg r).
    by rewrite swrap_small by lia.
  - rewrite (strlen_cstr _ _ _ Hcs). simpl. eexists. split; [|done]. by rewrite swrap_small by lia.
Qed.

Lemma nodename_eq_spec o name body next s nm :
  0 <= o -> o mod 4 = 0 -> node_at m o name body next -> leaf (ver m) name = Some nm ->
  fdt_nodename_eq_ m o s = Ret (name_matches nm s).
Proof.
  intros Ho Ha Hn Hl. pose proof (get_name_spec _ _ _ _ Ho Ha Hn) as Hg. rewrite Hl in Hg.
  destruct Hg as (p & Hg & Hcs). unfold fdt_nodename_eq_. rewrite Hg. simpl.
  pose proof (cstr_len _ _ Hcs) as Hlen. unfold name_matches.
  destruct (Z.ltb_spec (vsize nm) (vsize s)) as [Hshort|Hlong].
  { rewrite bool_decide_false; [done|]. intros E. apply (f_equal length) in E.
    rewrite length_take in E. unfold vsize in *. lia. }
  pose proof Hcs as [Hbs _]. rewrite <- (take_drop (length s) nm), <- app_assoc in Hbs.
  apply bytes_at_app in Hbs as [Hb1 Hb2].
  assert (vsize (take (length s) nm) = vsize s) as Htk by (unfold vsize in *; rewrite length_take; lia).
  rewrite Htk in Hb2.
  destruct (memcmp_spec m p s) as (r & -> & Hr); [lia..|]. simpl.
  assert (r = bool_decide (take (length s) nm = s)) as ->.
  { apply eq_true_iff_eq. rewrite Hr, bool_decide_eq_true. split; [|intros Ht; by rewrite Ht in Hb1].
    intros Hs. eapply bytes_at_unique; [exact Hb1|exact Hs|]. unfold vsize in Htk. lia. }
  case_bool_decide as Ht; simpl; [|done].
  destruct (drop (length s) nm) as [|c rest] eqn:Ed; simpl in Hb2;
    apply bytes_at_cons in Hb2 as [Hc1 _]; unfold ld8; rewrite Hc1; simpl; [done|].
  destruct (Z.eqb_spec c 0) as [->|]; [|by destruct (_ && _)].
  destruct Hcs as [_ Hnz]. rewrite <- (take_drop (length s) nm), Ed in Hnz.
  apply Forall_app in Hnz as [_ Hnz]. by inversion Hnz.
Qed.

(** Properties. *)
Definition first_prop (its : list item) : Z :=
  match props its with (off, _, _) :: _ => off | [] => - FDT_ERR_NOTFOUND end.

Lemma nextprop_items o its o1 :
  items_at m o its o1 -> forall e1 fuel, 0 <= o -> tok_at m o1 TEndNode e1 -> e1 <= slimit m ->
  slimit m < o + Z.of_nat fuel -> nextprop_loop fuel m o = Ret (first_prop its).
Proof.
  unfold first_prop.
  induction 1 as [o|o e its o' Ht He Hits IH|o no nm val e its o' Ht He Hs Hits IH
    |o name e body o1 e1 its o' Ht He Hbody IHb Ht1 He1 Hits IH]; intros e' fuel Ho Ht' He' Hf.
  - pose proof (tok_at_len _ _ _ _ Ht'). destruct fuel as [|fuel]; [lia|]. simpl.
    erewrite (next_tag_complete m o) by (done || apply Hm). done.
  - pose proof (tok_at_len _ _ _ _ Ht). pose proof (align4_spec e) as [? ?].
    destruct fuel as [|fuel]; [lia|]. simpl.
    erewrite (next_tag_complete m o) by (done || apply Hm). simpl. eapply IH; try done; lia.
  - pose proof (tok_at_len _ _ _ _ Ht). destruct fuel as [|fuel]; [lia|]. simpl.
    erewrite (next_tag_complete m o) by (done || apply Hm). done.
  - pose proof (tok_at_len _ _ _ _ Ht). destruct fuel as [|fuel]; [lia|]. simpl.
    erewrite (next_tag_complete m o) by (done || apply Hm). done.
Qed.

(** The search for a property by name. *)
Definition find_prop (name : list Z) (its : list item) : option (Z * list Z * list Z) :=
  List.find (fun p => bool_decide (p.1.2 = name)) (props its).

Lemma fuel_enough o : 0 <= o -> slimit m < o + Z.of_nat (S (length m)).
Proof. destruct Hc as [[] _ _ _ _]. pose proof (slimit_le m). unfold vsize in *. lia. Qed.

Lemma get_property_items name o its o1 :
  items_at m o its o1 -> forall e1 fuel, 0 <= o -> o mod 4 = 0 -> tok_at m o1 TEndNode e1 -> e1 <= slimit m ->
  slimit m < o + Z.of_nat fuel ->
  get_property_loop fuel m (first_prop its) name
  = Ret (match find_prop name its with
         | Some (off, _, val) => (Some (sbase m + off, off), vsize val)
         | None => (None, - FDT_ERR_NOTFOUND)
         end).
Proof.
  unfold find_prop.
  induction 1 as [o|o e its o' Ht He Hits IH|o no nm val e its o' Ht He Hs Hits IH
    |o nname e body o1 e1 its o' Ht He Hbody IHb Ht1 He1 Hits IH]; intros e' fuel Ho Ha Ht' He' Hf.
  - pose proof (tok_at_len _ _ _ _ Ht'). destruct fuel as [|fuel]; [lia|]. done.
  - pose proof (tok_at_len _ _ _ _ Ht). pose proof (align4_spec e) as [? ?].
    unfold first_prop. simpl. eapply IH; try done; lia.
  - pose proof (tok_at_len _ _ _ _ Ht). pose proof (align4_spec e) as [? ?].
    pose proof Hc as [[Hb Hh Hh17 Htot Hsm Hst] _ _ _ _]. pose proof (slimit_le m). unfold INT32_MAX in *.
    destruct fuel as [|fuel]; [lia|].
    assert (fdt_check_prop_offset_ m o = Ret (align4 e)) as Hck.
    { unfold fdt_check_prop_offset_. change FDT_PROP with (tag_of (TProp no val)).
      apply check_offset_ok; done || apply Hm. }
    change (first_prop (IProp o nm val :: its)) with o. simpl.
    destruct (Z.ltb_spec o 0); [lia|]. unfold fdt_get_property_by_offset_. rewrite Hck. simpl.
    destruct (Z.ltb_spec (align4 e) 0); [lia|]. unfold fdt_offset_ptr_. hdr. simpl.
    destruct Ht as [_ (Hlen & Hno & Hval & Hee)].
    assert (o + 12 <= prop_data (ver m) o (vsize val)) by (unfold prop_data; destruct (_ && _); lia).
    pose proof (vsize_nonneg val).
    rewrite fdt32_ld_ok by (done || lia). simpl. rewrite fdt32_ld_ok by (done || lia). simpl.
    rewrite Hno, Hlen.
    rewrite (string_eq_named _ _ _ Hs). simpl. case_bool_decide as Hnm; simpl.
    + rewrite swrap_small by lia. done.
    + unfold fdt_next_property_offset. rewrite Hck. simpl. destruct (Z.ltb_spec (align4 e) 0); [lia|].
      unfold nextprop_. erewrite nextprop_items; [|done|lia|done|done|apply fuel_enough; lia].
      simpl. eapply IH; try done; lia.
  - pose proof (tok_at_len _ _ _ _ Ht). destruct fuel as [|fuel]; [lia|]. done.
Qed.

Lemma get_property_node name o nname body next :
  0 <= o -> o mod 4 = 0 -> node_at m o nname body next ->
  fdt_get_property_namelen_ m o name
  = Ret (match find_prop name body with
         | Some (off, _, val) => (Some (sbase m + off, off), vsize val)
         | None => (None, - FDT_ERR_NOTFOUND)
         end).
Proof.
  intros Ho Ha Hn. destruct (check_node_ok _ _ _ _ Ho Ha Hn) as (e & Ht & He & Hck).
  destruct Hn as (e' & o1 & e1 & Ht' & He' & Hb & Ht1 & He1 & _).
  assert (e' = e) as -> by (destruct Ht as [_ [_ ->]], Ht' as [_ [_ ->]]; done).
  pose proof (tok_at_len _ _ _ _ Ht). pose proof (align4_spec e) as [? ?].
  unfold fdt_get_property_namelen_, fdt_first_property_offset. rewrite Hck, bind_ret.
  destruct (Z.ltb_spec (align4 e) 0); [lia|]. unfold nextprop_.
  erewrite nextprop_items; [|done|lia|done|done|apply fuel_enough; lia]. rewrite bind_ret.
  eapply get_property_items; [done|lia|done|done|done|apply fuel_enough; lia].
Qed.

Lemma find_prop_in name its off nm val :
  find_prop name its = Some (off, nm, val) -> nm = name /\ In (off, nm, val) (props its).
Proof.
  unfold find_prop. intros H. apply List.find_some in H as [Hin Hn]. simpl in Hn.
  by apply bool_decide_eq_true in Hn.
Qed.

Lemma props_at o its o1 off nm val :
  items_at m o its o1 -> 0 <= o -> In (off, nm, val) (props its) ->
  exists no e, 0 <= off /\ tok_at m off (TProp no val) e /\ e <= slimit m /\ string_at m no nm /\ e <= o1.
Proof.
  induction 1 as [o|o e its o' Ht He Hits IH|o no' nm' val' e its o' Ht He Hs Hits IH
    |o nname e body o1 e1 its o' Ht He Hbody IHb Ht1 He1 Hits IH]; intros Ho; simpl; try done.
  - pose proof (tok_at_len _ _ _ _ Ht). pose proof (align4_spec e) as [? ?]. apply IH. lia.
  - pose proof (tok_at_len _ _ _ _ Ht). pose proof (align4_spec e) as [? ?].
    intros [[= -> -> ->]|Hin]; [|apply IH; done || lia].
    exists no', e. pose proof (items_at_mono _ _ _ _ Hits). split_and!; done || lia.
Qed.

(** [fdt_getprop] finds the bytes of the first property of that name. *)
Lemma getprop_node_at name o nname body next :
  0 <= o -> o mod 4 = 0 -> node_at m o nname body next ->
  match find_prop name body with
  | Some (off, _, val) =>
      let p := sbase m + prop_data (ver m) off (vsize val) in
      fdt_getprop_namelen m o name = Ret (Some p, vsize val) /\ bytes_at m p val /\
        0 <= p /\ p + vsize val + 4 <= vsize m
  | None => fdt_getprop_namelen m o name = Ret (None, - FDT_ERR_NOTFOUND)
  end.
Proof.
  intros Ho Ha Hn. unfold fdt_getprop_namelen. rewrite (get_property_node _ _ _ _ _ Ho Ha Hn).
  rewrite bind_ret. destruct (find_prop name body) as [[[off nm] val]|] eqn:E; [|done].
  apply find_prop_in in E as [-> Hin]. destruct Hn as (e & o1 & e1 & Ht & He & Hb & Ht1 & He1 & _).
  pose proof (tok_at_len _ _ _ _ Ht). pose proof (align4_spec e) as [? ?].
  destruct (props_at _ _ _ _ _ _ Hb ltac:(lia) Hin) as (no & e' & Hoff & Htp & He' & _ & Heo).
  pose proof (tok_at_len _ _ _ _ Ht1).
  destruct Htp as [_ (Hlen & _ & Hval & ->)].
  pose proof Hc as [[Hby Hh Hh17 Htot Hsm Hst] _ _ _ _]. pose proof (slimit_le m). unfold INT32_MAX in *.
  pose proof (vsize_nonneg val).
  assert (off + 12 <= prop_data (ver m) off (vsize val)) by (unfold prop_data; destruct (_ && _); lia).
  cbn beta iota zeta. split_and!; [|done|lia|lia].
  unfold prop_value_ptr. hdr. simpl. rewrite Hlen. unfold sizeof_fdt_property, prop_data.
  rewrite uwrap_small by lia. rewrite <- andb_assoc, (andb_comm (nz _)), andb_assoc.
  destruct (_ && _); simpl; do 3 f_equal; lia.
Qed.

Lemma getprop_node name o nname body next :
  0 <= o -> o mod 4 = 0 -> node_at m o nname body next ->
  match find_prop name body with
  | Some (off, _, val) =>
      exists p, fdt_getprop_namelen m o name = Ret (Some p, vsize val) /\ bytes_at m p val /\
        0 <= p /\ p + vsize val + 4 <= vsize m
  | None => fdt_getprop_namelen m o name = Ret (None, - FDT_ERR_NOTFOUND)
  end.
Proof.
  intros Ho Ha Hn. pose proof (getprop_node_at name o nname body next Ho Ha Hn) as H.
  destruct (find_prop name body) as [[[off nm] val]|]; [|done]. eexists. exact H.
Qed.

(** ** Subnodes by name *)

(** The test of a search for a direct subnode. *)
Definition is_child (s : list Z) (v : item * option Z) : bool :=
  bool_decide (v.2 = Some 1) &&
  match v.1 with
  | INode _ name _ => match leaf (ver m) name with Some nm => name_matches nm s | None => false end
  | _ => false
  end.

Lemma nodename_eq_node o name body next s :
  0 <= o -> o mod 4 = 0 -> node_at m o name body next ->
  fdt_nodename_eq_ m o s
  = Ret (match leaf (ver m) name with Some nm => name_matches nm s | None => false end).
Proof.
  intros Ho Ha Hn. destruct (leaf (ver m) name) as [nm|] eqn:E; [by eapply nodename_eq_spec|].
  pose proof (get_name_spec _ _ _ _ Ho Ha Hn) as Hg. rewrite E in Hg.
  unfold fdt_nodename_eq_. by rewrite Hg.
Qed.

Lemma subnode_chain s l : forall o d fuel p dp next,
  chain m o (Some d) l p dp -> fdt_next_node m p dp = Ret (next, Some (- 1)) ->
  Forall (visited_ok m) l -> Forall (fun v => below (Some 0) v.2) l ->
  0 <= o -> 0 <= d -> (length l + 1 < fuel)%nat ->
  (if d =? 1 then fdt_nodename_eq_ m o s else Ret false) = Ret false ->
  subnode_loop fuel m o d s
  = Ret (match List.find (is_child s) l with Some (it, _) => item_off it | None => - FDT_ERR_NOTFOUND end).
Proof.
  induction l as [|[it d1] l IH]; intros o d fuel p dp next Hch Hlast Hok Hbel Ho Hd Hf Htest; simpl in Hch.
  - destruct Hch as [-> <-]. destruct fuel as [|[|fuel]]; simpl in Hf; try lia. simpl.
    destruct (Z.leb_spec 0 p), (Z.leb_spec 0 d); try lia. simpl. rewrite Htest. simpl.
    rewrite Hlast. simpl. by rewrite andb_false_r.
  - destruct Hch as [Hnx Hch]. destruct fuel as [|fuel]; [simpl in Hf; lia|]. simpl in Hf.
    apply Forall_cons in Hok as [Hok0 Hok], Hbel as [Hb0 Hbel]. simpl in Hb0.
    destruct d1 as [d1|]; [|done]. unfold visited_ok in Hok0. simpl in Hok0.
    destruct it as [| |off name body]; try done. destruct Hok0 as (Hoff & Hal & next' & Hn).
    simpl. destruct (Z.leb_spec 0 o), (Z.leb_spec 0 d); try lia. simpl. rewrite Htest. simpl.
    rewrite Hnx. simpl. unfold is_child at 1. simpl.
    assert ((if d1 =? 1 then fdt_nodename_eq_ m off s else Ret false)
      = Ret (is_child s (INode off name body, Some d1))) as Hchild.
    { unfold is_child. simpl. rewrite (nodename_eq_node _ _ _ _ _ Hoff Hal Hn).
      destruct (Z.eqb_spec d1 1) as [->|Hne]; [by rewrite bool_decide_true|].
      rewrite bool_decide_false; [done|congruence]. }
    change (bool_decide (Some d1 = Some 1) && _) with (is_child s (INode off name body, Some d1)).
    destruct (is_child s (INode off name body, Some d1)) eqn:E.
    + destruct fuel as [|fuel]; [lia|]. simpl. destruct (Z.leb_spec 0 off), (Z.leb_spec 0 d1); try lia.
      simpl. by rewrite Hchild.
    + eapply IH; try done; lia.
Qed.

(** The subnode a name selects. *)
Definition child_matches (s : list Z) (it : item) : bool :=
  match it with
  | INode _ name _ => match leaf (ver m) name with Some nm => name_matches nm s | None => false end
  | _ => false
  end.

Lemma find_app {A} (f : A -> bool) (l k : list A) :
  List.find f (l ++ k) = match List.find f l with Some x => Some x | None => List.find f k end.
Proof. induction l as [|x l IH]; simpl; [done|]. by destruct (f x). Qed.

Lemma find_none_Forall {A} (f : A -> bool) (l : list A) :
  Forall (fun x => f x = false) l -> List.find f l = None.
Proof. induction 1 as [|x l H]; simpl; [done|]. by rewrite H. Qed.

Lemma find_child s its :
  option_map (fun v => item_off v.1) (List.find (is_child s) (visits_all (Some 0) its))
  = option_map item_off (List.find (child_matches s) its).
Proof.
  induction its as [|it its IH]; simpl; [done|]. unfold visits_all in *. simpl. rewrite find_app.
  destruct it as [| |off name body]; simpl; try exact IH. unfold is_child at 1. simpl.
  rewrite ?bool_decide_true by done. simpl.
  destruct (leaf (ver m) name) as [nm|]; [destruct (name_matches nm s); [done|]|];
    (rewrite find_none_Forall; [exact IH|]);
    (eapply Forall_impl; [apply visits_all_below|]); intros [it [d|]]; simpl; try done;
    intros Hd; unfold is_child; simpl; rewrite bool_decide_false; (done || intros [=]; lia).
Qed.

Lemma visits_length o its o' d :
  items_at m o its o' -> Z.of_nat (length (visits_all d its)) <= o' - o.
Proof.
  intros H. revert d. induction H as [o|o e its o' Ht He Hits IH|o no nm val e its o' Ht He Hs Hits IH
    |o name e body o1 e1 its o' Ht He Hbody IHb Ht1 He1 Hits IH]; intros d;
    [simpl; lia|pose proof (tok_at_len _ _ _ _ Ht); pose proof (align4_spec e); simpl; specialize (IH d); unfold visits_all in *; simpl; lia..|].
  pose proof (tok_at_len _ _ _ _ Ht). pose proof (align4_spec e).
  pose proof (tok_at_len _ _ _ _ Ht1). pose proof (align4_spec e1).
  specialize (IH d). specialize (IHb (deeper d)). unfold visits_all in *. simpl. rewrite length_app. lia.
Qed.

Lemma subnode_offset_node s o name body next :
  0 <= o -> o mod 4 = 0 -> node_at m o name body next ->
  fdt_subnode_offset_namelen m o s
  = Ret (match List.find (child_matches s) body with
         | Some it => item_off it
         | None => - FDT_ERR_NOTFOUND
         end).
Proof.
  intros Ho Ha Hn. unfold fdt_subnode_offset_namelen. rewrite ro_probe_complete, bind_ret.
  pose proof total_nonneg. destruct (Z.ltb_spec (total m) 0); [lia|].
  destruct (walk_node m Hm _ _ _ _ Ho Ha Hn) as (p & dp & Hch & Hlast & _).
  destruct Hn as (e & o1 & e1 & Ht & He & Hb & Ht1 & He1 & _).
  pose proof (tok_at_len _ _ _ _ Ht). pose proof (tok_at_len _ _ _ _ Ht1). pose proof (align4_spec e) as [? ?].
  destruct (visits_ok _ _ _ _ Hb (Some 0)) as [Hok _]; [lia..|].
  pose proof (visits_length _ _ _ (Some 0) Hb). pose proof (fuel_enough 0).
  erewrite subnode_chain; [|exact Hch|exact Hlast|exact Hok|apply visits_all_below|done|done|lia|done].
  pose proof (find_child s body) as Hf.
  destruct (List.find (is_child s) _) as [[it d]|], (List.find (child_matches s) body); simpl in Hf; congruence.
Qed.

(** ** Paths *)

(** The components of a path. *)
Fixpoint components_acc (acc p : list Z) : list (list Z) :=
  let done_ := match acc with [] => [] | _ => [rev acc] end in
  match p with
  | [] => done_
  | b :: p => if b =? c_slash then done_ ++ components_acc [] p else components_acc (b :: acc) p
  end.

Definition components (p : list Z) : list (list Z) := components_acc [] p.

(** The node a list of names leads to. *)
Fixpoint resolve (it : item) (names : list (list Z)) : option item :=
  match names with
  | [] => Some it
  | s :: names =>
      match it with
      | INode _ _ body =>
          match List.find (child_matches s) body with
          | Some it => resolve it names
          | None => None
          end
      | _ => None
      end
  end.

Lemma components_split acc p :
  components_acc acc p
  = match rev acc ++ (split_slash p).1 with [] => [] | c => [c] end ++ components (split_slash p).2.
Proof.
  revert acc. induction p as [|b p IH]; intros acc; simpl.
  - rewrite app_nil_r. unfold components. simpl. destruct acc as [|a acc]; [done|]. simpl.
    by destruct (rev acc); rewrite ?app_nil_r.
  - destruct (Z.eqb_spec b c_slash) as [->|Hb]; simpl.
    + rewrite app_nil_r. unfold components. simpl.
      destruct acc as [|a acc]; [done|]. simpl. by destruct (rev acc).
    + rewrite IH. simpl. rewrite <- app_assoc. done.
Qed.

Lemma components_step p :
  components p
  = match skip_slashes p with
    | [] => []
    | p' => (split_slash p').1 :: components (split_slash p').2
    end.
Proof.
  induction p as [|b p IH]; simpl; [done|]. destruct (Z.eqb_spec b c_slash) as [->|Hb].
  - exact IH.
  - unfold components at 1. simpl. destruct (Z.eqb_spec b c_slash); [done|].
    by rewrite components_split.
Qed.

Lemma skip_slashes_len p : (length (skip_slashes p) <= length p)%nat.
Proof. induction p as [|b p IH]; simpl; [done|]. destruct (b =? c_slash); simpl; lia. Qed.

Lemma skip_slashes_head p b p' : skip_slashes p = b :: p' -> b <> c_slash.
Proof.
  induction p as [|c p IH]; simpl; [done|]. destruct (Z.eqb_spec c c_slash); [done|]. congruence.
Qed.

Lemma split_slash_len p : (length (split_slash p).2 <= length p)%nat.
Proof. induction p as [|b p IH]; simpl; [done|]. destruct (b =? c_slash); simpl; lia. Qed.

(** A child of a walked body is a node of the blob. *)
Lemma child_at o its o' off name body :
  items_at m o its o' -> 0 <= o -> o mod 4 = 0 -> In (INode off name body) its ->
  0 <= off /\ off mod 4 = 0 /\ exists next, node_at m off name body next.
Proof.
  induction 1 as [o|o e its o' Ht He Hits IH|o no' nm' val' e its o' Ht He Hs Hits IH
    |o nname e body' o1 e1 its o' Ht He Hbody IHb Ht1 He1 Hits IH]; intros Ho Ha; simpl; try done.
  - pose proof (tok_at_len _ _ _ _ Ht). pose proof (align4_spec e) as [? ?].
    intros [?|Hin]; [done|]. apply IH; done || lia.
  - pose proof (tok_at_len _ _ _ _ Ht). pose proof (align4_spec e) as [? ?].
    intros [?|Hin]; [done|]. apply IH; done || lia.
  - pose proof (tok_at_len _ _ _ _ Ht). pose proof (align4_spec e) as [? ?].
    pose proof (items_at_mono _ _ _ _ Hbody). pose proof (tok_at_len _ _ _ _ Ht1).
    pose proof (align4_spec e1) as [? ?]. intros [[= -> -> ->]|Hin]; [|apply IH; done || lia].
    split_and!; [done..|]. exists (align4 e1), e, o1, e1. done.
Qed.

Lemma path_loop_node fuel p : forall o name body next,
  0 <= o -> o mod 4 = 0 -> node_at m o name body next -> (length p < fuel)%nat ->
  path_loop fuel m o p
  = Ret (match resolve (INode o name body) (components p) with
         | Some it => item_off it
         | None => - FDT_ERR_NOTFOUND
         end).
Proof.
  revert p. induction fuel as [|fuel IH]; intros p o name body next Ho Ha Hn Hf; [lia|].
  rewrite components_step. cbn [path_loop]. destruct (skip_slashes p) as [|b p'] eqn:E; [done|].
  rewrite (subnode_offset_node _ _ _ _ _ Ho Ha Hn). rewrite bind_ret. cbn [resolve].
  pose proof (skip_slashes_head _ _ _ E) as Hb. pose proof (skip_slashes_len p) as Hl1. rewrite E in Hl1.
  destruct (List.find _ body) as [it|] eqn:Ef; [|done].
  apply List.find_some in Ef as [Hin Hmatch]. destruct it as [| |off nm' body']; try done.
  destruct Hn as (e & o1 & e1 & Ht & He & Hbd & _). pose proof (tok_at_len _ _ _ _ Ht).
  pose proof (align4_spec e) as [? ?].
  destruct (child_at _ _ _ _ _ _ Hbd ltac:(lia) ltac:(done) Hin) as (Hoff & Hal & next' & Hn').
  simpl item_off. destruct (Z.ltb_spec off 0); [lia|]. eapply IH; try done.
  simpl in Hl1 |- *. destruct (Z.eqb_spec b c_slash); [done|]. simpl.
  pose proof (split_slash_len p'). lia.
Qed.
End Read.
