(* ===== verification/FdtCheck.v ===== *)
(** * libfdt: the full check and searches

    [fdt_check_full] accepts a blob exactly when its header is in bounds, its
    reservation map is terminated and its structure block holds a tree whose
    property names are strings: [check_full_tree] and [check_full_accepts].  The
    walks terminate on every blob without an overflowing property length, and a
    crafted length makes them run forever.

    The searches of [fdt_ro.c] that try every node return the first one in
    preorder that qualifies; a phandle is read from the property that holds it;
    [fdt_stringlist_contains] decides membership in a well-formed string list. *)

From stdpp Require Import base option list strings.
From S2P Require Import Prelude.
From S2P Require Import BranchHash.
From S2P Require Import FdtBase.
From S2P Require Import FdtTags.
From S2P Require Import FdtTree.
From S2P Require Import FdtRead.
From S2P Require Import FdtReadFacts.

(** The offsets a walk from [o] gets to. *)
Inductive reach (m : list Z) (o : Z) : Z -> Prop :=
| reach_refl : reach m o o
| reach_next p tag next :
    reach m o p -> fdt_next_tag m p = Ret (tag, next) -> 0 <= next -> reach m o next.

(** No property length on the way overflows the arithmetic of
    [fdt_next_tag]. *)
Definition safe_from (m : list Z) (o : Z) : Prop := forall p, reach m o p -> safe_at m p.

Lemma safe_here m o : safe_from m o -> safe_at m o.
Proof. intros H. apply H, reach_refl. Qed.

Lemma safe_next m o tag next :
  safe_from m o -> fdt_next_tag m o = Ret (tag, next) -> 0 <= next -> safe_from m next.
Proof.
  intros H E Hn p Hp. apply H. induction Hp as [|p tag' next' Hp IH]; [by eapply reach_next; [apply reach_refl|..]|].
  by eapply reach_next.
Qed.

(** The same, decided by walking. *)
Definition safe_atb (m : list Z) (o : Z) : bool :=
  implb (o + 8 <=? slimit m)
    (implb (word m (sbase m + o) =? FDT_PROP) (o + 16 + word m (sbase m + o + 4) <? 2 ^ 31)).

Fixpoint safe_walk (fuel : nat) (m : list Z) (o : Z) : bool :=
  match fuel with
  | O => false
  | S fuel =>
      safe_atb m o &&
      match fdt_next_tag m o with
      | Ret (_, next) => if next <? 0 then true else safe_walk fuel m next
      | _ => true
      end
  end.

Lemma safe_atb_ok m o : safe_atb m o = true -> safe_at m o.
Proof.
  unfold safe_atb, safe_at. intros H Ho Ht. apply Z.leb_le in Ho. apply Z.eqb_eq in Ht.
  rewrite Ho, Ht in H. simpl in H. by apply Z.ltb_lt in H.
Qed.

Lemma reach_inv m o p :
  reach m o p -> o = p \/ exists tag next, fdt_next_tag m o = Ret (tag, next) /\ 0 <= next /\ reach m next p.
Proof.
  induction 1 as [|p tag next Hp IH E Hn]; [by left|right]. destruct IH as [->|(tag' & n' & E' & Hn' & Hr)].
  - exists tag, next. split_and!; [done..|constructor].
  - exists tag', n'. split_and!; [done..|]. by eapply reach_next.
Qed.

Lemma safe_walk_ok fuel m : forall o, safe_walk fuel m o = true -> safe_from m o.
Proof.
  induction fuel as [|fuel IH]; intros o; simpl; [done|]. intros [Hs Hr]%andb_true_iff p Hp.
  apply reach_inv in Hp as [<-|(tag & next & E & Hn & Hp)]; [by apply safe_atb_ok|].
  rewrite E in Hr. destruct (Z.ltb_spec next 0); [lia|]. by apply (IH next).
Qed.

(** The structure block holds the items [its], then the end tag. *)
Definition tree_at (m : list Z) (its : list item) : Prop :=
  exists o e, items_at m 0 its o /\ tok_at m o TEnd e /\ e <= slimit m.

Section Check.
Context (m : list Z) (Hc : complete m).

(** What is left to read with [d] nodes open. *)
Fixpoint closes (d : nat) (o : Z) : Prop :=
  exists its o', items_at m o its o' /\
    match d with
    | O => exists e, tok_at m o' TEnd e /\ e <= slimit m
    | S d => exists e, tok_at m o' TEndNode e /\ e <= slimit m /\ closes d (align4 e)
    end.

Lemma closes_cons d o it o1 :
  (forall its o', items_at m o1 its o' -> items_at m o (it :: its) o') -> closes d o1 -> closes d o.
Proof.
  intros Hcons H. destruct d; destruct H as (its & o' & Hits & H); exists (it :: its), o'; auto.
Qed.

Lemma getprop_by_offset_spec o no val e :
  0 <= o -> o mod 4 = 0 -> tok_at m o (TProp no val) e -> e <= slimit m ->
  (exists name p, string_at m no name /\ fdt_getprop_by_offset m o = Ret (Some (p, strbase m + no), vsize val)) \/
  (exists err, err < 0 /\ fdt_getprop_by_offset m o = Ret (None, err) /\ forall s, ~ string_at m no s).
Proof.
  intros Ho Ha Ht He. pose proof Hc as [[Hb Hh Hh17 Htot Hsm Hst] _ _ _ _]. pose proof (slimit_le m).
  unfold INT32_MAX in *. pose proof (tok_at_len _ _ _ _ Ht). pose proof (align4_spec e) as [? ?].
  assert (fdt_check_prop_offset_ m o = Ret (align4 e)) as Hck.
  { unfold fdt_check_prop_offset_. change FDT_PROP with (tag_of (TProp no val)).
    apply check_offset_ok; done || apply Hc. }
  destruct Ht as [_ (Hlen & Hno & Hval & ->)]. pose proof (vsize_nonneg val).
  assert (o + 12 <= prop_data (ver m) o (vsize val)) by (unfold prop_data; destruct (_ && _); lia).
  unfold fdt_getprop_by_offset, fdt_get_property_by_offset_. rewrite Hck, bind_ret.
  destruct (Z.ltb_spec (align4 (prop_data (ver m) o (vsize val) + vsize val)) 0); [lia|].
  unfold fdt_offset_ptr_. do 3 (hdr; simpl). rewrite Hno, Hlen.
  pose proof (word_range m (sbase m + o + 8) Hb) as Hr. rewrite Hno in Hr.
  rewrite (swrap_small 32 (vsize val)) by lia.
  destruct (Z.ltb_spec no (2 ^ 31)).
  - rewrite swrap_small by lia.
    destruct (get_string_spec m Hc no) as [(s & Hs & ->)|(err & Herr & -> & Hn)]; [lia|left|right].
    + exists s. unfold prop_value_ptr. hdr. simpl. destruct (_ && _); simpl; eauto.
    + exists err. done.
  - right. assert (s32 no = no - 2 ^ 32) as -> by (unfold swrap; Z.div_mod_to_equations; lia).
    destruct (get_string_spec m Hc (no - 2 ^ 32)) as [(s & (Hs & _) & _)|(err & Herr & -> & Hn)]; [lia..|].
    exists err. split_and!; [done..|]. intros s (_ & Hs & _). pose proof (strlimit_le m).
    pose proof (vsize_nonneg s). pose proof (word_range m 12 Hb). lia.
Qed.

Lemma check_full_loop_sound fuel : forall o d,
  safe_from m o -> 0 <= o -> o mod 4 = 0 -> Z.of_nat d < 2 ^ 31 -> o < 2 ^ 31 ->
  check_full_loop fuel m o (Z.of_nat d) = Ret 0 -> closes d o.
Proof.
  induction fuel as [|fuel IH]; intros o d Hsafe Ho Ha Hd Hob H; [done|]. simpl in H.
  destruct (next_tag_spec m o) as [(t & e & _ & Ht & He & E)|[E|E]]; try (apply Hc || by apply safe_here || lia);
    rewrite E in H; simpl in H; try done.
  pose proof (tok_at_len _ _ _ _ Ht). pose proof (align4_spec e) as [? Hal].
  destruct (Z.ltb_spec (align4 e) 0); [lia|].
  pose proof (safe_next _ _ _ _ Hsafe E ltac:(lia)) as Hsafe'.
  pose proof Hc as [[Hb Hh Hh17 Htot Hsm Hst] _ _ _ _]. pose proof (slimit_le m). unfold INT32_MAX in *.
  destruct t as [name| |no val| |]; simpl in H.
  - rewrite uwrap_small in H by lia. destruct (Z.ltb_spec (2 ^ 31 - 1) (Z.of_nat d + 1)); [done|].
    replace (Z.of_nat d + 1) with (Z.of_nat (S d)) in H by lia.
    apply IH in H as (body & o1 & Hbody & e1 & Ht1 & He1 & Hrest); try done; try lia.
    destruct d; destruct Hrest as (its & o' & Hits & Hr); exists (INode o name body :: its), o';
      (split; [by eapply at_node|done]).
  - destruct (Z.eqb_spec (Z.of_nat d) 0); [done|]. destruct d as [|d]; [lia|].
    rewrite uwrap_small in H by lia. replace (Z.of_nat (S d) - 1) with (Z.of_nat d) in H by lia.
    apply IH in H; try done; try lia. exists [], o. split; [constructor|]. exists e. done.
  - destruct (getprop_by_offset_spec o no val e) as [(nm & p & Hs & E')|(err & Herr & E' & _)]; try done; try lia;
      rewrite E' in H; simpl in H; [|injection H as ->; lia].
    apply IH in H; try done; try lia. eapply closes_cons; [|exact H]. intros. by eapply at_prop.
  - apply IH in H; try done; try lia. eapply closes_cons; [|exact H]. intros. by eapply at_nop.
  - destruct (Z.eqb_spec (Z.of_nat d) 0); [|done]. destruct d as [|d]; [|lia].
    exists [], o. split; [constructor|]. exists e. done.
Qed.

(** A tree is accepted. *)
Lemma check_full_loop_items o its o' :
  items_at m o its o' -> forall d fuel, 0 <= o -> o mod 4 = 0 -> 0 <= d <= o -> slimit m < o + Z.of_nat fuel ->
  exists fuel', slimit m < o' + Z.of_nat fuel' /\
    check_full_loop fuel m o d = check_full_loop fuel' m o' d.
Proof.
  pose proof (slimit_small m (co_blob m Hc)) as Hsm.
  induction 1 as [o|o e its o' Ht He Hits IH|o no nm val e its o' Ht He Hs Hits IH
    |o name e body o1 e1 its o' Ht He Hbody IHb Ht1 He1 Hits IH]; intros d fuel Ho Ha Hd Hf; [by exists fuel|..];
    pose proof (tok_at_len _ _ _ _ Ht); pose proof (align4_spec e) as [? Hal];
    (destruct fuel as [|fuel]; [lia|]); simpl;
    erewrite (next_tag_complete m o) by (done || apply Hc); simpl;
    (destruct (Z.ltb_spec (align4 e) 0); [lia|]); unfold INT32_MAX.
  - apply IH; lia.
  - destruct (getprop_by_offset_spec o no val e) as [(nm' & p & Hs' & E')|(err & Herr & E' & Hno)]; try done;
      [|by destruct (Hno nm)]. rewrite E'. simpl. apply IH; lia.
  - rewrite uwrap_small by lia. destruct (Z.ltb_spec (2 ^ 31 - 1) (d + 1)); [lia|].
    destruct (IHb (d + 1) fuel) as (f1 & Hf1 & ->); try done; try lia.
    pose proof (items_at_mono _ _ _ _ Hbody).
    pose proof (tok_at_len _ _ _ _ Ht1). pose proof (align4_spec e1) as [? Hal1].
    destruct f1 as [|f1]; [lia|]. simpl. erewrite (next_tag_complete m o1) by (done || apply Hc || lia). simpl.
    destruct (Z.ltb_spec (align4 e1) 0); [lia|]. destruct (Z.eqb_spec (d + 1) 0); [lia|].
    rewrite uwrap_small by lia. replace (d + 1 - 1) with d by lia. apply IH; lia.
Qed.

Lemma check_full_loop_tree its :
  tree_at m its -> check_full_loop (S (length m)) m 0 0 = Ret 0.
Proof.
  intros (o & e & Hits & Ht & He). pose proof (tok_at_len _ _ _ _ Ht). pose proof (align4_spec e) as [? _].
  pose proof (items_at_mono _ _ _ _ Hits).
  destruct (check_full_loop_items _ _ _ Hits 0 (S (length m))) as (f & Hf & ->); try done.
  { apply fuel_enough; done. }
  destruct f as [|f]; [lia|]. simpl. erewrite (next_tag_complete m o) by (done || apply Hc). simpl.
  destruct (Z.ltb_spec (align4 e) 0); [lia|done].
Qed.

End Check.
(** ** The header *)

Notation rsvbase m := (word m 16).

(** The blocks the header announces lie behind it and inside the blob. *)
Record header_ok (m : list Z) : Prop := {
  ho_magic : word m 0 = FDT_MAGIC;
  ho_version : FDT_FIRST_SUPPORTED_VERSION <= ver m;
  ho_last_comp : word m 24 <= FDT_LAST_SUPPORTED_VERSION /\ word m 24 <= ver m;
  ho_total : fdt_header_size_ (ver m) <= total m <= INT32_MAX;
  ho_rsvmap : fdt_header_size_ (ver m) <= rsvbase m <= total m;
  ho_struct : fdt_header_size_ (ver m) <= sbase m <= total m;
  ho_struct_end : 17 <= ver m -> sbase m + word m 36 <= total m;
  ho_strings : fdt_header_size_ (ver m) <= strbase m /\ strbase m + word m 32 <= total m
}.

Lemma check_off_iff h t o : check_off_ h t o = true <-> h <= o <= t.
Proof. unfold check_off_. rewrite andb_true_iff, !Z.leb_le. lia. Qed.

Lemma check_block_iff h t b s :
  0 <= h -> 0 <= b < 2 ^ 32 -> 0 <= s < 2 ^ 32 -> t < 2 ^ 32 ->
  check_block_ h t b s = true <-> h <= b /\ b + s <= t.
Proof.
  intros Hh Hb Hs Ht. unfold check_block_.
  destruct (check_off_ h t b) eqn:E; simpl; [|].
  - apply check_off_iff in E. destruct (Z.ltb_spec (b + s) (2 ^ 32)).
    + rewrite uwrap_small by lia. destruct (Z.ltb_spec (b + s) b); [lia|].
      destruct (check_off_ h t (b + s)) eqn:E'; simpl; [apply check_off_iff in E'; intuition lia|].
      split; [done|]. intros H1. assert (check_off_ h t (b + s) = true) by (apply check_off_iff; lia). congruence.
    + assert (u32 (b + s) = b + s - 2 ^ 32) as -> by (unfold uwrap; Z.div_mod_to_equations; lia).
      destruct (Z.ltb_spec (b + s - 2 ^ 32) b); [|lia]. split; [done|lia].
  - split; [done|]. intros H1. assert (check_off_ h t b = true) by (apply check_off_iff; lia). congruence.
Qed.

Lemma header_size_range v : FDT_V1_SIZE <= fdt_header_size_ v <= FDT_V17_SIZE.
Proof. unfold fdt_header_size_. repeat case_test; done. Qed.

(** A rejection: some field contradicts [header_ok]. *)
Ltac reject :=
  eexists; split_and!; [reflexivity|done|]; split; [done|]; intros [];
  unfold FDT_FIRST_SUPPORTED_VERSION, FDT_LAST_SUPPORTED_VERSION, INT32_MAX in *; lia.

(** [fdt_check_header] decides [header_ok]. *)
Lemma check_header_spec m :
  bytes_ok m -> FDT_V17_SIZE <= vsize m ->
  exists err, fdt_check_header m = Ret err /\ err <= 0 /\ (err = 0 <-> header_ok m).
Proof.
  intros Hb Hh. unfold fdt_check_header, fdt_header_size. hdr. simpl.
  pose proof (header_size_range (ver m)) as Hhs. unfold FDT_V1_SIZE in Hhs.
  pose proof (word_range m 8 Hb). pose proof (word_range m 12 Hb). pose proof (word_range m 36 Hb).
  pose proof (word_range m 32 Hb). pose proof (word_range m 4 Hb).
  unfold FDT_FIRST_SUPPORTED_VERSION, FDT_LAST_SUPPORTED_VERSION, INT32_MAX.
  destruct (Z.eqb_spec (word m 0) FDT_MAGIC); simpl; [|reject].
  destruct (Z.ltb_spec (ver m) 2); [reject|].
  destruct (Z.ltb_spec 17 (word m 24)); [reject|].
  destruct (Z.ltb_spec (ver m) (word m 24)); [reject|].
  destruct (Z.ltb_spec (total m) (fdt_header_size_ (ver m))); simpl; [reject|].
  destruct (Z.ltb_spec (2 ^ 31 - 1) (total m)); simpl; [reject|].
  destruct (check_off_ _ (total m) (rsvbase m)) eqn:E1; simpl.
  2: { assert (~ (fdt_header_size_ (ver m) <= rsvbase m <= total m)) by (rewrite <- check_off_iff; congruence). reject. }
  apply check_off_iff in E1.
  assert ((if ver m <? 17 then Ret (check_off_ (fdt_header_size_ (ver m)) (total m) (sbase m))
           else Ret (check_block_ (fdt_header_size_ (ver m)) (total m) (sbase m) (word m 36)))
          = Ret (bool_decide (fdt_header_size_ (ver m) <= sbase m <= total m /\
              (17 <= ver m -> sbase m + word m 36 <= total m)))) as ->.
  { destruct (Z.ltb_spec (ver m) 17); f_equal; apply eq_true_iff_eq; rewrite bool_decide_eq_true.
    - rewrite check_off_iff. lia.
    - rewrite check_block_iff; lia. }
  simpl. case_bool_decide as Hst; simpl; [|reject].
  destruct (check_block_ _ _ (strbase m) _) eqn:E2; simpl.
  - apply check_block_iff in E2; [|lia..]. exists 0. split_and!; [done..|]. split; [|done]. intros _.
    split; unfold FDT_FIRST_SUPPORTED_VERSION, FDT_LAST_SUPPORTED_VERSION, INT32_MAX in *; done || lia || apply Hst.
  - assert (~ (fdt_header_size_ (ver m) <= strbase m /\ strbase m + word m 32 <= total m))
      by (rewrite <- check_block_iff by lia; congruence). reject.
Qed.

Lemma header_complete m :
  bytes_ok m -> FDT_V17_SIZE <= vsize m < INT32_MAX -> total m <= vsize m -> header_ok m -> complete m.
Proof.
  intros Hb Hh Ht [Hmg Hv Hl Htot Hr Hst Hse Hs]. pose proof (header_size_range (ver m)) as Hhs.
  pose proof (word_range m 32 Hb). unfold FDT_V1_SIZE, FDT_V17_SIZE, INT32_MAX in *.
  split; [split|..]; unfold FDT_V16_SIZE, FDT_V17_SIZE, INT32_MAX; done || lia.
Qed.

(** ** The memory reservation map *)

(** The map has [n] entries and is closed by one of size zero. *)
Definition rsvmap_at (m : list Z) (n : Z) : Prop :=
  0 <= n /\ rsvbase m + 16 * n + 16 <= total m /\ dword m (rsvbase m + 16 * n + 8) = 0 /\
  forall i, 0 <= i < n -> dword m (rsvbase m + 16 * i + 8) <> 0.

Lemma mem_rsv_ok m i :
  complete m -> 16 <= total m -> 0 <= i -> rsvbase m + 16 * i <= total m ->
  fdt_mem_rsv m i
  = Ret (if decide (rsvbase m + 16 * i + 16 <= total m) then Some (rsvbase m + 16 * i) else None).
Proof.
  intros [[Hb Hh Hh17 Ht Hs Hst] _ _ _ _] Ht16 Hi Hr. pose proof (word_range m 16 Hb).
  unfold fdt_mem_rsv, fdt_mem_rsv_, sizeof_fdt_reserve_entry, INT32_MAX in *. hdr. simpl.
  rewrite (uwrap_small 64 (i * 16)), (swrap_small 32 (i * 16)) by lia.
  rewrite (swrap_small 32 (rsvbase m + i * 16)) by lia.
  rewrite (uwrap_small 32), (uwrap_small 64 (total m - 16)), (uwrap_small 64 (rsvbase m + i * 16)) by lia.
  destruct (Z.ltb_spec (rsvbase m + i * 16) (rsvbase m)); [lia|].
  case_decide; destruct (Z.ltb_spec (total m - 16) (rsvbase m + i * 16)); try lia; do 2 f_equal; lia.
Qed.

Lemma num_mem_rsv_loop_spec m fuel : forall i,
  complete m -> 16 <= total m -> 0 <= i -> rsvbase m + 16 * i <= total m ->
  (forall j, 0 <= j < i -> dword m (rsvbase m + 16 * j + 8) <> 0) ->
  vsize m < 16 * i + Z.of_nat fuel ->
  (exists n, rsvmap_at m n /\ num_mem_rsv_loop fuel m i = Ret n) \/
  (num_mem_rsv_loop fuel m i = Ret (- FDT_ERR_TRUNCATED) /\ forall n, ~ rsvmap_at m n).
Proof.
  induction fuel as [|fuel IH]; intros i Hc Ht16 Hi Hr Hj Hf;
    pose proof Hc as [[Hb Hh Hh17 Ht Hs Hst] _ _ _ _]; pose proof (word_range m 16 Hb); [lia|].
  simpl. rewrite mem_rsv_ok by done. rewrite bind_ret. case_decide as Hd.
  - rewrite fdt64_ld_ok by (done || lia). rewrite bind_ret.
    destruct (Z.eqb_spec (dword m (rsvbase m + 16 * i + 8)) 0) as [E|E].
    + left. exists i. split; [|done]. split_and!; done || lia.
    + unfold INT32_MAX in *. rewrite int_chk_ok by lia. simpl. apply IH; try done; try lia.
      intros j Hj'. destruct (decide (j = i)) as [->|]; [done|]. apply Hj. lia.
  - right. split; [done|]. intros n (Hn & Hn2 & Hz & _).
    destruct (decide (n < i)); [by apply (Hj n)|]. lia.
Qed.

Lemma num_mem_rsv_spec m :
  complete m -> 16 <= total m -> rsvbase m <= total m ->
  (exists n, rsvmap_at m n /\ fdt_num_mem_rsv m = Ret n) \/
  (fdt_num_mem_rsv m = Ret (- FDT_ERR_TRUNCATED) /\ forall n, ~ rsvmap_at m n).
Proof.
  intros Hc Ht Hr. apply num_mem_rsv_loop_spec; try done; try lia. unfold vsize. lia.
Qed.

(** ** The whole check *)

(** Acceptance needs no assumption on lengths. *)
Lemma check_full_accepts m its n :
  bytes_ok m -> FDT_V17_SIZE <= vsize m < INT32_MAX -> header_ok m -> total m <= vsize m ->
  rsvmap_at m n -> tree_at m its -> fdt_check_full m (vsize m) = Ret 0.
Proof.
  intros Hb Hh Hho Htot Hn Htree. unfold fdt_check_full, check_full.
  destruct (check_header_spec m) as (err & -> & Hle & Herr); [done|lia|]. rewrite bind_ret.
  rewrite (proj2 Herr Hho). unfold FDT_V1_SIZE, FDT_V17_SIZE in *. destruct (Z.ltb_spec (vsize m) 28); [lia|].
  simpl negb. cbv iota. hdr. rewrite bind_ret. destruct (Z.ltb_spec (vsize m) (total m)); [lia|].
  pose proof (header_complete m Hb ltac:(unfold FDT_V17_SIZE; lia) Htot Hho) as Hc.
  pose proof (header_size_range (ver m)) as Hhs. unfold FDT_V1_SIZE in Hhs.
  destruct (num_mem_rsv_spec m Hc) as [(n' & (Hn' & _) & ->)|[_ Hno]]; [destruct Hho; lia..| |by destruct (Hno n)].
  rewrite bind_ret. destruct (Z.ltb_spec n' 0); [lia|]. by eapply check_full_loop_tree.
Qed.

Lemma check_full_spec m :
  bytes_ok m -> FDT_V17_SIZE <= vsize m < INT32_MAX -> safe_from m 0 ->
  fdt_check_full m (vsize m) = Ret 0 <->
  header_ok m /\ total m <= vsize m /\ (exists n, rsvmap_at m n) /\ exists its, tree_at m its.
Proof.
  intros Hb Hh Hsafe. unfold fdt_check_full, check_full.
  destruct (check_header_spec m) as (err & -> & Hle & Herr); [done|lia|]. rewrite bind_ret.
  unfold FDT_V1_SIZE, FDT_V17_SIZE in *. destruct (Z.ltb_spec (vsize m) 28); [lia|].
  destruct (Z.eqb_spec err 0) as [->|Hne]; simpl negb; cbv iota; [|split; [intros [=]|intros (? & _); tauto]; lia].
  hdr. rewrite bind_ret. pose proof (proj1 Herr eq_refl) as Hho.
  destruct (Z.ltb_spec (vsize m) (total m)); [split; [done|lia]|].
  pose proof (header_complete m Hb ltac:(unfold FDT_V17_SIZE; lia) ltac:(lia) Hho) as Hc.
  pose proof (header_size_range (ver m)) as Hhs. unfold FDT_V1_SIZE in Hhs.
  destruct (num_mem_rsv_spec m Hc) as [(n & Hn & ->)|[-> Hn]]; [destruct Hho; lia..| |]; rewrite bind_ret.
  - pose proof Hn as (Hn0 & _). destruct (Z.ltb_spec n 0); [lia|]. split.
    + intros Hrun. split_and!; [done..|by exists n|].
      apply (check_full_loop_sound m Hc _ 0 0) in Hrun as (its & o & Hits & e & Ht & He); try done.
      exists its, o, e. done.
    + intros (_ & _ & _ & its & Ht). by apply (check_full_loop_tree m Hc its).
  - split; [intros [=]|]. intros (_ & _ & [n Hn'] & _). by destruct (Hn n).
Qed.
(** ** Termination *)

Definition int_range (x : Z) : Prop := - 2 ^ 31 <= x < 2 ^ 31.

Definition depth_range (d : option Z) : Prop :=
  match d with None => True | Some d => - 2 ^ 31 < d < 2 ^ 31 - 1 end.

Section Terminate.
Context (m : list Z) (Hm : blob_ok m).

(** [fdt_next_tag] on any offset: a token, or an error. *)
Lemma next_tag_cases o :
  int_range o -> safe_at m o ->
  (exists t e, 0 <= o /\ tok_at m o t e /\ e <= slimit m /\ fdt_next_tag m o = Ret (tag_of t, align4 e)) \/
  exists err, err < 0 /\ fdt_next_tag m o = Ret (FDT_END, err) /\ int_range err.
Proof.
  intros Ho Hs. destruct (next_tag_spec m o) as [?|[E|E]]; try done; [by left|right..];
    by eexists; split_and!; [|exact E|].
Qed.

(** Fuel that lasts for the tokens from [o] on. *)
Definition fuel_from (o : Z) (fuel : nat) : Prop :=
  (1 <= fuel)%nat /\ (o < 0 \/ slimit m + 4 <= o + 4 * Z.of_nat fuel).

Lemma fuel_from_step o fuel t e :
  0 <= o -> tok_at m o t e -> e <= slimit m -> fuel_from o (S fuel) -> fuel_from (align4 e) fuel.
Proof.
  intros Ho Ht He [_ Hf]. pose proof (tok_at_len _ _ _ _ Ht). pose proof (align4_spec e) as [? _].
  split; lia.
Qed.

Lemma fuel_from_length o : fuel_from o (S (length m)).
Proof.
  split; [lia|]. destruct (decide (o < 0)); [by left|right].
  destruct Hm. pose proof (slimit_le m). unfold vsize in *. lia.
Qed.

Lemma next_node_loop_total fuel : forall o d,
  int_range o -> depth_range d -> safe_from m o -> fuel_from o fuel -> returns (next_node_loop fuel m o d).
Proof.
  pose proof (slimit_small m Hm) as Hsm.
  induction fuel as [|fuel IH]; intros o d Ho Hd Hsafe Hf; [destruct Hf; lia|]. simpl.
  destruct (next_tag_cases o Ho (safe_here _ _ Hsafe)) as [(t & e & Hpos & Ht & He & E)|(err & Herr & -> & _)].
  2: { simpl. destruct (_ || _); by eexists. }
  pose proof (fuel_from_step _ _ _ _ Hpos Ht He Hf) as Hf'.
  pose proof (tok_at_len _ _ _ _ Ht). pose proof (align4_spec e) as [? _].
  pose proof (safe_next _ _ _ _ Hsafe E ltac:(lia)) as Hsafe'. rewrite E.
  assert (int_range (align4 e)) as Hr by (unfold int_range; lia).
  destruct t; simpl; try (by apply IH); destruct d as [d|]; simpl in Hd; try (by apply IH); try (by eexists).
  - rewrite int_chk_ok by lia. by eexists.
  - rewrite int_chk_ok by lia. simpl. destruct (Z.ltb_spec (d - 1) 0); [by eexists|].
    apply IH; [done|simpl; lia|done..].
  - destruct (_ || _); by eexists.
  - destruct (_ || _); by eexists.
Qed.

Lemma next_node_total o d :
  int_range o -> depth_range d -> safe_from m (Z.max 0 o) -> returns (fdt_next_node m o d).
Proof.
  intros Ho Hd Hsafe. unfold fdt_next_node. remember (S (length m)) as fuel eqn:Hfuel.
  destruct (Z.leb_spec 0 o).
  2: { rewrite Z.max_l in Hsafe by lia. subst fuel. apply next_node_loop_total; [done..|apply fuel_from_length]. }
  rewrite Z.max_r in Hsafe by lia.
  unfold fdt_check_node_offset_, check_tag_offset. destruct (_ || _); [by eexists|].
  destruct (next_tag_cases o Ho (safe_here _ _ Hsafe)) as [(t & e & Hpos & Ht & He & E)|(err & Herr & -> & Hr)]; simpl.
  2: { by eexists. }
  pose proof (slimit_small m Hm). pose proof (tok_at_len _ _ _ _ Ht). pose proof (align4_spec e) as [? _].
  pose proof (safe_next _ _ _ _ Hsafe E ltac:(lia)) as Hsafe'. rewrite E. simpl.
  destruct (_ =? _); simpl; [|by eexists]. destruct (_ <? _); [by eexists|].
  subst fuel. apply next_node_loop_total; [unfold int_range; lia|done|done|apply fuel_from_length].
Qed.

Lemma nextprop_loop_total fuel : forall o,
  int_range o -> safe_from m o -> fuel_from o fuel -> returns (nextprop_loop fuel m o).
Proof.
  pose proof (slimit_small m Hm) as Hsm.
  induction fuel as [|fuel IH]; intros o Ho Hsafe Hf; [destruct Hf; lia|]. simpl.
  destruct (next_tag_cases o Ho (safe_here _ _ Hsafe)) as [(t & e & Hpos & Ht & He & E)|(err & Herr & -> & _)].
  2: { simpl. destruct (_ <=? _); by eexists. }
  pose proof (fuel_from_step _ _ _ _ Hpos Ht He Hf) as Hf'.
  pose proof (tok_at_len _ _ _ _ Ht). pose proof (align4_spec e) as [? _].
  pose proof (safe_next _ _ _ _ Hsafe E ltac:(lia)) as Hsafe'. rewrite E.
  assert (int_range (align4 e)) as Hr by (unfold int_range; lia).
  destruct t; simpl; try (by apply IH); try (by eexists). destruct (_ <=? _); by eexists.
Qed.

Lemma nextprop_total o : int_range o -> safe_from m o -> returns (nextprop_ m o).
Proof. intros Ho Hs. apply nextprop_loop_total; [done..|apply fuel_from_length]. Qed.
End Terminate.

Lemma check_full_loop_total m fuel : forall o d,
  complete m -> safe_from m o -> int_range o -> 0 <= o -> o mod 4 = 0 -> fuel_from m o fuel ->
  returns (check_full_loop fuel m o d).
Proof.
  induction fuel as [|fuel IH]; intros o d Hc Hsafe Ho Hpos Ha Hf; [destruct Hf; lia|]. simpl.
  pose proof (slimit_small m (co_blob m Hc)) as Hsm.
  destruct (next_tag_cases m (co_blob m Hc) o Ho (safe_here _ _ Hsafe)) as [(t & e & _ & Ht & He & E)|(err & Herr & -> & _)]; simpl.
  2: { destruct (Z.ltb_spec err 0); [by eexists|lia]. }
  pose proof (fuel_from_step m _ _ _ _ Hpos Ht He Hf) as Hf'.
  pose proof (tok_at_len _ _ _ _ Ht). pose proof (align4_spec e) as [? Hal].
  pose proof (safe_next _ _ _ _ Hsafe E ltac:(lia)) as Hsafe'. rewrite E. simpl.
  assert (int_range (align4 e)) as Hr by (unfold int_range; lia).
  destruct (_ <? 0); [by eexists|].
  destruct t as [| |no val| |]; simpl; try (destruct (_ <? _)); try (destruct (_ =? 0)); try (by eexists);
    try (apply IH; done || lia).
  - destruct (getprop_by_offset_spec m Hc o no val e) as [(nm & p & _ & ->)|(err & _ & -> & _)]; try done; simpl;
      [apply IH; done || lia|by eexists].
Qed.

Lemma check_full_total m :
  bytes_ok m -> FDT_V17_SIZE <= vsize m < INT32_MAX -> safe_from m 0 -> returns (fdt_check_full m (vsize m)).
Proof.
  intros Hb Hh Hsafe. unfold fdt_check_full, check_full. destruct (_ <? _); [by eexists|].
  destruct (check_header_spec m) as (err & -> & Hle & Herr); [done|lia|]. rewrite bind_ret.
  destruct (Z.eqb_spec err 0) as [->|Hne]; [|by eexists]. pose proof (proj1 Herr eq_refl) as Hho. simpl negb. cbv iota.
  unfold FDT_V17_SIZE in *. hdr. rewrite bind_ret. destruct (Z.ltb_spec (vsize m) (total m)); [by eexists|].
  pose proof (header_complete m Hb ltac:(unfold FDT_V17_SIZE; lia) ltac:(lia) Hho) as Hc.
  pose proof (header_size_range (ver m)) as Hhs. unfold FDT_V1_SIZE in Hhs.
  destruct (num_mem_rsv_spec m Hc) as [(n & Hn & ->)|[-> Hn]]; [destruct Hho; lia..| |]; rewrite bind_ret.
  - destruct (_ <? 0); [by eexists|]. apply check_full_loop_total; try done.
    apply fuel_from_length. apply Hc.
  - by eexists.
Qed.

(** The nodes of a tree in preorder. *)
Definition all_nodes (its : list item) : list item := map fst (visits_all None its).

(** The value of the first property of that name. *)
Definition prop_of (name : list Z) (it : item) : option (list Z) :=
  match it with
  | INode _ _ body => option_map (fun p => p.2) (find_prop name body)
  | _ => None
  end.

(** The phandle of a node, 0 when it has none. *)
Definition phandle_of (it : item) : Z :=
  match prop_of (str "phandle") it with
  | Some [a; b; c; d] => be [a; b; c; d]
  | _ =>
      match prop_of (str "linux,phandle") it with
      | Some [a; b; c; d] => be [a; b; c; d]
      | _ => 0
      end
  end.

Lemma word_bytes m p a b c d : bytes_at m p [a; b; c; d] -> word m p = be [a; b; c; d].
Proof.
  intros H. rewrite !bytes_at_cons in H. destruct H as (H0 & H1 & H2 & H3 & _). unfold word.
  replace (p + 1 + 1 + 1) with (p + 3) in H3 by lia. replace (p + 1 + 1) with (p + 2) in H2 by lia.
  apply vget_byte_inv in H0 as [_ ->], H1 as [_ ->], H2 as [_ ->], H3 as [_ ->]. done.
Qed.

Lemma vsize_four (val : list Z) : vsize val = 4 -> exists a b c d, val = [a; b; c; d].
Proof.
  unfold vsize. destruct val as [|a [|b [|c [|d [|x val]]]]]; simpl; try lia. eauto.
Qed.

Section Search.
Context (m : list Z) (Hc : complete m).

Lemma search_chain (f : item -> option Z) (test : Z -> outcome (option Z)) l : forall o p fuel,
  chain m o None l p None -> fdt_next_node m p None = Ret (- FDT_ERR_NOTFOUND, None) ->
  Forall (visited_ok m) l -> Forall (fun v => below None v.2) l ->
  (forall it, visited_ok m (it, None) -> test (item_off it) = Ret (f it)) ->
  (length l < fuel)%nat ->
  node_search fuel m test o = Ret (default (- FDT_ERR_NOTFOUND) (head (omap f (map fst l)))).
Proof.
  induction l as [|[it d] l IH]; intros o p fuel Hch Hlast Hok Hbel Htest Hf; simpl in Hch, Hf.
  - destruct Hch as [-> _]. destruct fuel as [|fuel]; [lia|]. simpl. by rewrite Hlast.
  - destruct Hch as [Hnx Hch]. destruct fuel as [|fuel]; [lia|]. simpl. rewrite Hnx. simpl.
    apply Forall_cons in Hok as [Hok0 Hok], Hbel as [Hb0 Hbel]. pose proof (Htest it Hok0) as Ht.
    unfold visited_ok in Hok0. simpl in Hok0. destruct it as [| |off name body]; try done.
    simpl in *. destruct Hok0 as (Hoff & _). destruct (Z.ltb_spec off 0); [lia|]. rewrite Ht. simpl.
    destruct (f (INode off name body)); simpl; [done|].
    simpl in Hb0. destruct d; [done|]. eapply IH; try done. lia.
Qed.

Lemma search_tree f test its :
  tree_at m its -> (forall it, visited_ok m (it, None) -> test (item_off it) = Ret (f it)) ->
  node_search (S (S (length m))) m test (- 1)
  = Ret (default (- FDT_ERR_NOTFOUND) (head (omap f (all_nodes its)))).
Proof.
  intros (o & e & Hits & Ht & He) Htest.
  destruct (walk_root m (co_blob m Hc) its o e) as (p & Hch & Hlast); try done.
  destruct (visits_ok _ _ _ _ Hits None) as [Hok _]; [done..|].
  pose proof (visits_length m _ _ _ None Hits). pose proof (tok_at_len _ _ _ _ Ht).
  pose proof (fuel_enough m Hc 0).
  eapply search_chain; try done; [apply visits_all_below|lia].
Qed.

Lemma getprop_visited name it :
  visited_ok m (it, None) ->
  match prop_of name it with
  | Some val => exists p, fdt_getprop m (item_off it) name = Ret (Some p, vsize val) /\ bytes_at m p val /\
      0 <= p /\ p + vsize val + 4 <= vsize m
  | None => fdt_getprop m (item_off it) name = Ret (None, - FDT_ERR_NOTFOUND)
  end.
Proof.
  unfold visited_ok. destruct it as [| |off nm body]; try done. simpl. intros (Hoff & Hal & next & Hn).
  pose proof (getprop_node m Hc name off nm body next Hoff Hal Hn) as H.
  destruct (find_prop name body) as [[[o n] v]|]; done.
Qed.

Lemma phandle_value_visited name it other :
  visited_ok m (it, None) ->
  (php ← fdt_getprop m (item_off it) name; phandle_value m php other)
  = match prop_of name it with Some [a; b; c; d] => Ret (be [a; b; c; d]) | _ => other end.
Proof.
  intros Hv. pose proof (getprop_visited name it Hv) as H. pose proof Hc as [[Hb _ _ _ _ _] _ _ _ _].
  destruct (prop_of name it) as [val|]; [|by rewrite H].
  destruct H as (p & -> & Hval & Hp & Hr). simpl. destruct (Z.eqb_spec (vsize val) 4) as [E|E].
  - destruct (vsize_four val E) as (a & b & c & d & ->). rewrite fdt32_ld_ok by (done || lia).
    by rewrite (word_bytes _ _ _ _ _ _ Hval).
  - by destruct val as [|a [|b [|c [|d [|x val]]]]].
Qed.

Lemma get_phandle_visited it : visited_ok m (it, None) -> fdt_get_phandle m (item_off it) = Ret (phandle_of it).
Proof.
  intros Hv. unfold fdt_get_phandle, phandle_of. rewrite !phandle_value_visited by done.
  destruct (prop_of (str "phandle") it) as [[|a [|b [|c [|d [|x l]]]]]|]; try done;
    destruct (prop_of (str "linux,phandle") it) as [[|a' [|b' [|c' [|d' [|x' l']]]]]|]; done.
Qed.

(** ** The searches *)

Lemma by_prop_value_tree its name val :
  tree_at m its ->
  fdt_node_offset_by_prop_value m (- 1) name val
  = Ret (default (- FDT_ERR_NOTFOUND)
      (head (omap (fun it => if bool_decide (prop_of name it = Some val) then Some (item_off it) else None)
        (all_nodes its)))).
Proof.
  intros Ht. unfold fdt_node_offset_by_prop_value. rewrite (ro_probe_complete m Hc), bind_ret.
  pose proof (total_nonneg m Hc). destruct (Z.ltb_spec (total m) 0); [lia|].
  apply search_tree; [done|]. intros it Hv. pose proof (getprop_visited name it Hv) as H'.
  destruct (prop_of name it) as [v|] eqn:E.
  2: { rewrite H'. simpl. done. }
  destruct H' as (p & -> & Hval & Hp & Hr). simpl. destruct (Z.eqb_spec (vsize v) (vsize val)) as [Es|Es].
  - destruct (memcmp_spec m p val) as (r & -> & Hr'); [lia..|]. simpl.
    assert (r = bool_decide (Some v = Some val)) as ->; [|done].
    apply eq_true_iff_eq. rewrite Hr', bool_decide_eq_true. split; [|by intros [= <-]].
    intros Hv2. f_equal. eapply bytes_at_unique; [exact Hval|exact Hv2|]. unfold vsize in Es. lia.
  - rewrite bool_decide_false; [done|]. intros [= ->]. done.
Qed.

Lemma by_phandle_tree its ph :
  tree_at m its -> 0 < ph < 2 ^ 32 - 1 ->
  fdt_node_offset_by_phandle m ph
  = Ret (default (- FDT_ERR_NOTFOUND)
      (head (omap (fun it => if phandle_of it =? ph then Some (item_off it) else None) (all_nodes its)))).
Proof.
  intros Ht Hph. unfold fdt_node_offset_by_phandle. change (u32 (- 1)) with (2 ^ 32 - 1).
  destruct (Z.eqb_spec ph 0), (Z.eqb_spec ph (2 ^ 32 - 1)); try lia. simpl orb. cbv iota.
  rewrite (ro_probe_complete m Hc), bind_ret.
  pose proof (total_nonneg m Hc). destruct (Z.ltb_spec (total m) 0); [lia|].
  apply search_tree; [done|]. intros it Hv. by rewrite get_phandle_visited.
Qed.

(** The largest phandle, and a new one. *)
Lemma max_phandle_chain l : forall o p fuel mx,
  chain m o None l p None -> fdt_next_node m p None = Ret (- FDT_ERR_NOTFOUND, None) ->
  Forall (visited_ok m) l -> Forall (fun v => below None v.2) l -> (length l < fuel)%nat ->
  max_phandle_loop fuel m o mx = Ret (inr (foldl (fun mx it => Z.max mx (phandle_of it)) mx (map fst l))).
Proof.
  induction l as [|[it d] l IH]; intros o p fuel mx Hch Hlast Hok Hbel Hf; simpl in Hch, Hf.
  - destruct Hch as [-> _]. destruct fuel as [|fuel]; [lia|]. simpl. by rewrite Hlast.
  - destruct Hch as [Hnx Hch]. destruct fuel as [|fuel]; [lia|]. simpl. rewrite Hnx. simpl.
    apply Forall_cons in Hok as [Hok0 Hok], Hbel as [Hb0 Hbel].
    assert (visited_ok m (it, None)) as Hv by done.
    unfold visited_ok in Hok0. simpl in Hok0. destruct it as [| |off name body]; try done.
    destruct Hok0 as (Hoff & _). simpl item_off in *. destruct (Z.ltb_spec off 0); [lia|].
    rewrite (get_phandle_visited _ Hv : fdt_get_phandle m off = _). simpl.
    simpl in Hb0. destruct d; [done|].
    replace (if mx <? phandle_of (INode off name body) then phandle_of (INode off name body) else mx)
      with (Z.max mx (phandle_of (INode off name body))) by (case_test; lia).
    eapply IH; try done. lia.
Qed.

Lemma max_phandle_tree its :
  tree_at m its ->
  fdt_find_max_phandle m = Ret (inr (foldl (fun mx it => Z.max mx (phandle_of it)) 0 (all_nodes its))).
Proof.
  intros (o & e & Hits & Ht & He).
  destruct (walk_root m (co_blob m Hc) its o e) as (p & Hch & Hlast); try done.
  destruct (visits_ok _ _ _ _ Hits None) as [Hok _]; [done..|].
  pose proof (visits_length m _ _ _ None Hits). pose proof (tok_at_len _ _ _ _ Ht).
  pose proof (fuel_enough m Hc 0).
  eapply max_phandle_chain; try done; [apply visits_all_below|lia].
Qed.

Lemma foldl_max_ge its : forall mx it,
  mx <= foldl (fun mx it => Z.max mx (phandle_of it)) mx its /\
  (In it its -> phandle_of it <= foldl (fun mx it => Z.max mx (phandle_of it)) mx its).
Proof.
  induction its as [|i its IH]; intros mx it; simpl; [split; [lia|done]|].
  destruct (IH (Z.max mx (phandle_of i)) it) as [H1 H2]. split; [lia|]. intros [->|Hin]; [lia|auto].
Qed.
End Search.

(** ** String lists *)

Definition nonzero (s : list Z) : Prop := Forall (fun b => b <> 0) s.

(** The bytes of a list of strings. *)
Definition join (ss : list (list Z)) : list Z := flat_map (fun s => s ++ [0]) ss.

Section Strings.
Context (m : list Z).

Lemma join_cons_at p s ss :
  nonzero s -> bytes_at m p (join (s :: ss)) ->
  cstr_at m p s /\ bytes_at m (p + vsize s + 1) (join ss) /\ vsize (join (s :: ss)) = vsize s + 1 + vsize (join ss).
Proof.
  intros Hs H. unfold join in *. simpl in *. apply bytes_at_app in H as [H1 H2]. rewrite vsize_app in H2 |- *.
  change (vsize [0]) with 1 in *. rewrite vsize_app. change (vsize [0]) with 1.
  split; [done|]. split; [|lia]. by replace (p + vsize s + 1) with (p + (vsize s + 1)) by lia.
Qed.

Lemma join_longer s ss : s ∈ ss -> vsize s < vsize (join ss).
Proof.
  induction ss as [|x ss IH]; [by intros ?%elem_of_nil|]. rewrite elem_of_cons. unfold join. simpl.
  rewrite !vsize_app. change (vsize [0]) with 1. pose proof (vsize_nonneg x).
  pose proof (vsize_nonneg (join ss)). unfold join in *. intros [->|Hin]; [lia|]. specialize (IH Hin). lia.
Qed.

Lemma contains_join s ss : forall p fuel,
  Forall nonzero ss -> nonzero s -> s <> [] -> bytes_at m p (join ss) -> 0 <= p ->
  p + vsize (join ss) + 1 <= vsize m -> (length (join ss) < fuel)%nat ->
  stringlist_contains_loop fuel m p (vsize (join ss)) s = Ret (b2z (bool_decide (s ∈ ss))).
Proof.
  induction ss as [|x ss IH]; intros p fuel Hss Hs Hne Hat Hp Hr Hf; (destruct fuel as [|fuel]; [lia|]).
  - rewrite (bool_decide_false (s ∈ [])) by (by intros ?%elem_of_nil). cbn [stringlist_contains_loop].
    destruct (Z.leb_spec (vsize s) (vsize (join []))) as [Hl|Hl]; [|done].
    unfold vsize in Hl. destruct s; [done|]. simpl in Hl. lia.
  - apply Forall_cons in Hss as [Hx Hss]. destruct (join_cons_at p x ss Hx Hat) as (Hcx & Hat' & Hsz).
    cbn [stringlist_contains_loop]. destruct (Z.leb_spec (vsize s) (vsize (join (x :: ss)))) as [Hl|Hl].
    2: { rewrite bool_decide_false; [done|]. intros Hin%join_longer. lia. }
    destruct (memcmp_spec m p (s ++ [0])) as (r & -> & Hreq).
    { done. } { rewrite vsize_app. change (vsize [0]) with 1. lia. }
    rewrite bind_ret. destruct r.
    + assert (s = x) as ->; [|by rewrite bool_decide_true by (apply elem_of_cons; auto)].
      eapply cstr_unique; [split; [by apply Hreq|done]|done].
    + assert (s <> x) as Hsx by (intros ->; destruct Hcx; intuition congruence).
      pose proof (vsize_nonneg x). pose proof (vsize_nonneg (join ss)).
      rewrite (memchr_cstr m p x) by (done || lia). rewrite bind_ret.
      replace (p + vsize x + 1) with (p + vsize x + 1) by lia.
      replace (vsize (join (x :: ss)) - (vsize x + 1)) with (vsize (join ss)) by lia.
      rewrite IH; try done; try lia.
      * f_equal. f_equal. apply bool_decide_ext. rewrite elem_of_cons. tauto.
      * unfold vsize in Hsz. lia.
Qed.

Lemma strnlen_cstr p s n : cstr_at m p s -> vsize s < n -> strnlen m p n = Ret (vsize s).
Proof. intros Hs Hn. unfold strnlen. rewrite (memchr_cstr m p s) by (done || lia). done. Qed.

Lemma count_join ss : forall p fuel n,
  Forall nonzero ss -> bytes_at m p (join ss) -> (length (join ss) < fuel)%nat ->
  stringlist_count_loop fuel m p (p + vsize (join ss)) n = Ret (n + vsize ss).
Proof.
  induction ss as [|x ss IH]; intros p fuel n Hss Hat Hf; (destruct fuel as [|fuel]; [lia|]).
  - cbn [stringlist_count_loop]. change (vsize (join [])) with 0. change (vsize (@nil (list Z))) with 0.
    destruct (Z.ltb_spec p (p + 0)); [lia|]. by rewrite Z.add_0_r.
  - apply Forall_cons in Hss as [Hx Hss]. destruct (join_cons_at p x ss Hx Hat) as (Hcx & Hat' & Hsz).
    pose proof (vsize_nonneg x). pose proof (vsize_nonneg (join ss)).
    cbn [stringlist_count_loop stringlist_search_loop].
    destruct (Z.ltb_spec p (p + vsize (join (x :: ss)))); [|lia].
    rewrite (strnlen_cstr p x) by (done || lia). rewrite bind_ret.
    destruct (Z.ltb_spec (p + vsize (join (x :: ss))) (p + (vsize x + 1))); [lia|].
    replace (p + (vsize x + 1)) with (p + vsize x + 1) by lia.
    replace (p + vsize (join (x :: ss))) with (p + vsize x + 1 + vsize (join ss)) by lia.
    rewrite IH; [f_equal; rewrite vsize_cons; lia|done..|unfold vsize in Hsz; lia].
Qed.

(** The index of the first occurrence. *)
Fixpoint index_of (s : list Z) (ss : list (list Z)) (n : Z) : Z :=
  match ss with
  | [] => - FDT_ERR_NOTFOUND
  | x :: ss => if bool_decide (x = s) then n else index_of s ss (n + 1)
  end.

Lemma search_join s ss : forall p fuel n,
  Forall nonzero ss -> nonzero s -> bytes_at m p (join ss) -> (length (join ss) < fuel)%nat ->
  stringlist_search_loop fuel m p (p + vsize (join ss)) s n = Ret (index_of s ss n).
Proof.
  induction ss as [|x ss IH]; intros p fuel n Hss Hs Hat Hf; (destruct fuel as [|fuel]; [lia|]).
  - cbn [stringlist_search_loop]. change (vsize (join [])) with 0.
    destruct (Z.ltb_spec p (p + 0)); [lia|done].
  - apply Forall_cons in Hss as [Hx Hss]. destruct (join_cons_at p x ss Hx Hat) as (Hcx & Hat' & Hsz).
    pose proof (vsize_nonneg x). pose proof (vsize_nonneg (join ss)).
    cbn [stringlist_count_loop stringlist_search_loop].
    destruct (Z.ltb_spec p (p + vsize (join (x :: ss)))); [|lia].
    rewrite (strnlen_cstr p x) by (done || lia). rewrite bind_ret.
    destruct (Z.ltb_spec (p + vsize (join (x :: ss))) (p + (vsize x + 1))); [lia|].
    assert ((if vsize x + 1 =? vsize s + 1 then memcmp_eq m p (s ++ [0]) else Ret false)
      = Ret (bool_decide (x = s))) as ->.
    { destruct (Z.eqb_spec (vsize x + 1) (vsize s + 1)) as [El|El].
      - pose proof Hcx as [Hb _]. pose proof (bytes_at_range _ _ _ Hb ltac:(by destruct x)) as Hrg.
        rewrite vsize_app in Hrg. change (vsize [0]) with 1 in Hrg.
        destruct (memcmp_spec m p (s ++ [0])) as (r & -> & Hreq); [lia|rewrite vsize_app; change (vsize [0]) with 1; lia|].
        f_equal. apply eq_true_iff_eq. rewrite Hreq, bool_decide_eq_true. split; [|by intros <-].
        intros Hb'. eapply cstr_unique; [done|by split].
      - rewrite bool_decide_false; [done|]. intros ->. done. }
    rewrite bind_ret. cbn [index_of]. destruct (bool_decide (x = s)); [done|].
    replace (p + (vsize x + 1)) with (p + vsize x + 1) by lia.
    replace (p + vsize (join (x :: ss))) with (p + vsize x + 1 + vsize (join ss)) by lia.
    apply IH; [done..|unfold vsize in Hsz; lia].
Qed.
End Strings.
