(* ===== verification/FdtWrite.v ===== *)
(** * libfdt: sequential writing and in-place modification

    Models [fdt_sw.c] (the sequential-write state machine: create, reserve map,
    nodes and properties, finish) and [fdt_wip.c] (changes that keep the size of
    the blob).  An operation returns its [int] result and the new blob. *)

From stdpp Require Import base option list strings.
From S2P Require Import Prelude.
From S2P Require Import BranchHash.
From S2P Require Import FdtBase.
From S2P Require Import FdtTags.
From S2P Require Import FdtRead.

Definition FDT_CREATE_FLAG_NO_NAME_DEDUP : Z := 0x1.
Definition FDT_CREATE_FLAGS_ALL : Z := FDT_CREATE_FLAG_NO_NAME_DEDUP.

(** ** State probes *)

Definition fdt_sw_probe_ (m : list Z) : outcome Z :=
  magic ← fdt_magic m;
  if magic =? FDT_MAGIC then Ret (- FDT_ERR_BADSTATE)
  else if negb (magic =? FDT_SW_MAGIC) then Ret (- FDT_ERR_BADMAGIC)
  else Ret 0.

Definition fdt_sw_probe_memrsv_ (m : list Z) : outcome Z :=
  err ← fdt_sw_probe_ m;
  if negb (err =? 0) then Ret err else
  off_dt_strings ← fdt_off_dt_strings m;
  if negb (off_dt_strings =? 0) then Ret (- FDT_ERR_BADSTATE) else Ret 0.

Definition fdt_sw_probe_struct_ (m : list Z) : outcome Z :=
  err ← fdt_sw_probe_ m;
  if negb (err =? 0) then Ret err else
  off_dt_strings ← fdt_off_dt_strings m;
  totalsize ← fdt_totalsize m;
  if negb (off_dt_strings =? totalsize) then Ret (- FDT_ERR_BADSTATE) else Ret 0.

Definition sw_flags (m : list Z) : outcome Z := fdt_last_comp_version m.

(** The guard of an operation: its error, or the rest of the operation. *)
Definition guarded (probe : outcome Z) (m : list Z) (k : outcome (Z * list Z)) : outcome (Z * list Z) :=
  err ← probe; if negb (err =? 0) then Ret (err, m) else k.

(** ** Creation and the reserve map *)

Definition fdt_grab_space_ (m : list Z) (len : Z) : outcome (option Z * list Z) :=
  size_dt_struct ← fdt_size_dt_struct m;
  let offset := s32 size_dt_struct in
  totalsize ← fdt_totalsize m;
  off_dt_struct ← fdt_off_dt_struct m;
  size_dt_strings ← fdt_size_dt_strings m;
  let spaceleft := s32 (totalsize - off_dt_struct - size_dt_strings) in
  if (u64 (offset + len) <? u64 offset) || (u64 spaceleft <? u64 (offset + len))
  then Ret (None, m) else
  m ← fdt_set_size_dt_struct m (u32 (offset + len));
  p ← fdt_offset_ptr_ m offset;
  Ret (Some p, m).

Definition fdt_create_with_flags (buf : list Z) (bufsize flags : Z) : outcome (Z * list Z) :=
  let hdrsize := FDT_ALIGN sizeof_fdt_header sizeof_fdt_reserve_entry in
  if u64 bufsize <? hdrsize then Ret (- FDT_ERR_NOSPACE, buf) else
  if nz (flags .& u32 (Z.lnot FDT_CREATE_FLAGS_ALL)) then Ret (- FDT_ERR_BADFLAGS, buf) else
  m ← memset buf 0 0 (u64 bufsize);
  m ← fdt_set_magic m FDT_SW_MAGIC;
  m ← fdt_set_version m FDT_LAST_SUPPORTED_VERSION;
  m ← fdt_set_last_comp_version m flags;
  m ← fdt_set_totalsize m (u32 bufsize);
  m ← fdt_set_off_mem_rsvmap m (u32 hdrsize);
  off_mem_rsvmap ← fdt_off_mem_rsvmap m;
  m ← fdt_set_off_dt_struct m off_mem_rsvmap;
  m ← fdt_set_off_dt_strings m 0;
  Ret (0, m).

Definition fdt_create (buf : list Z) (bufsize : Z) : outcome (Z * list Z) :=
  fdt_create_with_flags buf bufsize 0.

(** [fdt_resize] into a buffer of its own: the new contents of [buf]. *)
Definition fdt_resize (m buf : list Z) (bufsize : Z) : outcome (Z * list Z) :=
  guarded (fdt_sw_probe_ m) buf (
  off_dt_struct ← fdt_off_dt_struct m;
  size_dt_struct ← fdt_size_dt_struct m;
  let headsize := u32 (off_dt_struct + size_dt_struct) in
  tailsize ← fdt_size_dt_strings m;
  totalsize ← fdt_totalsize m;
  if totalsize <? headsize + tailsize then Ret (- FDT_ERR_INTERNAL, buf) else
  if u64 bufsize <? headsize + tailsize then Ret (- FDT_ERR_NOSPACE, buf) else
  head ← read m 0 (Z.to_nat headsize);
  tail ← read m (totalsize - tailsize) (Z.to_nat tailsize);
  buf ← write buf 0 head;
  buf ← write buf (bufsize - tailsize) tail;
  buf ← fdt_set_totalsize buf (u32 bufsize);
  off_dt_strings ← fdt_off_dt_strings buf;
  if nz off_dt_strings then buf ← fdt_set_off_dt_strings buf (u32 bufsize); Ret (0, buf)
  else Ret (0, buf)).

Definition fdt_add_reservemap_entry (m : list Z) (addr size : Z) : outcome (Z * list Z) :=
  guarded (fdt_sw_probe_memrsv_ m) m (
  off_dt_struct ← fdt_off_dt_struct m;
  let offset := s32 off_dt_struct in
  totalsize ← fdt_totalsize m;
  if totalsize <? u64 (offset + sizeof_fdt_reserve_entry) then Ret (- FDT_ERR_NOSPACE, m) else
  m ← store64 m offset (cpu_to_fdt64 addr);
  m ← store64 m (offset + 8) (cpu_to_fdt64 size);
  m ← fdt_set_off_dt_struct m (u32 (offset + sizeof_fdt_reserve_entry));
  Ret (0, m)).

Definition fdt_finish_reservemap (m : list Z) : outcome (Z * list Z) :=
  r ← fdt_add_reservemap_entry m 0 0;
  let '(err, m) := r in
  if negb (err =? 0) then Ret (err, m) else
  totalsize ← fdt_totalsize m;
  m ← fdt_set_off_dt_strings m totalsize;
  Ret (0, m).

(** ** The structure block *)

Definition fdt_begin_node (m : list Z) (name : list Z) : outcome (Z * list Z) :=
  guarded (fdt_sw_probe_struct_ m) m (
  namelen ← int_chk (vsize name + 1);
  r ← fdt_grab_space_ m (4 + FDT_TAGALIGN namelen);
  let '(nh, m) := r in
  match nh with
  | None => Ret (- FDT_ERR_NOSPACE, m)
  | Some nh =>
      m ← store32 m nh (cpu_to_fdt32 FDT_BEGIN_NODE);
      m ← write m (nh + 4) (name ++ [0]);
      Ret (0, m)
  end).

Definition fdt_end_node (m : list Z) : outcome (Z * list Z) :=
  guarded (fdt_sw_probe_struct_ m) m (
  r ← fdt_grab_space_ m FDT_TAGSIZE;
  let '(en, m) := r in
  match en with
  | None => Ret (- FDT_ERR_NOSPACE, m)
  | Some en => m ← store32 m en (cpu_to_fdt32 FDT_END_NODE); Ret (0, m)
  end).

Definition fdt_add_string_ (m : list Z) (s : list Z) : outcome (Z * list Z) :=
  totalsize ← fdt_totalsize m;
  size_dt_strings ← fdt_size_dt_strings m;
  let strtab := totalsize in
  let strtabsize := s32 size_dt_strings in
  len ← int_chk (vsize s + 1);
  offset ← int_chk (- strtabsize - len);
  off_dt_struct ← fdt_off_dt_struct m;
  size_dt_struct ← fdt_size_dt_struct m;
  let struct_top := s32 (off_dt_struct + size_dt_struct) in
  if u32 (totalsize + offset) <? u32 struct_top then Ret (0, m) else
  m ← write m (strtab + offset) (s ++ [0]);
  size ← int_chk (strtabsize + len);
  m ← fdt_set_size_dt_strings m (u32 size);
  Ret (offset, m).

Definition fdt_del_last_string_ (m : list Z) (s : list Z) : outcome (list Z) :=
  size_dt_strings ← fdt_size_dt_strings m;
  let strtabsize := s32 size_dt_strings in
  len ← int_chk (vsize s + 1);
  size ← int_chk (strtabsize - len);
  fdt_set_size_dt_strings m (u32 size).

(** The string offset, [*allocated] and the blob. *)
Definition fdt_find_add_string_ (m : list Z) (s : list Z) : outcome (Z * bool * list Z) :=
  totalsize ← fdt_totalsize m;
  size_dt_strings ← fdt_size_dt_strings m;
  let strtab := totalsize in
  let strtabsize := s32 size_dt_strings in
  p ← fdt_find_string_ m (strtab - strtabsize) strtabsize s;
  match p with
  | Some p => Ret (s32 (p - strtab), false, m)
  | None => r ← fdt_add_string_ m s; Ret (r.1, true, r.2)
  end.

(** The error, [*valp] and the blob. *)
Definition fdt_property_placeholder (m : list Z) (name : list Z) (len : Z)
  : outcome (Z * option Z * list Z) :=
  err ← fdt_sw_probe_struct_ m;
  if negb (err =? 0) then Ret (err, None, m) else
  flags ← sw_flags m;
  r ← (if nz (flags .& FDT_CREATE_FLAG_NO_NAME_DEDUP)
       then r ← fdt_add_string_ m name; Ret (r.1, true, r.2)
       else fdt_find_add_string_ m name);
  let '(nameoff, allocated, m) := r in
  if nameoff =? 0 then Ret (- FDT_ERR_NOSPACE, None, m) else
  r ← fdt_grab_space_ m (u64 (sizeof_fdt_property + FDT_TAGALIGN len));
  let '(prop, m) := r in
  match prop with
  | None =>
      if (allocated : bool) then m ← fdt_del_last_string_ m name; Ret (- FDT_ERR_NOSPACE, None, m)
      else Ret (- FDT_ERR_NOSPACE, None, m)
  | Some prop =>
      m ← store32 m prop (cpu_to_fdt32 FDT_PROP);
      m ← store32 m (prop + 8) (cpu_to_fdt32 (u32 nameoff));
      m ← store32 m (prop + 4) (cpu_to_fdt32 (u32 len));
      Ret (0, Some (prop + 12), m)
  end.

Definition fdt_property (m : list Z) (name val : list Z) : outcome (Z * list Z) :=
  len ← int_chk (vsize val);
  r ← fdt_property_placeholder m name len;
  match r with
  | (ret, Some ptr, m) =>
      if negb (ret =? 0) then Ret (ret, m) else m ← write m ptr val; Ret (0, m)
  | (ret, None, m) => Ret (ret, m)
  end.

(** The walk of [fdt_finish] that turns the string offsets, which count back
    from the end of the buffer, into offsets from the start of the table. *)
Fixpoint finish_loop (fuel : nat) (m : list Z) (offset : Z) : outcome (Z * list Z) :=
  match fuel with
  | O => Fuel
  | S fuel =>
      r ← fdt_next_tag m offset;
      let '(tag, nextoffset) := r in
      if tag =? FDT_END then Ret (nextoffset, m)
      else if tag =? FDT_PROP then
        prop ← fdt_offset_ptr_ m offset;
        nameoff ← ld_fdt32 m (prop + 8);
        size_dt_strings ← fdt_size_dt_strings m;
        let nameoff := s32 (s32 nameoff + size_dt_strings) in
        m ← store32 m (prop + 8) (cpu_to_fdt32 (u32 nameoff));
        finish_loop fuel m nextoffset
      else finish_loop fuel m nextoffset
  end.

Definition fdt_finish (m : list Z) : outcome (Z * list Z) :=
  guarded (fdt_sw_probe_struct_ m) m (
  r ← fdt_grab_space_ m 4;
  let '(end_, m) := r in
  match end_ with
  | None => Ret (- FDT_ERR_NOSPACE, m)
  | Some end_ =>
      m ← store32 m end_ (cpu_to_fdt32 FDT_END);
      totalsize ← fdt_totalsize m;
      size_dt_strings ← fdt_size_dt_strings m;
      off_dt_struct ← fdt_off_dt_struct m;
      size_dt_struct ← fdt_size_dt_struct m;
      let oldstroffset := s32 (totalsize - size_dt_strings) in
      let newstroffset := s32 (off_dt_struct + size_dt_struct) in
      m ← memmove m newstroffset oldstroffset size_dt_strings;
      m ← fdt_set_off_dt_strings m (u32 newstroffset);
      r ← finish_loop (S (length m)) m 0;
      let '(nextoffset, m) := r in
      if nextoffset <? 0 then Ret (nextoffset, m) else
      size_dt_strings ← fdt_size_dt_strings m;
      m ← fdt_set_totalsize m (u32 (newstroffset + size_dt_strings));
      m ← fdt_set_last_comp_version m FDT_FIRST_SUPPORTED_VERSION;
      m ← fdt_set_magic m FDT_MAGIC;
      Ret (0, m)
  end).

(** ** In-place modification ([fdt_wip.c]) *)

Definition fdt_setprop_inplace_namelen_partial (m : list Z) (nodeoffset : Z) (name : list Z)
    (idx : Z) (val : list Z) : outcome (Z * list Z) :=
  r ← fdt_getprop_namelen m nodeoffset name;
  match r with
  | (None, proplen) => Ret (proplen, m)
  | (Some propval, proplen) =>
      if u32 proplen <? u32 (vsize val + idx) then Ret (- FDT_ERR_NOSPACE, m)
      else m ← write m (propval + idx) val; Ret (0, m)
  end.

Definition fdt_setprop_inplace (m : list Z) (nodeoffset : Z) (name val : list Z) : outcome (Z * list Z) :=
  r ← fdt_getprop m nodeoffset name;
  match r with
  | (None, proplen) => Ret (proplen, m)
  | (Some _, proplen) =>
      if negb (proplen =? vsize val) then Ret (- FDT_ERR_NOSPACE, m)
      else fdt_setprop_inplace_namelen_partial m nodeoffset name 0 val
  end.

(** [n] words from [p] on become NOPs. *)
Fixpoint nop_region_loop (n : nat) (m : list Z) (p : Z) : outcome (list Z) :=
  match n with
  | O => Ret m
  | S n => m ← store32 m p (cpu_to_fdt32 FDT_NOP); nop_region_loop n m (p + 4)
  end.

Definition fdt_nop_region_ (m : list Z) (start len : Z) : outcome (list Z) :=
  nop_region_loop (Z.to_nat ((len + 3) / 4)) m start.

Definition fdt_nop_property (m : list Z) (nodeoffset : Z) (name : list Z) : outcome (Z * list Z) :=
  r ← fdt_get_property m nodeoffset name;
  match r with
  | (None, len) => Ret (len, m)
  | (Some prop, len) => m ← fdt_nop_region_ m prop (len + sizeof_fdt_property); Ret (0, m)
  end.

Fixpoint node_end_loop (fuel : nat) (m : list Z) (offset depth : Z) : outcome Z :=
  match fuel with
  | O => Fuel
  | S fuel =>
      if (0 <=? offset) && (0 <=? depth) then
        r ← fdt_next_node m offset (Some depth); node_end_loop fuel m r.1 (default 0 r.2)
      else Ret offset
  end.

Definition fdt_node_end_offset_ (m : list Z) (offset : Z) : outcome Z :=
  node_end_loop (S (S (length m))) m offset 0.

Definition fdt_nop_node (m : list Z) (nodeoffset : Z) : outcome (Z * list Z) :=
  endoffset ← fdt_node_end_offset_ m nodeoffset;
  if endoffset <? 0 then Ret (endoffset, m) else
  p ← fdt_offset_ptr m nodeoffset 0;
  match p with
  | None => Undef
  | Some p => m ← fdt_nop_region_ m p (endoffset - nodeoffset); Ret (0, m)
  end.
