(* ===== verification/FdtWriteFacts.v ===== *)
(** * libfdt: the sequential-write state machine

    [sw_inv] is the invariant of a blob under construction: the header fields
    that keep the intermediate state, the tokens written so far and the string
    table that grows down from the end of the buffer.  Every operation either
    appends its token or reports an error and keeps the tokens; [fdt_finish]
    turns the invariant into a complete blob that holds the tree. *)

From stdpp Require Import base option list strings.
From S2P Require Import Prelude.
From S2P Require Import BranchHash.
From S2P Require Import FdtBase.
From S2P Require Import FdtTags.
From S2P Require Import FdtTree.
From S2P Require Import FdtRead.
From S2P Require Import FdtReadFacts.
From S2P Require Import FdtCheck.
From S2P Require Import FdtWrite.

(** ** Bytes that stay *)

Lemma cstr_agree m m' p s :
  (forall i, p <= i < p + vsize s + 1 -> vget m' i = vget m i) -> cstr_at m p s -> cstr_at m' p s.
Proof.
  intros Ha [H Hs]. split; [|done]. eapply bytes_at_agree; [|exact H].
  rewrite vsize_app. change (vsize [0]) with 1. intros i Hi. apply Ha. lia.
Qed.

Lemma tok_agree m m' o t e :
  sbase m' = sbase m -> ver m' = ver m ->
  (forall i, sbase m + o <= i < sbase m + e -> vget m' i = vget m i) ->
  tok_at m o t e -> tok_at m' o t e.
Proof.
  intros Hs Hv Ha Ht. pose proof (tok_at_len _ _ _ _ Ht) as Hlen. destruct Ht as [Htag H].
  unfold tok_at. rewrite Hs, Hv. split.
  - rewrite <- Htag. apply word_agree. intros i Hi. apply Ha. lia.
  - destruct t as [name| |no val| |]; try done.
    + destruct H as [Hc ->]. split; [|done]. eapply cstr_agree; [|exact Hc]. intros i Hi. apply Ha. lia.
    + destruct H as (Hl & Hn & Hval & ->). pose proof (vsize_nonneg val).
      assert (o + 12 <= prop_data (ver m) o (vsize val)) by (unfold prop_data; destruct (_ && _); lia).
      split_and!; [| | |done].
      * rewrite <- Hl. apply word_agree. intros i Hi. apply Ha. lia.
      * rewrite <- Hn. apply word_agree. intros i Hi. apply Ha. lia.
      * eapply bytes_at_agree; [|exact Hval]. intros i Hi. apply Ha. lia.
Qed.

(** ** What has been written *)

Inductive wtok : Type :=
| WBegin (name : list Z)
| WEnd
| WProp (name val : list Z).

(** The name a negative string offset [no] refers to, in a table of [N] bytes
    that ends at [T]. *)
Definition name_at (m : list Z) (T N no : Z) (name : list Z) : Prop :=
  T - N <= T + s32 no /\ T + s32 no + vsize name + 1 <= T /\ cstr_at m (T + s32 no) name.

(** Written tokens in the structure block; [R] says which string offsets stand
    for a name. *)
Definition wtok_at (R : Z -> list Z -> Prop) (m : list Z) (o : Z) (w : wtok) (e : Z) : Prop :=
  match w with
  | WBegin name => tok_at m o (TBegin name) e
  | WEnd => tok_at m o TEndNode e
  | WProp name val => exists no, tok_at m o (TProp no val) e /\ R no name
  end.

Fixpoint wtoks_at (R : Z -> list Z -> Prop) (m : list Z) (o : Z) (ws : list wtok) (o' : Z) : Prop :=
  match ws with
  | [] => o = o'
  | w :: ws => exists e, wtok_at R m o w e /\ wtoks_at R m (align4 e) ws o'
  end.

Lemma wtok_len R m o w e : wtok_at R m o w e -> o + 4 <= e.
Proof.
  destruct w; simpl; [apply tok_at_len|apply tok_at_len|]. intros (no & H & _). by eapply tok_at_len.
Qed.

Lemma wtoks_mono R m ws : forall o o', wtoks_at R m o ws o' -> o <= o'.
Proof.
  induction ws as [|w ws IH]; intros o o'; simpl; [lia|]. intros (e & Hw & H).
  apply IH in H. apply wtok_len in Hw. pose proof (align4_spec e). lia.
Qed.

Lemma wtoks_snoc R m ws w : forall o o1 e,
  wtoks_at R m o ws o1 -> wtok_at R m o1 w e -> wtoks_at R m o (ws ++ [w]) (align4 e).
Proof.
  induction ws as [|w' ws IH]; intros o o1 e; simpl.
  - intros -> H. exists e. done.
  - intros (e' & Hw & H) He. eauto.
Qed.

(** Tokens depend on the structure block up to their end. *)
Lemma wtok_agree (R R' : Z -> list Z -> Prop) m m' o w e :
  sbase m' = sbase m -> ver m' = ver m -> (forall no name, R no name -> R' no name) ->
  (forall i, sbase m + o <= i < sbase m + e -> vget m' i = vget m i) ->
  wtok_at R m o w e -> wtok_at R' m' o w e.
Proof.
  intros Hs Hv HR Hsame. destruct w as [name| |name val]; simpl; [by apply tok_agree..|].
  intros (no & Ht & Hn). exists no. split; [by eapply tok_agree|auto].
Qed.

Lemma wtoks_agree (R R' : Z -> list Z -> Prop) m m' ws : forall o o',
  sbase m' = sbase m -> ver m' = ver m -> (forall no name, R no name -> R' no name) ->
  (forall i, sbase m + o <= i < sbase m + o' -> vget m' i = vget m i) ->
  wtoks_at R m o ws o' -> wtoks_at R' m' o ws o'.
Proof.
  induction ws as [|w ws IH]; intros o o' Hs Hv HR Hsame; simpl; [done|]. intros (e & Hw & H).
  pose proof (wtok_len _ _ _ _ _ Hw). pose proof (wtoks_mono _ _ _ _ _ H).
  pose proof (align4_spec e) as [? _]. exists e. split.
  - eapply (wtok_agree R R' m m'); try done. intros i Hi. apply Hsame. lia.
  - apply IH; try done. intros i Hi. apply Hsame. lia.
Qed.

Lemma name_at_agree m m' T N N' no name :
  (forall i, T - N <= i < T -> vget m' i = vget m i) -> N <= N' ->
  name_at m T N no name -> name_at m' T N' no name.
Proof.
  intros Hsame HN (Hn1 & Hn2 & Hn3). split_and!; [lia|done|].
  eapply cstr_agree; [|exact Hn3]. intros i Hi. apply Hsame. lia.
Qed.

(** ** The header of a blob under construction *)

Record sw_state (m : list Z) (T B S N : Z) : Prop := {
  sw_bytes : bytes_ok m;
  sw_total : word m 4 = T;
  sw_size : T <= vsize m /\ T < INT32_MAX /\ 48 <= vsize m;
  sw_magic : word m 0 = FDT_SW_MAGIC;
  sw_base : sbase m = B;
  sw_rsv : word m 16 = 48;
  sw_ver : ver m = 17;
  sw_struct : word m 36 = S;
  sw_strings : word m 32 = N;
  sw_layout : 48 <= B /\ 0 <= S /\ 0 <= N /\ B + S + N <= T
}.

Ltac sw_fields H :=
  destruct H as [Hbytes Htotal Hsize Hmagic Hbase Hrsv Hver Hstruct Hstrings Hlayout];
  unfold INT32_MAX in *.

(** Lengths and words of an updated blob. *)
Ltac upd_simpl :=
  repeat first
    [ rewrite vsize_upd by (rewrite ?vsize_upd; change (vsize (be32 _)) with 4; rewrite ?vsize_app; lia)
    | rewrite word_upd_eq by (rewrite ?vsize_upd; change (vsize (be32 _)) with 4; lia)
    | rewrite word_upd_ne by (rewrite ?vsize_upd; change (vsize (be32 _)) with 4; rewrite ?vsize_app; lia) ].

Lemma grab_space_ok m T B S N len :
  sw_state m T B S N -> 0 <= len < 2 ^ 32 ->
  fdt_grab_space_ m len
  = Ret (if decide (B + S + N + len <= T) then (Some (B + S), upd m 36 (be32 (S + len))) else (None, m)).
Proof.
  intros H Hlen. sw_fields H. unfold fdt_grab_space_, fdt_set_size_dt_struct, fdt_offset_ptr_. hdr. simpl.
  rewrite Hstruct, Htotal, Hbase, Hstrings.
  rewrite (swrap_small 32 S), (swrap_small 32 (T - B - N)) by lia.
  rewrite (uwrap_small 64 (S + len)), (uwrap_small 64 S), (uwrap_small 64 (T - B - N)) by lia.
  destruct (Z.ltb_spec (S + len) S); [lia|]. simpl.
  destruct (Z.ltb_spec (T - B - N) (S + len)).
  - by rewrite decide_False by lia.
  - rewrite decide_True by lia. rewrite (uwrap_small 32 (S + len)) by lia.
    rewrite set_hdr_ok by lia. rewrite bind_ret.
    rewrite fdt32_ld_ok; [|apply bytes_ok_upd; [done|apply be32_ok]|lia|rewrite vsize_upd; change (vsize (be32 (S + len))) with 4; lia].
    rewrite bind_ret. rewrite word_upd_ne by (change (vsize (be32 (S + len))) with 4; lia). by rewrite Hbase.
Qed.

(** ** The invariant *)

Definition enc_rsv (rs : list (Z * Z)) : list Z := flat_map (fun e => be64 e.1 ++ be64 e.2) rs.

(** The blob as its builder sees it: the size of the buffer, the creation
    flags, the reservations (terminator included once the map is finished) and
    the tokens. *)
Record sw : Type := {
  a_size : Z;
  a_flags : Z;
  a_rsv : list (Z * Z);
  a_toks : list wtok
}.

Definition add_tok (a : sw) (w : wtok) : sw :=
  {| a_size := a_size a; a_flags := a_flags a; a_rsv := a_rsv a; a_toks := a_toks a ++ [w] |}.

(** The start of the structure block. *)
Definition a_base (a : sw) : Z := 48 + vsize (enc_rsv (a_rsv a)).

(** The invariant of the 'struct' state, with the sizes of the two growing
    blocks. *)
Record sw_inv_at (m : list Z) (a : sw) (S N : Z) : Prop := {
  si_state : sw_state m (a_size a) (a_base a) S N;
  si_strings : strbase m = a_size a;
  si_flags : word m 24 = a_flags a;
  si_rsv : bytes_at m 48 (enc_rsv (a_rsv a));
  si_aligned : S mod 4 = 0;
  si_toks : wtoks_at (name_at m (a_size a) N) m 0 (a_toks a) S
}.

Definition sw_inv (m : list Z) (a : sw) : Prop := exists S N, sw_inv_at m a S N.

(** An operation that writes above the structure block and below the string
    table keeps the invariant. *)
Lemma sw_frame m m' a S N S' N' :
  sw_inv_at m a S N -> bytes_ok m' -> vsize m' = vsize m ->
  (forall i, 0 <= i < 32 \/ 48 <= i < a_base a + S \/ a_size a - N <= i < a_size a -> vget m' i = vget m i) ->
  word m' 36 = S' -> word m' 32 = N' -> S <= S' -> N <= N' -> a_base a + S' + N' <= a_size a ->
  sw_state m' (a_size a) (a_base a) S' N' /\ strbase m' = a_size a /\ word m' 24 = a_flags a /\
  bytes_at m' 48 (enc_rsv (a_rsv a)) /\ wtoks_at (name_at m' (a_size a) N') m' 0 (a_toks a) S.
Proof.
  intros [Hst Hsb Hfl Hrs Hal Htk] Hb' Hv' Hsame HS' HN' HS HN Hroom. sw_fields Hst.
  assert (forall p, 0 <= p -> p + 4 <= 32 -> word m' p = word m p) as Hw.
  { intros p Hp1 Hp2. apply word_agree. intros i Hi. apply Hsame. lia. }
  split_and!; try (rewrite Hw by lia; done).
  - split; rewrite ?Hw by lia; unfold INT32_MAX; done || lia.
  - eapply bytes_at_agree; [|exact Hrs]. intros i Hi. apply Hsame. unfold a_base. lia.
  - eapply (wtoks_agree (name_at m (a_size a) N) _ m m'); [apply Hw; lia..| | |done].
    + intros no name. apply name_at_agree; [|done]. intros i Hi. apply Hsame. lia.
    + intros i Hi. apply Hsame. lia.
Qed.

Lemma sw_append m m' a S N S' N' w e :
  sw_inv_at m a S N -> bytes_ok m' -> vsize m' = vsize m ->
  (forall i, 0 <= i < 32 \/ 48 <= i < a_base a + S \/ a_size a - N <= i < a_size a -> vget m' i = vget m i) ->
  word m' 36 = S' -> word m' 32 = N' -> N <= N' -> a_base a + S' + N' <= a_size a ->
  wtok_at (name_at m' (a_size a) N') m' S w e -> S' = align4 e ->
  sw_inv_at m' (add_tok a w) S' N'.
Proof.
  intros Hinv Hb' Hv' Hsame HS' HN' HN Hroom Hw He.
  pose proof (wtok_len _ _ _ _ _ Hw). pose proof (align4_spec e) as [? Hal].
  destruct (sw_frame m m' a S N S' N') as (H1 & H2 & H3 & H4 & H5); try done; try lia.
  split; try done; [by rewrite He|]. simpl. rewrite He. by eapply wtoks_snoc.
Qed.

Lemma probe_struct_ok m a S N : sw_inv_at m a S N -> fdt_sw_probe_struct_ m = Ret 0.
Proof.
  intros [Hst Hsb Hfl Hrs Hal Htk]. sw_fields Hst. unfold fdt_sw_probe_struct_, fdt_sw_probe_. hdr. simpl.
  rewrite Hmagic. simpl. hdr. simpl. rewrite Hsb, Htotal, Z.eqb_refl. done.
Qed.

(** ** Nodes *)

Definition valid_str (s : list Z) : Prop := Forall (fun b => 0 < b < 256) s.

Lemma valid_str_bytes s : valid_str s -> bytes_ok (s ++ [0]).
Proof.
  intros H. apply Forall_app. split; [|repeat constructor; unfold is_byte; lia].
  eapply Forall_impl; [exact H|]. unfold is_byte. simpl. lia.
Qed.

Lemma valid_str_nonzero s : valid_str s -> Forall (fun b => b <> 0) s.
Proof. intros H. eapply Forall_impl; [exact H|]. simpl. lia. Qed.

Lemma bytes_ok_be32_upd m p v : bytes_ok m -> bytes_ok (upd m p (be32 v)).
Proof. intros. apply bytes_ok_upd; [done|apply be32_ok]. Qed.

Lemma vsize_be32 v : vsize (be32 v) = 4.
Proof. done. Qed.

Lemma vget_upd_other m p bs i :
  0 <= p -> p + vsize bs <= vsize m -> ~ (p <= i < p + vsize bs) -> vget (upd m p bs) i = vget m i.
Proof. intros. rewrite vget_upd by done. by rewrite decide_False. Qed.

Lemma bytes_at_upd_other m p bs q cs :
  0 <= p -> p + vsize bs <= vsize m -> q + vsize cs <= p \/ p + vsize bs <= q ->
  bytes_at m q cs -> bytes_at (upd m p bs) q cs.
Proof. intros Hp Hs Hd. apply bytes_at_agree. intros i Hi. apply vget_upd_other; lia. Qed.

(** [fdt_begin_node] *)
Lemma begin_node_ok m a S N name :
  sw_inv_at m a S N -> valid_str name -> vsize name < 2 ^ 30 ->
  exists err m', fdt_begin_node m name = Ret (err, m') /\
    if decide (a_base a + S + N + (4 + align4 (vsize name + 1)) <= a_size a)
    then err = 0 /\ sw_inv_at m' (add_tok a (WBegin name)) (S + (4 + align4 (vsize name + 1))) N
    else err = - FDT_ERR_NOSPACE /\ m' = m.
Proof.
  intros Hinv Hname Hlen. unfold fdt_begin_node, guarded. rewrite (probe_struct_ok _ _ _ _ Hinv), bind_ret.
  pose proof Hinv as [Hst Hsb Hfl Hrs Hal Htk]. pose proof (vsize_nonneg name).
  rewrite int_chk_ok by lia. simpl negb. cbv iota. rewrite bind_ret.
  rewrite FDT_TAGALIGN_ok by lia. pose proof (align4_spec (vsize name + 1)) as [Hal1 Hal2].
  rewrite (grab_space_ok _ _ _ _ _ _ Hst) by lia. rewrite bind_ret. sw_fields Hst.
  case_decide as Hroom; [|by eexists _, _].
  rewrite set_hdr_ok by (rewrite ?vsize_upd; rewrite ?vsize_be32; lia). rewrite bind_ret.
  rewrite write_ok by (rewrite ?vsize_upd, ?vsize_app; change (vsize [0]) with 1; rewrite ?vsize_be32; rewrite ?vsize_upd; rewrite ?vsize_be32; lia).
  rewrite bind_ret. eexists _, _. split; [done|]. split; [done|].
  set (m1 := upd m 36 _). set (m2 := upd m1 _ _). set (m3 := upd m2 _ _).
  assert (vsize m1 = vsize m) as Hv1 by (apply vsize_upd; rewrite ?vsize_be32; lia).
  assert (vsize m2 = vsize m) as Hv2 by (unfold m2; rewrite vsize_upd; rewrite ?vsize_be32; lia).
  assert (vsize (name ++ [0]) = vsize name + 1) as Hvn by (rewrite vsize_app; done).
  assert (vsize m3 = vsize m) as Hv3 by (unfold m3; rewrite vsize_upd; lia).
  eapply (sw_append m m3 a S N _ N _ (S + 4 + vsize name + 1)); try done.
  - apply bytes_ok_upd; [by do 2 apply bytes_ok_be32_upd|by apply valid_str_bytes].
  - intros i Hi. unfold m3. rewrite vget_upd_other by lia. unfold m2.
    rewrite vget_upd_other by (rewrite ?vsize_be32; lia). unfold m1.
    by rewrite vget_upd_other by (rewrite ?vsize_be32; lia).
  - unfold m3. rewrite word_upd_ne by lia. unfold m2. rewrite word_upd_ne by (rewrite ?vsize_be32; lia).
    unfold m1. rewrite word_upd_eq by lia. apply uwrap_small. lia.
  - unfold m3. rewrite word_upd_ne by lia. unfold m2. rewrite word_upd_ne by (rewrite ?vsize_be32; lia).
    unfold m1. rewrite word_upd_ne by (rewrite ?vsize_be32; lia). done.
  - lia.
  - assert (sbase m3 = a_base a) as Hsb3.
    { unfold m3. rewrite word_upd_ne by lia. unfold m2. rewrite word_upd_ne by (rewrite ?vsize_be32; lia).
      unfold m1. rewrite word_upd_ne by (rewrite ?vsize_be32; lia). done. }
    split.
    + rewrite Hsb3. unfold m3. rewrite word_upd_ne by lia. unfold m2. rewrite word_upd_eq by lia. done.
    + rewrite Hsb3. split; [|done]. split; [|by apply valid_str_nonzero]. apply bytes_at_upd; lia.
  - replace (S + 4 + vsize name + 1) with (S + 4 + (vsize name + 1)) by lia. rewrite (align4_shift (S + 4) (vsize name + 1)); [lia|].
    Z.div_mod_to_equations; lia.
Qed.

(** A copy, by what it writes and what it keeps. *)
Record wrote (m : list Z) (p : Z) (bs m' : list Z) : Prop := {
  wr_size : vsize m' = vsize m;
  wr_bytes : bytes_ok m -> bytes_ok bs -> bytes_ok m';
  wr_at : bytes_at m' p bs;
  wr_same : forall i, ~ (p <= i < p + vsize bs) -> vget m' i = vget m i
}.

Lemma write_wrote m p bs :
  0 <= p -> p + vsize bs <= vsize m -> exists m', write m p bs = Ret m' /\ wrote m p bs m'.
Proof.
  intros Hp Hs. exists (upd m p bs). split; [by apply write_ok|].
  split; [by apply vsize_upd|apply bytes_ok_upd|by apply bytes_at_upd|]. intros. by apply vget_upd_other.
Qed.

Lemma store32_wrote m p v :
  0 <= p -> p + 4 <= vsize m -> exists m', store32 m p (cpu_to_fdt32 v) = Ret m' /\ wrote m p (be32 v) m'.
Proof. intros. rewrite store32_write. by apply write_wrote. Qed.

Lemma wrote_word m p v m' : wrote m p (be32 v) m' -> word m' p = u32 v.
Proof. intros H. apply word_at, H. Qed.

Lemma wrote_word_other m p bs m' q :
  wrote m p bs m' -> q + 4 <= p \/ p + vsize bs <= q -> word m' q = word m q.
Proof. intros H Hd. apply word_agree. intros i Hi. apply H. lia. Qed.

Lemma wrote_bytes_other m p bs m' q cs :
  wrote m p bs m' -> q + vsize cs <= p \/ p + vsize bs <= q -> bytes_at m q cs -> bytes_at m' q cs.
Proof. intros H Hd. apply bytes_at_agree. intros i Hi. apply H. lia. Qed.

(** [fdt_end_node] *)
Lemma end_node_ok m a S N :
  sw_inv_at m a S N ->
  exists err m', fdt_end_node m = Ret (err, m') /\
    if decide (a_base a + S + N + 4 <= a_size a)
    then err = 0 /\ sw_inv_at m' (add_tok a WEnd) (S + 4) N
    else err = - FDT_ERR_NOSPACE /\ m' = m.
Proof.
  intros Hinv. unfold fdt_end_node, guarded. rewrite (probe_struct_ok _ _ _ _ Hinv), bind_ret.
  pose proof Hinv as [Hst Hsb Hfl Hrs Hal Htk]. simpl negb. cbv iota. unfold FDT_TAGSIZE.
  rewrite (grab_space_ok _ _ _ _ _ _ Hst) by lia. rewrite bind_ret. sw_fields Hst.
  case_decide as Hroom; [|by eexists _, _].
  set (m1 := upd m 36 _).
  assert (wrote m 36 (be32 (S + 4)) m1) as W1.
  { destruct (write_wrote m 36 (be32 (S + 4))) as (m' & E & W); [lia|rewrite vsize_be32; lia|].
    rewrite write_ok in E by (rewrite ?vsize_be32; lia). by injection E as <-. }
  clearbody m1. pose proof (wr_size _ _ _ _ W1) as Hv1.
  destruct (store32_wrote m1 (a_base a + S) FDT_END_NODE) as (m2 & -> & W2); [lia..|]. rewrite bind_ret.
  pose proof (wr_size _ _ _ _ W2) as Hv2.
  eexists _, _. split; [done|]. split; [done|].
  eapply (sw_append m m2 a S N _ N _ (S + 4)); try done; try lia.
  - apply W2; [apply W1; [done|apply be32_ok]|apply be32_ok].
  - intros i Hi. rewrite (wr_same _ _ _ _ W2), (wr_same _ _ _ _ W1); rewrite ?vsize_be32; lia || done.
  - rewrite (wrote_word_other _ _ _ _ _ W2), (wrote_word _ _ _ _ W1) by (rewrite ?vsize_be32; lia). apply uwrap_small. lia.
  - rewrite (wrote_word_other _ _ _ _ _ W2), (wrote_word_other _ _ _ _ _ W1) by (rewrite ?vsize_be32; lia). done.
  - assert (sbase m2 = a_base a) as Hb2.
    { by rewrite (wrote_word_other _ _ _ _ _ W2), (wrote_word_other _ _ _ _ _ W1) by (rewrite ?vsize_be32; lia). }
    split; [|done]. rewrite Hb2. by rewrite (wrote_word _ _ _ _ W2).
  - rewrite align4_id; [done|]. Z.div_mod_to_equations; lia.
Qed.

Lemma grab_space_wrote m T B S N len :
  sw_state m T B S N -> 0 <= len < 2 ^ 32 ->
  if decide (B + S + N + len <= T)
  then exists m1, fdt_grab_space_ m len = Ret (Some (B + S), m1) /\ wrote m 36 (be32 (S + len)) m1
  else fdt_grab_space_ m len = Ret (None, m).
Proof.
  intros Hst Hlen. rewrite (grab_space_ok _ _ _ _ _ _ Hst) by done. sw_fields Hst.
  case_decide; [|done]. eexists. split; [done|].
  destruct (write_wrote m 36 (be32 (S + len))) as (m' & E & W); [lia|rewrite vsize_be32; lia|].
  rewrite write_ok in E by (rewrite ?vsize_be32; lia). by injection E as <-.
Qed.

(** ** Strings *)

Lemma find_string_loop_spec n m s : forall p,
  0 <= p -> p + Z.of_nat n + vsize s <= vsize m ->
  exists r, find_string_loop n m p s = Ret r /\
    match r with
    | Some q => p <= q < p + Z.of_nat n /\ bytes_at m q (s ++ [0])
    | None => forall q, p <= q < p + Z.of_nat n -> ~ bytes_at m q (s ++ [0])
    end.
Proof.
  induction n as [|n IH]; intros p Hp Hr; simpl; [exists None; split; [done|lia]|].
  destruct (memcmp_spec m p (s ++ [0])) as (r & -> & Heq); [done|rewrite vsize_app; change (vsize [0]) with 1; lia|].
  rewrite bind_ret. destruct r.
  - exists (Some p). split; [done|]. split; [lia|]. by apply Heq.
  - destruct (IH (p + 1)) as ([q|] & -> & Hq); [lia..| |].
    + exists (Some q). split; [done|]. destruct Hq. split; [lia|done].
    + exists None. split; [done|]. intros q Hq'. destruct (decide (q = p)) as [->|].
      * intros Hb. apply Heq in Hb. done.
      * apply Hq. lia.
Qed.

Lemma find_string_spec m strtab tabsize s :
  0 <= strtab -> 0 <= tabsize -> strtab + tabsize <= vsize m -> vsize s < 2 ^ 31 - 1 ->
  exists r, fdt_find_string_ m strtab tabsize s = Ret r /\
    match r with
    | Some q => strtab <= q /\ q + vsize s + 1 <= strtab + tabsize /\ bytes_at m q (s ++ [0])
    | None => forall q, strtab <= q -> q + vsize s + 1 <= strtab + tabsize -> ~ bytes_at m q (s ++ [0])
    end.
Proof.
  intros Hp Ht Hr Hs. pose proof (vsize_nonneg s). unfold fdt_find_string_.
  rewrite int_chk_ok by lia. rewrite bind_ret.
  destruct (decide (vsize s + 1 <= tabsize)) as [Hfit|Hno].
  - destruct (find_string_loop_spec (Z.to_nat (strtab + tabsize - (vsize s + 1) - strtab + 1)) m s strtab)
      as ([q|] & -> & Hq); [lia..| |]; eexists; (split; [done|]).
    + destruct Hq. split_and!; [lia..|done].
    + intros q Hq1 Hq2. apply Hq. lia.
  - replace (Z.to_nat _) with O by lia. simpl. eexists. split; [done|]. intros q Hq1 Hq2. exfalso. lia.
Qed.

Lemma s32_u32 x : int_range x -> s32 (u32 x) = x.
Proof. unfold int_range, swrap, uwrap. intros. Z.div_mod_to_equations. lia. Qed.

(** What a name allocation yields. *)
Definition named (m : list Z) (a : sw) (S N : Z) (name : list Z) (off : Z) (alloc : bool) (m1 : list Z) (N1 : Z) : Prop :=
  - 2 ^ 31 < off < 0 /\ sw_inv_at m1 a S N1 /\ name_at m1 (a_size a) N1 (u32 off) name /\
  if alloc then
    N1 = N + vsize name + 1 /\ vsize m1 = vsize m /\
    forall i, 0 <= i < 32 \/ 36 <= i < a_size a - N1 \/ a_size a - N <= i < a_size a -> vget m1 i = vget m i
  else m1 = m /\ N1 = N.

Lemma add_string_ok m a S N name :
  sw_inv_at m a S N -> valid_str name -> vsize name + 1 <= a_base a ->
  if decide (a_base a + S + N + (vsize name + 1) <= a_size a)
  then exists off m1, fdt_add_string_ m name = Ret (off, m1) /\ named m a S N name off true m1 (N + vsize name + 1)
  else fdt_add_string_ m name = Ret (0, m).
Proof.
  intros Hinv Hname Hlen. pose proof Hinv as [Hst Hsb Hfl Hrs Hal Htk]. pose proof (vsize_nonneg name).
  unfold fdt_add_string_. pose proof Hst as Hst'. sw_fields Hst. hdr. rewrite ?bind_ret.
  rewrite Htotal, Hbase, Hstrings, Hstruct.
  rewrite (swrap_small 32 N) by lia. rewrite (int_chk_ok (vsize name + 1)) by lia. rewrite bind_ret.
  rewrite (int_chk_ok (- N - _)) by lia. rewrite !bind_ret.
  rewrite (swrap_small 32 (a_base a + S)), (uwrap_small 32 (a_base a + S)) by lia.
  case_decide as Hroom.
  - rewrite uwrap_small by lia. destruct (Z.ltb_spec (a_size a + (- N - (vsize name + 1))) (a_base a + S)); [lia|].
    assert (vsize (name ++ [0]) = vsize name + 1) as Hvn by (rewrite vsize_app; done).
    destruct (write_wrote m (a_size a + (- N - (vsize name + 1))) (name ++ [0])) as (m1 & -> & W1); [lia..|].
    rewrite bind_ret, int_chk_ok by lia. rewrite ?bind_ret.
    pose proof (wr_size _ _ _ _ W1) as Hv1. unfold fdt_set_size_dt_strings.
    destruct (store32_wrote m1 32 (u32 (N + (vsize name + 1)))) as (m2 & -> & W2); [lia..|]. rewrite ?bind_ret.
    pose proof (wr_size _ _ _ _ W2) as Hv2. eexists _, _. split; [done|].
    assert (forall i, 0 <= i < 32 \/ 36 <= i < a_size a - (N + vsize name + 1) \/ a_size a - N <= i < a_size a ->
      vget m2 i = vget m i) as Hsame.
    { intros i Hi. rewrite (wr_same _ _ _ _ W2) by (rewrite ?vsize_be32; lia).
      by rewrite (wr_same _ _ _ _ W1) by lia. }
    assert (bytes_ok m2) as Hb2.
    { apply W2; [apply W1; [done|by apply valid_str_bytes]|apply be32_ok]. }
    destruct (sw_frame m m2 a S N S (N + vsize name + 1)) as (Hs1 & Hs2 & Hs3 & Hs4 & Hs5); try done; try lia.
    { intros i Hi. apply Hsame. lia. }
    { rewrite (wrote_word_other _ _ _ _ _ W2), (wrote_word_other _ _ _ _ _ W1) by (rewrite ?vsize_be32; lia). done. }
    { rewrite (wrote_word _ _ _ _ W2). unfold uwrap. rewrite Z.mod_mod by lia. rewrite Z.mod_small; lia. }
    split_and!; [lia..| | |done|lia|done].
    + split; done.
    + unfold name_at. rewrite s32_u32 by (unfold int_range; lia). split_and!; [lia..|].
      split; [|by apply valid_str_nonzero].
      eapply wrote_bytes_other; [exact W2| |exact (wr_at _ _ _ _ W1)]. rewrite ?vsize_be32, Hvn. lia.
  - rewrite uwrap_small by lia.
    destruct (Z.ltb_spec (a_size a + (- N - (vsize name + 1))) (a_base a + S)); [done|lia].
Qed.

(** The choice between looking a name up and adding it. *)
Definition alloc_name (m : list Z) (name : list Z) : outcome (Z * bool * list Z) :=
  flags ← sw_flags m;
  if nz (flags .& FDT_CREATE_FLAG_NO_NAME_DEDUP)
  then r ← fdt_add_string_ m name; Ret (r.1, true, r.2)
  else fdt_find_add_string_ m name.

Lemma alloc_name_ok m a S N name :
  sw_inv_at m a S N -> valid_str name -> vsize name + 1 <= a_base a ->
  (exists off alloc m1 N1, alloc_name m name = Ret (off, alloc, m1) /\ named m a S N name off alloc m1 N1) \/
  (alloc_name m name = Ret (0, true, m) /\ a_size a < a_base a + S + N + (vsize name + 1)).
Proof.
  intros Hinv Hname Hlen. pose proof (add_string_ok m a S N name Hinv Hname Hlen) as Hadd.
  pose proof Hinv as [Hst Hsb Hfl Hrs Hal Htk]. pose proof (vsize_nonneg name). sw_fields Hst.
  unfold alloc_name, sw_flags. hdr. rewrite bind_ret.
  assert ((exists off alloc m1 N1, (r ← fdt_add_string_ m name; Ret (r.1, true, r.2)) = Ret (off, alloc, m1) /\
      named m a S N name off alloc m1 N1) \/
    ((r ← fdt_add_string_ m name; Ret (r.1, true, r.2)) = Ret (0, true, m) /\
      a_size a < a_base a + S + N + (vsize name + 1))) as Hfresh.
  { case_decide.
    - destruct Hadd as (off & m1 & -> & Hn). left. exists off, true, m1, (N + vsize name + 1). done.
    - right. rewrite Hadd. split; [done|lia]. }
  destruct (nz _); [exact Hfresh|]. unfold fdt_find_add_string_. hdr. rewrite !bind_ret.
  rewrite Htotal, Hstrings, (swrap_small 32 N) by lia.
  destruct (find_string_spec m (a_size a - N) N name) as ([q|] & -> & Hq); [lia..| |]; rewrite bind_ret.
  - destruct Hq as (Hq1 & Hq2 & Hq3). rewrite swrap_small by lia. left.
    exists (q - a_size a), false, m, N. split; [done|]. split_and!; [lia..|done| |done|done].
    unfold name_at. rewrite s32_u32 by (unfold int_range; lia). split_and!; [lia..|].
    replace (a_size a + (q - a_size a)) with q by lia. split; [done|by apply valid_str_nonzero].
  - exact Hfresh.
Qed.

(** The token [fdt_property_placeholder] lays out before its value is copied. *)
Lemma placeholder_unfold m name len :
  fdt_property_placeholder m name len
  = (err ← fdt_sw_probe_struct_ m;
     if negb (err =? 0) then Ret (err, None, m) else
     r ← alloc_name m name;
     let '(nameoff, allocated, m) := r in
     if nameoff =? 0 then Ret (- FDT_ERR_NOSPACE, None, m) else
     r ← fdt_grab_space_ m (u64 (sizeof_fdt_property + FDT_TAGALIGN len));
     let '(prop, m) := r in
     match prop with
     | None =>
         if (allocated : bool) then m ← fdt_del_last_string_ m name; Ret (- FDT_ERR_NOSPACE, None, m)
         else Ret (- FDT_ERR_NOSPACE, None, m)
     | Some prop =>
         m ← store32 m prop (cpu_to_fdt32 FDT_PROP);
         m ← store32 m (prop + 8) (cpu_to_fdt32 (u32 nameoff));
         m ← store32 m (prop + 4) (cpu_to_fdt32 (u32 len));
         Ret (0, Some (prop + 12), m)
     end).
Proof.
  unfold fdt_property_placeholder, alloc_name. destruct (fdt_sw_probe_struct_ m) as [err| |]; try done. simpl.
  destruct (negb (err =? 0)); [done|]. by destruct (sw_flags m).
Qed.

Definition prop_cost (val : list Z) : Z := 12 + align4 (vsize val).

(** The stores of a property, and the token they make. *)
Lemma property_layout m1 m2 m3 m4 m5 m6 a S N name val off :
  sw_inv_at m1 a S N -> name_at m1 (a_size a) N (u32 off) name -> bytes_ok val -> vsize val < 2 ^ 30 ->
  a_base a + S + N + prop_cost val <= a_size a ->
  wrote m1 36 (be32 (S + prop_cost val)) m2 -> wrote m2 (a_base a + S) (be32 FDT_PROP) m3 ->
  wrote m3 (a_base a + S + 8) (be32 (u32 off)) m4 -> wrote m4 (a_base a + S + 4) (be32 (u32 (vsize val))) m5 ->
  wrote m5 (a_base a + S + 12) val m6 ->
  sw_inv_at m6 (add_tok a (WProp name val)) (S + prop_cost val) N.
Proof.
  intros Hinv Hna Hval Hvl Hroom W2 W3 W4 W5 W6. pose proof Hinv as [Hst _ _ _ Hal _]. sw_fields Hst.
  pose proof (vsize_nonneg val). pose proof (align4_spec (vsize val)) as [Hal1 Hal2]. unfold prop_cost in *.
  pose proof (wr_size _ _ _ _ W2). pose proof (wr_size _ _ _ _ W3). pose proof (wr_size _ _ _ _ W4).
  pose proof (wr_size _ _ _ _ W5). pose proof (wr_size _ _ _ _ W6).
  assert (forall i, 0 <= i < 36 \/ 40 <= i < a_base a + S \/ a_base a + S + 12 + vsize val <= i -> vget m6 i = vget m1 i) as Hsame.
  { intros i Hi. rewrite (wr_same _ _ _ _ W6), (wr_same _ _ _ _ W5), (wr_same _ _ _ _ W4),
      (wr_same _ _ _ _ W3), (wr_same _ _ _ _ W2); rewrite ?vsize_be32; done || lia. }
  assert (sbase m6 = a_base a) as Hb6 by (rewrite (word_agree m1); [done|intros i Hi; apply Hsame; lia]).
  assert (ver m6 = 17) as Hver6 by (rewrite (word_agree m1); [done|intros i Hi; apply Hsame; lia]).
  eapply (sw_append m1 m6 a S N _ N (WProp name val) (S + 12 + vsize val)); try done; try lia.
  - apply W6; [|done]. apply W5; [|apply be32_ok]. apply W4; [|apply be32_ok]. apply W3; [|apply be32_ok].
    apply W2; [done|apply be32_ok].
  - intros i Hi. apply Hsame. lia.
  - rewrite (wrote_word_other _ _ _ _ _ W6), (wrote_word_other _ _ _ _ _ W5), (wrote_word_other _ _ _ _ _ W4),
      (wrote_word_other _ _ _ _ _ W3), (wrote_word _ _ _ _ W2) by (rewrite ?vsize_be32; lia). apply uwrap_small. lia.
  - rewrite <- Hstrings. apply word_agree. intros i Hi. apply Hsame. lia.
  - exists (u32 off). split.
    + unfold tok_at. rewrite Hb6, Hver6. unfold prop_data. simpl.
      rewrite (wrote_word_other _ _ _ _ (a_base a + S) W6), (wrote_word_other _ _ _ _ (a_base a + S) W5),
        (wrote_word_other _ _ _ _ (a_base a + S) W4), (wrote_word _ _ _ _ W3) by (rewrite ?vsize_be32; lia).
      rewrite (wrote_word_other _ _ _ _ (a_base a + S + 4) W6), (wrote_word _ _ _ _ W5) by lia.
      rewrite (wrote_word_other _ _ _ _ (a_base a + S + 8) W6), (wrote_word_other _ _ _ _ (a_base a + S + 8) W5),
        (wrote_word _ _ _ _ W4) by (rewrite ?vsize_be32; lia).
      split; [done|]. split_and!; [|unfold uwrap; by rewrite Z.mod_mod by lia| |lia].
      * unfold uwrap. rewrite Z.mod_mod by lia. apply Z.mod_small. lia.
      * replace (a_base a + (S + 12)) with (a_base a + S + 12) by lia. apply W6.
    + destruct Hna as (Hna1 & Hna2 & Hna3). split_and!; [done..|].
      eapply cstr_agree; [|exact Hna3]. intros i Hi. apply Hsame. lia.
  - replace (S + 12 + vsize val) with ((S + 12) + vsize val) by lia.
    rewrite (align4_shift (S + 12) (vsize val)); [lia|]. Z.div_mod_to_equations; lia.
Qed.

(** The rollback of a name whose property found no room. *)
Lemma del_last_string_ok m a S N name off m1 N1 :
  sw_inv_at m a S N -> named m a S N name off true m1 N1 -> vsize name + 1 <= a_base a ->
  exists m2, fdt_del_last_string_ m1 name = Ret m2 /\ sw_inv_at m2 a S N.
Proof.
  intros Hinv (Hoff & Hinv1 & _ & -> & Hv1 & Hsame) Hlen. pose proof (vsize_nonneg name).
  pose proof Hinv1 as [Hst1 _ _ _ _ _]. pose proof Hinv as [Hst0 _ _ _ Hal _]. sw_fields Hst1.
  destruct Hst0 as [_ _ _ _ _ _ _ _ _ Hlay0].
  unfold fdt_del_last_string_, fdt_set_size_dt_strings. hdr. rewrite bind_ret, Hstrings.
  rewrite (swrap_small 32) by lia. rewrite int_chk_ok by lia. rewrite bind_ret.
  rewrite int_chk_ok by lia. rewrite bind_ret.
  destruct (store32_wrote m1 32 (u32 (N + vsize name + 1 - (vsize name + 1)))) as (m2 & -> & W2); [lia..|].
  exists m2. split; [done|]. pose proof (wr_size _ _ _ _ W2) as Hv2.
  assert (word m2 36 = S) as E36 by (rewrite (wrote_word_other _ _ _ _ _ W2) by (rewrite ?vsize_be32; lia); done).
  destruct (sw_frame m m2 a S N S N) as (Hs1 & Hs2 & Hs3 & Hs4 & Hs5); try done; try lia.
  - apply W2; [done|apply be32_ok].
  - intros i Hi. rewrite (wr_same _ _ _ _ W2) by (rewrite ?vsize_be32; lia). apply Hsame. lia.
  - rewrite (wrote_word _ _ _ _ W2). unfold uwrap. rewrite Z.mod_mod by lia. rewrite Z.mod_small; lia.
Qed.

(** [fdt_property] *)
Lemma property_ok m a S N name val :
  sw_inv_at m a S N -> valid_str name -> vsize name + 1 <= a_base a -> bytes_ok val -> vsize val < 2 ^ 30 ->
  exists err m', fdt_property m name val = Ret (err, m') /\
    ((err = 0 /\ exists N', N' <= N + vsize name + 1 /\ sw_inv_at m' (add_tok a (WProp name val)) (S + prop_cost val) N') \/
     (err = - FDT_ERR_NOSPACE /\ sw_inv_at m' a S N /\
      a_size a < a_base a + S + N + (vsize name + 1) + prop_cost val)).
Proof.
  intros Hinv Hname Hlen Hval Hvl. pose proof (vsize_nonneg val). pose proof (vsize_nonneg name).
  unfold fdt_property. rewrite int_chk_ok by lia. rewrite bind_ret, placeholder_unfold.
  rewrite (probe_struct_ok _ _ _ _ Hinv), bind_ret. simpl negb. cbv iota.
  pose proof (align4_spec (vsize val)) as [Hal1 Hal2].
  assert (prop_cost val = 12 + align4 (vsize val)) as Hcost by done.
  destruct (alloc_name_ok m a S N name) as [(off & alloc & m1 & N1 & -> & Hnm)|[-> Hfull]]; try done; rewrite bind_ret.
  2: { simpl. eexists _, _. split; [done|]. right. split_and!; [done..|lia]. }
  pose proof Hnm as (Hoff & Hinv1 & Hna & Hal). destruct (Z.eqb_spec off 0); [lia|].
  rewrite FDT_TAGALIGN_ok by lia. unfold sizeof_fdt_property. rewrite (uwrap_small 64), <- Hcost by lia.
  pose proof Hinv1 as [Hst1 _ _ _ _ _].
  pose proof (grab_space_wrote m1 _ _ _ _ (prop_cost val) Hst1 ltac:(lia)) as Hgrab.
  assert (N1 <= N + vsize name + 1) as HN1 by (destruct alloc; lia). sw_fields Hst1. case_decide as Hroom.
  - destruct Hgrab as (m2 & -> & W2). rewrite bind_ret. pose proof (wr_size _ _ _ _ W2).
    destruct (store32_wrote m2 (a_base a + S) FDT_PROP) as (m3 & -> & W3); [lia..|]. rewrite bind_ret.
    pose proof (wr_size _ _ _ _ W3).
    destruct (store32_wrote m3 (a_base a + S + 8) (u32 off)) as (m4 & -> & W4); [lia..|]. rewrite bind_ret.
    pose proof (wr_size _ _ _ _ W4).
    destruct (store32_wrote m4 (a_base a + S + 4) (u32 (vsize val))) as (m5 & -> & W5); [lia..|]. rewrite !bind_ret.
    pose proof (wr_size _ _ _ _ W5). simpl negb. cbv iota.
    destruct (write_wrote m5 (a_base a + S + 12) val) as (m6 & -> & W6); [lia..|]. rewrite bind_ret.
    eexists _, _. split; [done|]. left. split; [done|]. exists N1. split; [done|].
    by eapply (property_layout m1 m2 m3 m4 m5 m6).
  - rewrite Hgrab, bind_ret. destruct alloc.
    + destruct (del_last_string_ok m a S N name off m1 N1) as (m2 & -> & Hinv2); try done. rewrite !bind_ret.
      eexists _, _. split; [done|]. right. split_and!; [done..|]. lia.
    + destruct Hal as [-> ->]. eexists _, _. split; [done|]. right. split_and!; [done..|lia].
Qed.
