(* ===== verification/FdtFinish.v ===== *)
(** * libfdt: from the first call to a finished blob

    Creation and the reservation map bring a buffer into the 'struct' state;
    [fdt_finish] turns the invariant of that state into a complete blob. *)

From stdpp Require Import base option list strings.
From S2P Require Import Prelude.
From S2P Require Import BranchHash.
From S2P Require Import FdtBase.
From S2P Require Import FdtTags.
From S2P Require Import FdtTree.
From S2P Require Import FdtRead.
From S2P Require Import FdtReadFacts.
From S2P Require Import FdtCheck.
From S2P Require Import FdtWrite.
From S2P Require Import FdtWriteFacts.

(** ** The 'memrsv' state *)

Record sw_rsv_inv (m : list Z) (a : sw) : Prop := {
  sr_state : sw_state m (a_size a) (a_base a) 0 0;
  sr_strings : strbase m = 0;
  sr_flags : word m 24 = a_flags a;
  sr_rsv : bytes_at m 48 (enc_rsv (a_rsv a));
  sr_toks : a_toks a = []
}.

Definition add_rsv (a : sw) (addr size : Z) : sw :=
  {| a_size := a_size a; a_flags := a_flags a; a_rsv := a_rsv a ++ [(addr, size)]; a_toks := a_toks a |}.

Lemma enc_rsv_snoc rs addr size :
  enc_rsv (rs ++ [(addr, size)]) = enc_rsv rs ++ be64 addr ++ be64 size.
Proof. unfold enc_rsv. rewrite flat_map_app. cbn [flat_map fst snd]. by rewrite app_nil_r. Qed.

Lemma vsize_be64 v : vsize (be64 v) = 8.
Proof. done. Qed.

Lemma a_base_add a addr size : a_base (add_rsv a addr size) = a_base a + 16.
Proof. unfold a_base, add_rsv. simpl. rewrite enc_rsv_snoc, !vsize_app, !vsize_be64. lia. Qed.

Lemma store64_wrote m p v :
  0 <= p -> p + 8 <= vsize m -> exists m', store64 m p (cpu_to_fdt64 v) = Ret m' /\ wrote m p (be64 v) m'.
Proof. intros. rewrite store64_write. by apply write_wrote. Qed.

(** The value of a header field after a chain of stores. *)
Ltac word_chain :=
  repeat match goal with
  | W : wrote _ ?p (be32 ?v) ?m |- context [word ?m ?p] => rewrite (wrote_word _ _ _ _ W)
  | W : wrote _ ?p ?bs ?m |- context [word ?m ?q] =>
      rewrite (wrote_word_other _ _ _ _ q W) by (rewrite ?vsize_be32; lia)
  end.

Lemma create_ok buf T flags :
  bytes_ok buf -> 48 <= T <= vsize buf -> T < INT32_MAX -> 0 <= flags <= 1 ->
  exists m, fdt_create_with_flags buf T flags = Ret (0, m) /\
    sw_rsv_inv m {| a_size := T; a_flags := flags; a_rsv := []; a_toks := [] |}.
Proof.
  intros Hb HT Hmax Hfl. unfold fdt_create_with_flags, INT32_MAX in *.
  change (FDT_ALIGN sizeof_fdt_header sizeof_fdt_reserve_entry) with 48.
  rewrite (uwrap_small 64 T) by lia. destruct (Z.ltb_spec T 48); [lia|].
  assert (nz (flags .& u32 (Z.lnot FDT_CREATE_FLAGS_ALL)) = false) as ->.
  { assert (flags = 0 \/ flags = 1) as [->| ->] by lia; done. }
  unfold memset, fdt_set_magic, fdt_set_version, fdt_set_last_comp_version, fdt_set_totalsize,
    fdt_set_off_mem_rsvmap, fdt_set_off_dt_struct, fdt_set_off_dt_strings.
  set (zs := replicate (Z.to_nat T) 0). assert (vsize zs = T) as Hz by (unfold vsize, zs; rewrite length_replicate; lia).
  destruct (write_wrote buf 0 zs) as (m0 & -> & W0); [lia..|]. rewrite bind_ret. pose proof (wr_size _ _ _ _ W0).
  destruct (store32_wrote m0 0 FDT_SW_MAGIC) as (m1 & -> & W1); [lia..|]. rewrite bind_ret. pose proof (wr_size _ _ _ _ W1).
  destruct (store32_wrote m1 20 FDT_LAST_SUPPORTED_VERSION) as (m2 & -> & W2); [lia..|]. rewrite bind_ret. pose proof (wr_size _ _ _ _ W2).
  destruct (store32_wrote m2 24 flags) as (m3 & -> & W3); [lia..|]. rewrite bind_ret. pose proof (wr_size _ _ _ _ W3).
  destruct (store32_wrote m3 4 (u32 T)) as (m4 & -> & W4); [lia..|]. rewrite bind_ret. pose proof (wr_size _ _ _ _ W4).
  destruct (store32_wrote m4 16 (u32 48)) as (m5 & -> & W5); [lia..|]. rewrite bind_ret. pose proof (wr_size _ _ _ _ W5).
  assert (bytes_ok m5) as Hb5.
  { assert (bytes_ok zs) by (apply Forall_replicate; done).
    apply W5, be32_ok. apply W4, be32_ok. apply W3, be32_ok. apply W2, be32_ok. apply W1, be32_ok. by apply W0. }
  hdr. rewrite bind_ret.
  destruct (store32_wrote m5 8 (word m5 16)) as (m6 & -> & W6); [lia..|]. rewrite bind_ret. pose proof (wr_size _ _ _ _ W6).
  destruct (store32_wrote m6 12 0) as (m7 & -> & W7); [lia..|]. rewrite bind_ret. pose proof (wr_size _ _ _ _ W7).
  assert (word m5 16 = 48) as E16 by (rewrite (wrote_word _ _ _ _ W5); done).
  rewrite E16 in W6.
  assert (word m0 36 = 0 /\ word m0 32 = 0) as [E36 E32].
  { assert (forall i, 0 <= i < T -> vget m0 i = Some 0) as Hzero.
    { intros i Hi. pose proof (wr_at _ _ _ _ W0 i ltac:(lia)) as Hi'. rewrite Z.add_0_l in Hi'. rewrite Hi'.
      unfold zs. rewrite vget_lookup_pos by lia. apply lookup_replicate_2. lia. }
    unfold word, byte. by rewrite !Hzero by lia. }
  eexists. split; [done|].
  split; simpl; [split|..]; change (a_base _) with 48; word_chain; try done; try (by rewrite uwrap_small; lia).
  all: try (unfold INT32_MAX; lia).
  - apply W7, be32_ok. by apply W6, be32_ok.
  - unfold uwrap. rewrite Z.mod_mod by lia. apply Z.mod_small. lia.
  - apply bytes_at_nil.
Qed.

Lemma probe_memrsv_ok m a : sw_rsv_inv m a -> fdt_sw_probe_memrsv_ m = Ret 0.
Proof.
  intros [Hst Hsb Hfl Hrs Htk]. sw_fields Hst. unfold fdt_sw_probe_memrsv_, fdt_sw_probe_. hdr. simpl.
  rewrite Hmagic. simpl. hdr. simpl. by rewrite Hsb.
Qed.

(** [fdt_add_reservemap_entry] *)
Lemma add_reservemap_ok m a addr size :
  sw_rsv_inv m a ->
  exists err m', fdt_add_reservemap_entry m addr size = Ret (err, m') /\
    if decide (a_base a + 16 <= a_size a)
    then err = 0 /\ sw_rsv_inv m' (add_rsv a addr size)
    else err = - FDT_ERR_NOSPACE /\ m' = m.
Proof.
  intros Hinv. unfold fdt_add_reservemap_entry, guarded. rewrite (probe_memrsv_ok _ _ Hinv), bind_ret.
  simpl negb. cbv iota. destruct Hinv as [Hst Hsb Hfl Hrs Htk]. sw_fields Hst. hdr. rewrite !bind_ret.
  rewrite Hbase, Htotal, (swrap_small 32) by lia. unfold sizeof_fdt_reserve_entry.
  rewrite (uwrap_small 64) by lia. case_decide as Hroom.
  2: { destruct (Z.ltb_spec (a_size a) (a_base a + 16)); [by eexists _, _|lia]. }
  destruct (Z.ltb_spec (a_size a) (a_base a + 16)); [lia|].
  destruct (store64_wrote m (a_base a) addr) as (m1 & -> & W1); [lia..|]. rewrite bind_ret. pose proof (wr_size _ _ _ _ W1).
  destruct (store64_wrote m1 (a_base a + 8) size) as (m2 & -> & W2); [lia..|]. rewrite bind_ret. pose proof (wr_size _ _ _ _ W2).
  unfold fdt_set_off_dt_struct.
  destruct (store32_wrote m2 8 (u32 (a_base a + 16))) as (m3 & -> & W3); [lia..|]. rewrite bind_ret. pose proof (wr_size _ _ _ _ W3).
  eexists _, _. split; [done|]. split; [done|].
  assert (forall q, 0 <= q -> q + 4 <= 48 -> q + 4 <= 8 \/ 12 <= q -> word m3 q = word m q) as Hw.
  { intros q Hq1 Hq2 Hq3. rewrite (wrote_word_other _ _ _ _ _ W3), (wrote_word_other _ _ _ _ _ W2),
      (wrote_word_other _ _ _ _ _ W1); rewrite ?vsize_be32, ?vsize_be64; done || lia. }
  split; simpl; [split|..]; rewrite ?a_base_add; rewrite ?Hw by lia; unfold INT32_MAX; try done; try lia.
  - apply W3, be32_ok. apply W2, be64_ok. by apply W1, be64_ok.
  - rewrite (wrote_word _ _ _ _ W3). unfold uwrap. rewrite Z.mod_mod by lia. apply Z.mod_small. lia.
  - rewrite enc_rsv_snoc, !bytes_at_app, vsize_be64. change (48 + vsize (enc_rsv (a_rsv a))) with (a_base a).
    assert (vsize (enc_rsv (a_rsv a)) = a_base a - 48) as He by (unfold a_base; lia).
    split_and!; (eapply (wrote_bytes_other m2 8); [exact W3|rewrite ?vsize_be32, ?vsize_be64, ?He; lia|]).
    + eapply (wrote_bytes_other m1); [exact W2|lia|]. eapply (wrote_bytes_other m); [exact W1|lia|done].
    + eapply (wrote_bytes_other m1); [exact W2|rewrite vsize_be64; lia|]. apply W1.
    + apply W2.
Qed.

(** [fdt_finish_reservemap] closes the map and enters the 'struct' state. *)
Lemma finish_reservemap_ok m a :
  sw_rsv_inv m a ->
  exists err m', fdt_finish_reservemap m = Ret (err, m') /\
    if decide (a_base a + 16 <= a_size a)
    then err = 0 /\ sw_inv_at m' (add_rsv a 0 0) 0 0
    else err = - FDT_ERR_NOSPACE /\ m' = m.
Proof.
  intros Hinv. unfold fdt_finish_reservemap.
  destruct (add_reservemap_ok m a 0 0 Hinv) as (err & m1 & -> & H). rewrite bind_ret.
  case_decide as Hroom; destruct H as [-> H]; simpl negb; cbv iota; [|subst m1; by eexists _, _].
  destruct H as [Hst Hsb Hfl Hrs Htk]. pose proof Hst as Hst'. sw_fields Hst'. hdr. rewrite bind_ret.
  unfold fdt_set_off_dt_strings.
  destruct (store32_wrote m1 12 (total m1)) as (m2 & -> & W2); [lia..|]. rewrite bind_ret. pose proof (wr_size _ _ _ _ W2).
  rewrite Htotal in W2. simpl a_size in *. eexists _, _. split; [done|]. split; [done|].
  assert (forall q, 0 <= q -> q + 4 <= 12 \/ 16 <= q -> word m2 q = word m1 q) as Hw.
  { intros q Hq1 Hq2. rewrite (wrote_word_other _ _ _ _ _ W2); rewrite ?vsize_be32; done || lia. }
  split; simpl a_size; [split|..]; rewrite ?Hw by lia; unfold INT32_MAX; try done; try lia.
  - by apply W2, be32_ok.
  - rewrite (wrote_word _ _ _ _ W2). apply uwrap_small. lia.
  - eapply (wrote_bytes_other m1); [exact W2|rewrite ?vsize_be32; lia|done].
  - by rewrite Htk.
Qed.

(** ** [fdt_finish] *)

(** Everything but the structure block from [o] to [S] is kept. *)
Definition keeps (m m' : list Z) (o S : Z) : Prop :=
  vsize m' = vsize m /\ bytes_ok m' /\
  forall i, ~ (sbase m + o <= i < sbase m + S) -> vget m' i = vget m i.

Lemma keeps_word m m' o S q :
  keeps m m' o S -> q + 4 <= sbase m + o \/ sbase m + S <= q -> word m' q = word m q.
Proof. intros (_ & _ & H) Hq. apply word_agree. intros i Hi. apply H. lia. Qed.

(** A blob whose string offsets are being corrected. *)
Record fixing (m : list Z) (N S : Z) : Prop := {
  fx_blob : blob_ok m;
  fx_ver : ver m = 17;
  fx_strings : word m 32 = N;
  fx_limit : slimit m = S + 4;
  fx_base : 48 <= sbase m;
  fx_aligned : S mod 4 = 0;
  fx_end : tok_at m S TEnd (S + 4)
}.

Lemma fixing_keeps m m' N S o :
  0 <= o <= S -> keeps m m' o S -> fixing m N S -> fixing m' N S.
Proof.
  intros Ho Hk [Hm Hv Hs Hl Hb Ha He]. pose proof (fun q => keeps_word m m' o S q Hk) as Hw.
  destruct Hk as (Hsz & Hbo & Hsame).
  assert (sbase m' = sbase m) as Eb by (apply Hw; lia). assert (ver m' = ver m) as Ev by (apply Hw; lia).
  destruct Hm as [Hbm Hh Hh17 Ht Hsm Hst].
  split; rewrite ?Eb, ?Ev, ?Hw by lia; try done.
  - split; rewrite ?Eb, ?Ev, ?Hsz, ?Hw by lia; done.
  - rewrite <- Hl. unfold slimit. by rewrite Eb, Ev, !Hw by lia.
  - eapply tok_agree; [done..| |exact He]. intros i Hi. apply Hsame. lia.
Qed.

Lemma fixing_size m N S : fixing m N S -> S + 4 < 2 ^ 31 - 5.
Proof. intros [Hm _ _ Hl _ _ _]. pose proof (slimit_small m Hm). lia. Qed.

(** Tokens before the changed stretch. *)
Lemma tok_keeps m m' o S t e p :
  keeps m m' p S -> 48 <= sbase m -> 0 <= p -> e <= p -> tok_at m o t e -> tok_at m' o t e.
Proof.
  intros Hk Hb Hp He. pose proof (fun q => keeps_word m m' p S q Hk) as Hw.
  apply tok_agree; [apply Hw; lia..|]. intros i Hi. apply Hk. lia.
Qed.

Lemma keeps_weaken m m' o p S : o <= p -> keeps m m' p S -> keeps m m' o S.
Proof. intros Hop (Hsz & Hb & Hs). split_and!; [done..|]. intros i Hi. apply Hs. lia. Qed.

Lemma keeps_trans m m1 m2 o S :
  sbase m1 = sbase m -> keeps m m1 o S -> keeps m1 m2 o S -> keeps m m2 o S.
Proof.
  intros Hb (Hsz & Hbo & Hs) (Hsz2 & Hbo2 & Hs2). split_and!; [lia|done|].
  intros i Hi. rewrite Hs2 by (rewrite Hb; lia). by apply Hs.
Qed.

(** The rewriting of one string offset. *)
Lemma fix_prop m N S o no val e :
  fixing m N S -> 0 <= o -> tok_at m o (TProp no val) e -> e <= S ->
  exists m1, store32 m (sbase m + o + 8) (cpu_to_fdt32 (u32 (s32 (s32 no + N)))) = Ret m1 /\
    keeps m m1 o (align4 e) /\ tok_at m1 o (TProp (u32 (s32 (s32 no + N))) val) e.
Proof.
  intros Hf Ho Ht He. pose proof Hf as [Hm Hv Hs Hl Hb Ha _]. destruct Hm as [Hbm Hh Hh17 Htt Hsm Hst].
  pose proof (slimit_le m). destruct Ht as [Htag (Hlen & Hno & Hval & Hee)]. pose proof (vsize_nonneg val).
  assert (prop_data (ver m) o (vsize val) = o + 12) as Hpd by (unfold prop_data; by rewrite Hv).
  rewrite Hpd in *. pose proof (align4_spec e) as [? _].
  destruct (store32_wrote m (sbase m + o + 8) (u32 (s32 (s32 no + N)))) as (m1 & -> & W); [lia..|].
  assert (keeps m m1 o (align4 e)) as Hk.
  { split_and!; [apply W|by apply W, be32_ok|]. intros i Hi. apply W. rewrite vsize_be32. lia. }
  exists m1. split_and!; [done..|]. pose proof (fun q => keeps_word m m1 o _ q Hk) as Hw.
  assert (sbase m1 = sbase m) as Eb by (apply Hw; lia). assert (ver m1 = ver m) as Ev by (apply Hw; lia).
  unfold tok_at. rewrite Eb, Ev, Hpd. split_and!; [..|done].
  - etransitivity; [|exact Htag]. apply word_agree. intros i Hi. apply W. rewrite vsize_be32. lia.
  - rewrite <- Hlen. apply word_agree. intros i Hi. apply W. rewrite vsize_be32. lia.
  - rewrite (wrote_word _ _ _ _ W). unfold uwrap. by rewrite Z.mod_mod by lia.
  - eapply wrote_bytes_other; [exact W|rewrite vsize_be32; lia|done].
Qed.

Lemma finish_loop_ok N S (R R' : Z -> list Z -> Prop) ws :
  (forall no name, R no name -> R' (u32 (s32 (s32 no + N))) name) -> forall m o fuel,
  fixing m N S -> 0 <= o -> o mod 4 = 0 -> wtoks_at R m o ws S -> S + 4 < o + Z.of_nat fuel ->
  exists m', finish_loop fuel m o = Ret (S + 4, m') /\ keeps m m' o S /\ wtoks_at R' m' o ws S.
Proof.
  intros HR. induction ws as [|w ws IH]; intros m o fuel Hf Ho Hoa Hws Hfuel; simpl in Hws;
    pose proof (fixing_size _ _ _ Hf) as Hsz; (destruct fuel as [|fuel]; [|]);
    pose proof Hf as [Hm Hv Hs Hl Hb Ha He].
  - lia.
  - subst o. cbn [finish_loop]. rewrite (next_tag_complete m S TEnd (S + 4)) by (done || lia). rewrite bind_ret.
    simpl. rewrite align4_id by (Z.div_mod_to_equations; lia). eexists. split; [done|].
    split; [|done]. split_and!; [done|apply Hm|done].
  - destruct Hws as (e & Hw & Hws). apply wtok_len in Hw. apply wtoks_mono in Hws. pose proof (align4_spec e). lia.
  - destruct Hws as (e & Hw & Hws). pose proof (wtok_len _ _ _ _ _ Hw). pose proof (wtoks_mono _ _ _ _ _ Hws).
    pose proof (align4_spec e) as [? Hal]. cbn [finish_loop].
    assert (forall m1, keeps m m1 o (align4 e) -> wtok_at R' m1 o w e ->
      exists m', finish_loop fuel m1 (align4 e) = Ret (S + 4, m') /\ keeps m m' o S /\
        wtoks_at R' m' o (w :: ws) S) as Hrest.
    { intros m1 Hk Hw1. pose proof (fun q => keeps_word m m1 o _ q Hk) as Hwd.
      assert (sbase m1 = sbase m) as Eb by (apply Hwd; lia). assert (ver m1 = ver m) as Ev by (apply Hwd; lia).
      assert (keeps m m1 o S) as Hk'.
      { destruct Hk as (? & ? & Hsame). split_and!; [done..|]. intros i Hi. apply Hsame. lia. }
      destruct (IH m1 (align4 e) fuel) as (m' & -> & Hk2 & Hws2); try done; try lia.
      - eapply (fixing_keeps m m1 N S o); [lia|done..].
      - eapply (wtoks_agree R R m m1); try done. intros i Hi. apply Hk. lia.
      - exists m'. split; [done|]. split.
        + eapply keeps_trans; [exact Eb|exact Hk'|]. eapply keeps_weaken; [|exact Hk2]. lia.
        + exists e. split; [|done]. destruct w as [name| |name val]; simpl in Hw1 |- *.
          * eapply (tok_keeps m1 m'); [exact Hk2|lia..|done].
          * eapply (tok_keeps m1 m'); [exact Hk2|lia..|done].
          * destruct Hw1 as (no & Ht1 & Hn1). exists no. split; [|done].
            eapply (tok_keeps m1 m'); [exact Hk2|lia..|done]. }
    assert (keeps m m o (align4 e)) as Hkm by (split_and!; [done|apply Hm|done]).
    destruct w as [name| |name val]; simpl in Hw.
    + rewrite (next_tag_complete m o _ _ Hm Ho Hw) by lia. rewrite bind_ret. simpl. by apply Hrest.
    + rewrite (next_tag_complete m o _ _ Hm Ho Hw) by lia. rewrite bind_ret. simpl. by apply Hrest.
    + destruct Hw as (no & Ht & Hn). rewrite (next_tag_complete m o _ _ Hm Ho Ht) by lia. rewrite bind_ret. simpl.
      destruct (fix_prop m N S o no val e) as (m1 & E & Hk1 & Ht1); try done; [lia|].
      destruct Hm as [Hbm Hh Hh17 Htt Hsm Hst]. unfold fdt_offset_ptr_. hdr. rewrite !bind_ret.
      destruct Ht as [_ (_ & Hno & _ & Hee)]. pose proof (slimit_le m). pose proof (vsize_nonneg val).
      assert (prop_data (ver m) o (vsize val) = o + 12) by (unfold prop_data; by rewrite Hv).
      rewrite ld_fdt32_ok by (done || lia). rewrite !bind_ret. rewrite Hno, Hs, E, bind_ret.
      apply Hrest; [done|]. exists (u32 (s32 (s32 no + N))). split; [done|auto].
Qed.
(** The finished blob: blocks in order without gaps, tokens with the names the
    string offsets now stand for. *)
Record finished (m : list Z) (a : sw) (S N : Z) : Prop := {
  fi_bytes : bytes_ok m;
  fi_header : header_ok m;
  fi_total : total m = a_base a + S + 4 + N;
  fi_size : total m <= vsize m /\ total m < INT32_MAX /\ 48 <= vsize m;
  fi_base : sbase m = a_base a /\ 48 <= a_base a /\ 0 <= S /\ 0 <= N;
  fi_limits : slimit m = S + 4 /\ strlimit m = N /\ strbase m = a_base a + S + 4;
  fi_rsv : rsvbase m = 48 /\ bytes_at m 48 (enc_rsv (a_rsv a));
  fi_toks : wtoks_at (string_at m) m 0 (a_toks a) S;
  fi_end : S mod 4 = 0 /\ tok_at m S TEnd (S + 4);
  fi_words : ver m = 17 /\ word m 36 = S + 4 /\ word m 32 = N
}.

(** The moved string table. *)
Lemma moved_name m m4 T N dst no name :
  0 <= N -> T < 2 ^ 31 -> N <= T ->
  (forall j, 0 <= j < N -> vget m4 (dst + j) = vget m (T - N + j)) ->
  name_at m T N no name ->
  let no' := u32 (s32 (s32 no + N)) in
  0 <= no' /\ no' + vsize name + 1 <= N /\ cstr_at m4 (dst + no') name.
Proof.
  intros HN HT HNT Hmove (Hn1 & Hn2 & Hc) no'. pose proof (vsize_nonneg name).
  assert (no' = s32 no + N) as -> by (unfold no'; rewrite swrap_small, uwrap_small by lia; lia).
  split_and!; [lia..|]. destruct Hc as [Hb Hnz]. split; [|done]. intros i Hi.
  rewrite <- Hb by done. rewrite vsize_app in Hi. change (vsize [0]) with 1 in Hi.
  replace (dst + (s32 no + N) + i) with (dst + (s32 no + N + i)) by lia. rewrite Hmove by lia. f_equal. lia.
Qed.

(** The part of [fdt_finish] before the walk. *)
Lemma finish_prepare m a S N :
  sw_inv_at m a S N -> a_base a + S + N + 4 <= a_size a ->
  exists m1 m2 m3 m4,
    fdt_grab_space_ m 4 = Ret (Some (a_base a + S), m1) /\
    store32 m1 (a_base a + S) (cpu_to_fdt32 FDT_END) = Ret m2 /\
    (total m2 = a_size a /\ word m2 32 = N /\ sbase m2 = a_base a /\ word m2 36 = S + 4 /\ bytes_ok m2 /\ vsize m2 = vsize m) /\
    memmove m2 (a_base a + S + 4) (a_size a - N) N = Ret m3 /\
    store32 m3 12 (cpu_to_fdt32 (u32 (a_base a + S + 4))) = Ret m4 /\
    vsize m4 = vsize m /\ bytes_ok m4 /\ word m4 36 = S + 4 /\ strbase m4 = a_base a + S + 4 /\
    (forall i, 0 <= i < 12 \/ 16 <= i < 36 \/ 40 <= i < a_base a + S -> vget m4 i = vget m i) /\
    (forall j, 0 <= j < N -> vget m4 (a_base a + S + 4 + j) = vget m (a_size a - N + j)) /\
    word m4 (a_base a + S) = FDT_END.
Proof.
  intros Hinv Hroom. pose proof Hinv as [Hst Hsb Hfl Hrs Hal Htk].
  pose proof (grab_space_wrote m _ _ _ _ 4 Hst ltac:(lia)) as Hgrab. sw_fields Hst.
  rewrite decide_True in Hgrab by lia. destruct Hgrab as (m1 & E1 & W1). pose proof (wr_size _ _ _ _ W1).
  destruct (store32_wrote m1 (a_base a + S) FDT_END) as (m2 & E2 & W2); [lia..|]. pose proof (wr_size _ _ _ _ W2).
  destruct (read_total m2 (a_size a - N) (Z.to_nat N)) as (bs & E3); [lia..|].
  apply read_inv in E3 as Hbs. destruct Hbs as [Hbl Hbs]. assert (vsize bs = N) as Hvb by (unfold vsize; lia).
  assert (bytes_ok m1) as Hb1 by (by apply W1, be32_ok). assert (bytes_ok m2) as Hb2 by (by apply W2, be32_ok).
  assert (bytes_ok bs) as Hbb.
  { apply Forall_lookup. intros i b Hi. assert (vget bs (Z.of_nat i) = Some b) as Hg by (by rewrite vget_nat).
    rewrite <- Hbs in Hg by (apply lookup_lt_Some in Hi; unfold vsize; lia).
    apply vget_byte_inv in Hg as [_ <-]. by apply byte_range. }
  destruct (write_wrote m2 (a_base a + S + 4) bs) as (m3 & E4 & W3); [lia..|]. pose proof (wr_size _ _ _ _ W3).
  destruct (store32_wrote m3 12 (u32 (a_base a + S + 4))) as (m4 & E5 & W4); [lia..|]. pose proof (wr_size _ _ _ _ W4).
  exists m1, m2, m3, m4. split_and!; try done; try lia.
  - rewrite (wrote_word_other _ _ _ _ _ W2), (wrote_word_other _ _ _ _ _ W1); rewrite ?vsize_be32; done || lia.
  - rewrite (wrote_word_other _ _ _ _ _ W2), (wrote_word_other _ _ _ _ _ W1); rewrite ?vsize_be32; done || lia.
  - rewrite (wrote_word_other _ _ _ _ _ W2), (wrote_word_other _ _ _ _ _ W1); rewrite ?vsize_be32; done || lia.
  - rewrite (wrote_word_other _ _ _ _ _ W2), (wrote_word _ _ _ _ W1) by (rewrite ?vsize_be32; lia). apply uwrap_small; lia.
  - unfold memmove. by rewrite E3, bind_ret.
  - apply W4, be32_ok. by apply W3.
  - rewrite (wrote_word_other _ _ _ _ _ W4), (wrote_word_other _ _ _ _ _ W3), (wrote_word_other _ _ _ _ _ W2),
      (wrote_word _ _ _ _ W1) by (rewrite ?vsize_be32; lia). apply uwrap_small; lia.
  - rewrite (wrote_word _ _ _ _ W4). unfold uwrap. rewrite Z.mod_mod by lia. apply Z.mod_small. lia.
  - intros i Hi. rewrite (wr_same _ _ _ _ W4), (wr_same _ _ _ _ W3), (wr_same _ _ _ _ W2), (wr_same _ _ _ _ W1);
      rewrite ?vsize_be32; done || lia.
  - intros j Hj. rewrite (wr_same _ _ _ _ W4) by (rewrite ?vsize_be32; lia).
    rewrite (wr_at _ _ _ _ W3) by lia. rewrite <- Hbs by lia.
    rewrite (wr_same _ _ _ _ W2), (wr_same _ _ _ _ W1); rewrite ?vsize_be32; done || lia.
  - rewrite (wrote_word_other _ _ _ _ _ W4), (wrote_word_other _ _ _ _ _ W3), (wrote_word _ _ _ _ W2) by (rewrite ?vsize_be32; lia). done.
Qed.

(** The walk of [fdt_finish] over the prepared blob. *)
Lemma finish_fixed m m4 a S N :
  sw_inv_at m a S N -> a_base a + S + N + 4 <= a_size a ->
  vsize m4 = vsize m -> bytes_ok m4 -> word m4 36 = S + 4 -> word m4 (a_base a + S) = FDT_END ->
  (forall i, 0 <= i < 12 \/ 16 <= i < 36 \/ 40 <= i < a_base a + S -> vget m4 i = vget m i) ->
  (forall j, 0 <= j < N -> vget m4 (a_base a + S + 4 + j) = vget m (a_size a - N + j)) ->
  exists m5, finish_loop (Datatypes.S (length m4)) m4 0 = Ret (S + 4, m5) /\ keeps m4 m5 0 S /\
    wtoks_at (fun no name => 0 <= no /\ no + vsize name + 1 <= N /\ cstr_at m4 (a_base a + S + 4 + no) name)
      m5 0 (a_toks a) S.
Proof.
  intros Hinv Hroom Hsz Hb4 H36 Hend Hsame Hmove. pose proof Hinv as [Hst Hsb Hfl Hrs Hal Htk]. sw_fields Hst.
  assert (forall q, 0 <= q -> q + 4 <= 12 \/ 16 <= q -> q + 4 <= 36 -> word m4 q = word m q) as Hw.
  { intros q Hq1 Hq2 Hq3. apply word_agree. intros i Hi. apply Hsame. lia. }
  assert (sbase m4 = a_base a) as Eb by (rewrite Hw by lia; done).
  assert (ver m4 = 17) as Ev by (rewrite Hw by lia; done).
  eapply (finish_loop_ok N S (name_at m (a_size a) N)); try done; try (unfold vsize in *; lia).
  - intros no name Hn. apply (moved_name m m4 (a_size a) N (a_base a + S + 4) no name); try done; lia.
  - split; try done; rewrite ?Eb, ?Ev; try lia.
    + split; rewrite ?Eb, ?Hsz, ?(Hw 4) by lia; unfold FDT_V16_SIZE, FDT_V17_SIZE, INT32_MAX; try done; lia.
    + by rewrite Hw by lia.
    + unfold slimit. rewrite Ev, Eb, H36, (Hw 4) by lia. simpl. lia.
    + split; [|done]. by rewrite Eb.
  - eapply (wtoks_agree _ _ m m4); [by rewrite Eb|by rewrite Ev| |..|exact Htk]; [done|].
    intros i Hi. apply Hsame. rewrite Hbase in Hi. lia.
Qed.

(** The header that closes the blob. *)
Lemma finish_header m4 m5 m6 m7 m8 a S N :
  keeps m4 m5 0 S -> sbase m4 = a_base a -> 48 <= a_base a -> 0 <= S -> 0 <= N -> S mod 4 = 0 ->
  a_base a + S + 4 + N <= vsize m4 -> a_base a + S + 4 + N < INT32_MAX ->
  rsvbase m4 = 48 -> ver m4 = 17 -> word m4 32 = N -> word m4 36 = S + 4 -> strbase m4 = a_base a + S + 4 ->
  word m4 (a_base a + S) = FDT_END -> bytes_at m4 48 (enc_rsv (a_rsv a)) ->
  wtoks_at (fun no name => 0 <= no /\ no + vsize name + 1 <= N /\ cstr_at m4 (a_base a + S + 4 + no) name)
    m5 0 (a_toks a) S ->
  wrote m5 4 (be32 (u32 (a_base a + S + 4 + N))) m6 -> wrote m6 24 (be32 FDT_FIRST_SUPPORTED_VERSION) m7 ->
  wrote m7 0 (be32 FDT_MAGIC) m8 -> finished m8 a S N.
Proof.
  intros Hk Eb Hbase HS HN Hal Hsz Hmax Ersv Ev E32 E36 Estr Eend Hrs Hws W6 W7 W8. unfold INT32_MAX in *.
  pose proof (wr_size _ _ _ _ W6). pose proof (wr_size _ _ _ _ W7). pose proof (wr_size _ _ _ _ W8).
  assert (forall i, 28 <= i -> vget m8 i = vget m5 i) as Hs8.
  { intros i Hi. rewrite (wr_same _ _ _ _ W8), (wr_same _ _ _ _ W7), (wr_same _ _ _ _ W6); rewrite ?vsize_be32; done || lia. }
  assert (forall i, 28 <= i < a_base a \/ a_base a + S <= i -> vget m8 i = vget m4 i) as Hs4.
  { intros i Hi. rewrite Hs8 by lia. apply Hk. rewrite Eb. lia. }
  pose proof (fun q => keeps_word m4 m5 0 S q Hk) as Hw5. rewrite Eb in Hw5.
  assert (forall q, q = 8 \/ q = 12 \/ q = 16 \/ q = 20 \/ 28 <= q -> q + 4 <= a_base a \/ a_base a + S <= q -> word m8 q = word m4 q) as Hw.
  { intros q Hq Hq2. rewrite (wrote_word_other _ _ _ _ _ W8), (wrote_word_other _ _ _ _ _ W7),
      (wrote_word_other _ _ _ _ _ W6); rewrite ?vsize_be32; try lia. apply Hw5. lia. }
  assert (total m8 = a_base a + S + 4 + N) as E4.
  { rewrite (wrote_word_other _ _ _ _ _ W8), (wrote_word_other _ _ _ _ _ W7), (wrote_word _ _ _ _ W6) by (rewrite ?vsize_be32; lia).
    unfold uwrap. rewrite Z.mod_mod by lia. apply Z.mod_small. lia. }
  assert (word m8 24 = 2) as E24.
  { rewrite (wrote_word_other _ _ _ _ _ W8), (wrote_word _ _ _ _ W7) by (rewrite ?vsize_be32; lia). done. }
  assert (word m8 0 = FDT_MAGIC) as E0 by (rewrite (wrote_word _ _ _ _ W8); done).
  assert (sbase m8 = a_base a) as E8 by (rewrite Hw by lia; done).
  assert (strbase m8 = a_base a + S + 4) as E12 by (rewrite Hw by lia; done).
  assert (rsvbase m8 = 48) as E16 by (rewrite Hw by lia; done).
  assert (ver m8 = 17) as E20 by (rewrite Hw by lia; done).
  assert (word m8 32 = N) as E32' by (rewrite Hw by lia; done).
  assert (word m8 36 = S + 4) as E36' by (rewrite Hw by lia; done).
  destruct Hk as (Hv5 & Hb5 & _).
  assert (strlimit m8 = N) as Hsl by (unfold strlimit; rewrite E20, E4, E12, E32'; simpl; lia).
  split.
  - apply W8, be32_ok. apply W7, be32_ok. by apply W6, be32_ok.
  - split; rewrite ?E0, ?E4, ?E8, ?E12, ?E16, ?E20, ?E24, ?E32', ?E36';
      change (fdt_header_size_ 17) with 40; unfold FDT_FIRST_SUPPORTED_VERSION, FDT_LAST_SUPPORTED_VERSION, INT32_MAX; lia || done.
  - done.
  - unfold INT32_MAX. lia.
  - done.
  - split_and!; [|done|done]. unfold slimit. rewrite E20, E4, E8, E36'. simpl. lia.
  - split; [done|]. eapply bytes_at_agree; [|exact Hrs]. intros i Hi. apply Hs4. unfold a_base. lia.
  - eapply (wtoks_agree _ _ m5 m8); [..|exact Hws].
    + rewrite E8. rewrite Hw5 by lia. done.
    + rewrite E20. rewrite Hw5 by lia. done.
    + intros no name (Hn1 & Hn2 & Hn3). split_and!; [done|lia|]. rewrite E12.
      eapply cstr_agree; [|exact Hn3]. intros i Hi. apply Hs4. lia.
    + intros i Hi. apply Hs8. rewrite Hw5 in Hi by lia. lia.
  - split; [done|]. split; [|done]. rewrite E8, Hw by lia. done.
  - done.
Qed.

(** [fdt_finish] *)
Lemma finish_ok m a S N :
  sw_inv_at m a S N ->
  exists err m', fdt_finish m = Ret (err, m') /\
    if decide (a_base a + S + N + 4 <= a_size a)
    then err = 0 /\ finished m' a S N
    else err = - FDT_ERR_NOSPACE /\ m' = m.
Proof.
  intros Hinv. unfold fdt_finish, guarded. rewrite (probe_struct_ok _ _ _ _ Hinv), bind_ret. simpl negb. cbv iota.
  pose proof Hinv as [Hst Hsb Hfl Hrs Hal Htk]. case_decide as Hroom.
  2: { pose proof (grab_space_wrote m _ _ _ _ 4 Hst ltac:(lia)) as Hg. rewrite decide_False in Hg by lia.
       rewrite Hg, bind_ret. by eexists _, _. }
  destruct (finish_prepare m a S N Hinv Hroom) as (m1 & m2 & m3 & m4 & E1 & E2 & (Ht2 & Hn2 & Hbs2 & Hs2 & Hb2 & Hv2)
    & E3 & E4 & Hsz & Hb4 & H36 & Hstr & Hsame & Hmove & Hend).
  sw_fields Hst. rewrite E1, bind_ret, E2, bind_ret. hdr. rewrite !bind_ret, Ht2, Hn2, Hbs2, Hs2.
  rewrite (swrap_small 32 (a_size a - N)), (swrap_small 32 (a_base a + (S + 4))) by lia.
  replace (a_base a + (S + 4)) with (a_base a + S + 4) by lia. unfold fdt_set_off_dt_strings, fdt_set_totalsize,
    fdt_set_last_comp_version, fdt_set_magic. rewrite E3, bind_ret, E4, bind_ret.
  destruct (finish_fixed m m4 a S N) as (m5 & -> & Hk & Hws); try done. rewrite bind_ret.
  destruct (Z.ltb_spec (S + 4) 0); [lia|].
  assert (forall q, 0 <= q -> q + 4 <= 12 \/ 16 <= q -> q + 4 <= 36 -> word m4 q = word m q) as Hw4.
  { intros q Hq1 Hq2 Hq3. apply word_agree. intros i Hi. apply Hsame. lia. }
  assert (sbase m4 = a_base a) as Eb4 by (rewrite Hw4 by lia; done).
  pose proof (fun q => keeps_word m4 m5 0 S q Hk) as Hw5. rewrite Eb4 in Hw5. destruct Hk as (Hv5 & Hb5 & Hsame5).
  hdr. rewrite bind_ret, (Hw5 32), (Hw4 32), Hstrings by lia.
  destruct (store32_wrote m5 4 (u32 (a_base a + S + 4 + N))) as (m6 & -> & W6); [lia..|]. rewrite bind_ret. pose proof (wr_size _ _ _ _ W6).
  destruct (store32_wrote m6 24 FDT_FIRST_SUPPORTED_VERSION) as (m7 & -> & W7); [lia..|]. rewrite bind_ret. pose proof (wr_size _ _ _ _ W7).
  destruct (store32_wrote m7 0 FDT_MAGIC) as (m8 & -> & W8); [lia..|]. rewrite bind_ret. pose proof (wr_size _ _ _ _ W8).
  eexists _, _. split; [done|]. split; [done|].
  eapply (finish_header m4 m5 m6 m7); try done; try lia; try (rewrite Hw4 by lia; done).
  - unfold INT32_MAX. lia.
  - eapply bytes_at_agree; [|exact Hrs]. intros i Hi. apply Hsame. unfold a_base in *. lia.
Qed.
