(* ===== verification/FdtRoundtrip.v ===== *)
(** * libfdt: writing a tree and reading it back

    A device tree as a value ([dtree]) is written by the calls of [fdt_sw.c]
    its shape asks for.  With enough room every call succeeds, the result
    passes [fdt_check_full], and the tree that [FdtTree.items_at] reads in it is
    the one that was written. *)

From stdpp Require Import base option list strings.
From S2P Require Import Prelude.
From S2P Require Import BranchHash.
From S2P Require Import FdtBase.
From S2P Require Import FdtTags.
From S2P Require Import FdtTree.
From S2P Require Import FdtRead.
From S2P Require Import FdtReadFacts.
From S2P Require Import FdtCheck.
From S2P Require Import FdtWrite.
From S2P Require Import FdtWriteFacts.
From S2P Require Import FdtFinish.

(** ** Trees without offsets *)

Inductive dtree : Type :=
| DProp (name val : list Z)
| DNode (name : list Z) (body : list dtree).

(** The calls that write a tree. *)
Fixpoint flatten (t : dtree) : list wtok :=
  match t with
  | DProp name val => [WProp name val]
  | DNode name body => WBegin name :: flat_map flatten body ++ [WEnd]
  end.

Definition flatten_all (ts : list dtree) : list wtok := flat_map flatten ts.

(** A tree as it was read, without its offsets and NOPs. *)
Fixpoint erase (it : item) : list dtree :=
  match it with
  | INop => []
  | IProp _ name val => [DProp name val]
  | INode _ name body => [DNode name (flat_map erase body)]
  end.

Definition erase_all (its : list item) : list dtree := flat_map erase its.

Lemma dtree_nested_ind (P : dtree -> Prop) :
  (forall name val, P (DProp name val)) ->
  (forall name body, Forall P body -> P (DNode name body)) -> forall t, P t.
Proof.
  intros Hprop Hnode. fix IH 1. intros [name val|name body]; [done|].
  apply Hnode. induction body as [|t body IHb]; constructor; [apply IH|done].
Qed.

(** ** The tokens of a tree, read back *)

Section Unflatten.
Context (m : list Z).

Local Notation toks := (wtoks_at (string_at m) m).

(** A prefix of the tokens reads as [ts]. *)
Definition reads (ts : list dtree) (pre : list wtok) : Prop :=
  forall o ws S, toks o (pre ++ ws) S -> S <= slimit m ->
  exists its o1, items_at m o its o1 /\ erase_all its = ts /\ toks o1 ws S.

Lemma reads_nil : reads [] [].
Proof. intros o ws S H _. exists [], o. split_and!; [constructor|done..]. Qed.

Lemma reads_app ts1 ts2 pre1 pre2 :
  reads ts1 pre1 -> reads ts2 pre2 -> reads (ts1 ++ ts2) (pre1 ++ pre2).
Proof.
  intros H1 H2 o ws S H HS. rewrite <- app_assoc in H.
  destruct (H1 _ _ _ H HS) as (its1 & o1 & Hi1 & <- & H').
  destruct (H2 _ _ _ H' HS) as (its2 & o2 & Hi2 & <- & H'').
  exists (its1 ++ its2), o2. split_and!; [by eapply items_at_app| |done].
  unfold erase_all. by rewrite flat_map_app.
Qed.

Lemma tok_in ws S e : toks (align4 e) ws S -> S <= slimit m -> e <= slimit m.
Proof. intros H HS. apply wtoks_mono in H. pose proof (align4_spec e). lia. Qed.

Lemma reads_prop name val : reads [DProp name val] [WProp name val].
Proof.
  intros o ws S (e & Ht & H) HS. pose proof (tok_in _ _ _ H HS) as He.
  destruct Ht as (no & Ht & Hs). exists [IProp o name val], (align4 e).
  split_and!; [|done..]. econstructor; [done..|constructor].
Qed.

Lemma reads_node name body pre :
  reads body pre -> reads [DNode name body] (WBegin name :: pre ++ [WEnd]).
Proof.
  intros Hb o ws S H HS. simpl in H. rewrite <- app_assoc in H.
  destruct H as (e & Ht & H). pose proof (tok_in _ _ _ H HS) as He.
  destruct (Hb _ _ _ H HS) as (its & o1 & Hi & <- & e1 & Ht1 & H1).
  pose proof (tok_in _ _ _ H1 HS) as He1.
  exists [INode o name its], (align4 e1). split_and!; [|done..].
  eapply at_node; [exact Ht|done|exact Hi|exact Ht1|done|constructor].
Qed.

Lemma reads_all ts : Forall (fun t => reads [t] (flatten t)) ts -> reads ts (flatten_all ts).
Proof.
  induction 1 as [|t ts Ht _ IH]; [apply reads_nil|]. apply (reads_app [t] ts); done.
Qed.

Lemma reads_tree t : reads [t] (flatten t).
Proof.
  induction t as [name val|name body IH] using dtree_nested_ind; [apply reads_prop|].
  apply reads_node. by apply reads_all.
Qed.

Lemma unflatten ts o S :
  toks o (flatten_all ts) S -> S <= slimit m -> exists its, items_at m o its S /\ erase_all its = ts.
Proof.
  intros H HS. assert (reads ts (flatten_all ts)) as Hr.
  { apply reads_all, Forall_true. apply reads_tree. }
  destruct (Hr o [] S) as (its & o1 & Hi & He & Heq); [by rewrite app_nil_r|done|].
  simpl in Heq. subst o1. by exists its.
Qed.
End Unflatten.

(** ** The calls *)

Definition run_tok (m : list Z) (w : wtok) : outcome (Z * list Z) :=
  match w with
  | WBegin name => fdt_begin_node m name
  | WEnd => fdt_end_node m
  | WProp name val => fdt_property m name val
  end.

(** A list of calls, up to the first error. *)
Fixpoint run {A} (call : list Z -> A -> outcome (Z * list Z)) (m : list Z) (l : list A)
  : outcome (Z * list Z) :=
  match l with
  | [] => Ret (0, m)
  | x :: l => r ← call m x; let '(err, m) := r in if negb (err =? 0) then Ret (err, m) else run call m l
  end.

Definition run_toks := run run_tok.
Definition run_rsvs := run (fun m (e : Z * Z) => fdt_add_reservemap_entry m e.1 e.2).

(** The next call, when this one succeeded. *)
Definition andthen (r : outcome (Z * list Z)) (k : list Z -> outcome (Z * list Z)) : outcome (Z * list Z) :=
  r ← r; let '(err, m) := r in if negb (err =? 0) then Ret (err, m) else k m.

Definition build (buf : list Z) (bufsize flags : Z) (rs : list (Z * Z)) (ts : list dtree)
  : outcome (Z * list Z) :=
  andthen (fdt_create_with_flags buf bufsize flags) (fun m =>
  andthen (run_rsvs m rs) (fun m =>
  andthen (fdt_finish_reservemap m) (fun m =>
  andthen (run_toks m (flatten_all ts)) fdt_finish))).

(** Names without a zero byte, values of bytes, neither too long. *)
Definition valid_tok (w : wtok) : Prop :=
  match w with
  | WBegin name => valid_str name /\ vsize name < 2 ^ 30
  | WEnd => True
  | WProp name val => valid_str name /\ vsize name < 64 /\ bytes_ok val /\ vsize val < 2 ^ 30
  end.

Definition tok_cost (w : wtok) : Z :=
  match w with
  | WBegin name => 4 + align4 (vsize name + 1)
  | WEnd => 4
  | WProp name val => vsize name + 1 + prop_cost val
  end.

Definition cost (ws : list wtok) : Z := foldr (fun w n => tok_cost w + n) 0 ws.

Lemma cost_nonneg ws : 0 <= cost ws.
Proof.
  induction ws as [|w ws IH]; [done|]. change (cost (w :: ws)) with (tok_cost w + cost ws).
  assert (0 <= tok_cost w); [|lia]. destruct w; simpl; unfold prop_cost, vsize; [|lia|];
    match goal with |- context [align4 ?x] => pose proof (align4_spec x) end; lia.
Qed.

Definition add_toks (a : sw) (ws : list wtok) : sw :=
  {| a_size := a_size a; a_flags := a_flags a; a_rsv := a_rsv a; a_toks := a_toks a ++ ws |}.

Lemma add_toks_cons a w ws : add_toks (add_tok a w) ws = add_toks a (w :: ws).
Proof. unfold add_toks, add_tok. simpl. by rewrite <- app_assoc. Qed.

(** One call in the 'struct' state: the token is appended, or there is no room
    and the tokens are as before. *)
Lemma run_tok_ok m a S N w :
  sw_inv_at m a S N -> valid_tok w -> 64 <= a_base a ->
  exists err m', run_tok m w = Ret (err, m') /\
    ((err = 0 /\ exists S' N', S' + N' <= S + N + tok_cost w /\ sw_inv_at m' (add_tok a w) S' N') \/
     (err = - FDT_ERR_NOSPACE /\ sw_inv_at m' a S N /\ a_size a < a_base a + S + N + tok_cost w)).
Proof.
  intros Hi Hw Hb. destruct w as [name| |name val]; simpl in Hw |- *.
  - destruct Hw as [Hv Hs]. destruct (begin_node_ok m a S N name Hi Hv Hs) as (err & m' & -> & H).
    exists err, m'. split; [done|]. case_decide; destruct H as [-> H].
    + left. split; [done|]. do 2 eexists. split; [|exact H]. lia.
    + right. subst m'. split_and!; [done..|lia].
  - destruct (end_node_ok m a S N Hi) as (err & m' & -> & H).
    exists err, m'. split; [done|]. case_decide; destruct H as [-> H].
    + left. split; [done|]. do 2 eexists. split; [|exact H]. lia.
    + right. subst m'. split_and!; [done..|lia].
  - destruct Hw as (Hv & Hs & Hval & Hl).
    destruct (property_ok m a S N name val Hi Hv ltac:(lia) Hval Hl) as (err & m' & -> & H).
    exists err, m'. split; [done|]. destruct H as [(-> & N' & HN & H)|(-> & H & Hno)].
    + left. split; [done|]. do 2 eexists. split; [|exact H]. lia.
    + right. split_and!; [done..|lia].
Qed.

Lemma run_toks_ok ws : forall m a S N,
  sw_inv_at m a S N -> Forall valid_tok ws -> 64 <= a_base a ->
  a_base a + S + N + cost ws <= a_size a ->
  exists m' S' N', run_toks m ws = Ret (0, m') /\ sw_inv_at m' (add_toks a ws) S' N' /\
    S' + N' <= S + N + cost ws.
Proof.
  induction ws as [|w ws IH]; intros m a S N Hi Hv Hb Hc.
  - exists m, S, N. split_and!; [done| |simpl; lia].
    replace (add_toks a []) with a; [done|]. destruct a. unfold add_toks. simpl. by rewrite app_nil_r.
  - inversion Hv as [|? ? Hw Hws]; subst. change (cost (w :: ws)) with (tok_cost w + cost ws) in *.
    pose proof (cost_nonneg ws) as Hpos.
    destruct (run_tok_ok m a S N w Hi Hw Hb) as (err & m1 & E & [(-> & S1 & N1 & Hle & H1)|(_ & _ & Hno)]); [|lia].
    destruct (IH m1 (add_tok a w) S1 N1 H1 Hws Hb) as (m2 & S2 & N2 & E2 & H2 & Hle2).
    { change (a_base (add_tok a w)) with (a_base a). change (a_size (add_tok a w)) with (a_size a). lia. }
    exists m2, S2, N2. rewrite <- add_toks_cons. split_and!; [|done|lia].
    unfold run_toks in *. cbn [run]. rewrite E. exact E2.
Qed.

(** ** Reservations *)

Definition valid_rsv (e : Z * Z) : Prop := 0 <= e.1 < 2 ^ 64 /\ 0 < e.2 < 2 ^ 64.

Definition add_rsvs (a : sw) (rs : list (Z * Z)) : sw :=
  {| a_size := a_size a; a_flags := a_flags a; a_rsv := a_rsv a ++ rs; a_toks := a_toks a |}.

Lemma vsize_enc_rsv rs : vsize (enc_rsv rs) = 16 * vsize rs.
Proof.
  induction rs as [|e rs IH]; [done|].
  change (enc_rsv (e :: rs)) with ((be64 e.1 ++ be64 e.2) ++ enc_rsv rs).
  rewrite !vsize_app, !vsize_be64, vsize_cons, IH. lia.
Qed.

Lemma run_rsvs_ok rs : forall m a,
  sw_rsv_inv m a -> a_base a + 16 * vsize rs <= a_size a ->
  exists m', run_rsvs m rs = Ret (0, m') /\ sw_rsv_inv m' (add_rsvs a rs).
Proof.
  induction rs as [|[addr size] rs IH]; intros m a Hi Hc.
  - exists m. split; [done|]. replace (add_rsvs a []) with a; [done|].
    destruct a. unfold add_rsvs. simpl. by rewrite app_nil_r.
  - rewrite vsize_cons in Hc. destruct (add_reservemap_ok m a addr size Hi) as (err & m1 & E & H).
    assert (0 <= vsize rs) by (unfold vsize; lia).
    rewrite decide_True in H by lia. destruct H as [-> H1].
    destruct (IH m1 (add_rsv a addr size) H1) as (m2 & E2 & H2).
    { rewrite a_base_add. change (a_size (add_rsv a addr size)) with (a_size a). lia. }
    exists m2. split.
    + unfold run_rsvs in *. cbn [run fst snd]. rewrite E. exact E2.
    + unfold add_rsvs, add_rsv in *. simpl in *. by rewrite <- app_assoc in H2.
Qed.

(** The map as it was written. *)
Lemma enc_rsv_lookup m p rs : forall i e,
  bytes_at m p (enc_rsv rs) -> rs !! i = Some e -> 0 <= e.1 < 2 ^ 64 -> 0 <= e.2 < 2 ^ 64 ->
  dword m (p + 16 * Z.of_nat i) = e.1 /\ dword m (p + 16 * Z.of_nat i + 8) = e.2.
Proof.
  revert p. induction rs as [|e' rs IH]; intros p i e H Hl He1 He2; [done|].
  change (enc_rsv (e' :: rs)) with ((be64 e'.1 ++ be64 e'.2) ++ enc_rsv rs) in H. rewrite !bytes_at_app, !vsize_app, !vsize_be64 in H.
  destruct H as [[Ha Hs] H]. destruct i as [|i]; simpl in Hl.
  - injection Hl as ->. replace (p + 16 * Z.of_nat 0) with p by lia. split; by apply dword_at.
  - destruct (IH (p + (8 + 8)) i e) as [E1 E2]; [done..|].
    replace (p + 16 * Z.of_nat (S i)) with (p + (8 + 8) + 16 * Z.of_nat i) by lia. done.
Qed.

Lemma rsv_lookup_nth (rs : list (Z * Z)) i :
  0 <= i < vsize rs -> exists e, rs !! Z.to_nat i = Some e.
Proof. intros Hi. apply lookup_lt_is_Some. unfold vsize in Hi. lia. Qed.

Section Finished.
Context (m : list Z) (a : sw) (S N : Z) (rs : list (Z * Z)).
Context (Hf : finished m a S N) (Hrs : a_rsv a = rs ++ [(0, 0)]) (Hvalid : Forall valid_rsv rs).
Context (Hsize : vsize m < INT32_MAX).

Lemma finished_complete : complete m.
Proof.
  destruct Hf as [Hb Hh Ht (H1 & H2 & H3) _ _ _ _ _ _]. apply header_complete; [done| |done|done].
  unfold FDT_V17_SIZE. lia.
Qed.

Lemma finished_entry i e :
  rs !! i = Some e ->
  dword m (rsvbase m + 16 * Z.of_nat i) = e.1 /\ dword m (rsvbase m + 16 * Z.of_nat i + 8) = e.2.
Proof.
  intros Hl. destruct Hf as [_ _ _ _ _ _ [-> Hat] _ _ _]. rewrite Hrs in Hat.
  assert (valid_rsv e) as [He1 He2] by (by eapply Forall_lookup_1).
  eapply enc_rsv_lookup; [exact Hat| |done|lia]. by apply lookup_app_l_Some.
Qed.

Lemma finished_rsvmap : rsvmap_at m (vsize rs).
Proof.
  pose proof finished_entry as Hent. destruct Hf as [_ _ Ht (H1 & H2 & H3) (Hb & Hb2 & HS & HN) _ [Hr Hat] _ _ _].
  assert (0 <= vsize rs) by (unfold vsize; lia).
  rewrite Hrs in Hat. unfold rsvmap_at. split_and!; [done| | |].
  - rewrite Ht, Hr. unfold a_base. rewrite Hrs, vsize_enc_rsv, vsize_app, vsize_cons.
    change (vsize (@nil (Z * Z))) with 0. lia.
  - destruct (enc_rsv_lookup m 48 (rs ++ [(0, 0)]) (length rs) (0, 0)) as [_ E]; simpl; [done| |lia..|].
    { by rewrite lookup_app_r, Nat.sub_diag by lia. }
    by rewrite Hr.
  - intros i Hi. destruct (rsv_lookup_nth rs i Hi) as [e He]. destruct (Hent _ _ He) as [_ E].
    rewrite Z2Nat.id in E by lia. rewrite E. assert (valid_rsv e) as [_ ?] by (by eapply Forall_lookup_1). lia.
Qed.

Lemma finished_get_rsv i e :
  rs !! i = Some e -> fdt_get_mem_rsv m (Z.of_nat i) = Ret (inr e).
Proof.
  intros Hl. pose proof finished_complete as Hc. pose proof (finished_entry i e Hl) as [E1 E2].
  pose proof finished_rsvmap as (_ & Hin & _ & _). apply lookup_lt_Some in Hl.
  assert (Z.of_nat i < vsize rs) by (unfold vsize; lia).
  destruct Hf as [Hb _ _ (H1 & H2 & H3) _ _ [Hr _] _ _ _].
  unfold fdt_get_mem_rsv. rewrite ro_probe_complete by done. simpl.
  destruct (Z.ltb_spec (total m) 0); [pose proof (total_nonneg m Hc); lia|].
  rewrite mem_rsv_ok by (done || lia). rewrite decide_True by lia. rewrite bind_ret.
  rewrite !fdt64_ld_ok by (done || lia). rewrite !bind_ret. rewrite E1, E2. by destruct e.
Qed.

Lemma finished_tree ts :
  a_toks a = flatten_all ts -> exists its, tree_at m its /\ erase_all its = ts.
Proof.
  intros Ha. destruct Hf as [_ _ _ _ _ [Hsl _] _ Htoks [_ Hend] _]. rewrite Ha in Htoks.
  destruct (unflatten m ts 0 S Htoks) as (its & Hi & He); [lia|].
  exists its. split; [|done]. exists S, (S + 4). split_and!; [done..|lia].
Qed.
End Finished.

(** ** The whole builder *)

Lemma build_ok buf T flags rs ts :
  bytes_ok buf -> T <= vsize buf -> T < INT32_MAX -> 0 <= flags <= 1 ->
  Forall valid_tok (flatten_all ts) -> 48 + 16 * (vsize rs + 1) + cost (flatten_all ts) + 4 <= T ->
  exists m a S N, build buf T flags rs ts = Ret (0, m) /\ finished m a S N /\
    a_rsv a = rs ++ [(0, 0)] /\ a_toks a = flatten_all ts /\ total m <= T.
Proof.
  intros Hb HT Hmax Hfl Hv Hroom. assert (0 <= vsize rs) by (unfold vsize; lia).
  pose proof (cost_nonneg (flatten_all ts)) as Hpos.
  destruct (create_ok buf T flags) as (m0 & E0 & H0); [done|lia|done|done|].
  set (a0 := {| a_size := T |}) in H0.
  destruct (run_rsvs_ok rs m0 a0 H0) as (m1 & E1 & H1); [change (a_base a0) with 48; change (a_size a0) with T; lia|].
  assert (a_base (add_rsvs a0 rs) = 48 + 16 * vsize rs) as Hbase.
  { unfold a_base. simpl. by rewrite vsize_enc_rsv. }
  destruct (finish_reservemap_ok m1 _ H1) as (err & m2 & E2 & H2).
  rewrite decide_True in H2 by (rewrite Hbase; simpl; lia). destruct H2 as [-> H2].
  set (a2 := add_rsv (add_rsvs a0 rs) 0 0) in H2.
  assert (a_base a2 = 64 + 16 * vsize rs) as Hbase2.
  { unfold a2. rewrite a_base_add, Hbase. lia. }
  destruct (run_toks_ok (flatten_all ts) m2 a2 0 0 H2 Hv) as (m3 & S & N & E3 & H3 & Hle);
    [lia|change (a_size a2) with T; lia|].
  destruct (finish_ok m3 _ S N H3) as (err & m4 & E4 & H4).
  change (a_base (add_toks a2 (flatten_all ts))) with (a_base a2) in H4.
  change (a_size (add_toks a2 (flatten_all ts))) with T in H4.
  rewrite decide_True in H4 by lia. destruct H4 as [-> H4].
  exists m4, (add_toks a2 (flatten_all ts)), S, N. split_and!; [|done..|].
  2: { rewrite (fi_total _ _ _ _ H4). change (a_base (add_toks a2 (flatten_all ts))) with (a_base a2). lia. }
  unfold build, andthen. rewrite E0, bind_ret. cbn [negb Z.eqb].
  rewrite E1, bind_ret. cbn [negb Z.eqb]. rewrite E2, bind_ret. cbn [negb Z.eqb].
  rewrite E3, bind_ret. cbn [negb Z.eqb]. exact E4.
Qed.

(** The map has one length. *)
Lemma rsvmap_unique m n n' : rsvmap_at m n -> rsvmap_at m n' -> n = n'.
Proof.
  intros (H0 & _ & Hz & Hnz) (H0' & _ & Hz' & Hnz'). destruct (Z.lt_total n n') as [Hlt|[|Hlt]]; [|done|].
  - by destruct (Hnz' n ltac:(lia)).
  - by destruct (Hnz n' ltac:(lia)).
Qed.

Lemma finished_num_rsv m a S N rs :
  finished m a S N -> a_rsv a = rs ++ [(0, 0)] -> Forall valid_rsv rs -> vsize m < INT32_MAX ->
  fdt_num_mem_rsv m = Ret (vsize rs).
Proof.
  intros Hf Ha Hrs Hsz. pose proof (finished_complete m a S N Hf Hsz) as Hc.
  pose proof (finished_rsvmap m a S N rs Hf Ha Hrs) as Hmap.
  assert (16 <= total m /\ rsvbase m <= total m) as [H1 H2].
  { destruct Hf as [_ _ _ _ _ _ [Hr _] _ _ _]. destruct Hmap as (H0 & H1 & _). lia. }
  destruct (num_mem_rsv_spec m Hc H1 H2) as [(n & Hn & E)|[_ Hno]]; [|by destruct (Hno _ Hmap)].
  rewrite E. f_equal. by eapply rsvmap_unique.
Qed.
