(* ===== verification/FdtMachine.v ===== *)
(** * libfdt: the sequential writer as a state machine

    [phase] is what the writer promises its caller to remember: the phase, the
    reservations and the tokens so far.  [astep] is the abstract transition of
    each call; [represents] relates a phase to the bytes of the buffer.  Every
    call follows [astep], so the invariant holds in every reachable state.

    Whatever a blob holds, an operation that returns leaves a list of bytes of
    the same length.  [post] is the partial-correctness judgement of the
    [outcome] monad; the proofs follow the shape of the operations. *)

From stdpp Require Import base option list strings.
From S2P Require Import Prelude.
From S2P Require Import BranchHash.
From S2P Require Import FdtBase.
From S2P Require Import FdtTags.
From S2P Require Import FdtRead.
From S2P Require Import FdtReadFacts.
From S2P Require Import FdtCheck.
From S2P Require Import FdtWrite.
From S2P Require Import FdtWriteFacts.
From S2P Require Import FdtFinish.
From S2P Require Import FdtRoundtrip.

(** ** Calls *)

Inductive swop : Type :=
| OpReserve (addr size : Z)
| OpFinishReservemap
| OpTok (w : wtok)
| OpFinish.

Definition sw_call (m : list Z) (op : swop) : outcome (Z * list Z) :=
  match op with
  | OpReserve addr size => fdt_add_reservemap_entry m addr size
  | OpFinishReservemap => fdt_finish_reservemap m
  | OpTok w => run_tok m w
  | OpFinish => fdt_finish m
  end.

Definition valid_op (op : swop) : Prop :=
  match op with OpTok w => valid_tok w | _ => True end.

(** ** The abstract machine *)

Inductive phase : Type :=
| PReserve (a : sw)
| PStruct (a : sw)
| PDone (a : sw).

Inductive astep : phase -> swop -> Z -> phase -> Prop :=
| step_reserve a addr size : astep (PReserve a) (OpReserve addr size) 0 (PReserve (add_rsv a addr size))
| step_struct a : astep (PReserve a) OpFinishReservemap 0 (PStruct (add_rsv a 0 0))
| step_tok a w : astep (PStruct a) (OpTok w) 0 (PStruct (add_tok a w))
| step_finish a : astep (PStruct a) OpFinish 0 (PDone a)
| step_reserve_full a addr size : astep (PReserve a) (OpReserve addr size) (- FDT_ERR_NOSPACE) (PReserve a)
| step_struct_full a : astep (PReserve a) OpFinishReservemap (- FDT_ERR_NOSPACE) (PReserve a)
| step_tok_full a w : astep (PStruct a) (OpTok w) (- FDT_ERR_NOSPACE) (PStruct a)
| step_finish_full a : astep (PStruct a) OpFinish (- FDT_ERR_NOSPACE) (PStruct a)
| step_too_early a op : (exists w, op = OpTok w) \/ op = OpFinish ->
    astep (PReserve a) op (- FDT_ERR_BADSTATE) (PReserve a)
| step_too_late a op : (exists addr size, op = OpReserve addr size) \/ op = OpFinishReservemap ->
    astep (PStruct a) op (- FDT_ERR_BADSTATE) (PStruct a)
| step_done a op : astep (PDone a) op (- FDT_ERR_BADSTATE) (PDone a).

(** The bytes that stand for a phase. *)
Definition represents (m : list Z) (s : phase) : Prop :=
  match s with
  | PReserve a => sw_rsv_inv m a
  | PStruct a => sw_inv m a /\ 64 <= a_base a
  | PDone a => exists S N, finished m a S N
  end.

(** ** Calls that are refused *)

(** A call whose first guard refuses it. *)
Lemma call_refused m op err :
  valid_op op -> err <> 0 ->
  match op with
  | OpReserve _ _ | OpFinishReservemap => fdt_sw_probe_memrsv_ m
  | _ => fdt_sw_probe_struct_ m
  end = Ret err ->
  sw_call m op = Ret (err, m).
Proof.
  intros Hv He%Z.eqb_neq Hp. destruct op as [addr size| |[name| |name val]|]; simpl in Hv |- *.
  - unfold fdt_add_reservemap_entry, guarded. rewrite Hp, bind_ret. by rewrite He.
  - unfold fdt_finish_reservemap, fdt_add_reservemap_entry, guarded. rewrite Hp, bind_ret.
    rewrite He. cbn [negb]. rewrite bind_ret. by rewrite He.
  - unfold fdt_begin_node, guarded. rewrite Hp, bind_ret. by rewrite He.
  - unfold fdt_end_node, guarded. rewrite Hp, bind_ret. by rewrite He.
  - destruct Hv as (_ & _ & _ & Hl). pose proof (vsize_nonneg val). unfold fdt_property, fdt_property_placeholder.
    rewrite int_chk_ok by lia. rewrite bind_ret, Hp, bind_ret, He. done.
  - unfold fdt_finish, guarded. rewrite Hp, bind_ret. by rewrite He.
Qed.

Section Probes.
Context (m : list Z) (Hb : bytes_ok m) (Hs : FDT_V17_SIZE <= vsize m).

Lemma sw_probe_value :
  fdt_sw_probe_ m
  = Ret (if word m 0 =? FDT_MAGIC then - FDT_ERR_BADSTATE
         else if word m 0 =? FDT_SW_MAGIC then 0 else - FDT_ERR_BADMAGIC).
Proof.
  unfold fdt_sw_probe_. hdr. rewrite bind_ret. destruct (word m 0 =? FDT_MAGIC); [done|].
  by destruct (word m 0 =? FDT_SW_MAGIC).
Qed.

(** Not a blob under construction. *)
Lemma call_wrong_magic op :
  valid_op op -> word m 0 <> FDT_SW_MAGIC ->
  sw_call m op = Ret (if word m 0 =? FDT_MAGIC then - FDT_ERR_BADSTATE else - FDT_ERR_BADMAGIC, m).
Proof.
  intros Hv Hm. pose proof sw_probe_value as E. destruct (Z.eqb_spec (word m 0) FDT_SW_MAGIC); [done|].
  apply call_refused; [done|by destruct (word m 0 =? FDT_MAGIC)|].
  destruct op; unfold fdt_sw_probe_memrsv_, fdt_sw_probe_struct_; rewrite E, bind_ret;
    by destruct (word m 0 =? FDT_MAGIC).
Qed.

Lemma sw_probe_building : word m 0 = FDT_SW_MAGIC -> fdt_sw_probe_ m = Ret 0.
Proof. intros E. by rewrite sw_probe_value, E. Qed.

Lemma probe_memrsv_value :
  word m 0 = FDT_SW_MAGIC ->
  fdt_sw_probe_memrsv_ m = Ret (if strbase m =? 0 then 0 else - FDT_ERR_BADSTATE).
Proof.
  intros E. unfold fdt_sw_probe_memrsv_. rewrite (sw_probe_building E), bind_ret. simpl.
  hdr. rewrite bind_ret. by destruct (strbase m =? 0).
Qed.

Lemma probe_struct_value :
  word m 0 = FDT_SW_MAGIC ->
  fdt_sw_probe_struct_ m = Ret (if strbase m =? total m then 0 else - FDT_ERR_BADSTATE).
Proof.
  intros E. unfold fdt_sw_probe_struct_. rewrite (sw_probe_building E), bind_ret. simpl.
  hdr. rewrite !bind_ret. by destruct (strbase m =? total m).
Qed.
End Probes.

(** ** Every call follows the abstract machine *)

Lemma refine_reserve m a op :
  sw_rsv_inv m a -> valid_op op ->
  exists err m' s', sw_call m op = Ret (err, m') /\ astep (PReserve a) op err s' /\ represents m' s'.
Proof.
  intros Hi Hv. assert (0 <= vsize (enc_rsv (a_rsv a))) as Hpos by (unfold vsize; lia).
  assert (forall op, valid_op op -> (exists w, op = OpTok w) \/ op = OpFinish -> sw_call m op = Ret (- FDT_ERR_BADSTATE, m)) as Hearly.
  { intros op' Hv' Hop. destruct Hi as [[Hb Ht Hsz Hmg Hbase _ _ _ _ Hl] Hst _ _ _]. apply call_refused; [done..|].
    assert (fdt_sw_probe_struct_ m = Ret (- FDT_ERR_BADSTATE)) as E.
    { rewrite probe_struct_value by (unfold FDT_V17_SIZE; done || lia). rewrite Hst, Ht.
      destruct (Z.eqb_spec 0 (a_size a)); [unfold a_base in *; lia|done]. }
    by destruct Hop as [[w ->]| ->]. }
  destruct op as [addr size| |w|].
  - destruct (add_reservemap_ok m a addr size Hi) as (err & m' & E & H). exists err, m'.
    case_decide; destruct H as [-> H]; eexists; (split_and!; [exact E|constructor|]); [done|by rewrite H].
  - destruct (finish_reservemap_ok m a Hi) as (err & m' & E & H). exists err, m'.
    case_decide; destruct H as [-> H]; eexists; (split_and!; [exact E|constructor|]); [|by rewrite H].
    split; [by exists 0, 0|]. rewrite a_base_add. unfold a_base. lia.
  - exists (- FDT_ERR_BADSTATE), m, (PReserve a). split_and!; [apply Hearly; eauto|apply step_too_early; eauto|done].
  - exists (- FDT_ERR_BADSTATE), m, (PReserve a). split_and!; [apply Hearly; eauto|apply step_too_early; eauto|done].
Qed.

Lemma refine_struct m a op :
  sw_inv m a -> 64 <= a_base a -> valid_op op ->
  exists err m' s', sw_call m op = Ret (err, m') /\ astep (PStruct a) op err s' /\ represents m' s'.
Proof.
  intros [S [N Hi]] Hbase Hv.
  assert (forall op, valid_op op -> (exists addr size, op = OpReserve addr size) \/ op = OpFinishReservemap ->
    sw_call m op = Ret (- FDT_ERR_BADSTATE, m)) as Hlate.
  { intros op' Hv' Hop. destruct Hi as [[Hb Ht Hsz Hmg _ _ _ _ _ Hl] Hst _ _ _ _]. apply call_refused; [done..|].
    assert (fdt_sw_probe_memrsv_ m = Ret (- FDT_ERR_BADSTATE)) as E.
    { rewrite probe_memrsv_value by (unfold FDT_V17_SIZE; done || lia). rewrite Hst.
      destruct (Z.eqb_spec (a_size a) 0); [lia|done]. }
    by destruct Hop as [(addr & size & ->)| ->]. }
  destruct op as [addr size| |w|].
  - exists (- FDT_ERR_BADSTATE), m, (PStruct a). split_and!; [apply Hlate; eauto|apply step_too_late; eauto|split; [by exists S, N|done]].
  - exists (- FDT_ERR_BADSTATE), m, (PStruct a). split_and!; [apply Hlate; eauto|apply step_too_late; eauto|split; [by exists S, N|done]].
  - destruct (run_tok_ok m a S N w Hi Hv Hbase) as (err & m' & E & [(-> & S' & N' & _ & H)|(-> & H & _)]).
    + exists 0, m', (PStruct (add_tok a w)). split_and!; [done|constructor|split; [by exists S', N'|done]].
    + exists (- FDT_ERR_NOSPACE), m', (PStruct a). split_and!; [done|constructor|split; [by exists S, N|done]].
  - destruct (finish_ok m a S N Hi) as (err & m' & E & H). exists err, m'. case_decide; destruct H as [-> H].
    + exists (PDone a). split_and!; [done|constructor|by exists S, N].
    + exists (PStruct a). split_and!; [done|constructor|split; [subst m'; by exists S, N|done]].
Qed.

Lemma refine_done m a op :
  represents m (PDone a) -> valid_op op ->
  exists err m' s', sw_call m op = Ret (err, m') /\ astep (PDone a) op err s' /\ represents m' s'.
Proof.
  intros Hr Hv. exists (- FDT_ERR_BADSTATE), m, (PDone a). split_and!; [|constructor|done].
  destruct Hr as (S & N & [Hb Hh _ (_ & _ & Hs) _ _ _ _ _]). destruct Hh as [Hmg _ _ _ _ _ _ _].
  rewrite call_wrong_magic by (unfold FDT_V17_SIZE; done || lia || by rewrite Hmg). by rewrite Hmg.
Qed.

Lemma refine_call m s op :
  represents m s -> valid_op op ->
  exists err m' s', sw_call m op = Ret (err, m') /\ astep s op err s' /\ represents m' s'.
Proof.
  destruct s as [a|a|a]; [apply refine_reserve|intros []; by apply refine_struct|apply refine_done].
Qed.

(** ** Reachable buffers *)

(** The buffers a sequence of calls makes, errors ignored. *)
Inductive sw_reach (buf : list Z) (T flags : Z) : list Z -> Prop :=
| reach_create m : fdt_create_with_flags buf T flags = Ret (0, m) -> sw_reach buf T flags m
| reach_call m op err m' :
    sw_reach buf T flags m -> valid_op op -> sw_call m op = Ret (err, m') -> sw_reach buf T flags m'.

Definition phase_sw (s : phase) : sw := match s with PReserve a | PStruct a | PDone a => a end.

Lemma astep_size s op err s' : astep s op err s' -> a_size (phase_sw s') = a_size (phase_sw s).
Proof. by destruct 1. Qed.

Lemma sw_reach_inv buf T flags m :
  bytes_ok buf -> 48 <= T <= vsize buf -> T < INT32_MAX -> 0 <= flags <= 1 ->
  sw_reach buf T flags m -> exists s, represents m s /\ a_size (phase_sw s) = T.
Proof.
  intros Hb HT Hmax Hfl. induction 1 as [m E|m op err m' _ (s & Hr & Hsz) Hv E].
  - destruct (create_ok buf T flags Hb HT Hmax Hfl) as (m1 & E1 & H1). rewrite E in E1. injection E1 as <-.
    exists (PReserve {| a_size := T; a_flags := flags; a_rsv := []; a_toks := [] |}). done.
  - destruct (refine_call m s op Hr Hv) as (err1 & m1 & s1 & E1 & Hst & Hr1). rewrite E in E1.
    injection E1 as <- <-. exists s1. split; [done|]. by rewrite (astep_size _ _ _ _ Hst).
Qed.

Create HintDb fdt_typed.

(** ** Postconditions *)

Definition post {A} (r : outcome A) (P : A -> Prop) : Prop := forall x, r = Ret x -> P x.

Section Post.
Context {A B : Type}.

Lemma post_ret (a : A) (P : A -> Prop) : P a -> post (Ret a) P.
Proof. by intros HP x [= <-]. Qed.

Lemma post_undef (P : A -> Prop) : post Undef P.
Proof. done. Qed.

Lemma post_fuel (P : A -> Prop) : post Fuel P.
Proof. done. Qed.

Lemma post_bind (r : outcome A) (k : A -> outcome B) P Q :
  post r P -> (forall x, P x -> post (k x) Q) -> post (r ≫= k) Q.
Proof. intros Hr Hk y Hy. apply bind_Ret_inv in Hy as (x & E & Hy). by eapply Hk; [apply Hr|]. Qed.

Lemma post_any (r : outcome A) (k : A -> outcome B) Q :
  (forall x, post (k x) Q) -> post (r ≫= k) Q.
Proof. intros Hk. eapply (post_bind _ _ (fun _ => True)); [done|auto]. Qed.
End Post.

(** ** Buffers of the same size *)

Record like (m m' : list Z) : Prop := {
  like_bytes : bytes_ok m';
  like_size : length m' = length m
}.

Lemma like_refl m : bytes_ok m -> like m m.
Proof. done. Qed.

Lemma like_ok m m' : like m m' -> bytes_ok m'.
Proof. by intros []. Qed.

(** The blob is the result, or the last component of it. *)
Notation writes m0 r := (post r (like m0)).
Notation yields m0 r := (post r (fun x => like m0 x.2)).

(** Walks over the operation: calls with a lemma keep [like m0], the values of
    the other calls do not matter. *)
Ltac typed_step :=
  match goal with
  | |- post (Ret _) _ => apply post_ret; cbn [fst snd]
  | |- post Undef _ => apply post_undef
  | |- post Fuel _ => apply post_fuel
  | |- post (_ ≫= _) _ => first [eapply post_bind; [solve [eauto with fdt_typed]|intros] | apply post_any; intros]
  | |- post (if ?b then _ else _) _ => destruct b
  | |- post (match ?x with _ => _ end) _ => destruct x
  | |- post _ _ => solve [eauto with fdt_typed]
  end.

Ltac typed := repeat (typed_step; cbn [fst snd] in *); eauto with fdt_typed.

Section Buffers.
Context (m0 : list Z).

Lemma st8_like m p v : like m0 m -> is_byte v -> writes m0 (st8 m p v).
Proof.
  intros [Hm Hl] Hv m' E. unfold st8, vset in E.
  destruct ((0 <=? p) && (p <? Z.of_nat (length m))); [|discriminate].
  injection E as <-. split; [by apply Forall_insert|by rewrite length_insert].
Qed.

Lemma EXTRACT_byte x n : is_byte (EXTRACT_BYTE x n).
Proof.
  unfold EXTRACT_BYTE, is_byte. change 0xff with (Z.ones 8). rewrite Z.land_ones by lia.
  apply Z.mod_pos_bound. lia.
Qed.

#[local] Hint Resolve st8_like EXTRACT_byte : fdt_typed.

Lemma store32_like m p x : like m0 m -> writes m0 (store32 m p x).
Proof. intros. unfold store32. typed. Qed.

Lemma store64_like m p x : like m0 m -> writes m0 (store64 m p x).
Proof. intros. unfold store64. typed. Qed.

Lemma write_like bs : forall m p, like m0 m -> bytes_ok bs -> writes m0 (write m p bs).
Proof.
  induction bs as [|b bs IH]; intros m p Hm Hbs; simpl; [typed|].
  inversion Hbs; subst. typed.
Qed.

Lemma read_bytes n : forall m p, bytes_ok m -> post (read m p n) bytes_ok.
Proof.
  induction n as [|n IH]; intros m p Hm; simpl; [apply post_ret; constructor|].
  eapply (post_bind _ _ is_byte).
  - intros b E. unfold ld8, vget in E. destruct (p <? 0); [done|].
    destruct (m !! Z.to_nat p) eqn:Hb; [|done]. injection E as <-. by eapply Forall_lookup_1.
  - intros b Hb. eapply post_bind; [by apply IH|]. intros bs Hbs. apply post_ret. by constructor.
Qed.

Lemma memmove_like m dst src n : like m0 m -> writes m0 (memmove m dst src n).
Proof.
  intros Hm. unfold memmove. eapply post_bind; [by eapply read_bytes, like_ok|].
  intros bs Hbs. by apply write_like.
Qed.

Lemma memset_like m p c n : like m0 m -> is_byte c -> writes m0 (memset m p c n).
Proof. intros. apply write_like; [done|]. by apply Forall_replicate. Qed.
End Buffers.

#[export] Hint Resolve store32_like store64_like write_like memmove_like memset_like : fdt_typed.
#[export] Hint Unfold fdt_set_magic fdt_set_totalsize fdt_set_off_dt_struct fdt_set_off_dt_strings
  fdt_set_off_mem_rsvmap fdt_set_version fdt_set_last_comp_version fdt_set_size_dt_strings
  fdt_set_size_dt_struct : fdt_typed.

(** ** The operations *)

Section Operations.
Context (m0 : list Z).

Lemma guarded_like probe m k : like m0 m -> yields m0 k -> yields m0 (guarded probe m k).
Proof. intros. unfold guarded. typed. Qed.

Lemma grab_space_like m len : like m0 m -> yields m0 (fdt_grab_space_ m len).
Proof. intros. unfold fdt_grab_space_. typed. Qed.

#[local] Hint Resolve guarded_like grab_space_like : fdt_typed.

Lemma zero_byte : is_byte 0.
Proof. unfold is_byte. lia. Qed.

#[local] Hint Resolve zero_byte : fdt_typed.

Lemma create_like m bufsize flags : like m0 m -> yields m0 (fdt_create_with_flags m bufsize flags).
Proof. intros. unfold fdt_create_with_flags. typed. Qed.

Lemma resize_like m buf bufsize : bytes_ok m -> like m0 buf -> yields m0 (fdt_resize m buf bufsize).
Proof.
  intros Hm Hbuf. unfold fdt_resize. apply guarded_like; [done|]. do 4 (apply post_any; intros).
  typed_step; [typed|]. typed_step; [typed|].
  eapply post_bind; [by apply read_bytes|intros hd Hhd]. eapply post_bind; [by apply read_bytes|intros tl Htl].
  typed.
Qed.

Lemma add_reservemap_like m addr size : like m0 m -> yields m0 (fdt_add_reservemap_entry m addr size).
Proof. intros. apply guarded_like; [done|]. typed. Qed.

#[local] Hint Resolve add_reservemap_like : fdt_typed.

Lemma finish_reservemap_like m : like m0 m -> yields m0 (fdt_finish_reservemap m).
Proof. intros. unfold fdt_finish_reservemap. typed. Qed.

Lemma cstring_bytes s : bytes_ok s -> bytes_ok (s ++ [0]).
Proof. intros Hs. apply Forall_app. split; [done|]. repeat constructor; done. Qed.

Lemma begin_node_like m name : like m0 m -> bytes_ok name -> yields m0 (fdt_begin_node m name).
Proof.
  intros Hm Hn%cstring_bytes. apply guarded_like; [done|]. typed.
Qed.

Lemma end_node_like m : like m0 m -> yields m0 (fdt_end_node m).
Proof. intros. apply guarded_like; [done|]. typed. Qed.

Lemma add_string_like m s : like m0 m -> bytes_ok s -> yields m0 (fdt_add_string_ m s).
Proof. intros Hm Hs%cstring_bytes. unfold fdt_add_string_. typed. Qed.

Lemma del_last_string_like m s : like m0 m -> writes m0 (fdt_del_last_string_ m s).
Proof. intros. unfold fdt_del_last_string_. typed. Qed.

#[local] Hint Resolve add_string_like del_last_string_like : fdt_typed.

Lemma find_add_string_like m s : like m0 m -> bytes_ok s -> yields m0 (fdt_find_add_string_ m s).
Proof. intros. unfold fdt_find_add_string_. typed. Qed.

#[local] Hint Resolve find_add_string_like : fdt_typed.

Lemma placeholder_like m name len :
  like m0 m -> bytes_ok name -> yields m0 (fdt_property_placeholder m name len).
Proof.
  intros Hm Hn. unfold fdt_property_placeholder. typed_step. typed_step; [typed|]. typed_step.
  eapply (post_bind _ _ (fun x => like m0 x.2)); [typed|]. intros. typed.
Qed.

#[local] Hint Resolve placeholder_like : fdt_typed.

Lemma property_like m name val :
  like m0 m -> bytes_ok name -> bytes_ok val -> yields m0 (fdt_property m name val).
Proof. intros. unfold fdt_property. typed. Qed.

Lemma finish_loop_like fuel : forall m o, like m0 m -> yields m0 (finish_loop fuel m o).
Proof. induction fuel; intros; simpl; typed. Qed.

#[local] Hint Resolve finish_loop_like : fdt_typed.

Lemma finish_like m : like m0 m -> yields m0 (fdt_finish m).
Proof. intros. apply guarded_like; [done|]. typed. Qed.

(** [fdt_wip.c] *)
Lemma inplace_partial_like m o name idx val :
  like m0 m -> bytes_ok val -> yields m0 (fdt_setprop_inplace_namelen_partial m o name idx val).
Proof. intros. unfold fdt_setprop_inplace_namelen_partial. typed. Qed.

#[local] Hint Resolve inplace_partial_like : fdt_typed.

Lemma setprop_inplace_like m o name val :
  like m0 m -> bytes_ok val -> yields m0 (fdt_setprop_inplace m o name val).
Proof. intros. unfold fdt_setprop_inplace. typed. Qed.

Lemma nop_region_like n : forall m p, like m0 m -> writes m0 (nop_region_loop n m p).
Proof. induction n; intros; simpl; typed. Qed.

#[local] Hint Resolve nop_region_like : fdt_typed.
#[local] Hint Unfold fdt_nop_region_ : fdt_typed.

Lemma nop_property_like m o name : like m0 m -> yields m0 (fdt_nop_property m o name).
Proof. intros. unfold fdt_nop_property. typed. Qed.

Lemma nop_node_like m o : like m0 m -> yields m0 (fdt_nop_node m o).
Proof. intros. unfold fdt_nop_node. typed. Qed.
End Operations.
