(* ===== verification/FdtInplace.v ===== *)
(** * libfdt: what an in-place change does to the tree

    A tree with a hole ([ctx]) locates a stretch of the structure block.  A
    change of the bytes of that stretch that leaves items of the same extent
    changes the tree in the hole only ([splice]); the operations of [fdt_wip.c]
    are instances. *)

From stdpp Require Import base option list strings.
From S2P Require Import Prelude.
From S2P Require Import BranchHash.
From S2P Require Import FdtBase.
From S2P Require Import FdtTags.
From S2P Require Import FdtTree.
From S2P Require Import FdtRead.
From S2P Require Import FdtReadFacts.
From S2P Require Import FdtCheck.
From S2P Require Import FdtWrite.
From S2P Require Import FdtWriteFacts.

Lemma prop_data_range v o len : o + 12 <= prop_data v o len <= o + 16.
Proof. unfold prop_data. destruct (_ && _); lia. Qed.

(** ** Trees with a hole *)

Inductive ctx : Type :=
| Here (before after : list item)
| Inside (before : list item) (off : Z) (name : list Z) (c : ctx) (after : list item).

Fixpoint plug (c : ctx) (its : list item) : list item :=
  match c with
  | Here before after => before ++ its ++ after
  | Inside before off name c after => before ++ INode off name (plug c its) :: after
  end.

Lemma items_at_app_inv m its its' : forall o o',
  items_at m o (its ++ its') o' -> exists o1, items_at m o its o1 /\ items_at m o1 its' o'.
Proof.
  induction its as [|it its IH]; intros o o' H; [exists o; split; [constructor|done]|].
  simpl in H. inversion H; subst;
    match goal with H : items_at m _ (its ++ its') _ |- _ => destruct (IH _ _ H) as (o1' & Hl & Hr) end;
    exists o1'; (split; [|done]); econstructor; eauto.
Qed.

(** The structure block lies behind the header and before the strings. *)
Record separated (m : list Z) : Prop := {
  sep_header : FDT_V17_SIZE <= sbase m;
  sep_strings : sbase m + slimit m <= strbase m
}.

(** [m'] differs from [m] between [p] and [q] of the structure block at most. *)
Record differs (m m' : list Z) (p q : Z) : Prop := {
  df_bytes : bytes_ok m';
  df_size : vsize m' = vsize m;
  df_same : forall i, ~ (sbase m + p <= i < sbase m + q) -> vget m' i = vget m i
}.

Lemma word_same m m' a : (forall i, a <= i < a + 4 -> vget m' i = vget m i) -> word m' a = word m a.
Proof. intros H. unfold word, byte. by rewrite !H by lia. Qed.

Section Differs.
Context (m m' : list Z) (p q : Z) (Hsep : separated m) (Hp : 0 <= p) (Hq : q <= slimit m).
Context (Hd : differs m m' p q).

Lemma differs_header a : a + 4 <= 40 -> word m' a = word m a.
Proof.
  intros Ha. destruct Hsep as [Hh _], Hd as [_ _ Hs]. apply word_same. intros i Hi. apply Hs.
  unfold FDT_V17_SIZE in Hh. lia.
Qed.

Lemma differs_slimit : slimit m' = slimit m.
Proof. unfold slimit. by rewrite !differs_header by lia. Qed.

Lemma differs_string no name : string_at m no name -> string_at m' no name.
Proof.
  intros (H1 & H2 & H3). unfold string_at, strlimit in *. rewrite !differs_header by lia.
  split_and!; [done..|]. eapply cstr_agree; [|exact H3]. intros i Hi.
  destruct Hsep, Hd as [_ _ Hs]. apply Hs. lia.
Qed.

Lemma differs_tok o t e : tok_at m o t e -> e <= p \/ q <= o -> tok_at m' o t e.
Proof.
  intros Ht Ho. eapply tok_agree; [by apply differs_header; lia| |  |exact Ht].
  - by apply differs_header; lia.
  - intros i Hi. destruct Hd as [_ _ Hs]. apply Hs. lia.
Qed.

(** Items outside the changed stretch stay. *)
Lemma differs_items o its o' : items_at m o its o' -> o' <= p \/ q <= o -> items_at m' o its o'.
Proof.
  induction 1 as [o|o e its o' Ht He Hits IH|o no nm val e its o' Ht He Hstr Hits IH
    |o name e body o1 e1 its o' Ht He Hbody IHb Ht1 He1 Hits IH]; intros Ho.
  - constructor.
  - pose proof (tok_at_len _ _ _ _ Ht). pose proof (align4_spec e). pose proof (items_at_mono _ _ _ _ Hits).
    eapply at_nop; [by apply differs_tok; [exact Ht|lia]|by rewrite differs_slimit|apply IH; lia].
  - pose proof (tok_at_len _ _ _ _ Ht). pose proof (align4_spec e). pose proof (items_at_mono _ _ _ _ Hits).
    eapply at_prop; [by apply differs_tok; [exact Ht|lia]|by rewrite differs_slimit|by apply differs_string|apply IH; lia].
  - pose proof (tok_at_len _ _ _ _ Ht). pose proof (align4_spec e). pose proof (items_at_mono _ _ _ _ Hits).
    pose proof (tok_at_len _ _ _ _ Ht1). pose proof (align4_spec e1). pose proof (items_at_mono _ _ _ _ Hbody).
    eapply at_node; [by apply differs_tok; [exact Ht|lia]|by rewrite differs_slimit|apply IHb; lia
      |by apply differs_tok; [exact Ht1|lia]|by rewrite differs_slimit|apply IH; lia].
Qed.
End Differs.

(** The stretch in the hole, and what a change of it does. *)
Lemma splice m c its : separated m -> forall o o',
  0 <= o -> o' <= slimit m -> items_at m o (plug c its) o' ->
  exists p q, o <= p /\ q <= o' /\ (o mod 4 = 0 -> p mod 4 = 0) /\ items_at m p its q /\
    forall m' its', differs m m' p q -> items_at m' p its' q -> items_at m' o (plug c its') o'.
Proof.
  intros Hsep. induction c as [before after|before off name c IH after]; intros o o' Ho Ho' H; simpl in H |- *.
  - apply items_at_app_inv in H as (p & Hb & H). apply items_at_app_inv in H as (q & Hi & Ha).
    pose proof (items_at_mono _ _ _ _ Hb). pose proof (items_at_mono _ _ _ _ Hi). pose proof (items_at_mono _ _ _ _ Ha).
    exists p, q. split_and!; [done..|intros Ha4; apply (visits_ok _ _ _ _ Hb None); lia|done|]. intros m' its' Hd H'.
    eapply items_at_app; [eapply (differs_items _ _ p q); try done; lia|].
    eapply items_at_app; [done|eapply (differs_items _ _ p q); try done; lia].
  - apply items_at_app_inv in H as (o1 & Hb & H). pose proof (items_at_mono _ _ _ _ Hb).
    inversion H as [| | |? ? e ? o2 e1 ? ? Ht He Hbody Ht1 He1 Ha]; subst.
    pose proof (tok_at_len _ _ _ _ Ht). pose proof (align4_spec e). pose proof (items_at_mono _ _ _ _ Ha).
    pose proof (tok_at_len _ _ _ _ Ht1). pose proof (align4_spec e1). pose proof (items_at_mono _ _ _ _ Hbody).
    destruct (IH (align4 e) o2) as (p & q & Hp & Hq & Hal & Hi & Hsp); [lia..|done|].
    pose proof (items_at_mono _ _ _ _ Hi).
    exists p, q. split_and!; [lia|lia|intros _; apply Hal, align4_spec|done|]. intros m' its' Hd H'.
    eapply items_at_app; [eapply (differs_items _ _ p q); try done; lia|].
    assert (0 <= p) as Hp0 by lia. assert (q <= slimit m) as Hq0 by lia.
    pose proof (differs_tok m m' p q Hsep Hp0 Hd) as Htok.
    eapply at_node; [by apply Htok; [exact Ht|lia]|by erewrite differs_slimit|by apply Hsp
      |by apply Htok; [exact Ht1|lia]|by erewrite differs_slimit|by eapply (differs_items m m' p q); [..|lia]].
Qed.

(** A hole inside a hole. *)
Fixpoint nest (c c' : ctx) : ctx :=
  match c with
  | Here before after =>
      match c' with
      | Here b a => Here (before ++ b) (a ++ after)
      | Inside b off name c' a => Inside (before ++ b) off name c' (a ++ after)
      end
  | Inside before off name c after => Inside before off name (nest c c') after
  end.

Lemma plug_nest c c' its : plug (nest c c') its = plug c (plug c' its).
Proof.
  induction c as [before after|before off name c IH after]; simpl; [|by rewrite IH].
  destruct c'; simpl; by rewrite <- ?app_assoc.
Qed.

(** The hole in the body of a node. *)
Definition in_node (c : ctx) (o : Z) (name : list Z) (before after : list item) : ctx :=
  nest c (Inside [] o name (Here before after) []).

Lemma plug_in_node c o name before after its :
  plug (in_node c o name before after) its = plug c [INode o name (before ++ its ++ after)].
Proof. unfold in_node. by rewrite plug_nest. Qed.

Section Tree.
Context (m : list Z) (Hc : complete m) (Hsep : separated m).

Lemma differs_complete m' p q : 0 <= p -> differs m m' p q -> complete m'.
Proof.
  intros Hp Hd. destruct Hc as [[Hby Hh Hh17 Htot Hsm Hst] Hmg Hv Hlc Hs].
  pose proof (differs_header m m' p q Hsep Hp Hd) as Hw. destruct Hd as [Hb' Hsz _].
  constructor; [constructor|..]; rewrite ?Hw, ?Hsz by lia; try done.
Qed.

(** The stretch of the block in the hole of a tree. *)
Lemma tree_splice c its :
  tree_at m (plug c its) ->
  exists p q, 0 <= p /\ p mod 4 = 0 /\ q <= slimit m /\ items_at m p its q /\
    forall m' its', differs m m' p q -> items_at m' p its' q -> tree_at m' (plug c its').
Proof.
  intros (o & e & Hi & Ht & He). pose proof (tok_at_len _ _ _ _ Ht).
  destruct (splice m c its Hsep 0 o) as (p & q & Hp & Hq & Hal & Hits & Hsp); [lia|lia|done|].
  exists p, q. split_and!; [done|by apply Hal|lia|done|]. intros m' its' Hd H'.
  exists o, e. split_and!; [by apply Hsp|eapply (differs_tok m m' p q); try done; lia|].
  by erewrite differs_slimit.
Qed.

(** The node in the hole. *)
Lemma tree_node c o name body :
  tree_at m (plug c [INode o name body]) ->
  0 <= o /\ o mod 4 = 0 /\ exists next, node_at m o name body next.
Proof.
  intros (p & q & Hp & Hal & _ & Hi & _)%tree_splice.
  inversion Hi as [| | |? ? e ? o1 e1 ? ? Ht He Hb Ht1 He1 Hnil]; subst.
  split_and!; [done..|]. exists (align4 e1), e, o1, e1. done.
Qed.

(** ** [fdt_setprop_inplace] *)

Lemma setprop_inplace_tree c o nname before after off name val val' :
  tree_at m (plug c [INode o nname (before ++ IProp off name val :: after)]) ->
  find_prop name (before ++ IProp off name val :: after) = Some (off, name, val) ->
  bytes_ok val' -> vsize val' = vsize val ->
  exists m', fdt_setprop_inplace m o name val' = Ret (0, m') /\ complete m' /\
    tree_at m' (plug c [INode o nname (before ++ IProp off name val' :: after)]).
Proof.
  intros Htree Hfind Hb' Hlen. destruct (tree_node _ _ _ _ Htree) as (Ho & Ha & next & Hn).
  pose proof (getprop_node_at m Hc name o nname _ next Ho Ha Hn) as Hget. rewrite Hfind in Hget.
  set (p := sbase m + prop_data (ver m) off (vsize val)) in *. destruct Hget as (Hget & Hval & Hp & Hp2).
  change (IProp off name val :: after) with ([IProp off name val] ++ after) in Htree.
  rewrite <- plug_in_node in Htree.
  destruct (tree_splice _ _ Htree) as (p1 & q & Hp1 & Hal & Hq & Hi & Hsp).
  inversion Hi as [| |? no ? ? e ? ? Ht He Hs Hnil|]; subst. inversion Hnil; subst. clear Hnil.
  destruct Ht as (Htag & Hl & Hno & _ & ->).
  pose proof (prop_data_range (ver m) off (vsize val)) as Hpd. pose proof (align4_spec (prop_data (ver m) off (vsize val) + vsize val)) as Hal4.
  destruct (write_wrote m p val') as (m' & E & Hw); [done|lia|].
  assert (differs m m' off (align4 (prop_data (ver m) off (vsize val) + vsize val))) as Hd.
  { destruct Hw as [Hw1 Hw2 _ Hw4]. destruct Hc as [[Hby _ _ _ _ _] _ _ _ _]. split; [auto|done|].
    intros i Hi'. apply Hw4. unfold p. lia. }
  exists m'. split_and!.
  - unfold fdt_setprop_inplace, fdt_getprop, fdt_setprop_inplace_namelen_partial. rewrite !Hget, !bind_ret.
    rewrite Hlen, Z.eqb_refl, !Z.add_0_r, Z.ltb_irrefl. cbn [negb]. by rewrite E.
  - by eapply differs_complete.
  - change (IProp off name val' :: after) with ([IProp off name val'] ++ after).
    rewrite <- plug_in_node. apply Hsp; [done|].
    pose proof (differs_header m m' _ _ Hsep Hp1 Hd) as Hh.
    eapply at_prop; [|by rewrite (differs_slimit m m' _ _ Hsep Hp1 Hd)|exact (differs_string m m' _ _ Hsep Hp1 Hq Hd _ _ Hs)|constructor].
    unfold tok_at. rewrite Hlen, (Hh 8), (Hh 20) by lia. split_and!; try done.
    + change (tag_of _) with (tag_of (TProp no val)). rewrite <- Htag. eapply wrote_word_other; [exact Hw|]. unfold p. lia.
    + rewrite <- Hl. eapply wrote_word_other; [exact Hw|]. unfold p. lia.
    + rewrite <- Hno. eapply wrote_word_other; [exact Hw|]. unfold p. lia.
    + by destruct Hw.
Qed.

(** ** NOPs *)

Record nopped (m1 : list Z) (p n : Z) (m' : list Z) : Prop := {
  np_bytes : bytes_ok m';
  np_size : vsize m' = vsize m1;
  np_same : forall i, ~ (p <= i < p + 4 * n) -> vget m' i = vget m1 i;
  np_nop : forall k, 0 <= k < n -> word m' (p + 4 * k) = FDT_NOP
}.

Lemma nop_region_loop_ok n : forall m1 p,
  bytes_ok m1 -> 0 <= p -> p + 4 * Z.of_nat n <= vsize m1 ->
  exists m', nop_region_loop n m1 p = Ret m' /\ nopped m1 p (Z.of_nat n) m'.
Proof.
  induction n as [|n IH]; intros m1 p Hb Hp Hs.
  - exists m1. split; [done|]. constructor; done || lia.
  - destruct (store32_wrote m1 p FDT_NOP) as (m2 & E & Hw); [done|lia|].
    pose proof (wrote_word _ _ _ _ Hw) as Hword. destruct Hw as [Hw1 Hw2 _ Hw4].
    specialize (Hw2 Hb (be32_ok _)). rewrite vsize_be32 in Hw4.
    destruct (IH m2 (p + 4)) as (m' & E' & [H1 H2 H3 H4]); [done|lia|lia|].
    exists m'. split; [cbn [nop_region_loop]; by rewrite E|]. constructor; [done|lia| |].
    + intros i Hi. rewrite H3 by lia. apply Hw4. lia.
    + intros k Hk. destruct (Z.eq_dec k 0) as [->|].
      * rewrite Z.mul_0_r, Z.add_0_r. rewrite (word_same m2 m' p); [done|]. intros i Hi. apply H3. lia.
      * replace (p + 4 * k) with (p + 4 + 4 * (k - 1)) by lia. apply H4. lia.
Qed.

Lemma items_nops m1 n : forall o,
  o + 4 * Z.of_nat n <= slimit m1 -> o mod 4 = 0 ->
  (forall k, 0 <= k < Z.of_nat n -> word m1 (sbase m1 + o + 4 * k) = FDT_NOP) ->
  items_at m1 o (replicate n INop) (o + 4 * Z.of_nat n).
Proof.
  induction n as [|n IH]; intros o Hs Ha Hw.
  - replace (o + 4 * Z.of_nat 0) with o by lia. constructor.
  - simpl. eapply (at_nop _ _ (o + 4)); [|lia|].
    + split; [|done]. change (tag_of TNop) with FDT_NOP. rewrite <- (Hw 0) by lia. f_equal. lia.
    + replace (align4 (o + 4)) with (o + 4) by (symmetry; apply align4_id; Z.div_mod_to_equations; lia).
      replace (o + 4 * Z.of_nat (S n)) with (o + 4 + 4 * Z.of_nat n) by lia.
      apply IH; [lia|Z.div_mod_to_equations; lia|]. intros k Hk. rewrite <- (Hw (k + 1)) by lia. f_equal. lia.
Qed.

(** The stretch of the hole becomes NOPs. *)
Lemma nop_tree c its p q :
  tree_at m (plug c its) -> 0 <= p -> p <= q -> p mod 4 = 0 -> q mod 4 = 0 -> q <= slimit m ->
  (forall m' its', differs m m' p q -> items_at m' p its' q -> tree_at m' (plug c its')) ->
  exists m', fdt_nop_region_ m (sbase m + p) (q - p) = Ret m' /\ complete m' /\
    tree_at m' (plug c (replicate (Z.to_nat ((q - p) / 4)) INop)).
Proof.
  intros Ht Hp Hpq Hpa Hqa Hq Hsp. unfold fdt_nop_region_.
  assert ((q - p + 3) / 4 = (q - p) / 4) as -> by (Z.div_mod_to_equations; lia).
  set (n := Z.to_nat ((q - p) / 4)). assert (4 * Z.of_nat n = q - p) as Hn by (unfold n; Z.div_mod_to_equations; lia).
  pose proof Hc as [[Hby _ _ Htot _ Hst] _ _ _ _]. pose proof (slimit_le m).
  destruct (nop_region_loop_ok n m (sbase m + p)) as (m' & E & [H1 H2 H3 H4]); [done|lia|lia|].
  assert (differs m m' p q) as Hd by (split; [done..|]; intros i Hi; apply H3; lia).
  exists m'. split_and!; [done|by eapply differs_complete|]. apply Hsp; [done|].
  replace q with (p + 4 * Z.of_nat n) by lia. pose proof (differs_header m m' p q Hsep Hp Hd) as Hh.
  apply items_nops; [rewrite (differs_slimit m m' p q) by done; lia|done|].
  intros k Hk. rewrite (Hh 8) by lia. by apply H4.
Qed.

Lemma nop_property_tree c o nname before after off name val :
  tree_at m (plug c [INode o nname (before ++ IProp off name val :: after)]) ->
  find_prop name (before ++ IProp off name val :: after) = Some (off, name, val) -> 16 <= ver m ->
  exists m' n, fdt_nop_property m o name = Ret (0, m') /\ complete m' /\
    tree_at m' (plug c [INode o nname (before ++ replicate n INop ++ after)]).
Proof.
  intros Htree Hfind Hv. destruct (tree_node _ _ _ _ Htree) as (Ho & Ha & next & Hn).
  pose proof (get_property_node m Hc name o nname _ next Ho Ha Hn) as Hget. rewrite Hfind in Hget.
  change (IProp off name val :: after) with ([IProp off name val] ++ after) in Htree.
  rewrite <- plug_in_node in Htree. destruct (tree_splice _ _ Htree) as (p & q & Hp & Hal & Hq & Hi & Hsp).
  inversion Hi as [| |? no ? ? e ? ? Ht He Hs Hnil|]; subst. inversion Hnil; subst. clear Hnil.
  destruct Ht as (_ & _ & _ & _ & ->). unfold prop_data in *. rewrite (proj2 (Z.ltb_ge (ver m) 16)) in * by done.
  cbn [andb] in *. pose proof (align4_spec (off + 12 + vsize val)) as [Hae Hae4]. pose proof (vsize_nonneg val).
  destruct (nop_tree _ _ off (align4 (off + 12 + vsize val)) Htree Hp ltac:(lia) Hal Hae4 Hq Hsp) as (m' & E & Hc' & Ht').
  rewrite plug_in_node in Ht'. exists m'. eexists. split_and!; [|done..].
  unfold fdt_nop_property, fdt_get_property, fdt_get_property_namelen.
  destruct Hc as [[Hby Hh _ _ _ _] _ _ _ _]. unfold FDT_V16_SIZE in Hh. hdr. rewrite bind_ret.
  destruct (Z.ltb_spec (ver m) 16); [lia|]. rewrite Hget, !bind_ret. cbn [option_map fst snd].
  unfold sizeof_fdt_property. unfold fdt_nop_region_ in *.
  assert ((vsize val + 12 + 3) / 4 = (align4 (off + 12 + vsize val) - off + 3) / 4) as ->
    by (Z.div_mod_to_equations; lia).
  by rewrite E.
Qed.

Lemma node_end_chain l : forall o d fuel p dp next,
  chain m o (Some d) l p dp -> fdt_next_node m p dp = Ret (next, Some (- 1)) ->
  Forall (visited_ok m) l -> Forall (fun v => below (Some 0) v.2) l ->
  0 <= o -> 0 <= d -> (length l + 1 < fuel)%nat -> node_end_loop fuel m o d = Ret next.
Proof.
  induction l as [|[it d1] l IH]; intros o d fuel p dp next Hch Hn Hv Hb Ho Hd Hf;
    (destruct fuel as [|[|fuel]]; [simpl in Hf; lia..|]); cbn [node_end_loop];
    destruct (Z.leb_spec 0 o); [|lia|idtac|lia]; (destruct (Z.leb_spec 0 d); [|lia]); cbn [andb].
  - destruct Hch as [-> <-]. rewrite Hn, bind_ret. cbn [fst snd default].
    change (0 <=? -1) with false. by rewrite andb_false_r.
  - destruct Hch as [E Hch]. rewrite E, bind_ret. cbn [fst snd].
    inversion Hv as [|? ? Hv1 Hv2]; inversion Hb as [|? ? Hb1 Hb2]; subst. simpl in Hb1.
    destruct d1 as [d1|]; [|done]. unfold visited_ok in Hv1. simpl in Hv1.
    change (default 0 (Some d1)) with d1.
    apply (IH _ _ (S fuel) p dp next Hch Hn Hv2 Hb2); [|lia|simpl in Hf; lia].
    destruct it; [done..|]. simpl. lia.
Qed.

Lemma node_end_node o name body next :
  0 <= o -> o mod 4 = 0 -> node_at m o name body next -> fdt_node_end_offset_ m o = Ret next.
Proof.
  intros Ho Ha Hn. pose proof Hc as [Hm _ _ _ _].
  destruct (walk_node m Hm o name body next Ho Ha Hn) as (p & dp & Hch & Hend & _).
  destruct Hn as (e & o1 & e1 & Ht & He & Hb & Ht1 & He1 & ->).
  pose proof (tok_at_len _ _ _ _ Ht). pose proof (align4_spec e) as [? ?].
  pose proof (tok_at_len _ _ _ _ Ht1). pose proof (items_at_mono _ _ _ _ Hb).
  pose proof (visits_length m (align4 e) body o1 (Some 0) Hb). destruct Hm as [_ _ _ Htot _ Hst].
  pose proof (slimit_le m). unfold vsize in Htot.
  eapply node_end_chain; [exact Hch|exact Hend| |apply visits_all_below|done|done|lia].
  eapply visits_ok; [exact Hb|lia|done].
Qed.

Lemma nop_node_tree c o name body :
  tree_at m (plug c [INode o name body]) ->
  exists m' n, fdt_nop_node m o = Ret (0, m') /\ complete m' /\ tree_at m' (plug c (replicate n INop)).
Proof.
  intros Htree. destruct (tree_splice _ _ Htree) as (p & q & Hp & Hal & Hq & Hi & Hsp).
  inversion Hi as [| | |? ? e ? o1 e1 ? ? Ht He Hb Ht1 He1 Hnil]; subst. inversion Hnil; subst. clear Hnil.
  pose proof (align4_spec e1) as [Hae Ha4]. pose proof (items_at_mono _ _ _ _ Hi).
  destruct (nop_tree _ _ o (align4 e1) Htree Hp ltac:(lia) Hal Ha4 Hq Hsp) as (m' & E & Hc' & Ht').
  exists m'. eexists. split_and!; [|done..]. unfold fdt_nop_node.
  rewrite (node_end_node o name body (align4 e1)), bind_ret; [|done..|by exists e, o1, e1].
  destruct (Z.ltb_spec (align4 e1) 0); [lia|]. pose proof Hc as [Hm _ _ _ _].
  pose proof (slimit_small m Hm). rewrite offset_ptr_ok by (done || lia). rewrite decide_True by lia.
  rewrite bind_ret. by rewrite E.
Qed.

(** What cannot be done changes nothing. *)
Lemma setprop_inplace_fails c o nname body name val' :
  tree_at m (plug c [INode o nname body]) ->
  match find_prop name body with
  | None => fdt_setprop_inplace m o name val' = Ret (- FDT_ERR_NOTFOUND, m)
  | Some (_, _, val) => vsize val' <> vsize val -> fdt_setprop_inplace m o name val' = Ret (- FDT_ERR_NOSPACE, m)
  end.
Proof.
  intros Htree. destruct (tree_node _ _ _ _ Htree) as (Ho & Ha & next & Hn).
  pose proof (getprop_node_at m Hc name o nname _ next Ho Ha Hn) as Hget.
  unfold fdt_setprop_inplace, fdt_getprop. destruct (find_prop name body) as [[[off nm] val]|].
  - intros Hne. destruct Hget as [-> _]. rewrite bind_ret. destruct (Z.eqb_spec (vsize val) (vsize val')); [lia|done].
  - by rewrite Hget.
Qed.
End Tree.
