(* ===== verification/FdtRw.v ===== *)
(** * libfdt: read-write functions

    Models [fdt_rw.c] and [fdt_empty_tree.c]: changes that move the blocks of a
    blob.  Every operation returns its [int] result and the new blob.
    [fdt_open_into] works in one address space that holds the old blob at 0 and
    the buffer at an offset, so that the two may coincide or overlap. *)

From stdpp Require Import base option list strings.
From S2P Require Import Prelude.
From S2P Require Import BranchHash.
From S2P Require Import FdtBase.
From S2P Require Import FdtTags.
From S2P Require Import FdtRead.
From S2P Require Import FdtWrite.

(** ** Probes *)

(** The end of the aligned header, [FDT_ALIGN(sizeof(struct fdt_header), 8)]. *)
Definition header_end : Z := FDT_ALIGN sizeof_fdt_header 8.

Definition fdt_blocks_misordered_ (m : list Z) (mem_rsv_size struct_size : Z) : outcome bool :=
  off_mem_rsvmap ← fdt_off_mem_rsvmap m;
  off_dt_struct ← fdt_off_dt_struct m;
  off_dt_strings ← fdt_off_dt_strings m;
  totalsize ← fdt_totalsize m;
  size_dt_strings ← fdt_size_dt_strings m;
  Ret ((off_mem_rsvmap <? header_end)
       || (off_dt_struct <? u32 (off_mem_rsvmap + mem_rsv_size))
       || (off_dt_strings <? u32 (off_dt_struct + struct_size))
       || (totalsize <? u32 (off_dt_strings + size_dt_strings))).

Definition fdt_rw_probe_ (m : list Z) : outcome (Z * list Z) :=
  err ← fdt_ro_probe_ m;
  if err <? 0 then Ret (err, m) else
  version ← fdt_version m;
  if version <? 17 then Ret (- FDT_ERR_BADVERSION, m) else
  size_dt_struct ← fdt_size_dt_struct m;
  misordered ← fdt_blocks_misordered_ m sizeof_fdt_reserve_entry (s32 size_dt_struct);
  if (misordered : bool) then Ret (- FDT_ERR_BADLAYOUT, m) else
  if 17 <? version then m ← fdt_set_version m 17; Ret (0, m) else Ret (0, m).

(** [FDT_RW_PROBE]: the error of the probe, or the rest of the operation. *)
Definition rw_guarded (m : list Z) (k : list Z -> outcome (Z * list Z)) : outcome (Z * list Z) :=
  r ← fdt_rw_probe_ m;
  let '(err, m) := r in
  if negb (err =? 0) then Ret (err, m) else k m.

(** ** Splicing *)

Definition fdt_data_size_ (m : list Z) : outcome Z :=
  off_dt_strings ← fdt_off_dt_strings m;
  size_dt_strings ← fdt_size_dt_strings m;
  Ret (s32 (off_dt_strings + size_dt_strings)).

Definition fdt_splice_ (m : list Z) (p oldlen newlen : Z) : outcome (Z * list Z) :=
  end_ ← fdt_data_size_ m;
  if (p + oldlen <? p) || (end_ <? p + oldlen) then Ret (- FDT_ERR_BADOFFSET, m) else
  if (p <? 0) || (end_ - oldlen + newlen <? 0) then Ret (- FDT_ERR_BADOFFSET, m) else
  totalsize ← fdt_totalsize m;
  if totalsize <? end_ - oldlen + newlen then Ret (- FDT_ERR_NOSPACE, m) else
  m ← memmove m (p + newlen) (p + oldlen) (end_ - p - oldlen);
  Ret (0, m).

(** A block moves with its offset. *)
Definition move_dt_strings (m : list Z) (delta : Z) : outcome (list Z) :=
  off_dt_strings ← fdt_off_dt_strings m;
  fdt_set_off_dt_strings m (u32 (off_dt_strings + delta)).

Definition fdt_splice_mem_rsv_ (m : list Z) (p oldn newn : Z) : outcome (Z * list Z) :=
  let delta := s32 ((newn - oldn) * sizeof_fdt_reserve_entry) in
  r ← fdt_splice_ m p (s32 (oldn * sizeof_fdt_reserve_entry)) (s32 (newn * sizeof_fdt_reserve_entry));
  let '(err, m) := r in
  if negb (err =? 0) then Ret (err, m) else
  off_dt_struct ← fdt_off_dt_struct m;
  m ← fdt_set_off_dt_struct m (u32 (off_dt_struct + delta));
  m ← move_dt_strings m delta;
  Ret (0, m).

Definition fdt_splice_struct_ (m : list Z) (p oldlen newlen : Z) : outcome (Z * list Z) :=
  delta ← int_chk (newlen - oldlen);
  r ← fdt_splice_ m p oldlen newlen;
  let '(err, m) := r in
  if negb (err =? 0) then Ret (err, m) else
  size_dt_struct ← fdt_size_dt_struct m;
  m ← fdt_set_size_dt_struct m (u32 (size_dt_struct + delta));
  m ← move_dt_strings m delta;
  Ret (0, m).

Definition fdt_del_last_string_ (m : list Z) (s : list Z) : outcome (list Z) :=
  newlen ← int_chk (vsize s + 1);
  size_dt_strings ← fdt_size_dt_strings m;
  fdt_set_size_dt_strings m (u32 (size_dt_strings - newlen)).

Definition fdt_splice_string_ (m : list Z) (newlen : Z) : outcome (Z * list Z) :=
  off_dt_strings ← fdt_off_dt_strings m;
  size_dt_strings ← fdt_size_dt_strings m;
  r ← fdt_splice_ m (off_dt_strings + size_dt_strings) 0 newlen;
  let '(err, m) := r in
  if negb (err =? 0) then Ret (err, m) else
  size_dt_strings ← fdt_size_dt_strings m;
  m ← fdt_set_size_dt_strings m (u32 (size_dt_strings + newlen));
  Ret (0, m).

(** The string offset or error, [*allocated] and the blob. *)
Definition fdt_find_add_string_ (m : list Z) (s : list Z) : outcome (Z * bool * list Z) :=
  strtab ← fdt_off_dt_strings m;
  len ← int_chk (vsize s + 1);
  size_dt_strings ← fdt_size_dt_strings m;
  p ← fdt_find_string_ m strtab (s32 size_dt_strings) s;
  match p with
  | Some p => Ret (s32 (p - strtab), false, m)
  | None =>
      let new := strtab + size_dt_strings in
      r ← fdt_splice_string_ m len;
      let '(err, m) := r in
      if negb (err =? 0) then Ret (err, false, m) else
      m ← write m new (s ++ [0]);
      Ret (s32 (new - strtab), true, m)
  end.

(** ** The reservation map *)

Definition fdt_add_mem_rsv (m : list Z) (address size : Z) : outcome (Z * list Z) :=
  rw_guarded m (fun m =>
  n ← fdt_num_mem_rsv m;
  re ← fdt_mem_rsv_ m n;
  r ← fdt_splice_mem_rsv_ m re 0 1;
  let '(err, m) := r in
  if negb (err =? 0) then Ret (err, m) else
  m ← store64 m re (cpu_to_fdt64 address);
  m ← store64 m (re + 8) (cpu_to_fdt64 size);
  Ret (0, m)).

Definition fdt_del_mem_rsv (m : list Z) (n : Z) : outcome (Z * list Z) :=
  re ← fdt_mem_rsv_ m n;
  rw_guarded m (fun m =>
  num ← fdt_num_mem_rsv m;
  if num <=? n then Ret (- FDT_ERR_NOTFOUND, m) else fdt_splice_mem_rsv_ m re 1 0).

(** ** Properties and names *)

(** The error, [*prop] and the blob. *)
Definition fdt_resize_property_ (m : list Z) (nodeoffset : Z) (name : list Z) (len : Z)
  : outcome (Z * option Z * list Z) :=
  r ← fdt_get_property m nodeoffset name;
  match r with
  | (None, oldlen) => Ret (oldlen, None, m)
  | (Some prop, oldlen) =>
      r ← fdt_splice_struct_ m (prop + sizeof_fdt_property) (s32 (FDT_TAGALIGN oldlen)) (s32 (FDT_TAGALIGN len));
      let '(err, m) := r in
      if negb (err =? 0) then Ret (err, Some prop, m) else
      m ← store32 m (prop + 4) (cpu_to_fdt32 (u32 len));
      Ret (0, Some prop, m)
  end.

Definition fdt_add_property_ (m : list Z) (nodeoffset : Z) (name : list Z) (len : Z)
  : outcome (Z * option Z * list Z) :=
  nextoffset ← fdt_check_node_offset_ m nodeoffset;
  if nextoffset <? 0 then Ret (nextoffset, None, m) else
  r ← fdt_find_add_string_ m name;
  let '(namestroff, allocated, m) := r in
  if namestroff <? 0 then Ret (namestroff, None, m) else
  prop ← fdt_offset_ptr_ m nextoffset;
  let proplen := s32 (sizeof_fdt_property + FDT_TAGALIGN len) in
  r ← fdt_splice_struct_ m prop 0 proplen;
  let '(err, m) := r in
  if negb (err =? 0) then
    if (allocated : bool) then m ← fdt_del_last_string_ m name; Ret (err, Some prop, m)
    else Ret (err, Some prop, m)
  else
  m ← store32 m prop (cpu_to_fdt32 FDT_PROP);
  m ← store32 m (prop + 8) (cpu_to_fdt32 (u32 namestroff));
  m ← store32 m (prop + 4) (cpu_to_fdt32 (u32 len));
  Ret (0, Some prop, m).

Definition fdt_set_name (m : list Z) (nodeoffset : Z) (name : list Z) : outcome (Z * list Z) :=
  rw_guarded m (fun m =>
  r ← fdt_get_name m nodeoffset;
  match r with
  | (None, oldlen) => Ret (oldlen, m)
  | (Some namep, oldlen) =>
      newlen ← int_chk (vsize name);
      r ← fdt_splice_struct_ m namep (s32 (FDT_TAGALIGN (oldlen + 1))) (s32 (FDT_TAGALIGN (newlen + 1)));
      let '(err, m) := r in
      if negb (err =? 0) then Ret (err, m) else
      m ← write m namep (name ++ [0]);
      Ret (0, m)
  end).

(** The error, [*prop_data] and the blob. *)
Definition fdt_setprop_placeholder (m : list Z) (nodeoffset : Z) (name : list Z) (len : Z)
  : outcome (Z * option Z * list Z) :=
  r ← fdt_rw_probe_ m;
  let '(err, m) := r in
  if negb (err =? 0) then Ret (err, None, m) else
  r ← fdt_resize_property_ m nodeoffset name len;
  r ← (let '(err, prop, m) := r in
       if err =? - FDT_ERR_NOTFOUND then fdt_add_property_ m nodeoffset name len else Ret (err, prop, m));
  let '(err, prop, m) := r in
  if negb (err =? 0) then Ret (err, None, m)
  else Ret (0, option_map (fun prop => prop + sizeof_fdt_property) prop, m).

Definition fdt_setprop (m : list Z) (nodeoffset : Z) (name val : list Z) : outcome (Z * list Z) :=
  len ← int_chk (vsize val);
  r ← fdt_setprop_placeholder m nodeoffset name len;
  let '(err, prop_data, m) := r in
  if negb (err =? 0) then Ret (err, m) else
  p ← of_option prop_data;
  if nz len then m ← write m p val; Ret (0, m) else Ret (0, m).

Definition fdt_appendprop (m : list Z) (nodeoffset : Z) (name val : list Z) : outcome (Z * list Z) :=
  rw_guarded m (fun m =>
  len ← int_chk (vsize val);
  r ← fdt_get_property m nodeoffset name;
  match r with
  | (Some prop, oldlen) =>
      newlen ← int_chk (len + oldlen);
      r ← fdt_splice_struct_ m (prop + sizeof_fdt_property) (s32 (FDT_TAGALIGN oldlen)) (s32 (FDT_TAGALIGN newlen));
      let '(err, m) := r in
      if negb (err =? 0) then Ret (err, m) else
      m ← store32 m (prop + 4) (cpu_to_fdt32 (u32 newlen));
      m ← write m (prop + sizeof_fdt_property + oldlen) val;
      Ret (0, m)
  | (None, _) =>
      r ← fdt_add_property_ m nodeoffset name len;
      let '(err, prop, m) := r in
      if negb (err =? 0) then Ret (err, m) else
      prop ← of_option prop;
      m ← write m (prop + sizeof_fdt_property) val;
      Ret (0, m)
  end).

Definition fdt_delprop (m : list Z) (nodeoffset : Z) (name : list Z) : outcome (Z * list Z) :=
  rw_guarded m (fun m =>
  r ← fdt_get_property m nodeoffset name;
  match r with
  | (None, len) => Ret (len, m)
  | (Some prop, len) =>
      fdt_splice_struct_ m prop (s32 (sizeof_fdt_property + FDT_TAGALIGN len)) 0
  end).

(** ** Nodes *)

(** The loop over the parent's properties: the offset of the first other tag. *)
Fixpoint skip_props_loop (fuel : nat) (m : list Z) (offset : Z) : outcome Z :=
  match fuel with
  | O => Fuel
  | S fuel =>
      r ← fdt_next_tag m offset;
      let '(tag, nextoffset) := r in
      if (tag =? FDT_PROP) || (tag =? FDT_NOP) then skip_props_loop fuel m nextoffset
      else Ret offset
  end.

Definition fdt_add_subnode_namelen (m : list Z) (parentoffset : Z) (name : list Z) : outcome (Z * list Z) :=
  rw_guarded m (fun m =>
  offset ← fdt_subnode_offset_namelen m parentoffset name;
  if 0 <=? offset then Ret (- FDT_ERR_EXISTS, m)
  else if negb (offset =? - FDT_ERR_NOTFOUND) then Ret (offset, m) else
  r ← fdt_next_tag m parentoffset;
  offset ← skip_props_loop (S (length m)) m r.2;
  nh ← fdt_offset_ptr_ m offset;
  let namelen := vsize name in
  let nodelen := s32 (4 + FDT_TAGALIGN (namelen + 1) + FDT_TAGSIZE) in
  r ← fdt_splice_struct_ m nh 0 nodelen;
  let '(err, m) := r in
  if negb (err =? 0) then Ret (err, m) else
  m ← store32 m nh (cpu_to_fdt32 FDT_BEGIN_NODE);
  m ← memset m (nh + 4) 0 (FDT_TAGALIGN (namelen + 1));
  m ← write m (nh + 4) name;
  m ← store32 m (nh + nodelen - FDT_TAGSIZE) (cpu_to_fdt32 FDT_END_NODE);
  Ret (offset, m)).

Definition fdt_add_subnode (m : list Z) (parentoffset : Z) (name : list Z) : outcome (Z * list Z) :=
  fdt_add_subnode_namelen m parentoffset name.

Definition fdt_del_node (m : list Z) (nodeoffset : Z) : outcome (Z * list Z) :=
  rw_guarded m (fun m =>
  endoffset ← fdt_node_end_offset_ m nodeoffset;
  if endoffset <? 0 then Ret (endoffset, m) else
  p ← fdt_offset_ptr_ m nodeoffset;
  fdt_splice_struct_ m p (endoffset - nodeoffset) 0).

(** ** Packing and opening *)

(** A header field of the blob at [base]. *)
Definition set_hdr (m : list Z) (base field val : Z) : outcome (list Z) :=
  store32 m (base + field) (cpu_to_fdt32 val).

(** The old blob is at 0, the new one at [new]. *)
Definition fdt_packblocks_ (m : list Z) (new mem_rsv_size struct_size : Z) : outcome (list Z) :=
  let mem_rsv_off := header_end in
  struct_off ← int_chk (mem_rsv_off + mem_rsv_size);
  strings_off ← int_chk (struct_off + struct_size);
  off_mem_rsvmap ← fdt_off_mem_rsvmap m;
  m ← memmove m (new + mem_rsv_off) off_mem_rsvmap (u64 mem_rsv_size);
  m ← set_hdr m new 16 (u32 mem_rsv_off);
  off_dt_struct ← fdt_off_dt_struct m;
  m ← memmove m (new + struct_off) off_dt_struct (u64 struct_size);
  m ← set_hdr m new 8 (u32 struct_off);
  m ← set_hdr m new 36 (u32 struct_size);
  off_dt_strings ← fdt_off_dt_strings m;
  size_dt_strings ← fdt_size_dt_strings m;
  m ← memmove m (new + strings_off) off_dt_strings size_dt_strings;
  m ← set_hdr m new 12 (u32 strings_off);
  size_dt_strings ← fdt_size_dt_strings m;
  set_hdr m new 32 size_dt_strings.

(** The size of the structure block of an old version: the offset after its
    end tag, or an error. *)
Fixpoint struct_size_loop (fuel : nat) (m : list Z) (offset : Z) : outcome Z :=
  match fuel with
  | O => Fuel
  | S fuel =>
      r ← fdt_next_tag m offset;
      let '(tag, nextoffset) := r in
      if tag =? FDT_END then Ret nextoffset else struct_size_loop fuel m nextoffset
  end.

(** [(fdt_num_mem_rsv(fdt)+1) * sizeof(struct fdt_reserve_entry)] *)
Definition mem_rsv_bytes (m : list Z) : outcome Z :=
  n ← fdt_num_mem_rsv m;
  Ret (s32 ((n + 1) * sizeof_fdt_reserve_entry)).

(** [fdt_move] in one address space. *)
Definition move_to (m : list Z) (buf bufsize : Z) : outcome (Z * list Z) :=
  totalsize_ ← fdt_ro_probe_ m;
  if totalsize_ <? 0 then Ret (totalsize_, m) else
  totalsize ← fdt_totalsize m;
  if u32 bufsize <? totalsize then Ret (- FDT_ERR_NOSPACE, m) else
  m ← memmove m buf 0 totalsize;
  Ret (0, m).

Definition fdt_open_into (m : list Z) (buf bufsize : Z) : outcome (Z * list Z) :=
  fdtend ← fdt_totalsize m;
  err ← fdt_ro_probe_ m;
  if err <? 0 then Ret (err, m) else
  mem_rsv_size ← mem_rsv_bytes m;
  version ← fdt_version m;
  struct_size ← (if 17 <=? version then size ← fdt_size_dt_struct m; Ret (s32 size)
                 else struct_size_loop (S (length m)) m 0);
  if (version <? 17) && (struct_size <? 0) then Ret (struct_size, m) else
  misordered ← fdt_blocks_misordered_ m mem_rsv_size struct_size;
  if negb misordered then
    r ← move_to m buf bufsize;
    let '(err, m) := r in
    if negb (err =? 0) then Ret (err, m) else
    m ← set_hdr m buf 20 17;
    m ← set_hdr m buf 36 (u32 struct_size);
    m ← set_hdr m buf 4 (u32 bufsize);
    Ret (0, m)
  else
  size_dt_strings ← fdt_size_dt_strings m;
  let newsize := s32 (header_end + mem_rsv_size + struct_size + size_dt_strings) in
  if bufsize <? newsize then Ret (- FDT_ERR_NOSPACE, m) else
  let overlap := (0 <? buf + newsize) && (buf <? fdtend) in
  let tmp := if overlap then fdtend else buf in
  if overlap && (buf + bufsize <? tmp + newsize) then Ret (- FDT_ERR_NOSPACE, m) else
  m ← fdt_packblocks_ m tmp mem_rsv_size struct_size;
  m ← memmove m buf tmp (u64 newsize);
  m ← set_hdr m buf 0 FDT_MAGIC;
  m ← set_hdr m buf 4 (u32 bufsize);
  m ← set_hdr m buf 20 17;
  m ← set_hdr m buf 24 16;
  boot_cpuid_phys ← fdt_boot_cpuid_phys m;
  m ← set_hdr m buf 28 boot_cpuid_phys;
  Ret (0, m).

Definition fdt_pack (m : list Z) : outcome (Z * list Z) :=
  rw_guarded m (fun m =>
  mem_rsv_size ← mem_rsv_bytes m;
  size_dt_struct ← fdt_size_dt_struct m;
  m ← fdt_packblocks_ m 0 mem_rsv_size (s32 size_dt_struct);
  size ← fdt_data_size_ m;
  m ← fdt_set_totalsize m (u32 size);
  Ret (0, m)).

(** ** [fdt_empty_tree.c] *)

Definition fdt_create_empty_tree (m : list Z) (bufsize : Z) : outcome (Z * list Z) :=
  r ← fdt_create m bufsize;
  let '(err, m) := r in if negb (err =? 0) then Ret (err, m) else
  r ← fdt_finish_reservemap m;
  let '(err, m) := r in if negb (err =? 0) then Ret (err, m) else
  r ← fdt_begin_node m [];
  let '(err, m) := r in if negb (err =? 0) then Ret (err, m) else
  r ← fdt_end_node m;
  let '(err, m) := r in if negb (err =? 0) then Ret (err, m) else
  r ← fdt_finish m;
  let '(err, m) := r in if negb (err =? 0) then Ret (err, m) else
  fdt_open_into m 0 bufsize.
