(* ===== verification/FdtEdit.v ===== *)
(** * libfdt: what a read-write change does to the tree

    A change of the structure block moves everything behind it.  [edited]
    describes such a change by its stretch; [items_shift] shows that moved items
    are the same items at other offsets, so a change of the items in the hole of
    a tree changes the tree there only ([edit_tree]), up to offsets. *)

From stdpp Require Import base option list strings.
From S2P Require Import Prelude.
From S2P Require Import BranchHash.
From S2P Require Import FdtBase.
From S2P Require Import FdtTags.
From S2P Require Import FdtTree.
From S2P Require Import FdtRead.
From S2P Require Import FdtReadFacts.
From S2P Require Import FdtCheck.
From S2P Require Import FdtWrite.
From S2P Require Import FdtWriteFacts.
From S2P Require Import FdtRoundtrip.
From S2P Require Import FdtInplace.
From S2P Require Import FdtRw.

(** ** Blobs that can be edited *)

(** Version 17, with the blocks in order. *)
Record rw_ok (m : list Z) : Prop := {
  rw_complete : complete m;
  rw_version : ver m = 17;
  rw_rsvmap : 40 <= rsvbase m;
  rw_struct : rsvbase m + 16 <= sbase m;
  rw_strings : sbase m + word m 36 <= strbase m;
  rw_end : strbase m + word m 32 <= total m
}.

(** The end of the blocks. *)
Notation data_end m := (strbase m + word m 32).

Section RwOk.
Context (m : list Z) (Hrw : rw_ok m).

Lemma rw_bytes : bytes_ok m.
Proof. apply Hrw. Qed.

Lemma rw_sizes : total m <= vsize m /\ total m < 2 ^ 31 - 1 /\ 56 <= vsize m /\ 56 <= sbase m /\ 0 <= word m 36 /\ 0 <= word m 32.
Proof.
  destruct Hrw as [[[Hb _ _ Ht Hsm Hst] _ _ _ _] _ H1 H2 H3 H4]. unfold INT32_MAX in *.
  pose proof (word_range m 36 Hb). pose proof (word_range m 32 Hb). lia.
Qed.

Lemma rw_slimit : slimit m = word m 36.
Proof.
  pose proof rw_sizes. destruct Hrw as [_ Hv _ _ H3 H4]. unfold slimit. rewrite Hv. simpl. lia.
Qed.

Lemma rw_strlimit : strlimit m = word m 32.
Proof. destruct Hrw as [_ Hv _ _ H3 H4]. unfold strlimit. rewrite Hv. simpl. lia. Qed.

Lemma rw_probe : fdt_rw_probe_ m = Ret (0, m).
Proof.
  pose proof rw_sizes as (Ht & Hsm & Hsz & Hsb & H36 & H32). pose proof rw_bytes as Hb.
  destruct Hrw as [Hc Hv H1 H2 H3 H4]. unfold fdt_rw_probe_. rewrite (ro_probe_complete m Hc), bind_ret.
  destruct (Z.ltb_spec (total m) 0); [pose proof (word_range m 4 Hb); lia|].
  unfold fdt_blocks_misordered_, sizeof_fdt_reserve_entry. hdr. rewrite !bind_ret. rewrite Hv.
  change (17 <? 17) with false. change header_end with 40. cbn iota.
  rewrite (swrap_small _ (word m 36)) by lia.
  rewrite !uwrap_small by lia.
  destruct (Z.ltb_spec (rsvbase m) 40); [lia|]. destruct (Z.ltb_spec (sbase m) (rsvbase m + 16)); [lia|].
  destruct (Z.ltb_spec (strbase m) (sbase m + word m 36)); [lia|].
  destruct (Z.ltb_spec (total m) (strbase m + word m 32)); [lia|]. done.
Qed.

Lemma rw_guard k : rw_guarded m k = k m.
Proof. unfold rw_guarded. rewrite rw_probe. done. Qed.
End RwOk.

(** ** Moving items *)

Fixpoint shift (d : Z) (it : item) : item :=
  match it with
  | INop => INop
  | IProp off name val => IProp (off + d) name val
  | INode off name body => INode (off + d) name (map (shift d) body)
  end.

Lemma shift_0 it : shift 0 it = it.
Proof.
  induction it as [| |off name body IH] using item_nested_ind; simpl; rewrite ?Z.add_0_r; [done..|]. f_equal.
  induction IH as [|it body E _ IHb]; simpl; [done|]. by rewrite E, IHb.
Qed.

Lemma map_shift_0 its : map (shift 0) its = its.
Proof. induction its as [|it its IH]; [done|]. simpl. by rewrite shift_0, IH. Qed.

Lemma erase_shift d it : erase (shift d it) = erase it.
Proof.
  induction it as [| |off name body IH] using item_nested_ind; [done..|]. simpl. do 2 f_equal.
  induction IH as [|it body E _ IHb]; simpl; [done|]. by rewrite E, IHb.
Qed.

Lemma erase_all_shift d its : erase_all (map (shift d) its) = erase_all its.
Proof. induction its as [|it its IH]; [done|]. unfold erase_all in *. simpl. by rewrite erase_shift, IH. Qed.

Section Shift.
Context (m m' : list Z) (D d : Z) (Hd : d mod 4 = 0).
Context (Hbase : sbase m' = sbase m + D) (Hv : 16 <= ver m) (Hv' : 16 <= ver m').
Context (Hstr : forall no name, string_at m no name -> string_at m' no name).

(** The block moved by [D], and its bytes from [o] to [o'] by [d] inside it. *)
Definition moved (o o' : Z) : Prop :=
  forall i, sbase m + o <= i < sbase m + o' -> vget m' (i + (D + d)) = vget m i.

Lemma moved_word o o' a : moved o o' -> sbase m + o <= a -> a + 4 <= sbase m + o' -> word m' (a + (D + d)) = word m a.
Proof.
  intros Hmv H1 H2. unfold word, byte.
  replace (a + (D + d) + 1) with (a + 1 + (D + d)) by lia. replace (a + (D + d) + 2) with (a + 2 + (D + d)) by lia.
  replace (a + (D + d) + 3) with (a + 3 + (D + d)) by lia. by rewrite !Hmv by lia.
Qed.

Lemma moved_bytes o o' a bs : moved o o' -> sbase m + o <= a -> a + vsize bs <= sbase m + o' ->
  bytes_at m a bs -> bytes_at m' (a + (D + d)) bs.
Proof.
  intros Hmv H1 H2 H i Hi. replace (a + (D + d) + i) with (a + i + (D + d)) by lia. rewrite Hmv by lia. by apply H.
Qed.

Lemma tok_shift o t e : tok_at m o t e -> moved o e -> tok_at m' (o + d) t (e + d).
Proof.
  intros Ht Hmv. pose proof (tok_at_len _ _ _ _ Ht) as Hl. destruct Ht as [Htag Ht]. unfold tok_at. rewrite Hbase.
  replace (sbase m + D + (o + d)) with (sbase m + o + (D + d)) by lia. split.
  - rewrite (moved_word o e) by (done || lia). done.
  - destruct t as [name| |no val| |]; try lia.
    + destruct Ht as [[Hs Hz] ->]. split; [|lia]. split; [|done].
      replace (sbase m + o + (D + d) + 4) with (sbase m + o + 4 + (D + d)) by lia.
      eapply moved_bytes; [exact Hmv| | |exact Hs]; rewrite ?vsize_app; change (vsize [0]) with 1; lia.
    + destruct Ht as (Hlen & Hno & Hval & ->). pose proof (vsize_nonneg val). unfold prop_data in *.
      rewrite (proj2 (Z.ltb_ge (ver m) 16)) in * by done. rewrite (proj2 (Z.ltb_ge (ver m') 16)) by done. cbn [andb] in *.
      replace (sbase m + o + (D + d) + 4) with (sbase m + o + 4 + (D + d)) by lia.
      replace (sbase m + o + (D + d) + 8) with (sbase m + o + 8 + (D + d)) by lia.
      replace (sbase m + D + (o + d + 12)) with (sbase m + (o + 12) + (D + d)) by lia. split_and!; [| | |lia].
      * rewrite (moved_word _ _ _ Hmv) by lia. done.
      * rewrite (moved_word _ _ _ Hmv) by lia. done.
      * eapply moved_bytes; [exact Hmv|lia|lia|done].
Qed.

Lemma align4_add e : align4 (e + d) = align4 e + d.
Proof. rewrite (Z.add_comm e). rewrite align4_shift by done. lia. Qed.

Lemma moved_sub o o' a b : moved o o' -> o <= a -> b <= o' -> moved a b.
Proof. intros H H1 H2 i Hi. apply H. lia. Qed.

Lemma items_shift o its o' :
  items_at m o its o' -> moved o o' -> o' + d <= slimit m' ->
  items_at m' (o + d) (map (shift d) its) (o' + d).
Proof.
  induction 1 as [o|o e its o' Ht He Hits IH|o no nm val e its o' Ht He Hs Hits IH
    |o name e body o1 e1 its o' Ht He Hbody IHb Ht1 He1 Hits IH]; intros Hmv Hlim; simpl.
  - constructor.
  - pose proof (tok_at_len _ _ _ _ Ht). pose proof (align4_spec e). pose proof (items_at_mono _ _ _ _ Hits).
    apply (at_nop _ _ (e + d)); [by apply tok_shift, (moved_sub o o'); [..|lia|lia]|lia|].
    rewrite align4_add. apply IH; [eapply moved_sub; [exact Hmv|lia..]|done].
  - pose proof (tok_at_len _ _ _ _ Ht). pose proof (align4_spec e). pose proof (items_at_mono _ _ _ _ Hits).
    apply (at_prop _ _ no _ _ (e + d)); [by apply tok_shift, (moved_sub o o'); [..|lia|lia]|lia|by apply Hstr|].
    rewrite align4_add. apply IH; [eapply moved_sub; [exact Hmv|lia..]|done].
  - pose proof (tok_at_len _ _ _ _ Ht). pose proof (align4_spec e). pose proof (items_at_mono _ _ _ _ Hits).
    pose proof (tok_at_len _ _ _ _ Ht1). pose proof (align4_spec e1). pose proof (items_at_mono _ _ _ _ Hbody).
    apply (at_node _ _ _ (e + d) _ (o1 + d) (e1 + d)); rewrite ?align4_add; try lia.
    + apply tok_shift; [done|]. eapply moved_sub; [exact Hmv|lia..].
    + apply IHb; [eapply moved_sub; [exact Hmv|lia..]|lia].
    + apply tok_shift; [done|]. eapply moved_sub; [exact Hmv|lia..].
    + apply IH; [eapply moved_sub; [exact Hmv|lia..]|done].
Qed.
End Shift.

(** ** Edited blobs *)

(** The bytes [p, q) of the structure block give way to [L] others. *)
Record edited (m m' : list Z) (p q L : Z) : Prop := {
  ed_bytes : bytes_ok m';
  ed_size : vsize m' = vsize m;
  ed_header : forall i, 0 <= i < 12 \/ 16 <= i < 36 -> vget m' i = vget m i;
  ed_struct : word m' 36 = word m 36 + (L - (q - p));
  ed_strings : strbase m' = strbase m + (L - (q - p));
  ed_before : forall i, 40 <= i < sbase m + p -> vget m' i = vget m i;
  ed_after : forall i, sbase m + q <= i < data_end m -> vget m' (i + (L - (q - p))) = vget m i
}.

Section Edited.
Context (m m' : list Z) (p q L : Z) (Hrw : rw_ok m) (He : edited m m' p q L).
Context (Hp : 0 <= p) (Hpq : p <= q) (Hq : q <= word m 36) (HL : 0 <= L).
Context (Hroom : data_end m + (L - (q - p)) <= total m).

Lemma edited_word a : 0 <= a -> a + 4 <= 12 \/ 16 <= a /\ a + 4 <= 36 -> word m' a = word m a.
Proof. intros H1 H2. apply word_same. intros i Hi. apply He. lia. Qed.

Lemma edited_rw : rw_ok m'.
Proof.
  pose proof (rw_sizes m Hrw). pose proof edited_word as Hw.
  destruct Hrw as [[[Hb Hh Hh17 Ht Hsm Hst] Hmg Hver Hlc Hs] Hv H1 H2 H3 H4].
  pose proof (ed_struct _ _ _ _ _ He) as Es. pose proof (ed_strings _ _ _ _ _ He) as Eb.
  pose proof (ed_size _ _ _ _ _ He) as Esz. pose proof (ed_bytes _ _ _ _ _ He).
  constructor; [constructor; [constructor|..]|..]; rewrite ?Es, ?Eb, ?Esz, ?Hw by lia; try done; try lia.
Qed.

Lemma edited_string no name : string_at m no name -> string_at m' no name.
Proof.
  intros (H1 & H2 & H3). pose proof edited_rw as Hrw'. unfold string_at. rewrite (rw_strlimit m' Hrw').
  rewrite (rw_strlimit m Hrw) in H2. rewrite edited_word by lia. split_and!; [done..|].
  rewrite (ed_strings _ _ _ _ _ He). destruct H3 as [H3 Hz]. split; [|done].
  intros i Hi. rewrite <- H3 by done. rewrite vsize_app in Hi. change (vsize [0]) with 1 in Hi.
  replace (strbase m + (L - (q - p)) + no + i) with (strbase m + no + i + (L - (q - p))) by lia.
  apply (ed_after _ _ _ _ _ He). destruct Hrw as [_ _ _ _ H5 _]. lia.
Qed.

Lemma edited_slimit : slimit m' = slimit m + (L - (q - p)).
Proof. rewrite (rw_slimit m' edited_rw), (rw_slimit m Hrw). apply He. Qed.

Lemma edited_before o its o' :
  items_at m o its o' -> 0 <= o -> o' <= p -> items_at m' o its o'.
Proof.
  intros H Ho Hp'. pose proof edited_rw as Hrw'. pose proof (items_at_mono _ _ _ _ H).
  pose proof (items_shift m m' 0 0 eq_refl ltac:(rewrite Z.add_0_r; apply edited_word; lia) ltac:(destruct Hrw; lia)
    ltac:(destruct Hrw'; lia) edited_string o its o' H) as Hs.
  rewrite !Z.add_0_r, map_shift_0 in Hs.
  apply Hs; [|rewrite edited_slimit, (rw_slimit m Hrw); lia]. intros i Hi. change (0 + 0) with 0. rewrite Z.add_0_r.
  apply (ed_before _ _ _ _ _ He). pose proof (rw_sizes m Hrw). lia.
Qed.

Lemma edited_after o its o' :
  (L - (q - p)) mod 4 = 0 -> items_at m o its o' -> q <= o -> o' <= slimit m ->
  items_at m' (o + (L - (q - p))) (map (shift (L - (q - p))) its) (o' + (L - (q - p))).
Proof.
  intros Hd H Ho Ho'. pose proof edited_rw as Hrw'.
  apply (items_shift m m' 0 _ Hd); [rewrite Z.add_0_r; apply edited_word; lia|destruct Hrw; lia|destruct Hrw'; lia
    |apply edited_string|done| |rewrite edited_slimit; lia].
  intros i Hi. rewrite Z.add_0_l. apply (ed_after _ _ _ _ _ He). rewrite (rw_slimit m Hrw) in Ho'. destruct Hrw as [_ _ _ _ H5 _].
  pose proof (rw_sizes m Hrw). lia.
Qed.

Lemma edited_tok_before o t e : tok_at m o t e -> 0 <= o -> e <= p -> tok_at m' o t e.
Proof.
  intros H Ho Hp'. eapply tok_agree; [by apply edited_word; lia|by apply edited_word; lia| |exact H].
  intros i Hi. apply (ed_before _ _ _ _ _ He). pose proof (rw_sizes m Hrw). lia.
Qed.

Lemma edited_tok_after o t e :
  tok_at m o t e -> q <= o -> e <= slimit m -> tok_at m' (o + (L - (q - p))) t (e + (L - (q - p))).
Proof.
  intros H Ho Hl. pose proof edited_rw as Hrw'.
  apply (tok_shift m m' 0); [rewrite Z.add_0_r; apply edited_word; lia|destruct Hrw; lia|destruct Hrw'; lia|done|].
  intros i Hi. rewrite Z.add_0_l. apply (ed_after _ _ _ _ _ He). rewrite (rw_slimit m Hrw) in Hl. destruct Hrw as [_ _ _ _ H5 _].
  pose proof (rw_sizes m Hrw). lia.
Qed.
End Edited.

(** ** A change in the hole *)

Lemma erase_all_app its its' : erase_all (its ++ its') = erase_all its ++ erase_all its'.
Proof. apply flat_map_app. Qed.

Lemma erase_all_node o name body : erase_all [INode o name body] = [DNode name (erase_all body)].
Proof. done. Qed.

Lemma erase_all_cons it its : erase_all (it :: its) = erase_all [it] ++ erase_all its.
Proof. apply (erase_all_app [it]). Qed.

(** What is left of a tree when the hole holds [ts]. *)
Fixpoint plug_erased (c : ctx) (ts : list dtree) : list dtree :=
  match c with
  | Here before after => erase_all before ++ ts ++ erase_all after
  | Inside before _ name c after => erase_all before ++ DNode name (plug_erased c ts) :: erase_all after
  end.

Lemma erase_plug c its : erase_all (plug c its) = plug_erased c (erase_all its).
Proof.
  induction c as [before after|before off name c IH after]; simpl.
  - by rewrite !erase_all_app.
  - rewrite erase_all_app, erase_all_cons. simpl. by rewrite <- IH.
Qed.

(** A tree with a hole after [d] more bytes in the hole: what comes behind the
    hole has moved. *)
Fixpoint shift_ctx (d : Z) (c : ctx) : ctx :=
  match c with
  | Here before after => Here before (map (shift d) after)
  | Inside before off name c after =>
      Inside before off name (shift_ctx d c) (map (shift d) after)
  end.

Lemma plug_erased_shift d c ts : plug_erased (shift_ctx d c) ts = plug_erased c ts.
Proof.
  induction c as [before after|before off name c IH after]; simpl;
    by rewrite ?IH, erase_all_shift.
Qed.

Lemma shift_ctx_nest d c c' : shift_ctx d (nest c c') = nest (shift_ctx d c) (shift_ctx d c').
Proof.
  induction c as [before after|before off name c IH after]; simpl; [|by rewrite IH].
  destruct c'; simpl; by rewrite map_app.
Qed.

Lemma plug_shift_in_node d c o name before after its :
  plug (shift_ctx d (in_node c o name before after)) its
  = plug (shift_ctx d c) [INode o name (before ++ its ++ map (shift d) after)].
Proof. unfold in_node. by rewrite shift_ctx_nest, plug_nest. Qed.

Section Edit.
Context (m m' : list Z) (p q L : Z) (Hrw : rw_ok m) (He : edited m m' p q L).
Context (Hp : 0 <= p) (Hpq : p <= q) (Hq : q <= word m 36) (HL : 0 <= L) (Hd : (L - (q - p)) mod 4 = 0).
Context (Hroom : data_end m + (L - (q - p)) <= total m).

(** The hole of [c] in the items from [o] to [o'] is the stretch from [p] to
    [q]. *)
Fixpoint hole_at (c : ctx) (o o' : Z) : Prop :=
  match c with
  | Here before after => items_at m o before p /\ items_at m q after o'
  | Inside before off name c after =>
      exists e o1 e1, items_at m o before off /\ tok_at m off (TBegin name) e /\ e <= slimit m /\
        hole_at c (align4 e) o1 /\ tok_at m o1 TEndNode e1 /\ e1 <= slimit m /\ items_at m (align4 e1) after o'
  end.

Lemma hole_range c : forall o o', hole_at c o o' -> o <= p /\ q <= o'.
Proof.
  induction c as [before after|before off name c IH after]; intros o o'; simpl.
  - intros [H1 H2]. apply items_at_mono in H1, H2. lia.
  - intros (e & o1 & e1 & Hb & Ht & _ & Hc & Ht1 & _ & Ha). apply IH in Hc.
    apply items_at_mono in Hb, Ha. apply tok_at_len in Ht, Ht1.
    pose proof (align4_spec e). pose proof (align4_spec e1). lia.
Qed.

Lemma edit_hole c new : forall o o',
  0 <= o -> o' <= slimit m -> hole_at c o o' -> items_at m' p new (p + L) ->
  items_at m' o (plug (shift_ctx (L - (q - p)) c) new) (o' + (L - (q - p))).
Proof.
  assert (p + L = q + (L - (q - p))) as Hend by lia.
  induction c as [before after|before off name c IH after]; intros o o' Ho Hlim H Hnew; simpl in H |- *.
  - destruct H as [Hb Ha]. pose proof (items_at_mono _ _ _ _ Hb). pose proof (items_at_mono _ _ _ _ Ha).
    eapply items_at_app; [by eapply (edited_before m m' p q L)|]. eapply items_at_app; [exact Hnew|].
    rewrite Hend. by eapply (edited_after m m' p q L).
  - destruct H as (e & o1 & e1 & Hb & Ht & Hel & Hc & Ht1 & Hel1 & Ha). pose proof (hole_range _ _ _ Hc).
    pose proof (tok_at_len _ _ _ _ Ht). pose proof (align4_spec e). pose proof (items_at_mono _ _ _ _ Hb).
    pose proof (tok_at_len _ _ _ _ Ht1). pose proof (align4_spec e1). pose proof (items_at_mono _ _ _ _ Ha).
    specialize (IH (align4 e) o1 ltac:(lia) ltac:(lia) Hc Hnew).
    pose proof (edited_slimit m m' p q L Hrw He Hroom) as Hsl.
    eapply items_at_app; [eapply (edited_before m m' p q L); try done; lia|].
    apply (at_node _ _ _ e _ (o1 + (L - (q - p))) (e1 + (L - (q - p)))).
    + eapply (edited_tok_before m m' p q L); try done; lia.
    + pose proof (rw_slimit m Hrw). lia.
    + done.
    + eapply (edited_tok_after m m' p q L); try done; lia.
    + lia.
    + rewrite align4_add by done. eapply (edited_after m m' p q L); try done; lia.
Qed.
End Edit.

(** The items in a hole, and their stretch. *)
Lemma hole_exists m c its : forall o o',
  items_at m o (plug c its) o' -> exists p q, items_at m p its q /\ hole_at m p q c o o' /\ (o mod 4 = 0 -> 0 <= o -> p mod 4 = 0).
Proof.
  induction c as [before after|before off name c IH after]; intros o o' H; simpl in H.
  - apply items_at_app_inv in H as (p & Hb & H). apply items_at_app_inv in H as (q & Hi & Ha).
    exists p, q. split_and!; [done..|]. intros Ha4 Ho. by apply (visits_ok _ _ _ _ Hb None).
  - apply items_at_app_inv in H as (o1 & Hb & H).
    inversion H as [| | |? ? e ? o2 e1 ? ? Ht He Hbody Ht1 He1 Ha]; subst.
    destruct (IH (align4 e) o2 Hbody) as (p & q & Hi & Hh & Hal). exists p, q.
    pose proof (tok_at_len _ _ _ _ Ht). pose proof (align4_spec e) as [? ?]. pose proof (items_at_mono _ _ _ _ Hb).
    split_and!; [done|by exists e, o2, e1|]. intros Ha4 Ho. apply Hal; [done|lia].
Qed.

(** The hole in the body of a node. *)
Lemma hole_in_node m p q c o name before after : forall a b,
  hole_at m p q (in_node c o name before after) a b ->
  exists e o1 e1, tok_at m o (TBegin name) e /\ e <= slimit m /\ items_at m (align4 e) before p /\
    items_at m q after o1 /\ tok_at m o1 TEndNode e1 /\ e1 <= slimit m.
Proof.
  unfold in_node. induction c as [b0 a0|b0 off nm c IH a0]; intros a b H; simpl in H.
  - destruct H as (e & o1 & e1 & _ & Ht & He & [Hb Ha] & Ht1 & He1 & _). by exists e, o1, e1.
  - destruct H as (e & o1 & e1 & _ & _ & _ & H & _). by eapply IH.
Qed.

(** A change of the hole of a tree. *)
Lemma edit_tree m c its :
  rw_ok m -> tree_at m (plug c its) ->
  exists p q, 0 <= p /\ p mod 4 = 0 /\ p <= q /\ q mod 4 = 0 /\ q <= word m 36 /\ items_at m p its q /\
    (exists o, hole_at m p q c 0 o) /\
    forall m' L new, edited m m' p q L -> 0 <= L -> L mod 4 = 0 -> data_end m + (L - (q - p)) <= total m ->
      items_at m' p new (p + L) ->
      rw_ok m' /\ tree_at m' (plug (shift_ctx (L - (q - p)) c) new).
Proof.
  intros Hrw (o & e & Hi & Ht & He). destruct (hole_exists m c its 0 o Hi) as (p & q & Hits & Hh & Hal).
  pose proof (hole_range m p q c 0 o Hh) as [Hp Hq]. pose proof (items_at_mono _ _ _ _ Hits).
  pose proof (tok_at_len _ _ _ _ Ht). specialize (Hal eq_refl ltac:(lia)).
  destruct (visits_ok _ _ _ _ Hits None ltac:(lia) Hal) as [_ Hq4]. pose proof (rw_slimit m Hrw) as Hsl.
  exists p, q. split_and!; try done; try lia; [by exists o|]. intros m' L new Hed HL HL4 Hroom Hnew.
  assert ((L - (q - p)) mod 4 = 0) as Hd by (Z.div_mod_to_equations; lia).
  split; [eapply (edited_rw m m' p q L); try done; lia|].
  assert (items_at m' 0 (plug (shift_ctx (L - (q - p)) c) new) (o + (L - (q - p)))) as Hi'
    by (eapply (edit_hole m m' p q L); try done; lia).
  exists (o + (L - (q - p))), (e + (L - (q - p))). split_and!; [done| |].
  - eapply (edited_tok_after m m' p q L); try done; lia.
  - rewrite (edited_slimit m m' p q L) by (done || lia). lia.
Qed.
