(* ===== verification/FdtRwFacts.v ===== *)
(** * libfdt: read-write changes of properties and nodes

    The splices of [fdt_rw.c] and the functions that change a property are shown
    to edit the tree at one place: a property deleted, replaced, extended or
    added, its name found or added to the strings, with an error and the same
    tree when there is no room.

    [fdt_del_node], [fdt_add_subnode] and [fdt_set_name] as edits of the tree. *)

From stdpp Require Import base option list strings.
From S2P Require Import Prelude.
From S2P Require Import BranchHash.
From S2P Require Import FdtBase.
From S2P Require Import FdtTags.
From S2P Require Import FdtTree.
From S2P Require Import FdtRead.
From S2P Require Import FdtReadFacts.
From S2P Require Import FdtCheck.
From S2P Require Import FdtWrite.
From S2P Require Import FdtWriteFacts.
From S2P Require Import FdtFinish.
From S2P Require Import FdtRoundtrip.
From S2P Require Import FdtMachine.
From S2P Require Import FdtInplace.
From S2P Require Import FdtRw.
From S2P Require Import FdtEdit.

(** Runs the returned parts of an operation. *)
Ltac steps := repeat first
  [ rewrite bind_ret
  | progress change (0 =? 0) with true
  | progress change (- FDT_ERR_NOSPACE =? 0) with false
  | progress change (- FDT_ERR_NOSPACE =? - FDT_ERR_NOTFOUND) with false
  | progress change (0 =? - FDT_ERR_NOTFOUND) with false
  | progress cbn [negb option_map of_option andb orb] ].

(** ** Splices *)

(** [m1] is [m] with everything from [p + oldlen] to the end of the blocks moved
    to [p + newlen]. *)
Record spliced (m m1 : list Z) (p oldlen newlen : Z) : Prop := {
  spl_bytes : bytes_ok m1;
  spl_size : vsize m1 = vsize m;
  spl_before : forall i, i < p + newlen -> vget m1 i = vget m i;
  spl_after : forall i, p + oldlen <= i < data_end m -> vget m1 (i + (newlen - oldlen)) = vget m i
}.

Lemma memmove_wrote m dst src n :
  0 <= src -> 0 <= n -> src + n <= vsize m -> 0 <= dst -> dst + n <= vsize m ->
  exists bs m', memmove m dst src n = Ret m' /\ wrote m dst bs m' /\ vsize bs = n /\ bytes_at m src bs.
Proof.
  intros Hs Hn Hsn Hd Hdn. destruct (bytes_at_read m src (Z.to_nat n)) as (bs & Hl & Hb); [lia|lia|].
  assert (vsize bs = n) as Hv by (unfold vsize; lia).
  destruct (write_wrote m dst bs) as (m' & E & Hw); [lia|lia|].
  exists bs, m'. split_and!; [|done..]. unfold memmove. by rewrite <- Hl, (read_at _ _ _ Hb), bind_ret.
Qed.

Lemma bytes_at_ok m p bs : bytes_ok m -> bytes_at m p bs -> bytes_ok bs.
Proof.
  intros Hm Hb. apply Forall_lookup. intros i b Hi. specialize (Hb (Z.of_nat i)).
  pose proof (lookup_lt_Some _ _ _ Hi). unfold vsize in Hb. rewrite (vget_nat bs), Hi in Hb.
  specialize (Hb ltac:(lia)). unfold vget in Hb. destruct (_ <? 0); [done|]. by eapply Forall_lookup_1.
Qed.

Lemma data_size_ok m : rw_ok m -> fdt_data_size_ m = Ret (data_end m).
Proof.
  intros Hrw. pose proof (rw_sizes m Hrw) as (Ht & Hsm & Hsz & Hsb & H36 & H32). pose proof (rw_bytes m Hrw).
  destruct Hrw as [_ _ _ _ H3 H4]. unfold fdt_data_size_. hdr. rewrite !bind_ret. by rewrite swrap_small by lia.
Qed.

Lemma splice_ok m p oldlen newlen :
  rw_ok m -> 0 <= p -> 0 <= oldlen -> 0 <= newlen -> p + oldlen <= data_end m ->
  if decide (data_end m + (newlen - oldlen) <= total m)
  then exists m1, fdt_splice_ m p oldlen newlen = Ret (0, m1) /\ spliced m m1 p oldlen newlen
  else fdt_splice_ m p oldlen newlen = Ret (- FDT_ERR_NOSPACE, m).
Proof.
  intros Hrw Hp Ho Hn Hend. pose proof (rw_sizes m Hrw) as (Ht & Hsm & Hsz & Hsb & H36 & H32).
  pose proof (rw_bytes m Hrw) as Hb. pose proof (rw_end m Hrw) as Hde. unfold fdt_splice_. rewrite data_size_ok by done. rewrite bind_ret. hdr.
  destruct (Z.ltb_spec (p + oldlen) p); [lia|]. destruct (Z.ltb_spec (data_end m) (p + oldlen)); [lia|].
  destruct (Z.ltb_spec p 0); [lia|]. destruct (Z.ltb_spec (data_end m - oldlen + newlen) 0); [lia|].
  cbn [orb]. rewrite bind_ret. case_decide as Hroom; destruct (Z.ltb_spec (total m) (data_end m - oldlen + newlen)); try lia; [|done].
  destruct (memmove_wrote m (p + newlen) (p + oldlen) (data_end m - p - oldlen)) as (bs & m1 & E & Hw & Hl & Hat); [lia..|].
  exists m1. rewrite E, bind_ret. split; [done|]. destruct Hw as [Hw1 Hw2 Hw3 Hw4]. constructor.
  - apply Hw2; [done|]. by eapply bytes_at_ok.
  - done.
  - intros i Hi. apply Hw4. lia.
  - intros i Hi. replace (i + (newlen - oldlen)) with (p + newlen + (i - p - oldlen)) by lia.
    rewrite Hw3 by lia. rewrite <- Hat by lia. f_equal. lia.
Qed.

(** A store above the header in the new stretch. *)
Lemma spliced_wrote m m1 p oldlen newlen q bs m2 :
  spliced m m1 p oldlen newlen -> wrote m1 q bs m2 -> bytes_ok bs -> q + vsize bs <= p + newlen ->
  bytes_ok m2 /\ vsize m2 = vsize m /\
  (forall i, i < q -> vget m2 i = vget m i) /\
  forall i, p + oldlen <= i < data_end m -> vget m2 (i + (newlen - oldlen)) = vget m i.
Proof.
  intros [H1 H2 H3 H4] [W1 W2 W3 W4] Hbs Hq. pose proof (vsize_nonneg bs). split_and!; [auto|lia| |].
  - intros i Hi. rewrite W4 by lia. apply H3. lia.
  - intros i Hi. rewrite W4 by lia. by apply H4.
Qed.

(** [fdt_splice_struct_] at the offset [p] of the structure block. *)
Record spliced_struct (m m1 : list Z) (p q L : Z) : Prop := {
  ss_edited : edited m m1 p q L;
  ss_before : forall i, 40 <= i < sbase m + p + L -> vget m1 i = vget m i
}.

Lemma splice_struct_ok m p q L :
  rw_ok m -> 0 <= p -> p <= q -> q <= word m 36 -> 0 <= L < 2 ^ 31 ->
  if decide (data_end m + (L - (q - p)) <= total m)
  then exists m1, fdt_splice_struct_ m (sbase m + p) (q - p) L = Ret (0, m1) /\ spliced_struct m m1 p q L
  else fdt_splice_struct_ m (sbase m + p) (q - p) L = Ret (- FDT_ERR_NOSPACE, m).
Proof.
  intros Hrw Hp Hpq Hq HL. pose proof (rw_sizes m Hrw) as (Ht & Hsm & Hsz & Hsb & H36 & H32).
  pose proof (rw_end m Hrw) as Hde. pose proof (rw_strings m Hrw) as Hst.
  pose proof (splice_ok m (sbase m + p) (q - p) L Hrw ltac:(lia) ltac:(lia) ltac:(lia) ltac:(lia)) as H.
  unfold fdt_splice_struct_. rewrite int_chk_ok by lia. rewrite bind_ret.
  case_decide; [|by rewrite H]. destruct H as (m1 & E & [H1 H2 H3 H4]). rewrite E, bind_ret. cbn [negb Z.eqb].
  unfold fdt_size_dt_struct, move_dt_strings, fdt_off_dt_strings, fdt_set_size_dt_struct, fdt_set_off_dt_strings.
  rewrite fdt32_ld_ok by (done || lia). rewrite bind_ret.
  assert (word m1 36 = word m 36) as -> by (apply word_same; intros; apply H3; lia).
  destruct (store32_wrote m1 36 (u32 (word m 36 + (L - (q - p))))) as (m2 & E2 & W2); [lia|lia|].
  rewrite E2, bind_ret. pose proof (wr_size _ _ _ _ W2). pose proof (wr_bytes _ _ _ _ W2 H1 (be32_ok _)).
  rewrite fdt32_ld_ok by (done || lia). rewrite bind_ret.
  rewrite (wrote_word_other _ _ _ _ 12 W2) by lia.
  assert (word m1 12 = strbase m) as -> by (apply word_same; intros; apply H3; lia).
  destruct (store32_wrote m2 12 (u32 (strbase m + (L - (q - p))))) as (m3 & E3 & W3); [lia|lia|].
  rewrite E3, bind_ret. pose proof (wr_size _ _ _ _ W3). pose proof (wr_bytes _ _ _ _ W3 ltac:(done) (be32_ok _)).
  exists m3. split; [done|]. rewrite !uwrap_small in * by lia.
  assert (forall i, 40 <= i \/ 0 <= i < 12 \/ 16 <= i < 36 -> vget m3 i = vget m1 i) as Hsame.
  { intros i Hi. rewrite (wr_same _ _ _ _ W3), (wr_same _ _ _ _ W2); rewrite ?vsize_be32; done || lia. }
  split; [constructor|].
  - done.
  - lia.
  - intros i Hi. rewrite Hsame by lia. apply H3. lia.
  - rewrite (wrote_word_other _ _ _ _ 36 W3) by (rewrite vsize_be32; lia). rewrite (wrote_word _ _ _ _ W2).
    rewrite uwrap_small by lia. done.
  - rewrite (wrote_word _ _ _ _ W3). rewrite uwrap_small by lia. done.
  - intros i Hi. rewrite Hsame by lia. apply H3. lia.
  - intros i Hi. rewrite Hsame by lia. apply H4. lia.
  - intros i Hi. rewrite Hsame by lia. apply H3. lia.
Qed.

(** A store in the new stretch keeps the edit. *)
Lemma edited_wrote m m1 p q L a bs m2 :
  edited m m1 p q L -> wrote m1 a bs m2 -> bytes_ok bs -> sbase m + p <= a -> a + vsize bs <= sbase m + p + L ->
  40 <= sbase m + p -> edited m m2 p q L.
Proof.
  intros [H1 H2 H3 H4 H5 H6 H7] W Hbs Ha Hab Hh. destruct W as [W1 W2 W3 W4]. pose proof (vsize_nonneg bs).
  constructor; [auto|lia| | | | |].
  - intros i Hi. rewrite W4 by lia. by apply H3.
  - rewrite <- H4. apply word_same. intros i Hi. apply W4. lia.
  - rewrite <- H5. apply word_same. intros i Hi. apply W4. lia.
  - intros i Hi. rewrite W4 by lia. by apply H6.
  - intros i Hi. rewrite W4 by lia. by apply H7.
Qed.

Lemma rw_separated m : rw_ok m -> separated m.
Proof.
  intros Hrw. pose proof (rw_sizes m Hrw). pose proof (rw_strings m Hrw). constructor; [unfold FDT_V17_SIZE; lia|].
  rewrite rw_slimit by done. lia.
Qed.

(** The tree after an edit. *)
Definition edits_to (m' : list Z) (ts : list dtree) : Prop :=
  rw_ok m' /\ exists its, tree_at m' its /\ erase_all its = ts.

Lemma edits_moved m' d c new :
  rw_ok m' /\ tree_at m' (plug (shift_ctx d c) new) -> edits_to m' (plug_erased c (erase_all new)).
Proof.
  intros [Hrw Ht]. split; [done|]. exists (plug (shift_ctx d c) new). split; [done|].
  by rewrite erase_plug, plug_erased_shift.
Qed.

Lemma plug_erased_nest c c' ts : plug_erased (nest c c') ts = plug_erased c (plug_erased c' ts).
Proof.
  induction c as [before after|before off name c IH after]; simpl; [|by rewrite IH].
  destruct c'; simpl; rewrite !erase_all_app, <- ?app_assoc; [done|]. by simpl.
Qed.

Lemma plug_erased_in_node c o name before after ts :
  plug_erased (in_node c o name before after) ts
  = plug_erased c [DNode name (erase_all before ++ ts ++ erase_all after)].
Proof. unfold in_node. by rewrite plug_erased_nest. Qed.

Lemma spliced_struct_widen m m1 p q L k :
  0 <= k -> spliced_struct m m1 (p + k) q L -> spliced_struct m m1 p q (k + L).
Proof.
  intros Hk [[H1 H2 H3 H4 H5 H6 H7] H8].
  replace (L - (q - (p + k))) with (k + L - (q - p)) in * by lia.
  constructor; [constructor|]; try done.
  - intros i Hi. apply H6. lia.
  - intros i Hi. apply H8. lia.
Qed.

(** The word at [a] of the kept part. *)
Lemma spliced_struct_word m m1 p q L a :
  spliced_struct m m1 p q L -> 40 <= a -> a + 4 <= sbase m + p + L -> word m1 a = word m a.
Proof. intros [_ H] H1 H2. apply word_same. intros i Hi. apply H. lia. Qed.

Lemma tagalign_int x : 0 <= x < 2 ^ 30 -> s32 (FDT_TAGALIGN x) = align4 x.
Proof. intros Hx. rewrite FDT_TAGALIGN_ok by lia. pose proof (align4_spec x). apply swrap_small; lia. Qed.

Lemma vsize_zero {A} (l : list A) : vsize l = 0 -> l = [].
Proof. destruct l; [done|]. unfold vsize. simpl. lia. Qed.

Lemma align4_mono x y : x <= y -> align4 x <= align4 y.
Proof. unfold align4. intros. Z.div_mod_to_equations. lia. Qed.

Section Property.
Context (m : list Z) (Hrw : rw_ok m) (c : ctx) (o : Z) (nname : list Z) (before after : list item).
Context (off : Z) (name val : list Z).
Context (Htree : tree_at m (plug c [INode o nname (before ++ IProp off name val :: after)])).
Context (Hfind : find_prop name (before ++ IProp off name val :: after) = Some (off, name, val)).

(** The property's stretch of the structure block, and what an edit of it does. *)
Lemma prop_stretch :
  exists no, fdt_get_property m o name = Ret (Some (sbase m + off), vsize val) /\
    0 <= off /\ off mod 4 = 0 /\ off + 12 + align4 (vsize val) <= word m 36 /\
    tok_at m off (TProp no val) (off + 12 + vsize val) /\ string_at m no name /\
    forall m' L new, edited m m' off (off + 12 + align4 (vsize val)) L -> 0 <= L -> L mod 4 = 0 ->
      data_end m + (L - (12 + align4 (vsize val))) <= total m -> items_at m' off new (off + L) ->
      edits_to m' (plug_erased c [DNode nname (erase_all before ++ erase_all new ++ erase_all after)]).
Proof.
  pose proof (rw_complete m Hrw) as Hc. pose proof (rw_version m Hrw) as Hv.
  destruct (tree_node m (rw_separated m Hrw) _ _ _ _ Htree) as (Ho & Ha & next & Hn).
  pose proof (get_property_node m Hc name o nname _ next Ho Ha Hn) as Hget. rewrite Hfind in Hget.
  pose proof Htree as Ht. change (IProp off name val :: after) with ([IProp off name val] ++ after) in Ht.
  rewrite <- plug_in_node in Ht.
  destruct (edit_tree m _ _ Hrw Ht) as (p & q & Hp & Hp4 & Hpq & Hq4 & Hq & Hi & _ & Hedit).
  inversion Hi as [| |? no ? ? e ? ? Htok He Hs Hnil|]; subst. inversion Hnil; subst. clear Hnil.
  exists no. assert (e = off + 12 + vsize val) as ->.
  { destruct Htok as (_ & _ & _ & _ & ->). unfold prop_data. rewrite Hv. simpl. lia. }
  rewrite <- Z.add_assoc, align4_shift in Hedit, Hq by done. rewrite (align4_shift 12) in Hedit, Hq by done.
  rewrite Z.add_assoc in Hedit, Hq. split_and!; try done.
  - unfold fdt_get_property, fdt_get_property_namelen. pose proof (rw_sizes m Hrw). pose proof (rw_bytes m Hrw).
    hdr. rewrite bind_ret, Hv, Hget. done.
  - intros m' L new Hed HL HL4 Hroom Hnew. rewrite <- (plug_erased_in_node c o).
    eapply edits_moved, Hedit; try done. lia.
Qed.

(** [fdt_delprop] *)
Lemma delprop_tree :
  exists m', fdt_delprop m o name = Ret (0, m') /\
    edits_to m' (plug_erased c [DNode nname (erase_all before ++ erase_all after)]).
Proof.
  destruct prop_stretch as (no & Hget & Ho & Ho4 & Hend & Htok & Hs & Hedit).
  pose proof (align4_spec (vsize val)) as [Hal Hal4]. pose proof (vsize_nonneg val).
  pose proof (rw_sizes m Hrw) as (Ht & Hsm & Hsz & Hsb & H36 & H32). pose proof (rw_strings m Hrw). pose proof (rw_end m Hrw).
  pose proof (splice_struct_ok m off (off + 12 + align4 (vsize val)) 0 Hrw ltac:(lia) ltac:(lia) ltac:(lia) ltac:(lia)) as H0'.
  rewrite decide_True in H0' by lia. destruct H0' as (m' & E & Hss).
  exists m'. split.
  - unfold fdt_delprop. rewrite rw_guard by done. rewrite Hget, bind_ret. unfold sizeof_fdt_property.
    rewrite FDT_TAGALIGN_ok by lia. rewrite swrap_small by lia.
    replace (off + 12 + align4 (vsize val) - off) with (12 + align4 (vsize val)) in E by lia. exact E.
  - apply (Hedit m' 0 []); [by destruct Hss|lia|done|lia|]. rewrite Z.add_0_r. constructor.
Qed.

(** The token after its length and value are stored. *)
Lemma resized_token m1 m2 m3 no val' :
  0 <= off -> string_at m no name -> tok_at m off (TProp no val) (off + 12 + vsize val) ->
  off mod 4 = 0 -> bytes_ok val' -> vsize val' < 2 ^ 30 -> off + 12 + align4 (vsize val) <= word m 36 ->
  data_end m + (12 + align4 (vsize val') - (12 + align4 (vsize val))) <= total m ->
  spliced_struct m m1 off (off + 12 + align4 (vsize val)) (12 + align4 (vsize val')) ->
  wrote m1 (sbase m + off + 4) (be32 (u32 (vsize val'))) m2 -> bytes_ok m3 -> vsize m3 = vsize m2 ->
  (forall i, ~ (sbase m + off + 12 <= i < sbase m + off + 12 + vsize val') -> vget m3 i = vget m2 i) ->
  bytes_at m3 (sbase m + off + 12) val' ->
  edited m m3 off (off + 12 + align4 (vsize val)) (12 + align4 (vsize val')) /\
  items_at m3 off [IProp off name val'] (off + (12 + align4 (vsize val'))).
Proof.
  intros Ho Hs Htok Ho4 Hb' Hlen Hend Hroom Hss W2 Hb3 Hsz3 Hsame3 Hat3.
  pose proof (align4_spec (vsize val)) as [Hal Hal4]. pose proof (align4_spec (vsize val')) as [Hal' Hal4'].
  pose proof (vsize_nonneg val). pose proof (vsize_nonneg val'). pose proof (rw_version m Hrw) as Hv.
  pose proof (rw_sizes m Hrw) as (Ht & Hsm & Hsz & Hsb & H36 & H32).
  pose proof (edited_wrote _ _ _ _ _ _ _ _ (ss_edited _ _ _ _ _ Hss) W2 (be32_ok _) ltac:(lia) ltac:(rewrite vsize_be32; lia) ltac:(lia)) as Hed2.
  assert (edited m m3 off (off + 12 + align4 (vsize val)) (12 + align4 (vsize val'))) as Hed3.
  { apply (edited_wrote m m2 _ _ _ (sbase m + off + 12) val' m3); [done| |done|lia|lia|lia]. by constructor. }
  split; [done|]. assert (rw_ok m3) as Hrw3
    by (eapply (edited_rw m m3 off (off + 12 + align4 (vsize val)) (12 + align4 (vsize val'))); try done; lia).
  replace (off + (12 + align4 (vsize val'))) with (align4 (off + 12 + vsize val')).
  2: { rewrite <- Z.add_assoc, align4_shift by done. rewrite align4_shift by done. done. }
  destruct Htok as (Htag & Hl & Hno & _ & _).
  assert (sbase m3 = sbase m) as Eb by (eapply edited_word; [exact Hed3|lia..]).
  assert (forall a, sbase m + off <= a -> a + 4 <= sbase m + off + 4 \/ sbase m + off + 8 <= a /\ a + 4 <= sbase m + off + 12 ->
    word m3 a = word m a) as Hw.
  { intros a H1 H2. rewrite (word_same m2 m3) by (intros; apply Hsame3; lia).
    rewrite (wrote_word_other _ _ _ _ _ W2) by (rewrite ?vsize_be32; lia). eapply spliced_struct_word; [exact Hss|lia..]. }
  eapply (at_prop _ _ no); [| |eapply (edited_string m m3); [..|exact Hs]; try done; lia|constructor].
  - unfold tok_at. rewrite Eb. rewrite (rw_version m3 Hrw3). unfold prop_data. change (17 <? 16) with false. cbn [andb]. split.
    + rewrite Hw by lia. exact Htag.
    + split_and!; [|rewrite Hw by lia; exact Hno| |lia].
      * rewrite (word_same m2 m3) by (intros; apply Hsame3; lia). rewrite (wrote_word _ _ _ _ W2).
        rewrite !uwrap_small by (rewrite ?uwrap_small; lia). done.
      * replace (sbase m + (off + 12)) with (sbase m + off + 12) by lia. exact Hat3.
  - rewrite (rw_slimit m3 Hrw3), (ed_struct _ _ _ _ _ Hed3). lia.
Qed.

(** The splice of a property's value to another length, and what storing the new
    length and the value [val'] then makes of the tree. *)
Lemma resize_ok len :
  0 <= len < 2 ^ 30 ->
  if decide (data_end m + (align4 len - align4 (vsize val)) <= total m)
  then exists m1 m2, fdt_splice_struct_ m (sbase m + off + 12) (align4 (vsize val)) (align4 len) = Ret (0, m1) /\
    store32 m1 (sbase m + off + 4) (cpu_to_fdt32 (u32 len)) = Ret m2 /\
    bytes_ok m2 /\ vsize m2 = vsize m /\ sbase m + off + 12 + align4 len <= vsize m /\
    (forall i, sbase m + off + 12 <= i < sbase m + off + 12 + align4 len -> vget m2 i = vget m i) /\
    forall val' m3, vsize val' = len -> bytes_ok val' -> bytes_ok m3 -> vsize m3 = vsize m2 ->
      (forall i, ~ (sbase m + off + 12 <= i < sbase m + off + 12 + len) -> vget m3 i = vget m2 i) ->
      bytes_at m3 (sbase m + off + 12) val' ->
      edits_to m3 (plug_erased c [DNode nname (erase_all before ++ DProp name val' :: erase_all after)])
  else fdt_splice_struct_ m (sbase m + off + 12) (align4 (vsize val)) (align4 len) = Ret (- FDT_ERR_NOSPACE, m).
Proof.
  intros Hlen. destruct prop_stretch as (no & _ & Ho & Ho4 & Hend & Htok & Hs & Hedit).
  pose proof (align4_spec (vsize val)) as [Hal Hal4]. pose proof (align4_spec len) as [Hal' Hal4']. pose proof (vsize_nonneg val).
  pose proof (rw_sizes m Hrw) as (Ht & Hsm & Hsz & Hsb & H36 & H32). pose proof (rw_strings m Hrw). pose proof (rw_end m Hrw).
  pose proof (splice_struct_ok m (off + 12) (off + 12 + align4 (vsize val)) (align4 len) Hrw ltac:(lia) ltac:(lia) ltac:(lia) ltac:(lia)) as Hspl.
  replace (off + 12 + align4 (vsize val) - (off + 12)) with (align4 (vsize val)) in Hspl by lia.
  replace (sbase m + (off + 12)) with (sbase m + off + 12) in Hspl by lia.
  case_decide; [|exact Hspl]. destruct Hspl as (m1 & E & Hss).
  destruct (store32_wrote m1 (sbase m + off + 4) (u32 len)) as (m2 & E2 & W2); [lia|destruct Hss as [[] _]; lia|].
  pose proof (ss_edited _ _ _ _ _ Hss) as Hed. pose proof (wr_size _ _ _ _ W2).
  pose proof (ed_size _ _ _ _ _ Hed).
  exists m1, m2. split_and!; [done|done|by apply (wr_bytes _ _ _ _ W2), be32_ok; apply Hed|lia|lia| |].
  - intros i Hi. rewrite (wr_same _ _ _ _ W2) by (rewrite vsize_be32; lia). apply (ss_before _ _ _ _ _ Hss). lia.
  - intros val' m3 Hv' Hb' Hb3 Hsz3 Hsame Hat. subst len.
    destruct (resized_token m1 m2 m3 no val') as [Hed3 Hi3]; try done; try lia.
    { by apply (spliced_struct_widen m m1 off (off + 12 + align4 (vsize val)) (align4 (vsize val')) 12). }
    change (DProp name val' :: erase_all after) with ([DProp name val'] ++ erase_all after).
    change [DProp name val'] with (erase_all [IProp off name val']).
    eapply (Hedit m3 (12 + align4 (vsize val'))); [exact Hed3|lia|Z.div_mod_to_equations; lia|lia|exact Hi3].
Qed.

(** [fdt_setprop] on a property that is there *)
Lemma setprop_replace_tree val' :
  bytes_ok val' -> vsize val' < 2 ^ 30 ->
  exists err m', fdt_setprop m o name val' = Ret (err, m') /\
    if decide (data_end m + (align4 (vsize val') - align4 (vsize val)) <= total m)
    then err = 0 /\ edits_to m' (plug_erased c [DNode nname (erase_all before ++ DProp name val' :: erase_all after)])
    else err = - FDT_ERR_NOSPACE /\ m' = m.
Proof.
  intros Hb' Hlen. pose proof (vsize_nonneg val'). pose proof (resize_ok (vsize val') ltac:(lia)) as H'.
  destruct prop_stretch as (no & Hget & Ho & Ho4 & Hend & Htok & Hs & _).
  pose proof (align4_spec (vsize val')) as [Hal' _]. pose proof (align4_spec (vsize val)) as [Hal _].
  pose proof (rw_sizes m Hrw) as (Ht & Hsm & Hsz & Hsb & H36 & H32).
  pose proof (rw_strings m Hrw). pose proof (rw_end m Hrw). pose proof (vsize_nonneg val).
  unfold fdt_setprop, fdt_setprop_placeholder, fdt_resize_property_, sizeof_fdt_property.
  rewrite int_chk_ok by lia. rewrite bind_ret, (rw_probe m Hrw). steps. rewrite Hget. steps.
  rewrite !FDT_TAGALIGN_ok by lia. rewrite !swrap_small by lia.
  case_decide.
  - destruct H' as (m1 & m2 & -> & E2 & Hb2 & Hs2 & Hfit & Hsame2 & Hdone). steps.
    rewrite E2. steps.
    destruct (write_wrote m2 (sbase m + off + 12) val') as (m3 & E3 & [W1 W2 W3 W4]); [lia|lia|].
    destruct (nz (vsize val')) eqn:Enz.
    + rewrite E3, bind_ret. exists 0, m3. split; [done|]. split; [done|]. apply Hdone; done || auto.
    + apply nz_false in Enz. exists 0, m2. split; [done|]. split; [done|].
      apply Hdone; try done. rewrite (vsize_zero val' Enz). apply bytes_at_nil.
  - rewrite H'. steps. exists (- FDT_ERR_NOSPACE), m. done.
Qed.

(** [fdt_appendprop] on a property that is there *)
Lemma appendprop_extend_tree val' :
  bytes_ok val' -> vsize val + vsize val' < 2 ^ 30 ->
  exists err m', fdt_appendprop m o name val' = Ret (err, m') /\
    if decide (data_end m + (align4 (vsize val + vsize val') - align4 (vsize val)) <= total m)
    then err = 0 /\ edits_to m' (plug_erased c [DNode nname (erase_all before ++ DProp name (val ++ val') :: erase_all after)])
    else err = - FDT_ERR_NOSPACE /\ m' = m.
Proof.
  intros Hb' Hlen. pose proof (vsize_nonneg val'). pose proof (vsize_nonneg val).
  pose proof (resize_ok (vsize val + vsize val') ltac:(lia)) as H'.
  destruct prop_stretch as (no & Hget & Ho & Ho4 & Hend & Htok & Hs & _).
  pose proof (align4_spec (vsize val)) as [Hal _]. pose proof (align4_spec (vsize val + vsize val')) as [Hal' _].
  pose proof (rw_sizes m Hrw) as (Ht & Hsm & Hsz & Hsb & H36 & H32).
  pose proof (rw_strings m Hrw). pose proof (rw_end m Hrw).
  unfold fdt_appendprop, sizeof_fdt_property. rewrite rw_guard by done. rewrite int_chk_ok by lia. rewrite bind_ret.
  rewrite Hget, bind_ret. rewrite int_chk_ok by lia. rewrite bind_ret. rewrite (Z.add_comm (vsize val')).
  rewrite !FDT_TAGALIGN_ok by lia. rewrite !swrap_small by lia. case_decide.
  - destruct H' as (m1 & m2 & -> & E2 & Hb2 & Hs2 & Hfit & Hsame2 & Hdone). steps.
    rewrite E2. steps.
    destruct (write_wrote m2 (sbase m + off + 12 + vsize val) val') as (m3 & E3 & [W1 W2 W3 W4]); [lia|lia|].
    rewrite E3, bind_ret. exists 0, m3. split; [done|]. split; [done|].
    assert (bytes_at m (sbase m + off + 12) val) as Hold.
    { destruct Htok as (_ & _ & _ & Hval & _). unfold prop_data in Hval. rewrite (rw_version m Hrw) in Hval.
      change (17 <? 16) with false in Hval. cbn [andb] in Hval. by replace (sbase m + off + 12) with (sbase m + (off + 12)) by lia. }
    apply Hdone; [by rewrite vsize_app| |auto|done| |].
    + apply Forall_app. split; [|done]. eapply bytes_at_ok; [apply rw_bytes; exact Hrw|exact Hold].
    + intros i Hi. apply W4. lia.
    + apply bytes_at_app. split; [|exact W3]. intros i Hi. rewrite W4 by lia. rewrite Hsame2 by lia. by apply Hold.
  - rewrite H'. steps. exists (- FDT_ERR_NOSPACE), m. done.
Qed.
End Property.

(** ** Strings *)

(** The strings block has [k] more bytes; the rest is as before. *)
Record grown (m m1 : list Z) (k : Z) : Prop := {
  gr_bytes : bytes_ok m1;
  gr_size : vsize m1 = vsize m;
  gr_same : forall i, 0 <= i < 32 \/ 36 <= i < data_end m -> vget m1 i = vget m i;
  gr_strings : word m1 32 = word m 32 + k
}.

Section Grown.
Context (m m1 : list Z) (k : Z) (Hrw : rw_ok m) (Hg : grown m m1 k) (Hk : 0 <= k) (Hroom : data_end m + k <= total m).

Lemma grown_word a : 0 <= a -> a + 4 <= 32 \/ 36 <= a /\ a + 4 <= data_end m -> word m1 a = word m a.
Proof. intros H1 H2. apply word_same. intros i Hi. apply Hg. lia. Qed.

Lemma grown_rw : rw_ok m1.
Proof.
  pose proof (rw_sizes m Hrw). pose proof grown_word as Hw. pose proof (gr_strings _ _ _ Hg) as E32.
  destruct Hrw as [[[Hb Hh Hh17 Ht Hsm Hst] Hmg Hver Hlc Hs] Hv H1 H2 H3 H4].
  pose proof (gr_size _ _ _ Hg) as Esz. pose proof (gr_bytes _ _ _ Hg).
  constructor; [constructor; [constructor|..]|..]; rewrite ?E32, ?Esz, ?Hw by lia; try done; try lia.
Qed.

Lemma grown_string no name : string_at m no name -> string_at m1 no name.
Proof.
  intros (H1 & H2 & H3). pose proof (rw_sizes m Hrw). pose proof (rw_strings m Hrw).
  unfold string_at. rewrite (rw_strlimit m1 grown_rw), (gr_strings _ _ _ Hg).
  rewrite (rw_strlimit m Hrw) in H2. rewrite grown_word by lia. split_and!; [done|lia|].
  eapply cstr_agree; [|exact H3]. intros i Hi. apply Hg. lia.
Qed.

Lemma grown_tree its : tree_at m its -> tree_at m1 its.
Proof.
  intros (o & e & Hi & Ht & He). pose proof (rw_sizes m Hrw). pose proof (rw_strings m Hrw).
  rewrite (rw_slimit m Hrw) in He. pose proof (tok_at_len _ _ _ _ Ht). pose proof (items_at_mono _ _ _ _ Hi).
  assert (slimit m1 = word m 36) as Hsl by (rewrite (rw_slimit m1 grown_rw); apply grown_word; lia).
  exists o, e. split_and!; [| |lia].
  - pose proof (items_shift m m1 0 0 eq_refl ltac:(rewrite Z.add_0_r; apply grown_word; lia) ltac:(destruct Hrw; lia)
      ltac:(destruct grown_rw; lia) grown_string 0 its o Hi) as Hs.
    rewrite Z.add_0_r in Hs. rewrite map_shift_0 in Hs. rewrite Z.add_0_r in Hs. apply Hs; [|lia].
    intros i Hi'. change (0 + 0) with 0. rewrite Z.add_0_r. apply Hg. lia.
  - eapply tok_agree; [by apply grown_word; lia|by apply grown_word; lia| |exact Ht]. intros i Hi'. apply Hg. lia.
Qed.
End Grown.

Lemma del_last_string_grown m m1 k s :
  rw_ok m -> grown m m1 (vsize s + 1) -> k = vsize s + 1 -> data_end m + k <= total m ->
  exists m2, FdtRw.fdt_del_last_string_ m1 s = Ret m2 /\ grown m m2 0.
Proof.
  intros Hrw [H1 H2 H3 H4] -> Hroom. pose proof (rw_sizes m Hrw) as (Ht & Hsm & Hsz & Hsb & H36 & H32).
  pose proof (rw_strings m Hrw). pose proof (vsize_nonneg s). unfold FdtRw.fdt_del_last_string_.
  rewrite int_chk_ok by lia. steps. unfold fdt_size_dt_strings, fdt_set_size_dt_strings.
  rewrite fdt32_ld_ok by (done || lia). steps.
  rewrite H4. destruct (store32_wrote m1 32 (u32 (word m 32 + (vsize s + 1) - (vsize s + 1)))) as (m2 & E & W); [lia|lia|].
  exists m2. split; [exact E|]. pose proof (wr_size _ _ _ _ W). constructor.
  - by apply (wr_bytes _ _ _ _ W), be32_ok.
  - lia.
  - intros i Hi. rewrite (wr_same _ _ _ _ W) by (rewrite vsize_be32; lia). apply H3. lia.
  - rewrite (wrote_word _ _ _ _ W). rewrite !uwrap_small by (rewrite ?uwrap_small; lia). lia.
Qed.

(** [fdt_splice_string_] *)
Lemma splice_string_ok m n :
  rw_ok m -> 0 <= n ->
  if decide (data_end m + n <= total m)
  then exists m1, fdt_splice_string_ m n = Ret (0, m1) /\ grown m m1 n
  else fdt_splice_string_ m n = Ret (- FDT_ERR_NOSPACE, m).
Proof.
  intros Hrw Hn. pose proof (rw_sizes m Hrw) as (Ht & Hsm & Hsz & Hsb & H36 & H32).
  pose proof (rw_strings m Hrw) as Hst. pose proof (rw_end m Hrw) as Hde. pose proof (rw_bytes m Hrw) as Hb.
  pose proof (splice_ok m (data_end m) 0 n Hrw ltac:(lia) ltac:(lia) Hn ltac:(lia)) as Hspl.
  rewrite Z.sub_0_r in Hspl. unfold fdt_splice_string_. hdr. steps. case_decide; [|rewrite Hspl; by steps].
  destruct Hspl as (m1 & E & [H1 H2 H3 H4]). rewrite E. steps.
  unfold fdt_set_size_dt_strings. rewrite fdt32_ld_ok by (done || lia). steps.
  assert (word m1 32 = word m 32) as -> by (apply word_same; intros; apply H3; lia).
  destruct (store32_wrote m1 32 (u32 (word m 32 + n))) as (m2 & E2 & W); [lia|lia|].
  rewrite E2. steps. exists m2. split; [done|]. pose proof (wr_size _ _ _ _ W). constructor.
  - by apply (wr_bytes _ _ _ _ W), be32_ok.
  - lia.
  - intros i Hi. rewrite (wr_same _ _ _ _ W) by (rewrite vsize_be32; lia). apply H3. lia.
  - rewrite (wrote_word _ _ _ _ W). rewrite !uwrap_small by (rewrite ?uwrap_small; lia). lia.
Qed.

(** [fdt_find_add_string_] *)
Lemma find_add_string_ok m name :
  rw_ok m -> valid_str name -> vsize name < 2 ^ 30 ->
  (exists off (alloc : bool) m1 k, FdtRw.fdt_find_add_string_ m name = Ret (off, alloc, m1) /\
     0 <= off < 2 ^ 31 /\ k = (if alloc then vsize name + 1 else 0) /\ grown m m1 k /\ data_end m + k <= total m /\
     string_at m1 off name) \/
  (FdtRw.fdt_find_add_string_ m name = Ret (- FDT_ERR_NOSPACE, false, m) /\ total m < data_end m + vsize name + 1).
Proof.
  intros Hrw Hv Hlen. pose proof (rw_sizes m Hrw) as (Ht & Hsm & Hsz & Hsb & H36 & H32).
  pose proof (rw_strings m Hrw) as Hst. pose proof (rw_end m Hrw) as Hde. pose proof (rw_bytes m Hrw) as Hb.
  pose proof (vsize_nonneg name). unfold FdtRw.fdt_find_add_string_. hdr. rewrite int_chk_ok by lia. steps.
  rewrite !swrap_small by lia.
  destruct (find_string_spec m (strbase m) (word m 32) name) as (r & -> & Hr); [lia..|]. steps.
  assert (grown m m 0) as Hself by (constructor; done || lia). destruct r as [q|].
  - left. destruct Hr as (Hq1 & Hq2 & Hat). rewrite swrap_small by lia.
    exists (q - strbase m), false, m, 0. split_and!; try done; try lia.
    unfold string_at. rewrite (rw_strlimit m Hrw). split_and!; [lia..|].
    replace (strbase m + (q - strbase m)) with q by lia. split; [done|]. by apply valid_str_nonzero.
  - pose proof (splice_string_ok m (vsize name + 1) Hrw ltac:(lia)) as Hspl. case_decide; [|right].
    2: { rewrite Hspl. steps. split; [done|lia]. }
    left. destruct Hspl as (m1 & E & Hg). rewrite E. steps. pose proof Hg as [H1 H2 H3 H4].
    destruct (write_wrote m1 (data_end m) (name ++ [0])) as (m2 & E2 & W); rewrite ?vsize_app; try (change (vsize [0]) with 1); [lia|lia|].
    rewrite E2. steps. pose proof (wr_size _ _ _ _ W).
    assert (grown m m2 (vsize name + 1)) as Hg2.
    { constructor; [|lia| |].
      - apply (wr_bytes _ _ _ _ W); [done|]. by apply valid_str_bytes.
      - intros i Hi. rewrite (wr_same _ _ _ _ W) by lia. by apply H3.
      - rewrite <- H4. apply word_same. intros i Hi. apply (wr_same _ _ _ _ W). lia. }
    exists (data_end m - strbase m), true, m2, (vsize name + 1). split_and!; try done; try lia.
    unfold string_at. rewrite (rw_strlimit m2) by (eapply grown_rw; [exact Hrw|exact Hg2|lia..]).
    rewrite (gr_strings _ _ _ Hg2). rewrite (grown_word m m2 _ Hg2) by lia. split_and!; [lia..|].
    replace (strbase m + (data_end m - strbase m)) with (data_end m) by lia.
    split; [apply W|by apply valid_str_nonzero].
Qed.

(** ** New items *)

(** A place between items of a node's body, and what an insertion there does. *)
Lemma insertion m c o nname before after :
  rw_ok m -> tree_at m (plug c [INode o nname (before ++ after)]) ->
  exists e p o1 e1, tok_at m o (TBegin nname) e /\ items_at m (align4 e) before p /\
    items_at m p after o1 /\ tok_at m o1 TEndNode e1 /\ e1 <= slimit m /\
    0 <= p /\ p mod 4 = 0 /\ p <= word m 36 /\
    forall m' L new, edited m m' p p L -> 0 <= L -> L mod 4 = 0 -> data_end m + L <= total m ->
      items_at m' p new (p + L) ->
      rw_ok m' /\ tree_at m' (plug (shift_ctx L c) [INode o nname (before ++ new ++ map (shift L) after)]).
Proof.
  intros Hrw Htree. change (before ++ after) with (before ++ [] ++ after) in Htree.
  rewrite <- plug_in_node in Htree.
  destruct (edit_tree m _ _ Hrw Htree) as (p & q & Hp & Hp4 & Hpq & Hq4 & Hq & Hi & (oe & Hh) & Hedit).
  inversion Hi; subst. destruct (hole_in_node _ _ _ _ _ _ _ _ _ _ Hh) as (e & o1 & e1 & Ht & He & Hb & Ha & Ht1 & He1).
  exists e, q, o1, e1. split_and!; try done. intros m' L new Hed HL HL4 Hroom Hnew.
  rewrite <- plug_shift_in_node. specialize (Hedit m' L new).
  replace (L - (q - q)) with L in Hedit by lia. by apply Hedit.
Qed.

(** The tree after an insertion. *)
Lemma inserted_edits m' L c o nname before new after :
  rw_ok m' /\ tree_at m' (plug (shift_ctx L c) [INode o nname (before ++ new ++ map (shift L) after)]) ->
  edits_to m' (plug_erased c [DNode nname (erase_all before ++ erase_all new ++ erase_all after)]).
Proof.
  intros H. apply edits_moved in H. rewrite erase_all_node, !erase_all_app, erase_all_shift in H. exact H.
Qed.

(** The splice of an insertion. *)
Lemma insert_splice m p L :
  rw_ok m -> 0 <= p -> p <= word m 36 -> 0 <= L < 2 ^ 31 ->
  if decide (data_end m + L <= total m)
  then exists m1, fdt_splice_struct_ m (sbase m + p) 0 L = Ret (0, m1) /\ spliced_struct m m1 p p L
  else fdt_splice_struct_ m (sbase m + p) 0 L = Ret (- FDT_ERR_NOSPACE, m).
Proof.
  intros Hrw Hp Hq HL. pose proof (splice_struct_ok m p p L Hrw Hp ltac:(lia) Hq HL) as H.
  rewrite Z.sub_diag, Z.sub_0_r in H. exact H.
Qed.

(** Tag, name offset, length and value make a property. *)
Lemma new_property m m1 m2 m3 m4 m5 p off name val :
  rw_ok m -> 0 <= p -> p mod 4 = 0 -> p <= word m 36 -> 0 <= off < 2 ^ 31 -> string_at m off name ->
  bytes_ok val -> vsize val < 2 ^ 30 -> data_end m + (12 + align4 (vsize val)) <= total m ->
  edited m m1 p p (12 + align4 (vsize val)) ->
  wrote m1 (sbase m + p) (be32 FDT_PROP) m2 -> wrote m2 (sbase m + p + 8) (be32 (u32 off)) m3 ->
  wrote m3 (sbase m + p + 4) (be32 (u32 (vsize val))) m4 -> wrote m4 (sbase m + p + 12) val m5 ->
  edited m m5 p p (12 + align4 (vsize val)) /\ items_at m5 p [IProp p name val] (p + (12 + align4 (vsize val))).
Proof.
  intros Hrw Hp Hp4 Hq Hoff Hs Hbv Hlen Hroom Hed W2 W3 W4 W5.
  pose proof (align4_spec (vsize val)) as [Hal Hal4]. pose proof (vsize_nonneg val).
  pose proof (rw_sizes m Hrw) as (Ht & Hsm & Hsz & Hsb & H36 & H32). pose proof (rw_strings m Hrw). pose proof (rw_end m Hrw).
  assert (forall a v m' m'', edited m m' p p (12 + align4 (vsize val)) -> wrote m' a (be32 v) m'' ->
    sbase m + p <= a -> a + 4 <= sbase m + p + 12 -> edited m m'' p p (12 + align4 (vsize val))) as Hst.
  { intros a v m' m'' Hed' W Ha Ha'. eapply edited_wrote; [exact Hed'|exact W|apply be32_ok|..]; rewrite ?vsize_be32; lia. }
  pose proof (Hst _ _ _ _ Hed W2 ltac:(lia) ltac:(lia)) as Hed2. pose proof (Hst _ _ _ _ Hed2 W3 ltac:(lia) ltac:(lia)) as Hed3.
  pose proof (Hst _ _ _ _ Hed3 W4 ltac:(lia) ltac:(lia)) as Hed4.
  assert (edited m m5 p p (12 + align4 (vsize val))) as Hed5 by (eapply edited_wrote; [exact Hed4|exact W5|done|lia..]).
  split; [done|]. assert (rw_ok m5) as Hrw5 by (eapply (edited_rw m m5 p p); [done|exact Hed5|lia..]).
  assert (sbase m5 = sbase m) as Eb by (eapply edited_word; [exact Hed5|lia..]).
  replace (p + (12 + align4 (vsize val))) with (align4 (p + 12 + vsize val)).
  2: { rewrite <- Z.add_assoc, align4_shift by done. rewrite align4_shift by done. done. }
  assert (forall a, a + 4 <= sbase m + p + 12 -> word m5 a = word m4 a) as Hw5.
  { intros a Ha. eapply wrote_word_other; [exact W5|lia]. }
  eapply (at_prop _ _ off); [| |eapply (edited_string m m5 p p); [..|exact Hs]; try done; lia|constructor].
  - unfold tok_at. rewrite Eb, (rw_version m5 Hrw5). unfold prop_data. change (17 <? 16) with false. cbn [andb].
    rewrite !Hw5 by lia. split_and!.
    + rewrite (wrote_word_other _ _ _ _ _ W4), (wrote_word_other _ _ _ _ _ W3), (wrote_word _ _ _ _ W2) by (rewrite vsize_be32; lia). done.
    + rewrite (wrote_word _ _ _ _ W4). rewrite !uwrap_small by (rewrite ?uwrap_small; lia). done.
    + rewrite (wrote_word_other _ _ _ _ _ W4), (wrote_word _ _ _ _ W3) by (rewrite vsize_be32; lia).
      rewrite !uwrap_small by (rewrite ?uwrap_small; lia). done.
    + replace (sbase m + (p + 12)) with (sbase m + p + 12) by lia. apply W5.
    + done.
  - rewrite (rw_slimit m5 Hrw5), (ed_struct _ _ _ _ _ Hed5). lia.
Qed.

Section AddProperty.
Context (m : list Z) (Hrw : rw_ok m) (c : ctx) (o : Z) (nname : list Z) (body : list item).
Context (name : list Z) (Hname : valid_str name) (Hlen : vsize name < 2 ^ 30).
Context (Htree : tree_at m (plug c [INode o nname body])).

Lemma edits_same m1 k : grown m m1 k -> 0 <= k -> data_end m + k <= total m ->
  edits_to m1 (erase_all (plug c [INode o nname body])).
Proof.
  intros Hg Hk Hroom. split; [by eapply (grown_rw m m1 k)|]. eexists. split; [by eapply (grown_tree m m1 k)|done].
Qed.

Lemma add_property_ok len :
  0 <= len < 2 ^ 30 ->
  (exists prop m1, fdt_add_property_ m o name len = Ret (0, Some prop, m1) /\ vsize m1 = vsize m /\
     0 <= prop /\ prop + 12 + len <= vsize m /\
     forall val m2, vsize val = len -> bytes_ok val -> wrote m1 (prop + 12) val m2 ->
       edits_to m2 (plug_erased c [DNode nname (DProp name val :: erase_all body)])) \/
  (exists prop m1, fdt_add_property_ m o name len = Ret (- FDT_ERR_NOSPACE, prop, m1) /\
     edits_to m1 (erase_all (plug c [INode o nname body])) /\
     total m < data_end m + (vsize name + 1) + (12 + align4 len)).
Proof.
  intros Hl. pose proof (align4_spec len) as [Hal Hal4]. pose proof (vsize_nonneg name).
  destruct (tree_node m (rw_separated m Hrw) _ _ _ _ Htree) as (Ho & Ha & next & Hn).
  destruct (check_node_ok m (rw_complete m Hrw) o nname body next Ho Ha Hn) as (e0 & Ht0 & He0 & Hck).
  unfold fdt_add_property_. rewrite Hck. steps.
  pose proof (tok_at_len _ _ _ _ Ht0). pose proof (align4_spec e0). destruct (Z.ltb_spec (align4 e0) 0); [lia|].
  destruct (find_add_string_ok m name Hrw Hname Hlen) as [(off & alloc & m1 & k & -> & Hoff & Hk & Hg & Hroom & Hs)|[-> Hno]].
  2: { steps. right. exists None, m. split_and!; [done| |lia]. eapply (edits_same m 0); [|lia|destruct Hrw; lia].
       constructor; [by apply rw_bytes|done|done|lia]. }
  steps. destruct (Z.ltb_spec off 0); [lia|].
  assert (0 <= k) as Hk0 by (destruct alloc; lia). assert (rw_ok m1) as Hrw1 by (by eapply (grown_rw m m1 k)).
  pose proof (rw_bytes m1 Hrw1). pose proof (rw_sizes m1 Hrw1) as (Ht1 & Hsm1 & Hsz1 & Hsb1 & H361 & H321).
  pose proof (rw_sizes m Hrw) as (Htm & Hsm & Hsz & Hsb & H36 & H32). pose proof (rw_strings m Hrw). pose proof (rw_end m Hrw).
  assert (tree_at m1 (plug c [INode o nname ([] ++ body)])) as Htree1 by (by eapply (grown_tree m m1 k)).
  destruct (insertion m1 c o nname [] body Hrw1 Htree1) as (e & p & _ & _ & Ht & Hb & _ & _ & _ & Hp & Hp4 & Hpq & Hins).
  inversion Hb; subst p. clear Hb.
  assert (e = e0) as -> by (destruct Ht0 as [_ [_ ->]]; destruct Ht as [_ [_ ->]]; done).
  unfold fdt_offset_ptr_. hdr. steps. rewrite FDT_TAGALIGN_ok by lia. unfold sizeof_fdt_property. rewrite swrap_small by lia.
  assert (forall a, a = 4 \/ a = 12 -> word m1 a = word m a) as Hw by (intros a Ha'; eapply grown_word; [exact Hg|lia..]).
  pose proof (insert_splice m1 (align4 e0) (12 + align4 len) Hrw1 Hp Hpq ltac:(lia)) as Hspl.
  rewrite (Hw 4), (Hw 12), (gr_strings _ _ _ Hg) in Hspl by lia. case_decide as Hdec.
  - left. destruct Hspl as (m2 & E & Hss). rewrite E. steps. pose proof (ss_edited _ _ _ _ _ Hss) as Hed.
    pose proof (ed_size _ _ _ _ _ Hed). pose proof (gr_size _ _ _ Hg). pose proof (rw_strings m1 Hrw1).
    pose proof (Hw 12 ltac:(lia)) as Hw12.
    destruct (store32_wrote m2 (sbase m1 + align4 e0) FDT_PROP) as (m3 & -> & W3); [lia|lia|]. steps. pose proof (wr_size _ _ _ _ W3).
    destruct (store32_wrote m3 (sbase m1 + align4 e0 + 8) (u32 off)) as (m4 & -> & W4); [lia|lia|]. steps. pose proof (wr_size _ _ _ _ W4).
    destruct (store32_wrote m4 (sbase m1 + align4 e0 + 4) (u32 len)) as (m5 & -> & W5); [lia|lia|]. steps. pose proof (wr_size _ _ _ _ W5).
    eexists _, m5. split_and!; [done|lia|lia|lia|]. intros val m6 <- Hbv W6.
    assert (data_end m1 + (12 + align4 (vsize val)) <= total m1) as Hroom1.
    { rewrite (Hw 4), (Hw 12), (gr_strings _ _ _ Hg) by lia. lia. }
    destruct (new_property m1 m2 m3 m4 m5 m6 (align4 e0) off name val) as [Hed6 Hi6]; try done; try lia.
    eapply (inserted_edits m6 _ c o nname [] [IProp (align4 e0) name val] body), Hins;
      [done|lia|Z.div_mod_to_equations; lia|done|done].
  - right. rewrite Hspl. steps. destruct alloc.
    + destruct (del_last_string_grown m m1 k name) as (m2 & E2 & Hg2); [done|by rewrite <- Hk|done|done|].
      rewrite E2. steps. eexists _, m2. split_and!; [done|eapply edits_same; [exact Hg2|lia|lia]|lia].
    + eexists _, m1. split_and!; [done|eapply edits_same; [exact Hg|lia|lia]|lia].
Qed.

Lemma get_property_missing : find_prop name body = None -> fdt_get_property m o name = Ret (None, - FDT_ERR_NOTFOUND).
Proof.
  intros Hf. destruct (tree_node m (rw_separated m Hrw) _ _ _ _ Htree) as (Ho & Ha & next & Hn).
  pose proof (get_property_node m (rw_complete m Hrw) name o nname body next Ho Ha Hn) as Hget. rewrite Hf in Hget.
  unfold fdt_get_property, fdt_get_property_namelen. pose proof (rw_sizes m Hrw). pose proof (rw_bytes m Hrw).
  hdr. steps. by rewrite (rw_version m Hrw), Hget.
Qed.

(** What adding a property of value [val] comes to. *)
Definition property_added (r : outcome (Z * list Z)) (val : list Z) : Prop :=
  exists err m', r = Ret (err, m') /\
    ((err = 0 /\ edits_to m' (plug_erased c [DNode nname (DProp name val :: erase_all body)])) \/
     (err = - FDT_ERR_NOSPACE /\ edits_to m' (erase_all (plug c [INode o nname body])) /\
      total m < data_end m + (vsize name + 1) + (12 + align4 (vsize val)))).

(** [fdt_setprop] and [fdt_appendprop] on a property that is not there *)
Lemma setprop_add_tree val :
  find_prop name body = None -> bytes_ok val -> vsize val < 2 ^ 30 -> property_added (fdt_setprop m o name val) val.
Proof.
  intros Hf Hbv Hl. pose proof (vsize_nonneg val). unfold property_added, fdt_setprop, fdt_setprop_placeholder, fdt_resize_property_.
  rewrite int_chk_ok by lia. steps. rewrite (rw_probe m Hrw). steps. rewrite get_property_missing by done. steps.
  change (- FDT_ERR_NOTFOUND =? - FDT_ERR_NOTFOUND) with true. cbn iota.
  destruct (add_property_ok (vsize val) ltac:(lia)) as [(prop & m1 & -> & Hsz & Hp & Hfit & Hdone)|(prop & m1 & -> & Hed & Hno)]; steps.
  - unfold sizeof_fdt_property. destruct (write_wrote m1 (prop + 12) val) as (m2 & E2 & W); [lia|lia|].
    destruct (nz (vsize val)) eqn:Enz.
    + rewrite E2. steps. exists 0, m2. split; [done|]. left. split; [done|]. by apply (Hdone val m2).
    + apply nz_false in Enz. exists 0, m1. split; [done|]. left. split; [done|]. apply (Hdone val m1); [done..|].
      rewrite (vsize_zero val Enz) in E2 |- *. injection E2 as ->. rewrite (vsize_zero val Enz) in W. exact W.
  - exists (- FDT_ERR_NOSPACE), m1. split; [done|]. by right.
Qed.

Lemma appendprop_add_tree val :
  find_prop name body = None -> bytes_ok val -> vsize val < 2 ^ 30 -> property_added (fdt_appendprop m o name val) val.
Proof.
  intros Hf Hbv Hl. pose proof (vsize_nonneg val). unfold property_added, fdt_appendprop. rewrite rw_guard by done.
  rewrite int_chk_ok by lia. steps. rewrite get_property_missing by done. steps.
  destruct (add_property_ok (vsize val) ltac:(lia)) as [(prop & m1 & -> & Hsz & Hp & Hfit & Hdone)|(prop & m1 & -> & Hed & Hno)]; steps.
  - unfold sizeof_fdt_property. destruct (write_wrote m1 (prop + 12) val) as (m2 & E2 & W); [lia|lia|].
    rewrite E2. steps. exists 0, m2. split; [done|]. left. split; [done|]. by apply (Hdone val m2).
  - exists (- FDT_ERR_NOSPACE), m1. split; [done|]. by right.
Qed.
End AddProperty.

(** ** Nodes *)

(** [fdt_del_node] *)
Lemma del_node_tree m c o nname body :
  rw_ok m -> tree_at m (plug c [INode o nname body]) ->
  exists m', fdt_del_node m o = Ret (0, m') /\ edits_to m' (plug_erased c []).
Proof.
  intros Hrw Htree. destruct (edit_tree m _ _ Hrw Htree) as (p & q & Hp & Hp4 & Hpq & Hq4 & Hq & Hi & _ & Hedit).
  inversion Hi as [| | |? ? e ? o1 e1 ? ? Ht He Hb Ht1 He1 Hnil]; subst. inversion Hnil; subst. clear Hnil.
  pose proof (rw_sizes m Hrw) as (Htm & Hsm & Hsz & Hsb & H36 & H32). pose proof (rw_strings m Hrw). pose proof (rw_end m Hrw).
  pose proof (rw_bytes m Hrw).
  pose proof (splice_struct_ok m o (align4 e1) 0 Hrw Hp ltac:(lia) Hq ltac:(lia)) as Hspl.
  rewrite decide_True in Hspl by lia. destruct Hspl as (m' & E & Hss). exists m'. split.
  - unfold fdt_del_node. rewrite rw_guard by done.
    rewrite (node_end_node m (rw_complete m Hrw) o nname body (align4 e1)); [|done..|by exists e, o1, e1]. steps.
    destruct (Z.ltb_spec (align4 e1) 0); [lia|]. unfold fdt_offset_ptr_. hdr. steps. exact E.
  - eapply (edits_moved _ _ c []), (Hedit m' 0 []); [by destruct Hss|lia|done|lia|]. rewrite Z.add_0_r. constructor.
Qed.

(** Properties and NOPs only. *)
Definition is_prop (it : item) : bool := match it with INode _ _ _ => false | _ => true end.

(** The first tag that is not a property's. *)
Definition other_tag (m : list Z) (o : Z) : Prop :=
  exists t e, tok_at m o t e /\ e <= slimit m /\ tag_of t <> FDT_PROP /\ tag_of t <> FDT_NOP.

Lemma skip_props_ok m before : blob_ok m -> forall o p fuel,
  forallb is_prop before = true -> items_at m o before p -> 0 <= o -> other_tag m p ->
  slimit m < o + Z.of_nat fuel -> skip_props_loop fuel m o = Ret p.
Proof.
  intros Hm. induction before as [|it before IH]; intros o p fuel Hps Hi Ho Hot Hf.
  - inversion Hi; subst. destruct Hot as (t & e & Ht & He & H1 & H2). pose proof (tok_at_len _ _ _ _ Ht).
    destruct fuel as [|fuel]; [lia|]. cbn [skip_props_loop]. rewrite (next_tag_complete m p t e) by done. steps.
    destruct (Z.eqb_spec (tag_of t) FDT_PROP); [done|]. destruct (Z.eqb_spec (tag_of t) FDT_NOP); [done|]. done.
  - simpl in Hps. apply andb_true_iff in Hps as [Hit Hps]. inversion Hi; subst; [| |done];
      match goal with H : tok_at m o ?t ?e |- _ =>
        pose proof (tok_at_len _ _ _ _ H); pose proof (align4_spec e); pose proof (next_tag_complete m o t e Hm Ho H) as Enx
      end; (destruct fuel as [|fuel]; [lia|]); cbn [skip_props_loop]; rewrite Enx by done; steps;
      apply IH; done || lia.
Qed.

(** The tag after a stretch of the body is the next item's or the end of the
    node's. *)
Lemma after_props m o after p next :
  items_at m p after o -> tok_at m o TEndNode next -> next <= slimit m ->
  match after with [] => True | it :: _ => is_prop it = false end -> other_tag m p.
Proof.
  intros Hi Ht Hn Hf. destruct after as [|[| |off nm b] after]; try done.
  - inversion Hi; subst. exists TEndNode, next. done.
  - inversion Hi; subst. by exists (TBegin nm), e.
Qed.

(** The stores of a new node. *)
Lemma new_node m m1 m2 m3 m4 m5 p name :
  rw_ok m -> 0 <= p -> p mod 4 = 0 -> p <= word m 36 -> valid_str name -> vsize name < 2 ^ 29 ->
  data_end m + (8 + align4 (vsize name + 1)) <= total m ->
  edited m m1 p p (8 + align4 (vsize name + 1)) ->
  wrote m1 (sbase m + p) (be32 FDT_BEGIN_NODE) m2 ->
  wrote m2 (sbase m + p + 4) (replicate (Z.to_nat (align4 (vsize name + 1))) 0) m3 ->
  wrote m3 (sbase m + p + 4) name m4 ->
  wrote m4 (sbase m + p + 4 + align4 (vsize name + 1)) (be32 FDT_END_NODE) m5 ->
  edited m m5 p p (8 + align4 (vsize name + 1)) /\ items_at m5 p [INode p name []] (p + (8 + align4 (vsize name + 1))).
Proof.
  intros Hrw Hp Hp4 Hq Hv Hlen Hroom Hed W2 W3 W4 W5. set (L := align4 (vsize name + 1)) in *.
  pose proof (align4_spec (vsize name + 1)) as [HL HL4]. fold L in HL, HL4. pose proof (vsize_nonneg name).
  pose proof (rw_sizes m Hrw) as (Ht & Hsm & Hsz & Hsb & H36 & H32). pose proof (rw_strings m Hrw). pose proof (rw_end m Hrw).
  assert (vsize (replicate (Z.to_nat L) 0) = L) as Hrep by (unfold vsize; rewrite length_replicate; lia).
  assert (edited m m2 p p (8 + L)) as Hed2.
  { eapply edited_wrote; [exact Hed|exact W2|apply be32_ok|..]; rewrite ?vsize_be32; lia. }
  assert (edited m m3 p p (8 + L)) as Hed3.
  { eapply edited_wrote; [exact Hed2|exact W3|apply Forall_replicate; done|..]; rewrite ?Hrep; lia. }
  assert (edited m m4 p p (8 + L)) as Hed4.
  { eapply edited_wrote; [exact Hed3|exact W4| |..]; [|lia..]. eapply Forall_impl; [exact Hv|]. unfold is_byte. simpl. lia. }
  assert (edited m m5 p p (8 + L)) as Hed5.
  { eapply edited_wrote; [exact Hed4|exact W5|apply be32_ok|..]; rewrite ?vsize_be32; lia. }
  split; [done|]. assert (rw_ok m5) as Hrw5 by (eapply (edited_rw m m5 p p); [done|exact Hed5|lia..]).
  assert (sbase m5 = sbase m) as Eb by (eapply edited_word; [exact Hed5|lia..]).
  assert (slimit m5 = word m 36 + (8 + L)) as Esl by (rewrite (rw_slimit m5 Hrw5), (ed_struct _ _ _ _ _ Hed5); lia).
  assert (align4 (p + 4 + vsize name + 1) = p + 4 + L) as Eal.
  { replace (p + 4 + vsize name + 1) with (p + (4 + (vsize name + 1))) by lia. rewrite align4_shift by done.
    rewrite align4_shift by done. fold L. lia. }
  assert (align4 (p + 4 + L + 4) = p + (8 + L)) as Eal2 by (rewrite align4_id; Z.div_mod_to_equations; lia).
  assert (tok_at m5 p (TBegin name) (p + 4 + vsize name + 1)) as Htb.
  { unfold tok_at. rewrite Eb. split; [|split; [split; [|by apply valid_str_nonzero]|done]].
    - rewrite (wrote_word_other _ _ _ _ _ W5), (wrote_word_other _ _ _ _ _ W4), (wrote_word_other _ _ _ _ _ W3),
        (wrote_word _ _ _ _ W2) by lia. done.
    - apply bytes_at_app. split.
      + eapply wrote_bytes_other; [exact W5|lia|apply W4].
      + intros i Hi. change (vsize [0]) with 1 in Hi. replace i with 0 by lia. rewrite Z.add_0_r.
        rewrite (wr_same _ _ _ _ W5), (wr_same _ _ _ _ W4) by lia.
        rewrite (wr_at _ _ _ _ W3) by lia. rewrite vget_lookup_pos by lia.
        rewrite lookup_replicate_2 by lia. done. }
  assert (tok_at m5 (p + 4 + L) TEndNode (p + 4 + L + 4)) as Hte.
  { split; [|done]. rewrite Eb. replace (sbase m + (p + 4 + L)) with (sbase m + p + 4 + L) by lia.
    by rewrite (wrote_word _ _ _ _ W5). }
  rewrite <- Eal2. apply (at_node m5 p name (p + 4 + vsize name + 1) [] (p + 4 + L) (p + 4 + L + 4)); try done.
  - lia.
  - rewrite Eal. constructor.
  - lia.
  - constructor.
Qed.

(** [fdt_add_subnode] *)
Lemma add_subnode_tree m c o nname before after name :
  rw_ok m -> tree_at m (plug c [INode o nname (before ++ after)]) ->
  forallb is_prop before = true -> match after with [] => True | it :: _ => is_prop it = false end ->
  valid_str name -> vsize name < 2 ^ 29 ->
  match List.find (child_matches m name) (before ++ after) with
  | Some _ => fdt_add_subnode m o name = Ret (- FDT_ERR_EXISTS, m)
  | None =>
      if decide (data_end m + (8 + align4 (vsize name + 1)) <= total m)
      then let L := 8 + align4 (vsize name + 1) in
        exists p m', fdt_add_subnode m o name = Ret (p, m') /\ 0 <= p /\ rw_ok m' /\
          tree_at m' (plug (shift_ctx L c) [INode o nname (before ++ INode p name [] :: map (shift L) after)])
      else fdt_add_subnode m o name = Ret (- FDT_ERR_NOSPACE, m)
  end.
Proof.
  intros Hrw Htree Hps Haft Hv Hlen. pose proof (rw_complete m Hrw) as Hc. pose proof (co_blob m Hc) as Hm.
  destruct (tree_node m (rw_separated m Hrw) _ _ _ _ Htree) as (Ho & Ha & next & Hn).
  pose proof (subnode_offset_node m Hc name o nname _ next Ho Ha Hn) as Hsub.
  destruct (insertion m c o nname before after Hrw Htree)
    as (e & p & o1 & e1 & Ht & Hb & Hafi & Ht1 & He1 & Hp & Hp4 & Hpq & Hins).
  unfold fdt_add_subnode, fdt_add_subnode_namelen. rewrite rw_guard by done. rewrite Hsub. steps.
  pose proof (tok_at_len _ _ _ _ Ht). pose proof (align4_spec e) as [Hae _]. pose proof (items_at_mono _ _ _ _ Hb).
  destruct (List.find _ _) as [it|] eqn:Ef.
  { apply List.find_some in Ef as [Hin Hmt]. destruct it as [| |off nm b]; [done..|].
    destruct Hn as (e' & o1' & e1' & Ht' & _ & Hb' & _). pose proof (tok_at_len _ _ _ _ Ht').
    pose proof (align4_spec e') as [? ?].
    destruct (child_at m _ _ _ _ _ _ Hb' ltac:(lia) ltac:(done) Hin) as (Hoff & _).
    cbn [item_off]. destruct (Z.leb_spec 0 off); [done|lia]. }
  change (0 <=? - FDT_ERR_NOTFOUND) with false. change (- FDT_ERR_NOTFOUND =? - FDT_ERR_NOTFOUND) with true. steps.
  rewrite (next_tag_complete m o _ e Hm Ho Ht) by (rewrite (rw_slimit m Hrw); lia). steps. cbn [snd].
  pose proof (after_props m o1 after p e1 Hafi Ht1 He1 Haft) as Hot.
  rewrite (skip_props_ok m before Hm (align4 e) p) by (done || lia || (apply fuel_enough; lia || done)). steps.
  pose proof (rw_sizes m Hrw) as (Htm & Hsm & Hsz & Hsb & H36 & H32). pose proof (rw_strings m Hrw). pose proof (rw_end m Hrw).
  pose proof (rw_bytes m Hrw). pose proof (vsize_nonneg name). pose proof (align4_spec (vsize name + 1)) as [HL HL4].
  unfold fdt_offset_ptr_, FDT_TAGSIZE. hdr. steps. rewrite !FDT_TAGALIGN_ok by lia. rewrite !swrap_small by lia.
  replace (4 + align4 (vsize name + 1) + 4) with (8 + align4 (vsize name + 1)) by lia.
  pose proof (insert_splice m p (8 + align4 (vsize name + 1)) Hrw Hp Hpq ltac:(lia)) as Hspl.
  case_decide as Hroom; [|rewrite Hspl; by steps].
  destruct Hspl as (m1 & -> & Hss). steps. pose proof (ss_edited _ _ _ _ _ Hss) as Hed. pose proof (ed_size _ _ _ _ _ Hed).
  set (L := align4 (vsize name + 1)) in *.
  assert (vsize (replicate (Z.to_nat L) 0) = L) as Hrep by (unfold vsize; rewrite length_replicate; lia).
  destruct (store32_wrote m1 (sbase m + p) FDT_BEGIN_NODE) as (m2 & -> & W2); [lia|lia|]. steps. pose proof (wr_size _ _ _ _ W2).
  unfold memset. destruct (write_wrote m2 (sbase m + p + 4) (replicate (Z.to_nat L) 0)) as (m3 & -> & W3); [lia|lia|]. steps. pose proof (wr_size _ _ _ _ W3).
  destruct (write_wrote m3 (sbase m + p + 4) name) as (m4 & -> & W4); [lia|lia|]. steps. pose proof (wr_size _ _ _ _ W4).
  replace (sbase m + p + (8 + L) - 4) with (sbase m + p + 4 + L) by lia.
  destruct (store32_wrote m4 (sbase m + p + 4 + L) FDT_END_NODE) as (m5 & -> & W5); [lia|lia|]. steps.
  exists p, m5. split; [done|]. split; [done|].
  destruct (new_node m m1 m2 m3 m4 m5 p name) as [Hed5 Hi5]; try done.
  apply (Hins m5 (8 + L) [INode p name []]); [done|lia|Z.div_mod_to_equations; lia|lia|done].
Qed.

(** ** Names *)

Lemma get_name_at m o name body next :
  rw_ok m -> 0 <= o -> o mod 4 = 0 -> node_at m o name body next ->
  fdt_get_name m o = Ret (Some (sbase m + o + 4), vsize name).
Proof.
  intros Hrw Ho Ha Hn. pose proof (rw_complete m Hrw) as Hc.
  destruct (check_node_ok m Hc _ _ _ _ Ho Ha Hn) as (e & Ht & He & Hck). rewrite (rw_slimit m Hrw) in He.
  pose proof (rw_sizes m Hrw) as (Htm & Hsm & Hsz & Hsb & H36 & H32). pose proof (rw_strings m Hrw). pose proof (rw_end m Hrw).
  pose proof (rw_bytes m Hrw). destruct Ht as [_ [Hcs ->]]. pose proof (align4_spec (o + 4 + vsize name + 1)) as [? ?].
  pose proof (vsize_nonneg name). unfold fdt_get_name, fdt_offset_ptr_. hdr. steps. rewrite (ro_probe_complete m Hc). steps.
  destruct (Z.ltb_spec (total m) 0); [lia|]. rewrite Hck. steps.
  destruct (Z.ltb_spec (align4 (o + 4 + vsize name + 1)) 0); [lia|]. rewrite (rw_version m Hrw).
  change (17 <? 16) with false. cbn iota. rewrite (strlen_cstr _ _ _ Hcs). steps. by rewrite swrap_small by lia.
Qed.

(** An edit seen on a wider stretch. *)
Lemma edited_widen m m' p q L p' q' :
  edited m m' p q L -> p' <= p -> q <= q' -> edited m m' p' q' (L + (p - p') + (q' - q)).
Proof.
  intros [H1 H2 H3 H4 H5 H6 H7] Hp Hq.
  replace (L - (q - p)) with (L + (p - p') + (q' - q) - (q' - p')) in * by lia.
  constructor; try done.
  - intros i Hi. apply H6. lia.
  - intros i Hi. apply H7. lia.
Qed.

(** [fdt_set_name] *)
Lemma set_name_tree m c o nm body name :
  rw_ok m -> tree_at m (plug c [INode o nm body]) -> valid_str name -> vsize name < 2 ^ 30 ->
  exists err m', fdt_set_name m o name = Ret (err, m') /\
    if decide (data_end m + (align4 (vsize name + 1) - align4 (vsize nm + 1)) <= total m)
    then err = 0 /\ edits_to m' (plug_erased c [DNode name (erase_all body)])
    else err = - FDT_ERR_NOSPACE /\ m' = m.
Proof.
  intros Hrw Htree Hv Hlen. destruct (edit_tree m _ _ Hrw Htree) as (p & q & Hp & Hp4 & Hpq & Hq4 & Hq & Hi & _ & Hedit).
  inversion Hi as [| | |? ? e ? o1 e1 ? ? Ht He Hb Ht1 He1 Hnil]; subst. inversion Hnil; subst. clear Hnil.
  pose proof (rw_sizes m Hrw) as (Htm & Hsm & Hsz & Hsb & H36 & H32). pose proof (rw_strings m Hrw). pose proof (rw_end m Hrw).
  assert (node_at m o nm body (align4 e1)) as Hn by (by exists e, o1, e1).
  pose proof (items_at_mono _ _ _ _ Hb). pose proof (tok_at_len _ _ _ _ Ht1). pose proof (align4_spec e1) as [Hae1 _].
  assert (align4 e = o + 4 + align4 (vsize nm + 1)) as Eal.
  { destruct Ht as (_ & _ & ->). replace (o + 4 + vsize nm + 1) with (o + (4 + (vsize nm + 1))) by lia.
    rewrite align4_shift by done. rewrite align4_shift by done. lia. }
  pose proof (vsize_nonneg nm). pose proof (vsize_nonneg name).
  pose proof (align4_spec (vsize nm + 1)) as [Ho1 Ho2]. pose proof (align4_spec (vsize name + 1)) as [Hn1 Hn2].
  set (A := align4 (vsize nm + 1)) in *. set (B := align4 (vsize name + 1)) in *.
  pose proof (splice_struct_ok m (o + 4) (o + 4 + A) B Hrw ltac:(lia) ltac:(lia) ltac:(lia) ltac:(lia)) as Hspl.
  replace (o + 4 + A - (o + 4)) with A in Hspl by lia. replace (sbase m + (o + 4)) with (sbase m + o + 4) in Hspl by lia.
  unfold fdt_set_name. rewrite rw_guard by done. rewrite (get_name_at m o nm body _ Hrw Hp Hp4 Hn). steps.
  rewrite int_chk_ok by lia. steps. rewrite !FDT_TAGALIGN_ok by lia. fold A B. rewrite !swrap_small by lia.
  case_decide as Hroom; [|rewrite Hspl; steps; by exists (- FDT_ERR_NOSPACE), m].
  destruct Hspl as (m1 & -> & Hss). steps. pose proof (ss_edited _ _ _ _ _ Hss) as Hed1. pose proof (ed_size _ _ _ _ _ Hed1).
  destruct (write_wrote m1 (sbase m + o + 4) (name ++ [0])) as (m2 & -> & W2);
    rewrite ?vsize_app; change (vsize [0]) with 1; [lia|lia|]. steps. exists 0, m2. split; [done|]. split; [done|].
  assert (edited m m2 (o + 4) (o + 4 + A) B) as Hed2.
  { eapply edited_wrote; [exact Hed1|exact W2|by apply valid_str_bytes|..]; rewrite ?vsize_app; try change (vsize [0]) with 1; lia. }
  set (d := B - (o + 4 + A - (o + 4))). assert (d = B - A) as Hd by (unfold d; lia).
  assert (d mod 4 = 0) as Hd4 by (Z.div_mod_to_equations; lia).
  pose proof (edited_widen m m2 _ _ _ o (align4 e1) Hed2 ltac:(lia) ltac:(lia)) as Hed3.
  replace (B + (o + 4 - o) + (align4 e1 - (o + 4 + A))) with (align4 e1 - o + d) in Hed3 by lia.
  change [DNode name (erase_all body)] with (erase_all [INode o name body]).
  assert (erase_all [INode o name body] = erase_all [INode o name (map (shift d) body)]) as ->.
  { by rewrite !erase_all_node, erase_all_shift. }
  eapply edits_moved, (Hedit m2 (align4 e1 - o + d)); [done|lia|Z.div_mod_to_equations; lia|lia|].
  assert (rw_ok m2) as Hrw2 by (eapply (edited_rw m m2 (o + 4) (o + 4 + A) B); done || lia).
  assert (sbase m2 = sbase m) as Eb by (eapply edited_word; [exact Hed2|lia..]).
  assert (slimit m2 = word m 36 + d) as Esl by (rewrite (rw_slimit m2 Hrw2), (ed_struct _ _ _ _ _ Hed2); lia).
  assert (align4 (o + 4 + vsize name + 1) = align4 e + d) as Eal2.
  { replace (o + 4 + vsize name + 1) with (o + (4 + (vsize name + 1))) by lia. rewrite align4_shift by done.
    rewrite align4_shift by done. fold B. lia. }
  replace (o + (align4 e1 - o + d)) with (align4 (e1 + d)) by (rewrite align4_add by done; lia).
  apply (at_node m2 o name (o + 4 + vsize name + 1) _ (o1 + d) (e1 + d)); [|lia| | |lia|constructor].
  - unfold tok_at. rewrite Eb. split; [|split; [split; [apply W2|by apply valid_str_nonzero]|done]].
    rewrite (wrote_word_other _ _ _ _ _ W2) by lia. rewrite (spliced_struct_word _ _ _ _ _ _ Hss) by lia. apply Ht.
  - rewrite Eal2. eapply (edited_after m m2 (o + 4) (o + 4 + A) B); done || lia.
  - eapply (edited_tok_after m m2 (o + 4) (o + 4 + A) B); done || lia.
Qed.
