(* ===== verification/FdtMove.v ===== *)
(** * libfdt: moving whole blocks

    The reservation map, packing and opening move the blocks of a blob without
    changing the structure block: the same tree, at the same offsets, is found
    behind a new header.

    [fdt_packblocks_] lays the blocks out behind a header, downwards in place or
    into free memory; [fdt_pack], [fdt_open_into] and [fdt_create_empty_tree]
    build on it.  [blocks] describes the source, [repacked] the result. *)

From stdpp Require Import base option list strings.
From S2P Require Import Prelude.
From S2P Require Import BranchHash.
From S2P Require Import FdtBase.
From S2P Require Import FdtTags.
From S2P Require Import FdtTree.
From S2P Require Import FdtRead.
From S2P Require Import FdtReadFacts.
From S2P Require Import FdtCheck.
From S2P Require Import FdtWrite.
From S2P Require Import FdtWriteFacts.
From S2P Require Import FdtFinish.
From S2P Require Import FdtRoundtrip.
From S2P Require Import FdtMachine.
From S2P Require Import FdtInplace.
From S2P Require Import FdtRw.
From S2P Require Import FdtEdit.
From S2P Require Import FdtRwFacts.

(** ** The blocks of a blob somewhere else *)

(** The structure block moved by [D], the strings by [E]. *)
Record relocated (m m' : list Z) (D E : Z) : Prop := {
  rl_struct : sbase m' = sbase m + D /\ word m' 36 = word m 36;
  rl_strings : strbase m' = strbase m + E /\ word m' 32 = word m 32;
  rl_struct_bytes : forall i, sbase m <= i < sbase m + word m 36 -> vget m' (i + D) = vget m i;
  rl_strings_bytes : forall i, strbase m <= i < data_end m -> vget m' (i + E) = vget m i
}.

Lemma relocated_tree m m' D E its :
  rw_ok m -> rw_ok m' -> relocated m m' D E -> tree_at m its -> tree_at m' its.
Proof.
  intros Hrw Hrw' [[H1 H2] [H3 H4] H5 H6] (o & e & Hi & Ht & He).
  pose proof (rw_slimit m Hrw) as Hsl. pose proof (rw_slimit m' Hrw') as Hsl'.
  assert (forall no name, string_at m no name -> string_at m' no name) as Hstr.
  { intros no name (N1 & N2 & N3 & N4). unfold string_at. rewrite (rw_strlimit m' Hrw'), H4, H3.
    rewrite (rw_strlimit m Hrw) in N2. split_and!; [done..|]. split; [|done]. intros i Hi'.
    rewrite vsize_app in Hi'. change (vsize [0]) with 1 in Hi'.
    replace (strbase m + E + no + i) with (strbase m + no + i + E) by lia. rewrite H6 by lia. apply N3.
    rewrite vsize_app. change (vsize [0]) with 1. lia. }
  assert (moved m m' D 0 0 e) as Hmv.
  { intros i Hi'. rewrite Z.add_0_r. apply H5. lia. }
  pose proof (tok_at_len _ _ _ _ Ht). pose proof (items_at_mono _ _ _ _ Hi).
  exists o, e. split_and!; [| |lia].
  - pose proof (items_shift m m' D 0 eq_refl H1 ltac:(rewrite (rw_version m Hrw); lia) ltac:(rewrite (rw_version m' Hrw'); lia)
      Hstr 0 its o Hi) as Hs. rewrite !Z.add_0_r, map_shift_0 in Hs. apply Hs; [|lia].
    eapply moved_sub; [exact Hmv|lia..].
  - pose proof (tok_shift m m' D 0 H1 ltac:(rewrite (rw_version m Hrw); lia) ltac:(rewrite (rw_version m' Hrw'); lia) o TEnd e Ht) as Hs.
    rewrite !Z.add_0_r in Hs. apply Hs. eapply moved_sub; [exact Hmv|lia..].
Qed.

(** ** The reservation map as a list *)

Definition entry_at (m : list Z) (i : Z) (e : Z * Z) : Prop :=
  dword m (rsvbase m + 16 * i) = e.1 /\ dword m (rsvbase m + 16 * i + 8) = e.2.

(** The entries and the terminator, all before the structure block. *)
Record rsv_list (m : list Z) (rs : list (Z * Z)) : Prop := {
  rv_entries : forall i e, rs !! i = Some e -> entry_at m (Z.of_nat i) e /\ e.2 <> 0;
  rv_end : dword m (rsvbase m + 16 * vsize rs + 8) = 0;
  rv_room : rsvbase m + 16 * vsize rs + 16 <= sbase m
}.

Lemma rsv_list_map m rs : rw_ok m -> rsv_list m rs -> rsvmap_at m (vsize rs).
Proof.
  intros Hrw [H1 H2 H3]. pose proof (rw_sizes m Hrw). pose proof (rw_strings m Hrw). pose proof (rw_end m Hrw).
  pose proof (vsize_nonneg rs). split_and!; [done|lia|done|]. intros i Hi.
  destruct (rsv_lookup_nth rs i Hi) as [e He]. destruct (H1 _ _ He) as [[_ E] Hne]. rewrite Z2Nat.id in E by lia. lia.
Qed.

Lemma num_mem_rsv_list m rs : rw_ok m -> rsv_list m rs -> fdt_num_mem_rsv m = Ret (vsize rs).
Proof.
  intros Hrw Hl. pose proof (rsv_list_map m rs Hrw Hl) as Hmap. pose proof (rw_sizes m Hrw). pose proof (rw_strings m Hrw).
  pose proof (rw_end m Hrw). pose proof (rw_rsvmap m Hrw). pose proof (rw_struct m Hrw).
  destruct (num_mem_rsv_spec m (rw_complete m Hrw)) as [(n & Hn & E)|[_ Hno]]; [lia|lia| |by destruct (Hno _ Hmap)].
  rewrite E. f_equal. by eapply rsvmap_unique.
Qed.

Lemma dword_same m m' a d : (forall i, a <= i < a + 8 -> vget m' (i + d) = vget m i) -> dword m' (a + d) = dword m a.
Proof.
  intros H. unfold dword, word, byte.
  replace (a + d + 4) with (a + 4 + d) by lia.
  replace (a + d + 1) with (a + 1 + d) by lia. replace (a + d + 2) with (a + 2 + d) by lia.
  replace (a + d + 3) with (a + 3 + d) by lia. replace (a + 4 + d + 1) with (a + 4 + 1 + d) by lia.
  replace (a + 4 + d + 2) with (a + 4 + 2 + d) by lia. replace (a + 4 + d + 3) with (a + 4 + 3 + d) by lia.
  by rewrite !H by lia.
Qed.

(** ** Splices of the reservation map *)

(** The map's bytes from [re] on and the other blocks moved by [D]. *)
Record rsv_spliced (m m1 : list Z) (re oldn newn : Z) : Prop := {
  rs_bytes : bytes_ok m1;
  rs_size : vsize m1 = vsize m;
  rs_header : forall i, 0 <= i < 8 \/ 16 <= i < 40 -> vget m1 i = vget m i;
  rs_words : sbase m1 = sbase m + 16 * (newn - oldn) /\ strbase m1 = strbase m + 16 * (newn - oldn);
  rs_before : forall i, 40 <= i < re -> vget m1 i = vget m i;
  rs_after : forall i, re + 16 * oldn <= i < data_end m -> vget m1 (i + 16 * (newn - oldn)) = vget m i
}.

Lemma splice_mem_rsv_ok m re oldn newn :
  rw_ok m -> 40 <= re -> 0 <= oldn <= 1 -> 0 <= newn <= 1 -> re + 16 * oldn <= sbase m ->
  if decide (data_end m + 16 * (newn - oldn) <= total m)
  then exists m1, fdt_splice_mem_rsv_ m re oldn newn = Ret (0, m1) /\ rsv_spliced m m1 re oldn newn
  else fdt_splice_mem_rsv_ m re oldn newn = Ret (- FDT_ERR_NOSPACE, m).
Proof.
  intros Hrw Hre Ho Hn Hend. pose proof (rw_sizes m Hrw) as (Ht & Hsm & Hsz & Hsb & H36 & H32).
  pose proof (rw_end m Hrw) as Hde. pose proof (rw_strings m Hrw) as Hst.
  pose proof (splice_ok m re (16 * oldn) (16 * newn) Hrw ltac:(lia) ltac:(lia) ltac:(lia) ltac:(lia)) as H.
  unfold fdt_splice_mem_rsv_, sizeof_fdt_reserve_entry. rewrite !swrap_small by lia.
  replace (oldn * 16) with (16 * oldn) by lia. replace (newn * 16) with (16 * newn) by lia.
  replace ((newn - oldn) * 16) with (16 * (newn - oldn)) by lia. replace (16 * newn - 16 * oldn) with (16 * (newn - oldn)) in H by lia.
  set (D := 16 * (newn - oldn)) in *. assert (-16 <= D <= 16) as HD by lia.
  case_decide; [|rewrite H; by steps]. destruct H as (m1 & E & [H1 H2 H3 H4]). rewrite E. steps.
  replace (16 * newn - 16 * oldn) with D in H4 by lia.
  unfold fdt_off_dt_struct, move_dt_strings, fdt_off_dt_strings, fdt_set_off_dt_struct, fdt_set_off_dt_strings.
  rewrite fdt32_ld_ok by (done || lia). steps.
  assert (word m1 8 = sbase m) as -> by (apply word_same; intros; apply H3; lia).
  destruct (store32_wrote m1 8 (u32 (sbase m + D))) as (m2 & E2 & W2); [lia|lia|].
  rewrite E2. steps. pose proof (wr_size _ _ _ _ W2). pose proof (wr_bytes _ _ _ _ W2 H1 (be32_ok _)).
  rewrite fdt32_ld_ok by (done || lia). steps.
  rewrite (wrote_word_other _ _ _ _ 12 W2) by (rewrite vsize_be32; lia).
  assert (word m1 12 = strbase m) as -> by (apply word_same; intros; apply H3; lia).
  destruct (store32_wrote m2 12 (u32 (strbase m + D))) as (m3 & E3 & W3); [lia|lia|].
  rewrite E3. steps. pose proof (wr_size _ _ _ _ W3). pose proof (wr_bytes _ _ _ _ W3 ltac:(done) (be32_ok _)).
  exists m3. split; [done|]. rewrite !uwrap_small in * by lia.
  assert (forall i, 0 <= i < 8 \/ 16 <= i -> vget m3 i = vget m1 i) as Hsame.
  { intros i Hi. rewrite (wr_same _ _ _ _ W3), (wr_same _ _ _ _ W2); rewrite ?vsize_be32; done || lia. }
  constructor; [done|lia| | | |]; fold D.
  - intros i Hi. rewrite Hsame by lia. apply H3. lia.
  - rewrite (wrote_word_other _ _ _ _ 8 W3) by (rewrite vsize_be32; lia). rewrite (wrote_word _ _ _ _ W2), (wrote_word _ _ _ _ W3).
    rewrite !uwrap_small by lia. done.
  - intros i Hi. rewrite Hsame by lia. apply H3. lia.
  - intros i Hi. rewrite Hsame by lia. apply H4. lia.
Qed.

Section RsvSpliced.
Context (m m1 : list Z) (re oldn newn : Z) (Hrw : rw_ok m) (Hs : rsv_spliced m m1 re oldn newn).
Context (Hre : rsvbase m <= re) (Ho : 0 <= oldn <= 1) (Hn : 0 <= newn <= 1) (Hend : re + 16 * oldn + 16 <= sbase m).
Context (Hroom : data_end m + 16 * (newn - oldn) <= total m).

Lemma rsv_spliced_word a : 0 <= a -> a + 4 <= 8 \/ 16 <= a /\ a + 4 <= 40 -> word m1 a = word m a.
Proof. intros H1 H2. apply word_same. intros i Hi. apply (rs_header _ _ _ _ _ Hs). lia. Qed.

Lemma rsv_spliced_rw : rw_ok m1.
Proof.
  pose proof (rw_sizes m Hrw). pose proof rsv_spliced_word as Hw. destruct (rs_words _ _ _ _ _ Hs) as [E8 E12].
  destruct Hrw as [[[Hb Hh Hh17 Ht Hsm Hst] Hmg Hver Hlc Hss] Hv H1 H2 H3 H4].
  pose proof (rs_size _ _ _ _ _ Hs) as Esz. pose proof (rs_bytes _ _ _ _ _ Hs).
  constructor; [constructor; [constructor|..]|..]; rewrite ?E8, ?E12, ?Esz, ?Hw by lia; try done; try lia.
Qed.

Lemma rsv_spliced_relocated : relocated m m1 (16 * (newn - oldn)) (16 * (newn - oldn)).
Proof.
  pose proof (rw_sizes m Hrw). pose proof (rw_strings m Hrw). destruct (rs_words _ _ _ _ _ Hs) as [E8 E12].
  constructor; [split; [done|apply rsv_spliced_word; lia]|split; [done|apply rsv_spliced_word; lia]| |];
    intros i Hi; apply (rs_after _ _ _ _ _ Hs); lia.
Qed.

Lemma rsv_spliced_tree its : tree_at m its -> tree_at m1 its.
Proof. apply (relocated_tree m m1 _ _ its Hrw rsv_spliced_rw rsv_spliced_relocated). Qed.

(** Entries before and behind the splice. *)
Lemma rsv_spliced_before a : 40 <= a -> a + 8 <= re -> dword m1 a = dword m a.
Proof.
  intros H1 H2. rewrite <- (Z.add_0_r a) at 1. apply dword_same. intros i Hi. rewrite Z.add_0_r. apply (rs_before _ _ _ _ _ Hs). lia.
Qed.

Lemma rsv_spliced_after a :
  re + 16 * oldn <= a -> a + 8 <= sbase m -> dword m1 (a + 16 * (newn - oldn)) = dword m a.
Proof.
  intros H1 H2. pose proof (rw_sizes m Hrw). pose proof (rw_strings m Hrw).
  apply dword_same. intros i Hi. apply (rs_after _ _ _ _ _ Hs). lia.
Qed.

Lemma rsv_spliced_wrote a bs m2 :
  wrote m1 a bs m2 -> bytes_ok bs -> re <= a -> a + vsize bs <= re + 16 * newn -> rsv_spliced m m2 re oldn newn.
Proof.
  intros [W1 W2 W3 W4] Hb Ha Hab. pose proof (vsize_nonneg bs). pose proof (rw_rsvmap m Hrw).
  destruct Hs as [H1 H2 H3 [H4 H4'] H5 H6]. constructor; [auto|lia| |split| |].
  - intros i Hi. rewrite W4 by lia. by apply H3.
  - rewrite <- H4. apply word_same. intros i Hi. apply W4. lia.
  - rewrite <- H4'. apply word_same. intros i Hi. apply W4. lia.
  - intros i Hi. rewrite W4 by lia. by apply H5.
  - intros i Hi. rewrite W4 by lia. by apply H6.
Qed.
End RsvSpliced.

Lemma mem_rsv_ptr m n : rw_ok m -> fdt_mem_rsv_ m n = Ret (rsvbase m + 16 * n).
Proof.
  intros Hrw. pose proof (rw_sizes m Hrw). pose proof (rw_bytes m Hrw). unfold fdt_mem_rsv_, sizeof_fdt_reserve_entry.
  hdr. steps. f_equal. lia.
Qed.

(** [fdt_add_mem_rsv] *)
Lemma add_mem_rsv_ok m rs its addr size :
  rw_ok m -> rsv_list m rs -> tree_at m its -> 0 <= addr < 2 ^ 64 -> 0 < size < 2 ^ 64 ->
  if decide (data_end m + 16 <= total m)
  then exists m', fdt_add_mem_rsv m addr size = Ret (0, m') /\ rw_ok m' /\ rsv_list m' (rs ++ [(addr, size)]) /\ tree_at m' its
  else fdt_add_mem_rsv m addr size = Ret (- FDT_ERR_NOSPACE, m).
Proof.
  intros Hrw Hl Htree Ha Hsz. pose proof (num_mem_rsv_list m rs Hrw Hl) as Hnum. pose proof (vsize_nonneg rs).
  pose proof (rw_sizes m Hrw) as (Ht & Hsm & Hsz' & Hsb & H36 & H32). pose proof (rw_end m Hrw). pose proof (rw_strings m Hrw).
  pose proof (rw_rsvmap m Hrw). destruct Hl as [He Hz Hroom].
  unfold fdt_add_mem_rsv. rewrite rw_guard by done. rewrite Hnum. steps. rewrite mem_rsv_ptr by done. steps.
  set (re := rsvbase m + 16 * vsize rs) in *.
  pose proof (splice_mem_rsv_ok m re 0 1 Hrw ltac:(lia) ltac:(lia) ltac:(lia) ltac:(lia)) as Hspl.
  change (16 * (1 - 0)) with 16 in Hspl. case_decide; [|rewrite Hspl; by steps].
  destruct Hspl as (m1 & -> & Hs1). steps. pose proof (rs_size _ _ _ _ _ Hs1).
  destruct (store64_wrote m1 re addr) as (m2 & -> & W2); [lia|lia|]. steps. pose proof (wr_size _ _ _ _ W2).
  destruct (store64_wrote m2 (re + 8) size) as (m3 & -> & W3); [lia|lia|]. steps.
  assert (rsv_spliced m m2 re 0 1) as Hs2.
  { eapply rsv_spliced_wrote; [exact Hrw|exact Hs1|lia|exact W2|apply be64_ok|..]; rewrite ?vsize_be64; lia. }
  assert (rsv_spliced m m3 re 0 1) as Hs3.
  { eapply rsv_spliced_wrote; [exact Hrw|exact Hs2|lia|exact W3|apply be64_ok|..]; rewrite ?vsize_be64; lia. }
  assert (rw_ok m3) as Hrw3 by (eapply (rsv_spliced_rw m m3 re 0 1); done || lia).
  assert (rsvbase m3 = rsvbase m) as Erb by (eapply rsv_spliced_word; [exact Hs3|lia..]).
  exists m3. split_and!; [done|done| |eapply (rsv_spliced_tree m m3 re 0 1); done || lia].
  assert (dword m3 re = addr) as Eaddr.
  { apply dword_at; [done|]. eapply wrote_bytes_other; [exact W3|rewrite vsize_be64; lia|apply W2]. }
  assert (dword m3 (re + 8) = size) as Esize by (apply dword_at; [lia|apply W3]).
  constructor.
  - intros i e Hi. unfold entry_at. rewrite Erb. apply lookup_app_Some in Hi as [Hi|[Hi1 Hi]].
    + destruct (He i e Hi) as [[E1 E2] Hne]. apply lookup_lt_Some in Hi. split; [|done].
      rewrite !(rsv_spliced_before m m3 re 0 1 Hs3) by (unfold re, vsize in *; lia). done.
    + destruct (i - length rs)%nat eqn:Ei; [|done]. simpl in Hi. injection Hi as <-. simpl.
      replace (rsvbase m + 16 * Z.of_nat i) with re by (unfold re, vsize; lia). split; [done|lia].
  - rewrite Erb, vsize_app. change (vsize [(addr, size)]) with 1.
    replace (rsvbase m + 16 * (vsize rs + 1) + 8) with (re + 8 + 16 * (1 - 0)) by (unfold re; lia).
    rewrite (rsv_spliced_after m m3 re 0 1 Hrw Hs3) by lia. exact Hz.
  - destruct (rs_words _ _ _ _ _ Hs3) as [E8 _]. rewrite Erb, E8, vsize_app. change (vsize [(addr, size)]) with 1. lia.
Qed.

(** [fdt_del_mem_rsv] *)
Lemma del_mem_rsv_ok m rs its n :
  rw_ok m -> rsv_list m rs -> tree_at m its -> 0 <= n ->
  if decide (n < vsize rs)
  then exists m', fdt_del_mem_rsv m n = Ret (0, m') /\ rw_ok m' /\
    rsv_list m' (take (Z.to_nat n) rs ++ drop (S (Z.to_nat n)) rs) /\ tree_at m' its
  else fdt_del_mem_rsv m n = Ret (- FDT_ERR_NOTFOUND, m).
Proof.
  intros Hrw Hl Htree Hn. pose proof (num_mem_rsv_list m rs Hrw Hl) as Hnum. pose proof (vsize_nonneg rs).
  pose proof (rw_sizes m Hrw) as (Ht & Hsm & Hsz' & Hsb & H36 & H32). pose proof (rw_end m Hrw). pose proof (rw_strings m Hrw).
  pose proof (rw_rsvmap m Hrw). destruct Hl as [He Hz Hroom].
  unfold fdt_del_mem_rsv. rewrite mem_rsv_ptr by done. steps. rewrite rw_guard by done. rewrite Hnum. steps.
  case_decide as Hlt; destruct (Z.leb_spec (vsize rs) n); try lia; [|done].
  set (re := rsvbase m + 16 * n) in *.
  pose proof (splice_mem_rsv_ok m re 1 0 Hrw ltac:(lia) ltac:(lia) ltac:(lia) ltac:(lia)) as Hspl.
  rewrite decide_True in Hspl by lia. destruct Hspl as (m1 & E & Hs1). exists m1. split; [done|].
  assert (rw_ok m1) as Hrw1 by (eapply (rsv_spliced_rw m m1 re 1 0); done || lia).
  assert (rsvbase m1 = rsvbase m) as Erb by (eapply rsv_spliced_word; [exact Hs1|lia..]).
  assert (vsize (take (Z.to_nat n) rs ++ drop (S (Z.to_nat n)) rs) = vsize rs - 1) as Elen.
  { unfold vsize in *. rewrite length_app, length_take, length_drop. lia. }
  split_and!; [done| |eapply (rsv_spliced_tree m m1 re 1 0); done || lia]. constructor.
  - intros i e Hi. unfold entry_at. rewrite Erb. apply lookup_app_Some in Hi as [Hi|[Hi1 Hi]].
    + apply lookup_take_Some in Hi as [Hi Hlt']. destruct (He i e Hi) as [[E1 E2] Hne]. split; [|done].
      rewrite !(rsv_spliced_before m m1 re 1 0 Hs1) by (unfold re; lia). done.
    + rewrite lookup_drop in Hi. rewrite length_take in Hi, Hi1.
      assert (S (Z.to_nat n) + (i - Z.to_nat n `min` length rs) = S i)%nat as Ei by (unfold vsize in *; lia).
      rewrite Ei in Hi. destruct (He _ e Hi) as [[E1 E2] Hne]. split; [|done]. apply lookup_lt_Some in Hi.
      replace (rsvbase m + 16 * Z.of_nat i) with (rsvbase m + 16 * Z.of_nat (S i) + 16 * (0 - 1)) by lia.
      replace (rsvbase m + 16 * Z.of_nat (S i) + 16 * (0 - 1) + 8) with (rsvbase m + 16 * Z.of_nat (S i) + 8 + 16 * (0 - 1)) by lia.
      rewrite !(rsv_spliced_after m m1 re 1 0 Hrw Hs1) by (unfold re, vsize in *; lia). done.
  - rewrite Erb, Elen. replace (rsvbase m + 16 * (vsize rs - 1) + 8) with (rsvbase m + 16 * vsize rs + 8 + 16 * (0 - 1)) by lia.
    rewrite (rsv_spliced_after m m1 re 1 0 Hrw Hs1) by (unfold re; lia). exact Hz.
  - destruct (rs_words _ _ _ _ _ Hs1) as [E8 _]. rewrite Erb, E8, Elen. lia.
Qed.

(** ** Packing the blocks behind a header *)

(** The blocks of [m], their sizes [R], [S] and [N], behind a header at [new]. *)
Record packed (m m' : list Z) (new R S : Z) : Prop := {
  pk_bytes : bytes_ok m';
  pk_size : vsize m' = vsize m;
  pk_header : forall i, 0 <= i < 8 \/ 20 <= i < 32 -> vget m' (new + i) = vget m (new + i);
  pk_words : word m' (new + 16) = 40 /\ word m' (new + 8) = 40 + R /\ word m' (new + 36) = S /\
    word m' (new + 12) = 40 + R + S /\ word m' (new + 32) = word m 32;
  pk_rsv : forall i, 0 <= i < R -> vget m' (new + 40 + i) = vget m (rsvbase m + i);
  pk_struct : forall i, 0 <= i < S -> vget m' (new + (40 + R) + i) = vget m (sbase m + i);
  pk_strings : forall i, 0 <= i < word m 32 -> vget m' (new + (40 + R + S) + i) = vget m (strbase m + i);
  pk_below : forall i, 0 <= i < new -> vget m' i = vget m i
}.

(** A copy as a change of one stretch. *)
Lemma memmove_copied m dst src n :
  bytes_ok m -> 0 <= src -> 0 <= n -> src + n <= vsize m -> 0 <= dst -> dst + n <= vsize m ->
  exists m', memmove m dst src n = Ret m' /\ bytes_ok m' /\ vsize m' = vsize m /\
    (forall i, 0 <= i < n -> vget m' (dst + i) = vget m (src + i)) /\
    forall i, ~ (dst <= i < dst + n) -> vget m' i = vget m i.
Proof.
  intros Hb H1 H2 H3 H4 H5. destruct (memmove_wrote m dst src n) as (bs & m' & E & [W1 W2 W3 W4] & L & A); [done..|].
  exists m'. split_and!; [done|apply W2; [done|by eapply bytes_at_ok]|done| |by rewrite <- L].
  intros i Hi. rewrite W3, <- A by lia. done.
Qed.

Lemma store32_stored m p v :
  bytes_ok m -> 0 <= p -> p + 4 <= vsize m ->
  exists m', store32 m p (cpu_to_fdt32 v) = Ret m' /\ bytes_ok m' /\ vsize m' = vsize m /\ word m' p = u32 v /\
    forall i, ~ (p <= i < p + 4) -> vget m' i = vget m i.
Proof.
  intros Hb H1 H2. destruct (store32_wrote m p v H1 H2) as (m' & E & W). exists m'. pose proof W as [W1 W2 W3 W4].
  split_and!; [done|apply W2; [done|apply be32_ok]|done|by eapply wrote_word|]. rewrite vsize_be32 in W4. done.
Qed.

Ltac copy_step := lazymatch goal with |- context [memmove ?m ?d ?s ?n] =>
  let m' := fresh "m" in let B := fresh "B" in let Z := fresh "Z" in let C := fresh "C" in let F := fresh "F" in
  destruct (memmove_copied m d s n) as (m' & -> & B & Z & C & F); [done || lia..|]; steps end.
Ltac store_step := lazymatch goal with |- context [store32 ?m ?p (cpu_to_fdt32 ?v)] =>
  let m' := fresh "m" in let B := fresh "B" in let Z := fresh "Z" in let C := fresh "C" in let F := fresh "F" in
  destruct (store32_stored m p v) as (m' & -> & B & Z & C & F); [done || lia..|]; steps end.
(** Read a byte before the steps that left it alone. *)
Ltac frames := repeat match goal with F : forall i, ~ _ -> vget ?m i = vget _ i |- context [vget ?m _] => rewrite F by lia end.
Ltac wframes := apply word_same; intros; frames; done || (f_equal; lia).

Lemma packblocks_ok m new R S :
  bytes_ok m -> 40 + R + S < 2 ^ 31 -> 40 <= vsize m -> 0 <= R -> 0 <= S ->
  new + 40 + R + S + word m 32 <= vsize m ->
  rsvbase m + R <= vsize m -> sbase m + S <= vsize m -> strbase m + word m 32 <= vsize m ->
  (new = 0 /\ 40 <= rsvbase m /\ rsvbase m + R <= sbase m /\ sbase m + S <= strbase m) \/
  (40 <= new /\ rsvbase m + R <= new /\ sbase m + S <= new /\ strbase m + word m 32 <= new) ->
  exists m', fdt_packblocks_ m new R S = Ret m' /\ packed m m' new R S.
Proof.
  intros Hb Hsz H40 HR HS Hroom Hrs Hss Hsn Hc.
  pose proof (word_range m 32 Hb). pose proof (word_range m 16 Hb). pose proof (word_range m 8 Hb). pose proof (word_range m 12 Hb).
  unfold fdt_packblocks_, set_hdr, fdt_off_mem_rsvmap, fdt_off_dt_struct, fdt_off_dt_strings, fdt_size_dt_strings.
  change header_end with 40. rewrite int_chk_ok by lia. steps. rewrite int_chk_ok by lia. steps.
  rewrite fdt32_ld_ok by (done || lia). steps. rewrite !uwrap_small by lia.
  copy_step. store_step. rewrite fdt32_ld_ok by (done || lia). steps.
  assert (word m1 8 = sbase m) as -> by wframes.
  copy_step. store_step. store_step. rewrite (fdt32_ld_ok _ 12) by (done || lia). steps.
  assert (word m4 12 = strbase m) as -> by wframes. rewrite fdt32_ld_ok by (done || lia). steps.
  assert (word m4 32 = word m 32) as E32 by wframes. rewrite E32.
  copy_step. store_step. rewrite fdt32_ld_ok by (done || lia). steps.
  assert (word m6 32 = word m 32) as -> by (rewrite <- E32; wframes).
  store_step. eexists. split; [done|]. rewrite !uwrap_small in * by lia. constructor; [done|lia| | | | | |].
  - intros i Hi. frames. done.
  - split_and!; [rewrite <- C0|rewrite <- C2|rewrite <- C3|rewrite <- C5|done]; wframes.
  - intros i Hi. frames. apply C. lia.
  - intros i Hi. replace (new + (40 + R) + i) with (new + (40 + R) + i) by lia. frames. rewrite C1 by lia. frames. done.
  - intros i Hi. frames. rewrite C4 by lia. frames. done.
  - intros i Hi. frames. done.
Qed.

(** ** The blocks of a blob, in whatever order *)

Lemma rsvmap_entries m rs :
  (forall i e, rs !! i = Some e -> entry_at m (Z.of_nat i) e /\ e.2 <> 0) ->
  dword m (rsvbase m + 16 * vsize rs + 8) = 0 -> rsvbase m + 16 * vsize rs + 16 <= total m -> rsvmap_at m (vsize rs).
Proof.
  intros H1 H2 H3. pose proof (vsize_nonneg rs). split_and!; [done..|]. intros i Hi.
  destruct (rsv_lookup_nth rs i Hi) as [e He]. destruct (H1 _ _ He) as [[_ E] Hne]. rewrite Z2Nat.id in E by lia. lia.
Qed.

(** A blob of version 16 or later with its reservation map, its tree and the
    size [S] of its structure block. *)
Record blocks (m : list Z) (rs : list (Z * Z)) (its : list item) (S : Z) : Prop := {
  bk_complete : complete m;
  bk_version : 16 <= ver m;
  bk_entries : forall i e, rs !! i = Some e -> entry_at m (Z.of_nat i) e /\ e.2 <> 0;
  bk_end : dword m (rsvbase m + 16 * vsize rs + 8) = 0;
  bk_rsv : rsvbase m + 16 * vsize rs + 16 <= total m;
  bk_tree : exists o e, items_at m 0 its o /\ tok_at m o TEnd e /\ e <= S /\
    (if 17 <=? ver m then S = word m 36 else S = align4 e);
  bk_struct : sbase m + S <= total m;
  bk_strings : strlimit m <= word m 32 /\ strbase m + word m 32 <= total m;
  bk_fits : 40 <= total m /\ 40 + (16 * vsize rs + 16) + S + word m 32 < 2 ^ 31 - 1
}.

Lemma blocks_rw m rs its : rw_ok m -> rsv_list m rs -> tree_at m its -> blocks m rs its (word m 36).
Proof.
  intros Hrw [H1 H2 H3] (o & e & Hi & Ht & He). pose proof (rw_sizes m Hrw). pose proof (rw_end m Hrw).
  pose proof (rw_strings m Hrw). pose proof (rw_rsvmap m Hrw). rewrite (rw_slimit m Hrw) in He.
  constructor; [apply Hrw|rewrite (rw_version m Hrw); lia|done|done|lia| |lia|rewrite (rw_strlimit m Hrw); lia|lia].
  exists o, e. by rewrite (rw_version m Hrw).
Qed.

Section Blocks.
Context (m : list Z) (rs : list (Z * Z)) (its : list item) (S : Z) (Hbk : blocks m rs its S).
Local Notation R := (16 * vsize rs + 16).

Lemma blocks_sizes :
  bytes_ok m /\ total m <= vsize m /\ total m < 2 ^ 31 - 1 /\ 36 <= vsize m /\ 0 <= vsize rs /\ 4 <= S /\
  4 <= sbase m /\ 0 <= word m 32 /\ 0 <= strbase m /\ 0 <= rsvbase m.
Proof.
  destruct Hbk as [Hc Hv _ _ _ (o & e & Hi & Ht & He & _) _ _ _]. pose proof Hc as [[Hb Hh Hh17 Htot Hsm Hst] _ _ _ _].
  unfold INT32_MAX, FDT_V16_SIZE in *.
  pose proof (word_range m 32 Hb). pose proof (word_range m 12 Hb). pose proof (word_range m 16 Hb).
  pose proof (vsize_nonneg rs). pose proof (items_at_mono _ _ _ _ Hi). pose proof (tok_at_len _ _ _ _ Ht). split_and!; done || lia.
Qed.

Lemma blocks_num : fdt_num_mem_rsv m = Ret (vsize rs).
Proof.
  pose proof blocks_sizes. destruct Hbk as [Hc _ H1 H2 H3 _ _ _ _]. pose proof (rsvmap_entries m rs H1 H2 H3) as Hmap.
  destruct (num_mem_rsv_spec m Hc) as [(n & Hn & E)|[_ Hno]]; [lia|lia| |by destruct (Hno _ Hmap)].
  rewrite E. f_equal. by eapply rsvmap_unique.
Qed.

(** The blocks behind a header of version 17, as [fdt_pack] and [fdt_open_into]
    leave them. *)
Record repacked (m' : list Z) (T : Z) : Prop := {
  rp_bytes : bytes_ok m';
  rp_total : T <= vsize m' /\ T < 2 ^ 31 - 1;
  rp_start : word m' 0 = FDT_MAGIC /\ word m' 4 = T /\ word m' 20 = 17 /\ word m' 24 <= 17;
  rp_sizes : word m' 36 = S /\ word m' 32 = word m 32;
  rp_order : 40 <= rsvbase m' /\ rsvbase m' + R <= sbase m' /\ sbase m' + S <= strbase m' /\ strbase m' + word m 32 <= T;
  rp_rsv : forall i, 0 <= i < R -> vget m' (rsvbase m' + i) = vget m (rsvbase m + i);
  rp_struct : forall i, 0 <= i < S -> vget m' (sbase m' + i) = vget m (sbase m + i);
  rp_strings : forall i, 0 <= i < word m 32 -> vget m' (strbase m' + i) = vget m (strbase m + i)
}.

Context (m' : list Z) (T : Z) (Hrp : repacked m' T).

Lemma repacked_rw : rw_ok m'.
Proof.
  pose proof blocks_sizes. destruct Hrp as [Hb (H1 & H2) (E0 & E4 & E20 & E24) (E36 & E32) Hord _ _ _].
  constructor; [constructor; [constructor|..]|..]; rewrite ?E0, ?E4, ?E20, ?E36, ?E32;
    unfold FDT_V16_SIZE, FDT_V17_SIZE, INT32_MAX, FDT_FIRST_SUPPORTED_VERSION, FDT_LAST_SUPPORTED_VERSION in *; done || lia.
Qed.

Lemma repacked_rsv : rsv_list m' rs.
Proof.
  pose proof blocks_sizes. destruct Hrp as [_ _ _ _ Hord Hcopy _ _].
  assert (forall a, 0 <= a -> a + 8 <= R -> dword m' (rsvbase m' + a) = dword m (rsvbase m + a)) as Hd.
  { intros a H1 H2. replace (rsvbase m' + a) with (rsvbase m + a + (rsvbase m' - rsvbase m)) by lia. apply dword_same. intros i Hi.
    replace (i + (rsvbase m' - rsvbase m)) with (rsvbase m' + (i - rsvbase m)) by lia. rewrite Hcopy by lia. f_equal. lia. }
  destruct Hbk as [_ _ H1 H2 H3 _ _ _ _]. constructor; [|rewrite <- H2|lia].
  - intros i e Hi. destruct (H1 i e Hi) as [[E1 E2] Hne]. apply lookup_lt_Some in Hi. split; [|done].
    unfold entry_at. rewrite <- E1, <- E2, <- !Z.add_assoc, !Hd by (unfold vsize; lia). done.
  - rewrite <- !Z.add_assoc. apply Hd; lia.
Qed.

Lemma repacked_tree : tree_at m' its.
Proof.
  pose proof blocks_sizes. pose proof repacked_rw as Hrw'.
  destruct Hrp as [_ _ (_ & _ & E20 & _) (E36 & E32) Hord _ Hs Hn].
  destruct Hbk as [Hc Hv _ _ _ (o & e & Hi & Ht & He & _) Hst Hstr _].
  assert (forall no name, string_at m no name -> string_at m' no name) as Hnames.
  { intros no name (N1 & N2 & N3 & N4). unfold string_at. rewrite (rw_strlimit m' Hrw'), E32.
    refine (conj N1 (conj _ (conj _ N4))); [lia|]. intros i Hi'. rewrite vsize_app in Hi'. change (vsize [0]) with 1 in Hi'.
    rewrite <- N3 by (rewrite vsize_app; change (vsize [0]) with 1; lia).
    replace (strbase m' + no + i) with (strbase m' + (no + i)) by lia. rewrite Hn by lia. f_equal. lia. }
  assert (moved m m' (sbase m' - sbase m) 0 0 e) as Hmv.
  { intros i Hi'. replace (i + (sbase m' - sbase m + 0)) with (sbase m' + (i - sbase m)) by lia. rewrite Hs by lia. f_equal. lia. }
  pose proof (tok_at_len _ _ _ _ Ht). pose proof (items_at_mono _ _ _ _ Hi).
  exists o, e. rewrite (rw_slimit m' Hrw'), E36. split_and!; [| |lia].
  - pose proof (items_shift m m' (sbase m' - sbase m) 0 eq_refl ltac:(lia) Hv ltac:(lia) Hnames 0 its o Hi) as X.
    rewrite !Z.add_0_r, map_shift_0 in X. apply X; [|rewrite (rw_slimit m' Hrw'), E36; lia]. eapply moved_sub; [exact Hmv|lia..].
  - pose proof (tok_shift m m' (sbase m' - sbase m) 0 ltac:(lia) Hv ltac:(lia) o TEnd e Ht) as X.
    rewrite !Z.add_0_r in X. apply X. eapply moved_sub; [exact Hmv|lia..].
Qed.
End Blocks.

(** [fdt_pack] *)
Lemma pack_ok m rs its :
  rw_ok m -> rsv_list m rs -> tree_at m its ->
  exists m', fdt_pack m = Ret (0, m') /\ rw_ok m' /\ rsv_list m' rs /\ tree_at m' its /\
    total m' = data_end m' /\ total m' = 40 + 16 * (vsize rs + 1) + word m 36 + word m 32 /\ total m' <= total m.
Proof.
  intros Hrw Hl Htree. pose proof (blocks_rw m rs its Hrw Hl Htree) as Hbk. pose proof (blocks_sizes _ _ _ _ Hbk) as Hz.
  pose proof (rw_end m Hrw). pose proof (rw_strings m Hrw). pose proof (rw_sizes m Hrw). pose proof (rw_rsvmap m Hrw).
  pose proof (rv_room _ _ Hl). pose proof (rw_bytes m Hrw).
  unfold fdt_pack, mem_rsv_bytes, fdt_size_dt_struct, sizeof_fdt_reserve_entry. rewrite rw_guard by done.
  rewrite (blocks_num _ _ _ _ Hbk). steps. hdr. steps. rewrite !swrap_small by lia.
  destruct (packblocks_ok m 0 ((vsize rs + 1) * 16) (word m 36)) as (m1 & -> & Hpk); [done || lia..|]. steps.
  pose proof (pk_size _ _ _ _ _ Hpk). pose proof (pk_bytes _ _ _ _ _ Hpk).
  destruct (pk_words _ _ _ _ _ Hpk) as (E16 & E8 & E36 & E12 & E32). rewrite !Z.add_0_l in *.
  unfold fdt_data_size_, fdt_off_dt_strings, fdt_size_dt_strings, fdt_set_totalsize.
  rewrite !fdt32_ld_ok by (done || lia). steps. rewrite E12, E32. rewrite swrap_small by lia. rewrite !uwrap_small by lia.

  destruct (store32_stored m1 4 (40 + (vsize rs + 1) * 16 + word m 36 + word m 32)) as (m2 & -> & B & Zz & C & F); [done || lia..|]. steps.
  rewrite !uwrap_small in C by lia.
  assert (forall a, 8 <= a -> word m2 a = word m1 a) as Hw by (intros a Ha; apply word_same; intros i Hi; by rewrite F by lia).
  assert (repacked m rs (word m 36) m2 (40 + (vsize rs + 1) * 16 + word m 36 + word m 32)) as Hrp.
  { destruct (rw_complete m Hrw) as [_ Hmg _ Hlc _]. unfold FDT_LAST_SUPPORTED_VERSION in Hlc.
    constructor; rewrite ?(Hw 8), ?(Hw 12), ?(Hw 16), ?E8, ?E12, ?E16 by lia; [done|lia| |rewrite !Hw by lia; lia|lia| | |].
    - refine (conj _ (conj C (conj _ _))); [rewrite <- Hmg|rewrite <- (rw_version m Hrw)|enough (word m2 24 = word m 24) by lia];
        apply word_same; intros i Hi; rewrite F by lia; apply (pk_header _ _ _ _ _ Hpk); lia.
    - intros i Hi. rewrite F by lia. rewrite <- (pk_rsv _ _ _ _ _ Hpk i) by lia. f_equal; lia.
    - intros i Hi. rewrite F by lia. rewrite <- (pk_struct _ _ _ _ _ Hpk i) by lia. f_equal; lia.
    - intros i Hi. rewrite F by lia. rewrite <- (pk_strings _ _ _ _ _ Hpk i) by lia. f_equal; lia. }
  exists m2. rewrite C, (Hw 12), (Hw 32), E12, E32 by lia.
  refine (conj eq_refl (conj _ (conj _ (conj _ _)))); [by eapply repacked_rw|by eapply repacked_rsv|by eapply repacked_tree|lia].
Qed.

(** ** Opening a blob into a buffer *)

Section StructSize.
Context (m : list Z) (Hm : blob_ok m).

Lemma struct_size_items o its o' : items_at m o its o' -> forall fuel, 0 <= o -> slimit m < o + Z.of_nat fuel ->
  exists fuel', struct_size_loop fuel m o = struct_size_loop fuel' m o' /\ slimit m < o' + Z.of_nat fuel'.
Proof.
  assert (forall o t e fuel, 0 <= o -> tok_at m o t e -> e <= slimit m -> tag_of t <> FDT_END -> slimit m < o + Z.of_nat fuel ->
    exists fuel', struct_size_loop fuel m o = struct_size_loop fuel' m (align4 e) /\ slimit m < align4 e + Z.of_nat fuel') as Hstep.
  { intros a t e fuel Ha Ht He Hne Hf. pose proof (tok_at_len _ _ _ _ Ht). pose proof (align4_spec e).
    destruct fuel as [|fuel]; [lia|]. exists fuel. split; [|lia]. cbn [struct_size_loop].
    rewrite (next_tag_complete m a t e) by done. steps. by destruct (Z.eqb_spec (tag_of t) FDT_END). }
  induction 1 as [o|o e its o' Ht He Hits IH|o no nm val e its o' Ht He Hs Hits IH
    |o name e body o1 e1 its o' Ht He Hbody IHb Ht1 He1 Hits IH]; intros fuel Ho Hf; [by eexists| | |];
    pose proof (tok_at_len _ _ _ _ Ht); pose proof (align4_spec e).
  1-2: destruct (Hstep o _ e fuel Ho Ht He ltac:(done) Hf) as (f1 & -> & Hf1); apply IH; lia.
  destruct (Hstep o _ e fuel Ho Ht He ltac:(done) Hf) as (f1 & -> & Hf1).
  destruct (IHb f1 ltac:(lia) Hf1) as (f2 & -> & Hf2). pose proof (items_at_mono _ _ _ _ Hbody).
  destruct (Hstep o1 _ e1 f2 ltac:(lia) Ht1 He1 ltac:(done) Hf2) as (f3 & -> & Hf3).
  pose proof (tok_at_len _ _ _ _ Ht1). pose proof (align4_spec e1). apply IH; lia.
Qed.

Lemma struct_size_loop_ok its o e :
  items_at m 0 its o -> tok_at m o TEnd e -> e <= slimit m ->
  struct_size_loop (S (length m)) m 0 = Ret (align4 e).
Proof.
  intros Hi Ht He. assert (slimit m < 0 + Z.of_nat (S (length m))) as Hf.
  { destruct Hm as [_ _ _ Htot _ Hst]. pose proof (slimit_le m). unfold vsize in *. lia. }
  destruct (struct_size_items 0 its o Hi _ ltac:(lia) Hf) as (fuel & -> & Hf').
  pose proof (tok_at_len _ _ _ _ Ht). pose proof (items_at_mono _ _ _ _ Hi).
  destruct fuel as [|fuel]; [lia|]. cbn [struct_size_loop]. by rewrite (next_tag_complete m o TEnd e) by (done || lia).
Qed.
End StructSize.

(** The header at [buf] and what follows it, as a blob of its own. *)
Notation from m buf := (drop (Z.to_nat buf) m).

Lemma vget_from (m : list Z) buf i : 0 <= buf -> 0 <= i -> vget (from m buf) i = vget m (buf + i).
Proof.
  intros H1 H2. unfold vget. destruct (Z.ltb_spec i 0); [lia|]. destruct (Z.ltb_spec (buf + i) 0); [lia|].
  rewrite lookup_drop. f_equal. f_equal. lia.
Qed.

Lemma word_from (m : list Z) buf a : 0 <= buf -> 0 <= a -> word (from m buf) a = word m (buf + a).
Proof.
  intros H1 H2. unfold word, byte. rewrite !vget_from by lia. by rewrite !Z.add_assoc.
Qed.

Definition in_order (m : list Z) (rs : list (Z * Z)) (S : Z) : bool :=
  (40 <=? rsvbase m) && (rsvbase m + (16 * vsize rs + 16) <=? sbase m) && (sbase m + S <=? strbase m).

(** The space an opened copy takes: in place, blocks out of order are first
    packed behind the old blob. *)
Definition space_needed (m : list Z) (rs : list (Z * Z)) (S buf : Z) : Z :=
  if in_order m rs S then total m
  else (if buf =? 0 then total m else 0) + (40 + (16 * vsize rs + 16) + S + word m 32).

Lemma word_same_at m m' a a' : (forall i, 0 <= i < 4 -> vget m' (a' + i) = vget m (a + i)) -> word m' a' = word m a.
Proof.
  intros H. unfold word, byte. pose proof (H 0 ltac:(lia)) as H0. rewrite !Z.add_0_r in H0.
  by rewrite H0, !H by lia.
Qed.

(** The header fields [fdt_open_into] writes itself. *)
Lemma open_header m buf bufsize :
  bytes_ok m -> buf = 0 \/ 40 <= buf -> 0 <= bufsize < 2 ^ 31 -> buf + 40 <= vsize m ->
  exists m',
    (m ← set_hdr m buf 0 FDT_MAGIC;
     m ← set_hdr m buf 4 (u32 bufsize);
     m ← set_hdr m buf 20 17;
     m ← set_hdr m buf 24 16;
     boot_cpuid_phys ← fdt_boot_cpuid_phys m;
     m ← set_hdr m buf 28 boot_cpuid_phys;
     Ret (0, m)) = Ret (0, m') /\ bytes_ok m' /\ vsize m' = vsize m /\
    (word m' (buf + 0) = FDT_MAGIC /\ word m' (buf + 4) = bufsize /\ word m' (buf + 20) = 17 /\ word m' (buf + 24) = 16) /\
    word m' (buf + 28) = word m 28 /\
    forall i, 8 <= i < 20 \/ 32 <= i -> vget m' (buf + i) = vget m (buf + i).
Proof.
  intros Hb Hbuf Hs Hin. unfold set_hdr, fdt_boot_cpuid_phys. do 4 store_step.
  rewrite fdt32_ld_ok by (done || lia). steps. store_step. eexists. split; [done|].
  rewrite uwrap_small in C by (compute; split; congruence). rewrite !(uwrap_small _ bufsize) in C0 by lia.
  rewrite uwrap_small in C1, C2 by lia.
  assert (word m3 28 = word m 28) as E by wframes. pose proof (word_range m3 28 ltac:(done)).
  rewrite uwrap_small, E in C3 by lia. refine (conj _ (conj _ (conj (conj _ (conj _ (conj _ _))) (conj C3 _)))); [done|lia|..].
  - rewrite <- C. wframes.
  - rewrite <- C0. wframes.
  - rewrite <- C1. wframes.
  - rewrite <- C2. wframes.
  - intros i Hi. frames. done.
Qed.

Section OpenInto.
Context (m : list Z) (rs : list (Z * Z)) (its : list item) (S : Z) (Hbk : blocks m rs its S).
Context (buf bufsize : Z) (Hbuf : buf = 0 \/ total m <= buf) (Hsize : 0 <= bufsize < 2 ^ 31 - 1) (Hin : buf + bufsize <= vsize m).
Local Notation R := (16 * vsize rs + 16).
Local Notation newsize := (40 + R + S + word m 32).

(** The tests that choose what to do. *)
Lemma misordered_ok : fdt_blocks_misordered_ m R S = Ret (negb (in_order m rs S)).
Proof.
  pose proof (blocks_sizes _ _ _ _ Hbk) as (Hb & Hz). destruct Hbk as [_ _ _ _ H1 _ H2 [_ H3] H4].
  unfold fdt_blocks_misordered_, in_order. hdr. steps. change header_end with 40. rewrite !uwrap_small by lia. f_equal.
  rewrite !Z.leb_antisym. destruct (Z.ltb_spec (total m) (strbase m + word m 32)); [lia|].
  by destruct (_ <? _), (_ <? _), (_ <? _).
Qed.

Lemma open_sizes k :
  (fdtend ← fdt_totalsize m;
   err ← fdt_ro_probe_ m;
   if err <? 0 then Ret (err, m) else
   mem_rsv_size ← mem_rsv_bytes m;
   version ← fdt_version m;
   struct_size ← (if 17 <=? version then size ← fdt_size_dt_struct m; Ret (s32 size)
                  else struct_size_loop (Datatypes.S (length m)) m 0);
   if (version <? 17) && (struct_size <? 0) then Ret (struct_size, m) else k fdtend mem_rsv_size struct_size)
  = (k (total m) R S : outcome (Z * list Z)).
Proof.
  pose proof (blocks_sizes _ _ _ _ Hbk) as (Hb & Hz). pose proof (blocks_num _ _ _ _ Hbk) as Hnum.
  destruct Hbk as [Hc Hv _ _ H1 (o & e & Hi & Ht & He & HS) H2 [_ H3] H4].
  pose proof (items_at_mono _ _ _ _ Hi). pose proof (tok_at_len _ _ _ _ Ht). pose proof (align4_spec e).
  rewrite (ro_probe_complete m Hc). unfold mem_rsv_bytes, sizeof_fdt_reserve_entry. rewrite Hnum. hdr. steps.
  destruct (Z.ltb_spec (total m) 0); [lia|]. steps. rewrite (swrap_small _ ((vsize rs + 1) * 16)) by lia.
  replace ((vsize rs + 1) * 16) with R by lia.
  destruct (Z.leb_spec 17 (ver m)); destruct (Z.ltb_spec (ver m) 17); try lia.
  - steps. rewrite <- HS, swrap_small by lia. done.
  - rewrite (struct_size_loop_ok m ltac:(apply Hc) its o e Hi Ht).
    + steps. destruct (Z.ltb_spec (align4 e) 0); [lia|]. by rewrite HS.
    + unfold slimit. destruct (Z.leb_spec 17 (ver m)); lia.
Qed.

Lemma open_ordered :
  in_order m rs S = true ->
  if decide (total m <= bufsize)
  then exists m', fdt_open_into m buf bufsize = Ret (0, m') /\ repacked m rs S (from m' buf) bufsize /\
    word m' (buf + 28) = word m 28
  else fdt_open_into m buf bufsize = Ret (- FDT_ERR_NOSPACE, m).
Proof.
  intros Hord. eassert (fdt_open_into m buf bufsize = _) as -> by (apply open_sizes).
  cbv beta. rewrite misordered_ok, Hord. steps. unfold in_order in Hord. rewrite !andb_true_iff, !Z.leb_le in Hord.
  pose proof (blocks_sizes _ _ _ _ Hbk) as (Hb & Hz). destruct Hbk as [Hc Hv _ _ H1 (o & e & Hi & Ht & He & HS) H2 [_ H3] H4].
  unfold move_to, set_hdr. rewrite (ro_probe_complete m Hc). hdr. steps. destruct (Z.ltb_spec (total m) 0); [lia|]. steps.
  rewrite uwrap_small by lia. case_decide; destruct (Z.ltb_spec bufsize (total m)); try lia; [|by steps].
  copy_step. store_step. store_step. store_step. eexists. split; [done|].
  rewrite uwrap_small in C0 by lia. rewrite !(uwrap_small _ S) in C1 by lia. rewrite !(uwrap_small _ bufsize) in C2 by lia.
  assert (forall i, 0 <= i < 4 \/ 8 <= i < 20 \/ 24 <= i < 36 \/ 40 <= i < total m -> vget m3 (buf + i) = vget m i) as Hsame.
  { intros i A1. frames. rewrite C by lia. done. }
  assert (forall a, 0 <= a < 1 \/ 8 <= a < 17 \/ 24 <= a < 33 -> word m3 (buf + a) = word m a) as Hw.
  { intros a A1. apply word_same_at. intros i A2. rewrite <- Z.add_assoc. apply Hsame. lia. }
  split; [|apply Hw; lia].
  assert (word m3 (buf + 20) = 17) as E20 by (rewrite <- C0; wframes).
  assert (word m3 (buf + 36) = S) as E36 by (rewrite <- C1; wframes).
  assert (vsize (from m3 buf) = vsize m - buf) as Hvs by (unfold vsize in *; rewrite length_drop; lia).
  unfold FDT_LAST_SUPPORTED_VERSION in *. destruct Hc as [_ Hmg _ Hlc _].
  constructor; rewrite ?word_from, ?(Hw 8), ?(Hw 12), ?(Hw 16), ?(Hw 24), ?(Hw 32), ?(Hw 0), ?E20, ?E36, ?C2 by lia;
    try (done || lia).
  - by apply Forall_drop.
  - intros i Hi'. rewrite vget_from by lia. apply Hsame. lia.
  - intros i Hi'. rewrite vget_from by lia. apply Hsame. lia.
  - intros i Hi'. rewrite vget_from by lia. apply Hsame. lia.
Qed.

Lemma open_misordered :
  in_order m rs S = false ->
  if decide (space_needed m rs S buf <= bufsize)
  then exists m', fdt_open_into m buf bufsize = Ret (0, m') /\ repacked m rs S (from m' buf) bufsize /\
    word m' (buf + 28) = (if buf =? 0 then word m (total m + 28) else word m 28)
  else fdt_open_into m buf bufsize = Ret (- FDT_ERR_NOSPACE, m).
Proof.
  intros Hord. eassert (fdt_open_into m buf bufsize = _) as -> by (apply open_sizes).
  cbv beta. rewrite misordered_ok. unfold space_needed. rewrite Hord. steps.
  pose proof (blocks_sizes _ _ _ _ Hbk) as (Hb & Hz). destruct Hbk as [Hc Hv _ _ H1 _ H2 [_ H3] H4].
  unfold fdt_size_dt_strings, set_hdr, fdt_boot_cpuid_phys. rewrite (fdt32_ld_ok m 32) by (done || lia). steps.
  change header_end with 40. rewrite (swrap_small _ newsize) by lia.
  assert (((0 <? buf + newsize) && (buf <? total m)) = (buf =? 0)) as ->.
  { destruct (Z.ltb_spec 0 (buf + newsize)), (Z.ltb_spec buf (total m)), (Z.eqb_spec buf 0); lia || done. }
  set (tmp := if buf =? 0 then total m else buf) in *.
  assert (tmp = buf /\ total m <= buf \/ tmp = total m /\ buf = 0) as Htmp by (unfold tmp; destruct (Z.eqb_spec buf 0); lia).
  case_decide as Hroom.
  2: { destruct (Z.ltb_spec bufsize newsize); [done|]. destruct (Z.eqb_spec buf 0); [|lia].
       destruct (Z.ltb_spec (buf + bufsize) (tmp + newsize)); [done|lia]. }
  assert (newsize <= bufsize /\ (buf = 0 -> total m + newsize <= bufsize)) as [Hr1 Hr2].
  { destruct (Z.eqb_spec buf 0); lia. }
  destruct (Z.ltb_spec bufsize newsize); [lia|].
  assert (((buf =? 0) && (buf + bufsize <? tmp + newsize)) = false) as ->.
  { destruct (Z.eqb_spec buf 0), (Z.ltb_spec (buf + bufsize) (tmp + newsize)); lia || done. }
  destruct (packblocks_ok m tmp R S) as (m1 & -> & Hpk); [done || lia..|]. steps.
  pose proof (pk_size _ _ _ _ _ Hpk). pose proof (pk_bytes _ _ _ _ _ Hpk).
  destruct (pk_words _ _ _ _ _ Hpk) as (E16 & E8 & E36 & E12 & E32).
  rewrite (uwrap_small _ newsize) by lia. copy_step.
  destruct (open_header m0 buf bufsize) as (m3 & E3 & B3 & Z3 & (F0 & F4 & F20 & F24) & F28 & Hsame3); [done || lia..|].
  unfold set_hdr, fdt_boot_cpuid_phys in E3. rewrite E3. exists m3. split; [done|].
  assert (forall i, 8 <= i < 20 \/ 32 <= i < newsize -> vget m3 (buf + i) = vget m1 (tmp + i)) as Hsame.
  { intros i Hi. rewrite Hsame3 by lia. apply C. lia. }
  assert (forall a, 8 <= a < 17 \/ 32 <= a < 37 -> word m3 (buf + a) = word m1 (tmp + a)) as Hw.
  { intros a Ha. apply word_same_at. intros i Hi. rewrite <- !Z.add_assoc. apply Hsame. lia. }
  assert (vsize (from m3 buf) = vsize m - buf) as Hvs by (unfold vsize in *; rewrite length_drop; lia).
  split.
  - constructor; rewrite ?word_from, ?(Hw 8), ?(Hw 12), ?(Hw 16), ?(Hw 32), ?(Hw 36), ?E8, ?E12, ?E16 by lia; try (done || lia).
    + by apply Forall_drop.
    + intros i Hi. rewrite vget_from, Hsame by lia. rewrite <- (pk_rsv _ _ _ _ _ Hpk i) by lia. f_equal. lia.
    + intros i Hi. rewrite vget_from, Hsame by lia. rewrite <- (pk_struct _ _ _ _ _ Hpk i) by lia. f_equal. lia.
    + intros i Hi. rewrite vget_from, Hsame by lia. rewrite <- (pk_strings _ _ _ _ _ Hpk i) by lia. f_equal. lia.
  - rewrite F28. destruct (Z.eqb_spec buf 0); apply word_same_at; intros i Hi.
    + replace (28 + i) with (buf + (28 + i)) by lia. rewrite C by lia. replace (total m + 28 + i) with (tmp + (28 + i)) by lia.
      apply (pk_header _ _ _ _ _ Hpk). lia.
    + rewrite F by lia. apply (pk_below _ _ _ _ _ Hpk). lia.
Qed.

(** [fdt_open_into] *)
Lemma open_into_ok :
  if decide (space_needed m rs S buf <= bufsize)
  then exists m', fdt_open_into m buf bufsize = Ret (0, m') /\
    rw_ok (from m' buf) /\ rsv_list (from m' buf) rs /\ tree_at (from m' buf) its /\ total (from m' buf) = bufsize /\
    word (from m' buf) 28 = (if negb (in_order m rs S) && (buf =? 0) then word m (total m + 28) else word m 28)
  else fdt_open_into m buf bufsize = Ret (- FDT_ERR_NOSPACE, m).
Proof.
  pose proof (blocks_sizes _ _ _ _ Hbk) as (Hb & Hz). pose proof (bk_fits _ _ _ _ Hbk). pose proof open_ordered as Ho. pose proof open_misordered as Hm.
  assert (forall m', repacked m rs S (from m' buf) bufsize ->
    rw_ok (from m' buf) /\ rsv_list (from m' buf) rs /\ tree_at (from m' buf) its /\ total (from m' buf) = bufsize) as Hrep.
  { intros m' Hrp. split_and!; [by eapply repacked_rw|by eapply repacked_rsv|by eapply repacked_tree|].
    apply (rp_start _ _ _ _ _ Hrp). }
  unfold space_needed in *. destruct (in_order m rs S); [specialize (Ho eq_refl); clear Hm|specialize (Hm eq_refl); clear Ho].
  - case_decide; [|done]. destruct Ho as (m' & E & Hrp & H28). exists m'. split; [done|].
    destruct (Hrep m' Hrp) as (H1 & H2 & H3 & H4). split_and!; try done. by rewrite word_from by lia.
  - case_decide; [|done]. destruct Hm as (m' & E & Hrp & H28). exists m'. split; [done|].
    destruct (Hrep m' Hrp) as (H1 & H2 & H3 & H4). split_and!; try done. by rewrite word_from by lia.
Qed.
End OpenInto.

(** ** A finished blob, and the empty tree *)

Lemma valid_str_is_bytes s : valid_str s -> bytes_ok s.
Proof. intros Hs. eapply Forall_impl; [exact Hs|]. unfold is_byte. simpl. lia. Qed.

Lemma tok_like m0 m w : like m0 m -> valid_tok w -> yields m0 (run_tok m w).
Proof.
  intros Hm Hv. destruct w as [name| |name val]; simpl in Hv |- *.
  - apply begin_node_like; [done|]. apply valid_str_is_bytes, Hv.
  - by apply end_node_like.
  - apply property_like; [done| |by apply Hv]. apply valid_str_is_bytes, Hv.
Qed.

(** The builder returns a buffer of the size it was given. *)
Lemma andthen_like m0 r k :
  yields m0 r -> (forall m, like m0 m -> yields m0 (k m)) -> yields m0 (andthen r k).
Proof. intros Hr Hk. unfold andthen. eapply post_bind; [exact Hr|]. intros [err m] Hm. typed. Qed.

Lemma run_like {A} m0 (call : list Z -> A -> outcome (Z * list Z)) l :
  (forall m x, like m0 m -> In x l -> yields m0 (call m x)) -> forall m, like m0 m -> yields m0 (run call m l).
Proof.
  induction l as [|x l IH]; intros Hcall m Hm; cbn [run]; [typed|].
  eapply post_bind; [apply Hcall; [done|by left]|]. intros [err m'] Hm'. typed_step; [typed|].
  apply IH; [|done]. intros. apply Hcall; [done|by right].
Qed.

Lemma build_size buf T flags rs ts err m :
  bytes_ok buf -> Forall valid_tok (flatten_all ts) -> build buf T flags rs ts = Ret (err, m) -> vsize m = vsize buf.
Proof.
  intros Hb Hv E. assert (yields buf (build buf T flags rs ts)) as H.
  { apply andthen_like; [by apply create_like|]. intros m1 H1.
    apply andthen_like; [apply run_like; [intros; by apply add_reservemap_like|done]|]. intros m2 H2.
    apply andthen_like; [by apply finish_reservemap_like|]. intros m3 H3.
    apply andthen_like; [|intros; by apply finish_like]. apply run_like; [|done].
    intros m4 w H4 Hin. rewrite Forall_forall in Hv. specialize (Hv w ltac:(by apply list_elem_of_In)).
    exact (tok_like buf m4 w H4 Hv). }
  apply H in E. destruct E as [_ Hl]. unfold vsize. simpl in Hl. by rewrite Hl.
Qed.

Lemma finished_rw m a S N rs :
  finished m a S N -> a_rsv a = rs ++ [(0, 0)] -> Forall valid_rsv rs -> vsize m < INT32_MAX ->
  rw_ok m /\ rsv_list m rs.
Proof.
  intros Hf Hrs Hv Hsize. pose proof (finished_complete m a S N Hf Hsize) as Hc.
  pose proof (finished_entry m a S N rs Hf Hrs Hv) as Hent.
  pose proof (finished_rsvmap m a S N rs Hf Hrs Hv) as (H0 & _ & Hend & _).
  destruct Hf as [Hb _ Ht (H1 & H2 & H3) (Eb & H4 & HS & HN) (_ & _ & Es) [Er _] _ _ (Ev & E36 & E32)].
  assert (a_base a = 48 + 16 * vsize rs + 16) as Ebase.
  { unfold a_base. rewrite Hrs, vsize_enc_rsv, vsize_app, vsize_cons. change (vsize (@nil (Z * Z))) with 0. lia. }
  split; constructor; try done; try lia. intros i e Hi. split; [by apply Hent|].
  assert (valid_rsv e) as [_ ?] by (by eapply Forall_lookup_1). lia.
Qed.

(** The calls of a builder that succeeds, one after the other. *)
Lemma andthen_ok r k m : andthen r k = Ret (0, m) -> exists m1, r = Ret (0, m1) /\ k m1 = Ret (0, m).
Proof.
  unfold andthen. destruct r as [[err m1]| |]; [|done..]. rewrite bind_ret.
  destruct (Z.eqb_spec err 0) as [->|Hne]; [by exists m1|]. intros [= E _]. done.
Qed.

Lemma create_empty_tree_ok buf T :
  bytes_ok buf -> T <= vsize buf -> vsize buf < INT32_MAX -> 80 <= T ->
  exists m its, fdt_create_empty_tree buf T = Ret (0, m) /\ rw_ok m /\ rsv_list m [] /\ total m = T /\
    tree_at m its /\ erase_all its = [DNode [] []].
Proof.
  intros Hb HT Hmax Hroom. pose (ts := [DNode [] []]).
  assert (Forall valid_tok (flatten_all ts)) as Hv by (repeat constructor; done).
  destruct (build_ok buf T 0 [] ts) as (m & a & S & N & E & Hf & Ha & Htk & Htot); [done|lia|unfold INT32_MAX in *; lia|lia| | |].
  { exact Hv. }
  { change (vsize (@nil (Z * Z))) with 0. change (cost (flatten_all ts)) with 12. lia. }
  assert (vsize m = vsize buf) as Hsz by exact (build_size buf T 0 [] ts 0 m Hb Hv E).
  destruct (finished_rw m a S N [] Hf Ha ltac:(constructor) ltac:(lia)) as [Hrw Hl].
  destruct (finished_tree m a S N Hf ts Htk) as (its & Htree & He).
  pose proof (open_into_ok m [] its (word m 36) (blocks_rw m [] its Hrw Hl Htree) 0 T) as Ho.
  assert (in_order m [] (word m 36) = true) as Hord.
  { pose proof (rw_rsvmap m Hrw). pose proof (rw_strings m Hrw). pose proof (rw_struct m Hrw). unfold in_order.
    rewrite !andb_true_iff, !Z.leb_le. change (vsize (@nil (Z * Z))) with 0. lia. }
  unfold space_needed in Ho. rewrite Hord in Ho. rewrite decide_True in Ho by lia.
  destruct Ho as (m' & E' & H1 & H2 & H3 & H4 & _); [lia|unfold INT32_MAX in *; lia|lia|].
  exists m', its. refine (conj _ (conj H1 (conj H2 (conj H4 (conj H3 He))))).
  change (build buf T 0 [] ts) with
    (andthen (fdt_create buf T) (fun m => andthen (fdt_finish_reservemap m) (fun m =>
     andthen (andthen (fdt_begin_node m []) (fun m => andthen (fdt_end_node m) (fun m => Ret (0, m)))) fdt_finish))) in E.
  apply andthen_ok in E as (m1 & E1 & E). apply andthen_ok in E as (m2 & E2 & E).
  apply andthen_ok in E as (m4 & E4 & E). apply andthen_ok in E4 as (m3 & E3 & E4). apply andthen_ok in E4 as (m5 & E5 & [= <-]).
  unfold fdt_create_empty_tree. rewrite E1. steps. rewrite E2. steps. rewrite E3. steps. rewrite E5. steps. rewrite E. steps. exact E'.
Qed.
