(* ===== verification/FdtDemo.v ===== *)
(** * libfdt: concrete blobs

    Concrete blobs and calls on which the code loops forever, computes a
    signed overflow or touches memory outside its buffers.  The theorems of
    the other files exclude them by hypotheses ([safe_at], [complete],
    [FDT_V17_SIZE <= vsize m], terminated string lists, bounded names).

    A small tree written by the functions of [fdt_sw.c], as a list of bytes,
    with the items it holds.  The instances of the theorems use it. *)

From stdpp Require Import base option list strings.
From S2P Require Import Prelude.
From S2P Require Import BranchHash.
From S2P Require Import FdtBase.
From S2P Require Import FdtTags.
From S2P Require Import FdtTree.
From S2P Require Import FdtRead.
From S2P Require Import FdtReadFacts.
From S2P Require Import FdtCheck.
From S2P Require Import FdtWrite.
From S2P Require Import FdtWriteFacts.
From S2P Require Import FdtRoundtrip.
From S2P Require Import FdtInplace.

(** A blob of version 17 whose root has one property that announces [len]
    bytes. *)
Definition crafted (len : Z) : list Z :=
  flat_map be32 [FDT_MAGIC; 86; 56; 84; 40; 17; 16; 0; 2; 28] ++ replicate 16 0 ++
  flat_map be32 [FDT_BEGIN_NODE; 0; FDT_PROP; len; 0; FDT_END_NODE; FDT_END] ++ [120; 0].

(** ** A property that is its own successor *)

Definition looping : list Z := crafted 0xFFFFFFF4.

Lemma looping_tag : fdt_next_tag looping 8 = Ret (FDT_PROP, 8).
Proof. vm_compute. reflexivity. Qed.

Lemma looping_next_node fuel d : next_node_loop fuel looping 8 d = Fuel.
Proof.
  induction fuel as [|fuel IH]; [done|]. cbn [next_node_loop]. rewrite looping_tag, bind_ret.
  change (FDT_PROP =? FDT_BEGIN_NODE) with false. change (FDT_PROP =? FDT_END_NODE) with false.
  change (FDT_PROP =? FDT_END) with false. exact IH.
Qed.

Lemma looping_prop : exists p, fdt_getprop_by_offset looping 8 = Ret (Some p, -12).
Proof. eexists. vm_compute. reflexivity. Qed.

Lemma looping_check fuel d : check_full_loop fuel looping 8 d = Fuel.
Proof.
  induction fuel as [|fuel IH]; [done|]. cbn [check_full_loop]. rewrite looping_tag, bind_ret.
  change (8 <? 0) with false. change (FDT_PROP =? FDT_NOP) with false. change (FDT_PROP =? FDT_END) with false.
  change (FDT_PROP =? FDT_BEGIN_NODE) with false. change (FDT_PROP =? FDT_END_NODE) with false.
  destruct looping_prop as [p E]. rewrite E, bind_ret. exact IH.
Qed.

(** The walk over [looping] and its full check never end. *)
Theorem looping_walk_diverges d : fdt_next_node looping 0 d = Fuel /\ forall fuel, next_node_loop fuel looping 8 d = Fuel.
Proof.
  split; [|intros; apply looping_next_node].
  assert (fdt_check_node_offset_ looping 0 = Ret 8) as E by (vm_compute; reflexivity).
  unfold fdt_next_node. change (0 <=? 0) with true. cbn iota. rewrite E, bind_ret.
  change (8 <? 0) with false. cbn iota. apply looping_next_node.
Qed.

Theorem looping_check_diverges fuel : check_full fuel looping (vsize looping) = Fuel.
Proof.
  destruct fuel as [|fuel]; [vm_compute; reflexivity|].
  assert (exists n, fdt_num_mem_rsv looping = Ret n /\ 0 <= n) as (n & En & Hn)
    by (exists 0; split; [vm_compute; reflexivity|lia]).
  unfold check_full. change (vsize looping <? FDT_V1_SIZE) with false. cbn iota.
  assert (fdt_check_header looping = Ret 0) as -> by (vm_compute; reflexivity). rewrite bind_ret.
  assert (fdt_totalsize looping = Ret 86) as -> by (vm_compute; reflexivity). rewrite bind_ret.
  change (negb (0 =? 0)) with false. change (vsize looping <? 86) with false. cbn iota.
  rewrite En, bind_ret. destruct (Z.ltb_spec n 0); [lia|]. cbn [check_full_loop].
  assert (fdt_next_tag looping 0 = Ret (FDT_BEGIN_NODE, 8)) as -> by (vm_compute; reflexivity).
  rewrite bind_ret. change (8 <? 0) with false. cbn -[check_full_loop looping]. apply looping_check.
Qed.

(** ** Other lengths *)

(** [offset - startoffset] overflows. *)
Theorem overflow_length : fdt_next_tag (crafted (2 ^ 31 - 20)) 8 = Undef.
Proof. vm_compute. reflexivity. Qed.

(** A length of almost 4 GiB passes for one of four bytes. *)
Theorem wrapped_length :
  fdt_next_tag (crafted 0xFFFFFFF8) 8 = Ret (FDT_PROP, 12) /\
  fdt_getprop (crafted 0xFFFFFFF8) 0 (str "x") = Ret (Some 76, -8).
Proof. split; vm_compute; reflexivity. Qed.

(** ** A short buffer *)

(** [fdt_check_full] admits buffers of 28 bytes, and reads the size of the
    structure block at 36. *)
Theorem short_buffer : fdt_check_full (take 28 (crafted 0)) 28 = Undef.
Proof. vm_compute. reflexivity. Qed.

(** ** An alias of itself *)

(** A blob with the alias [a] of value "a". *)
Definition self_alias : list Z :=
  flat_map be32 [FDT_MAGIC; 106; 56; 104; 40; 17; 16; 0; 2; 48] ++ replicate 16 0 ++
  flat_map be32 [FDT_BEGIN_NODE; 0; FDT_BEGIN_NODE] ++ str "aliases" ++ [0] ++
  flat_map be32 [FDT_PROP; 2; 0] ++ [97; 0; 0; 0] ++
  flat_map be32 [FDT_END_NODE; FDT_END_NODE; FDT_END] ++ [97; 0].

Theorem self_alias_recurses :
  fdt_check_full self_alias (vsize self_alias) = Ret 0 /\
  forall fuel, fdt_path_offset fuel self_alias (str "a") = Fuel.
Proof.
  split; [vm_compute; reflexivity|]. unfold fdt_path_offset.
  induction fuel as [|fuel IH]; [vm_compute; reflexivity|].
  cbn [fdt_path_offset_namelen]. change (bool_decide (head (str "a") = Some c_slash)) with false. cbn iota.
  assert (fdt_ro_probe_ self_alias = Ret 106) as -> by (vm_compute; reflexivity). rewrite bind_ret.
  change (106 <? 0) with false. cbn iota. change (split_slash (str "a")).1 with (str "a").
  assert (fdt_get_alias_namelen self_alias (str "a") = Ret (Some 88)) as -> by (vm_compute; reflexivity).
  rewrite bind_ret. assert (strlen self_alias 88 = Ret 1) as -> by (vm_compute; reflexivity). rewrite bind_ret.
  assert (read self_alias 88 (Z.to_nat 1) = Ret (str "a")) as -> by (vm_compute; reflexivity). rewrite bind_ret.
  by rewrite IH.
Qed.

(** ** An unterminated string list *)

(** The comparison covers the terminator, which need not be in the list: the
    byte after the list is read. *)
Theorem unterminated_list :
  fdt_stringlist_contains (str "abc") 0 3 (str "abc") = Undef /\
  fdt_stringlist_contains (str "abc" ++ [0]) 0 3 (str "abc") = Ret 1.
Proof. split; vm_compute; reflexivity. Qed.

(** ** A property name longer than the buffer *)

Definition open_node : list Z :=
  match (r ← fdt_create (replicate 100 0) 100; r ← fdt_finish_reservemap r.2; fdt_begin_node r.2 []) with
  | Ret (0, m) => m
  | _ => []
  end.

(** The unsigned position of the new string wraps around, passes the test for
    room and is written before the buffer. *)
Theorem long_name_escapes : fdt_property open_node (replicate 200 97) [] = Undef.
Proof. vm_compute. reflexivity. Qed.

(** ** An index that wraps around *)

(** [len + idx] is an unsigned sum: the write lands far outside the value. *)
Theorem inplace_index_escapes :
  fdt_setprop_inplace_namelen_partial self_alias 8 (str "a") 0xFFFFFFFF [98] = Undef.
Proof. vm_compute. reflexivity. Qed.

Definition demo_tree : list dtree :=
  [DNode [] [DProp (str "compatible") (str "abc" ++ [0] ++ str "de" ++ [0]);
     DNode (str "cpus") [DProp (str "reg") (be32 5); DNode (str "cpu@0") [DProp (str "phandle") (be32 1)]];
     DNode (str "mem") [DProp (str "phandle") (be32 2)];
     DNode (str "aliases") [DProp (str "c") (str "/cpus" ++ [0])]]].

Definition demo : list Z := Eval vm_compute in
  match build (replicate 320 0) 320 0 [(16, 32)] demo_tree with Ret (_, m) => m | _ => [] end.

Definition demo_cpu : item := INode 56 (str "cpu@0") [IProp 68 (str "phandle") (be32 1)].
Definition demo_mem : item := INode 92 (str "mem") [IProp 100 (str "phandle") (be32 2)].
Definition demo_aliases : item := INode 120 (str "aliases") [IProp 132 (str "c") (str "/cpus" ++ [0])].
Definition demo_body : list item :=
  [IProp 8 (str "compatible") (str "abc" ++ [0] ++ str "de" ++ [0]);
   INode 28 (str "cpus") [IProp 40 (str "reg") (be32 5); demo_cpu]; demo_mem; demo_aliases].
Definition demo_items : list item := [INode 0 [] demo_body].

(** Bytes and strings by evaluation. *)
Lemma bytes_read m p bs : read m p (length bs) = Ret bs -> bytes_at m p bs.
Proof. intros H. by apply read_inv in H as [_ H]. Qed.

Lemma bytes_okb m : forallb (fun b => (0 <=? b) && (b <? 256)) m = true -> bytes_ok m.
Proof.
  intros H. apply Forall_forall. intros b Hb. rewrite forallb_forall in H. apply list_elem_of_In in Hb.
  specialize (H b Hb). unfold is_byte. lia.
Qed.

Lemma valid_strb s : forallb (fun b => (0 <? b) && (b <? 256)) s = true -> valid_str s.
Proof.
  intros H. apply Forall_forall. intros b Hb. rewrite forallb_forall in H. apply list_elem_of_In in Hb.
  specialize (H b Hb). simpl in H. lia.
Qed.

Lemma cstr_read m p s :
  read m p (length (s ++ [0])) = Ret (s ++ [0]) -> forallb (fun b => (0 <? b) && (b <? 256)) s = true ->
  cstr_at m p s.
Proof. intros H Hs. split; [by apply bytes_read|]. by apply valid_str_nonzero, valid_strb. Qed.

Ltac by_eval := vm_compute; (reflexivity || discriminate || (intros; discriminate)).
Ltac eval_range := split; by_eval.
Ltac tok_eval := first
  [ split; [by_eval|split; [apply cstr_read; by_eval|by_eval]]
  | split; [by_eval|split_and!; [by_eval|by_eval|apply bytes_read; by_eval|by_eval]]
  | split; by_eval ].
Ltac string_eval := split_and!; [by_eval|by_eval|apply cstr_read; by_eval].

Lemma demo_items_at : items_at demo 0 demo_items 160.
Proof.
  unfold demo_items, demo_body, demo_cpu, demo_mem, demo_aliases.
  apply (at_node demo 0 [] 5 _ 156 160); [tok_eval|by_eval| |tok_eval|by_eval|apply at_nil].
  apply (at_prop demo 8 14 _ _ 27); [tok_eval|by_eval|string_eval|].
  apply (at_node demo 28 _ 37 _ 88 92); [tok_eval|by_eval| |tok_eval|by_eval|].
  - apply (at_prop demo 40 10 _ _ 56); [tok_eval|by_eval|string_eval|].
    apply (at_node demo 56 _ 66 _ 84 88); [tok_eval|by_eval| |tok_eval|by_eval|apply at_nil].
    apply (at_prop demo 68 2 _ _ 84); [tok_eval|by_eval|string_eval|apply at_nil].
  - apply (at_node demo 92 _ 100 _ 116 120); [tok_eval|by_eval| |tok_eval|by_eval|].
    + apply (at_prop demo 100 2 _ _ 116); [tok_eval|by_eval|string_eval|apply at_nil].
    + apply (at_node demo 120 _ 132 _ 152 156); [tok_eval|by_eval| |tok_eval|by_eval|apply at_nil].
      apply (at_prop demo 132 0 _ _ 150); [tok_eval|by_eval|string_eval|apply at_nil].
Qed.

Lemma demo_tree_at : tree_at demo demo_items.
Proof. exists 160, 164. split_and!; [apply demo_items_at|tok_eval|by_eval]. Qed.

Lemma demo_header : header_ok demo.
Proof. constructor; try eval_range; by_eval. Qed.

Lemma demo_bytes : bytes_ok demo.
Proof. apply bytes_okb. by_eval. Qed.

Lemma demo_complete : complete demo.
Proof. apply header_complete; [apply demo_bytes|eval_range|by_eval|apply demo_header]. Qed.

Lemma demo_separated : separated demo.
Proof. constructor; by_eval. Qed.

Lemma demo_safe : safe_from demo 0.
Proof. apply (safe_walk_ok (S (length demo))). by_eval. Qed.

Lemma demo_root : node_at demo 0 [] demo_body 160.
Proof.
  pose proof demo_items_at as H. inversion H as [| | |? ? e ? o1 e1 ? ? Ht He Hb Ht1 He1 Hnil]; subst.
  inversion Hnil; subst. by exists e, o1, e1.
Qed.
