(* ===== verification/FdtTheorems.v ===== *)
(** * libfdt: the theorems

    The claims about reading, checking, writing and changing device tree blobs,
    each with an instance on the blob of [FdtDemo]. *)

From stdpp Require Import base option list strings.
From S2P Require Import Prelude.
From S2P Require Import BranchHash.
From S2P Require Import FdtBase.
From S2P Require Import FdtTags.
From S2P Require Import FdtTree.
From S2P Require Import FdtRead.
From S2P Require Import FdtReadFacts.
From S2P Require Import FdtCheck.
From S2P Require Import FdtWrite.
From S2P Require Import FdtWriteFacts.
From S2P Require Import FdtFinish.
From S2P Require Import FdtRoundtrip.
From S2P Require Import FdtMachine.
From S2P Require Import FdtInplace.
From S2P Require Import FdtMove.
From S2P Require Import FdtDemo.

(** ** Tokens and walks *)

(** C12: [fdt_next_tag] reads the structure block exactly and stays inside it.
    On a blob whose header is in bounds, at any [int] offset where no property
    length overflows, it returns; where a token fits the block it reports its
    tag and the aligned offset behind it, and everywhere else it reports the end
    tag with an error. *)
Theorem next_tag_exact m o :
  blob_ok m -> int_range o -> safe_at m o ->
  (forall t e, 0 <= o -> tok_at m o t e -> e <= slimit m -> fdt_next_tag m o = Ret (tag_of t, align4 e)) /\
  ((forall t e, 0 <= o -> tok_at m o t e -> slimit m < e) ->
   fdt_next_tag m o = Ret (FDT_END, - FDT_ERR_TRUNCATED) \/
   fdt_next_tag m o = Ret (FDT_END, - FDT_ERR_BADSTRUCTURE)).
Proof.
  intros Hm Ho Hs. split; [intros; by apply next_tag_complete|]. intros Hno.
  destruct (next_tag_spec m o Hm Ho Hs) as [(t & e & H0 & Ht & He & _)|H]; [|done].
  specialize (Hno t e H0 Ht). lia.
Qed.

Lemma next_tag_exact_witness :
  fdt_next_tag demo 28 = Ret (FDT_BEGIN_NODE, 40) /\
  (fdt_next_tag demo (- 4) = Ret (FDT_END, - FDT_ERR_TRUNCATED) \/
   fdt_next_tag demo (- 4) = Ret (FDT_END, - FDT_ERR_BADSTRUCTURE)).
Proof.
  split.
  - apply (next_tag_exact demo 28 (co_blob _ demo_complete)) with (t := TBegin (str "cpus")) (e := 37);
      [eval_range|by apply safe_atb_ok; by_eval|lia|tok_eval|by_eval].
  - apply (next_tag_exact demo (- 4) (co_blob _ demo_complete)); [eval_range|apply safe_atb_ok; by_eval|lia].
Defined.

(** Iterating [fdt_next_node] is a preorder walk.  From offset -1 without a
    depth it visits the offsets of all nodes of the tree in preorder and then
    reports that there are no more; from a node with depth 0 it visits the
    node's descendants with their depths and then the end of the node with
    depth -1. *)
Theorem walk_preorder m its :
  blob_ok m -> tree_at m its ->
  (exists p, chain m (- 1) None (visits_all None its) p None /\
     fdt_next_node m p None = Ret (- FDT_ERR_NOTFOUND, None)) /\
  (forall o name body next, 0 <= o -> o mod 4 = 0 -> node_at m o name body next ->
     exists p d, chain m o (Some 0) (visits_all (Some 0) body) p d /\
       fdt_next_node m p d = Ret (next, Some (- 1))).
Proof.
  intros Hm (o & e & Hi & Ht & He). split; [by eapply walk_root|].
  intros o' name body next Ho Ha Hn. destruct (walk_node m Hm o' name body next Ho Ha Hn) as (p & d & H1 & H2 & _).
  eauto.
Qed.

Lemma walk_preorder_witness :
  map (fun v => item_off v.1) (visits_all None demo_items) = [0; 28; 56; 92; 120] /\
  exists p, chain demo (- 1) None (visits_all None demo_items) p None /\
    fdt_next_node demo p None = Ret (- FDT_ERR_NOTFOUND, None).
Proof.
  split; [reflexivity|]. apply (walk_preorder demo demo_items (co_blob _ demo_complete) demo_tree_at).
Defined.

(** Walks terminate.  On a blob whose header is in bounds and whose property
    lengths, along the walk, do not overflow, [fdt_next_node] returns from every
    offset and depth, the property iterator returns, and the full check of a
    whole buffer returns: no out-of-bounds access, no signed overflow, no
    endless loop. *)
Theorem walks_terminate m :
  bytes_ok m -> FDT_V17_SIZE <= vsize m < INT32_MAX -> safe_from m 0 ->
  returns (fdt_check_full m (vsize m)) /\
  (blob_ok m -> forall o, int_range o -> safe_from m (Z.max 0 o) ->
     (forall d, depth_range d -> returns (fdt_next_node m o d)) /\
     (safe_from m o -> returns (nextprop_ m o))).
Proof.
  intros Hb Hs Hsafe. split; [by apply check_full_total|]. intros Hm o Ho Hsf. split.
  - intros d Hd. by apply next_node_total.
  - intros. by apply nextprop_total.
Qed.

Lemma walks_terminate_witness :
  returns (fdt_check_full demo (vsize demo)) /\ returns (fdt_next_node demo 0 (Some 0)).
Proof.
  destruct (walks_terminate demo demo_bytes ltac:(eval_range) demo_safe) as [H1 H2].
  split; [exact H1|]. apply (H2 (co_blob _ demo_complete) 0); [eval_range|apply demo_safe|eval_range].
Defined.

(** ** Reading *)

(** The outcome of a search. *)
Definition offset_or_notfound (it : option item) : Z :=
  match it with Some it => item_off it | None => - FDT_ERR_NOTFOUND end.

Lemma first_match (f : item -> bool) l :
  default (- FDT_ERR_NOTFOUND) (head (omap (fun it => if f it then Some (item_off it) else None) l))
  = offset_or_notfound (List.find f l).
Proof. induction l as [|it l IH]; [done|]. simpl. by destruct (f it). Qed.

(** Reading a node gives what the tree holds.  For a node of a complete blob,
    [fdt_get_name] yields its (leaf) name, [fdt_getprop] the value of its first
    property of the given name or a not-found error, [fdt_subnode_offset] its
    first child whose name matches up to the unit address, and
    [fdt_get_phandle] its phandle or 0. *)
Theorem node_reading m o name body next :
  complete m -> 0 <= o -> o mod 4 = 0 -> node_at m o name body next ->
  match leaf (ver m) name with
  | Some nm => exists p, fdt_get_name m o = Ret (Some p, vsize nm) /\ cstr_at m p nm
  | None => fdt_get_name m o = Ret (None, - FDT_ERR_BADSTRUCTURE)
  end /\
  (forall pname,
     match find_prop pname body with
     | Some (_, _, val) => exists p, fdt_getprop m o pname = Ret (Some p, vsize val) /\ bytes_at m p val
     | None => fdt_getprop m o pname = Ret (None, - FDT_ERR_NOTFOUND)
     end) /\
  (forall s, fdt_subnode_offset m o s = Ret (offset_or_notfound (List.find (child_matches m s) body))) /\
  fdt_get_phandle m o = Ret (phandle_of (INode o name body)).
Proof.
  intros Hc Ho Ha Hn. split_and!.
  - by eapply get_name_spec.
  - intros pname. pose proof (getprop_node m Hc pname o name body next Ho Ha Hn) as H.
    destruct (find_prop pname body) as [[[off nm] val]|]; [|done]. destruct H as (p & H1 & H2 & _). eauto.
  - intros s. by eapply subnode_offset_node.
  - apply (get_phandle_visited m Hc (INode o name body)). split_and!; [done..|]. by exists next.
Qed.

Lemma node_reading_witness :
  fdt_subnode_offset demo 0 (str "mem") = Ret 92 /\
  fdt_getprop demo 0 (str "nothing") = Ret (None, - FDT_ERR_NOTFOUND).
Proof.
  destruct (node_reading demo 0 [] demo_body 160 demo_complete ltac:(lia) eq_refl demo_root) as (_ & H1 & H2 & _).
  split; [exact (H2 (str "mem"))|exact (H1 (str "nothing"))].
Defined.

Section Paths.
Context (m : list Z) (Hc : complete m).

Lemma resolve_app a b : forall it,
  resolve m it (a ++ b) = match resolve m it a with Some it => resolve m it b | None => None end.
Proof.
  induction a as [|s a IH]; intros it; [done|]. simpl. destruct it as [| |o name body]; [done..|].
  destruct (List.find _ body); [apply IH|done].
Qed.

Lemma resolve_visited names : forall it it',
  visited_ok m (it, None) -> resolve m it names = Some it' -> visited_ok m (it', None).
Proof.
  induction names as [|s names IH]; intros it it' Hv H; simpl in H; [by injection H as <-|].
  destruct it as [| |o name body]; [done..|]. destruct (List.find _ body) as [c|] eqn:E; [|done].
  apply List.find_some in E as [Hin Hmatch]. destruct c as [| |off nm body']; try done.
  destruct Hv as (Ho & Ha & next & e & o1 & e1 & Ht & He & Hb & _). pose proof (tok_at_len _ _ _ _ Ht).
  pose proof (align4_spec e) as [? ?].
  eapply IH; [|exact H]. exact (child_at m _ _ _ _ _ _ Hb ltac:(lia) ltac:(done) Hin).
Qed.

Lemma path_loop_visited it p fuel :
  visited_ok m (it, None) -> (length p < fuel)%nat ->
  path_loop fuel m (item_off it) p = Ret (offset_or_notfound (resolve m it (components p))).
Proof.
  destruct it as [| |o name body]; [done..|]. intros (Ho & Ha & next & Hn) Hf. by eapply path_loop_node.
Qed.

(** From a failed lookup on, a path stays unresolved. *)
Lemma path_loop_failed p fuel :
  (length p < fuel)%nat -> path_loop fuel m (- FDT_ERR_NOTFOUND) p = Ret (- FDT_ERR_NOTFOUND).
Proof.
  intros Hf. destruct fuel as [|fuel]; [lia|]. cbn [path_loop]. destruct (skip_slashes p); [done|].
  unfold fdt_subnode_offset_namelen. rewrite (ro_probe_complete m Hc), bind_ret.
  destruct (Z.ltb_spec (total m) 0); [pose proof (total_nonneg m Hc); lia|]. done.
Qed.

Context (root : item) (Hroot : visited_ok m (root, None)) (Hzero : item_off root = 0).

Lemma path_absolute_ok path :
  path_absolute m path = Ret (offset_or_notfound (resolve m root (components path))).
Proof.
  unfold path_absolute. rewrite (ro_probe_complete m Hc), bind_ret.
  destruct (Z.ltb_spec (total m) 0); [pose proof (total_nonneg m Hc); lia|].
  rewrite <- Hzero. apply path_loop_visited; [done|lia].
Qed.

Lemma alias_ok name target aliases :
  resolve m root [str "aliases"] = Some aliases -> prop_of name aliases = Some (target ++ [0]) -> nonzero target ->
  exists p, fdt_get_alias_namelen m name = Ret (Some p) /\ cstr_at m p target.
Proof.
  intros Hal Hp Hz. pose proof (resolve_visited _ _ _ Hroot Hal) as Hv.
  pose proof (getprop_visited m Hc name aliases Hv) as H. rewrite Hp in H. destruct H as (p & H1 & H2 & _).
  exists p. split; [|by split]. unfold fdt_get_alias_namelen. rewrite path_absolute_ok, bind_ret.
  change (components (str "/aliases")) with [str "aliases"]. rewrite Hal. cbn [offset_or_notfound].
  destruct aliases as [| |o nm body]; [done..|]. destruct Hv as (Ho & _). cbn [item_off] in *.
  destruct (Z.ltb_spec o 0); [lia|]. unfold fdt_getprop in H1. by rewrite H1.
Qed.

Lemma path_alias_ok fuel path target aliases :
  head path <> Some c_slash -> head target = Some c_slash -> nonzero target ->
  resolve m root [str "aliases"] = Some aliases ->
  prop_of (split_slash path).1 aliases = Some (target ++ [0]) ->
  fdt_path_offset (S fuel) m path
  = Ret (offset_or_notfound (resolve m root (components target ++ components (split_slash path).2))).
Proof.
  intros Hh Ht Hz Hal Hp. unfold fdt_path_offset. cbn [fdt_path_offset_namelen].
  rewrite bool_decide_eq_false_2 by done. rewrite (ro_probe_complete m Hc), bind_ret.
  destruct (Z.ltb_spec (total m) 0); [pose proof (total_nonneg m Hc); lia|].
  destruct (alias_ok _ _ _ Hal Hp Hz) as (p & -> & Hs). rewrite bind_ret, (strlen_cstr _ _ _ Hs), bind_ret.
  unfold vsize. rewrite Nat2Z.id. destruct Hs as [Hs _]. apply bytes_at_app in Hs as [Hs _].
  rewrite (read_at _ _ _ Hs), bind_ret.
  assert (fdt_path_offset_namelen fuel m target = path_absolute m target) as ->.
  { destruct fuel; cbn [fdt_path_offset_namelen]; by rewrite bool_decide_eq_true_2. }
  rewrite path_absolute_ok, bind_ret, resolve_app. pose proof (split_slash_len path).
  destruct (resolve m root (components target)) as [it|] eqn:E; cbn [offset_or_notfound].
  - apply path_loop_visited; [by eapply resolve_visited|lia].
  - apply path_loop_failed. lia.
Qed.
End Paths.

(** C17: Path lookup resolves a path component by component.  In a complete blob
    whose root node is at offset 0, [fdt_path_offset] of an absolute path is the
    offset of the node the components lead to, or a not-found error; a path that
    starts with an alias of an absolute path is resolved as that path followed
    by the rest. *)
Theorem path_offset_correct m name body next :
  complete m -> node_at m 0 name body next ->
  let root := INode 0 name body in
  (forall fuel path, head path = Some c_slash ->
     fdt_path_offset fuel m path = Ret (offset_or_notfound (resolve m root (components path)))) /\
  (forall fuel path target aliases,
     head path <> Some c_slash -> head target = Some c_slash -> nonzero target ->
     resolve m root [str "aliases"] = Some aliases ->
     prop_of (split_slash path).1 aliases = Some (target ++ [0]) ->
     fdt_path_offset (S fuel) m path
     = Ret (offset_or_notfound (resolve m root (components target ++ components (split_slash path).2)))).
Proof.
  intros Hc Hn root. assert (visited_ok m (root, None)) as Hv by (split_and!; [done..|by exists next]). split.
  - intros fuel path Hh. rewrite <- (path_absolute_ok m Hc root Hv eq_refl). unfold fdt_path_offset.
    destruct fuel; cbn [fdt_path_offset_namelen]; by rewrite bool_decide_eq_true_2.
  - intros fuel path target aliases. by apply path_alias_ok.
Qed.

Lemma path_offset_correct_witness :
  fdt_path_offset 0 demo (str "/cpus/cpu") = Ret 56 /\
  fdt_path_offset 0 demo (str "/cpus/gpu") = Ret (- FDT_ERR_NOTFOUND) /\
  fdt_path_offset 1 demo (str "c/cpu@0") = Ret 56.
Proof.
  destruct (path_offset_correct demo [] demo_body 160 demo_complete demo_root) as [H1 H2].
  split_and!; [exact (H1 0%nat (str "/cpus/cpu") eq_refl)|exact (H1 0%nat (str "/cpus/gpu") eq_refl)|].
  apply (H2 0%nat (str "c/cpu@0") (str "/cpus") demo_aliases); [by_eval..|apply valid_str_nonzero, valid_strb; by_eval|by_eval|by_eval].
Defined.

(** The searches over all nodes return the first node in preorder that
    qualifies.  [fdt_node_offset_by_prop_value] finds the first node with the
    property value, [fdt_node_offset_by_phandle] the first with the phandle, or
    a not-found error; [fdt_find_max_phandle] is the maximum of all phandles,
    and [fdt_generate_phandle] yields one that no node has unless the largest
    is taken. *)
Theorem searches_correct m its :
  complete m -> tree_at m its ->
  (forall name val, fdt_node_offset_by_prop_value m (- 1) name val
     = Ret (offset_or_notfound (List.find (fun it => bool_decide (prop_of name it = Some val)) (all_nodes its)))) /\
  (forall ph, 0 < ph < 2 ^ 32 - 1 -> fdt_node_offset_by_phandle m ph
     = Ret (offset_or_notfound (List.find (fun it => phandle_of it =? ph) (all_nodes its)))) /\
  exists mx, fdt_find_max_phandle m = Ret (inr mx) /\ (forall it, In it (all_nodes its) -> phandle_of it <= mx) /\
    (mx < FDT_MAX_PHANDLE ->
     exists ph, fdt_generate_phandle m = Ret (inr ph) /\ 0 < ph <= FDT_MAX_PHANDLE /\
       forall it, In it (all_nodes its) -> phandle_of it <> ph).
Proof.
  intros Hc Ht. split_and!.
  - intros name val. rewrite (by_prop_value_tree m Hc its name val Ht). f_equal. apply first_match.
  - intros ph Hph. rewrite (by_phandle_tree m Hc its ph Ht Hph). f_equal. apply first_match.
  - eexists. split; [by apply max_phandle_tree|]. split; [intros it; apply foldl_max_ge|].
    set (mx := foldl _ 0 _). intros Hmx. exists (mx + 1).
    pose proof (proj1 (foldl_max_ge (all_nodes its) 0 INop)) as Hmx0. fold mx in Hmx0. unfold fdt_generate_phandle.
    rewrite (max_phandle_tree m Hc its Ht), bind_ret. fold mx. unfold FDT_MAX_PHANDLE in *.
    destruct (Z.eqb_spec mx 0xfffffffe); [lia|]. rewrite uwrap_small by lia. split_and!; [done|lia..|].
    intros it Hin. pose proof (proj2 (foldl_max_ge (all_nodes its) 0 it) Hin). fold mx in H. lia.
Qed.

Lemma searches_correct_witness :
  fdt_node_offset_by_phandle demo 2 = Ret 92 /\
  fdt_node_offset_by_prop_value demo (- 1) (str "reg") (be32 5) = Ret 28.
Proof.
  destruct (searches_correct demo demo_items demo_complete demo_tree_at) as (H1 & H2 & _).
  split; [exact (H2 2 ltac:(lia))|exact (H1 (str "reg") (be32 5))].
Defined.

(** The string list functions work on the list of strings a property holds.
    For a node whose property is the concatenation of terminated strings,
    [fdt_stringlist_count] is their number and [fdt_stringlist_search] the index
    of the first equal one; for the property "compatible",
    [fdt_node_check_compatible] is 0 exactly for a nonempty string of the
    list. *)
Theorem stringlists_correct m o name body next pname ss :
  complete m -> 0 <= o -> o mod 4 = 0 -> node_at m o name body next ->
  prop_of pname (INode o name body) = Some (join ss) -> Forall nonzero ss ->
  fdt_stringlist_count m o pname = Ret (vsize ss) /\
  (forall s, nonzero s -> fdt_stringlist_search m o pname s = Ret (index_of s ss 0)) /\
  (pname = str "compatible" -> forall s, nonzero s -> s <> [] ->
     fdt_node_check_compatible m o s = Ret (b2z (negb (bool_decide (s ∈ ss))))).
Proof.
  intros Hc Ho Ha Hn Hp Hz.
  assert (visited_ok m (INode o name body, None)) as Hv by (split_and!; [done..|by exists next]).
  pose proof (getprop_visited m Hc pname _ Hv) as H. rewrite Hp in H. cbn [item_off] in H.
  destruct H as (p & Hget & Hat & Hp0 & Hp1).
  assert (length (join ss) < S (S (length m)))%nat as Hf by (unfold vsize in *; lia). split_and!.
  - unfold fdt_stringlist_count. rewrite Hget, bind_ret. by rewrite (count_join m ss p _ 0 Hz Hat Hf).
  - intros s Hs. unfold fdt_stringlist_search. rewrite Hget, bind_ret. by apply search_join.
  - intros -> s Hs Hne. unfold fdt_node_check_compatible. rewrite Hget, bind_ret.
    unfold fdt_stringlist_contains. rewrite (contains_join m s ss p) by (done || lia). rewrite bind_ret.
    by destruct (bool_decide (s ∈ ss)).
Qed.

Lemma stringlists_correct_witness :
  fdt_stringlist_count demo 0 (str "compatible") = Ret 2 /\
  fdt_node_check_compatible demo 0 (str "de") = Ret 0.
Proof.
  destruct (stringlists_correct demo 0 [] demo_body 160 (str "compatible") [str "abc"; str "de"]
    demo_complete ltac:(lia) eq_refl demo_root eq_refl) as (H1 & _ & H2).
  - repeat constructor; discriminate.
  - split; [exact H1|]. apply (H2 eq_refl); [repeat constructor; discriminate|discriminate].
Defined.

(** ** Checking *)

(** C2: [fdt_check_full] accepts a buffer exactly when it holds a device tree: the
    header's blocks lie inside the total size and that inside the buffer, the
    reservation map is terminated, and the structure block is a tree whose
    property names are terminated strings.  The assumption that property lengths
    do not overflow is needed for the direction from acceptance only. *)
Theorem check_full_exact m :
  bytes_ok m -> FDT_V17_SIZE <= vsize m < INT32_MAX ->
  (header_ok m /\ total m <= vsize m /\ (exists n, rsvmap_at m n) /\ (exists its, tree_at m its) ->
   fdt_check_full m (vsize m) = Ret 0) /\
  (safe_from m 0 -> fdt_check_full m (vsize m) = Ret 0 ->
   header_ok m /\ total m <= vsize m /\ (exists n, rsvmap_at m n) /\ exists its, tree_at m its).
Proof.
  intros Hb Hs. split.
  - intros (Hh & Ht & (n & Hn) & its & Htree). by eapply check_full_accepts.
  - intros Hsafe. by apply check_full_spec.
Qed.

Lemma check_full_exact_witness :
  fdt_check_full demo (vsize demo) = Ret 0 /\ exists its, tree_at demo its.
Proof.
  assert (fdt_check_full demo (vsize demo) = Ret 0) as E by (vm_compute; reflexivity).
  split; [exact E|]. apply (check_full_exact demo demo_bytes ltac:(eval_range)); [apply demo_safe|exact E].
Defined.

(** ** Writing *)

Lemma unknown_flags flags :
  1 < flags < 2 ^ 32 -> nz (flags .& u32 (Z.lnot FDT_CREATE_FLAGS_ALL)) = true.
Proof.
  intros Hf. apply nz_true. change (u32 (Z.lnot FDT_CREATE_FLAGS_ALL)) with (Z.shiftl (Z.ones 31) 1).
  intros E. assert (Z.shiftr flags 1 = 0) as E'.
  { rewrite <- (Z.mod_small (Z.shiftr flags 1) (2 ^ 31)), <- Z.land_ones by (rewrite ?Z.shiftr_div_pow2; Z.div_mod_to_equations; lia).
    apply (f_equal (fun x => Z.shiftr x 1)) in E. rewrite Z.shiftr_land in E. exact E. }
  rewrite Z.shiftr_div_pow2 in E' by lia. Z.div_mod_to_equations. lia.
Qed.

Lemma sw_call_like m op : bytes_ok m -> valid_op op -> yields m (sw_call m op).
Proof.
  intros Hb Hv. pose proof (like_refl m Hb) as Hm. destruct op as [addr size| |w|]; simpl in Hv |- *.
  - by apply add_reservemap_like.
  - by apply finish_reservemap_like.
  - by apply tok_like.
  - by apply finish_like.
Qed.

(** C27: The sequential writer keeps its invariant.  Take calls whose names are
    strings without zero bytes, with property names of fewer than 64 bytes, node
    names and values of fewer than [2 ^ 30] bytes and values of bytes.  Every buffer
    reached from [fdt_create_with_flags] by any sequence of such calls, failed ones
    included, represents a phase of the abstract writer (reserving, structure, done)
    with the reservations and tokens accepted so far, and every further such call
    returns and is a transition of that machine: it succeeds and appends, reports
    that there is no room and keeps what was accepted, or refuses a call of another
    phase.  The bound on property names is needed: with a longer name the writer can
    leave the buffer ([FdtDemo.long_name_escapes]). *)
Theorem sw_invariant buf T flags m :
  bytes_ok buf -> 48 <= T <= vsize buf -> T < INT32_MAX -> 0 <= flags <= 1 -> sw_reach buf T flags m ->
  exists s, represents m s /\ a_size (phase_sw s) = T /\
    forall op, valid_op op ->
      exists err m' s', sw_call m op = Ret (err, m') /\ astep s op err s' /\ represents m' s'.
Proof.
  intros Hb HT Hmax Hfl Hr. destruct (sw_reach_inv buf T flags m Hb HT Hmax Hfl Hr) as (s & Hs & Hsz).
  exists s. split_and!; [done..|]. intros op Hv. by apply refine_call.
Qed.

Lemma sw_invariant_witness :
  exists m s, fdt_create_with_flags (replicate 64 7) 64 0 = Ret (0, m) /\ represents m s /\
    a_size (phase_sw s) = 64.
Proof.
  destruct (fdt_create_with_flags (replicate 64 7) 64 0) as [[err m]| |] eqn:E;
    [|vm_compute in E; discriminate..].
  assert (err = 0) as -> by (vm_compute in E; congruence).
  destruct (sw_invariant (replicate 64 7) 64 0 m) as (s & Hs & Hsz & _);
    [apply bytes_okb; by_eval|eval_range|by_eval|eval_range|by apply reach_create|].
  exists m, s. split_and!; [reflexivity|exact Hs|exact Hsz].
Defined.

(** C36: Errors of the writer leave the buffer as it was.  On a buffer whose magic
    number is not that of a blob under construction every call is refused, with
    a bad-state error for a finished blob and a bad-magic error otherwise;
    creation refuses a buffer too small for the header and unknown flags; a node
    that finds no room reports it.  In each case the bytes do not change. *)
Theorem sw_errors m :
  bytes_ok m -> FDT_V17_SIZE <= vsize m ->
  (word m 0 <> FDT_SW_MAGIC -> forall op, valid_op op ->
     sw_call m op = Ret (if word m 0 =? FDT_MAGIC then - FDT_ERR_BADSTATE else - FDT_ERR_BADMAGIC, m)) /\
  (forall T flags, 0 <= T < 48 -> fdt_create_with_flags m T flags = Ret (- FDT_ERR_NOSPACE, m)) /\
  (forall T flags, 48 <= T < 2 ^ 31 -> 1 < flags < 2 ^ 32 ->
     fdt_create_with_flags m T flags = Ret (- FDT_ERR_BADFLAGS, m)) /\
  (forall a S N name, sw_inv_at m a S N -> valid_str name -> vsize name < 2 ^ 30 ->
     a_size a < a_base a + S + N + (4 + align4 (vsize name + 1)) ->
     fdt_begin_node m name = Ret (- FDT_ERR_NOSPACE, m)).
Proof.
  intros Hb Hs. split_and!.
  - intros Hm op Hv. by apply call_wrong_magic.
  - intros T flags HT. unfold fdt_create_with_flags. change (FDT_ALIGN _ _) with 48.
    rewrite uwrap_small by lia. destruct (Z.ltb_spec T 48); [done|lia].
  - intros T flags HT Hf. unfold fdt_create_with_flags. change (FDT_ALIGN _ _) with 48.
    rewrite uwrap_small by lia. destruct (Z.ltb_spec T 48); [lia|].
    rewrite unknown_flags by done. done.
  - intros a S N name Hi Hv Hl Hno. destruct (begin_node_ok m a S N name Hi Hv Hl) as (err & m' & E & H).
    rewrite decide_False in H by lia. destruct H as [-> ->]. exact E.
Qed.

Lemma sw_errors_witness : sw_call demo (OpTok WEnd) = Ret (- FDT_ERR_BADSTATE, demo).
Proof. apply (sw_errors demo demo_bytes ltac:(by_eval)); [discriminate|exact I]. Defined.

(** Writers keep the buffer a buffer.  Whatever the bytes of the buffer, a
    call of [fdt_sw.c] or [fdt_wip.c] that returns leaves a list of bytes of the
    same length. *)
Theorem writers_typed m :
  bytes_ok m ->
  (forall T flags, yields m (fdt_create_with_flags m T flags)) /\
  (forall old T, bytes_ok old -> yields m (fdt_resize old m T)) /\
  (forall op, valid_op op -> yields m (sw_call m op)) /\
  (forall o name idx val, bytes_ok val -> yields m (fdt_setprop_inplace_namelen_partial m o name idx val)) /\
  (forall o name val, bytes_ok val -> yields m (fdt_setprop_inplace m o name val)) /\
  (forall o name, yields m (fdt_nop_property m o name)) /\
  (forall o, yields m (fdt_nop_node m o)).
Proof.
  intros Hb. pose proof (like_refl m Hb) as Hm. split_and!; intros.
  - by apply create_like.
  - by apply resize_like.
  - by apply sw_call_like.
  - by apply inplace_partial_like.
  - by apply setprop_inplace_like.
  - by apply nop_property_like.
  - by apply nop_node_like.
Qed.

Lemma writers_typed_witness :
  exists m', fdt_nop_node demo 92 = Ret (0, m') /\ length m' = length demo.
Proof.
  destruct (fdt_nop_node demo 92) as [[err m']| |] eqn:E; [|vm_compute in E; discriminate..].
  assert (err = 0) as -> by (vm_compute in E; congruence). exists m'. split; [reflexivity|].
  apply (like_size demo m'). apply (writers_typed demo demo_bytes) in E. exact E.
Defined.

Lemma finished_separated m a S N : finished m a S N -> separated m.
Proof.
  intros [_ _ _ _ (Hb & Hb2 & _) (Hs & _ & Hstr) _ _ _]. split; [unfold FDT_V17_SIZE; lia|lia].
Qed.

(** C8: Writing a tree and reading it back is the identity.  Take a device tree
    whose names have no zero bytes, with property names of fewer than 64 bytes, node
    names and values of fewer than [2 ^ 30] bytes and values of bytes, and
    reservations with a 64-bit address and a 64-bit size other than 0 (an entry of
    size 0 would end the map).  If they fit the buffer, by the size stated, the
    calls of [fdt_sw.c] all succeed, [fdt_check_full] accepts the result, the tree in
    its structure block is the one that was written, and the reservation map holds
    the entries that were added. *)
Theorem sw_roundtrip buf T flags rs ts :
  bytes_ok buf -> T <= vsize buf -> vsize buf < INT32_MAX -> 0 <= flags <= 1 ->
  Forall valid_tok (flatten_all ts) -> Forall valid_rsv rs ->
  48 + 16 * (vsize rs + 1) + cost (flatten_all ts) + 4 <= T ->
  exists m its, build buf T flags rs ts = Ret (0, m) /\ complete m /\ separated m /\
    fdt_check_full m (vsize m) = Ret 0 /\ tree_at m its /\ erase_all its = ts /\
    fdt_num_mem_rsv m = Ret (vsize rs) /\
    forall i e, rs !! i = Some e -> fdt_get_mem_rsv m (Z.of_nat i) = Ret (inr e).
Proof.
  intros Hb HT Hmax Hfl Hv Hrs Hroom.
  destruct (build_ok buf T flags rs ts) as (m & a & S & N & E & Hf & Ha & Ht & _); [done..|lia|done|done|done|].
  assert (vsize m = vsize buf) as Hsz by (by eapply build_size).
  pose proof (finished_complete m a S N Hf ltac:(lia)) as Hc.
  pose proof (finished_rsvmap m a S N rs Hf Ha Hrs) as Hmap.
  destruct (finished_tree m a S N Hf ts Ht) as (its & Htree & He).
  exists m, its. split_and!; [done|done|by eapply finished_separated| |done|done| |].
  - destruct Hf as [Hbm Hh _ (H1 & _ & H3) _ _ _ _ _ _].
    eapply check_full_accepts; [done|unfold FDT_V17_SIZE; lia|done|done|done|done].
  - eapply finished_num_rsv; done || lia.
  - intros i e Hi. eapply finished_get_rsv; done || lia.
Qed.

Lemma sw_roundtrip_witness :
  exists its, build (replicate 320 0) 320 0 [(16, 32)] demo_tree = Ret (0, demo) /\ tree_at demo its /\
    erase_all its = demo_tree /\ fdt_get_mem_rsv demo 0 = Ret (inr (16, 32)).
Proof.
  destruct (sw_roundtrip (replicate 320 0) 320 0 [(16, 32)] demo_tree) as (m & its & E & _ & _ & _ & Ht & He & _ & Hr);
    [apply bytes_okb; by_eval|by_eval|by_eval|eval_range| |by repeat constructor|by_eval|].
  - repeat constructor; try (apply valid_strb; by_eval); try (apply bytes_okb; by_eval); by_eval.
  - assert (m = demo) as -> by (vm_compute in E; vm_compute; congruence).
    exists its. split_and!; [exact E|exact Ht|exact He|]. apply (Hr 0%nat (16, 32)). reflexivity.
Defined.

(** ** Changing in place *)

(** In-place changes do to the tree what they say.  In a complete blob whose
    strings follow the structure block, [fdt_setprop_inplace] with a value of the
    same size replaces the value of the node's first property of that name and
    nothing else in the tree; a missing property or another size is an error
    and changes nothing.  [fdt_nop_property] turns that property, and
    [fdt_nop_node] the whole node, into NOPs and leaves the rest of the tree. *)
Theorem inplace_correct m c o nname body :
  complete m -> separated m -> tree_at m (plug c [INode o nname body]) ->
  (exists m' n, fdt_nop_node m o = Ret (0, m') /\ complete m' /\ tree_at m' (plug c (replicate n INop))) /\
  (forall name val', bytes_ok val' ->
     match find_prop name body with
     | None => fdt_setprop_inplace m o name val' = Ret (- FDT_ERR_NOTFOUND, m)
     | Some (off, _, val) =>
         if vsize val' =? vsize val then
           forall before after, body = before ++ IProp off name val :: after ->
           exists m', fdt_setprop_inplace m o name val' = Ret (0, m') /\ complete m' /\
             tree_at m' (plug c [INode o nname (before ++ IProp off name val' :: after)])
         else fdt_setprop_inplace m o name val' = Ret (- FDT_ERR_NOSPACE, m)
     end) /\
  (16 <= ver m -> forall name off val before after,
     body = before ++ IProp off name val :: after -> find_prop name body = Some (off, name, val) ->
     exists m' n, fdt_nop_property m o name = Ret (0, m') /\ complete m' /\
       tree_at m' (plug c [INode o nname (before ++ replicate n INop ++ after)])).
Proof.
  intros Hc Hsep Ht. split_and!.
  - by eapply nop_node_tree.
  - intros name val' Hb. pose proof (setprop_inplace_fails m Hc Hsep c o nname body name val' Ht) as Hfail.
    destruct (find_prop name body) as [[[off nm] val]|] eqn:E; [|done].
    destruct (Z.eqb_spec (vsize val') (vsize val)) as [Hlen|]; [|by apply Hfail].
    intros before after ->. apply find_prop_in in E as E'. destruct E' as [-> _]. by eapply setprop_inplace_tree.
  - intros Hv name off val before after -> Hfind. by eapply nop_property_tree.
Qed.

Lemma inplace_correct_witness :
  (exists m' n, fdt_nop_node demo 92 = Ret (0, m') /\
     tree_at m' (plug (Inside [] 0 [] (Here (take 2 demo_body) [demo_aliases]) []) (replicate n INop))) /\
  fdt_setprop_inplace demo 92 (str "reg") [1] = Ret (- FDT_ERR_NOTFOUND, demo).
Proof.
  destruct (inplace_correct demo (Inside [] 0 [] (Here (take 2 demo_body) [demo_aliases]) []) 92 (str "mem")
    [IProp 100 (str "phandle") (be32 2)] demo_complete demo_separated demo_tree_at) as ((m' & n & H1 & _ & H2) & H3 & _).
  split; [exists m', n; split; [exact H1|exact H2]|]. apply (H3 (str "reg") [1]). apply bytes_okb. reflexivity.
Defined.

(** ** What the hypotheses exclude *)

(** Crafted inputs are not withstood.  A blob whose property length wraps to
    the start of its own tag keeps the full check and the node walk running for
    any fuel; another length overflows an [int], and lengths just below 4 GiB
    pass for short ones; the full check of a 28-byte buffer reads past it; an
    alias of itself makes the path lookup recurse for ever on a blob the full
    check accepts; an unterminated string list is read past its end; a property
    name longer than the buffer is written in front of it, and an index that
    wraps around is written outside the value. *)
Theorem crafted_inputs :
  (forall fuel, check_full fuel looping (vsize looping) = Fuel) /\
  (forall fuel d, next_node_loop fuel looping 8 d = Fuel) /\
  fdt_next_tag (crafted (2 ^ 31 - 20)) 8 = Undef /\
  fdt_next_tag (crafted 0xFFFFFFF8) 8 = Ret (FDT_PROP, 12) /\
  fdt_check_full (take 28 (crafted 0)) 28 = Undef /\
  fdt_check_full self_alias (vsize self_alias) = Ret 0 /\
  (forall fuel, fdt_path_offset fuel self_alias (str "a") = Fuel) /\
  fdt_stringlist_contains (str "abc") 0 3 (str "abc") = Undef /\
  fdt_property open_node (replicate 200 97) [] = Undef /\
  fdt_setprop_inplace_namelen_partial self_alias 8 (str "a") 0xFFFFFFFF [98] = Undef.
Proof.
  refine (conj looping_check_diverges (conj looping_next_node (conj overflow_length
    (conj (proj1 wrapped_length) (conj short_buffer (conj (proj1 self_alias_recurses)
    (conj (proj2 self_alias_recurses) (conj (proj1 unterminated_list)
    (conj long_name_escapes inplace_index_escapes))))))))).
Qed.
