(* ===== verification/FdtRwTheorems.v ===== *)
(** * libfdt: theorems about the read-write calls

    Every call of [fdt_rw.c] on a blob of version 17 whose blocks are in order
    edits the tree (or the reservation map) as it says and nothing else, or
    reports why not; packing and opening keep everything. *)

From stdpp Require Import base option list strings.
From S2P Require Import Prelude.
From S2P Require Import BranchHash.
From S2P Require Import FdtBase.
From S2P Require Import FdtTags.
From S2P Require Import FdtTree.
From S2P Require Import FdtRead.
From S2P Require Import FdtReadFacts.
From S2P Require Import FdtCheck.
From S2P Require Import FdtWrite.
From S2P Require Import FdtWriteFacts.
From S2P Require Import FdtFinish.
From S2P Require Import FdtRoundtrip.
From S2P Require Import FdtInplace.
From S2P Require Import FdtRw.
From S2P Require Import FdtEdit.
From S2P Require Import FdtRwFacts.
From S2P Require Import FdtMove.
From S2P Require Import FdtDemo.

(** ** A blob with free room *)

Lemma demo_rw : rw_ok demo.
Proof. constructor; [apply demo_complete|by_eval..]. Qed.

Lemma demo_rsv : rsv_list demo [(16, 32)].
Proof.
  constructor; [|by_eval..]. intros [|i] e Hi; [|done]. injection Hi as <-. split; [split|]; by_eval.
Qed.

Definition demo_open : list Z := Eval vm_compute in
  match fdt_open_into demo 0 320 with Ret (_, m) => m | _ => [] end.

Lemma demo_open_ok : rw_ok demo_open /\ rsv_list demo_open [(16, 32)] /\ tree_at demo_open demo_items.
Proof.
  pose proof (open_into_ok demo [(16, 32)] demo_items _ (blocks_rw _ _ _ demo_rw demo_rsv demo_tree_at) 0 320
    ltac:(by left) ltac:(lia) ltac:(by_eval)) as H.
  rewrite decide_True in H by by_eval. destruct H as (m' & E & H1 & H2 & H3 & _).
  assert (m' = demo_open) as -> by (vm_compute in E; vm_compute; congruence). by split_and!.
Qed.

(** ** Properties *)

(** C23: Editing properties edits the tree.  On a node of a blob of version 17 with
    its blocks in order, [fdt_delprop] takes the named property out of the tree,
    [fdt_setprop] gives it the new value, whatever its size, and
    [fdt_appendprop] extends its value; where the room does not suffice they
    report it and leave the blob as it was.  When the node has no such property,
    [fdt_delprop] reports that, and the other two put one in front of the node's
    contents, or report that there is no room and leave the tree as it was. *)
Theorem rw_property_edits m c o nname body name :
  rw_ok m -> tree_at m (plug c [INode o nname body]) -> valid_str name -> vsize name < 2 ^ 30 ->
  (forall before off val after, body = before ++ IProp off name val :: after -> find_prop name body = Some (off, name, val) ->
    let edited ts := plug_erased c [DNode nname (erase_all before ++ ts ++ erase_all after)] in
    (exists m', fdt_delprop m o name = Ret (0, m') /\ edits_to m' (edited [])) /\
    forall val', bytes_ok val' -> vsize val + vsize val' < 2 ^ 30 ->
      (exists err m', fdt_setprop m o name val' = Ret (err, m') /\
        if decide (data_end m + (align4 (vsize val') - align4 (vsize val)) <= total m)
        then err = 0 /\ edits_to m' (edited [DProp name val']) else err = - FDT_ERR_NOSPACE /\ m' = m) /\
      (exists err m', fdt_appendprop m o name val' = Ret (err, m') /\
        if decide (data_end m + (align4 (vsize val + vsize val') - align4 (vsize val)) <= total m)
        then err = 0 /\ edits_to m' (edited [DProp name (val ++ val')]) else err = - FDT_ERR_NOSPACE /\ m' = m)) /\
  (find_prop name body = None ->
    fdt_delprop m o name = Ret (- FDT_ERR_NOTFOUND, m) /\
    forall val, bytes_ok val -> vsize val < 2 ^ 30 ->
      property_added m c o nname body name (fdt_setprop m o name val) val /\
      property_added m c o nname body name (fdt_appendprop m o name val) val).
Proof.
  intros Hrw Htree Hn Hl. split.
  - intros before off val after -> Hf edited. split; [exact (delprop_tree m Hrw c o nname before after off name val Htree Hf)|].
    intros val' Hb Hl'. pose proof (vsize_nonneg val). split.
    + apply (setprop_replace_tree m Hrw c o nname before after off name val Htree Hf); [done|lia].
    + apply (appendprop_extend_tree m Hrw c o nname before after off name val Htree Hf); done.
  - intros Hf. split.
    + unfold fdt_delprop. rewrite rw_guard by done. by rewrite (get_property_missing m Hrw c o nname body name Htree Hf).
    + intros val Hb Hv. split; [by apply setprop_add_tree|by apply appendprop_add_tree].
Qed.


(** The context of the node [mem] of the demonstration blob. *)
Definition mem_ctx : ctx := Inside [] 0 [] (Here (take 2 demo_body) [demo_aliases]) [].

Lemma rw_property_edits_witness :
  (exists m', fdt_delprop demo_open 92 (str "phandle") = Ret (0, m') /\
    edits_to m' (plug_erased mem_ctx [DNode (str "mem") []])) /\
  (exists m', fdt_setprop demo_open 92 (str "phandle") (be32 7 ++ be32 8) = Ret (0, m') /\
    edits_to m' (plug_erased mem_ctx [DNode (str "mem") [DProp (str "phandle") (be32 7 ++ be32 8)]])) /\
  fdt_delprop demo_open 92 (str "reg") = Ret (- FDT_ERR_NOTFOUND, demo_open).
Proof.
  destruct demo_open_ok as (Hrw & _ & Htree).
  destruct (rw_property_edits demo_open mem_ctx 92 (str "mem") [IProp 100 (str "phandle") (be32 2)] (str "phandle"))
    as [H _]; [done|exact Htree|apply valid_strb; by_eval|by_eval|].
  destruct (H [] 100 (be32 2) [] eq_refl ltac:(by_eval)) as [H1 H2].
  destruct (H2 (be32 7 ++ be32 8)) as [(err & m' & E & H3) _]; [apply bytes_okb; by_eval|by_eval|].
  rewrite decide_True in H3 by by_eval. destruct H3 as [-> H3].
  destruct (rw_property_edits demo_open mem_ctx 92 (str "mem") [IProp 100 (str "phandle") (be32 2)] (str "reg"))
    as [_ H']; [done|exact Htree|apply valid_strb; by_eval|by_eval|].
  split; [exact H1|]. split; [exists m'; split; [exact E|exact H3]|]. apply H'. by_eval.
Defined.

(** ** Nodes *)

(** C30: Editing nodes edits the tree.  On a blob of version 17 with its blocks in
    order, [fdt_del_node] takes the node with its contents out of the tree,
    [fdt_set_name] renames it, and [fdt_add_subnode] puts an empty node behind
    its properties, unless a child of that name exists, and returns the offset
    the new node has in the tree, where every item behind it has moved by the
    size of its tokens and no other item has; where the room does not suffice
    they report it and leave the blob as it was. *)
Theorem rw_node_edits m c o nname body name :
  rw_ok m -> tree_at m (plug c [INode o nname body]) -> valid_str name -> vsize name < 2 ^ 29 ->
  (exists m', fdt_del_node m o = Ret (0, m') /\ edits_to m' (plug_erased c [])) /\
  (exists err m', fdt_set_name m o name = Ret (err, m') /\
    if decide (data_end m + (align4 (vsize name + 1) - align4 (vsize nname + 1)) <= total m)
    then err = 0 /\ edits_to m' (plug_erased c [DNode name (erase_all body)])
    else err = - FDT_ERR_NOSPACE /\ m' = m) /\
  (forall before after, body = before ++ after -> forallb is_prop before = true ->
    match after with [] => True | it :: _ => is_prop it = false end ->
    match List.find (child_matches m name) body with
    | Some _ => fdt_add_subnode m o name = Ret (- FDT_ERR_EXISTS, m)
    | None =>
        if decide (data_end m + (8 + align4 (vsize name + 1)) <= total m)
        then let L := 8 + align4 (vsize name + 1) in
          exists p m', fdt_add_subnode m o name = Ret (p, m') /\ 0 <= p /\
          tree_at m' (plug (shift_ctx L c) [INode o nname (before ++ INode p name [] :: map (shift L) after)]) /\
          edits_to m' (plug_erased c [DNode nname (erase_all before ++ DNode name [] :: erase_all after)])
        else fdt_add_subnode m o name = Ret (- FDT_ERR_NOSPACE, m)
    end).
Proof.
  intros Hrw Htree Hv Hl. refine (conj _ (conj _ _)).
  - by eapply del_node_tree.
  - apply set_name_tree; done || lia.
  - intros before after -> Hps Haft.
    pose proof (add_subnode_tree m c o nname before after name Hrw Htree Hps Haft Hv Hl) as H.
    destruct (List.find _ _); [exact H|]. case_decide; [|exact H].
    destruct H as (p & m' & E & Hp & Hm'). exists p, m'. do 3 (split; [done || apply Hm'|]).
    by apply (inserted_edits m' (8 + align4 (vsize name + 1)) c o nname before [INode p name [] ] after).
Qed.

Lemma rw_node_edits_witness :
  (exists m', fdt_del_node demo_open 92 = Ret (0, m') /\ edits_to m' (plug_erased mem_ctx [])) /\
  (exists m', fdt_add_subnode demo_open 92 (str "bank") = Ret (116, m') /\
    tree_at m' (plug (shift_ctx 16 mem_ctx)
      [INode 92 (str "mem") [IProp 100 (str "phandle") (be32 2); INode 116 (str "bank") [] ] ]) /\
    edits_to m' (plug_erased mem_ctx [DNode (str "mem") [DProp (str "phandle") (be32 2); DNode (str "bank") []]])).
Proof.
  destruct demo_open_ok as (Hrw & _ & Htree).
  destruct (rw_node_edits demo_open mem_ctx 92 (str "mem") [IProp 100 (str "phandle") (be32 2)] (str "bank"))
    as (H1 & _ & H3); [done|exact Htree|apply valid_strb; by_eval|by_eval|].
  split; [exact H1|]. specialize (H3 [IProp 100 (str "phandle") (be32 2)] [] eq_refl eq_refl I).
  change (List.find _ _) with (@None item) in H3. cbv beta iota in H3. rewrite decide_True in H3 by by_eval.
  destruct H3 as (p & m' & E & _ & Ht & He). exists m'.
  assert (match fdt_add_subnode demo_open 92 (str "bank") with Ret (r, _) => r | _ => 0 end = 116) as Hp by by_eval.
  rewrite E in Hp. subst p. split; [exact E|]. split; [exact Ht|exact He].
Defined.

(** ** The blocks *)

(** The reservation map is a list.  [fdt_num_mem_rsv] counts its entries,
    [fdt_add_mem_rsv] appends one when there is room and [fdt_del_mem_rsv]
    deletes the one at an index that exists; the tree stays the same at the same
    offsets.  [fdt_pack] keeps tree and reservations in the smallest size. *)
Theorem rw_blocks m rs its :
  rw_ok m -> rsv_list m rs -> tree_at m its ->
  fdt_num_mem_rsv m = Ret (vsize rs) /\
  (forall addr size, 0 <= addr < 2 ^ 64 -> 0 < size < 2 ^ 64 ->
    if decide (data_end m + 16 <= total m)
    then exists m', fdt_add_mem_rsv m addr size = Ret (0, m') /\ rw_ok m' /\ rsv_list m' (rs ++ [(addr, size)]) /\ tree_at m' its
    else fdt_add_mem_rsv m addr size = Ret (- FDT_ERR_NOSPACE, m)) /\
  (forall n, 0 <= n ->
    if decide (n < vsize rs)
    then exists m', fdt_del_mem_rsv m n = Ret (0, m') /\ rw_ok m' /\
      rsv_list m' (take (Z.to_nat n) rs ++ drop (S (Z.to_nat n)) rs) /\ tree_at m' its
    else fdt_del_mem_rsv m n = Ret (- FDT_ERR_NOTFOUND, m)) /\
  exists m', fdt_pack m = Ret (0, m') /\ rw_ok m' /\ rsv_list m' rs /\ tree_at m' its /\
    total m' = data_end m' /\ total m' = 40 + 16 * (vsize rs + 1) + word m 36 + word m 32 /\ total m' <= total m.
Proof.
  intros Hrw Hl Htree. refine (conj _ (conj _ (conj _ _))).
  - by apply num_mem_rsv_list.
  - intros addr size Ha Hs. by apply add_mem_rsv_ok.
  - intros n Hn. by apply del_mem_rsv_ok.
  - by apply pack_ok.
Qed.

Lemma rw_blocks_witness :
  (exists m', fdt_add_mem_rsv demo_open 64 128 = Ret (0, m') /\ rsv_list m' [(16, 32); (64, 128)] /\ tree_at m' demo_items) /\
  (exists m', fdt_del_mem_rsv demo_open 0 = Ret (0, m') /\ rsv_list m' [] /\ tree_at m' demo_items) /\
  exists m', fdt_pack demo_open = Ret (0, m') /\ tree_at m' demo_items /\ total m' = 261.
Proof.
  destruct demo_open_ok as (Hrw & Hrsv & Htree).
  destruct (rw_blocks demo_open [(16, 32)] demo_items) as (_ & H1 & H2 & m3 & E3 & _ & _ & T3 & _ & S3 & _); [done..|].
  specialize (H1 64 128 ltac:(lia) ltac:(lia)). rewrite decide_True in H1 by by_eval.
  specialize (H2 0 ltac:(lia)). rewrite decide_True in H2 by by_eval.
  destruct H1 as (m1 & E1 & _ & R1 & T1). destruct H2 as (m2 & E2 & _ & R2 & T2).
  split; [exists m1; exact (conj E1 (conj R1 T1))|]. split; [exists m2; exact (conj E2 (conj R2 T2))|]. exists m3. split; [exact E3|]. split; [exact T3|]. refine (eq_trans S3 _). by_eval.
Defined.

(** C34: Opening a blob into a buffer makes it editable.  For a blob of version 16
    or 17 with its blocks in any order, [fdt_open_into] on the blob's own place or
    on memory behind it succeeds exactly when there is room (twice, when blocks
    out of order are rearranged in place), and leaves a blob of version 17 with
    its blocks in order, the same reservations and the same tree at the same
    offsets, of the size of the buffer.  Its boot CPU is that of the source,
    except when blocks out of order are rearranged in place: then the field is
    whatever stood behind the old blob. *)
Theorem open_into_correct m rs its S buf bufsize :
  blocks m rs its S -> buf = 0 \/ total m <= buf -> 0 <= bufsize < 2 ^ 31 - 1 -> buf + bufsize <= vsize m ->
  if decide (space_needed m rs S buf <= bufsize)
  then exists m', fdt_open_into m buf bufsize = Ret (0, m') /\
    rw_ok (from m' buf) /\ rsv_list (from m' buf) rs /\ tree_at (from m' buf) its /\ total (from m' buf) = bufsize /\
    word (from m' buf) 28 = (if negb (in_order m rs S) && (buf =? 0) then word m (total m + 28) else word m 28)
  else fdt_open_into m buf bufsize = Ret (- FDT_ERR_NOSPACE, m).
Proof. intros Hbk Hbuf Hs Hin. by apply (open_into_ok m rs its S Hbk buf bufsize). Qed.

(** A blob whose strings stand before its structure, started on CPU 7, with room
    behind it. *)
Definition swapped : list Z := Eval vm_compute in
  flat_map be32 [FDT_MAGIC; 80; 64; 56; 40; 17; 16; 7; 2; 16] ++ replicate 16 0 ++ str "x" ++ replicate 7 0 ++
  flat_map be32 [FDT_BEGIN_NODE; 0; FDT_END_NODE; FDT_END] ++ replicate 120 0.

Lemma swapped_blocks : blocks swapped [] [INode 0 [] []] 16.
Proof.
  constructor; [|by_eval| |by_eval|by_eval| |by_eval|split; by_eval|split; by_eval].
  - constructor; [constructor|..]; try by_eval; [apply bytes_okb; by_eval|eval_range].
  - intros i e Hi. by rewrite lookup_nil in Hi.
  - exists 12, 16. split; [|split; [tok_eval|split; by_eval]].
    apply (at_node swapped 0 [] 5 [] 8 12); [tok_eval|by_eval|apply at_nil|tok_eval|by_eval|apply at_nil].
Qed.

Lemma open_into_correct_witness :
  (exists m', fdt_open_into demo 0 320 = Ret (0, m') /\ tree_at (from m' 0) demo_items /\ total (from m' 0) = 320) /\
  (exists m', fdt_open_into swapped 0 200 = Ret (0, m') /\ tree_at (from m' 0) [INode 0 [] []] /\
    word swapped 28 = 7 /\ word (from m' 0) 28 = 0) /\
  fdt_open_into swapped 0 153 = Ret (- FDT_ERR_NOSPACE, swapped).
Proof.
  pose proof (open_into_correct demo [(16, 32)] demo_items _ 0 320 (blocks_rw _ _ _ demo_rw demo_rsv demo_tree_at)
    ltac:(by left) ltac:(lia) ltac:(by_eval)) as H1.
  pose proof (open_into_correct swapped [] [INode 0 [] []] 16 0 200 swapped_blocks
    ltac:(by left) ltac:(lia) ltac:(by_eval)) as H2.
  pose proof (open_into_correct swapped [] [INode 0 [] []] 16 0 153 swapped_blocks
    ltac:(by left) ltac:(lia) ltac:(by_eval)) as H3.
  rewrite decide_True in H1 by by_eval. rewrite decide_True in H2 by by_eval. rewrite decide_False in H3 by (vm_compute; intros H0; by apply H0).
  destruct H1 as (m1 & E1 & _ & _ & T1 & S1 & _). destruct H2 as (m2 & E2 & _ & _ & T2 & _ & B2).
  split; [exists m1; exact (conj E1 (conj T1 S1))|]. split; [|exact H3].
  exists m2. split; [exact E2|]. split; [exact T2|]. split; [reflexivity|]. refine (eq_trans B2 _). by_eval.
Defined.

(** The empty tree.  In a buffer of at least 80 bytes [fdt_create_empty_tree]
    succeeds and leaves an editable blob of the size of the buffer, without
    reservations, whose tree is a root without contents. *)
Theorem empty_tree_correct buf T :
  bytes_ok buf -> T <= vsize buf -> vsize buf < INT32_MAX -> 80 <= T ->
  exists m its, fdt_create_empty_tree buf T = Ret (0, m) /\ rw_ok m /\ rsv_list m [] /\ total m = T /\
    tree_at m its /\ erase_all its = [DNode [] []].
Proof. apply create_empty_tree_ok. Qed.

Lemma empty_tree_correct_witness :
  exists m its, fdt_create_empty_tree (replicate 100 7) 90 = Ret (0, m) /\ total m = 90 /\ tree_at m its.
Proof.
  destruct (empty_tree_correct (replicate 100 7) 90) as (m & its & E & _ & _ & T & H & _);
    [apply bytes_okb; by_eval|by_eval|by_eval|by_eval|]. exists m, its. exact (conj E (conj T H)).
Defined.
