(* ===== verification/Arith.v ===== *)
(** * Spike: integer arithmetic

    Model of [src/riscv-isa-sim/riscv/arith.h]: the high words of products, the
    saturating operations, bit counting, field extraction, permutation and
    rotation.  Where the source computes a signed product or negation that
    overflows, the model has the two's complement result. *)

From stdpp Require Import base option list.
From S2P Require Import Prelude.

(** ** High words of products *)

Definition mulhu (a b : Z) : Z :=
  let a0 := u32 a in let a1 := a .>> 32 in
  let b0 := u32 b in let b1 := b .>> 32 in
  let t := u64 (u64 (a1 * b0) + (u64 (a0 * b0) .>> 32)) in
  let y1 := u32 t in
  let y2 := u32 (t .>> 32) in
  let t := u64 (u64 (a0 * b1) + y1) in
  let t := u64 (u64 (a1 * b1) + y2 + (t .>> 32)) in
  let y2 := u32 t in
  let y3 := u32 (t .>> 32) in
  u64 (y3 .<< 32) .| y2.

(** [-a], [-b] and [a * b] are signed in the source and undefined there when they
    overflow; here they wrap, which is what the result relies on. *)
Definition mulh (a b : Z) : Z :=
  let negate := negb (Bool.eqb (a <? 0) (b <? 0)) in
  let res := mulhu (u64 (if a <? 0 then s64 (- a) else a)) (u64 (if b <? 0 then s64 (- b) else b)) in
  s64 (if negate then u64 (u64 (Z.lnot res) + b2z (s64 (a * b) =? 0)) else res).

(** [-a] is signed and wraps at the most negative [a], as in [mulh]; [a * b] is
    unsigned in the source. *)
Definition mulhsu (a b : Z) : Z :=
  let negate := a <? 0 in
  let res := mulhu (u64 (if a <? 0 then s64 (- a) else a)) b in
  s64 (if negate then u64 (u64 (Z.lnot res) + b2z (u64 (a * b) =? 0)) else res).

(** ** Saturation

    The templates at a signed type of [w] bits and its unsigned counterpart:
    the result and [sat]. *)

Section Width.
Context (w : Z).

Definition sat_add (x y : Z) : Z * bool :=
  let ux := uwrap w x in
  let uy := uwrap w y in
  let res := uwrap w (ux + uy) in
  let sh := w - 1 in
  let ux := uwrap w ((ux .>> sh) + uwrap w (uwrap w (1 .<< sh) - 1)) in
  if 0 <=? swrap w ((ux .^ uy) .| uwrap w (Z.lnot (uy .^ res)))
  then (swrap w ux, true) else (swrap w res, false).

Definition sat_add3 (x y z : Z) : Z * bool :=
  let '(a, b) := if (y .^ z) .& (x .^ z) <? 0 then (z, y) else (y, z) in
  let '(res, sat1) := sat_add x a in
  let '(res, sat2) := sat_add res b in
  (res, sat1 || sat2).

Definition sat_sub (x y : Z) : Z * bool :=
  let ux := uwrap w x in
  let uy := uwrap w y in
  let res := uwrap w (ux - uy) in
  let sh := w - 1 in
  let ux := uwrap w ((ux .>> sh) + uwrap w (uwrap w (1 .<< sh) - 1)) in
  if swrap w ((ux .^ uy) .& (ux .^ res)) <? 0
  then (swrap w ux, true) else (swrap w res, false).

Definition sat_addu (x y : Z) : Z * bool :=
  let res := uwrap w (x + y) in
  let sat := res <? x in
  (res .| uwrap w (- b2z (res <? x)), sat).

Definition sat_subu (x y : Z) : Z * bool :=
  let res := uwrap w (x - y) in
  let sat := negb (res <=? x) in
  (res .& uwrap w (- b2z (res <=? x)), sat).

Definition rotate_right (x shiftamt : Z) : Z :=
  let mask := w - 1 in
  let rshift := shiftamt .& mask in
  let lshift := u64 (- rshift) .& mask in
  uwrap w (x .<< lshift) .| (x .>> rshift).

Definition rotate_left (x shiftamt : Z) : Z :=
  let mask := w - 1 in
  let lshift := shiftamt .& mask in
  let rshift := u64 (- lshift) .& mask in
  uwrap w (x .<< lshift) .| (x .>> rshift).
End Width.

(** ** Fields; [None] where the assertion fails *)

Definition UINT64_MAX : Z := 2 ^ 64 - 1.

Definition extract64 (val pos len : Z) : option Z :=
  if (0 <=? pos) && (0 <? len) && (len <=? 64 - pos)
  then Some ((val .>> pos) .& (UINT64_MAX .>> (64 - len))) else None.

Definition make_mask64 (pos len : Z) : option Z :=
  if (0 <=? pos) && (0 <? len) && (pos <? 64) && (len <=? 64)
  then Some (u64 ((UINT64_MAX .>> (64 - len)) .<< pos)) else None.

(** ** Counting bits *)

(** One round of the population count. *)
Definition popcount_step (mask n val : Z) : Z := u64 ((val .& mask) + ((val .>> n) .& mask)).

Definition popcount (val : Z) : Z :=
  let val := popcount_step 0x5555555555555555 1 val in
  let val := popcount_step 0x3333333333333333 2 val in
  let val := popcount_step 0x0f0f0f0f0f0f0f0f 4 val in
  let val := popcount_step 0x00ff00ff00ff00ff 8 val in
  let val := popcount_step 0x0000ffff0000ffff 16 val in
  popcount_step 0x00000000ffffffff 32 val.

(** One test of [ctz]: a stretch of [n] zeros at the bottom is shifted out. *)
Definition ctz_step (n : Z) (p : Z * Z) : Z * Z :=
  let '(res, val) := p in
  if u64 (val .<< (64 - n)) =? 0 then (res + n, val .>> n) else (res, val).

Definition ctz (val : Z) : Z :=
  if val =? 0 then 0
  else (ctz_step 1 (ctz_step 2 (ctz_step 4 (ctz_step 8 (ctz_step 16 (ctz_step 32 (0, val))))))).1.

Definition clz_step (n : Z) (p : Z * Z) : Z * Z :=
  let '(res, val) := p in
  if val .>> (64 - n) =? 0 then (res + n, u64 (val .<< n)) else (res, val).

Definition clz (val : Z) : Z :=
  if val =? 0 then 0
  else (clz_step 1 (clz_step 2 (clz_step 4 (clz_step 8 (clz_step 16 (clz_step 32 (0, val))))))).1.

(** 64 rounds suffice: the value has 64 bits. *)
Fixpoint cto_loop (fuel : nat) (val res : Z) : Z :=
  match fuel with
  | O => res
  | S fuel => if val .& 1 =? 1 then cto_loop fuel (val .>> 1) (res + 1) else res
  end.

Definition cto (val : Z) : Z := cto_loop 64 val 0.

Definition log2 (val : Z) : Z := if val =? 0 then 0 else 63 - clz val.

(** ** Permutation of the elements of [1 << sz_log2] bits *)

Fixpoint xperm_loop (fuel : nat) (rs1 rs2 sz_log2 len sz mask i r : Z) : Z :=
  match fuel with
  | O => r
  | S fuel =>
      if i <? len then
        let pos := u64 (((rs2 .>> i) .& mask) .<< sz_log2) in
        let r := if pos <? len then r .| u64 (((rs1 .>> pos) .& mask) .<< i) else r in
        xperm_loop fuel rs1 rs2 sz_log2 len sz mask (i + sz) r
      else r
  end.

(** [None] where the assertion fails or the shift [1 << sz] is undefined. *)
Definition xperm (rs1 rs2 sz_log2 len : Z) : option Z :=
  if (sz_log2 <=? 6) && (len <=? 64) && (sz_log2 <? 6) then
    let sz := 1 .<< sz_log2 in
    let mask := (1 .<< sz) - 1 in
    Some (xperm_loop 64 rs1 rs2 sz_log2 len sz mask 0 0)
  else None.

(** ** High words *)

Lemma lor_disjoint a b n : 0 <= n -> 0 <= b < 2 ^ n -> (a .<< n) .| b = a * 2 ^ n + b.
Proof.
  intros Hn Hb. pose proof (Z.add_lor_land (a .<< n) b) as H.
  assert ((a .<< n) .& b = 0) as E; [|rewrite E, shiftl_mul in H by done; rewrite <- shiftl_mul in H by done; rewrite shiftl_mul in * by done; lia].
  apply Z.bits_inj'. intros i Hi. rewrite Z.land_spec, Z.bits_0. destruct (Z.lt_ge_cases i n).
  - rewrite Z.shiftl_spec_low by lia. done.
  - rewrite <- (Z.mod_small b (2 ^ n)) by done. rewrite Z.mod_pow2_bits_high by lia. apply andb_false_r.
Qed.

Lemma mulhu_high a b : 0 <= a < 2 ^ 64 -> 0 <= b < 2 ^ 64 -> mulhu a b = a * b / 2 ^ 64.
Proof.
  intros Ha Hb. unfold mulhu. rewrite !shiftr_div by lia.
  set (a0 := u32 a). set (a1 := a / 2 ^ 32). set (b0 := u32 b). set (b1 := b / 2 ^ 32).
  assert (a = a1 * 2 ^ 32 + a0 /\ 0 <= a0 < 2 ^ 32 /\ 0 <= a1 < 2 ^ 32) as (Ea & Ha0 & Ha1).
  { unfold a0, a1, uwrap. Z.div_mod_to_equations. lia. }
  assert (b = b1 * 2 ^ 32 + b0 /\ 0 <= b0 < 2 ^ 32 /\ 0 <= b1 < 2 ^ 32) as (Eb & Hb0 & Hb1).
  { unfold b0, b1, uwrap. Z.div_mod_to_equations. lia. }
  clearbody a0 a1 b0 b1. subst a b. clear Ha Hb.
  assert (forall x y, 0 <= x < 2 ^ 32 -> 0 <= y < 2 ^ 32 -> 0 <= x * y <= (2 ^ 32 - 1) * (2 ^ 32 - 1)) as Hp by (intros; nia).
  pose proof (Hp _ _ Ha0 Hb0). pose proof (Hp _ _ Ha0 Hb1). pose proof (Hp _ _ Ha1 Hb0). pose proof (Hp _ _ Ha1 Hb1). clear Hp.
  replace ((a1 * 2 ^ 32 + a0) * (b1 * 2 ^ 32 + b0)) with (a1 * b1 * 2 ^ 64 + (a1 * b0 + a0 * b1) * 2 ^ 32 + a0 * b0) by ring.
  set (p11 := a1 * b1) in *. set (p10 := a1 * b0) in *. set (p01 := a0 * b1) in *. set (p00 := a0 * b0) in *.
  clearbody p11 p10 p01 p00. rewrite !(uwrap_small _ p11), !(uwrap_small _ p10), !(uwrap_small _ p01), !(uwrap_small _ p00) by lia.
  pose proof (Z.div_mod p00 (2 ^ 32) ltac:(lia)). pose proof (Z.mod_pos_bound p00 (2 ^ 32) ltac:(lia)).
  set (t1 := p10 + p00 / 2 ^ 32) in *. assert (0 <= t1 < 2 ^ 64) by lia. rewrite (uwrap_small _ t1) by done.
  assert (u32 (t1 / 2 ^ 32) = t1 / 2 ^ 32) as -> by (apply uwrap_small; Z.div_mod_to_equations; lia).
  pose proof (Z.div_mod t1 (2 ^ 32) ltac:(lia)). pose proof (Z.mod_pos_bound t1 (2 ^ 32) ltac:(lia)). change (u32 t1) with (t1 mod 2 ^ 32).
  set (t2 := p01 + t1 mod 2 ^ 32) in *. assert (0 <= t2 < 2 ^ 64) by lia. rewrite (uwrap_small _ t2) by done.
  pose proof (Z.div_mod t2 (2 ^ 32) ltac:(lia)). pose proof (Z.mod_pos_bound t2 (2 ^ 32) ltac:(lia)).
  set (t3 := p11 + t1 / 2 ^ 32 + t2 / 2 ^ 32) in *. assert (0 <= t3 < 2 ^ 64) by lia. rewrite (uwrap_small _ t3) by done.
  pose proof (Z.div_mod t3 (2 ^ 32) ltac:(lia)). pose proof (Z.mod_pos_bound t3 (2 ^ 32) ltac:(lia)).
  rewrite (uwrap_small 32 (t3 / _)) by lia. change (u32 t3) with (t3 mod 2 ^ 32). rewrite uwrap_small by (rewrite shiftl_mul; lia).
  rewrite lor_disjoint by lia. replace (t3 / 2 ^ 32 * 2 ^ 32 + t3 mod 2 ^ 32) with t3 by lia.
  apply (Z.div_unique _ _ _ (t2 mod 2 ^ 32 * 2 ^ 32 + p00 mod 2 ^ 32)); lia.
Qed.

(** A negated product from the high word of its absolute value. *)
Lemma negate_high m : 0 <= m < 2 ^ 127 ->
  u64 (u64 (Z.lnot (m / 2 ^ 64)) + b2z (m mod 2 ^ 64 =? 0)) = u64 (- m / 2 ^ 64).
Proof.
  intros Hm. assert (0 <= m / 2 ^ 64 < 2 ^ 63) as Hh by (split; [apply Z.div_pos; lia|apply Z.div_lt_upper_bound; lia]).
  assert (u64 (Z.lnot (m / 2 ^ 64)) = 2 ^ 64 - 1 - m / 2 ^ 64) as ->.
  { unfold uwrap, Z.lnot. rewrite <- (Z_mod_plus_full _ 1), Z.mod_small; lia. }
  destruct (Z.eqb_spec (m mod 2 ^ 64) 0) as [E|E]; simpl b2z.
  - rewrite Z.div_opp_l_z by lia. unfold uwrap. rewrite <- (Z_mod_plus_full (- _) 1). f_equal. lia.
  - rewrite Z.div_opp_l_nz by lia. unfold uwrap. rewrite <- (Z_mod_plus_full (- _ - 1) 1). f_equal. lia.
Qed.

Lemma s64_u64 x : s64 (u64 x) = s64 x.
Proof. unfold swrap, uwrap. by rewrite Z.add_mod_idemp_l by lia. Qed.

Lemma u64_zero x : (s64 x =? 0) = (x mod 2 ^ 64 =? 0).
Proof.
  apply eq_true_iff_eq. rewrite !Z.eqb_eq. unfold swrap.
  pose proof (Z.mod_pos_bound (x + 2 ^ (64 - 1)) (2 ^ 64) ltac:(lia)).
  pose proof (Z.div_mod (x + 2 ^ (64 - 1)) (2 ^ 64) ltac:(lia)). pose proof (Z.div_mod x (2 ^ 64) ltac:(lia)).
  pose proof (Z.mod_pos_bound x (2 ^ 64) ltac:(lia)). lia.
Qed.

Lemma abs_u64 a : - 2 ^ 63 <= a < 2 ^ 63 -> u64 (if a <? 0 then s64 (- a) else a) = Z.abs a.
Proof.
  intros Ha. destruct (Z.ltb_spec a 0); [|rewrite uwrap_small; lia].
  destruct (Z.eq_dec a (- 2 ^ 63)) as [->|]; [done|]. rewrite swrap_small, uwrap_small by lia. lia.
Qed.

Lemma mulh_high a b : - 2 ^ 63 <= a < 2 ^ 63 -> - 2 ^ 63 <= b < 2 ^ 63 -> mulh a b = a * b / 2 ^ 64.
Proof.
  intros Ha Hb. unfold mulh. rewrite !abs_u64 by done. rewrite mulhu_high by lia. rewrite u64_zero.
  assert (- 2 ^ 126 <= a * b <= 2 ^ 126) as Hab by nia.
  assert (- 2 ^ 63 <= a * b / 2 ^ 64 < 2 ^ 63) as Hq by (split; [apply Z.div_le_lower_bound; lia|apply Z.div_lt_upper_bound; lia]).
  assert ((negb (Bool.eqb (a <? 0) (b <? 0)) = true /\ Z.abs a * Z.abs b = - (a * b) /\ a * b <= 0) \/
    (negb (Bool.eqb (a <? 0) (b <? 0)) = false /\ Z.abs a * Z.abs b = a * b)) as [(-> & E & Hneg)|[-> E]].
  { destruct (Z.ltb_spec a 0), (Z.ltb_spec b 0); simpl; [right|left|left|right]; repeat split; try done; nia. }
  - rewrite E. assert ((a * b) mod 2 ^ 64 =? 0 = (- (a * b) mod 2 ^ 64 =? 0)) as ->.
    { apply eq_true_iff_eq. rewrite !Z.eqb_eq. split; intros H; [by apply Z_mod_zero_opp_full|].
      rewrite <- (Z.opp_involutive (a * b)). by apply Z_mod_zero_opp_full. }
    rewrite negate_high by lia. rewrite Z.opp_involutive, s64_u64. apply swrap_small; lia.
  - rewrite E. apply swrap_small; lia.
Qed.

Lemma mulhsu_high a b : - 2 ^ 63 <= a < 2 ^ 63 -> 0 <= b < 2 ^ 64 -> mulhsu a b = a * b / 2 ^ 64.
Proof.
  intros Ha Hb. unfold mulhsu. rewrite abs_u64 by done. rewrite mulhu_high by lia.
  assert (- 2 ^ 127 < a * b < 2 ^ 127) as Hab by nia.
  assert (- 2 ^ 63 <= a * b / 2 ^ 64 < 2 ^ 63) as Hq by (split; [apply Z.div_le_lower_bound; lia|apply Z.div_lt_upper_bound; lia]).
  destruct (Z.ltb_spec a 0).
  - replace (Z.abs a * b) with (- (a * b)) by nia. assert ((u64 (a * b) =? 0) = (- (a * b) mod 2 ^ 64 =? 0)) as ->.
    { unfold uwrap. apply eq_true_iff_eq. rewrite !Z.eqb_eq. split; intros H'; [by apply Z_mod_zero_opp_full|].
      rewrite <- (Z.opp_involutive (a * b)). by apply Z_mod_zero_opp_full. }
    rewrite negate_high by nia. rewrite Z.opp_involutive, s64_u64. apply swrap_small; lia.
  - rewrite Z.abs_eq by lia. apply swrap_small; lia.
Qed.

(** ** Population count

    Each round adds neighbouring digits. *)

Fixpoint undigits (n : Z) (l : list Z) : Z :=
  match l with [] => 0 | d :: l => d + 2 ^ n * undigits n l end.

Fixpoint pair_sums (l : list Z) : list Z :=
  match l with a :: b :: l => a + b :: pair_sums l | _ => l end.

Lemma land_digit n d x e y : 0 <= n -> 0 <= d < 2 ^ n -> 0 <= e < 2 ^ n ->
  (d + 2 ^ n * x) .& (e + 2 ^ n * y) = d .& e + 2 ^ n * (x .& y).
Proof.
  intros Hn Hd He. assert (forall u v, 0 <= u < 2 ^ n -> u + 2 ^ n * v = (v .<< n) .| u) as Hl.
  { intros u v Hu. rewrite lor_disjoint by done. lia. }
  assert (0 <= d .& e < 2 ^ n) as Hde by (pose proof (land_le_r d e ltac:(lia)); lia).
  rewrite !Hl by done. apply Z.bits_inj'. intros i Hi. rewrite Z.land_spec, !Z.lor_spec, !Z.shiftl_spec, !Z.land_spec by done.
  destruct (Z.lt_ge_cases i n).
  - by rewrite !(Z.testbit_neg_r _ (i - n)) by lia.
  - assert (forall u, 0 <= u < 2 ^ n -> Z.testbit u i = false) as Hz.
    { intros u Hu. rewrite <- (Z.mod_small u (2 ^ n)) by done. apply Z.mod_pow2_bits_high. lia. }
    by rewrite (Hz d), (Hz e), !orb_false_r by done.
Qed.

Lemma undigits_bounds n l : 0 <= n -> Forall (fun d => 0 <= d < 2 ^ n) l -> 0 <= undigits n l < 2 ^ (n * Z.of_nat (length l)).
Proof.
  intros Hn. pose proof (pow2_pos n Hn). induction 1 as [|d l Hd _ IH]; simpl; [rewrite Z.mul_0_r; lia|].
  replace (n * Z.of_nat (S (length l))) with (n + n * Z.of_nat (length l)) by lia. rewrite Z.pow_add_r by lia. nia.
Qed.

(** The mask of every second digit. *)
Fixpoint even_mask (n : Z) (k : nat) : Z := match k with O => 0 | S k => 2 ^ n - 1 + 2 ^ (2 * n) * even_mask n k end.

Lemma even_mask_nonneg n k : 0 <= n -> 0 <= even_mask n k.
Proof. intros Hn. pose proof (pow2_pos n Hn). pose proof (pow2_pos (2 * n)). induction k; simpl; nia. Qed.

Lemma pair_digits n : 0 <= n -> forall k l, length l = (2 * k)%nat -> Forall (fun d => 0 <= d < 2 ^ n) l ->
  (undigits n l .& even_mask n k) + ((undigits n l .>> n) .& even_mask n k) = undigits (2 * n) (pair_sums l).
Proof.
  intros Hn. pose proof (pow2_pos n Hn) as Hp. assert (2 ^ (2 * n) = 2 ^ n * 2 ^ n) as E2 by (rewrite <- Z.pow_add_r by lia; f_equal; lia).
  induction k as [|k IH]; intros l Hlen Hl.
  - destruct l; [|done]. simpl. by rewrite !Z.land_0_r.
  - destruct l as [|a [|b l]]; simpl in Hlen; [lia|lia|]. inversion Hl as [|? ? Ha Hl']; subst. inversion Hl' as [|? ? Hb Hl'']; subst.
    specialize (IH l ltac:(lia) Hl''). simpl. set (x := undigits n l) in *.
    assert (0 <= x) as Hx by (apply undigits_bounds; done).
    rewrite shiftr_div by lia.
    assert ((a + 2 ^ n * (b + 2 ^ n * x)) / 2 ^ n = b + 2 ^ n * x) as ->.
    { rewrite Z.add_comm, Z.mul_comm, Z.div_add_l by lia. rewrite Z.div_small by done. lia. }
    rewrite shiftr_div in IH by lia. pose proof (Z.div_mod x (2 ^ n) ltac:(lia)) as Hdm. pose proof (Z.mod_pos_bound x (2 ^ n) Hp) as Hm.
    replace (a + 2 ^ n * (b + 2 ^ n * x)) with (a + 2 ^ n * b + 2 ^ (2 * n) * x) by (rewrite E2; ring).
    replace (b + 2 ^ n * x) with (b + 2 ^ n * (x mod 2 ^ n) + 2 ^ (2 * n) * (x / 2 ^ n)) by (rewrite E2; nia).
    assert (forall u v, 0 <= u < 2 ^ n -> 0 <= v < 2 ^ n -> 0 <= u + 2 ^ n * v < 2 ^ (2 * n)) as Hb2 by (intros; rewrite E2; nia).
    rewrite !(land_digit (2 * n)) by (try apply Hb2; lia || (rewrite E2; nia)).
    assert (forall u v, 0 <= u < 2 ^ n -> 0 <= v -> (u + 2 ^ n * v) .& (2 ^ n - 1) = u) as Hlow.
    { intros u v Hu Hv. rewrite (land_mod _ _ n) by lia. rewrite Z.add_comm, Z.mul_comm, Z.add_mod, Z.mod_mul, Z.add_0_l, Z.mod_mod by lia.
      by apply Z.mod_small. }
    rewrite !Hlow by lia. lia.
Qed.

Lemma pair_sums_bounds n l : 1 <= n -> Forall (fun d => 0 <= d <= n) l -> Forall (fun d => 0 <= d <= 2 * n) (pair_sums l).
Proof.
  intros Hn. revert l. fix IH 1. intros [|a [|b l]] Hl; simpl; [done| |].
  - inversion Hl; subst. constructor; [lia|done].
  - inversion Hl as [|? ? Ha Hl']; subst. inversion Hl' as [|? ? Hb Hl'']; subst. constructor; [lia|by apply IH].
Qed.

Definition zsum (l : list Z) : Z := foldr Z.add 0 l.

Lemma pair_sums_zsum : forall l, zsum (pair_sums l) = zsum l.
Proof.
  unfold zsum. fix IH 1. intros [|a [|b l]]; simpl; [done|done|]. rewrite IH. lia.
Qed.

Lemma pair_sums_length : forall k l, length l = (2 * k)%nat -> length (pair_sums l) = k.
Proof.
  induction k as [|k IH]; intros l Hl; [by destruct l|]. destruct l as [|a [|b l]]; simpl in Hl; [lia|lia|].
  simpl. by rewrite (IH l) by lia.
Qed.

(** The [n] bits of [v] from bit [k] on. *)
Definition bits (v k : Z) (n : nat) : list Z := map (fun i => Z.b2z (Z.testbit v (k + Z.of_nat i))) (seq 0 n).

Lemma bits_S v k n : bits v k (S n) = Z.b2z (Z.testbit v k) :: bits v (k + 1) n.
Proof.
  unfold bits. simpl. rewrite Z.add_0_r. f_equal. rewrite <- seq_shift, map_map. apply map_ext. intros i. do 2 f_equal. lia.
Qed.

Lemma undigits_bits n : forall v k, 0 <= k -> undigits 1 (bits v k n) = (v .>> k) mod 2 ^ Z.of_nat n.
Proof.
  induction n as [|n IH]; intros v k Hk; [simpl; by rewrite Z.mod_1_r|]. rewrite bits_S. simpl undigits. rewrite IH by lia.
  replace (Z.of_nat (S n)) with (1 + Z.of_nat n) by lia. rewrite Z.pow_add_r by lia. change (2 ^ 1) with 2.
  pose proof (pow2_pos (Z.of_nat n) ltac:(lia)). rewrite Z.rem_mul_r by lia.
  rewrite <- Z.bit0_mod, Z.shiftr_spec, Z.add_0_l by lia.
  rewrite <- (Z.shiftr_shiftr v k 1), (shiftr_div (v .>> k) 1), Z.pow_1_r by lia. done.
Qed.

(** The number of set bits. *)
Definition ones_in (v : Z) : Z := zsum (bits v 0 64).

Lemma popcount_round mask n k val l :
  1 <= n -> n * (2 * Z.of_nat k) = 64 -> mask = even_mask n k -> length l = (2 * k)%nat ->
  Forall (fun d => 0 <= d <= n) l -> val = undigits n l ->
  popcount_step mask n val = undigits (2 * n) (pair_sums l) /\
  Forall (fun d => 0 <= d <= 2 * n) (pair_sums l) /\ length (pair_sums l) = k /\ zsum (pair_sums l) = zsum l.
Proof.
  intros Hn Hk -> Hlen Hl ->. assert (n < 2 ^ n) as Hpow by (apply Z.pow_gt_lin_r; lia).
  assert (2 * n < 2 ^ (2 * n)) as Hpow2 by (apply Z.pow_gt_lin_r; lia).
  pose proof (pair_sums_bounds n l Hn Hl) as Hb. pose proof (pair_sums_length k l Hlen) as Hpl.
  split_and!; [|done|done|apply pair_sums_zsum]. unfold popcount_step. rewrite pair_digits; [|lia|done|].
  - apply uwrap_small. pose proof (undigits_bounds (2 * n) (pair_sums l) ltac:(lia)) as Hub.
    rewrite Hpl in Hub. replace (2 * n * Z.of_nat k) with 64 in Hub by lia. apply Hub.
    eapply Forall_impl; [exact Hb|]. simpl. lia.
  - eapply Forall_impl; [exact Hl|]. simpl. lia.
Qed.

Lemma popcount_ones val : 0 <= val < 2 ^ 64 -> popcount val = ones_in val.
Proof.
  intros Hv. unfold popcount, ones_in. set (l := bits val 0 64).
  assert (length l = 64%nat) as L0 by done.
  assert (Forall (fun d => 0 <= d <= 1) l) as B0.
  { unfold l, bits. apply Forall_map, Forall_true. intros i. destruct (Z.testbit _ _); simpl; lia. }
  assert (val = undigits 1 l) as E0.
  { unfold l. rewrite undigits_bits by lia. rewrite Z.shiftr_0_r. symmetry. by apply Z.mod_small. }
  clearbody l.
  destruct (popcount_round 0x5555555555555555 1 32 val l) as (E1 & B1 & L1 & S1); [done..|].
  destruct (popcount_round 0x3333333333333333 2 16 _ _ ltac:(done) ltac:(done) ltac:(done) L1 B1 E1) as (E2 & B2 & L2 & S2).
  destruct (popcount_round 0x0f0f0f0f0f0f0f0f 4 8 _ _ ltac:(done) ltac:(done) ltac:(done) L2 B2 E2) as (E3 & B3 & L3 & S3).
  destruct (popcount_round 0x00ff00ff00ff00ff 8 4 _ _ ltac:(done) ltac:(done) ltac:(done) L3 B3 E3) as (E4 & B4 & L4 & S4).
  destruct (popcount_round 0x0000ffff0000ffff 16 2 _ _ ltac:(done) ltac:(done) ltac:(done) L4 B4 E4) as (E5 & B5 & L5 & S5).
  destruct (popcount_round 0x00000000ffffffff 32 1 _ _ ltac:(done) ltac:(done) ltac:(done) L5 B5 E5) as (E6 & B6 & L6 & S6).
  rewrite E6, <- S1, <- S2, <- S3, <- S4, <- S5, <- S6.
  set (r := pair_sums _) in L6 |- *. clearbody r. destruct r as [|x [|y l']]; [done| |done]. unfold undigits, zsum. simpl. lia.
Qed.

(** ** Zeros at the bottom and at the top *)

Lemma ctz_step_ok n res v q z : 0 < n < 64 -> 0 <= z < 2 * n -> Z.odd q = true -> v = 2 ^ z * q -> 0 < v < 2 ^ 64 ->
  exists z' v', ctz_step n (res, v) = (res + (z - z'), v') /\ 0 <= z' < n /\ v' = 2 ^ z' * q /\ 0 < v' < 2 ^ 64.
Proof.
  intros Hn Hz Hq Ev Hv. unfold ctz_step. pose proof (pow2_pos n ltac:(lia)) as Hp. pose proof (pow2_pos (64 - n) ltac:(lia)).
  assert (u64 (v .<< (64 - n)) = v mod 2 ^ n * 2 ^ (64 - n)) as ->.
  { unfold uwrap. rewrite shiftl_mul by lia. replace (2 ^ 64) with (2 ^ n * 2 ^ (64 - n)) by (rewrite <- Z.pow_add_r by lia; f_equal; lia).
    by rewrite Z.mul_mod_distr_r by lia. }
  destruct (Z.lt_ge_cases z n) as [Hlt|Hge].
  - assert (v mod 2 ^ n <> 0) as Hne.
    { intros E. apply Z.mod_divide in E as [k E]; [|lia]. rewrite Ev in E. replace n with (z + (1 + (n - z - 1))) in E by lia.
      rewrite !Z.pow_add_r, Z.pow_1_r in E by lia. pose proof (pow2_pos z ltac:(lia)).
      assert (q = 2 * (k * 2 ^ (n - z - 1))) as Eq by (apply (Z.mul_reg_l _ _ (2 ^ z)); lia).
      rewrite Eq, Z.odd_mul in Hq. done. }
    destruct (Z.eqb_spec (v mod 2 ^ n * 2 ^ (64 - n)) 0); [nia|]. exists z, v. split_and!; try done; try lia. f_equal. lia.
  - assert (v = 2 ^ (z - n) * q * 2 ^ n) as Ev' by (rewrite Ev; replace z with (z - n + n) at 1 by lia; rewrite Z.pow_add_r by lia; lia).
    rewrite Ev', Z.mod_mul, Z.mul_0_l by lia. simpl. exists (z - n), (2 ^ (z - n) * q). rewrite shiftr_div, Z.div_mul by lia.
    split_and!; try done; try lia; try nia. f_equal. lia.
Qed.

(** [ctz] of a value that is [2 ^ z] times an odd number. *)
Lemma ctz_ok z q : 0 <= z -> Z.odd q = true -> 0 < 2 ^ z * q < 2 ^ 64 -> ctz (2 ^ z * q) = z.
Proof.
  intros Hz Hq Hv. pose proof (pow2_pos z Hz). assert (0 < q) by nia.
  assert (z < 64) as Hz64 by (apply (Z.pow_lt_mono_r_iff 2); nia || lia).
  unfold ctz. destruct (Z.eqb_spec (2 ^ z * q) 0); [lia|].
  destruct (ctz_step_ok 32 0 (2 ^ z * q) q z) as (z1 & v1 & -> & H1 & E1 & B1); [done || lia..|].
  destruct (ctz_step_ok 16 (0 + (z - z1)) v1 q z1) as (z2 & v2 & -> & H2 & E2 & B2); [done || lia..|].
  destruct (ctz_step_ok 8 (0 + (z - z1) + (z1 - z2)) v2 q z2) as (z3 & v3 & -> & H3 & E3 & B3); [done || lia..|].
  destruct (ctz_step_ok 4 (0 + (z - z1) + (z1 - z2) + (z2 - z3)) v3 q z3) as (z4 & v4 & -> & H4 & E4 & B4); [done || lia..|].
  destruct (ctz_step_ok 2 (0 + (z - z1) + (z1 - z2) + (z2 - z3) + (z3 - z4)) v4 q z4) as (z5 & v5 & -> & H5 & E5 & B5); [done || lia..|].
  destruct (ctz_step_ok 1 (0 + (z - z1) + (z1 - z2) + (z2 - z3) + (z3 - z4) + (z4 - z5)) v5 q z5) as (z6 & v6 & -> & H6 & E6 & B6); [done || lia..|].
  simpl. lia.
Qed.

Lemma clz_step_ok n res v : 0 < n <= 32 -> 2 ^ (64 - 2 * n) <= v < 2 ^ 64 ->
  exists k v', clz_step n (res, v) = (res + k, v') /\ v' = v * 2 ^ k /\ 0 <= k /\ 2 ^ (64 - n) <= v' < 2 ^ 64.
Proof.
  intros Hn Hv. unfold clz_step. rewrite shiftr_div by lia. pose proof (pow2_pos (64 - n) ltac:(lia)) as Hp.
  pose proof (pow2_pos n ltac:(lia)). pose proof (pow2_pos (64 - 2 * n) ltac:(lia)).
  assert (2 ^ 64 = 2 ^ (64 - n) * 2 ^ n) as E1 by (rewrite <- Z.pow_add_r by lia; f_equal; lia).
  assert (2 ^ (64 - n) = 2 ^ (64 - 2 * n) * 2 ^ n) as E2 by (rewrite <- Z.pow_add_r by lia; f_equal; lia).
  destruct (Z.eqb_spec (v / 2 ^ (64 - n)) 0) as [E|E].
  - apply Z.div_small_iff in E; [|lia]. destruct E as [E|E]; [|lia].
    exists n, (v * 2 ^ n). rewrite shiftl_mul, uwrap_small by nia. split_and!; done || lia || nia.
  - exists 0, v. rewrite Z.add_0_r, Z.pow_0_r, Z.mul_1_r. split_and!; try done; try lia.
    apply Z.nlt_ge. intros Hlt. apply E. apply Z.div_small. lia.
Qed.

Lemma clz_ok v : 0 < v < 2 ^ 64 -> clz v = 63 - Z.log2 v.
Proof.
  intros Hv. unfold clz. destruct (Z.eqb_spec v 0); [lia|].
  destruct (clz_step_ok 32 0 v) as (k1 & v1 & -> & E1 & K1 & B1); [lia..|].
  destruct (clz_step_ok 16 (0 + k1) v1) as (k2 & v2 & -> & E2 & K2 & B2); [lia..|].
  destruct (clz_step_ok 8 (0 + k1 + k2) v2) as (k3 & v3 & -> & E3 & K3 & B3); [lia..|].
  destruct (clz_step_ok 4 (0 + k1 + k2 + k3) v3) as (k4 & v4 & -> & E4 & K4 & B4); [lia..|].
  destruct (clz_step_ok 2 (0 + k1 + k2 + k3 + k4) v4) as (k5 & v5 & -> & E5 & K5 & B5); [lia..|].
  destruct (clz_step_ok 1 (0 + k1 + k2 + k3 + k4 + k5) v5) as (k6 & v6 & -> & E6 & K6 & B6); [lia..|].
  simpl. assert (Z.log2 v6 = 63) as H6 by (apply Z.log2_unique; [lia|change (Z.succ 63) with 64; change (2 ^ (64 - 1)) with (2 ^ 63) in B6; lia]).
  assert (forall a k, 0 < a -> 0 <= k -> Z.log2 (a * 2 ^ k) = Z.log2 a + k) as Hlog.
  { intros a k Ha Hk. rewrite Z.log2_mul_pow2 by lia. lia. }
  subst. assert (forall a k, 0 < a -> 0 <= k -> 0 < a * 2 ^ k) as Hpos by (intros a k Ha Hk; pose proof (pow2_pos k Hk); nia).
  rewrite !Hlog in H6 by (repeat apply Hpos; lia). lia.
Qed.

Lemma log2_ok v : 0 < v < 2 ^ 64 -> log2 v = Z.log2 v.
Proof. intros Hv. unfold log2. destruct (Z.eqb_spec v 0); [lia|]. rewrite clz_ok by done. lia. Qed.

Lemma cto_loop_ok fuel : forall v res, 0 <= v < 2 ^ Z.of_nat fuel ->
  exists k q, cto_loop fuel v res = res + k /\ 0 <= k /\ 0 <= q /\ v = 2 ^ k * (2 * q + 1) - 1.
Proof.
  induction fuel as [|fuel IH]; intros v res Hv.
  - change (2 ^ Z.of_nat 0) with 1 in Hv. exists 0, 0. simpl. rewrite Z.pow_0_r. lia.
  - simpl. rewrite (land_mod v 1 1), Z.pow_1_r by lia. replace (Z.of_nat (S fuel)) with (Z.of_nat fuel + 1) in Hv by lia.
    rewrite pow2_succ in Hv by lia. pose proof (Z.div_mod v 2 ltac:(lia)). pose proof (Z.mod_pos_bound v 2 ltac:(lia)).
    destruct (Z.eqb_spec (v mod 2) 1) as [E|E].
    + rewrite shiftr_div, Z.pow_1_r by lia. destruct (IH (v / 2) (res + 1)) as (k & q & -> & Hk & Hq & Ev); [lia|].
      exists (k + 1), q. rewrite pow2_succ by lia. lia.
    + exists 0, (v / 2). rewrite Z.pow_0_r. lia.
Qed.

(** ** Saturation *)

Section Saturation.
Context (w : Z) (Hw : 1 < w).
Local Notation M := (2 ^ (w - 1)).

Definition clamp (x : Z) : Z := Z.max (- M) (Z.min (M - 1) x).
Definition in_type (x : Z) : Prop := - M <= x < M.

Lemma width_pow : 2 ^ w = 2 * M /\ 0 < M.
Proof. split; [apply pow2_pred; lia|apply pow2_pos; lia]. Qed.

Lemma uwrap_signed x : in_type x -> uwrap w x = if x <? 0 then x + 2 ^ w else x.
Proof.
  unfold in_type. intros Hx. destruct width_pow as [E Hm]. unfold uwrap. destruct (Z.ltb_spec x 0).
  - rewrite <- (Z_mod_plus_full _ 1), Z.mod_small; lia.
  - apply Z.mod_small. lia.
Qed.

(** The sign bit. *)
Definition sign (u : Z) : bool := Z.testbit u (w - 1).

Lemma sign_range u : 0 <= u < 2 ^ w -> sign u = (M <=? u).
Proof.
  intros Hu. destruct width_pow as [E Hm]. unfold sign. rewrite Z.testbit_odd, shiftr_div by lia.
  destruct (Z.leb_spec M u).
  - replace (u / M) with 1; [done|]. apply (Z.div_unique _ _ _ (u - M)); lia.
  - by rewrite Z.div_small by lia.
Qed.

Lemma swrap_sign u : 0 <= u < 2 ^ w -> swrap w u = if sign u then u - 2 ^ w else u.
Proof.
  intros Hu. destruct width_pow as [E Hm]. rewrite sign_range by done. unfold swrap. destruct (Z.leb_spec M u).
  - rewrite <- (Z_mod_plus_full _ (- 1)), Z.mod_small; lia.
  - rewrite Z.mod_small; lia.
Qed.

Lemma swrap_neg u : 0 <= u < 2 ^ w -> (swrap w u <? 0) = sign u.
Proof.
  intros Hu. destruct width_pow as [E Hm]. rewrite swrap_sign by done. rewrite sign_range by done.
  destruct (Z.leb_spec M u); [apply Z.ltb_lt|apply Z.ltb_ge]; lia.
Qed.

Lemma swrap_nonneg u : 0 <= u < 2 ^ w -> (0 <=? swrap w u) = negb (sign u).
Proof. intros Hu. rewrite <- swrap_neg by done. by rewrite Z.leb_antisym. Qed.

Lemma bits_range (f : Z -> Z -> Z) u v : (forall i, 0 <= i -> Z.testbit (f u v) i = false \/ i < w) -> 0 <= f u v -> 0 <= f u v < 2 ^ w.
Proof.
  intros Hb Hn. split; [done|]. destruct (Z.eq_dec (f u v) 0) as [->|Hne]; [apply pow2_pos; lia|].
  apply Z.log2_lt_pow2; [lia|]. destruct (Hb (Z.log2 (f u v)) (Z.log2_nonneg _)) as [H|H]; [|done].
  by rewrite Z.bit_log2 in H by lia.
Qed.

Lemma high_bits u i : 0 <= u < 2 ^ w -> w <= i -> Z.testbit u i = false.
Proof. intros Hu Hi. rewrite <- (Z.mod_small u (2 ^ w)) by done. apply Z.mod_pow2_bits_high. lia. Qed.

Lemma logic_range u v : 0 <= u < 2 ^ w -> 0 <= v < 2 ^ w ->
  0 <= u .& v < 2 ^ w /\ 0 <= u .| v < 2 ^ w /\ 0 <= u .^ v < 2 ^ w.
Proof.
  intros Hu Hv. assert (forall i, w <= i -> Z.testbit u i = false /\ Z.testbit v i = false) as Hh by (intros; split; by apply high_bits).
  split_and!; try (apply Z.land_nonneg; lia); try (apply Z.lor_nonneg; lia); try (apply Z.lxor_nonneg; lia).
  - apply (bits_range Z.land); [|apply Z.land_nonneg; lia]. intros i _. destruct (Z.lt_ge_cases i w); [by right|left].
    rewrite Z.land_spec. by destruct (Hh i) as [-> ->].
  - apply (bits_range Z.lor); [|apply Z.lor_nonneg; lia]. intros i _. destruct (Z.lt_ge_cases i w); [by right|left].
    rewrite Z.lor_spec. by destruct (Hh i) as [-> ->].
  - apply (bits_range Z.lxor); [|apply Z.lxor_nonneg; lia]. intros i _. destruct (Z.lt_ge_cases i w); [by right|left].
    rewrite Z.lxor_spec. by destruct (Hh i) as [-> ->].
Qed.

Lemma lnot_range u : 0 <= uwrap w u < 2 ^ w.
Proof. apply uwrap_range. lia. Qed.

Lemma sign_lnot u : 0 <= u < 2 ^ w -> sign (uwrap w (Z.lnot u)) = negb (sign u).
Proof. intros Hu. unfold sign, uwrap. rewrite Z.mod_pow2_bits_low by lia. by rewrite Z.lnot_spec by lia. Qed.

(** The saturated value: the largest or smallest by the sign of the first operand. *)
Lemma sat_limit x : in_type x ->
  swrap w (uwrap w ((uwrap w x .>> (w - 1)) + uwrap w (uwrap w (1 .<< (w - 1)) - 1))) = if x <? 0 then - M else M - 1.
Proof.
  intros Hx. pose proof Hx as Hx'. unfold in_type in Hx'. destruct width_pow as [E Hm].
  rewrite (shiftl_mul 1), Z.mul_1_l, (uwrap_small _ M), (uwrap_small _ (M - 1)), shiftr_div by lia.
  rewrite (uwrap_signed x Hx). destruct (Z.ltb_spec x 0).
  - assert ((x + 2 ^ w) / M = 1) as -> by (symmetry; apply (Z.div_unique _ _ _ (x + M)); lia).
    rewrite uwrap_small by lia. replace (1 + (M - 1)) with M by lia. rewrite swrap_sign by lia. rewrite sign_range by lia.
    rewrite Z.leb_refl. lia.
  - rewrite Z.div_small by lia. rewrite uwrap_small by lia. apply swrap_small; lia.
Qed.

(** The limit keeps the sign of the operand. *)
Lemma sign_limit x : in_type x ->
  sign (uwrap w ((uwrap w x .>> (w - 1)) + uwrap w (uwrap w (1 .<< (w - 1)) - 1))) = (x <? 0).
Proof.
  intros Hx. destruct width_pow as [E Hm]. rewrite <- swrap_neg by apply lnot_range. rewrite sat_limit by done.
  destruct (Z.ltb_spec x 0); [apply Z.ltb_lt|apply Z.ltb_ge]; lia.
Qed.

Lemma sign_signed x : in_type x -> sign (uwrap w x) = (x <? 0).
Proof.
  intros Hx. pose proof Hx as Hx'. unfold in_type in Hx'. destruct width_pow as [E Hm].
  rewrite sign_range by apply lnot_range. rewrite uwrap_signed by done.
  destruct (Z.ltb_spec x 0); [apply Z.leb_le|apply Z.leb_gt]; lia.
Qed.

(** A sum or difference that wrapped. *)
Lemma wrapped z : - 2 * M <= z < 2 * M ->
  swrap w (uwrap w z) = (if z <? - M then z + 2 ^ w else if z <? M then z else z - 2 ^ w) /\
  sign (uwrap w z) = (if z <? - M then false else if z <? M then z <? 0 else true).
Proof.
  intros Hz. destruct width_pow as [E Hm].
  assert (swrap w (uwrap w z) = (if z <? - M then z + 2 ^ w else if z <? M then z else z - 2 ^ w)) as Es.
  { unfold swrap, uwrap. rewrite Z.add_mod_idemp_l by lia. destruct (Z.ltb_spec z (- M)); [|destruct (Z.ltb_spec z M)].
    - rewrite <- (Z_mod_plus_full _ 1), Z.mod_small; lia.
    - rewrite Z.mod_small; lia.
    - rewrite <- (Z_mod_plus_full _ (- 1)), Z.mod_small; lia. }
  split; [done|]. rewrite <- swrap_neg by apply lnot_range. rewrite Es.
  destruct (Z.ltb_spec z (- M)); [apply Z.ltb_ge; lia|]. destruct (Z.ltb_spec z M); [done|apply Z.ltb_lt; lia].
Qed.

Lemma neg_xor u v : sign (u .^ v) = xorb (sign u) (sign v).
Proof. apply Z.lxor_spec. Qed.
Lemma sign_or u v : sign (u .| v) = sign u || sign v.
Proof. apply Z.lor_spec. Qed.
Lemma sign_and u v : sign (u .& v) = sign u && sign v.
Proof. apply Z.land_spec. Qed.

Lemma saturate z (b : bool) lim : - 2 * M <= z < 2 * M ->
  b = negb (bool_decide (in_type z)) -> (~ in_type z -> lim = if z <? 0 then - M else M - 1) ->
  (if b then (lim, true) else (swrap w (uwrap w z), false)) = (clamp z, negb (bool_decide (in_type z))).
Proof.
  intros Hz -> Hlim. destruct width_pow as [E Hm]. destruct (wrapped z Hz) as [-> _]. unfold clamp. case_bool_decide as Hi; simpl; f_equal.
  - unfold in_type in Hi. destruct (Z.ltb_spec z (- M)); [lia|]. destruct (Z.ltb_spec z M); lia.
  - rewrite Hlim by done. unfold in_type in Hi. destruct (Z.ltb_spec z 0); lia.
Qed.

Lemma sat_add_ok x y : in_type x -> in_type y -> sat_add w x y = (clamp (x + y), negb (bool_decide (in_type (x + y)))).
Proof.
  intros Hx Hy. pose proof Hx as Hx'. pose proof Hy as Hy'. unfold in_type in Hx', Hy'. destruct width_pow as [E Hm].
  unfold sat_add. set (L := uwrap w (_ + uwrap w (_ - 1))).
  assert (uwrap w (uwrap w x + uwrap w y) = uwrap w (x + y)) as -> by (unfold uwrap; by rewrite <- Z.add_mod by lia).
  pose proof (lnot_range x) as Hux. pose proof (lnot_range y) as Huy. pose proof (lnot_range (x + y)) as Hur.
  assert (0 <= L < 2 ^ w) as HL by apply lnot_range.
  destruct (logic_range _ _ HL Huy) as (_ & _ & H1). destruct (logic_range _ _ Huy Hur) as (_ & _ & H2).
  destruct (logic_range _ _ H1 (lnot_range (Z.lnot (uwrap w y .^ uwrap w (x + y))))) as (_ & H3 & _).
  rewrite (swrap_nonneg _ H3). apply saturate; [lia| |].
  - rewrite sign_or, neg_xor, sign_lnot, neg_xor by done. unfold L. rewrite sign_limit, sign_signed by done.
    destruct (wrapped (x + y) ltac:(lia)) as [_ ->]. unfold in_type.
    destruct (Z.ltb_spec (x + y) (- M)), (Z.ltb_spec (x + y) M), (Z.ltb_spec (x + y) 0), (Z.ltb_spec x 0), (Z.ltb_spec y 0); try lia;
      ((rewrite bool_decide_true by lia) || (rewrite bool_decide_false by lia)); done.
  - unfold L. rewrite sat_limit by done. unfold in_type. intros Ho. destruct (Z.ltb_spec x 0), (Z.ltb_spec (x + y) 0); lia || done.
Qed.

Lemma sat_sub_ok x y : in_type x -> in_type y -> sat_sub w x y = (clamp (x - y), negb (bool_decide (in_type (x - y)))).
Proof.
  intros Hx Hy. pose proof Hx as Hx'. pose proof Hy as Hy'. unfold in_type in Hx', Hy'. destruct width_pow as [E Hm].
  unfold sat_sub. set (L := uwrap w (_ + uwrap w (_ - 1))).
  assert (uwrap w (uwrap w x - uwrap w y) = uwrap w (x - y)) as -> by (unfold uwrap; by rewrite <- Zminus_mod by lia).
  pose proof (lnot_range x) as Hux. pose proof (lnot_range y) as Huy. pose proof (lnot_range (x - y)) as Hur.
  assert (0 <= L < 2 ^ w) as HL by apply lnot_range.
  destruct (logic_range _ _ HL Huy) as (_ & _ & H1). destruct (logic_range _ _ HL Hur) as (_ & _ & H2).
  destruct (logic_range _ _ H1 H2) as (H3 & _ & _).
  rewrite (swrap_neg _ H3). apply saturate; [lia| |].
  - rewrite sign_and, !neg_xor. unfold L. rewrite sign_limit, sign_signed by done.
    destruct (wrapped (x - y) ltac:(lia)) as [_ ->]. unfold in_type.
    destruct (Z.ltb_spec (x - y) (- M)), (Z.ltb_spec (x - y) M), (Z.ltb_spec (x - y) 0), (Z.ltb_spec x 0), (Z.ltb_spec y 0); try lia;
      ((rewrite bool_decide_true by lia) || (rewrite bool_decide_false by lia)); done.
  - unfold L. rewrite sat_limit by done. unfold in_type. intros Ho. destruct (Z.ltb_spec x 0), (Z.ltb_spec (x - y) 0); lia || done.
Qed.

Lemma clamp_in x : in_type (clamp x).
Proof. destruct width_pow as [E Hm]. unfold in_type, clamp. lia. Qed.

Lemma sat_add3_ok x y z : in_type x -> in_type y -> in_type z ->
  sat_add3 w x y z = (clamp (x + y + z), negb (bool_decide (in_type (x + y + z)))).
Proof.
  intros Hx Hy Hz. destruct width_pow as [E Hm]. unfold sat_add3.
  assert (((y .^ z) .& (x .^ z) <? 0) = xorb (y <? 0) (z <? 0) && xorb (x <? 0) (z <? 0)) as ->.
  { apply eq_true_iff_eq. rewrite Z.ltb_lt.
    assert (forall a b, a .^ b < 0 <-> xorb (a <? 0) (b <? 0) = true) as Hxor.
    { intros a b. rewrite Z.lt_nge, Z.lxor_nonneg. destruct (Z.ltb_spec a 0), (Z.ltb_spec b 0); simpl; split; intros; try done; lia. }
    rewrite Z.land_neg, !Hxor, andb_true_iff. done. }
  assert (forall a b, in_type a -> in_type b -> a + b = y + z -> (x + a < - M -> b < 0) -> (M <= x + a -> 0 <= b) ->
    (let '(res, sat1) := sat_add w x a in let '(res, sat2) := sat_add w res b in (res, sat1 || sat2))
    = (clamp (x + y + z), negb (bool_decide (in_type (x + y + z))))) as Hgen.
  { intros a b Ha Hb Hsum Hlo Hhi. rewrite sat_add_ok by done. rewrite sat_add_ok by (done || apply clamp_in).
    rewrite <- Z.add_assoc, <- Hsum, Z.add_assoc. unfold in_type, clamp in *.
    f_equal; [lia|]. repeat case_bool_decide; simpl; lia || done. }
  unfold in_type in *. destruct (Z.ltb_spec x 0), (Z.ltb_spec y 0), (Z.ltb_spec z 0); simpl; apply Hgen; lia.
Qed.

Lemma ones_mask x : 0 <= x < 2 ^ w -> x .| (2 ^ w - 1) = 2 ^ w - 1 /\ x .& (2 ^ w - 1) = x.
Proof.
  intros Hx. destruct width_pow as [E Hm]. rewrite (land_mod x _ w), Z.mod_small by lia. split; [|done].
  pose proof (Z.add_lor_land x (2 ^ w - 1)) as H. rewrite (land_mod x _ w), Z.mod_small in H by lia. lia.
Qed.

Lemma sat_addu_ok x y : 0 <= x < 2 ^ w -> 0 <= y < 2 ^ w ->
  sat_addu w x y = (Z.min (2 ^ w - 1) (x + y), 2 ^ w <=? x + y).
Proof.
  intros Hx Hy. destruct width_pow as [E Hm]. unfold sat_addu.
  assert (uwrap w (x + y) = if 2 ^ w <=? x + y then x + y - 2 ^ w else x + y) as ->.
  { unfold uwrap. destruct (Z.leb_spec (2 ^ w) (x + y)); [rewrite <- (Z_mod_plus_full _ (- 1))|]; rewrite Z.mod_small; lia. }
  destruct (Z.leb_spec (2 ^ w) (x + y)).
  - destruct (Z.ltb_spec (x + y - 2 ^ w) x); [|lia]. assert (uwrap w (- b2z true) = 2 ^ w - 1) as ->.
    { simpl b2z. unfold uwrap. rewrite <- (Z_mod_plus_full _ 1), Z.mod_small; lia. }
    destruct (ones_mask (x + y - 2 ^ w) ltac:(lia)) as [-> _]. f_equal. lia.
  - destruct (Z.ltb_spec (x + y) x); [lia|]. change (uwrap w (- b2z false)) with (0 mod 2 ^ w). rewrite Z.mod_0_l, Z.lor_0_r by lia.
    f_equal. lia.
Qed.

Lemma sat_subu_ok x y : 0 <= x < 2 ^ w -> 0 <= y < 2 ^ w -> sat_subu w x y = (Z.max 0 (x - y), x <? y).
Proof.
  intros Hx Hy. destruct width_pow as [E Hm]. unfold sat_subu.
  assert (uwrap w (x - y) = if x <? y then x - y + 2 ^ w else x - y) as ->.
  { unfold uwrap. destruct (Z.ltb_spec x y); [rewrite <- (Z_mod_plus_full _ 1)|]; rewrite Z.mod_small; lia. }
  destruct (Z.ltb_spec x y).
  - destruct (Z.leb_spec (x - y + 2 ^ w) x); [lia|]. change (uwrap w (- b2z false)) with (0 mod 2 ^ w). rewrite Z.mod_0_l, Z.land_0_r by lia.
    simpl. f_equal. lia.
  - destruct (Z.leb_spec (x - y) x); [|lia]. assert (uwrap w (- b2z true) = 2 ^ w - 1) as ->.
    { simpl b2z. unfold uwrap. rewrite <- (Z_mod_plus_full _ 1), Z.mod_small; lia. }
    destruct (ones_mask (x - y) ltac:(lia)) as [_ ->]. simpl. f_equal. lia.
Qed.
End Saturation.

(** ** Fields and rotations *)

Lemma max_shiftr len : 0 < len <= 64 -> UINT64_MAX .>> (64 - len) = 2 ^ len - 1.
Proof.
  intros Hl. rewrite shiftr_div by lia. unfold UINT64_MAX. pose proof (pow2_pos (64 - len) ltac:(lia)). pose proof (pow2_pos len ltac:(lia)).
  assert (2 ^ 64 = 2 ^ len * 2 ^ (64 - len)) as -> by (rewrite <- Z.pow_add_r by lia; f_equal; lia).
  symmetry. apply (Z.div_unique _ _ _ (2 ^ (64 - len) - 1)); lia.
Qed.

Lemma extract64_ok val pos len : 0 <= pos -> 0 < len -> pos + len <= 64 ->
  extract64 val pos len = Some (val / 2 ^ pos mod 2 ^ len).
Proof.
  intros Hp Hl Hpl. unfold extract64. destruct (Z.leb_spec 0 pos), (Z.ltb_spec 0 len), (Z.leb_spec len (64 - pos)); try lia.
  simpl. rewrite max_shiftr, (land_mod _ _ len), shiftr_div by lia. done.
Qed.

Lemma make_mask64_ok pos len : 0 <= pos -> 0 < len -> pos + len <= 64 ->
  make_mask64 pos len = Some (2 ^ pos * (2 ^ len - 1)).
Proof.
  intros Hp Hl Hpl. unfold make_mask64. destruct (Z.leb_spec 0 pos), (Z.ltb_spec 0 len), (Z.ltb_spec pos 64), (Z.leb_spec len 64); try lia.
  simpl. rewrite max_shiftr, shiftl_mul by lia. f_equal. pose proof (pow2_pos pos ltac:(lia)). pose proof (pow2_pos len ltac:(lia)).
  rewrite uwrap_small; [lia|]. assert (2 ^ pos * 2 ^ len <= 2 ^ 64) by (rewrite <- Z.pow_add_r by lia; apply pow2_le; lia). nia.
Qed.

Section Rotate.
Context (j : Z) (Hj : 0 <= j <= 6).
Local Notation w := (2 ^ j).

Lemma rotate_amounts s : 0 <= s -> s .& (w - 1) = s mod w /\ u64 (- (s mod w)) .& (w - 1) = (- s) mod w.
Proof.
  intros Hs. pose proof (pow2_pos j ltac:(lia)). rewrite !(land_mod _ (w - 1) j) by lia. split; [done|].
  unfold uwrap. assert (2 ^ 64 = w * 2 ^ (64 - j)) as -> by (rewrite <- Z.pow_add_r by lia; f_equal; lia).
  pose proof (pow2_pos (64 - j) ltac:(lia)). rewrite Z.rem_mul_r by lia.
  rewrite (Z.mul_comm w), Z_mod_plus_full, Z.mod_mod by lia. by rewrite <- (Z.sub_0_l (s mod w)), Zminus_mod_idemp_r.
Qed.

(** Bits from two shifts in opposite directions. *)
Lemma rotate_bits x l r i : 0 <= x < 2 ^ w -> 0 <= l < w -> 0 <= r < w -> (l = 0 /\ r = 0 \/ l + r = w) -> 0 <= i < w ->
  Z.testbit (uwrap w (x .<< l) .| (x .>> r)) i = Z.testbit x (if i <? l then i + r else i - l).
Proof.
  intros Hx Hl Hr Hlr Hi. rewrite Z.lor_spec, Z.shiftr_spec by lia. unfold uwrap. rewrite Z.mod_pow2_bits_low by lia.
  assert (forall k, w <= k -> Z.testbit x k = false) as Hh.
  { intros k Hk. rewrite <- (Z.mod_small x (2 ^ w)) by done. apply Z.mod_pow2_bits_high. lia. }
  destruct (Z.ltb_spec i l).
  - by rewrite Z.shiftl_spec_low by lia.
  - rewrite Z.shiftl_spec by lia. destruct Hlr as [[-> ->]|Hlr]; [by rewrite Z.sub_0_r, Z.add_0_r, orb_diag|].
    rewrite (Hh (i + r)) by lia. apply orb_false_r.
Qed.

Lemma neg_mod s : 0 <= s -> s mod w = 0 /\ (- s) mod w = 0 \/ s mod w + (- s) mod w = w.
Proof.
  intros Hs. pose proof (pow2_pos j ltac:(lia)). destruct (Z.eq_dec (s mod w) 0) as [E|E].
  - left. split; [done|]. by apply Z_mod_zero_opp_full.
  - right. rewrite Z_mod_nz_opp_full by done. lia.
Qed.

Lemma rotate_right_ok x s i : 0 <= x < 2 ^ w -> 0 <= s -> 0 <= i < w ->
  Z.testbit (rotate_right w x s) i = Z.testbit x ((i + s) mod w).
Proof.
  intros Hx Hs Hi. pose proof (pow2_pos j ltac:(lia)) as Hw. unfold rotate_right. destruct (rotate_amounts s Hs) as [-> ->].
  pose proof (Z.mod_pos_bound s w Hw). pose proof (Z.mod_pos_bound (- s) w Hw). rewrite rotate_bits; [|done|done|done| |done].
  - rewrite <- Z.add_mod_idemp_r by lia. f_equal. destruct (neg_mod s Hs) as [[E1 E2]|E]; destruct (Z.ltb_spec i ((- s) mod w)).
    + lia.
    + rewrite E1, E2, Z.sub_0_r, Z.add_0_r. symmetry. apply Z.mod_small. lia.
    + symmetry. apply Z.mod_small. lia.
    + apply (Z.mod_unique _ _ 1); lia.
  - destruct (neg_mod s Hs); lia.
Qed.

Lemma rotate_left_ok x s i : 0 <= x < 2 ^ w -> 0 <= s -> 0 <= i < w ->
  Z.testbit (rotate_left w x s) i = Z.testbit x ((i - s) mod w).
Proof.
  intros Hx Hs Hi. pose proof (pow2_pos j ltac:(lia)) as Hw. unfold rotate_left. destruct (rotate_amounts s Hs) as [-> ->].
  pose proof (Z.mod_pos_bound s w Hw). pose proof (Z.mod_pos_bound (- s) w Hw). rewrite rotate_bits; [|done|done|done| |done].
  - rewrite <- Zminus_mod_idemp_r. f_equal. destruct (neg_mod s Hs) as [[E1 E2]|E]; destruct (Z.ltb_spec i (s mod w)).
    + lia.
    + rewrite E1, Z.sub_0_r. symmetry. apply Z.mod_small. lia.
    + apply (Z.mod_unique _ _ (- 1)); lia.
    + symmetry. apply Z.mod_small. lia.
  - destruct (neg_mod s Hs); lia.
Qed.
End Rotate.

(** ** Permutation *)

Section Xperm.
Context (rs1 rs2 s len : Z) (Hs : 0 <= s < 6) (Hlen : 0 <= len <= 64) (H1 : 0 <= rs1 < 2 ^ 64) (H2 : 0 <= rs2 < 2 ^ 64).
Local Notation sz := (2 ^ s).

(** The element of the result that stands at bit [i]. *)
Definition xperm_element (i : Z) : Z :=
  let pos := rs2 / 2 ^ i mod 2 ^ sz * sz in
  if pos <? len then rs1 / 2 ^ pos mod 2 ^ sz else 0.

Lemma xperm_element_range i : 0 <= xperm_element i < 2 ^ sz.
Proof.
  unfold xperm_element. pose proof (pow2_pos s ltac:(lia)). pose proof (pow2_pos sz ltac:(lia)).
  destruct (_ <? _); [apply Z.mod_pos_bound; done|lia].
Qed.

Lemma xperm_pos i : 0 <= i -> u64 (((rs2 .>> i) .& (2 ^ sz - 1)) .<< s) = rs2 / 2 ^ i mod 2 ^ sz * sz.
Proof.
  intros Hi. pose proof (pow2_pos s ltac:(lia)). pose proof (pow2_le s 5 ltac:(lia)). change (2 ^ 5) with 32 in *.
  rewrite (land_mod _ _ sz), shiftr_div, shiftl_mul by lia. apply uwrap_small.
  pose proof (Z.mod_pos_bound (rs2 / 2 ^ i) (2 ^ sz) (pow2_pos sz ltac:(lia))). pose proof (pow2_le sz 32 ltac:(lia)). nia.
Qed.

Lemma xperm_loop_ok n : forall fuel i r, 0 <= i -> len = i + sz * Z.of_nat n -> (n <= fuel)%nat -> 0 <= r < 2 ^ i ->
  xperm_loop fuel rs1 rs2 s len sz (2 ^ sz - 1) i r
  = r + 2 ^ i * undigits sz (map (fun k => xperm_element (i + sz * Z.of_nat k)) (seq 0 n)).
Proof.
  pose proof (pow2_pos s ltac:(lia)) as Hsz. pose proof (pow2_pos sz ltac:(lia)) as Hp.
  induction n as [|n IH]; intros fuel i r Hi El Hf Hr.
  - simpl. rewrite Z.mul_0_r, Z.add_0_r. destruct fuel; [done|]. simpl. destruct (Z.ltb_spec i len); [lia|done].
  - destruct fuel as [|fuel]; [lia|]. cbn [xperm_loop]. destruct (Z.ltb_spec i len); [|lia]. rewrite xperm_pos by done.
    pose proof (xperm_element_range i) as He. pose proof (pow2_pos i Hi).
    assert ((if rs2 / 2 ^ i mod 2 ^ sz * sz <? len
       then r .| u64 (((rs1 .>> (rs2 / 2 ^ i mod 2 ^ sz * sz)) .& (2 ^ sz - 1)) .<< i) else r) = r + 2 ^ i * xperm_element i) as ->.
    { unfold xperm_element in *. pose proof (Z.mod_pos_bound (rs2 / 2 ^ i) (2 ^ sz) Hp).
      destruct (_ <? len); [|lia]. rewrite (land_mod _ _ sz), (shiftr_div rs1) by lia. set (e := rs1 / _ mod _) in *.
      assert (2 ^ sz * 2 ^ i <= 2 ^ 64) by (rewrite <- Z.pow_add_r by lia; apply pow2_le; lia).
      rewrite uwrap_small by (rewrite shiftl_mul by lia; nia). rewrite Z.lor_comm, lor_disjoint by lia. lia. }
    assert (2 ^ (i + sz) = 2 ^ i * 2 ^ sz) as Epow by (apply Z.pow_add_r; lia).
    rewrite IH; [|lia|lia|lia|rewrite Epow; nia].
    cbn [seq map undigits]. rewrite Z.mul_0_r, Z.add_0_r. rewrite Epow.
    rewrite <- seq_shift, map_map.
    assert (map (fun k => xperm_element (i + sz + sz * Z.of_nat k)) (seq 0 n)
      = map (fun k => xperm_element (i + sz * Z.of_nat (S k))) (seq 0 n)) as ->; [|ring].
    apply map_ext. intros k. f_equal. lia.
Qed.

Lemma xperm_ok n : len = sz * Z.of_nat n ->
  xperm rs1 rs2 s len = Some (undigits sz (map (fun k => xperm_element (sz * Z.of_nat k)) (seq 0 n))).
Proof.
  intros El. unfold xperm. destruct (Z.leb_spec s 6), (Z.leb_spec len 64), (Z.ltb_spec s 6); try lia. cbn [andb].
  pose proof (pow2_pos s ltac:(lia)). rewrite (shiftl_mul 1 s), Z.mul_1_l, (shiftl_mul 1), Z.mul_1_l by lia.
  rewrite (xperm_loop_ok n); [|lia|lia| |change (2 ^ 0) with 1; lia].
  2: { apply Nat2Z.inj_le. change (Z.of_nat 64) with 64. assert (1 * Z.of_nat n <= sz * Z.of_nat n) by (apply Z.mul_le_mono_nonneg_r; lia). lia. }
  rewrite Z.pow_0_r, Z.add_0_l, Z.mul_1_l. done.
Qed.
End Xperm.

(** The power of two in a number. *)
Lemma odd_part v : 0 < v -> exists z q, 0 <= z /\ Z.odd q = true /\ v = 2 ^ z * q.
Proof.
  destruct v as [|p|p]; [lia| |lia]. intros _. induction p as [p _|p (z & q & Hz & Hq & E)|].
  - exists 0, (Z.pos p~1). by rewrite Z.pow_0_r, Z.mul_1_l.
  - exists (z + 1), q. rewrite pow2_succ by lia. split_and!; [lia|done|]. change (Z.pos p~0) with (2 * Z.pos p). rewrite E. lia.
  - exists 0, 1. done.
Qed.

(** ** Theorems *)

(** The high words of products are exact: [mulhu], [mulh] and [mulhsu] are the
    floor of the 128-bit product divided by [2 ^ 64], for unsigned, signed and
    mixed operands, the most negative number and zero included. *)
Theorem products_high a b ua ub :
  - 2 ^ 63 <= a < 2 ^ 63 -> - 2 ^ 63 <= b < 2 ^ 63 -> 0 <= ua < 2 ^ 64 -> 0 <= ub < 2 ^ 64 ->
  mulhu ua ub = ua * ub / 2 ^ 64 /\ mulh a b = a * b / 2 ^ 64 /\ mulhsu a ub = a * ub / 2 ^ 64.
Proof. intros Ha Hb Hua Hub. split_and!; [by apply mulhu_high|by apply mulh_high|by apply mulhsu_high]. Qed.

Lemma products_high_witness :
  mulhu (2 ^ 64 - 1) (2 ^ 64 - 1) = 2 ^ 64 - 2 /\ mulh (- 2 ^ 63) (- 2 ^ 63) = 2 ^ 62 /\
  mulhsu (- 2 ^ 63) (2 ^ 64 - 1) = - 2 ^ 63.
Proof. exact (products_high (- 2 ^ 63) (- 2 ^ 63) (2 ^ 64 - 1) (2 ^ 64 - 1) ltac:(lia) ltac:(lia) ltac:(lia) ltac:(lia)). Defined.

(** C39: Saturation stays in bounds.  At every width the saturating additions and
    subtractions deliver the exact result clamped to the type, and set the flag
    exactly when the exact result does not fit, the addition of three operands
    included. *)
Theorem saturating_bounds w x y z ux uy :
  1 < w -> in_type w x -> in_type w y -> in_type w z -> 0 <= ux < 2 ^ w -> 0 <= uy < 2 ^ w ->
  sat_add w x y = (clamp w (x + y), negb (bool_decide (in_type w (x + y)))) /\
  sat_sub w x y = (clamp w (x - y), negb (bool_decide (in_type w (x - y)))) /\
  sat_add3 w x y z = (clamp w (x + y + z), negb (bool_decide (in_type w (x + y + z)))) /\
  sat_addu w ux uy = (Z.min (2 ^ w - 1) (ux + uy), 2 ^ w <=? ux + uy) /\
  sat_subu w ux uy = (Z.max 0 (ux - uy), ux <? uy).
Proof.
  intros Hw Hx Hy Hz Hux Huy. split_and!; [by apply sat_add_ok|by apply sat_sub_ok|by apply sat_add3_ok|by apply sat_addu_ok|by apply sat_subu_ok].
Qed.

Lemma saturating_bounds_witness :
  sat_add 8 100 100 = (127, true) /\ sat_sub 8 (- 100) 100 = (- 128, true) /\ sat_add3 8 100 100 (- 128) = (72, false) /\
  sat_addu 8 200 100 = (255, true) /\ sat_subu 8 100 200 = (0, true).
Proof.
  pose proof (saturating_bounds 8 100 100 (- 128) 200 100 ltac:(lia) ltac:(split; by vm_compute) ltac:(split; by vm_compute)
    ltac:(split; by vm_compute) ltac:(lia) ltac:(lia)) as (H1 & _ & H3 & H4 & _).
  pose proof (saturating_bounds 8 (- 100) 100 0 100 200 ltac:(lia) ltac:(split; by vm_compute) ltac:(split; by vm_compute)
    ltac:(split; by vm_compute) ltac:(lia) ltac:(lia)) as (_ & H2 & _ & _ & H5).
  split_and!; [exact H1|exact H2|exact H3|exact H4|exact H5].
Defined.

(** Counting and moving bits.  [popcount] is the number of set bits, [ctz] the
    exponent of the power of two in the value, [clz] and [log2] locate its
    leading one, [cto] counts its low ones; [extract64] is the field it names,
    [make_mask64] the ones of that field; the rotations move bit
    [i + s] (or [i - s]) to [i] modulo the width; [xperm] gathers the elements
    the second operand names and puts zero for those out of range. *)
Theorem bit_functions v :
  0 <= v < 2 ^ 64 ->
  popcount v = ones_in v /\
  (v = 0 -> ctz v = 0 /\ clz v = 0 /\ log2 v = 0) /\
  (0 < v -> Z.odd (v / 2 ^ ctz v) = true /\ v mod 2 ^ ctz v = 0 /\ 0 <= ctz v < 64 /\
    clz v = 63 - Z.log2 v /\ log2 v = Z.log2 v) /\
  (exists q, 0 <= q /\ v = 2 ^ cto v * (2 * q + 1) - 1) /\
  (forall pos len, 0 <= pos -> 0 < len -> pos + len <= 64 ->
    extract64 v pos len = Some (v / 2 ^ pos mod 2 ^ len) /\ make_mask64 pos len = Some (2 ^ pos * (2 ^ len - 1))) /\
  (forall j s i, 0 <= j <= 6 -> v < 2 ^ 2 ^ j -> 0 <= s -> 0 <= i < 2 ^ j ->
    Z.testbit (rotate_right (2 ^ j) v s) i = Z.testbit v ((i + s) mod 2 ^ j) /\
    Z.testbit (rotate_left (2 ^ j) v s) i = Z.testbit v ((i - s) mod 2 ^ j)) /\
  (forall rs2 s len n, 0 <= s < 6 -> 0 <= len <= 64 -> 0 <= rs2 < 2 ^ 64 -> len = 2 ^ s * Z.of_nat n ->
    xperm v rs2 s len = Some (undigits (2 ^ s) (map (fun k => xperm_element v rs2 s len (2 ^ s * Z.of_nat k)) (seq 0 n)))).
Proof.
  intros Hv. refine (conj _ (conj _ (conj _ (conj _ (conj _ (conj _ _)))))).
  - by apply popcount_ones.
  - by intros ->.
  - intros Hpos. destruct (Z.eq_dec v 0) as [|_]; [lia|].
    destruct (odd_part v Hpos) as (z & q & Hz & Hq & E).
    rewrite E at 1 2 3 4 5 6. rewrite !ctz_ok by (done || lia). pose proof (pow2_pos z Hz).
    rewrite (Z.mul_comm (2 ^ z)), Z.div_mul, Z.mod_mul by lia. split_and!; try done.
    + apply (Z.pow_lt_mono_r_iff 2); [lia..|]. assert (0 < q) by nia. nia.
    + apply clz_ok. lia.
    + apply log2_ok. lia.
  - destruct (cto_loop_ok 64 v 0 Hv) as (k & q & E & Hk & Hq & Ev). exists q. split; [done|]. unfold cto. by rewrite E, Z.add_0_l.
  - intros pos len Hp Hl Hpl. split; [by apply extract64_ok|by apply make_mask64_ok].
  - intros j s i Hj Hvj Hs Hi. split; [apply rotate_right_ok|apply rotate_left_ok]; done || lia.
  - intros rs2 s len n Hs Hlen Hrs2 El. by apply xperm_ok.
Qed.

Lemma bit_functions_witness :
  popcount 0xF0F1 = 9 /\ ctz 0xF0 = 4 /\ clz 1 = 63 /\ extract64 0xABCD 4 8 = Some 0xBC /\
  xperm 0xDCBA 0x0123 2 16 = Some 0xABCD.
Proof.
  destruct (bit_functions 0xF0F1 ltac:(lia)) as (H1 & _).
  destruct (bit_functions 1 ltac:(lia)) as (_ & _ & H2 & _). destruct (H2 ltac:(lia)) as (_ & _ & _ & H3 & _).
  destruct (bit_functions 0xABCD ltac:(lia)) as (_ & _ & _ & _ & H4 & _).
  destruct (bit_functions 0xDCBA ltac:(lia)) as (_ & _ & _ & _ & _ & _ & H5).
  split; [rewrite H1; reflexivity|]. split; [reflexivity|]. split; [rewrite H3; reflexivity|].
  split; [apply H4; lia|]. rewrite (H5 0x0123 2 16 4%nat ltac:(lia) ltac:(lia) ltac:(lia) eq_refl). reflexivity.
Defined.
