(* ===== verification/Pmp.v ===== *)
(** * Spike: physical memory protection

    Model of the PMP registers ([src/riscv-isa-sim/riscv/csrs.cc]) and of the
    checks the MMU makes with them ([pmp_ok] and [pmp_homogeneous] of
    [src/riscv-isa-sim/riscv/mmu.cc]).  The state holds what these functions
    read: the address and configuration registers, [mseccfg], and the number and
    granularity of the entries. *)

From stdpp Require Import base option list.
From S2P Require Import Prelude.
From S2P Require Import Arith.

(** ** Constants *)

Definition PMP_R : Z := 0x01.
Definition PMP_W : Z := 0x02.
Definition PMP_X : Z := 0x04.
Definition PMP_A : Z := 0x18.
Definition PMP_L : Z := 0x80.
Definition PMP_SHIFT : Z := 2.
Definition PMP_TOR : Z := 0x08.
Definition PMP_NA4 : Z := 0x10.
Definition PMP_NAPOT : Z := 0x18.
Definition PRV_U : Z := 0.
Definition PRV_S : Z := 1.
Definition PRV_M : Z := 3.
Definition MSECCFG_MML : Z := 0x1.
Definition MSECCFG_MMWP : Z := 0x2.
Definition MSECCFG_RLB : Z := 0x4.
Definition MAX_PADDR_BITS : Z := 56.
Definition max_pmp : Z := 64.

Inductive access_type : Type := LOAD | STORE | FETCH.

#[export] Instance access_type_eq_dec : EqDecision access_type.
Proof. solve_decision. Defined.

(** ** State *)

Record pmpaddr_csr_t : Type := Pmpaddr { val : Z; cfg : Z }.

Record pmp_state : Type := PmpState {
  pmpaddr : list pmpaddr_csr_t;
  n_pmp : Z;
  lg_pmp_granularity : Z;
  mseccfg : Z;
  xlen : Z
}.

Definition entry (s : pmp_state) (i : Z) : pmpaddr_csr_t := nth (Z.to_nat i) (pmpaddr s) (Pmpaddr 0 0).

Definition set_entry (s : pmp_state) (i : Z) (e : pmpaddr_csr_t) : pmp_state :=
  PmpState (<[Z.to_nat i := e]> (pmpaddr s)) (n_pmp s) (lg_pmp_granularity s) (mseccfg s) (xlen s).

Definition set_mseccfg (s : pmp_state) (v : Z) : pmp_state :=
  PmpState (pmpaddr s) (n_pmp s) (lg_pmp_granularity s) v (xlen s).

(** [set_pmp_num] and [set_pmp_granularity]; [None] where they abort. *)
Definition set_pmp_num (s : pmp_state) (n : Z) : option pmp_state :=
  if max_pmp <? n then None
  else Some (PmpState (pmpaddr s) n (lg_pmp_granularity s) (mseccfg s) (xlen s)).

Definition set_pmp_granularity (s : pmp_state) (gran : Z) : option pmp_state :=
  if (gran <? 1 .<< PMP_SHIFT) || nz (gran .& u64 (gran - 1)) then None
  else Some (PmpState (pmpaddr s) (n_pmp s) (ctz gran) (mseccfg s) (xlen s)).

Definition pmp_tor_mask (s : pmp_state) : Z := u64 (- u64 (1 .<< (lg_pmp_granularity s - PMP_SHIFT))).

Definition get_mml (s : pmp_state) : bool := nz (mseccfg s .& MSECCFG_MML).
Definition get_mmwp (s : pmp_state) : bool := nz (mseccfg s .& MSECCFG_MMWP).
Definition get_rlb (s : pmp_state) : bool := nz (mseccfg s .& MSECCFG_RLB).

(** ** Matching *)

Definition tor_paddr (s : pmp_state) (i : Z) : Z :=
  u64 ((val (entry s i) .& pmp_tor_mask s) .<< PMP_SHIFT).

Definition tor_base_paddr (s : pmp_state) (i : Z) : Z :=
  if i =? 0 then 0 else tor_paddr s (i - 1).

Definition napot_mask (s : pmp_state) (i : Z) : Z :=
  let e := entry s i in
  let is_na4 := cfg e .& PMP_A =? PMP_NA4 in
  let mask := u64 (val e .<< 1) .| b2z (negb is_na4) .| u64 (Z.lnot (pmp_tor_mask s)) in
  u64 (u64 (Z.lnot (mask .& u64 (Z.lnot (u64 (mask + 1))))) .<< PMP_SHIFT).

Definition match4 (s : pmp_state) (i addr : Z) : bool :=
  let a := cfg (entry s i) .& PMP_A in
  if a =? 0 then false
  else if a =? PMP_TOR then (tor_base_paddr s i <=? addr) && (addr <? tor_paddr s i)
  else (addr .^ tor_paddr s i) .& napot_mask s i =? 0.

(** [None] where it aborts or divides by zero. *)
Definition subset_match (s : pmp_state) (i addr len : Z) : option bool :=
  if nz ((addr .| len) .& u64 (len - 1)) || (len =? 0) then None else Some (
  let base := tor_base_paddr s i in
  let tor := tor_paddr s i in
  let a := cfg (entry s i) .& PMP_A in
  if a =? 0 then false else
  let is_tor := a =? PMP_TOR in
  let begins_after_lower := base <=? addr in
  let begins_after_upper := tor <=? addr in
  let ends_before_lower := addr .& u64 (- len) <? base .& u64 (- len) in
  let ends_before_upper := addr .& u64 (- len) <? tor .& u64 (- len) in
  let tor_homogeneous := ends_before_lower || begins_after_upper || (begins_after_lower && ends_before_upper) in
  let mask_homogeneous := nz (u64 (Z.lnot (u64 (napot_mask s i .<< 1))) .& len) in
  let napot_homogeneous := mask_homogeneous || nz ((addr .^ tor) / len) in
  negb (if is_tor then tor_homogeneous else napot_homogeneous)).

(** ** Permissions *)

Definition access_ok (s : pmp_state) (i : Z) (type : access_type) (mode : Z) : bool :=
  let c := cfg (entry s i) in
  let cfgx := nz (c .& PMP_X) in
  let cfgw := nz (c .& PMP_W) in
  let cfgr := nz (c .& PMP_R) in
  let cfgl := nz (c .& PMP_L) in
  let prvm := mode =? PRV_M in
  let typer := bool_decide (type = LOAD) in
  let typex := bool_decide (type = FETCH) in
  let typew := bool_decide (type = STORE) in
  let normal_rwx := (typer && cfgr) || (typew && cfgw) || (typex && cfgx) in
  if get_mml s then
    if cfgx && cfgw && cfgr && cfgl then typer
    else
      let mml_shared_region := negb cfgr && cfgw in
      let mml_chk_normal := Bool.eqb prvm cfgl && normal_rwx in
      let mml_chk_shared :=
        (negb cfgl && cfgx && (typer || typew)) ||
        (negb cfgl && negb cfgx && (typer || (typew && prvm))) ||
        (cfgl && typex) ||
        (cfgl && typer && cfgx && prvm) in
      if mml_shared_region then mml_chk_shared else mml_chk_normal
  else
    let m_bypass := prvm && negb cfgl in
    m_bypass || normal_rwx.

(** ** Checks of the MMU *)

(** The offsets 0, 4, 8, ... below [len]. *)
Definition sectors (len : Z) : list Z :=
  map (fun k => Z.of_nat k * (1 .<< PMP_SHIFT)) (seq 0 (Z.to_nat ((len + 3) / 4))).

Definition pmp_default (s : pmp_state) (type : access_type) (mode : Z) : bool :=
  (mode =? PRV_M) && negb (get_mmwp s) &&
  (negb (get_mml s) || (bool_decide (type = LOAD) || bool_decide (type = STORE))).

(** The loop over the entries [i], [i + 1], ... *)
Fixpoint pmp_scan (s : pmp_state) (addr len : Z) (type : access_type) (mode : Z) (n : nat) (i : Z) : bool :=
  match n with
  | O => pmp_default s type mode
  | S n =>
      let matches := map (fun offset => match4 s i (u64 (addr + offset))) (sectors len) in
      let any_match := existsb id matches in
      let all_match := forallb id matches in
      if any_match then
        if negb all_match then false else access_ok s i type mode
      else pmp_scan s addr len type mode n (i + 1)
  end.

Definition pmp_ok (s : pmp_state) (addr len : Z) (type : access_type) (mode : Z) : bool :=
  if n_pmp s =? 0 then true else pmp_scan s addr len type mode (Z.to_nat (n_pmp s)) 0.

(** The loop over the entries [i], [i + 1], ... *)
Fixpoint homogeneous_scan (s : pmp_state) (addr len : Z) (n : nat) (i : Z) : option bool :=
  match n with
  | O => Some true
  | S n =>
      r ← subset_match s i addr len;
      if (r : bool) then Some false else homogeneous_scan s addr len n (i + 1)
  end.

Definition pmp_homogeneous (s : pmp_state) (addr len : Z) : option bool :=
  if nz ((addr .| len) .& u64 (len - 1)) then None
  else homogeneous_scan s addr len (Z.to_nat (n_pmp s)) 0.

(** ** Reading and writing the registers *)

Definition pmpaddr_read (s : pmp_state) (i : Z) : Z :=
  let e := entry s i in
  if PMP_NAPOT <=? cfg e .& PMP_A then val e .| (u64 (Z.lnot (pmp_tor_mask s)) .>> 1)
  else val e .& pmp_tor_mask s.

Definition next_locked_and_tor (s : pmp_state) (i : Z) : bool :=
  if max_pmp <=? i + 1 then false else
  let next := cfg (entry s (i + 1)) in
  let next_locked := negb (get_rlb s) && nz (next .& PMP_L) in
  let next_tor := next .& PMP_A =? PMP_TOR in
  next_locked && next_tor.

(** The result of a write, and the state after it. *)
Definition pmpaddr_write (s : pmp_state) (i v : Z) : bool * pmp_state :=
  if n_pmp s =? 0 then (false, s) else
  let locked := negb (get_rlb s) && nz (cfg (entry s i) .& PMP_L) in
  if (i <? n_pmp s) && negb locked && negb (next_locked_and_tor s i) then
    (true, set_entry s i (Pmpaddr (v .& u64 (u64 (1 .<< (MAX_PADDR_BITS - PMP_SHIFT)) - 1)) (cfg (entry s i))))
  else (false, s).

(** The configuration of one entry as a write of the byte [c] leaves it. *)
Definition legal_cfg (s : pmp_state) (c : Z) : Z :=
  let cfg := c .& (PMP_R .| PMP_W .| PMP_X .| PMP_A .| PMP_L) in
  let cfg := if negb (get_mml s) then
    cfg .& u8 (Z.lnot PMP_W .| (if nz (cfg .& PMP_R) then PMP_W else 0)) else cfg in
  if negb (lg_pmp_granularity s =? PMP_SHIFT) && (cfg .& PMP_A =? PMP_NA4)
  then cfg .| PMP_NAPOT else cfg.

Definition cfg_write (s : pmp_state) (i c : Z) : pmp_state :=
  let e := entry s i in
  let rlb := get_rlb s in
  let locked := nz (cfg e .& PMP_L) in
  if rlb || negb locked then
    let c := legal_cfg s c in
    let cfgx := nz (c .& PMP_X) in
    let cfgw := nz (c .& PMP_W) in
    let cfgr := nz (c .& PMP_R) in
    if rlb || negb (get_mml s && (nz (c .& PMP_L) && negb (cfgx && cfgw && cfgr) && (cfgx || (cfgw && negb cfgr))))
    then set_entry s i (Pmpaddr (val e) c) else s
  else s.

(** The loop over the entries [i0 + k], ... of one configuration register. *)
Fixpoint pmpcfg_loop (s : pmp_state) (i0 v : Z) (n : nat) (k : Z) (write_success : bool) : bool * pmp_state :=
  match n with
  | O => (write_success, s)
  | S n =>
      if i0 + k <? n_pmp s
      then pmpcfg_loop (cfg_write s (i0 + k) (u8 (v .>> (8 * k)))) i0 v n (k + 1) true
      else pmpcfg_loop s i0 v n (k + 1) write_success
  end.

(** [pmpcfg<r>]: the entries from [4 * r] on. *)
Definition pmpcfg_write (s : pmp_state) (r v : Z) : bool * pmp_state :=
  if n_pmp s =? 0 then (false, s)
  else pmpcfg_loop s (4 * r) v (Z.to_nat (xlen s / 8)) 0 false.

Fixpoint pmpcfg_read_loop (s : pmp_state) (i0 : Z) (n : nat) (k cfg_res : Z) : Z :=
  match n with
  | O => cfg_res
  | S n =>
      if i0 + k <? max_pmp
      then pmpcfg_read_loop s i0 n (k + 1) (cfg_res .| (cfg (entry s (i0 + k)) .<< (8 * k)))
      else cfg_res
  end.

Definition pmpcfg_read (s : pmp_state) (r : Z) : Z :=
  pmpcfg_read_loop s (4 * r) (Z.to_nat (xlen s / 8)) 0 0.

Definition mseccfg_write (s : pmp_state) (v : Z) : bool * pmp_state :=
  if n_pmp s =? 0 then (false, s) else
  let pmplock_recorded := existsb (fun e => nz (cfg e .& PMP_L)) (take (Z.to_nat (n_pmp s)) (pmpaddr s)) in
  let new_val := mseccfg s in
  let new_val :=
    if negb (pmplock_recorded && (mseccfg s .& MSECCFG_RLB =? 0))
    then (new_val .& u64 (Z.lnot MSECCFG_RLB)) .| (v .& MSECCFG_RLB) else new_val in
  let new_val := new_val .| (v .& MSECCFG_MMWP) in
  let new_val := new_val .| (v .& MSECCFG_MML) in
  (true, set_mseccfg s new_val).
