(* ===== verification/PmpFacts.v ===== *)
(** * Spike: what the PMP matches and keeps

    The masks of the address registers denote regions ([match4_region]); the
    check of the MMU is a check byte by byte ([pmp_ok_allows]); a homogeneous
    page is one answer ([homogeneous_uniform]); writes keep the registers well
    formed and the locked ones fixed ([apply_writes_fixed]). *)

From stdpp Require Import base option list.
From S2P Require Import Prelude.
From S2P Require Import Arith.
From S2P Require Import Pmp.

(** ** Masks *)

Lemma land_high_mask x k : 0 <= x < 2 ^ 64 -> 0 <= k <= 64 -> x .& (2 ^ 64 - 2 ^ k) = x / 2 ^ k * 2 ^ k.
Proof.
  intros Hx Hk. assert (2 ^ 64 - 2 ^ k = u64 (Z.lnot (Z.ones k))) as ->.
  { rewrite Z.ones_equiv. unfold uwrap, Z.lnot. replace (Z.pred (- Z.pred (2 ^ k))) with (- 2 ^ k) by lia.
    pose proof (pow2_le k 64 ltac:(lia)). pose proof (pow2_pos k ltac:(lia)).
    destruct (Z.eq_dec k 64) as [->|]; [done|]. pose proof (pow2_lt k 64 ltac:(lia)).
    rewrite <- (Z_mod_plus_full _ 1), Z.mod_small; lia. }
  unfold uwrap. rewrite <- Z.land_ones, Z.land_assoc by lia.
  rewrite Z.land_ones, <- Z.ldiff_land, Z.ldiff_ones_r, Z.shiftr_div_pow2, Z.shiftl_mul_pow2 by lia.
  apply Z.mod_small. pose proof (pow2_pos k ltac:(lia)). pose proof (Z.mul_div_le x (2 ^ k) ltac:(lia)).
  pose proof (Z.div_pos x (2 ^ k)). nia.
Qed.

Lemma lnot_u64 x : 0 <= x < 2 ^ 64 -> u64 (Z.lnot x) = 2 ^ 64 - 1 - x.
Proof.
  intros Hx. unfold uwrap, Z.lnot. rewrite <- (Z_mod_plus_full _ 1), Z.mod_small; lia.
Qed.

(** The low ones of a number. *)
Fixpoint pones (p : positive) : Z :=
  match p with xI p => 1 + pones p | xH => 1 | xO _ => 0 end.
Definition trailing_ones (v : Z) : Z := match v with Zpos p => pones p | _ => 0 end.

Lemma trailing_ones_spec v : 0 <= v -> 0 <= trailing_ones v /\ exists q, 0 <= q /\ v = 2 ^ trailing_ones v * (2 * q + 1) - 1.
Proof.
  destruct v as [|p|p]; [intros _; split; [done|by exists 0]| |lia]. intros _. simpl.
  induction p as [p [IH1 (q & Hq & IH2)]|p [IH1 _]|]; simpl.
  - split; [lia|]. exists q. split; [done|]. rewrite Z.pow_add_r, Z.pow_1_r by lia. lia.
  - split; [lia|]. exists (Z.pos p). split; [lia|]. rewrite Z.pow_0_r. lia.
  - split; [lia|]. exists 0. rewrite Z.pow_1_r. lia.
Qed.

(** [m & ~(m + 1)] are the low ones. *)
Lemma land_lnot_succ m : 0 <= m < 2 ^ 64 - 1 -> m .& u64 (Z.lnot (u64 (m + 1))) = 2 ^ trailing_ones m - 1.
Proof.
  intros Hm. destruct (trailing_ones_spec m ltac:(lia)) as [Hk (q & Hq & E)]. set (k := trailing_ones m) in *.
  rewrite (uwrap_small _ (m + 1)) by lia. unfold uwrap. rewrite <- Z.land_ones, (Z.land_comm (Z.lnot _)), Z.land_assoc by lia.
  rewrite (Z.land_ones m 64), Z.mod_small by lia. rewrite <- Z.ldiff_land.
  transitivity (Z.ones k); [|rewrite Z.ones_equiv; lia]. apply Z.bits_inj'. intros n Hn. rewrite Z.ldiff_spec.
  pose proof (pow2_pos k Hk). destruct (Z.lt_ge_cases n k) as [Hnk|Hnk].
  - rewrite Z.ones_spec_low by lia. rewrite <- (Z.mod_pow2_bits_low m k) by lia. rewrite <- (Z.mod_pow2_bits_low (m + 1) k) by lia.
    replace (m + 1) with ((2 * q + 1) * 2 ^ k) by lia. rewrite Z.mod_mul, Z.bits_0 by lia.
    replace m with (2 ^ k - 1 + 2 * q * 2 ^ k) by lia. rewrite Z_mod_plus_full, Z.mod_small by lia.
    replace (2 ^ k - 1) with (Z.ones k) by (rewrite Z.ones_equiv; lia). by rewrite Z.ones_spec_low by lia.
  - rewrite Z.ones_spec_high by lia. replace n with (n - k + k) by lia. rewrite <- !Z.div_pow2_bits by lia.
    replace (m + 1) with ((2 * q + 1) * 2 ^ k) by lia. rewrite Z.div_mul by lia.
    replace m with (2 ^ k - 1 + 2 * q * 2 ^ k) by lia. rewrite Z.div_add, Z.div_small, Z.add_0_l by lia.
    destruct (Z.eq_dec (n - k) 0) as [->|]; [by rewrite !Z.bit0_odd, Z.odd_mul|].
    replace (n - k) with (Z.succ (n - k - 1)) by lia. rewrite Z.testbit_odd_succ, Z.testbit_even_succ by lia. apply andb_negb_r.
Qed.

Lemma xor_high_zero x y k : 0 <= x < 2 ^ 64 -> 0 <= y < 2 ^ 64 -> 0 <= k <= 64 ->
  (x .^ y) .& (2 ^ 64 - 2 ^ k) = 0 <-> x / 2 ^ k = y / 2 ^ k.
Proof.
  intros Hx Hy Hk. assert (0 <= x .^ y < 2 ^ 64) as Hr.
  { split; [apply Z.lxor_nonneg; lia|]. destruct (Z.eq_dec (x .^ y) 0) as [->|]; [lia|].
    assert (0 <= x .^ y) by (apply Z.lxor_nonneg; lia). apply Z.log2_lt_pow2; [lia|].
    pose proof (Z.log2_lxor x y ltac:(lia) ltac:(lia)).
    assert (forall z, 0 <= z < 2 ^ 64 -> Z.log2 z < 64) as Hl.
    { intros z Hz. destruct (Z.eq_dec z 0) as [->|]; [done|]. apply Z.log2_lt_pow2; lia. }
    pose proof (Hl x Hx). pose proof (Hl y Hy). lia. }
  rewrite land_high_mask by done. rewrite <- (shiftr_div x k), <- (shiftr_div y k), <- (shiftr_div (x .^ y) k) by lia.
  rewrite Z.shiftr_lxor. pose proof (pow2_pos k ltac:(lia)). rewrite <- (Z.lxor_eq_0_iff (x .>> k)), Z.mul_eq_0. lia.
Qed.

(** ** Regions *)

Definition entry_wf (lg : Z) (e : pmpaddr_csr_t) : Prop :=
  0 <= val e < 2 ^ (MAX_PADDR_BITS - PMP_SHIFT) /\ 0 <= cfg e < 256 /\ (cfg e .& PMP_A = PMP_NA4 -> lg = PMP_SHIFT).

Record pmp_wf (s : pmp_state) : Prop := {
  wf_length : length (pmpaddr s) = Z.to_nat max_pmp;
  wf_num : 0 <= n_pmp s <= max_pmp;
  wf_gran : PMP_SHIFT <= lg_pmp_granularity s <= 63;
  wf_entries : Forall (entry_wf (lg_pmp_granularity s)) (pmpaddr s);
  wf_mseccfg : 0 <= mseccfg s < 2 ^ 64
}.

Lemma wf_entry s i : pmp_wf s -> entry_wf (lg_pmp_granularity s) (entry s i).
Proof.
  intros Hwf. unfold entry. destruct (nth_in_or_default (Z.to_nat i) (pmpaddr s) (Pmpaddr 0 0)) as [Hin| ->]; [|done].
  pose proof (wf_entries s Hwf) as H. rewrite Forall_forall in H. by apply H, list_elem_of_In.
Qed.

Lemma wf_val s : pmp_wf s -> forall i, 0 <= val (entry s i) < 2 ^ (MAX_PADDR_BITS - PMP_SHIFT).
Proof. intros Hwf i. by apply wf_entry. Qed.

Lemma wf_na4 s : pmp_wf s -> forall i, cfg (entry s i) .& PMP_A = PMP_NA4 -> lg_pmp_granularity s = PMP_SHIFT.
Proof. intros Hwf i. by apply wf_entry. Qed.

(** The address in a register that bounds a range: its low bits do not count
    below the granularity. *)
Definition bound (s : pmp_state) (i : Z) : Z :=
  val (entry s i) / 2 ^ (lg_pmp_granularity s - 2) * 2 ^ lg_pmp_granularity s.

(** The addresses [lo <= a < hi] an entry matches, from the value software reads
    in its register. *)
Definition region (s : pmp_state) (i : Z) : option (Z * Z) :=
  let a := cfg (entry s i) .& PMP_A in
  let v := pmpaddr_read s i in
  if a =? 0 then None
  else if a =? PMP_TOR then Some (if i =? 0 then 0 else bound s (i - 1), bound s i)
  else if a =? PMP_NA4 then Some (4 * v, 4 * v + 4)
  else let size := 2 ^ (trailing_ones v + 3) in
       let lo := 4 * v / size * size in Some (lo, lo + size).

Definition in_region (r : option (Z * Z)) (addr : Z) : bool :=
  match r with None => false | Some (lo, hi) => (lo <=? addr) && (addr <? hi) end.

Section Match.
Context (s : pmp_state) (Hwf : pmp_wf s).
Local Notation G := (lg_pmp_granularity s - 2).

Lemma tor_mask_val : pmp_tor_mask s = 2 ^ 64 - 2 ^ G.
Proof.
  pose proof (wf_gran s Hwf). unfold PMP_SHIFT in *. unfold pmp_tor_mask, PMP_SHIFT. rewrite shiftl_mul, Z.mul_1_l by lia.
  pose proof (pow2_pos G ltac:(lia)). pose proof (pow2_lt G 64 ltac:(lia)). rewrite (uwrap_small _ (2 ^ G)) by lia.
  unfold uwrap. rewrite <- (Z_mod_plus_full _ 1), Z.mod_small; lia.
Qed.

Lemma val_range i : 0 <= val (entry s i) < 2 ^ 54.
Proof. exact (wf_val s Hwf i). Qed.

Lemma div_mul_le x k : 0 <= x -> 0 <= k -> 0 <= x / 2 ^ k * 2 ^ k <= x.
Proof.
  intros Hx Hk. pose proof (pow2_pos k Hk). pose proof (Z.mul_div_le x (2 ^ k) ltac:(lia)).
  pose proof (Z.div_pos x (2 ^ k)). nia.
Qed.

Lemma tor_paddr_val i : tor_paddr s i = bound s i.
Proof.
  pose proof (wf_gran s Hwf). unfold PMP_SHIFT in *. pose proof (val_range i).
  unfold tor_paddr, bound. rewrite tor_mask_val, land_high_mask by lia. unfold PMP_SHIFT. rewrite shiftl_mul by lia.
  pose proof (div_mul_le (val (entry s i)) G ltac:(lia) ltac:(lia)). rewrite uwrap_small by lia.
  rewrite <- Z.mul_assoc, <- Z.pow_add_r by lia. do 2 f_equal. lia.
Qed.

Lemma bound_range i : 0 <= bound s i < 2 ^ 56.
Proof.
  pose proof (wf_gran s Hwf). unfold PMP_SHIFT in *. pose proof (val_range i). unfold bound.
  pose proof (div_mul_le (val (entry s i)) G ltac:(lia) ltac:(lia)).
  assert (2 ^ lg_pmp_granularity s = 2 ^ G * 4) as -> by (change 4 with (2 ^ 2); rewrite <- (Z.pow_add_r 2 G 2) by lia; f_equal; lia). lia.
Qed.

Lemma lor_ones x k : 0 <= k -> x .| (2 ^ k - 1) = x / 2 ^ k * 2 ^ k + (2 ^ k - 1).
Proof.
  intros Hk. pose proof (Z.add_lor_land x (2 ^ k - 1)) as H. rewrite (land_mod x (2 ^ k - 1) k) in H by lia.
  pose proof (pow2_pos k Hk). pose proof (Z.div_mod x (2 ^ k)). lia.
Qed.

Lemma div_low x a b c : 0 <= a <= b -> 0 <= c < 2 ^ a -> (x / 2 ^ a * 2 ^ a + c) / 2 ^ b = x / 2 ^ b.
Proof.
  intros Hab Hc. replace b with (a + (b - a)) by lia. rewrite Z.pow_add_r by lia.
  pose proof (pow2_pos a ltac:(lia)). pose proof (pow2_pos (b - a) ltac:(lia)).
  rewrite <- !Z.div_div by lia. f_equal. rewrite Z.div_add_l by lia. rewrite (Z.div_small c) by lia. lia.
Qed.

(** The value software reads in a NAPOT register. *)
Local Notation J := (Z.max 0 (G - 1)).

Lemma not_tor_mask : u64 (Z.lnot (pmp_tor_mask s)) = 2 ^ G - 1.
Proof.
  pose proof (wf_gran s Hwf). unfold PMP_SHIFT in *. rewrite tor_mask_val.
  pose proof (pow2_pos G ltac:(lia)). pose proof (pow2_lt G 64 ltac:(lia)). rewrite lnot_u64 by lia. lia.
Qed.

Lemma read_napot i : cfg (entry s i) .& PMP_A = PMP_NAPOT ->
  pmpaddr_read s i = val (entry s i) / 2 ^ J * 2 ^ J + (2 ^ J - 1).
Proof.
  intros Hn. pose proof (wf_gran s Hwf). unfold PMP_SHIFT in *. unfold pmpaddr_read. rewrite Hn. change (PMP_NAPOT <=? PMP_NAPOT) with true.
  cbv iota. rewrite not_tor_mask. rewrite <- lor_ones by lia. f_equal. rewrite shiftr_div, Z.pow_1_r by lia.
  destruct (Z.eq_dec G 0) as [->|]; [done|]. rewrite Z.max_r by lia. rewrite (pow2_pred G) by lia.
  pose proof (pow2_pos (G - 1) ltac:(lia)). Z.div_mod_to_equations. lia.
Qed.

Lemma read_napot_range i : cfg (entry s i) .& PMP_A = PMP_NAPOT ->
  0 <= pmpaddr_read s i < 2 ^ 61 - 1 /\ J <= trailing_ones (pmpaddr_read s i) <= 60 /\
  pmpaddr_read s i / 2 ^ (trailing_ones (pmpaddr_read s i) + 1) = val (entry s i) / 2 ^ (trailing_ones (pmpaddr_read s i) + 1).
Proof.
  intros Hn. pose proof (read_napot i Hn) as E. pose proof (wf_gran s Hwf). unfold PMP_SHIFT in *. pose proof (val_range i) as Hv.
  pose proof (pow2_pos J ltac:(lia)). pose proof (div_mul_le (val (entry s i)) J ltac:(lia) ltac:(lia)).
  pose proof (pow2_le J 60 ltac:(lia)). set (r := pmpaddr_read s i) in *.
  destruct (trailing_ones_spec r ltac:(lia)) as [Ht (q & Hq & Er)]. set (t := trailing_ones r) in *.
  assert (t <= 60) as Ht60.
  { apply Z.lt_succ_r. apply (Z.pow_lt_mono_r_iff 2); [lia..|]. pose proof (pow2_pos t Ht). change (Z.succ 60) with 61. nia. }
  assert (J <= t) as HJt.
  { apply Z.nlt_ge. intros Hlt. assert (2 ^ J = 2 ^ t * 2 * 2 ^ (J - t - 1)) as EJ.
    { replace J with (t + 1 + (J - t - 1)) at 1 by lia. rewrite !Z.pow_add_r, Z.pow_1_r by lia. done. }
    pose proof (pow2_pos t Ht). assert (2 ^ t * (2 * q + 1) = 2 ^ t * (2 * ((val (entry s i) / 2 ^ J + 1) * 2 ^ (J - t - 1)))) as E' by nia.
    apply Z.mul_reg_l in E'; lia. }
  split; [lia|]. split; [lia|]. rewrite E. apply div_low; lia.
Qed.

(** The size of the region of a NA4 or NAPOT entry is [2 ^ napot_log]. *)
Definition napot_log (i : Z) : Z :=
  if cfg (entry s i) .& PMP_A =? PMP_NA4 then 2 else trailing_ones (pmpaddr_read s i) + 3.

Lemma A_cases c : c .& PMP_A = 0 \/ c .& PMP_A = PMP_TOR \/ c .& PMP_A = PMP_NA4 \/ c .& PMP_A = PMP_NAPOT.
Proof.
  assert (c .& PMP_A = (c / 8) mod 4 * 8) as ->.
  { change 8 with (2 ^ 3) at 2. rewrite <- shiftl_mul by lia. change 8 with (2 ^ 3). rewrite <- shiftr_div by lia.
    rewrite <- (land_mod _ 3 2) by lia. change PMP_A with (3 .<< 3). apply Z.bits_inj'. intros n Hn.
    rewrite Z.land_spec, !Z.shiftl_spec, Z.land_spec by lia. destruct (Z.lt_ge_cases n 3).
    - rewrite !(Z.testbit_neg_r _ (n - 3)) by lia. by rewrite andb_false_r.
    - rewrite Z.shiftr_spec by lia. by replace (n - 3 + 3) with n by lia. }
  unfold PMP_TOR, PMP_NA4, PMP_NAPOT. pose proof (Z.mod_pos_bound (c / 8) 4). lia.
Qed.

Lemma napot_log_range i : cfg (entry s i) .& PMP_A = PMP_NA4 \/ cfg (entry s i) .& PMP_A = PMP_NAPOT -> 2 <= napot_log i <= 63.
Proof.
  intros [E|E]; unfold napot_log; rewrite E; [rewrite Z.eqb_refl; lia|]. destruct (read_napot_range i E) as (_ & H & _).
  change (PMP_NAPOT =? PMP_NA4) with false. lia.
Qed.

Lemma napot_mask_val i : cfg (entry s i) .& PMP_A = PMP_NA4 \/ cfg (entry s i) .& PMP_A = PMP_NAPOT ->
  napot_mask s i = 2 ^ 64 - 2 ^ napot_log i.
Proof.
  intros Ha. pose proof (wf_gran s Hwf). unfold PMP_SHIFT in *. pose proof (val_range i) as Hv. pose proof (napot_log_range i Ha).
  unfold napot_mask. rewrite not_tor_mask, (shiftl_mul (val (entry s i)) 1), Z.pow_1_r, (uwrap_small _ (val (entry s i) * 2)) by lia.
  assert (exists m, (val (entry s i) * 2) .| b2z (negb (cfg (entry s i) .& PMP_A =? PMP_NA4)) .| (2 ^ G - 1) = m /\
    0 <= m < 2 ^ 64 - 1 /\ trailing_ones m + 2 = napot_log i) as (m & -> & Hm & Ht).
  { destruct Ha as [Ha|Ha].
    - pose proof (wf_na4 s Hwf i Ha) as EG. unfold PMP_SHIFT in EG. unfold napot_log. rewrite Ha, EG, Z.eqb_refl.
      change (2 ^ (2 - 2) - 1) with 0. simpl b2z. rewrite !Z.lor_0_r. eexists. split; [done|]. split; [lia|].
      rewrite Z.mul_comm. destruct (val (entry s i)) as [|p|p]; [done|done|lia].
    - destruct (read_napot_range i Ha) as (Hr & _). unfold napot_log. pose proof (read_napot i Ha) as Er. rewrite Ha.
      change (PMP_NAPOT =? PMP_NA4) with false. cbv iota. exists (2 * pmpaddr_read s i + 1). split; [|split; [lia|]].
      + rewrite lor_b2z by lia. rewrite Z.even_mul, orb_true_r. simpl b2z. rewrite lor_ones by lia. rewrite Er.
        destruct (Z.eq_dec G 0) as [->|]; [change (Z.max 0 (0 - 1)) with 0; rewrite !Z.pow_0_r, !Z.div_1_r; lia|].
        rewrite Z.max_r by lia. rewrite (pow2_pred G) by lia. pose proof (pow2_pos (G - 1) ltac:(lia)). rewrite <- (Z.div_div _ 2) by lia.
        replace ((val (entry s i) * 2 + 1) / 2) with (val (entry s i)) by (Z.div_mod_to_equations; lia). lia.
      + destruct (pmpaddr_read s i) as [|p|p]; [done| |lia]. change (2 * Z.pos p + 1) with (Z.pos p~1). simpl. lia. }
  rewrite land_lnot_succ by done. destruct (trailing_ones_spec m ltac:(lia)) as [Hk _]. rewrite <- Ht in *.
  set (k := trailing_ones m) in *. pose proof (pow2_pos k Hk). pose proof (pow2_lt k 62 ltac:(lia)).
  rewrite lnot_u64 by lia. replace (2 ^ 64 - 1 - (2 ^ k - 1)) with (2 ^ 64 - 2 ^ k) by lia. unfold PMP_SHIFT.
  rewrite shiftl_mul, Z.pow_add_r by lia. unfold uwrap. rewrite <- (Z_mod_plus_full _ (- 3)), Z.mod_small; lia.
Qed.

Lemma div_interval a b k : 0 <= k -> a / 2 ^ k = b / 2 ^ k <-> b / 2 ^ k * 2 ^ k <= a < b / 2 ^ k * 2 ^ k + 2 ^ k.
Proof.
  intros Hk. pose proof (pow2_pos k Hk) as Hp. pose proof (Z.div_mod a (2 ^ k) ltac:(lia)).
  pose proof (Z.mod_pos_bound a (2 ^ k) Hp). split; [intros <-; lia|]. intros Hr. nia.
Qed.

(** The region of such an entry, aligned to its size. *)
Lemma napot_region i : cfg (entry s i) .& PMP_A = PMP_NA4 \/ cfg (entry s i) .& PMP_A = PMP_NAPOT ->
  region s i = Some (bound s i / 2 ^ napot_log i * 2 ^ napot_log i, bound s i / 2 ^ napot_log i * 2 ^ napot_log i + 2 ^ napot_log i).
Proof.
  intros Ha. pose proof (wf_gran s Hwf). unfold PMP_SHIFT in *. pose proof (val_range i). unfold region, napot_log.
  destruct Ha as [Ha|Ha]; rewrite Ha.
  - rewrite Z.eqb_refl. change (PMP_NA4 =? 0) with false. change (PMP_NA4 =? PMP_TOR) with false. cbv iota.
    pose proof (wf_na4 s Hwf i Ha) as EG. unfold PMP_SHIFT in EG. unfold bound, pmpaddr_read. rewrite Ha, EG.
    change (PMP_NAPOT <=? PMP_NA4) with false. cbv iota. rewrite tor_mask_val, land_high_mask, EG by lia.
    change (2 ^ (2 - 2)) with 1. rewrite Z.div_1_r, Z.mul_1_r, Z.div_mul by lia. change (2 ^ 2) with 4.
    by rewrite (Z.mul_comm 4).
  - change (PMP_NAPOT =? 0) with false. change (PMP_NAPOT =? PMP_TOR) with false. change (PMP_NAPOT =? PMP_NA4) with false. cbv iota zeta.
    destruct (read_napot_range i Ha) as (Hr & Ht & Hdiv). set (t := trailing_ones (pmpaddr_read s i)) in *.
    assert (4 * pmpaddr_read s i / 2 ^ (t + 3) = bound s i / 2 ^ (t + 3)) as ->; [|done].
    replace (t + 3) with (2 + (t + 1)) by lia. rewrite Z.pow_add_r by lia. pose proof (pow2_pos (t + 1) ltac:(lia)).
    rewrite <- !Z.div_div by lia. change (2 ^ 2) with 4. rewrite (Z.mul_comm 4), Z.div_mul, Hdiv by lia. unfold bound.
    assert (2 ^ lg_pmp_granularity s = 2 ^ G * 4) as -> by (change 4 with (2 ^ 2); rewrite <- (Z.pow_add_r 2 G 2) by lia; f_equal; lia).
    rewrite Z.mul_assoc, Z.div_mul by lia. symmetry. rewrite <- (Z.add_0_r (_ * _)). pose proof (pow2_pos G ltac:(lia)).
    apply div_low; lia.
Qed.

(** [match4] decides membership in the region. *)
Lemma match4_region i addr : 0 <= addr < 2 ^ 64 -> match4 s i addr = in_region (region s i) addr.
Proof.
  intros Haddr. pose proof (bound_range i). unfold match4. destruct (A_cases (cfg (entry s i))) as [E|[E|Ha]].
  - unfold region. by rewrite E.
  - unfold region. rewrite E. change (PMP_TOR =? 0) with false. change (PMP_TOR =? PMP_TOR) with true. cbv iota. simpl.
    unfold tor_base_paddr. by rewrite !tor_paddr_val.
  - rewrite (napot_region i Ha). pose proof (napot_log_range i Ha). rewrite (napot_mask_val i Ha), tor_paddr_val.
    assert (cfg (entry s i) .& PMP_A =? 0 = false) as -> by (destruct Ha as [-> | ->]; done).
    assert (cfg (entry s i) .& PMP_A =? PMP_TOR = false) as -> by (destruct Ha as [-> | ->]; done).
    simpl. apply eq_true_iff_eq. rewrite andb_true_iff, Z.eqb_eq, Z.leb_le, Z.ltb_lt, xor_high_zero by lia. apply div_interval. lia.
Qed.
End Match.

(** ** The check, byte by byte *)

(** The region meets, or contains, the bytes from [lo] up to [hi]. *)
Definition meets (r : option (Z * Z)) (lo hi : Z) : bool :=
  match r with None => false | Some (a, b) => Z.max a lo <? Z.min b hi end.
Definition contains (r : option (Z * Z)) (lo hi : Z) : bool :=
  match r with None => false | Some (a, b) => (a <=? lo) && (hi <=? b) end.

(** The first of the entries [i], [i + 1], ... that meets the access decides. *)
Fixpoint first_match (s : pmp_state) (addr len : Z) (type : access_type) (mode : Z) (n : nat) (i : Z) : bool :=
  match n with
  | O => pmp_default s type mode
  | S n =>
      if meets (region s i) addr (addr + len)
      then contains (region s i) addr (addr + len) && access_ok s i type mode
      else first_match s addr len type mode n (i + 1)
  end.

Definition pmp_allows (s : pmp_state) (addr len : Z) (type : access_type) (mode : Z) : bool :=
  (n_pmp s =? 0) || first_match s addr len type mode (Z.to_nat (n_pmp s)) 0.

(** Accesses made of whole words, or inside one. *)
Definition word_access (addr len : Z) : Prop :=
  0 <= addr /\ 0 < len /\ addr + len <= 2 ^ 64 /\
  ((addr mod 4 = 0 /\ len mod 4 = 0) \/ addr mod 4 + len <= 4).

Lemma sectors_In len o : In o (sectors len) <-> exists k, 0 <= k /\ 4 * k < len /\ o = 4 * k.
Proof.
  unfold sectors. rewrite in_map_iff. change (1 .<< PMP_SHIFT) with 4. split.
  - intros (k & <- & Hk). apply in_seq in Hk. exists (Z.of_nat k). split; [lia|]. split; [|lia].
    Z.div_mod_to_equations. lia.
  - intros (k & Hk & Hlt & ->). exists (Z.to_nat k). split; [lia|]. apply in_seq. Z.div_mod_to_equations. lia.
Qed.

Section Check.
Context (s : pmp_state) (Hwf : pmp_wf s).

Lemma bound_mod i : bound s i mod 4 = 0.
Proof.
  pose proof (wf_gran s Hwf). unfold PMP_SHIFT in *. unfold bound.
  replace (lg_pmp_granularity s) with (lg_pmp_granularity s - 2 + 2) at 2 by lia. rewrite Z.pow_add_r by lia.
  rewrite Z.mul_assoc. apply Z.mod_mul. lia.
Qed.

Lemma region_mod i a b : region s i = Some (a, b) -> a mod 4 = 0 /\ b mod 4 = 0.
Proof.
  destruct (A_cases (cfg (entry s i))) as [E|[E|Ha]].
  - unfold region. by rewrite E.
  - unfold region. rewrite E. change (PMP_TOR =? 0) with false. change (PMP_TOR =? PMP_TOR) with true. cbv iota.
    intros [= <- <-]. split; [|apply bound_mod]. destruct (i =? 0); [done|apply bound_mod].
  - rewrite (napot_region s Hwf i Ha). pose proof (napot_log_range s Hwf i Ha). intros [= <- <-].
    set (K := napot_log s i) in *. replace K with (K - 2 + 2) by lia. rewrite (Z.pow_add_r 2 (K - 2) 2) by lia.
    rewrite Z.mul_assoc. change (2 ^ 2) with 4. split; [apply Z.mod_mul; lia|].
    rewrite <- Z.mul_add_distr_r. apply Z.mod_mul. lia.
Qed.

Lemma scan_matches i addr len : word_access addr len ->
  let matches := map (fun offset => match4 s i (u64 (addr + offset))) (sectors len) in
  existsb id matches = meets (region s i) addr (addr + len) /\
  (existsb id matches = true -> forallb id matches = contains (region s i) addr (addr + len)).
Proof.
  intros (Ha & Hl & Hend & Hw) matches.
  assert (forall b, In b matches <-> exists k, 0 <= k /\ 4 * k < len /\ b = in_region (region s i) (addr + 4 * k)) as Hin.
  { intros b. unfold matches. rewrite in_map_iff. split.
    - intros (o & <- & Ho). apply sectors_In in Ho as (k & Hk & Hlt & ->). exists k. split; [done|]. split; [done|].
      rewrite uwrap_small by lia. apply match4_region; [done|lia].
    - intros (k & Hk & Hlt & ->). exists (4 * k). split; [|apply sectors_In; by exists k].
      rewrite uwrap_small by lia. apply match4_region; [done|lia]. }
  destruct (region s i) as [[a b]|] eqn:Er; simpl in Hin |- *.
  2: { assert (existsb id matches = false) as ->; [|done]. apply not_true_is_false. intros He.
       apply existsb_exists in He as (x & Hx & Ht). apply Hin in Hx as (k & _ & _ & ->). done. }
  destruct (region_mod i a b Er) as [Hm1 Hm2].
  assert (existsb id matches = true <-> Z.max a addr < Z.min b (addr + len)) as He.
  { rewrite existsb_exists. split.
    - intros (x & Hx & Ht). apply Hin in Hx as (k & Hk & Hlt & ->). unfold id in Ht.
      rewrite andb_true_iff, Z.leb_le, Z.ltb_lt in Ht. Z.div_mod_to_equations. lia.
    - intros Hlt. exists true. split; [|done]. apply Hin.
      exists (if a <=? addr then 0 else (a - addr) / 4). destruct (Z.leb_spec a addr).
      + split; [lia|]. split; [lia|]. symmetry. rewrite andb_true_iff, Z.leb_le, Z.ltb_lt. lia.
      + split; [Z.div_mod_to_equations; lia|]. split; [Z.div_mod_to_equations; lia|].
        symmetry. rewrite andb_true_iff, Z.leb_le, Z.ltb_lt. Z.div_mod_to_equations. lia. }
  split; [apply eq_true_iff_eq; by rewrite He, Z.ltb_lt|]. rewrite He. intros Hlt.
  apply eq_true_iff_eq. rewrite forallb_forall, andb_true_iff, !Z.leb_le. split.
  - intros Hall. assert (a <= addr) as H0.
    { specialize (Hall (in_region (Some (a, b)) (addr + 4 * 0))). unfold id in Hall.
      rewrite Hin in Hall. simpl in Hall. rewrite andb_true_iff, Z.leb_le, Z.ltb_lt in Hall.
      destruct Hall as [Hall _]; [exists 0; split; [lia|split; [lia|done]]|lia]. }
    split; [done|]. set (k := (len - 1) / 4). specialize (Hall (in_region (Some (a, b)) (addr + 4 * k))). unfold id in Hall.
    rewrite Hin in Hall. simpl in Hall. rewrite andb_true_iff, Z.leb_le, Z.ltb_lt in Hall.
    destruct Hall as [_ Hall]; [exists k; unfold k; split; [Z.div_mod_to_equations; lia|split; [Z.div_mod_to_equations; lia|done]]|].
    unfold k in Hall. Z.div_mod_to_equations. lia.
  - intros [H1 H2] x Hx. apply Hin in Hx as (k & Hk & Hlt' & ->). unfold id. rewrite andb_true_iff, Z.leb_le, Z.ltb_lt. lia.
Qed.

Lemma scan_first addr len type mode : word_access addr len -> forall n i,
  pmp_scan s addr len type mode n i = first_match s addr len type mode n i.
Proof.
  intros Hw. induction n as [|n IH]; intros i; simpl; [done|].
  destruct (scan_matches i addr len Hw) as [H1 H2]. rewrite <- H1.
  destruct (existsb id _) eqn:He; [|apply IH]. rewrite H2 by done. by destruct (contains _ _ _).
Qed.

Lemma pmp_ok_allows addr len type mode : word_access addr len -> pmp_ok s addr len type mode = pmp_allows s addr len type mode.
Proof.
  intros Hw. unfold pmp_ok, pmp_allows. destruct (n_pmp s =? 0); [done|]. by apply scan_first.
Qed.
End Check.

(** ** Homogeneous pages *)

Section Homogeneous.
Context (s : pmp_state) (Hwf : pmp_wf s) (page k : Z) (Hk : 2 <= k <= 63).
Context (Hpage : 0 <= page) (Halign : page mod 2 ^ k = 0) (Hend : page + 2 ^ k <= 2 ^ 64).

(** All addresses of the page match the entry, or none. *)
Definition uniform (i : Z) : Prop := exists b, forall a, page <= a < page + 2 ^ k -> match4 s i a = b.

Lemma page_high x : page <= x < page + 2 ^ k -> x / 2 ^ k = page / 2 ^ k.
Proof.
  intros Hx. apply div_interval; [lia|]. pose proof (pow2_pos k ltac:(lia)). pose proof (Z.div_mod page (2 ^ k)). lia.
Qed.

Lemma page_div K a : 0 <= K -> k <= K -> page <= a < page + 2 ^ k -> a / 2 ^ K = page / 2 ^ K.
Proof.
  intros HK HkK Ha. replace K with (k + (K - k)) by lia. rewrite Z.pow_add_r by lia.
  pose proof (pow2_pos k ltac:(lia)). pose proof (pow2_pos (K - k) ltac:(lia)). rewrite <- !Z.div_div by lia.
  by rewrite page_high.
Qed.

Lemma page_not_crossed : (page .| 2 ^ k) .& u64 (2 ^ k - 1) = 0.
Proof.
  pose proof (pow2_pos k ltac:(lia)). pose proof (pow2_lt k 64 ltac:(lia)). rewrite uwrap_small by lia.
  rewrite (land_mod _ _ k) by lia. rewrite <- Z.land_ones, Z.land_lor_distr_l, !Z.land_ones by lia.
  by rewrite Halign, Z.mod_same by lia.
Qed.

Lemma subset_match_uniform i : exists r, subset_match s i page (2 ^ k) = Some r /\ (r = false -> uniform i).
Proof.
  pose proof (pow2_pos k ltac:(lia)) as Hp. pose proof (pow2_lt k 64 ltac:(lia)) as Hp64. unfold subset_match.
  rewrite page_not_crossed. change (nz 0) with false. destruct (Z.eqb_spec (2 ^ k) 0); [lia|]. cbn [orb].
  eexists. split; [done|]. pose proof (bound_range s Hwf i) as Hb.
  destruct (A_cases (cfg (entry s i))) as [E|[E|Ha]].
  - intros _. exists false. intros a _. unfold match4. by rewrite E.
  - rewrite E. change (PMP_TOR =? 0) with false. change (PMP_TOR =? PMP_TOR) with true. cbv iota.
    rewrite negb_false_iff, !orb_true_iff, andb_true_iff, !Z.ltb_lt, !Z.leb_le.
    assert (u64 (- 2 ^ k) = 2 ^ 64 - 2 ^ k) as ->.
    { unfold uwrap. rewrite <- (Z_mod_plus_full _ 1), Z.mod_small; lia. }
    assert (0 <= tor_base_paddr s i < 2 ^ 56) as Hbase.
    { unfold tor_base_paddr. destruct (i =? 0); [lia|]. rewrite tor_paddr_val by done. by apply bound_range. }
    assert (0 <= tor_paddr s i < 2 ^ 56) by (rewrite tor_paddr_val by done; done).
    rewrite !land_high_mask by lia. pose proof (Z.div_mod page (2 ^ k) ltac:(lia)).
    assert (forall x, page / 2 ^ k * 2 ^ k < x / 2 ^ k * 2 ^ k -> page + 2 ^ k <= x) as Hlt.
    { intros x Hx. pose proof (Z.div_mod x (2 ^ k) ltac:(lia)). pose proof (Z.mod_pos_bound x (2 ^ k) Hp).
      apply Z.mul_lt_mono_pos_r in Hx; [|done]. nia. }
    intros [[H1|H1]|[H1 H2]].
    + exists false. intros a Ha. pose proof (Hlt _ H1). unfold match4. rewrite E. change (PMP_TOR =? 0) with false. change (PMP_TOR =? PMP_TOR) with true.
      cbv iota. rewrite andb_false_iff, Z.leb_gt. lia.
    + exists false. intros a Ha. unfold match4. rewrite E. change (PMP_TOR =? 0) with false. change (PMP_TOR =? PMP_TOR) with true.
      cbv iota. rewrite andb_false_iff, Z.ltb_ge. lia.
    + exists true. intros a Ha. pose proof (Hlt _ H2). unfold match4. rewrite E. change (PMP_TOR =? 0) with false. change (PMP_TOR =? PMP_TOR) with true.
      cbv iota. rewrite andb_true_iff, Z.ltb_lt, Z.leb_le. lia.
  - pose proof (napot_log_range s Hwf i Ha) as HK. set (K := napot_log s i) in *.
    assert (cfg (entry s i) .& PMP_A =? 0 = false) as E0 by (destruct Ha as [-> | ->]; done).
    assert (cfg (entry s i) .& PMP_A =? PMP_TOR = false) as E1 by (destruct Ha as [-> | ->]; done).
    rewrite E0, E1, (napot_mask_val s Hwf i Ha), tor_paddr_val by done. fold K. cbv iota zeta.
    rewrite negb_false_iff, orb_true_iff, !nz_true.
    assert (forall a, 0 <= a < 2 ^ 64 -> match4 s i a = (a / 2 ^ K =? bound s i / 2 ^ K)) as Hm.
    { intros a Har. unfold match4. rewrite E0, E1, (napot_mask_val s Hwf i Ha), tor_paddr_val by done. fold K.
      apply eq_true_iff_eq. rewrite !Z.eqb_eq. apply xor_high_zero; lia. }
    assert (u64 (Z.lnot (u64 ((2 ^ 64 - 2 ^ K) .<< 1))) = 2 ^ (K + 1) - 1) as ->.
    { pose proof (pow2_pos K ltac:(lia)). pose proof (pow2_le K 63 ltac:(lia)). rewrite shiftl_mul, Z.pow_1_r by lia.
      assert (u64 ((2 ^ 64 - 2 ^ K) * 2) = 2 ^ 64 - 2 ^ (K + 1)) as ->.
      { unfold uwrap. rewrite pow2_succ by lia. rewrite <- (Z_mod_plus_full _ (- 1)), Z.mod_small; lia. }
      rewrite pow2_succ by lia. rewrite lnot_u64 by lia. lia. }
    destruct (Z.lt_ge_cases K k) as [HKk|HKk].
    + intros [Hmask|Hdiv].
      * exfalso. apply Hmask. rewrite Z.land_comm, (land_mod _ _ (K + 1)) by lia.
        replace k with (k - (K + 1) + (K + 1)) by lia. rewrite Z.pow_add_r by lia. apply Z.mod_mul.
        pose proof (pow2_pos (K + 1)). lia.
      * exists false. intros a Har. rewrite Hm by lia. apply Z.eqb_neq. intros Heq. apply Hdiv.
        rewrite <- shiftr_div, Z.shiftr_lxor, !shiftr_div by lia. apply Z.lxor_eq_0_iff. rewrite <- (page_high a Har).
        replace k with (K + (k - K)) by lia. rewrite Z.pow_add_r by lia.
        pose proof (pow2_pos K ltac:(lia)). pose proof (pow2_pos (k - K) ltac:(lia)). rewrite <- !Z.div_div by lia. by rewrite Heq.
    + intros _. exists (page / 2 ^ K =? bound s i / 2 ^ K). intros a Har. rewrite Hm by lia. by rewrite (page_div K) by lia.
Qed.

(** Every access inside a homogeneous page gets the same answer. *)
Lemma scan_uniform type mode : forall n i,
  (forall j, i <= j < i + Z.of_nat n -> uniform j) ->
  exists r, forall a l, page <= a -> 0 < l -> a + l <= page + 2 ^ k -> pmp_scan s a l type mode n i = r.
Proof.
  induction n as [|n IH]; intros i Hu; [by exists (pmp_default s type mode)|].
  destruct (Hu i ltac:(lia)) as [b Hb]. destruct (IH (i + 1)) as [r Hr]; [intros; apply Hu; lia|].
  exists (if b then access_ok s i type mode else r). intros a l Ha Hl Hin. simpl.
  assert (forall x, In x (map (fun offset => match4 s i (u64 (a + offset))) (sectors l)) <-> x = b) as Hx.
  { intros x. rewrite in_map_iff. split.
    - intros (o & <- & Ho). apply sectors_In in Ho as (j & Hj & Hlt & ->). rewrite uwrap_small by lia. apply Hb. lia.
    - intros ->. exists 0. split; [rewrite uwrap_small by lia; apply Hb; lia|]. apply sectors_In. exists 0. lia. }
  destruct b.
  - assert (existsb id (map (fun offset => match4 s i (u64 (a + offset))) (sectors l)) = true) as ->.
    { apply existsb_exists. exists true. by rewrite Hx. }
    assert (forallb id (map (fun offset => match4 s i (u64 (a + offset))) (sectors l)) = true) as ->; [|done].
    apply forallb_forall. intros x Hin'. apply Hx in Hin' as ->. done.
  - assert (existsb id (map (fun offset => match4 s i (u64 (a + offset))) (sectors l)) = false) as ->; [|by apply Hr].
    apply not_true_is_false. intros He. apply existsb_exists in He as (x & Hin' & Ht). by apply Hx in Hin' as ->.
Qed.

Lemma homogeneous_uniform : exists r, pmp_homogeneous s page (2 ^ k) = Some r /\
  (r = true -> forall j, 0 <= j < n_pmp s -> uniform j).
Proof.
  unfold pmp_homogeneous. rewrite page_not_crossed. change (nz 0) with false. cbv iota.
  pose proof (wf_num s Hwf). assert (forall n i, 0 <= i -> exists r, homogeneous_scan s page (2 ^ k) n i = Some r /\
    (r = true -> forall j, i <= j < i + Z.of_nat n -> uniform j)) as Hscan.
  { induction n as [|n IH]; intros i Hi; simpl; [exists true; split; [done|]; intros _ j Hj; lia|].
    destruct (subset_match_uniform i) as (r & -> & Hr). simpl. destruct r; [by exists false|].
    destruct (IH (i + 1) ltac:(lia)) as (r' & -> & Hr'). exists r'. split; [done|]. intros -> j Hj.
    destruct (Z.eq_dec j i) as [->|]; [by apply Hr|]. apply Hr'; [done|lia]. }
  destruct (Hscan (Z.to_nat (n_pmp s)) 0 ltac:(lia)) as (r & E & Hr). exists r. split; [done|]. intros -> j Hj.
  apply Hr; [done|lia].
Qed.
End Homogeneous.

(** ** Sequences of register writes *)

Inductive pmp_write : Type :=
| WAddr (i v : Z)    (** [pmpaddr<i>] *)
| WCfg (r v : Z)     (** [pmpcfg<r>] *)
| WSec (v : Z).      (** [mseccfg] *)

Definition apply_write (s : pmp_state) (w : pmp_write) : pmp_state :=
  match w with
  | WAddr i v => (pmpaddr_write s i v).2
  | WCfg r v => (pmpcfg_write s r v).2
  | WSec v => (mseccfg_write s v).2
  end.

Definition apply_writes (s : pmp_state) (ws : list pmp_write) : pmp_state := fold_left apply_write ws s.

Definition valid_write (w : pmp_write) : Prop :=
  match w with
  | WAddr i v => 0 <= i < max_pmp /\ 0 <= v < 2 ^ 64
  | WCfg r v => 0 <= r /\ 0 <= v < 2 ^ 64
  | WSec v => 0 <= v < 2 ^ 64
  end.

Lemma entry_set s i e j : 0 <= i < Z.of_nat (length (pmpaddr s)) -> 0 <= j ->
  entry (set_entry s i e) j = if j =? i then e else entry s j.
Proof.
  intros Hi Hj. unfold entry, set_entry. simpl. destruct (Z.eqb_spec j i) as [->|Hne].
  - apply nth_lookup_Some. rewrite list_lookup_insert_eq by lia. done.
  - rewrite !nth_lookup, list_lookup_insert_ne by lia. done.
Qed.

(** A step changes entries one at a time. *)
Inductive changes (P : pmp_state -> Z -> pmpaddr_csr_t -> Prop) : pmp_state -> pmp_state -> Prop :=
| ch_refl s : changes P s s
| ch_step s i e s' : 0 <= i < n_pmp s -> P s i e -> changes P (set_entry s i e) s' -> changes P s s'.

Definition cfg_change (s : pmp_state) (i : Z) (e : pmpaddr_csr_t) : Prop :=
  val e = val (entry s i) /\ (get_rlb s = true \/ cfg (entry s i) .& PMP_L = 0) /\
  exists c, 0 <= c < 256 /\ cfg e = legal_cfg s c.

Lemma pmpcfg_loop_changes n : forall s i0 v k b, 0 <= i0 + k -> 0 <= k -> 0 <= v < 2 ^ 64 ->
  changes cfg_change s (pmpcfg_loop s i0 v n k b).2.
Proof.
  induction n as [|n IH]; intros s i0 v k b Hi Hk Hv; simpl; [constructor|].
  destruct (Z.ltb_spec (i0 + k) (n_pmp s)) as [Hlt|]; [|apply IH; lia].
  unfold cfg_write. destruct (get_rlb s || negb (nz (cfg (entry s (i0 + k)) .& PMP_L))) eqn:Hl; [|apply IH; lia].
  destruct (get_rlb s || negb (get_mml s && _)) eqn:Hx; [|apply IH; lia].
  eapply ch_step; [split; [exact Hi|exact Hlt]| |apply IH; lia]. split; [done|]. split.
  - apply orb_true_iff in Hl as [Hl|Hl]; [by left|right]. by rewrite negb_true_iff, nz_false in Hl.
  - eexists. split; [|done]. apply uwrap_range. lia.
Qed.

(** *** Well-formedness *)

Lemma land_small x m k : 0 <= k -> 0 <= m < 2 ^ k -> 0 <= x .& m < 2 ^ k.
Proof. intros Hk Hm. pose proof (land_le_r x m ltac:(lia)). lia. Qed.

Lemma legal_cfg_ok s c : 0 <= c < 256 ->
  0 <= legal_cfg s c < 256 /\ (legal_cfg s c .& PMP_A = PMP_NA4 -> lg_pmp_granularity s = PMP_SHIFT).
Proof.
  intros Hc. unfold legal_cfg.
  set (c1 := c .& (PMP_R .| PMP_W .| PMP_X .| PMP_A .| PMP_L)).
  set (c2 := if negb (get_mml s) then _ else c1).
  assert (0 <= c2 < 256) as H2.
  { assert (0 <= c1 < 256) as H1 by (apply (land_small c _ 8); [lia|done]).
    unfold c2. destruct (negb (get_mml s)); [|done]. apply (land_small c1 _ 8); [lia|]. apply uwrap_range. lia. }
  destruct (Z.eqb_spec (lg_pmp_granularity s) PMP_SHIFT) as [E|E]; [done|]. cbn [negb andb].
  destruct (Z.eqb_spec (c2 .& PMP_A) PMP_NA4) as [Ea|Ea]; [|by split].
  assert (c2 .| PMP_NAPOT = c2 + 8) as ->.
  { pose proof (Z.add_lor_land c2 PMP_NAPOT) as H. change PMP_NAPOT with PMP_A in H |- *. rewrite Ea in H.
    unfold PMP_A, PMP_NA4 in *. lia. }
  assert (exists q, c2 = q) as [q Eq] by (by eexists).
  rewrite Eq in *. clear -H2 Ea.
  assert (forall x, 0 <= x < 256 -> x .& PMP_A = PMP_NA4 -> x + 8 < 256 /\ (x + 8) .& PMP_A <> PMP_NA4) as H.
  { intros x Hx. assert (forallb (fun n => let x := Z.of_nat n in
      negb (x .& PMP_A =? PMP_NA4) || ((x + 8 <? 256) && negb ((x + 8) .& PMP_A =? PMP_NA4))) (seq 0 256) = true) as Hall by (vm_compute; done).
    rewrite forallb_forall in Hall. specialize (Hall (Z.to_nat x) ltac:(apply in_seq; lia)). cbv zeta in Hall. rewrite Z2Nat.id in Hall by lia.
    intros E. rewrite E, Z.eqb_refl in Hall. simpl in Hall. apply andb_true_iff in Hall as [H1 H3].
    apply Z.ltb_lt in H1. apply negb_true_iff, Z.eqb_neq in H3. done. }
  destruct (H q H2 Ea). split; [lia|done].
Qed.

Lemma set_entry_wf s i e : pmp_wf s -> entry_wf (lg_pmp_granularity s) e -> pmp_wf (set_entry s i e).
Proof.
  intros [H1 H2 H3 H4 H5] He. constructor; simpl; try done; [by rewrite length_insert|]. by apply Forall_insert.
Qed.

Lemma changes_wf s s' : changes cfg_change s s' -> pmp_wf s -> pmp_wf s' /\
  n_pmp s' = n_pmp s /\ lg_pmp_granularity s' = lg_pmp_granularity s /\ mseccfg s' = mseccfg s /\ xlen s' = xlen s.
Proof.
  induction 1 as [s|s i e s' Hi (Hv & _ & c & Hc & Hcfg) _ IH]; [done|]. intros Hwf. apply IH.
  apply set_entry_wf; [done|]. destruct (legal_cfg_ok s c Hc) as [H1 H2]. unfold entry_wf. rewrite Hv, Hcfg.
  split; [by apply wf_val|]. by split.
Qed.

Lemma mseccfg_wf s v : pmp_wf s -> 0 <= v < 2 ^ 64 -> pmp_wf (mseccfg_write s v).2.
Proof.
  intros Hwf Hv. unfold mseccfg_write. destruct (n_pmp s =? 0); [done|]. destruct Hwf as [H1 H2 H3 H4 H5].
  constructor; try done. simpl.
  assert (forall x y, 0 <= x < 2 ^ 64 -> 0 <= y < 2 ^ 64 -> 0 <= x .| y < 2 ^ 64) as Hor.
  { intros x y Hx Hy. split; [apply Z.lor_nonneg; lia|]. rewrite <- (Z.mod_small x (2 ^ 64)), <- (Z.mod_small y (2 ^ 64)) by done.
    rewrite <- !Z.land_ones, <- Z.land_lor_distr_l, Z.land_ones by lia. apply Z.mod_pos_bound. lia. }
  assert (forall m, 0 <= m < 2 ^ 64 -> forall x, 0 <= x .& m < 2 ^ 64) as Hand by (intros m Hm x; by apply land_small).
  apply Hor; [|by apply Hand]. apply Hor; [|by apply Hand].
  destruct (negb _); [|done]. apply Hor; [apply Hand, uwrap_range; lia|by apply Hand].
Qed.

Lemma apply_write_wf s w : pmp_wf s -> valid_write w -> pmp_wf (apply_write s w).
Proof.
  intros Hwf Hv. destruct w as [i v|r v|v]; simpl in Hv |- *.
  - unfold pmpaddr_write. destruct (n_pmp s =? 0); [done|]. destruct (_ && _); [|done]. apply set_entry_wf; [done|].
    destruct (wf_entry s i Hwf) as (H1 & H2 & H3). split; [|by split]. simpl.
    apply (land_small v _ (MAX_PADDR_BITS - PMP_SHIFT)); done.
  - unfold pmpcfg_write. destruct (n_pmp s =? 0); [done|].
    apply (changes_wf s); [|done]. apply pmpcfg_loop_changes; lia.
  - apply mseccfg_wf; [done|lia].
Qed.

(** *** Locked entries *)

Definition locked (s : pmp_state) (i : Z) : Prop :=
  0 <= i < n_pmp s /\ get_rlb s = false /\ cfg (entry s i) .& PMP_L <> 0.

(** What a lock on [i] fixes: the entry, the bound below it when it is a range,
    and the lock itself. *)
Definition fixed (s s' : pmp_state) (i : Z) : Prop :=
  locked s' i /\ entry s' i = entry s i /\
  (cfg (entry s i) .& PMP_A = PMP_TOR -> 0 < i -> val (entry s' (i - 1)) = val (entry s (i - 1))).

Lemma changes_fixed s s' i : changes cfg_change s s' -> pmp_wf s -> locked s i -> fixed s s' i.
Proof.
  intros Hch. revert i. induction Hch as [s|s j e s' Hj (Hv & Hor & c & Hc & Hcfg) Hch IH]; intros i Hwf Hl; [by split|].
  pose proof Hl as (Hi & Hrlb & HL). pose proof (wf_length s Hwf) as Hlen. pose proof (wf_num s Hwf). unfold max_pmp in *.
  assert (i <> j) as Hne by (intros ->; destruct Hor; congruence).
  assert (forall x, 0 <= x -> entry (set_entry s j e) x = if x =? j then e else entry s x) as He by (intros; apply entry_set; lia).
  assert (entry (set_entry s j e) i = entry s i) as Ei by (rewrite He by lia; by destruct (Z.eqb_spec i j)).
  destruct (IH i) as (H1 & H2 & H3).
  - apply set_entry_wf; [done|]. destruct (legal_cfg_ok s c Hc). unfold entry_wf. rewrite Hv, Hcfg. split; [by apply wf_val|by split].
  - unfold locked. rewrite Ei. done.
  - split; [done|]. rewrite Ei in H2, H3. split; [done|]. intros Ht Hpos. rewrite H3 by done. rewrite He by lia.
    destruct (Z.eqb_spec (i - 1) j) as [<-|]; [done|done].
Qed.

Lemma apply_write_fixed s w i : pmp_wf s -> valid_write w -> locked s i -> fixed s (apply_write s w) i.
Proof.
  intros Hwf Hv Hl. assert (fixed s s i) as Hsame by (by split). pose proof Hl as (Hi & Hrlb & HL).
  pose proof (wf_length s Hwf) as Hlen. pose proof (wf_num s Hwf). unfold max_pmp in *. destruct w as [j v|r v|v]; simpl in Hv |- *.
  - unfold pmpaddr_write. destruct (n_pmp s =? 0); [done|]. rewrite Hrlb. cbn [negb andb].
    destruct (Z.ltb_spec j (n_pmp s)); [|done]. destruct (nz (cfg (entry s j) .& PMP_L)) eqn:Hlj; [done|].
    destruct (next_locked_and_tor s j) eqn:Hn; [done|]. cbn [negb andb snd].
    assert (forall e x, 0 <= x -> entry (set_entry s j e) x = if x =? j then e else entry s x) as He by (intros; apply entry_set; unfold max_pmp in *; lia).
    assert (i <> j) as Hne by (intros ->; apply nz_false in Hlj; done).
    unfold fixed, locked. rewrite !He by lia. destruct (Z.eqb_spec i j); [done|]. split; [done|]. split; [done|].
    intros Ht Hpos. rewrite He by lia. destruct (Z.eqb_spec (i - 1) j) as [<-|]; [|done]. exfalso. revert Hn.
    unfold next_locked_and_tor. replace (i - 1 + 1) with i by lia. unfold max_pmp. destruct (Z.leb_spec 64 i); [lia|].
    rewrite Hrlb, Ht, Z.eqb_refl. apply nz_true in HL. by rewrite HL.
  - unfold pmpcfg_write. destruct (n_pmp s =? 0); [done|]. apply changes_fixed; [|done|done]. apply pmpcfg_loop_changes; lia.
  - unfold mseccfg_write. destruct (n_pmp s =? 0); [done|]. cbn [snd]. split; [|done]. split; [done|]. split; [|done].
    unfold get_rlb in Hrlb |- *. apply nz_false in Hrlb. rewrite Hrlb, Z.eqb_refl, andb_true_r.
    assert (existsb (fun e => nz (cfg e .& PMP_L)) (take (Z.to_nat (n_pmp s)) (pmpaddr s)) = true) as ->.
    { apply existsb_exists. exists (entry s i). split; [|by apply nz_true].
      apply list_elem_of_In, list_elem_of_lookup. exists (Z.to_nat i). rewrite lookup_take_lt by lia.
      unfold entry. destruct (lookup_lt_is_Some_2 (pmpaddr s) (Z.to_nat i)) as [x Hx]; [lia|]. rewrite Hx. f_equal. symmetry.
      by apply nth_lookup_Some. }
    cbn [negb]. apply nz_false. simpl mseccfg. rewrite !Z.land_lor_distr_l, <- !Z.land_assoc, Hrlb.
    change (MSECCFG_MMWP .& MSECCFG_RLB) with 0. change (MSECCFG_MML .& MSECCFG_RLB) with 0. by rewrite !Z.land_0_r.
Qed.

Lemma apply_writes_fixed ws : forall s i, pmp_wf s -> Forall valid_write ws -> locked s i -> fixed s (apply_writes s ws) i.
Proof.
  induction ws as [|w ws IH]; intros s i Hwf Hv Hl; [by split|]. inversion Hv; subst.
  destruct (apply_write_fixed s w i) as (F1 & F2 & F3); [done..|].
  destruct (IH (apply_write s w) i) as (F4 & F5 & F6); [by apply apply_write_wf|done|done|].
  split; [done|]. change (apply_writes s (w :: ws)) with (apply_writes (apply_write s w) ws).
  split; [by rewrite F5|]. intros Ht Hpos. rewrite F6 by (by rewrite ?F2). by apply F3.
Qed.

Lemma apply_writes_wf ws : forall s, pmp_wf s -> Forall valid_write ws -> pmp_wf (apply_writes s ws).
Proof.
  induction ws as [|w ws IH]; intros s Hwf Hv; [done|]. inversion Hv; subst. apply IH; [by apply apply_write_wf|done].
Qed.
