(* ===== verification/PmpTheorems.v ===== *)
(** * Spike: theorems about physical memory protection *)

From stdpp Require Import base option list.
From S2P Require Import Prelude.
From S2P Require Import Arith.
From S2P Require Import Pmp.
From S2P Require Import PmpFacts.

(** ** Permissions with machine-mode lockdown *)

(** Who may do what, by the table of the Smepmp specification. *)
Inductive rights : Type := NoAccess | ReadOnly | ReadWrite | ExecOnly | ReadExec | AnyAccess.

Definition grants (r : rights) (type : access_type) : bool :=
  match r, type with
  | NoAccess, _ => false
  | ReadOnly, LOAD => true
  | ReadWrite, (LOAD | STORE) => true
  | ExecOnly, FETCH => true
  | ReadExec, (LOAD | FETCH) => true
  | AnyAccess, _ => true
  | _, _ => false
  end.

Definition plain (r w x : bool) : rights :=
  match r, w, x with
  | true, true, true => AnyAccess
  | true, true, false => ReadWrite
  | true, false, true => ReadExec
  | true, false, false => ReadOnly
  | false, _, true => ExecOnly
  | false, _, false => NoAccess
  end.

(** The rights of machine mode and of the other modes under [mseccfg.MML]. *)
Definition mml_rights (l r w x : bool) : rights * rights :=
  match l, r, w, x with
  | false, false, true, false => (ReadWrite, ReadOnly)
  | false, false, true, true => (ReadWrite, ReadWrite)
  | true, false, true, false => (ExecOnly, ExecOnly)
  | true, false, true, true => (ReadExec, ExecOnly)
  | true, true, true, true => (ReadOnly, ReadOnly)
  | false, r, w, x => (NoAccess, plain r w x)
  | true, r, w, x => (plain r w x, NoAccess)
  end.

Definition cfg_rights (s : pmp_state) (i mode : Z) (type : access_type) : bool :=
  let c := cfg (entry s i) in
  let l := nz (c .& PMP_L) in let r := nz (c .& PMP_R) in let w := nz (c .& PMP_W) in let x := nz (c .& PMP_X) in
  if get_mml s then
    let '(m, su) := mml_rights l r w x in grants (if mode =? PRV_M then m else su) type
  else if (mode =? PRV_M) && negb l then true
  else match type with LOAD => r | STORE => w | FETCH => x end.

(** The permissions of an entry are those of the architecture: without
    [mseccfg.MML] an unlocked entry does not bind machine mode and any other
    access needs its bit; with it, the four configuration bits mean what the
    table of the Smepmp specification says, for machine mode and the others. *)
Theorem access_ok_table s i type mode : access_ok s i type mode = cfg_rights s i mode type.
Proof.
  unfold access_ok, cfg_rights. destruct (nz (_ .& PMP_L)), (nz (_ .& PMP_R)), (nz (_ .& PMP_W)), (nz (_ .& PMP_X)), (get_mml s), (mode =? PRV_M), type; reflexivity.
Qed.

(** ** Theorems *)

Definition demo_pmp (cfgs : list pmpaddr_csr_t) : pmp_state :=
  PmpState (cfgs ++ replicate (64 - length cfgs) (Pmpaddr 0 0)) 16 2 0 64.

Lemma demo_pmp_wf cfgs : (length cfgs <= 64)%nat -> Forall (entry_wf 2) cfgs -> pmp_wf (demo_pmp cfgs).
Proof.
  intros Hl Hc. constructor; simpl; unfold max_pmp, PMP_SHIFT; try lia.
  - rewrite length_app, length_replicate. lia.
  - apply Forall_app. split; [done|]. apply Forall_replicate. by vm_compute.
Qed.

(** A locked read-only range below [0x80000400] and a 16-byte read-write region. *)
Definition demo_entries : list pmpaddr_csr_t :=
  [Pmpaddr (0x80000000 .>> 2) 0; Pmpaddr (0x80000400 .>> 2) (PMP_L .| PMP_TOR .| PMP_R);
   Pmpaddr ((0x80001000 .>> 2) .| 1) (PMP_NAPOT .| PMP_R .| PMP_W)].

Lemma demo_entries_wf : pmp_wf (demo_pmp demo_entries).
Proof.
  apply demo_pmp_wf; [vm_compute; lia|].
  repeat constructor; try (split; by vm_compute); try (by vm_compute); intros H; by vm_compute in H.
Qed.

(** C14: The check is that of the architecture.  An access made of whole words, or
    inside one word, is decided by the lowest-numbered entry whose region (as
    software reads it from the address register, or between the bounds of a
    range) holds any of its bytes: it must hold all of them, and its permissions
    decide; without such an entry machine mode decides.  Addresses near the top
    of the space and every granularity are included. *)
Theorem pmp_ok_correct s addr len type mode :
  pmp_wf s -> word_access addr len -> pmp_ok s addr len type mode = pmp_allows s addr len type mode.
Proof. intros Hwf Hw. by apply pmp_ok_allows. Qed.

Lemma pmp_ok_correct_witness :
  pmp_ok (demo_pmp demo_entries) 0x80001008 8 STORE PRV_U = true /\
  pmp_ok (demo_pmp demo_entries) 0x8000100c 8 STORE PRV_U = false /\
  pmp_ok (demo_pmp demo_entries) 0x800003fc 4 STORE PRV_M = false.
Proof.
  assert (forall a l, (a mod 4 =? 0) && (l mod 4 =? 0) && (0 <=? a) && (0 <? l) && (a + l <=? 2 ^ 64) = true -> word_access a l) as Hw.
  { intros a l H. rewrite !andb_true_iff, !Z.eqb_eq, !Z.leb_le, Z.ltb_lt in H. unfold word_access. lia. }
  split; [|split]; (rewrite (pmp_ok_correct _ _ _ _ _ demo_entries_wf); [by vm_compute|by apply Hw]).
Defined.

(** A two-byte-aligned word across the end of a region: only its first byte is
    compared, so it passes where the architecture wants a fault. *)
Theorem pmp_misaligned_escapes :
  pmp_wf (demo_pmp demo_entries) /\
  pmp_ok (demo_pmp demo_entries) 0x8000100e 4 STORE PRV_U = true /\
  pmp_allows (demo_pmp demo_entries) 0x8000100e 4 STORE PRV_U = false.
Proof. split; [exact demo_entries_wf|]. split; by vm_compute. Qed.

(** A page that [pmp_homogeneous] accepts can be cached.  For an aligned page of
    [2 ^ k] bytes the test neither aborts nor divides by zero, and when it holds
    every access inside the page, of any size and alignment, gets the same
    answer for a type and a mode. *)
Theorem homogeneous_sound s page k :
  pmp_wf s -> 2 <= k <= 63 -> 0 <= page -> page mod 2 ^ k = 0 -> page + 2 ^ k <= 2 ^ 64 ->
  exists r, pmp_homogeneous s page (2 ^ k) = Some r /\
    (r = true -> forall type mode, exists ok, forall a l, page <= a -> 0 < l -> a + l <= page + 2 ^ k -> pmp_ok s a l type mode = ok).
Proof.
  intros Hwf Hk Hp Hal Hend. destruct (homogeneous_uniform s Hwf page k Hk Hp Hal Hend) as (r & E & Hu).
  exists r. split; [done|]. intros -> type mode. unfold pmp_ok. destruct (n_pmp s =? 0); [by exists true|].
  pose proof (wf_num s Hwf). apply (scan_uniform s page k); try done. intros j Hj. apply Hu; [done|lia].
Qed.

Lemma homogeneous_sound_witness :
  pmp_homogeneous (demo_pmp demo_entries) 0x80002000 (2 ^ 12) = Some true /\
  pmp_homogeneous (demo_pmp demo_entries) 0x80001000 (2 ^ 12) = Some false /\
  exists ok, forall a l, 0x80002000 <= a -> 0 < l -> a + l <= 0x80003000 -> pmp_ok (demo_pmp demo_entries) a l LOAD PRV_U = ok.
Proof.
  destruct (homogeneous_sound (demo_pmp demo_entries) 0x80002000 12 demo_entries_wf ltac:(lia) ltac:(lia) eq_refl ltac:(by vm_compute)) as (r & E & H).
  assert (r = true) as -> by (vm_compute in E; congruence).
  split; [exact E|]. split; [by vm_compute|]. destruct (H eq_refl LOAD PRV_U) as (ok & Hok). exists ok. exact Hok.
Defined.

(** C32: Locks hold.  Any sequence of writes to the address, configuration and security
    registers keeps the registers well formed, and while [mseccfg.RLB] is clear a
    locked entry keeps its address and configuration, a locked range also the
    bound below it, and [RLB] stays clear. *)
Theorem pmp_locks s ws i :
  pmp_wf s -> Forall valid_write ws -> locked s i ->
  pmp_wf (apply_writes s ws) /\ fixed s (apply_writes s ws) i.
Proof. intros Hwf Hv Hl. split; [by apply apply_writes_wf|by apply apply_writes_fixed]. Qed.

Lemma pmp_locks_witness :
  let s := apply_writes (demo_pmp demo_entries) [WSec 7; WCfg 0 0; WAddr 0 5; WAddr 1 5; WAddr 3 9] in
  locked s 1 /\ entry s 1 = Pmpaddr (0x80000400 .>> 2) (PMP_L .| PMP_TOR .| PMP_R) /\ val (entry s 0) = 0x80000000 .>> 2 /\
  entry s 3 = Pmpaddr 9 0.
Proof.
  destruct (pmp_locks (demo_pmp demo_entries) [WSec 7; WCfg 0 0; WAddr 0 5; WAddr 1 5; WAddr 3 9] 1 demo_entries_wf) as (_ & H1 & H2 & H3).
  - repeat constructor; by vm_compute.
  - split; [split; by vm_compute|]. split; by vm_compute.
  - split; [exact H1|]. split; [exact H2|]. split; [apply H3; by vm_compute|by vm_compute].
Defined.
