(* ===== verification/Devices.v ===== *)
(** * Spike: memories, the bus and the simulator's memory interface

    Model of [mem_t], [bus_t] and [rom_device_t] ([src/riscv-isa-sim/riscv/devices.cc],
    [rom.cc]) and of the part of [sim_t] through which the processors reach them
    ([addr_to_mem], [mmio_load], [mmio_store] of [sim.cc]).

    A host pointer into a memory is a page of the memory and an offset in it; a
    [memcpy] that leaves the page is undefined ([None]).  Every device is on the
    bus at one address, so the bus holds the devices themselves. *)

From stdpp Require Import base option list gmap.
From S2P Require Import Prelude.
From S2P Require Import Pmp.

Definition PGSHIFT : Z := 12.
Definition PGSIZE : Z := 1 .<< PGSHIFT.

(** ** The interface of a device

    [load] gives the bytes, or nothing when it refuses; [store] whether it
    accepted.  Both can change the device. *)

Class Device (D : Type) : Type := {
  dev_load : D -> Z -> Z -> option (list Z) * D;
  dev_store : D -> Z -> list Z -> bool * D
}.

(** ** Memory *)

Record mem_t : Type := MemT { sparse_memory_map : gmap Z (list Z); sz : Z }.

(** [None] where the constructor throws. *)
Definition mem_new (size : Z) : option mem_t :=
  if (size =? 0) || negb (size mod PGSIZE =? 0) then None else Some (MemT ∅ size).

(** A host pointer: the page and the offset. *)
Definition ptr : Type := (Z * Z)%type.

(** A page from [calloc], which always succeeds. *)
Definition zero_page : list Z := replicate (Z.to_nat PGSIZE) 0.

Definition contents (m : mem_t) (addr : Z) : mem_t * ptr :=
  let ppn := addr .>> PGSHIFT in
  let pgoff := addr mod PGSIZE in
  match sparse_memory_map m !! ppn with
  | None => (MemT (<[ppn := zero_page]> (sparse_memory_map m)) (sz m), (ppn, pgoff))
  | Some _ => (m, (ppn, pgoff))
  end.

(** [memcpy] from and to a page. *)
Definition copy_from (m : mem_t) (p : ptr) (n : Z) : option (list Z) :=
  page ← sparse_memory_map m !! p.1;
  if p.2 + n <=? PGSIZE then Some (take (Z.to_nat n) (drop (Z.to_nat p.2) page)) else None.

Definition copy_to (m : mem_t) (p : ptr) (bytes : list Z) : option mem_t :=
  page ← sparse_memory_map m !! p.1;
  if p.2 + Z.of_nat (length bytes) <=? PGSIZE
  then Some (MemT (<[p.1 := list_inserts (Z.to_nat p.2) bytes page]> (sparse_memory_map m)) (sz m))
  else None.

(** The loop; the buffer is written by a load and read by a store.  Every round
    moves at least one byte. *)
Fixpoint load_store_loop (fuel : nat) (m : mem_t) (addr len : Z) (bytes : list Z) (store : bool)
  : option (mem_t * list Z) :=
  match fuel with
  | O => None
  | S fuel =>
      if 0 <? len then
        let n := Z.min (PGSIZE - addr mod PGSIZE) len in
        let '(m, p) := contents m addr in
        moved ← (if store then
                   m ← copy_to m p (take (Z.to_nat n) bytes); Some (m, take (Z.to_nat n) bytes)
                 else b ← copy_from m p n; Some (m, b));
        rest ← load_store_loop fuel moved.1 (u64 (addr + n)) (len - n) (drop (Z.to_nat n) bytes) store;
        Some (rest.1, moved.2 ++ rest.2)
      else Some (m, bytes)
  end.

(** Whether it accepted, the memory and the buffer. *)
Definition load_store (m : mem_t) (addr len : Z) (bytes : list Z) (store : bool) : option (bool * mem_t * list Z) :=
  if (u64 (addr + len) <? addr) || (sz m <? u64 (addr + len)) then Some (false, m, bytes)
  else
    r ← load_store_loop (S (Z.to_nat len)) m addr len bytes store;
    Some (true, r.1, r.2).

(** ** Read-only memory *)

Definition rom_device_t : Type := list Z.

#[export] Instance rom_device : Device rom_device_t := {
  dev_load rom addr len :=
    if Z.of_nat (length rom) <? u64 (addr + len) then (None, rom)
    else (Some (take (Z.to_nat len) (drop (Z.to_nat addr) rom)), rom);
  dev_store rom addr bytes := (false, rom)
}.

(** ** The bus *)

Section Bus.
Context {D : Type} `{Device D}.

Inductive device : Type := DMem (m : mem_t) | DDev (d : D).

(** The devices by address, in the order of the addresses. *)
Definition bus_t : Type := list (Z * device).

Fixpoint add_device (b : bus_t) (addr : Z) (dev : device) : bus_t :=
  match b with
  | [] => [(addr, dev)]
  | (a, d) :: b' =>
      if addr <? a then (addr, dev) :: b
      else if a =? addr then (addr, dev) :: b'
      else (a, d) :: add_device b' addr dev
  end.

(** [upper_bound] and a step back: the last device at or below the address. *)
Fixpoint find_device (b : bus_t) (addr : Z) : option (Z * device) :=
  match b with
  | [] => None
  | (a, d) :: b =>
      if a <=? addr then
        match find_device b addr with Some r => Some r | None => Some (a, d) end
      else None
  end.

(** The device at the key [a], after a call on it. *)
Fixpoint set_device (b : bus_t) (a : Z) (dev : device) : bus_t :=
  match b with
  | [] => []
  | (a', d) :: b => if a' =? a then (a', dev) :: b else (a', d) :: set_device b a dev
  end.

Definition bus_load (b : bus_t) (addr len : Z) : option (option (list Z) * bus_t) :=
  match find_device b addr with
  | None => Some (None, b)
  | Some (a, DMem m) =>
      r ← load_store m (addr - a) len (replicate (Z.to_nat len) 0) false;
      let '(ok, m, bytes) := r in
      Some (if (ok : bool) then Some bytes else None, set_device b a (DMem m))
  | Some (a, DDev d) =>
      let '(r, d) := dev_load d (addr - a) len in
      Some (r, set_device b a (DDev d))
  end.

Definition bus_store (b : bus_t) (addr : Z) (bytes : list Z) : option (bool * bus_t) :=
  match find_device b addr with
  | None => Some (false, b)
  | Some (a, DMem m) =>
      r ← load_store m (addr - a) (Z.of_nat (length bytes)) bytes true;
      let '(ok, m, _) := r in Some (ok, set_device b a (DMem m))
  | Some (a, DDev d) =>
      let '(r, d) := dev_store d (addr - a) bytes in
      Some (r, set_device b a (DDev d))
  end.

(** ** The simulator *)

Definition paddr_ok (addr : Z) : bool := addr .>> MAX_PADDR_BITS =? 0.

Definition sim_mmio_load (b : bus_t) (paddr len : Z) : option (option (list Z) * bus_t) :=
  if (u64 (paddr + len) <? paddr) || negb (paddr_ok (u64 (u64 (paddr + len) - 1))) then Some (None, b)
  else bus_load b paddr len.

Definition sim_mmio_store (b : bus_t) (paddr : Z) (bytes : list Z) : option (bool * bus_t) :=
  let len := Z.of_nat (length bytes) in
  if (u64 (paddr + len) <? paddr) || negb (paddr_ok (u64 (u64 (paddr + len) - 1))) then Some (false, b)
  else bus_store b paddr bytes.

(** A host pointer with the address of its memory on the bus. *)
Definition addr_to_mem (b : bus_t) (paddr : Z) : bus_t * option (Z * ptr) :=
  if negb (paddr_ok paddr) then (b, None) else
  match find_device b paddr with
  | Some (a, DMem m) =>
      if paddr - a <? sz m then
        let '(m, p) := contents m (paddr - a) in (set_device b a (DMem m), Some (a, p))
      else (b, None)
  | _ => (b, None)
  end.

Fixpoint get_device (b : bus_t) (a : Z) : option device :=
  match b with
  | [] => None
  | (a', d) :: b => if a' =? a then Some d else get_device b a
  end.

(** [memcpy] from and to a host pointer. *)
Definition host_read (b : bus_t) (p : Z * ptr) (n : Z) : option (list Z) :=
  match get_device b p.1 with Some (DMem m) => copy_from m p.2 n | _ => None end.

Definition host_write (b : bus_t) (p : Z * ptr) (bytes : list Z) : option bus_t :=
  match get_device b p.1 with
  | Some (DMem m) => m ← copy_to m p.2 bytes; Some (set_device b p.1 (DMem m))
  | _ => None
  end.
End Bus.

Arguments device : clear implicits.
Arguments bus_t : clear implicits.
