(* ===== verification/DevicesFacts.v ===== *)
(** * Spike: what memories and the bus hold

    A sparse memory is a function from addresses to bytes: allocating a page is
    invisible, a load reads the function and a store updates it.  On a bus whose
    devices stand on page boundaries a page of physical memory is in one memory
    or in none. *)

From Stdlib Require Import Sorted.
From stdpp Require Import base option list gmap.
From S2P Require Import Prelude.
From S2P Require Import Pmp.
From S2P Require Import Devices.

Lemma pgsize : PGSIZE = 4096. Proof. reflexivity. Qed.

Lemma length_zero_page : length zero_page = Z.to_nat PGSIZE.
Proof. apply length_replicate. Qed.

Lemma nth_zero_page k : nth k zero_page 0 = 0.
Proof.
  rewrite nth_lookup. destruct (zero_page !! k) as [x|] eqn:E; [|done].
  by apply lookup_replicate in E as [-> _].
Qed.

#[local] Opaque zero_page.

(** ** A memory as a function *)

Definition mem_byte (m : mem_t) (a : Z) : Z :=
  nth (Z.to_nat (a mod PGSIZE)) (default [] (sparse_memory_map m !! (a .>> PGSHIFT))) 0.

(** The [n] bytes of a function from [a] on. *)
Definition bytes_at (f : Z -> Z) (a n : Z) : list Z := map (fun k => f (a + Z.of_nat k)) (seq 0 (Z.to_nat n)).

(** A function with [bytes] written at [a]. *)
Definition overwrite (f : Z -> Z) (a : Z) (bytes : list Z) : Z -> Z := fun x =>
  if (a <=? x) && (x <? a + Z.of_nat (length bytes)) then nth (Z.to_nat (x - a)) bytes 0 else f x.

Record mem_wf (m : mem_t) : Prop := {
  wf_sz : 0 < sz m < 2 ^ 64;
  wf_sz_pages : sz m mod PGSIZE = 0;
  wf_pages : map_Forall (fun _ page => length page = Z.to_nat PGSIZE) (sparse_memory_map m)
}.

Lemma mem_new_wf size m : 0 <= size < 2 ^ 64 -> mem_new size = Some m -> mem_wf m /\ sz m = size /\ forall a, mem_byte m a = 0.
Proof.
  unfold mem_new. intros Hs. destruct (Z.eqb_spec size 0); [done|]. destruct (Z.eqb_spec (size mod PGSIZE) 0); [|done].
  intros [= <-]. split; [constructor; simpl; [lia|done|apply map_Forall_empty]|]. split; [done|].
  intros a. unfold mem_byte. simpl. rewrite lookup_empty. simpl. by destruct (Z.to_nat _).
Qed.

Lemma page_of a : a .>> PGSHIFT = a / PGSIZE.
Proof. rewrite shiftr_div; [done|]. unfold PGSHIFT. lia. Qed.

Lemma page_offset a : 0 <= a mod PGSIZE < PGSIZE.
Proof. apply Z.mod_pos_bound. by rewrite pgsize. Qed.

Lemma page_split a : a = (a .>> PGSHIFT) * PGSIZE + a mod PGSIZE.
Proof. rewrite page_of. pose proof (Z.div_mod a PGSIZE). rewrite pgsize in *. lia. Qed.

(** An address by its page and offset. *)
Lemma page_join k o : 0 <= o < PGSIZE -> (k * PGSIZE + o) .>> PGSHIFT = k /\ (k * PGSIZE + o) mod PGSIZE = o.
Proof.
  intros Ho. rewrite page_of. rewrite pgsize in *. split.
  - rewrite Z.div_add_l by lia. rewrite Z.div_small; lia.
  - rewrite Z.add_comm, Z.mod_add by lia. by apply Z.mod_small.
Qed.

Lemma contents_spec m addr m' p : mem_wf m -> contents m addr = (m', p) ->
  mem_wf m' /\ sz m' = sz m /\ (forall a, mem_byte m' a = mem_byte m a) /\ p = (addr .>> PGSHIFT, addr mod PGSIZE) /\
  is_Some (sparse_memory_map m' !! p.1) /\ (forall k, is_Some (sparse_memory_map m !! k) -> is_Some (sparse_memory_map m' !! k)).
Proof.
  intros [H1 H2 H3]. unfold contents. destruct (sparse_memory_map m !! _) as [page|] eqn:E; intros [= <- <-].
  - split; [done|]. split; [done|]. split; [done|]. split; [done|]. split; [by eexists|done].
  - split; [constructor; cbn [sz sparse_memory_map]; try done; apply map_Forall_insert_2; [apply length_zero_page|done]|].
    split; [done|]. split; [|split; [done|split; [simpl; rewrite lookup_insert_eq; by eexists|]]].
    + intros a. unfold mem_byte. simpl. destruct (decide (a .>> PGSHIFT = addr .>> PGSHIFT)) as [->|Hne].
      * rewrite lookup_insert_eq, E. cbn [default from_option id]. rewrite nth_zero_page. by destruct (Z.to_nat (a mod _)).
      * by rewrite lookup_insert_ne by congruence.
    + intros k Hk. simpl. destruct (decide (addr .>> PGSHIFT = k)) as [->|]; [rewrite lookup_insert_eq; by eexists|by rewrite lookup_insert_ne].
Qed.

Lemma nth_take_drop {A} (l : list A) d i n k : (k < n)%nat -> nth k (take n (drop i l)) d = nth (i + k) l d.
Proof.
  intros Hk. rewrite <- (firstn_skipn i l) at 2. destruct (decide (i <= length l)%nat) as [Hi|Hi].
  - rewrite app_nth2; rewrite length_take; [|lia]. rewrite <- (firstn_skipn n (drop i l)) at 2.
    replace (i + k - i `min` length l)%nat with k by lia.
    destruct (decide (k < length (take n (drop i l)))%nat); [by rewrite app_nth1|].
    rewrite nth_overflow by lia. rewrite app_nth2 by lia. rewrite nth_overflow; [done|].
    rewrite length_drop in *. rewrite length_take in *. lia.
  - rewrite (drop_ge l) by lia. rewrite take_nil. rewrite app_nil_r. rewrite take_ge by lia. rewrite !nth_overflow by (simpl; lia). done.
Qed.

Lemma list_eq_nth {A} (l1 l2 : list A) d : length l1 = length l2 -> (forall k, (k < length l1)%nat -> nth k l1 d = nth k l2 d) -> l1 = l2.
Proof. intros. by apply (nth_ext _ _ d d). Qed.

Lemma length_bytes_at f a n : length (bytes_at f a n) = Z.to_nat n.
Proof. unfold bytes_at. by rewrite length_map, length_seq. Qed.

Lemma nth_bytes_at f a n k : (k < Z.to_nat n)%nat -> nth k (bytes_at f a n) 0 = f (a + Z.of_nat k).
Proof.
  intros Hk. unfold bytes_at. rewrite (nth_indep _ 0 (f (a + Z.of_nat 0))) by (rewrite length_map, length_seq; lia).
  rewrite (map_nth (fun k => f (a + Z.of_nat k))). by rewrite seq_nth by lia.
Qed.

Lemma view_bytes_app f a n1 n2 : 0 <= n1 -> 0 <= n2 -> bytes_at f a (n1 + n2) = bytes_at f a n1 ++ bytes_at f (a + n1) n2.
Proof.
  intros H1 H2. apply (list_eq_nth _ _ 0); [rewrite length_app, !length_bytes_at; lia|].
  intros k. rewrite length_bytes_at. intros Hk. rewrite nth_bytes_at by lia. destruct (decide (k < Z.to_nat n1)%nat).
  - rewrite app_nth1 by (rewrite length_bytes_at; lia). by rewrite nth_bytes_at by lia.
  - rewrite app_nth2 by (rewrite length_bytes_at; lia). rewrite length_bytes_at, nth_bytes_at by lia. f_equal. lia.
Qed.

Lemma bytes_at_ext f g a n : (forall x, a <= x < a + n -> f x = g x) -> bytes_at f a n = bytes_at g a n.
Proof. intros H. unfold bytes_at. apply map_ext_in. intros k Hk%in_seq. apply H. lia. Qed.

Lemma overwrite_app f a b1 b2 x : overwrite (overwrite f a b1) (a + Z.of_nat (length b1)) b2 x = overwrite f a (b1 ++ b2) x.
Proof.
  unfold overwrite. rewrite length_app, Nat2Z.inj_add.
  destruct (Z.leb_spec a x), (Z.leb_spec (a + Z.of_nat (length b1)) x), (Z.ltb_spec x (a + Z.of_nat (length b1))),
    (Z.ltb_spec x (a + Z.of_nat (length b1) + Z.of_nat (length b2))), (Z.ltb_spec x (a + (Z.of_nat (length b1) + Z.of_nat (length b2)))); simpl; try lia; try done.
  all: first [rewrite app_nth2 by lia; f_equal; lia|by rewrite app_nth1 by lia].
Qed.

Lemma overwrite_nil f a x : overwrite f a [] x = f x.
Proof. unfold overwrite. cbn [length nth]. destruct (Z.leb_spec a x), (Z.ltb_spec x (a + Z.of_nat 0)); cbn [andb]; try done. exfalso. lia. Qed.

Lemma overwrite_shift f a c bytes x :
  overwrite f (a - c) bytes (x - c) = if (a <=? x) && (x <? a + Z.of_nat (length bytes)) then nth (Z.to_nat (x - a)) bytes 0 else f (x - c).
Proof.
  unfold overwrite. replace (x - c - (a - c)) with (x - a) by lia.
  assert ((a - c <=? x - c) = (a <=? x)) as -> by (apply eq_true_iff_eq; rewrite !Z.leb_le; lia).
  by assert ((x - c <? a - c + Z.of_nat (length bytes)) = (x <? a + Z.of_nat (length bytes))) as -> by (apply eq_true_iff_eq; rewrite !Z.ltb_lt; lia).
Qed.

Lemma bytes_at_overwrite f a bytes : bytes_at (overwrite f a bytes) a (Z.of_nat (length bytes)) = bytes.
Proof.
  apply (list_eq_nth _ _ 0); rewrite length_bytes_at, Nat2Z.id; [done|]. intros k Hk. rewrite nth_bytes_at by lia.
  unfold overwrite. destruct (Z.leb_spec a (a + Z.of_nat k)); [|lia]. destruct (Z.ltb_spec (a + Z.of_nat k) (a + Z.of_nat (length bytes))); [|lia].
  simpl. f_equal. lia.
Qed.

Lemma copy_from_spec m k o n : mem_wf m -> is_Some (sparse_memory_map m !! k) -> 0 <= o -> 0 <= n -> o + n <= PGSIZE ->
  copy_from m (k, o) n = Some (bytes_at (mem_byte m) (k * PGSIZE + o) n).
Proof.
  intros [_ _ H3] [page E] Ho Hn Hon. unfold copy_from. simpl. rewrite E. simpl. destruct (Z.leb_spec (o + n) PGSIZE); [|lia].
  pose proof (H3 _ _ E) as Hlen. simpl in Hlen. f_equal. apply (list_eq_nth _ _ 0).
  { rewrite length_bytes_at, length_take, length_drop, Hlen. lia. }
  intros j. rewrite length_take, length_drop, Hlen. intros Hj. rewrite nth_take_drop, nth_bytes_at by lia.
  unfold mem_byte. destruct (page_join k (o + Z.of_nat j)) as [E1 E2]; [lia|]. rewrite <- Z.add_assoc, E1, E2, E. simpl. f_equal. lia.
Qed.

Lemma nth_list_inserts (l b : list Z) i k : (i + length b <= length l)%nat ->
  nth k (list_inserts i b l) 0 = if decide (i <= k < i + length b)%nat then nth (k - i) b 0 else nth k l 0.
Proof.
  intros Hl. rewrite !nth_lookup. destruct (decide _) as [Hk|Hk].
  - rewrite list_lookup_inserts by lia. done.
  - destruct (decide (k < i)%nat); [by rewrite list_lookup_inserts_lt|by rewrite list_lookup_inserts_ge by lia].
Qed.

Lemma copy_to_spec m k o bytes : mem_wf m -> is_Some (sparse_memory_map m !! k) -> 0 <= o -> o + Z.of_nat (length bytes) <= PGSIZE ->
  exists m', copy_to m (k, o) bytes = Some m' /\ mem_wf m' /\ sz m' = sz m /\
    (forall a, mem_byte m' a = overwrite (mem_byte m) (k * PGSIZE + o) bytes a) /\
    (forall j, is_Some (sparse_memory_map m !! j) <-> is_Some (sparse_memory_map m' !! j)).
Proof.
  intros [H1 H2 H3] [page E] Ho Hb. unfold copy_to. simpl. rewrite E. simpl. destruct (Z.leb_spec (o + Z.of_nat (length bytes)) PGSIZE); [|lia].
  pose proof (H3 _ _ E) as Hlen. simpl in Hlen. eexists. split; [reflexivity|]. split; [|split; [done|split]].
  - constructor; simpl; try done. apply map_Forall_insert_2; [by rewrite length_inserts|done].
  - intros a. unfold mem_byte, overwrite. simpl. pose proof (page_split a) as Ea. pose proof (page_offset a) as Hoff.
    rewrite pgsize in *. destruct (decide (a .>> PGSHIFT = k)) as [Ek|Hne].
    + rewrite Ek in *. rewrite lookup_insert_eq, E. cbn [default from_option id]. rewrite nth_list_inserts by lia.
      destruct (decide _); destruct (Z.leb_spec (k * 4096 + o) a), (Z.ltb_spec a (k * 4096 + o + Z.of_nat (length bytes))); cbn [andb]; try lia; try done.
      f_equal. lia.
    + rewrite lookup_insert_ne by congruence. destruct (Z.leb_spec (k * 4096 + o) a), (Z.ltb_spec a (k * 4096 + o + Z.of_nat (length bytes))); cbn [andb]; try done.
      exfalso. apply Hne. nia.
  - intros j. simpl. destruct (decide (k = j)) as [->|]; [rewrite lookup_insert_eq, E; split; by eexists|by rewrite lookup_insert_ne].
Qed.

(** ** Loads and stores

    What the memory [m] became, and the buffer with it. *)

Definition transferred (m : mem_t) (addr len : Z) (bytes : list Z) (store : bool) (m' : mem_t) (bytes' : list Z) : Prop :=
  mem_wf m' /\ sz m' = sz m /\
  bytes' = (if store then bytes else bytes_at (mem_byte m) addr len) /\
  forall a, mem_byte m' a = if store then overwrite (mem_byte m) addr bytes a else mem_byte m a.

Lemma transfer_piece m addr n bytes store : mem_wf m -> 0 <= n -> addr mod PGSIZE + n <= PGSIZE -> length bytes = Z.to_nat n ->
  let '(m1, p) := contents m addr in
  exists m' bytes', (if (store : bool) then m2 ← copy_to m1 p bytes; Some (m2, bytes) else b ← copy_from m1 p n; Some (m1, b)) = Some (m', bytes') /\
    transferred m addr n bytes store m' bytes'.
Proof.
  intros Hwf Hn Hpage Hlen. destruct (contents m addr) as [m1 p] eqn:E.
  destruct (contents_spec _ _ _ _ Hwf E) as (Hwf1 & Hsz1 & Hb1 & -> & Hpres & _). simpl in Hpres.
  pose proof (page_offset addr) as Ho. pose proof (page_split addr) as Ea. destruct store.
  - destruct (copy_to_spec m1 _ (addr mod PGSIZE) bytes Hwf1 Hpres) as (m2 & -> & Hwf2 & Hsz2 & Hb2 & _); [lia|lia|].
    simpl. exists m2, bytes. split; [done|]. split; [done|]. split; [lia|]. split; [done|].
    intros a. rewrite Hb2, <- Ea. unfold overwrite. by rewrite Hb1.
  - rewrite (copy_from_spec m1 _ (addr mod PGSIZE) n Hwf1 Hpres) by lia. simpl. eexists _, _. split; [done|].
    split; [done|]. split; [done|]. split; [|done]. rewrite <- Ea. apply bytes_at_ext. done.
Qed.

Lemma transferred_app m addr n1 n2 b1 b2 store m1 m2 r1 r2 : 0 <= n1 -> 0 <= n2 -> length b1 = Z.to_nat n1 ->
  transferred m addr n1 b1 store m1 r1 -> transferred m1 (addr + n1) n2 b2 store m2 r2 ->
  transferred m addr (n1 + n2) (b1 ++ b2) store m2 (r1 ++ r2).
Proof.
  intros Hn1 Hn2 Hl (Hw1 & Hs1 & E1 & Hb1) (Hw2 & Hs2 & E2 & Hb2). split; [done|]. split; [congruence|]. destruct store; subst r1 r2.
  - split; [done|]. intros a. rewrite Hb2. rewrite <- overwrite_app. replace (Z.of_nat (length b1)) with n1 by lia.
    unfold overwrite at 1 3. by rewrite Hb1.
  - split; [|intros a; by rewrite Hb2]. rewrite view_bytes_app by done. f_equal. apply bytes_at_ext. intros x _. apply Hb1.
Qed.

Lemma load_store_loop_spec fuel : forall m addr len bytes store, mem_wf m -> 0 <= addr -> 0 <= len -> addr + len <= sz m ->
  length bytes = Z.to_nat len -> (Z.to_nat len < fuel)%nat ->
  exists m' bytes', load_store_loop fuel m addr len bytes store = Some (m', bytes') /\ transferred m addr len bytes store m' bytes'.
Proof.
  induction fuel as [|fuel IH]; intros m addr len bytes store Hwf Ha Hl Hsz Hlen Hf; [lia|]. simpl.
  destruct (Z.ltb_spec 0 len) as [Hpos|Hz].
  - pose proof (page_offset addr) as Ho. set (n := Z.min (PGSIZE - addr mod PGSIZE) len).
    assert (0 < n <= len) as Hn by (subst n; lia).
    pose proof (transfer_piece m addr n (take (Z.to_nat n) bytes) store Hwf ltac:(lia) ltac:(subst n; lia) ltac:(rewrite length_take; lia)) as Hp.
    destruct (contents m addr) as [m1 p]. destruct Hp as (m2 & r2 & E2 & T2). rewrite E2. simpl.
    assert (sz m2 = sz m) as Hs2 by apply T2. pose proof (wf_sz m Hwf) as Hb.
    rewrite uwrap_small by lia.
    destruct (IH m2 (addr + n) (len - n) (drop (Z.to_nat n) bytes) store) as (m3 & r3 & E3 & T3); [apply T2|lia|lia|lia|rewrite length_drop; lia|lia|].
    rewrite E3. simpl. eexists _, _. split; [done|].
    pose proof (transferred_app m addr n (len - n) (take (Z.to_nat n) bytes) (drop (Z.to_nat n) bytes) store m2 m3 r2 r3 ltac:(lia) ltac:(lia) ltac:(rewrite length_take; lia) T2 T3) as T.
    rewrite take_drop in T. by replace (n + (len - n)) with len in T by lia.
  - assert (len = 0) as -> by lia. destruct bytes; [|done]. eexists _, _. split; [done|]. split; [done|]. split; [done|].
    destruct store; (split; [done|]); intros a; [by rewrite overwrite_nil|done].
Qed.

(** A memory accepts exactly the ranges inside it. *)
Lemma load_store_spec m addr len bytes store : mem_wf m -> 0 <= addr < 2 ^ 64 -> 0 <= len < 2 ^ 64 -> length bytes = Z.to_nat len ->
  exists m' bytes', load_store m addr len bytes store = Some (addr + len <=? sz m, m', bytes') /\
    if addr + len <=? sz m then transferred m addr len bytes store m' bytes' else m' = m /\ bytes' = bytes.
Proof.
  intros Hwf Ha Hl Hlen. pose proof (wf_sz m Hwf). unfold load_store. destruct (Z.leb_spec (addr + len) (sz m)).
  - rewrite uwrap_small by lia. destruct (Z.ltb_spec (addr + len) addr); [lia|]. destruct (Z.ltb_spec (sz m) (addr + len)); [lia|].
    simpl. destruct (load_store_loop_spec (S (Z.to_nat len)) m addr len bytes store) as (m' & b' & E & T); try done; try lia.
    simpl in E. rewrite E. simpl. by eexists _, _.
  - assert (u64 (addr + len) < addr \/ sz m < u64 (addr + len)) as Hr.
    { destruct (Z.lt_ge_cases (addr + len) (2 ^ 64)); [right; rewrite uwrap_small; lia|left].
      unfold uwrap. rewrite <- (Z_mod_plus_full (addr + len) (-1)), Z.mod_small; lia. }
    destruct (Z.ltb_spec (u64 (addr + len)) addr), (Z.ltb_spec (sz m) (u64 (addr + len))); simpl; try lia; by eexists _, _.
Qed.

(** ** The bus *)

Section Bus.
Context {D : Type} `{Device D}.
Implicit Types (b : bus_t D) (dev : device D).

(** Devices in the order of their addresses, on page boundaries, with well-formed memories. *)
Definition device_wf dev : Prop := match dev with DMem m => mem_wf m | DDev _ => True end.

Record bus_wf b : Prop := {
  wf_sorted : StronglySorted Z.lt (map fst b);
  wf_aligned : Forall (fun p => 0 <= p.1 < 2 ^ 64 /\ p.1 mod PGSIZE = 0) b;
  wf_devices : Forall (fun p => device_wf p.2) b
}.

(** What a bus is apart from the contents of its memories. *)
Definition layout b : list (Z * (Z + D)) :=
  map (fun p => (p.1, match p.2 with DMem m => inl (sz m) | DDev d => inr d end)) b.

(** The byte of memory at a physical address. *)
Definition peek b (a : Z) : option Z :=
  if negb (paddr_ok a) then None else
  match find_device b a with
  | Some (base, DMem m) => if a - base <? sz m then Some (mem_byte m (a - base)) else None
  | _ => None
  end.

Lemma find_device_le b a base dev : find_device b a = Some (base, dev) -> base <= a /\ In (base, dev) b.
Proof.
  revert base dev. induction b as [|[a' d'] b IH]; simpl; [done|]. intros base dev. destruct (Z.leb_spec a' a); [|done].
  destruct (find_device b a) as [[base' dev']|] eqn:E.
  - intros [= <- <-]. destruct (IH _ _ eq_refl). auto.
  - intros [= <- <-]. auto.
Qed.

Lemma sorted_above b a0 : Forall (Z.lt a0) (map fst b) -> forall a dev, In (a, dev) b -> a0 < a.
Proof. intros Hf a dev Hin. rewrite List.Forall_forall in Hf. apply Hf. by apply (in_map fst) in Hin. Qed.

Lemma get_device_find b a base dev : StronglySorted Z.lt (map fst b) -> find_device b a = Some (base, dev) -> get_device b base = Some dev.
Proof.
  revert base dev. induction b as [|[a' d'] b IH]; simpl; [done|]. intros base dev [Hs Hf]%StronglySorted_inv.
  destruct (Z.leb_spec a' a); [|done]. destruct (find_device b a) as [[base' dev']|] eqn:E.
  - intros [= <- <-]. destruct (find_device_le _ _ _ _ E) as [_ Hin]. pose proof (sorted_above b a' Hf _ _ Hin).
    destruct (Z.eqb_spec a' base'); [lia|]. by apply IH.
  - intros [= <- <-]. by rewrite Z.eqb_refl.
Qed.

Lemma map_fst_set_device b a dev : map fst (set_device b a dev) = map fst b.
Proof. induction b as [|[a' d'] b IH]; simpl; [done|]. destruct (Z.eqb_spec a' a); simpl; congruence. Qed.

Lemma find_set_device b a dev x : StronglySorted Z.lt (map fst b) ->
  find_device (set_device b a dev) x =
  match find_device b x with Some (a', d) => Some (a', if a' =? a then dev else d) | None => None end.
Proof.
  induction b as [|[a' d'] b IH]; simpl; [done|]. intros [Hs Hf]%StronglySorted_inv. destruct (Z.eqb_spec a' a) as [->|Hne]; simpl.
  - destruct (Z.leb_spec a x); [|done]. destruct (find_device b x) as [[a2 d2]|] eqn:E; [|by rewrite Z.eqb_refl].
    destruct (find_device_le _ _ _ _ E) as [_ Hin]. pose proof (sorted_above b a Hf _ _ Hin). by destruct (Z.eqb_spec a2 a); [lia|].
  - destruct (Z.leb_spec a' x); [|done]. rewrite IH by done. destruct (find_device b x) as [[a2 d2]|]; [done|].
    by destruct (Z.eqb_spec a' a).
Qed.

Lemma get_set_device b a dev d : get_device b a = Some d -> get_device (set_device b a dev) a = Some dev.
Proof.
  induction b as [|[a' d'] b IH]; simpl; [done|]. destruct (Z.eqb_spec a' a) as [->|Hne]; simpl; [by rewrite Z.eqb_refl|].
  destruct (Z.eqb_spec a' a); [done|]. apply IH.
Qed.

Lemma set_set_device b a d1 d2 : set_device (set_device b a d1) a d2 = set_device b a d2.
Proof.
  induction b as [|[a' d'] b IH]; simpl; [done|]. destruct (Z.eqb_spec a' a) as [->|Hne]; simpl; [by rewrite Z.eqb_refl|].
  destruct (Z.eqb_spec a' a); [done|]. by rewrite IH.
Qed.

Lemma set_device_wf b a dev : bus_wf b -> device_wf dev -> bus_wf (set_device b a dev).
Proof.
  intros [H1 H2 H3] Hd. constructor.
  - by rewrite map_fst_set_device.
  - clear H1 H3. induction b as [|[a' d'] b IH]; simpl; [done|]. inversion H2; subst. destruct (Z.eqb_spec a' a); constructor; auto.
  - clear H1 H2. induction b as [|[a' d'] b IH]; simpl; [done|]. inversion H3; subst. destruct (Z.eqb_spec a' a); constructor; auto.
Qed.

Lemma layout_set_mem b a m m' : get_device b a = Some (DMem m) -> sz m' = sz m -> layout (set_device b a (DMem m')) = layout b.
Proof.
  intros Hg Hs. unfold layout. induction b as [|[a' d'] b IH]; simpl in *; [done|]. destruct (Z.eqb_spec a' a).
  - injection Hg as ->. simpl. by rewrite Hs.
  - simpl. f_equal. by apply IH.
Qed.

(** Device addresses being aligned, a page has one device. *)
Lemma find_device_page b a a' : bus_wf b -> a .>> PGSHIFT = a' .>> PGSHIFT -> find_device b a = find_device b a'.
Proof.
  intros [_ Hal _] Hp. induction b as [|[k d] b IH]; simpl; [done|]. inversion Hal as [|? ? [_ Hk] Hal']; subst. simpl in Hk.
  rewrite IH by done. assert ((k <=? a) = (k <=? a')) as ->; [|done].
  rewrite !page_of in Hp. pose proof (page_offset a). pose proof (page_offset a'). rewrite pgsize in *.
  apply eq_true_iff_eq. rewrite !Z.leb_le. pose proof (Z.div_mod a 4096). pose proof (Z.div_mod a' 4096). pose proof (Z.div_mod k 4096). nia.
Qed.

(** ** Host pointers *)

(** The byte at an address, 0 outside the memories. *)
Definition byte b (a : Z) : Z := default 0 (peek b a).

(** A bus as it is seen from outside: [b'] differs from [b] in the bytes of memory only. *)
Definition shows b b' (f : Z -> option Z) : Prop := bus_wf b' /\ layout b' = layout b /\ forall a, peek b' a = f a.

(** [bytes] written over a view of memory. *)
Definition poke (f : Z -> option Z) (a : Z) (bytes : list Z) : Z -> option Z := fun x =>
  if (a <=? x) && (x <? a + Z.of_nat (length bytes)) then Some (nth (Z.to_nat (x - a)) bytes 0) else f x.

(** [p] is a host pointer to the byte at [a]. *)
Definition points b (p : Z * ptr) (a : Z) : Prop :=
  paddr_ok a = true /\ exists base m, find_device b a = Some (base, DMem m) /\ a - base < sz m /\
    p = (base, ((a - base) .>> PGSHIFT, (a - base) mod PGSIZE)) /\ is_Some (sparse_memory_map m !! ((a - base) .>> PGSHIFT)).

Lemma find_mem_wf b a base m : bus_wf b -> find_device b a = Some (base, DMem m) -> mem_wf m /\ base <= a /\ 0 <= base /\ base mod PGSIZE = 0.
Proof.
  intros [_ H2 H3] E. destruct (find_device_le _ _ _ _ E) as [Hle Hin]. rewrite List.Forall_forall in H2, H3.
  destruct (H2 _ Hin) as [Hr Hm]. simpl in Hr, Hm. specialize (H3 _ Hin). simpl in H3. split; [done|lia].
Qed.

Lemma peek_mem b a base m : find_device b a = Some (base, DMem m) ->
  peek b a = if paddr_ok a && (a - base <? sz m) then Some (mem_byte m (a - base)) else None.
Proof. intros E. unfold peek. rewrite E. by destruct (paddr_ok a). Qed.

Lemma peek_set_device b base m m' : bus_wf b -> get_device b base = Some (DMem m) -> mem_wf m' -> sz m' = sz m ->
  shows b (set_device b base (DMem m')) (fun a =>
    match find_device b a with
    | Some (base', DMem m0) =>
        if paddr_ok a && (a - base' <? sz m0) then Some (mem_byte (if base' =? base then m' else m0) (a - base')) else None
    | _ => None
    end).
Proof.
  intros Hwf Hg Hm Hs. split; [by apply set_device_wf|]. split; [by apply (layout_set_mem _ _ m)|].
  intros a. unfold peek. rewrite find_set_device by apply Hwf. destruct (find_device b a) as [[base' d]|] eqn:E; [|by destruct (paddr_ok a)].
  pose proof (get_device_find _ _ _ _ (wf_sorted _ Hwf) E) as Hg'. destruct (Z.eqb_spec base' base) as [->|].
  - rewrite Hg in Hg'. injection Hg' as <-. rewrite Hs. by destruct (paddr_ok a).
  - destruct d; by destruct (paddr_ok a).
Qed.

Lemma addr_to_mem_none b a : peek b a = None -> 0 <= a -> addr_to_mem b a = (b, None).
Proof.
  unfold peek, addr_to_mem. intros Hp Ha. destruct (paddr_ok a); [|done]. simpl in *. destruct (find_device b a) as [[base [m|d]]|]; [|done|done].
  by destruct (a - base <? sz m).
Qed.

Lemma addr_to_mem_some b a : bus_wf b -> is_Some (peek b a) ->
  exists b' p, addr_to_mem b a = (b', Some p) /\ shows b b' (peek b) /\ points b' p a.
Proof.
  intros Hwf [x Hp]. unfold peek in Hp. unfold addr_to_mem. destruct (paddr_ok a) eqn:Eok; [|done]. simpl in *.
  destruct (find_device b a) as [[base [m|d]]|] eqn:E; [|done|done]. destruct (Z.ltb_spec (a - base) (sz m)) as [Hlt|]; [|done].
  destruct (find_mem_wf _ _ _ _ Hwf E) as (Hm & _). destruct (contents m (a - base)) as [m' p] eqn:Ec.
  destruct (contents_spec _ _ _ _ Hm Ec) as (Hm' & Hs & Hb & -> & Hpres & _).
  pose proof (get_device_find _ _ _ _ (wf_sorted _ Hwf) E) as Hg.
  eexists _, _. split; [done|]. split.
  - destruct (peek_set_device b base m m' Hwf Hg Hm' Hs) as (H1 & H2 & H3). split; [done|]. split; [done|]. intros a'. rewrite H3.
    unfold peek. destruct (find_device b a') as [[base' [m0|d0]]|] eqn:E'; [|by destruct (paddr_ok a')..].
    pose proof (get_device_find _ _ _ _ (wf_sorted _ Hwf) E') as Hg'. destruct (Z.eqb_spec base' base) as [->|]; [|by destruct (paddr_ok a')].
    rewrite Hg in Hg'. injection Hg' as <-. rewrite Hb. by destruct (paddr_ok a').
  - split; [done|]. exists base, m'. rewrite find_set_device, E, Z.eqb_refl by apply Hwf. split; [done|]. rewrite Hs. done.
Qed.

Lemma points_peek b p a : points b p a -> is_Some (peek b a).
Proof. intros (Hok & base & m & E & Hlt & _). rewrite (peek_mem _ _ _ _ E), Hok. destruct (Z.ltb_spec (a - base) (sz m)); [by eexists|lia]. Qed.

(** All bytes of a page are in the same memory. *)
Lemma same_page_mem b a base m x : bus_wf b -> find_device b a = Some (base, DMem m) -> 0 <= a -> paddr_ok a = true -> a - base < sz m ->
  a <= x -> a mod PGSIZE + (x - a) < PGSIZE ->
  find_device b x = Some (base, DMem m) /\ paddr_ok x = true /\ x - base < sz m.
Proof.
  intros Hwf E Ha Hok Hlt Hx Hpage. destruct (find_mem_wf _ _ _ _ Hwf E) as (Hm & Hle & Hb0 & Hbal).
  pose proof (page_offset a) as Ho. pose proof (page_split a) as Ea.
  assert (x .>> PGSHIFT = a .>> PGSHIFT) as Ep.
  { replace x with ((a .>> PGSHIFT) * PGSIZE + (a mod PGSIZE + (x - a))) by lia. apply page_join. lia. }
  split; [by rewrite (find_device_page b x a Hwf Ep)|]. unfold paddr_ok, MAX_PADDR_BITS in *.
  split.
  - rewrite !shiftr_div in * by lia. rewrite Z.eqb_eq in *. unfold PGSHIFT in Ep. rewrite pgsize in *.
    change (2 ^ 56) with (2 ^ 12 * 2 ^ 44) in *. rewrite <- !Z.div_div in * by lia. rewrite !shiftr_div in Ep by lia. by rewrite Ep.
  - pose proof (wf_sz_pages m Hm) as Hsp. rewrite pgsize in *. pose proof (Z.div_mod (sz m) 4096). pose proof (Z.div_mod base 4096).
    pose proof (Z.div_mod a 4096). nia.
Qed.

Lemma points_read b p a n : bus_wf b -> points b p a -> 0 <= a -> 0 <= n -> a mod PGSIZE + n <= PGSIZE ->
  host_read b p n = Some (bytes_at (byte b) a n).
Proof.
  intros Hwf (Hok & base & m & E & Hlt & -> & Hpres) Ha Hn Hpage. destruct (find_mem_wf _ _ _ _ Hwf E) as (Hm & Hle & Hb0 & Hbal).
  unfold host_read. simpl. rewrite (get_device_find _ _ _ _ (wf_sorted _ Hwf) E).
  assert ((a - base) mod PGSIZE = a mod PGSIZE) as Emod. { rewrite Zminus_mod, Hbal, Z.sub_0_r. apply Zmod_mod. }
  pose proof (page_offset a). pose proof (page_split (a - base)) as Es. rewrite Emod in *.
  rewrite copy_from_spec; [|done|done|lia|done|lia]. f_equal. rewrite <- Es. apply (list_eq_nth _ _ 0); [by rewrite !length_bytes_at|].
  intros k. rewrite length_bytes_at. intros Hk. rewrite !nth_bytes_at by done. unfold byte.
  destruct (same_page_mem b a base m (a + Z.of_nat k) Hwf E Ha Hok Hlt) as (E2 & Hok2 & Hlt2); [lia|lia|].
  rewrite (peek_mem _ _ _ _ E2), Hok2. destruct (Z.ltb_spec (a + Z.of_nat k - base) (sz m)); [|lia]. simpl. f_equal. lia.
Qed.

Lemma points_write b p a bytes : bus_wf b -> points b p a -> 0 <= a -> a mod PGSIZE + Z.of_nat (length bytes) <= PGSIZE ->
  exists b', host_write b p bytes = Some b' /\ shows b b' (poke (peek b) a bytes).
Proof.
  intros Hwf (Hok & base & m & E & Hlt & -> & Hpres) Ha Hpage. destruct (find_mem_wf _ _ _ _ Hwf E) as (Hm & Hle & Hb0 & Hbal).
  unfold host_write. simpl. pose proof (get_device_find _ _ _ _ (wf_sorted _ Hwf) E) as Hg. rewrite Hg.
  assert ((a - base) mod PGSIZE = a mod PGSIZE) as Emod. { rewrite Zminus_mod, Hbal, Z.sub_0_r. apply Zmod_mod. }
  pose proof (page_offset a). pose proof (page_split (a - base)) as Es. rewrite Emod in *.
  destruct (copy_to_spec m ((a - base) .>> PGSHIFT) (a mod PGSIZE) bytes Hm Hpres) as (m' & -> & Hm' & Hs & Hb & _); [lia|lia|].
  rewrite <- Es in Hb. simpl. eexists. split; [done|]. destruct (peek_set_device b base m m' Hwf Hg Hm' Hs) as (H1 & H2 & H3).
  split; [done|]. split; [done|]. intros x. rewrite H3. unfold poke, peek.
  destruct ((a <=? x) && (x <? a + Z.of_nat (length bytes))) eqn:Hin.
  - apply andb_prop in Hin as [H4%Z.leb_le H5%Z.ltb_lt].
    destruct (same_page_mem b a base m x Hwf E Ha Hok Hlt) as (E2 & Hok2 & Hlt2); [lia|lia|].
    rewrite E2, Hok2, Z.eqb_refl. destruct (Z.ltb_spec (x - base) (sz m)); [|lia]. cbn [andb]. f_equal.
    rewrite Hb, overwrite_shift. apply Z.leb_le in H4. apply Z.ltb_lt in H5. by rewrite H4, H5.
  - destruct (find_device b x) as [[base' [m0|d0]]|] eqn:E'; [|by destruct (paddr_ok x)..].
    pose proof (get_device_find _ _ _ _ (wf_sorted _ Hwf) E') as Hg'. destruct (Z.eqb_spec base' base) as [->|]; [|by destruct (paddr_ok x)].
    rewrite Hg in Hg'. injection Hg' as <-. rewrite Hb, overwrite_shift, Hin. by destruct (paddr_ok x).
Qed.
End Bus.
