(* ===== verification/Mmu.v ===== *)
(** * Spike: address translation

    Model of the page-table walk of [src/riscv-isa-sim/riscv/mmu.cc] and
    [mmu.h] ([walk], [s2xlate], [decode_vm_info], [translate], the loads and
    stores of page-table entries) and of the registers that hold the roots of the
    tables ([satp], [vsatp], [hgatp] in [csrs.cc]).

    The code throws traps and changes memory: a step is a function from the bus
    to a result, a trap or undefined behaviour ([abort], an access outside an
    object, a shift out of range) and the bus after it.  The target is
    little-endian, as without [RISCV_ENABLE_DUAL_ENDIAN]; there is a processor
    (the debug port, which has none, translates nothing). *)

From stdpp Require Import base option list gmap.
From S2P Require Import Prelude.
From S2P Require Import Arith.
From S2P Require Import Pmp.
From S2P Require Import Devices.

(** ** Constants *)

Definition PTE_V : Z := 0x001.
Definition PTE_R : Z := 0x002.
Definition PTE_W : Z := 0x004.
Definition PTE_X : Z := 0x008.
Definition PTE_U : Z := 0x010.
Definition PTE_A : Z := 0x040.
Definition PTE_D : Z := 0x080.
Definition PTE_RSVD : Z := 0x1FC0000000000000.
Definition PTE_PBMT : Z := 0x6000000000000000.
Definition PTE_N : Z := 0x8000000000000000.
Definition PTE_ATTR : Z := 0xFFC0000000000000.
Definition PTE_PPN_SHIFT : Z := 10.
Definition PTE_TABLE (pte : Z) : bool := pte .& (PTE_V .| PTE_R .| PTE_W .| PTE_X) =? PTE_V.

Definition MSTATUS_MPP : Z := 0x1800.
Definition MSTATUS_MPRV : Z := 0x20000.
Definition MSTATUS_SUM : Z := 0x40000.
Definition MSTATUS_MXR : Z := 0x80000.
Definition MSTATUS_MPV : Z := 0x8000000000.
Definition MNSTATUS_NMIE : Z := 0x8.
Definition HSTATUS_SPVP : Z := 0x100.
Definition MENVCFG_ADUE : Z := 0x2000000000000000.
Definition MENVCFG_PBMTE : Z := 0x4000000000000000.
Definition HENVCFG_ADUE : Z := 0x2000000000000000.
Definition HENVCFG_PBMTE : Z := 0x4000000000000000.

Definition SATP32_MODE : Z := 0x80000000.
Definition SATP32_ASID : Z := 0x7FC00000.
Definition SATP32_PPN : Z := 0x003FFFFF.
Definition SATP64_MODE : Z := 0xF000000000000000.
Definition SATP64_ASID : Z := 0x0FFFF00000000000.
Definition SATP64_PPN : Z := 0x00000FFFFFFFFFFF.
Definition SATP_MODE_OFF : Z := 0.
Definition SATP_MODE_SV32 : Z := 1.
Definition SATP_MODE_SV39 : Z := 8.
Definition SATP_MODE_SV48 : Z := 9.
Definition SATP_MODE_SV57 : Z := 10.
Definition SATP_MODE_SV64 : Z := 11.
Definition HGATP32_MODE : Z := 0x80000000.
Definition HGATP32_VMID : Z := 0x1FC00000.
Definition HGATP32_PPN : Z := 0x003FFFFF.
Definition HGATP64_MODE : Z := 0xF000000000000000.
Definition HGATP64_VMID : Z := 0x03FFF00000000000.
Definition HGATP64_PPN : Z := 0x00000FFFFFFFFFFF.
Definition HGATP_MODE_OFF : Z := 0.
Definition HGATP_MODE_SV32X4 : Z := 1.
Definition HGATP_MODE_SV39X4 : Z := 8.
Definition HGATP_MODE_SV48X4 : Z := 9.
Definition HGATP_MODE_SV57X4 : Z := 10.

Definition DEBUG_START : Z := 0.
Definition DEBUG_END : Z := 0x1000 - 1.

(** [get_field] with a mask of [w] bits. *)
Definition get_field (w reg mask : Z) : Z := (reg .& mask) / (mask .& uwrap w (Z.lnot (uwrap w (mask .<< 1)))).

(** ** What the walk reads of the processor *)

Record hart_t : Type := Hart {
  hart_xlen : Z;
  prv : Z;
  virt_mode : bool;
  debug_mode : bool;
  svnapot : bool;
  mstatus : Z;
  mnstatus : option Z;
  hstatus : Z;
  sstatus : Z;
  vsstatus : Z;
  menvcfg : Z;
  henvcfg : Z;
  satp : Z;
  vsatp : Z;
  hgatp : Z;
  pmp : pmp_state
}.

Definition satp_readvirt (h : hart_t) (virt : bool) : Z := if virt then vsatp h else satp h.
Definition sstatus_readvirt (h : hart_t) (virt : bool) : Z := if virt then vsstatus h else sstatus h.

(** ** Traps *)

Inductive cause_t : Type :=
  | instruction_access_fault | load_access_fault | store_access_fault
  | instruction_page_fault | load_page_fault | store_page_fault
  | instruction_guest_page_fault | load_guest_page_fault | store_guest_page_fault
  | load_address_misaligned | store_address_misaligned.

Record mem_trap_t : Type := MemTrap { cause : cause_t; gva : bool; tval : Z; tval2 : Z; tinst : Z }.

Inductive result (A : Type) : Type := Ok (a : A) | Throw (t : mem_trap_t) | Undef.
Arguments Ok {A} a.
Arguments Throw {A} t.
Arguments Undef {A}.

Definition access_cause (type : access_type) : cause_t :=
  match type with FETCH => instruction_access_fault | LOAD => load_access_fault | STORE => store_access_fault end.
Definition page_cause (type : access_type) : cause_t :=
  match type with FETCH => instruction_page_fault | LOAD => load_page_fault | STORE => store_page_fault end.
Definition guest_cause (type : access_type) : cause_t :=
  match type with FETCH => instruction_guest_page_fault | LOAD => load_guest_page_fault | STORE => store_guest_page_fault end.

(** ** The layout of the tables *)

Record vm_info : Type := VmInfo { levels : Z; idxbits : Z; widenbits : Z; ptesize : Z; ptbase : Z }.

Definition no_vm : vm_info := VmInfo 0 0 0 0 0.

(** [None] where it aborts. *)
Definition decode_vm_info (xlen : Z) (stage2 : bool) (prv satp : Z) : option vm_info :=
  if prv =? PRV_M then Some no_vm
  else if negb stage2 && (prv <=? PRV_S) && (xlen =? 32) then
    let mode := get_field 32 satp SATP32_MODE in
    if mode =? SATP_MODE_OFF then Some no_vm
    else if mode =? SATP_MODE_SV32 then Some (VmInfo 2 10 0 4 (u64 ((satp .& SATP32_PPN) .<< PGSHIFT)))
    else None
  else if negb stage2 && (prv <=? PRV_S) && (xlen =? 64) then
    let mode := get_field 64 satp SATP64_MODE in
    let base := u64 ((satp .& SATP64_PPN) .<< PGSHIFT) in
    if mode =? SATP_MODE_OFF then Some no_vm
    else if mode =? SATP_MODE_SV39 then Some (VmInfo 3 9 0 8 base)
    else if mode =? SATP_MODE_SV48 then Some (VmInfo 4 9 0 8 base)
    else if mode =? SATP_MODE_SV57 then Some (VmInfo 5 9 0 8 base)
    else if mode =? SATP_MODE_SV64 then Some (VmInfo 6 9 0 8 base)
    else None
  else if stage2 && (xlen =? 32) then
    let mode := get_field 32 satp HGATP32_MODE in
    if mode =? HGATP_MODE_OFF then Some no_vm
    else if mode =? HGATP_MODE_SV32X4 then Some (VmInfo 2 10 2 4 (u64 ((satp .& HGATP32_PPN) .<< PGSHIFT)))
    else None
  else if stage2 && (xlen =? 64) then
    let mode := get_field 64 satp HGATP64_MODE in
    let base := u64 ((satp .& HGATP64_PPN) .<< PGSHIFT) in
    if mode =? HGATP_MODE_OFF then Some no_vm
    else if mode =? HGATP_MODE_SV39X4 then Some (VmInfo 3 9 2 8 base)
    else if mode =? HGATP_MODE_SV48X4 then Some (VmInfo 4 9 2 8 base)
    else if mode =? HGATP_MODE_SV57X4 then Some (VmInfo 5 9 2 8 base)
    else None
  else None.

(** ** Little-endian integers *)

Fixpoint from_le (bytes : list Z) : Z := match bytes with [] => 0 | b :: bytes => b + 256 * from_le bytes end.

Fixpoint to_le (n : nat) (v : Z) : list Z := match n with O => [] | S n => u8 v :: to_le n (v .>> 8) end.

(** ** Steps *)

Section Mmu.
Context {D : Type} `{Device D}.

Definition M (A : Type) : Type := bus_t D -> result A * bus_t D.

Definition ret {A} (a : A) : M A := fun b => (Ok a, b).
Definition throw {A} (t : mem_trap_t) : M A := fun b => (Throw t, b).
Definition undef {A} : M A := fun b => (Undef, b).
Definition bind {A B} (m : M A) (f : A -> M B) : M B := fun b =>
  match m b with
  | (Ok a, b') => f a b'
  | (Throw t, b') => (Throw t, b')
  | (Undef, b') => (Undef, b')
  end.

Local Notation "x <-- m ; f" := (bind m (fun x => f)) (at level 100, m at next level, f at level 200, right associativity).

(** A step that gives no value is undefined. *)
Definition lift {A} (m : bus_t D -> option (A * bus_t D)) : M A := fun b =>
  match m b with Some (a, b') => (Ok a, b') | None => (Undef, b) end.

Definition throw_access_exception {A} (virt : bool) (addr : Z) (type : access_type) : M A :=
  throw (MemTrap (access_cause type) virt addr 0 0).

Definition page_fault {A} (virt : bool) (addr : Z) (type : access_type) : M A :=
  throw (MemTrap (page_cause type) virt addr 0 0).

(** ** Device registers *)

Definition mmio_ok (h : hart_t) (paddr : Z) : bool :=
  negb ((DEBUG_START <=? paddr) && (paddr <=? DEBUG_END) && negb (debug_mode h)).

Definition naturally_aligned (paddr len : Z) : bool :=
  (len .& (len - 1) =? 0) && (paddr .& (len - 1) =? 0).

(** An access of a power of two at its own alignment; [None] where it fails. *)
Definition mmio_load_whole (h : hart_t) (paddr len : Z) : M (option (list Z)) :=
  if mmio_ok h paddr then lift (fun b => sim_mmio_load b paddr len) else ret None.

Definition mmio_store_whole (h : hart_t) (paddr : Z) (bytes : list Z) : M bool :=
  if mmio_ok h paddr then lift (fun b => sim_mmio_store b paddr bytes) else ret false.

(** The bytes one by one, until one fails. *)
Fixpoint mmio_load_bytes (h : hart_t) (paddr : Z) (n : nat) : M (option (list Z)) :=
  match n with
  | O => ret (Some [])
  | S n =>
      r <-- mmio_load_whole h paddr 1;
      match r with
      | None => ret None
      | Some b => rest <-- mmio_load_bytes h (u64 (paddr + 1)) n; ret (bs ← rest; Some (b ++ bs))
      end
  end.

Fixpoint mmio_store_bytes (h : hart_t) (paddr : Z) (bytes : list Z) : M bool :=
  match bytes with
  | [] => ret true
  | x :: bytes =>
      r <-- mmio_store_whole h paddr [x];
      if negb r then ret false else mmio_store_bytes h (u64 (paddr + 1)) bytes
  end.

Definition mmio_load (h : hart_t) (paddr len : Z) : M (option (list Z)) :=
  if naturally_aligned paddr len then mmio_load_whole h paddr len
  else mmio_load_bytes h paddr (Z.to_nat len).

Definition mmio_store (h : hart_t) (paddr : Z) (bytes : list Z) : M bool :=
  if naturally_aligned paddr (Z.of_nat (length bytes)) then mmio_store_whole h paddr bytes
  else mmio_store_bytes h paddr bytes.

(** ** Page-table entries *)

Definition to_mem (paddr : Z) : M (option (Z * ptr)) := fun b => let '(b, p) := addr_to_mem b paddr in (Ok p, b).

Definition pte_load_T (h : hart_t) (T pte_paddr addr : Z) (virt : bool) (trap_type : access_type) : M Z :=
  if negb (pmp_ok (pmp h) pte_paddr T LOAD PRV_S) then throw_access_exception virt addr trap_type else
  host_pte_addr <-- to_mem pte_paddr;
  match host_pte_addr with
  | Some p => bytes <-- lift (fun b => bs ← host_read b p T; Some (bs, b)); ret (from_le bytes)
  | None =>
      r <-- mmio_load h pte_paddr T;
      match r with None => throw_access_exception virt addr trap_type | Some bytes => ret (from_le bytes) end
  end.

Definition pte_store_T (h : hart_t) (T pte_paddr new_pte addr : Z) (virt : bool) (trap_type : access_type) : M unit :=
  if negb (pmp_ok (pmp h) pte_paddr T STORE PRV_S) then throw_access_exception virt addr trap_type else
  host_pte_addr <-- to_mem pte_paddr;
  let bytes := to_le (Z.to_nat T) (uwrap (8 * T) new_pte) in
  match host_pte_addr with
  | Some p => lift (fun b => b ← host_write b p bytes; Some (tt, b))
  | None =>
      r <-- mmio_store h pte_paddr bytes;
      if negb r then throw_access_exception virt addr trap_type else ret tt
  end.

Definition pte_load (h : hart_t) (pte_paddr addr : Z) (virt : bool) (trap_type : access_type) (ptesize : Z) : M Z :=
  if ptesize =? 4 then pte_load_T h 4 pte_paddr addr virt trap_type else pte_load_T h 8 pte_paddr addr virt trap_type.

Definition pte_store (h : hart_t) (pte_paddr new_pte addr : Z) (virt : bool) (trap_type : access_type) (ptesize : Z) : M unit :=
  if ptesize =? 4 then pte_store_T h 4 pte_paddr new_pte addr virt trap_type
  else pte_store_T h 8 pte_paddr new_pte addr virt trap_type.

(** ** What both walks do with an entry *)

Definition pte_ppn (pte : Z) : Z := (pte .& u64 (Z.lnot PTE_ATTR)) .>> PTE_PPN_SHIFT.

(** The first four tests of the loops: reserved bits. *)
Definition pte_reserved (h : hart_t) (pbmte : bool) (pte : Z) : bool :=
  nz (pte .& PTE_RSVD) ||
  (negb (svnapot h) && nz (pte .& PTE_N)) ||
  (negb pbmte && nz (pte .& PTE_PBMT)) ||
  (pte .& PTE_PBMT =? PTE_PBMT).

(** The permission the access misses. *)
Definition pte_denies (pte : Z) (type : access_type) (hlvx mxr : bool) : bool :=
  let r := nz (pte .& PTE_R) in let w := nz (pte .& PTE_W) in let x := nz (pte .& PTE_X) in
  if bool_decide (type = FETCH) || hlvx then negb x
  else if bool_decide (type = LOAD) then negb r && negb (mxr && x)
  else negb (r && w).

Definition pte_ad (type : access_type) : Z := PTE_A .| (if bool_decide (type = STORE) then PTE_D else 0).

Definition napot_bits (pte : Z) : Z := if nz (pte .& PTE_N) then ctz (pte_ppn pte) + 1 else 0.

Definition bad_napot (pte i : Z) : bool :=
  (nz (pte .& PTE_N) && ((pte_ppn pte =? 0) || negb (i =? 0))) ||
  (negb (napot_bits pte =? 0) && negb (napot_bits pte =? 4)).

Definition page_base (pte vpn ptshift : Z) : Z :=
  u64 ((pte_ppn pte .& u64 (Z.lnot (u64 (1 .<< napot_bits pte) - 1))
        .| (vpn .& (u64 (1 .<< napot_bits pte) - 1))
        .| (vpn .& (u64 (1 .<< ptshift) - 1))) .<< PGSHIFT).

Definition page_mask : Z := u64 (1 .<< PGSHIFT) - 1.

(** ** The second stage *)

Definition tinst_of (h : hart_t) (type : access_type) (is_for_vs_pt_addr : bool) : Z :=
  (if is_for_vs_pt_addr then 0x2000 else 0)
  .| (if (hart_xlen h =? 64) && is_for_vs_pt_addr then 0x1000 else 0)
  .| (if bool_decide (type = STORE) && is_for_vs_pt_addr then 0x20 else 0).

Section Stage2.
Context (h : hart_t) (vm : vm_info) (gva gpa : Z) (type trap_type : access_type) (virt hlvx is_for_vs_pt_addr : bool).

Definition guest_page_fault {A} : M A :=
  throw (MemTrap (guest_cause trap_type) true gva (gpa .>> 2) (tinst_of h type is_for_vs_pt_addr)).

Fixpoint s2_loop (n : nat) (base : Z) : M Z :=
  match n with
  | O => guest_page_fault
  | S n =>
      let i := Z.of_nat n in
      let ptshift := i * idxbits vm in
      let idxbits := if i =? levels vm - 1 then idxbits vm + widenbits vm else idxbits vm in
      let idx := (gpa .>> (PGSHIFT + ptshift)) .& (u64 (1 .<< idxbits) - 1) in
      let pte_paddr := u64 (base + u64 (idx * ptesize vm)) in
      pte <-- pte_load h pte_paddr gva virt trap_type (ptesize vm);
      let ppn := pte_ppn pte in
      let pbmte := nz (menvcfg h .& MENVCFG_PBMTE) in
      let hade := nz (menvcfg h .& MENVCFG_ADUE) in
      let mxr := nz (sstatus_readvirt h false .& MSTATUS_MXR) in
      if pte_reserved h pbmte pte then guest_page_fault
      else if PTE_TABLE pte then
        if nz (pte .& (PTE_D .| PTE_A .| PTE_U .| PTE_N .| PTE_PBMT)) then guest_page_fault
        else s2_loop n (u64 (ppn .<< PGSHIFT))
      else if negb (nz (pte .& PTE_V)) || (negb (nz (pte .& PTE_R)) && nz (pte .& PTE_W)) then guest_page_fault
      else if negb (nz (pte .& PTE_U)) then guest_page_fault
      else if pte_denies pte type hlvx mxr then guest_page_fault
      else if nz (ppn .& (u64 (1 .<< ptshift) - 1)) then guest_page_fault
      else
        let ad := pte_ad type in
        let finish :=
          if bad_napot pte i then guest_page_fault
          else ret (page_base pte (gpa .>> PGSHIFT) ptshift .| (gpa .& page_mask)) in
        if negb (pte .& ad =? ad) then
          if hade then _ <-- pte_store h pte_paddr (pte .| ad) gva virt type (ptesize vm); finish
          else guest_page_fault
        else finish
  end.
End Stage2.

Definition s2xlate (h : hart_t) (gva gpa : Z) (type trap_type : access_type) (virt hlvx is_for_vs_pt_addr : bool) : M Z :=
  if negb virt then ret gpa else
  match decode_vm_info (hart_xlen h) true 0 (hgatp h) with
  | None => undef
  | Some vm =>
      if levels vm =? 0 then ret gpa else
      let maxgpabits := levels vm * idxbits vm + widenbits vm + PGSHIFT in
      let maxgpa := u64 (1 .<< maxgpabits) - 1 in
      if gpa .& u64 (Z.lnot maxgpa) =? 0
      then s2_loop h vm gva gpa type trap_type virt hlvx is_for_vs_pt_addr (Z.to_nat (levels vm)) (ptbase vm)
      else guest_page_fault h gva gpa type trap_type is_for_vs_pt_addr
  end.

(** ** The walk *)

Record xlate_flags_t : Type := XlateFlags { forced_virt : bool; hlvx : bool; lr : bool }.

Record mem_access_info_t : Type := MemAccess {
  vaddr : Z; effective_priv : Z; effective_virt : bool; flags : xlate_flags_t; type : access_type
}.

Section Walk.
Context (h : hart_t) (vm : vm_info) (info : mem_access_info_t).

Let addr : Z := vaddr info.
Let virt : bool := effective_virt info.
Let fault {A} : M A := page_fault (effective_virt info) (vaddr info) (type info).

Fixpoint walk_loop (n : nat) (base : Z) : M Z :=
  match n with
  | O => fault
  | S n =>
      let i := Z.of_nat n in
      let ptshift := i * idxbits vm in
      let idx := (addr .>> (PGSHIFT + ptshift)) .& ((1 .<< idxbits vm) - 1) in
      let pte_gpa := u64 (base + u64 (idx * ptesize vm)) in
      pte_paddr <-- s2xlate h addr pte_gpa LOAD (type info) virt false true;
      pte <-- pte_load h pte_paddr addr virt (type info) (ptesize vm);
      let ppn := pte_ppn pte in
      let pbmte := if virt then nz (henvcfg h .& HENVCFG_PBMTE) else nz (menvcfg h .& MENVCFG_PBMTE) in
      let hade := if virt then nz (henvcfg h .& HENVCFG_ADUE) else nz (menvcfg h .& MENVCFG_ADUE) in
      let s_mode := effective_priv info =? PRV_S in
      let sum := nz (sstatus_readvirt h virt .& MSTATUS_SUM) in
      let mxr := nz ((sstatus_readvirt h false .| sstatus_readvirt h virt) .& MSTATUS_MXR) in
      if pte_reserved h pbmte pte then fault
      else if PTE_TABLE pte then
        if nz (pte .& (PTE_D .| PTE_A .| PTE_U .| PTE_N .| PTE_PBMT)) then fault
        else walk_loop n (u64 (ppn .<< PGSHIFT))
      else if (if nz (pte .& PTE_U) then s_mode && (bool_decide (type info = FETCH) || negb sum) else negb s_mode) then fault
      else if negb (nz (pte .& PTE_V)) || (negb (nz (pte .& PTE_R)) && nz (pte .& PTE_W)) then fault
      else if pte_denies pte (type info) (hlvx (flags info)) mxr then fault
      else if nz (ppn .& (u64 (1 .<< ptshift) - 1)) then fault
      else
        let ad := pte_ad (type info) in
        let finish :=
          if bad_napot pte i then fault
          else
            let phys := page_base pte (addr .>> PGSHIFT) ptshift .| (addr .& page_mask) in
            pa <-- s2xlate h addr phys (type info) (type info) virt (hlvx (flags info)) false;
            ret (pa .& u64 (Z.lnot page_mask)) in
        if negb (pte .& ad =? ad) then
          if hade then
            _ <-- s2xlate h addr pte_gpa STORE (type info) virt false true;
            _ <-- pte_store h pte_paddr (pte .| ad) addr virt (type info) (ptesize vm);
            finish
          else fault
        else finish
  end.
End Walk.

Definition walk (h : hart_t) (info : mem_access_info_t) : M Z :=
  let addr := vaddr info in
  let virt := effective_virt info in
  match decode_vm_info (hart_xlen h) false (effective_priv info) (satp_readvirt h virt) with
  | None => undef
  | Some vm =>
      if levels vm =? 0 then
        pa <-- s2xlate h addr (addr .& u64 (u64 (2 .<< (hart_xlen h - 1)) - 1)) (type info) (type info) virt (hlvx (flags info)) false;
        ret (pa .& u64 (Z.lnot page_mask))
      else
        let va_bits := PGSHIFT + levels vm * idxbits vm in
        if (hart_xlen h - (va_bits - 1) <? 0) || (64 <=? hart_xlen h - (va_bits - 1)) then undef else
        let mask := u64 (1 .<< (hart_xlen h - (va_bits - 1))) - 1 in
        let masked_msbs := (addr .>> (va_bits - 1)) .& mask in
        let levels := if negb (masked_msbs =? 0) && negb (masked_msbs =? mask) then 0 else levels vm in
        walk_loop h vm info (Z.to_nat levels) (ptbase vm)
  end.

Definition translate (h : hart_t) (info : mem_access_info_t) (len : Z) : M Z :=
  page <-- walk h info;
  let paddr := page .| (vaddr info .& (PGSIZE - 1)) in
  if negb (pmp_ok (pmp h) paddr len (type info) (effective_priv info))
  then throw_access_exception (effective_virt info) (vaddr info) (type info)
  else ret paddr.

(** ** The mode of an access *)

Definition in_mprv (h : hart_t) : bool :=
  negb (match mnstatus h with Some v => get_field 64 v MNSTATUS_NMIE =? 0 | None => false end) &&
  negb (debug_mode h) && nz (get_field 64 (mstatus h) MSTATUS_MPRV).

Definition generate_access_info (h : hart_t) (addr : Z) (type : access_type) (fl : xlate_flags_t) : mem_access_info_t :=
  let virt := virt_mode h in
  let mode := prv h in
  if bool_decide (type = FETCH) then MemAccess addr mode virt fl type else
  let '(mode, virt) :=
    if in_mprv h then
      let mode := get_field 64 (mstatus h) MSTATUS_MPP in
      (mode, if nz (get_field 64 (mstatus h) MSTATUS_MPV) && negb (mode =? PRV_M) then true else virt)
    else (mode, virt) in
  let '(mode, virt) := if forced_virt fl then (get_field 64 (hstatus h) HSTATUS_SPVP, true) else (mode, virt) in
  MemAccess addr mode virt fl type.
End Mmu.

(** ** The registers that hold the roots of the tables *)

(** The MMU features of the processor ([supports_impl]). *)
Record mmu_impl_t : Type := MmuImpl {
  impl_mmu : bool; impl_sv32 : bool; impl_sv39 : bool; impl_sv48 : bool; impl_sv57 : bool;
  impl_asid : bool; impl_vmid : bool
}.

(** The argument of [set_mmu_capability]. *)
Inductive mmu_capability : Type := IMPL_MMU_SV32 | IMPL_MMU_SV39 | IMPL_MMU_SV48 | IMPL_MMU_SV57 | IMPL_NONE.

Definition set_mmu_capability (p : mmu_impl_t) (cap : mmu_capability) : mmu_impl_t :=
  match cap with
  | IMPL_MMU_SV32 => MmuImpl true true (impl_sv39 p) (impl_sv48 p) (impl_sv57 p) (impl_asid p) (impl_vmid p)
  | IMPL_MMU_SV57 => MmuImpl true (impl_sv32 p) true true true (impl_asid p) (impl_vmid p)
  | IMPL_MMU_SV48 => MmuImpl true (impl_sv32 p) true true (impl_sv57 p) (impl_asid p) (impl_vmid p)
  | IMPL_MMU_SV39 => MmuImpl true (impl_sv32 p) true (impl_sv48 p) (impl_sv57 p) (impl_asid p) (impl_vmid p)
  | IMPL_NONE => MmuImpl false false false false false (impl_asid p) (impl_vmid p)
  end.

Definition satp_valid (p : mmu_impl_t) (xlen val : Z) : bool :=
  if xlen =? 32 then
    let mode := get_field 32 val SATP32_MODE in
    if mode =? SATP_MODE_SV32 then impl_sv32 p else mode =? SATP_MODE_OFF
  else
    let mode := get_field 64 val SATP64_MODE in
    if mode =? SATP_MODE_SV39 then impl_sv39 p
    else if mode =? SATP_MODE_SV48 then impl_sv48 p
    else if mode =? SATP_MODE_SV57 then impl_sv57 p
    else mode =? SATP_MODE_OFF.

Definition compute_new_satp (p : mmu_impl_t) (xlen old val : Z) : Z :=
  let rv64_ppn_mask := u64 (1 .<< (MAX_PADDR_BITS - PGSHIFT)) - 1 in
  let mode_mask := if xlen =? 32 then SATP32_MODE else SATP64_MODE in
  let asid_mask_if_enabled := if xlen =? 32 then SATP32_ASID else SATP64_ASID in
  let asid_mask := if impl_asid p then asid_mask_if_enabled else 0 in
  let ppn_mask := if xlen =? 32 then SATP32_PPN else SATP64_PPN .& rv64_ppn_mask in
  let new_mask := (if satp_valid p xlen val then mode_mask else 0) .| asid_mask .| ppn_mask in
  let old_mask := if satp_valid p xlen val then 0 else mode_mask in
  (new_mask .& val) .| (old_mask .& old).

(** A write to [satp] or [vsatp] by number ([base_atp_csr_t]). *)
Definition atp_write (p : mmu_impl_t) (xlen old val : Z) : Z :=
  if impl_mmu p then compute_new_satp p xlen old val else 0.

(** A write to [satp] ([virtualized_satp_csr_t]): an unsupported mode keeps the old value. *)
Definition satp_write (p : mmu_impl_t) (xlen old val : Z) : Z :=
  atp_write p xlen old (if satp_valid p xlen val then val else old).

Definition hgatp_write (p : mmu_impl_t) (xlen old val : Z) : Z :=
  let mask :=
    if xlen =? 32 then HGATP32_PPN .| HGATP32_MODE .| (if impl_vmid p then HGATP32_VMID else 0)
    else
      let mask := (HGATP64_PPN .& (u64 (1 .<< (MAX_PADDR_BITS - PGSHIFT)) - 1)) .| (if impl_vmid p then HGATP64_VMID else 0) in
      let mode := get_field 64 val HGATP64_MODE in
      if (mode =? HGATP_MODE_OFF) || (impl_sv39 p && (mode =? HGATP_MODE_SV39X4)) ||
         (impl_sv48 p && (mode =? HGATP_MODE_SV48X4)) || (impl_sv57 p && (mode =? HGATP_MODE_SV57X4))
      then mask .| HGATP64_MODE else mask in
  let mask := mask .& u64 (Z.lnot 3) in
  (old .& u64 (Z.lnot mask)) .| (val .& mask).
