(* ===== verification/MmuSpec.v ===== *)
(** * Spike: address translation as the architecture describes it

    A reference for the page-table walks: entries by their bits, virtual page
    numbers as digits of the address, a translated page as the address of a span
    of memory.  Nothing here is a translation of code; the walks of [Mmu] are
    proved equal to it. *)

From stdpp Require Import base option list.
From S2P Require Import Prelude.
From S2P Require Import Pmp.

(** ** Page-table entries *)

Definition e_v (e : Z) : bool := Z.testbit e 0.
Definition e_r (e : Z) : bool := Z.testbit e 1.
Definition e_w (e : Z) : bool := Z.testbit e 2.
Definition e_x (e : Z) : bool := Z.testbit e 3.
Definition e_u (e : Z) : bool := Z.testbit e 4.
Definition e_a (e : Z) : bool := Z.testbit e 6.
Definition e_d (e : Z) : bool := Z.testbit e 7.
Definition e_n (e : Z) : bool := Z.testbit e 63.
Definition e_ppn (e : Z) : Z := (e / 2 ^ 10) mod 2 ^ 44.
Definition e_rsvd (e : Z) : Z := (e / 2 ^ 54) mod 2 ^ 7.
Definition e_pbmt (e : Z) : Z := (e / 2 ^ 61) mod 2 ^ 2.

(** A pointer to the next table: valid, without permissions, every other field zero. *)
Definition pointer (e : Z) : bool :=
  e_v e && negb (e_r e) && negb (e_w e) && negb (e_x e) && negb (e_u e) && negb (e_a e) && negb (e_d e) && negb (e_n e) &&
  (e_rsvd e =? 0) && (e_pbmt e =? 0).

(** ** A paging scheme

    The number of tables on a path, the bits each indexes, the further bits of
    the first one, the bytes of an entry. *)

Record scheme : Type := Scheme { depth : nat; digit : Z; widen : Z; esize : Z }.

Definition vpn (sc : scheme) (va : Z) (i : nat) : Z :=
  (va / 2 ^ (12 + digit sc * Z.of_nat i)) mod 2 ^ (digit sc + if bool_decide (S i = depth sc) then widen sc else 0).

(** What a path ends at: an entry with its level and address, no entry (a pointer
    in the last table), or an entry that physical memory protection hides. *)
Inductive destination : Type := Found (i : nat) (a e : Z) | NoEntry | Hidden.

Fixpoint resolve (sc : scheme) (visible : Z -> bool) (read : Z -> Z) (va : Z) (n : nat) (base : Z) : destination :=
  match n with
  | O => NoEntry
  | S n =>
      let a := base + vpn sc va n * esize sc in
      if negb (visible a) then Hidden
      else if pointer (read a) then resolve sc visible read va n (e_ppn (read a) * 4096)
      else Found n a (read a)
  end.

(** The addresses of the entries a path reads. *)
Fixpoint path (sc : scheme) (visible : Z -> bool) (read : Z -> Z) (va : Z) (n : nat) (base : Z) : list Z :=
  match n with
  | O => []
  | S n =>
      let a := base + vpn sc va n * esize sc in
      a :: (if visible a && pointer (read a) then path sc visible read va n (e_ppn (read a) * 4096) else [])
  end.

(** ** Leaves *)

(** The extensions in force. *)
Record features : Type := Features { has_napot : bool; has_pbmt : bool; updates_ad : bool }.

(** Valid, with a permission, not write-only, no reserved encoding. *)
Definition well_formed (ft : features) (e : Z) : bool :=
  e_v e && (e_r e || e_x e) && (e_r e || negb (e_w e)) &&
  (e_rsvd e =? 0) && (has_napot ft || negb (e_n e)) && ((e_pbmt e =? 0) || (has_pbmt ft && negb (e_pbmt e =? 3))).

Definition permits (mxr hlvx : bool) (type : access_type) (e : Z) : bool :=
  match type with
  | FETCH => e_x e
  | LOAD => if hlvx then e_x e else e_r e || (mxr && e_x e)
  | STORE => if hlvx then e_x e else e_r e && e_w e
  end.

(** A user page is for user mode, and with SUM for the data of supervisor mode. *)
Definition user_rule (s_mode sum : bool) (type : access_type) (e : Z) : bool :=
  if e_u e then negb s_mode || (sum && negb (bool_decide (type = FETCH))) else s_mode.

(** The bytes a leaf of level [i] maps: 64 KiB for a NAPOT page. *)
Definition span (sc : scheme) (i : nat) (e : Z) : Z := if e_n e then 2 ^ 16 else 2 ^ (12 + digit sc * Z.of_nat i).

(** The frame starts at a multiple of its size. *)
Definition superpage_aligned (sc : scheme) (i : nat) (e : Z) : bool := e_ppn e mod 2 ^ (digit sc * Z.of_nat i) =? 0.

(** A NAPOT page is of the last level and has the code of 64 KiB. *)
Definition napot_ok (i : nat) (e : Z) : bool := negb (e_n e) || (Nat.eqb i 0 && (e_ppn e mod 16 =? 8)).

(** The accessed and dirty bits the access needs. *)
Definition ad_set (type : access_type) (e : Z) : bool := e_a e && (negb (bool_decide (type = STORE)) || e_d e).

Definition set_ad (type : access_type) (e : Z) : Z :=
  Z.setbit (if bool_decide (type = STORE) then Z.setbit e 7 else e) 6.

Definition frame_address (sc : scheme) (i : nat) (e va : Z) : Z :=
  e_ppn e * 4096 / span sc i e * span sc i e + va mod span sc i e.

(** ** A translation

    What the entry a path ends at makes of an access: the address or a trap, and
    the entry with its accessed and dirty bits where they are to be set.  A NAPOT
    page with a reserved code faults after its bits are set. *)

Section Translation.
Context {R : Type} (frame : Z -> R) (fault no_access no_update : R).

Definition finish_at (sc : scheme) (ft : features) (rule : Z -> bool) (type : access_type) (writable : Z -> bool)
    (va : Z) (i : nat) (a e : Z) : R * option (Z * Z) :=
  let mapped := if napot_ok i e then frame (frame_address sc i e va) else fault in
  if negb (well_formed ft e && rule e && superpage_aligned sc i e) then (fault, None)
  else if ad_set type e then (mapped, None)
  else if negb (updates_ad ft) then (fault, None)
  else if negb (writable a) then (no_update, None)
  else (mapped, Some (a, set_ad type e)).

Definition translation (sc : scheme) (ft : features) (rule : Z -> bool) (type : access_type)
    (visible writable : Z -> bool) (read : Z -> Z) (root va : Z) : R * option (Z * Z) :=
  match resolve sc visible read va (depth sc) root with
  | Hidden => (no_access, None)
  | NoEntry => (fault, None)
  | Found i a e => finish_at sc ft rule type writable va i a e
  end.
End Translation.
