(* ===== verification/MmuFacts.v ===== *)
(** * Spike: lemmas about address translation

    Masks as fields and digits, entries in memory, one level of a walk, and the
    walk as the resolution of a path.

    Loads and stores of page-table entries that lie in memory, and the two walks
    as the resolution of a path through such entries. *)

From Stdlib Require Import Btauto.
From stdpp Require Import base option list gmap.
From S2P Require Import Prelude.
From S2P Require Import Arith.
From S2P Require Import Pmp.
From S2P Require Import Devices.
From S2P Require Import DevicesFacts.
From S2P Require Import Mmu.
From S2P Require Import MmuSpec.

(** ** Masks *)

(** A field of [n] bits from bit [k] on. *)
Lemma land_field x n k : 0 <= n -> 0 <= k -> x .& (Z.ones n .<< k) = ((x / 2 ^ k) mod 2 ^ n) .<< k.
Proof.
  intros Hn Hk. apply Z.bits_inj'. intros i Hi. rewrite Z.land_spec, !Z.shiftl_spec by done.
  rewrite <- Z.land_ones, Z.land_spec, <- Z.shiftr_div_pow2 by done. destruct (Z.lt_ge_cases i k).
  - rewrite !(Z.testbit_neg_r _ (i - k)) by lia. apply andb_false_r.
  - rewrite Z.shiftr_spec by lia. by replace (i - k + k) with i by lia.
Qed.

Lemma nz_field x n k : 0 <= n -> 0 <= k -> nz (x .& (Z.ones n .<< k)) = negb ((x / 2 ^ k) mod 2 ^ n =? 0).
Proof.
  intros Hn Hk. rewrite land_field, shiftl_mul by done. unfold nz. f_equal. apply eq_true_iff_eq. rewrite !Z.eqb_eq.
  pose proof (pow2_pos k Hk). nia.
Qed.

(** Joining disjoint fields. *)
Lemma lor_low_add a b n : 0 <= n -> 0 <= b < 2 ^ n -> (a * 2 ^ n) .| b = a * 2 ^ n + b.
Proof. intros Hn Hb. rewrite <- (shiftl_mul a) at 1 by done. by apply lor_disjoint. Qed.

(** ** The fields of an entry *)

Lemma pte_bit (pte k m : Z) : 0 <= k -> m = 2 ^ k -> nz (pte .& m) = Z.testbit pte k.
Proof. intros Hk ->. by apply nz_bit. Qed.

Lemma pte_v pte : nz (pte .& PTE_V) = e_v pte. Proof. by apply pte_bit. Qed.
Lemma pte_r pte : nz (pte .& PTE_R) = e_r pte. Proof. by apply pte_bit. Qed.
Lemma pte_w pte : nz (pte .& PTE_W) = e_w pte. Proof. by apply pte_bit. Qed.
Lemma pte_x pte : nz (pte .& PTE_X) = e_x pte. Proof. by apply pte_bit. Qed.
Lemma pte_u pte : nz (pte .& PTE_U) = e_u pte. Proof. by apply pte_bit. Qed.
Lemma pte_n pte : nz (pte .& PTE_N) = e_n pte. Proof. by apply pte_bit. Qed.

Lemma nz_lor x m1 m2 : nz (x .& (m1 .| m2)) = nz (x .& m1) || nz (x .& m2).
Proof.
  rewrite Z.land_lor_distr_r. unfold nz. rewrite <- negb_andb. f_equal. apply eq_true_iff_eq.
  rewrite andb_true_iff, !Z.eqb_eq. apply Z.lor_eq_0_iff.
Qed.

Lemma pte_rsvd pte : nz (pte .& PTE_RSVD) = negb (e_rsvd pte =? 0).
Proof. apply (nz_field pte 7 54); lia. Qed.

Lemma pte_pbmt pte : pte .& PTE_PBMT = e_pbmt pte * 2 ^ 61.
Proof. change PTE_PBMT with (Z.ones 2 .<< 61). rewrite land_field, shiftl_mul by lia. done. Qed.

Lemma e_pbmt_range pte : 0 <= e_pbmt pte < 4.
Proof. unfold e_pbmt. pose proof (Z.mod_pos_bound (pte / 2 ^ 61) (2 ^ 2)). lia. Qed.

Lemma pte_pbmt_nz pte : nz (pte .& PTE_PBMT) = negb (e_pbmt pte =? 0).
Proof. rewrite pte_pbmt. unfold nz. f_equal. apply eq_true_iff_eq. rewrite !Z.eqb_eq. lia. Qed.

Lemma pte_pbmt_all pte : (pte .& PTE_PBMT =? PTE_PBMT) = (e_pbmt pte =? 3).
Proof. rewrite pte_pbmt. apply eq_true_iff_eq. rewrite !Z.eqb_eq. change PTE_PBMT with (3 * 2 ^ 61). lia. Qed.

Lemma pte_ppn_field pte : 0 <= pte -> pte_ppn pte = e_ppn pte.
Proof.
  intros Hp. unfold pte_ppn, e_ppn. change (u64 (Z.lnot PTE_ATTR)) with (Z.ones 54). rewrite Z.land_ones by lia.
  unfold PTE_PPN_SHIFT. rewrite shiftr_div by lia. change (2 ^ 54) with (2 ^ 10 * 2 ^ 44). rewrite Z.rem_mul_r by lia.
  rewrite Z.add_comm, Z.mul_comm, Z.div_add_l by lia. rewrite (Z.div_small (_ mod 2 ^ 10)); [lia|]. apply Z.mod_pos_bound. lia.
Qed.

Lemma e_ppn_range pte : 0 <= e_ppn pte < 2 ^ 44.
Proof. apply Z.mod_pos_bound. lia. Qed.

(** The tests of the loop on a pointer. *)
Lemma pte_table pte : PTE_TABLE pte = e_v pte && negb (e_r pte) && negb (e_w pte) && negb (e_x pte).
Proof.
  unfold PTE_TABLE, e_v, e_r, e_w, e_x. change (PTE_V .| PTE_R .| PTE_W .| PTE_X) with (Z.ones 4). rewrite Z.land_ones by lia.
  rewrite <- !(fun k => Z.mod_pow2_bits_low pte 4 k) by lia. pose proof (Z.mod_pos_bound pte (2 ^ 4)) as Hr.
  set (x := pte mod 2 ^ 4) in *. clearbody x. assert (In x (map Z.of_nat (seq 0 16))) as Hin.
  { apply in_map_iff. exists (Z.to_nat x). split; [lia|]. apply in_seq. lia. }
  repeat (destruct Hin as [<-|Hin]; [reflexivity|]). done.
Qed.

Lemma pte_pointer_extra pte :
  nz (pte .& (PTE_D .| PTE_A .| PTE_U .| PTE_N .| PTE_PBMT)) = e_d pte || e_a pte || e_u pte || e_n pte || negb (e_pbmt pte =? 0).
Proof. rewrite !nz_lor, pte_u, pte_n, pte_pbmt_nz. unfold e_d, e_a. by rewrite !(pte_bit pte 7 PTE_D), !(pte_bit pte 6 PTE_A). Qed.

#[export] Hint Rewrite pte_v pte_r pte_w pte_x pte_u pte_n pte_rsvd pte_pbmt_nz pte_pbmt_all pte_table pte_pointer_extra : pte.

Lemma pte_denies_permits pte type hx mxr : pte_denies pte type hx mxr = negb (permits mxr hx type pte).
Proof.
  unfold pte_denies, permits. rewrite pte_r, pte_w, pte_x. destruct type, hx, (e_r pte), (e_w pte), (e_x pte), mxr; reflexivity.
Qed.

(** ** One entry of a walk *)

Lemma pbmt_cases e : (e_pbmt e =? 0) = true /\ (e_pbmt e =? 3) = false \/ (e_pbmt e =? 0) = false.
Proof. destruct (Z.eqb_spec (e_pbmt e) 0) as [->|]; [by left|by right]. Qed.

(** Every way an entry can be no well-formed leaf is caught. *)
Lemma leaf_checks h pbmte hade e :
  well_formed (Features (svnapot h) pbmte hade) e =
  negb (pte_reserved h pbmte e) && negb (PTE_TABLE e) && negb (negb (nz (e .& PTE_V)) || (negb (nz (e .& PTE_R)) && nz (e .& PTE_W))).
Proof.
  unfold pte_reserved, well_formed. autorewrite with pte. simpl. destruct (pbmt_cases e) as [[-> ->]| ->]; btauto.
Qed.

(** A pointer with other fields set is caught too. *)
Lemma pointer_exact h pbmte e : pointer e =
  negb (pte_reserved h pbmte e) && PTE_TABLE e && negb (nz (e .& (PTE_D .| PTE_A .| PTE_U .| PTE_N .| PTE_PBMT))).
Proof.
  unfold pointer, pte_reserved. autorewrite with pte. destruct (pbmt_cases e) as [[-> ->]| ->]; btauto.
Qed.

Lemma ctz_three p : 0 < p < 2 ^ 64 -> (ctz p + 1 =? 4) = (p mod 16 =? 8).
Proof.
  intros Hp. destruct (odd_part p) as (z & q & Hz & Hq & ->); [lia|]. rewrite ctz_ok by done.
  apply Zodd_bool_iff in Hq. apply Zodd_ex_iff in Hq as [r ->]. apply eq_true_iff_eq. rewrite !Z.eqb_eq. split; intros Hz3.
  - assert (z = 3) as -> by lia. change (2 ^ 3) with 8. symmetry. apply (Z.mod_unique _ _ r); lia.
  - assert (0 <= z <= 2 \/ z = 3 \/ 4 <= z) as [H|[->|H]] by lia; [exfalso|lia|exfalso].
    + assert (z = 0 \/ z = 1 \/ z = 2) as [->|[->| ->]] by lia; simpl in Hz3; Z.div_mod_to_equations; lia.
    + replace z with (4 + (z - 4)) in Hz3 by lia. rewrite pow2_split in Hz3 by lia. change (2 ^ 4) with 16 in Hz3.
      rewrite <- Z.mul_assoc, (Z.mul_comm 16), Z.mod_mul in Hz3; lia.
Qed.

Lemma bad_napot_ok e i : 0 <= e -> bad_napot e (Z.of_nat i) = negb (napot_ok i e).
Proof.
  intros He. unfold bad_napot, napot_ok, napot_bits. rewrite pte_n, pte_ppn_field by done. pose proof (e_ppn_range e).
  destruct (e_n e); simpl; [|done]. destruct (Z.eqb_spec (e_ppn e) 0) as [->|]; simpl; [by rewrite andb_false_r|].
  rewrite ctz_three by lia. destruct (Z.eqb_spec (e_ppn e mod 16) 8) as [E|E].
  - rewrite andb_false_r, orb_false_r, andb_true_r. destruct i; [done|]. by destruct (Z.eqb_spec (Z.of_nat (S i)) 0); [lia|].
  - rewrite !andb_false_r, andb_true_r. simpl. destruct (odd_part (e_ppn e)) as (z & q & Hz & Hq & Eq); [lia|].
    rewrite Eq, ctz_ok by (done || lia). destruct (Z.eqb_spec (z + 1) 0); [lia|]. apply orb_true_r.
Qed.

(** ** The translated address *)

Lemma page_mask_mod va : va .& page_mask = va mod 4096.
Proof. apply (land_mod _ _ 12); [lia|reflexivity]. Qed.

(** A frame number with the page numbers below it, as an address. *)
Lemma join_frame f va s : 0 <= s <= 44 -> 0 <= f < 2 ^ 44 -> 0 <= va < 2 ^ 64 ->
  u64 (((f / 2 ^ s * 2 ^ s) .| ((va .>> PGSHIFT) mod 2 ^ s)) .<< PGSHIFT) .| (va mod 4096) =
  f * 4096 / 2 ^ (12 + s) * 2 ^ (12 + s) + va mod 2 ^ (12 + s).
Proof.
  intros Hs Hf Hva. rewrite page_of, pgsize. rewrite pow2_split by lia. change (2 ^ 12) with 4096.
  pose proof (pow2_pos s ltac:(lia)) as Hp. pose proof (Z.mod_pos_bound (va / 4096) (2 ^ s) Hp) as Hm.
  rewrite lor_low_add by lia. assert (2 ^ s <= 2 ^ 44) as Hle by (apply pow2_le; lia).
  assert (0 <= f / 2 ^ s) as Hq by (apply Z.div_pos; lia). pose proof (Z.mul_div_le f (2 ^ s) Hp) as Hql.
  unfold PGSHIFT. rewrite shiftl_mul by lia. change (2 ^ 12) with 4096.
  rewrite uwrap_small by (change (2 ^ 64) with (2 ^ 44 * 2 ^ 20); nia).
  change 4096 with (2 ^ 12) at 2. rewrite lor_low_add by (try lia; apply Z.mod_pos_bound; lia). change (2 ^ 12) with 4096.
  rewrite (Z.rem_mul_r va 4096) by lia. rewrite (Z.mul_comm 4096 (2 ^ s)), <- Z.div_div by lia.
  assert (f * 4096 / (2 ^ s) / 4096 = f / 2 ^ s) as E.
  { rewrite Z.div_div, (Z.mul_comm (2 ^ s)), (Z.mul_comm f), Z.div_mul_cancel_l by lia. done. }
  rewrite E. ring.
Qed.

Lemma page_base_frame sc e va i : 0 <= e -> 0 <= va < 2 ^ 64 -> 0 <= digit sc * Z.of_nat i <= 44 ->
  superpage_aligned sc i e = true -> napot_ok i e = true ->
  page_base e (va .>> PGSHIFT) (Z.of_nat i * digit sc) .| (va .& page_mask) = frame_address sc i e va.
Proof.
  intros He Hva Hi Hal Hn. unfold page_base, frame_address, span. rewrite page_mask_mod, pte_ppn_field by done.
  pose proof (e_ppn_range e) as Hr. unfold napot_bits. rewrite pte_n, pte_ppn_field by done. unfold napot_ok in Hn. unfold superpage_aligned in Hal.
  destruct (e_n e); cbn [negb orb] in Hn.
  - apply andb_prop in Hn as [->%Nat.eqb_eq H8]. rewrite Z.eqb_eq in H8.
    assert (0 < e_ppn e) by (destruct (Z.eq_dec (e_ppn e) 0) as [E0|]; [rewrite E0 in H8; done|lia]).
    pose proof (ctz_three (e_ppn e) ltac:(lia)) as Hc. rewrite (proj2 (Z.eqb_eq (e_ppn e mod 16) 8) H8) in Hc. apply Z.eqb_eq in Hc.
    rewrite Hc. change (Z.of_nat 0 * digit sc) with 0. rewrite clear_low, !low_mask by lia.
    change (2 ^ 0) with 1. rewrite Z.mod_1_r, Z.lor_0_r. by apply (join_frame _ _ 4).
  - rewrite clear_low, !low_mask by lia. change (2 ^ 0) with 1. rewrite Z.mod_1_r, Z.div_1_r, Z.mul_1_r, Z.lor_0_r.
    apply Z.eqb_eq in Hal. rewrite (Z.mul_comm (Z.of_nat i)).
    rewrite <- (join_frame (e_ppn e) va (digit sc * Z.of_nat i)) by lia. do 3 f_equal.
    pose proof (Z.div_mod (e_ppn e) (2 ^ (digit sc * Z.of_nat i))). pose proof (pow2_pos (digit sc * Z.of_nat i)). f_equal. lia.
Qed.

(** ** Accessed and dirty bits *)

Lemma bits_of_ad type k : Z.testbit (pte_ad type) k = ((k =? 6) || (bool_decide (type = STORE) && (k =? 7))).
Proof.
  destruct (Z.lt_ge_cases k 0); [rewrite Z.testbit_neg_r by done; destruct (Z.eqb_spec k 6), (Z.eqb_spec k 7); try lia; by rewrite andb_false_r|].
  unfold pte_ad. rewrite Z.lor_spec. change PTE_A with (2 ^ 6). rewrite Z.pow2_bits_eqb, (Z.eqb_sym 6) by lia. f_equal.
  case_bool_decide; simpl; [|apply Z.bits_0]. change PTE_D with (2 ^ 7). rewrite Z.pow2_bits_eqb by lia. apply Z.eqb_sym.
Qed.

Lemma ad_missing e type : (e .& pte_ad type =? pte_ad type) = ad_set type e.
Proof.
  apply eq_true_iff_eq. rewrite Z.eqb_eq. unfold ad_set, e_a, e_d. split.
  - intros E. assert (forall k, Z.testbit (pte_ad type) k = true -> Z.testbit e k = true) as Hk.
    { intros k Hk. rewrite <- E, Z.land_spec in Hk. by apply andb_prop in Hk as [Hk _]. }
    assert (Z.testbit e 6 = true) as E6. { apply Hk. rewrite bits_of_ad. reflexivity. } rewrite E6. case_bool_decide as Ht; [|done]. cbn [negb orb andb]. apply Hk. by rewrite bits_of_ad, bool_decide_true by done.
  - intros [H6 H7]%andb_prop. apply Z.bits_inj'. intros k Hk. rewrite Z.land_spec, bits_of_ad.
    destruct (Z.eqb_spec k 6) as [->|]; [by rewrite H6|]. destruct (Z.eqb_spec k 7) as [->|]; [|by rewrite andb_false_r, orb_false_l, andb_false_r].
    case_bool_decide; simpl in *; [by rewrite H7|apply andb_false_r].
Qed.

Lemma ad_added e type : e .| pte_ad type = set_ad type e.
Proof.
  apply Z.bits_inj'. intros k Hk. rewrite Z.lor_spec, bits_of_ad. unfold set_ad. rewrite Z.setbit_eqb, (Z.eqb_sym 6) by lia.
  case_bool_decide; simpl; [rewrite Z.setbit_eqb, (Z.eqb_sym 7) by lia|]; btauto.
Qed.

Lemma set_ad_range type e n : 8 <= n -> 0 <= e < 2 ^ n -> 0 <= set_ad type e < 2 ^ n.
Proof.
  intros Hn He. rewrite <- ad_added. split; [apply Z.lor_nonneg; split; [lia|]; by destruct type|].
  destruct (Z.eq_dec (e .| pte_ad type) 0) as [->|Hz]; [apply pow2_pos; lia|].
  apply Z.log2_lt_pow2; [|rewrite Z.log2_lor].
  - assert (0 <= e .| pte_ad type) by (apply Z.lor_nonneg; split; [lia|]; by destruct type). lia.
  - assert (Z.log2 (pte_ad type) < n) by (destruct type; (eapply Z.le_lt_trans; [|apply Hn]; by vm_compute) || (change (pte_ad FETCH) with 64; simpl; lia)).
    destruct (Z.eq_dec e 0) as [->|]; [simpl; lia|]. pose proof (proj1 (Z.log2_lt_pow2 e n ltac:(lia)) ltac:(lia)). lia.
  - lia.
  - by destruct type.
Qed.

(** ** Integers in memory *)

Lemma from_le_to_le n : forall v, 0 <= v -> from_le (to_le n v) = v mod 2 ^ (8 * Z.of_nat n).
Proof.
  induction n as [|n IH]; intros v Hv; simpl; [by rewrite Z.mod_1_r|].
  rewrite IH by (apply Z.shiftr_nonneg; done). rewrite shiftr_div by lia. unfold uwrap.
  replace (8 * Z.of_nat (S n)) with (8 + 8 * Z.of_nat n) by lia. rewrite pow2_split by lia. rewrite Z.rem_mul_r by (try lia; apply pow2_pos; lia). done.
Qed.

Lemma from_le_range bytes : Forall (fun x => 0 <= x < 256) bytes -> 0 <= from_le bytes < 2 ^ (8 * Z.of_nat (length bytes)).
Proof.
  induction 1 as [|x bytes Hx _ IH]; simpl; [lia|]. replace (8 * Z.of_nat (S (length bytes))) with (8 + 8 * Z.of_nat (length bytes)) by lia.
  rewrite pow2_split by lia. change (2 ^ 8) with 256. lia.
Qed.

Lemma length_to_le n v : length (to_le n v) = n.
Proof. revert v. induction n as [|n IH]; intros v; simpl; [done|]. by rewrite IH. Qed.

Lemma to_le_bytes n v : Forall (fun x => 0 <= x < 256) (to_le n v).
Proof. revert v. induction n as [|n IH]; intros v; simpl; constructor; [|done]. apply (uwrap_range 8 v). lia. Qed.

(** ** Entries in memory *)

Section Tables.
Context {D : Type} `{Device D}.
Implicit Types b : bus_t D.

Definition bytes_ok b : Prop := forall a x, peek b a = Some x -> 0 <= x < 256.

(** The integer of [n] bytes at an address. *)
Definition int_at b (n a : Z) : Z := from_le (bytes_at (byte b) a n).

Lemma peeked_range b a : bytes_ok b -> 0 <= byte b a < 256.
Proof. intros Hb. unfold byte. destruct (peek b a) as [x|] eqn:E; simpl; [by apply (Hb a)|lia]. Qed.

Lemma int_at_range b n a : bytes_ok b -> 0 <= n -> 0 <= int_at b n a < 2 ^ (8 * n).
Proof.
  intros Hb Hn. pose proof (from_le_range (bytes_at (byte b) a n)) as Hr. rewrite length_bytes_at, Z2Nat.id in Hr by done.
  apply Hr. unfold bytes_at. apply Forall_map, Forall_forall. intros. by apply peeked_range.
Qed.

Lemma shows_refl b : bus_wf b -> shows b b (peek b).
Proof. by intros. Qed.

Lemma shows_trans b b1 b2 f g : shows b b1 f -> shows b1 b2 g -> shows b b2 g.
Proof. intros (_ & L1 & _) (W2 & L2 & E2). split; [done|]. split; [congruence|done]. Qed.

Lemma shows_ext b b1 f g : shows b b1 f -> (forall a, f a = g a) -> shows b b1 g.
Proof. intros (W & L & E) Hfg. split; [done|]. split; [done|]. intros a. by rewrite E. Qed.

Lemma byte_shows b b1 : shows b b1 (peek b) -> forall a, byte b1 a = byte b a.
Proof. intros (_ & _ & E) a. unfold byte. by rewrite E. Qed.

Lemma int_at_shows b b1 n a : shows b b1 (peek b) -> int_at b1 n a = int_at b n a.
Proof. intros Hs. unfold int_at. f_equal. apply bytes_at_ext. intros. by apply byte_shows. Qed.

Lemma poke_ext f g a bytes : (forall x, f x = g x) -> forall x, poke f a bytes x = poke g a bytes x.
Proof. intros Hfg x. unfold poke. by rewrite Hfg. Qed.

(** An access to [n] bytes of memory inside a page. *)
Definition in_page b (n a : Z) : Prop := 0 <= a /\ 0 <= n /\ a mod PGSIZE + n <= PGSIZE /\ is_Some (peek b a).

Lemma host_load b n a : bus_wf b -> in_page b n a ->
  exists b' p, to_mem a b = (Ok (Some p), b') /\ shows b b' (peek b) /\ host_read b' p n = Some (bytes_at (byte b) a n).
Proof.
  intros Hwf (Ha & Hn & Hp & Hm). destruct (addr_to_mem_some b a Hwf Hm) as (b' & p & E & Hs & Hpt).
  exists b', p. unfold to_mem. rewrite E. split; [done|]. split; [done|]. rewrite (points_read b' p a n) by (apply Hs || done).
  f_equal. apply bytes_at_ext. intros. by apply byte_shows.
Qed.

Lemma host_store b a bytes : bus_wf b -> in_page b (Z.of_nat (length bytes)) a ->
  exists b1 p b2, to_mem a b = (Ok (Some p), b1) /\ host_write b1 p bytes = Some b2 /\ shows b b2 (poke (peek b) a bytes).
Proof.
  intros Hwf (Ha & Hn & Hp & Hm). destruct (addr_to_mem_some b a Hwf Hm) as (b1 & p & E & Hs & Hpt).
  destruct (points_write b1 p a bytes) as (b2 & E2 & Hs2); [apply Hs|done|done|done|].
  exists b1, p, b2. unfold to_mem. rewrite E. split; [done|]. split; [done|]. apply (shows_trans _ _ _ _ _ Hs), (shows_ext _ _ _ _ Hs2), poke_ext, Hs.
Qed.

Lemma pte_load_mem h b n a addr virt tt : bus_wf b -> n = 4 \/ n = 8 -> in_page b n a -> pmp_ok (pmp h) a n LOAD PRV_S = true ->
  exists b', pte_load h a addr virt tt n b = (Ok (int_at b n a), b') /\ shows b b' (peek b).
Proof.
  intros Hwf Hn Hp Hok. destruct (host_load b n a Hwf Hp) as (b' & p & E & Hs & Hr). exists b'. split; [|done].
  unfold pte_load. destruct Hn as [->| ->]; unfold pte_load_T; rewrite Hok; simpl; unfold bind; rewrite E; unfold lift; rewrite Hr; done.
Qed.

Lemma pte_load_hidden h b n a addr virt tt : n = 4 \/ n = 8 -> pmp_ok (pmp h) a n LOAD PRV_S = false ->
  pte_load h a addr virt tt n b = (Throw (MemTrap (access_cause tt) virt addr 0 0), b).
Proof. intros Hn Hok. unfold pte_load. destruct Hn as [->| ->]; unfold pte_load_T; by rewrite Hok. Qed.

Lemma pte_store_mem h b n a v addr virt tt : bus_wf b -> n = 4 \/ n = 8 -> in_page b n a -> pmp_ok (pmp h) a n STORE PRV_S = true ->
  0 <= v < 2 ^ (8 * n) ->
  exists b', pte_store h a v addr virt tt n b = (Ok (), b') /\ shows b b' (poke (peek b) a (to_le (Z.to_nat n) v)).
Proof.
  intros Hwf Hn Hp Hok Hv. destruct (host_store b a (to_le (Z.to_nat n) v)) as (b1 & p & b2 & E & Hw & Hs); [done|by rewrite length_to_le, Z2Nat.id by lia|].
  exists b2. split; [|done].
  unfold pte_store. destruct Hn as [->| ->]; [change (4 =? 4) with true|change (8 =? 4) with false]; cbn iota; unfold pte_store_T; rewrite Hok;
    cbn [negb]; unfold bind; rewrite E; cbv zeta; rewrite (uwrap_small _ v) by done; unfold lift; by rewrite Hw.
Qed.

Lemma pte_store_hidden h b n a v addr virt tt : n = 4 \/ n = 8 -> pmp_ok (pmp h) a n STORE PRV_S = false ->
  pte_store h a v addr virt tt n b = (Throw (MemTrap (access_cause tt) virt addr 0 0), b).
Proof. intros Hn Hok. unfold pte_store. destruct Hn as [->| ->]; unfold pte_store_T; by rewrite Hok. Qed.
End Tables.

(** ** The tables of a scheme *)

Definition scheme_of (vm : vm_info) : scheme := Scheme (Z.to_nat (levels vm)) (idxbits vm) (widenbits vm) (ptesize vm).

(** What [decode_vm_info] gives for the modes of the architecture. *)
Record vm_ok (vm : vm_info) : Prop := {
  vm_levels : 0 < levels vm;
  vm_digits : idxbits vm = 10 /\ ptesize vm = 4 \/ idxbits vm = 9 /\ ptesize vm = 8;
  vm_depth : (levels vm - 1) * idxbits vm <= 44;
  vm_widen : widenbits vm = 0 \/ widenbits vm = 2;
  vm_base : 0 <= ptbase vm < 2 ^ 57 /\ ptbase vm mod 4096 = 0
}.

Section Scheme.
Context (vm : vm_info) (Hvm : vm_ok vm).
Let sc : scheme := scheme_of vm.

Lemma entry_size : ptesize vm = 4 \/ ptesize vm = 8.
Proof. destruct (vm_digits vm Hvm) as [[_ ->]|[_ ->]]; auto. Qed.

Lemma vpn_range va i : 0 <= vpn sc va i < 2 ^ 12.
Proof.
  unfold vpn, sc, scheme_of. simpl. set (w := idxbits vm + _). assert (0 <= w <= 12) as Hw.
  { unfold w. destruct (vm_digits vm Hvm) as [[-> _]|[-> _]], (vm_widen vm Hvm) as [-> | ->]; case_bool_decide; lia. }
  pose proof (Z.mod_pos_bound (va / 2 ^ (12 + idxbits vm * Z.of_nat i)) (2 ^ w) ltac:(apply pow2_pos; lia)).
  pose proof (pow2_le w 12 Hw). lia.
Qed.

Lemma entry_in_page base va i : 0 <= base < 2 ^ 57 -> base mod 4096 = 0 ->
  let a := base + vpn sc va i * ptesize vm in
  0 <= a /\ a mod PGSIZE + ptesize vm <= PGSIZE /\ u64 (base + u64 (vpn sc va i * ptesize vm)) = a.
Proof.
  intros Hb Hm a. pose proof (vpn_range va i) as Hv. rewrite pgsize. unfold a. destruct entry_size as [-> | ->].
  - rewrite (uwrap_small 64 (_ * 4)), uwrap_small by lia. split; [lia|]. split; [|done]. Z.div_mod_to_equations. lia.
  - rewrite (uwrap_small 64 (_ * 8)), uwrap_small by lia. split; [lia|]. split; [|done]. Z.div_mod_to_equations. lia.
Qed.

Lemma next_base e : 0 <= e -> u64 (pte_ppn e .<< PGSHIFT) = e_ppn e * 4096 /\ 0 <= e_ppn e * 4096 < 2 ^ 57 /\ (e_ppn e * 4096) mod 4096 = 0.
Proof.
  intros He. rewrite pte_ppn_field by done. pose proof (e_ppn_range e). unfold PGSHIFT. rewrite shiftl_mul by lia.
  change (2 ^ 12) with 4096. rewrite uwrap_small by lia. split; [done|]. split; [lia|]. apply Z.mod_mul. lia.
Qed.

Lemma shift_range i : (i < depth sc)%nat -> 0 <= digit sc * Z.of_nat i <= 44 /\ 0 <= Z.of_nat i * idxbits vm < 64.
Proof.
  unfold sc, scheme_of. simpl. intros Hi. pose proof (vm_depth vm Hvm). pose proof (vm_levels vm Hvm).
  destruct (vm_digits vm Hvm) as [[E _]|[E _]]; rewrite E in *; lia.
Qed.

(** The index of the first stage and that of the second. *)
Lemma index_vpn va i : (i < depth sc)%nat -> widenbits vm = 0 ->
  (va .>> (PGSHIFT + Z.of_nat i * idxbits vm)) .& ((1 .<< idxbits vm) - 1) = vpn sc va i.
Proof.
  intros Hi Hw. pose proof (shift_range i Hi). unfold vpn, sc, scheme_of. simpl. rewrite Hw. rewrite shiftr_div by (unfold PGSHIFT; lia).
  assert (0 <= idxbits vm) by (destruct (vm_digits vm Hvm) as [[-> _]|[-> _]]; lia).
  rewrite (land_mod _ _ (idxbits vm)) by (lia || by rewrite shiftl_mul, Z.mul_1_l by lia).
  unfold PGSHIFT. rewrite (Z.mul_comm (Z.of_nat i)). do 2 f_equal. by case_bool_decide; rewrite Z.add_0_r.
Qed.

Lemma index2_vpn va i : (i < depth sc)%nat ->
  (va .>> (PGSHIFT + Z.of_nat i * idxbits vm)) .&
    (u64 (1 .<< (if Z.of_nat i =? levels vm - 1 then idxbits vm + widenbits vm else idxbits vm)) - 1) = vpn sc va i.
Proof.
  intros Hi. pose proof (shift_range i Hi). unfold vpn, sc, scheme_of. simpl. rewrite shiftr_div by (unfold PGSHIFT; lia).
  unfold sc, scheme_of in Hi. simpl in Hi. pose proof (vm_levels vm Hvm).
  rewrite low_mask.
  - unfold PGSHIFT. rewrite (Z.mul_comm (Z.of_nat i)). do 2 f_equal. destruct (Z.eqb_spec (Z.of_nat i) (levels vm - 1)); case_bool_decide; lia.
  - destruct (vm_digits vm Hvm) as [[-> _]|[-> _]], (vm_widen vm Hvm) as [-> | ->]; destruct (_ =? _); lia.
Qed.
End Scheme.
