(* ===== verification/MmuWalk.v ===== *)
(** * Spike: the page-table walks follow their paths

    Both loops of [Mmu], run on tables that lie in memory, give what the
    architecture's translation of [MmuSpec] gives, and leave memory as it says. *)

From stdpp Require Import base option list gmap.
From S2P Require Import Prelude.
From S2P Require Import Arith.
From S2P Require Import Pmp.
From S2P Require Import Devices.
From S2P Require Import DevicesFacts.
From S2P Require Import Mmu.
From S2P Require Import MmuSpec.
From S2P Require Import MmuFacts.

(** ** The walks *)

Section Walks.
Context {D : Type} `{Device D}.
Implicit Types b : bus_t D.

Context (h : hart_t) (vm : vm_info) (Hvm : vm_ok vm).
Let sc : scheme := scheme_of vm.

(** What an entry update does to the view of memory. *)
Definition updated (size : Z) (f : Z -> option Z) (u : option (Z * Z)) : Z -> option Z :=
  match u with None => f | Some (a, v) => poke f a (to_le (Z.to_nat size) v) end.

Definition readable (a : Z) : bool := pmp_ok (pmp h) a (ptesize vm) LOAD PRV_S.
Definition writable (a : Z) : bool := pmp_ok (pmp h) a (ptesize vm) STORE PRV_S.

Lemma page_entry b a : 0 <= a -> a mod PGSIZE + (ptesize vm) <= PGSIZE -> is_Some (peek b a) -> in_page b (ptesize vm) a.
Proof. intros H1 H2 H3. split; [done|]. split; [|done]. destruct (entry_size vm Hvm) as [E|E]; rewrite E; lia. Qed.

Lemma in_page_shows b0 b n a : shows b0 b (peek b0) -> in_page b0 n a -> in_page b n a.
Proof. intros (_ & _ & E) (H1 & H2 & H3 & H4). repeat split; try done. by rewrite E. Qed.

Lemma superpage_mask e n : (n < depth sc)%nat -> nz (e_ppn e .& (u64 (1 .<< (Z.of_nat n * idxbits vm)) - 1)) = negb (superpage_aligned sc n e).
Proof.
  intros Hn. rewrite low_mask by (apply (shift_range vm Hvm n); unfold sc in *; lia). unfold superpage_aligned, sc, scheme_of. simpl.
  by rewrite (Z.mul_comm (Z.of_nat n)).
Qed.

Lemma user_denied e s_mode sum ty :
  (if e_u e then s_mode && (bool_decide (ty = FETCH) || negb sum) else negb s_mode) = negb (user_rule s_mode sum ty e).
Proof. unfold user_rule. destruct (e_u e), s_mode, sum, ty; reflexivity. Qed.

(** *** The second stage *)

Section Stage2.
Context (gva gpa : Z) (type trap_type : access_type) (virt hx is_pt : bool).
Hypothesis Hgpa : 0 <= gpa < 2 ^ 64.

Definition s2_features : features := Features (svnapot h) (nz (menvcfg h .& MENVCFG_PBMTE)) (nz (menvcfg h .& MENVCFG_ADUE)).
Definition s2_mxr : bool := nz (sstatus_readvirt h false .& MSTATUS_MXR).

Definition guest_fault : result Z := Throw (MemTrap (guest_cause trap_type) true gva (gpa .>> 2) (tinst_of h type is_pt)).
Definition access_fault (ty : access_type) : result Z := Throw (MemTrap (access_cause ty) virt gva 0 0).

Definition s2_rule (e : Z) : bool := e_u e && permits s2_mxr hx type e.

Definition s2_at (b0 : bus_t D) (n : nat) (base : Z) : result Z * option (Z * Z) :=
  match resolve sc readable (int_at b0 (ptesize vm)) gpa n base with
  | Hidden => (access_fault trap_type, None)
  | NoEntry => (guest_fault, None)
  | Found i a e => finish_at Ok guest_fault (access_fault type) sc s2_features s2_rule type writable gpa i a e
  end.

Lemma s2_loop_resolves b0 n : forall base b, bytes_ok b0 -> bus_wf b0 -> shows b0 b (peek b0) -> (n <= depth sc)%nat ->
  0 <= base < 2 ^ 57 -> base mod 4096 = 0 ->
  Forall (fun a => readable a = true -> is_Some (peek b0 a)) (path sc readable (int_at b0 (ptesize vm)) gpa n base) ->
  let out := s2_at b0 n base in
  exists b', s2_loop h vm gva gpa type trap_type virt hx is_pt n base b = (out.1, b') /\ shows b0 b' (updated (ptesize vm) (peek b0) out.2).
Proof.
  induction n as [|n IH]; intros base b Hbytes Hwf Hs Hn Hb Hm Hpath; [by exists b|].
  unfold s2_at. cbn [resolve path s2_loop] in *. rewrite (index2_vpn vm Hvm gpa n) by (unfold sc in *; lia). fold sc.
  destruct (entry_in_page vm Hvm base gpa n Hb Hm) as (Ha & Hp & Ea). fold sc in Ha, Hp, Ea. rewrite Ea. change (esize sc) with (ptesize vm) in *.
  set (a := base + vpn sc gpa n * (ptesize vm)) in *. inversion Hpath as [|? ? Hres Hrest]; subst.
  destruct (readable a) eqn:Er; cbn [negb andb] in *.
  2:{ exists b. unfold bind. rewrite (pte_load_hidden h b (ptesize vm) a) by (done || apply (entry_size vm Hvm)). done. }
  pose proof (page_entry b0 a Ha Hp (Hres eq_refl)) as Hpage.
  destruct (pte_load_mem h b (ptesize vm) a gva virt trap_type (proj1 Hs) (entry_size vm Hvm) (in_page_shows _ _ _ _ Hs Hpage) Er) as (b1 & E1 & Hs1).
  unfold bind at 1. rewrite E1. rewrite (int_at_shows b0 b (ptesize vm) a Hs).
  assert (shows b0 b1 (peek b0)) as Hs01 by (apply (shows_trans _ _ _ _ _ Hs), (shows_ext _ _ _ _ Hs1), Hs).
  pose proof (int_at_range b0 (ptesize vm) a Hbytes ltac:(destruct (entry_size vm Hvm) as [E|E]; rewrite E; lia)) as He.
  set (e := int_at b0 (ptesize vm) a) in *. clearbody e. rewrite (pte_ppn_field e) by lia.
  destruct (next_base e ltac:(lia)) as (Enext & Hnb & Hnm). rewrite pte_ppn_field in Enext by lia.
  rewrite pte_denies_permits. rewrite (pointer_exact h (nz (menvcfg h .& MENVCFG_PBMTE)) e) in *.
  pose proof (leaf_checks h (nz (menvcfg h .& MENVCFG_PBMTE)) (nz (menvcfg h .& MENVCFG_ADUE)) e) as Hwell. fold s2_features in Hwell.
  destruct (pte_reserved _ _ _); cbn [negb andb] in *.
  { exists b1. unfold finish_at. rewrite Hwell. done. }
  destruct (PTE_TABLE e); cbn [negb andb] in *.
  { destruct (nz (e .& _)); cbn [negb] in *.
    - exists b1. unfold finish_at. rewrite Hwell. done.
    - rewrite Enext. apply IH; try done. lia. }
  destruct (negb (nz (e .& PTE_V)) || _); cbn [negb andb] in Hwell; [exists b1; unfold finish_at; by rewrite Hwell|].
  unfold finish_at. rewrite Hwell, pte_u, (superpage_mask e n) by (lia || done). unfold s2_rule. fold s2_mxr.
  destruct (e_u e); [|by exists b1]. destruct (permits s2_mxr hx type e); [|by exists b1].
  destruct (superpage_aligned sc n e) eqn:Esup; [|by exists b1]. cbn [negb andb].
  rewrite ad_missing, ad_added, bad_napot_ok by lia.
  assert (forall b2, (if negb (napot_ok n e) then guest_page_fault h gva gpa type trap_type is_pt
     else ret (page_base e (gpa .>> PGSHIFT) (Z.of_nat n * idxbits vm) .| (gpa .& page_mask))) b2 =
     (if napot_ok n e then Ok (frame_address sc n e gpa) else guest_fault, b2)) as Hfin.
  { intros b2. destruct (napot_ok n e) eqn:En; [|done]. cbn [negb].
    change (idxbits vm) with (digit sc). rewrite (page_base_frame sc e gpa n); [done|lia|done|apply (shift_range vm Hvm n); unfold sc in *; lia|done..]. }
  destruct (ad_set type e); cbn [negb]; [exists b1; rewrite Hfin; done|].
  change (updates_ad s2_features) with (nz (menvcfg h .& MENVCFG_ADUE)). destruct (nz (menvcfg h .& MENVCFG_ADUE)); cbn [negb]; [|by exists b1].
  destruct (writable a) eqn:Ew; cbn [negb].
  2:{ exists b1. unfold bind. rewrite (pte_store_hidden h b1 (ptesize vm) a) by (done || apply (entry_size vm Hvm)). done. }
  destruct (pte_store_mem h b1 (ptesize vm) a (set_ad type e) gva virt type (proj1 Hs1) (entry_size vm Hvm) (in_page_shows _ _ _ _ Hs01 Hpage) Ew) as (b2 & E2 & Hs2).
  { apply set_ad_range; [|done]. destruct (entry_size vm Hvm) as [-> | ->]; lia. }
  exists b2. unfold bind. rewrite E2, Hfin. split; [done|].
  apply (shows_trans _ _ _ _ _ Hs01), (shows_ext _ _ _ _ Hs2). apply poke_ext, Hs01.
Qed.
End Stage2.

(** *** The first stage

    Its tables are read through the second stage, which takes the guest address of
    an entry to [g]. *)

Section Stage1.
Context (info : mem_access_info_t) (g : Z -> Z).
Hypothesis Hva : 0 <= vaddr info < 2 ^ 64.
Hypothesis Hwiden : widenbits vm = 0.

Definition s1_features : features :=
  Features (svnapot h)
    (if effective_virt info then nz (henvcfg h .& HENVCFG_PBMTE) else nz (menvcfg h .& MENVCFG_PBMTE))
    (if effective_virt info then nz (henvcfg h .& HENVCFG_ADUE) else nz (menvcfg h .& MENVCFG_ADUE)).

Definition s1_mxr : bool := nz ((sstatus_readvirt h false .| sstatus_readvirt h (effective_virt info)) .& MSTATUS_MXR).
Definition s1_sum : bool := nz (sstatus_readvirt h (effective_virt info) .& MSTATUS_SUM).

Definition s1_fault : result Z := Throw (MemTrap (page_cause (type info)) (effective_virt info) (vaddr info) 0 0).
Definition s1_access_fault : result Z := Throw (MemTrap (access_cause (type info)) (effective_virt info) (vaddr info) 0 0).

Definition s1_rule (e : Z) : bool :=
  user_rule (effective_priv info =? PRV_S) s1_sum (type info) e && permits s1_mxr (hlvx (flags info)) (type info) e.

Definition s1_at (b0 : bus_t D) (n : nat) (base : Z) : result Z * option (Z * Z) :=
  match resolve sc (fun a => readable (g a)) (fun a => int_at b0 (ptesize vm) (g a)) (vaddr info) n base with
  | Hidden => (s1_access_fault, None)
  | NoEntry => (s1_fault, None)
  | Found i a e => finish_at Ok s1_fault s1_access_fault sc s1_features s1_rule (type info) (fun a => writable (g a)) (vaddr info) i a e
  end.

(** The page of the address the first stage gives, through the second stage. *)
Definition last_stage (phys : Z) : M Z :=
  bind (s2xlate h (vaddr info) phys (type info) (type info) (effective_virt info) (hlvx (flags info)) false)
    (fun pa => ret (pa .& u64 (Z.lnot page_mask))).

(** The second stage takes the entry at [a] to [g a], for reading and for setting its bits. *)
Definition table_mapped (b0 : bus_t D) (a : Z) : Prop :=
  forall ty b, ty = LOAD \/ ty = STORE -> shows b0 b (peek b0) ->
    exists b', s2xlate h (vaddr info) a ty (type info) (effective_virt info) false true b = (Ok (g a), b') /\ shows b0 b' (peek b0).

Lemma walk_loop_resolves b0 n : forall base b, bytes_ok b0 -> bus_wf b0 -> shows b0 b (peek b0) -> (n <= depth sc)%nat ->
  0 <= base < 2 ^ 57 -> base mod 4096 = 0 ->
  Forall (fun a => table_mapped b0 a /\ (readable (g a) = true -> in_page b0 (ptesize vm) (g a)))
    (path sc (fun a => readable (g a)) (fun a => int_at b0 (ptesize vm) (g a)) (vaddr info) n base) ->
  let out := s1_at b0 n base in
  exists b', walk_loop h vm info n base b = bind (fun _ => (out.1, b')) last_stage b /\
    shows b0 b' (updated (ptesize vm) (peek b0) (match out.2 with Some (a, v) => Some (g a, v) | None => None end)).
Proof.
  induction n as [|n IH]; intros base b Hbytes Hwf Hs Hn Hb Hm Hpath; [by exists b|].
  unfold s1_at. cbn [resolve path walk_loop] in *. rewrite (index_vpn vm Hvm (vaddr info) n) by (unfold sc in *; lia || done). fold sc.
  destruct (entry_in_page vm Hvm base (vaddr info) n Hb Hm) as (Ha & Hp & Ea). fold sc in Ha, Hp, Ea. rewrite Ea. clear Ea.
  change (esize sc) with (ptesize vm) in *.
  set (a := base + vpn sc (vaddr info) n * ptesize vm) in *. inversion Hpath as [|? ? [Hmap Hres] Hrest]; subst.
  destruct (Hmap LOAD b ltac:(by left) Hs) as (b1 & E1 & Hs1). unfold bind at 1. rewrite E1.
  destruct (readable (g a)) eqn:Er; cbn [negb andb] in *.
  2:{ exists b1. unfold bind at 1. rewrite (pte_load_hidden h b1 (ptesize vm) (g a)) by (done || apply (entry_size vm Hvm)). done. }
  pose proof (Hres eq_refl) as Hpage.
  destruct (pte_load_mem h b1 (ptesize vm) (g a) (vaddr info) (effective_virt info) (type info) (proj1 Hs1) (entry_size vm Hvm) (in_page_shows _ _ _ _ Hs1 Hpage) Er) as (b2 & E2 & Hs2).
  unfold bind at 1. rewrite E2. rewrite (int_at_shows b0 b1 (ptesize vm) (g a) Hs1).
  assert (shows b0 b2 (peek b0)) as Hs02 by (apply (shows_trans _ _ _ _ _ Hs1), (shows_ext _ _ _ _ Hs2), Hs1).
  pose proof (int_at_range b0 (ptesize vm) (g a) Hbytes ltac:(destruct (entry_size vm Hvm) as [E|E]; rewrite E; lia)) as He.
  set (e := int_at b0 (ptesize vm) (g a)) in *. clearbody e. rewrite (pte_ppn_field e) by lia.
  destruct (next_base e ltac:(lia)) as (Enext & Hnb & Hnm). rewrite pte_ppn_field in Enext by lia.
  rewrite pte_denies_permits. set (pbmte := if effective_virt info then nz (henvcfg h .& HENVCFG_PBMTE) else nz (menvcfg h .& MENVCFG_PBMTE)) in *.
  rewrite (pointer_exact h pbmte e) in *.
  assert (well_formed s1_features e = negb (pte_reserved h pbmte e) && negb (PTE_TABLE e) && negb (negb (nz (e .& PTE_V)) || (negb (nz (e .& PTE_R)) && nz (e .& PTE_W)))) as Hwell by apply leaf_checks.
  destruct (pte_reserved _ _ _); cbn [negb andb] in *.
  { exists b2. unfold finish_at. rewrite Hwell. done. }
  destruct (PTE_TABLE e); cbn [negb andb] in *.
  { destruct (nz (e .& _)); cbn [negb] in *.
    - exists b2. unfold finish_at. rewrite Hwell. done.
    - rewrite Enext. destruct (IH (e_ppn e * 4096) b2) as (b3 & E3 & Hs3); try done; [lia|]. exists b3. by rewrite E3. }
  unfold finish_at, s1_rule. rewrite Hwell, pte_u, (superpage_mask e n), user_denied by (lia || done). fold s1_mxr s1_sum.
  destruct (user_rule _ s1_sum (type info) e); cbn [negb andb]; [|exists b2; by rewrite andb_false_r].
  destruct (negb (nz (e .& PTE_V)) || _); cbn [negb andb]; [by exists b2|].
  destruct (permits s1_mxr _ (type info) e); [|by exists b2].
  destruct (superpage_aligned sc n e) eqn:Esup; [|by exists b2]. cbn [negb andb].
  rewrite ad_missing, ad_added, bad_napot_ok by lia.
  set (fin := if negb (napot_ok n e) then _ else _).
  assert (forall b3 b', fin b3 = bind (fun _ => (if napot_ok n e then Ok (frame_address sc n e (vaddr info)) else s1_fault, b3)) last_stage b') as Hfin.
  { intros b3 b'. subst fin. destruct (napot_ok n e) eqn:En; [|done]. cbn [negb]. change (idxbits vm) with (digit sc).
    rewrite (page_base_frame sc e (vaddr info) n); [done|lia|done|apply (shift_range vm Hvm n); unfold sc in *; lia|done..]. }
  destruct (ad_set (type info) e); cbn [negb]; [exists b2; by rewrite (Hfin b2 b)|].
  change (updates_ad s1_features) with (if effective_virt info then nz (henvcfg h .& HENVCFG_ADUE) else nz (menvcfg h .& MENVCFG_ADUE)).
  destruct (if effective_virt info then nz (henvcfg h .& HENVCFG_ADUE) else _); cbn [negb]; [|by exists b2].
  destruct (Hmap STORE b2 ltac:(by right) Hs02) as (b3 & E3 & Hs3). unfold bind at 1. rewrite E3. unfold bind at 1.
  destruct (writable (g a)) eqn:Ew; cbn [negb].
  2:{ exists b3. rewrite (pte_store_hidden h b3 (ptesize vm) (g a)) by (done || apply (entry_size vm Hvm)). done. }
  destruct (pte_store_mem h b3 (ptesize vm) (g a) (set_ad (type info) e) (vaddr info) (effective_virt info) (type info) (proj1 Hs3) (entry_size vm Hvm) (in_page_shows _ _ _ _ Hs3 Hpage) Ew) as (b4 & E4 & Hs4).
  { apply set_ad_range; [|done]. destruct (entry_size vm Hvm) as [-> | ->]; lia. }
  exists b4. rewrite E4, (Hfin b4 b). split; [done|].
  apply (shows_trans _ _ _ _ _ Hs3), (shows_ext _ _ _ _ Hs4). apply poke_ext, Hs3.
Qed.
End Stage1.
End Walks.
