(* ===== verification/MmuStages.v ===== *)
(** * Spike: the two stages of translation and their registers

    The modes [decode_vm_info] knows, canonical addresses, and [walk] and
    [s2xlate] as the stages of the architecture.

    Every sequence of writes to [satp], [vsatp] and [hgatp] leaves modes that
    [decode_vm_info] knows. *)

From stdpp Require Import base option list gmap.
From S2P Require Import Prelude.
From S2P Require Import Arith.
From S2P Require Import Pmp.
From S2P Require Import Devices.
From S2P Require Import DevicesFacts.
From S2P Require Import Mmu.
From S2P Require Import MmuSpec.
From S2P Require Import MmuFacts.
From S2P Require Import MmuWalk.

(** ** The modes *)

Lemma masked_base x m : 0 <= m < 2 ^ 44 -> 0 <= u64 ((x .& m) .<< PGSHIFT) < 2 ^ 57 /\ u64 ((x .& m) .<< PGSHIFT) mod 4096 = 0.
Proof.
  intros Hm. pose proof (land_le_r x m ltac:(lia)). unfold PGSHIFT. rewrite shiftl_mul by lia. change (2 ^ 12) with 4096.
  rewrite uwrap_small by lia. split; [lia|]. apply Z.mod_mul. lia.
Qed.

Lemma decode_stage1 xlen prv satp vm : decode_vm_info xlen false prv satp = Some vm -> levels vm <> 0 -> levels vm <> 6 ->
  vm_ok vm /\ widenbits vm = 0 /\ 0 < xlen - (PGSHIFT + levels vm * idxbits vm - 1) < 64 /\ (xlen = 32 \/ xlen = 64).
Proof.
  unfold decode_vm_info. destruct (prv =? PRV_M); [intros [= <-]; done|]. cbn [negb andb]. destruct (prv <=? PRV_S); cbn [andb]; [|done].
  pose proof (masked_base satp SATP32_PPN ltac:(done)). pose proof (masked_base satp SATP64_PPN ltac:(done)).
  destruct (Z.eqb_spec xlen 32) as [->|]; [|destruct (Z.eqb_spec xlen 64) as [->|]; [|done]]; cbn [andb];
    repeat (destruct (_ =? _)); intros [= <-]; cbn; try done; intros _ Hn; try done;
    (split; [constructor; cbn; auto; lia|unfold PGSHIFT; lia]).
Qed.

Lemma decode_stage2 xlen atp vm : decode_vm_info xlen true 0 atp = Some vm -> levels vm <> 0 ->
  vm_ok vm /\ 0 < levels vm * idxbits vm + widenbits vm + PGSHIFT < 64.
Proof.
  unfold decode_vm_info. change (0 =? PRV_M) with false. cbn [negb andb].
  pose proof (masked_base atp HGATP32_PPN ltac:(done)). pose proof (masked_base atp HGATP64_PPN ltac:(done)).
  destruct (Z.eqb_spec xlen 32) as [->|]; [|destruct (Z.eqb_spec xlen 64) as [->|]; [|done]]; cbn [andb];
    repeat (destruct (_ =? _)); intros [= <-]; cbn; try done; intros Hn;
    (split; [constructor; cbn; auto; lia|unfold PGSHIFT; lia]).
Qed.

(** ** Canonical addresses *)

(** The bits above [bits - 1], up to [xlen], repeat that bit. *)
Definition canonical (xlen bits va : Z) : bool := (- 2 ^ (bits - 1) <=? swrap xlen va) && (swrap xlen va <? 2 ^ (bits - 1)).

Lemma canonical_msbs xlen bits va : 0 < bits -> 0 < xlen - (bits - 1) < 64 ->
  let mask := u64 (1 .<< (xlen - (bits - 1))) - 1 in
  let msbs := (va .>> (bits - 1)) .& mask in
  canonical xlen bits va = (msbs =? 0) || (msbs =? mask).
Proof.
  intros Hb Hk. set (k := xlen - (bits - 1)) in *. cbv zeta. rewrite low_mask, shiftr_div by lia.
  rewrite shiftl_mul, Z.mul_1_l by lia. rewrite (uwrap_small 64 (2 ^ k)) by (split; [apply Z.lt_le_incl, pow2_pos; lia|apply pow2_lt; lia]).
  unfold canonical, swrap. set (p := 2 ^ (bits - 1)). assert (0 < p) by (apply pow2_pos; lia). assert (0 < 2 ^ k) by (apply pow2_pos; lia).
  assert (2 ^ xlen = p * 2 ^ k) as Ex by (unfold p; rewrite <- pow2_split by lia; f_equal; lia).
  assert (2 ^ xlen = 2 * 2 ^ (xlen - 1)) as Ex1 by (apply pow2_pred; lia).
  assert (2 ^ (xlen - 1) = p * 2 ^ (k - 1)) as Ex2 by (unfold p; rewrite <- pow2_split by lia; f_equal; lia).
  assert (0 < 2 ^ (k - 1)) as Hk1 by (apply pow2_pos; lia). assert (2 ^ k = 2 * 2 ^ (k - 1)) as Ek by (apply pow2_pred; lia).
  rewrite Ex, Ex2. set (h := 2 ^ (k - 1)) in *. clearbody h p. clear Ex Ex1 Ex2. rewrite Ek in *. clear Ek.
  pose proof (Z.div_mod va p ltac:(lia)) as Hd. pose proof (Z.mod_pos_bound va p ltac:(lia)) as Hm. set (q := va / p) in *. set (r := va mod p) in *.
  pose proof (Z.div_mod q (2 * h) ltac:(lia)) as Hd2. pose proof (Z.mod_pos_bound q (2 * h) ltac:(lia)) as Hm2.
  set (q1 := q / (2 * h)) in *. set (q0 := q mod (2 * h)) in *. clearbody q r q0 q1. subst va q.
  apply eq_true_iff_eq. rewrite andb_true_iff, orb_true_iff, !Z.eqb_eq, Z.leb_le, Z.ltb_lt.
  assert (p * (2 * h * q1 + q0) + r + p * h = (p * q0 + r + p * h) + q1 * (p * (2 * h))) as -> by ring.
  rewrite Z.mod_add by nia. destruct (Z.lt_ge_cases (p * q0 + r + p * h) (p * (2 * h))) as [Hlt|Hge].
  - rewrite Z.mod_small by nia. split; [|intros [->| ->]; nia]. intros [H1 H2]. left. nia.
  - assert ((p * q0 + r + p * h) mod (p * (2 * h)) = p * q0 + r + p * h - p * (2 * h)) as ->.
    { symmetry. apply (Z.mod_unique _ _ 1); nia. }
    split; [|intros [->| ->]; nia]. intros [H1 H2]. right. nia.
Qed.

(** ** The stages, as the architecture has them *)

Section Theorems.
Context {D : Type} `{Device D}.
Implicit Types b : bus_t D.

(** The integer of [n] bytes at an address of a view of memory. *)
Definition int_of (f : Z -> option Z) (n a : Z) : Z := from_le (bytes_at (fun x => default 0 (f x)) a n).

Implicit Types f : Z -> option Z.

Definition stage1 (h : hart_t) (vm : vm_info) (info : mem_access_info_t) (g : Z -> Z) f : result Z * option (Z * Z) :=
  if canonical (hart_xlen h) (12 + levels vm * idxbits vm) (vaddr info) then
    translation Ok (s1_fault info) (s1_access_fault info) (s1_access_fault info) (scheme_of vm) (s1_features h info) (s1_rule h info) (type info)
      (fun a => readable h vm (g a)) (fun a => writable h vm (g a)) (fun a => int_of f (ptesize vm) (g a)) (ptbase vm) (vaddr info)
  else (s1_fault info, None).

Definition stage2 (h : hart_t) (vm : vm_info) (gva gpa : Z) (ty trap_type : access_type) (hx is_pt : bool) f : result Z * option (Z * Z) :=
  if gpa <? 2 ^ (12 + levels vm * idxbits vm + widenbits vm) then
    translation Ok (guest_fault h gva gpa ty trap_type is_pt) (access_fault gva true trap_type) (access_fault gva true ty)
      (scheme_of vm) (s2_features h) (s2_rule h ty hx) ty (readable h vm) (writable h vm) (int_of f (ptesize vm)) (ptbase vm) gpa
  else (guest_fault h gva gpa ty trap_type is_pt, None).

(** The entries on the way to an address, as the stage's tables hold them. *)
Definition entries (h : hart_t) (vm : vm_info) (g : Z -> Z) f (va : Z) : list Z :=
  path (scheme_of vm) (fun a => readable h vm (g a)) (fun a => int_of f (ptesize vm) (g a)) va (depth (scheme_of vm)) (ptbase vm).

(** The entries that may be read are in memory. *)
Definition resident (h : hart_t) (vm : vm_info) (g : Z -> Z) f (va : Z) : Prop :=
  Forall (fun a => readable h vm (g a) = true -> is_Some (f (g a))) (entries h vm g f va).

Definition well_behaved b : Prop := bus_wf b /\ bytes_ok b.

Lemma path_entries vm vis read va n : vm_ok vm -> forall base, 0 <= base < 2 ^ 57 -> base mod 4096 = 0 ->
  Forall (fun a => 0 <= a < 2 ^ 64 /\ a mod PGSIZE + ptesize vm <= PGSIZE) (path (scheme_of vm) vis read va n base).
Proof.
  intros Hvm. induction n as [|n IH]; intros base Hb Hm; simpl; constructor.
  - destruct (entry_in_page vm Hvm base va n Hb Hm) as (H1 & H2 & E). split; [|done]. split; [done|]. rewrite <- E. apply uwrap_range. lia.
  - destruct (_ && _); [|constructor]. pose proof (e_ppn_range (read (base + vpn (scheme_of vm) va n * ptesize vm))).
    apply IH; [lia|]. apply Z.mod_mul. lia.
Qed.

Lemma s2xlate_stage2 h vm gva gpa ty trap_type hx is_pt b0 b :
  well_behaved b0 -> shows b0 b (peek b0) -> decode_vm_info (hart_xlen h) true 0 (hgatp h) = Some vm -> levels vm <> 0 ->
  0 <= gpa < 2 ^ 64 -> resident h vm id (peek b0) gpa ->
  let out := stage2 h vm gva gpa ty trap_type hx is_pt (peek b0) in
  exists b', s2xlate h gva gpa ty trap_type true hx is_pt b = (out.1, b') /\ shows b0 b' (updated (ptesize vm) (peek b0) out.2).
Proof.
  intros [Hwf Hby] Hs Hd Hl Hg Hres. destruct (decode_stage2 _ _ _ Hd Hl) as [Hvm Hbits]. cbv zeta. unfold s2xlate, stage2. cbn [negb]. rewrite Hd.
  destruct (Z.eqb_spec (levels vm) 0); [done|]. rewrite clear_low by lia.
  replace (12 + levels vm * idxbits vm + widenbits vm) with (levels vm * idxbits vm + widenbits vm + PGSHIFT) by (unfold PGSHIFT; lia).
  set (w := levels vm * idxbits vm + widenbits vm + PGSHIFT) in *. pose proof (pow2_pos w ltac:(lia)) as Hp.
  assert ((gpa / 2 ^ w * 2 ^ w =? 0) = (gpa <? 2 ^ w)) as ->.
  { apply eq_true_iff_eq. rewrite Z.eqb_eq, Z.ltb_lt. pose proof (Z.div_mod gpa (2 ^ w)). pose proof (Z.mod_pos_bound gpa (2 ^ w)).
    pose proof (Z.div_pos gpa (2 ^ w)). split; intros; [nia|]. rewrite Z.div_small by lia. done. }
  destruct (gpa <? 2 ^ w); [|by exists b].
  destruct (vm_base vm Hvm) as [Hb Hm].
  apply (s2_loop_resolves h vm Hvm gva gpa ty trap_type true hx is_pt Hg b0 (Z.to_nat (levels vm))); try done.
Qed.

Lemma frame_offset vm i e va : vm_ok vm -> (i < depth (scheme_of vm))%nat -> frame_address (scheme_of vm) i e va mod 4096 = va mod 4096.
Proof.
  intros Hvm Hi. unfold frame_address. set (s := span _ i e). assert (exists k, 0 < k /\ s = k * 4096) as (k & Hk & ->).
  { unfold s, span. destruct (e_n e); [by exists 16|]. exists (2 ^ (digit (scheme_of vm) * Z.of_nat i)). pose proof (shift_range vm Hvm i Hi).
    rewrite pow2_split by lia. split; [apply pow2_pos; lia|]. change (2 ^ 12) with 4096. lia. }
  rewrite Z.mul_assoc, Z.add_comm, Z.mod_add by lia. rewrite (Z.mul_comm k), Z.rem_mul_r by lia. rewrite (Z.mul_comm 4096), Z.mod_add by lia. apply Z.mod_mod. lia.
Qed.

Lemma frame_range vm i e va : vm_ok vm -> (i < depth (scheme_of vm))%nat -> 0 <= va -> 0 <= frame_address (scheme_of vm) i e va < 2 ^ 57.
Proof.
  intros Hvm Hi Hva. unfold frame_address. set (s := span _ i e). assert (0 < s <= 2 ^ 56) as Hs.
  { unfold s, span. destruct (e_n e); [lia|]. pose proof (shift_range vm Hvm i Hi). split; [apply pow2_pos; lia|apply pow2_le; lia]. }
  pose proof (e_ppn_range e). pose proof (Z.mod_pos_bound va s). pose proof (Z.mul_div_le (e_ppn e * 4096) s ltac:(lia)).
  assert (0 <= e_ppn e * 4096 / s) by (apply Z.div_pos; lia). nia.
Qed.

Lemma found_depth sc vis read va n base i a e : resolve sc vis read va n base = Found i a e -> (i < n)%nat.
Proof.
  revert base. induction n as [|n IH]; intros base; simpl; [done|]. destruct (negb _); [done|]. destruct (pointer _).
  - intros E%IH. lia.
  - intros [= <- <- <-]. lia.
Qed.

(** The address a stage gives keeps the offset in the page. *)
Lemma translation_offset fault no_access no_update vm ft rule ty vis wr read root va pa :
  vm_ok vm -> 0 <= va -> (forall x, fault <> Ok x) -> (forall x, no_access <> Ok x) -> (forall x, no_update <> Ok x) ->
  (translation Ok fault no_access no_update (scheme_of vm) ft rule ty vis wr read root va).1 = Ok pa ->
  0 <= pa < 2 ^ 57 /\ pa mod 4096 = va mod 4096.
Proof.
  intros Hvm Hva H1 H2 H3. unfold translation. destruct (resolve _ _ _ _ _ _) as [i a e| |] eqn:E; simpl; [|intros E'; by destruct (H1 pa)|intros E'; by destruct (H2 pa)].
  apply found_depth in E. pose proof (frame_range vm i e va Hvm E Hva). pose proof (frame_offset vm i e va Hvm E).
  unfold finish_at. destruct (negb _); simpl; [intros E'; by destruct (H1 pa)|].
  destruct (ad_set _ _), (negb (updates_ad ft)), (negb (wr a)), (napot_ok i e); simpl; intros E';
    first [by destruct (H1 pa)|by destruct (H3 pa)|injection E' as <-; done].
Qed.

Lemma walk_stage1 h vm info g b :
  well_behaved b -> decode_vm_info (hart_xlen h) false (effective_priv info) (satp_readvirt h (effective_virt info)) = Some vm ->
  levels vm <> 0 -> levels vm <> 6 -> 0 <= vaddr info < 2 ^ 64 ->
  Forall (fun a => table_mapped h info g b a /\ (readable h vm (g a) = true -> in_page b (ptesize vm) (g a))) (entries h vm g (peek b) (vaddr info)) ->
  let out := stage1 h vm info g (peek b) in
  exists b', walk h info b = bind (fun _ => (out.1, b')) (last_stage h info) b /\
    shows b b' (updated (ptesize vm) (peek b) (match out.2 with Some (a, v) => Some (g a, v) | None => None end)).
Proof.
  intros [Hwf Hby] Hd Hl0 Hl6 Hva Hent. destruct (decode_stage1 _ _ _ _ Hd Hl0 Hl6) as (Hvm & Hw & Hmask & Hx). destruct (vm_base vm Hvm) as [Hb Hm].
  pose proof (vm_levels vm Hvm) as Hl. assert (0 < levels vm * idxbits vm) by (destruct (vm_digits vm Hvm) as [[-> _]|[-> _]]; lia).
  cbv zeta. unfold walk, stage1. rewrite Hd. destruct (Z.eqb_spec (levels vm) 0); [done|].
  change PGSHIFT with 12 in *. set (va_bits := 12 + levels vm * idxbits vm) in *.
  destruct (Z.ltb_spec (hart_xlen h - (va_bits - 1)) 0); [lia|]. destruct (Z.leb_spec 64 (hart_xlen h - (va_bits - 1))); [lia|]. cbn [orb].
  rewrite (canonical_msbs (hart_xlen h) va_bits (vaddr info)) by lia.
  set (m := u64 (1 .<< (hart_xlen h - (va_bits - 1))) - 1). set (msbs := (vaddr info .>> (va_bits - 1)) .& m).
  destruct (msbs =? 0), (msbs =? m); cbn [negb andb orb].
  4:{ by exists b. }
  all: apply (walk_loop_resolves h vm Hvm info g Hva Hw b (Z.to_nat (levels vm)) (ptbase vm) b); try done.
Qed.
End Theorems.

(** ** The end of a translation *)

Section Translate.
Context {D : Type} `{Device D}.
Implicit Types b : bus_t D.

(** The last check: physical memory protection of the address itself. *)
Definition guarded (h : hart_t) (info : mem_access_info_t) (len : Z) (r : result Z) : result Z :=
  match r with
  | Ok pa => if pmp_ok (pmp h) pa len (type info) (effective_priv info) then Ok pa else s1_access_fault info
  | r => r
  end.

(** The page from the walk and the offset give the address back. *)
Lemma page_and_offset pa va : 0 <= pa < 2 ^ 64 -> pa mod 4096 = va mod 4096 -> (pa .& u64 (Z.lnot page_mask)) .| (va .& (PGSIZE - 1)) = pa.
Proof.
  intros Hp E. unfold page_mask. change (u64 (Z.lnot (u64 (1 .<< PGSHIFT) - 1))) with (u64 (Z.lnot (u64 (1 .<< 12) - 1))).
  rewrite (clear_low pa 12) by lia. change (PGSIZE - 1) with page_mask. rewrite page_mask_mod. change (2 ^ 12) with 4096. rewrite <- E.
  change 4096 with (2 ^ 12). rewrite lor_low_add by (try lia; apply Z.mod_pos_bound; lia). pose proof (Z.div_mod pa (2 ^ 12)). lia.
Qed.

(** The end of [translate], run on what [walk] gives. *)
Lemma translate_page h info len b b' pa : walk h info b = (Ok (pa .& u64 (Z.lnot page_mask)), b') ->
  0 <= pa < 2 ^ 64 -> pa mod 4096 = vaddr info mod 4096 -> translate h info len b = (guarded h info len (Ok pa), b').
Proof.
  intros E Hp Hm. unfold translate, bind. rewrite E, page_and_offset by done. unfold guarded. by destruct (pmp_ok _ _ _ _ _).
Qed.

Lemma translate_trap h info len b b' (r : result Z) : walk h info b = (r, b') -> (forall x, r <> Ok x) -> translate h info len b = (guarded h info len r, b').
Proof. intros E Hr. unfold translate, bind. rewrite E. destruct r as [x| |]; [by destruct (Hr x)|done|done]. Qed.

Lemma stage1_range h vm info g f pa : vm_ok vm -> 0 <= vaddr info ->
  (stage1 h vm info g f).1 = Ok pa -> 0 <= pa < 2 ^ 57 /\ pa mod 4096 = vaddr info mod 4096.
Proof.
  intros Hvm Hva. unfold stage1. destruct (canonical _ _ _); [|done]. by apply translation_offset.
Qed.

Lemma stage2_range h vm gva gpa ty tt hx is_pt f pa : vm_ok vm -> 0 <= gpa ->
  (stage2 h vm gva gpa ty tt hx is_pt f).1 = Ok pa -> 0 <= pa < 2 ^ 57 /\ pa mod 4096 = gpa mod 4096.
Proof.
  intros Hvm Hg. unfold stage2. destruct (_ <? _); [|done]. by apply translation_offset.
Qed.

(** Without paging and virtualisation the address is cut to the register width. *)
Lemma translate_bare h info len vm b : hart_xlen h = 32 \/ hart_xlen h = 64 -> effective_virt info = false -> 0 <= vaddr info < 2 ^ 64 ->
  decode_vm_info (hart_xlen h) false (effective_priv info) (satp h) = Some vm -> levels vm = 0 ->
  translate h info len b = (guarded h info len (Ok (vaddr info mod 2 ^ hart_xlen h)), b).
Proof.
  intros Hx Hv Hva Hd E0. set (w := hart_xlen h) in *.
  assert (0 <= vaddr info mod 2 ^ w < 2 ^ 64 /\ (vaddr info mod 2 ^ w) mod 4096 = vaddr info mod 4096) as [Hr Hm].
  { split; [pose proof (Z.mod_pos_bound (vaddr info) (2 ^ w)); destruct Hx as [-> | ->]; lia|].
    destruct Hx as [-> | ->]; [change (2 ^ 32) with (4096 * 2 ^ 20)|change (2 ^ 64) with (4096 * 2 ^ 52)];
    rewrite Z.rem_mul_r by lia; rewrite (Z.mul_comm 4096), Z.mod_add by lia; apply Z.mod_mod; lia. }
  apply translate_page; [|done|done]. unfold walk. rewrite Hv. cbn [satp_readvirt]. unfold satp_readvirt. fold w. rewrite Hd, E0, Z.eqb_refl.
  unfold bind, s2xlate, ret. cbn [negb]. do 3 f_equal.
  destruct Hx as [-> | ->]; apply land_mod; lia || done.
Qed.

(** *** Two stages *)

Lemma updated_bytes size f u : (forall a x, f a = Some x -> 0 <= x < 256) -> forall a x, updated size f u a = Some x -> 0 <= x < 256.
Proof.
  intros Hf a x. unfold updated. destruct u as [[a' v]|]; [|apply Hf]. unfold poke. destruct (_ && _) eqn:E; [|apply Hf].
  intros [= <-]. pose proof (to_le_bytes (Z.to_nat size) v) as Hb. rewrite List.Forall_forall in Hb.
  apply andb_prop in E as [E1%Z.leb_le E2%Z.ltb_lt]. apply Hb, nth_In. lia.
Qed.

Lemma shows_well_behaved size b b1 u : well_behaved b -> shows b b1 (updated size (peek b) u) -> well_behaved b1.
Proof.
  intros [Hwf Hby] (W & _ & E). split; [done|]. intros a x Hx. rewrite E in Hx. by apply (updated_bytes size (peek b) u) in Hx.
Qed.

(** The stages see memory only as a view. *)
Lemma int_of_ext f1 f2 n a : (forall x, f1 x = f2 x) -> int_of f1 n a = int_of f2 n a.
Proof. intros E. unfold int_of. f_equal. apply bytes_at_ext. intros x _. by rewrite E. Qed.

Lemma resolve_ext sc vis read1 read2 va n : (forall a, read1 a = read2 a) -> forall base, resolve sc vis read1 va n base = resolve sc vis read2 va n base.
Proof.
  intros E. induction n as [|n IH]; intros base; simpl; [done|]. rewrite !E. destruct (negb _); [done|]. by rewrite IH.
Qed.

Lemma path_ext sc vis read1 read2 va n : (forall a, read1 a = read2 a) -> forall base, path sc vis read1 va n base = path sc vis read2 va n base.
Proof.
  intros E. induction n as [|n IH]; intros base; simpl; [done|]. rewrite !E. by rewrite IH.
Qed.

Lemma stage2_ext h vm gva gpa ty tt hx is_pt f1 f2 : (forall x, f1 x = f2 x) ->
  stage2 h vm gva gpa ty tt hx is_pt f1 = stage2 h vm gva gpa ty tt hx is_pt f2.
Proof.
  intros E. unfold stage2, translation. destruct (_ <? _); [|done].
  by rewrite (resolve_ext _ _ (int_of f1 (ptesize vm)) (int_of f2 (ptesize vm))) by (intros; by apply int_of_ext).
Qed.

Lemma resident_ext h vm g f1 f2 va : (forall x, f1 x = f2 x) -> resident h vm g f1 va -> resident h vm g f2 va.
Proof.
  intros E. unfold resident, entries. rewrite (path_ext _ _ (fun a => int_of f1 (ptesize vm) (g a)) (fun a => int_of f2 (ptesize vm) (g a))) by (intros; by apply int_of_ext).
  intros Hf. apply (Forall_impl _ _ _ Hf). intros a Ha Hr. rewrite <- E. auto.
Qed.

Lemma updated_ext size f1 f2 u : (forall x, f1 x = f2 x) -> forall x, updated size f1 u x = updated size f2 u x.
Proof. intros E x. destruct u as [[a v]|]; simpl; [by apply poke_ext|done]. Qed.

(** The second stage takes the entry of the first at [a] to [g a], whatever the
    access, without a change of its own tables. *)
Definition guest_table (h : hart_t) (vm2 : vm_info) (info : mem_access_info_t) (g : Z -> Z) f (a : Z) : Prop :=
  resident h vm2 id f a /\
  forall ty, ty = LOAD \/ ty = STORE -> stage2 h vm2 (vaddr info) a ty (type info) false true f = (Ok (g a), None).

End Translate.

(** ** The registers of the roots *)

Record atp_state : Type := AtpState { at_satp : Z; at_vsatp : Z; at_hgatp : Z }.

(** Writes by software: [satp] outside and inside a guest, [vsatp], [hgatp]. *)
Inductive atp_op : Type := WriteSatp (v : bool) (x : Z) | WriteVsatp (x : Z) | WriteHgatp (x : Z).

Definition run_atp (p : mmu_impl_t) (xlen : Z) (s : atp_state) (o : atp_op) : atp_state :=
  match o with
  | WriteSatp false x => AtpState (satp_write p xlen (at_satp s) x) (at_vsatp s) (at_hgatp s)
  | WriteSatp true x => AtpState (at_satp s) (satp_write p xlen (at_vsatp s) x) (at_hgatp s)
  | WriteVsatp x => AtpState (at_satp s) (atp_write p xlen (at_vsatp s) x) (at_hgatp s)
  | WriteHgatp x => AtpState (at_satp s) (at_vsatp s) (hgatp_write p xlen (at_hgatp s) x)
  end.

Definition mode_of (xlen x : Z) : Z := if xlen =? 32 then get_field 32 x SATP32_MODE else get_field 64 x SATP64_MODE.

Definition atp_valid (xlen x : Z) : Prop :=
  if xlen =? 32 then mode_of xlen x = 0 \/ mode_of xlen x = 1
  else mode_of xlen x = 0 \/ mode_of xlen x = 8 \/ mode_of xlen x = 9 \/ mode_of xlen x = 10.

Lemma get_field_land w x y m : x .& m = y .& m -> get_field w x m = get_field w y m.
Proof. unfold get_field. by intros ->. Qed.

Lemma mode_select xlen nm om v o (c : bool) :
  (let m := if xlen =? 32 then SATP32_MODE else SATP64_MODE in nm .& m = (if c then m else 0) /\ om .& m = if c then 0 else m) ->
  mode_of xlen ((nm .& v) .| (om .& o)) = mode_of xlen (if c then v else o).
Proof.
  unfold mode_of. cbv zeta. intros [Hn Ho]. destruct (xlen =? 32); apply get_field_land.
  all: apply Z.bits_inj'; intros i _; rewrite Z.land_spec, Z.lor_spec, !Z.land_spec.
  all: pose proof (f_equal (fun z => Z.testbit z i) Hn) as Hn'; pose proof (f_equal (fun z => Z.testbit z i) Ho) as Ho'; simpl in Hn', Ho'; rewrite Z.land_spec in Hn', Ho'.
  all: destruct c; rewrite ?Z.land_spec, ?Z.bits_0 in *.
  all: destruct (Z.testbit nm i), (Z.testbit om i), (Z.testbit _ i); simpl in *; try done; rewrite ?andb_true_r, ?andb_false_r, ?orb_false_r, ?orb_true_r; try done.
Qed.

Lemma satp_valid_mode p xlen x : satp_valid p xlen x = true -> atp_valid xlen x.
Proof.
  unfold satp_valid, atp_valid, mode_of. destruct (xlen =? 32).
  - destruct (Z.eqb_spec (get_field 32 x SATP32_MODE) SATP_MODE_SV32) as [E|_]; [by right|]. intros E%Z.eqb_eq. by left.
  - destruct (Z.eqb_spec (get_field 64 x SATP64_MODE) SATP_MODE_SV39) as [E|_]; [auto|].
    destruct (Z.eqb_spec (get_field 64 x SATP64_MODE) SATP_MODE_SV48) as [E|_]; [auto|].
    destruct (Z.eqb_spec (get_field 64 x SATP64_MODE) SATP_MODE_SV57) as [E|_]; [auto|]. intros E%Z.eqb_eq. by left.
Qed.

Lemma compute_new_satp_mode p xlen old x :
  mode_of xlen (compute_new_satp p xlen old x) = mode_of xlen (if satp_valid p xlen x then x else old).
Proof.
  unfold compute_new_satp. apply mode_select. destruct (xlen =? 32), (satp_valid p xlen x), (impl_asid p); split; reflexivity.
Qed.

Lemma atp_valid_zero xlen : atp_valid xlen 0.
Proof. unfold atp_valid, mode_of. destruct (xlen =? 32); by left. Qed.

Lemma atp_write_valid p xlen old x : atp_valid xlen old -> atp_valid xlen (atp_write p xlen old x).
Proof.
  intros Ho. unfold atp_write. destruct (impl_mmu p); [|apply atp_valid_zero].
  unfold atp_valid. rewrite compute_new_satp_mode. destruct (satp_valid p xlen x) eqn:E; [by apply satp_valid_mode in E|done].
Qed.

Lemma satp_write_valid p xlen old x : atp_valid xlen old -> atp_valid xlen (satp_write p xlen old x).
Proof. apply atp_write_valid. Qed.

Lemma hgatp_write_valid p xlen old x : atp_valid xlen old -> atp_valid xlen (hgatp_write p xlen old x).
Proof.
  intros Ho. unfold hgatp_write. destruct (Z.eqb_spec xlen 32) as [->|Hx].
  - assert (forall z, atp_valid 32 z) as Hall.
    { intros z. unfold atp_valid, mode_of. simpl. unfold get_field. change SATP32_MODE with (Z.ones 1 .<< 31). rewrite land_field, shiftl_mul by lia.
      change (_ .& uwrap 32 _) with (2 ^ 31). rewrite Z.div_mul by lia. pose proof (Z.mod_pos_bound (z / 2 ^ 31) (2 ^ 1)). lia. }
    apply Hall.
  - set (mode := get_field 64 x HGATP64_MODE). set (ok := (mode =? HGATP_MODE_OFF) || _ || _ || _).
    set (m0 := (HGATP64_PPN .& _) .| _). set (mask := (if ok then m0 .| HGATP64_MODE else m0) .& u64 (Z.lnot 3)).
    unfold atp_valid. destruct (Z.eqb_spec xlen 32); [done|].
    assert (mode_of xlen ((old .& u64 (Z.lnot mask)) .| (x .& mask)) = mode_of xlen (if ok then x else old)) as ->.
    { rewrite Z.lor_comm, (Z.land_comm x), (Z.land_comm old). apply mode_select. destruct (Z.eqb_spec xlen 32); [done|].
      unfold mask, m0. destruct ok, (impl_vmid p); split; reflexivity. }
    destruct ok eqn:Eok; [|unfold atp_valid in Ho; by destruct (Z.eqb_spec xlen 32)].
    unfold mode_of. destruct (Z.eqb_spec xlen 32); [done|]. fold mode. change (get_field 64 x SATP64_MODE) with mode.
    unfold ok in Eok. rewrite !orb_true_iff, !andb_true_iff, !Z.eqb_eq in Eok. change HGATP_MODE_OFF with 0 in Eok. change HGATP_MODE_SV39X4 with 8 in Eok.
    change HGATP_MODE_SV48X4 with 9 in Eok. change HGATP_MODE_SV57X4 with 10 in Eok. tauto.
Qed.

Lemma valid_decodes xlen x prv : xlen = 32 \/ xlen = 64 -> atp_valid xlen x -> prv = PRV_U \/ prv = PRV_S \/ prv = PRV_M ->
  (exists vm, decode_vm_info xlen false prv x = Some vm /\ levels vm <> 6) /\ (exists vm, decode_vm_info xlen true 0 x = Some vm).
Proof.
  intros [-> | ->] Hv Hp; unfold atp_valid, mode_of in Hv; simpl in Hv; unfold decode_vm_info.
  - change (get_field 32 x HGATP32_MODE) with (get_field 32 x SATP32_MODE).
    destruct Hv as [-> | ->], Hp as [-> |[-> | ->]]; split; by eexists.
  - change (get_field 64 x HGATP64_MODE) with (get_field 64 x SATP64_MODE).
    destruct Hv as [-> |[-> |[-> | ->]]], Hp as [-> |[-> | ->]]; split; by eexists.
Qed.

Lemma run_atp_valid p xlen ws : forall s, atp_valid xlen (at_satp s) /\ atp_valid xlen (at_vsatp s) /\ atp_valid xlen (at_hgatp s) ->
  let s' := fold_left (run_atp p xlen) ws s in atp_valid xlen (at_satp s') /\ atp_valid xlen (at_vsatp s') /\ atp_valid xlen (at_hgatp s').
Proof.
  induction ws as [|o ws IH]; intros s Hs; [done|]. simpl. apply IH. destruct Hs as (H1 & H2 & H3).
  destruct o as [[] x|x|x]; simpl; auto using satp_write_valid, atp_write_valid, hgatp_write_valid.
Qed.
