(* ===== verification/MmuDemo.v ===== *)
(** * Spike: a machine with page tables

    Sv39 tables and a second stage in a small memory, for the witnesses. *)

From Stdlib Require Import Sorted.
From stdpp Require Import base option list gmap.
From S2P Require Import Prelude.
From S2P Require Import Arith.
From S2P Require Import Pmp.
From S2P Require Import Devices.
From S2P Require Import DevicesFacts.
From S2P Require Import Mmu.
From S2P Require Import MmuSpec.
From S2P Require Import MmuFacts.
From S2P Require Import MmuWalk.
From S2P Require Import MmuStages.

(** ** A machine *)

(** A page with entries at some indices. *)
Definition page_with (entries : list (nat * Z)) : list Z :=
  foldr (fun p page => list_inserts (8 * p.1)%nat (to_le 8 p.2) page) zero_page entries.

(** Tables at the pages 1 to 3 for the address [0x12345000], which go by frame
    numbers from [off]; a root of a second stage at the pages 4 to 7 that puts the
    first gigabyte at [0x80000000]. *)
Definition demo_mem (off : Z) : mem_t :=
  MemT (list_to_map [
    (1, page_with [(0%nat, ((off + 2) .<< 10) .| PTE_V)]);
    (2, page_with [(0x91%nat, ((off + 3) .<< 10) .| PTE_V)]);
    (3, page_with [(0x145%nat, (off .<< 10) .| PTE_V .| PTE_R .| PTE_W .| PTE_U)]);
    (4, page_with [(0%nat, (0x80000 .<< 10) .| PTE_V .| PTE_R .| PTE_W .| PTE_U .| PTE_A .| PTE_D)])]) 0x8000.

Definition demo_bus (off : Z) : bus_t rom_device_t := [(0x1000, DDev [1; 2; 3]); (0x80000000, DMem (demo_mem off))].

Definition demo_hart (virt : bool) : hart_t :=
  Hart 64 PRV_U virt false true 0 None 0 0 0 (MENVCFG_ADUE .| MENVCFG_PBMTE) HENVCFG_ADUE
    ((SATP_MODE_SV39 .<< 60) .| 0x80001) ((SATP_MODE_SV39 .<< 60) .| 1) ((HGATP_MODE_SV39X4 .<< 60) .| 0x80004)
    (PmpState (replicate 64 (Pmpaddr 0 0)) 0 2 0 64).

Definition demo_access (virt : bool) (ty : access_type) : mem_access_info_t :=
  MemAccess 0x12345678 PRV_U virt (XlateFlags false false false) ty.

Definition pages_in_range (m : mem_t) : bool :=
  bool_decide (map_Forall (fun _ page => length page = Z.to_nat PGSIZE /\ Forall (fun x => 0 <= x < 256) page) (sparse_memory_map m)).

Lemma demo_pages off : off = 0x80000 \/ off = 0 -> pages_in_range (demo_mem off) = true.
Proof. intros [-> | ->]; by vm_compute. Qed.

Lemma mem_byte_range m a : pages_in_range m = true -> 0 <= mem_byte m a < 256.
Proof.
  unfold pages_in_range. rewrite bool_decide_eq_true. intros Hp. unfold mem_byte. destruct (sparse_memory_map m !! _) as [page|] eqn:E; simpl.
  - destruct (Hp _ _ E) as [_ Hf]. rewrite List.Forall_forall in Hf. destruct (decide (Z.to_nat (a mod PGSIZE) < length page)%nat).
    + by apply Hf, nth_In.
    + rewrite nth_overflow by lia. lia.
  - by destruct (Z.to_nat (a mod PGSIZE)).
Qed.

Lemma demo_well_behaved off : off = 0x80000 \/ off = 0 -> well_behaved (demo_bus off).
Proof.
  intros Ho. pose proof (demo_pages off Ho) as Hp. split.
  - constructor.
    + repeat constructor.
    + repeat constructor; by vm_compute.
    + constructor; [exact I|constructor; [|constructor]]. constructor; [split; by vm_compute|by vm_compute|]. unfold pages_in_range in Hp. rewrite bool_decide_eq_true in Hp.
      intros k page E. by destruct (Hp k page E).
  - intros a x. unfold peek. destruct (negb _); [done|]. unfold demo_bus. simpl. destruct (0x1000 <=? a); [|done].
    destruct (0x80000000 <=? a); [|done]. destruct (_ <? _); [|done]. intros [= <-]. by apply mem_byte_range.
Qed.

#[export] Instance resident_dec h vm g f va : Decision (resident h vm g f va).
Proof. unfold resident. apply _. Defined.

Lemma by_decision (P : Prop) `{!Decision P} : bool_decide P = true -> P.
Proof. apply bool_decide_eq_true. Qed.

Lemma int_at_view {D} `{Device D} (b : bus_t D) f n a : (forall x, peek b x = f x) -> int_at b n a = int_of f n a.
Proof. apply (int_of_ext (peek b)). Qed.
