(* ===== verification/MmuTheorems.v ===== *)
(** * Spike: theorems about address translation *)

From stdpp Require Import base option list gmap.
From S2P Require Import Prelude.
From S2P Require Import Arith.
From S2P Require Import Pmp.
From S2P Require Import Devices.
From S2P Require Import DevicesFacts.
From S2P Require Import Mmu.
From S2P Require Import MmuSpec.
From S2P Require Import MmuFacts.
From S2P Require Import MmuWalk.
From S2P Require Import MmuStages.

From S2P Require Import MmuDemo.

Section Translate.
Context {D : Type} `{Device D}.
Implicit Types b : bus_t D.

(** C9: Translation is that of the architecture.  On page tables in memory, in
    every paging mode, [translate] follows the digits of a canonical address
    from the root through pointers, wants of the leaf that it is well formed,
    permitted, aligned to its size and (with NAPOT) coded right, sets the accessed
    and dirty bits where it may, gives the address in the span the leaf maps and
    has physical memory protection check it; otherwise it raises the page or access
    fault of the access.  Nothing else in memory changes, and without paging the
    address is cut to the register width. *)
Theorem translate_paged h info len vm b :
  well_behaved b -> hart_xlen h = 32 \/ hart_xlen h = 64 -> effective_virt info = false -> 0 <= vaddr info < 2 ^ 64 ->
  decode_vm_info (hart_xlen h) false (effective_priv info) (satp h) = Some vm -> levels vm <> 6 ->
  (levels vm <> 0 -> resident h vm id (peek b) (vaddr info)) ->
  let out := if levels vm =? 0 then (Ok (vaddr info mod 2 ^ hart_xlen h), None) else stage1 h vm info id (peek b) in
  exists b', translate h info len b = (guarded h info len out.1, b') /\ shows b b' (updated (ptesize vm) (peek b) out.2).
Proof.
  intros Hb Hx Hv Hva Hd Hl6 Hres. cbv zeta. destruct (Z.eqb_spec (levels vm) 0) as [E0|Hl0].
  - exists b. split; [|apply shows_refl, Hb].
    by apply (translate_bare h info len vm).
  - destruct (decode_stage1 _ _ _ _ Hd Hl0 Hl6) as (Hvm & _). destruct (vm_base vm Hvm) as [Hbase Hm].
    destruct (walk_stage1 h vm info id b Hb) as (b' & E & Hs); try done.
    { by rewrite Hv. }
    { pose proof (path_entries vm (fun a => readable h vm (id a)) (fun a => int_of (peek b) (ptesize vm) (id a)) (vaddr info) (depth (scheme_of vm)) Hvm (ptbase vm) Hbase Hm) as He.
      unfold resident in Hres. specialize (Hres Hl0). fold (entries h vm id (peek b) (vaddr info)) in He. revert He Hres. generalize (entries h vm id (peek b) (vaddr info)) as l.
      induction 1 as [|a l [H1 H2] _ IH]; intros Hr; inversion Hr; subst; constructor; [|by apply IH]. split.
      - intros ty b1 _ Hs1. exists b1. unfold s2xlate. rewrite Hv. done.
      - intros Hrd. apply (page_entry vm Hvm b a); [lia|done|auto]. }
    exists b'. assert (match (stage1 h vm info id (peek b)).2 with Some (a, v) => Some (id a, v) | None => None end = (stage1 h vm info id (peek b)).2) as Eu by (by destruct (stage1 h vm info id (peek b)).2 as [[]|]).
    rewrite Eu in Hs. split; [|done]. unfold bind in E. destruct (stage1 h vm info id (peek b)).1 as [pa| |] eqn:Eo.
    + destruct (stage1_range h vm info id (peek b) pa Hvm ltac:(lia) Eo). apply translate_page; [|lia|done].
      rewrite E. unfold last_stage, s2xlate. rewrite Hv. done.
    + by apply translate_trap.
    + by apply translate_trap.
Qed.


(** C16: The same for a guest, whose first stage reads its tables through the second:
    the address of the first stage is translated by the second, on memory as the
    first stage left it, with its own rules and guest page faults.  The second
    stage is assumed to map the tables of the first without a change of its own. *)
Theorem translate_nested h info len vm1 vm2 g b :
  well_behaved b -> hart_xlen h = 32 \/ hart_xlen h = 64 -> effective_virt info = true -> 0 <= vaddr info < 2 ^ 64 ->
  decode_vm_info (hart_xlen h) false (effective_priv info) (vsatp h) = Some vm1 -> levels vm1 <> 0 -> levels vm1 <> 6 ->
  decode_vm_info (hart_xlen h) true 0 (hgatp h) = Some vm2 -> levels vm2 <> 0 ->
  resident h vm1 g (peek b) (vaddr info) -> Forall (guest_table h vm2 info g (peek b)) (entries h vm1 g (peek b) (vaddr info)) ->
  let out := stage1 h vm1 info g (peek b) in
  let f1 := updated (ptesize vm1) (peek b) (match out.2 with Some (a, v) => Some (g a, v) | None => None end) in
  match out.1 with
  | Ok gpa =>
      resident h vm2 id f1 gpa ->
      let out2 := stage2 h vm2 (vaddr info) gpa (type info) (type info) (hlvx (flags info)) false f1 in
      exists b', translate h info len b = (guarded h info len out2.1, b') /\ shows b b' (updated (ptesize vm2) f1 out2.2)
  | r => exists b', translate h info len b = (r, b') /\ shows b b' f1
  end.
Proof.
  intros Hb Hx Hv Hva Hd1 Hl0 Hl6 Hd2 Hl2 Hres Hguest. destruct (decode_stage1 _ _ _ _ Hd1 Hl0 Hl6) as (Hvm & _).
  destruct (decode_stage2 _ _ _ Hd2 Hl2) as [Hvm2 _]. destruct (vm_base vm1 Hvm) as [Hbase Hm].
  destruct (walk_stage1 h vm1 info g b Hb) as (b1 & E & Hs); try done.
  { by rewrite Hv. }
  { pose proof (path_entries vm1 (fun a => readable h vm1 (g a)) (fun a => int_of (peek b) (ptesize vm1) (g a)) (vaddr info) (depth (scheme_of vm1)) Hvm (ptbase vm1) Hbase Hm) as He.
    unfold resident in Hres. fold (entries h vm1 g (peek b) (vaddr info)) in He. revert He Hres Hguest. generalize (entries h vm1 g (peek b) (vaddr info)) as l.
    induction 1 as [|a l [H1 H2] _ IH]; intros Hr Hg; inversion Hr; inversion Hg as [|? ? [Hg1 Hg2]]; subst; constructor; [|by apply IH]. split.
    - intros ty b2 Hty Hs2. rewrite Hv.
      destruct (s2xlate_stage2 h vm2 (vaddr info) a ty (type info) false true b b2) as (b3 & E3 & Hs3); try done.
      rewrite (Hg2 ty Hty) in E3, Hs3. by exists b3.
    - intros Hrd. pose proof (Hg2 LOAD ltac:(by left)) as Ho. destruct (stage2_range h vm2 (vaddr info) a LOAD (type info) false true (peek b) (g a)) as [Hga Hgm]; [done|lia|by rewrite Ho|].
      apply (page_entry vm1 Hvm b (g a)); [lia| |auto]. rewrite pgsize in *. by rewrite Hgm. }
  cbv zeta. set (f1 := updated _ _ _) in *. unfold bind in E. destruct (stage1 h vm1 info g (peek b)).1 as [gpa| |] eqn:Eo.
  - intros Hres2. destruct (stage1_range h vm1 info g (peek b) gpa Hvm ltac:(lia) Eo) as [Hgr Hgm].
    pose proof (shows_well_behaved _ _ _ _ Hb Hs) as Hb1. unfold last_stage in E. rewrite Hv in E.
    assert (forall x, f1 x = peek b1 x) as Hf by (intros x; symmetry; apply Hs).
    destruct (s2xlate_stage2 h vm2 (vaddr info) gpa (type info) (type info) (hlvx (flags info)) false b1 b1) as (b2 & E2 & Hs2);
      try done; [by apply shows_refl, Hb1|lia|by apply (resident_ext _ _ _ _ _ _ Hf)|].
    rewrite <- (stage2_ext _ _ _ _ _ _ _ _ _ _ Hf) in E2, Hs2. exists b2.
    split; [|apply (shows_trans _ _ _ _ _ Hs), (shows_ext _ _ _ _ Hs2); intros x; apply updated_ext; intros; by rewrite Hf].
    unfold bind in E. rewrite E2 in E. destruct (stage2 h vm2 (vaddr info) gpa _ _ _ _ f1).1 as [pa| |] eqn:Eo2.
    + destruct (stage2_range h vm2 (vaddr info) gpa (type info) (type info) (hlvx (flags info)) false f1 pa Hvm2 ltac:(lia) Eo2) as [Hpr Hpm].
      apply translate_page; [done|lia|by rewrite Hpm].
    + by apply translate_trap.
    + by apply translate_trap.
  - exists b1. split; [|done]. by apply (translate_trap h info len b b1 (Throw t)).
  - exists b1. split; [|done]. by apply (translate_trap h info len b b1 Undef).
Qed.
End Translate.

(** Translation never aborts on the mode of a root register.  Whatever software
    writes to [satp], [vsatp] and [hgatp], in any order and with any features,
    [decode_vm_info] knows the modes the registers hold; a mode the processor
    supports is taken by a write and an unsupported one leaves the mode. *)
Theorem roots_always_decode p xlen ws prv :
  xlen = 32 \/ xlen = 64 -> prv = PRV_U \/ prv = PRV_S \/ prv = PRV_M ->
  let s := fold_left (run_atp p xlen) ws (AtpState 0 0 0) in
  (exists vm, decode_vm_info xlen false prv (at_satp s) = Some vm /\ levels vm <> 6) /\
  (exists vm, decode_vm_info xlen false prv (at_vsatp s) = Some vm /\ levels vm <> 6) /\
  (exists vm, decode_vm_info xlen true 0 (at_hgatp s) = Some vm) /\
  forall old x, impl_mmu p = true -> atp_valid xlen old ->
    mode_of xlen (satp_write p xlen old x) = (if satp_valid p xlen x then mode_of xlen x else mode_of xlen old).
Proof.
  intros Hx Hp s. pose proof (atp_valid_zero xlen) as H0. destruct (run_atp_valid p xlen ws (AtpState 0 0 0)) as (H1 & H2 & H3); [done|].
  fold s in H1, H2, H3. split; [by apply valid_decodes|]. split; [by apply valid_decodes|]. split; [by apply (valid_decodes xlen _ PRV_U); auto|].
  intros old x Hi Ho. unfold satp_write, atp_write. rewrite Hi, compute_new_satp_mode. destruct (satp_valid p xlen x) eqn:E; [by rewrite E|by destruct (satp_valid p xlen old)].
Qed.

Lemma roots_always_decode_witness :
  let p := set_mmu_capability (MmuImpl false false false false false true true) IMPL_MMU_SV48 in
  exists vm, decode_vm_info 64 false PRV_S (at_satp (fold_left (run_atp p 64) [WriteSatp false ((9 .<< 60) .| 5); WriteSatp false ((10 .<< 60) .| 6)] (AtpState 0 0 0))) = Some vm /\
    levels vm = 4 /\ ptbase vm = 5 * 4096.
Proof.
  intros p. destruct (roots_always_decode p 64 [WriteSatp false ((9 .<< 60) .| 5); WriteSatp false ((10 .<< 60) .| 6)] PRV_S) as ((vm & E & _) & _); [by right|by right; left|].
  exists vm. split; [exact E|]. vm_compute in E. injection E as <-. done.
Defined.

Lemma translate_paged_witness :
  exists b', translate (demo_hart false) (demo_access false STORE) 8 (demo_bus 0x80000) = (Ok 0x80000678, b') /\
    int_at b' 8 0x80003a28 = (0x80000 .<< 10) .| PTE_V .| PTE_R .| PTE_W .| PTE_U .| PTE_A .| PTE_D.
Proof.
  destruct (translate_paged (demo_hart false) (demo_access false STORE) 8 (VmInfo 3 9 0 8 0x80001000) (demo_bus 0x80000)
    (demo_well_behaved _ (or_introl eq_refl)) (or_intror eq_refl) eq_refl) as (b' & E & _ & _ & Hp).
  - split; by vm_compute.
  - by vm_compute.
  - done.
  - intros _. refine (by_decision (resident _ _ _ _ _) _). vm_compute. reflexivity.
  - exists b'. split; [rewrite E; f_equal; by vm_compute|]. rewrite (int_at_view _ _ _ _ Hp). by vm_compute.
Defined.

(** The guest reads its tables at [0x1000], which the second stage puts at [0x80001000]. *)
Lemma translate_nested_witness :
  exists b', translate (demo_hart true) (demo_access true LOAD) 8 (demo_bus 0) = (Ok 0x80000678, b') /\
    int_at b' 8 0x80003a28 = PTE_V .| PTE_R .| PTE_W .| PTE_U .| PTE_A.
Proof.
  set (h := demo_hart true). set (info := demo_access true LOAD). set (vm1 := VmInfo 3 9 0 8 0x1000). set (vm2 := VmInfo 3 9 2 8 0x80004000).
  set (g := fun a => a + 0x80000000). set (b := demo_bus 0).
  assert (entries h vm1 g (peek b) (vaddr info) = [0x1000; 0x2488; 0x3a28]) as Ee by by vm_compute.
  assert (Forall (guest_table h vm2 info g (peek b)) (entries h vm1 g (peek b) (vaddr info))) as Hg.
  { rewrite Ee. do 3 (apply Forall_cons; split;
      [split; [refine (by_decision (resident _ _ _ _ _) _); vm_compute; reflexivity|intros ty [-> | ->]; by vm_compute]|]).
    constructor. }
  assert (resident h vm1 g (peek b) (vaddr info)) as Hr by (refine (by_decision (resident _ _ _ _ _) _); vm_compute; reflexivity).
  assert (0 <= vaddr info < 2 ^ 64) as Hva by (split; by vm_compute).
  pose proof (translate_nested h info 8 vm1 vm2 g b (demo_well_behaved _ (or_intror eq_refl)) (or_intror eq_refl) eq_refl Hva
    ltac:(by vm_compute) ltac:(done) ltac:(done) ltac:(by vm_compute) ltac:(done) Hr Hg) as Hn.
  assert (stage1 h vm1 info g (peek b) = (Ok 0x678, Some (0x3a28, PTE_V .| PTE_R .| PTE_W .| PTE_U .| PTE_A))) as Eo by by vm_compute.
  rewrite Eo in Hn. cbv zeta in Hn. cbn [fst snd] in Hn. set (f1 := updated _ _ _) in Hn.
  destruct Hn as (b' & E & _ & _ & Hp); [refine (by_decision (resident _ _ _ _ _) _); vm_compute; reflexivity|].
  exists b'. split; [rewrite E; f_equal; by vm_compute|]. rewrite (int_at_view _ _ _ _ Hp). by vm_compute.
Defined.
