(* ===== verification/Cachesim.v ===== *)
(** * Spike: the cache simulator

    Model of [src/riscv-isa-sim/riscv/cachesim.cc] and [cachesim.h]: caches with
    random replacement, set-associative or fully associative, their miss handlers,
    statistics, cleaning and invalidation.

    Caches point to their miss handlers and two caches can share one, so the
    caches live in a list and a handler is an index.  [None] is undefined
    behaviour (a division by zero ways, a null pointer); [help] exits the program,
    which is [None] of the constructors.  Printing is not modelled. *)

From stdpp Require Import base option list gmap.
From S2P Require Import Prelude.
From S2P Require Import Pmp.

(** ** The random number generator *)

Definition lfsr_next (reg : Z) : Z := (reg .>> 1) .^ (u32 (- (reg .& 1)) .& 0xd0000001).

(** ** State *)

Definition VALID : Z := 1 .<< 63.
Definition DIRTY : Z := 1 .<< 62.

(** The tags of [cache_sim_t], an array, and those of [fa_cache_sim_t], a map in the
    order of its keys. *)
Inductive tag_store : Type := Ways (tags : list Z) | Full (tags : list (Z * Z)).

Record cache_sim_t : Type := Cache {
  store_of : tag_store;
  sets : Z;
  ways : Z;
  linesz : Z;
  idx_shift : Z;
  lfsr : Z;
  miss_handler : option nat;
  read_accesses : Z;
  read_misses : Z;
  bytes_read : Z;
  write_accesses : Z;
  write_misses : Z;
  bytes_written : Z;
  writebacks : Z
}.

Definition set_store (c : cache_sim_t) (s : tag_store) (r : Z) : cache_sim_t :=
  Cache s (sets c) (ways c) (linesz c) (idx_shift c) r (miss_handler c)
    (read_accesses c) (read_misses c) (bytes_read c) (write_accesses c) (write_misses c) (bytes_written c) (writebacks c).

Definition set_miss_handler (c : cache_sim_t) (mh : nat) : cache_sim_t :=
  Cache (store_of c) (sets c) (ways c) (linesz c) (idx_shift c) (lfsr c) (Some mh)
    (read_accesses c) (read_misses c) (bytes_read c) (write_accesses c) (write_misses c) (bytes_written c) (writebacks c).

(** The counters of an access, of a miss and of a write back. *)
Definition count_access (c : cache_sim_t) (bytes : Z) (store : bool) : cache_sim_t :=
  Cache (store_of c) (sets c) (ways c) (linesz c) (idx_shift c) (lfsr c) (miss_handler c)
    (if store then read_accesses c else u64 (read_accesses c + 1)) (read_misses c)
    (if store then bytes_read c else u64 (bytes_read c + bytes))
    (if store then u64 (write_accesses c + 1) else write_accesses c) (write_misses c)
    (if store then u64 (bytes_written c + bytes) else bytes_written c) (writebacks c).

Definition count_miss (c : cache_sim_t) (store : bool) : cache_sim_t :=
  Cache (store_of c) (sets c) (ways c) (linesz c) (idx_shift c) (lfsr c) (miss_handler c)
    (read_accesses c) (if store then read_misses c else u64 (read_misses c + 1)) (bytes_read c)
    (write_accesses c) (if store then u64 (write_misses c + 1) else write_misses c) (bytes_written c) (writebacks c).

Definition count_writeback (c : cache_sim_t) : cache_sim_t :=
  Cache (store_of c) (sets c) (ways c) (linesz c) (idx_shift c) (lfsr c) (miss_handler c)
    (read_accesses c) (read_misses c) (bytes_read c) (write_accesses c) (write_misses c) (bytes_written c) (u64 (writebacks c + 1)).

(** ** Construction *)

Fixpoint idx_shift_loop (fuel : nat) (x shift : Z) : Z :=
  match fuel with
  | O => shift
  | S fuel => if 1 <? x then idx_shift_loop fuel (x .>> 1) (shift + 1) else shift
  end.

(** [cache_sim_t::init]; 64 rounds suffice for the shift. *)
Definition init (full : bool) (sets ways linesz : Z) : option cache_sim_t :=
  if (sets =? 0) || nz (sets .& u64 (sets - 1)) then None
  else if (linesz <? 8) || nz (linesz .& u64 (linesz - 1)) then None
  else
    Some (Cache (if full then Full [] else Ways (replicate (Z.to_nat (u64 (sets * ways))) 0)) sets ways linesz (idx_shift_loop 64 linesz 0) 1 None
      0 0 0 0 0 0 0).

Definition cache_new (sets ways linesz : Z) : option cache_sim_t := init false sets ways linesz.
Definition fa_cache_new (ways linesz : Z) : option cache_sim_t := init true 1 ways linesz.

(** [construct], after the numbers have been read from the configuration. *)
Definition construct (sets ways linesz : Z) : option cache_sim_t :=
  if (4 <? ways) && (sets =? 1) then fa_cache_new ways linesz else cache_new sets ways linesz.

(** ** Tags

    A slot is an index of the array or a key of the map. *)

Definition line_of (c : cache_sim_t) (addr : Z) : Z := addr .>> idx_shift c.

Fixpoint way_loop (fuel : nat) (tags : list Z) (base i tag : Z) : option Z :=
  match fuel with
  | O => None
  | S fuel =>
      if tag =? nth (Z.to_nat (base + i)) tags 0 .& u64 (Z.lnot DIRTY) then Some (base + i)
      else way_loop fuel tags base (i + 1) tag
  end.

Fixpoint map_get (l : list (Z * Z)) (k : Z) : option Z :=
  match l with [] => None | (k', v) :: l => if k' =? k then Some v else map_get l k end.

Fixpoint map_set (l : list (Z * Z)) (k v : Z) : list (Z * Z) :=
  match l with
  | [] => [(k, v)]
  | (k', v') :: l' => if k <? k' then (k, v) :: l else if k' =? k then (k, v) :: l' else (k', v') :: map_set l' k v
  end.

Definition check_tag (c : cache_sim_t) (addr : Z) : option Z :=
  match store_of c with
  | Ways tags =>
      let idx := line_of c addr .& (sets c - 1) in
      let tag := line_of c addr .| VALID in
      way_loop (Z.to_nat (ways c)) tags (idx * ways c) 0 tag
  | Full tags => match map_get tags (line_of c addr) with Some _ => Some (line_of c addr) | None => None end
  end.

Definition get_slot (c : cache_sim_t) (s : Z) : Z :=
  match store_of c with Ways tags => nth (Z.to_nat s) tags 0 | Full tags => default 0 (map_get tags s) end.

Definition set_slot (c : cache_sim_t) (s v : Z) : cache_sim_t :=
  set_store c (match store_of c with Ways tags => Ways (<[Z.to_nat s := v]> tags) | Full tags => Full (map_set tags s v) end) (lfsr c).

(** The line put out, and the cache with the new line in its place. *)
Definition victimize (c : cache_sim_t) (addr : Z) : option (Z * cache_sim_t) :=
  match store_of c with
  | Ways tags =>
      if ways c =? 0 then None else
      let idx := line_of c addr .& (sets c - 1) in
      let reg := lfsr_next (lfsr c) in
      let way := reg mod ways c in
      let victim := nth (Z.to_nat (idx * ways c + way)) tags 0 in
      Some (victim, set_store c (Ways (<[Z.to_nat (idx * ways c + way) := line_of c addr .| VALID]> tags)) reg)
  | Full tags =>
      let new := line_of c addr .| VALID in
      if Z.of_nat (length tags) =? ways c then
        if ways c =? 0 then None else
        let reg := lfsr_next (lfsr c) in
        let it := Z.to_nat (reg mod ways c) in
        let old_tag := (nth it tags (0, 0)).2 in
        Some (old_tag, set_store c (Full (map_set (take it tags ++ drop (S it) tags) (line_of c addr) new)) reg)
      else Some (0, set_store c (Full (map_set tags (line_of c addr) new)) (lfsr c))
  end.

(** ** Accesses

    [access fuel cs k] is an access to the cache [k] of [cs]; the fuel bounds the
    chain of miss handlers. *)

Fixpoint access (fuel : nat) (cs : list cache_sim_t) (k : nat) (addr bytes : Z) (store : bool) : option (list cache_sim_t) :=
  match fuel with
  | O => None
  | S fuel =>
      c ← cs !! k;
      let c := count_access c bytes store in
      match check_tag c addr with
      | Some hit_way =>
          Some (<[k := if store then set_slot c hit_way (get_slot c hit_way .| DIRTY) else c]> cs)
      | None =>
          let c := count_miss c store in
          r ← victimize c addr;
          let '(victim, c) := r in
          let cs := <[k := c]> cs in
          cs ← (if victim .& (VALID .| DIRTY) =? VALID .| DIRTY then
                  let dirty_addr := u64 ((victim .& u64 (Z.lnot (VALID .| DIRTY))) .<< idx_shift c) in
                  cs ← (match miss_handler c with
                        | Some mh => access fuel cs mh dirty_addr (linesz c) true
                        | None => Some cs
                        end);
                  c ← cs !! k; Some (<[k := count_writeback c]> cs)
                else Some cs);
          cs ← (match miss_handler c with
                | Some mh => access fuel cs mh (addr .& u64 (Z.lnot (linesz c - 1))) (linesz c) false
                | None => Some cs
                end);
          if store then
            c ← cs !! k; s ← check_tag c addr; Some (<[k := set_slot c s (get_slot c s .| DIRTY)]> cs)
          else Some cs
      end
  end.

(** ** Cleaning and invalidation *)

Definition clean_line (c : cache_sim_t) (cur_addr : Z) (clean inval : bool) : cache_sim_t :=
  match check_tag c cur_addr with
  | None => c
  | Some s =>
      let c := if clean && nz (get_slot c s .& DIRTY)
               then set_slot (count_writeback c) s (get_slot c s .& u64 (Z.lnot DIRTY)) else c in
      if inval then set_slot c s (get_slot c s .& u64 (Z.lnot VALID)) else c
  end.

Fixpoint clean_loop (fuel : nat) (c : cache_sim_t) (cur_addr end_addr : Z) (clean inval : bool) : cache_sim_t :=
  match fuel with
  | O => c
  | S fuel =>
      if cur_addr <? end_addr
      then clean_loop fuel (clean_line c cur_addr clean inval) (u64 (cur_addr + linesz c)) end_addr clean inval
      else c
  end.

Fixpoint clean_invalidate (fuel : nat) (cs : list cache_sim_t) (k : nat) (addr bytes : Z) (clean inval : bool) : option (list cache_sim_t) :=
  match fuel with
  | O => None
  | S fuel =>
      c ← cs !! k;
      let start_addr := addr .& u64 (Z.lnot (linesz c - 1)) in
      let end_addr := u64 (u64 (addr + bytes) + linesz c - 1) .& u64 (Z.lnot (linesz c - 1)) in
      let c := clean_loop (Z.to_nat ((end_addr - start_addr) / linesz c + 1)) c start_addr end_addr clean inval in
      let cs := <[k := c]> cs in
      match miss_handler c with
      | Some mh => clean_invalidate fuel cs mh addr bytes clean inval
      | None => Some cs
      end
  end.

(** ** The tracers of instruction and data caches *)

Definition icache_trace (cs : list cache_sim_t) (k : nat) (addr bytes : Z) (type : access_type) : option (list cache_sim_t) :=
  match type with FETCH => access (length cs) cs k addr bytes false | _ => Some cs end.

Definition dcache_trace (cs : list cache_sim_t) (k : nat) (addr bytes : Z) (type : access_type) : option (list cache_sim_t) :=
  match type with
  | FETCH => Some cs
  | _ => access (length cs) cs k addr bytes (bool_decide (type = STORE))
  end.
