(* ===== verification/CacheSpec.v ===== *)
(** * Spike: caches, what they hold and their specification

    A tag as a line with its flags; the tag stores of both classes as a function
    from lines to their dirty bits; what looking up, replacing and changing a tag
    do to that function.

    An access to one cache as a reference that answers with requests to the miss
    handler; hierarchies of caches; the quantities that requests conserve. *)

From Stdlib Require Import Sorted.
From stdpp Require Import base option list.
From S2P Require Import Prelude.
From S2P Require Import Pmp.
From S2P Require Import Cachesim.

(** ** Tags as lines *)

(** The line and the flags of a tag. *)
Definition tag_line (t : Z) : Z := t mod 2 ^ 62.
Definition tag_valid (t : Z) : bool := Z.testbit t 63.
Definition tag_dirty (t : Z) : bool := Z.testbit t 62.

(** The tag of a line. *)
Definition mk_tag (line : Z) (dirty : bool) : Z := 2 ^ 63 + (if dirty then 2 ^ 62 else 0) + line.

Lemma split_tag t : 0 <= t < 2 ^ 64 -> t = (if tag_valid t then 2 ^ 63 else 0) + (if tag_dirty t then 2 ^ 62 else 0) + tag_line t.
Proof.
  intros Ht. unfold tag_valid, tag_dirty, tag_line. rewrite !Z.testbit_odd, !Z.shiftr_div_pow2 by lia.
  pose proof (Z.div_mod t (2 ^ 62) ltac:(lia)). pose proof (Z.mod_pos_bound t (2 ^ 62) ltac:(lia)).
  change (2 ^ 63) with (2 ^ 62 * 2) at 1. rewrite <- Z.div_div by lia.
  assert (0 <= t / 2 ^ 62 < 4) as Hq by (split; [apply Z.div_pos; lia|apply Z.div_lt_upper_bound; lia]).
  set (q := t / 2 ^ 62) in *. clearbody q. assert (q = 0 \/ q = 1 \/ q = 2 \/ q = 3) as [Eq|[Eq|[Eq|Eq]]] by lia; subst q; simpl Z.odd; cbn iota; lia.
Qed.

Lemma tag_ext t1 t2 : 0 <= t1 < 2 ^ 64 -> 0 <= t2 < 2 ^ 64 ->
  tag_valid t1 = tag_valid t2 -> tag_dirty t1 = tag_dirty t2 -> tag_line t1 = tag_line t2 -> t1 = t2.
Proof. intros H1 H2 E1 E2 E3. rewrite (split_tag t1 H1), (split_tag t2 H2). by rewrite E1, E2, E3. Qed.

Lemma tag_line_range t : 0 <= tag_line t < 2 ^ 62.
Proof. apply Z.mod_pos_bound. lia. Qed.

Lemma tag_line_bits t i : 0 <= i -> Z.testbit (tag_line t) i = (i <? 62) && Z.testbit t i.
Proof.
  intros Hi. unfold tag_line. destruct (Z.ltb_spec i 62); [by rewrite Z.mod_pow2_bits_low by lia|by rewrite Z.mod_pow2_bits_high by lia].
Qed.

Lemma tag_line_small line : 0 <= line < 2 ^ 62 -> tag_line line = line.
Proof. apply Z.mod_small. Qed.

(** The masks of the code on the three parts of a tag. *)
Definition parts (t : Z) (v d : bool) (line : Z) : Prop := 0 <= t < 2 ^ 64 /\ tag_valid t = v /\ tag_dirty t = d /\ tag_line t = line.

Lemma parts_of t : 0 <= t < 2 ^ 64 -> parts t (tag_valid t) (tag_dirty t) (tag_line t).
Proof. by intros. Qed.

Lemma parts_mask t v d line m (f : bool -> bool -> bool) r : parts t v d line ->
  0 <= r < 2 ^ 64 -> (forall i, 0 <= i -> Z.testbit r i = f (Z.testbit t i) (Z.testbit m i)) ->
  (forall i, 0 <= i < 62 -> f (Z.testbit t i) (Z.testbit m i) = Z.testbit t i) ->
  parts r (f v (Z.testbit m 63)) (f d (Z.testbit m 62)) line.
Proof.
  intros (Ht & Ev & Ed & El) Hr Hbits Hlow. split; [done|]. unfold tag_valid, tag_dirty in *. rewrite !Hbits, Ev, Ed by lia.
  split; [done|]. split; [done|]. rewrite <- El. apply Z.bits_inj'. intros i Hi. rewrite !tag_line_bits by done.
  destruct (Z.ltb_spec i 62); [|done]. cbn [andb]. rewrite Hbits by done. apply Hlow. lia.
Qed.

Lemma land_range a m : 0 <= m < 2 ^ 64 -> 0 <= a .& m < 2 ^ 64.
Proof. intros Hm. pose proof (land_le_r a m ltac:(lia)). lia. Qed.

Lemma lor_range a b : 0 <= a < 2 ^ 64 -> 0 <= b < 2 ^ 64 -> 0 <= a .| b < 2 ^ 64.
Proof.
  intros Ha Hb. split; [apply Z.lor_nonneg; lia|]. apply Z.nle_gt. intros Hge.
  assert (Z.log2 (a .| b) < 64) as Hl.
  { rewrite Z.log2_lor by lia. apply Z.max_lub_lt; [destruct (Z.eq_dec a 0) as [->|]; [done|apply Z.log2_lt_pow2; lia]|destruct (Z.eq_dec b 0) as [->|]; [done|apply Z.log2_lt_pow2; lia]]. }
  pose proof (Z.log2_le_mono _ _ Hge) as Hm. change (Z.log2 (2 ^ 64)) with 64 in Hm. lia.
Qed.

Lemma set_dirty_parts t v d line : parts t v d line -> parts (t .| DIRTY) v true line.
Proof.
  intros Hp. pose proof (parts_mask t v d line DIRTY orb (t .| DIRTY) Hp) as H. rewrite orb_false_r, orb_true_r in H. apply H.
  - apply lor_range; [apply Hp|by vm_compute].
  - intros. apply Z.lor_spec.
  - intros i Hi. change DIRTY with (2 ^ 62). rewrite Z.pow2_bits_false by lia. apply orb_false_r.
Qed.

Lemma clear_dirty_parts t v d line : parts t v d line -> parts (t .& u64 (Z.lnot DIRTY)) v false line.
Proof.
  intros Hp. pose proof (parts_mask t v d line (u64 (Z.lnot DIRTY)) andb (t .& u64 (Z.lnot DIRTY)) Hp) as H.
  change (Z.testbit (u64 (Z.lnot DIRTY)) 63) with true in H. change (Z.testbit (u64 (Z.lnot DIRTY)) 62) with false in H.
  rewrite andb_true_r, andb_false_r in H. apply H.
  - apply land_range. by vm_compute.
  - intros. apply Z.land_spec.
  - intros i Hi. unfold uwrap. rewrite Z.mod_pow2_bits_low, Z.lnot_spec by lia. change DIRTY with (2 ^ 62). rewrite Z.pow2_bits_false by lia. apply andb_true_r.
Qed.

Lemma clear_valid_parts t v d line : parts t v d line -> parts (t .& u64 (Z.lnot VALID)) false d line.
Proof.
  intros Hp. pose proof (parts_mask t v d line (u64 (Z.lnot VALID)) andb (t .& u64 (Z.lnot VALID)) Hp) as H.
  change (Z.testbit (u64 (Z.lnot VALID)) 63) with false in H. change (Z.testbit (u64 (Z.lnot VALID)) 62) with true in H.
  rewrite andb_true_r, andb_false_r in H. apply H.
  - apply land_range. by vm_compute.
  - intros. apply Z.land_spec.
  - intros i Hi. unfold uwrap. rewrite Z.mod_pow2_bits_low, Z.lnot_spec by lia. change VALID with (2 ^ 63). rewrite Z.pow2_bits_false by lia. apply andb_true_r.
Qed.

Lemma new_tag_parts line : 0 <= line < 2 ^ 62 -> parts (line .| VALID) true false line.
Proof.
  intros Hl. assert (parts line false false line) as Hp.
  { split; [lia|]. unfold tag_valid, tag_dirty. split; [|split; [|by apply tag_line_small]].
    - rewrite <- (Z.mod_small line (2 ^ 62)) by done. by apply Z.mod_pow2_bits_high.
    - rewrite <- (Z.mod_small line (2 ^ 62)) by done. by apply Z.mod_pow2_bits_high. }
  pose proof (parts_mask line false false line VALID orb (line .| VALID) Hp) as H. apply H.
  - apply lor_range; [lia|by vm_compute].
  - intros. apply Z.lor_spec.
  - intros i Hi. change VALID with (2 ^ 63). rewrite Z.pow2_bits_false by lia. apply orb_false_r.
Qed.

(** The comparison of [check_tag]. *)
Lemma tag_match t line : 0 <= t < 2 ^ 64 -> 0 <= line < 2 ^ 62 ->
  (line .| VALID =? t .& u64 (Z.lnot DIRTY)) = tag_valid t && (tag_line t =? line).
Proof.
  intros Ht Hl. destruct (clear_dirty_parts t _ _ _ (parts_of t Ht)) as (H1 & H2 & H3 & H4). destruct (new_tag_parts line Hl) as (H5 & H6 & H7 & H8).
  apply eq_true_iff_eq. rewrite andb_true_iff, !Z.eqb_eq. split.
  - intros E. rewrite <- E in *. split; congruence.
  - intros [Hv El]. apply tag_ext; congruence.
Qed.

(** The test for a dirty victim, and its line. *)
Lemma victim_dirty t : 0 <= t < 2 ^ 64 -> (t .& (VALID .| DIRTY) =? VALID .| DIRTY) = tag_valid t && tag_dirty t.
Proof.
  intros Ht. apply eq_true_iff_eq. rewrite andb_true_iff, Z.eqb_eq. unfold tag_valid, tag_dirty. split.
  - intros E. split; [assert (Z.testbit (t .& (VALID .| DIRTY)) 63 = true) as H by by rewrite E|assert (Z.testbit (t .& (VALID .| DIRTY)) 62 = true) as H by by rewrite E];
      rewrite Z.land_spec in H; by apply andb_prop in H as [H _].
  - intros [H3 H2]. apply Z.bits_inj'. intros i Hi. rewrite Z.land_spec. change (VALID .| DIRTY) with (2 ^ 63 .| 2 ^ 62). rewrite Z.lor_spec, !Z.pow2_bits_eqb by lia.
    destruct (Z.eqb_spec 63 i) as [<-|]; [by rewrite H3|]. destruct (Z.eqb_spec 62 i) as [<-|]; [by rewrite H2|]. apply andb_false_r.
Qed.

Lemma victim_line t : 0 <= t < 2 ^ 64 -> t .& u64 (Z.lnot (VALID .| DIRTY)) = tag_line t.
Proof. intros Ht. change (u64 (Z.lnot (VALID .| DIRTY))) with (Z.ones 62). by rewrite Z.land_ones by lia. Qed.

(** ** An array of tags *)

Definition tag_range (t : Z) : Prop := 0 <= t < 2 ^ 64.

Definition is_line (x t : Z) : bool := tag_valid t && (tag_line t =? x).

Fixpoint find_line (l : list Z) (x : Z) : option bool :=
  match l with [] => None | t :: l => if is_line x t then Some (tag_dirty t) else find_line l x end.

(** No line has two tags. *)
Definition tags_unique (l : list Z) : Prop :=
  forall i j t u, l !! i = Some t -> l !! j = Some u -> tag_valid t = true -> tag_valid u = true -> tag_line t = tag_line u -> i = j.

Lemma is_line_true x t : is_line x t = true <-> tag_valid t = true /\ tag_line t = x.
Proof. unfold is_line. by rewrite andb_true_iff, Z.eqb_eq. Qed.

Lemma tags_unique_cons t l : tags_unique (t :: l) -> tags_unique l /\ forall x, is_line x t = true -> find_line l x = None.
Proof.
  intros Hu. split.
  - intros i j a b Ha Hb Hv1 Hv2 He. pose proof (Hu (S i) (S j) a b Ha Hb Hv1 Hv2 He). lia.
  - intros x [Hv Hl]%is_line_true. assert (forall i u, l !! i = Some u -> is_line x u = false) as Hn.
    { intros i u Hi. apply not_true_iff_false. intros [Hv' Hl']%is_line_true. pose proof (Hu 0%nat (S i) t u eq_refl Hi Hv Hv' ltac:(congruence)). lia. }
    clear Hu. induction l as [|u l IH]; simpl; [done|]. rewrite (Hn 0%nat u eq_refl). apply IH. intros i w Hi. by apply (Hn (S i)).
Qed.

Lemma find_line_here l i t : tags_unique l -> l !! i = Some t -> tag_valid t = true -> find_line l (tag_line t) = Some (tag_dirty t).
Proof.
  revert i. induction l as [|u l IH]; intros i Hu Hi Hv; [done|]. destruct i as [|i]; simpl in Hi.
  - injection Hi as ->. simpl. unfold is_line. by rewrite Hv, Z.eqb_refl.
  - simpl. destruct (is_line (tag_line t) u) eqn:E; [|apply tags_unique_cons in Hu as [Hu _]; by apply (IH i)].
    apply is_line_true in E as [Hv' Hl']. pose proof (Hu 0%nat (S i) u t eq_refl Hi Hv' Hv Hl'). lia.
Qed.

Lemma find_line_some l x d : find_line l x = Some d -> exists i t, l !! i = Some t /\ tag_valid t = true /\ tag_line t = x /\ tag_dirty t = d.
Proof.
  induction l as [|u l IH]; simpl; [done|]. destruct (is_line x u) eqn:E.
  - intros [= <-]. apply is_line_true in E as [H1 H2]. by exists 0%nat, u.
  - intros H. destruct (IH H) as (i & t & Hi & Ht). by exists (S i), t.
Qed.

Lemma find_line_none l x : find_line l x = None <-> forall i t, l !! i = Some t -> is_line x t = false.
Proof.
  split.
  - induction l as [|u l IH]; simpl; [done|]. destruct (is_line x u) eqn:E; [done|]. intros Hn [|i] t Hi; simpl in Hi; [congruence|by apply (IH Hn i)].
  - induction l as [|u l IH]; simpl; [done|]. intros Hn. rewrite (Hn 0%nat u eq_refl). apply IH. intros i t Hi. by apply (Hn (S i)).
Qed.

(** Putting a tag whose line is nowhere else in the place of another. *)
Lemma find_line_insert l i t t' : tags_unique l -> l !! i = Some t ->
  (tag_valid t' = true -> forall j u, j <> i -> l !! j = Some u -> is_line (tag_line t') u = false) ->
  tags_unique (<[i := t']> l) /\
  forall x, find_line (<[i := t']> l) x = if is_line x t' then Some (tag_dirty t') else if is_line x t then None else find_line l x.
Proof.
  intros Hu Hi Hfresh. assert (tags_unique (<[i := t']> l)) as Hu'.
  { assert (forall j u, j <> i -> l !! j = Some u -> tag_valid t' = true -> tag_valid u = true -> tag_line t' = tag_line u -> False) as Hf.
    { intros j u Hj Hu2 Hv1 Hv2 He. pose proof (Hfresh Hv1 j u Hj Hu2) as Hf. apply not_true_iff_false in Hf. by apply Hf, is_line_true. }
    pose proof (lookup_lt_Some _ _ _ Hi). intros a b ta tb Ha Hb Hva Hvb He.
    destruct (decide (a = i)) as [->|Ha'], (decide (b = i)) as [->|Hb']; [done| | |];
      rewrite ?list_lookup_insert_eq in * by done; rewrite ?list_lookup_insert_ne in * by congruence; simplify_eq.
    - by destruct (Hf b tb).
    - by destruct (Hf a ta).
    - by apply (Hu a b ta tb). }
  split; [done|]. intros x. pose proof (lookup_lt_Some _ _ _ Hi) as Hlen. destruct (is_line x t') eqn:E'.
  - apply is_line_true in E' as [Hv <-]. apply (find_line_here _ i); [done|by rewrite list_lookup_insert_eq|done].
  - destruct (find_line (<[i := t']> l) x) as [d|] eqn:E.
    + apply find_line_some in E as (j & u & Hj & Hv & Hl & Hd). rewrite list_lookup_insert in Hj. case_decide as Hij.
      * destruct Hij as [-> _]. injection Hj as <-. apply not_true_iff_false in E'. destruct E'. by apply is_line_true.
      * assert (j <> i) as Hne by naive_solver. destruct (is_line x t) eqn:Et.
        -- apply is_line_true in Et as [Hvt Hlt]. destruct Hne. symmetry. apply (Hu i j t u); congruence.
        -- rewrite <- Hl, <- Hd. symmetry. by apply (find_line_here _ j).
    + destruct (is_line x t) eqn:Et; [done|]. symmetry. apply find_line_none. intros j u Hj. destruct (decide (j = i)) as [->|Hne].
      * congruence.
      * rewrite find_line_none in E. apply (E j). by rewrite list_lookup_insert_ne by congruence.
Qed.

(** ** Well-formed caches *)

(** Powers of two, with at least one way. *)
Record geometry (c : cache_sim_t) : Prop := {
  geo_sets : exists k, 0 <= k /\ sets c = 2 ^ k;
  geo_line : linesz c = 2 ^ idx_shift c /\ 3 <= idx_shift c < 64;
  geo_ways : 0 < ways c;
  geo_lfsr : 0 <= lfsr c < 2 ^ 32
}.

Definition store_wf (c : cache_sim_t) : Prop :=
  match store_of c with
  | Ways tags =>
      length tags = Z.to_nat (sets c * ways c) /\ Forall tag_range tags /\ tags_unique tags /\
      forall i t, tags !! i = Some t -> tag_valid t = true -> tag_line t mod sets c = Z.of_nat i / ways c
  | Full tags =>
      sets c = 1 /\ StronglySorted Z.lt (map fst tags) /\ Z.of_nat (length tags) <= ways c /\
      Forall (fun p => tag_range p.2 /\ tag_valid p.2 = true /\ tag_line p.2 = p.1) tags
  end.

Record cache_wf (c : cache_sim_t) : Prop := { wf_geometry : geometry c; wf_store : store_wf c }.

(** Whether a line is in the cache, and dirty. *)
Definition line_state (c : cache_sim_t) (x : Z) : option bool :=
  match store_of c with
  | Ways tags => find_line tags x
  | Full tags => option_map tag_dirty (map_get tags x)
  end.

Lemma line_range c addr : geometry c -> 0 <= addr < 2 ^ 64 -> 0 <= line_of c addr < 2 ^ 61.
Proof.
  intros [_ [_ Hj] _ _] Ha. unfold line_of. rewrite shiftr_div by lia. split; [apply Z.div_pos; [lia|apply pow2_pos; lia]|].
  apply Z.div_lt_upper_bound; [apply pow2_pos; lia|]. pose proof (pow2_le 3 (idx_shift c) ltac:(lia)). lia.
Qed.

Lemma set_index c x : geometry c -> x .& (sets c - 1) = x mod sets c /\ 0 < sets c.
Proof. intros [(k & Hk & E) _ _ _]. rewrite E. split; [by apply land_mod|by apply pow2_pos]. Qed.

Lemma way_loop_spec fuel : forall tags base i line, Forall tag_range tags -> 0 <= line < 2 ^ 62 -> 0 <= base -> 0 <= i ->
  base + i + Z.of_nat fuel <= Z.of_nat (length tags) ->
  match way_loop fuel tags base i (line .| VALID) with
  | Some s => exists t, tags !! Z.to_nat s = Some t /\ is_line line t = true /\ 0 <= s
  | None => forall j t, base + i <= Z.of_nat j < base + i + Z.of_nat fuel -> tags !! j = Some t -> is_line line t = false
  end.
Proof.
  induction fuel as [|fuel IH]; intros tags base i line Hr Hl Hb Hi Hlen; simpl; [intros; lia|].
  destruct (lookup_lt_is_Some_2 tags (Z.to_nat (base + i))) as [t Ht]; [lia|]. rewrite (nth_lookup_Some _ _ _ _ Ht).
  assert (tag_range t) as Htr by (rewrite Forall_lookup in Hr; by apply (Hr (Z.to_nat (base + i)))).
  rewrite (tag_match t line Htr Hl). fold (is_line line t). destruct (is_line line t) eqn:E.
  - exists t. split; [done|]. split; [done|lia].
  - specialize (IH tags base (i + 1) line Hr Hl Hb ltac:(lia) ltac:(lia)). destruct (way_loop _ _ _ _ _); [done|].
    intros j u Hj Hu. destruct (decide (j = Z.to_nat (base + i))) as [->|]; [congruence|]. apply (IH j u); [lia|done].
Qed.

Lemma map_get_in l k v : map_get l k = Some v -> (k, v) ∈ l.
Proof.
  induction l as [|[k' v'] l IH]; simpl; [done|]. destruct (Z.eqb_spec k' k) as [->|].
  - intros [= ->]. left.
  - intros H. right. by apply IH.
Qed.

(** The slot of a line that is in the cache. *)
Definition slot_of (c : cache_sim_t) (x s : Z) : Prop :=
  tag_range (get_slot c s) /\ is_line x (get_slot c s) = true /\
  match store_of c with Ways tags => 0 <= s < Z.of_nat (length tags) | Full tags => s = x /\ is_Some (map_get tags x) end.

Lemma check_tag_spec c addr : cache_wf c -> 0 <= addr < 2 ^ 64 ->
  match check_tag c addr with
  | Some s => slot_of c (line_of c addr) s /\ line_state c (line_of c addr) = Some (tag_dirty (get_slot c s))
  | None => line_state c (line_of c addr) = None
  end.
Proof.
  intros [Hg Hs] Ha. pose proof (line_range c addr Hg Ha) as Hl. unfold check_tag, line_state, store_wf, slot_of, get_slot in *.
  destruct (store_of c) as [tags|tags].
  - destruct Hs as (Hlen & Hr & Hu & Hpos). destruct (set_index c (line_of c addr) Hg) as [-> Hsets].
    pose proof (Z.mod_pos_bound (line_of c addr) (sets c) Hsets) as Hm. pose proof (geo_ways c Hg) as Hw.
    set (line := line_of c addr) in *. set (idx := line mod sets c) in *.
    pose proof (way_loop_spec (Z.to_nat (ways c)) tags (idx * ways c) 0 line Hr ltac:(lia) ltac:(nia) ltac:(lia) ltac:(nia)) as H.
    destruct (way_loop _ _ _ _ _) as [s|].
    + destruct H as (t & Ht & Hi & Hs0). rewrite (nth_lookup_Some _ _ _ _ Ht). pose proof (lookup_lt_Some _ _ _ Ht).
      apply is_line_true in Hi as Hi'. destruct Hi' as [Hv El]. rewrite Forall_lookup in Hr. split; [split; [by apply (Hr (Z.to_nat s))|split; [done|lia]]|].
      rewrite <- El. by apply (find_line_here tags (Z.to_nat s)).
    + apply find_line_none. intros j t Hj. apply not_true_iff_false. intros Hi. apply is_line_true in Hi as Hi'. destruct Hi' as [Hv El].
      pose proof (Hpos j t Hj Hv) as Hp. rewrite El in Hp. fold idx in Hp.
      rewrite (H j t) in Hi; [done| |done]. pose proof (Z.div_mod (Z.of_nat j) (ways c) ltac:(lia)). pose proof (Z.mod_pos_bound (Z.of_nat j) (ways c) Hw). nia.
  - destruct Hs as (_ & _ & _ & Hf). destruct (map_get tags (line_of c addr)) as [v|] eqn:E; simpl; [|done].
    rewrite E. simpl. apply map_get_in in E as Hin. rewrite Forall_forall in Hf. destruct (Hf _ Hin) as (H1 & H2 & H3). simpl in *.
    split; [|done]. split; [done|]. split; [by apply is_line_true|]. split; [done|by eexists].
Qed.

(** ** The sorted map of [fa_cache_sim_t] *)

Lemma map_get_above l k : Forall (Z.lt k) (map fst l) -> map_get l k = None.
Proof.
  induction l as [|[k' v'] l IH]; simpl; [done|]. intros Hf. inversion Hf; subst. destruct (Z.eqb_spec k' k); [lia|]. by apply IH.
Qed.

Lemma map_get_set l k v x : map_get (map_set l k v) x = if x =? k then Some v else map_get l x.
Proof.
  induction l as [|[k' v'] l IH]; simpl.
  - rewrite Z.eqb_sym. by destruct (x =? k).
  - destruct (Z.ltb_spec k k'); simpl.
    + rewrite (Z.eqb_sym k x). by destruct (x =? k).
    + destruct (Z.eqb_spec k' k) as [->|Hne]; simpl.
      * rewrite (Z.eqb_sym k x). by destruct (x =? k).
      * rewrite IH. destruct (Z.eqb_spec k' x) as [->|]; [|done]. by destruct (Z.eqb_spec x k).
Qed.

Lemma map_set_keys l k v : forall a, Forall (Z.lt a) (map fst l) -> a < k -> Forall (Z.lt a) (map fst (map_set l k v)).
Proof.
  intros a Hf Ha. induction l as [|[k' v'] l IH]; simpl in *; [by constructor|]. inversion Hf; subst.
  destruct (Z.ltb_spec k k'); simpl; [by constructor|]. destruct (Z.eqb_spec k' k) as [->|]; simpl; constructor; auto.
Qed.

Lemma map_set_sorted l k v : StronglySorted Z.lt (map fst l) -> StronglySorted Z.lt (map fst (map_set l k v)).
Proof.
  induction l as [|[k' v'] l IH]; simpl; [repeat constructor|]. intros Hs. pose proof Hs as [Hs1 Hf]%StronglySorted_inv.
  destruct (Z.ltb_spec k k'); simpl.
  - constructor; [done|]. constructor; [done|]. apply (Forall_impl _ _ _ Hf). intros. lia.
  - destruct (Z.eqb_spec k' k) as [->|]; simpl; constructor; auto. apply map_set_keys; [done|lia].
Qed.

Lemma map_set_Forall (P : Z * Z -> Prop) l k v : Forall P l -> P (k, v) -> Forall P (map_set l k v).
Proof.
  intros Hf Hp. induction Hf as [|[k' v'] l Hx Hf IH]; simpl; [by constructor|].
  destruct (k <? k'); [by repeat constructor|]. destruct (k' =? k); by constructor.
Qed.

Lemma length_map_set l k v : length (map_set l k v) = (length l + if map_get l k then 0 else 1)%nat \/ ~ StronglySorted Z.lt (map fst l).
Proof.
  induction l as [|[k' v'] l IH]; simpl; [by left|]. destruct (Z.ltb_spec k k'); simpl.
  - destruct (Z.eqb_spec k' k); [lia|]. destruct (decide (Forall (Z.lt k') (map fst l))) as [Hf|Hf].
    + left. rewrite map_get_above; [lia|]. apply (Forall_impl _ _ _ Hf). intros. lia.
    + right. intros [_ Hf']%StronglySorted_inv. done.
  - destruct (Z.eqb_spec k' k); simpl; [left; lia|]. destruct IH as [IH|IH]; [left; lia|right]. intros [Hs _]%StronglySorted_inv. done.
Qed.

Lemma map_get_remove l i k v : StronglySorted Z.lt (map fst l) -> l !! i = Some (k, v) ->
  forall x, map_get (take i l ++ drop (S i) l) x = if x =? k then None else map_get l x.
Proof.
  revert i. induction l as [|[k' v'] l IH]; intros i Hs Hi x; [done|]. pose proof Hs as [Hs1 Hf]%StronglySorted_inv. destruct i as [|i]; simpl in *.
  - injection Hi as -> ->. rewrite drop_0. destruct (Z.eqb_spec x k) as [->|]; [by apply map_get_above|].
    by destruct (Z.eqb_spec k x); [lia|].
  - rewrite (IH i) by done. destruct (Z.eqb_spec k' x) as [->|]; [|done]. destruct (Z.eqb_spec x k) as [->|]; [|done].
    exfalso. rewrite List.Forall_forall in Hf. assert (In k (map fst l)) as Hin.
    { apply list_elem_of_lookup_2 in Hi. apply list_elem_of_In in Hi. by apply (in_map fst) in Hi. }
    specialize (Hf _ Hin). lia.
Qed.

Lemma removed_in {A} (l : list A) i x : In x (take i l ++ drop (S i) l) -> In x l.
Proof.
  intros [Hx|Hx]%in_app_or.
  - rewrite <- (take_drop i l). apply in_or_app. by left.
  - rewrite <- (take_drop (S i) l). apply in_or_app. by right.
Qed.

Lemma remove_sorted (l : list (Z * Z)) i : StronglySorted Z.lt (map fst l) -> StronglySorted Z.lt (map fst (take i l ++ drop (S i) l)).
Proof.
  revert i. induction l as [|[k v] l IH]; intros i Hs; [by rewrite take_nil|]. pose proof Hs as [Hs1 Hf]%StronglySorted_inv. destruct i as [|i]; simpl; [done|].
  constructor; [by apply IH|]. rewrite List.Forall_forall in *. intros x Hx. apply Hf. apply in_map_iff in Hx as (p & <- & Hp). apply in_map.
  by apply removed_in in Hp.
Qed.

(** ** Changing a tag *)

Lemma set_slot_fields c s v : sets (set_slot c s v) = sets c /\ ways (set_slot c s v) = ways c /\ linesz (set_slot c s v) = linesz c /\ idx_shift (set_slot c s v) = idx_shift c.
Proof. done. Qed.

(** A tag of the same line in the slot; an invalid one only in an array. *)
Lemma set_slot_spec c x s t' v d : cache_wf c -> slot_of c x s -> parts t' v d x ->
  (v = true \/ exists tags, store_of c = Ways tags) ->
  cache_wf (set_slot c s t') /\
  forall y, line_state (set_slot c s t') y = if y =? x then (if v then Some d else None) else line_state c y.
Proof.
  intros [Hg Hs] (Hr & Hi & Hslot) (Hr' & Hv' & Hd' & Hl') Hkind. unfold set_slot, get_slot, store_wf, line_state in *. apply is_line_true in Hi as [Hvt Hlt].
  split; [constructor; [by constructor; apply Hg|]|]; unfold store_wf; simpl; destruct (store_of c) as [tags|tags]; simpl.
  - destruct Hs as (Hlen & Hf & Hu & Hpos). destruct (lookup_lt_is_Some_2 tags (Z.to_nat s)) as [t Ht]; [lia|].
    rewrite (nth_lookup_Some _ _ _ _ Ht) in *. destruct (find_line_insert tags (Z.to_nat s) t t' Hu Ht) as [Hu' _].
    { intros Hv j u Hj Hju. apply not_true_iff_false. intros [Hvu Hlu]%is_line_true. apply Hj. apply (Hu j (Z.to_nat s) u t); congruence. }
    rewrite length_insert. split; [done|]. split; [by apply Forall_insert|]. split; [done|]. intros i u Hu2 Hvu.
    destruct (decide (i = Z.to_nat s)) as [->|Hne].
    + rewrite list_lookup_insert_eq in Hu2 by lia. injection Hu2 as <-. rewrite Hl', <- Hlt. by apply Hpos.
    + rewrite list_lookup_insert_ne in Hu2 by congruence. by apply Hpos.
  - destruct Hs as (H1 & H2 & H3 & H4). destruct Hslot as [-> [w Hw]]. split; [done|]. split; [by apply map_set_sorted|]. split.
    + destruct (length_map_set tags x t') as [E|E]; [|done]. rewrite E, Hw. lia.
    + destruct Hkind as [->|[tags' E]]; [|done]. by apply map_set_Forall.
  - destruct Hs as (Hlen & Hf & Hu & Hpos). destruct (lookup_lt_is_Some_2 tags (Z.to_nat s)) as [t Ht]; [lia|].
    rewrite (nth_lookup_Some _ _ _ _ Ht) in *. destruct (find_line_insert tags (Z.to_nat s) t t' Hu Ht) as [_ Hfind].
    { intros Hv j u Hj Hju. apply not_true_iff_false. intros [Hvu Hlu]%is_line_true. apply Hj. apply (Hu j (Z.to_nat s) u t); congruence. }
    intros y. rewrite Hfind. unfold is_line. rewrite Hv', Hl', Hvt, Hlt, Hd', (Z.eqb_sym x). destruct v, (y =? x); done.
  - destruct Hslot as [-> [w Hw]]. destruct Hkind as [->|[tags' E]]; [|done]. intros y. rewrite map_get_set. destruct (y =? x); [simpl; by rewrite Hd'|done].
Qed.

(** ** Replacement *)

Lemma lfsr_next_range r : 0 <= r < 2 ^ 32 -> 0 <= lfsr_next r < 2 ^ 32.
Proof.
  intros Hr. unfold lfsr_next. rewrite shiftr_div by lia. assert (0 <= r / 2 ^ 1 < 2 ^ 31) as H1 by (split; [apply Z.div_pos; lia|apply Z.div_lt_upper_bound; lia]).
  pose proof (land_le_r (u32 (- (r .& 1))) 0xd0000001 ltac:(lia)) as H2. set (a := r / 2 ^ 1) in *. set (b := _ .& 0xd0000001) in *.
  split; [apply Z.lxor_nonneg; lia|]. destruct (Z.eq_dec (a .^ b) 0) as [->|]; [lia|].
  assert (0 <= a .^ b) by (apply Z.lxor_nonneg; lia). apply Z.log2_lt_pow2; [lia|].
  eapply Z.le_lt_trans; [apply Z.log2_lxor; lia|]. apply Z.max_lub_lt.
  - destruct (Z.eq_dec a 0) as [->|]; [done|]. apply Z.log2_lt_pow2; lia.
  - destruct (Z.eq_dec b 0) as [->|]; [done|]. apply Z.log2_lt_pow2; lia.
Qed.

Lemma map_get_at l i k v : StronglySorted Z.lt (map fst l) -> l !! i = Some (k, v) -> map_get l k = Some v.
Proof.
  revert i. induction l as [|[k' v'] l IH]; intros i Hs Hi; [done|]. pose proof Hs as [Hs' Hf]%StronglySorted_inv. destruct i as [|i]; simpl in *.
  - injection Hi as -> ->. by rewrite Z.eqb_refl.
  - destruct (Z.eqb_spec k' k) as [->|]; [|by apply (IH i)]. exfalso. rewrite List.Forall_forall in Hf.
    apply list_elem_of_lookup_2 in Hi. apply list_elem_of_In in Hi. apply (in_map fst) in Hi. specialize (Hf _ Hi). simpl in Hf. lia.
Qed.

Lemma geometry_set_store c s r : geometry c -> 0 <= r < 2 ^ 32 -> geometry (set_store c s r).
Proof. intros [H1 H2 H3 H4] Hr. by constructor. Qed.

(** Everything but the tags and the generator. *)
Definition same_shape (c c' : cache_sim_t) : Prop := exists s r, c' = set_store c s r.

(** What putting the line of [addr] in place of the tag [v] does. *)
Definition victim_post (c : cache_sim_t) (addr : Z) (v : Z) (c' : cache_sim_t) : Prop :=
  same_shape c c' /\ cache_wf c' /\ tag_range v /\
  (tag_valid v = true -> line_state c (tag_line v) = Some (tag_dirty v) /\ tag_line v mod sets c = line_of c addr mod sets c) /\
  forall x, line_state c' x = if x =? line_of c addr then Some false else if is_line x v then None else line_state c x.

Lemma victimize_ways c addr tags : cache_wf c -> store_of c = Ways tags -> 0 <= addr < 2 ^ 64 -> line_state c (line_of c addr) = None ->
  exists v c', victimize c addr = Some (v, c') /\ victim_post c addr v c'.
Proof.
  intros [Hg Hs] Es Ha Hnone. pose proof (line_range c addr Hg Ha) as Hl. destruct (new_tag_parts (line_of c addr) ltac:(lia)) as (Hnr & Hnv & Hnd & Hnl).
  pose proof (geo_ways c Hg) as Hw. pose proof (lfsr_next_range _ (geo_lfsr c Hg)) as Hlfsr. destruct (set_index c (line_of c addr) Hg) as [Hidx Hsets].
  unfold victim_post, victimize, store_wf, line_state in *. set (line := line_of c addr) in *. rewrite Es in *.
  destruct Hs as (Hlen & Hf & Hu & Hpos). destruct (Z.eqb_spec (ways c) 0); [lia|]. rewrite Hidx.
  pose proof (Z.mod_pos_bound line (sets c) Hsets) as Hm. pose proof (Z.mod_pos_bound (lfsr_next (lfsr c)) (ways c) Hw) as Hm2.
  set (way := lfsr_next (lfsr c) mod ways c) in *. set (i := Z.to_nat (line mod sets c * ways c + way)).
  destruct (lookup_lt_is_Some_2 tags i) as [t Ht]; [unfold i; nia|]. rewrite (nth_lookup_Some _ _ _ _ Ht).
  rewrite find_line_none in Hnone. destruct (find_line_insert tags i t (line .| VALID) Hu Ht) as [Hu' Hfind].
  { intros _ j u _ Hj. rewrite Hnl. by apply (Hnone j). }
  eexists t, _. split; [done|]. split; [by eexists _, _|]. split; [|split; [|split]].
  - constructor; [by apply geometry_set_store; [|try apply Hg]|]. unfold store_wf. simpl. rewrite length_insert. split; [done|]. split; [by apply Forall_insert|].
    split; [done|]. intros j u Hj Hvu. destruct (decide (j = i)) as [->|Hne].
    + rewrite list_lookup_insert_eq in Hj by (by apply lookup_lt_Some in Ht). injection Hj as <-. rewrite Hnl. unfold i. rewrite Z2Nat.id by nia.
      rewrite Z.div_add_l, (Z.div_small way) by lia. lia.
    + rewrite list_lookup_insert_ne in Hj by congruence. by apply Hpos.
  - rewrite Forall_lookup in Hf. by apply (Hf i).
  - intros Hv. split; [by apply (find_line_here tags i)|]. rewrite (Hpos i t Ht Hv). unfold i. rewrite Z2Nat.id by nia.
    rewrite Z.div_add_l, (Z.div_small way) by lia. lia.
  - intros x. simpl. rewrite Hfind. unfold is_line. rewrite Hnv, Hnl, Hnd, (Z.eqb_sym line). by destruct (x =? line).
Qed.

Lemma victimize_full c addr tags : cache_wf c -> store_of c = Full tags -> 0 <= addr < 2 ^ 64 -> line_state c (line_of c addr) = None ->
  exists v c', victimize c addr = Some (v, c') /\ victim_post c addr v c'.
Proof.
  intros [Hg Hs] Es Ha Hnone. pose proof (line_range c addr Hg Ha) as Hl. destruct (new_tag_parts (line_of c addr) ltac:(lia)) as (Hnr & Hnv & Hnd & Hnl).
  pose proof (geo_ways c Hg) as Hw. pose proof (lfsr_next_range _ (geo_lfsr c Hg)) as Hlfsr. destruct (set_index c (line_of c addr) Hg) as [Hidx Hsets].
  unfold victim_post, victimize, store_wf, line_state in *. set (line := line_of c addr) in *. rewrite Es in *.
  destruct Hs as (H1 & H2 & H3 & H4). assert (map_get tags line = None) as Hget by (by destruct (map_get tags line)).
  destruct (Z.eqb_spec (Z.of_nat (length tags)) (ways c)) as [Efull|Hroom].
  - destruct (Z.eqb_spec (ways c) 0); [lia|]. pose proof (Z.mod_pos_bound (lfsr_next (lfsr c)) (ways c) Hw) as Hm2.
    set (i := Z.to_nat (lfsr_next (lfsr c) mod ways c)). destruct (lookup_lt_is_Some_2 tags i) as [[k v] Hi]; [unfold i; lia|].
    rewrite (nth_lookup_Some _ _ _ _ Hi). simpl. rewrite Forall_lookup in H4. destruct (H4 i _ Hi) as (Hrv & Hvv & Hlv). simpl in *.
    pose proof (map_get_remove tags i k v H2 Hi) as Hrem. pose proof (map_get_at tags i k v H2 Hi) as Hk.
    eexists v, _. split; [done|]. split; [by eexists _, _|]. split; [|split; [done|split]].
    + constructor; [by apply geometry_set_store; [|try apply Hg]|]. unfold store_wf. simpl. split; [done|]. split; [by apply map_set_sorted, remove_sorted|]. split.
      * destruct (length_map_set (take i tags ++ drop (S i) tags) line (line .| VALID)) as [E|E]; [|destruct E; by apply remove_sorted].
         rewrite E, Hrem, Hget, length_app, length_take, length_drop. pose proof (lookup_lt_Some _ _ _ Hi). destruct (line =? k); lia.
      * apply map_set_Forall; [|done]. apply Forall_forall. intros p Hp. apply list_elem_of_In, removed_in, list_elem_of_In, list_elem_of_lookup in Hp as [j Hj]. by apply (H4 j).
    + intros _. rewrite Hlv. split; [by rewrite Hk|]. rewrite H1, !Z.mod_1_r. done.
    + intros x. simpl. rewrite map_get_set, Hrem. unfold is_line. rewrite Hvv, Hlv. simpl. rewrite (Z.eqb_sym k). destruct (x =? line); [simpl; by rewrite Hnd|]. by destruct (x =? k).
  - eexists 0, _. split; [done|]. split; [by eexists _, _|]. split; [|split; [done|split; [done|]]].
    + constructor; [by apply geometry_set_store; [|try apply Hg]|]. unfold store_wf. simpl. split; [done|]. split; [by apply map_set_sorted|]. split; [|by apply map_set_Forall].
      destruct (length_map_set tags line (line .| VALID)) as [E|E]; [|done]. rewrite E, Hget. lia.
    + intros x. simpl. rewrite map_get_set. destruct (x =? line); [simpl; by rewrite Hnd|done].
Qed.

(** A line that is not in the cache replaces at most one line of its set. *)
Lemma victimize_spec c addr : cache_wf c -> 0 <= addr < 2 ^ 64 -> line_state c (line_of c addr) = None ->
  exists v c', victimize c addr = Some (v, c') /\ victim_post c addr v c'.
Proof. intros Hc. destruct (store_of c) as [tags|tags] eqn:E; [by apply (victimize_ways _ _ tags)|by apply (victimize_full _ _ tags)]. Qed.

(** ** One cache *)

(** An access to the miss handler. *)
Record request : Type := Request { req_addr : Z; req_bytes : Z; req_store : bool }.

Definition mark_dirty (c : cache_sim_t) (addr : Z) (store : bool) : option cache_sim_t :=
  if store then s ← check_tag c addr; Some (set_slot c s (get_slot c s .| DIRTY)) else Some c.

(** The cache after an access and what it asks of its miss handler, in order. *)
Definition respond (c : cache_sim_t) (addr bytes : Z) (store : bool) : option (cache_sim_t * list request) :=
  let c := count_access c bytes store in
  match check_tag c addr with
  | Some _ => c ← mark_dirty c addr store; Some (c, [])
  | None =>
      r ← victimize (count_miss c store) addr;
      let '(v, c) := r in
      let dirty := v .& (VALID .| DIRTY) =? VALID .| DIRTY in
      c' ← mark_dirty (if dirty then count_writeback c else c) addr store;
      Some (c', (if dirty then [Request (u64 ((v .& u64 (Z.lnot (VALID .| DIRTY))) .<< idx_shift c)) (linesz c) true] else []) ++
                [Request (addr .& u64 (Z.lnot (linesz c - 1))) (linesz c) false])
  end.

(** What stays of a cache for ever. *)
Definition shape (c : cache_sim_t) : Z * Z * Z * Z * option nat := (sets c, ways c, linesz c, idx_shift c, miss_handler c).

(** [evicted] is the line put out, with its dirty bit. *)
Record access_post (c : cache_sim_t) (addr bytes : Z) (store : bool) (evicted : option (Z * bool)) (c' : cache_sim_t) (reqs : list request) : Prop := {
  post_wf : cache_wf c';
  post_shape : shape c' = shape c;
  (** only a miss puts a line out, and one of the same set *)
  post_evicted : forall l d, evicted = Some (l, d) ->
    line_state c (line_of c addr) = None /\ line_state c l = Some d /\ l mod sets c = line_of c addr mod sets c;
  (** the line is in the cache, dirty after a store *)
  post_lines : forall x, line_state c' x =
    if x =? line_of c addr then Some (store || default false (line_state c x))
    else if bool_decide (fst <$> evicted = Some x) then None else line_state c x;
  (** a write back of a dirty line, then the line itself *)
  post_requests : reqs =
    match line_state c (line_of c addr) with
    | Some _ => []
    | None => match evicted with Some (l, true) => [Request (u64 (l * linesz c)) (linesz c) true] | _ => [] end ++
              [Request (line_of c addr * linesz c) (linesz c) false]
    end;
  post_reads : (read_accesses c', bytes_read c') = if store then (read_accesses c, bytes_read c) else (u64 (read_accesses c + 1), u64 (bytes_read c + bytes));
  post_writes : (write_accesses c', bytes_written c') = if store then (u64 (write_accesses c + 1), u64 (bytes_written c + bytes)) else (write_accesses c, bytes_written c);
  post_misses : (read_misses c', write_misses c') =
    match line_state c (line_of c addr) with
    | Some _ => (read_misses c, write_misses c)
    | None => if store then (read_misses c, u64 (write_misses c + 1)) else (u64 (read_misses c + 1), write_misses c)
    end;
  post_writebacks : writebacks c' = match evicted with Some (_, true) => u64 (writebacks c + 1) | _ => writebacks c end
}.

(** ** Hierarchies *)

Definition handlers (cs : list cache_sim_t) : list (option nat) := map miss_handler cs.

(** Every miss handler comes later in the list. *)
Definition ordered (cs : list cache_sim_t) : Prop := forall k m, handlers cs !! k = Some (Some m) -> (k < m < length cs)%nat.

Record hierarchy (cs : list cache_sim_t) : Prop := { hier_wf : Forall cache_wf cs; hier_ordered : ordered cs }.

(** The requests of a cache, one after the other. *)
Fixpoint serve (fuel : nat) (cs : list cache_sim_t) (mh : option nat) (reqs : list request) : option (list cache_sim_t) :=
  match reqs, mh with
  | r :: reqs, Some m => cs ← access fuel cs m (req_addr r) (req_bytes r) (req_store r); serve fuel cs mh reqs
  | _, _ => Some cs
  end.

(** ** What is conserved *)

(** The misses of a cache ask for a read, its write backs for a write. *)
Definition asked (c : cache_sim_t) (store : bool) : Z := if store then writebacks c else read_misses c + write_misses c.

Definition accesses (c : cache_sim_t) (store : bool) : Z := if store then write_accesses c else read_accesses c.

(** What the clients of the cache [j] have asked of it. *)
Fixpoint asked_of (cs : list cache_sim_t) (j : nat) (store : bool) : Z :=
  match cs with
  | [] => 0
  | c :: cs => (if bool_decide (miss_handler c = Some j) then asked c store else 0) + asked_of cs j store
  end.

(** The accesses to the cache [j] that do not come from its clients. *)
Definition external (cs : list cache_sim_t) (j : nat) (store : bool) : Z :=
  match cs !! j with Some c => accesses c store | None => 0 end - asked_of cs j store.

(** ** Traces

    An access names its cache, its address, its size and whether it is a store. *)

Definition run (cs : list cache_sim_t) (trace : list (nat * Z * Z * bool)) : option (list cache_sim_t) :=
  foldl (fun o '(k, addr, bytes, store) => cs ← o; access (length cs) cs k addr bytes store) (Some cs) trace.

Definition valid_trace (n : nat) (trace : list (nat * Z * Z * bool)) : Prop := Forall (fun '(k, addr, _, _) => (k < n)%nat /\ 0 <= addr < 2 ^ 64) trace.

(** The loads or stores of a trace to a cache. *)
Definition count_trace (trace : list (nat * Z * Z * bool)) (j : nat) (st : bool) : Z :=
  Z.of_nat (length (filter (fun '(k, _, _, store) => k = j /\ store = st) trace)).
