(* ===== verification/CacheAccess.v ===== *)
(** * Spike: an access to a cache, alone and in a hierarchy

    What an access does to its own cache, that the code is this answer followed by
    the service of its requests, and what the requests conserve. *)

From stdpp Require Import base option list.
From S2P Require Import Prelude.
From S2P Require Import Pmp.
From S2P Require Import Cachesim.
From S2P Require Import CacheSpec.

(** ** An access, on its own cache *)

(** The counters are no part of what a cache holds. *)
Lemma cache_wf_count c c' : store_of c' = store_of c -> shape c' = shape c -> lfsr c' = lfsr c -> cache_wf c -> cache_wf c'.
Proof.
  unfold shape. intros E1 E2 E3 [[H1 H2 H3 H4] Hs]. injection E2 as E4 E5 E6 E7 _.
  unfold store_wf in Hs. split; [split|unfold store_wf]; by rewrite ?E1, ?E3, ?E4, ?E5, ?E6, ?E7.
Qed.

Lemma mark_dirty_spec c addr store : cache_wf c -> 0 <= addr < 2 ^ 64 -> (store = true -> is_Some (line_state c (line_of c addr))) ->
  exists s, let c' := set_store c s (lfsr c) in
    mark_dirty c addr store = Some c' /\ cache_wf c' /\
    forall x, line_state c' x = if x =? line_of c addr then orb store <$> line_state c x else line_state c x.
Proof.
  intros Hc Ha Hin. destruct store.
  - destruct (Hin eq_refl) as [d Hd]. pose proof (check_tag_spec c addr Hc Ha) as Ht. unfold mark_dirty.
    destruct (check_tag c addr) as [s|]; [|congruence]. destruct Ht as [Hslot Hst]. pose proof Hslot as (Hr & [Hv Hl]%is_line_true & _).
    pose proof (set_dirty_parts _ _ _ _ (parts_of _ Hr)) as Hp. rewrite Hv, Hl in Hp.
    destruct (set_slot_spec c _ s _ _ _ Hc Hslot Hp (or_introl eq_refl)) as [Hwf Hls].
    eexists. split; [done|]. split; [done|]. intros x. unfold set_slot in Hls. simpl in Hls. rewrite Hls.
    destruct (Z.eqb_spec x (line_of c addr)) as [->|]; [by rewrite Hst|done].
  - exists (store_of c). assert (set_store c (store_of c) (lfsr c) = c) as -> by by destruct c. split; [done|]. split; [done|].
    intros x. destruct (x =? line_of c addr), (line_state c x); done.
Qed.

Lemma line_align c addr : geometry c -> 0 <= addr < 2 ^ 64 -> addr .& u64 (Z.lnot (linesz c - 1)) = line_of c addr * linesz c.
Proof.
  intros [_ [El Hj] _ _] Ha. unfold line_of. rewrite shiftr_div by lia. pose proof (clear_low addr (idx_shift c) Ha ltac:(lia)) as H.
  rewrite shiftl_mul, Z.mul_1_l, (uwrap_small 64 (2 ^ idx_shift c)) in H by (first [lia|split; [lia|apply pow2_lt; lia]]). by rewrite El.
Qed.

(** A line that is in the cache. *)
Lemma respond_hit c addr bytes store d : cache_wf c -> 0 <= addr < 2 ^ 64 -> line_state c (line_of c addr) = Some d ->
  exists c', respond c addr bytes store = Some (c', []) /\ access_post c addr bytes store None c' [].
Proof.
  intros Hc Ha Hd. unfold respond. set (c1 := count_access c bytes store).
  assert (cache_wf c1) as Hc1 by by apply (cache_wf_count c).
  pose proof (check_tag_spec c1 addr Hc1 Ha) as Ht. change (line_state c1) with (line_state c) in Ht. change (line_of c1 addr) with (line_of c addr) in Ht.
  destruct (check_tag c1 addr) as [s|]; [|congruence].
  destruct (mark_dirty_spec c1 addr store Hc1 Ha) as (st & Hm & Hwf & Hls); [by exists d|].
  rewrite Hm. eexists. split; [done|]. constructor; [done|done|done| | | | | |done]; rewrite ?Hd; [|done| | |].
  - intros x. change (line_state (set_store c1 st (lfsr c1)) x) with (line_state (set_store c1 st (lfsr c1)) x). rewrite Hls.
    change (line_state c1) with (line_state c). change (line_of c1 addr) with (line_of c addr).
    destruct (Z.eqb_spec x (line_of c addr)) as [->|]; [by rewrite Hd|done].
  - by destruct store.
  - by destruct store.
  - by destruct store.
Qed.

(** A line that is not: what is put out, and the requests. *)
Lemma respond_miss c addr bytes store : cache_wf c -> 0 <= addr < 2 ^ 64 -> line_state c (line_of c addr) = None ->
  exists ev c' reqs, respond c addr bytes store = Some (c', reqs) /\ access_post c addr bytes store ev c' reqs.
Proof.
  intros Hc Ha Hd. unfold respond. set (c1 := count_access c bytes store).
  assert (cache_wf c1) as Hc1 by by apply (cache_wf_count c).
  pose proof (check_tag_spec c1 addr Hc1 Ha) as Ht. change (line_state c1) with (line_state c) in Ht. change (line_of c1 addr) with (line_of c addr) in Ht.
  destruct (check_tag c1 addr) as [s|]; [destruct Ht; congruence|]. set (c2 := count_miss c1 store).
  assert (cache_wf c2) as Hc2 by by apply (cache_wf_count c).
  destruct (victimize_spec c2 addr Hc2 Ha Hd) as (v & c3 & Hvic & [s [r ->]] & Hwf3 & Hvr & Hv & Hls3). rewrite Hvic. cbn [mbind option_bind].
  change (line_state c2) with (line_state c) in *. change (line_of c2 addr) with (line_of c addr) in *. change (sets c2) with (sets c) in *.
  rewrite (victim_dirty v Hvr), (victim_line v Hvr). set (b := tag_valid v && tag_dirty v).
  set (c3 := set_store c2 s r) in *. set (c4 := if b then count_writeback c3 else c3).
  assert (store_of c4 = store_of c3 /\ shape c4 = shape c3 /\ lfsr c4 = lfsr c3) as (E1 & E2 & E3) by by destruct b.
  assert (cache_wf c4) as Hc4 by by apply (cache_wf_count c3).
  assert (forall x, line_state c4 x = line_state c3 x) as Hls4 by (intros x; unfold line_state; by rewrite E1).
  assert (line_of c4 addr = line_of c addr) as El4 by (by destruct b).
  destruct (mark_dirty_spec c4 addr store Hc4 Ha) as (st & Hm & Hwf & Hls).
  { intros _. rewrite Hls4, El4, Hls3, Z.eqb_refl. by eexists. }
  rewrite Hm. cbn [mbind option_bind].
  exists (if tag_valid v then Some (tag_line v, tag_dirty v) else None), (set_store c4 st (lfsr c4)). eexists. split; [done|].
  constructor; [done|by destruct b| | | | | | |]; rewrite ?Hd.
  - intros l d. destruct (tag_valid v) eqn:Ev; [|done]. intros [= <- <-]. split; [done|]. by apply Hv.
  - intros x. rewrite Hls, El4, Hls4, Hls3. destruct (Z.eqb_spec x (line_of c addr)) as [->|]; [by rewrite Hd|].
    unfold is_line. destruct (tag_valid v); [|done]. cbn [fst fmap option_fmap option_map andb].
    destruct (Z.eqb_spec (tag_line v) x) as [->|Hne]; [by rewrite bool_decide_true|]. rewrite bool_decide_false; [done|congruence].
  - change (idx_shift c3) with (idx_shift c). change (linesz c3) with (linesz c). rewrite (line_align c addr (wf_geometry c Hc) Ha).
    destruct (geo_line c (wf_geometry c Hc)) as [El Hj]. rewrite shiftl_mul, <- El by lia. f_equal. unfold b. by destruct (tag_valid v), (tag_dirty v).
  - by destruct b, store.
  - by destruct b, store.
  - by destruct b, store.
  - unfold b. by destruct (tag_valid v), (tag_dirty v), store.
Qed.

Lemma respond_spec c addr bytes store : cache_wf c -> 0 <= addr < 2 ^ 64 ->
  exists ev c' reqs, respond c addr bytes store = Some (c', reqs) /\ access_post c addr bytes store ev c' reqs.
Proof.
  intros Hc Ha. destruct (line_state c (line_of c addr)) as [d|] eqn:E; [|by apply respond_miss].
  destruct (respond_hit c addr bytes store d Hc Ha E) as (c' & H1 & H2). by exists None, c', [].
Qed.

(** ** Hierarchies *)

Lemma handlers_lookup cs k c : cs !! k = Some c -> handlers cs !! k = Some (miss_handler c).
Proof. intros Hc. unfold handlers. change (map miss_handler cs) with (miss_handler <$> cs). by rewrite list_lookup_fmap, Hc. Qed.

Lemma handlers_insert cs k c d : cs !! k = Some c -> miss_handler d = miss_handler c -> handlers (<[k:=d]> cs) = handlers cs.
Proof.
  intros Hc Hd. apply handlers_lookup in Hc as Hh. unfold handlers. change (map miss_handler (<[k:=d]> cs)) with (miss_handler <$> <[k:=d]> cs).
  rewrite list_fmap_insert, Hd. by apply list_insert_id.
Qed.

Lemma length_handlers cs : length (handlers cs) = length cs.
Proof. apply length_map. Qed.

Lemma ordered_handlers cs cs' : handlers cs' = handlers cs -> ordered cs -> ordered cs'.
Proof. intros E Ho k m H. rewrite <- length_handlers, E, length_handlers. apply Ho. by rewrite <- E. Qed.

Lemma ordered_mh cs k c m : ordered cs -> cs !! k = Some c -> miss_handler c = Some m -> (k < m)%nat.
Proof. intros Ho Hc Hm. apply handlers_lookup in Hc. rewrite Hm in Hc. by apply Ho in Hc as [? _]. Qed.

Lemma mark_dirty_shape c addr store c' : mark_dirty c addr store = Some c' -> shape c' = shape c.
Proof. unfold mark_dirty. destruct store; [|by intros [= ->]]. by destruct (check_tag c addr); intros [= <-]. Qed.

Lemma respond_shape c addr bytes store c' reqs : respond c addr bytes store = Some (c', reqs) -> shape c' = shape c.
Proof.
  unfold respond. destruct (check_tag _ addr).
  - destruct (mark_dirty _ addr store) eqn:E; [|done]. intros [= <- _]. by apply mark_dirty_shape in E.
  - destruct (victimize _ addr) as [[v c1]|] eqn:Ev; [|done]. cbn [mbind option_bind].
    assert (shape c1 = shape c) as E1.
    { unfold victimize in Ev. repeat (case_match; simplify_eq/=; try done). }
    destruct (mark_dirty _ addr store) eqn:E; [|done]. intros [= <- _]. apply mark_dirty_shape in E. rewrite E, <- E1. by destruct (_ =? _).
Qed.

Lemma shape_handler c c' : shape c' = shape c -> miss_handler c' = miss_handler c.
Proof. by intros [=]. Qed.

(** An access leaves the handlers and the caches before its own alone, and does not
    look at them. *)
Definition local_access (acc : list cache_sim_t -> option (list cache_sim_t)) (k : nat) : Prop :=
  (forall cs cs', ordered cs -> acc cs = Some cs' -> handlers cs' = handlers cs /\ forall i, (i < k)%nat -> cs' !! i = cs !! i) /\
  forall cs i c d, ordered cs -> (i < k)%nat -> cs !! i = Some c -> miss_handler d = miss_handler c -> acc (<[i:=d]> cs) = insert i d <$> acc cs.

Lemma local_serve fuel (mh : option nat) reqs k : (forall m, mh = Some m -> (k <= m)%nat) ->
  (forall m addr bytes store, (k <= m)%nat -> local_access (fun cs => access fuel cs m addr bytes store) m) ->
  local_access (fun cs => serve fuel cs mh reqs) k.
Proof.
  intros Hk Hacc. destruct mh as [m|]; [|by split; [intros cs cs' _; destruct reqs; intros [= ->]|intros; destruct reqs]].
  specialize (Hk m eq_refl). induction reqs as [|r reqs [IH1 IH2]]; [by split; [intros cs cs' _ [= ->]|]|].
  destruct (Hacc m (req_addr r) (req_bytes r) (req_store r) Hk) as [H1 H2]. split.
  - intros cs cs' Ho. simpl. destruct (access fuel cs m _ _ _) as [cs1|] eqn:E; [|done]. simpl. intros Hs.
    destruct (H1 _ _ Ho E) as [Eh1 El1]. destruct (IH1 cs1 cs' (ordered_handlers _ _ Eh1 Ho) Hs) as [Eh2 El2].
    split; [congruence|]. intros i Hi. rewrite El2 by done. apply El1. lia.
  - intros cs i c d Ho Hi Hc Hd. simpl. rewrite (H2 cs i c d) by (done || lia). destruct (access fuel cs m _ _ _) as [cs1|] eqn:E; [|done]. simpl.
    destruct (H1 _ _ Ho E) as [Eh1 El1]. apply (IH2 cs1 i c d); [by apply (ordered_handlers cs)|done| |done]. rewrite El1; [done|lia].
Qed.

Lemma serve_app fuel cs mh r1 r2 : serve fuel cs mh (r1 ++ r2) = (cs1 ← serve fuel cs mh r1; serve fuel cs1 mh r2).
Proof.
  destruct mh as [m|]; [|by destruct r1, r2]. revert cs. induction r1 as [|r r1 IH]; intros cs; [done|]. simpl. destruct (access _ _ _ _ _ _); [apply IH|done].
Qed.

(** The accesses with some fuel to the caches after [k]. *)
Definition local_above (fuel k : nat) : Prop := forall m addr bytes store, (k < m)%nat -> local_access (fun cs => access fuel cs m addr bytes store) m.

(** A request of the code, sent after the cache [k] has changed. *)
Lemma request_step fuel cs k c d a b s : local_above fuel k -> ordered cs -> cs !! k = Some c -> miss_handler d = miss_handler c ->
  match miss_handler d with Some mh => access fuel (<[k:=d]> cs) mh a b s | None => Some (<[k:=d]> cs) end
  = insert k d <$> serve fuel cs (miss_handler c) [Request a b s].
Proof.
  intros Hacc Ho Hc Hd. rewrite Hd. destruct (miss_handler c) as [m|] eqn:Em; [|done]. pose proof (ordered_mh cs k c m Ho Hc Em) as Hm.
  destruct (Hacc m a b s Hm) as [_ H]. rewrite (H cs k c d) by (done || congruence). simpl. by destruct (access _ _ _ _ _ _).
Qed.

Lemma serve_below fuel cs k c cs1 reqs : local_above fuel k -> ordered cs -> cs !! k = Some c -> serve fuel cs (miss_handler c) reqs = Some cs1 ->
  handlers cs1 = handlers cs /\ forall i, (i <= k)%nat -> cs1 !! i = cs !! i.
Proof.
  intros Hacc Ho Hc Hs. destruct (local_serve fuel (miss_handler c) reqs (S k)) as [H _].
  - intros m Hm. by apply (ordered_mh cs k c).
  - intros m a b s Hm. apply Hacc. lia.
  - destruct (H cs cs1 Ho Hs) as [H1 H2]. split; [done|]. intros i Hi. apply H2. lia.
Qed.

Lemma victimize_shape c addr v c' : victimize c addr = Some (v, c') -> shape c' = shape c.
Proof. intros Ev. unfold victimize in Ev. repeat (case_match; simplify_eq/=; try done). Qed.

(** The end of an access: the line is read, then marked. *)
Lemma read_and_mark fuel cs k c d addr (store : bool) a b : local_above fuel k -> ordered cs -> cs !! k = Some c -> miss_handler d = miss_handler c ->
  (cs1 ← (match miss_handler d with Some mh => access fuel (<[k:=d]> cs) mh a b false | None => Some (<[k:=d]> cs) end);
   if store then (c ← cs1 !! k; s ← check_tag c addr; Some (<[k := set_slot c s (get_slot c s .| DIRTY)]> cs1)) else Some cs1)
  = (d' ← mark_dirty d addr store; cs1 ← serve fuel cs (miss_handler c) [Request a b false]; Some (<[k:=d']> cs1)).
Proof.
  intros Hacc Ho Hc Hd. rewrite (request_step fuel cs k c d) by done. destruct (serve fuel cs (miss_handler c) [Request a b false]) as [cs1|] eqn:E.
  - destruct (serve_below fuel cs k c cs1 _ Hacc Ho Hc E) as [_ Hk]. specialize (Hk k (le_n k)). rewrite Hc in Hk. pose proof (lookup_lt_Some _ _ _ Hk).
    cbn. unfold mark_dirty. destruct store; [|done]. rewrite list_lookup_insert_eq by done. simpl. destruct (check_tag d addr); [|done]. simpl.
    by rewrite list_insert_insert_eq.
  - simpl. by destruct (mark_dirty d addr store).
Qed.

(** The code is the answer of the cache, then the service of its requests. *)
Lemma access_unfold fuel cs k addr bytes store : ordered cs -> local_above fuel k ->
  access (S fuel) cs k addr bytes store =
  (c ← cs !! k; r ← respond c addr bytes store; cs1 ← serve fuel cs (miss_handler c) r.2; Some (<[k := r.1]> cs1)).
Proof.
  intros Ho Hacc. cbn [access]. destruct (cs !! k) as [c|] eqn:Hc; [|done]. cbn [mbind option_bind]. unfold respond.
  set (c1 := count_access c bytes store). destruct (check_tag c1 addr) as [s|] eqn:Et.
  - unfold mark_dirty. destruct store; [|by destruct (miss_handler c)]. rewrite Et. simpl. by destruct (miss_handler c).
  - destruct (victimize (count_miss c1 store) addr) as [[v c2]|] eqn:Ev; [|done]. cbn [mbind option_bind].
    pose proof (shape_handler _ _ (victimize_shape _ _ _ _ Ev)) as Em2. change (miss_handler c2 = miss_handler c) in Em2.
    destruct (v .& (VALID .| DIRTY) =? VALID .| DIRTY).
    + rewrite (request_step fuel cs k c c2) by done. set (wr := Request _ _ true).
      destruct (serve fuel cs (miss_handler c) [wr]) as [cs1|] eqn:E.
      * destruct (serve_below fuel cs k c cs1 _ Hacc Ho Hc E) as [Eh Hk]. specialize (Hk k (le_n k)). rewrite Hc in Hk. pose proof (lookup_lt_Some _ _ _ Hk).
        cbn [fmap option_fmap option_map mbind option_bind]. rewrite list_lookup_insert_eq by done. cbn [mbind option_bind]. rewrite list_insert_insert_eq.
        cbn [mbind option_bind]. rewrite (read_and_mark fuel cs1 k c (count_writeback c2)) by (done || by apply (ordered_handlers cs)).
        destruct (mark_dirty (count_writeback c2) addr store); [|done]. cbn [mbind option_bind fst snd]. rewrite serve_app, E. done.
      * cbn [fmap option_fmap option_map mbind option_bind]. destruct (mark_dirty (count_writeback c2) addr store); [|done]. cbn [mbind option_bind fst snd]. by rewrite serve_app, E.
    + cbn [mbind option_bind]. rewrite (read_and_mark fuel cs k c c2) by done.
      destruct (mark_dirty c2 addr store); [|done]. done.
Qed.

Lemma access_local fuel : forall k addr bytes store, local_access (fun cs => access fuel cs k addr bytes store) k.
Proof.
  induction fuel as [|fuel IH]; intros k addr bytes store; [by split|].
  assert (local_above fuel k) as Hab by (intros m a b s _; apply IH).
  assert (forall cs c, ordered cs -> cs !! k = Some c -> forall reqs, local_access (fun cs => serve fuel cs (miss_handler c) reqs) (S k)) as Hsv.
  { intros cs c Ho Hc reqs. apply local_serve; [|intros; apply IH]. intros m Hm. by apply (ordered_mh cs k c). }
  split.
  - intros cs cs' Ho. rewrite access_unfold by done. destruct (cs !! k) as [c|] eqn:Hc; [|done]. cbn [mbind option_bind].
    destruct (respond c addr bytes store) as [[c' reqs]|] eqn:Er; [|done]. cbn [mbind option_bind fst snd].
    destruct (serve fuel cs (miss_handler c) reqs) as [cs1|] eqn:Es; [|done]. intros [= <-].
    destruct (serve_below fuel cs k c cs1 _ Hab Ho Hc Es) as [Eh El]. split.
    + rewrite (handlers_insert cs1 k c); [done| |]; [by rewrite El|]. by apply shape_handler, (respond_shape c addr bytes store c' reqs).
    + intros i Hi. rewrite list_lookup_insert_ne by lia. apply El. lia.
  - intros cs i c d Ho Hi Hc Hd. pose proof (handlers_insert cs i c d Hc Hd) as Eh. pose proof (ordered_handlers _ _ Eh Ho) as Ho'.
    rewrite !access_unfold by done. rewrite list_lookup_insert_ne by lia. destruct (cs !! k) as [ck|] eqn:Hck; [|done]. cbn [mbind option_bind].
    destruct (respond ck addr bytes store) as [[c' reqs]|]; [|done]. cbn [mbind option_bind fst snd].
    destruct (Hsv cs ck Ho Hck reqs) as [_ H]. rewrite (H cs i c d) by (done || lia). destruct (serve fuel cs (miss_handler ck) reqs) as [cs1|]; [|done].
    simpl. by rewrite list_insert_insert_ne by lia.
Qed.

Lemma access_above fuel k : local_above fuel k.
Proof. intros m addr bytes store _. apply access_local. Qed.

(** ** Every access ends, and keeps the hierarchy *)

(** Requests are for 64-bit addresses. *)
Definition in_range (r : request) : Prop := 0 <= req_addr r < 2 ^ 64.

Lemma post_in_range c addr bytes store ev c' reqs : cache_wf c -> 0 <= addr < 2 ^ 64 -> access_post c addr bytes store ev c' reqs -> Forall in_range reqs.
Proof.
  intros Hc Ha [_ _ _ _ -> _ _ _ _]. destruct (line_state c _); [by constructor|]. apply Forall_app. split.
  - destruct ev as [[l []]|]; repeat constructor; apply uwrap_range; lia.
  - repeat constructor; unfold in_range; simpl; rewrite <- (line_align c addr (wf_geometry c Hc) Ha); apply land_range, uwrap_range; lia.
Qed.

Definition total_at (fuel : nat) : Prop := forall cs k addr bytes store, hierarchy cs -> (k < length cs)%nat -> (length cs - k <= fuel)%nat -> 0 <= addr < 2 ^ 64 ->
  exists cs', access fuel cs k addr bytes store = Some cs' /\ hierarchy cs' /\ handlers cs' = handlers cs.

Lemma serve_total fuel cs mh reqs : total_at fuel -> hierarchy cs -> Forall in_range reqs ->
  (forall m, mh = Some m -> (m < length cs /\ length cs - m <= fuel)%nat) ->
  exists cs', serve fuel cs mh reqs = Some cs' /\ hierarchy cs' /\ handlers cs' = handlers cs.
Proof.
  intros Ht Hh Hr Hm. destruct mh as [m|]; [|exists cs; by destruct reqs]. specialize (Hm m eq_refl).
  revert cs Hh Hm. induction Hr as [|r reqs Hr1 Hr IH]; intros cs Hh Hm; [by exists cs|].
  destruct (Ht cs m (req_addr r) (req_bytes r) (req_store r) Hh ltac:(lia) ltac:(lia) Hr1) as (cs1 & E1 & Hh1 & Eh1).
  assert (length cs1 = length cs) as El by (rewrite <- length_handlers, Eh1; apply length_handlers).
  destruct (IH cs1 Hh1 ltac:(lia)) as (cs2 & E2 & Hh2 & Eh2). exists cs2. simpl. rewrite E1. split; [done|]. split; [done|]. congruence.
Qed.

Lemma hierarchy_insert cs k c c' : hierarchy cs -> cs !! k = Some c -> cache_wf c' -> miss_handler c' = miss_handler c -> hierarchy (<[k:=c']> cs).
Proof.
  intros [Hw Ho] Hc Hwf Hm. split; [by apply Forall_insert|]. apply (ordered_handlers cs); [|done]. by apply (handlers_insert cs k c).
Qed.

(** One access, with what it does to its cache and the service of its requests. *)
Lemma access_step fuel : total_at fuel -> forall cs k c addr bytes store, hierarchy cs -> cs !! k = Some c -> (length cs - k <= S fuel)%nat -> 0 <= addr < 2 ^ 64 ->
  exists ev c' reqs cs1, access_post c addr bytes store ev c' reqs /\ serve fuel cs (miss_handler c) reqs = Some cs1 /\
    hierarchy cs1 /\ handlers cs1 = handlers cs /\ (forall i, (i <= k)%nat -> cs1 !! i = cs !! i) /\
    access (S fuel) cs k addr bytes store = Some (<[k:=c']> cs1).
Proof.
  intros Ht cs k c addr bytes store Hh Hc Hf Ha. pose proof (hier_ordered cs Hh) as Ho. pose proof (lookup_lt_Some _ _ _ Hc).
  pose proof (hier_wf cs Hh) as Hw. rewrite Forall_lookup in Hw. specialize (Hw k c Hc).
  destruct (respond_spec c addr bytes store Hw Ha) as (ev & c' & reqs & Er & Hp).
  destruct (serve_total fuel cs (miss_handler c) reqs Ht Hh) as (cs1 & Es & Hh1 & Eh1).
  { by apply (post_in_range c addr bytes store ev c'). }
  { intros m Hm. apply handlers_lookup in Hc. rewrite Hm in Hc. apply Ho in Hc. lia. }
  destruct (serve_below fuel cs k c cs1 reqs (access_above fuel k) Ho Hc Es) as [_ El].
  exists ev, c', reqs, cs1. do 5 (split; [done|]). rewrite access_unfold by (done || apply access_above). rewrite Hc. cbn [mbind option_bind].
  rewrite Er. cbn [mbind option_bind fst snd]. by rewrite Es.
Qed.

Lemma access_total fuel : total_at fuel.
Proof.
  induction fuel as [|fuel IH]; intros cs k addr bytes store Hh Hk Hf Ha; [lia|]. destruct (lookup_lt_is_Some_2 cs k Hk) as [c Hc].
  destruct (access_step fuel IH cs k c addr bytes store Hh Hc Hf Ha) as (ev & c' & reqs & cs1 & Hp & _ & Hh1 & Eh & El & E).
  exists (<[k:=c']> cs1). split; [done|]. specialize (El k (le_n k)). rewrite Hc in El. pose proof (shape_handler _ _ (post_shape _ _ _ _ _ _ _ Hp)).
  split; [by apply (hierarchy_insert cs1 k c); [..|apply Hp|]|]. rewrite (handlers_insert cs1 k c); done.
Qed.

(** ** What requests conserve *)

Lemma asked_of_insert cs k c c' j st : cs !! k = Some c -> miss_handler c' = miss_handler c ->
  asked_of (<[k:=c']> cs) j st = asked_of cs j st + if bool_decide (miss_handler c = Some j) then asked c' st - asked c st else 0.
Proof.
  revert k. induction cs as [|d cs IH]; intros k Hc Hm; [done|]. destruct k as [|k]; simpl in *.
  - injection Hc as ->. rewrite Hm. case_bool_decide; lia.
  - rewrite (IH k Hc Hm). lia.
Qed.

(** How many requests are stores, or loads. *)
Definition count_reqs (reqs : list request) (st : bool) : Z := Z.of_nat (length (filter (fun r => req_store r = st) reqs)).

Lemma u64_over x : exists q, u64 x = x + q * 2 ^ 64.
Proof. exists (- (x / 2 ^ 64)). unfold uwrap. pose proof (Z.div_mod x (2 ^ 64) ltac:(lia)). lia. Qed.

(** A cache asks as many times as it sends requests. *)
Lemma post_asked c addr bytes store ev c' reqs st : access_post c addr bytes store ev c' reqs ->
  exists q, asked c' st = asked c st + count_reqs reqs st + q * 2 ^ 64.
Proof.
  intros [_ _ Hev _ -> _ _ Hm Hwb]. unfold count_reqs. destruct (line_state c (line_of c addr)) as [d|] eqn:E.
  - injection Hm as E1 E2. exists 0. assert (ev = None) as -> by (destruct ev as [[l d']|]; [|done]; by destruct (Hev l d' eq_refl)).
    unfold asked. destruct st; simpl; lia.
  - unfold asked. destruct (u64_over (writebacks c + 1)) as [q1 H1], (u64_over (write_misses c + 1)) as [q2 H2], (u64_over (read_misses c + 1)) as [q3 H3].
    destruct st.
    + rewrite Hwb. destruct ev as [[l []]|]; simpl; [exists q1|exists 0|exists 0]; lia.
    + destruct store; injection Hm as -> ->; [exists q2|exists q3]; destruct ev as [[l []]|]; simpl; lia.
Qed.

Lemma post_accesses c addr bytes store ev c' reqs st : access_post c addr bytes store ev c' reqs ->
  exists q, accesses c' st = accesses c st + b2z (eqb st store) + q * 2 ^ 64.
Proof.
  intros [_ _ _ _ _ Hr Hw _ _]. unfold accesses. destruct (u64_over (write_accesses c + 1)) as [q1 H1], (u64_over (read_accesses c + 1)) as [q2 H2].
  destruct store; injection Hr as E1 E2; injection Hw as E3 E4; destruct st; simpl; [exists q1|exists 0|exists 0|exists q2]; lia.
Qed.

(** An access counts once, at its cache. *)
Definition conserving (fuel : nat) : Prop := forall cs k addr bytes store cs' j st, hierarchy cs -> (k < length cs)%nat -> (length cs - k <= fuel)%nat -> 0 <= addr < 2 ^ 64 ->
  access fuel cs k addr bytes store = Some cs' ->
  exists q, external cs' j st = external cs j st + b2z (bool_decide (j = k) && eqb st store) + q * 2 ^ 64.

Lemma serve_conserving fuel cs m reqs cs' j st : conserving fuel -> hierarchy cs -> Forall in_range reqs -> (m < length cs)%nat -> (length cs - m <= fuel)%nat ->
  serve fuel cs (Some m) reqs = Some cs' ->
  exists q, external cs' j st = external cs j st + (if bool_decide (j = m) then count_reqs reqs st else 0) + q * 2 ^ 64.
Proof.
  intros Hcon Hh Hr Hm Hf. revert cs Hh Hm Hf. induction Hr as [|r reqs Hr1 Hr IH]; intros cs Hh Hm Hf.
  - intros [= <-]. exists 0. unfold count_reqs. case_bool_decide; simpl; lia.
  - destruct (access_total fuel cs m (req_addr r) (req_bytes r) (req_store r) Hh Hm Hf Hr1) as (cs1 & E1 & Hh1 & Eh1).
    simpl. rewrite E1. simpl. intros E2. assert (length cs1 = length cs) as El by (rewrite <- length_handlers, Eh1; apply length_handlers).
    destruct (Hcon cs m _ _ _ cs1 j st Hh Hm Hf Hr1 E1) as [q1 Eq1]. destruct (IH cs1 Hh1 ltac:(lia) ltac:(lia) E2) as [q2 ->]. rewrite Eq1.
    exists (q1 + q2). unfold count_reqs. rewrite filter_cons. case_bool_decide; simpl; [|lia].
    destruct (decide (req_store r = st)) as [<-|Hne]; [rewrite eqb_reflx; simpl; lia|].
    assert (eqb st (req_store r) = false) as -> by (apply eqb_false_iff; congruence). simpl. lia.
Qed.

Lemma external_insert cs k c c' j st : cs !! k = Some c -> miss_handler c' = miss_handler c ->
  external (<[k:=c']> cs) j st = external cs j st + (if bool_decide (j = k) then accesses c' st - accesses c st else 0)
    - (if bool_decide (miss_handler c = Some j) then asked c' st - asked c st else 0).
Proof.
  intros Hc Hm. unfold external. rewrite (asked_of_insert cs k c) by done. destruct (decide (j = k)) as [->|Hj].
  - rewrite Hc, list_lookup_insert_eq, (bool_decide_true (k = k)) by (done || by eapply lookup_lt_Some). lia.
  - rewrite list_lookup_insert_ne, (bool_decide_false (j = k)) by congruence. lia.
Qed.

Lemma access_conserving fuel : conserving fuel.
Proof.
  induction fuel as [|fuel IH]; intros cs k addr bytes store cs' j st Hh Hk Hf Ha; [lia|]. destruct (lookup_lt_is_Some_2 cs k Hk) as [c Hc].
  destruct (access_step fuel (access_total fuel) cs k c addr bytes store Hh Hc Hf Ha) as (ev & c' & reqs & cs1 & Hp & Es & Hh1 & Eh & El & ->).
  intros [= <-]. specialize (El k (le_n k)). rewrite Hc in El. pose proof (hier_wf cs Hh) as Hw. rewrite Forall_lookup in Hw.
  rewrite (external_insert cs1 k c) by (done || by apply shape_handler, (post_shape _ _ _ _ _ _ _ Hp)).
  destruct (post_asked c addr bytes store ev c' reqs st Hp) as [q1 E1], (post_accesses c addr bytes store ev c' reqs st Hp) as [q2 E2].
  assert (exists q, external cs1 j st = external cs j st + (if bool_decide (miss_handler c = Some j) then count_reqs reqs st else 0) + q * 2 ^ 64) as [q ->].
  { destruct (miss_handler c) as [m|] eqn:Em.
    - apply handlers_lookup in Hc as Hhd. rewrite Em in Hhd. apply (hier_ordered cs Hh) in Hhd.
      destruct (serve_conserving fuel cs m reqs cs1 j st IH Hh) as [q Hq]; [|lia|lia|done|].
      { by apply (post_in_range c addr bytes store ev c'); [apply (Hw k)|..]. }
      exists q. rewrite Hq. destruct (decide (j = m)) as [->|]; [by rewrite !bool_decide_true|rewrite !bool_decide_false by congruence; lia].
    - exists 0. assert (cs1 = cs) as -> by (destruct reqs; simpl in Es; congruence). rewrite bool_decide_false by done. lia. }
  rewrite E1, E2. exists (q + (if bool_decide (j = k) then q2 else 0) - (if bool_decide (miss_handler c = Some j) then q1 else 0)).
  case_bool_decide; case_bool_decide; simpl; destruct (eqb st store); simpl; lia.
Qed.
