(* ===== verification/CacheTheorems.v ===== *)
(** * Spike: theorems about the cache simulator

    What [clean_invalidate] does to one cache and along the chain of miss handlers,
    for the caches that keep their tags in an array.

    What an access does in a hierarchy, that requests are conserved over any trace,
    what cleaning and invalidating leave, and that the caches the constructors make
    are well formed. *)

From stdpp Require Import base option list.
From Stdlib Require Import Sorted.
From S2P Require Import Prelude.
From S2P Require Import Pmp.
From S2P Require Import Cachesim.
From S2P Require Import CacheSpec.
From S2P Require Import CacheAccess.

(** ** Cleaning and invalidation *)

(** What cleaning and invalidating make of a line. *)
Definition flushed (clean inval : bool) (o : option bool) : option bool :=
  d ← o; if inval then None else Some (negb clean && d).

(** The dirty lines of a cache among the [n] from [lo]. *)
Definition dirty_in (c : cache_sim_t) (lo n : Z) : Z := Z.of_nat (length (filter (fun x => line_state c x = Some true) (seqZ lo n))).

(** The caches of the model that keep their tags in an array. *)
Definition set_assoc (c : cache_sim_t) : Prop := exists tags, store_of c = Ways tags.

Lemma get_set_slot c s v : set_assoc c -> 0 <= s -> forall x, slot_of c x s -> get_slot (set_slot c s v) s = v.
Proof.
  intros [tags E] Hs x (_ & _ & Hr). unfold get_slot, set_slot in *. rewrite E in *. simpl. apply nth_lookup_Some, list_lookup_insert_eq. lia.
Qed.

(** Giving a slot a tag of the same line. *)
Lemma retag c x s t v d : cache_wf c -> set_assoc c -> slot_of c x s -> parts t v d x ->
  let c' := set_slot c s t in
  cache_wf c' /\ set_assoc c' /\ shape c' = shape c /\ writebacks c' = writebacks c /\ (v = true -> slot_of c' x s) /\
  get_slot c' s = t /\ forall y, line_state c' y = if y =? x then (if v then Some d else None) else line_state c y.
Proof.
  intros Hc Ha Hs Hp. pose proof Ha as [tags E]. destruct (set_slot_spec c x s t v d Hc Hs Hp) as [Hwf Hls]; [right; by exists tags|].
  assert (0 <= s < Z.of_nat (length tags)) as Hr by (destruct Hs as (_ & _ & Hs); by rewrite E in Hs).
  assert (get_slot (set_slot c s t) s = t) as Hg by by apply (get_set_slot c s t Ha ltac:(lia) x).
  cbn zeta. split; [done|]. split; [unfold set_assoc, set_slot; rewrite E; by eexists|]. split; [done|]. split; [done|]. split; [|done].
  intros ->. destruct Hp as (H1 & H2 & H3 & H4). split; [by rewrite Hg|]. split; [rewrite Hg; by apply is_line_true|].
  unfold set_slot. rewrite E. simpl. by rewrite length_insert.
Qed.

Lemma dirty_bit t : nz (t .& DIRTY) = tag_dirty t.
Proof.
  apply (nz_bit t 62). lia.
Qed.

Lemma clean_line_spec c a clean inval : cache_wf c -> set_assoc c -> 0 <= a < 2 ^ 64 ->
  let c' := clean_line c a clean inval in
  cache_wf c' /\ set_assoc c' /\ shape c' = shape c /\
  (forall x, line_state c' x = if x =? line_of c a then flushed clean inval (line_state c x) else line_state c x) /\
  u64 (writebacks c') = u64 (writebacks c + b2z (clean && bool_decide (line_state c (line_of c a) = Some true))).
Proof.
  intros Hc Has Ha. pose proof (check_tag_spec c a Hc Ha) as Ht. unfold clean_line. destruct (check_tag c a) as [s|].
  - destruct Ht as [Hs Hst]. pose proof Hs as (Hr & [Hv Hl]%is_line_true & _). rewrite dirty_bit, Hst. set (x := line_of c a) in *.
    set (d := tag_dirty (get_slot c s)) in *. set (c1 := if clean && d then _ else c).
    assert (cache_wf c1 /\ set_assoc c1 /\ shape c1 = shape c /\ slot_of c1 x s /\ u64 (writebacks c1) = u64 (writebacks c + b2z (clean && d)) /\
      forall y, line_state c1 y = if y =? x then Some (negb clean && d) else line_state c y) as (H1 & H2 & H3 & H4 & H5 & H6).
    { unfold c1. destruct (clean && d) eqn:Ecd.
      - pose proof (clear_dirty_parts _ _ _ _ (parts_of _ Hr)) as Hp. rewrite Hv, Hl in Hp.
        destruct (retag (count_writeback c) x s (get_slot c s .& u64 (Z.lnot DIRTY)) true false) as (R1 & R2 & R3 & R4 & R5 & R6 & R7); [by apply (cache_wf_count c)|done|done|done|].
        repeat (split; [done|]). split; [by apply R5|]. split; [by rewrite R4; unfold count_writeback; simpl; rewrite uwrap_small by (apply uwrap_range; lia)|].
        intros y. rewrite R7. apply andb_prop in Ecd as [-> _]. by destruct (y =? x).
      - repeat (split; [done|]). rewrite Z.add_0_r. split; [done|]. intros y. destruct (Z.eqb_spec y x) as [->|]; [|done].
        rewrite Hst. fold d. by destruct clean, d. }
    destruct inval.
    + pose proof H4 as (Hr1 & [Hv1 Hl1]%is_line_true & _). pose proof (clear_valid_parts _ _ _ _ (parts_of _ Hr1)) as Hp. rewrite Hl1 in Hp.
      destruct (retag c1 x s _ _ _ H1 H2 H4 Hp) as (R1 & R2 & R3 & R4 & _ & _ & R7). cbn zeta. split; [done|]. split; [done|]. split; [congruence|].
      split; [|rewrite R4, H5; by rewrite bool_decide_decide; destruct d].
      intros y. rewrite R7, H6. destruct (Z.eqb_spec y x) as [->|]; [by rewrite Hst|done].
    + cbn zeta. do 3 (split; [done|]). split; [|rewrite H5; by destruct d]. intros y. rewrite H6. destruct (Z.eqb_spec y x) as [->|]; [by rewrite Hst|done].
  - cbn zeta. do 3 (split; [done|]). rewrite Ht. rewrite andb_false_r, Z.add_0_r. split; [|done]. intros x. destruct (Z.eqb_spec x (line_of c a)) as [->|]; [by rewrite Ht|done].
Qed.

(** The lines from [lo] to [hi] are flushed, and each dirty one that is cleaned is
    counted as a write back. *)
Record flushed_post (c : cache_sim_t) (lo hi : Z) (clean inval : bool) (c' : cache_sim_t) : Prop := {
  flush_wf : cache_wf c';
  flush_assoc : set_assoc c';
  flush_shape : shape c' = shape c;
  flush_lines : forall x, line_state c' x = if (lo <=? x) && (x <? hi) then flushed clean inval (line_state c x) else line_state c x;
  flush_writebacks : u64 (writebacks c') = u64 (writebacks c + if clean then dirty_in c lo (hi - lo) else 0)
}.

Lemma dirty_ext c c' (l : list Z) : (forall x, x ∈ l -> line_state c' x = line_state c x) ->
  filter (fun x => line_state c' x = Some true) l = filter (fun x => line_state c x = Some true) l.
Proof.
  induction l as [|x l IH]; intros He; [done|]. rewrite !filter_cons, (He x) by left. rewrite IH by (intros y Hy; apply He; by right). done.
Qed.

Lemma dirty_in_step c c' lo n : 0 < n -> (forall x, x <> lo -> line_state c' x = line_state c x) ->
  dirty_in c lo n = b2z (bool_decide (line_state c lo = Some true)) + dirty_in c' (lo + 1) (n - 1).
Proof.
  intros Hn He. unfold dirty_in. rewrite (seqZ_cons lo n), filter_cons by lia. replace (Z.succ lo) with (lo + 1) by lia. replace (Z.pred n) with (n - 1) by lia.
  rewrite (dirty_ext c c') by (intros x Hx%elem_of_seqZ; apply He; lia). rewrite bool_decide_decide. destruct (decide _); cbn [length b2z]; lia.
Qed.

Lemma clean_loop_spec clean inval : forall fuel c lo hi, cache_wf c -> set_assoc c -> 0 <= lo -> hi * linesz c < 2 ^ 64 -> hi - lo < Z.of_nat fuel ->
  flushed_post c lo hi clean inval (clean_loop fuel c (lo * linesz c) (hi * linesz c) clean inval).
Proof.
  induction fuel as [|fuel IH]; intros c lo hi Hc Ha Hlo Hhi Hf.
  - simpl. constructor; [done|done|done| |].
    + intros x. destruct (Z.leb_spec lo x), (Z.ltb_spec x hi); try done. lia.
    + unfold dirty_in. rewrite seqZ_nil by lia. destruct clean; by rewrite Z.add_0_r.
  - cbn [clean_loop]. destruct (geo_line c (wf_geometry c Hc)) as [El Hj]. pose proof (pow2_pos (idx_shift c) ltac:(lia)) as Hp. rewrite <- El in Hp.
    destruct (Z.ltb_spec (lo * linesz c) (hi * linesz c)) as [Hlt|Hge].
    + assert (lo < hi) as Hlh by nia. assert (0 <= lo * linesz c < 2 ^ 64) as Hr by nia.
      destruct (clean_line_spec c (lo * linesz c) clean inval Hc Ha Hr) as (H1 & H2 & H3 & H4 & H5). set (c1 := clean_line c _ clean inval) in *.
      assert (line_of c (lo * linesz c) = lo) as Eline by (unfold line_of; rewrite shiftr_div, <- El by lia; apply Z.div_mul; lia). rewrite Eline in *.
      assert (linesz c1 = linesz c) as Els by by injection H3. rewrite uwrap_small by nia.
      replace (lo * linesz c + linesz c) with ((lo + 1) * linesz c) by lia. rewrite <- Els.
      destruct (IH c1 (lo + 1) hi H1 H2 ltac:(lia) ltac:(congruence) ltac:(lia)) as [I1 I2 I3 I4 I5]. constructor; [done|done|congruence| |].
      * intros x. rewrite I4, H4. destruct (Z.leb_spec (lo + 1) x), (Z.leb_spec lo x), (Z.ltb_spec x hi), (Z.eqb_spec x lo); subst; try done; lia.
      * rewrite I5. destruct clean; [|by rewrite !Z.add_0_r in *].
        rewrite (dirty_in_step c c1 lo (hi - lo)); [|lia|intros y Hy; rewrite H4; by destruct (Z.eqb_spec y lo)].
        unfold uwrap in *. rewrite <- Zplus_mod_idemp_l, H5, Zplus_mod_idemp_l. cbn [andb]. f_equal. replace (hi - (lo + 1)) with (hi - lo - 1) by lia. lia.
    + assert (hi <= lo) by nia. constructor; [done|done|done| |].
      * intros x. destruct (Z.leb_spec lo x), (Z.ltb_spec x hi); try done. lia.
      * unfold dirty_in. rewrite seqZ_nil by lia. destruct clean; by rewrite Z.add_0_r.
Qed.

(** ** Along the miss handlers *)

Fixpoint chain (fuel : nat) (hs : list (option nat)) (k : nat) : list nat :=
  match fuel with
  | O => []
  | S fuel => k :: match hs !! k with Some (Some m) => chain fuel hs m | _ => [] end
  end.

(** The lines of a cache that [bytes] bytes from [addr] touch. *)
Definition first_line (c : cache_sim_t) (addr : Z) : Z := addr / linesz c.
Definition last_line (c : cache_sim_t) (addr bytes : Z) : Z := (addr + bytes + linesz c - 1) / linesz c.

Lemma chain_above fuel : forall hs k i, (forall a m, hs !! a = Some (Some m) -> (a < m)%nat) -> i ∈ chain fuel hs k -> (k <= i)%nat.
Proof.
  induction fuel as [|fuel IH]; intros hs k i Ho; simpl; [by intros ?%not_elem_of_nil|]. intros [->|Hi]%elem_of_cons; [done|].
  destruct (hs !! k) as [[m|]|] eqn:E; try by apply not_elem_of_nil in Hi. apply Ho in E. apply (IH hs m i Ho) in Hi. lia.
Qed.

Lemma flush_cache c addr bytes clean inval : cache_wf c -> set_assoc c -> 0 <= addr -> 0 <= bytes -> addr + bytes + linesz c - 1 < 2 ^ 64 ->
  let start_addr := addr .& u64 (Z.lnot (linesz c - 1)) in
  let end_addr := u64 (u64 (addr + bytes) + linesz c - 1) .& u64 (Z.lnot (linesz c - 1)) in
  flushed_post c (first_line c addr) (last_line c addr bytes) clean inval
    (clean_loop (Z.to_nat ((end_addr - start_addr) / linesz c + 1)) c start_addr end_addr clean inval).
Proof.
  intros Hc Hca Ha Hb Hsz. pose proof (wf_geometry c Hc) as Hg. destruct (geo_line c Hg) as [El Hj].
  pose proof (pow2_pos (idx_shift c) ltac:(lia)) as Hp. rewrite <- El in Hp.
  rewrite (uwrap_small 64 (addr + bytes)) by lia. rewrite (uwrap_small 64 (addr + bytes + linesz c - 1)) by lia. cbn zeta. rewrite !line_align by (done || lia).
  assert (forall a, line_of c a = a / linesz c) as Hline by (intros a; unfold line_of; rewrite shiftr_div by lia; by rewrite El).
  rewrite !Hline, <- Z.mul_sub_distr_r, Z.div_mul by lia. unfold first_line, last_line.
  set (lo := addr / linesz c). set (hi := (addr + bytes + linesz c - 1) / linesz c).
  assert (hi * linesz c <= addr + bytes + linesz c - 1) by (pose proof (Z.mul_div_le (addr + bytes + linesz c - 1) (linesz c) Hp); unfold hi; lia).
  assert (lo <= hi) by (apply Z.div_le_mono; lia).
  apply clean_loop_spec; [done|done|apply Z.div_pos; lia|lia|lia].
Qed.

Lemma clean_invalidate_spec fuel : forall cs k addr bytes clean inval, hierarchy cs -> Forall set_assoc cs -> (k < length cs)%nat -> (length cs - k <= fuel)%nat ->
  0 <= addr -> 0 <= bytes -> Forall (fun c => addr + bytes + linesz c - 1 < 2 ^ 64) cs ->
  exists cs', clean_invalidate fuel cs k addr bytes clean inval = Some cs' /\ length cs' = length cs /\
    forall i c, cs !! i = Some c -> exists c', cs' !! i = Some c' /\
      if bool_decide (i ∈ chain fuel (handlers cs) k) then flushed_post c (first_line c addr) (last_line c addr bytes) clean inval c' else c' = c.
Proof.
  induction fuel as [|fuel IH]; intros cs k addr bytes clean inval Hh Hsa Hk Hf Ha Hb Hsz; [lia|].
  destruct (lookup_lt_is_Some_2 cs k Hk) as [c Hc]. cbn [clean_invalidate chain]. rewrite Hc, (handlers_lookup cs k c Hc). cbn [mbind option_bind].
  pose proof (hier_wf cs Hh) as Hw. pose proof Hsa as Hsa'. pose proof Hsz as Hsz'. rewrite Forall_lookup in Hw, Hsa', Hsz'.
  pose proof (flush_cache c addr bytes clean inval (Hw k c Hc) (Hsa' k c Hc) Ha Hb (Hsz' k c Hc)) as Hfl. cbn zeta in Hfl.
  set (c1 := clean_loop _ c _ _ clean inval) in *. pose proof (flush_shape _ _ _ _ _ _ Hfl) as Es. pose proof (shape_handler _ _ Es) as Em. rewrite Em.
  pose proof (handlers_insert cs k c c1 Hc Em) as Eh.
  destruct (miss_handler c) as [m|] eqn:Emh.
  - assert (k < m < length cs)%nat as Hkm by (apply (hier_ordered cs Hh); rewrite (handlers_lookup cs k c Hc); by f_equal).
    destruct (IH (<[k:=c1]> cs) m addr bytes clean inval) as (cs' & E & Elen & Hall); try done.
    { apply (hierarchy_insert cs k c); [done|done|apply Hfl|congruence]. }
    { apply Forall_insert; [done|apply Hfl]. }
    { rewrite length_insert. lia. } { rewrite length_insert. lia. }
    { apply Forall_insert; [done|]. injection Es as _ _ -> _ _. by apply (Hsz' k c Hc). }
    exists cs'. split; [done|]. split; [by rewrite Elen, length_insert|]. intros i d Hi. rewrite Eh in Hall.
    assert (k ∉ chain fuel (handlers cs) m) as Hk'.
    { intros Hin. apply chain_above in Hin; [lia|]. intros a b Hab. apply (hier_ordered cs Hh) in Hab. lia. }
    destruct (decide (i = k)) as [->|Hne].
    + rewrite Hc in Hi. injection Hi as <-. destruct (Hall k c1) as (c' & Hc' & Hpost); [by apply list_lookup_insert_eq|].
      rewrite bool_decide_false in Hpost by done. subst c'. exists c1. split; [done|]. rewrite bool_decide_true by left. done.
    + destruct (Hall i d) as (c' & Hc' & Hpost); [by rewrite list_lookup_insert_ne by congruence|]. exists c'. split; [done|].
      rewrite (bool_decide_ext (i ∈ k :: chain fuel (handlers cs) m) (i ∈ chain fuel (handlers cs) m)); [done|]. rewrite elem_of_cons. split; [by intros [->|]|by right].
  - exists (<[k:=c1]> cs). split; [done|]. split; [apply length_insert|]. intros i d Hi. destruct (decide (i = k)) as [->|Hne].
    + rewrite Hc in Hi. injection Hi as <-. exists c1. rewrite list_lookup_insert_eq by done. split; [done|]. by rewrite bool_decide_true by left.
    + exists d. rewrite list_lookup_insert_ne by congruence. split; [done|]. rewrite bool_decide_false; [done|]. intros [->|[]%not_elem_of_nil]%elem_of_cons. done.
Qed.

(** ** The fully associative cache *)

(** Its lookup never looks at the flags. *)
Lemma check_tag_full c tags addr : store_of c = Full tags -> check_tag c addr = (_ ← map_get tags (line_of c addr); Some (line_of c addr)).
Proof. intros E. unfold check_tag. rewrite E. by destruct (map_get tags _). Qed.

Lemma set_slot_full c tags s v : store_of c = Full tags -> is_Some (map_get tags s) ->
  exists tags', store_of (set_slot c s v) = Full tags' /\ shape (set_slot c s v) = shape c /\ forall x, is_Some (map_get tags' x) <-> is_Some (map_get tags x).
Proof.
  intros E Hs. exists (map_set tags s v). unfold set_slot. rewrite E. split; [done|]. split; [done|]. intros x. rewrite map_get_set.
  destruct (Z.eqb_spec x s) as [->|]; [|done]. split; [done|by eexists].
Qed.

Lemma clean_line_full c tags a clean inval : store_of c = Full tags ->
  exists tags', store_of (clean_line c a clean inval) = Full tags' /\ shape (clean_line c a clean inval) = shape c /\ forall x, is_Some (map_get tags' x) <-> is_Some (map_get tags x).
Proof.
  intros E. unfold clean_line. rewrite (check_tag_full c tags a E). destruct (map_get tags (line_of c a)) as [v|] eqn:Ev; cbn [mbind option_bind]; [|by exists tags].
  set (c1 := if clean && nz (get_slot c (line_of c a) .& DIRTY) then _ else c).
  assert (exists tags1, store_of c1 = Full tags1 /\ shape c1 = shape c /\ forall x, is_Some (map_get tags1 x) <-> is_Some (map_get tags x)) as (tags1 & E1 & Es1 & H1).
  { unfold c1. destruct (clean && _); [|by exists tags]. destruct (set_slot_full (count_writeback c) tags (line_of c a) (get_slot c (line_of c a) .& u64 (Z.lnot DIRTY)) E) as (t1 & Ht1 & Hs1 & Hx1); [by exists v|].
    by exists t1. }
  destruct inval; [|by exists tags1]. destruct (set_slot_full c1 tags1 (line_of c a) (get_slot c1 (line_of c a) .& u64 (Z.lnot VALID)) E1) as (tags2 & E2 & Es2 & H2).
  { apply H1. by exists v. }
  exists tags2. split; [done|]. split; [congruence|]. intros x. by rewrite H2.
Qed.

Lemma clean_loop_full clean inval fuel : forall c tags cur e, store_of c = Full tags ->
  let c' := clean_loop fuel c cur e clean inval in
  exists tags', store_of c' = Full tags' /\ shape c' = shape c /\ forall x, is_Some (map_get tags' x) <-> is_Some (map_get tags x).
Proof.
  induction fuel as [|fuel IH]; intros c tags cur e E; cbn [clean_loop]; [by exists tags|]. destruct (cur <? e); [|by exists tags].
  destruct (clean_line_full c tags cur clean inval E) as (tags1 & E1 & Es1 & H1).
  destruct (IH (clean_line c cur clean inval) tags1 (u64 (cur + linesz c)) e E1) as (tags2 & E2 & Es2 & H2).
  exists tags2. split; [done|]. split; [congruence|]. intros x. by rewrite H2.
Qed.

(** ** Construction *)

Lemma single_bit x : 0 < x -> x .& (x - 1) = 0 -> x = 2 ^ Z.log2 x.
Proof.
  intros Hx Hz. destruct (Z.log2_spec x Hx) as [Hlo Hhi]. pose proof (Z.log2_nonneg x). set (k := Z.log2 x) in *.
  destruct (Z.eq_dec x (2 ^ k)) as [|Hne]; [done|]. exfalso.
  assert (Z.testbit (x .& (x - 1)) k = true) as Hb; [|by rewrite Hz, Z.bits_0 in Hb].
  rewrite Z.land_spec. apply andb_true_intro. pose proof (pow2_pos k ltac:(lia)).
  split; [apply (Z.bit_log2 x Hx)|]. assert (Z.log2 (x - 1) = k) as <- by (apply Z.log2_unique; lia). apply Z.bit_log2. lia.
Qed.

Lemma idx_shift_loop_pow fuel : forall k s, 0 <= k <= Z.of_nat fuel -> idx_shift_loop fuel (2 ^ k) s = s + k.
Proof.
  induction fuel as [|fuel IH]; intros k s Hk; simpl.
  - assert (k = 0) as -> by lia. lia.
  - destruct (Z.eq_dec k 0) as [->|]; [simpl; lia|]. pose proof (pow2_lt 0 k ltac:(lia)) as Hp. change (2 ^ 0) with 1 in Hp. destruct (Z.ltb_spec 1 (2 ^ k)); [|lia].
    rewrite shiftr_div, Z.pow_1_r, (pow2_pred k), Z.mul_comm, Z.div_mul, IH by lia. lia.
Qed.

(** A new cache, with its numbers: positive, and small enough to be allocated. *)
Lemma init_wf full sets ways linesz c : 0 <= sets < 2 ^ 31 -> 0 < ways < 2 ^ 31 -> 0 <= linesz < 2 ^ 31 -> (full = true -> sets = 1) ->
  init full sets ways linesz = Some c -> cache_wf c /\ (forall x, line_state c x = None) /\ miss_handler c = None.
Proof.
  intros Hs Hw Hl Hf. unfold init. destruct ((sets =? 0) || nz (sets .& u64 (sets - 1))) eqn:E1; [done|].
  destruct ((linesz <? 8) || nz (linesz .& u64 (linesz - 1))) eqn:E2; [done|]. intros E. apply (inj Some) in E. subst c.
  apply orb_false_iff in E1 as [Ez1%Z.eqb_neq Eb1%nz_false]. apply orb_false_iff in E2 as [Ez2%Z.ltb_ge Eb2%nz_false].
  rewrite uwrap_small in Eb1, Eb2 by lia. apply single_bit in Eb1, Eb2; [|lia..].
  assert (3 <= Z.log2 linesz < 31) as Hlog by (clear -Hl Ez2; split; [apply Z.log2_le_pow2; [lia|exact Ez2]|apply Z.log2_lt_pow2; lia]).
  assert (idx_shift_loop 64 linesz 0 = Z.log2 linesz) as Ei by (rewrite Eb2 at 1; rewrite idx_shift_loop_pow; lia).
  rewrite Ei. clear Ei. split; [split|split; [|done]].
  - split; simpl; [|split; [done|lia]|lia|lia]. exists (Z.log2 sets). split; [apply Z.log2_nonneg|done].
  - unfold store_wf. simpl. destruct full; simpl; [repeat split; [by apply Hf|constructor|lia|constructor]|].
    rewrite length_replicate, uwrap_small by nia. split; [done|].
    assert (forall i t, replicate (Z.to_nat (sets * ways)) 0 !! i = Some t -> t = 0) as H0 by (intros i t [-> _]%lookup_replicate; done).
    split; [apply Forall_lookup; by intros i t ->%H0|]. split; [by intros i j t u ->%H0|by intros i t ->%H0].
  - intros x. unfold line_state. simpl. destruct full; [done|]. apply find_line_none. by intros i t [-> _]%lookup_replicate.
Qed.

Lemma construct_wf sets ways linesz c : 0 <= sets < 2 ^ 31 -> 0 < ways < 2 ^ 31 -> 0 <= linesz < 2 ^ 31 -> construct sets ways linesz = Some c ->
  cache_wf c /\ (forall x, line_state c x = None) /\ miss_handler c = None.
Proof. intros Hs Hw Hl. unfold construct, fa_cache_new, cache_new. case_match; by apply init_wf. Qed.

(** ** Hierarchies of new caches *)

Lemma hierarchy_nil : hierarchy [].
Proof. split; [constructor|]. by intros [|k] m. Qed.

Lemma wf_set_miss_handler c m : cache_wf c -> cache_wf (set_miss_handler c m).
Proof. intros [[H1 H2 H3 H4] Hs]. split; [by split|exact Hs]. Qed.

Lemma hierarchy_cons c cs m : cache_wf c -> (miss_handler c = None \/ miss_handler c = Some m /\ (0 < m <= length cs)%nat) ->
  Forall cache_wf cs -> (forall k n, handlers cs !! k = Some (Some n) -> (S k < n <= length cs)%nat) -> hierarchy (c :: cs).
Proof.
  intros Hc Hm Hcs Ho. split; [by constructor|]. intros [|k] n; simpl.
  - intros [= Hn]. destruct Hm as [E|[E Hr]]; [congruence|]. assert (n = m) as -> by congruence. lia.
  - intros Hk. apply Ho in Hk. lia.
Qed.

(** Two caches, the second the miss handler of the first. *)
Lemma hierarchy_two a b : cache_wf a -> cache_wf b -> miss_handler b = None -> hierarchy [set_miss_handler a 1; b].
Proof.
  intros Ha Hb Hn. apply (hierarchy_cons _ [b] 1); [by apply wf_set_miss_handler|right; split; [done|simpl; lia]|by constructor|].
  intros [|k] n; simpl; [by rewrite Hn|done].
Qed.

(** A first level with two sets of two ways, before a second, fully associative. *)
Definition demo : list cache_sim_t :=
  match construct 2 2 8, construct 1 8 64 with Some a, Some b => [set_miss_handler a 1; b] | _, _ => [] end.

Lemma demo_hierarchy : hierarchy demo.
Proof.
  unfold demo. destruct (construct 2 2 8) as [a|] eqn:Ea; [|apply hierarchy_nil]. destruct (construct 1 8 64) as [b|] eqn:Eb; [|apply hierarchy_nil].
  apply construct_wf in Ea as (Ha & _), Eb as (Hb & _ & Hn); [|lia..]. by apply hierarchy_two.
Qed.

(** ** Accesses *)

(** C19: An access to a cache of a hierarchy ends; its cache answers as the
    specification says - a hit, or a miss that puts out at most one line of the same
    set and asks for a write back of a dirty one and for the new line - and the miss
    handler then serves these requests in this order; caches before it do not change. *)
Theorem access_refines cs k c addr bytes store : hierarchy cs -> cs !! k = Some c -> 0 <= addr < 2 ^ 64 ->
  exists evicted c' reqs cs1,
    access_post c addr bytes store evicted c' reqs /\
    serve (pred (length cs)) cs (miss_handler c) reqs = Some cs1 /\ access (length cs) cs k addr bytes store = Some (<[k:=c']> cs1) /\
    hierarchy (<[k:=c']> cs1) /\ forall i, (i < k)%nat -> (<[k:=c']> cs1) !! i = cs !! i.
Proof.
  intros Hh Hc Ha. pose proof (lookup_lt_Some _ _ _ Hc) as Hk. destruct (length cs) as [|n] eqn:En; [lia|]. cbn [pred].
  destruct (access_step n (access_total n) cs k c addr bytes store Hh Hc ltac:(lia) Ha) as (ev & c' & reqs & cs1 & Hp & Es & Hh1 & Eh & El & E).
  exists ev, c', reqs, cs1. do 3 (split; [done|]). specialize (El k (le_n k)) as Hck. rewrite Hc in Hck.
  split; [|intros i Hi; rewrite list_lookup_insert_ne by lia; apply El; lia].
  apply (hierarchy_insert cs1 k c); [done|done|apply Hp|]. by apply shape_handler, (post_shape _ _ _ _ _ _ _ Hp).
Qed.

Lemma access_refines_witness : exists evicted c' reqs cs1,
  access_post (nth 0 demo (Cache (Full []) 0 0 0 0 0 None 0 0 0 0 0 0 0)) 40 4 true evicted c' reqs /\ access 2 demo 0%nat 40 4 true = Some (<[0%nat:=c']> cs1).
Proof.
  destruct (access_refines demo 0%nat _ 40 4 true demo_hierarchy eq_refl ltac:(lia)) as (ev & c' & reqs & cs1 & Hp & _ & E & _).
  by exists ev, c', reqs, cs1.
Defined.

Lemma run_step cs k addr bytes store trace : run cs ((k, addr, bytes, store) :: trace) = (cs1 ← access (length cs) cs k addr bytes store; run cs1 trace).
Proof.
  unfold run. simpl. destruct (access _ _ _ _ _ _) as [cs1|]; [done|]. simpl. induction trace as [|[[[k' a] b] s] trace IH]; [done|]. simpl. exact IH.
Qed.

(** C28: Whatever the accesses of a trace, every cache is read once for each miss of
    its clients and written once for each of their write backs: what else it counts,
    modulo 2^64, are the accesses the trace itself makes to it. *)
Theorem requests_conserved cs trace : hierarchy cs -> valid_trace (length cs) trace ->
  exists cs', run cs trace = Some cs' /\ hierarchy cs' /\
    forall j st, u64 (external cs' j st) = u64 (external cs j st + count_trace trace j st).
Proof.
  intros Hh Hv. remember (length cs) as n eqn:En. revert cs Hh En. induction Hv as [|[[[k addr] bytes] store] trace [Hk Ha] Hv IH]; intros cs Hh ->.
  - exists cs. do 2 (split; [done|]). intros j st. unfold count_trace. simpl. by rewrite Z.add_0_r.
  - destruct (access_total (length cs) cs k addr bytes store Hh Hk ltac:(lia) Ha) as (cs1 & E & Hh1 & Eh).
    assert (length cs = length cs1) as El by (rewrite <- (length_handlers cs1), Eh; symmetry; apply length_handlers).
    destruct (IH cs1 Hh1 El) as (cs2 & E2 & Hh2 & Hext). exists cs2. rewrite run_step, E. split; [done|]. split; [done|]. intros j st. rewrite Hext.
    destruct (access_conserving (length cs) cs k addr bytes store cs1 j st Hh Hk ltac:(lia) Ha E) as [q ->].
    unfold count_trace. rewrite filter_cons. unfold uwrap.
    rewrite <- (Z.mod_add (external cs j st + _) q) by lia. f_equal. case_decide as Hd.
    + destruct Hd as [-> ->]. rewrite bool_decide_true, eqb_reflx by done. cbn [andb b2z length]. lia.
    + assert (bool_decide (j = k) && eqb st store = false) as ->; [|simpl; lia].
      apply andb_false_iff. destruct (decide (j = k)) as [->|]; [right; apply eqb_false_iff; intros ->; by apply Hd|left; by apply bool_decide_false].
Qed.

Lemma requests_conserved_witness :
  exists cs', run demo [(0%nat, 0, 8, true); (0%nat, 64, 8, false); (1%nat, 0, 4, false); (0%nat, 128, 8, true); (0%nat, 256, 8, true)] = Some cs' /\
    u64 (external cs' 1 false) = 1 /\ u64 (external cs' 0 true) = 3.
Proof.
  destruct (requests_conserved demo [(0%nat, 0, 8, true); (0%nat, 64, 8, false); (1%nat, 0, 4, false); (0%nat, 128, 8, true); (0%nat, 256, 8, true)]
    demo_hierarchy ltac:(repeat constructor; simpl; lia)) as (cs' & E & _ & H).
  exists cs'. split; [exact E|]. split; rewrite H; by vm_compute.
Defined.

(** ** Cleaning and invalidating *)

(** Along the chain of miss handlers, caches that keep their tags in an array
    lose the invalidated lines of the range, keep the others, turn clean lines the
    range asks to clean and count a write back for each of them that was dirty;
    the caches outside the chain do not change. *)
Theorem clean_invalidate_lines cs k addr bytes clean inval : hierarchy cs -> Forall set_assoc cs -> (k < length cs)%nat ->
  0 <= addr -> 0 <= bytes -> Forall (fun c => addr + bytes + linesz c - 1 < 2 ^ 64) cs ->
  exists cs', clean_invalidate (length cs) cs k addr bytes clean inval = Some cs' /\ length cs' = length cs /\
    forall i c, cs !! i = Some c -> exists c', cs' !! i = Some c' /\
      if bool_decide (i ∈ chain (length cs) (handlers cs) k) then flushed_post c (first_line c addr) (last_line c addr bytes) clean inval c' else c' = c.
Proof. intros Hh Hs Hk Ha Hb Hsz. apply clean_invalidate_spec; auto. lia. Qed.

(** A first level of two sets and two ways before a second of four sets. *)
Definition demo_ways : list cache_sim_t :=
  match construct 2 2 8, construct 4 2 16 with Some a, Some b => [set_miss_handler a 1; b] | _, _ => [] end.

Lemma demo_ways_hierarchy : hierarchy demo_ways.
Proof.
  unfold demo_ways. destruct (construct 2 2 8) as [a|] eqn:Ea; [|apply hierarchy_nil]. destruct (construct 4 2 16) as [b|] eqn:Eb; [|apply hierarchy_nil].
  apply construct_wf in Ea as (Ha & _), Eb as (Hb & _ & Hn); [|lia..]. by apply hierarchy_two.
Qed.

Lemma clean_invalidate_lines_witness : exists cs1 cs2, access 2 demo_ways 0%nat 24 4 true = Some cs1 /\
  clean_invalidate 2 cs1 0%nat 20 8 true true = Some cs2 /\ length cs2 = 2%nat.
Proof.
  assert (exists cs1, access 2 demo_ways 0%nat 24 4 true = Some cs1 /\ hierarchy cs1) as (cs1 & E1 & Hh1).
  { destruct (access_total 2 demo_ways 0%nat 24 4 true demo_ways_hierarchy ltac:(simpl; lia) ltac:(simpl; lia) ltac:(lia)) as (cs1 & E & Hh & _). by exists cs1. }
  exists cs1. vm_compute in E1. injection E1 as E1. subst cs1.
  match type of Hh1 with hierarchy ?l => destruct (clean_invalidate_lines l 0%nat 20 8 true true Hh1) as (cs2 & E2 & El & _) end.
  - by repeat constructor; eexists.
  - simpl; lia.
  - lia.
  - lia.
  - by repeat constructor.
  - exists cs2. split; [by vm_compute|]. by split.
Defined.

(** A fully associative cache hits on every line it held before it was invalidated:
    its lookup does not test the valid bit. *)
Theorem full_invalidate_hits fuel c tags cur end_addr clean inval addr : store_of c = Full tags ->
  is_Some (check_tag (clean_loop fuel c cur end_addr clean inval) addr) <-> is_Some (check_tag c addr).
Proof.
  intros E. destruct (clean_loop_full clean inval fuel c tags cur end_addr E) as (tags' & E' & Es & H). cbn zeta in Es.
  assert (line_of (clean_loop fuel c cur end_addr clean inval) addr = line_of c addr) as Hline by (unfold line_of; injection Es; congruence).
  rewrite (check_tag_full _ _ _ E), (check_tag_full _ _ _ E'), Hline. specialize (H (line_of c addr)).
  assert (forall (o : option Z) (r : Z), is_Some (_ ← o; Some r) <-> is_Some o) as Hb by (intros [z|] r; split; intros [x Hx]; first [done|by eexists]).
  by rewrite !Hb.
Qed.
