(* ===== verification/Plic.v ===== *)
(** * Spike: the platform-level interrupt controller

    Model of [src/riscv-isa-sim/riscv/plic.cc] and of [plic_t] and
    [plic_context_t] in [devices.h]: priorities, pending and claimed interrupts per
    context, the registers, and the interrupt lines it drives in the processors.

    The processors are the list of their [mip] registers; a context names one by its
    place.  Arrays are lists: an access out of their bounds is undefined ([None]). *)

From stdpp Require Import base option list.
From S2P Require Import Prelude.

Definition PLIC_MAX_DEVICES : Z := 1024.
Definition PLIC_PRIO_BITS : Z := 4.

Definition PENDING_BASE : Z := 0x1000.
Definition ENABLE_BASE : Z := 0x2000.
Definition ENABLE_PER_HART : Z := 0x80.
Definition CONTEXT_BASE : Z := 0x200000.
Definition CONTEXT_PER_HART : Z := 0x1000.
Definition CONTEXT_THRESHOLD : Z := 0.
Definition CONTEXT_CLAIM : Z := 4.
Definition REG_SIZE : Z := 0x1000000.

Definition MIP_MEIP : Z := 1 .<< 11.
Definition MIP_SEIP : Z := 1 .<< 9.

(** ** State *)

Record plic_context_t : Type := Context_t {
  proc : nat;
  mmode : bool;
  priority_threshold : Z;
  enable : list Z;
  pending : list Z;
  pending_priority : list Z;
  claimed : list Z
}.

Record plic_t : Type := Plic_t {
  contexts : list plic_context_t;
  num_ids : Z;
  num_ids_word : Z;
  max_prio : Z;
  priority : list Z;
  level : list Z
}.

Definition set_contexts (p : plic_t) (cs : list plic_context_t) : plic_t :=
  Plic_t cs (num_ids p) (num_ids_word p) (max_prio p) (priority p) (level p).
Definition set_priority (p : plic_t) (pr : list Z) : plic_t :=
  Plic_t (contexts p) (num_ids p) (num_ids_word p) (max_prio p) pr (level p).
Definition set_level (p : plic_t) (l : list Z) : plic_t :=
  Plic_t (contexts p) (num_ids p) (num_ids_word p) (max_prio p) (priority p) l.

Definition set_threshold (c : plic_context_t) (v : Z) : plic_context_t :=
  Context_t (proc c) (mmode c) v (enable c) (pending c) (pending_priority c) (claimed c).
Definition set_enable (c : plic_context_t) (l : list Z) : plic_context_t :=
  Context_t (proc c) (mmode c) (priority_threshold c) l (pending c) (pending_priority c) (claimed c).
Definition set_pending (c : plic_context_t) (l prios clm : list Z) : plic_context_t :=
  Context_t (proc c) (mmode c) (priority_threshold c) (enable c) l prios clm.

(** Reading and writing an array. *)
Definition rd (l : list Z) (i : Z) : option Z := if i <? 0 then None else l !! Z.to_nat i.
Definition wr (l : list Z) (i v : Z) : option (list Z) :=
  if (i <? 0) || (Z.of_nat (length l) <=? i) then None else Some (<[Z.to_nat i := v]> l).

(** A new context, all zero. *)
Definition context_new (proc : nat) (mmode : bool) : plic_context_t :=
  Context_t proc mmode 0 (replicate 32 0) (replicate 32 0) (replicate 1024 0) (replicate 32 0).

(** The constructor; [harts] tells which processors have the supervisor extension. *)
Definition plic_new (harts : list bool) (ndev : Z) : plic_t :=
  Plic_t (concat (imap (fun i s => context_new i true :: if (s : bool) then [context_new i false] else []) harts))
    (u32 (ndev + 1)) (u32 (u32 (ndev + 1) + 31) / 32) ((1 .<< PLIC_PRIO_BITS) - 1) (replicate 1024 0) (replicate 32 0).

(** ** The best pending interrupt *)

Fixpoint best_bits (fuel : nat) (p : plic_t) (c : plic_context_t) (i j : Z) (best : Z * Z) : option (Z * Z) :=
  match fuel with
  | O => Some best
  | S fuel =>
      let id := u32 (i * 32 + j) in
      pend ← rd (pending c) i; clm ← rd (claimed c) i;
      best ← (if (num_ids p <=? id) || negb (nz (pend .& (1 .<< j))) || nz (clm .& (1 .<< j)) then Some best
              else pr ← rd (pending_priority c) id;
                   Some (if (best.1 =? 0) || (best.2 <? pr) then (id, pr) else best));
      best_bits fuel p c i (j + 1) best
  end.

Fixpoint best_words (fuel : nat) (p : plic_t) (c : plic_context_t) (i : Z) (best : Z * Z) : option (Z * Z) :=
  match fuel with
  | O => Some best
  | S fuel =>
      w ← rd (pending c) i;
      best ← (if w =? 0 then Some best else best_bits 32 p c i 0 best);
      best_words fuel p c (i + 1) best
  end.

Definition context_best_pending (p : plic_t) (c : plic_context_t) : option Z :=
  best ← best_words (Z.to_nat (num_ids_word p)) p c 0 (0, 0); Some best.1.

(** ** The lines to the processors *)

Definition backdoor_write_with_mask (mip mask val : Z) : Z := (mip .& u64 (Z.lnot mask)) .| (val .& mask).

Definition context_update (p : plic_t) (mips : list Z) (c : plic_context_t) : option (list Z) :=
  best_id ← context_best_pending p c;
  let mask := if mmode c then MIP_MEIP else MIP_SEIP in
  mip ← mips !! proc c;
  Some (<[proc c := backdoor_write_with_mask mip mask (if nz best_id then mask else 0)]> mips).

(** The operations on the context [k]. *)
Definition put_context (p : plic_t) (k : nat) (c : plic_context_t) : plic_t := set_contexts p (<[k := c]> (contexts p)).

Definition context_claim (p : plic_t) (mips : list Z) (k : nat) : option (Z * plic_t * list Z) :=
  c ← contexts p !! k;
  best_id ← context_best_pending p c;
  let best_id_word := best_id / 32 in
  let best_id_mask := 1 .<< (best_id mod 32) in
  c ← (if nz best_id then
         w ← rd (claimed c) best_id_word;
         clm ← wr (claimed c) best_id_word (w .| best_id_mask);
         Some (set_pending c (pending c) (pending_priority c) clm)
       else Some c);
  mips ← context_update p mips c;
  Some (best_id, put_context p k c, mips).

(** ** Registers *)

Definition priority_read (p : plic_t) (offset : Z) : option Z :=
  let id := u32 (offset .>> 2) in
  if (0 <? id) && (id <? num_ids p) then rd (priority p) id else Some 0.

Definition priority_write (p : plic_t) (offset val : Z) : option plic_t :=
  let id := u32 (offset .>> 2) in
  if (0 <? id) && (id <? num_ids p) then
    pr ← wr (priority p) id (val .& ((1 .<< PLIC_PRIO_BITS) - 1)); Some (set_priority p pr)
  else Some p.

Fixpoint pending_or (cs : list plic_context_t) (id_word val : Z) : option Z :=
  match cs with
  | [] => Some val
  | c :: cs => w ← rd (pending c) id_word; pending_or cs id_word (val .| w)
  end.

Definition pending_read (p : plic_t) (offset : Z) : option Z :=
  let id_word := u32 (offset .>> 2) in
  if id_word <? num_ids_word p then pending_or (contexts p) id_word 0 else Some 0.

Definition context_enable_read (p : plic_t) (c : plic_context_t) (offset : Z) : option Z :=
  let id_word := u32 (offset .>> 2) in
  if id_word <? num_ids_word p then rd (enable c) id_word else Some 0.

Fixpoint enable_loop (fuel : nat) (p : plic_t) (c : plic_context_t) (id_word new_val xor_val i : Z) : option plic_context_t :=
  match fuel with
  | O => Some c
  | S fuel =>
      let id := u32 (id_word * 32 + i) in
      let id_mask := 1 .<< i in
      id_prio ← rd (priority p) id;
      lvl ← rd (level p) id_word;
      c ← (if negb (nz (xor_val .& id_mask)) then Some c
           else if nz (new_val .& id_mask) && nz (lvl .& id_mask) then
             w ← rd (pending c) id_word; pend ← wr (pending c) id_word (w .| id_mask);
             prios ← wr (pending_priority c) id id_prio;
             Some (set_pending c pend prios (claimed c))
           else if negb (nz (new_val .& id_mask)) then
             w ← rd (pending c) id_word; pend ← wr (pending c) id_word (w .& u32 (Z.lnot id_mask));
             prios ← wr (pending_priority c) id 0;
             w ← rd (claimed c) id_word; clm ← wr (claimed c) id_word (w .& u32 (Z.lnot id_mask));
             Some (set_pending c pend prios clm)
           else Some c);
      enable_loop fuel p c id_word new_val xor_val (i + 1)
  end.

Definition context_enable_write (p : plic_t) (mips : list Z) (k : nat) (offset val : Z) : option (plic_t * list Z) :=
  let id_word := u32 (offset .>> 2) in
  if num_ids_word p <=? id_word then Some (p, mips)
  else
    c ← contexts p !! k;
    old_val ← rd (enable c) id_word;
    let new_val := if id_word =? 0 then val .& u32 (Z.lnot 1) else val in
    let xor_val := old_val .^ new_val in
    en ← wr (enable c) id_word new_val;
    c ← enable_loop 32 p (set_enable c en) id_word new_val xor_val 0;
    mips ← context_update p mips c;
    Some (put_context p k c, mips).

Definition context_read (p : plic_t) (mips : list Z) (k : nat) (offset : Z) : option (Z * plic_t * list Z) :=
  c ← contexts p !! k;
  if offset =? CONTEXT_THRESHOLD then Some (priority_threshold c, p, mips)
  else if offset =? CONTEXT_CLAIM then context_claim p mips k
  else Some (0, p, mips).

Definition context_write (p : plic_t) (mips : list Z) (k : nat) (offset val : Z) : option (bool * plic_t * list Z) :=
  c ← contexts p !! k;
  if offset =? CONTEXT_THRESHOLD then
    let val := val .& ((1 .<< PLIC_PRIO_BITS) - 1) in
    if val <=? max_prio p then
      let c := set_threshold c val in
      mips ← context_update p mips c; Some (true, put_context p k c, mips)
    else Some (false, p, mips)
  else if offset =? CONTEXT_CLAIM then
    let id_word := val / 32 in
    let id_mask := 1 .<< (val mod 32) in
    if val <? num_ids p then
      en ← rd (enable c) id_word;
      if nz (en .& id_mask) then
        w ← rd (claimed c) id_word; clm ← wr (claimed c) id_word (w .& u32 (Z.lnot id_mask));
        let c := set_pending c (pending c) (pending_priority c) clm in
        mips ← context_update p mips c; Some (true, put_context p k c, mips)
      else Some (true, p, mips)
    else Some (true, p, mips)
  else Some (false, p, mips).

(** ** Levels of the sources *)

(** The loop stops at the first context that enables the source. *)
Fixpoint level_loop (fuel : nat) (p : plic_t) (mips : list Z) (k : nat) (id lvl id_prio : Z) : option (plic_t * list Z) :=
  match fuel with
  | O => Some (p, mips)
  | S fuel =>
      c ← contexts p !! k;
      let id_word := id / 32 in
      let id_mask := 1 .<< (id mod 32) in
      en ← rd (enable c) id_word;
      if nz (en .& id_mask) then
        w ← rd (pending c) id_word;
        c ← (if nz lvl then
               pend ← wr (pending c) id_word (w .| id_mask);
               prios ← wr (pending_priority c) id id_prio;
               Some (set_pending c pend prios (claimed c))
             else
               pend ← wr (pending c) id_word (w .& u32 (Z.lnot id_mask));
               prios ← wr (pending_priority c) id 0;
               w ← rd (claimed c) id_word; clm ← wr (claimed c) id_word (w .& u32 (Z.lnot id_mask));
               Some (set_pending c pend prios clm));
        mips ← context_update p mips c;
        Some (put_context p k c, mips)
      else level_loop fuel p mips (S k) id lvl id_prio
  end.

Definition set_interrupt_level (p : plic_t) (mips : list Z) (id lvl : Z) : option (plic_t * list Z) :=
  if (id <=? 0) || (num_ids p <=? id) then Some (p, mips)
  else
    id_prio ← rd (priority p) id;
    let id_word := id / 32 in
    let id_mask := 1 .<< (id mod 32) in
    w ← rd (level p) id_word;
    l ← wr (level p) id_word (if nz lvl then w .| id_mask else w .& u32 (Z.lnot id_mask));
    level_loop (length (contexts p)) (set_level p l) mips 0 id lvl id_prio.

(** ** Loads and stores *)

(** A register of [size] bytes, byte by byte. *)
Fixpoint read_little_endian_reg (len : nat) (size word addr : Z) : list Z :=
  match len with
  | O => []
  | S len => (word .>> (8 * (addr mod size))) mod 256 :: read_little_endian_reg len size word (u64 (addr + 1))
  end.

Fixpoint write_little_endian_reg (size word addr : Z) (bytes : list Z) : Z :=
  match bytes with
  | [] => word
  | b :: bytes =>
      let shift := 8 * (addr mod size) in
      write_little_endian_reg size ((word .& uwrap (8 * size) (Z.lnot (0xff .<< shift))) .| (b .<< shift)) (u64 (addr + 1)) bytes
  end.

(** A load of a word: its value, when the controller accepts. *)
Definition load_word (p : plic_t) (mips : list Z) (addr : Z) : option (option Z * plic_t * list Z) :=
  if addr <? PENDING_BASE then v ← priority_read p addr; Some (Some v, p, mips)
  else if addr <? ENABLE_BASE then v ← pending_read p (addr - PENDING_BASE); Some (Some v, p, mips)
  else if addr <? CONTEXT_BASE then
    let cntx := (addr - ENABLE_BASE) / ENABLE_PER_HART in
    let addr := addr - (cntx * ENABLE_PER_HART + ENABLE_BASE) in
    match contexts p !! Z.to_nat cntx with
    | Some c => v ← context_enable_read p c addr; Some (Some v, p, mips)
    | None => Some (None, p, mips)
    end
  else if addr <? REG_SIZE then
    let cntx := (addr - CONTEXT_BASE) / CONTEXT_PER_HART in
    let addr := addr - (cntx * CONTEXT_PER_HART + CONTEXT_BASE) in
    match contexts p !! Z.to_nat cntx with
    | Some _ => r ← context_read p mips (Z.to_nat cntx) addr; let '(v, p, mips) := r in Some (Some v, p, mips)
    | None => Some (None, p, mips)
    end
  else Some (None, p, mips).

Definition store_word (p : plic_t) (mips : list Z) (addr val : Z) : option (bool * plic_t * list Z) :=
  if addr <? ENABLE_BASE then p ← priority_write p addr val; Some (true, p, mips)
  else if addr <? CONTEXT_BASE then
    let cntx := (addr - ENABLE_BASE) / ENABLE_PER_HART in
    let addr := addr - (cntx * ENABLE_PER_HART + ENABLE_BASE) in
    match contexts p !! Z.to_nat cntx with
    | Some _ => r ← context_enable_write p mips (Z.to_nat cntx) addr val; Some (true, r.1, r.2)
    | None => Some (false, p, mips)
    end
  else if addr <? REG_SIZE then
    let cntx := (addr - CONTEXT_BASE) / CONTEXT_PER_HART in
    let addr := addr - (cntx * CONTEXT_PER_HART + CONTEXT_BASE) in
    match contexts p !! Z.to_nat cntx with
    | Some _ => context_write p mips (Z.to_nat cntx) addr val
    | None => Some (false, p, mips)
    end
  else Some (false, p, mips).

(** [plic_t::load] and [plic_t::store]: words, and double words as two words. *)
Definition plic_load (p : plic_t) (mips : list Z) (addr len : Z) : option (option (list Z) * plic_t * list Z) :=
  let word p mips addr :=
    r ← load_word p mips addr; let '(v, p, mips) := r in
    Some ((fun v => read_little_endian_reg 4 4 v addr) <$> v, p, mips) in
  if len =? 4 then word p mips addr
  else if len =? 8 then
    r ← word p mips addr;
    match r with
    | (Some b1, p, mips) =>
        r ← word p mips (u64 (addr + 4)); let '(b2, p, mips) := r in Some (app b1 <$> b2, p, mips)
    | (None, p, mips) => Some (None, p, mips)
    end
  else Some (None, p, mips).

Definition plic_store (p : plic_t) (mips : list Z) (addr : Z) (bytes : list Z) : option (bool * plic_t * list Z) :=
  let word p mips addr bytes := store_word p mips addr (write_little_endian_reg 4 0 addr bytes) in
  if (length bytes =? 4)%nat then word p mips addr bytes
  else if (length bytes =? 8)%nat then
    r ← word p mips addr (take 4 bytes);
    match r with
    | (true, p, mips) => word p mips (u64 (addr + 4)) (drop 4 bytes)
    | (false, p, mips) => Some (false, p, mips)
    end
  else Some (false, p, mips).
