(* ===== verification/PlicFacts.v ===== *)
(** * Spike: the interrupt controller, its specification and lemmas

    A context as a function from sources to their state, what each operation makes
    of a source, the interrupt a context should be offered, and the invariants.

    Bits of the arrays, the best pending interrupt, the lines, and what every
    operation does to the sources of a context. *)

From stdpp Require Import base option list.
From S2P Require Import Prelude.
From S2P Require Import Plic.

(** ** Sources *)

Record source : Type := Source { s_enabled : bool; s_pending : bool; s_prio : Z; s_claimed : bool }.

(** The bit of a source in an array of words. *)
Definition ibit (ws : list Z) (id : Z) : bool := Z.testbit (nth (Z.to_nat (id / 32)) ws 0) (id mod 32).

Definition view (c : plic_context_t) (id : Z) : source :=
  Source (ibit (enable c) id) (ibit (pending c) id) (nth (Z.to_nat id) (pending_priority c) 0) (ibit (claimed c) id).

Definition raised (prio : Z) (s : source) : source := Source (s_enabled s) true prio (s_claimed s).
Definition lowered (s : source) : source := Source (s_enabled s) false 0 false.
Definition claim (b : bool) (s : source) : source := Source (s_enabled s) (s_pending s) (s_prio s) b.

(** Enabling a source whose level is high raises it, disabling it lowers it; nothing
    else changes. *)
Definition switched (new lvl : bool) (prio : Z) (s : source) : source :=
  let s' := Source new (s_pending s) (s_prio s) (s_claimed s) in
  if eqb (s_enabled s) new then s' else if new then (if lvl then raised prio s' else s') else lowered s'.

(** ** The interrupt of a context *)

Definition eligible (p : plic_t) (c : plic_context_t) (id : Z) : Prop :=
  0 < id < num_ids p /\ s_pending (view c id) = true /\ s_claimed (view c id) = false.

(** The source of the highest priority, the first among equals; 0 when there is none. *)
Definition is_best (p : plic_t) (c : plic_context_t) (b : Z) : Prop :=
  (b = 0 /\ forall x, ~ eligible p c x) \/
  (eligible p c b /\ forall x, eligible p c x -> s_prio (view c x) < s_prio (view c b) \/ (s_prio (view c x) = s_prio (view c b) /\ b <= x)).

(** ** Invariants *)

Definition words (ws : list Z) : Prop := length ws = 32%nat /\ Forall (fun w => 0 <= w < 2 ^ 32) ws.

(** What is claimed is pending, what is pending is enabled and exists. *)
Definition source_ok (n id : Z) (s : source) : Prop :=
  (s_claimed s = true -> s_pending s = true) /\ (s_pending s = true -> s_enabled s = true /\ id < n) /\ (s_enabled s = true -> 0 < id) /\
  0 <= s_prio s <= 15 /\ (s_pending s = false -> s_prio s = 0).

Record arrays (c : plic_context_t) : Prop := {
  arr_enable : words (enable c);
  arr_pending : words (pending c);
  arr_claimed : words (claimed c);
  arr_prio : length (pending_priority c) = 1024%nat
}.

Record context_wf (n : Z) (c : plic_context_t) : Prop := {
  ctx_arrays : arrays c;
  ctx_sources : forall id, 0 <= id < 1024 -> source_ok n id (view c id)
}.

Record plic_wf (p : plic_t) : Prop := {
  wf_ids : 1 <= num_ids p <= 1024;
  wf_words : num_ids_word p = (num_ids p + 31) / 32;
  wf_prio : max_prio p = 15 /\ length (priority p) = 1024%nat /\ Forall (fun v => 0 <= v <= 15) (priority p);
  wf_level : words (level p) /\ forall id, 0 <= id < 1024 -> ibit (level p) id = true -> 0 < id < num_ids p;
  wf_contexts : Forall (context_wf (num_ids p)) (contexts p);
  wf_distinct : NoDup (map (fun c => (proc c, mmode c)) (contexts p))
}.

(** The bit of [mip] a context drives. *)
Definition line (c : plic_context_t) : Z := if mmode c then 11 else 9.
Definition mip_bit (mips : list Z) (k : nat) (i : Z) : bool := Z.testbit (nth k mips 0) i.

(** Every context drives its line exactly when it has an interrupt to offer. *)
Record driven (p : plic_t) (mips : list Z) : Prop := {
  drv_mips : Forall (fun m => 0 <= m < 2 ^ 64) mips;
  drv_procs : Forall (fun c => (proc c < length mips)%nat) (contexts p);
  drv_lines : forall c, c ∈ contexts p -> forall b, is_best p c b -> mip_bit mips (proc c) (line c) = nz b
}.

(** ** Operations, one after the other *)

Inductive plic_op : Type := Load (addr len : Z) | Store (addr : Z) (bytes : list Z) | Level (id lvl : Z).

Definition op_ok (o : plic_op) : Prop :=
  match o with
  | Load addr len => 0 <= addr < 2 ^ 64
  | Store addr bytes => 0 <= addr < 2 ^ 64 /\ Forall (fun b => 0 <= b < 256) bytes
  | Level id lvl => 0 <= id < 2 ^ 32
  end.

Definition plic_step (p : plic_t) (mips : list Z) (o : plic_op) : option (plic_t * list Z) :=
  match o with
  | Load addr len => r ← plic_load p mips addr len; let '(_, p, mips) := r in Some (p, mips)
  | Store addr bytes => r ← plic_store p mips addr bytes; let '(_, p, mips) := r in Some (p, mips)
  | Level id lvl => set_interrupt_level p mips id lvl
  end.

Definition plic_run (p : plic_t) (mips : list Z) (os : list plic_op) : option (plic_t * list Z) :=
  foldl (fun s o => s ← s; plic_step s.1 s.2 o) (Some (p, mips)) os.

(** ** Arrays *)

Lemma rd_nth l i : 0 <= i < Z.of_nat (length l) -> rd l i = Some (nth (Z.to_nat i) l 0).
Proof.
  intros Hi. unfold rd. destruct (Z.ltb_spec i 0); [lia|]. destruct (lookup_lt_is_Some_2 l (Z.to_nat i)) as [v Hv]; [lia|].
  rewrite Hv. f_equal. symmetry. by apply nth_lookup_Some.
Qed.

Lemma wr_insert l i v : 0 <= i < Z.of_nat (length l) -> wr l i v = Some (<[Z.to_nat i := v]> l).
Proof. intros Hi. unfold wr. destruct (Z.ltb_spec i 0), (Z.leb_spec (Z.of_nat (length l)) i); try lia. done. Qed.

Lemma nth_insert (l : list Z) i v k : (i < length l)%nat -> nth k (<[i := v]> l) 0 = if decide (k = i) then v else nth k l 0.
Proof.
  intros Hi. destruct (decide (k = i)) as [->|Hne].
  - apply nth_lookup_Some, list_lookup_insert_eq. done.
  - rewrite !nth_lookup, list_lookup_insert_ne by congruence. done.
Qed.

Lemma words_rd ws i : words ws -> 0 <= i < 32 -> rd ws i = Some (nth (Z.to_nat i) ws 0) /\ 0 <= nth (Z.to_nat i) ws 0 < 2 ^ 32.
Proof.
  intros [Hl Hf] Hi. split; [apply rd_nth; lia|]. rewrite Forall_lookup in Hf. destruct (lookup_lt_is_Some_2 ws (Z.to_nat i)) as [v Hv]; [lia|].
  rewrite (nth_lookup_Some _ _ _ _ Hv). by apply (Hf (Z.to_nat i)).
Qed.

Lemma words_wr ws i v : words ws -> 0 <= i < 32 -> 0 <= v < 2 ^ 32 ->
  exists ws', wr ws i v = Some ws' /\ words ws' /\ forall x, 0 <= x -> ibit ws' x = if x / 32 =? i then Z.testbit v (x mod 32) else ibit ws x.
Proof.
  intros [Hl Hf] Hi Hv. eexists. split; [apply wr_insert; lia|]. split; [split; [by rewrite length_insert|by apply Forall_insert]|].
  intros x Hx. unfold ibit. rewrite nth_insert by lia. pose proof (Z.div_pos x 32 Hx ltac:(lia)).
  destruct (decide _) as [E|E], (Z.eqb_spec (x / 32) i); try done; [apply Z2Nat.inj in E; lia|congruence].
Qed.

Lemma one_bit j : 0 <= j -> 1 .<< j = 2 ^ j.
Proof. intros Hj. rewrite shiftl_mul; lia. Qed.

Lemma u32_lor w j : 0 <= w < 2 ^ 32 -> 0 <= j < 32 -> 0 <= w .| 2 ^ j < 2 ^ 32.
Proof.
  intros Hw Hj. split; [apply Z.lor_nonneg; lia|]. destruct (Z.eq_dec (w .| 2 ^ j) 0) as [->|Hn]; [lia|].
  assert (0 <= w .| 2 ^ j) by (apply Z.lor_nonneg; lia). apply Z.log2_lt_pow2; [lia|]. rewrite Z.log2_lor by lia. rewrite Z.log2_pow2 by lia.
  destruct (Z.eq_dec w 0) as [->|]; [change (Z.log2 0) with 0; lia|]. assert (Z.log2 w < 32) by (apply Z.log2_lt_pow2; lia). lia.
Qed.

Lemma testbit_set w j i : 0 <= j -> 0 <= i -> Z.testbit (w .| 2 ^ j) i = Z.testbit w i || (i =? j).
Proof. intros Hj Hi. by rewrite Z.lor_spec, Z.pow2_bits_eqb, (Z.eqb_sym i) by done. Qed.

Lemma testbit_clear w j i : 0 <= j < 32 -> 0 <= i < 32 -> Z.testbit (w .& u32 (Z.lnot (2 ^ j))) i = Z.testbit w i && negb (i =? j).
Proof.
  intros Hj Hi. rewrite Z.land_spec. unfold uwrap. rewrite Z.mod_pow2_bits_low, Z.lnot_spec, Z.pow2_bits_eqb by lia. by rewrite (Z.eqb_sym i).
Qed.

Lemma split32 id : 0 <= id < 1024 -> 0 <= id / 32 < 32 /\ 0 <= id mod 32 < 32.
Proof. intros Hid. split; [split; [apply Z.div_pos; lia|apply Z.div_lt_upper_bound; lia]|apply Z.mod_pos_bound; lia]. Qed.

Lemma same_id x id : (x / 32 =? id / 32) && (x mod 32 =? id mod 32) = (x =? id).
Proof.
  destruct (Z.eqb_spec x id) as [->|]; [by rewrite !Z.eqb_refl|]. apply andb_false_iff.
  destruct (Z.eqb_spec (x / 32) (id / 32)) as [E|]; [right|by left]. apply Z.eqb_neq. intros E2.
  pose proof (Z.div_mod x 32 ltac:(lia)). pose proof (Z.div_mod id 32 ltac:(lia)). lia.
Qed.

(** Setting and clearing the bit of a source. *)
Lemma set_ibit ws id : words ws -> 0 <= id < 1024 ->
  exists w ws', rd ws (id / 32) = Some w /\ wr ws (id / 32) (w .| (1 .<< (id mod 32))) = Some ws' /\ words ws' /\
    forall x, 0 <= x -> ibit ws' x = ibit ws x || (x =? id).
Proof.
  intros Hw Hid. destruct (split32 id Hid) as [H1 H2]. destruct (words_rd ws (id / 32) Hw H1) as [Hr Hr']. rewrite one_bit by lia.
  destruct (words_wr ws (id / 32) (nth (Z.to_nat (id / 32)) ws 0 .| 2 ^ (id mod 32)) Hw H1) as (ws' & E & Hw' & Hb); [by apply u32_lor|].
  exists (nth (Z.to_nat (id / 32)) ws 0), ws'. do 3 (split; [done|]). intros x Hx. rewrite Hb by done. pose proof (Z.mod_pos_bound x 32 ltac:(lia)).
  rewrite <- (same_id x id). destruct (Z.eqb_spec (x / 32) (id / 32)) as [Ex|]; [|by rewrite orb_false_r].
  rewrite testbit_set by lia. unfold ibit. by rewrite Ex.
Qed.

Lemma clear_ibit ws id : words ws -> 0 <= id < 1024 ->
  exists w ws', rd ws (id / 32) = Some w /\ wr ws (id / 32) (w .& u32 (Z.lnot (1 .<< (id mod 32)))) = Some ws' /\ words ws' /\
    forall x, 0 <= x -> ibit ws' x = ibit ws x && negb (x =? id).
Proof.
  intros Hw Hid. destruct (split32 id Hid) as [H1 H2]. destruct (words_rd ws (id / 32) Hw H1) as [Hr Hr']. rewrite one_bit by lia.
  destruct (words_wr ws (id / 32) (nth (Z.to_nat (id / 32)) ws 0 .& u32 (Z.lnot (2 ^ (id mod 32)))) Hw H1) as (ws' & E & Hw' & Hb).
  { pose proof (land_le_r (nth (Z.to_nat (id / 32)) ws 0) (u32 (Z.lnot (2 ^ (id mod 32)))) ltac:(apply uwrap_range; lia)).
    pose proof (uwrap_range 32 (Z.lnot (2 ^ (id mod 32))) ltac:(lia)). lia. }
  exists (nth (Z.to_nat (id / 32)) ws 0), ws'. do 3 (split; [done|]). intros x Hx. rewrite Hb by done. pose proof (Z.mod_pos_bound x 32 ltac:(lia)).
  rewrite <- (same_id x id). destruct (Z.eqb_spec (x / 32) (id / 32)) as [Ex|]; [|by rewrite andb_true_r].
  rewrite testbit_clear by lia. unfold ibit. by rewrite Ex.
Qed.

Lemma nz_ibit ws id w : 0 <= id -> rd ws (id / 32) = Some w -> nz (w .& (1 .<< (id mod 32))) = ibit ws id.
Proof.
  intros Hid Hr. pose proof (Z.mod_pos_bound id 32 ltac:(lia)). rewrite one_bit, nz_bit by lia. unfold ibit. f_equal.
  unfold rd in Hr. destruct (_ <? 0); [done|]. symmetry. by apply nth_lookup_Some.
Qed.

(** ** The best pending interrupt *)

Section Best.
Variables (p : plic_t) (c : plic_context_t).
Hypothesis Ha : arrays c.

(** The best of the sources below [n]. *)
Definition best_upto (n : Z) (best : Z * Z) : Prop :=
  (best.1 = 0 /\ forall x, eligible p c x -> n <= x) \/
  (eligible p c best.1 /\ best.1 < n /\ best.2 = s_prio (view c best.1) /\
   forall x, eligible p c x -> x < n -> s_prio (view c x) < best.2 \/ (s_prio (view c x) = best.2 /\ best.1 <= x)).

Lemma best_skip n best : best_upto n best -> ~ eligible p c n -> best_upto (n + 1) best.
Proof.
  intros [[H1 H2]|(H1 & H2 & H3 & H4)] Hne.
  - left. split; [done|]. intros x Hx. specialize (H2 x Hx). assert (x <> n) by congruence. lia.
  - right. do 2 (split; [done || lia|]). split; [done|]. intros x Hx Hl. apply H4; [done|]. assert (x <> n) by congruence. lia.
Qed.

Lemma best_take n best : best_upto n best -> eligible p c n ->
  best_upto (n + 1) (if (best.1 =? 0) || (best.2 <? s_prio (view c n)) then (n, s_prio (view c n)) else best).
Proof.
  intros Hb He. destruct Hb as [[H1 H2]|(H1 & H2 & H3 & H4)].
  - rewrite H1. right. change (0 =? 0) with true. cbn [orb fst snd]. split; [exact He|]. split; [lia|]. split; [reflexivity|]. intros x Hx Hl. specialize (H2 x Hx). assert (x = n) as -> by lia. right. lia.
  - assert (0 < best.1) by apply H1. destruct (Z.eqb_spec best.1 0); [lia|]. cbn [orb]. destruct (Z.ltb_spec best.2 (s_prio (view c n))).
    + right. cbn [fst snd]. do 3 (split; [done || lia|]). intros x Hx Hl. destruct (Z.eq_dec x n) as [->|]; [lia|]. assert (x < n) as Hxn by lia. destruct (H4 x Hx Hxn); lia.
    + right. split; [done|]. split; [lia|]. split; [done|]. intros x Hx Hl. destruct (Z.eq_dec x n) as [->|]; [|apply H4; [done|lia]].
      assert (s_prio (view c n) < best.2 \/ s_prio (view c n) = best.2) as [|] by lia; [by left|right; lia].
Qed.

Lemma best_bits_spec fuel : forall i j best, 0 <= i < 32 -> 0 <= j -> j + Z.of_nat fuel = 32 -> best_upto (i * 32 + j) best ->
  exists best', best_bits fuel p c i j best = Some best' /\ best_upto (i * 32 + 32) best'.
Proof.
  induction fuel as [|fuel IH]; intros i j best Hi Hj Hf Hb.
  - exists best. split; [done|]. by replace 32 with j at 2 by lia.
  - destruct Ha as [Hw1 Hw2 Hw3 Hw4]. set (id := i * 32 + j) in *. assert (0 <= id < 1024) as Hid by (unfold id; lia).
    assert (id / 32 = i) as Ei by (unfold id; rewrite Z.div_add_l, Z.div_small; lia). assert (id mod 32 = j) as Ej by (unfold id; rewrite Z.add_comm, Z_mod_plus_full; apply Z.mod_small; lia).
    cbn [best_bits]. fold id. rewrite (uwrap_small 32 id) by lia. destruct (words_rd _ i Hw2 Hi) as [Hr1 _], (words_rd _ i Hw3 Hi) as [Hr2 _].
    rewrite Hr1, Hr2. cbn [mbind option_bind]. rewrite <- Ei in Hr1, Hr2. apply nz_ibit in Hr1, Hr2; [|lia..]. rewrite Ei, Ej in Hr1, Hr2. rewrite Hr1, Hr2.
    rewrite (rd_nth (pending_priority c) id) by lia. cbn [mbind option_bind].
    change (nth (Z.to_nat id) (pending_priority c) 0) with (s_prio (view c id)). change (ibit (pending c) id) with (s_pending (view c id)). change (ibit (claimed c) id) with (s_claimed (view c id)).
    assert (Hnext : forall best', best_upto (id + 1) best' -> exists b, best_bits fuel p c i (j + 1) best' = Some b /\ best_upto (i * 32 + 32) b).
    { intros b Hb'. apply IH; [done|lia|lia|]. by replace (i * 32 + (j + 1)) with (id + 1) by (unfold id; lia). }
    destruct (Z.leb_spec (num_ids p) id); cbn [orb]; [apply Hnext, best_skip; [done|]; intros [? _]; lia|].
    destruct (s_pending (view c id)) eqn:Ep; cbn [orb negb]; [|apply Hnext, best_skip; [done|]; intros (_ & ? & _); congruence].
    destruct (s_claimed (view c id)) eqn:Ec; cbn [mbind option_bind]; [apply Hnext, best_skip; [done|]; intros (_ & _ & ?); congruence|].
    destruct (Z.eq_dec id 0) as [E0|Hne].
    + apply Hnext. rewrite E0. left. split; [|intros x [Hx _]; lia]. destruct Hb as [[H1 _]|(H1 & H2 & _)]; [rewrite H1; by destruct (_ || _)|destruct H1; lia].
    + apply Hnext, best_take; [done|]. split; [lia|done].
Qed.

Lemma best_words_spec fuel : forall i best, 0 <= i -> i + Z.of_nat fuel <= 32 -> best_upto (i * 32) best ->
  exists best', best_words fuel p c i best = Some best' /\ best_upto ((i + Z.of_nat fuel) * 32) best'.
Proof.
  induction fuel as [|fuel IH]; intros i best Hi Hf Hb.
  - exists best. split; [done|]. by rewrite Z.add_0_r.
  - cbn [best_words]. destruct (words_rd _ i (arr_pending c Ha) ltac:(lia)) as [Hr _]. rewrite Hr. cbn [mbind option_bind].
    assert (exists b, (if nth (Z.to_nat i) (pending c) 0 =? 0 then Some best else best_bits 32 p c i 0 best) = Some b /\ best_upto ((i + 1) * 32) b) as (b & -> & Hb').
    { destruct (Z.eqb_spec (nth (Z.to_nat i) (pending c) 0) 0) as [E0|].
      - exists best. split; [done|]. assert (forall x, eligible p c x -> i * 32 <= x -> (i + 1) * 32 <= x) as Hno.
        { intros x (Hx & Hp & _) Hl. destruct (Z.le_gt_cases ((i + 1) * 32) x) as [|Hlt]; [done|exfalso].
          unfold view, ibit in Hp. simpl in Hp. assert (x / 32 = i) as Ex by (symmetry; apply (Z.div_unique x 32 i (x - i * 32)); lia). by rewrite Ex, E0, Z.bits_0 in Hp. }
        destruct Hb as [[H1 H2]|(H1 & H2 & H3 & H4)]; [left|right].
        + split; [done|]. intros x Hx. apply Hno; [done|]. by apply H2.
        + split; [done|]. split; [lia|]. split; [done|]. intros x Hx Hl. apply H4; [done|]. destruct (Z.lt_ge_cases x (i * 32)) as [|Hge]; [done|]. specialize (Hno x Hx Hge). lia.
      - destruct (best_bits_spec 32 i 0 best ltac:(lia) ltac:(lia) ltac:(lia)) as (b & Eb & Hb'); [by rewrite Z.add_0_r|].
        exists b. split; [done|]. by replace ((i + 1) * 32) with (i * 32 + 32) by lia. }
    cbn [mbind option_bind]. destruct (IH (i + 1) b ltac:(lia) ltac:(lia) Hb') as (b' & E & Hb2). exists b'. split; [done|].
    by replace (i + Z.of_nat (S fuel)) with (i + 1 + Z.of_nat fuel) by lia.
Qed.
End Best.

Lemma context_best_pending_spec p c : 1 <= num_ids p <= 1024 -> num_ids_word p = (num_ids p + 31) / 32 -> arrays c ->
  exists b, context_best_pending p c = Some b /\ is_best p c b.
Proof.
  intros Hn Hw Ha. unfold context_best_pending. pose proof (Z.div_mod (num_ids p + 31) 32 ltac:(lia)) as Hd. pose proof (Z.mod_pos_bound (num_ids p + 31) 32 ltac:(lia)).
  destruct (best_words_spec p c Ha (Z.to_nat (num_ids_word p)) 0 (0, 0)) as (b & E & Hb); [lia|lia|left; split; [done|intros x [Hx _]; lia]|].
  rewrite E. exists b.1. split; [done|]. rewrite Z2Nat.id in Hb by lia. destruct Hb as [[H1 H2]|(H1 & H2 & H3 & H4)]; [left|right].
  - split; [done|]. intros x Hx. specialize (H2 x Hx). destruct Hx as [Hx _]. lia.
  - split; [done|]. intros x Hx. rewrite <- H3. apply H4; [done|]. destruct Hx as [Hx _]. lia.
Qed.

Lemma is_best_unique p c b b' : is_best p c b -> is_best p c b' -> b = b'.
Proof.
  intros [[H1 H2]|[H1 H2]] [[H3 H4]|[H3 H4]]; [congruence|by destruct (H2 b')|by destruct (H4 b)|].
  destruct (H2 b' H3), (H4 b H1); lia.
Qed.

(** ** The lines *)

Lemma ctx_line_range c : 0 <= line c < 32.
Proof. unfold line. destruct (mmode c); lia. Qed.

Lemma line_mask c : (if mmode c then MIP_MEIP else MIP_SEIP) = 2 ^ line c.
Proof. unfold line. by destruct (mmode c). Qed.

Lemma backdoor_bits mip l (b : bool) : 0 <= mip < 2 ^ 64 -> 0 <= l < 32 ->
  let v := backdoor_write_with_mask mip (2 ^ l) (if b then 2 ^ l else 0) in
  0 <= v < 2 ^ 64 /\ forall i, 0 <= i -> Z.testbit v i = if i =? l then b else Z.testbit mip i.
Proof.
  intros Hm Hl. cbn zeta. set (v := backdoor_write_with_mask _ _ _).
  assert (forall i, 0 <= i -> Z.testbit v i = if i =? l then b else Z.testbit mip i) as Hb.
  { intros i Hi. unfold v, backdoor_write_with_mask. rewrite Z.lor_spec, !Z.land_spec. unfold uwrap. rewrite Z.pow2_bits_eqb, (Z.eqb_sym l) by lia.
    destruct (Z.lt_ge_cases i 64).
    - rewrite Z.mod_pow2_bits_low, Z.lnot_spec, Z.pow2_bits_eqb, (Z.eqb_sym l) by lia. destruct (Z.eqb_spec i l) as [->|].
      + destruct b; [rewrite Z.pow2_bits_true by lia|rewrite Z.bits_0]; by rewrite andb_false_r.
      + by rewrite !andb_false_r, orb_false_r, andb_true_r.
    - rewrite Z.mod_pow2_bits_high by lia. destruct (Z.eqb_spec i l); [lia|]. rewrite !andb_false_r. symmetry. apply Z.bits_above_log2; [lia|].
      destruct (Z.eq_dec mip 0) as [->|]; [simpl; lia|]. apply Z.log2_lt_pow2; [lia|]. pose proof (pow2_le 64 i ltac:(lia)). lia. }
  split; [|done]. split.
  - unfold v, backdoor_write_with_mask. apply Z.lor_nonneg. split; apply Z.land_nonneg; [left; lia|right; pose proof (pow2_pos l); lia].
  - destruct (Z.lt_ge_cases v (2 ^ 64)) as [|Hge]; [done|]. exfalso. assert (64 <= Z.log2 v) as Hlog by (apply Z.log2_le_pow2; lia).
    assert (Z.testbit v (Z.log2 v) = true) as Ht by (apply Z.bit_log2; lia). rewrite Hb in Ht by lia. destruct (Z.eqb_spec (Z.log2 v) l); [lia|].
    rewrite Z.bits_above_log2 in Ht; [done|lia|]. destruct (Z.eq_dec mip 0) as [->|]; [simpl; lia|]. assert (Z.log2 mip < 64) by (apply Z.log2_lt_pow2; lia). lia.
Qed.

Lemma nth_mips (mips : list Z) k v j : (k < length mips)%nat -> nth j (<[k := v]> mips) 0 = if decide (j = k) then v else nth j mips 0.
Proof. apply nth_insert. Qed.

Lemma context_update_spec p mips c : 1 <= num_ids p <= 1024 -> num_ids_word p = (num_ids p + 31) / 32 -> arrays c ->
  Forall (fun m => 0 <= m < 2 ^ 64) mips -> (proc c < length mips)%nat ->
  exists b mips', is_best p c b /\ context_update p mips c = Some mips' /\ Forall (fun m => 0 <= m < 2 ^ 64) mips' /\ length mips' = length mips /\
    forall k i, 0 <= i -> mip_bit mips' k i = if decide (k = proc c /\ i = line c) then nz b else mip_bit mips k i.
Proof.
  intros Hn Hw Ha Hm Hp. destruct (context_best_pending_spec p c Hn Hw Ha) as (b & Eb & Hb). unfold context_update. rewrite Eb. cbn [mbind option_bind].
  destruct (lookup_lt_is_Some_2 mips (proc c) Hp) as [mip Hmip]. rewrite Hmip. cbn [mbind option_bind]. rewrite line_mask.
  rewrite Forall_lookup in Hm. destruct (backdoor_bits mip (line c) (nz b) (Hm _ _ Hmip) (ctx_line_range c)) as [Hr Hbits].
  eexists b, _. split; [done|]. split; [done|]. split; [|split; [apply length_insert|]].
  - apply Forall_insert; [by apply Forall_lookup|exact Hr].
  - intros k i Hi. unfold mip_bit. rewrite nth_mips by done. destruct (decide (k = proc c)) as [->|Hne].
    + rewrite Hbits by done. rewrite (nth_lookup_Some _ _ _ _ Hmip). destruct (Z.eqb_spec i (line c)); destruct (decide _) as [[? ?]|Hd]; try done; by destruct Hd.
    + destruct (decide _) as [[? ?]|]; done.
Qed.

(** ** Changing one context *)

Lemma put_context_wf p k c c' : plic_wf p -> contexts p !! k = Some c -> context_wf (num_ids p) c' -> proc c' = proc c -> mmode c' = mmode c -> plic_wf (put_context p k c').
Proof.
  intros [H1 H2 H3 H4 H5 H6] Hc Hc' Hp Hm. split; [done|done|done|done|by apply Forall_insert|].
  unfold put_context. cbn [contexts set_contexts]. change (map ?f ?l) with (f <$> l) in *. rewrite list_fmap_insert, Hp, Hm.
  rewrite list_insert_id; [done|]. by rewrite list_lookup_fmap, Hc.
Qed.

Lemma distinct_lines p k1 k2 c1 c2 : plic_wf p -> contexts p !! k1 = Some c1 -> contexts p !! k2 = Some c2 -> k1 <> k2 -> ~ (proc c1 = proc c2 /\ line c1 = line c2).
Proof.
  intros Hp H1 H2 Hne [Ep El]. apply Hne. pose proof (wf_distinct p Hp) as Hd. change (map ?f ?l) with (f <$> l) in Hd.
  eapply (NoDup_lookup _ k1 k2 (proc c1, mmode c1) Hd); rewrite list_lookup_fmap; [by rewrite H1|rewrite H2; simpl; do 2 f_equal; [done|]].
  unfold line in El. by destruct (mmode c1), (mmode c2).
Qed.

(** After the update of its line, a context that has changed leaves the controller in
    order. *)
Lemma update_preserves p mips k c c' : plic_wf p -> driven p mips -> contexts p !! k = Some c -> context_wf (num_ids p) c' -> proc c' = proc c -> mmode c' = mmode c ->
  exists b mips', is_best p c' b /\ context_update p mips c' = Some mips' /\ plic_wf (put_context p k c') /\ driven (put_context p k c') mips' /\
    forall j i, 0 <= i -> mip_bit mips' j i = if decide (j = proc c' /\ i = line c') then nz b else mip_bit mips j i.
Proof.
  intros Hp [D1 D2 D3] Hc Hc' Ep Em. pose proof D2 as D2'. rewrite Forall_lookup in D2'. pose proof (D2' k c Hc) as Hlt. simpl in Hlt. rewrite <- Ep in Hlt.
  destruct (context_update_spec p mips c' (wf_ids p Hp) (wf_words p Hp) (ctx_arrays _ _ Hc') D1 Hlt) as (b & mips' & Hb & Eu & Hr & Hl & Hbits).
  exists b, mips'. split; [done|]. split; [done|]. split; [by apply (put_context_wf p k c)|]. split; [|done]. split; [done| |].
  - unfold put_context. cbn [contexts set_contexts]. rewrite Hl. by apply Forall_insert.
  - intros c2 Hc2 b2 Hb2. change (is_best p c2 b2) in Hb2. unfold put_context in Hc2. cbn [contexts set_contexts] in Hc2.
    apply list_elem_of_lookup in Hc2 as [k2 Hk2]. pose proof (ctx_line_range c2). rewrite Hbits by lia.
    destruct (decide (k2 = k)) as [->|Hne].
    + rewrite list_lookup_insert_eq in Hk2 by by eapply lookup_lt_Some. injection Hk2 as <-. destruct (decide _) as [_|Hn]; [|by destruct Hn]. f_equal. by apply (is_best_unique p c').
    + rewrite list_lookup_insert_ne in Hk2 by congruence. destruct (decide _) as [Hd|_].
      * exfalso. apply (distinct_lines p k2 k c2 c Hp Hk2 Hc Hne). unfold line in *. by rewrite <- Ep, <- Em.
      * apply D3; [by eapply list_elem_of_lookup_2|done].
Qed.

(** ** What operations do to the sources of a context *)

(** Only the sources change, and as [f] says. *)
Record changed (f : Z -> source -> source) (c c' : plic_context_t) : Prop := {
  chg_proc : proc c' = proc c;
  chg_mmode : mmode c' = mmode c;
  chg_threshold : priority_threshold c' = priority_threshold c;
  chg_arrays : arrays c';
  chg_view : forall id, 0 <= id < 1024 -> view c' id = f id (view c id)
}.

Lemma changed_wf n f c c' : changed f c c' -> context_wf n c -> (forall id s, 0 <= id < 1024 -> source_ok n id s -> source_ok n id (f id s)) -> context_wf n c'.
Proof. intros Hc [_ Hs] Hf. split; [apply Hc|]. intros id Hid. rewrite (chg_view _ _ _ Hc id Hid). by apply Hf, Hs. Qed.

Lemma source_eq s e pe pr cl : s_enabled s = e -> s_pending s = pe -> s_prio s = pr -> s_claimed s = cl -> s = Source e pe pr cl.
Proof. by destruct s; simpl; intros -> -> -> ->. Qed.

(** Only the source [id]. *)
Definition at_id (id : Z) (f : source -> source) (x : Z) (s : source) : source := if x =? id then f s else s.

(** Raising a source of a context: the pending bit and the priority. *)
Lemma raise_changed c id prio : arrays c -> 0 <= id < 1024 ->
  exists w pend prios, rd (pending c) (id / 32) = Some w /\ wr (pending c) (id / 32) (w .| (1 .<< (id mod 32))) = Some pend /\
    wr (pending_priority c) id prio = Some prios /\ changed (at_id id (raised prio)) c (set_pending c pend prios (claimed c)).
Proof.
  intros [A1 A2 A3 A4] Hid. destruct (set_ibit (pending c) id A2 Hid) as (w & pend & E1 & E2 & Hw & Hb).
  exists w, pend, (<[Z.to_nat id := prio]> (pending_priority c)). do 2 (split; [done|]). split; [apply wr_insert; lia|]. split; [done|done|done| |].
  - split; [done|done|done|]. simpl. by rewrite length_insert.
  - intros x Hx. unfold at_id, raised, view. simpl. rewrite Hb by lia. rewrite nth_insert by lia.
    destruct (Z.eqb_spec x id) as [->|]; destruct (decide _); try lia; simpl; [by rewrite orb_true_r|by rewrite orb_false_r].
Qed.

(** Lowering it: the claim as well. *)
Lemma lower_changed c id : arrays c -> 0 <= id < 1024 ->
  exists w pend prios w' clm, rd (pending c) (id / 32) = Some w /\ wr (pending c) (id / 32) (w .& u32 (Z.lnot (1 .<< (id mod 32)))) = Some pend /\
    wr (pending_priority c) id 0 = Some prios /\
    rd (claimed c) (id / 32) = Some w' /\ wr (claimed c) (id / 32) (w' .& u32 (Z.lnot (1 .<< (id mod 32)))) = Some clm /\
    changed (at_id id lowered) c (set_pending c pend prios clm).
Proof.
  intros [A1 A2 A3 A4] Hid. destruct (clear_ibit (pending c) id A2 Hid) as (w & pend & E1 & E2 & Hw & Hb). destruct (clear_ibit (claimed c) id A3 Hid) as (w' & clm & E3 & E4 & Hw' & Hb').
  exists w, pend, (<[Z.to_nat id := 0]> (pending_priority c)), w', clm. do 2 (split; [done|]). split; [apply wr_insert; lia|]. do 2 (split; [done|]). split; [done|done|done| |].
  - split; [done|done|done|]. simpl. by rewrite length_insert.
  - intros x Hx. unfold at_id, lowered, view. simpl. rewrite Hb, Hb' by lia. rewrite nth_insert by lia.
    destruct (Z.eqb_spec x id) as [->|]; destruct (decide _); try lia; simpl; [by rewrite !andb_false_r|by rewrite !andb_true_r].
Qed.

(** Claiming and completing. *)
Lemma claim_changed c id : arrays c -> 0 <= id < 1024 ->
  exists w clm, rd (claimed c) (id / 32) = Some w /\ wr (claimed c) (id / 32) (w .| (1 .<< (id mod 32))) = Some clm /\
    changed (at_id id (claim true)) c (set_pending c (pending c) (pending_priority c) clm).
Proof.
  intros [A1 A2 A3 A4] Hid. destruct (set_ibit (claimed c) id A3 Hid) as (w & clm & E1 & E2 & Hw & Hb).
  exists w, clm. do 2 (split; [done|]). split; [done|done|done|done|]. intros x Hx. unfold at_id, claim, view. simpl. rewrite Hb by lia.
  destruct (x =? id); [by rewrite orb_true_r|by rewrite orb_false_r].
Qed.

Lemma complete_changed c id : arrays c -> 0 <= id < 1024 ->
  exists w clm, rd (claimed c) (id / 32) = Some w /\ wr (claimed c) (id / 32) (w .& u32 (Z.lnot (1 .<< (id mod 32)))) = Some clm /\
    changed (at_id id (claim false)) c (set_pending c (pending c) (pending_priority c) clm).
Proof.
  intros [A1 A2 A3 A4] Hid. destruct (clear_ibit (claimed c) id A3 Hid) as (w & clm & E1 & E2 & Hw & Hb).
  exists w, clm. do 2 (split; [done|]). split; [done|done|done|done|]. intros x Hx. unfold at_id, claim, view. simpl. rewrite Hb by lia.
  destruct (x =? id); [by rewrite andb_false_r|by rewrite andb_true_r].
Qed.

Lemma changed_refl c f : arrays c -> (forall id, 0 <= id < 1024 -> f id (view c id) = view c id) -> changed f c c.
Proof. intros Ha Hf. split; [done|done|done|done|]. intros id Hid. by rewrite Hf. Qed.

Lemma changed_trans f g h c1 c2 c3 : changed f c1 c2 -> changed g c2 c3 ->
  (forall id, 0 <= id < 1024 -> g id (f id (view c1 id)) = h id (view c1 id)) -> changed h c1 c3.
Proof.
  intros [F1 F2 F3 F4 F5] [G1 G2 G3 G4 G5] Hh. split; [congruence..|done|]. intros id Hid. by rewrite G5, F5, Hh.
Qed.

(** ** Writing enable bits *)

(** What a changed bit makes of its source, the new bit being stored already. *)
Definition flip (new lvl : bool) (prio : Z) (s : source) : source := if new then (if lvl then raised prio s else s) else lowered s.

Section EnableLoop.
Variables (p : plic_t) (id_word new_val xor_val : Z).
Hypothesis Hlen : length (priority p) = 1024%nat.
Hypothesis Hlvl : words (level p).
Hypothesis Hword : 0 <= id_word < 32.

Definition flips (i x : Z) (s : source) : source :=
  if (x / 32 =? id_word) && (i <=? x mod 32) && Z.testbit xor_val (x mod 32)
  then flip (Z.testbit new_val (x mod 32)) (ibit (level p) x) (nth (Z.to_nat x) (priority p) 0) s else s.

Lemma enable_loop_spec fuel : forall i c, 0 <= i -> i + Z.of_nat fuel = 32 -> arrays c ->
  exists c', enable_loop fuel p c id_word new_val xor_val i = Some c' /\ changed (flips i) c c'.
Proof.
  induction fuel as [|fuel IH]; intros i c Hi Hf Ha.
  - exists c. split; [done|]. apply changed_refl; [done|]. intros x Hx. unfold flips. destruct (split32 x Hx). destruct (Z.leb_spec i (x mod 32)); [lia|]. by rewrite andb_false_r.
  - set (id := id_word * 32 + i). assert (0 <= id < 1024) as Hid by (unfold id; lia).
    assert (id / 32 = id_word) as Ei by (unfold id; rewrite Z.div_add_l, Z.div_small; lia). assert (id mod 32 = i) as Ej by (unfold id; rewrite Z.add_comm, Z_mod_plus_full; apply Z.mod_small; lia).
    cbn [enable_loop]. fold id. rewrite (uwrap_small 32 id) by lia. rewrite (rd_nth (priority p) id) by lia. cbn [mbind option_bind].
    destruct (words_rd _ id_word Hlvl Hword) as [Hr _]. rewrite Hr. cbn [mbind option_bind].
    rewrite <- Ei in Hr at 1. apply nz_ibit in Hr; [|lia]. rewrite Ej in Hr. rewrite Hr. rewrite !one_bit, !nz_bit by lia. rewrite <- (one_bit i), <- Ej, <- Ei by lia.
    set (fx := fun x (s : source) => if x =? id then (if Z.testbit xor_val (id mod 32) then flip (Z.testbit new_val (id mod 32)) (ibit (level p) id) (nth (Z.to_nat id) (priority p) 0) s else s) else s).
    assert (Hcomp : forall x s, flips (i + 1) x (fx x s) = flips i x s).
    { intros x s. unfold flips, fx. destruct (Z.eqb_spec x id) as [->|Hne].
      - rewrite Ei, Ej, Z.eqb_refl, Z.leb_refl. destruct (Z.leb_spec (i + 1) i); [lia|]. cbn [andb]. done.
      - assert ((x / 32 =? id_word) && (i + 1 <=? x mod 32) = (x / 32 =? id_word) && (i <=? x mod 32)) as ->; [|done].
        pose proof (same_id x id) as Hs. rewrite Ei, Ej in Hs. destruct (Z.eqb_spec x id); [done|]. destruct (x / 32 =? id_word); [|done]. cbn [andb] in *.
        destruct (Z.eqb_spec (x mod 32) i), (Z.leb_spec (i + 1) (x mod 32)), (Z.leb_spec i (x mod 32)); try done; lia. }
    assert (Hrest : forall c1, changed fx c c1 -> exists c', enable_loop fuel p c1 (id / 32) new_val xor_val (id mod 32 + 1) = Some c' /\ changed (flips (id mod 32)) c c').
    { intros c1 H1. rewrite Ei, Ej. destruct (IH (i + 1) c1 ltac:(lia) ltac:(lia) (chg_arrays _ _ _ H1)) as (c' & E & H2). exists c'. split; [done|].
      apply (changed_trans _ _ _ _ _ _ H1 H2). intros x Hx. apply Hcomp. }
    unfold flip in fx. subst fx. destruct (Z.testbit xor_val (id mod 32)); cbn [negb].
    + destruct (Z.testbit new_val (id mod 32)); cbn [negb andb]; [destruct (ibit (level p) id)|].
      * destruct (raise_changed c id (nth (Z.to_nat id) (priority p) 0) Ha Hid) as (w & pend & prios & E1 & E2 & E3 & Hc).
        rewrite E1. cbn [mbind option_bind]. rewrite E2. cbn [mbind option_bind]. rewrite E3. cbn [mbind option_bind]. by apply Hrest.
      * cbn [mbind option_bind]. apply Hrest. apply changed_refl; [done|]. intros x _. by destruct (x =? id).
      * destruct (lower_changed c id Ha Hid) as (w & pend & prios & w' & clm & E1 & E2 & E3 & E4 & E5 & Hc).
        rewrite E1. cbn [mbind option_bind]. rewrite E2. cbn [mbind option_bind]. rewrite E3. cbn [mbind option_bind]. rewrite E4. cbn [mbind option_bind]. rewrite E5. cbn [mbind option_bind]. by apply Hrest.
    + cbn [mbind option_bind]. apply Hrest. apply changed_refl; [done|]. intros x _. by destruct (x =? id).
Qed.
End EnableLoop.
