(* ===== verification/PlicTheorems.v ===== *)
(** * Spike: theorems about the interrupt controller

    Every operation ends within the arrays, keeps the controller in order with its
    lines driven, and changes the sources of at most one context as specified.

    The controller stays in order and drives its lines whatever is loaded, stored and
    signalled; claiming and completing an interrupt; the levels of the sources. *)

From stdpp Require Import base option list.
From S2P Require Import Prelude.
From S2P Require Import Plic.
From S2P Require Import PlicFacts.

(** A controller in order, with its lines. *)
Definition in_order (p : plic_t) (mips : list Z) : Prop := plic_wf p /\ driven p mips.

Lemma wf_at p k c : plic_wf p -> contexts p !! k = Some c -> context_wf (num_ids p) c.
Proof. intros Hp Hc. pose proof (wf_contexts p Hp) as H. rewrite Forall_lookup in H. by apply (H k). Qed.

Lemma arrays_at p k c : plic_wf p -> contexts p !! k = Some c -> arrays c.
Proof. intros Hp Hc. apply (ctx_arrays (num_ids p)). by apply (wf_at p k). Qed.

Lemma source_at p k c id : plic_wf p -> contexts p !! k = Some c -> 0 <= id < 1024 -> source_ok (num_ids p) id (view c id).
Proof. intros Hp Hc. apply (ctx_sources (num_ids p)). by apply (wf_at p k). Qed.

Lemma priority_at p id : plic_wf p -> 0 <= id < 1024 -> rd (priority p) id = Some (nth (Z.to_nat id) (priority p) 0) /\ 0 <= nth (Z.to_nat id) (priority p) 0 <= 15.
Proof.
  intros Hp Hid. destruct (wf_prio p Hp) as (_ & Hl & Hf). split; [apply rd_nth; lia|]. destruct (lookup_lt_is_Some_2 (priority p) (Z.to_nat id)) as [v Hv]; [lia|].
  rewrite Forall_lookup in Hf. rewrite (nth_lookup_Some _ _ _ _ Hv). by apply (Hf (Z.to_nat id)).
Qed.

(** What the operations may do to a source. *)
Lemma raised_ok n id prio s : source_ok n id s -> s_enabled s = true -> id < n -> 0 <= prio <= 15 -> source_ok n id (raised prio s).
Proof. intros (H1 & H2 & H3 & H4 & H5) He Hn Hp. unfold source_ok, raised. simpl. repeat split; auto; lia. Qed.

Lemma lowered_ok n id s : source_ok n id s -> source_ok n id (lowered s).
Proof. intros (H1 & H2 & H3 & H4 & H5). unfold source_ok, lowered. simpl. repeat split; auto; try lia; done. Qed.

Lemma claim_ok n id b s : source_ok n id s -> (b = true -> s_pending s = true) -> source_ok n id (claim b s).
Proof. intros (H1 & H2 & H3 & H4 & H5) Hb. exact (conj Hb (conj H2 (conj H3 (conj H4 H5)))). Qed.

Lemma at_id_ok n id f : (forall s, source_ok n id s -> source_ok n id (f s)) -> forall x s, 0 <= x < 1024 -> source_ok n x s -> source_ok n x (at_id id f x s).
Proof. intros Hf x s _ Hs. unfold at_id. destruct (Z.eqb_spec x id) as [->|]; auto. Qed.

(** Changing a context as the specification allows, then updating its line. *)
Lemma change_context p mips k c c' f : in_order p mips -> contexts p !! k = Some c -> changed f c c' ->
  (forall id, 0 <= id < 1024 -> source_ok (num_ids p) id (f id (view c id))) ->
  exists mips', context_update p mips c' = Some mips' /\ in_order (put_context p k c') mips' /\
    (forall j i, 0 <= i -> ~ (j = proc c /\ i = line c) -> mip_bit mips' j i = mip_bit mips j i).
Proof.
  intros [Hp Hd] Hc Hch Hf. destruct (update_preserves p mips k c c' Hp Hd Hc) as (b & mips' & _ & E & H1 & H2 & H3).
  - split; [apply Hch|]. intros id Hid. rewrite (chg_view _ _ _ Hch id Hid). by apply Hf.
  - apply Hch.
  - apply Hch.
  - exists mips'. do 2 (split; [done|]). intros j i Hi Hn. rewrite H3 by done. destruct (decide _) as [[-> ->]|]; [|done].
    destruct Hn. split; [apply Hch|]. unfold line. by rewrite (chg_mmode _ _ _ Hch).
Qed.

(** ** Claim and completion *)

Definition claimed_by (b x : Z) (s : source) : source := if b =? 0 then s else at_id b (claim true) x s.

Lemma is_best_range p c b : num_ids p <= 1024 -> is_best p c b -> 0 <= b < 1024 /\ (b <> 0 -> eligible p c b).
Proof. intros Hn [[-> _]|[[Hb He] _]]; [lia|]. split; [lia|done]. Qed.

Lemma context_claim_spec p mips k c : in_order p mips -> contexts p !! k = Some c ->
  exists b c' mips', context_claim p mips k = Some (b, put_context p k c', mips') /\ is_best p c b /\ changed (claimed_by b) c c' /\ in_order (put_context p k c') mips'.
Proof.
  intros Ho Hc. destruct Ho as [Hp Hd] eqn:Eo. clear Eo. pose proof (arrays_at p k c Hp Hc) as Ha.
  destruct (context_best_pending_spec p c (wf_ids p Hp) (wf_words p Hp) Ha) as (b & Eb & Hb). unfold context_claim. rewrite Hc. cbn [mbind option_bind]. rewrite Eb. cbn [mbind option_bind].
  destruct (is_best_range p c b ltac:(apply Hp) Hb) as [Hr Hel].
  assert (exists c', (if nz b then w ← rd (claimed c) (b / 32); clm ← wr (claimed c) (b / 32) (w .| (1 .<< (b mod 32))); Some (set_pending c (pending c) (pending_priority c) clm) else Some c) = Some c' /\ changed (claimed_by b) c c') as (c' & -> & Hch).
  { unfold nz, claimed_by. destruct (Z.eqb_spec b 0) as [->|Hne]; cbn [negb].
    - exists c. split; [done|]. by apply changed_refl.
    - destruct (claim_changed c b Ha Hr) as (w & clm & E1 & E2 & Hch). rewrite E1. cbn [mbind option_bind]. rewrite E2. by eexists. }
  cbn [mbind option_bind]. destruct (change_context p mips k c c' _ (conj Hp Hd) Hc Hch) as (mips' & Eu & Ho' & _).
  - intros id Hid. pose proof (source_at p k c id Hp Hc Hid) as Hs. unfold claimed_by, at_id. destruct (Z.eqb_spec b 0); [done|].
    destruct (Z.eqb_spec id b) as [->|]; [|done]. apply claim_ok; [done|]. intros _. by apply Hel.
  - rewrite Eu. exists b, c', mips'. done.
Qed.

Lemma context_read_spec p mips k c offset : in_order p mips -> contexts p !! k = Some c ->
  exists v p' mips', context_read p mips k offset = Some (v, p', mips') /\ in_order p' mips'.
Proof.
  intros Ho Hc. unfold context_read. rewrite Hc. cbn [mbind option_bind]. destruct (offset =? CONTEXT_THRESHOLD); [by eexists _, p, mips|].
  destruct (offset =? CONTEXT_CLAIM); [|by eexists _, p, mips]. destruct (context_claim_spec p mips k c Ho Hc) as (b & c' & mips' & E & _ & _ & Ho'). by eexists _, _, _.
Qed.

(** Completing an enabled source; others are ignored. *)
Lemma context_complete_spec p mips k c val : in_order p mips -> contexts p !! k = Some c -> 0 <= val ->
  exists p' mips', context_write p mips k CONTEXT_CLAIM val = Some (true, p', mips') /\ in_order p' mips' /\
    if bool_decide (val < num_ids p) && ibit (enable c) val
    then exists c', p' = put_context p k c' /\ changed (at_id val (claim false)) c c'
    else p' = p /\ mips' = mips.
Proof.
  intros Ho Hc Hv. destruct Ho as [Hp Hd] eqn:Eo. clear Eo. pose proof (arrays_at p k c Hp Hc) as Ha. unfold context_write. rewrite Hc. cbn [mbind option_bind].
  change (CONTEXT_CLAIM =? CONTEXT_THRESHOLD) with false. change (CONTEXT_CLAIM =? CONTEXT_CLAIM) with true. cbn iota.
  destruct (Z.ltb_spec val (num_ids p)) as [Hlt|Hge].
  - rewrite bool_decide_true by done. cbn [andb]. pose proof (wf_ids p Hp). assert (0 <= val < 1024) as Hr by lia.
    destruct (words_rd _ (val / 32) (arr_enable c Ha) (proj1 (split32 val Hr))) as [Er _]. rewrite Er. cbn [mbind option_bind]. rewrite (nz_ibit _ val _ ltac:(lia) Er).
    destruct (ibit (enable c) val); [|by exists p, mips]. destruct (complete_changed c val Ha Hr) as (w & clm & E1 & E2 & Hch). rewrite E1. cbn [mbind option_bind]. rewrite E2. cbn [mbind option_bind].
    destruct (change_context p mips k c _ _ (conj Hp Hd) Hc Hch) as (mips' & Eu & Ho' & _).
    + intros id Hid. pose proof (source_at p k c id Hp Hc Hid) as Hs. unfold at_id. destruct (id =? val); [|done]. by apply claim_ok.
    + rewrite Eu. cbn [mbind option_bind]. eexists _, mips'. split; [done|]. split; [done|]. by eexists.
  - rewrite bool_decide_false by lia. by exists p, mips.
Qed.

(** ** The threshold *)

Lemma threshold_spec p mips k c val : in_order p mips -> contexts p !! k = Some c -> 0 <= val ->
  exists mips', context_write p mips k CONTEXT_THRESHOLD val = Some (true, put_context p k (set_threshold c (val mod 16)), mips') /\ in_order (put_context p k (set_threshold c (val mod 16))) mips'.
Proof.
  intros Ho Hc Hv. destruct Ho as [Hp Hd] eqn:Eo. clear Eo. unfold context_write. rewrite Hc. cbn [mbind option_bind].
  change (CONTEXT_THRESHOLD =? CONTEXT_THRESHOLD) with true. cbn iota. rewrite (land_mod val _ 4) by done. change (2 ^ 4) with 16. pose proof (Z.mod_pos_bound val 16 ltac:(lia)).
  destruct (wf_prio p Hp) as [-> _]. destruct (Z.leb_spec (val mod 16) 15); [|lia].
  destruct (update_preserves p mips k c (set_threshold c (val mod 16)) Hp Hd Hc) as (b & mips' & _ & E & H1 & H2 & _).
  - by destruct (wf_at p k c Hp Hc) as [[A1 A2 A3 A4] Hs].
  - done.
  - done.
  - rewrite E. by exists mips'.
Qed.

Lemma context_write_spec p mips k c offset val : in_order p mips -> contexts p !! k = Some c -> 0 <= val ->
  exists b p' mips', context_write p mips k offset val = Some (b, p', mips') /\ in_order p' mips'.
Proof.
  intros Ho Hc Hv. destruct (Z.eq_dec offset CONTEXT_THRESHOLD) as [->|H1].
  { destruct (threshold_spec p mips k c val Ho Hc Hv) as (mips' & E & Ho'). by eexists _, _, _. }
  destruct (Z.eq_dec offset CONTEXT_CLAIM) as [->|H2].
  { destruct (context_complete_spec p mips k c val Ho Hc Hv) as (p' & mips' & E & Ho' & _). by eexists _, _, _. }
  exists false, p, mips. unfold context_write. rewrite Hc. cbn [mbind option_bind]. destruct (Z.eqb_spec offset CONTEXT_THRESHOLD), (Z.eqb_spec offset CONTEXT_CLAIM); done.
Qed.

(** ** Enable bits *)

(** A write of the word [id_word] of enable bits; source 0 stays disabled. *)
Definition enabling (p : plic_t) (id_word val x : Z) (s : source) : source :=
  if x / 32 =? id_word
  then switched (Z.testbit val (x mod 32) && negb (x =? 0)) (ibit (level p) x) (nth (Z.to_nat x) (priority p) 0) s
  else s.

(** Storing the word, before the loop over its bits. *)
Definition stored (id_word new_val x : Z) (s : source) : source :=
  if x / 32 =? id_word then Source (Z.testbit new_val (x mod 32)) (s_pending s) (s_prio s) (s_claimed s) else s.

Lemma store_changed c id_word v : arrays c -> 0 <= id_word < 32 -> 0 <= v < 2 ^ 32 ->
  exists en, wr (enable c) id_word v = Some en /\ changed (stored id_word v) c (set_enable c en).
Proof.
  intros [A1 A2 A3 A4] Hw Hv. destruct (words_wr (enable c) id_word v A1 Hw Hv) as (en & E & He & Hb). exists en. split; [done|].
  split; [done|done|done|done|]. intros x Hx. unfold stored, view. simpl. rewrite Hb by lia. by destruct (_ =? _).
Qed.

Lemma flips_stored p id_word new_val old x s : 0 <= x < 1024 -> s_enabled s = Z.testbit old (x mod 32) -> 
  flips p id_word new_val (old .^ new_val) 0 x (stored id_word new_val x s)
  = if x / 32 =? id_word then switched (Z.testbit new_val (x mod 32)) (ibit (level p) x) (nth (Z.to_nat x) (priority p) 0) s else s.
Proof.
  intros Hx He. destruct (split32 x Hx) as [_ Hm]. unfold flips, stored. destruct (x / 32 =? id_word); [|done]. destruct (Z.leb_spec 0 (x mod 32)); [|lia]. cbn [andb].
  rewrite Z.lxor_spec. unfold switched, flip. rewrite He. by destruct (Z.testbit old (x mod 32)), (Z.testbit new_val (x mod 32)).
Qed.

Lemma masked_bit val id_word x : 0 <= val < 2 ^ 32 -> 0 <= x < 1024 -> x / 32 = id_word ->
  let new_val := if id_word =? 0 then val .& u32 (Z.lnot 1) else val in
  0 <= new_val < 2 ^ 32 /\ Z.testbit new_val (x mod 32) = Z.testbit val (x mod 32) && negb (x =? 0).
Proof.
  intros Hv Hx Hw. destruct (split32 x Hx) as [_ Hm]. pose proof (Z.div_mod x 32 ltac:(lia)) as Hd. cbn zeta. destruct (Z.eqb_spec id_word 0) as [E0|Hne].
  - split.
    + pose proof (land_le_r val (u32 (Z.lnot 1)) ltac:(apply uwrap_range; lia)). pose proof (uwrap_range 32 (Z.lnot 1) ltac:(lia)). lia.
    + rewrite (testbit_clear val 0) by lia. f_equal. f_equal. destruct (Z.eqb_spec (x mod 32) 0), (Z.eqb_spec x 0); lia.
  - split; [done|]. destruct (Z.eqb_spec x 0); [|by rewrite andb_true_r]. subst x. rewrite Z.div_0_l in Hw by lia. lia.
Qed.

Lemma switched_ok n p id new s : plic_wf p -> n = num_ids p -> 0 <= id < 1024 -> (new = true -> 0 < id) -> source_ok n id s ->
  source_ok n id (switched new (ibit (level p) id) (nth (Z.to_nat id) (priority p) 0) s).
Proof.
  intros Hp -> Hid Hnew (H1 & H2 & H3 & H4 & H5). unfold switched. destruct (eqb (s_enabled s) new) eqn:E.
  - apply eqb_prop in E. subst new. destruct s. exact (conj H1 (conj H2 (conj H3 (conj H4 H5)))).
  - apply eqb_false_iff in E. assert (new = true -> s_pending s = false) as Hnp.
    { intros ->. destruct (s_pending s) eqn:Ep; [|done]. by destruct (H2 eq_refl) as [? _]. }
    destruct new.
    + specialize (Hnp eq_refl). assert (s_claimed s = false) as Hc by (destruct (s_claimed s); [by rewrite H1 in Hnp|done]).
      destruct (ibit (level p) id) eqn:El.
      * destruct (wf_level p Hp) as [_ Hlv]. destruct (Hlv id Hid El). destruct (priority_at p id Hp Hid) as [_ Hpr].
        unfold source_ok, raised. simpl. rewrite Hc. split; [done|]. split; [done|]. split; [auto|]. split; [lia|done].
      * unfold source_ok. simpl. rewrite Hnp, Hc. split; [done|]. split; [done|]. split; [auto|]. split; [lia|auto].
    + unfold source_ok, lowered. simpl. repeat split; done || lia.
Qed.

Lemma context_enable_write_spec p mips k c offset val : in_order p mips -> contexts p !! k = Some c -> 0 <= offset < 0x80 -> 0 <= val < 2 ^ 32 ->
  exists p' mips', context_enable_write p mips k offset val = Some (p', mips') /\ in_order p' mips' /\
    if offset / 4 <? num_ids_word p then exists c', p' = put_context p k c' /\ changed (enabling p (offset / 4) val) c c' else p' = p /\ mips' = mips.
Proof.
  intros Ho Hc Hof Hv. destruct Ho as [Hp Hd] eqn:Eo. clear Eo. pose proof (arrays_at p k c Hp Hc) as Ha. unfold context_enable_write.
  rewrite shiftr_div by lia. change (2 ^ 2) with 4. assert (0 <= offset / 4 < 32) as Hw by (split; [apply Z.div_pos; lia|apply Z.div_lt_upper_bound; lia]).
  rewrite (uwrap_small 32) by lia. set (id_word := offset / 4) in *. destruct (Z.leb_spec (num_ids_word p) id_word), (Z.ltb_spec id_word (num_ids_word p)); try lia; [by exists p, mips|].
  rewrite Hc. cbn [mbind option_bind]. destruct (words_rd _ id_word (arr_enable c Ha) Hw) as [Er Hr]. rewrite Er. cbn [mbind option_bind].
  set (old := nth (Z.to_nat id_word) (enable c) 0) in *. set (new_val := if id_word =? 0 then val .& u32 (Z.lnot 1) else val).
  assert (forall x, 0 <= x < 1024 -> x / 32 = id_word -> Z.testbit new_val (x mod 32) = Z.testbit val (x mod 32) && negb (x =? 0)) as Hbit.
  { intros x Hx Ex. apply (masked_bit val id_word x Hv Hx Ex). }
  assert (0 <= new_val < 2 ^ 32) as Hnv by (apply (masked_bit val id_word (id_word * 32)); [done|lia|apply Z.div_mul; lia]).
  destruct (store_changed c id_word new_val Ha Hw Hnv) as (en & -> & Hst). cbn [mbind option_bind].
  destruct (wf_prio p Hp) as (_ & Hlen & _). destruct (wf_level p Hp) as [Hlw _].
  destruct (enable_loop_spec p id_word new_val (old .^ new_val) Hlen Hlw Hw 32 0 _ ltac:(lia) ltac:(lia) (chg_arrays _ _ _ Hst)) as (c' & -> & Hfl). cbn [mbind option_bind].
  assert (changed (enabling p id_word val) c c') as Hch.
  { apply (changed_trans _ _ _ _ _ _ Hst Hfl). intros x Hx. destruct (Z.eq_dec (x / 32) id_word) as [Ex|Ex].
    - rewrite flips_stored; [|done|unfold view; simpl; unfold ibit; by rewrite Ex]. unfold enabling. destruct (Z.eqb_spec (x / 32) id_word); [|done]. by rewrite Hbit.
    - unfold flips, stored, enabling. destruct (Z.eqb_spec (x / 32) id_word); done. }
  destruct (change_context p mips k c c' _ (conj Hp Hd) Hc Hch) as (mips' & -> & Ho' & _).
  - intros id Hid. pose proof (source_at p k c id Hp Hc Hid) as Hs. unfold enabling. destruct (_ =? id_word); [|done].
    apply switched_ok; try done. intros [_ Hn]%andb_prop. destruct (Z.eqb_spec id 0); [done|lia].
  - cbn [mbind option_bind]. eexists _, mips'. split; [done|]. split; [done|]. by eexists.
Qed.

(** ** Levels *)

(** What a level makes of a pending bit. *)
Definition levelled (lvl prio : Z) (s : source) : source := if nz lvl then raised prio s else lowered s.

Lemma level_loop_spec id lvl prio : 0 < id -> 0 <= prio <= 15 -> forall fuel p mips k, in_order p mips -> id < num_ids p -> (k + fuel)%nat = length (contexts p) ->
  exists p' mips', level_loop fuel p mips k id lvl prio = Some (p', mips') /\ in_order p' mips' /\
    ((p' = p /\ mips' = mips /\ forall j c, (k <= j)%nat -> contexts p !! j = Some c -> s_enabled (view c id) = false) \/
     exists j c c', (k <= j)%nat /\ contexts p !! j = Some c /\ s_enabled (view c id) = true /\
       (forall i ci, (k <= i < j)%nat -> contexts p !! i = Some ci -> s_enabled (view ci id) = false) /\
       p' = put_context p j c' /\ changed (at_id id (levelled lvl prio)) c c').
Proof.
  intros Hid Hpr. induction fuel as [|fuel IH]; intros p mips k Ho Hn Hk.
  - exists p, mips. split; [done|]. split; [done|]. left. do 2 (split; [done|]). intros j c Hj Hc. apply lookup_lt_Some in Hc. lia.
  - destruct Ho as [Hp Hd] eqn:Eo. clear Eo. pose proof (wf_ids p Hp). assert (0 <= id < 1024) as Hr by lia. cbn [level_loop].
    destruct (lookup_lt_is_Some_2 (contexts p) k ltac:(lia)) as [c Hc]. rewrite Hc. cbn [mbind option_bind]. pose proof (arrays_at p k c Hp Hc) as Ha.
    destruct (words_rd _ (id / 32) (arr_enable c Ha) (proj1 (split32 id Hr))) as [Er _]. rewrite Er. cbn [mbind option_bind]. rewrite (nz_ibit _ id _ ltac:(lia) Er).
    change (ibit (enable c) id) with (s_enabled (view c id)). destruct (s_enabled (view c id)) eqn:Een.
    + assert (exists c', (w ← rd (pending c) (id / 32);
          if nz lvl then pend ← wr (pending c) (id / 32) (w .| (1 .<< (id mod 32))); prios ← wr (pending_priority c) id prio; Some (set_pending c pend prios (claimed c))
          else pend ← wr (pending c) (id / 32) (w .& u32 (Z.lnot (1 .<< (id mod 32)))); prios ← wr (pending_priority c) id 0;
            w ← rd (claimed c) (id / 32); clm ← wr (claimed c) (id / 32) (w .& u32 (Z.lnot (1 .<< (id mod 32)))); Some (set_pending c pend prios clm)) = Some c' /\
          changed (at_id id (levelled lvl prio)) c c') as (c' & Ec & Hch).
      { unfold levelled. destruct (nz lvl).
        - destruct (raise_changed c id prio Ha Hr) as (w & pend & prios & E1 & E2 & E3 & Hch). rewrite E1. cbn [mbind option_bind]. rewrite E2. cbn [mbind option_bind]. rewrite E3. by eexists.
        - destruct (lower_changed c id Ha Hr) as (w & pend & prios & w' & clm & E1 & E2 & E3 & E4 & E5 & Hch).
          rewrite E1. cbn [mbind option_bind]. rewrite E2. cbn [mbind option_bind]. rewrite E3. cbn [mbind option_bind]. rewrite E4. cbn [mbind option_bind]. rewrite E5. by eexists. }
      destruct (rd (pending c) (id / 32)) as [w|]; [|done]. cbn [mbind option_bind] in Ec |- *. rewrite Ec. cbn [mbind option_bind].
      destruct (change_context p mips k c c' _ (conj Hp Hd) Hc Hch) as (mips' & -> & Ho' & _).
      { intros x Hx. pose proof (source_at p k c x Hp Hc Hx) as Hs. unfold at_id. destruct (Z.eqb_spec x id) as [->|]; [|done].
        unfold levelled. destruct (nz lvl); [by apply raised_ok|by apply lowered_ok]. }
      cbn [mbind option_bind]. eexists _, mips'. split; [done|]. split; [done|]. right. exists k, c, c'. repeat (split; [done|]). split; [intros; lia|done].
    + destruct (IH p mips (S k) (conj Hp Hd) Hn ltac:(lia)) as (p' & mips' & E & Ho' & Hcase). exists p', mips'. split; [done|]. split; [done|].
      assert (forall j cj, (k <= j)%nat -> ~ (S k <= j)%nat -> contexts p !! j = Some cj -> s_enabled (view cj id) = false) as Hk0.
      { intros j cj H1 H2 Hj. assert (j = k) as -> by lia. congruence. }
      destruct Hcase as [(-> & -> & Hno)|(j & cj & c' & Hj & Hcj & Hen & Hno & -> & Hch)]; [left|right].
      * do 2 (split; [done|]). intros j cj Hj Hcj. destruct (decide (S k <= j)%nat); [by apply (Hno j)|by apply (Hk0 j)].
      * exists j, cj, c'. split; [lia|]. do 2 (split; [done|]). split; [|done]. intros i ci Hi Hci. destruct (decide (S k <= i)%nat); [apply (Hno i); [lia|done]|by apply (Hk0 i); [lia|..]].
Qed.

(** Raising or lowering the level of a source in the controller's own array. *)
Lemma set_level_order p mips id lvl : in_order p mips -> 0 < id < num_ids p ->
  exists w l, rd (level p) (id / 32) = Some w /\ wr (level p) (id / 32) (if nz lvl then w .| (1 .<< (id mod 32)) else w .& u32 (Z.lnot (1 .<< (id mod 32)))) = Some l /\
    in_order (set_level p l) mips /\ forall x, 0 <= x -> ibit l x = if x =? id then nz lvl else ibit (level p) x.
Proof.
  intros [[H1 H2 H3 [H4 H4'] H5 H6] Hd] Hid. assert (0 <= id < 1024) as Hr by lia.
  assert (exists w l, rd (level p) (id / 32) = Some w /\ wr (level p) (id / 32) (if nz lvl then w .| (1 .<< (id mod 32)) else w .& u32 (Z.lnot (1 .<< (id mod 32)))) = Some l /\
    words l /\ forall x, 0 <= x -> ibit l x = if x =? id then nz lvl else ibit (level p) x) as (w & l & E1 & E2 & Hl & Hb).
  { destruct (nz lvl).
    - destruct (set_ibit (level p) id H4 Hr) as (w & l & E1 & E2 & Hl & Hb). exists w, l. do 3 (split; [done|]). intros x Hx. rewrite Hb by done. destruct (x =? id); [by rewrite orb_true_r|by rewrite orb_false_r].
    - destruct (clear_ibit (level p) id H4 Hr) as (w & l & E1 & E2 & Hl & Hb). exists w, l. do 3 (split; [done|]). intros x Hx. rewrite Hb by done. destruct (x =? id); [by rewrite andb_false_r|by rewrite andb_true_r]. }
  exists w, l. do 2 (split; [done|]). split; [|done]. split; [|by destruct Hd]. split; [done|done|done| |done|done].
  split; [done|]. intros x Hx. simpl. rewrite Hb by lia. destruct (Z.eqb_spec x id) as [->|]; [done|by apply H4'].
Qed.

Lemma set_interrupt_level_spec p mips id lvl : in_order p mips -> 0 < id < num_ids p ->
  exists p1 p' mips', set_interrupt_level p mips id lvl = Some (p', mips') /\ in_order p' mips' /\
    (exists l, p1 = set_level p l /\ forall x, 0 <= x -> ibit l x = if x =? id then nz lvl else ibit (level p) x) /\
    ((p' = p1 /\ mips' = mips /\ forall j c, contexts p !! j = Some c -> s_enabled (view c id) = false) \/
     exists j c c', contexts p !! j = Some c /\ s_enabled (view c id) = true /\
       (forall i ci, (i < j)%nat -> contexts p !! i = Some ci -> s_enabled (view ci id) = false) /\
       p' = put_context p1 j c' /\ changed (at_id id (levelled lvl (nth (Z.to_nat id) (priority p) 0))) c c').
Proof.
  intros Ho Hid. pose proof Ho as [Hp _]. pose proof (wf_ids p Hp). unfold set_interrupt_level. destruct (Z.leb_spec id 0), (Z.leb_spec (num_ids p) id); try lia. cbn [orb].
  destruct (priority_at p id Hp ltac:(lia)) as [Er Hpr]. rewrite Er. cbn [mbind option_bind].
  destruct (set_level_order p mips id lvl Ho Hid) as (w & l & E1 & E2 & Ho1 & Hb). rewrite E1. cbn [mbind option_bind]. rewrite E2. cbn [mbind option_bind].
  destruct (level_loop_spec id lvl _ ltac:(lia) Hpr (length (contexts p)) (set_level p l) mips 0 Ho1 ltac:(apply Hid) eq_refl) as (p' & mips' & E & Ho' & Hcase).
  exists (set_level p l), p', mips'. split; [done|]. split; [done|]. split; [by exists l|].
  destruct Hcase as [(-> & -> & Hno)|(j & cj & c' & Hj & Hcj & Hen & Hno & -> & Hch)]; [left|right].
  - do 2 (split; [done|]). intros j c Hc. apply (Hno j); [lia|done].
  - exists j, cj, c'. do 2 (split; [done|]). split; [|done]. intros i ci Hi Hci. apply (Hno i); [lia|done].
Qed.

(** ** Loads and stores of words *)

Lemma words_count p : plic_wf p -> 1 <= num_ids_word p <= 32.
Proof.
  intros Hp. rewrite (wf_words p Hp). pose proof (wf_ids p Hp). split; [apply Z.div_le_lower_bound; lia|]. apply Z.lt_succ_r. apply Z.div_lt_upper_bound; lia.
Qed.

Lemma offset_id offset : 0 <= offset < 2 ^ 32 -> u32 (offset .>> 2) = offset / 4 /\ 0 <= offset / 4 < 2 ^ 30.
Proof.
  intros Ho. rewrite shiftr_div by lia. change (2 ^ 2) with 4. assert (0 <= offset / 4 < 2 ^ 30) by (split; [apply Z.div_pos; lia|apply Z.div_lt_upper_bound; lia]).
  split; [apply uwrap_small; lia|done].
Qed.

Lemma priority_read_ok p offset : plic_wf p -> 0 <= offset < 2 ^ 32 -> is_Some (priority_read p offset).
Proof.
  intros Hp Ho. destruct (offset_id offset Ho) as [E Hr]. unfold priority_read. rewrite E. destruct (Z.ltb_spec 0 (offset / 4)), (Z.ltb_spec (offset / 4) (num_ids p)); try by eexists.
  pose proof (wf_ids p Hp). destruct (priority_at p (offset / 4) Hp ltac:(lia)) as [-> _]. by eexists.
Qed.

Lemma pending_or_ok cs id_word : Forall arrays cs -> 0 <= id_word < 32 -> forall val, is_Some (pending_or cs id_word val).
Proof.
  intros Hcs Hw. induction Hcs as [|c cs Hc Hcs IH]; intros val; [by eexists|]. simpl. destruct (words_rd _ id_word (arr_pending c Hc) Hw) as [-> _]. apply IH.
Qed.

Lemma all_arrays p : plic_wf p -> Forall arrays (contexts p).
Proof. intros Hp. apply (Forall_impl _ _ _ (wf_contexts p Hp)). by intros c [Hc _]. Qed.

Lemma pending_read_ok p offset : plic_wf p -> 0 <= offset < 2 ^ 32 -> is_Some (pending_read p offset).
Proof.
  intros Hp Ho. destruct (offset_id offset Ho) as [E Hr]. unfold pending_read. rewrite E. destruct (Z.ltb_spec (offset / 4) (num_ids_word p)); [|by eexists].
  pose proof (words_count p Hp). apply pending_or_ok; [by apply all_arrays|lia].
Qed.

Lemma enable_read_ok p k c offset : plic_wf p -> contexts p !! k = Some c -> 0 <= offset < 2 ^ 32 -> is_Some (context_enable_read p c offset).
Proof.
  intros Hp Hc Ho. destruct (offset_id offset Ho) as [E Hr]. unfold context_enable_read. rewrite E. destruct (Z.ltb_spec (offset / 4) (num_ids_word p)); [|by eexists].
  pose proof (words_count p Hp). destruct (words_rd _ (offset / 4) (arr_enable c (arrays_at p k c Hp Hc)) ltac:(lia)) as [-> _]. by eexists.
Qed.

Lemma rest_of a b n : 0 < n -> a - ((a - b) / n * n + b) = (a - b) mod n.
Proof. intros Hn. pose proof (Z.div_mod (a - b) n ltac:(lia)). lia. Qed.

Lemma load_word_ok p mips addr : in_order p mips -> 0 <= addr -> exists v p' mips', load_word p mips addr = Some (v, p', mips') /\ in_order p' mips'.
Proof.
  intros Ho Ha. pose proof Ho as [Hp _]. unfold load_word. unfold PENDING_BASE, ENABLE_BASE, CONTEXT_BASE, REG_SIZE, ENABLE_PER_HART, CONTEXT_PER_HART.
  destruct (Z.ltb_spec addr 4096); [destruct (priority_read_ok p addr Hp ltac:(lia)) as [v ->]; by eexists _, p, mips|].
  destruct (Z.ltb_spec addr 8192); [destruct (pending_read_ok p (addr - 4096) Hp ltac:(lia)) as [v ->]; by eexists _, p, mips|].
  rewrite !rest_of by lia. destruct (Z.ltb_spec addr 2097152).
  - destruct (contexts p !! _) as [c|] eqn:Hc; [|by eexists _, p, mips]. pose proof (Z.mod_pos_bound (addr - 8192) 128 ltac:(lia)).
    destruct (enable_read_ok p _ c ((addr - 8192) mod 128) Hp Hc ltac:(lia)) as [v ->]. by eexists _, p, mips.
  - destruct (Z.ltb_spec addr 16777216); [|by eexists _, p, mips]. destruct (contexts p !! _) as [c|] eqn:Hc; [|by eexists _, p, mips].
    destruct (context_read_spec p mips _ c ((addr - 2097152) mod 4096) Ho Hc) as (v & p' & mips' & -> & Ho'). by eexists _, p', mips'.
Qed.

Lemma priority_write_ok p mips offset val : in_order p mips -> 0 <= offset < 2 ^ 32 -> 0 <= val -> exists p', priority_write p offset val = Some p' /\ in_order p' mips.
Proof.
  intros [Hp Hd] Ho Hv. destruct (offset_id offset Ho) as [E Hr]. unfold priority_write. rewrite E. pose proof (wf_ids p Hp). destruct (wf_prio p Hp) as (P1 & P2 & P3).
  destruct (Z.ltb_spec 0 (offset / 4)), (Z.ltb_spec (offset / 4) (num_ids p)); cbn [andb]; try by exists p.
  rewrite wr_insert by lia. cbn [mbind option_bind]. eexists. split; [done|]. split; [|by destruct Hd].
  destruct Hp as [H1' H2 H3 H4 H5 H6]. split; try done. split; [done|]. simpl. rewrite length_insert. split; [done|]. apply Forall_insert; [done|].
  rewrite (land_mod val _ 4) by done. pose proof (Z.mod_pos_bound val (2 ^ 4) ltac:(lia)). lia.
Qed.

Lemma store_word_ok p mips addr val : in_order p mips -> 0 <= addr -> 0 <= val < 2 ^ 32 -> exists b p' mips', store_word p mips addr val = Some (b, p', mips') /\ in_order p' mips'.
Proof.
  intros Ho Ha Hv. unfold store_word. unfold ENABLE_BASE, CONTEXT_BASE, REG_SIZE, ENABLE_PER_HART, CONTEXT_PER_HART.
  destruct (Z.ltb_spec addr 8192); [destruct (priority_write_ok p mips addr val Ho ltac:(lia) ltac:(lia)) as (p' & -> & Ho'); by eexists _, p', mips|].
  rewrite !rest_of by lia. destruct (Z.ltb_spec addr 2097152).
  - destruct (contexts p !! _) as [c|] eqn:Hc; [|by eexists _, p, mips]. pose proof (Z.mod_pos_bound (addr - 8192) 128 ltac:(lia)).
    destruct (context_enable_write_spec p mips _ c ((addr - 8192) mod 128) val Ho Hc ltac:(lia) Hv) as (p' & mips' & -> & Ho' & _). by eexists _, p', mips'.
  - destruct (Z.ltb_spec addr 16777216); [|by eexists _, p, mips]. destruct (contexts p !! _) as [c|] eqn:Hc; [|by eexists _, p, mips].
    destruct (context_write_spec p mips _ c ((addr - 2097152) mod 4096) val Ho Hc ltac:(lia)) as (b & p' & mips' & -> & Ho'). by eexists _, p', mips'.
Qed.

(** ** Bytes *)

Lemma byte_shift a : 0 <= 8 * (a mod 4) <= 24.
Proof. pose proof (Z.mod_pos_bound a 4 ltac:(lia)). lia. Qed.

(** One byte put in its place. *)
Lemma put_byte_bits word sh b i : 0 <= sh <= 24 -> 0 <= b < 256 -> 0 <= i < 32 ->
  Z.testbit ((word .& u32 (Z.lnot (0xff .<< sh))) .| (b .<< sh)) i = if (sh <=? i) && (i <? sh + 8) then Z.testbit b (i - sh) else Z.testbit word i.
Proof.
  intros Hs Hb Hi. rewrite Z.lor_spec, Z.land_spec, !Z.shiftl_spec by lia. unfold uwrap. rewrite Z.mod_pow2_bits_low, Z.lnot_spec, Z.shiftl_spec by lia.
  change 255 with (Z.ones 8). destruct (Z.leb_spec sh i); cbn [andb].
  - destruct (Z.ltb_spec i (sh + 8)).
    + rewrite Z.ones_spec_low by lia. by rewrite andb_false_r.
    + rewrite Z.ones_spec_high by lia. rewrite andb_true_r. rewrite <- (Z.mod_small b (2 ^ 8)) by lia. rewrite Z.mod_pow2_bits_high by lia. apply orb_false_r.
  - rewrite !(Z.testbit_neg_r _ (i - sh)) by lia. by rewrite andb_true_r, orb_false_r.
Qed.

Lemma put_byte_range word sh b : 0 <= word < 2 ^ 32 -> 0 <= sh <= 24 -> 0 <= b < 256 -> 0 <= (word .& u32 (Z.lnot (0xff .<< sh))) .| (b .<< sh) < 2 ^ 32.
Proof.
  intros Hw Hs Hb. pose proof (uwrap_range 32 (Z.lnot (0xff .<< sh)) ltac:(lia)) as Hm. pose proof (land_le_r word _ (proj1 Hm)) as Hl.
  assert (0 <= b .<< sh < 2 ^ 32) as Hsh.
  { rewrite shiftl_mul by lia. pose proof (pow2_pos sh ltac:(lia)). pose proof (pow2_le sh 24 ltac:(lia)). nia. }
  split; [apply Z.lor_nonneg; lia|]. destruct (Z.eq_dec ((word .& u32 (Z.lnot (0xff .<< sh))) .| (b .<< sh)) 0) as [->|]; [lia|].
  assert (0 <= (word .& u32 (Z.lnot (0xff .<< sh))) .| (b .<< sh)) by (apply Z.lor_nonneg; lia). apply Z.log2_lt_pow2; [lia|]. rewrite Z.log2_lor by lia. apply Z.max_lub_lt.
  - destruct (Z.eq_dec (word .& u32 (Z.lnot (0xff .<< sh))) 0) as [->|]; [done|apply Z.log2_lt_pow2; lia].
  - destruct (Z.eq_dec (b .<< sh) 0) as [->|]; [done|apply Z.log2_lt_pow2; lia].
Qed.

Lemma write_le_range bytes : forall word addr, 0 <= word < 2 ^ 32 -> Forall (fun b => 0 <= b < 256) bytes -> 0 <= write_little_endian_reg 4 word addr bytes < 2 ^ 32.
Proof.
  induction bytes as [|b bytes IH]; intros word addr Hw Hf; [done|]. inversion Hf as [|? ? Hb Hf']; subst. simpl. apply IH; [|done].
  change (8 * 4) with 32. apply put_byte_range; [done|apply byte_shift|done].
Qed.

Lemma le_roundtrip v addr : 0 <= v < 2 ^ 32 -> addr mod 4 = 0 -> 0 <= addr -> addr + 3 < 2 ^ 64 -> write_little_endian_reg 4 0 addr (read_little_endian_reg 4 4 v addr) = v.
Proof.
  intros Hv Hm Ha Hr. cbn [read_little_endian_reg write_little_endian_reg]. rewrite (uwrap_small 64 (addr + 1)) by lia. rewrite (uwrap_small 64 (addr + 1 + 1)) by lia. rewrite (uwrap_small 64 (addr + 1 + 1 + 1)) by lia.
  assert ((addr + 1) mod 4 = 1 /\ (addr + 1 + 1) mod 4 = 2 /\ (addr + 1 + 1 + 1) mod 4 = 3) as (-> & -> & ->) by (pose proof (Z.div_mod addr 4 ltac:(lia)); repeat split; symmetry; [apply (Z.mod_unique _ _ (addr / 4))|apply (Z.mod_unique _ _ (addr / 4))|apply (Z.mod_unique _ _ (addr / 4))]; lia).
  rewrite Hm. change (8 * 0) with 0. change (8 * 1) with 8. change (8 * 2) with 16. change (8 * 3) with 24. change (8 * 4) with 32.
  assert (forall sh, 0 <= (v .>> sh) mod 256 < 256) as Hb by (intros sh; apply Z.mod_pos_bound; lia).
  match goal with |- ?w = v => assert (0 <= w < 2 ^ 32) as Hw by (repeat apply put_byte_range; first [lia|apply Hb]) end.
  assert (forall x, 0 <= x < 2 ^ 32 -> forall i, 32 <= i -> Z.testbit x i = false) as Hhigh.
  { intros x Hx i Hi. rewrite <- (Z.mod_small x (2 ^ 32)) by done. apply Z.mod_pow2_bits_high. lia. }
  apply Z.bits_inj'. intros i Hi. destruct (Z.lt_ge_cases i 32) as [Hlt|Hge]; [|by rewrite (Hhigh _ Hw i Hge), (Hhigh v Hv i Hge)]. clear Hw.
  assert (forall sh, 0 <= sh -> sh <= i < sh + 8 -> Z.testbit ((v .>> sh) mod 256) (i - sh) = Z.testbit v i) as Hbyte.
  { intros sh Hs Hi'. change 256 with (2 ^ 8). rewrite Z.mod_pow2_bits_low, Z.shiftr_spec by lia. f_equal. lia. }
  rewrite !put_byte_bits by (first [lia|apply Hb]).
  destruct (Z.leb_spec 24 i), (Z.ltb_spec i (24 + 8)); cbn [andb]; try lia; [by apply Hbyte|].
  destruct (Z.leb_spec 16 i), (Z.ltb_spec i (16 + 8)); cbn [andb]; try lia; [by apply Hbyte|].
  destruct (Z.leb_spec 8 i), (Z.ltb_spec i (8 + 8)); cbn [andb]; try lia; [by apply Hbyte|].
  destruct (Z.leb_spec 0 i), (Z.ltb_spec i (0 + 8)); cbn [andb]; try lia. by apply Hbyte.
Qed.

(** ** Any sequence of operations *)

Lemma plic_load_ok p mips addr len : in_order p mips -> 0 <= addr < 2 ^ 64 -> exists v p' mips', plic_load p mips addr len = Some (v, p', mips') /\ in_order p' mips'.
Proof.
  intros Ho Ha. unfold plic_load. destruct (len =? 4).
  - destruct (load_word_ok p mips addr Ho ltac:(lia)) as (v & p' & mips' & -> & Ho'). by eexists _, p', mips'.
  - destruct (len =? 8); [|by eexists _, p, mips]. destruct (load_word_ok p mips addr Ho ltac:(lia)) as ([v|] & p' & mips' & -> & Ho'); cbn [mbind option_bind fmap option_fmap option_map]; [|by eexists _, p', mips'].
    pose proof (uwrap_range 64 (addr + 4) ltac:(lia)). destruct (load_word_ok p' mips' (u64 (addr + 4)) Ho' ltac:(lia)) as (v2 & p2 & mips2 & -> & Ho2). by eexists _, p2, mips2.
Qed.

Lemma plic_store_ok p mips addr bytes : in_order p mips -> 0 <= addr < 2 ^ 64 -> Forall (fun b => 0 <= b < 256) bytes ->
  exists v p' mips', plic_store p mips addr bytes = Some (v, p', mips') /\ in_order p' mips'.
Proof.
  intros Ho Ha Hb. unfold plic_store. destruct (length bytes =? 4)%nat.
  - apply store_word_ok; [done|lia|]. by apply write_le_range.
  - destruct (length bytes =? 8)%nat; [|by eexists _, p, mips].
    destruct (store_word_ok p mips addr (write_little_endian_reg 4 0 addr (take 4 bytes)) Ho ltac:(lia)) as ([|] & p' & mips' & -> & Ho'); [by apply write_le_range; [lia|apply Forall_take]| |by eexists _, p', mips'].
    cbn [mbind option_bind]. pose proof (uwrap_range 64 (addr + 4) ltac:(lia)). apply store_word_ok; [done|lia|]. by apply write_le_range; [lia|apply Forall_drop].
Qed.

Lemma plic_step_ok p mips o : in_order p mips -> op_ok o -> exists p' mips', plic_step p mips o = Some (p', mips') /\ in_order p' mips'.
Proof.
  intros Ho Hop. destruct o as [addr len|addr bytes|id lvl]; simpl in *.
  - destruct (plic_load_ok p mips addr len Ho Hop) as (v & p' & mips' & -> & Ho'). by exists p', mips'.
  - destruct Hop as [Ha Hb]. destruct (plic_store_ok p mips addr bytes Ho Ha Hb) as (v & p' & mips' & -> & Ho'). by exists p', mips'.
  - destruct (Z.lt_ge_cases 0 id) as [H0|H0], (Z.lt_ge_cases id (num_ids p)) as [Hn|Hn].
    + destruct (set_interrupt_level_spec p mips id lvl Ho (conj H0 Hn)) as (p1 & p' & mips' & E & Ho' & _). by exists p', mips'.
    + exists p, mips. unfold set_interrupt_level. destruct (Z.leb_spec (num_ids p) id); [|lia]. by rewrite orb_true_r.
    + exists p, mips. unfold set_interrupt_level. by destruct (Z.leb_spec id 0); [|lia].
    + exists p, mips. unfold set_interrupt_level. by destruct (Z.leb_spec id 0); [|lia].
Qed.

Lemma plic_run_step p mips o os : plic_run p mips (o :: os) = (s ← plic_step p mips o; plic_run s.1 s.2 os).
Proof. unfold plic_run. simpl. destruct (plic_step p mips o) as [[p' mips']|]; [done|]. simpl. induction os as [|o' os IH]; [done|exact IH]. Qed.

Lemma plic_run_ok os : forall p mips, in_order p mips -> Forall op_ok os -> exists p' mips', plic_run p mips os = Some (p', mips') /\ in_order p' mips'.
Proof.
  induction os as [|o os IH]; intros p mips Ho Hf; [by exists p, mips|]. inversion Hf as [|? ? H1 H2]; subst. rewrite plic_run_step.
  destruct (plic_step_ok p mips o Ho H1) as (p' & mips' & -> & Ho'). cbn [mbind option_bind fst snd]. by apply IH.
Qed.

(** ** A new controller *)

Lemma words_zero : words (replicate 32 0).
Proof. split; [done|]. apply Forall_replicate. lia. Qed.

Lemma ibit_zero n id : ibit (replicate n 0) id = false.
Proof.
  unfold ibit. rewrite nth_lookup. destruct (replicate n 0 !! _) as [v|] eqn:E; simpl; [|apply Z.bits_0]. apply lookup_replicate in E as [-> _]. apply Z.bits_0.
Qed.

Lemma context_new_wf n k m : context_wf n (context_new k m).
Proof.
  split; [split; try apply words_zero; done|]. intros id Hid. unfold view. cbn [enable pending claimed pending_priority context_new]. rewrite !ibit_zero.
  assert (nth (Z.to_nat id) (replicate 1024 0) 0 = 0) as ->.
  { rewrite nth_lookup. destruct (replicate 1024 0 !! _) as [v|] eqn:E; [|done]. by apply lookup_replicate in E as [-> _]. }
  unfold source_ok. simpl. repeat split; done || lia.
Qed.

Lemma new_contexts harts c : c ∈ contexts (plic_new harts 0) -> exists k, c = context_new k (mmode c) /\ proc c = k /\ (k < length harts)%nat.
Proof.
  unfold plic_new. cbn [contexts]. intros Hc. apply list_elem_of_In, in_concat in Hc as (l & Hl & Hc). apply list_elem_of_In, list_elem_of_lookup in Hl as [k Hk].
  rewrite list_lookup_imap in Hk. destruct (harts !! k) as [s|] eqn:Es; [|done]. injection Hk as <-. apply lookup_lt_Some in Es. exists k.
  destruct Hc as [<-|Hc]; [done|]. destruct s; [|done]. by destruct Hc as [<-|[]].
Qed.

Lemma new_distinct harts : forall k, NoDup (map (fun c => (proc c, mmode c)) (concat (imap (fun i s => context_new (k + i) true :: if (s : bool) then [context_new (k + i) false] else []) harts))) /\
  forall c, c ∈ concat (imap (fun i s => context_new (k + i) true :: if (s : bool) then [context_new (k + i) false] else []) harts) -> (k <= proc c)%nat.
Proof.
  induction harts as [|s harts IH]; intros k; [split; [constructor|by intros c ?%not_elem_of_nil]|]. rewrite imap_cons. cbn [concat]. rewrite Nat.add_0_r.
  assert (imap ((fun (i : nat) (s : bool) => context_new (k + i) true :: if s then [context_new (k + i) false] else []) ∘ S) harts =
          imap (fun (i : nat) (s : bool) => context_new (S k + i) true :: if s then [context_new (S k + i) false] else []) harts) as ->.
  { apply imap_ext. intros i x _. simpl. by rewrite Nat.add_succ_r. }
  destruct (IH (S k)) as [Hd Hr]. set (rest := concat _) in *.
  assert (forall m, (k, m) ∉ map (fun c => (proc c, mmode c)) rest) as Hn.
  { intros m Hm. apply list_elem_of_In, in_map_iff in Hm as (c & E & Hc). apply list_elem_of_In in Hc. apply Hr in Hc. injection E as E _. lia. }
  split.
  - destruct s; cbn [app map proc mmode context_new]; rewrite ?NoDup_cons, ?elem_of_cons; repeat split; try apply Hn; try done. intros [?|?%Hn]; done.
  - intros c Hc. apply elem_of_app in Hc as [Hc|Hc]; [|apply Hr in Hc; lia]. destruct s; repeat (apply elem_of_cons in Hc as [->|Hc]; [done|]); by apply not_elem_of_nil in Hc.
Qed.

(** The lines of external interrupts are low. *)
Definition quiet (mips : list Z) : Prop := forall k, mip_bit mips k 9 = false /\ mip_bit mips k 11 = false.

Lemma plic_new_order harts ndev mips : 0 <= ndev < 1024 -> Forall (fun m => 0 <= m < 2 ^ 64) mips -> (length harts <= length mips)%nat -> quiet mips ->
  in_order (plic_new harts ndev) mips.
Proof.
  intros Hn Hm Hl Hq. assert (num_ids (plic_new harts ndev) = ndev + 1) as En by (apply (uwrap_small 32); lia). split.
  - split; rewrite ?En; [lia| | | | |].
    + unfold plic_new. cbn [num_ids_word]. rewrite (uwrap_small 32 (ndev + 1)) by lia. rewrite (uwrap_small 32) by lia. f_equal; lia.
    + split; [done|]. split; [done|]. apply Forall_replicate. lia.
    + split; [apply words_zero|]. intros id Hid. change (level (plic_new harts ndev)) with (replicate 32 0). by rewrite ibit_zero.
    + apply Forall_forall. intros c Hc. destruct (new_contexts harts c Hc) as (k & -> & _). apply context_new_wf.
    + apply (new_distinct harts 0).
  - split; [done| |].
    + apply Forall_forall. intros c Hc. destruct (new_contexts harts c Hc) as (k & _ & -> & Hk). lia.
    + intros c Hc b Hb. destruct (new_contexts harts c Hc) as (k & E & _). assert (b = 0) as ->.
      { destruct Hb as [[-> _]|[(_ & Hp & _) _]]; [done|]. rewrite E in Hp. unfold view in Hp. cbn [s_pending pending context_new] in Hp. by rewrite ibit_zero in Hp. }
      unfold line. destruct (mmode c); apply Hq.
Qed.

(** C24: From a new controller whose sources fit its arrays, every sequence of loads,
    stores and level changes runs to its end within the arrays; then what is claimed
    is pending and what is pending is an enabled source, and every context drives its
    interrupt line exactly when it has a pending interrupt that is not claimed. *)
Theorem plic_in_order harts ndev mips os : 0 <= ndev < 1024 -> Forall (fun m => 0 <= m < 2 ^ 64) mips -> (length harts <= length mips)%nat -> quiet mips -> Forall op_ok os ->
  exists p' mips', plic_run (plic_new harts ndev) mips os = Some (p', mips') /\ plic_wf p' /\ driven p' mips'.
Proof.
  intros Hn Hm Hl Hq Ho. destruct (plic_run_ok os _ _ (plic_new_order harts ndev mips Hn Hm Hl Hq) Ho) as (p' & mips' & E & H1 & H2). by exists p', mips'.
Qed.

Lemma plic_in_order_witness : exists p' mips',
  plic_run (plic_new [true] 31) [0] [Store 0x4 [7; 0; 0; 0]; Store 0x2000 [2; 0; 0; 0]; Level 1 1; Load 0x200004 4] = Some (p', mips') /\ driven p' mips' /\ mips' = [0].
Proof.
  destruct (plic_in_order [true] 31 [0] [Store 0x4 [7; 0; 0; 0]; Store 0x2000 [2; 0; 0; 0]; Level 1 1; Load 0x200004 4]) as (p' & mips' & E & _ & H).
  - lia.
  - by repeat constructor.
  - simpl; lia.
  - intros [|[|k]]; by vm_compute.
  - repeat constructor; lia.
  - exists p', mips'. split; [exact E|]. split; [exact H|]. clear H. vm_compute in E. congruence.
Defined.

(** ** Claim and completion *)

Lemma words_ext a b : words a -> words b -> (forall id, 0 <= id < 1024 -> ibit a id = ibit b id) -> a = b.
Proof.
  intros [La Fa] [Lb Fb] He. apply (nth_ext _ _ 0 0); [congruence|]. intros n Hn. rewrite La in Hn.
  assert (forall l, words l -> 0 <= nth n l 0 < 2 ^ 32) as Hr.
  { intros l Hl. destruct (words_rd l (Z.of_nat n) Hl ltac:(lia)) as [_ H]. by rewrite Nat2Z.id in H. }
  pose proof (Hr a (conj La Fa)) as Ha. pose proof (Hr b (conj Lb Fb)) as Hb. rewrite <- (Z.mod_small (nth n a 0) (2 ^ 32)), <- (Z.mod_small (nth n b 0) (2 ^ 32)) by done.
  apply Z.bits_inj'. intros i Hi. destruct (Z.lt_ge_cases i 32); [|by rewrite !Z.mod_pow2_bits_high by lia]. rewrite !Z.mod_pow2_bits_low by lia.
  specialize (He (32 * Z.of_nat n + i) ltac:(lia)). unfold ibit in He.
  assert ((32 * Z.of_nat n + i) / 32 = Z.of_nat n /\ (32 * Z.of_nat n + i) mod 32 = i) as [E1 E2].
  { split; [symmetry; apply (Z.div_unique _ _ _ i); lia|symmetry; apply (Z.mod_unique _ _ (Z.of_nat n)); lia]. }
  by rewrite E1, E2, Nat2Z.id in He.
Qed.

Lemma context_ext c c' : arrays c -> arrays c' -> proc c = proc c' -> mmode c = mmode c' -> priority_threshold c = priority_threshold c' ->
  (forall id, 0 <= id < 1024 -> view c id = view c' id) -> c = c'.
Proof.
  intros [A1 A2 A3 A4] [B1 B2 B3 B4] E1 E2 E3 Hv. destruct c as [k m t e pe pr cl], c' as [k' m' t' e' pe' pr' cl']. simpl in *. subst.
  assert (e = e') as -> by (apply words_ext; [done|done|]; intros id Hid; specialize (Hv id Hid); unfold view in Hv; simpl in Hv; congruence).
  assert (pe = pe') as -> by (apply words_ext; [done|done|]; intros id Hid; specialize (Hv id Hid); unfold view in Hv; simpl in Hv; congruence).
  assert (cl = cl') as -> by (apply words_ext; [done|done|]; intros id Hid; specialize (Hv id Hid); unfold view in Hv; simpl in Hv; congruence).
  assert (pr = pr') as ->; [|done]. apply (nth_ext _ _ 0 0); [congruence|]. intros n Hn. specialize (Hv (Z.of_nat n) ltac:(lia)). unfold view in Hv. simpl in Hv. rewrite Nat2Z.id in Hv. congruence.
Qed.

(** The claim register of the context [k]. *)
Definition claim_register (k : nat) : Z := CONTEXT_BASE + Z.of_nat k * CONTEXT_PER_HART + CONTEXT_CLAIM.

Lemma claim_address k : (k < 3584)%nat -> let addr := claim_register k in
  CONTEXT_BASE <= addr < REG_SIZE /\ (addr - CONTEXT_BASE) / CONTEXT_PER_HART = Z.of_nat k /\ (addr - CONTEXT_BASE) mod CONTEXT_PER_HART = CONTEXT_CLAIM /\ addr mod 4 = 0.
Proof.
  intros Hk. unfold claim_register, CONTEXT_BASE, CONTEXT_PER_HART, CONTEXT_CLAIM, REG_SIZE. cbn zeta. split; [lia|].
  replace (2097152 + Z.of_nat k * 4096 + 4 - 2097152) with (Z.of_nat k * 4096 + 4) by lia. split; [|split].
  - symmetry. apply (Z.div_unique _ _ _ 4); lia.
  - symmetry. apply (Z.mod_unique _ _ (Z.of_nat k)); lia.
  - symmetry. apply (Z.mod_unique _ _ (524288 + Z.of_nat k * 1024 + 1)); lia.
Qed.

Lemma load_claim p mips k c : (k < 3584)%nat -> contexts p !! k = Some c ->
  load_word p mips (claim_register k) = (r ← context_claim p mips k; let '(v, p, mips) := r in Some (Some v, p, mips)).
Proof.
  intros Hk Hc. destruct (claim_address k Hk) as ([H1 H2] & H3 & H4 & _). unfold load_word. cbn zeta. rewrite (rest_of (claim_register k) CONTEXT_BASE CONTEXT_PER_HART), H3, H4, Nat2Z.id, Hc by done.
  unfold PENDING_BASE, ENABLE_BASE, CONTEXT_BASE, REG_SIZE in *. destruct (Z.ltb_spec (claim_register k) 4096), (Z.ltb_spec (claim_register k) 8192), (Z.ltb_spec (claim_register k) 2097152), (Z.ltb_spec (claim_register k) 16777216); try lia.
  unfold context_read. by rewrite Hc.
Qed.

Lemma store_claim p mips k c val : (k < 3584)%nat -> contexts p !! k = Some c -> store_word p mips (claim_register k) val = context_write p mips k CONTEXT_CLAIM val.
Proof.
  intros Hk Hc. destruct (claim_address k Hk) as ([H1 H2] & H3 & H4 & _). unfold store_word. cbn zeta. rewrite (rest_of (claim_register k) CONTEXT_BASE CONTEXT_PER_HART), H3, H4, Nat2Z.id, Hc by done.
  unfold ENABLE_BASE, CONTEXT_BASE, REG_SIZE in *. destruct (Z.ltb_spec (claim_register k) 8192), (Z.ltb_spec (claim_register k) 2097152), (Z.ltb_spec (claim_register k) 16777216); try lia. done.
Qed.

Lemma put_put p k c c' : contexts p !! k = Some c -> put_context (put_context p k c') k c = p.
Proof. intros Hc. unfold put_context. cbn [contexts set_contexts]. rewrite list_insert_insert_eq, (list_insert_id _ _ _ Hc). destruct p. reflexivity. Qed.

Lemma claim_twice s : s_claimed s = false -> claim false (claim true s) = s.
Proof. destruct s. simpl. by intros ->. Qed.

(** C33: Loading the claim register of a context gives its best pending interrupt, of
    the highest priority and the first among equals, and only marks it as claimed;
    storing back the bytes completes it and restores the controller, and the lines
    follow both times. *)
Theorem claim_complete p mips k c b : plic_wf p -> driven p mips -> contexts p !! k = Some c -> (k < 3584)%nat -> is_best p c b -> b <> 0 ->
  let bytes := read_little_endian_reg 4 4 b (claim_register k) in
  exists c1 mips1 mips2,
    plic_load p mips (claim_register k) 4 = Some (Some bytes, put_context p k c1, mips1) /\ changed (at_id b (claim true)) c c1 /\
    plic_wf (put_context p k c1) /\ driven (put_context p k c1) mips1 /\
    plic_store (put_context p k c1) mips1 (claim_register k) bytes = Some (true, p, mips2) /\ driven p mips2.
Proof.
  intros Hp Hd Hc Hk Hb Hne. cbn zeta. destruct (context_claim_spec p mips k c (conj Hp Hd) Hc) as (b' & c1 & mips1 & E & Hb' & Hch & Ho1).
  assert (b' = b) as -> by by apply (is_best_unique p c). unfold claimed_by in Hch. destruct (Z.eqb_spec b 0); [done|].
  destruct (is_best_range p c b ltac:(apply Hp) Hb) as [Hr Hel]. destruct (Hel Hne) as ([Hb0 Hbn] & Hpend & _).
  destruct (source_at p k c b Hp Hc Hr) as (_ & Hen & _). destruct (Hen Hpend) as [Hen' _]. destruct (claim_address k Hk) as ([Ha1 Ha2] & _ & _ & Hm).
  assert (contexts (put_context p k c1) !! k = Some c1) as Hc1 by (apply list_lookup_insert_eq; by eapply lookup_lt_Some).
  assert (ibit (enable c1) b = true) as Hen1.
  { change (s_enabled (view c1 b) = true). rewrite (chg_view _ _ _ Hch b Hr). unfold at_id. by rewrite Z.eqb_refl. }
  destruct (context_complete_spec (put_context p k c1) mips1 k c1 b Ho1 Hc1 ltac:(lia)) as (p' & mips2 & E2 & [Hp2 Hd2] & Hcase).
  rewrite bool_decide_true, Hen1 in Hcase by done. destruct Hcase as (c2 & -> & Hch2).
  assert (c2 = c) as ->.
  { apply context_ext; [apply Hch2|by apply (arrays_at p k)|rewrite (chg_proc _ _ _ Hch2); apply Hch|rewrite (chg_mmode _ _ _ Hch2); apply Hch|rewrite (chg_threshold _ _ _ Hch2); apply Hch|].
    intros id Hid. rewrite (chg_view _ _ _ Hch2 id Hid), (chg_view _ _ _ Hch id Hid). unfold at_id. destruct (Z.eqb_spec id b) as [->|]; [|done].
    apply claim_twice. by apply Hel. }
  rewrite (put_put p k c c1 Hc) in *.
  exists c1, mips1, mips2. split; [|split; [done|split; [apply Ho1|split; [apply Ho1|split; [|done]]]]].
  - unfold plic_load. cbn [Z.eqb Pos.eqb]. rewrite (load_claim p mips k c Hk Hc), E. done.
  - unfold plic_store. cbn [length read_little_endian_reg Nat.eqb]. fold (read_little_endian_reg 4 4 b (claim_register k)).
    unfold CONTEXT_BASE, REG_SIZE in *. rewrite <- E2, <- (store_claim _ mips1 k c1 b Hk Hc1). f_equal. apply (le_roundtrip b (claim_register k)); lia.
Qed.

(** Source 1 pending in the first context. *)
Definition demo_plic : plic_t * list Z :=
  default (plic_new [true] 31, [0]) (plic_run (plic_new [true] 31) [0] [Store 0x4 [7; 0; 0; 0]; Store 0x2000 [2; 0; 0; 0]; Level 1 1]).

Lemma demo_plic_order : in_order demo_plic.1 demo_plic.2.
Proof.
  destruct (plic_run_ok [Store 0x4 [7; 0; 0; 0]; Store 0x2000 [2; 0; 0; 0]; Level 1 1] (plic_new [true] 31) [0]) as (p & mips & E & Ho).
  - apply plic_new_order; [lia|by repeat constructor|simpl; lia|]. by intros [|[|k]]; vm_compute.
  - repeat constructor; lia.
  - unfold demo_plic. by rewrite E.
Qed.

Lemma claim_complete_witness : exists c c1 mips1, contexts demo_plic.1 !! 0%nat = Some c /\
  plic_load demo_plic.1 demo_plic.2 0x200004 4 = Some (Some [1; 0; 0; 0], put_context demo_plic.1 0 c1, mips1) /\ s_claimed (view c1 1) = true.
Proof.
  pose proof demo_plic_order as [Hp Hd]. destruct (contexts demo_plic.1 !! 0%nat) as [c|] eqn:Hc; [|by vm_compute in Hc].
  assert (is_best demo_plic.1 c 1) as Hb.
  { destruct (context_best_pending_spec demo_plic.1 c (wf_ids _ Hp) (wf_words _ Hp) (arrays_at _ _ _ Hp Hc)) as (b & Eb & Hb).
    vm_compute in Hc. injection Hc as <-. vm_compute in Eb. by injection Eb as <-. }
  destruct (claim_complete demo_plic.1 demo_plic.2 0 c 1 Hp Hd Hc ltac:(lia) Hb ltac:(lia)) as (c1 & mips1 & mips2 & E1 & Hch & _).
  exists c, c1, mips1. split; [done|]. split; [exact E1|]. rewrite (chg_view _ _ _ Hch 1) by lia. done.
Defined.

(** ** Levels *)

(** A level change of a source reaches the first context that enables it, if any:
    there a high level makes it pending with its present priority, a low one withdraws
    it with its claim. Every other context keeps what it holds. *)
Theorem level_reaches_first p mips id lvl : plic_wf p -> driven p mips -> 0 < id < num_ids p ->
  exists l p' mips', set_interrupt_level p mips id lvl = Some (p', mips') /\ plic_wf p' /\ driven p' mips' /\
    (forall x, 0 <= x -> ibit l x = if x =? id then nz lvl else ibit (level p) x) /\
    ((p' = set_level p l /\ mips' = mips /\ forall j c, contexts p !! j = Some c -> s_enabled (view c id) = false) \/
     exists j c c', contexts p !! j = Some c /\ s_enabled (view c id) = true /\
       (forall i ci, (i < j)%nat -> contexts p !! i = Some ci -> s_enabled (view ci id) = false) /\
       p' = put_context (set_level p l) j c' /\ changed (at_id id (levelled lvl (nth (Z.to_nat id) (priority p) 0))) c c').
Proof.
  intros Hp Hd Hid. destruct (set_interrupt_level_spec p mips id lvl (conj Hp Hd) Hid) as (p1 & p' & mips' & E & [Ho1 Ho2] & (l & -> & Hl) & Hcase).
  exists l, p', mips'. by repeat (split; [done|]).
Qed.

Lemma level_reaches_first_witness : exists l p' mips',
  set_interrupt_level demo_plic.1 demo_plic.2 1 0 = Some (p', mips') /\ driven p' mips' /\ ibit l 1 = false.
Proof.
  pose proof demo_plic_order as [Hp Hd].
  destruct (level_reaches_first demo_plic.1 demo_plic.2 1 0 Hp Hd) as (l & p' & mips' & E & _ & Hd' & Hl & _); [by vm_compute|].
  exists l, p', mips'. split; [exact E|]. split; [exact Hd'|]. by rewrite (Hl 1).
Defined.

(** Two contexts of one processor enable source 1 while its level is high; when the
    level falls only the first context is told, and the supervisor line stays high. *)
Definition stale_trace : list plic_op :=
  [Store 0x4 [1; 0; 0; 0]; Store 0x2000 [2; 0; 0; 0]; Level 1 1; Store 0x2080 [2; 0; 0; 0]; Level 1 0].

Example stale_line : exists p mips, plic_run (plic_new [true] 31) [0] stale_trace = Some (p, mips) /\ ibit (level p) 1 = false /\ mip_bit mips 0 11 = false /\ mip_bit mips 0 9 = true.
Proof.
  destruct (plic_run (plic_new [true] 31) [0] stale_trace) as [[p mips]|] eqn:E; [|by vm_compute in E].
  exists p, mips. split; [done|]. vm_compute in E. injection E as <- <-. by vm_compute.
Qed.
