(* ===== verification/Clint.v ===== *)
(** * Spike: the timers of the harts

    Model of [src/riscv-isa-sim/riscv/clint.cc] and [clint_t] in [devices.h], with
    what it reaches of a processor ([csrs.cc]): the time register, the pending
    interrupts and the comparators of the supervisor and of its guest.

    The host's clock is a parameter: the seconds and microseconds of its successive
    readings.  [None] is a failed assertion.

    The timer interrupts follow the comparators whatever is loaded, stored and ticked;
    the registers are what was stored in them. *)

From stdpp Require Import base option list gmap.
From S2P Require Import Prelude.
From S2P Require Import Plic.

Definition MIP_MSIP : Z := 1 .<< 3.
Definition MIP_STIP : Z := 1 .<< 5.
Definition MIP_VSTIP : Z := 1 .<< 6.
Definition MIP_MTIP : Z := 1 .<< 7.

(** ** The timers of a hart *)

Record timer_t : Type := Timer {
  t_mip : Z;
  shadow_val : Z;
  t_v : bool;
  htimedelta : Z;
  stimecmp : Z;
  vstimecmp : Z;
  ext_sstc : bool
}.

Definition set_mip (h : timer_t) (mip : Z) : timer_t :=
  Timer mip (shadow_val h) (t_v h) (htimedelta h) (stimecmp h) (vstimecmp h) (ext_sstc h).
Definition set_shadow (h : timer_t) (val : Z) : timer_t :=
  Timer (t_mip h) val (t_v h) (htimedelta h) (stimecmp h) (vstimecmp h) (ext_sstc h).

(** [mip_csr_t::backdoor_write_with_mask] on the register of a hart. *)
Definition wiggle (h : timer_t) (mask val : Z) : timer_t := set_mip h (backdoor_write_with_mask (t_mip h) mask val).

(** [time_counter_csr_t::read] and [sync]. *)
Definition time_read (h : timer_t) : Z := if t_v h then u64 (shadow_val h + htimedelta h) else shadow_val h.

Definition time_sync (h : timer_t) (val : Z) : timer_t :=
  let h := set_shadow h val in
  if ext_sstc h then
    let mip_val := (if stimecmp h <=? shadow_val h then MIP_STIP else 0)
                   .| (if vstimecmp h <=? u64 (shadow_val h + htimedelta h) then MIP_VSTIP else 0) in
    wiggle h (MIP_STIP .| MIP_VSTIP) mip_val
  else h.

(** [stimecmp_csr_t::unlogged_write] of the two comparators. *)
Definition stimecmp_write (h : timer_t) (val : Z) : timer_t :=
  let h := wiggle h MIP_STIP (if val <=? time_read h then MIP_STIP else 0) in
  Timer (t_mip h) (shadow_val h) (t_v h) (htimedelta h) val (vstimecmp h) (ext_sstc h).

Definition vstimecmp_write (h : timer_t) (val : Z) : timer_t :=
  let h := wiggle h MIP_VSTIP (if val <=? time_read h then MIP_VSTIP else 0) in
  Timer (t_mip h) (shadow_val h) (t_v h) (htimedelta h) (stimecmp h) val (ext_sstc h).

(** The register [stimecmp] by its address: a guest reaches its own. *)
Definition virtualized_stimecmp_write (h : timer_t) (val : Z) : timer_t :=
  if t_v h then vstimecmp_write h val else stimecmp_write h val.

Definition htimedelta_write (h : timer_t) (val : Z) : timer_t :=
  Timer (t_mip h) (shadow_val h) (t_v h) val (stimecmp h) (vstimecmp h) (ext_sstc h).

(** ** The device *)

Definition MSIP_BASE : Z := 0.
Definition MTIMECMP_BASE : Z := 0x4000.
Definition MTIME_BASE : Z := 0xbff8.
Definition CLINT_SIZE : Z := 0x000c0000.

Record clint_t : Type := Clint_t {
  freq_hz : Z;
  real_time : bool;
  real_time_ref_secs : Z;
  real_time_ref_usecs : Z;
  mtime : Z;
  mtimecmp : gmap Z Z
}.

(** The device, the harts by their identity, and how often the clock was read. *)
Record platform : Type := Platform { clint : clint_t; harts : list (Z * timer_t); readings : nat }.

Definition set_mtime (c : clint_t) (t : Z) : clint_t :=
  Clint_t (freq_hz c) (real_time c) (real_time_ref_secs c) (real_time_ref_usecs c) t (mtimecmp c).
Definition set_mtimecmp (c : clint_t) (m : gmap Z Z) : clint_t :=
  Clint_t (freq_hz c) (real_time c) (real_time_ref_secs c) (real_time_ref_usecs c) (mtime c) m.

Fixpoint hart_at (hs : list (Z * timer_t)) (id : Z) : option timer_t :=
  match hs with
  | [] => None
  | (i, h) :: hs => if i =? id then Some h else hart_at hs id
  end.

Fixpoint on_hart (f : timer_t -> timer_t) (hs : list (Z * timer_t)) (id : Z) : list (Z * timer_t) :=
  match hs with
  | [] => []
  | (i, h) :: hs => if i =? id then (i, f h) :: hs else (i, h) :: on_hart f hs id
  end.

(** The comparator of a hart that has none yet becomes 0. *)
Definition comparator (m : gmap Z Z) (id : Z) : Z := default 0 (m !! id).

(** The loop of [clint_t::tick]. *)
Fixpoint tick_harts (now : Z) (m : gmap Z Z) (hs : list (Z * timer_t)) : gmap Z Z * list (Z * timer_t) :=
  match hs with
  | [] => (m, [])
  | (id, h) :: hs =>
      let h := time_sync h now in
      let cmp := comparator m id in
      let h := wiggle h MIP_MTIP (if cmp <=? now then MIP_MTIP else 0) in
      let r := tick_harts now (<[id := cmp]> m) hs in
      (r.1, (id, h) :: r.2)
  end.

Section Clint.
Context (gettimeofday : nat -> Z * Z).

(** [mtime] from the host's clock. *)
Definition elapsed_ticks (c : clint_t) (now : Z * Z) : Z :=
  let diff_usecs := u64 (u64 (u64 (now.1 - real_time_ref_secs c) * 1000000) + u64 (now.2 - real_time_ref_usecs c)) in
  u64 (diff_usecs * freq_hz c) / 1000000.

Definition clint_tick (w : platform) (rtc_ticks : Z) : platform :=
  let c := clint w in
  let c := set_mtime c (if real_time c then elapsed_ticks c (gettimeofday (readings w)) else u64 (mtime c + rtc_ticks)) in
  let r := tick_harts (mtime c) (mtimecmp c) (harts w) in
  Platform (set_mtimecmp c r.1) r.2 (if real_time c then S (readings w) else readings w).

Definition clint_new (hs : list (Z * timer_t)) (freq : Z) (real : bool) (k : nat) : platform :=
  let base := gettimeofday k in
  clint_tick (Platform (Clint_t freq real (u64 base.1) (u64 base.2) 0 ∅) hs (S k)) 0.

(** The registers of [len] bytes or less, after the tick. *)
Definition load_reg (w : platform) (addr len : Z) : option (option (list Z)) :=
  let n := Z.to_nat len in
  if (MSIP_BASE <=? addr) && (addr <? MTIMECMP_BASE) then
    let res := match hart_at (harts w) ((addr - MSIP_BASE) / 4) with Some h => b2z (nz (t_mip h .& MIP_MSIP)) | None => 0 end in
    if len <=? 4 then Some (Some (read_little_endian_reg n 4 res addr)) else None
  else if (MTIMECMP_BASE <=? addr) && (addr <? MTIME_BASE) then
    let id := (addr - MTIMECMP_BASE) / 8 in
    let res := match hart_at (harts w) id with Some _ => comparator (mtimecmp (clint w)) id | None => 0 end in
    Some (Some (read_little_endian_reg n 8 res addr))
  else if (MTIME_BASE <=? addr) && (addr <? MTIME_BASE + 8) then
    Some (Some (read_little_endian_reg n 8 (mtime (clint w)) addr))
  else if u64 (addr + len) <=? CLINT_SIZE then Some (Some (replicate n 0))
  else Some None.

(** [clint_t::load]; double words below the comparators are two words. *)
Definition clint_load (w : platform) (addr len : Z) : option (option (list Z) * platform) :=
  if 8 <? len then Some (None, w) else
  let w := clint_tick w 0 in
  if (MSIP_BASE <=? addr) && (addr <? MTIMECMP_BASE) && (len =? 8) then
    let w := clint_tick w 0 in
    match load_reg w addr 4 with
    | None => None
    | Some None => Some (None, w)
    | Some (Some b1) =>
        let w := clint_tick w 0 in
        match load_reg w (u64 (addr + 4)) 4 with
        | None => None
        | Some r => Some (app b1 <$> r, w)
        end
    end
  else match load_reg w addr len with None => None | Some r => Some (r, w) end.

(** What a store of [len] bytes or less does before the tick, [None] in the pair when
    it is refused. *)
Definition store_reg (w : platform) (addr : Z) (bytes : list Z) : option (option platform) :=
  let len := Z.of_nat (length bytes) in
  let c := clint w in
  if (MSIP_BASE <=? addr) && (addr <? MTIMECMP_BASE) then
    if addr mod 4 =? 0 then
      if len <=? 4 then
        let msip := write_little_endian_reg 4 0 addr bytes in
        let id := (addr - MSIP_BASE) / 4 in
        Some (Some (Platform c (on_hart (fun h => wiggle h MIP_MSIP (if nz (msip .& 1) then MIP_MSIP else 0)) (harts w) id) (readings w)))
      else None
    else Some (Some w)
  else if (MTIMECMP_BASE <=? addr) && (addr <? MTIME_BASE) then
    let id := (addr - MTIMECMP_BASE) / 8 in
    match hart_at (harts w) id with
    | Some _ =>
        let cmp := write_little_endian_reg 8 (comparator (mtimecmp c) id) addr bytes in
        Some (Some (Platform (set_mtimecmp c (<[id := cmp]> (mtimecmp c))) (harts w) (readings w)))
    | None => Some (Some w)
    end
  else if (MTIME_BASE <=? addr) && (addr <? MTIME_BASE + 8) then
    Some (Some (Platform (set_mtime c (write_little_endian_reg 8 (mtime c) addr bytes)) (harts w) (readings w)))
  else if u64 (addr + len) <=? CLINT_SIZE then Some (Some w)
  else Some None.

(** A store of a register with its tick. *)
Definition store_tick (w : platform) (addr : Z) (bytes : list Z) : option (bool * platform) :=
  r ← store_reg w addr bytes;
  Some (match r with Some w => (true, clint_tick w 0) | None => (false, w) end).

(** [clint_t::store] *)
Definition clint_store (w : platform) (addr : Z) (bytes : list Z) : option (bool * platform) :=
  if 8 <? Z.of_nat (length bytes) then Some (false, w) else
  if (MSIP_BASE <=? addr) && (addr <? MTIMECMP_BASE) && (Z.of_nat (length bytes) =? 8) then
    r ← store_tick w addr (take 4 bytes);
    if (r.1 : bool) then store_tick r.2 (u64 (addr + 4)) (drop 4 bytes) else Some r
  else store_tick w addr bytes.

(** ** What can happen to the timers *)

Inductive clint_op : Type :=
  | OpLoad (addr len : Z)
  | OpStore (addr : Z) (bytes : list Z)
  | OpTick (rtc_ticks : Z)
  | OpStimecmp (id val : Z)
  | OpVstimecmp (id val : Z)
  | OpHtimedelta (id val : Z)
  | OpVirtual (id : Z) (v : bool).

Definition hart_op (w : platform) (f : timer_t -> timer_t) (id : Z) : option platform :=
  Some (Platform (clint w) (on_hart f (harts w) id) (readings w)).

Definition clint_step (w : platform) (o : clint_op) : option platform :=
  match o with
  | OpLoad addr len => snd <$> clint_load w addr len
  | OpStore addr bytes => snd <$> clint_store w addr bytes
  | OpTick rtc_ticks => Some (clint_tick w rtc_ticks)
  | OpStimecmp id val => hart_op w (fun h => virtualized_stimecmp_write h val) id
  | OpVstimecmp id val => hart_op w (fun h => vstimecmp_write h val) id
  | OpHtimedelta id val => hart_op w (fun h => htimedelta_write h val) id
  | OpVirtual id v => hart_op w (fun h => Timer (t_mip h) (shadow_val h) v (htimedelta h) (stimecmp h) (vstimecmp h) (ext_sstc h)) id
  end.

Fixpoint clint_run (w : platform) (ops : list clint_op) : option platform :=
  match ops with
  | [] => Some w
  | o :: ops => w ← clint_step w o; clint_run w ops
  end.
End Clint.

(** ** Pending bits *)

Lemma wiggle_bit h mask val i : 0 <= i < 64 ->
  Z.testbit (t_mip (wiggle h mask val)) i = if Z.testbit mask i then Z.testbit val i else Z.testbit (t_mip h) i.
Proof.
  intros Hi. unfold wiggle, backdoor_write_with_mask, uwrap. simpl.
  rewrite Z.lor_spec, !Z.land_spec, Z.mod_pow2_bits_low, Z.lnot_spec by lia.
  destruct (Z.testbit mask i), (Z.testbit (t_mip h) i), (Z.testbit val i); done.
Qed.

(** A pending bit set where [b] holds. *)
Lemma pending_bit b k i : 0 <= k -> Z.testbit (if (b : bool) then 1 .<< k else 0) i = b && (i =? k).
Proof.
  intros Hk. destruct b; [|by rewrite Z.bits_0]. rewrite Z.shiftl_1_l. destruct (Z.eqb_spec i k) as [->|]; [by apply Z.pow2_bits_true|].
  apply Z.pow2_bits_false. congruence.
Qed.

Lemma place_bit k i : 0 <= k -> Z.testbit (1 .<< k) i = (i =? k).
Proof. intros Hk. apply (pending_bit true k i Hk). Qed.

(** The bits of [mip] after a synchronisation. *)
Lemma sync_bit h now i : 0 <= i < 64 ->
  Z.testbit (t_mip (time_sync h now)) i =
  if ext_sstc h && (i =? 5) then stimecmp h <=? now
  else if ext_sstc h && (i =? 6) then vstimecmp h <=? u64 (now + htimedelta h)
  else Z.testbit (t_mip h) i.
Proof.
  intros Hi. unfold time_sync. cbn [ext_sstc set_shadow]. destruct (ext_sstc h); [|done].
  rewrite wiggle_bit, !Z.lor_spec by done. unfold MIP_STIP, MIP_VSTIP. rewrite !place_bit, !pending_bit by lia. simpl.
  destruct (Z.eqb_spec i 5), (Z.eqb_spec i 6); cbn; try lia; rewrite ?andb_true_r, ?andb_false_r, ?orb_false_r; done.
Qed.

Lemma sync_frame h now : shadow_val (time_sync h now) = now /\ t_v (time_sync h now) = t_v h /\ htimedelta (time_sync h now) = htimedelta h /\
  stimecmp (time_sync h now) = stimecmp h /\ vstimecmp (time_sync h now) = vstimecmp h /\ ext_sstc (time_sync h now) = ext_sstc h.
Proof. unfold time_sync, set_shadow. simpl. by destruct (ext_sstc h). Qed.

(** ** Order *)

(** The pending bits of a hart with the time [now] and the comparator [cmp]. *)
Record machine_order (now cmp : Z) (h : timer_t) : Prop := {
  ord_time : shadow_val h = now;
  ord_mtip : Z.testbit (t_mip h) 7 = (cmp <=? now);
  ord_stip : ext_sstc h = true -> Z.testbit (t_mip h) 5 = (stimecmp h <=? now)
}.

Definition guest_order (now : Z) (h : timer_t) : Prop :=
  ext_sstc h = true -> Z.testbit (t_mip h) 6 = (vstimecmp h <=? u64 (now + htimedelta h)).

Definition in_order (w : platform) : Prop :=
  NoDup (map fst (harts w)) /\ Forall (fun p => machine_order (mtime (clint w)) (comparator (mtimecmp (clint w)) p.1) p.2) (harts w).

Definition guests_in_order (w : platform) : Prop := Forall (fun p => guest_order (mtime (clint w)) p.2) (harts w).

(** What a tick leaves of a hart: everything but its time and its timer bits. *)
Definition ticked (h h' : timer_t) : Prop :=
  t_v h' = t_v h /\ htimedelta h' = htimedelta h /\ stimecmp h' = stimecmp h /\ vstimecmp h' = vstimecmp h /\ ext_sstc h' = ext_sstc h /\
  forall i, 0 <= i < 64 -> i ∉ [5; 6; 7] -> Z.testbit (t_mip h') i = Z.testbit (t_mip h) i.

Lemma comparator_default m id j : comparator (<[id := comparator m id]> m) j = comparator m j.
Proof. unfold comparator at 1 3. destruct (decide (id = j)) as [->|]; [by rewrite lookup_insert_eq|by rewrite lookup_insert_ne]. Qed.

Lemma tick_harts_spec now hs : forall m, (forall id, comparator (tick_harts now m hs).1 id = comparator m id) /\
  Forall2 (fun p q => p.1 = q.1 /\ ticked p.2 q.2 /\ machine_order now (comparator m q.1) q.2 /\ guest_order now q.2) hs (tick_harts now m hs).2.
Proof.
  induction hs as [|[id h] hs IH]; intros m; [by split|]. destruct (IH (<[id := comparator m id]> m)) as [Hc Hf]. cbn [tick_harts]. split.
  - intros j. simpl. by rewrite Hc, comparator_default.
  - constructor; cbn [fst snd]; [|refine (Forall2_impl _ _ _ _ Hf _); intros p q; by rewrite comparator_default].
    destruct (sync_frame h now) as (Ht & Hv & Hd & Hs & Hg & He). split; [done|].
    assert (forall i, 0 <= i < 64 -> Z.testbit (t_mip (wiggle (time_sync h now) MIP_MTIP (if comparator m id <=? now then MIP_MTIP else 0))) i =
      if i =? 7 then comparator m id <=? now else Z.testbit (t_mip (time_sync h now)) i) as Hbit.
    { intros i Hi. rewrite wiggle_bit by done. unfold MIP_MTIP. rewrite place_bit, pending_bit by lia. destruct (i =? 7); [by rewrite andb_true_r|done]. }
    split; [|split].
    + unfold ticked. cbn. repeat split; try done. intros i Hi Hn. rewrite !elem_of_cons in Hn. rewrite Hbit, sync_bit by done.
      destruct (Z.eqb_spec i 7); [tauto|]. destruct (Z.eqb_spec i 5); [tauto|]. destruct (Z.eqb_spec i 6); [tauto|]. by rewrite !andb_false_r.
    + constructor; cbn [wiggle set_mip shadow_val stimecmp ext_sstc]; [done| |]; [by rewrite Hbit by lia|].
      intros Hsstc. rewrite He in Hsstc. rewrite Hbit, sync_bit, Hsstc, Hs by lia. done.
    + intros Hsstc. cbn [wiggle set_mip ext_sstc vstimecmp htimedelta] in *. rewrite He in Hsstc. by rewrite Hbit, sync_bit, Hsstc, Hg, Hd by lia.
Qed.

Section Clock.
Context (gettimeofday : nat -> Z * Z).

Lemma tick_same_harts w rtc : map fst (harts (clint_tick gettimeofday w rtc)) = map fst (harts w).
Proof.
  unfold clint_tick. simpl. set (now := mtime _). set (m := mtimecmp _). generalize m. induction (harts w) as [|[id h] hs IH]; intros m'; [done|].
  simpl. f_equal. apply IH.
Qed.

Lemma tick_in_order w rtc : NoDup (map fst (harts w)) ->
  in_order (clint_tick gettimeofday w rtc) /\ guests_in_order (clint_tick gettimeofday w rtc) /\
  Forall2 (fun p q => p.1 = q.1 /\ ticked p.2 q.2) (harts w) (harts (clint_tick gettimeofday w rtc)) /\
  forall id, comparator (mtimecmp (clint (clint_tick gettimeofday w rtc))) id = comparator (mtimecmp (clint w)) id.
Proof.
  intros Hn. pose proof (tick_same_harts w rtc) as Hsame. revert Hsame. unfold in_order, guests_in_order, clint_tick. cbn [clint harts].
  set (c := set_mtime _ _). destruct (tick_harts_spec (mtime c) (harts w) (mtimecmp (clint w))) as [Hc Hf]. intros Hsame.
  change (mtime (set_mtimecmp c _)) with (mtime c). change (mtimecmp (set_mtimecmp c ?m)) with m. change (mtimecmp c) with (mtimecmp (clint w)) in *.
  split; [split; [by rewrite Hsame|]|split; [|split; [|done]]].
  - eapply Forall2_Forall_r; [exact Hf|]. apply List.Forall_forall. intros p _ q (_ & _ & Ho & _). by rewrite Hc.
  - eapply Forall2_Forall_r; [exact Hf|]. apply List.Forall_forall. intros p _ q (_ & _ & _ & Ho). done.
  - refine (Forall2_impl _ _ _ _ Hf _). intros p q (? & ? & _). done.
Qed.

(** ** Operations *)

Definition natural (n : Z) : Prop := n = 1 \/ n = 2 \/ n = 4 \/ n = 8.

Definition op_natural (o : clint_op) : Prop :=
  match o with OpLoad _ len => natural len | OpStore _ bytes => natural (Z.of_nat (length bytes)) | _ => True end.

Lemma load_reg_total w addr len : natural len -> (len <= 4 \/ ~ 0 <= addr < MTIMECMP_BASE) -> exists r, load_reg w addr len = Some r.
Proof.
  intros Hn Hl. unfold load_reg, MSIP_BASE in *. destruct (Z.leb_spec 0 addr), (Z.ltb_spec addr MTIMECMP_BASE); cbn [andb]; try (destruct (Z.leb_spec len 4); [eauto|lia]);
    repeat case_match; eauto.
Qed.

Lemma load_in_order w addr len : natural len -> in_order w -> exists r w', clint_load gettimeofday w addr len = Some (r, w') /\ in_order w'.
Proof.
  intros Hn Ho. unfold clint_load. destruct (Z.ltb_spec 8 len); [unfold natural in Hn; lia|].
  destruct (tick_in_order w 0 (proj1 Ho)) as (H1 & _). destruct (tick_in_order _ 0 (proj1 H1)) as (H2 & _). destruct (tick_in_order _ 0 (proj1 H2)) as (H3 & _).
  destruct (_ && (len =? 8)) eqn:E.
  - assert (natural 4) as N4 by (right; right; left; done).
    destruct (load_reg_total (clint_tick gettimeofday (clint_tick gettimeofday w 0) 0) addr 4 N4 ltac:(lia)) as [[b1|] ->]; [|by eauto].
    destruct (load_reg_total (clint_tick gettimeofday (clint_tick gettimeofday (clint_tick gettimeofday w 0) 0) 0) (u64 (addr + 4)) 4 N4 ltac:(lia)) as [r ->]. by eauto.
  - destruct (load_reg_total (clint_tick gettimeofday w 0) addr len Hn) as [r ->]; [|by eauto].
    destruct (Z.eq_dec len 8) as [->|]; [|unfold natural in Hn; lia]. right. intros [Ha Hb]. unfold MSIP_BASE in E.
    by rewrite (proj2 (Z.leb_le _ _) Ha), (proj2 (Z.ltb_lt _ _) Hb) in E.
Qed.

Lemma on_hart_keys f hs id : map fst (on_hart f hs id) = map fst hs.
Proof. induction hs as [|[i h] hs IH]; [done|]. simpl. case_match; simpl; [done|by rewrite IH]. Qed.

Lemma store_reg_keys w addr bytes w' : store_reg w addr bytes = Some (Some w') -> map fst (harts w') = map fst (harts w).
Proof. unfold store_reg. repeat case_match; intros [= <-]; first [done|apply on_hart_keys]. Qed.

Lemma store_tick_in_order w addr bytes : natural (Z.of_nat (length bytes)) -> (Z.of_nat (length bytes) <= 4 \/ ~ 0 <= addr < MTIMECMP_BASE) -> in_order w ->
  exists b w', store_tick gettimeofday w addr bytes = Some (b, w') /\ in_order w'.
Proof.
  intros Hn Hl Ho. unfold store_tick.
  assert (exists r, store_reg w addr bytes = Some r) as [r Hr].
  { unfold store_reg, MSIP_BASE in *. destruct (Z.leb_spec 0 addr), (Z.ltb_spec addr MTIMECMP_BASE); cbn [andb];
      try (destruct (addr mod 4 =? 0); [|by eauto]; destruct (Z.leb_spec (Z.of_nat (length bytes)) 4); [eauto|lia]); repeat case_match; eauto. }
  rewrite Hr. cbn. destruct r as [w'|]; [|by eauto]. eexists _, _. split; [done|]. apply tick_in_order. rewrite (store_reg_keys _ _ _ _ Hr). apply Ho.
Qed.

Lemma store_in_order w addr bytes : natural (Z.of_nat (length bytes)) -> in_order w -> exists b w', clint_store gettimeofday w addr bytes = Some (b, w') /\ in_order w'.
Proof.
  intros Hn Ho. unfold clint_store. destruct (Z.ltb_spec 8 (Z.of_nat (length bytes))); [unfold natural in Hn; lia|].
  destruct (_ && (Z.of_nat (length bytes) =? 8)) eqn:E.
  - apply andb_true_iff in E as [_ E8]. apply Z.eqb_eq in E8.
    assert (Z.of_nat (length (take 4 bytes)) = 4 /\ Z.of_nat (length (drop 4 bytes)) = 4) as [L1 L2] by (rewrite length_take, length_drop; lia).
    destruct (store_tick_in_order w addr (take 4 bytes)) as (b & w' & -> & Ho'); [rewrite L1; right; right; left; done|lia|done|]. cbn.
    destruct b; [|by eauto]. apply store_tick_in_order; [rewrite L2; right; right; left; done|lia|done].
  - apply store_tick_in_order; [done| |done]. destruct (Z.eq_dec (Z.of_nat (length bytes)) 8) as [E8|]; [|unfold natural in Hn; lia].
    right. intros [Ha Hb]. unfold MSIP_BASE in E. by rewrite (proj2 (Z.leb_le _ _) Ha), (proj2 (Z.ltb_lt _ _) Hb), E8 in E.
Qed.

(** A change of one hart that keeps its order. *)
Lemma hart_op_in_order w f id : (forall now cmp h, machine_order now cmp h -> machine_order now cmp (f h)) -> in_order w ->
  exists w', hart_op w f id = Some w' /\ in_order w'.
Proof.
  intros Hf [Hn Ho]. eexists. split; [done|]. split; cbn [harts clint]; [by rewrite on_hart_keys|]. clear Hn.
  induction Ho as [|[i h] hs H Ho IH]; [constructor|]. cbn [on_hart]. destruct (i =? id); constructor; try done. simpl in *. auto.
Qed.

Lemma comparator_write_bit h mask k (b : bool) : mask = 1 .<< k -> 0 <= k < 64 -> forall i, 0 <= i < 64 ->
  Z.testbit (t_mip (wiggle h mask (if b then mask else 0))) i = if i =? k then b else Z.testbit (t_mip h) i.
Proof.
  intros -> Hk i Hi. rewrite wiggle_bit, place_bit, pending_bit by lia. destruct (i =? k); [by rewrite andb_true_r|done].
Qed.

Lemma vstimecmp_write_order now cmp h val : machine_order now cmp h -> machine_order now cmp (vstimecmp_write h val).
Proof.
  intros [Ht Hm Hs]. unfold vstimecmp_write. constructor; cbn [shadow_val ext_sstc stimecmp t_mip]; [done| |];
    rewrite (comparator_write_bit h MIP_VSTIP 6) by (done || lia); done.
Qed.

Lemma stimecmp_write_order now cmp h val : t_v h = false -> machine_order now cmp h -> machine_order now cmp (stimecmp_write h val).
Proof.
  intros Hv [Ht Hm Hs]. unfold stimecmp_write, time_read. rewrite Hv. constructor; cbn [shadow_val ext_sstc stimecmp t_mip]; [done| |];
    rewrite (comparator_write_bit h MIP_STIP 5) by (done || lia); [done|]. intros _. by rewrite Ht.
Qed.

Lemma step_in_order w o : op_natural o -> in_order w -> exists w', clint_step gettimeofday w o = Some w' /\ in_order w'.
Proof.
  intros Hn Ho. destruct o as [addr len|addr bytes|rtc|id val|id val|id val|id v]; cbn [clint_step].
  - destruct (load_in_order w addr len Hn Ho) as (r & w' & -> & ?). by eauto.
  - destruct (store_in_order w addr bytes Hn Ho) as (r & w' & -> & ?). by eauto.
  - eexists. split; [done|]. apply tick_in_order, Ho.
  - apply hart_op_in_order; [|done]. intros now cmp h H. unfold virtualized_stimecmp_write. destruct (t_v h) eqn:E; [by apply vstimecmp_write_order|by apply stimecmp_write_order].
  - apply hart_op_in_order; [|done]. intros now cmp h H. by apply vstimecmp_write_order.
  - apply hart_op_in_order; [|done]. by intros now cmp h [].
  - apply hart_op_in_order; [|done]. by intros now cmp h [].
Qed.

Lemma run_in_order ops : forall w, Forall op_natural ops -> in_order w -> exists w', clint_run gettimeofday w ops = Some w' /\ in_order w'.
Proof.
  induction ops as [|o ops IH]; intros w Hn Ho; [by eauto|]. inversion Hn as [|? ? Hn1 Hn2]; subst.
  destruct (step_in_order w o Hn1 Ho) as (w1 & E & Ho1). cbn [clint_run]. rewrite E. by apply IH.
Qed.
End Clock.

(** ** Registers byte by byte *)

Definition put_byte (word k b : Z) : Z := (word .& u64 (Z.lnot (0xff .<< (8 * k)))) .| (b .<< (8 * k)).

Lemma put_byte_bit word k b i : 0 <= k < 8 -> 0 <= b < 256 -> 0 <= i < 64 ->
  Z.testbit (put_byte word k b) i = if i / 8 =? k then Z.testbit b (i - 8 * k) else Z.testbit word i.
Proof.
  intros Hk Hb Hi. unfold put_byte, uwrap. rewrite Z.lor_spec, Z.land_spec, Z.shiftl_spec, Z.mod_pow2_bits_low, Z.lnot_spec, Z.shiftl_spec by lia.
  change 255 with (Z.ones 8). destruct (Z.eqb_spec (i / 8) k) as [<-|Hne].
  - rewrite Z.ones_spec_low by (Z.div_mod_to_equations; lia). by rewrite andb_false_r.
  - destruct (Z.lt_ge_cases i (8 * k)).
    + rewrite !(Z.testbit_neg_r _ (i - 8 * k)) by lia. by rewrite andb_true_r, orb_false_r.
    + assert (8 <= i - 8 * k) by (Z.div_mod_to_equations; lia). rewrite Z.ones_spec_high by lia.
      rewrite <- (Z.mod_small b (2 ^ 8)) by lia. rewrite (Z.mod_pow2_bits_high b) by lia. by rewrite andb_true_r, orb_false_r.
Qed.

Lemma put_byte_read word k b j : 0 <= k < 8 -> 0 <= j < 8 -> 0 <= b < 256 ->
  (put_byte word k b .>> (8 * j)) mod 256 = if j =? k then b else (word .>> (8 * j)) mod 256.
Proof.
  intros Hk Hj Hb. change 256 with (2 ^ 8). apply Z.bits_inj'. intros i Hi. destruct (Z.lt_ge_cases i 8) as [Hlt|Hge].
  - rewrite Z.mod_pow2_bits_low, Z.shiftr_spec, put_byte_bit by lia.
    replace ((i + 8 * j) / 8) with j by (Z.div_mod_to_equations; lia).
    destruct (Z.eqb_spec j k) as [->|]; [f_equal; lia|]. by rewrite Z.mod_pow2_bits_low, Z.shiftr_spec by lia.
  - rewrite Z.mod_pow2_bits_high by lia. destruct (j =? k).
    + rewrite <- (Z.mod_small b (2 ^ 8)) by lia. by rewrite Z.mod_pow2_bits_high by lia.
    + by rewrite Z.mod_pow2_bits_high by lia.
Qed.

Section Aligned.
Context (base : Z) (Hb : base mod 8 = 0) (Hr : 0 <= base /\ base + 8 < 2 ^ 64).

Lemma offset_mod j : 0 <= j < 8 -> (base + j) mod 8 = j.
Proof. intros Hj. Z.div_mod_to_equations; lia. Qed.

Lemma read_aligned v : read_little_endian_reg 8 8 v base = map (fun j => (v .>> (8 * j)) mod 256) [0; 1; 2; 3; 4; 5; 6; 7].
Proof.
  assert (forall n j, 0 <= j -> j + Z.of_nat n <= 8 -> read_little_endian_reg n 8 v (u64 (base + j)) = map (fun i => (v .>> (8 * (j + Z.of_nat i))) mod 256) (seq 0 n)) as H.
  { induction n as [|n IH]; intros j Hj Hn; [done|]. cbn [read_little_endian_reg]. rewrite (uwrap_small 64 (base + j)) by lia.
    rewrite offset_mod by lia. replace (base + j + 1) with (base + (j + 1)) by lia. rewrite IH by lia. cbn [seq map]. f_equal; [by rewrite Z.add_0_r|].
    rewrite <- seq_shift, map_map. apply map_ext. intros i. do 3 f_equal. lia. }
  specialize (H 8%nat 0 ltac:(lia) ltac:(lia)). rewrite Z.add_0_r, uwrap_small in H by lia. rewrite H. done.
Qed.

Lemma read_put v k b : (k < 8)%nat -> 0 <= b < 256 ->
  read_little_endian_reg 8 8 (put_byte v (Z.of_nat k) b) base = <[k := b]> (read_little_endian_reg 8 8 v base).
Proof.
  intros Hk Hv. rewrite !read_aligned. do 8 (destruct k as [|k]; [cbn [map]; rewrite !put_byte_read by lia; done|]). lia.
Qed.

(** Bytes written into a register replace those that were there. *)
Lemma write_read l : forall v k, (k + length l <= 8)%nat -> Forall (fun b => 0 <= b < 256) l ->
  let old := read_little_endian_reg 8 8 v base in
  read_little_endian_reg 8 8 (write_little_endian_reg 8 v (base + Z.of_nat k) l) base = take k old ++ l ++ drop (k + length l) old.
Proof.
  induction l as [|b l IH]; intros v k Hk Hf; cbn zeta; [by rewrite Nat.add_0_r; simpl; rewrite take_drop|].
  inversion Hf as [|? ? Hb1 Hf']; subst. cbn [length] in *. cbn [write_little_endian_reg]. rewrite offset_mod by lia.
  change (uwrap (8 * 8)) with u64. fold (put_byte v (Z.of_nat k) b).
  rewrite uwrap_small by lia. replace (base + Z.of_nat k + 1) with (base + Z.of_nat (S k)) by lia. rewrite IH, read_put by (done || lia).
  set (old := read_little_endian_reg 8 8 v base). assert (length old = 8%nat) as Hl by (unfold old; by rewrite read_aligned).
  rewrite (take_S_r _ _ b) by (rewrite list_lookup_insert_eq; [done|lia]). rewrite take_insert_ge, drop_insert_lt by lia.
  rewrite <- app_assoc. simpl. by rewrite Nat.add_succ_r.
Qed.
End Aligned.

(** ** The theorems *)

Section Theorems.
Context (gettimeofday : nat -> Z * Z).

Lemma new_in_order hs freq real k : NoDup (map fst hs) -> in_order (clint_new gettimeofday hs freq real k).
Proof. intros Hn. by apply tick_in_order. Qed.

(** C25: Whatever is loaded, stored and ticked on a new timer device by accesses of one, two, four or eight bytes, and whatever
    the harts write to their comparators, no assertion fails, and every hart's time is the time of the device, its machine
    timer interrupt is pending exactly when its comparator is not after that time, and so is its supervisor timer interrupt.
    The next tick also puts the timer interrupts of guests in order and touches nothing else of any hart. *)
Theorem timers_in_order hs freq real k ops : NoDup (map fst hs) -> Forall op_natural ops ->
  exists w, clint_run gettimeofday (clint_new gettimeofday hs freq real k) ops = Some w /\ in_order w /\
    forall rtc, let w' := clint_tick gettimeofday w rtc in
      in_order w' /\ guests_in_order w' /\ Forall2 (fun p q => p.1 = q.1 /\ ticked p.2 q.2) (harts w) (harts w') /\
      (real_time (clint w) = false -> mtime (clint w') = u64 (mtime (clint w) + rtc)).
Proof.
  intros Hn Hops. destruct (run_in_order gettimeofday ops _ Hops (new_in_order hs freq real k Hn)) as (w & E & Ho).
  exists w. split; [done|]. split; [done|]. intros rtc w'. destruct (tick_in_order gettimeofday w rtc (proj1 Ho)) as (H1 & H2 & H3 & _).
  split; [done|]. split; [done|]. split; [done|]. intros Hreal. unfold w', clint_tick. simpl. by rewrite Hreal.
Qed.

(** ** Registers *)

Lemma hart_at_keys hs id : is_Some (hart_at hs id) <-> id ∈ map fst hs.
Proof.
  induction hs as [|[i h] hs IH]; simpl; [split; [by intros []|by intros ?%elem_of_nil]|]. rewrite elem_of_cons.
  destruct (Z.eqb_spec i id) as [->|Hne]; [by split; [left|eauto]|]. rewrite IH. split; [by right|by intros [->|]].
Qed.

Lemma tick_hart_at w rtc id : is_Some (hart_at (harts w) id) -> is_Some (hart_at (harts (clint_tick gettimeofday w rtc)) id).
Proof. rewrite !hart_at_keys. by rewrite tick_same_harts. Qed.

Lemma tick_comparators w rtc id : comparator (mtimecmp (clint (clint_tick gettimeofday w rtc))) id = comparator (mtimecmp (clint w)) id.
Proof. unfold clint_tick. simpl. apply (proj1 (tick_harts_spec _ _ _)). Qed.

(** The address of a comparator. *)
Definition comparator_at (id : Z) : Z := MTIMECMP_BASE + 8 * id.

Lemma in_comparators id j : 0 <= id < 4095 -> 0 <= j < 8 ->
  (MSIP_BASE <=? comparator_at id + j) && (comparator_at id + j <? MTIMECMP_BASE) = false /\
  (MTIMECMP_BASE <=? comparator_at id + j) && (comparator_at id + j <? MTIME_BASE) = true /\
  (comparator_at id + j - MTIMECMP_BASE) / 8 = id.
Proof.
  intros Hid Hj. unfold comparator_at, MSIP_BASE, MTIMECMP_BASE, MTIME_BASE. split; [|split].
  - apply andb_false_iff. right. apply Z.ltb_ge. lia.
  - apply andb_true_iff. split; [apply Z.leb_le|apply Z.ltb_lt]; lia.
  - Z.div_mod_to_equations; lia.
Qed.

Lemma load_comparator w id : 0 <= id < 4095 -> is_Some (hart_at (harts w) id) ->
  clint_load gettimeofday w (comparator_at id) 8 =
    Some (Some (read_little_endian_reg 8 8 (comparator (mtimecmp (clint w)) id) (comparator_at id)), clint_tick gettimeofday w 0).
Proof.
  intros Hid Hh. destruct (in_comparators id 0 Hid ltac:(lia)) as (E1 & E2 & E3). rewrite Z.add_0_r in *.
  unfold clint_load. change (8 <? 8) with false. cbn iota. rewrite E1. cbn [andb]. unfold load_reg. rewrite E1, E2, E3.
  destruct (tick_hart_at w 0 id Hh) as [h ->]. by rewrite tick_comparators.
Qed.

(** A store into a comparator, of any of its bytes, replaces these bytes of the comparator of this hart, and a load gives
    them back. *)
Theorem comparator_registers w id k bytes : 0 <= id < 4095 -> is_Some (hart_at (harts w) id) -> (k + length bytes <= 8)%nat -> bytes <> [] ->
  Forall (fun b => 0 <= b < 256) bytes ->
  exists w' old, clint_load gettimeofday w (comparator_at id) 8 = Some (Some old, clint_tick gettimeofday w 0) /\
    clint_store gettimeofday w (comparator_at id + Z.of_nat k) bytes = Some (true, w') /\
    clint_load gettimeofday w' (comparator_at id) 8 =
      Some (Some (take k old ++ bytes ++ drop (k + length bytes) old), clint_tick gettimeofday w' 0) /\
    forall j, j <> id -> comparator (mtimecmp (clint w')) j = comparator (mtimecmp (clint w)) j.
Proof.
  intros Hid Hh Hk Hne Hf. assert (0 < length bytes)%nat as Hlen by (destruct bytes; [done|simpl; lia]).
  destruct (in_comparators id (Z.of_nat k) Hid ltac:(lia)) as (E1 & E2 & E3).
  assert (clint_store gettimeofday w (comparator_at id + Z.of_nat k) bytes = store_tick gettimeofday w (comparator_at id + Z.of_nat k) bytes) as ->.
  { unfold clint_store. destruct (Z.ltb_spec 8 (Z.of_nat (length bytes))); [lia|]. by rewrite E1. }
  unfold store_tick, store_reg. rewrite E1, E2, E3. destruct Hh as [h Hh]. rewrite Hh. cbn.
  rewrite (load_comparator w id Hid ltac:(by eauto)). eexists _, _. split; [done|]. split; [done|].
  set (w1 := Platform _ _ _). rewrite load_comparator by (first [done|apply tick_hart_at; by exists h]). rewrite tick_comparators.
  split.
  - assert (comparator (mtimecmp (clint w1)) id = write_little_endian_reg 8 (comparator (mtimecmp (clint w)) id) (comparator_at id + Z.of_nat k) bytes) as ->
      by (unfold comparator at 1; simpl; by rewrite lookup_insert_eq).
    rewrite write_read; [done|unfold comparator_at, MTIMECMP_BASE; Z.div_mod_to_equations; lia|unfold comparator_at, MTIMECMP_BASE; lia|done|done].
  - intros j Hj. rewrite tick_comparators. unfold w1, comparator. cbn. by rewrite lookup_insert_ne.
Qed.

(** In real time the time of the device is the time passed on the host at the frequency of the device, while that product
    fits 64 bits. *)
Theorem real_time_ticks w rtc : real_time (clint w) = true ->
  let now := gettimeofday (readings w) in
  let passed := (now.1 - real_time_ref_secs (clint w)) * 1000000 + (now.2 - real_time_ref_usecs (clint w)) in
  0 <= freq_hz (clint w) -> 0 <= passed < 2 ^ 64 -> passed * freq_hz (clint w) < 2 ^ 64 ->
  mtime (clint (clint_tick gettimeofday w rtc)) = passed * freq_hz (clint w) / 1000000.
Proof.
  intros Hreal now passed Hf Hp Hm. unfold clint_tick. simpl. rewrite Hreal. unfold elapsed_ticks. fold now. cbn zeta.
  assert (u64 (u64 (u64 (now.1 - real_time_ref_secs (clint w)) * 1000000) + u64 (now.2 - real_time_ref_usecs (clint w))) = passed) as ->.
  { rewrite <- (uwrap_small 64 passed) by done. unfold uwrap, passed. rewrite Zplus_mod_idemp_l, Zplus_mod_idemp_r, <- Zplus_mod_idemp_l, Zmult_mod_idemp_l.
    by rewrite Zplus_mod_idemp_l. }
  by rewrite uwrap_small by nia.
Qed.
End Theorems.

(** ** A machine with two harts *)

Definition demo_timer : timer_t := Timer 0 0 false 0 (2 ^ 64 - 1) (2 ^ 64 - 1) true.
Definition demo_timers : list (Z * timer_t) := [(0, demo_timer); (1, demo_timer)].
(** A clock of ten days a reading. *)
Definition demo_clock (k : nat) : Z * Z := (1700000000 + 864000 * Z.of_nat k, 250000).

Definition demo_timer_ops : list clint_op :=
  [OpStore 0x4000 [100; 0; 0; 0; 0; 0; 0; 0]; OpStore 0x4008 [0; 1; 0; 0]; OpTick 99; OpLoad 0xbff8 8; OpStimecmp 1 50; OpTick 1].

Lemma timers_in_order_witness : NoDup (map fst demo_timers) /\ Forall op_natural demo_timer_ops /\
  exists w, clint_run demo_clock (clint_new demo_clock demo_timers 10000000 false 0) demo_timer_ops = Some w /\ in_order w /\
    map (fun p => t_mip p.2) (harts w) = [0x80; 0x20].
Proof.
  assert (NoDup (map fst demo_timers)) as Hn by (apply (bool_decide_unpack _); vm_compute; exact I).
  assert (Forall op_natural demo_timer_ops) as Hops by (unfold demo_timer_ops; repeat constructor; vm_compute; tauto).
  split; [exact Hn|]. split; [exact Hops|]. destruct (timers_in_order demo_clock demo_timers 10000000 false 0 demo_timer_ops Hn Hops) as (w & E & Ho & _).
  exists w. split; [exact E|]. split; [exact Ho|]. vm_compute in E. injection E as <-. reflexivity.
Defined.

(** A hypervisor that sets the comparator of its guest compares it with its own time: the interrupt of the guest is lost
    until the next tick. *)
Theorem guest_comparator_ignores_delta :
  let h := Timer 0 10 false 1000 (2 ^ 64 - 1) (2 ^ 64 - 1) true in
  Z.testbit (t_mip (vstimecmp_write h 500)) 6 = false /\ Z.testbit (t_mip (time_sync (vstimecmp_write h 500) 10)) 6 = true.
Proof. by split; vm_compute. Qed.

(** The second part of an access that crosses a page can have five bytes: the assertion on the size of a register fails. *)
Theorem odd_access_aborts : clint_load demo_clock (clint_new demo_clock demo_timers 10000000 false 0) 0x1000 5 = None.
Proof. by vm_compute. Qed.

(** After a month of real time the product of the microseconds and the frequency no longer fits 64 bits, and time goes back. *)
Theorem real_time_goes_back :
  let w := clint_new demo_clock demo_timers 10000000 true 0 in
  let w' := clint_tick demo_clock w 0 in
  mtime (clint w) = 8640000000000 /\ mtime (clint w') = 17280000000000 /\ mtime (clint (clint_tick demo_clock w' 0)) < mtime (clint w').
Proof. by vm_compute. Qed.
