(* ===== verification/Decode.v ===== *)
(** * Spike: instruction words and their decoding

    The integer instructions of the base sets, of M, of the compressed sets Zca and
    Zcb and the two returns from traps, with their matches and masks
    ([src/riscv-isa-sim/riscv/encoding.h]).

    Model of [insn_t] ([src/riscv-isa-sim/riscv/decode.h]), of [insn_desc_t]
    ([processor.h]) and of the decoder of [processor_t] ([processor.cc]): the sorted
    list of instructions, the search that moves what it finds to the front, and the
    cache of decoded words. *)

From Stdlib Require Import ZArith List.
From stdpp Require Import base option list gmap.
From S2P Require Import Prelude.

Import ListNotations.

(** The instructions by the names of their files in [riscv/insns]; [other] stands for those
    that are not modelled. *)
Inductive opcode : Type :=
  | add_ | addi_ | addiw_ | addw_ | and_ | andi_ | auipc_ | beq_ | bge_ | bgeu_ | blt_ | bltu_ | bne_ | jal_
  | jalr_ | lb_ | lbu_ | ld_ | lh_ | lhu_ | lui_ | lw_ | lwu_ | or_ | ori_ | sb_ | sd_ | sh_ | sll_ | slli_
  | slliw_ | sllw_ | slt_ | slti_ | sltiu_ | sltu_ | sra_ | srai_ | sraiw_ | sraw_ | srl_ | srli_ | srliw_
  | srlw_ | sub_ | subw_ | sw_ | xor_ | xori_ | fence_ | fence_i_ | ebreak_ | ecall_ | mret_ | sret_ | div_
  | divu_ | divuw_ | divw_ | mul_ | mulh_ | mulhsu_ | mulhu_ | mulw_ | rem_ | remu_ | remuw_ | remw_ | c_add_
  | c_addi_ | c_addi4spn_ | c_addw_ | c_and_ | c_andi_ | c_beqz_ | c_bnez_ | c_ebreak_ | c_flw_ | c_flwsp_
  | c_fsw_ | c_fswsp_ | c_j_ | c_jal_ | c_jalr_ | c_jr_ | c_li_ | c_lui_ | c_lw_ | c_lwsp_ | c_mv_ | c_or_
  | c_slli_ | c_srai_ | c_srli_ | c_sub_ | c_subw_ | c_sw_ | c_swsp_ | c_xor_ | c_lbu_ | c_lh_ | c_lhu_
  | c_sb_ | c_sh_ | c_zext_b_ | c_sext_b_ | c_zext_h_ | c_sext_h_ | c_zext_w_ | c_mul_ | c_not_
  | illegal_instruction | other (n : Z).

(** [DECLARE_INSN]: the match and the mask. *)
Definition encoding (o : opcode) : Z * Z :=
  match o with
  | add_ => (0x33, 0xfe00707f)
  | addi_ => (0x13, 0x707f)
  | addiw_ => (0x1b, 0x707f)
  | addw_ => (0x3b, 0xfe00707f)
  | and_ => (0x7033, 0xfe00707f)
  | andi_ => (0x7013, 0x707f)
  | auipc_ => (0x17, 0x7f)
  | beq_ => (0x63, 0x707f)
  | bge_ => (0x5063, 0x707f)
  | bgeu_ => (0x7063, 0x707f)
  | blt_ => (0x4063, 0x707f)
  | bltu_ => (0x6063, 0x707f)
  | bne_ => (0x1063, 0x707f)
  | jal_ => (0x6f, 0x7f)
  | jalr_ => (0x67, 0x707f)
  | lb_ => (0x3, 0x707f)
  | lbu_ => (0x4003, 0x707f)
  | ld_ => (0x3003, 0x707f)
  | lh_ => (0x1003, 0x707f)
  | lhu_ => (0x5003, 0x707f)
  | lui_ => (0x37, 0x7f)
  | lw_ => (0x2003, 0x707f)
  | lwu_ => (0x6003, 0x707f)
  | or_ => (0x6033, 0xfe00707f)
  | ori_ => (0x6013, 0x707f)
  | sb_ => (0x23, 0x707f)
  | sd_ => (0x3023, 0x707f)
  | sh_ => (0x1023, 0x707f)
  | sll_ => (0x1033, 0xfe00707f)
  | slli_ => (0x1013, 0xfc00707f)
  | slliw_ => (0x101b, 0xfe00707f)
  | sllw_ => (0x103b, 0xfe00707f)
  | slt_ => (0x2033, 0xfe00707f)
  | slti_ => (0x2013, 0x707f)
  | sltiu_ => (0x3013, 0x707f)
  | sltu_ => (0x3033, 0xfe00707f)
  | sra_ => (0x40005033, 0xfe00707f)
  | srai_ => (0x40005013, 0xfc00707f)
  | sraiw_ => (0x4000501b, 0xfe00707f)
  | sraw_ => (0x4000503b, 0xfe00707f)
  | srl_ => (0x5033, 0xfe00707f)
  | srli_ => (0x5013, 0xfc00707f)
  | srliw_ => (0x501b, 0xfe00707f)
  | srlw_ => (0x503b, 0xfe00707f)
  | sub_ => (0x40000033, 0xfe00707f)
  | subw_ => (0x4000003b, 0xfe00707f)
  | sw_ => (0x2023, 0x707f)
  | xor_ => (0x4033, 0xfe00707f)
  | xori_ => (0x4013, 0x707f)
  | fence_ => (0xf, 0x707f)
  | fence_i_ => (0x100f, 0x707f)
  | ebreak_ => (0x100073, 0xffffffff)
  | ecall_ => (0x73, 0xffffffff)
  | mret_ => (0x30200073, 0xffffffff)
  | sret_ => (0x10200073, 0xffffffff)
  | div_ => (0x2004033, 0xfe00707f)
  | divu_ => (0x2005033, 0xfe00707f)
  | divuw_ => (0x200503b, 0xfe00707f)
  | divw_ => (0x200403b, 0xfe00707f)
  | mul_ => (0x2000033, 0xfe00707f)
  | mulh_ => (0x2001033, 0xfe00707f)
  | mulhsu_ => (0x2002033, 0xfe00707f)
  | mulhu_ => (0x2003033, 0xfe00707f)
  | mulw_ => (0x200003b, 0xfe00707f)
  | rem_ => (0x2006033, 0xfe00707f)
  | remu_ => (0x2007033, 0xfe00707f)
  | remuw_ => (0x200703b, 0xfe00707f)
  | remw_ => (0x200603b, 0xfe00707f)
  | c_add_ => (0x9002, 0xf003)
  | c_addi_ => (0x1, 0xe003)
  | c_addi4spn_ => (0x0, 0xe003)
  | c_addw_ => (0x9c21, 0xfc63)
  | c_and_ => (0x8c61, 0xfc63)
  | c_andi_ => (0x8801, 0xec03)
  | c_beqz_ => (0xc001, 0xe003)
  | c_bnez_ => (0xe001, 0xe003)
  | c_ebreak_ => (0x9002, 0xffff)
  | c_flw_ => (0x6000, 0xe003)
  | c_flwsp_ => (0x6002, 0xe003)
  | c_fsw_ => (0xe000, 0xe003)
  | c_fswsp_ => (0xe002, 0xe003)
  | c_j_ => (0xa001, 0xe003)
  | c_jal_ => (0x2001, 0xe003)
  | c_jalr_ => (0x9002, 0xf07f)
  | c_jr_ => (0x8002, 0xf07f)
  | c_li_ => (0x4001, 0xe003)
  | c_lui_ => (0x6001, 0xe003)
  | c_lw_ => (0x4000, 0xe003)
  | c_lwsp_ => (0x4002, 0xe003)
  | c_mv_ => (0x8002, 0xf003)
  | c_or_ => (0x8c41, 0xfc63)
  | c_slli_ => (0x2, 0xe003)
  | c_srai_ => (0x8401, 0xec03)
  | c_srli_ => (0x8001, 0xec03)
  | c_sub_ => (0x8c01, 0xfc63)
  | c_subw_ => (0x9c01, 0xfc63)
  | c_sw_ => (0xc000, 0xe003)
  | c_swsp_ => (0xc002, 0xe003)
  | c_xor_ => (0x8c21, 0xfc63)
  | c_lbu_ => (0x8000, 0xfc03)
  | c_lh_ => (0x8440, 0xfc43)
  | c_lhu_ => (0x8400, 0xfc43)
  | c_sb_ => (0x8800, 0xfc03)
  | c_sh_ => (0x8c00, 0xfc43)
  | c_zext_b_ => (0x9c61, 0xfc7f)
  | c_sext_b_ => (0x9c65, 0xfc7f)
  | c_zext_h_ => (0x9c69, 0xfc7f)
  | c_sext_h_ => (0x9c6d, 0xfc7f)
  | c_zext_w_ => (0x9c71, 0xfc7f)
  | c_mul_ => (0x9c41, 0xfc63)
  | c_not_ => (0x9c75, 0xfc7f)
  | illegal_instruction | other _ => (0, 0)
  end.

Definition MATCH (o : opcode) : Z := fst (encoding o).
Definition MASK (o : opcode) : Z := snd (encoding o).

(** [riscv_insn_ext_i] and what is modelled of [riscv_insn_priv]. *)
Definition riscv_insn_ext_i : list opcode :=
  [add_; addi_; addiw_; addw_; and_; andi_; auipc_; beq_; bge_; bgeu_; blt_; bltu_; bne_; jal_; jalr_; lb_;
   lbu_; ld_; lh_; lhu_; lui_; lw_; lwu_; or_; ori_; sb_; sd_; sh_; sll_; slli_; slliw_; sllw_; slt_; slti_;
   sltiu_; sltu_; sra_; srai_; sraiw_; sraw_; srl_; srli_; srliw_; srlw_; sub_; subw_; sw_; xor_; xori_;
   fence_; fence_i_; ebreak_; ecall_; mret_; sret_].

(** [riscv_insn_ext_m]. *)
Definition riscv_insn_ext_m : list opcode :=
  [div_; divu_; divuw_; divw_; mul_; mulh_; mulhsu_; mulhu_; mulw_; rem_; remu_; remuw_; remw_].

(** [riscv_insn_ext_c] without the loads and stores of floating-point doubles. *)
Definition riscv_insn_ext_c : list opcode :=
  [c_add_; c_addi_; c_addi4spn_; c_addw_; c_and_; c_andi_; c_beqz_; c_bnez_; c_ebreak_; c_flw_; c_flwsp_;
   c_fsw_; c_fswsp_; c_j_; c_jal_; c_jalr_; c_jr_; c_li_; c_lui_; c_lw_; c_lwsp_; c_mv_; c_or_; c_slli_;
   c_srai_; c_srli_; c_sub_; c_subw_; c_sw_; c_swsp_; c_xor_].

(** The part of [riscv_insn_ext_zce] that is Zcb. *)
Definition riscv_insn_ext_zcb : list opcode :=
  [c_lbu_; c_lh_; c_lhu_; c_sb_; c_sh_; c_zext_b_; c_sext_b_; c_zext_h_; c_sext_h_; c_zext_w_; c_mul_; c_not_].

Definition riscv_insn_list : list opcode :=
  riscv_insn_ext_i ++ riscv_insn_ext_m ++ riscv_insn_ext_c ++ riscv_insn_ext_zcb.

(** ** Instruction words *)

(** The [len] bits from [lo], and the same sign-extended. *)
Definition x (b lo len : Z) : Z := (b .>> lo) .& ((1 .<< len) - 1).
Definition xs (b lo len : Z) : Z := s64 (b .<< (64 - lo - len)) .>> (64 - len).
Definition imm_sign (b : Z) : Z := xs b 31 1.

Definition insn_length (b : Z) : Z :=
  if b .& 0x03 <? 0x03 then 2 else if b .& 0x1f <? 0x1f then 4 else if b .& 0x3f <? 0x3f then 6 else 8.

Definition i_imm (b : Z) : Z := xs b 20 12.
Definition s_imm (b : Z) : Z := s64 (x b 7 5 + (xs b 25 7 .<< 5)).
Definition sb_imm (b : Z) : Z := s64 ((x b 8 4 .<< 1) + (x b 25 6 .<< 5) + (x b 7 1 .<< 11) + (imm_sign b .<< 12)).
Definition u_imm (b : Z) : Z := s64 (xs b 12 20 .<< 12).
Definition uj_imm (b : Z) : Z := s64 ((x b 21 10 .<< 1) + (x b 20 1 .<< 11) + (x b 12 8 .<< 12) + (imm_sign b .<< 20)).
Definition rd (b : Z) : Z := x b 7 5.
Definition rs1 (b : Z) : Z := x b 15 5.
Definition rs2 (b : Z) : Z := x b 20 5.

Definition rvc_imm (b : Z) : Z := s64 (x b 2 5 + (xs b 12 1 .<< 5)).
Definition rvc_zimm (b : Z) : Z := x b 2 5 + (x b 12 1 .<< 5).
Definition rvc_addi4spn_imm (b : Z) : Z := (x b 6 1 .<< 2) + (x b 5 1 .<< 3) + (x b 11 2 .<< 4) + (x b 7 4 .<< 6).
Definition rvc_addi16sp_imm (b : Z) : Z := s64 ((x b 6 1 .<< 4) + (x b 2 1 .<< 5) + (x b 5 1 .<< 6) + (x b 3 2 .<< 7) + (xs b 12 1 .<< 9)).
Definition rvc_lwsp_imm (b : Z) : Z := (x b 4 3 .<< 2) + (x b 12 1 .<< 5) + (x b 2 2 .<< 6).
Definition rvc_ldsp_imm (b : Z) : Z := (x b 5 2 .<< 3) + (x b 12 1 .<< 5) + (x b 2 3 .<< 6).
Definition rvc_swsp_imm (b : Z) : Z := (x b 9 4 .<< 2) + (x b 7 2 .<< 6).
Definition rvc_sdsp_imm (b : Z) : Z := (x b 10 3 .<< 3) + (x b 7 3 .<< 6).
Definition rvc_lw_imm (b : Z) : Z := (x b 6 1 .<< 2) + (x b 10 3 .<< 3) + (x b 5 1 .<< 6).
Definition rvc_ld_imm (b : Z) : Z := (x b 10 3 .<< 3) + (x b 5 2 .<< 6).
Definition rvc_j_imm (b : Z) : Z :=
  s64 ((x b 3 3 .<< 1) + (x b 11 1 .<< 4) + (x b 2 1 .<< 5) + (x b 7 1 .<< 6) + (x b 6 1 .<< 7) + (x b 9 2 .<< 8) + (x b 8 1 .<< 10) + (xs b 12 1 .<< 11)).
Definition rvc_b_imm (b : Z) : Z := s64 ((x b 3 2 .<< 1) + (x b 10 2 .<< 3) + (x b 2 1 .<< 5) + (x b 5 2 .<< 6) + (xs b 12 1 .<< 8)).
Definition rvc_rd (b : Z) : Z := rd b.
Definition rvc_rs1 (b : Z) : Z := rd b.
Definition rvc_rs2 (b : Z) : Z := x b 2 5.
Definition rvc_rs1s (b : Z) : Z := 8 + x b 7 3.
Definition rvc_rs2s (b : Z) : Z := 8 + x b 2 3.
Definition rvc_lbimm (b : Z) : Z := (x b 5 1 .<< 1) + x b 6 1.
Definition rvc_lhimm (b : Z) : Z := x b 5 1 .<< 1.

(** ** The decoder *)

Definition OPCODE_CACHE_SIZE : Z := 8191.

Section Decoder.
Context {F : Type}.

(** [func] stands for the eight functions of a description; which of them runs
    depends on the processor and is no part of decoding. *)
Record insn_desc_t : Type := Desc { match_ : Z; mask : Z; func : F }.

Variable illegal_instruction : F.

Definition illegal : insn_desc_t := Desc 0 0 illegal_instruction.

(** [cmp] of [build_opcode_map], and a sort by it. *)
Definition cmp (lhs rhs : insn_desc_t) : bool :=
  if match_ lhs =? match_ rhs then mask rhs <? mask lhs else match_ rhs <? match_ lhs.

Fixpoint insert_desc (d : insn_desc_t) (l : list insn_desc_t) : list insn_desc_t :=
  match l with [] => [d] | d' :: l' => if cmp d' d then d' :: insert_desc d l' else d :: l end.

Definition sort_descs (l : list insn_desc_t) : list insn_desc_t := foldr insert_desc [] l.

(** [opcode_cache] holds [illegal] where the map has no entry. *)
Record decoder : Type := Decoder { opcode_cache : gmap Z insn_desc_t; instructions : list insn_desc_t }.

(** [register_base_instructions] for a list of supported instructions, and
    [build_opcode_map]. *)
Definition decoder_new (supported : list insn_desc_t) : decoder := Decoder ∅ (sort_descs (supported ++ [illegal])).

Definition matches (bits : Z) (d : insn_desc_t) : bool := bits .& mask d =? match_ d.

(** The position of the first match. *)
Fixpoint search (bits : Z) (l : list insn_desc_t) : option nat :=
  match l with [] => None | d :: l => if matches bits d then Some 0%nat else S <$> search bits l end.

(** The description found is moved to the front unless it stands next to one with
    the same match. *)
Definition move_to_front (l : list insn_desc_t) (i : nat) (desc : insn_desc_t) : option (list insn_desc_t) :=
  if negb (mask desc =? 0) && (0 <? i)%nat then
    prev ← l !! pred i;
    if match_ desc =? match_ prev then Some l
    else next ← l !! S i; Some (if match_ desc =? match_ next then l else desc :: take i l ++ drop (S i) l)
  else Some l.

(** [None] when the search leaves the list. *)
Definition decode_insn (d : decoder) (bits : Z) : option (F * decoder) :=
  let idx := bits mod OPCODE_CACHE_SIZE in
  let desc := default illegal (opcode_cache d !! idx) in
  if negb (bits =? match_ desc) then
    i ← search bits (instructions d);
    desc ← instructions d !! i;
    l ← move_to_front (instructions d) i desc;
    Some (func desc, Decoder (<[idx := Desc bits (mask desc) (func desc)]> (opcode_cache d)) l)
  else Some (func desc, d).

(** Words decoded one after the other. *)
Fixpoint decode_all (d : decoder) (ws : list Z) : option (list F * decoder) :=
  match ws with
  | [] => Some ([], d)
  | w :: ws => r ← decode_insn d w; rs ← decode_all r.2 ws; Some (r.1 :: rs.1, rs.2)
  end.
End Decoder.

Arguments insn_desc_t : clear implicits.
Arguments decoder : clear implicits.
