(* ===== verification/DecodeTheorems.v ===== *)
(** * Spike: the decoder finds the instruction of a word

    The order the decoder keeps among its descriptions whatever it moves to the
    front, and that cached words were decoded the same way.

    The table of the instructions that are modelled satisfies what [DecodeTheorems]
    asks of a table, so the decoder built on it decodes. *)

From Stdlib Require Import Sorted.
From stdpp Require Import base option list gmap.
From S2P Require Import Prelude.
From S2P Require Import Decode.

Section Decoder.
Context {F : Type} (ill : F).
Implicit Types (d e : insn_desc_t F) (l : list (insn_desc_t F)).

(** ** Sorting *)

(** [d] does not come after [e]. *)
Definition before d e : Prop := match_ e < match_ d \/ (match_ e = match_ d /\ mask e <= mask d).

Lemma cmp_before d e : cmp d e = false <-> before e d.
Proof. unfold cmp, before. destruct (Z.eqb_spec (match_ d) (match_ e)), (Z.ltb_spec (mask e) (mask d)), (Z.ltb_spec (match_ e) (match_ d)); split; intros; try done; lia. Qed.

Lemma insert_in d l e : e ∈ insert_desc d l <-> e = d \/ e ∈ l.
Proof.
  induction l as [|d' l IH]; simpl; [by rewrite elem_of_cons, elem_of_nil|]. destruct (cmp d' d); rewrite ?elem_of_cons; [rewrite IH|]; tauto.
Qed.

Lemma sort_in l e : e ∈ sort_descs l <-> e ∈ l.
Proof. induction l as [|d l IH]; simpl; [done|]. rewrite insert_in, IH, elem_of_cons. done. Qed.

Lemma insert_sorted d l : StronglySorted before l -> StronglySorted before (insert_desc d l).
Proof.
  induction 1 as [|d' l Hs IH Hf]; simpl; [repeat constructor|]. destruct (cmp d' d) eqn:E.
  - constructor; [done|]. rewrite List.Forall_forall in *. intros e He. apply list_elem_of_In, insert_in in He as [->|He]; [|by apply Hf, list_elem_of_In].
    unfold cmp in E. unfold before. destruct (Z.eqb_spec (match_ d') (match_ d)); [apply Z.ltb_lt in E|apply Z.ltb_lt in E]; lia.
  - apply cmp_before in E. constructor; [by constructor|]. constructor; [done|]. apply (Forall_impl _ _ _ Hf). unfold before in *. intros; lia.
Qed.

Lemma sort_sorted l : StronglySorted before (sort_descs l).
Proof. induction l as [|d l IH]; [constructor|]. by apply insert_sorted. Qed.

(** ** The order that is kept *)

(** A description whose neighbours have other matches has a match of its own. *)
Definition grouped l : Prop := forall a d b, l = a ++ d :: b -> (forall p, last a = Some p -> match_ p <> match_ d) -> (forall n, head b = Some n -> match_ n <> match_ d) ->
  forall e, e ∈ a ++ b -> match_ e <> match_ d.

Definition group (m : Z) l : list (insn_desc_t F) := filter (fun d => match_ d = m) l.

Lemma sorted_app a b : StronglySorted before (a ++ b) -> StronglySorted before a /\ StronglySorted before b /\ forall x y, x ∈ a -> y ∈ b -> before x y.
Proof.
  induction a as [|d a IH]; simpl; [intros H; split; [constructor|split; [done|by intros x y ?%not_elem_of_nil]]|].
  intros [Hs Hf]%StronglySorted_inv. destruct (IH Hs) as (H1 & H2 & H3). rewrite List.Forall_forall in Hf. split; [|split; [done|]].
  - constructor; [done|]. apply List.Forall_forall. intros e He. apply Hf. apply in_or_app. by left.
  - intros x y [->|Hx]%elem_of_cons Hy; [|by apply H3]. apply Hf. apply in_or_app. right. by apply list_elem_of_In.
Qed.

Lemma sorted_grouped l : StronglySorted before l -> grouped l.
Proof.
  intros Hs a d b -> Hp Hn e He. apply sorted_app in Hs as (Ha & Hdb & Hab). apply StronglySorted_inv in Hdb as [Hb Hf]. rewrite List.Forall_forall in Hf.
  apply elem_of_app in He as [He|He]; intros Ee.
  - destruct (last a) as [p|] eqn:El; [|apply last_None in El; subst a; by apply not_elem_of_nil in He]. apply (Hp p eq_refl). clear Hp.
    apply last_Some in El as [a' ->]. apply sorted_app in Ha as (_ & _ & Ha'). assert (before p d) as H1 by (apply Hab; [apply elem_of_app; right|]; left).
    apply elem_of_app in He as [He|He]; [|apply elem_of_cons in He as [->|He]; [congruence|by apply not_elem_of_nil in He]]. assert (before e p) as H2 by (apply Ha'; [done|left]).
    unfold before in *. lia.
  - destruct b as [|n b]; [by apply not_elem_of_nil in He|]. apply (Hn n eq_refl). assert (before d n) as H1 by (apply Hf; by left).
    apply elem_of_cons in He as [->|He]; [congruence|]. apply StronglySorted_inv in Hb as [_ Hb]. rewrite List.Forall_forall in Hb. apply list_elem_of_In in He. specialize (Hb e He). unfold before in *. lia.
Qed.

Lemma last_app_cons a d : last (a ++ [d]) = Some d.
Proof. apply last_snoc. Qed.

Lemma grouped_move a d b : grouped (a ++ d :: b) -> (forall e, e ∈ a ++ b -> match_ e <> match_ d) -> grouped (d :: a ++ b).
Proof.
  intros Hg Hd a' e b' E Hp Hn. destruct a' as [|d0 a']; injection E as <- E; [by subst b'|]. 
  assert (match_ e <> match_ d) as Hed by (apply Hd; rewrite E; apply elem_of_app; right; left).
  assert (Hp' : forall p, last a' = Some p -> match_ p <> match_ e).
  { intros p Hl. apply Hp. destruct a' as [|q a']; [done|]. exact Hl. }
  assert (forall x, x ∈ a' ++ b' -> match_ x <> match_ e) as Hx.
  { apply app_eq_inv in E as [(k & -> & E)|(k & -> & E)].
    - destruct k as [|e' k]; simpl in E.
      + subst b. rewrite app_nil_r in *. intros x Hx. apply (Hg (a' ++ [d]) e b').
        * by rewrite <- app_assoc.
        * intros p. rewrite last_snoc. intros [= <-]. congruence.
        * done.
        * rewrite <- app_assoc. apply elem_of_app. apply elem_of_app in Hx as [Hx|Hx]; [by left|right; by right].
      + injection E as <- ->. intros x Hx. apply (Hg a' e (k ++ d :: b)).
        * by rewrite <- app_assoc.
        * done.
        * intros n. destruct k as [|n' k]; simpl; [intros [= <-]; congruence|]. intros [= <-]. by apply Hn.
        * rewrite !elem_of_app, elem_of_cons in *. tauto.
    - intros x Hx. apply (Hg (a ++ d :: k) e b').
      + rewrite <- app_assoc. simpl. by rewrite E.
      + intros p. destruct k as [|q k].
        * rewrite last_snoc. intros [= <-]. congruence.
        * intros Hl. apply Hp'. change (d :: q :: k) with ([d] ++ q :: k) in Hl. rewrite app_assoc, last_app in Hl. rewrite last_app. destruct (last (q :: k)) eqn:El; [done|]. by apply last_None in El.
      + done.
      + rewrite !elem_of_app, ?elem_of_cons in *. tauto. }
  intros x [->|Hin]%elem_of_cons; [congruence|by apply Hx].
Qed.

Lemma group_move m a d b : (forall e, e ∈ a ++ b -> match_ e <> match_ d) -> group m (d :: a ++ b) = group m (a ++ d :: b).
Proof.
  intros Hd. unfold group. rewrite filter_cons, !filter_app, filter_cons. destruct (decide (match_ d = m)) as [<-|]; [|done].
  assert (forall l, (forall e, e ∈ l -> match_ e <> match_ d) -> filter (fun x => match_ x = match_ d) l = []) as Hnil.
  { intros l Hl. induction l as [|e l IH]; [done|]. rewrite filter_cons. destruct (decide _) as [E|_]; [by destruct (Hl e ltac:(left))|]. apply IH. intros e' He'. apply Hl. by right. }
  rewrite !Hnil; [done|intros e He; apply Hd, elem_of_app; by right|intros e He; apply Hd, elem_of_app; by left].
Qed.

(** ** The decoder *)

Variable ds : list (insn_desc_t F).

(** No mask is empty, and descriptions that match a common word have the same
    match: the larger mask is the more specific instruction. *)
Record decodable : Prop := {
  dec_masks : Forall (fun d => mask d <> 0) ds;
  dec_overlap : forall d e bits, d ∈ ds -> e ∈ ds -> matches bits d = true -> matches bits e = true -> match_ d = match_ e
}.

(** [f] is the function of a most specific description of the word, or the illegal
    instruction when there is none. *)
Definition decodes (bits : Z) (f : F) : Prop :=
  (exists d, d ∈ ds /\ matches bits d = true /\ func d = f /\ forall e, e ∈ ds -> matches bits e = true -> mask e <= mask d) \/
  (f = ill /\ forall e, e ∈ ds -> matches bits e = false).

Record list_ok l : Prop := {
  lst_grouped : grouped l;
  lst_last : exists l1, l = l1 ++ [illegal ill] /\ forall e, e ∈ l1 <-> e ∈ ds;
  lst_order : forall m, StronglySorted before (group m l)
}.

Lemma matches_illegal bits : matches bits (illegal ill) = true.
Proof. unfold matches. simpl. by rewrite Z.land_0_r. Qed.

Lemma search_first bits l1 d1 : matches bits d1 = true ->
  exists a d b, l1 ++ [d1] = a ++ d :: b /\ search bits (l1 ++ [d1]) = Some (length a) /\ matches bits d = true /\ forall e, e ∈ a -> matches bits e = false.
Proof.
  intros H1. induction l1 as [|d' l1 IH]; simpl.
  - exists [], d1, []. rewrite H1. repeat split; try done. by intros e ?%not_elem_of_nil.
  - destruct (matches bits d') eqn:E.
    + exists [], d', (l1 ++ [d1]). repeat split; try done. by intros e ?%not_elem_of_nil.
    + destruct IH as (a & d & b & El & Es & Hd & Ha). exists (d' :: a), d, b. rewrite El in *. rewrite Es. repeat split; try done.
      intros e [->|He]%elem_of_cons; [done|by apply Ha].
Qed.

Lemma group_elem m l e : e ∈ group m l <-> match_ e = m /\ e ∈ l.
Proof. unfold group. by rewrite list_elem_of_filter. Qed.

(** A split at the end of the list, or before it. *)
Lemma split_last l1 (z : insn_desc_t F) a d b : l1 ++ [z] = a ++ d :: b -> (b = [] /\ a = l1 /\ d = z) \/ exists b', b = b' ++ [z] /\ l1 = a ++ d :: b'.
Proof.
  intros E. destruct (last b) as [w|] eqn:El.
  - right. apply last_Some in El as [b' ->]. exists b'. change (a ++ d :: b' ++ [w]) with (a ++ (d :: b') ++ [w]) in E. rewrite app_assoc in E. by apply app_inj_tail in E as [-> ->].
  - left. apply last_None in El. subst b. by apply app_inj_tail in E as [-> ->].
Qed.

Lemma first_decodes l a d b bits : decodable -> list_ok l -> l = a ++ d :: b -> matches bits d = true -> (forall e, e ∈ a -> matches bits e = false) -> decodes bits (func d).
Proof.
  intros [_ Hov] [_ (l1 & El & Hl1) Hord] E Hd Ha. rewrite E in El. symmetry in El. apply split_last in El as [(-> & -> & ->)|(b' & -> & ->)].
  - right. split; [done|]. intros e He. by apply Ha, Hl1.
  - left. exists d. assert (d ∈ ds) as Hin by (apply Hl1, elem_of_app; right; left). repeat split; try done. intros e He Hm.
    pose proof (Hov e d bits He Hin Hm Hd) as Em. apply Hl1, elem_of_app in He as [He|[->|He]%elem_of_cons]; [by rewrite Ha in Hm|lia|].
    specialize (Hord (match_ d)). subst l. unfold group in Hord. rewrite filter_app, filter_cons in Hord. destruct (decide _) as [_|]; [|done].
    apply sorted_app in Hord as (_ & [_ Hf]%StronglySorted_inv & _). rewrite List.Forall_forall in Hf.
    assert (before d e) as Hb; [|unfold before in Hb; lia]. apply Hf, list_elem_of_In, list_elem_of_filter. split; [done|]. apply elem_of_app. by left.
Qed.

Lemma take_drop_split l a d b : l = a ++ d :: b -> take (length a) l = a /\ drop (S (length a)) l = b.
Proof.
  intros ->. split; [apply take_app_length|]. change (a ++ d :: b) with (a ++ [d] ++ b). rewrite app_assoc, drop_app_length'; [done|]. rewrite length_app. simpl. lia.
Qed.

Lemma move_ok l a d b : decodable -> list_ok l -> l = a ++ d :: b -> exists l', move_to_front l (length a) d = Some l' /\ list_ok l'.
Proof.
  intros Hdec Hl E. pose proof (take_drop_split l a d b E) as [Et Edr]. destruct Hl as [Hg (l1 & El & Hl1) Hord] eqn:El0. clear El0. unfold move_to_front. rewrite Et, Edr.
  assert (list_ok l) as Hok by (split; [done|by exists l1|done]).
  destruct (Z.eqb_spec (mask d) 0) as [|Hm]; cbn [negb andb]; [by exists l|]. destruct (Nat.ltb_spec 0 (length a)) as [Hpos|]; [|by exists l].
  destruct (last a) as [p|] eqn:Ela; [|apply last_None in Ela; subst a; simpl in Hpos; lia].
  assert (l !! pred (length a) = Some p) as ->. { rewrite E, lookup_app_l by lia. by rewrite <- last_lookup. }
  cbn [mbind option_bind]. destruct (Z.eqb_spec (match_ d) (match_ p)) as [|Hp]; [by exists l|].
  rewrite E in El. symmetry in El. apply split_last in El as [(-> & -> & ->)|(b' & -> & ->)]; [done|].
  destruct (head (b' ++ [illegal ill])) as [n|] eqn:Eh; [|by destruct b'].
  assert (l !! S (length a) = Some n) as ->. { rewrite E, lookup_app_r by lia. replace (S (length a) - length a)%nat with 1%nat by lia. simpl. by rewrite <- head_lookup. }
  cbn [mbind option_bind]. destruct (Z.eqb_spec (match_ d) (match_ n)) as [|Hn]; [by exists l|]. eexists. split; [done|].
  assert (forall e, e ∈ a ++ b' ++ [illegal ill] -> match_ e <> match_ d) as Halone.
  { apply (Hg a d (b' ++ [illegal ill]) E); [intros q; rewrite Ela; intros [= <-]; congruence|intros q; rewrite Eh; intros [= <-]; congruence]. }
  rewrite E in Hg. split.
  - by apply grouped_move.
  - exists (d :: a ++ b'). split; [by rewrite <- app_comm_cons, app_assoc|]. intros e. rewrite <- Hl1, !elem_of_cons, !elem_of_app, elem_of_cons. tauto.
  - intros m. rewrite group_move by done. rewrite <- E. apply Hord.
Qed.

(** The cache holds what words decode to. *)
Record decoder_ok (d : decoder F) : Prop := {
  dcd_list : list_ok (instructions d);
  dcd_cache : forall idx desc, opcode_cache d !! idx = Some desc -> decodes (match_ desc) (func desc)
}.

Lemma group_sorted m l : StronglySorted before l -> StronglySorted before (group m l).
Proof.
  induction 1 as [|d l Hs IH Hf]; [constructor|]. unfold group in *. rewrite filter_cons. destruct (decide _) as [_|_]; [|done]. constructor; [done|].
  rewrite List.Forall_forall in *. intros e He. apply Hf. apply list_elem_of_In in He. apply list_elem_of_filter in He as [_ He]. by apply list_elem_of_In.
Qed.

Lemma insert_last d l : mask d <> 0 -> (forall e, e ∈ l -> 0 <= match_ e) -> 0 <= match_ d -> 0 <= mask d ->
  exists l', insert_desc d (l ++ [illegal ill]) = l' ++ [illegal ill] /\ forall e, e ∈ l' <-> e = d \/ e ∈ l.
Proof.
  intros Hm Hl Hd Hk. induction l as [|e l IH]; simpl.
  - exists [d]. split; [|intros e; by rewrite elem_of_cons]. unfold cmp. simpl. destruct (Z.eqb_spec 0 (match_ d)), (Z.ltb_spec (mask d) 0), (Z.ltb_spec (match_ d) 0); try done; lia.
  - destruct (cmp e d); [|exists (d :: e :: l); split; [done|]; intros e'; by rewrite elem_of_cons].
    destruct IH as (l' & -> & Hl'); [intros; apply Hl; by right|]. exists (e :: l'). split; [done|]. intros e'. rewrite !elem_of_cons, Hl'. tauto.
Qed.

Lemma decoder_new_ok : decodable -> Forall (fun d => 0 <= match_ d /\ 0 <= mask d) ds -> decoder_ok (decoder_new ill ds).
Proof.
  intros [Hm _] Hr. split; [|intros idx desc Hx; unfold decoder_new in Hx; cbn [opcode_cache] in Hx; by rewrite lookup_empty in Hx]. unfold decoder_new. cbn [instructions]. split.
  - apply sorted_grouped, sort_sorted.
  - assert (exists l1, sort_descs (ds ++ [illegal ill]) = l1 ++ [illegal ill] /\ forall e, e ∈ l1 <-> e ∈ ds) as H; [|exact H].
    induction Hm as [|d l Hd Hm IH]; [exists []; split; [done|]; intros e; done|].
    inversion Hr as [|? ? [Hr1 Hr2] Hr']; subst. destruct (IH Hr') as (l1 & E & Hl1). simpl. rewrite E. destruct (insert_last d l1 Hd) as (l' & E' & Hl'); try done.
    { intros e He. apply Hl1 in He. rewrite Forall_forall in Hr'. by apply Hr'. }
    exists l'. split; [done|]. intros e. by rewrite elem_of_cons, <- Hl1, Hl'.
  - intros m. apply group_sorted, sort_sorted.
Qed.

Lemma decode_insn_ok (d : decoder F) bits : decodable -> decoder_ok d ->
  exists f (d' : decoder F), decode_insn ill d bits = Some (f, d') /\ decoder_ok d' /\ (decodes bits f \/ bits = 0 /\ f = ill).
Proof.
  intros Hdec [Hl Hc]. unfold decode_insn. set (idx := bits mod OPCODE_CACHE_SIZE).
  destruct (Z.eqb_spec bits (match_ (default (illegal ill) (opcode_cache d !! idx)))) as [E|_]; cbn [negb].
  - exists (func (default (illegal ill) (opcode_cache d !! idx))), d. split; [done|]. split; [done|].
    destruct (opcode_cache d !! idx) as [desc|] eqn:Ed; simpl in *; [left; subst bits; by apply (Hc idx)|by right].
  - pose proof (lst_last _ Hl) as (l1 & El & _). destruct (search_first bits l1 _ (matches_illegal bits)) as (a & d0 & b & Es & Esr & Hm & Ha). rewrite <- El in Es, Esr.
    rewrite Esr. cbn [mbind option_bind]. assert (instructions d !! length a = Some d0) as -> by (rewrite Es; by apply list_lookup_middle). cbn [mbind option_bind].
    destruct (move_ok _ a d0 b Hdec Hl Es) as (l' & -> & Hl'). cbn [mbind option_bind].
    pose proof (first_decodes _ a d0 b bits Hdec Hl Es Hm Ha) as Hd. eexists _, _. split; [done|]. split; [|by left]. split; [done|]. simpl. intros i desc.
    rewrite lookup_insert. case_decide; [intros [= <-]; done|apply Hc].
Qed.

Lemma decode_all_ok ws : decodable -> forall d : decoder F, decoder_ok d ->
  exists fs (d' : decoder F), decode_all ill d ws = Some (fs, d') /\ decoder_ok d' /\ Forall2 (fun w f => decodes w f \/ w = 0 /\ f = ill) ws fs.
Proof.
  intros Hdec. induction ws as [|w ws IH]; intros d Hd; simpl; [by exists [], d|].
  destruct (decode_insn_ok d w Hdec Hd) as (f & d1 & -> & Hd1 & Hf). cbn [mbind option_bind fst snd].
  destruct (IH d1 Hd1) as (fs & d2 & -> & Hd2 & Hfs). exists (f :: fs), d2. split; [done|]. split; [done|]. by constructor.
Qed.
End Decoder.

(** ** A test of tables *)

Definition overlap_ok {F} (d e : insn_desc_t F) : bool :=
  (match_ d =? match_ e) || negb ((match_ d .^ match_ e) .& (mask d .& mask e) =? 0).

Definition decodable_check {F} (ds : list (insn_desc_t F)) : bool :=
  forallb (fun d => negb (mask d =? 0) && forallb (overlap_ok d) ds) ds.

(** Words that match differ in no bit both masks test. *)
Lemma matched_agree {F} (d e : insn_desc_t F) bits : matches bits d = true -> matches bits e = true -> (match_ d .^ match_ e) .& (mask d .& mask e) = 0.
Proof.
  unfold matches. intros <-%Z.eqb_eq <-%Z.eqb_eq. apply Z.bits_inj'. intros i Hi. rewrite !Z.land_spec, Z.lxor_spec, !Z.land_spec, Z.bits_0.
  by destruct (Z.testbit bits i), (Z.testbit (mask d) i), (Z.testbit (mask e) i).
Qed.

Lemma decodable_checked {F} (ds : list (insn_desc_t F)) : decodable_check ds = true -> decodable ds.
Proof.
  unfold decodable_check. rewrite forallb_forall. intros Hds. split.
  - apply List.Forall_forall. intros d Hd. apply Hds, andb_true_iff in Hd as [Hm _]. by apply negb_true_iff, Z.eqb_neq in Hm.
  - intros d e bits Hd He Md Me. apply list_elem_of_In in Hd, He. apply Hds, andb_true_iff in Hd as [_ Ho]. rewrite forallb_forall in Ho. apply Ho in He.
    unfold overlap_ok in He. rewrite (matched_agree d e bits Md Me) in He. simpl in He. rewrite orb_false_r in He. by apply Z.eqb_eq.
Qed.

(** ** The table *)

Definition describe (o : opcode) : insn_desc_t opcode := Desc (MATCH o) (MASK o) o.
Definition insn_table : list (insn_desc_t opcode) := map describe riscv_insn_list.

Lemma table_decodable : decodable insn_table.
Proof. apply decodable_checked. by vm_compute. Qed.

Lemma table_positive : Forall (fun d => 0 <= match_ d /\ 0 <= mask d) insn_table.
Proof. apply (bool_decide_unpack _). by vm_compute. Qed.

Lemma table_decoder_ok : decoder_ok illegal_instruction insn_table (decoder_new illegal_instruction insn_table).
Proof. apply decoder_new_ok; [apply table_decodable|apply table_positive]. Qed.

(** The instruction a word stands for in the table. *)
Definition stands_for (w : Z) (o : opcode) : Prop :=
  match o with
  | illegal_instruction => w = 0 \/ forall o', o' ∈ riscv_insn_list -> w .& MASK o' <> MATCH o'
  | _ => o ∈ riscv_insn_list /\ w .& MASK o = MATCH o /\ forall o', o' ∈ riscv_insn_list -> w .& MASK o' = MATCH o' -> MASK o' <= MASK o
  end.

Lemma table_elem d : d ∈ insn_table <-> exists o, o ∈ riscv_insn_list /\ d = describe o.
Proof.
  unfold insn_table. rewrite list_elem_of_In, in_map_iff. split; intros (o & H1 & H2); exists o; [by rewrite list_elem_of_In|].
  by rewrite <- list_elem_of_In.
Qed.

Lemma illegal_not_listed : illegal_instruction ∉ riscv_insn_list.
Proof.
  intros Hi. assert (describe illegal_instruction ∈ insn_table) as Hd by (apply table_elem; by exists illegal_instruction).
  pose proof (dec_masks _ table_decodable) as Hm. rewrite List.Forall_forall in Hm. apply list_elem_of_In in Hd. by apply Hm in Hd.
Qed.

Lemma decodes_stands w o : decodes illegal_instruction insn_table w o \/ w = 0 /\ o = illegal_instruction -> stands_for w o.
Proof.
  intros [[(d & Hd & Hm & <- & Hmax)|[-> Hno]]|[-> ->]]; [| |by left].
  - apply table_elem in Hd as (o & Ho & ->). unfold matches in Hm. apply Z.eqb_eq in Hm. cbn [match_ mask func describe] in *.
    assert (o ∈ riscv_insn_list /\ w .& MASK o = MATCH o /\ forall o', o' ∈ riscv_insn_list -> w .& MASK o' = MATCH o' -> MASK o' <= MASK o) as H.
    { split; [done|]. split; [done|]. intros o' Ho' Hm'. apply (Hmax (describe o')); [apply table_elem; by exists o'|by apply Z.eqb_eq]. }
    destruct o; try exact H. by destruct illegal_not_listed.
  - right. intros o' Ho' Hm'. assert (describe o' ∈ insn_table) as Hd by (apply table_elem; by exists o').
    specialize (Hno _ Hd). by apply Z.eqb_neq in Hno.
Qed.

