(* ===== verification/Memory.v ===== *)
(** * Spike: what instructions want of memory

    The part of [mmu_t] ([src/riscv-isa-sim/riscv/mmu.h]) that instructions use, as an
    interface: loads, stores and fetches that give a value or raise a trap of the
    memory, and the flush of the cached translations. *)

From stdpp Require Import base option list.
From S2P Require Import Prelude.
From S2P Require Import Arith.
From S2P Require Import Pmp.
From S2P Require Import Devices.
From S2P Require Import Mmu.

(** The registers that choose how addresses are translated and protected. *)
Definition same_tables (h h' : hart_t) : Prop :=
  hart_xlen h' = hart_xlen h /\ satp h' = satp h /\ vsatp h' = vsatp h /\ hgatp h' = hgatp h /\ pmp h' = pmp h.

(** The mode of the hart, and the one [MPRV] would use, exist. *)
Definition is_mode (p : Z) : Prop := p = PRV_U \/ p = PRV_S \/ p = PRV_M.
Definition modes_ok (h : hart_t) : Prop := is_mode (prv h) /\ is_mode (get_field 64 (mstatus h) MSTATUS_MPP).

(** An access ends in a value or a trap, and keeps the invariant. *)
Definition ends_well {A D} (inv : D -> Prop) (ok : A -> Prop) (r : result A * D) : Prop :=
  inv r.2 /\ match r.1 with Ok a => ok a | Throw _ => True | Undef => False end.

Class Memory (D : Type) := {
  (** the address and the number of bytes *)
  mem_load : hart_t -> D -> Z -> Z -> result Z * D;
  mem_store : hart_t -> D -> Z -> Z -> Z -> result unit * D;
  (** two bytes of code *)
  mem_fetch : hart_t -> D -> Z -> result Z * D;
  mem_flush_tlb : D -> D;
  mem_ready : hart_t -> Prop;
  mem_inv : D -> Prop;
  mem_ready_same : forall h h', same_tables h h' -> mem_ready h -> mem_ready h';
  mem_load_ends : forall h d addr len, mem_ready h -> modes_ok h -> mem_inv d -> 0 <= addr < 2 ^ 64 -> len = 1 \/ len = 2 \/ len = 4 \/ len = 8 ->
    ends_well mem_inv (fun v => 0 <= v < 2 ^ (8 * len)) (mem_load h d addr len);
  mem_store_ends : forall h d addr len v, mem_ready h -> modes_ok h -> mem_inv d -> 0 <= addr < 2 ^ 64 -> len = 1 \/ len = 2 \/ len = 4 \/ len = 8 ->
    0 <= v < 2 ^ (8 * len) -> ends_well mem_inv (fun _ => True) (mem_store h d addr len v);
  mem_fetch_ends : forall h d addr, mem_ready h -> modes_ok h -> mem_inv d -> 0 <= addr < 2 ^ 64 -> addr mod 2 = 0 ->
    ends_well mem_inv (fun v => 0 <= v < 2 ^ 16) (mem_fetch h d addr);
  mem_flush_inv : forall d, mem_inv d -> mem_inv (mem_flush_tlb d)
}.
