(* ===== verification/Access.v ===== *)
(** * Spike: loads, stores and fetches

    The rest of [mmu_t] ([src/riscv-isa-sim/riscv/mmu.h], [mmu.cc]): the TLB, the fast
    and the slow paths of accesses, misaligned accesses, reservations and the
    memory operations of the atomic, hypervisor and cache block instructions.

    The registers are [hart_t] of [Mmu]; the state is what an [mmu_t] keeps and the
    bus it reaches.  No trigger matches and no tracer is registered; the flags that
    send accesses to the slow path for triggers are kept. *)

From stdpp Require Import base option list gmap.
From S2P Require Import Prelude.
From S2P Require Import Arith.
From S2P Require Import Pmp.
From S2P Require Import Devices.
From S2P Require Import Mmu.

Definition TLB_ENTRIES : Z := 256.
Definition TLB_CHECK_TRIGGERS : Z := 1 .<< 63.

(** A host address: in a page of a memory, or in [fetch_temp]. *)
Inductive host_t : Type := HMem (p : Z * ptr) | HTemp (offset : Z).

Definition host_plus (a : host_t) (n : Z) : host_t :=
  match a with HMem p => HMem (p.1, (p.2.1, p.2.2 + n)) | HTemp offset => HTemp (offset + n) end.

Record tlb_entry_t : Type := TlbEntry { host_offset : host_t; target_offset : Z }.

Definition no_flags : xlate_flags_t := XlateFlags false false false.

Definition is_special_access (fl : xlate_flags_t) : bool := forced_virt fl || hlvx fl || lr fl.

Definition split_misaligned_access (info : mem_access_info_t) (offset : Z) : mem_access_info_t :=
  MemAccess (u64 (vaddr info + offset)) (effective_priv info) (effective_virt info) (flags info) (type info).

(** The integer of a register's bytes; [None] where it aborts. *)
Definition reg_from_bytes (bytes : list Z) : option Z :=
  match bytes with
  | [b0] => Some b0
  | [b0; b1] => Some (b0 .| (b1 .<< 8))
  | [b0; b1; b2; b3] => Some (b0 .| (b1 .<< 8) .| (b2 .<< 16) .| (b3 .<< 24))
  | [b0; b1; b2; b3; b4; b5; b6; b7] =>
      Some (b0 .| (b1 .<< 8) .| (b2 .<< 16) .| (b3 .<< 24) .| (b4 .<< 32) .| (b5 .<< 40) .| (b6 .<< 48) .| (b7 .<< 56))
  | _ => None
  end.

Section Access.
Context {D : Type} `{Device D}.

Record mmu_t : Type := MmuState {
  sim : bus_t D;
  tlb_data : list tlb_entry_t;
  tlb_tag : access_type -> list Z;
  load_reservation_address : Z;
  fetch_temp : list Z;
  check_triggers : access_type -> bool;
  misaligned : bool;
  blocksz : Z
}.

Definition set_sim (st : mmu_t) (b : bus_t D) : mmu_t :=
  MmuState b (tlb_data st) (tlb_tag st) (load_reservation_address st) (fetch_temp st) (check_triggers st) (misaligned st) (blocksz st).
Definition set_tlb (st : mmu_t) (data : list tlb_entry_t) (tag : access_type -> list Z) : mmu_t :=
  MmuState (sim st) data tag (load_reservation_address st) (fetch_temp st) (check_triggers st) (misaligned st) (blocksz st).
Definition set_reservation (st : mmu_t) (a : Z) : mmu_t :=
  MmuState (sim st) (tlb_data st) (tlb_tag st) a (fetch_temp st) (check_triggers st) (misaligned st) (blocksz st).
Definition set_temp (st : mmu_t) (bytes : list Z) : mmu_t :=
  MmuState (sim st) (tlb_data st) (tlb_tag st) (load_reservation_address st) bytes (check_triggers st) (misaligned st) (blocksz st).

(** An invalid tag: -1. *)
Definition no_tag : Z := u64 (-1).

Definition flush_mmu_tlb (st : mmu_t) : mmu_t := set_tlb st (tlb_data st) (fun _ => replicate (Z.to_nat TLB_ENTRIES) no_tag).

(** The TLB's data and [fetch_temp] are not initialised. *)
Definition mmu_new (b : bus_t D) (data : list tlb_entry_t) (temp : list Z) (mis : bool) : mmu_t :=
  set_reservation (flush_mmu_tlb (MmuState b data (fun _ => []) 0 temp (fun _ => false) mis 0)) (u64 (-1)).

(** ** Steps *)

Definition AM (A : Type) : Type := mmu_t -> result A * mmu_t.

Definition aret {A} (a : A) : AM A := fun st => (Ok a, st).
Definition athrow {A} (t : mem_trap_t) : AM A := fun st => (Throw t, st).
Definition aundef {A} : AM A := fun st => (Undef, st).
Definition abind {A B} (m : AM A) (f : A -> AM B) : AM B := fun st =>
  match m st with
  | (Ok a, st') => f a st'
  | (Throw t, st') => (Throw t, st')
  | (Undef, st') => (Undef, st')
  end.

Local Notation "x <~ m ; f" := (abind m (fun x => f)) (at level 100, m at next level, f at level 200, right associativity).

(** A step on the bus. *)
Definition on_bus {A} (m : M (D := D) A) : AM A := fun st => let '(r, b) := m (sim st) in (r, set_sim st b).

Definition modify (f : mmu_t -> mmu_t) : AM unit := fun st => (Ok tt, f st).

Definition require_some {A} (o : option A) : AM A := match o with Some a => aret a | None => aundef end.

(** [memcpy] from and to a host address. *)
Definition host_load (a : host_t) (n : Z) : AM (list Z) := fun st =>
  match a with
  | HMem p =>
      match (if 0 <=? p.2.2 then host_read (sim st) p n else None) with
      | Some bytes => (Ok bytes, st)
      | None => (Undef, st)
      end
  | HTemp offset =>
      if (0 <=? offset) && (offset + n <=? Z.of_nat (length (fetch_temp st)))
      then (Ok (take (Z.to_nat n) (drop (Z.to_nat offset) (fetch_temp st))), st) else (Undef, st)
  end.

(** Nothing is stored to [fetch_temp]. *)
Definition host_store (a : host_t) (bytes : list Z) : AM unit := fun st =>
  match a with
  | HMem p =>
      match (if 0 <=? p.2.2 then host_write (sim st) p bytes else None) with
      | Some b => (Ok tt, set_sim st b)
      | None => (Undef, st)
      end
  | HTemp _ => (Undef, st)
  end.

(** ** The TLB *)

Definition tlb_index (vpn : Z) : nat := Z.to_nat (vpn mod TLB_ENTRIES).

Definition tag_at (st : mmu_t) (type : access_type) (vpn : Z) : Z := nth (tlb_index vpn) (tlb_tag st type) 0.

(** A tag without the bit for triggers. *)
Definition plain_tag (tag : Z) : Z := tag .& u64 (Z.lnot TLB_CHECK_TRIGGERS).

Definition entry_at (st : mmu_t) (vpn : Z) : tlb_entry_t := nth (tlb_index vpn) (tlb_data st) (TlbEntry (HTemp 0) 0).

(** The tags after a refill, of which one is set when [cached] gives it. *)
Definition refilled_tag (st : mmu_t) (vpn : Z) (type : access_type) (cached : option Z) (ty : access_type) : list Z :=
  let tags := tlb_tag st ty in
  let idx := tlb_index vpn in
  let tags := if negb (plain_tag (nth idx tags 0) =? vpn) then <[idx := no_tag]> tags else tags in
  match cached with Some tag => if bool_decide (ty = type) then <[idx := tag]> tags else tags | None => tags end.

Definition refill_tlb (h : hart_t) (vaddr paddr : Z) (host_addr : host_t) (type : access_type) : AM tlb_entry_t := fun st =>
  let vpn := vaddr .>> PGSHIFT in
  let entry := TlbEntry (host_plus host_addr (- vaddr)) (u64 (paddr - vaddr)) in
  if in_mprv h then (Ok entry, st) else
  let expected_tag := if check_triggers st type then vpn .| TLB_CHECK_TRIGGERS else vpn in
  match pmp_homogeneous (pmp h) (paddr .& u64 (Z.lnot (PGSIZE - 1))) PGSIZE with
  | None => (Undef, st)
  | Some homogeneous =>
      (Ok entry, set_tlb st (<[tlb_index vpn := entry]> (tlb_data st))
                   (refilled_tag st vpn type (if (homogeneous : bool) then Some expected_tag else None)))
  end.

(** ** Fetches *)

Definition mmio_fetch (h : hart_t) (paddr len : Z) : M (option (list Z)) := mmio_load_whole h paddr len.

Definition fetch_slow_path (h : hart_t) (vaddr : Z) : AM tlb_entry_t :=
  let access_info := generate_access_info h vaddr FETCH no_flags in
  let vpn := vaddr .>> PGSHIFT in
  result <~ (fun st =>
    if negb (tag_at st FETCH vpn =? vpn .| TLB_CHECK_TRIGGERS) then
      (paddr <~ on_bus (translate h access_info 2);
       host_addr <~ on_bus (to_mem paddr);
       match host_addr with
       | Some p => refill_tlb h vaddr paddr (HMem p) FETCH
       | None =>
           r <~ on_bus (mmio_fetch h paddr 2);
           match r with
           | None => athrow (MemTrap instruction_access_fault (virt_mode h) vaddr 0 0)
           | Some bytes => _ <~ modify (fun st => set_temp st bytes); aret (TlbEntry (HTemp (- vaddr)) (u64 (paddr - vaddr)))
           end
       end) st
    else (Ok (entry_at st vpn), st));
  _ <~ host_load (host_plus (host_offset result) vaddr) 2;
  aret result.

Definition translate_insn_addr (h : hart_t) (addr : Z) : AM tlb_entry_t := fun st =>
  let vpn := addr .>> PGSHIFT in
  if tag_at st FETCH vpn =? vpn then (Ok (entry_at st vpn), st) else fetch_slow_path h addr st.

(** The bytes behind [translate_insn_addr_to_host]. *)
Definition fetch_bytes (h : hart_t) (addr n : Z) : AM (list Z) :=
  tlb_entry <~ translate_insn_addr h addr;
  host_load (host_plus (host_offset tlb_entry) addr) n.

Definition fetch_half (h : hart_t) (addr : Z) : AM Z := bytes <~ fetch_bytes h addr 2; aret (from_le bytes).

Definition fetch_jump_table (h : hart_t) (T addr : Z) : AM Z := bytes <~ fetch_bytes h addr T; aret (from_le bytes).

(** ** Loads *)

Definition reservable (paddr : Z) : AM bool := p <~ on_bus (to_mem paddr); aret (bool_decide (p <> None)).

Definition load_slow_path_intrapage (h : hart_t) (len : Z) (info : mem_access_info_t) : AM (list Z) := fun st =>
  let addr := vaddr info in
  let vpn := addr .>> PGSHIFT in
  if negb (is_special_access (flags info)) && (vpn =? plain_tag (tag_at st LOAD vpn)) then
    host_load (host_plus (host_offset (entry_at st vpn)) addr) len st
  else
    (paddr <~ on_bus (translate h info len);
     ok <~ (if lr (flags info) then reservable paddr else aret true);
     if negb ok then athrow (MemTrap load_access_fault (effective_virt info) addr 0 0) else
     host_addr <~ on_bus (to_mem paddr);
     bytes <~ match host_addr with
              | Some p =>
                  bytes <~ host_load (HMem p) len;
                  if negb (is_special_access (flags info)) then _ <~ refill_tlb h addr paddr (HMem p) LOAD; aret bytes else aret bytes
              | None =>
                  r <~ on_bus (mmio_load h paddr len);
                  match r with
                  | None => athrow (MemTrap load_access_fault (effective_virt info) addr 0 0)
                  | Some bytes => aret bytes
                  end
              end;
     if lr (flags info) then _ <~ modify (fun st => set_reservation st paddr); aret bytes else aret bytes) st.

(** The bytes in the page of the address. *)
Definition first_part (addr len : Z) : Z := Z.min len (PGSIZE - addr mod PGSIZE).

Definition load_slow_path (h : hart_t) (addr len : Z) (fl : xlate_flags_t) : AM (list Z) := fun st =>
  let info := generate_access_info h addr LOAD fl in
  (bytes <~ (if addr .& (len - 1) =? 0 then load_slow_path_intrapage h len info
             else if negb (misaligned st) then athrow (MemTrap load_address_misaligned (effective_virt info) addr 0 0)
             else if lr fl then athrow (MemTrap load_access_fault (effective_virt info) addr 0 0)
             else
               let len_page0 := first_part addr len in
               bytes0 <~ load_slow_path_intrapage h len_page0 info;
               if negb (len_page0 =? len) then
                 bytes1 <~ load_slow_path_intrapage h (len - len_page0) (split_misaligned_access info len_page0);
                 aret (bytes0 ++ bytes1)
               else aret bytes0);
   _ <~ require_some (reg_from_bytes bytes);
   aret bytes) st.

(** An access of the size [T] at its own alignment. *)
Definition aligned (addr T : Z) : bool := addr .& (T - 1) =? 0.

Definition load (h : hart_t) (T addr : Z) (fl : xlate_flags_t) : AM Z := fun st =>
  let vpn := addr .>> PGSHIFT in
  let tlb_hit := tag_at st LOAD vpn =? vpn in
  (bytes <~ (if negb (is_special_access fl) && aligned addr T && tlb_hit
             then host_load (host_plus (host_offset (entry_at st vpn)) addr) T
             else load_slow_path h addr T fl);
   aret (from_le bytes)) st.

Definition load_reserved (h : hart_t) (T addr : Z) : AM Z := load h T addr (XlateFlags false false true).
Definition guest_load (h : hart_t) (T addr : Z) : AM Z := load h T addr (XlateFlags true false false).
Definition guest_load_x (h : hart_t) (T addr : Z) : AM Z := load h T addr (XlateFlags true true false).

(** ** Stores *)

(** [bytes] are there when [actually_store] holds. *)
Definition store_slow_path_intrapage (h : hart_t) (len : Z) (bytes : list Z) (info : mem_access_info_t) (actually_store : bool) : AM unit := fun st =>
  let addr := vaddr info in
  let vpn := addr .>> PGSHIFT in
  if negb (is_special_access (flags info)) && (vpn =? plain_tag (tag_at st STORE vpn)) then
    (if actually_store then host_store (host_plus (host_offset (entry_at st vpn)) addr) bytes else aret tt) st
  else
    (paddr <~ on_bus (translate h info len);
     if actually_store then
       host_addr <~ on_bus (to_mem paddr);
       match host_addr with
       | Some p =>
           _ <~ host_store (HMem p) bytes;
           if negb (is_special_access (flags info)) then _ <~ refill_tlb h addr paddr (HMem p) STORE; aret tt else aret tt
       | None =>
           r <~ on_bus (mmio_store h paddr bytes);
           if negb r then athrow (MemTrap store_access_fault (effective_virt info) addr 0 0) else aret tt
       end
     else aret tt) st.

Definition store_slow_path (h : hart_t) (addr len : Z) (bytes : list Z) (fl : xlate_flags_t) (actually_store require_alignment : bool) : AM unit := fun st =>
  let info := generate_access_info h addr STORE fl in
  (_ <~ (if actually_store then _ <~ require_some (reg_from_bytes bytes); aret tt else aret tt);
   if negb (addr .& (len - 1) =? 0) then
     if negb (misaligned st) then athrow (MemTrap store_address_misaligned (effective_virt info) addr 0 0)
     else if require_alignment then athrow (MemTrap store_access_fault (effective_virt info) addr 0 0)
     else
       let len_page0 := first_part addr len in
       _ <~ store_slow_path_intrapage h len_page0 (take (Z.to_nat len_page0) bytes) info actually_store;
       if negb (len_page0 =? len) then
         store_slow_path_intrapage h (len - len_page0) (drop (Z.to_nat len_page0) bytes) (split_misaligned_access info len_page0) actually_store
       else aret tt
   else store_slow_path_intrapage h len bytes info actually_store) st.

Definition store (h : hart_t) (T addr val : Z) (fl : xlate_flags_t) : AM unit := fun st =>
  let vpn := addr .>> PGSHIFT in
  let tlb_hit := tag_at st STORE vpn =? vpn in
  let bytes := to_le (Z.to_nat T) val in
  if negb (is_special_access fl) && (aligned addr T && tlb_hit)
  then host_store (host_plus (host_offset (entry_at st vpn)) addr) bytes st
  else store_slow_path h addr T bytes fl true false st.

Definition guest_store (h : hart_t) (T addr val : Z) : AM unit := store h T addr val (XlateFlags true false false).

(** ** Atomic operations and reservations *)

Definition store_cause (c : cause_t) : cause_t :=
  match c with
  | load_address_misaligned => store_address_misaligned
  | load_page_fault => store_page_fault
  | load_access_fault => store_access_fault
  | load_guest_page_fault => store_guest_page_fault
  | c => c
  end.

Definition convert_load_traps_to_store_traps {A} (body : AM A) : AM A := fun st =>
  match body st with
  | (Throw t, st') => (Throw (MemTrap (store_cause (cause t)) (gva t) (tval t) (tval2 t) (tinst t)), st')
  | r => r
  end.

Definition amo (h : hart_t) (T addr : Z) (f : Z -> Z) : AM Z :=
  convert_load_traps_to_store_traps (
    _ <~ store_slow_path h addr T [] no_flags false true;
    lhs <~ load h T addr no_flags;
    _ <~ store h T addr (uwrap (8 * T) (f lhs)) no_flags;
    aret lhs).

Definition amo_compare_and_swap (h : hart_t) (T addr comp swap : Z) : AM Z :=
  convert_load_traps_to_store_traps (
    _ <~ store_slow_path h addr T [] no_flags false true;
    lhs <~ load h T addr no_flags;
    _ <~ (if lhs =? comp then store h T addr swap no_flags else aret tt);
    aret lhs).

Definition yield_load_reservation : AM unit := modify (fun st => set_reservation st (u64 (-1))).

Definition check_load_reservation (h : hart_t) (vaddr size : Z) : AM bool :=
  _ <~ (if negb (vaddr .& (size - 1) =? 0) then store_slow_path h vaddr size [] no_flags false true else aret tt);
  paddr <~ on_bus (translate h (generate_access_info h vaddr STORE no_flags) 1);
  ok <~ reservable paddr;
  if negb ok then athrow (MemTrap store_access_fault (virt_mode h) vaddr 0 0)
  else fun st => (Ok (load_reservation_address st =? paddr), st).

Definition store_conditional (h : hart_t) (T addr val : Z) : AM bool :=
  have_reservation <~ check_load_reservation h addr T;
  _ <~ (if have_reservation then store h T addr val no_flags else aret tt);
  _ <~ yield_load_reservation;
  aret have_reservation.

(** ** Quadruples and cache blocks *)

Definition store_float128 (h : hart_t) (addr lo hi : Z) : AM unit := fun st =>
  if negb (addr .& 15 =? 0) && negb (misaligned st) then (Throw (MemTrap store_address_misaligned (virt_mode h) addr 0 0), st) else
  (_ <~ store h 8 addr lo no_flags; store h 8 (u64 (addr + 8)) hi no_flags) st.

(** The order of the two loads is that of the list of initialisers. *)
Definition load_float128 (h : hart_t) (addr : Z) : AM (Z * Z) := fun st =>
  if negb (addr .& 15 =? 0) && negb (misaligned st) then (Throw (MemTrap load_address_misaligned (virt_mode h) addr 0 0), st) else
  (lo <~ load h 8 addr no_flags; hi <~ load h 8 (u64 (addr + 8)) no_flags; aret (lo, hi)) st.

Fixpoint cbo_zero_loop (h : hart_t) (base : Z) (n : nat) (offset : Z) : AM unit :=
  match n with
  | O => aret tt
  | S n => _ <~ store h 1 (u64 (base + offset)) 0 no_flags; cbo_zero_loop h base n (offset + 1)
  end.

Definition cbo_zero (h : hart_t) (addr : Z) : AM unit := fun st =>
  cbo_zero_loop h (addr .& u64 (Z.lnot (u64 (blocksz st - 1)))) (Z.to_nat (blocksz st)) 0 st.

Definition clean_inval (h : hart_t) (addr : Z) : AM unit :=
  convert_load_traps_to_store_traps (
    paddr <~ on_bus (translate h (generate_access_info h addr LOAD no_flags) 1);
    ok <~ reservable paddr;
    if ok then aret tt else athrow (MemTrap store_access_fault (virt_mode h) addr 0 0)).
End Access.

Arguments mmu_t : clear implicits.
