(* ===== verification/AccessBus.v ===== *)
(** * Spike: what every access keeps of the bus

    Memories keep their size and never lose a page, so host addresses into them stay
    good; devices stay as they should.  The operations of [Devices] keep this.

    Whatever the page tables hold and wherever they lie, the walk ends in an address
    or a trap, never outside a page or a register width, and keeps the bus. *)

From stdpp Require Import base option list gmap.
From S2P Require Import Prelude.
From S2P Require Import Arith.
From S2P Require Import Pmp.
From S2P Require Import Devices.
From S2P Require Import DevicesFacts.
From S2P Require Import Mmu.
From S2P Require Import MmuSpec.
From S2P Require Import MmuFacts.
From S2P Require Import MmuWalk.
From S2P Require Import MmuStages.
From S2P Require Import Memory.

Definition is_byte (x : Z) : Prop := 0 <= x < 256.

(** A device that answers with as many bytes as it is asked for, while it is as it
    should be. *)
Class SoundDevice (D : Type) `{Device D} := {
  dev_ok : D -> Prop;
  dev_load_ok : forall d a n r d', dev_ok d -> 0 <= a -> 0 <= n -> a + n < 2 ^ 64 -> dev_load d a n = (r, d') ->
    dev_ok d' /\ forall bytes, r = Some bytes -> length bytes = Z.to_nat n /\ Forall is_byte bytes;
  dev_store_ok : forall d a bytes r d', dev_ok d -> dev_store d a bytes = (r, d') -> dev_ok d'
}.

#[export] Program Instance rom_sound : SoundDevice rom_device_t := {| dev_ok rom := Forall is_byte rom |}.
Next Obligation.
  intros rom a n r rom' Hok Ha Hn Hb. simpl. rewrite uwrap_small by lia.
  destruct (Z.ltb_spec (Z.of_nat (length rom)) (a + n)); intros [= <- <-]; (split; [done|]); [done|]. intros bytes [= <-].
  split; [rewrite length_take, length_drop; lia|by apply Forall_take, Forall_drop].
Qed.
Next Obligation. intros rom a bytes r rom' Hok. simpl. by intros [= _ <-]. Qed.

(** ** Memories *)

Definition mem_good (m : mem_t) : Prop := mem_wf m /\ forall a, is_byte (mem_byte m a).

Definition mem_ext (m m' : mem_t) : Prop :=
  sz m' = sz m /\ forall k, is_Some (sparse_memory_map m !! k) -> is_Some (sparse_memory_map m' !! k).

#[export] Instance mem_ext_preorder : PreOrder mem_ext.
Proof.
  split; [by intros m|]. intros m1 m2 m3 [S1 P1] [S2 P2]. split; [congruence|auto].
Qed.

Lemma mem_byte_shape m : mem_good m -> mem_wf m.
Proof. by intros []. Qed.

Lemma contents_ext m addr m' p : mem_good m -> contents m addr = (m', p) -> mem_good m' /\ mem_ext m m'.
Proof.
  intros [Hw Hb] E. destruct (contents_spec _ _ _ _ Hw E) as (Hw' & Hs & Hb' & _ & _ & Hk).
  split; [|done]. split; [done|]. intros a. by rewrite Hb'.
Qed.

Lemma overwrite_byte f a bytes : (forall x, is_byte (f x)) -> Forall is_byte bytes -> forall x, is_byte (overwrite f a bytes x).
Proof.
  intros Hf Hb x. unfold overwrite. destruct (_ && _) eqn:E; [|done]. apply andb_prop in E as [E1%Z.leb_le E2%Z.ltb_lt].
  rewrite List.Forall_forall in Hb. apply Hb, nth_In. lia.
Qed.

Lemma copy_to_pages m p bytes m' : copy_to m p bytes = Some m' -> mem_ext m m'.
Proof.
  unfold copy_to. destruct (sparse_memory_map m !! p.1) as [page|] eqn:E; [|done]. simpl. destruct (_ <=? _); [|done]. intros [= <-].
  split; [done|]. intros k Hk. simpl. destruct (decide (p.1 = k)) as [<-|]; [rewrite lookup_insert_eq; by eexists|by rewrite lookup_insert_ne].
Qed.

Lemma contents_pages m addr : mem_ext m (contents m addr).1.
Proof.
  unfold contents. destruct (sparse_memory_map m !! _) eqn:E; [done|]. split; [done|]. intros k Hk. simpl.
  destruct (decide (addr .>> PGSHIFT = k)) as [<-|]; [rewrite lookup_insert_eq; by eexists|by rewrite lookup_insert_ne].
Qed.

Lemma load_store_loop_pages fuel : forall m addr len bytes store m' r,
  load_store_loop fuel m addr len bytes store = Some (m', r) -> mem_ext m m'.
Proof.
  induction fuel as [|fuel IH]; intros m addr len bytes store m' r; [done|]. cbn [load_store_loop].
  destruct (0 <? len); [|by intros [= <- _]]. pose proof (contents_pages m addr) as Hc. destruct (contents m addr) as [m1 p]. simpl in Hc.
  set (n := Z.min _ _). clearbody n. destruct store; simpl.
  - destruct (copy_to m1 p _) as [m2|] eqn:E; [|done]. simpl. apply copy_to_pages in E.
    destruct (load_store_loop fuel m2 _ _ _ _) as [[m3 r3]|] eqn:E3; [|done]. simpl. intros [= <- _]. apply IH in E3. by do 2 (etrans; [eassumption|]).
  - destruct (copy_from m1 p n) as [x|]; [|done]. simpl.
    destruct (load_store_loop fuel m1 _ _ _ _) as [[m3 r3]|] eqn:E3; [|done]. simpl. intros [= <- _]. apply IH in E3. by etrans; [eassumption|].
Qed.

Lemma bytes_at_bytes f a n : (forall x, is_byte (f x)) -> Forall is_byte (bytes_at f a n).
Proof. intros Hf. unfold bytes_at. apply Forall_map, Forall_forall. intros. apply Hf. Qed.

Lemma load_store_ext m addr len bytes store : mem_good m -> 0 <= addr < 2 ^ 64 -> 0 <= len < 2 ^ 64 -> length bytes = Z.to_nat len -> Forall is_byte bytes ->
  exists ok m' bytes', load_store m addr len bytes store = Some (ok, m', bytes') /\
    mem_good m' /\ mem_ext m m' /\ length bytes' = Z.to_nat len /\ Forall is_byte bytes'.
Proof.
  intros [Hw Hb] Ha Hl Hlen Hby. destruct (load_store_spec m addr len bytes store Hw Ha Hl Hlen) as (m' & bytes' & E & Ht).
  eexists _, m', bytes'. split; [exact E|]. assert (mem_ext m m') as Hext.
  { unfold load_store in E. destruct (_ || _); [by injection E as _ <- _|].
    destruct (load_store_loop _ _ _ _ _ _) as [[m1 r1]|] eqn:E1; [|done]. simpl in E. injection E as _ <- _. by apply load_store_loop_pages in E1. }
  destruct (_ <=? _).
  - destruct Ht as (Hw' & Hs & -> & Hm). split; [|split; [done|]].
    + split; [done|]. intros a. rewrite Hm. destruct store; [by apply overwrite_byte|done].
    + destruct store; [done|]. split; [apply length_bytes_at|by apply bytes_at_bytes].
  - destruct Ht as [-> ->]. done.
Qed.

(** ** The bus *)

Section Bus.
Context {D : Type} `{SoundDevice D}.
Implicit Types (b : bus_t D) (dev : device D).

Definition dev_good dev : Prop := match dev with DMem m => mem_good m | DDev d => dev_ok d end.

Definition dev_ext dev dev' : Prop :=
  match dev, dev' with DMem m, DMem m' => mem_ext m m' | DDev _, DDev _ => True | _, _ => False end.

#[export] Instance dev_ext_preorder : PreOrder dev_ext.
Proof.
  split; [by intros [m|d]; simpl|]. intros [m1|d1] [m2|d2] [m3|d3]; simpl; try done. intros. by etrans.
Qed.

Record bus_good b : Prop := { good_wf : bus_wf b; good_devices : Forall (fun p => dev_good p.2) b }.

Definition bus_ext b b' : Prop := Forall2 (fun p p' => p'.1 = p.1 /\ dev_ext p.2 p'.2) b b'.

#[export] Instance bus_ext_preorder : PreOrder bus_ext.
Proof.
  unfold bus_ext. split.
  - intros b. induction b as [|[a d] b IH]; constructor; [by split|done].
  - intros b1 b2 b3 H12. revert b3. induction H12 as [|p1 p2 b1 b2 [E1 X1] H12 IH]; intros b3 H23; inversion H23 as [|? p3 ? ? [E2 X2]]; subst; constructor; [|by apply IH].
    split; [congruence|by etrans].
Qed.

Lemma dev_good_wf dev : dev_good dev -> device_wf dev.
Proof. destruct dev; [|done]. by intros []. Qed.

Lemma set_device_ext b a dev dev' : get_device b a = Some dev -> dev_ext dev dev' -> bus_ext b (set_device b a dev').
Proof.
  unfold bus_ext. intros Hg He. induction b as [|[a' d] b IH]; simpl in *; [done|]. destruct (Z.eqb_spec a' a).
  - injection Hg as ->. constructor; [done|]. by change (bus_ext b b).
  - constructor; [by split|by apply IH].
Qed.

Lemma set_device_good b a dev dev' : bus_good b -> get_device b a = Some dev -> dev_ext dev dev' -> dev_good dev' ->
  bus_good (set_device b a dev') /\ bus_ext b (set_device b a dev').
Proof.
  intros [Hw Hd] Hg He Hn. split; [|by eapply set_device_ext]. split; [apply set_device_wf; [done|by apply dev_good_wf]|].
  clear Hg He Hw. induction b as [|[a' d] b IH]; simpl; [done|]. inversion Hd; subst. destruct (Z.eqb_spec a' a); constructor; auto.
Qed.

Lemma find_good b a base dev : bus_good b -> find_device b a = Some (base, dev) ->
  dev_good dev /\ 0 <= base <= a /\ get_device b base = Some dev.
Proof.
  intros [Hw Hd] E. destruct (find_device_le _ _ _ _ E) as [Hle Hin]. rewrite List.Forall_forall in Hd. specialize (Hd _ Hin).
  pose proof (wf_aligned _ Hw) as Ha. rewrite List.Forall_forall in Ha. specialize (Ha _ Hin). simpl in *.
  split; [done|]. split; [lia|]. apply (get_device_find b a); [apply Hw|done].
Qed.

Lemma find_ext b b' a : bus_ext b b' ->
  match find_device b a, find_device b' a with
  | Some (x, d), Some (x', d') => x' = x /\ dev_ext d d'
  | None, None => True
  | _, _ => False
  end.
Proof.
  intros He. induction He as [|[x d] [x' d'] b b' [E X] He IH]; simpl in *; [done|]. subst x'.
  destruct (x <=? a); [|done]. destruct (find_device b a) as [[y e]|], (find_device b' a) as [[y' e']|]; try done.
Qed.

Lemma points_ext b b' p a : bus_ext b b' -> points b p a -> points b' p a.
Proof.
  intros He (Hok & base & m & E & Hlt & -> & Hp). split; [done|]. pose proof (find_ext b b' a He) as Hf. rewrite E in Hf.
  destruct (find_device b' a) as [[x' [m'|d']]|]; [|by destruct Hf|done]. destruct Hf as [-> [Hs Hk]].
  exists base, m'. split; [done|]. split; [lia|]. split; [done|auto].
Qed.

Lemma peek_byte b a x : bus_good b -> peek b a = Some x -> is_byte x.
Proof.
  intros Hg. unfold peek. destruct (negb _); [done|]. destruct (find_device b a) as [[base [m|d]]|] eqn:E; [|done|done].
  destruct (_ <? _); [|done]. intros [= <-]. destruct (find_good _ _ _ _ Hg E) as ([_ Hm] & _). apply Hm.
Qed.

Lemma byte_byte b a : bus_good b -> is_byte (byte b a).
Proof. intros Hg. unfold byte. destruct (peek b a) eqn:E; simpl; [by eapply peek_byte|unfold is_byte; lia]. Qed.

(** ** Operations *)

Lemma addr_to_mem_ext b a b' r : bus_good b -> addr_to_mem b a = (b', r) ->
  bus_good b' /\ bus_ext b b' /\ forall p, r = Some p -> points b' p a.
Proof.
  intros Hg. unfold addr_to_mem. destruct (paddr_ok a) eqn:Eok; cbn [negb]; [|by intros [= <- <-]].
  destruct (find_device b a) as [[base [m|d]]|] eqn:E; [|by intros [= <- <-]..].
  destruct (Z.ltb_spec (a - base) (sz m)) as [Hlt|]; [|by intros [= <- <-]].
  destruct (find_good _ _ _ _ Hg E) as (Hm & Hle & Hget). destruct (contents m (a - base)) as [m' p] eqn:Ec.
  destruct (contents_ext _ _ _ _ Hm Ec) as [Hm' Hx]. destruct (contents_spec _ _ _ _ (proj1 Hm) Ec) as (_ & Hs & _ & -> & Hpres & _).
  intros [= <- <-]. destruct (set_device_good b base (DMem m) (DMem m') Hg Hget Hx Hm') as [H1 H2]. split; [done|]. split; [done|].
  intros p [= <-]. split; [done|]. exists base, m'. rewrite find_set_device, E, Z.eqb_refl by apply Hg. split; [done|]. rewrite Hs. done.
Qed.

Lemma points_load b p a n : bus_good b -> points b p a -> 0 <= a -> 0 <= n -> a mod PGSIZE + n <= PGSIZE ->
  exists bytes, host_read b p n = Some bytes /\ length bytes = Z.to_nat n /\ Forall is_byte bytes.
Proof.
  intros Hg Hp Ha Hn Hpage. rewrite (points_read b p a n) by (apply Hg || done). eexists. split; [done|].
  split; [apply length_bytes_at|apply bytes_at_bytes; intros; by apply byte_byte].
Qed.

Lemma points_store b p a bytes : bus_good b -> points b p a -> 0 <= a -> a mod PGSIZE + Z.of_nat (length bytes) <= PGSIZE -> Forall is_byte bytes ->
  exists b', host_write b p bytes = Some b' /\ bus_good b' /\ bus_ext b b'.
Proof.
  intros Hg Hp Ha Hpage Hby. pose proof Hp as (Hok & base & m & E & Hlt & -> & Hpres). destruct (find_good _ _ _ _ Hg E) as (Hm & Hle & Hget).
  pose proof (find_mem_wf _ _ _ _ (good_wf _ Hg) E) as (_ & _ & _ & Hbal).
  assert ((a - base) mod PGSIZE = a mod PGSIZE) as Emod. { rewrite Zminus_mod, Hbal, Z.sub_0_r. apply Zmod_mod. }
  pose proof (page_offset a). unfold host_write. cbn [fst snd]. rewrite Hget, Emod.
  destruct (copy_to_spec m ((a - base) .>> PGSHIFT) (a mod PGSIZE) bytes (proj1 Hm) Hpres) as (m' & E' & Hw' & Hs & Hb & _); [lia|lia|].
  rewrite E'. cbn [mbind option_bind]. eexists. split; [done|]. apply (set_device_good b base (DMem m)); [done|done|by apply copy_to_pages in E'|].
  split; [done|]. intros x. rewrite Hb. apply overwrite_byte; [apply Hm|done].
Qed.

Lemma replicate_bytes n : Forall is_byte (replicate n 0).
Proof. apply Forall_replicate. unfold is_byte. lia. Qed.

Lemma no_wrap a n : 0 <= a -> 0 < n < 2 ^ 64 -> (u64 (a + n) <? a) = false -> a < 2 ^ 64 -> a + n < 2 ^ 64.
Proof.
  intros Ha Hn E%Z.ltb_ge Hb. destruct (Z.lt_ge_cases (a + n) (2 ^ 64)); [done|]. unfold uwrap in E.
  rewrite <- (Z_mod_plus_full (a + n) (-1)), Z.mod_small in E; lia.
Qed.

Lemma mmio_load_ext b paddr len : bus_good b -> 0 <= paddr < 2 ^ 64 -> 0 < len < 2 ^ 64 ->
  exists r b', sim_mmio_load b paddr len = Some (r, b') /\ bus_good b' /\ bus_ext b b' /\
    forall bytes, r = Some bytes -> length bytes = Z.to_nat len /\ Forall is_byte bytes.
Proof.
  intros Hg Hp Hl. unfold sim_mmio_load. destruct (u64 (paddr + len) <? paddr) eqn:Ew; cbn [orb]; [by eexists _, _|].
  destruct (negb _); [by eexists _, _|]. pose proof (no_wrap _ _ (proj1 Hp) Hl Ew (proj2 Hp)) as Hsum.
  unfold bus_load. destruct (find_device b paddr) as [[base [m|d]]|] eqn:E; [| |by eexists _, _];
    destruct (find_good _ _ _ _ Hg E) as (Hd & Hle & Hget).
  - destruct (load_store_ext m (paddr - base) len (replicate (Z.to_nat len) 0) false Hd) as (ok & m' & bytes & -> & Hm' & Hx & Hlen & Hby);
      [lia|lia|apply length_replicate|apply replicate_bytes|].
    cbn [mbind option_bind]. eexists _, _. split; [done|]. destruct (set_device_good b base (DMem m) (DMem m') Hg Hget Hx Hm') as [H1 H2].
    split; [done|]. split; [done|]. by destruct ok; intros ? [= <-].
  - destruct (dev_load d (paddr - base) len) as [r d'] eqn:Ed. destruct (dev_load_ok d (paddr - base) len r d' Hd) as [Hd' Hr]; [lia|lia|lia|done|].
    eexists _, _. split; [done|]. by destruct (set_device_good b base (DDev d) (DDev d') Hg Hget I Hd') as [H1 H2].
Qed.

Lemma mmio_store_ext b paddr bytes : bus_good b -> 0 <= paddr < 2 ^ 64 -> 0 < Z.of_nat (length bytes) < 2 ^ 64 -> Forall is_byte bytes ->
  exists r b', sim_mmio_store b paddr bytes = Some (r, b') /\ bus_good b' /\ bus_ext b b'.
Proof.
  intros Hg Hp Hl Hby. unfold sim_mmio_store. cbv zeta. destruct (u64 (paddr + _) <? paddr) eqn:Ew; cbn [orb]; [by eexists _, _|].
  destruct (negb _); [by eexists _, _|]. pose proof (no_wrap _ _ (proj1 Hp) Hl Ew (proj2 Hp)) as Hsum.
  unfold bus_store. destruct (find_device b paddr) as [[base [m|d]]|] eqn:E; [| |by eexists _, _];
    destruct (find_good _ _ _ _ Hg E) as (Hd & Hle & Hget).
  - destruct (load_store_ext m (paddr - base) (Z.of_nat (length bytes)) bytes true Hd) as (ok & m' & bytes' & -> & Hm' & Hx & _); [lia|lia|by rewrite Nat2Z.id|done|].
    cbn [mbind option_bind]. eexists _, _. split; [done|]. by apply (set_device_good b base (DMem m)).
  - destruct (dev_store d (paddr - base) bytes) as [r d'] eqn:Ed. pose proof (dev_store_ok d _ _ _ _ Hd Ed) as Hd'.
    eexists _, _. split; [done|]. by apply (set_device_good b base (DDev d)).
Qed.
End Bus.

(** ** Steps that end

    A step from [s] ends in a value or a trap, keeps the invariant, and takes the
    state to one that extends it. *)

Section Ends.
Context {S : Type} (inv : S -> Prop) (ext : S -> S -> Prop) `{!PreOrder ext}.

Definition ends {A} (s : S) (P : A -> S -> Prop) (r : result A * S) : Prop :=
  inv r.2 /\ ext s r.2 /\ match r.1 with Ok a => P a r.2 | Throw _ => True | Undef => False end.

Lemma ends_ok {A} s (P : A -> S -> Prop) a : inv s -> P a s -> ends s P (Ok a, s).
Proof. intros. by split. Qed.

Lemma ends_throw {A} s (P : A -> S -> Prop) t : inv s -> ends s P (Throw t, s).
Proof. intros. by split. Qed.

Lemma ends_then {A B} s (P : A -> S -> Prop) (Q : B -> S -> Prop) r (f : A -> S -> result B * S) :
  ends s P r -> (forall a s', inv s' -> ext s s' -> P a s' -> ends s' Q (f a s')) ->
  ends s Q (match r with (Ok a, s') => f a s' | (Throw t, s') => (Throw t, s') | (Undef, s') => (Undef, s') end).
Proof.
  destruct r as [[a|t|] s']; intros (Hi & He & Hp) Hf; simpl in *; [|by split|done].
  destruct (Hf a s' Hi He Hp) as (Hi' & He' & Hq). split; [done|]. split; [by etrans|done].
Qed.

Lemma ends_weaken {A} s (P Q : A -> S -> Prop) r : ends s P r -> (forall a s', inv s' -> ext s s' -> P a s' -> Q a s') -> ends s Q r.
Proof. intros (Hi & He & Hp) Hpq. split; [done|]. split; [done|]. destruct r as [[a|t|] s']; simpl in *; auto. Qed.
End Ends.

Section Walk.
Context {D : Type} `{SoundDevice D}.
Implicit Types b : bus_t D.

Notation bus_ends := (ends (bus_good (D := D)) (bus_ext (D := D))).

Lemma bus_bind {A B} b (P : A -> bus_t D -> Prop) (Q : B -> bus_t D -> Prop) m f :
  bus_ends b P (m b) -> (forall a b', bus_good b' -> bus_ext b b' -> P a b' -> bus_ends b' Q (f a b')) -> bus_ends b Q (bind m f b).
Proof. intros Hm Hf. unfold bind. by apply (ends_then _ _ b P). Qed.

Lemma bus_throw {A} b (P : A -> bus_t D -> Prop) t : bus_good b -> bus_ends b P (throw t b).
Proof. intros. by apply ends_throw; [apply _|]. Qed.

Lemma bus_ret {A} b (P : A -> bus_t D -> Prop) a : bus_good b -> P a b -> bus_ends b P (ret a b).
Proof. intros. by apply ends_ok; [apply _|..]. Qed.

(** ** Devices *)

Definition loads_bytes (n : Z) (r : option (list Z)) (b : bus_t D) : Prop :=
  forall bytes, r = Some bytes -> length bytes = Z.to_nat n /\ Forall is_byte bytes.

Lemma mmio_load_whole_ends h paddr len b : bus_good b -> 0 <= paddr < 2 ^ 64 -> 0 < len < 2 ^ 64 ->
  bus_ends b (loads_bytes len) (mmio_load_whole h paddr len b).
Proof.
  intros Hg Hp Hl. unfold mmio_load_whole. destruct (mmio_ok h paddr); [|by apply bus_ret].
  destruct (mmio_load_ext b paddr len Hg Hp Hl) as (r & b' & E & H1 & H2 & H3). unfold lift. rewrite E. by split.
Qed.

Lemma mmio_store_whole_ends h paddr bytes b : bus_good b -> 0 <= paddr < 2 ^ 64 -> 0 < Z.of_nat (length bytes) < 2 ^ 64 -> Forall is_byte bytes ->
  bus_ends b (fun _ _ => True) (mmio_store_whole h paddr bytes b).
Proof.
  intros Hg Hp Hl Hby. unfold mmio_store_whole. destruct (mmio_ok h paddr); [|by apply bus_ret].
  destruct (mmio_store_ext b paddr bytes Hg Hp Hl Hby) as (r & b' & E & H1 & H2). unfold lift. rewrite E. by split.
Qed.

Lemma mmio_load_bytes_ends h n : forall paddr b, bus_good b -> 0 <= paddr < 2 ^ 64 -> bus_ends b (loads_bytes (Z.of_nat n)) (mmio_load_bytes h paddr n b).
Proof.
  induction n as [|n IH]; intros paddr b Hg Hp; cbn [mmio_load_bytes]; [apply bus_ret; [done|]; by intros bytes [= <-]|].
  apply (bus_bind _ (loads_bytes 1)); [by apply mmio_load_whole_ends|]. intros [x|] b1 Hg1 _ Hx; [|by apply bus_ret].
  apply (bus_bind _ (loads_bytes (Z.of_nat n))); [apply IH; [done|apply uwrap_range; lia]|]. intros [r|] b2 Hg2 _ Hr; apply bus_ret; try done.
  intros bytes [= <-]. destruct (Hx x eq_refl), (Hr r eq_refl). split; [rewrite length_app; lia|by apply Forall_app].
Qed.

Lemma mmio_store_bytes_ends h bytes : forall paddr b, bus_good b -> 0 <= paddr < 2 ^ 64 -> Forall is_byte bytes ->
  bus_ends b (fun _ _ => True) (mmio_store_bytes h paddr bytes b).
Proof.
  induction bytes as [|x bytes IH]; intros paddr b Hg Hp Hby; cbn [mmio_store_bytes]; [by apply bus_ret|]. inversion Hby; subst.
  apply (bus_bind _ (fun _ _ => True)); [apply mmio_store_whole_ends; [done|done|done|by constructor]|]. intros ok b1 Hg1 _ _.
  destruct (negb ok); [by apply bus_ret|]. apply IH; [done|apply uwrap_range; lia|done].
Qed.

Lemma mmio_load_ends h paddr len b : bus_good b -> 0 <= paddr < 2 ^ 64 -> 0 < len < 2 ^ 64 -> bus_ends b (loads_bytes len) (mmio_load h paddr len b).
Proof.
  intros. unfold mmio_load. destruct (naturally_aligned _ _); [by apply mmio_load_whole_ends|].
  rewrite <- (Z2Nat.id len) at 1 by lia. by apply mmio_load_bytes_ends.
Qed.

Lemma mmio_store_ends h paddr bytes b : bus_good b -> 0 <= paddr < 2 ^ 64 -> 0 < Z.of_nat (length bytes) < 2 ^ 64 -> Forall is_byte bytes ->
  bus_ends b (fun _ _ => True) (mmio_store h paddr bytes b).
Proof.
  intros. unfold mmio_store. destruct (naturally_aligned _ _); [by apply mmio_store_whole_ends|by apply mmio_store_bytes_ends].
Qed.

Lemma to_mem_ends paddr b : bus_good b -> bus_ends b (fun r b' => forall p, r = Some p -> points b' p paddr) (to_mem paddr b).
Proof.
  intros Hg. unfold to_mem. destruct (addr_to_mem b paddr) as [b' r] eqn:E. destruct (addr_to_mem_ext _ _ _ _ Hg E) as (H1 & H2 & H3). by split.
Qed.

(** ** Entries *)

Definition in_word (n a : Z) : Prop := 0 <= a < 2 ^ 64 /\ a mod PGSIZE + n <= PGSIZE.

Lemma to_le_is_bytes n v : Forall is_byte (to_le n v).
Proof. apply to_le_bytes. Qed.

Lemma pte_load_T_ends h T a addr virt tt b : bus_good b -> T = 4 \/ T = 8 -> in_word T a -> bus_ends b (fun e _ => 0 <= e < 2 ^ 64) (pte_load_T h T a addr virt tt b).
Proof.
  intros Hg HT [Ha Hp]. assert (forall bytes, length bytes = Z.to_nat T -> Forall is_byte bytes -> 0 <= from_le bytes < 2 ^ 64) as Hle.
  { intros bytes Hl Hb. pose proof (from_le_range bytes Hb) as Hr. rewrite Hl in Hr. pose proof (pow2_le (8 * Z.of_nat (Z.to_nat T)) 64 ltac:(lia)). lia. }
  unfold pte_load_T. destruct (negb _); [by apply bus_throw|].
  apply (bus_bind _ _ _ _ _ (to_mem_ends a b Hg)). intros [p|] b1 Hg1 _ Hpt.
  - destruct (points_load b1 p a T Hg1 (Hpt p eq_refl)) as (bytes & E & Hl & Hb); [lia|lia|done|].
    apply (bus_bind _ (fun x _ => x = bytes)); [unfold lift; rewrite E; by apply ends_ok; [apply _|..]|]. intros x b2 Hg2 _ ->. apply bus_ret; auto.
  - apply (bus_bind _ _ _ _ _ (mmio_load_ends h a T b1 Hg1 Ha ltac:(lia))). intros [bytes|] b2 Hg2 _ Hr; [|by apply bus_throw].
    destruct (Hr bytes eq_refl). apply bus_ret; auto.
Qed.

Lemma pte_store_T_ends h T a v addr virt tt b : bus_good b -> T = 4 \/ T = 8 -> in_word T a -> bus_ends b (fun _ _ => True) (pte_store_T h T a v addr virt tt b).
Proof.
  intros Hg HT [Ha Hp]. unfold pte_store_T. destruct (negb _); [by apply bus_throw|].
  set (bytes := to_le _ _). assert (Z.of_nat (length bytes) = T) as Hl by (unfold bytes; rewrite length_to_le; lia).
  pose proof (to_le_is_bytes (Z.to_nat T) (uwrap (8 * T) v)) as Hby. fold bytes in Hby.
  apply (bus_bind _ _ _ _ _ (to_mem_ends a b Hg)). intros [p|] b1 Hg1 _ Hpt.
  - destruct (points_store b1 p a bytes Hg1 (Hpt p eq_refl)) as (b2 & E & Hg2 & He); [lia|lia|done|]. unfold lift. rewrite E. by split.
  - apply (bus_bind _ (fun _ _ => True)); [apply mmio_store_ends; [done|done|lia|done]|].
    intros ok b2 Hg2 _ _. destruct (negb ok); [by apply bus_throw|by apply bus_ret].
Qed.

Lemma pte_load_ends h a addr virt tt n b : bus_good b -> n = 4 \/ n = 8 -> in_word n a -> bus_ends b (fun e _ => 0 <= e < 2 ^ 64) (pte_load h a addr virt tt n b).
Proof. intros Hg [-> | ->] Ha; unfold pte_load; apply pte_load_T_ends; auto. Qed.

Lemma pte_store_ends h a v addr virt tt n b : bus_good b -> n = 4 \/ n = 8 -> in_word n a -> bus_ends b (fun _ _ => True) (pte_store h a v addr virt tt n b).
Proof. intros Hg [-> | ->] Ha; unfold pte_store; apply pte_store_T_ends; auto. Qed.

(** ** The second stage *)

(** An address with the offset of another. *)
Definition same_offset (a : Z) (r : Z) (_ : bus_t D) : Prop := 0 <= r < 2 ^ 64 /\ r mod 4096 = a mod 4096.

Lemma page_base_offset e vpn s x : same_offset x (page_base e vpn s .| (x .& page_mask)) [].
Proof.
  unfold page_base. match goal with |- context [u64 (?x .<< PGSHIFT)] => generalize x; intros f end. rewrite page_mask_mod. unfold PGSHIFT. rewrite shiftl_mul by lia.
  assert (u64 (f * 2 ^ 12) = (f mod 2 ^ 52) * 2 ^ 12) as ->.
  { unfold uwrap. change (2 ^ 64) with (2 ^ 52 * 2 ^ 12). rewrite Z.mul_mod_distr_r by lia. done. }
  pose proof (Z.mod_pos_bound f (2 ^ 52) ltac:(lia)). pose proof (Z.mod_pos_bound x 4096 ltac:(lia)). change 4096 with (2 ^ 12) in *.
  rewrite lor_low_add by lia. split; [lia|]. rewrite Z.add_comm, Z.mod_add by lia. by apply Z.mod_small.
Qed.

Section Stage.
Context (h : hart_t) (vm : vm_info) (Hvm : vm_ok vm).

Lemma next_base_in_word e : 0 <= e -> let base := u64 (pte_ppn e .<< PGSHIFT) in 0 <= base < 2 ^ 57 /\ base mod 4096 = 0.
Proof. intros He. destruct (next_base e He) as (E & H1 & H2). by rewrite E. Qed.

Lemma index_in_word base va n : (n < depth (scheme_of vm))%nat -> 0 <= base < 2 ^ 57 -> base mod 4096 = 0 ->
  in_word (ptesize vm) (u64 (base + u64 (vpn (scheme_of vm) va n * ptesize vm))).
Proof.
  intros Hn Hb Hm. destruct (entry_in_page vm Hvm base va n Hb Hm) as (H1 & H2 & E). split; [apply uwrap_range; lia|by rewrite E].
Qed.

Lemma s2_loop_ends gva gpa ty tt virt hx is_pt n : forall base b, bus_good b -> (n <= depth (scheme_of vm))%nat -> 0 <= base < 2 ^ 57 -> base mod 4096 = 0 ->
  bus_ends b (same_offset gpa) (s2_loop h vm gva gpa ty tt virt hx is_pt n base b).
Proof.
  induction n as [|n IH]; intros base b Hg Hn Hb Hm; [by apply bus_throw|]. cbn [s2_loop]. rewrite (index2_vpn vm Hvm gpa n) by lia.
  pose proof (index_in_word base gpa n ltac:(lia) Hb Hm) as Hw. pose proof (entry_size vm Hvm) as Hsz.
  apply (bus_bind _ _ _ _ _ (pte_load_ends h _ gva virt tt _ b Hg Hsz Hw)). intros e b1 Hg1 _ He. cbv zeta.
  destruct (pte_reserved _ _ _); [by apply bus_throw|]. destruct (PTE_TABLE e).
  { destruct (nz _); [by apply bus_throw|]. destruct (next_base_in_word e (proj1 He)). apply IH; [done|lia|done|done]. }
  destruct (_ || _); [by apply bus_throw|]. destruct (negb (nz (e .& PTE_U))); [by apply bus_throw|]. destruct (pte_denies _ _ _ _); [by apply bus_throw|].
  destruct (nz _); [by apply bus_throw|].
  assert (forall b2, bus_good b2 -> bus_ends b2 (same_offset gpa)
    ((if bad_napot e (Z.of_nat n) then guest_page_fault h gva gpa ty tt is_pt
      else ret (page_base e (gpa .>> PGSHIFT) (Z.of_nat n * idxbits vm) .| (gpa .& page_mask))) b2)) as Hfin.
  { intros b2 Hg2. destruct (bad_napot _ _); [by apply bus_throw|]. apply bus_ret; [done|]. apply page_base_offset. }
  destruct (negb _); [|by apply Hfin]. destruct (nz _); [|by apply bus_throw].
  apply (bus_bind _ _ _ _ _ (pte_store_ends h _ _ gva virt ty _ b1 Hg1 Hsz Hw)). intros _ b2 Hg2 _ _. by apply Hfin.
Qed.
End Stage.

Lemma s2xlate_ends h gva gpa ty tt virt hx is_pt b : bus_good b -> 0 <= gpa < 2 ^ 64 -> (virt = true -> is_Some (decode_vm_info (hart_xlen h) true 0 (hgatp h))) ->
  bus_ends b (same_offset gpa) (s2xlate h gva gpa ty tt virt hx is_pt b).
Proof.
  intros Hg Hgpa Hd. unfold s2xlate. destruct virt; cbn [negb]; [|by apply bus_ret]. destruct (Hd eq_refl) as [vm Ev]. rewrite Ev.
  destruct (Z.eqb_spec (levels vm) 0) as [E|Hl]; [by apply bus_ret|]. destruct (decode_stage2 _ _ _ Ev Hl) as [Hvm _].
  destruct (_ =? 0); [|by apply bus_throw]. destruct (vm_base vm Hvm). apply s2_loop_ends; [done|done|simpl; lia|done|done].
Qed.

(** ** The walk *)

(** The roots that a walk with this mode uses can be decoded. *)
Definition roots_ok (h : hart_t) (p : Z) (virt : bool) : Prop :=
  (hart_xlen h = 32 \/ hart_xlen h = 64) /\
  (exists vm, decode_vm_info (hart_xlen h) false p (satp_readvirt h virt) = Some vm /\ levels vm <> 6) /\
  is_Some (decode_vm_info (hart_xlen h) true 0 (hgatp h)).

Definition whole_page (r : Z) (_ : bus_t D) : Prop := 0 <= r < 2 ^ 64 /\ r mod 4096 = 0.

Lemma page_of_address pa : 0 <= pa < 2 ^ 64 -> 0 <= pa .& u64 (Z.lnot page_mask) < 2 ^ 64 /\ (pa .& u64 (Z.lnot page_mask)) mod 4096 = 0.
Proof.
  intros Hp. change page_mask with (u64 (1 .<< 12) - 1). rewrite (clear_low pa 12) by lia. change 4096 with (2 ^ 12).
  pose proof (Z.div_mod pa (2 ^ 12)). pose proof (Z.mod_pos_bound pa (2 ^ 12)). split; [lia|]. apply Z.mod_mul. lia.
Qed.

Section Loop.
Context (h : hart_t) (vm : vm_info) (Hvm : vm_ok vm) (info : mem_access_info_t).
Hypothesis Hwiden : widenbits vm = 0.
Hypothesis Hs2 : is_Some (decode_vm_info (hart_xlen h) true 0 (hgatp h)).

Lemma walk_loop_ends n : forall base b, bus_good b -> (n <= depth (scheme_of vm))%nat -> 0 <= base < 2 ^ 57 -> base mod 4096 = 0 ->
  bus_ends b whole_page (walk_loop h vm info n base b).
Proof.
  induction n as [|n IH]; intros base b Hg Hn Hb Hm; [by apply bus_throw|]. cbn [walk_loop]. cbv zeta. rewrite (index_vpn vm Hvm (vaddr info) n) by (lia || done).
  pose proof (index_in_word vm Hvm base (vaddr info) n ltac:(lia) Hb Hm) as Hw. pose proof (entry_size vm Hvm) as Hsz. set (a := u64 (base + _)) in *.
  apply (bus_bind _ _ _ _ _ (s2xlate_ends h (vaddr info) a LOAD (type info) (effective_virt info) false true b Hg (proj1 Hw) (fun _ => Hs2))).
  intros pa b1 Hg1 _ [Hpa Epa]. assert (in_word (ptesize vm) pa) as Hwp by (split; [done|]; destruct Hw as [_ Hw]; rewrite pgsize in *; lia).
  apply (bus_bind _ _ _ _ _ (pte_load_ends h pa _ _ _ _ b1 Hg1 Hsz Hwp)). intros e b2 Hg2 _ He.
  destruct (pte_reserved _ _ _); [by apply bus_throw|]. destruct (PTE_TABLE e).
  { destruct (nz _); [by apply bus_throw|]. destruct (next_base_in_word e (proj1 He)). apply IH; [done|lia|done|done]. }
  destruct (if nz (e .& PTE_U) then _ else _); [by apply bus_throw|]. destruct (_ || _); [by apply bus_throw|].
  destruct (pte_denies _ _ _ _); [by apply bus_throw|]. destruct (nz (pte_ppn e .& _)); [by apply bus_throw|].
  match goal with |- context [bind (s2xlate h (vaddr info) a STORE _ _ _ _) (fun _ => bind _ (fun _ => ?f))] => set (finish := f) end.
  assert (forall b3, bus_good b3 -> bus_ends b3 whole_page (finish b3)) as Hfin.
  { intros b3 Hg3. unfold finish. destruct (bad_napot _ _); [by apply bus_throw|].
    destruct (page_base_offset e (vaddr info .>> PGSHIFT) (Z.of_nat n * idxbits vm) (vaddr info)) as [Hr _].
    apply (bus_bind _ _ _ _ _ (s2xlate_ends h (vaddr info) _ (type info) (type info) (effective_virt info) (hlvx (flags info)) false b3 Hg3 Hr (fun _ => Hs2))).
    intros x b4 Hg4 _ [Hx _]. apply bus_ret; [done|]. by apply page_of_address. }
  destruct (negb (_ =? _)); [|by apply Hfin]. destruct (if effective_virt info then _ else _); [|by apply bus_throw].
  apply (bus_bind _ _ _ _ _ (s2xlate_ends h (vaddr info) a STORE (type info) (effective_virt info) false true b2 Hg2 (proj1 Hw) (fun _ => Hs2))).
  intros _ b3 Hg3 _ _. apply (bus_bind _ _ _ _ _ (pte_store_ends h pa _ _ _ _ _ b3 Hg3 Hsz Hwp)). intros _ b4 Hg4 _ _. by apply Hfin.
Qed.
End Loop.

Lemma walk_ends h info b : bus_good b -> roots_ok h (effective_priv info) (effective_virt info) -> 0 <= vaddr info < 2 ^ 64 ->
  bus_ends b whole_page (walk h info b).
Proof.
  intros Hg (Hx & (vm & Ev & Hl6) & Hs2) Hva. unfold walk. rewrite Ev. destruct (Z.eqb_spec (levels vm) 0) as [E|Hl].
  - assert (0 <= vaddr info .& u64 (u64 (2 .<< (hart_xlen h - 1)) - 1) < 2 ^ 64) as Hr.
    { pose proof (land_le_r (vaddr info) (u64 (u64 (2 .<< (hart_xlen h - 1)) - 1))) as Hle. pose proof (uwrap_range 64 (u64 (2 .<< (hart_xlen h - 1)) - 1)). lia. }
    apply (bus_bind _ _ _ _ _ (s2xlate_ends h (vaddr info) _ (type info) (type info) (effective_virt info) (hlvx (flags info)) false b Hg Hr (fun _ => Hs2))).
    intros pa b1 Hg1 _ [Hpa _]. apply bus_ret; [done|]. by apply page_of_address.
  - destruct (decode_stage1 _ _ _ _ Ev Hl Hl6) as (Hvm & Hw & Hbits & _).
    destruct (Z.ltb_spec (hart_xlen h - (PGSHIFT + levels vm * idxbits vm - 1)) 0); [lia|].
    destruct (Z.leb_spec 64 (hart_xlen h - (PGSHIFT + levels vm * idxbits vm - 1))); [lia|]. cbn [orb]. cbv zeta.
    destruct (vm_base vm Hvm). pose proof (vm_levels vm Hvm). apply walk_loop_ends; try done. simpl. destruct (_ && _); simpl; lia.
Qed.

Lemma translate_ends h info len b : bus_good b -> roots_ok h (effective_priv info) (effective_virt info) -> 0 <= vaddr info < 2 ^ 64 ->
  bus_ends b (same_offset (vaddr info)) (translate h info len b).
Proof.
  intros Hg Hr Hva. unfold translate. apply (bus_bind _ _ _ _ _ (walk_ends h info b Hg Hr Hva)). intros page b1 Hg1 _ [Hp Hm]. cbv zeta.
  destruct (negb _); [by apply bus_throw|]. apply bus_ret; [done|]. change (PGSIZE - 1) with page_mask. rewrite page_mask_mod.
  pose proof (Z.mod_pos_bound (vaddr info) 4096 ltac:(lia)). pose proof (Z.div_mod page 4096 ltac:(lia)). rewrite Hm in *.
  replace page with (page / 4096 * 2 ^ 12) by lia. change 4096 with (2 ^ 12) in *. rewrite lor_low_add by lia.
  split; [|rewrite Z.add_comm, Z.mod_add by lia; by apply Z.mod_small].
  assert (page / 2 ^ 12 <= 2 ^ 52 - 1) by (apply Z.lt_le_pred; apply Z.div_lt_upper_bound; lia). lia.
Qed.
End Walk.
