(* ===== verification/AccessPaths.v ===== *)
(** * Spike: every access ends

    The invariant of an [mmu_t] - a valid tag stands for an entry whose host address
    is that of a page of memory - and that every access keeps it and ends in a
    value or a trap; the memory of the harts as an instance of [Memory].

    The fast and the slow paths of [Access] keep the invariant of [AccessPaths] and
    end in a value or a trap; the memory of the harts as an instance of [Memory]. *)

From stdpp Require Import base option list gmap.
From S2P Require Import Prelude.
From S2P Require Import Arith.
From S2P Require Import Pmp.
From S2P Require Import PmpFacts.
From S2P Require Import Devices.
From S2P Require Import DevicesFacts.
From S2P Require Import Mmu.
From S2P Require Import MmuSpec.
From S2P Require Import MmuFacts.
From S2P Require Import Memory.
From S2P Require Import Access.
From S2P Require Import AccessBus.

(** ** Tags *)

Lemma vpn_bound a : 0 <= a < 2 ^ 64 -> 0 <= a .>> PGSHIFT < 2 ^ 52.
Proof.
  intros Ha. rewrite page_of, pgsize. split; [apply Z.div_pos; lia|]. apply Z.div_lt_upper_bound; lia.
Qed.

Lemma vpn_offset a : a = (a .>> PGSHIFT) * 4096 + a mod 4096.
Proof. exact (page_split a). Qed.

Lemma plain_tag_mod t : plain_tag t = t mod 2 ^ 63.
Proof. unfold plain_tag. change (u64 (Z.lnot TLB_CHECK_TRIGGERS)) with (2 ^ 63 - 1). apply land_mod; lia. Qed.

Lemma plain_vpn vpn : 0 <= vpn < 2 ^ 52 -> plain_tag vpn = vpn.
Proof. intros. rewrite plain_tag_mod. apply Z.mod_small. lia. Qed.

Lemma plain_checked vpn : 0 <= vpn < 2 ^ 52 -> plain_tag (vpn .| TLB_CHECK_TRIGGERS) = vpn.
Proof.
  intros Hv. unfold TLB_CHECK_TRIGGERS. rewrite plain_tag_mod, shiftl_mul, Z.lor_comm, lor_low_add by lia.
  rewrite Z.add_comm, Z.mod_add by lia. apply Z.mod_small. lia.
Qed.

Lemma plain_no_tag vpn : vpn < 2 ^ 52 -> plain_tag no_tag <> vpn.
Proof. intros Hv. change (plain_tag no_tag) with (2 ^ 63 - 1). lia. Qed.

Lemma tlb_index_bound vpn : (tlb_index vpn < 256)%nat.
Proof. unfold tlb_index, TLB_ENTRIES. pose proof (Z.mod_pos_bound vpn 256). lia. Qed.

Lemma nth_replicate {A} n (x d : A) i : (i < n)%nat -> nth i (replicate n x) d = x.
Proof. intros Hi. apply nth_lookup_Some. by apply lookup_replicate_2. Qed.

Lemma nth_updated {A} i j (x d : A) l : (i < length l)%nat -> nth j (<[i := x]> l) d = if decide (i = j) then x else nth j l d.
Proof.
  intros Hi. rewrite !nth_lookup. destruct (decide (i = j)) as [<-|Hne]; [by rewrite list_lookup_insert_eq|by rewrite list_lookup_insert_ne].
Qed.

(** ** Host addresses *)

Lemma host_plus_plus a n m : host_plus (host_plus a n) m = host_plus a (n + m).
Proof. destruct a as [p|offset]; simpl; by rewrite Z.add_assoc. Qed.

Section Facts.
Context {D : Type} `{SoundDevice D}.
Implicit Types (b : bus_t D) (st : mmu_t D).

Lemma points_shift b base page offset a x : bus_good b -> points b (base, (page, offset)) a -> 0 <= a -> x .>> PGSHIFT = a .>> PGSHIFT ->
  points b (base, (page, offset + (x - a))) x /\ 0 <= offset + (x - a).
Proof.
  intros Hg (Hok & base' & m & E & Hlt & Ep & Hpres) Ha Hx. injection Ep as -> -> ->. rename base' into base.
  pose proof (find_mem_wf _ _ _ _ (good_wf _ Hg) E) as (Hm & Hle & Hb & Hal). pose proof (wf_sz_pages m Hm) as Hsp.
  rewrite pgsize in *. pose proof (Z.div_mod base 4096 ltac:(lia)) as Eb. rewrite Hal, Z.add_0_r in Eb. set (k := base / 4096) in *. clearbody k.
  assert (forall y, (y - base) .>> PGSHIFT = (y .>> PGSHIFT) - k /\ (y - base) mod 4096 = y mod 4096) as Hsub.
  { intros y. rewrite !page_of, pgsize, Eb. replace (y - 4096 * k) with (y + (- k) * 4096) by lia. rewrite Z.div_add, Z.mod_add by lia. lia. }
  pose proof (vpn_offset a) as Ea. pose proof (vpn_offset x) as Ex. rewrite Hx in Ex. pose proof (Z.mod_pos_bound a 4096 ltac:(lia)). pose proof (Z.mod_pos_bound x 4096 ltac:(lia)).
  destruct (Hsub a) as [S1 S2]. destruct (Hsub x) as [S3 S4]. rewrite S2. split; [|lia]. split.
  - unfold paddr_ok, MAX_PADDR_BITS in *. rewrite !shiftr_div in * by lia. rewrite Z.eqb_eq in *. change (2 ^ 56) with (4096 * 2 ^ 44) in *.
    rewrite <- !Z.div_div in * by lia. rewrite !shiftr_div in Hx by (unfold PGSHIFT; lia). change (2 ^ PGSHIFT) with 4096 in Hx. by rewrite Hx.
  - exists base, m. rewrite (find_device_page b x a (good_wf _ Hg) Hx). split; [done|]. rewrite pgsize, S1, S3, S4, Hx in *.
    split; [|split; [do 2 f_equal; lia|done]]. pose proof (Z.div_mod (sz m) 4096 ltac:(lia)). nia.
Qed.

(** The host address [a] is that of [n] readable bytes. *)
Definition host_ok st (a : host_t) (n : Z) : Prop :=
  exists bytes, host_load a n st = (Ok bytes, st) /\ length bytes = Z.to_nat n /\ Forall is_byte bytes.

Lemma points_offset b p a : points b p a -> (0 <=? p.2.2) = true.
Proof. intros (_ & base & m & _ & _ & -> & _). apply Z.leb_le, page_offset. Qed.

Lemma points_host_ok st p a n : bus_good (sim st) -> points (sim st) p a -> 0 <= a -> 0 <= n -> a mod 4096 + n <= 4096 -> host_ok st (HMem p) n.
Proof.
  intros Hg Hp Ha Hn Hpage. destruct (points_load _ p a n Hg Hp Ha Hn Hpage) as (bytes & E & Hl & Hb). exists bytes. split; [|done].
  unfold host_load. by rewrite (points_offset _ _ _ Hp), E.
Qed.

(** ** The invariant *)

(** An entry that takes the virtual page to the physical page at [pa]. *)
Definition entry_maps b (e : tlb_entry_t) (vpn pa : Z) : Prop :=
  0 <= pa /\ pa mod 4096 = 0 /\
  forall o, 0 <= o < 4096 -> exists p, host_plus (host_offset e) (vpn * 4096 + o) = HMem p /\ points b p (pa + o).

Definition tag_valid st (ty : access_type) (vpn : Z) : Prop := plain_tag (tag_at st ty vpn) = vpn.

Record mmu_ok st : Prop := {
  ok_bus : bus_good (sim st);
  ok_data : length (tlb_data st) = 256%nat;
  ok_tags : forall ty, length (tlb_tag st ty) = 256%nat;
  ok_temp : length (fetch_temp st) = 2%nat /\ Forall is_byte (fetch_temp st);
  ok_entries : forall ty vpn, 0 <= vpn < 2 ^ 52 -> tag_valid st ty vpn -> exists pa, entry_maps (sim st) (entry_at st vpn) vpn pa
}.

Definition mmu_ext st st' : Prop := bus_ext (sim st) (sim st').

#[export] Instance mmu_ext_preorder : PreOrder mmu_ext.
Proof. unfold mmu_ext. split; [by intros st|]. intros s1 s2 s3 H12 H23. by etrans. Qed.

Lemma entry_maps_ext b b' e vpn pa : bus_ext b b' -> entry_maps b e vpn pa -> entry_maps b' e vpn pa.
Proof.
  intros He (H1 & H2 & H3). split; [done|]. split; [done|]. intros o Ho. destruct (H3 o Ho) as (p & E & Hp). exists p. split; [done|]. by apply (points_ext b).
Qed.

Lemma set_sim_ok st b : mmu_ok st -> bus_good b -> bus_ext (sim st) b -> mmu_ok (set_sim st b).
Proof.
  intros [H1 H2 H3 H4 H5] Hg He. split; try done. intros ty vpn Hv Ht. destruct (H5 ty vpn Hv Ht) as [pa Hpa]. exists pa.
  by apply (entry_maps_ext (sim st)).
Qed.

Lemma refilled_tags st vpn ty cached ty' vpn' : mmu_ok st -> 0 <= vpn < 2 ^ 52 -> 0 <= vpn' < 2 ^ 52 -> (forall t, cached = Some t -> plain_tag t = vpn) ->
  let t := nth (tlb_index vpn') (refilled_tag st vpn ty cached ty') 0 in
  plain_tag t = vpn' -> (tlb_index vpn' <> tlb_index vpn /\ t = tag_at st ty' vpn') \/ vpn' = vpn.
Proof.
  intros Hok Hv Hv' Hc. pose proof (ok_tags st Hok ty') as Hlen. pose proof (tlb_index_bound vpn). unfold refilled_tag, tag_at. cbv zeta.
  set (tags := if negb _ then _ else _). assert (length tags = 256%nat) as Hlt by (unfold tags; destruct (negb _); by rewrite ?length_insert).
  assert (forall i, nth i tags 0 = if decide (tlb_index vpn = i) then (if negb (plain_tag (nth (tlb_index vpn) (tlb_tag st ty') 0) =? vpn) then no_tag else nth i (tlb_tag st ty') 0) else nth i (tlb_tag st ty') 0) as Hn.
  { intros i. unfold tags. destruct (negb _); [rewrite nth_updated by lia; done|by case_decide]. }
  assert (forall l, length l = 256%nat -> (forall i, nth i l 0 = if decide (tlb_index vpn = i) then nth (tlb_index vpn) l 0 else nth i (tlb_tag st ty') 0) ->
    (plain_tag (nth (tlb_index vpn) l 0) = vpn \/ nth (tlb_index vpn) l 0 = no_tag) ->
    plain_tag (nth (tlb_index vpn') l 0) = vpn' -> tlb_index vpn' <> tlb_index vpn /\ nth (tlb_index vpn') l 0 = nth (tlb_index vpn') (tlb_tag st ty') 0 \/ vpn' = vpn) as Hl.
  { intros l _ Hi Hat Hp. pose proof (Hi (tlb_index vpn')) as E. destruct (decide (tlb_index vpn = tlb_index vpn')) as [Ei|Hne]; [|left; split; congruence].
    right. rewrite <- Ei in Hp. destruct Hat as [Hat|Hat]; [congruence|]. rewrite Hat in Hp. exfalso. apply (plain_no_tag vpn'); [lia|done]. }
  assert (plain_tag (nth (tlb_index vpn) tags 0) = vpn \/ nth (tlb_index vpn) tags 0 = no_tag) as Hat.
  { rewrite Hn, decide_True by done. destruct (Z.eqb_spec (plain_tag (nth (tlb_index vpn) (tlb_tag st ty') 0)) vpn); simpl; auto. }
  assert (forall i, nth i tags 0 = if decide (tlb_index vpn = i) then nth (tlb_index vpn) tags 0 else nth i (tlb_tag st ty') 0) as Hi.
  { intros i. case_decide as Ei; [by rewrite <- Ei|]. by rewrite Hn, decide_False. }
  destruct cached as [t|]; [|by apply Hl]. case_bool_decide; [|by apply Hl]. apply Hl.
  - by rewrite length_insert.
  - intros i. rewrite !nth_updated by lia. destruct (decide (tlb_index vpn = i)) as [<-|Hne]; [by rewrite !decide_True by done|]. by rewrite Hi, decide_False.
  - rewrite nth_updated, decide_True by (done || lia). left. by apply Hc.
Qed.

Lemma refilled_length st vpn ty cached ty' : length (refilled_tag st vpn ty cached ty') = length (tlb_tag st ty').
Proof. unfold refilled_tag. destruct cached; [case_bool_decide|]; destruct (negb _); by rewrite ?length_insert. Qed.

Lemma set_tlb_ok st vpn e ty cached pa : mmu_ok st -> 0 <= vpn < 2 ^ 52 -> (forall t, cached = Some t -> plain_tag t = vpn) -> entry_maps (sim st) e vpn pa ->
  mmu_ok (set_tlb st (<[tlb_index vpn := e]> (tlb_data st)) (refilled_tag st vpn ty cached)).
Proof.
  intros Hok Hv Hc He. split; simpl; [apply Hok|by rewrite length_insert, (ok_data st Hok)|intros; rewrite refilled_length; apply Hok|apply Hok|].
  intros ty' vpn' Hv' Ht. unfold tag_valid, tag_at in Ht. simpl in Ht. unfold entry_at. simpl.
  pose proof (ok_data st Hok). pose proof (tlb_index_bound vpn). rewrite nth_updated by lia.
  destruct (refilled_tags st vpn ty cached ty' vpn' Hok Hv Hv' Hc Ht) as [[Hne Et]| ->].
  - rewrite decide_False by congruence. rewrite Et in Ht. by apply (ok_entries st Hok ty' vpn').
  - rewrite decide_True by done. by exists pa.
Qed.

Lemma flush_ok st : mmu_ok st -> mmu_ok (flush_mmu_tlb st).
Proof.
  intros [H1 H2 H3 H4 H5]. split; try done. intros ty vpn Hv Ht. unfold tag_valid, tag_at in Ht.
  change (tlb_tag (flush_mmu_tlb st) ty) with (replicate (Z.to_nat TLB_ENTRIES) no_tag) in Ht. rewrite nth_replicate in Ht by apply tlb_index_bound. exfalso. apply (plain_no_tag vpn); [lia|done].
Qed.

Lemma mmu_new_ok (b : bus_t D) data temp mis : bus_good b -> length data = 256%nat -> length temp = 2%nat -> Forall is_byte temp -> mmu_ok (mmu_new b data temp mis).
Proof.
  intros Hg Hd Ht Hb. split; try done. intros ty vpn Hv Hvalid. exfalso. unfold tag_valid, tag_at in Hvalid.
  change (tlb_tag (mmu_new b data temp mis) ty) with (replicate (Z.to_nat TLB_ENTRIES) no_tag) in Hvalid.
  rewrite nth_replicate in Hvalid by apply tlb_index_bound. apply (plain_no_tag vpn); [lia|done].
Qed.

(** ** Refills *)

(** What a translation needs of the registers. *)
Definition mmu_ready (h : hart_t) : Prop := (forall p virt, is_mode p -> roots_ok h p virt) /\ pmp_wf (pmp h).

Notation mmu_ends := (ends mmu_ok mmu_ext).

Lemma mmu_bind {A B} st (P : A -> mmu_t D -> Prop) (Q : B -> mmu_t D -> Prop) m f :
  mmu_ends st P (m st) -> (forall a st', mmu_ok st' -> mmu_ext st st' -> P a st' -> mmu_ends st' Q (f a st')) -> mmu_ends st Q (abind m f st).
Proof. intros Hm Hf. unfold abind. by apply (ends_then _ _ st P). Qed.

Lemma mmu_ret {A} st (P : A -> mmu_t D -> Prop) a : mmu_ok st -> P a st -> mmu_ends st P (aret a st).
Proof. intros. by apply ends_ok; [apply _|..]. Qed.

Lemma mmu_throw {A} st (P : A -> mmu_t D -> Prop) t : mmu_ok st -> mmu_ends st P (athrow t st).
Proof. intros. by apply ends_throw; [apply _|]. Qed.

Lemma on_bus_ends {A} st (P : A -> bus_t D -> Prop) m : mmu_ok st -> ends bus_good bus_ext (sim st) P (m (sim st)) ->
  mmu_ends st (fun a st' => P a (sim st')) (on_bus m st).
Proof.
  intros Hok (Hg & He & Hp). unfold on_bus. destruct (m (sim st)) as [r b]. simpl in *. split; [by apply set_sim_ok|]. split; [done|]. by destruct r.
Qed.

Lemma page_cached h paddr : pmp_wf (pmp h) -> 0 <= paddr < 2 ^ 64 -> is_Some (pmp_homogeneous (pmp h) (paddr .& u64 (Z.lnot (PGSIZE - 1))) PGSIZE).
Proof.
  intros Hw Hp. destruct (page_of_address paddr Hp) as [Hr Hm]. change (PGSIZE - 1) with page_mask. rewrite pgsize. change 4096 with (2 ^ 12) in *.
  destruct (homogeneous_uniform (pmp h) Hw _ 12 ltac:(lia) (proj1 Hr) Hm) as (r & E & _); [|by eexists].
  pose proof (Z.div_mod (paddr .& u64 (Z.lnot page_mask)) (2 ^ 12) ltac:(lia)). rewrite Hm in *. lia.
Qed.

Lemma refill_tlb_ends h vaddr paddr p ty st : mmu_ok st -> mmu_ready h -> 0 <= vaddr < 2 ^ 64 -> same_offset vaddr paddr (sim st) -> points (sim st) p paddr ->
  mmu_ends st (fun e st' => sim st' = sim st /\ exists pa, entry_maps (sim st) e (vaddr .>> PGSHIFT) pa /\ pa = paddr - vaddr mod 4096) (refill_tlb h vaddr paddr (HMem p) ty st).
Proof.
  intros Hok [_ Hw] Hva [Hpa Hoff] Hpt. unfold refill_tlb. cbv zeta. set (vpn := vaddr .>> PGSHIFT). set (e := TlbEntry _ _).
  pose proof (vpn_bound vaddr Hva) as Hv. fold vpn in Hv.
  assert (entry_maps (sim st) e vpn (paddr - vaddr mod 4096)) as He.
  { pose proof (vpn_offset paddr) as Epa. pose proof (vpn_offset vaddr) as Eva. rewrite Hoff in Epa. fold vpn in Eva.
    pose proof (Z.mod_pos_bound vaddr 4096 ltac:(lia)). pose proof (vpn_bound paddr Hpa). split; [nia|]. split; [rewrite Zminus_mod, Hoff, Zmod_mod, Z.sub_diag; done|].
    intros o Ho. unfold e. cbn [host_offset]. rewrite host_plus_plus. destruct p as [base [page offset]]. cbn [host_plus fst snd].
    destruct (points_shift (sim st) base page offset paddr (paddr - vaddr mod 4096 + o) (ok_bus st Hok) Hpt (proj1 Hpa)) as [Hs _].
    - replace (paddr - vaddr mod 4096 + o) with ((paddr .>> PGSHIFT) * PGSIZE + o) by (rewrite pgsize; lia). by apply page_join.
    - eexists. split; [reflexivity|]. replace (offset + (- vaddr + (vpn * 4096 + o))) with (offset + (paddr - vaddr mod 4096 + o - paddr)) by lia. done. }
  destruct (in_mprv h); [by apply ends_ok; [apply _|done|]; split; [done|]; eexists|].
  destruct (page_cached h paddr Hw Hpa) as [hom ->]. split; [|split; [by change (mmu_ext st st)|by split; [done|]; eexists]].
  simpl. apply (set_tlb_ok st vpn e ty _ (paddr - vaddr mod 4096)); [done|done| |done].
  intros t. destruct hom; [|done]. intros [= <-]. destruct (check_triggers st ty); [by apply plain_checked|by apply plain_vpn].
Qed.
End Facts.

Definition access_size (T : Z) : Prop := T = 1 \/ T = 2 \/ T = 4 \/ T = 8.

Lemma aligned_in_page T a : access_size T -> a .& (T - 1) = 0 -> a mod 4096 + T <= 4096.
Proof.
  intros HT E. pose proof (Z.mod_pos_bound a 4096 ltac:(lia)) as Hr.
  assert (exists k, 0 <= k <= 3 /\ T = 2 ^ k) as (k & Hk & ->) by (destruct HT as [->|[->|[->| ->]]]; [by exists 0|by exists 1|by exists 2|by exists 3]).
  rewrite (land_mod a _ k) in E by lia. assert (k = 0 \/ k = 1 \/ k = 2 \/ k = 3) as [->|[->|[->| ->]]] by lia; cbn in *; Z.div_mod_to_equations; lia.
Qed.

Lemma reg_from_bytes_some bytes T : access_size T -> length bytes = Z.to_nat T -> is_Some (reg_from_bytes bytes).
Proof. intros [->|[->|[->| ->]]] Hl; do 9 (destruct bytes as [|? bytes]; try done); by eexists. Qed.

Lemma spvp_mode x : is_mode (get_field 64 x HSTATUS_SPVP).
Proof.
  unfold get_field, HSTATUS_SPVP. change (uwrap 64 (Z.lnot (uwrap 64 (256 .<< 1)))) with (2 ^ 64 - 513). change (256 .& (2 ^ 64 - 513)) with 256.
  change 256 with (Z.ones 1 .<< 8) at 1. rewrite land_field, shiftl_mul by lia. change (2 ^ 8) with 256. rewrite Z.div_mul by lia.
  pose proof (Z.mod_pos_bound (x / 256) (2 ^ 1) ltac:(lia)). unfold is_mode, PRV_U, PRV_S. lia.
Qed.

Lemma access_mode h addr ty fl : modes_ok h -> is_mode (effective_priv (generate_access_info h addr ty fl)).
Proof.
  intros [H1 H2]. unfold generate_access_info. case_bool_decide; [done|]. destruct (in_mprv h), (forced_virt fl); simpl; try done; apply spvp_mode.
Qed.

Lemma access_address h addr ty fl : vaddr (generate_access_info h addr ty fl) = addr /\ flags (generate_access_info h addr ty fl) = fl /\
  type (generate_access_info h addr ty fl) = ty.
Proof. unfold generate_access_info. case_bool_decide; [done|]. by destruct (in_mprv h), (forced_virt fl). Qed.

Lemma first_part_range addr len : 0 < len -> 0 < first_part addr len <= len /\ addr mod 4096 + first_part addr len <= 4096.
Proof. intros Hl. unfold first_part. rewrite pgsize. pose proof (Z.mod_pos_bound addr 4096 ltac:(lia)). lia. Qed.

(** Where the access has two parts, the second starts a page. *)
Lemma second_part addr len : 0 <= addr < 2 ^ 64 -> 0 < len <= 8 -> first_part addr len <> len -> u64 (addr + first_part addr len) mod 4096 = 0.
Proof.
  intros Ha Hl Hf. unfold first_part in *. rewrite pgsize in *. pose proof (Z.mod_pos_bound addr 4096 ltac:(lia)).
  replace (Z.min len (4096 - addr mod 4096)) with (4096 - addr mod 4096) by lia. unfold uwrap. change (2 ^ 64) with (4096 * 2 ^ 52).
  rewrite Z.rem_mul_r by lia. rewrite Z.add_comm, Z.mul_comm, Z.add_comm, Z.mod_add by lia.
  rewrite Zmod_mod. replace (addr + (4096 - addr mod 4096)) with ((addr / 4096 + 1) * 4096); [by apply Z.mod_mul|].
  pose proof (Z.div_mod addr 4096 ltac:(lia)). lia.
Qed.

Section Paths.
Context {D : Type} `{SoundDevice D}.
Implicit Types (st : mmu_t D).

Notation mmu_ends := (ends (mmu_ok (D := D)) (mmu_ext (D := D))).

Definition bytes_of (n : Z) (bytes : list Z) (_ : mmu_t D) : Prop := length bytes = Z.to_nat n /\ Forall is_byte bytes.

Lemma host_ok_ends st a n : mmu_ok st -> host_ok st a n -> mmu_ends st (bytes_of n) (host_load a n st).
Proof. intros Hok (bytes & E & Hb). rewrite E. by apply ends_ok; [apply _|..]. Qed.

(** The host address behind a valid tag. *)
Lemma hit_points st ty addr : mmu_ok st -> 0 <= addr < 2 ^ 64 -> tag_valid st ty (addr .>> PGSHIFT) ->
  exists p pa, host_plus (host_offset (entry_at st (addr .>> PGSHIFT))) addr = HMem p /\ points (sim st) p pa /\ 0 <= pa /\ pa mod 4096 = addr mod 4096.
Proof.
  intros Hok Ha Ht. destruct (ok_entries st Hok ty _ (vpn_bound addr Ha) Ht) as (pa & H1 & H2 & H3).
  pose proof (Z.mod_pos_bound addr 4096 ltac:(lia)) as Hr. destruct (H3 _ Hr) as (p & E & Hp). rewrite <- vpn_offset in E.
  exists p, (pa + addr mod 4096). split; [done|]. split; [done|]. split; [lia|]. rewrite Zplus_mod, H2, Zmod_mod. apply Zmod_mod.
Qed.

Lemma hit_load st ty addr n : mmu_ok st -> 0 <= addr < 2 ^ 64 -> tag_valid st ty (addr .>> PGSHIFT) -> 0 <= n -> addr mod 4096 + n <= 4096 ->
  host_ok st (host_plus (host_offset (entry_at st (addr .>> PGSHIFT))) addr) n.
Proof.
  intros Hok Ha Ht Hn Hp. destruct (hit_points st ty addr Hok Ha Ht) as (p & pa & -> & Hpt & H1 & H2).
  apply (points_host_ok st p pa); [apply Hok|done|done|done|lia].
Qed.

Lemma points_store_ends st p pa bytes : mmu_ok st -> points (sim st) p pa -> 0 <= pa -> pa mod 4096 + Z.of_nat (length bytes) <= 4096 -> Forall is_byte bytes ->
  mmu_ends st (fun _ _ => True) (host_store (HMem p) bytes st).
Proof.
  intros Hok Hp Ha Hl Hb. destruct (points_store (sim st) p pa bytes (ok_bus st Hok) Hp Ha Hl Hb) as (b & E & Hg & He).
  unfold host_store. rewrite (points_offset _ _ _ Hp), E. split; [by apply set_sim_ok|]. by split.
Qed.

Lemma hit_store st ty addr bytes : mmu_ok st -> 0 <= addr < 2 ^ 64 -> tag_valid st ty (addr .>> PGSHIFT) -> addr mod 4096 + Z.of_nat (length bytes) <= 4096 -> Forall is_byte bytes ->
  mmu_ends st (fun _ _ => True) (host_store (host_plus (host_offset (entry_at st (addr .>> PGSHIFT))) addr) bytes st).
Proof.
  intros Hok Ha Ht Hp Hb. destruct (hit_points st ty addr Hok Ha Ht) as (p & pa & -> & Hpt & H1 & H2).
  apply (points_store_ends st p pa); [done|done|done|lia|done].
Qed.

Lemma exact_tag st ty vpn : 0 <= vpn < 2 ^ 52 -> tag_at st ty vpn = vpn -> tag_valid st ty vpn.
Proof. intros Hv E. unfold tag_valid. rewrite E. by apply plain_vpn. Qed.

Section Hart.
Context (h : hart_t) (Hready : mmu_ready h) (Hmodes : modes_ok h).

Lemma translate_step st info len : mmu_ok st -> is_mode (effective_priv info) -> 0 <= vaddr info < 2 ^ 64 ->
  mmu_ends st (fun pa st' => same_offset (vaddr info) pa (sim st')) (on_bus (translate h info len) st).
Proof. intros Hok Hm Hva. apply (on_bus_ends st (same_offset (vaddr info))); [done|]. apply translate_ends; [apply Hok|by apply Hready|done]. Qed.

Lemma to_mem_step st pa : mmu_ok st -> mmu_ends st (fun r st' => forall p, r = Some p -> points (sim st') p pa) (on_bus (to_mem pa) st).
Proof. intros Hok. apply (on_bus_ends st (fun r b => forall p, r = Some p -> points b p pa)); [done|]. apply to_mem_ends, Hok. Qed.

Lemma reservable_ends st pa : mmu_ok st -> mmu_ends st (fun _ _ => True) (reservable pa st).
Proof. intros Hok. unfold reservable. apply (mmu_bind _ _ _ _ _ (to_mem_step st pa Hok)). intros. by apply mmu_ret. Qed.

Lemma set_reservation_ok st a : mmu_ok st -> mmu_ok (set_reservation st a).
Proof. by intros []. Qed.

Lemma set_temp_ok st bytes : mmu_ok st -> length bytes = 2%nat -> Forall is_byte bytes -> mmu_ok (set_temp st bytes).
Proof. by intros []. Qed.

Lemma reserve_ends {A} st pa (a : A) (P : A -> Prop) : mmu_ok st -> P a ->
  mmu_ends st (fun x _ => P x) (abind (modify (fun st => set_reservation st pa)) (fun _ => aret a) st).
Proof. intros Hok Hp. split; [by apply set_reservation_ok|]. split; [by change (mmu_ext st st)|done]. Qed.

(** ** Loads *)

Lemma load_intrapage_ends st len info : mmu_ok st -> is_mode (effective_priv info) -> 0 <= vaddr info < 2 ^ 64 -> 0 < len -> vaddr info mod 4096 + len <= 4096 ->
  mmu_ends st (bytes_of len) (load_slow_path_intrapage h len info st).
Proof.
  intros Hok Hm Hva Hl Hp. pose proof (Z.mod_pos_bound (vaddr info) 4096 ltac:(lia)) as Hpos. unfold load_slow_path_intrapage. cbv zeta. set (vpn := vaddr info .>> PGSHIFT). set (special := is_special_access _).
  destruct (negb special && (vpn =? plain_tag (tag_at st LOAD vpn))) eqn:Eh.
  { apply andb_prop in Eh as [_ Et%Z.eqb_eq]. apply host_ok_ends; [done|]. apply (hit_load st LOAD); [done|done|by symmetry|lia|done]. }
  apply (mmu_bind _ _ _ _ _ (translate_step st info len Hok Hm Hva)). intros pa st1 Hok1 _ [Hpa Hoff].
  apply (mmu_bind _ (fun _ _ => True)); [destruct (lr _); [by apply reservable_ends|by apply mmu_ret]|]. intros ok st2 Hok2 _ _.
  destruct (negb ok); [by apply mmu_throw|].
  apply (mmu_bind _ _ _ _ _ (to_mem_step st2 pa Hok2)). intros r st3 Hok3 _ Hr.
  apply (mmu_bind _ (bytes_of len)); [|intros bytes st4 Hok4 _ Hb; destruct (lr _); [by apply (reserve_ends _ _ _ (fun b => bytes_of len b st4))|by apply mmu_ret]].
  destruct r as [p|].
  - pose proof (Hr p eq_refl) as Hpt. apply (mmu_bind _ (fun bytes st' => st' = st3 /\ bytes_of len bytes st')).
    { destruct (points_host_ok st3 p pa len) as (bytes & E & Hb); [apply Hok3|done|lia|lia|lia|]. rewrite E. by apply ends_ok; [apply _|..]. }
    intros bytes st4 Hok4 _ [-> Hb]. destruct (negb special); [|by apply mmu_ret].
    apply (mmu_bind _ (fun _ _ => True)).
    { apply (ends_weaken _ _ _ _ _ _ (refill_tlb_ends h (vaddr info) pa p LOAD st3 Hok3 Hready Hva (conj Hpa Hoff) Hpt)). done. }
    intros. by apply mmu_ret.
  - apply (mmu_bind _ (fun r _ => loads_bytes len r (sim st3))).
    { apply (ends_weaken _ _ _ _ _ _ (on_bus_ends _ _ _ Hok3 (mmio_load_ends h pa len (sim st3) (ok_bus st3 Hok3) Hpa ltac:(lia)))). done. }
    intros [bytes|] st4 Hok4 _ Hb; [|by apply mmu_throw]. apply mmu_ret; [done|]. by apply Hb.
Qed.

Lemma require_some_ends {A} st (o : option A) : mmu_ok st -> is_Some o -> mmu_ends st (fun _ _ => True) (require_some o st).
Proof. intros Hok [a ->]. by apply mmu_ret. Qed.

Lemma load_slow_path_ends st addr T fl : mmu_ok st -> access_size T -> 0 <= addr < 2 ^ 64 -> mmu_ends st (bytes_of T) (load_slow_path h addr T fl st).
Proof.
  intros Hok HT Ha. unfold load_slow_path. cbv zeta. set (info := generate_access_info h addr LOAD fl). pose proof (access_mode h addr LOAD fl Hmodes) as Hm.
  destruct (access_address h addr LOAD fl) as (Ev & Ef & _). fold info in Hm, Ev, Ef. assert (0 < T <= 8) as HTr by (unfold access_size in HT; lia).
  apply (mmu_bind _ (bytes_of T)).
  - destruct (Z.eqb_spec (addr .& (T - 1)) 0) as [E|_]; [apply load_intrapage_ends; rewrite ?Ev; [done|done|done|lia|by apply aligned_in_page]|].
    destruct (negb (misaligned st)); [by apply mmu_throw|]. destruct (lr fl); [by apply mmu_throw|].
    destruct (first_part_range addr T ltac:(lia)) as [Hf Hp].
    apply (mmu_bind _ (bytes_of (first_part addr T))); [apply load_intrapage_ends; rewrite ?Ev; [done|done|done|lia|done]|]. intros b0 st1 Hok1 _ [Hl0 Hb0].
    destruct (Z.eqb_spec (first_part addr T) T) as [E|Hne]; cbn [negb]; [apply mmu_ret; [done|]; split; [congruence|done]|].
    pose proof (second_part addr T Ha HTr Hne) as H2.
    apply (mmu_bind _ (bytes_of (T - first_part addr T))).
    { apply load_intrapage_ends; [done|done|simpl; rewrite Ev; apply uwrap_range; lia|lia|simpl; rewrite Ev, H2; lia]. }
    intros b1 st2 Hok2 _ [Hl1 Hb1]. apply mmu_ret; [done|]. split; [rewrite length_app; lia|by apply Forall_app].
  - intros bytes st1 Hok1 _ [Hl Hb]. apply (mmu_bind _ (fun _ _ => True)); [apply require_some_ends; [done|by apply (reg_from_bytes_some bytes T)]|].
    intros _ st2 Hok2 _ _. by apply mmu_ret.
Qed.

Lemma from_le_size T bytes : access_size T -> length bytes = Z.to_nat T -> Forall is_byte bytes -> 0 <= from_le bytes < 2 ^ (8 * T).
Proof. intros HT Hl Hb. pose proof (from_le_range bytes Hb) as Hr. rewrite Hl, Z2Nat.id in Hr by (unfold access_size in HT; lia). done. Qed.

Lemma load_ends st T addr fl : mmu_ok st -> access_size T -> 0 <= addr < 2 ^ 64 -> mmu_ends st (fun v _ => 0 <= v < 2 ^ (8 * T)) (load h T addr fl st).
Proof.
  intros Hok HT Ha. unfold load. cbv zeta. apply (mmu_bind _ (bytes_of T)); [|intros bytes st1 Hok1 _ [Hl Hb]; apply mmu_ret; [done|]; by apply from_le_size].
  destruct (_ && _) eqn:E; [|by apply load_slow_path_ends]. rewrite !andb_true_iff in E. destruct E as [[_ Hal%Z.eqb_eq] Ht%Z.eqb_eq].
  apply host_ok_ends; [done|]. apply (hit_load st LOAD); [done|done|by apply exact_tag; [apply vpn_bound|]|unfold access_size in HT; lia|by apply aligned_in_page].
Qed.

(** ** Stores *)

Lemma store_intrapage_ends st len bytes info actually : mmu_ok st -> is_mode (effective_priv info) -> 0 <= vaddr info < 2 ^ 64 -> 0 < len -> vaddr info mod 4096 + len <= 4096 ->
  (actually = true -> length bytes = Z.to_nat len) -> Forall is_byte bytes -> mmu_ends st (fun _ _ => True) (store_slow_path_intrapage h len bytes info actually st).
Proof.
  intros Hok Hm Hva Hl Hp Hlen Hb. pose proof (Z.mod_pos_bound (vaddr info) 4096 ltac:(lia)) as Hpos. unfold store_slow_path_intrapage. cbv zeta. set (vpn := vaddr info .>> PGSHIFT). set (special := is_special_access _).
  destruct (negb special && (vpn =? plain_tag (tag_at st STORE vpn))) eqn:Eh.
  { apply andb_prop in Eh as [_ Et%Z.eqb_eq]. destruct actually; [|by apply mmu_ret].
    apply (hit_store st STORE); [done|done|by symmetry|rewrite Hlen by done; lia|done]. }
  apply (mmu_bind _ _ _ _ _ (translate_step st info len Hok Hm Hva)). intros pa st1 Hok1 _ [Hpa Hoff]. destruct actually; [|by apply mmu_ret].
  specialize (Hlen eq_refl). apply (mmu_bind _ _ _ _ _ (to_mem_step st1 pa Hok1)). intros [p|] st2 Hok2 _ Hr.
  - pose proof (Hr p eq_refl) as Hpt. apply (mmu_bind _ (fun _ st' => points (sim st') p pa)).
    { destruct (points_store_ends st2 p pa bytes Hok2 Hpt) as (H1 & H2 & H3); [lia|lia|done|]. split; [done|]. split; [done|].
      destruct (host_store _ _ _) as [[?|?|] st']; [by apply (points_ext (sim st2))|done|done]. }
    intros _ st3 Hok3 _ Hpt3. destruct (negb special); [|by apply mmu_ret].
    apply (mmu_bind _ (fun _ _ => True)); [|intros; by apply mmu_ret].
    by apply (ends_weaken _ _ _ _ _ _ (refill_tlb_ends h (vaddr info) pa p STORE st3 Hok3 Hready Hva (conj Hpa Hoff) Hpt3)).
  - apply (mmu_bind _ (fun _ _ => True)); [apply (on_bus_ends _ (fun _ _ => True)); [done|]; apply mmio_store_ends; [apply Hok2|done|lia|done]|].
    intros ok st3 Hok3 _ _. destruct (negb ok); [by apply mmu_throw|by apply mmu_ret].
Qed.

Lemma store_slow_path_ends st addr T bytes fl actually align : mmu_ok st -> access_size T -> 0 <= addr < 2 ^ 64 -> (actually = true -> length bytes = Z.to_nat T) -> Forall is_byte bytes ->
  mmu_ends st (fun _ _ => True) (store_slow_path h addr T bytes fl actually align st).
Proof.
  intros Hok HT Ha Hlen Hb. unfold store_slow_path. cbv zeta. set (info := generate_access_info h addr STORE fl). pose proof (access_mode h addr STORE fl Hmodes) as Hm.
  destruct (access_address h addr STORE fl) as (Ev & Ef & _). fold info in Hm, Ev, Ef. assert (0 < T <= 8) as HTr by (unfold access_size in HT; lia).
  apply (mmu_bind _ (fun _ _ => True)).
  { destruct actually; [|by apply mmu_ret]. apply (mmu_bind _ (fun _ _ => True)); [apply require_some_ends; [done|by apply (reg_from_bytes_some bytes T), Hlen]|]. intros. by apply mmu_ret. }
  intros _ st1 Hok1 _ _. destruct (Z.eqb_spec (addr .& (T - 1)) 0) as [E|_]; cbn [negb]; [apply store_intrapage_ends; rewrite ?Ev; [done|done|done|lia|by apply aligned_in_page|done|done]|].
  destruct (negb (misaligned st)); [by apply mmu_throw|]. destruct align; [by apply mmu_throw|].
  destruct (first_part_range addr T ltac:(lia)) as [Hf Hp].
  apply (mmu_bind _ (fun _ _ => True)).
  { apply store_intrapage_ends; rewrite ?Ev; [done|done|done|lia|done|intros Hac; rewrite length_take, Hlen by done; lia|by apply Forall_take]. }
  intros _ st2 Hok2 _ _. destruct (Z.eqb_spec (first_part addr T) T) as [E|Hne]; cbn [negb]; [by apply mmu_ret|].
  pose proof (second_part addr T Ha HTr Hne) as H2.
  apply store_intrapage_ends; [done|done|simpl; rewrite Ev; apply uwrap_range; lia|lia|simpl; rewrite Ev, H2; lia|intros Hac; rewrite length_drop, Hlen by done; lia|by apply Forall_drop].
Qed.

Lemma store_ends st T addr v fl : mmu_ok st -> access_size T -> 0 <= addr < 2 ^ 64 -> mmu_ends st (fun _ _ => True) (store h T addr v fl st).
Proof.
  intros Hok HT Ha. unfold store. cbv zeta. destruct (_ && _) eqn:E; [|apply store_slow_path_ends; [done|done|done|by rewrite length_to_le|apply to_le_is_bytes]].
  rewrite !andb_true_iff in E. destruct E as (_ & Hal%Z.eqb_eq & Ht%Z.eqb_eq).
  apply (hit_store st STORE); [done|done|by apply exact_tag; [apply vpn_bound|]| |apply to_le_is_bytes].
  rewrite length_to_le. pose proof (aligned_in_page T addr HT Hal). unfold access_size in HT. lia.
Qed.

(** ** Fetches *)

Lemma fetch_slow_path_ends st addr : mmu_ok st -> 0 <= addr < 2 ^ 64 -> addr mod 2 = 0 ->
  mmu_ends st (fun e st' => host_ok st' (host_plus (host_offset e) addr) 2) (fetch_slow_path h addr st).
Proof.
  intros Hok Ha Hal. unfold fetch_slow_path. set (info := generate_access_info h addr FETCH no_flags). pose proof (access_mode h addr FETCH no_flags Hmodes) as Hm.
  destruct (access_address h addr FETCH no_flags) as (Ev & _). fold info in Hm, Ev.
  assert (addr mod 4096 + 2 <= 4096) as Hp by (Z.div_mod_to_equations; lia). cbv zeta.
  apply (mmu_bind _ (fun e st' => host_ok st' (host_plus (host_offset e) addr) 2)).
  - destruct (Z.eqb_spec (tag_at st FETCH (addr .>> PGSHIFT)) (addr .>> PGSHIFT .| TLB_CHECK_TRIGGERS)) as [Et|_]; cbn [negb].
    { apply ends_ok; [apply _|done|]. apply (hit_load st FETCH); [done|done| |lia|done]. unfold tag_valid. rewrite Et. by apply plain_checked, vpn_bound. }
    apply (mmu_bind _ _ _ _ _ (translate_step st info 2 Hok Hm ltac:(by rewrite Ev))). rewrite Ev. intros pa st1 Hok1 _ [Hpa Hoff].
    apply (mmu_bind _ _ _ _ _ (to_mem_step st1 pa Hok1)). intros [p|] st2 Hok2 _ Hr.
    + apply (ends_weaken _ _ _ _ _ _ (refill_tlb_ends h addr pa p FETCH st2 Hok2 Hready Ha (conj Hpa Hoff) (Hr p eq_refl))).
      intros e st3 Hok3 _ (Es & pa' & (H1 & H2 & H3) & _). pose proof (Z.mod_pos_bound addr 4096 ltac:(lia)) as Hmod.
      destruct (H3 _ Hmod) as (q & Eq & Hq). rewrite <- vpn_offset in Eq. rewrite Eq. rewrite <- Es in Hq.
      apply (points_host_ok st3 q (pa' + addr mod 4096)); [apply Hok3|done|lia|lia|]. rewrite Zplus_mod, H2, Z.add_0_l, !Zmod_mod. lia.
    + apply (mmu_bind _ (fun r _ => loads_bytes 2 r (sim st2))).
      { by apply (ends_weaken _ _ _ _ _ _ (on_bus_ends _ _ _ Hok2 (mmio_load_whole_ends h pa 2 (sim st2) (ok_bus st2 Hok2) Hpa ltac:(lia)))). }
      intros [bytes|] st3 Hok3 _ Hb; [|by apply mmu_throw]. destruct (Hb bytes eq_refl) as [Hl Hf].
      split; [by apply set_temp_ok|]. split; [by change (mmu_ext st3 st3)|]. simpl. rewrite Z.add_opp_diag_l. destruct bytes as [|x [|y [|z bytes]]]; try done. by exists [x; y].
  - intros e st1 Hok1 _ (bytes & E & Hb). apply (mmu_bind _ (fun _ st' => st' = st1)); [rewrite E; by apply ends_ok; [apply _|..]|].
    intros _ st2 Hok2 _ ->. apply mmu_ret; [done|]. by exists bytes.
Qed.

Lemma fetch_half_ends st addr : mmu_ok st -> 0 <= addr < 2 ^ 64 -> addr mod 2 = 0 -> mmu_ends st (fun v _ => 0 <= v < 2 ^ 16) (fetch_half h addr st).
Proof.
  intros Hok Ha Hal. unfold fetch_half. apply (mmu_bind _ (bytes_of 2)); [|intros bytes st1 Hok1 _ [Hl Hb]; apply mmu_ret; [done|]; apply (from_le_size 2); [right; by left|done|done]].
  unfold fetch_bytes. apply (mmu_bind _ (fun e st' => host_ok st' (host_plus (host_offset e) addr) 2)); [|intros e st1 Hok1 _ He; by apply host_ok_ends].
  unfold translate_insn_addr. cbv zeta. destruct (Z.eqb_spec (tag_at st FETCH (addr .>> PGSHIFT)) (addr .>> PGSHIFT)) as [Et|_]; [|by apply fetch_slow_path_ends].
  apply ends_ok; [apply _|done|]. apply (hit_load st FETCH); [done|done|by apply exact_tag; [apply vpn_bound|]|lia|Z.div_mod_to_equations; lia].
Qed.

(** ** Atomic operations and reservations *)

Lemma convert_ends {A} st (P : A -> mmu_t D -> Prop) m : mmu_ends st P (m st) -> mmu_ends st P (convert_load_traps_to_store_traps m st).
Proof. unfold convert_load_traps_to_store_traps. by destruct (m st) as [[a|t|] st']. Qed.

Lemma amo_ends st T addr f : mmu_ok st -> access_size T -> 0 <= addr < 2 ^ 64 -> mmu_ends st (fun v _ => 0 <= v < 2 ^ (8 * T)) (amo h T addr f st).
Proof.
  intros Hok HT Ha. unfold amo. apply convert_ends. apply (mmu_bind _ (fun _ _ => True)); [by apply store_slow_path_ends|]. intros _ st1 Hok1 _ _.
  apply (mmu_bind _ _ _ _ _ (load_ends st1 T addr no_flags Hok1 HT Ha)). intros lhs st2 Hok2 _ Hl.
  apply (mmu_bind _ _ _ _ _ (store_ends st2 T addr _ no_flags Hok2 HT Ha)). intros _ st3 Hok3 _ _. by apply mmu_ret.
Qed.

Lemma amo_compare_and_swap_ends st T addr comp swap : mmu_ok st -> access_size T -> 0 <= addr < 2 ^ 64 ->
  mmu_ends st (fun v _ => 0 <= v < 2 ^ (8 * T)) (amo_compare_and_swap h T addr comp swap st).
Proof.
  intros Hok HT Ha. unfold amo_compare_and_swap. apply convert_ends. apply (mmu_bind _ (fun _ _ => True)); [by apply store_slow_path_ends|]. intros _ st1 Hok1 _ _.
  apply (mmu_bind _ _ _ _ _ (load_ends st1 T addr no_flags Hok1 HT Ha)). intros lhs st2 Hok2 _ Hl.
  apply (mmu_bind _ (fun _ _ => True)); [destruct (_ =? _); [by apply store_ends|by apply mmu_ret]|]. intros _ st3 Hok3 _ _. by apply mmu_ret.
Qed.

Lemma check_load_reservation_ends st addr T : mmu_ok st -> access_size T -> 0 <= addr < 2 ^ 64 -> mmu_ends st (fun _ _ => True) (check_load_reservation h addr T st).
Proof.
  intros Hok HT Ha. unfold check_load_reservation. apply (mmu_bind _ (fun _ _ => True)); [destruct (negb _); [by apply store_slow_path_ends|by apply mmu_ret]|].
  intros _ st1 Hok1 _ _. destruct (access_address h addr STORE no_flags) as (Ev & _).
  apply (mmu_bind _ _ _ _ _ (translate_step st1 (generate_access_info h addr STORE no_flags) 1 Hok1 (access_mode h addr STORE no_flags Hmodes) ltac:(by rewrite Ev))).
  intros pa st2 Hok2 _ _. apply (mmu_bind _ _ _ _ _ (reservable_ends st2 pa Hok2)). intros ok st3 Hok3 _ _.
  destruct (negb ok); [by apply mmu_throw|]. by apply ends_ok; [apply _|..].
Qed.

Lemma store_conditional_ends st T addr v : mmu_ok st -> access_size T -> 0 <= addr < 2 ^ 64 -> mmu_ends st (fun _ _ => True) (store_conditional h T addr v st).
Proof.
  intros Hok HT Ha. unfold store_conditional. apply (mmu_bind _ _ _ _ _ (check_load_reservation_ends st addr T Hok HT Ha)). intros have st1 Hok1 _ _.
  apply (mmu_bind _ (fun _ _ => True)); [destruct have; [by apply store_ends|by apply mmu_ret]|]. intros _ st2 Hok2 _ _.
  by apply (reserve_ends _ _ _ (fun _ => True)).
Qed.

Lemma cbo_zero_loop_ends base n : forall st offset, mmu_ok st -> mmu_ends st (fun _ _ => True) (cbo_zero_loop h base n offset st).
Proof.
  induction n as [|n IH]; intros st offset Hok; cbn [cbo_zero_loop]; [by apply mmu_ret|].
  apply (mmu_bind _ (fun _ _ => True)); [apply store_ends; [done|by left|apply uwrap_range; lia]|]. intros _ st1 Hok1 _ _. by apply IH.
Qed.

Lemma clean_inval_ends st addr : mmu_ok st -> 0 <= addr < 2 ^ 64 -> mmu_ends st (fun _ _ => True) (clean_inval h addr st).
Proof.
  intros Hok Ha. unfold clean_inval. apply convert_ends. destruct (access_address h addr LOAD no_flags) as (Ev & _).
  apply (mmu_bind _ _ _ _ _ (translate_step st (generate_access_info h addr LOAD no_flags) 1 Hok (access_mode h addr LOAD no_flags Hmodes) ltac:(by rewrite Ev))).
  intros pa st1 Hok1 _ _. apply (mmu_bind _ _ _ _ _ (reservable_ends st1 pa Hok1)). intros ok st2 Hok2 _ _. destruct ok; [by apply mmu_ret|by apply mmu_throw].
Qed.
End Hart.
End Paths.

(** ** The memory of a hart *)

Lemma roots_ok_same h h' p virt : same_tables h h' -> roots_ok h p virt -> roots_ok h' p virt.
Proof.
  intros (E1 & E2 & E3 & E4 & _). unfold roots_ok. rewrite E1, E4. replace (satp_readvirt h' virt) with (satp_readvirt h virt); [done|].
  unfold satp_readvirt. by rewrite E2, E3.
Qed.

Lemma ends_ends_well {A D} `{SoundDevice D} (st : mmu_t D) (P : A -> Prop) r : ends mmu_ok mmu_ext st (fun a _ => P a) r -> ends_well mmu_ok P r.
Proof. intros (Hi & _ & Hp). split; [done|]. by destruct r as [[a|t|] st']. Qed.

#[export] Program Instance mmu_memory {D} `{SoundDevice D} : Memory (mmu_t D) := {|
  mem_load h st addr len := load h len addr no_flags st;
  mem_store h st addr len v := store h len addr v no_flags st;
  mem_fetch h st addr := fetch_half h addr st;
  mem_flush_tlb st := flush_mmu_tlb st;
  mem_ready := mmu_ready;
  mem_inv := mmu_ok
|}.
Next Obligation.
  intros D ? ? h h' Hs [Hr Hp]. split; [intros p virt Hm; apply (roots_ok_same h); auto|]. destruct Hs as (_ & _ & _ & _ & ->). done.
Qed.
Next Obligation. intros D ? ? h st addr len Hr Hm Hi Ha Hl. apply (ends_ends_well st). by apply load_ends. Qed.
Next Obligation. intros D ? ? h st addr len v Hr Hm Hi Ha Hl Hv. apply (ends_ends_well st). by apply store_ends. Qed.
Next Obligation. intros D ? ? h st addr Hr Hm Hi Ha Hl. apply (ends_ends_well st). by apply fetch_half_ends. Qed.
Next Obligation. intros D ? ? st Hi. by apply flush_ok. Qed.
