(* ===== verification/AccessBare.v ===== *)
(** * Spike: the TLB without translation

    Where addresses are not translated the TLB is only a cache: every operation gives
    what it gives with an empty TLB.  [same] compares a step from a state and from
    the state with the TLB emptied; it goes through the steps of [Access]. *)

From stdpp Require Import base option list gmap.
From S2P Require Import Prelude.
From S2P Require Import Arith.
From S2P Require Import Pmp.
From S2P Require Import PmpFacts.
From S2P Require Import Devices.
From S2P Require Import DevicesFacts.
From S2P Require Import Mmu.
From S2P Require Import MmuSpec.
From S2P Require Import MmuFacts.
From S2P Require Import MmuStages.
From S2P Require Import Memory.
From S2P Require Import Access.
From S2P Require Import AccessBus.
From S2P Require Import AccessPaths.

(** Ordinary accesses go to the physical address itself. *)
Definition untranslated (h : hart_t) : Prop := forall ty, let info := generate_access_info h 0 ty no_flags in
  effective_virt info = false /\ exists vm, decode_vm_info (hart_xlen h) false (effective_priv info) (satp h) = Some vm /\ levels vm = 0.

Definition access_priv (h : hart_t) (ty : access_type) : Z := effective_priv (generate_access_info h 0 ty no_flags).

Definition phys (h : hart_t) (a : Z) : Z := a mod 2 ^ hart_xlen h.

(** An ordinary access of the hart. *)
Definition ordinary (h : hart_t) (info : mem_access_info_t) : Prop :=
  effective_virt info = false /\ effective_priv info = access_priv h (type info) /\ flags info = no_flags.

Lemma generated_ordinary h a ty : untranslated h -> ordinary h (generate_access_info h a ty no_flags).
Proof.
  intros Hu. destruct (access_address h a ty no_flags) as (_ & Ef & Et). split; [|split; [rewrite Et|done]].
  - rewrite <- (proj1 (Hu ty)). unfold generate_access_info. case_bool_decide; [done|]. by destruct (in_mprv h).
  - unfold access_priv, generate_access_info. case_bool_decide; [done|]. by destruct (in_mprv h).
Qed.

Lemma phys_page h a : hart_xlen h = 32 \/ hart_xlen h = 64 -> phys h a = phys h ((a .>> PGSHIFT) * 4096) + a mod 4096 /\ phys h ((a .>> PGSHIFT) * 4096) mod 4096 = 0 /\
  0 <= phys h ((a .>> PGSHIFT) * 4096).
Proof.
  intros Hx. unfold phys. assert (exists m, 0 < m /\ 2 ^ hart_xlen h = 4096 * m) as (m & Hm & ->).
  { destruct Hx as [-> | ->]; [by exists (2 ^ 20)|by exists (2 ^ 52)]. }
  pose proof (vpn_offset a) as Ea. set (q := a .>> PGSHIFT) in *. pose proof (Z.mod_pos_bound a 4096 ltac:(lia)) as Hr.
  assert ((q * 4096) mod (4096 * m) = 4096 * (q mod m)) as E by (rewrite Z.mul_comm; apply Z.mul_mod_distr_l; lia). rewrite E.
  pose proof (Z.mod_pos_bound q m Hm). split; [|split; [rewrite Z.mul_comm; apply Z.mod_mul; lia|lia]].
  symmetry. apply (Z.mod_unique_pos _ _ (q / m)); [nia|]. pose proof (Z.div_mod q m ltac:(lia)). nia.
Qed.

(** A homogeneous page has one answer for a type and a mode. *)
Lemma homogeneous_all s page k a l a' l' ty mode : pmp_wf s -> 2 <= k <= 63 -> 0 <= page -> page mod 2 ^ k = 0 -> page + 2 ^ k <= 2 ^ 64 ->
  pmp_homogeneous s page (2 ^ k) = Some true -> page <= a -> 0 < l -> a + l <= page + 2 ^ k -> page <= a' -> 0 < l' -> a' + l' <= page + 2 ^ k ->
  pmp_ok s a l ty mode = pmp_ok s a' l' ty mode.
Proof.
  intros Hwf Hk Hp Hal Hend E. destruct (homogeneous_uniform s Hwf page k Hk Hp Hal Hend) as (r & E' & Hu). rewrite E in E'. injection E' as <-.
  intros. unfold pmp_ok. destruct (n_pmp s =? 0); [done|]. pose proof (wf_num s Hwf).
  destruct (scan_uniform s page k Hk Hp Hend ty mode (Z.to_nat (n_pmp s)) 0) as [r Hr]; [intros j Hj; apply Hu; [done|lia]|]. by rewrite !Hr.
Qed.

Section Bare.
Context {D : Type} `{SoundDevice D}.
Implicit Types (b : bus_t D) (st : mmu_t D).

Notation mmu_ends := (ends (mmu_ok (D := D)) (mmu_ext (D := D))).

Lemma set_same_device b a dev : get_device b a = Some dev -> set_device b a dev = b.
Proof.
  induction b as [|[x d] b IH]; simpl; [done|]. destruct (Z.eqb_spec x a); [by intros [= ->]|]. intros Hg. by rewrite IH.
Qed.

(** A host address that is good already is found without a change. *)
Lemma points_found b p a : bus_good b -> points b p a -> to_mem a b = (Ok (Some p), b).
Proof.
  intros Hg (Hok & base & m & E & Hlt & -> & [page Hp]). unfold to_mem, addr_to_mem. rewrite Hok, E. cbn [negb]. destruct (Z.ltb_spec (a - base) (sz m)); [|lia].
  unfold contents. rewrite Hp. destruct (find_good _ _ _ _ Hg E) as (_ & _ & Hget). by rewrite (set_same_device _ _ _ Hget).
Qed.

(** ** Comparing steps *)

(** The state with the TLB emptied, its data as well. *)
Definition canon st : mmu_t D := set_tlb st (replicate 256 (TlbEntry (HTemp 0) 0)) (fun _ => replicate (Z.to_nat TLB_ENTRIES) no_tag).

Section Hart.
Context (h : hart_t) (Hready : mmu_ready h) (Hmodes : modes_ok h) (Hx : hart_xlen h = 32 \/ hart_xlen h = 64) (Hun : untranslated h).

(** A valid tag stands for the page of the physical address, and all of it may be accessed. *)
Definition granted (ty : access_type) (pa : Z) : Prop :=
  forall a l, pa <= a -> 0 < l -> a + l <= pa + 4096 -> pmp_ok (pmp h) a l ty (access_priv h ty) = true.

Record bare_ok st : Prop := {
  bare_mmu : mmu_ok st;
  bare_tlb : forall ty vpn, 0 <= vpn < 2 ^ 52 -> tag_valid st ty vpn ->
    entry_maps (sim st) (entry_at st vpn) vpn (phys h (vpn * 4096)) /\ granted ty (phys h (vpn * 4096))
}.

Lemma canon_tag st ty vpn : tag_at (canon st) ty vpn = no_tag.
Proof. apply nth_replicate, tlb_index_bound. Qed.

Lemma canon_missed st ty vpn : vpn < 2 ^ 52 -> ~ tag_valid (canon st) ty vpn.
Proof. intros Hv. unfold tag_valid. rewrite canon_tag. by apply plain_no_tag. Qed.

Lemma canon_ok st : mmu_ok st -> bare_ok (canon st).
Proof.
  intros [H1 H2 H3 H4 H5]. split; [split; try done|]; intros ty vpn Hv Ht; exfalso; by apply (canon_missed st ty vpn); [lia|].
Qed.

Definition same {A} st (m : AM A) : Prop :=
  (m st).1 = (m (canon st)).1 /\ canon (m st).2 = canon (m (canon st)).2 /\ bare_ok (m st).2 /\ bare_ok (m (canon st)).2.

Lemma same_ret {A} st (a : A) : bare_ok st -> same st (aret a).
Proof. intros Hok. split; [done|]. split; [done|]. split; [done|]. apply canon_ok, Hok. Qed.

Lemma same_throw {A} st t : bare_ok st -> same (A := A) st (athrow t).
Proof. intros Hok. split; [done|]. split; [done|]. split; [done|]. apply canon_ok, Hok. Qed.

Lemma same_bind {A B} st (P : A -> mmu_t D -> Prop) (m : AM A) (f : A -> AM B) :
  bare_ok st -> same st m -> (forall s, mmu_ok s -> sim s = sim st -> mmu_ends s P (m s)) -> (forall a s, bare_ok s -> P a s -> same s (f a)) -> same st (abind m f).
Proof.
  intros Hok (E1 & E2 & O1 & O2) He Hf. pose proof (He st (bare_mmu st Hok) eq_refl) as (_ & _ & P1).
  pose proof (He (canon st) (bare_mmu _ (canon_ok st (bare_mmu st Hok))) eq_refl) as (_ & _ & P2).
  unfold same, abind in *. destruct (m st) as [r1 s1], (m (canon st)) as [r2 s2]. simpl in *. subst r2. destruct r1 as [a|t|]; [|done|done].
  destruct (Hf a s1 O1 P1) as (F1 & F2 & F3 & F4). destruct (Hf a s2 O2 P2) as (G1 & G2 & G3 & G4). rewrite E2 in F1, F2, F4.
  split; [congruence|]. split; [congruence|]. done.
Qed.

Lemma same_then {A B} st (m : AM A) (f : A -> AM B) : bare_ok st -> same st m -> (forall a s, bare_ok s -> same s (f a)) -> same st (abind m f).
Proof.
  intros Hok (E1 & E2 & O1 & O2) Hf. unfold same, abind in *. destruct (m st) as [r1 s1], (m (canon st)) as [r2 s2]. simpl in *. subst r2.
  destruct r1 as [a|t|]; [|done|done]. destruct (Hf a s1 O1) as (F1 & F2 & F3 & F4). destruct (Hf a s2 O2) as (G1 & G2 & G3 & G4). rewrite E2 in F1, F2, F4.
  split; [congruence|]. split; [congruence|]. done.
Qed.

Lemma bare_set_sim st b : bare_ok st -> bus_good b -> bus_ext (sim st) b -> bare_ok (set_sim st b).
Proof.
  intros [Hok Ht] Hg He. split; [by apply set_sim_ok|]. intros ty vpn Hv Hvalid. destruct (Ht ty vpn Hv Hvalid) as [H1 H2].
  split; [|done]. by apply (entry_maps_ext (sim st)).
Qed.

Lemma same_bus {A} st (P : A -> bus_t D -> Prop) m : bare_ok st -> ends bus_good bus_ext (sim st) P (m (sim st)) -> same st (on_bus m).
Proof.
  intros Hok (Hg & He & _). unfold same, on_bus. change (sim (canon st)) with (sim st). destruct (m (sim st)) as [r b]. simpl in *.
  split; [done|]. split; [done|]. split; apply bare_set_sim; try done. apply canon_ok, Hok.
Qed.

Lemma same_modify st f : bare_ok st -> (forall s, bare_ok s -> bare_ok (f s)) -> (forall s, canon (f s) = canon (f (canon s))) -> same st (modify f).
Proof. intros Hok Hf Hc. split; [done|]. split; [apply Hc|]. split; [by apply Hf|]. apply Hf, canon_ok, Hok. Qed.

(** Host addresses that are pages of memory do not depend on the TLB. *)
Lemma same_host_load st p n : bare_ok st -> same st (host_load (HMem p) n).
Proof.
  intros Hok. pose proof (canon_ok st (bare_mmu st Hok)) as Hc. unfold same, host_load. change (sim (canon st)) with (sim st).
  by destruct (if 0 <=? p.2.2 then _ else _).
Qed.

Lemma same_host_store st p pa bytes : bare_ok st -> points (sim st) p pa -> 0 <= pa -> pa mod 4096 + Z.of_nat (length bytes) <= 4096 -> Forall is_byte bytes ->
  same st (host_store (HMem p) bytes).
Proof.
  intros Hok Hp Ha Hl Hb. destruct (points_store (sim st) p pa bytes (ok_bus st (bare_mmu st Hok)) Hp Ha Hl Hb) as (b & E & Hg & He).
  unfold same, host_store. rewrite (points_offset _ _ _ Hp). change (sim (canon st)) with (sim st). rewrite E. simpl.
  split; [done|]. split; [done|]. split; apply bare_set_sim; try done. apply canon_ok, Hok.
Qed.

(** ** Refills *)

Lemma phys_range a : 0 <= phys h a < 2 ^ 64.
Proof. unfold phys. pose proof (Z.mod_pos_bound a (2 ^ hart_xlen h)). destruct Hx as [E|E]; rewrite E in *; lia. Qed.

Lemma phys_offset a : phys h a mod 4096 = a mod 4096 /\ phys h a - a mod 4096 = phys h ((a .>> PGSHIFT) * 4096).
Proof.
  destruct (phys_page h a Hx) as (E & Em & Hn). split; [|lia]. rewrite E, Zplus_mod, Em, Z.add_0_l, !Zmod_mod. done.
Qed.

(** The page that an access was allowed in, when it is homogeneous. *)
Lemma granted_page a len ty : 0 < len -> a mod 4096 + len <= 4096 -> pmp_ok (pmp h) (phys h a) len ty (access_priv h ty) = true ->
  pmp_homogeneous (pmp h) (phys h a .& u64 (Z.lnot (PGSIZE - 1))) PGSIZE = Some true -> granted ty (phys h ((a .>> PGSHIFT) * 4096)).
Proof.
  intros Hl Hp Hok Hh. destruct (phys_offset a) as [Eo Ep]. pose proof (phys_range a) as Hr. pose proof (Z.mod_pos_bound a 4096 ltac:(lia)).
  assert (phys h a .& u64 (Z.lnot (PGSIZE - 1)) = phys h ((a .>> PGSHIFT) * 4096)) as E.
  { change (PGSIZE - 1) with (u64 (1 .<< 12) - 1). rewrite clear_low by lia. change (2 ^ 12) with 4096. pose proof (Z.div_mod (phys h a) 4096). lia. }
  rewrite E in Hh. destruct (phys_page h a Hx) as (_ & Em & Hn). set (page := phys h ((a .>> PGSHIFT) * 4096)) in *.
  intros x l L1 L2 L3. rewrite <- Hok. change 4096 with (2 ^ 12) in *. rewrite pgsize in Hh. pose proof (phys_range ((a .>> PGSHIFT) * 2 ^ 12)) as Hpr. fold page in Hpr.
  assert (page + 2 ^ 12 <= 2 ^ 64). { pose proof (Z.div_mod page (2 ^ 12) ltac:(lia)) as Ed. rewrite Em in Ed. assert (page / 2 ^ 12 < 2 ^ 52) by (apply Z.div_lt_upper_bound; lia). lia. }
  apply (homogeneous_all (pmp h) page 12); try done; try lia. apply Hready.
Qed.

Lemma refill_bare st a len p ty : bare_ok st -> 0 <= a < 2 ^ 64 -> 0 < len -> a mod 4096 + len <= 4096 -> points (sim st) p (phys h a) ->
  pmp_ok (pmp h) (phys h a) len ty (access_priv h ty) = true ->
  exists st', refill_tlb h a (phys h a) (HMem p) ty st = (Ok (TlbEntry (host_plus (HMem p) (- a)) (u64 (phys h a - a))), st') /\ canon st' = canon st /\ bare_ok st' /\ sim st' = sim st.
Proof.
  intros Hok Ha Hl Hp Hpt Hpmp. pose proof (bare_mmu st Hok) as Hm. destruct (phys_offset a) as [Eo Ep]. pose proof (vpn_bound a Ha) as Hv.
  destruct (refill_tlb_ends h a (phys h a) p ty st Hm Hready Ha (conj (phys_range a) Eo) Hpt) as (Hok' & _ & Hr).
  unfold refill_tlb in *. cbv zeta in *. destruct (in_mprv h); [by eexists|].
  destruct (pmp_homogeneous (pmp h) _ _) as [hom|] eqn:Eh; [|done]. simpl in Hok', Hr. destruct Hr as (_ & pa & He & Epa). rewrite Ep in Epa. subst pa.
  eexists. split; [done|]. split; [done|]. split; [|done]. split; [done|]. intros ty' vpn' Hv' Ht. unfold tag_valid, tag_at in Ht. cbn [set_tlb tlb_tag] in Ht.
  unfold entry_at. cbn [set_tlb tlb_data sim]. pose proof (ok_data st Hm). pose proof (tlb_index_bound (a .>> PGSHIFT)). rewrite nth_updated by lia.
  set (cached := if hom then _ else _) in *. assert (forall t, cached = Some t -> plain_tag t = a .>> PGSHIFT) as Hc.
  { intros t. unfold cached. destruct hom; [|done]. intros [= <-]. destruct (check_triggers st ty); [by apply plain_checked|by apply plain_vpn]. }
  destruct (refilled_tags st _ ty cached ty' vpn' Hm Hv Hv' Hc Ht) as [[Hne Et]| ->].
  { rewrite decide_False by congruence. rewrite Et in Ht. by apply (bare_tlb st Hok). }
  rewrite decide_True by done. split; [done|].
  destruct (decide (ty' = ty /\ hom = true)) as [[-> ->]|Hneq]; [by apply (granted_page a len)|].
  (* the tag was there before *)
  assert (tag_valid st ty' (a .>> PGSHIFT)) as Hb; [|by apply (bare_tlb st Hok)].
  revert Ht. unfold refilled_tag, tag_valid, tag_at. cbv zeta. set (old := nth (tlb_index (a .>> PGSHIFT)) (tlb_tag st ty') 0).
  assert (forall l, l = (if negb (plain_tag old =? a .>> PGSHIFT) then <[tlb_index (a .>> PGSHIFT) := no_tag]> (tlb_tag st ty') else tlb_tag st ty') ->
    plain_tag (nth (tlb_index (a .>> PGSHIFT)) l 0) = a .>> PGSHIFT -> plain_tag old = a .>> PGSHIFT) as Hkeep.
  { intros l ->. destruct (Z.eqb_spec (plain_tag old) (a .>> PGSHIFT)) as [E|Hne]; cbn [negb]; [done|]. pose proof (ok_tags st Hm ty').
    rewrite nth_updated, decide_True by (lia || done). intros Hn. exfalso. apply (plain_no_tag (a .>> PGSHIFT)); [lia|done]. }
  unfold cached. destruct hom; [|by apply Hkeep]. case_bool_decide as Ety; [|by apply Hkeep]. destruct Hneq. done.
Qed.

Lemma same_refill st a len p ty : bare_ok st -> 0 <= a < 2 ^ 64 -> 0 < len -> a mod 4096 + len <= 4096 -> points (sim st) p (phys h a) ->
  pmp_ok (pmp h) (phys h a) len ty (access_priv h ty) = true -> same st (refill_tlb h a (phys h a) (HMem p) ty).
Proof.
  intros Hok Ha Hl Hp Hpt Hpmp. destruct (refill_bare st a len p ty Hok Ha Hl Hp Hpt Hpmp) as (s1 & E1 & C1 & O1 & _).
  destruct (refill_bare (canon st) a len p ty (canon_ok st (bare_mmu st Hok)) Ha Hl Hp Hpt Hpmp) as (s2 & E2 & C2 & O2 & _).
  unfold same. rewrite E1, E2. cbn [fst snd]. split; [done|]. split; [by rewrite C1, C2|done].
Qed.
End Hart.
End Bare.
