(* ===== verification/AccessSame.v ===== *)
(** * Spike: operations and the TLB

    Where addresses are not translated every operation of [Access] gives what it
    gives with an empty TLB.

    The rest of the operations of [Access] compared with an empty TLB. *)

From stdpp Require Import base option list gmap.
From S2P Require Import Prelude.
From S2P Require Import Arith.
From S2P Require Import Pmp.
From S2P Require Import PmpFacts.
From S2P Require Import Devices.
From S2P Require Import DevicesFacts.
From S2P Require Import Mmu.
From S2P Require Import MmuSpec.
From S2P Require Import MmuFacts.
From S2P Require Import MmuWalk.
From S2P Require Import MmuStages.
From S2P Require Import Memory.
From S2P Require Import Access.
From S2P Require Import AccessBus.
From S2P Require Import AccessPaths.
From S2P Require Import AccessBare.

Section Same.
Context {D : Type} `{SoundDevice D}.
Implicit Types (b : bus_t D) (st : mmu_t D).
Context (h : hart_t) (Hready : mmu_ready h) (Hmodes : modes_ok h) (Hx : hart_xlen h = 32 \/ hart_xlen h = 64) (Hun : untranslated h).

Notation same := (same h).
Notation bare_ok := (bare_ok h).

(** ** Translations *)

Definition allowed (info : mem_access_info_t) (len pa : Z) : Prop :=
  pa = phys h (vaddr info) /\ pmp_ok (pmp h) pa len (type info) (access_priv h (type info)) = true.

Lemma translate_ordinary info len b : ordinary h info -> 0 <= vaddr info < 2 ^ 64 ->
  translate h info len b = ((if pmp_ok (pmp h) (phys h (vaddr info)) len (type info) (access_priv h (type info)) then Ok (phys h (vaddr info)) else s1_access_fault info), b).
Proof.
  intros (Hv & Hp & Hf) Ha. destruct (Hun (type info)) as (_ & vm & Ev & El). fold (access_priv h (type info)) in Ev.
  rewrite (translate_bare h info len vm b Hx Hv Ha) by (done || by rewrite Hp). unfold guarded. by rewrite Hp.
Qed.

Lemma translate_known info len b : bus_good b -> is_mode (effective_priv info) -> 0 <= vaddr info < 2 ^ 64 ->
  ends bus_good bus_ext b (fun pa b' => same_offset (vaddr info) pa b' /\ (ordinary h info -> allowed info len pa)) (translate h info len b).
Proof.
  intros Hg Hm Ha. destruct (translate_ends h info len b Hg) as (H1 & H2 & H3); [by apply Hready|done|]. split; [done|]. split; [done|].
  destruct (translate h info len b) as [[pa|t|] b'] eqn:E; [|done|done]. split; [done|]. intros Ho. rewrite translate_ordinary in E by done.
  unfold allowed. destruct (pmp_ok _ (phys h (vaddr info)) _ _ _) eqn:Ep; [|done]. by injection E as <- _.
Qed.

Lemma known_step info len st : mmu_ok st -> is_mode (effective_priv info) -> 0 <= vaddr info < 2 ^ 64 ->
  ends mmu_ok mmu_ext st (fun pa s => same_offset (vaddr info) pa (sim s) /\ (ordinary h info -> allowed info len pa)) (on_bus (translate h info len) st).
Proof.
  intros Hok Hm Ha. apply (on_bus_ends st (fun pa b' => same_offset (vaddr info) pa b' /\ (ordinary h info -> allowed info len pa))); [done|].
  apply translate_known; [apply Hok|done|done].
Qed.

Lemma same_translate {A} st info len (f : Z -> AM A) : bare_ok st -> is_mode (effective_priv info) -> 0 <= vaddr info < 2 ^ 64 ->
  (forall pa s, bare_ok s -> same_offset (vaddr info) pa (sim s) -> (ordinary h info -> allowed info len pa) -> same s (f pa)) ->
  same st (abind (on_bus (translate h info len)) f).
Proof.
  intros Hok Hm Ha Hf. eapply (same_bind h st (fun pa s => same_offset (vaddr info) pa (sim s) /\ (ordinary h info -> allowed info len pa))); [done| | |].
  - eapply same_bus; [done|]. apply (translate_known info len); [apply Hok|done|done].
  - intros s Hs _. by apply known_step.
  - intros pa s Hs [H1 H2]. by apply Hf.
Qed.

Lemma same_to_mem {A} st pa (f : option (Z * ptr) -> AM A) : bare_ok st ->
  (forall r s, bare_ok s -> (forall p, r = Some p -> points (sim s) p pa) -> same s (f r)) -> same st (abind (on_bus (to_mem pa)) f).
Proof.
  intros Hok Hf. eapply (same_bind h st (fun r s => forall p, r = Some p -> points (sim s) p pa)); [done| | |done].
  - eapply same_bus; [done|]. apply to_mem_ends, Hok.
  - intros s Hs _. by apply to_mem_step.
Qed.

Lemma same_reservable st pa : bare_ok st -> same st (reservable pa).
Proof. intros Hok. unfold reservable. apply same_to_mem; [done|]. intros. by apply same_ret. Qed.

Lemma same_reserve {A} st pa (a : A) : bare_ok st -> same st (abind (modify (fun s => set_reservation s pa)) (fun _ => aret a)).
Proof.
  intros Hok. apply same_then; [done| |intros; by apply same_ret]. apply same_modify; [done| |done]. intros s [[] Ht]. by split.
Qed.

(** A step that goes one way from both states. *)
Lemma same_ext {A} st (m m' : AM A) : m st = m' st -> m (canon st) = m' (canon st) -> same st m' -> same st m.
Proof. unfold AccessBare.same. by intros -> ->. Qed.

(** ** Hits *)

(** A valid tag stands for the address itself, in a page that may be accessed. *)
Lemma bare_hit st ty a len : bare_ok st -> 0 <= a < 2 ^ 64 -> tag_valid st ty (a .>> PGSHIFT) -> 0 < len -> a mod 4096 + len <= 4096 ->
  exists p, host_plus (host_offset (entry_at st (a .>> PGSHIFT))) a = HMem p /\ points (sim st) p (phys h a) /\
    pmp_ok (pmp h) (phys h a) len ty (access_priv h ty) = true.
Proof.
  intros Hok Ha Ht Hl Hp. destruct (bare_tlb h st Hok ty _ (vpn_bound a Ha) Ht) as [(_ & _ & He) Hg]. pose proof (Z.mod_pos_bound a 4096 ltac:(lia)) as Hr.
  destruct (He _ Hr) as (p & Ep & Hpt). destruct (phys_page h a Hx) as (E & _ & Hn). rewrite <- E in Hpt. rewrite <- vpn_offset in Ep.
  exists p. split; [done|]. split; [done|]. apply Hg; lia.
Qed.

(** What a miss does where there would have been a hit. *)
Lemma missed_translate st info ty len : ordinary h info -> type info = ty -> 0 <= vaddr info < 2 ^ 64 ->
  pmp_ok (pmp h) (phys h (vaddr info)) len ty (access_priv h ty) = true -> on_bus (translate h info len) (canon st) = (Ok (phys h (vaddr info)), canon st).
Proof. intros Ho <- Ha Hp. unfold on_bus. rewrite translate_ordinary, Hp by done. done. Qed.

Lemma missed_to_mem st p pa : mmu_ok st -> points (sim st) p pa -> on_bus (to_mem pa) (canon st) = (Ok (Some p), canon st).
Proof. intros Hok Hp. unfold on_bus. change (sim (canon st)) with (sim st). rewrite (points_found _ p pa (ok_bus st Hok) Hp). done. Qed.

(** ** Loads *)

Lemma same_load_intrapage st len info : bare_ok st -> is_mode (effective_priv info) -> 0 <= vaddr info < 2 ^ 64 -> type info = LOAD ->
  (is_special_access (flags info) = true \/ ordinary h info) -> 0 < len -> vaddr info mod 4096 + len <= 4096 -> same st (load_slow_path_intrapage h len info).
Proof.
  intros Hok Hm Ha Hty Hor Hl Hp. pose proof (Z.mod_pos_bound (vaddr info) 4096 ltac:(lia)) as Hr. pose proof (vpn_bound _ Ha) as Hv.
  destruct (negb (is_special_access (flags info)) && (vaddr info .>> PGSHIFT =? plain_tag (tag_at st LOAD (vaddr info .>> PGSHIFT)))) eqn:Eh.
  - (* a hit, which would be a miss *)
    pose proof Eh as E'. apply andb_prop in E' as [Es%negb_true_iff Et%Z.eqb_eq]. destruct Hor as [Hor|Hor]; [congruence|].
    destruct (bare_hit st LOAD (vaddr info) len Hok Ha) as (p & Ep & Hpt & Hpmp); [by symmetry|done|done|].
    pose proof (bare_mmu h st Hok) as Hmmu. destruct (points_host_ok st p (phys h (vaddr info)) len (ok_bus st Hmmu) Hpt) as (bytes & Eb & _); [apply (phys_range h Hx)|lia|rewrite (proj1 (phys_offset h Hx (vaddr info))); lia|].
    assert (host_load (HMem p) len (canon st) = (Ok bytes, canon st)) as Ec.
    { revert Eb. unfold host_load. change (sim (canon st)) with (sim st). destruct (if 0 <=? p.2.2 then _ else _); [|done]. by intros [= ->]. }
    destruct (refill_bare h Hready Hx (canon st) (vaddr info) len p LOAD (canon_ok h st Hmmu) Ha Hl Hp Hpt Hpmp) as (s2 & E2 & C2 & O2 & _).
    assert (load_slow_path_intrapage h len info st = (Ok bytes, st)) as E1 by (unfold load_slow_path_intrapage; rewrite Eh, Ep; done).
    assert (load_slow_path_intrapage h len info (canon st) = (Ok bytes, s2)) as E3.
    { unfold load_slow_path_intrapage. rewrite canon_tag. destruct (Z.eqb_spec (vaddr info .>> PGSHIFT) (plain_tag no_tag)) as [En|_]; [exfalso; apply (plain_no_tag (vaddr info .>> PGSHIFT)); [lia|done]|].
      rewrite andb_false_r. unfold abind. rewrite (missed_translate st info LOAD len Hor Hty Ha Hpmp). destruct Hor as (_ & _ & Hf). rewrite Hf. cbn [lr no_flags aret negb].
      rewrite (missed_to_mem st p _ Hmmu Hpt), Ec. cbn [is_special_access forced_virt hlvx lr no_flags orb negb]. by rewrite E2. }
    unfold AccessBare.same. rewrite E1, E3. cbn [fst snd]. split; [done|]. split; [by rewrite C2|done].
  - assert (negb (is_special_access (flags info)) && (vaddr info .>> PGSHIFT =? plain_tag (tag_at (canon st) LOAD (vaddr info .>> PGSHIFT))) = false) as Ec.
    { rewrite canon_tag. destruct (Z.eqb_spec (vaddr info .>> PGSHIFT) (plain_tag no_tag)) as [En|_]; [exfalso; apply (plain_no_tag (vaddr info .>> PGSHIFT)); [lia|done]|apply andb_false_r]. }
    eapply same_ext; [unfold load_slow_path_intrapage; rewrite Eh; reflexivity|unfold load_slow_path_intrapage; rewrite Ec; reflexivity|].
    apply same_translate; [done|done|done|]. intros pa s1 Hs1 [Hpa Hoff] Hall.
    apply same_then; [done|destruct (lr _); [by apply same_reservable|by apply same_ret]|]. intros ok s2 Hs2. destruct (negb ok); [by apply same_throw|].
    apply same_to_mem; [done|]. intros r s3 Hs3 Hr3.
    apply same_then; [done| |intros bytes s4 Hs4; destruct (lr _); [by apply same_reserve|by apply same_ret]]. destruct r as [p|].
    + specialize (Hr3 p eq_refl). apply (same_bind h s3 (fun _ s => points (sim s) p pa)); [done|by apply same_host_load| |].
      { intros s Hs Es. rewrite <- Es in Hr3. destruct (points_host_ok s p pa len (ok_bus s Hs) Hr3) as (bytes & Eb & _); [lia|lia|lia|]. rewrite Eb. by apply ends_ok; [apply _|..]. }
      intros bytes s4 Hs4 Hpt. destruct (is_special_access (flags info)) eqn:Es; cbn [negb]; [by apply same_ret|]. destruct Hor as [Hor|Hor]; [done|].
      destruct (Hall Hor) as [-> Hpmp]. rewrite Hty in Hpmp. apply same_then; [done|by apply (same_refill h Hready Hx s4 (vaddr info) len)|intros; by apply same_ret].
    + apply same_then; [done|eapply same_bus; [done|]; apply (mmio_load_ends h pa len); [apply Hs3|done|lia]|]. intros [bytes|] s4 Hs4; [by apply same_ret|by apply same_throw].
Qed.

Lemma same_require {A} st (o : option A) : bare_ok st -> same st (require_some o).
Proof.
  intros Hok. destruct o; [by apply same_ret|]. split; [done|]. split; [done|]. split; [done|]. apply canon_ok, Hok.
Qed.

(** The two kinds of accesses an instruction makes. *)
Lemma access_kind a ty fl : is_special_access fl = true \/ fl = no_flags ->
  is_special_access (flags (generate_access_info h a ty fl)) = true \/ ordinary h (generate_access_info h a ty fl).
Proof. intros [Hs| ->]; [left|right; by apply generated_ordinary]. by destruct (access_address h a ty fl) as (_ & -> & _). Qed.

Lemma flags_kind fl : is_special_access fl = true \/ fl = no_flags.
Proof. destruct fl as [[] [] []]; auto. Qed.

Lemma same_load_slow st addr T fl : bare_ok st -> access_size T -> 0 <= addr < 2 ^ 64 -> same st (load_slow_path h addr T fl).
Proof.
  intros Hok HT Ha. assert (0 < T <= 8) as HTr by (unfold access_size in HT; lia). set (info := generate_access_info h addr LOAD fl).
  destruct (access_address h addr LOAD fl) as (Ev & Ef & Et). pose proof (access_mode h addr LOAD fl Hmodes) as Hm. pose proof (access_kind addr LOAD fl (flags_kind fl)) as Hk. fold info in Ev, Ef, Et, Hm, Hk.
  destruct (misaligned st) eqn:Emis;
    (eapply same_ext; [cbv beta zeta delta [load_slow_path]; rewrite Emis; reflexivity|cbv beta zeta delta [load_slow_path]; change (misaligned (canon st)) with (misaligned st); rewrite Emis; reflexivity|]); fold info; cbn [negb].
  all: apply same_then; [done| |intros bytes s Hs; apply same_then; [done|by apply same_require|intros; by apply same_ret]].
  all: destruct (Z.eqb_spec (addr .& (T - 1)) 0) as [E|_]; [apply same_load_intrapage; rewrite ?Ev; [done|done|done|done|done|lia|by apply aligned_in_page]|].
  2: by apply same_throw.
  destruct (lr fl); [by apply same_throw|]. destruct (first_part_range addr T ltac:(lia)) as [Hf Hp].
  apply same_then; [done|apply same_load_intrapage; rewrite ?Ev; [done|done|done|done|done|lia|done]|]. intros b0 s1 Hs1.
  destruct (Z.eqb_spec (first_part addr T) T) as [E|Hne]; cbn [negb]; [by apply same_ret|]. pose proof (second_part addr T Ha HTr Hne) as H2.
  apply same_then; [done| |intros; by apply same_ret].
  apply same_load_intrapage; [done|done|simpl; rewrite Ev; apply uwrap_range; lia|done|destruct Hk as [Hk|Hk]; [by left|by right]|lia|simpl; rewrite Ev, H2; lia].
Qed.

(** The fast path gives what the slow path gives. *)
Lemma load_fast_slow st T addr fl : mmu_ok st -> access_size T -> 0 <= addr < 2 ^ 64 ->
  load h T addr fl st = abind (load_slow_path h addr T fl) (fun bytes => aret (from_le bytes)) st.
Proof.
  intros Hok HT Ha. unfold load. cbv zeta. destruct (_ && _) eqn:E; [|done]. rewrite !andb_true_iff in E. destruct E as [[Es Hal%Z.eqb_eq] Ht%Z.eqb_eq].
  destruct (hit_load st LOAD addr T Hok Ha) as (bytes & Eb & Hl & _); [by apply exact_tag; [apply vpn_bound|]|unfold access_size in HT; lia|by apply aligned_in_page|].
  unfold abind, load_slow_path. cbv zeta. destruct (access_address h addr LOAD fl) as (Ev & Ef & _). unfold abind. rewrite Hal. cbn [Z.eqb].
  unfold load_slow_path_intrapage. rewrite Ev, Ef, Es. change (0 =? 0) with true. cbv iota beta. rewrite Ht, plain_vpn, Z.eqb_refl by by apply vpn_bound. cbn [andb]. rewrite Eb.
  destruct (reg_from_bytes_some bytes T HT Hl) as [x ->]. done.
Qed.

Lemma same_load st T addr fl : bare_ok st -> access_size T -> 0 <= addr < 2 ^ 64 -> same st (load h T addr fl).
Proof.
  intros Hok HT Ha. eapply same_ext; [by apply load_fast_slow; [apply Hok|..]|by apply load_fast_slow; [apply canon_ok with (h := h), Hok|..]|].
  apply same_then; [done|by apply same_load_slow|intros; by apply same_ret].
Qed.
End Same.

Section Same.
Context {D : Type} `{SoundDevice D}.
Implicit Types (b : bus_t D) (st : mmu_t D).
Context (h : hart_t) (Hready : mmu_ready h) (Hmodes : modes_ok h) (Hx : hart_xlen h = 32 \/ hart_xlen h = 64) (Hun : untranslated h).

Notation same := (same h).
Notation bare_ok := (bare_ok h).

(** The empty TLB has no hit. *)
Lemma canon_no_hit st ty vpn : vpn < 2 ^ 52 -> (vpn =? plain_tag (tag_at (canon st) ty vpn)) = false.
Proof. intros Hv. rewrite canon_tag. apply Z.eqb_neq. intros E. by apply (plain_no_tag vpn). Qed.

(** The registers of the test, of which it takes one way or the other. *)
Lemma canon_bare st : bare_ok st -> bare_ok (canon st).
Proof. intros Hok. apply canon_ok, Hok. Qed.

(** ** Stores *)

Lemma same_store_intrapage st len bytes info actually : bare_ok st -> is_mode (effective_priv info) -> 0 <= vaddr info < 2 ^ 64 -> type info = STORE ->
  (is_special_access (flags info) = true \/ ordinary h info) -> 0 < len -> vaddr info mod 4096 + len <= 4096 ->
  (actually = true -> length bytes = Z.to_nat len) -> Forall is_byte bytes -> same st (store_slow_path_intrapage h len bytes info actually).
Proof.
  intros Hok Hm Ha Hty Hor Hl Hp Hlen Hby. pose proof (Z.mod_pos_bound (vaddr info) 4096 ltac:(lia)) as Hr. pose proof (vpn_bound _ Ha) as Hv.
  pose proof (bare_mmu h st Hok) as Hmmu. pose proof (canon_no_hit st STORE (vaddr info .>> PGSHIFT) ltac:(lia)) as Hc.
  pose proof (proj1 (phys_offset h Hx (vaddr info))) as Hoff.
  destruct (negb (is_special_access (flags info)) && (vaddr info .>> PGSHIFT =? plain_tag (tag_at st STORE (vaddr info .>> PGSHIFT)))) eqn:Eh.
  - pose proof Eh as E'. apply andb_prop in E' as [Es%negb_true_iff Et%Z.eqb_eq]. destruct Hor as [Hor|Hor]; [congruence|].
    destruct (bare_hit h Hx st STORE (vaddr info) len Hok Ha) as (p & Ep & Hpt & Hpmp); [by symmetry|done|done|].
    pose proof (missed_translate h Hx Hun st info STORE len Hor Hty Ha Hpmp) as Etr. pose proof (missed_to_mem st p _ Hmmu Hpt) as Etm.
    assert (flags info = no_flags) as Hf by apply Hor. destruct actually.
    + specialize (Hlen eq_refl). destruct (points_store (sim st) p (phys h (vaddr info)) bytes (ok_bus st Hmmu) Hpt) as (b & Ew & Hg & He); [apply (phys_range h Hx)|rewrite pgsize; lia|done|].
      assert (forall s, sim s = sim st -> host_store (HMem p) bytes s = (Ok tt, set_sim s b)) as Est.
      { intros s Hs. unfold host_store. by rewrite (points_offset _ _ _ Hpt), Hs, Ew. }
      pose proof (bare_set_sim h (canon st) b (canon_bare st Hok) Hg He) as Hok2.
      destruct (refill_bare h Hready Hx (set_sim (canon st) b) (vaddr info) len p STORE Hok2 Ha Hl Hp) as (s2 & E2 & C2 & O2 & _); [by apply (points_ext (sim st))|done|].
      assert (store_slow_path_intrapage h len bytes info true st = (Ok tt, set_sim st b)) as E1 by (unfold store_slow_path_intrapage; rewrite Eh, Ep; by apply Est).
      assert (store_slow_path_intrapage h len bytes info true (canon st) = (Ok tt, s2)) as E3.
      { unfold store_slow_path_intrapage. rewrite Hc, andb_false_r. unfold abind. rewrite Etr, Etm, Est by done. rewrite Hf. cbn [is_special_access forced_virt hlvx lr no_flags orb negb]. by rewrite E2. }
      unfold AccessBare.same. rewrite E1, E3. cbn [fst snd]. split; [done|]. split; [by rewrite C2|]. split; [by apply bare_set_sim|done].
    + assert (store_slow_path_intrapage h len bytes info false st = (Ok tt, st)) as E1 by (unfold store_slow_path_intrapage; by rewrite Eh).
      assert (store_slow_path_intrapage h len bytes info false (canon st) = (Ok tt, canon st)) as E3.
      { unfold store_slow_path_intrapage. rewrite Hc, andb_false_r. unfold abind. by rewrite Etr. }
      unfold AccessBare.same. rewrite E1, E3. split; [done|]. split; [done|]. split; [done|by apply canon_bare].
  - eapply same_ext; [unfold store_slow_path_intrapage; rewrite Eh; reflexivity|unfold store_slow_path_intrapage; rewrite Hc, andb_false_r; reflexivity|].
    apply same_translate; [done..|]. intros pa s1 Hs1 [Hpa Hoffp] Hall. destruct actually; [|by apply same_ret]. specialize (Hlen eq_refl).
    apply same_to_mem; [done|]. intros [p|] s2 Hs2 Hr2.
    + specialize (Hr2 p eq_refl). apply (same_bind h s2 (fun _ s => points (sim s) p pa)); [done|apply (same_host_store h s2 p pa); [done|done|lia|lia|done]| |].
      { intros s Hs Es. rewrite <- Es in Hr2. destruct (points_store_ends s p pa bytes Hs Hr2) as (H1 & H2 & H3); [lia|lia|done|]. split; [done|]. split; [done|].
        destruct (host_store _ _ _) as [[?|?|] st']; [by apply (points_ext (sim s))|done|done]. }
      intros _ s3 Hs3 Hpt. destruct (is_special_access (flags info)) eqn:Es; cbn [negb]; [by apply same_ret|]. destruct Hor as [Hor|Hor]; [done|].
      destruct (Hall Hor) as [-> Hpmp]. rewrite Hty in Hpmp. apply same_then; [done|by apply (same_refill h Hready Hx s3 (vaddr info) len)|intros; by apply same_ret].
    + apply same_then; [done|eapply same_bus; [done|]; apply (mmio_store_ends h pa bytes); [apply Hs2|done|lia|done]|].
      intros ok s3 Hs3. destruct (negb ok); [by apply same_throw|by apply same_ret].
Qed.

Lemma same_store_slow st addr T bytes fl actually align : bare_ok st -> access_size T -> 0 <= addr < 2 ^ 64 -> (actually = true -> length bytes = Z.to_nat T) -> Forall is_byte bytes ->
  same st (store_slow_path h addr T bytes fl actually align).
Proof.
  intros Hok HT Ha Hlen Hby. assert (0 < T <= 8) as HTr by (unfold access_size in HT; lia). set (info := generate_access_info h addr STORE fl).
  destruct (access_address h addr STORE fl) as (Ev & Ef & Et). pose proof (access_mode h addr STORE fl Hmodes) as Hm. pose proof (access_kind h Hun addr STORE fl (flags_kind fl)) as Hk. fold info in Ev, Ef, Et, Hm, Hk.
  destruct (misaligned st) eqn:Emis;
    (eapply same_ext; [cbv beta zeta delta [store_slow_path]; rewrite Emis; reflexivity|cbv beta zeta delta [store_slow_path]; change (misaligned (canon st)) with (misaligned st); rewrite Emis; reflexivity|]); fold info; cbn [negb].
  all: apply same_then; [done|destruct actually; [apply same_then; [done|by apply same_require|intros; by apply same_ret]|by apply same_ret]|intros _ s Hs].
  all: destruct (Z.eqb_spec (addr .& (T - 1)) 0) as [E|_]; cbn [negb]; [apply same_store_intrapage; rewrite ?Ev; [done|done|done|done|done|lia|by apply aligned_in_page|done|done]|].
  2: by apply same_throw.
  destruct align; [by apply same_throw|]. destruct (first_part_range addr T ltac:(lia)) as [Hf Hp].
  apply same_then; [done|apply same_store_intrapage; rewrite ?Ev; [done|done|done|done|done|lia|done|intros Hac; rewrite length_take, Hlen by done; lia|by apply Forall_take]|]. intros _ s1 Hs1.
  destruct (Z.eqb_spec (first_part addr T) T) as [E|Hne]; cbn [negb]; [by apply same_ret|]. pose proof (second_part addr T Ha HTr Hne) as H2.
  apply same_store_intrapage; [done|done|simpl; rewrite Ev; apply uwrap_range; lia|done|destruct Hk as [Hk|Hk]; [by left|by right]|lia|simpl; rewrite Ev, H2; lia|
    intros Hac; rewrite length_drop, Hlen by done; lia|by apply Forall_drop].
Qed.

Lemma store_fast_slow st T addr v fl : mmu_ok st -> access_size T -> 0 <= addr < 2 ^ 64 ->
  store h T addr v fl st = store_slow_path h addr T (to_le (Z.to_nat T) v) fl true false st.
Proof.
  intros Hok HT Ha. unfold store. cbv zeta. destruct (_ && _) eqn:E; [|done]. rewrite !andb_true_iff in E. destruct E as (Es & Hal%Z.eqb_eq & Ht%Z.eqb_eq).
  unfold store_slow_path. cbv zeta. destruct (access_address h addr STORE fl) as (Ev & Ef & _). unfold abind. rewrite Hal. change (negb (0 =? 0)) with false. cbv iota.
  destruct (reg_from_bytes_some (to_le (Z.to_nat T) v) T HT) as [x ->]; [apply length_to_le|]. cbn [require_some aret].
  unfold store_slow_path_intrapage. rewrite Ev, Ef, Es, Ht, plain_vpn, Z.eqb_refl by by apply vpn_bound. done.
Qed.

Lemma same_store st T addr v fl : bare_ok st -> access_size T -> 0 <= addr < 2 ^ 64 -> same st (store h T addr v fl).
Proof.
  intros Hok HT Ha. eapply same_ext; [by apply store_fast_slow; [apply Hok|..]|by apply store_fast_slow; [apply canon_ok with (h := h), Hok|..]|].
  apply same_store_slow; [done|done|done|by rewrite length_to_le|apply to_le_is_bytes].
Qed.

(** ** Fetches *)

(** The two bytes behind a fetch, however they are reached. *)
Definition fetch_walk (addr : Z) : AM (D := D) (list Z) :=
  let info := generate_access_info h addr FETCH no_flags in
  abind (on_bus (translate h info 2)) (fun pa =>
  abind (on_bus (to_mem pa)) (fun r =>
  match r with
  | Some p => abind (refill_tlb h addr pa (HMem p) FETCH) (fun e => abind (host_load (HMem p) 2) (fun _ => host_load (HMem p) 2))
  | None =>
      abind (on_bus (mmio_fetch h pa 2)) (fun r =>
      match r with
      | None => athrow (MemTrap instruction_access_fault (virt_mode h) addr 0 0)
      | Some bytes => abind (modify (fun st => set_temp st bytes)) (fun _ => abind (host_load (HTemp 0) 2) (fun _ => host_load (HTemp 0) 2))
      end)
  end)).

Lemma host_plus_back p a : host_plus (host_plus (HMem p) (- a)) a = HMem p.
Proof. rewrite host_plus_plus, Z.add_opp_diag_l. destruct p as [? [? ?]]. simpl. by rewrite Z.add_0_r. Qed.

Lemma fetch_miss st addr : tag_at st FETCH (addr .>> PGSHIFT) <> addr .>> PGSHIFT -> tag_at st FETCH (addr .>> PGSHIFT) <> addr .>> PGSHIFT .| TLB_CHECK_TRIGGERS ->
  fetch_bytes h addr 2 st = fetch_walk addr st.
Proof.
  intros H1%Z.eqb_neq H2%Z.eqb_neq. unfold fetch_bytes, translate_insn_addr, fetch_walk, fetch_slow_path, abind. cbv zeta. rewrite H1, H2. cbn [negb].
  destruct (on_bus _ st) as [[pa|t|] s1]; [|done|done]. destruct (on_bus _ s1) as [[[p|]|t|] s2]; [| |done|done].
  - unfold refill_tlb. cbv zeta. destruct (in_mprv h); [|destruct (pmp_homogeneous _ _ _) as [hom|]; [|done]];
      cbn [host_offset]; rewrite host_plus_back; destruct (host_load (HMem p) 2 _) as [[?|?|] ?]; cbn [aret host_offset]; by rewrite ?host_plus_back.
  - destruct (on_bus _ s2) as [[[bytes|]|t|] s3]; [|done|done|done]. cbn [modify aret host_offset host_plus]. rewrite Z.add_opp_diag_l.
    destruct (host_load (HTemp 0) 2 _) as [[?|?|] ?]; [|done|done]. cbn [aret host_offset host_plus]. by rewrite Z.add_opp_diag_l.
Qed.

Lemma fetch_hit st addr p bytes : host_plus (host_offset (entry_at st (addr .>> PGSHIFT))) addr = HMem p -> host_load (HMem p) 2 st = (Ok bytes, st) ->
  tag_at st FETCH (addr .>> PGSHIFT) = addr .>> PGSHIFT \/ tag_at st FETCH (addr .>> PGSHIFT) = addr .>> PGSHIFT .| TLB_CHECK_TRIGGERS ->
  fetch_bytes h addr 2 st = (Ok bytes, st).
Proof.
  intros Ep Eb Ht. unfold fetch_bytes, translate_insn_addr, fetch_slow_path, abind. cbv zeta.
  destruct (Z.eqb_spec (tag_at st FETCH (addr .>> PGSHIFT)) (addr .>> PGSHIFT)) as [E|Hne]; [by rewrite Ep|].
  destruct Ht as [Ht|Ht]; [done|]. rewrite Ht, Z.eqb_refl. cbn [negb]. rewrite Ep, Eb. cbn [aret]. by rewrite Ep.
Qed.

Lemma fetch_temp_ends st : mmu_ok st -> ends mmu_ok mmu_ext st (fun _ s => s = st) (host_load (HTemp 0) 2 st).
Proof.
  intros Hok. destruct (ok_temp st Hok) as [Hl _]. unfold host_load. rewrite Hl. by apply ends_ok; [apply _|..].
Qed.

Lemma same_temp st : bare_ok st -> same st (host_load (HTemp 0) 2).
Proof.
  intros Hok. destruct (ok_temp st (bare_mmu h st Hok)) as [Hl _]. unfold AccessBare.same, host_load. change (fetch_temp (canon st)) with (fetch_temp st). rewrite Hl. simpl.
  split; [done|]. split; [done|]. split; [done|by apply canon_bare].
Qed.

Lemma same_fetch_walk st addr : bare_ok st -> 0 <= addr < 2 ^ 64 -> addr mod 2 = 0 -> same st (fetch_walk addr).
Proof.
  intros Hok Ha Hal. unfold fetch_walk. cbv zeta. set (info := generate_access_info h addr FETCH no_flags).
  destruct (access_address h addr FETCH no_flags) as (Ev & _ & Et). pose proof (access_mode h addr FETCH no_flags Hmodes) as Hm. pose proof (generated_ordinary h addr FETCH Hun) as Ho. fold info in Ev, Et, Hm, Ho.
  assert (addr mod 4096 + 2 <= 4096) as Hp by (Z.div_mod_to_equations; lia).
  apply same_translate; try done. rewrite Ev. intros pa s1 Hs1 [Hpa Hoff] Hall. destruct (Hall Ho) as [Epa Hpmp]. rewrite Ev in Epa. rewrite Et in Hpmp. subst pa.
  apply same_to_mem; [done|]. intros [p|] s2 Hs2 Hr2.
  - specialize (Hr2 p eq_refl). apply same_then; [done|by apply (same_refill h Hready Hx s2 addr 2)|]. intros e s3 Hs3.
    apply same_then; [done|by apply same_host_load|]. intros _ s4 Hs4. by apply same_host_load.
  - apply (same_bind h s2 (fun r _ => loads_bytes 2 r (sim s2))); [done| | |].
    + eapply same_bus; [done|]. apply (mmio_load_whole_ends h (phys h addr) 2); [apply Hs2|done|lia].
    + intros s Hs Es. by apply (ends_weaken _ _ _ _ _ _ (on_bus_ends _ _ _ Hs (mmio_load_whole_ends h (phys h addr) 2 (sim s) (ok_bus s Hs) Hpa ltac:(lia)))).
    + intros [bytes|] s3 Hs3 Hb; [|by apply same_throw]. destruct (Hb bytes eq_refl) as [Hl Hf].
      apply same_then; [done| |intros _ s4 Hs4; apply same_then; [done|by apply same_temp|]; intros _ s5 Hs5; by apply same_temp].
      apply same_modify; [done| |done]. intros s [Hs Ht]. split; [by apply set_temp_ok|done].
Qed.

Lemma same_fetch st addr : bare_ok st -> 0 <= addr < 2 ^ 64 -> addr mod 2 = 0 -> same st (fetch_half h addr).
Proof.
  intros Hok Ha Hal. unfold fetch_half. apply same_then; [done| |intros; by apply same_ret].
  assert (addr mod 4096 + 2 <= 4096) as Hp by (Z.div_mod_to_equations; lia). pose proof (vpn_bound addr Ha) as Hv. pose proof (bare_mmu h st Hok) as Hmmu.
  set (t := tag_at st FETCH (addr .>> PGSHIFT)). assert (fetch_bytes h addr 2 (canon st) = fetch_walk addr (canon st)) as Ec.
  { apply fetch_miss; rewrite canon_tag; intros E; apply (plain_no_tag (addr .>> PGSHIFT)); try lia; rewrite E; [by apply plain_vpn|by apply plain_checked]. }
  destruct (decide (t = addr .>> PGSHIFT \/ t = addr .>> PGSHIFT .| TLB_CHECK_TRIGGERS)) as [Ht|Hn].
  - assert (tag_valid st FETCH (addr .>> PGSHIFT)) as Hvalid by (unfold tag_valid; fold t; destruct Ht as [-> | ->]; [by apply plain_vpn|by apply plain_checked]).
    destruct (bare_hit h Hx st FETCH addr 2 Hok Ha Hvalid) as (p & Ep & Hpt & Hpmp); [lia|done|].
    destruct (points_host_ok st p (phys h addr) 2 (ok_bus st Hmmu) Hpt) as (bytes & Eb & _); [apply (phys_range h Hx)|lia|rewrite (proj1 (phys_offset h Hx addr)); lia|].
    assert (forall s, sim s = sim st -> host_load (HMem p) 2 s = (Ok bytes, s)) as Eany.
    { revert Eb. unfold host_load. intros Eb s ->. destruct (if 0 <=? p.2.2 then _ else _); [|done]. by injection Eb as ->. }
    destruct (refill_bare h Hready Hx (canon st) addr 2 p FETCH (canon_bare st Hok) Ha ltac:(lia) Hp Hpt Hpmp) as (s2 & E2 & C2 & O2 & S2).
    assert (fetch_bytes h addr 2 (canon st) = (Ok bytes, s2)) as E3.
    { rewrite Ec. unfold fetch_walk. cbv zeta. unfold abind.
      destruct (access_address h addr FETCH no_flags) as (Ev & _ & Et). pose proof (generated_ordinary h addr FETCH Hun) as Ho.
      assert (on_bus (translate h (generate_access_info h addr FETCH no_flags) 2) (canon st) = (Ok (phys h addr), canon st)) as ->.
      { rewrite <- Ev at 2. apply (missed_translate h Hx Hun st _ FETCH); rewrite ?Ev; done. }
      rewrite (missed_to_mem st p _ Hmmu Hpt), E2, !Eany by (by rewrite S2). done. }
    unfold AccessBare.same. rewrite (fetch_hit st addr p bytes Ep Eb Ht), E3. cbn [fst snd]. split; [done|]. split; [by rewrite C2|done].
  - eapply same_ext; [apply fetch_miss; intros E; apply Hn; auto|exact Ec|by apply same_fetch_walk].
Qed.

(** ** Atomic operations, reservations, cache blocks *)

Lemma same_convert {A} st (m : AM A) : same st m -> same st (convert_load_traps_to_store_traps m).
Proof.
  unfold AccessBare.same, convert_load_traps_to_store_traps. intros (E1 & E2 & O). destruct (m st) as [r1 s1], (m (canon st)) as [r2 s2]. simpl in *. subst r2. by destruct r1.
Qed.

Lemma same_probe st addr T align : bare_ok st -> access_size T -> 0 <= addr < 2 ^ 64 -> same st (store_slow_path h addr T [] no_flags false align).
Proof. intros. by apply same_store_slow. Qed.

Lemma same_amo st T addr f : bare_ok st -> access_size T -> 0 <= addr < 2 ^ 64 -> same st (amo h T addr f).
Proof.
  intros Hok HT Ha. unfold amo. apply same_convert, same_then; [done|by apply same_probe|]. intros _ s1 Hs1. apply same_then; [done|by apply same_load|]. intros lhs s2 Hs2.
  apply same_then; [done|by apply same_store|intros; by apply same_ret].
Qed.

Lemma same_amo_compare_and_swap st T addr comp swap : bare_ok st -> access_size T -> 0 <= addr < 2 ^ 64 -> same st (amo_compare_and_swap h T addr comp swap).
Proof.
  intros Hok HT Ha. unfold amo_compare_and_swap. apply same_convert, same_then; [done|by apply same_probe|]. intros _ s1 Hs1. apply same_then; [done|by apply same_load|]. intros lhs s2 Hs2.
  apply same_then; [done|destruct (_ =? _); [by apply same_store|by apply same_ret]|intros; by apply same_ret].
Qed.

Lemma same_translate_of {A} st addr ty len (f : Z -> AM A) : bare_ok st -> 0 <= addr < 2 ^ 64 -> (forall pa s, bare_ok s -> same s (f pa)) ->
  same st (abind (on_bus (translate h (generate_access_info h addr ty no_flags) len)) f).
Proof.
  intros Hok Ha Hf. destruct (access_address h addr ty no_flags) as (Ev & _). apply same_translate; try done; [by apply access_mode|by rewrite Ev|]. intros. by apply Hf.
Qed.

Lemma same_store_conditional st T addr v : bare_ok st -> access_size T -> 0 <= addr < 2 ^ 64 -> same st (store_conditional h T addr v).
Proof.
  intros Hok HT Ha. unfold store_conditional, check_load_reservation. apply same_then; [done| |].
  - apply same_then; [done|destruct (negb _); [by apply same_probe|by apply same_ret]|]. intros _ s1 Hs1. apply same_translate_of; [done|done|]. intros pa s2 Hs2.
    apply same_then; [done|by apply same_reservable|]. intros ok s3 Hs3. destruct (negb ok); [by apply same_throw|].
    split; [done|]. split; [done|]. split; [done|by apply canon_bare].
  - intros have s1 Hs1. apply same_then; [done|destruct have; [by apply same_store|by apply same_ret]|]. intros _ s2 Hs2. by apply same_reserve.
Qed.

Lemma same_cbo_zero_loop base n : forall st offset, bare_ok st -> same st (cbo_zero_loop h base n offset).
Proof.
  induction n as [|n IH]; intros st offset Hok; cbn [cbo_zero_loop]; [by apply same_ret|].
  apply same_then; [done|apply same_store; [done|by left|apply uwrap_range; lia]|]. intros _ s Hs. by apply IH.
Qed.

Lemma same_clean_inval st addr : bare_ok st -> 0 <= addr < 2 ^ 64 -> same st (clean_inval h addr).
Proof.
  intros Hok Ha. unfold clean_inval. apply same_convert, same_translate_of; [done|done|]. intros pa s1 Hs1.
  apply same_then; [done|by apply same_reservable|]. intros [] s2 Hs2; [by apply same_ret|by apply same_throw].
Qed.
End Same.
