(* ===== verification/AccessDemo.v ===== *)
(** * Spike: two machines for the accesses

    A machine-mode hart with protected regions, and a supervisor with page tables of
    its own and memory it may not read. *)

From Stdlib Require Import Sorted.
From stdpp Require Import base option list gmap.
From S2P Require Import Prelude.
From S2P Require Import Arith.
From S2P Require Import Pmp.
From S2P Require Import PmpFacts.
From S2P Require Import PmpTheorems.
From S2P Require Import Devices.
From S2P Require Import DevicesFacts.
From S2P Require Import Mmu.
From S2P Require Import MmuStages.
From S2P Require Import MmuDemo.
From S2P Require Import Memory.
From S2P Require Import Access.
From S2P Require Import AccessBus.
From S2P Require Import AccessPaths.
From S2P Require Import AccessBare.

(** Registers that software can have written are ready. *)
Lemma ready_of h : hart_xlen h = 32 \/ hart_xlen h = 64 -> atp_valid (hart_xlen h) (satp h) -> atp_valid (hart_xlen h) (vsatp h) -> atp_valid (hart_xlen h) (hgatp h) ->
  pmp_wf (pmp h) -> mmu_ready h.
Proof.
  intros Hx H1 H2 H3 Hp. split; [|done]. intros p virt Hm. split; [done|]. split.
  - unfold satp_readvirt. destruct virt; by apply valid_decodes.
  - destruct (valid_decodes _ _ p Hx H3 Hm) as [_ [vm E]]. by exists vm.
Qed.

Lemma good_bus (b : bus_t rom_device_t) : bus_wf b ->
  Forall (fun p => match p.2 with DMem m => pages_in_range m = true | DDev d => Forall is_byte d end) b -> bus_good b.
Proof.
  intros Hw Hf. split; [done|]. pose proof (wf_devices _ Hw) as Hd. clear Hw. induction Hf as [|[a [m|d]] b Hp Hf IH]; [constructor|..]; inversion Hd; subst; constructor; auto.
  split; [done|]. intros a'. by apply mem_byte_range.
Qed.

(** ** Machine mode *)

Definition machine_regs : hart_t :=
  Hart 64 PRV_M false false false 0 None 0 0 0 0 0 0 0 0 (demo_pmp demo_entries).

Definition machine_mem : mem_t := MemT (list_to_map [(0, page_with [(0%nat, 0x1122334455667788)]); (2, page_with [(1%nat, 0xcafe)])]) 0x8000.

Definition machine_bus : bus_t rom_device_t := [(0x1000, DDev [0x6f; 0; 0; 0]); (0x80000000, DMem machine_mem)].

Definition no_entry : tlb_entry_t := TlbEntry (HTemp 0) 0.

Definition machine : mmu_t rom_device_t := mmu_new machine_bus (replicate 256 no_entry) [0; 0] true.

Lemma machine_ready : mmu_ready machine_regs.
Proof. apply ready_of; [by right|apply atp_valid_zero..|exact demo_entries_wf]. Qed.

Lemma machine_modes : modes_ok machine_regs.
Proof. split; [by right; right|by left]. Qed.

Lemma machine_untranslated : untranslated machine_regs.
Proof. intros []; (split; [reflexivity|]); by exists no_vm. Qed.

Lemma machine_good : bus_good machine_bus.
Proof.
  apply good_bus.
  - constructor; [repeat constructor|repeat constructor; by vm_compute|]. constructor; [exact I|constructor; [|constructor]].
    constructor; [split; by vm_compute|by vm_compute|]. apply (bool_decide_unpack _). by vm_compute.
  - constructor; [repeat constructor; by vm_compute|constructor; [by vm_compute|constructor]].
Qed.

(** ** A supervisor *)

(** The upper half of page 5 is for machine mode only. *)
Definition secret_pmp : pmp_state :=
  demo_pmp [Pmpaddr ((0x80005800 .>> 2) .| 0xff) PMP_NAPOT; Pmpaddr (2 ^ 54 - 1) (PMP_NAPOT .| PMP_R .| PMP_W .| PMP_X)].

Definition leaf_to (frame : Z) : Z := (frame .<< 10) .| PTE_V .| PTE_R .| PTE_W .| PTE_A .| PTE_D.

(** Tables at the pages 1 to 3: [0x40000000] is page 0 and [0x40001000] the last table itself. *)
Definition supervisor_mem : mem_t :=
  MemT (list_to_map [
    (0, page_with [(0%nat, 0x11)]);
    (1, page_with [(1%nat, (0x80002 .<< 10) .| PTE_V)]);
    (2, page_with [(0%nat, (0x80003 .<< 10) .| PTE_V)]);
    (3, page_with [(0%nat, leaf_to 0x80000); (1%nat, leaf_to 0x80003)]);
    (5, page_with [(0x100%nat, 0x5ec2e7)])]) 0x8000.

Definition supervisor : mmu_t rom_device_t := mmu_new [(0x80000000, DMem supervisor_mem)] (replicate 256 no_entry) [0; 0] false.

Definition supervisor_regs : hart_t :=
  Hart 64 PRV_S false false false 0 None 0 0 0 0 0 ((SATP_MODE_SV39 .<< 60) .| 0x80001) 0 0 secret_pmp.

(** The last page of the boot ROM, behind no memory. *)
Definition rom_only : mmu_t rom_device_t := mmu_new [(0x1000, DDev (replicate 16 0))] (replicate 256 no_entry) [0; 0] true.
