(* ===== verification/AccessTheorems.v ===== *)
(** * Spike: theorems about loads, stores and fetches *)

From Stdlib Require Import Sorted.
From stdpp Require Import base option list gmap.
From S2P Require Import Prelude.
From S2P Require Import Arith.
From S2P Require Import Pmp.
From S2P Require Import PmpFacts.
From S2P Require Import PmpTheorems.
From S2P Require Import Devices.
From S2P Require Import DevicesFacts.
From S2P Require Import Mmu.
From S2P Require Import MmuSpec.
From S2P Require Import MmuFacts.
From S2P Require Import MmuStages.
From S2P Require Import MmuDemo.
From S2P Require Import Memory.
From S2P Require Import Access.
From S2P Require Import AccessBus.
From S2P Require Import AccessPaths.
From S2P Require Import AccessBare.
From S2P Require Import AccessSame.
From S2P Require Import AccessDemo.

(** ** Operations in a sequence *)

Inductive mmu_op : Type :=
  | OpLoad (T addr : Z) (fl : xlate_flags_t)
  | OpStore (T addr v : Z) (fl : xlate_flags_t)
  | OpFetch (addr : Z)
  | OpAmo (T addr : Z) (f : Z -> Z)
  | OpCas (T addr comp swap : Z)
  | OpSc (T addr v : Z)
  | OpZero (addr : Z)
  | OpClean (addr : Z)
  | OpYield
  | OpFlush.

Definition valid_op (op : mmu_op) : Prop :=
  match op with
  | OpLoad T addr _ | OpStore T addr _ _ | OpAmo T addr _ | OpCas T addr _ _ | OpSc T addr _ => access_size T /\ 0 <= addr < 2 ^ 64
  | OpFetch addr => 0 <= addr < 2 ^ 64 /\ addr mod 2 = 0
  | OpZero addr | OpClean addr => 0 <= addr < 2 ^ 64
  | OpYield | OpFlush => True
  end.

Section Theorems.
Context {D : Type} `{SoundDevice D}.
Implicit Types (st : mmu_t D).

(** The result as a number: nothing is 0. *)
Definition done_with {A} (f : A -> Z) (m : AM (D := D) A) : AM (D := D) Z := abind m (fun a => aret (f a)).

Definition run_op (h : hart_t) (op : mmu_op) : AM (D := D) Z :=
  match op with
  | OpLoad T addr fl => load h T addr fl
  | OpStore T addr v fl => done_with (fun _ => 0) (store h T addr v fl)
  | OpFetch addr => fetch_half h addr
  | OpAmo T addr f => amo h T addr f
  | OpCas T addr comp swap => amo_compare_and_swap h T addr comp swap
  | OpSc T addr v => done_with b2z (store_conditional h T addr v)
  | OpZero addr => done_with (fun _ => 0) (cbo_zero h addr)
  | OpClean addr => done_with (fun _ => 0) (clean_inval h addr)
  | OpYield => done_with (fun _ => 0) yield_load_reservation
  | OpFlush => done_with (fun _ => 0) (modify flush_mmu_tlb)
  end.

(** What the operations give one after the other, each with the registers of its time. *)
Fixpoint run_ops (ops : list (hart_t * mmu_op)) st : list (result Z) * mmu_t D :=
  match ops with
  | [] => ([], st)
  | (h, op) :: ops => let '(r, st) := run_op h op st in let '(rs, st) := run_ops ops st in (r :: rs, st)
  end.

(** The same with the TLB emptied before each. *)
Fixpoint run_uncached (h : hart_t) (ops : list mmu_op) st : list (result Z) * mmu_t D :=
  match ops with
  | [] => ([], st)
  | op :: ops => let '(r, st) := run_op h op (flush_mmu_tlb st) in let '(rs, st) := run_uncached h ops st in (r :: rs, st)
  end.

Notation mmu_ends := (ends (mmu_ok (D := D)) (mmu_ext (D := D))).

Lemma done_with_ends {A} (f : A -> Z) m st : mmu_ends st (fun _ _ => True) (m st) -> mmu_ends st (fun _ _ => True) (done_with f m st).
Proof. intros Hm. apply (mmu_bind _ _ _ _ _ Hm). intros. by apply mmu_ret. Qed.

Lemma run_op_ends h op st : mmu_ready h -> modes_ok h -> valid_op op -> mmu_ok st -> mmu_ends st (fun _ _ => True) (run_op h op st).
Proof.
  intros Hr Hm Hv Hok. assert (forall (P : Z -> mmu_t D -> Prop) r, mmu_ends st P r -> mmu_ends st (fun _ _ => True) r) as Hw.
  { intros P r Hp. by apply (ends_weaken _ _ _ _ _ _ Hp). }
  destruct op; cbn [run_op valid_op] in *; lazymatch goal with |- context [done_with] => apply done_with_ends | _ => eapply Hw end.
  - destruct Hv. by apply load_ends.
  - destruct Hv. by apply store_ends.
  - destruct Hv. by apply fetch_half_ends.
  - destruct Hv. by apply amo_ends.
  - destruct Hv. by apply amo_compare_and_swap_ends.
  - destruct Hv. by apply store_conditional_ends.
  - unfold cbo_zero. by apply cbo_zero_loop_ends.
  - by apply clean_inval_ends.
  - split; [by apply set_reservation_ok|]. split; [by change (mmu_ext st st)|done].
  - split; [by apply flush_ok|]. split; [by change (mmu_ext st st)|done].
Qed.

(** C5: Memory is never reached outside of its pages.  Any sequence of loads, stores,
    fetches, atomic operations, reservations and cache block operations, at any
    addresses and alignments, with any flags, modes, protection and page tables and
    with registers that change between them as they like (without a flush), ends each
    time in a value or a trap: no host address that the TLB keeps leaves its page, no
    walk runs out of a table or a register width, nothing aborts. *)
Theorem mmu_never_undefined ops (b : bus_t D) data temp mis :
  bus_good b -> length data = 256%nat -> length temp = 2%nat -> Forall is_byte temp ->
  Forall (fun p => mmu_ready p.1 /\ modes_ok p.1 /\ valid_op p.2) ops ->
  let out := run_ops ops (mmu_new b data temp mis) in
  Forall (fun r => r <> Undef) out.1 /\ mmu_ok out.2 /\ bus_ext b (sim out.2).
Proof.
  intros Hg Hd Ht Hb Hops. assert (forall st, mmu_ok st -> let out := run_ops ops st in Forall (fun r => r <> Undef) out.1 /\ mmu_ok out.2 /\ mmu_ext st out.2) as Hrun; [|by apply Hrun, mmu_new_ok].
  induction Hops as [|[h op] ops (Hr & Hm & Hv) Hops IH]; intros st Hok; [done|]. cbn [run_ops].
  destruct (run_op_ends h op st Hr Hm Hv Hok) as (Hok1 & He1 & Hu). destruct (run_op h op st) as [r st1]. cbn [fst snd] in *.
  specialize (IH st1 Hok1). destruct (run_ops ops st1) as [rs st2]. destruct IH as (H1 & H2 & H3). cbn [fst snd] in *.
  split; [constructor; [by intros ->|done]|]. split; [done|by etrans].
Qed.

(** ** The TLB is a cache *)

Section Hart.
Context (h : hart_t) (Hready : mmu_ready h) (Hmodes : modes_ok h) (Hx : hart_xlen h = 32 \/ hart_xlen h = 64) (Hun : untranslated h).

Lemma same_done {A} (f : A -> Z) st (m : AM A) : bare_ok h st -> same h st m -> same h st (done_with f m).
Proof. intros Hok Hm. apply same_then; [done|done|intros; by apply same_ret]. Qed.

Lemma empty_bare st : mmu_ok st -> (forall ty, tlb_tag st ty = replicate (Z.to_nat TLB_ENTRIES) no_tag) -> bare_ok h st.
Proof.
  intros Hok He. split; [done|]. intros ty vpn Hv Ht. exfalso. unfold tag_valid, tag_at in Ht. rewrite He, nth_replicate in Ht by apply tlb_index_bound.
  apply (plain_no_tag vpn); [lia|done].
Qed.

Lemma flush_bare st : bare_ok h st -> bare_ok h (flush_mmu_tlb st).
Proof. intros Hok. apply empty_bare; [apply flush_ok, Hok|done]. Qed.

Lemma run_op_same op st : valid_op op -> bare_ok h st -> same h st (run_op h op).
Proof.
  intros Hv Hok. destruct op; cbn [run_op valid_op] in *; lazymatch goal with |- context [done_with] => apply same_done; [done|] | _ => idtac end.
  - destruct Hv. by apply same_load.
  - destruct Hv. by apply same_store.
  - destruct Hv. by apply same_fetch.
  - destruct Hv. by apply same_amo.
  - destruct Hv. by apply same_amo_compare_and_swap.
  - destruct Hv. by apply same_store_conditional.
  - unfold cbo_zero. by apply (same_ext h st _ _ eq_refl eq_refl), same_cbo_zero_loop.
  - by apply same_clean_inval.
  - apply same_modify; [done| |done]. intros s [[] Ht]. by split.
  - apply same_modify; [done|by apply flush_bare|done].
Qed.

Lemma run_bare ops : forall st st', Forall valid_op ops -> bare_ok h st -> bare_ok h st' -> canon st = canon st' ->
  let out := run_ops (map (pair h) ops) st in let out' := run_uncached h ops st' in out.1 = out'.1 /\ canon out.2 = canon out'.2.
Proof.
  induction ops as [|op ops IH]; intros st st' Hops Hok Hok' Hc; [done|]. inversion Hops as [|? ? Hv Hops']; subst. cbn [map run_ops run_uncached].
  destruct (run_op_same op st Hv Hok) as (E1 & E2 & O1 & _). destruct (run_op_same op (flush_mmu_tlb st') Hv (flush_bare st' Hok')) as (F1 & F2 & P1 & _).
  change (canon (flush_mmu_tlb st')) with (canon st') in F1, F2. rewrite <- Hc in F1, F2.
  destruct (run_op h op st) as [r1 s1], (run_op h op (flush_mmu_tlb st')) as [r2 s2]. cbn [fst snd] in *.
  destruct (IH s1 s2 Hops' O1 P1) as [I1 I2]; [congruence|].
  destruct (run_ops (map (pair h) ops) s1) as [rs1 t1], (run_uncached h ops s2) as [rs2 t2]. cbn [fst snd] in *. split; congruence.
Qed.
End Hart.

(** C7: The TLB cannot be seen.  Where addresses are not translated (machine mode, or no
    paging), any sequence of loads, stores, fetches, atomic operations, reservations
    and cache block operations gives the same values and traps and the same memory
    and devices as with the TLB emptied before every one: what a hit serves without a
    check of physical memory protection the check would have let pass, to the same
    bytes; misaligned accesses in two pages, pages with several answers, addresses
    that are cut to the register width and the flags for triggers included. *)
Theorem tlb_transparent h ops (b : bus_t D) data temp mis :
  bus_good b -> length data = 256%nat -> length temp = 2%nat -> Forall is_byte temp ->
  mmu_ready h -> modes_ok h -> hart_xlen h = 32 \/ hart_xlen h = 64 -> untranslated h -> Forall valid_op ops ->
  let out := run_ops (map (pair h) ops) (mmu_new b data temp mis) in
  let out' := run_uncached h ops (mmu_new b data temp mis) in
  out.1 = out'.1 /\ sim out.2 = sim out'.2 /\ load_reservation_address out.2 = load_reservation_address out'.2.
Proof.
  intros Hg Hd Ht Hb Hr Hm Hx Hu Hops. pose proof (mmu_new_ok b data temp mis Hg Hd Ht Hb) as Hok.
  pose proof (empty_bare h (mmu_new b data temp mis) Hok (fun _ => eq_refl)) as Hbare.
  destruct (run_bare h Hr Hm Hx Hu ops _ _ Hops Hbare Hbare eq_refl) as [E1 E2]. split; [done|].
  cbv zeta. by injection E2 as -> -> _ _ _ _.
Qed.
End Theorems.

(** ** Witnesses *)

(** Loads and stores in a protected page and in one that is cached, a misaligned pair
    of them, a store that protection refuses, code in ROM, an atomic operation, a
    reservation. *)
Definition machine_ops : list mmu_op :=
  [OpLoad 8 0x80002008 no_flags; OpStore 8 0x80002008 7 no_flags; OpLoad 8 0x80002008 no_flags; OpLoad 4 0x80002ffe no_flags;
   OpStore 4 0x80003ffe 0x01020304 no_flags; OpLoad 8 0x80000000 no_flags; OpStore 8 0x800003f8 1 no_flags; OpFetch 0x1002; OpFetch 0x80002008;
   OpAmo 4 0x80002008 (Z.add 5); OpLoad 8 0x80002008 (XlateFlags false false true); OpSc 8 0x80002008 9; OpSc 8 0x80002008 10; OpClean 0x1000].

Lemma machine_ops_valid : Forall valid_op machine_ops.
Proof. unfold machine_ops. repeat (apply Forall_cons; split; [cbn [valid_op]; unfold access_size; try (split; [|reflexivity]); lia|]). constructor. Qed.

Definition machine_results : list (result Z) :=
  [Ok 0xcafe; Ok 0; Ok 7; Ok 0; Ok 0; Ok 0x1122334455667788; Throw (MemTrap store_access_fault false 0x800003f8 0 0); Ok 0; Ok 7;
   Ok 7; Ok 12; Ok 1; Ok 0; Throw (MemTrap store_access_fault false 0x1000 0 0)].

Lemma tlb_transparent_witness : (run_uncached machine_regs machine_ops machine).1 = machine_results.
Proof.
  destruct (tlb_transparent machine_regs machine_ops machine_bus (replicate 256 no_entry) [0; 0] true machine_good) as [E _];
    [reflexivity|reflexivity|exact (replicate_bytes 2)|exact machine_ready|exact machine_modes|by right|exact machine_untranslated|exact machine_ops_valid|].
  etransitivity; [symmetry; exact E|]. vm_compute. reflexivity.
Defined.

Lemma mmu_never_undefined_witness : Forall (fun r => r <> Undef) machine_results.
Proof.
  destruct (mmu_never_undefined (map (pair machine_regs) machine_ops) machine_bus (replicate 256 no_entry) [0; 0] true machine_good) as [H _];
    [reflexivity|reflexivity|exact (replicate_bytes 2)| |].
  - apply Forall_map, (Forall_impl _ _ _ machine_ops_valid). intros op Hop. split; [exact machine_ready|]. split; [exact machine_modes|exact Hop].
  - refine (eq_rect _ (fun l => Forall (fun r => r <> Undef) l) H _ _). vm_compute. reflexivity.
Defined.

(** ** Divergences *)

(** A supervisor that maps a page, loads from it, maps another page in its place
    without a flush and stores to a part of it that it may use, then reads the part
    that physical memory protection hides: the refill after the store replaces the
    address that the tag of the load still stands for.  With an empty TLB the last
    load raises an access fault. *)
Definition stolen_ops : list mmu_op :=
  [OpLoad 8 0x40000000 no_flags; OpStore 8 0x40001000 (leaf_to 0x80005) no_flags; OpStore 8 0x40000000 1 no_flags; OpLoad 8 0x40000800 no_flags].

Theorem tlb_bypasses_pmp :
  pmp_ok (pmp supervisor_regs) 0x80005800 8 LOAD PRV_S = false /\
  (run_ops (map (pair supervisor_regs) stolen_ops) supervisor).1 = [Ok 0x11; Ok 0; Ok 0; Ok 0x5ec2e7] /\
  (run_uncached supervisor_regs stolen_ops supervisor).1 = [Ok 0x11; Ok 0; Ok 0; Throw (MemTrap load_access_fault false 0x40000800 0 0)].
Proof. split; [by vm_compute|]. split; by vm_compute. Qed.

(** A jump table in a device: two bytes are fetched and four are read. *)
Theorem jump_table_overrun : (fetch_half machine_regs 0x1000 rom_only).1 = Ok 0 /\ (fetch_jump_table machine_regs 4 0x1000 rom_only).1 = Undef.
Proof. split; by vm_compute. Qed.
