(* ===== verification/Csrs.v ===== *)
(** * Spike: privilege, traps and their registers

    Model of the control and status registers that traps touch ([src/riscv-isa-sim/
    riscv/csrs.cc]) and of what [processor_t] does with them ([processor.cc]):
    changes of privilege, traps and interrupts, debug mode, and the returns
    ([insns/mret.h], [insns/sret.h]). *)

From stdpp Require Import base option list gmap functions.
From S2P Require Import Prelude.
From S2P Require Import Arith.
From S2P Require Import Pmp.
From S2P Require Import Devices.
From S2P Require Import Mmu.
From S2P Require Import Decode.
From S2P Require Import Memory.

(** ** Constants *)

Definition MSTATUS_SIE : Z := 0x2.
Definition MSTATUS_MIE : Z := 0x8.
Definition MSTATUS_SPIE : Z := 0x20.
Definition MSTATUS_MPIE : Z := 0x80.
Definition MSTATUS_SPP : Z := 0x100.
Definition MSTATUS_TVM : Z := 0x100000.
Definition MSTATUS_TW : Z := 0x200000.
Definition MSTATUS_TSR : Z := 0x400000.
Definition MSTATUS_GVA : Z := 0x4000000000.
Definition SSTATUS_SIE : Z := 0x2.
Definition SSTATUS_SPIE : Z := 0x20.
Definition SSTATUS_UBE : Z := 0x40.
Definition SSTATUS_SPP : Z := 0x100.
Definition SSTATUS_VS : Z := 0x600.
Definition SSTATUS_FS : Z := 0x6000.
Definition SSTATUS_XS : Z := 0x18000.
Definition SSTATUS_SUM : Z := 0x40000.
Definition SSTATUS_MXR : Z := 0x80000.
Definition SSTATUS_UXL : Z := 0x300000000.
Definition SSTATUS32_SD : Z := 0x80000000.
Definition SSTATUS64_SD : Z := 0x8000000000000000.
Definition HSTATUS_VTSR : Z := 0x400000.
Definition HSTATUS_VTW : Z := 0x200000.
Definition HSTATUS_VTVM : Z := 0x100000.
Definition HSTATUS_HU : Z := 0x200.
Definition HSTATUS_SPV : Z := 0x80.
Definition HSTATUS_GVA : Z := 0x40.
Definition PRV_HS : Z := PRV_S + 1.

Definition CAUSE_MISALIGNED_FETCH : Z := 0x0.
Definition CAUSE_FETCH_ACCESS : Z := 0x1.
Definition CAUSE_ILLEGAL_INSTRUCTION : Z := 0x2.
Definition CAUSE_BREAKPOINT : Z := 0x3.
Definition CAUSE_MISALIGNED_LOAD : Z := 0x4.
Definition CAUSE_LOAD_ACCESS : Z := 0x5.
Definition CAUSE_MISALIGNED_STORE : Z := 0x6.
Definition CAUSE_STORE_ACCESS : Z := 0x7.
Definition CAUSE_USER_ECALL : Z := 0x8.
Definition CAUSE_SUPERVISOR_ECALL : Z := 0x9.
Definition CAUSE_VIRTUAL_SUPERVISOR_ECALL : Z := 0xa.
Definition CAUSE_MACHINE_ECALL : Z := 0xb.
Definition CAUSE_FETCH_PAGE_FAULT : Z := 0xc.
Definition CAUSE_LOAD_PAGE_FAULT : Z := 0xd.
Definition CAUSE_STORE_PAGE_FAULT : Z := 0xf.
Definition CAUSE_FETCH_GUEST_PAGE_FAULT : Z := 0x14.
Definition CAUSE_LOAD_GUEST_PAGE_FAULT : Z := 0x15.
Definition CAUSE_VIRTUAL_INSTRUCTION : Z := 0x16.
Definition CAUSE_STORE_GUEST_PAGE_FAULT : Z := 0x17.

Definition IRQ_S_SOFT : Z := 1.
Definition IRQ_VS_SOFT : Z := 2.
Definition IRQ_M_SOFT : Z := 3.
Definition IRQ_S_TIMER : Z := 5.
Definition IRQ_VS_TIMER : Z := 6.
Definition IRQ_M_TIMER : Z := 7.
Definition IRQ_S_EXT : Z := 9.
Definition IRQ_VS_EXT : Z := 10.
Definition IRQ_M_EXT : Z := 11.
Definition IRQ_S_GEXT : Z := 12.
Definition IRQ_LCOF : Z := 13.
Definition MIP_VSSIP : Z := 1 .<< IRQ_VS_SOFT.
Definition MIP_VSTIP : Z := 1 .<< IRQ_VS_TIMER.
Definition MIP_VSEIP : Z := 1 .<< IRQ_VS_EXT.
Definition MIP_SGEIP : Z := 1 .<< IRQ_S_GEXT.
Definition MIP_VS_MASK : Z := MIP_VSSIP .| MIP_VSTIP .| MIP_VSEIP.
Definition MIP_HS_MASK : Z := MIP_VS_MASK .| MIP_SGEIP.
Definition MIDELEG_FORCED_MASK : Z := MIP_HS_MASK.
Definition MHPMEVENT_VUINH : Z := 0x0400000000000000.
Definition MHPMEVENT_VSINH : Z := 0x0800000000000000.
Definition MHPMEVENT_UINH : Z := 0x1000000000000000.
Definition MHPMEVENT_SINH : Z := 0x2000000000000000.
Definition MHPMEVENT_MINH : Z := 0x4000000000000000.

Definition DCSR_CAUSE_SWBP : Z := 1.
Definition DCSR_CAUSE_DEBUGINT : Z := 3.
Definition DCSR_CAUSE_STEP : Z := 4.
Definition DCSR_CAUSE_HALT : Z := 5.
Definition DCSR_CAUSE_GROUP : Z := 6.
Definition DEBUG_ROM_ENTRY : Z := 0x800.
Definition DEBUG_ROM_TVEC : Z := 0x808.

(** The instructions that return are two of those of [Decode]; everything else is
    in [Isa]. *)

(** ** The configuration *)

Inductive isa_extension_t : Type :=
  | EXT_E | EXT_M | EXT_F | EXT_H | EXT_S | EXT_U | EXT_V
  | EXT_ZCA | EXT_ZCB | EXT_ZCF | EXT_ZCMOP | EXT_ZMMUL | EXT_ZBA | EXT_ZBB | EXT_ZFINX | EXT_SMRNMI | EXT_SVNAPOT.

(** [misa] is not written by what is modelled, so extensions are fixed. *)
Record isa_t : Type := Isa {
  max_xlen : Z;
  extension_enabled : isa_extension_t -> bool;
  any_custom_extensions : bool;
  supports_mmu : bool
}.

(** ** Traps *)

(** A [trap_t] with what its virtual functions give. *)
Record trap_t : Type := Trap { t_cause : Z; t_has_gva : bool; t_tval : Z; t_tval2 : Z; t_tinst : Z }.

Definition cause_code (c : cause_t) : Z :=
  match c with
  | instruction_access_fault => CAUSE_FETCH_ACCESS
  | load_access_fault => CAUSE_LOAD_ACCESS
  | store_access_fault => CAUSE_STORE_ACCESS
  | instruction_page_fault => CAUSE_FETCH_PAGE_FAULT
  | load_page_fault => CAUSE_LOAD_PAGE_FAULT
  | store_page_fault => CAUSE_STORE_PAGE_FAULT
  | instruction_guest_page_fault => CAUSE_FETCH_GUEST_PAGE_FAULT
  | load_guest_page_fault => CAUSE_LOAD_GUEST_PAGE_FAULT
  | store_guest_page_fault => CAUSE_STORE_GUEST_PAGE_FAULT
  | load_address_misaligned => CAUSE_MISALIGNED_LOAD
  | store_address_misaligned => CAUSE_MISALIGNED_STORE
  end.

Definition mem_trap (t : mem_trap_t) : trap_t := Trap (cause_code (cause t)) (gva t) (tval t) (tval2 t) (tinst t).

(** [DECLARE_INST_TRAP] and [DECLARE_TRAP]. *)
Definition trap_illegal_instruction (bits : Z) : trap_t := Trap CAUSE_ILLEGAL_INSTRUCTION false bits 0 0.
Definition trap_virtual_instruction (bits : Z) : trap_t := Trap CAUSE_VIRTUAL_INSTRUCTION false bits 0 0.
Definition trap_breakpoint (gva : bool) (pc : Z) : trap_t := Trap CAUSE_BREAKPOINT gva pc 0 0.
Definition trap_instruction_address_misaligned (gva : bool) (pc : Z) : trap_t := Trap CAUSE_MISALIGNED_FETCH gva pc 0 0.
Definition plain_trap (c : Z) : trap_t := Trap c false 0 0 0.

(** ** The state *)

(** The registers by name; those of the supervisor are the ones of HS-mode, and the
    virtual supervisor has its own. *)
Inductive csr_name : Type :=
  | MSTATUS | MEPC | MTVAL | MTVEC | MCAUSE | MTVAL2 | MTINST | MIE | MIP | MEDELEG | MIDELEG | MNSTATUS
  | SEPC | STVAL | STVEC | SCAUSE | SATP | HSTATUS | HIDELEG | HEDELEG | HTVAL | HTINST | HGATP
  | VSSTATUS | VSEPC | VSTVAL | VSTVEC | VSCAUSE | VSATP | MENVCFG | HENVCFG
  | MINSTRET | MCYCLE | MINSTRETCFG | MCYCLECFG | DPC.

#[export] Instance csr_name_eq : EqDecision csr_name.
Proof. solve_decision. Defined.

Record dcsr_csr_t : Type := Dcsr {
  dcsr_prv : Z; dcsr_v : bool; dcsr_step : bool; dcsr_cause : Z; dcsr_halt : bool;
  ebreakm : bool; ebreaks : bool; ebreaku : bool; ebreakvs : bool; ebreakvu : bool
}.

Inductive single_step_t : Type := STEP_NONE | STEP_STEPPING | STEP_STEPPED.

(** [insn_fetch_t]; the function is the name of the instruction. *)
Record insn_fetch_t : Type := Fetch { fetch_func : opcode; fetch_insn : Z }.
(** [next] is the index of the slot it points to. *)
Record icache_entry_t : Type := ICache { tag : Z; next : Z; data : insn_fetch_t }.

(** [icache] has an entry where the tag is not -1. *)
Record hart (D : Type) : Type := HartState {
  st_prv : Z;
  st_v : bool;
  prev_prv : Z;
  prev_v : bool;
  prv_changed : bool;
  v_changed : bool;
  st_debug_mode : bool;
  single_step : single_step_t;
  dcsr : dcsr_csr_t;
  csr : csr_name -> Z;
  st_pmp : pmp_state;
  icache : gmap Z icache_entry_t;
  port : D
}.
Arguments HartState {D}.
Arguments st_prv {D}. Arguments st_v {D}. Arguments prev_prv {D}. Arguments prev_v {D}.
Arguments prv_changed {D}. Arguments v_changed {D}. Arguments st_debug_mode {D}. Arguments single_step {D}.
Arguments dcsr {D}. Arguments csr {D}. Arguments st_pmp {D}. Arguments icache {D}. Arguments port {D}.

(** A mask's lowest bit times a value. *)
Definition set_field (reg mask val : Z) : Z :=
  (reg .& u64 (Z.lnot mask)) .| (u64 (val * (mask .& u64 (Z.lnot (u64 (mask .<< 1))))) .& mask).

Definition field (reg mask : Z) : Z := get_field 64 reg mask.

Section Hart.
Context (isa : isa_t) {D : Type} `{Memory D}.
Implicit Types h : hart D.

Definition set_csr h (n : csr_name) (v : Z) : hart D :=
  HartState (st_prv h) (st_v h) (prev_prv h) (prev_v h) (prv_changed h) (v_changed h) (st_debug_mode h) (single_step h) (dcsr h)
    (<[n := v]> (csr h)) (st_pmp h) (icache h) (port h).
Definition set_prv h (prv : Z) (v : bool) : hart D :=
  HartState prv v (st_prv h) (st_v h) (negb (prv =? st_prv h)) (negb (Bool.eqb v (st_v h))) (st_debug_mode h) (single_step h) (dcsr h)
    (csr h) (st_pmp h) (icache h) (port h).
Definition set_changed h (prv_c v_c : bool) : hart D :=
  HartState (st_prv h) (st_v h) (prev_prv h) (prev_v h) prv_c v_c (st_debug_mode h) (single_step h) (dcsr h)
    (csr h) (st_pmp h) (icache h) (port h).
Definition set_debug h (debug : bool) (d : dcsr_csr_t) : hart D :=
  HartState (st_prv h) (st_v h) (prev_prv h) (prev_v h) (prv_changed h) (v_changed h) debug (single_step h) d
    (csr h) (st_pmp h) (icache h) (port h).
Definition set_single_step h (s : single_step_t) : hart D :=
  HartState (st_prv h) (st_v h) (prev_prv h) (prev_v h) (prv_changed h) (v_changed h) (st_debug_mode h) s (dcsr h)
    (csr h) (st_pmp h) (icache h) (port h).
Definition set_icache h (c : gmap Z icache_entry_t) : hart D :=
  HartState (st_prv h) (st_v h) (prev_prv h) (prev_v h) (prv_changed h) (v_changed h) (st_debug_mode h) (single_step h) (dcsr h)
    (csr h) (st_pmp h) c (port h).
Definition set_port h (d : D) : hart D :=
  HartState (st_prv h) (st_v h) (prev_prv h) (prev_v h) (prv_changed h) (v_changed h) (st_debug_mode h) (single_step h) (dcsr h)
    (csr h) (st_pmp h) (icache h) d.

(** ** Extensions and privilege *)

Definition pc_alignment_mask : Z := u64 (Z.lnot (if extension_enabled isa EXT_ZCA then 0 else 2)).

Definition legalize_privilege (prv : Z) : Z :=
  if negb (extension_enabled isa EXT_U) then PRV_M
  else if (prv =? PRV_HS) || ((prv =? PRV_S) && negb (extension_enabled isa EXT_S)) then PRV_U
  else prv.

Definition flush_icache h : hart D := set_icache h ∅.
Definition flush_tlb h : hart D := flush_icache (set_port h (mem_flush_tlb (port h))).

Definition set_privilege h (prv : Z) (virt : bool) : hart D :=
  let prv := legalize_privilege prv in set_prv (flush_tlb h) prv (virt && negb (prv =? PRV_M)).

(** ** The status registers *)

Definition has_page : bool := extension_enabled isa EXT_S && supports_mmu isa.

Definition sstatus_write_mask : Z :=
  let has_fs := (extension_enabled isa EXT_S || extension_enabled isa EXT_F || extension_enabled isa EXT_V) && negb (extension_enabled isa EXT_ZFINX) in
  let has_vs := extension_enabled isa EXT_V in
  (if extension_enabled isa EXT_S then SSTATUS_SIE .| SSTATUS_SPIE .| SSTATUS_SPP else 0)
  .| (if has_page then SSTATUS_SUM .| SSTATUS_MXR else 0)
  .| (if has_fs then SSTATUS_FS else 0)
  .| (if any_custom_extensions isa then SSTATUS_XS else 0)
  .| (if has_vs then SSTATUS_VS else 0).

Definition sd_bit : Z := if max_xlen isa =? 64 then SSTATUS64_SD else SSTATUS32_SD.

Definition sstatus_read_mask : Z := sstatus_write_mask .| SSTATUS_UBE .| SSTATUS_UXL .| sd_bit.

Definition adjust_sd (val : Z) : Z :=
  if (val .& SSTATUS_FS =? SSTATUS_FS) || (val .& SSTATUS_VS =? SSTATUS_VS) || (val .& SSTATUS_XS =? SSTATUS_XS)
  then val .| sd_bit else val .& u64 (Z.lnot sd_bit).

Definition maybe_flush_tlb h (old newval : Z) : hart D :=
  if nz ((newval .^ old) .& (MSTATUS_MPP .| MSTATUS_MPRV .| (if has_page then MSTATUS_MXR .| MSTATUS_SUM else 0))) then flush_tlb h else h.

Definition mstatus_write_mask : Z :=
  sstatus_write_mask .| MSTATUS_MIE .| MSTATUS_MPIE
  .| (if extension_enabled isa EXT_U then MSTATUS_MPRV else 0)
  .| MSTATUS_MPP .| MSTATUS_TW
  .| (if extension_enabled isa EXT_S then MSTATUS_TSR else 0)
  .| (if has_page then MSTATUS_TVM else 0)
  .| (if extension_enabled isa EXT_H then MSTATUS_GVA else 0)
  .| (if extension_enabled isa EXT_H then MSTATUS_MPV else 0).

(** [(old & ~mask) | (val & mask)]. *)
Definition merge (mask old val : Z) : Z := (old .& u64 (Z.lnot mask)) .| (val .& mask).

Definition mstatus_write h (val : Z) : hart D :=
  let requested_mpp := legalize_privilege (field val MSTATUS_MPP) in
  let adjusted_val := set_field val MSTATUS_MPP requested_mpp in
  let new_mstatus := merge mstatus_write_mask (csr h MSTATUS) adjusted_val in
  set_csr (maybe_flush_tlb h (csr h MSTATUS) new_mstatus) MSTATUS (adjust_sd new_mstatus).

(** [rv32_low_csr_t] and [rv32_high_csr_t] over [mstatus]. *)
Definition mstatus_write_low h (val : Z) : hart D := mstatus_write h (u64 ((csr h MSTATUS .>> 32) .<< 32) .| (val .& 0xffffffff)).
Definition mstatus_write_high h (val : Z) : hart D :=
  mstatus_write h ((u64 (csr h MSTATUS .<< 32) .>> 32) .| u64 ((val .& 0xffffffff) .<< 32)).

Definition sstatus_proxy_read h : Z := csr h MSTATUS .& sstatus_read_mask.
Definition sstatus_proxy_write h (val : Z) : hart D := mstatus_write h (merge sstatus_write_mask (csr h MSTATUS) val).

Definition vsstatus_write h (val : Z) : hart D :=
  let newval := merge sstatus_write_mask (csr h VSSTATUS) val in
  set_csr (if st_v h then maybe_flush_tlb h (csr h VSSTATUS) newval else h) VSSTATUS (adjust_sd newval).

Definition sstatus_read h : Z := if st_v h then csr h VSSTATUS else sstatus_proxy_read h.
Definition sstatus_write h (val : Z) : hart D := if st_v h then vsstatus_write h val else sstatus_proxy_write h val.

(** [put_csr] at [CSR_MSTATUS], which is the low half of [mstatus] on RV32. *)
Definition put_csr_mstatus h (val : Z) : hart D :=
  if max_xlen isa =? 32 then mstatus_write_low h (val mod 2 ^ 32) else mstatus_write h val.

(** ** The other registers *)

Definition hstatus_mask : Z :=
  HSTATUS_VTSR .| HSTATUS_VTW .| (if supports_mmu isa then HSTATUS_VTVM else 0) .| HSTATUS_HU .| HSTATUS_SPVP .| HSTATUS_SPV .| HSTATUS_GVA.
Definition hstatus_write h (val : Z) : hart D := set_csr h HSTATUS (merge hstatus_mask (csr h HSTATUS) val).

(** [epc_csr_t], which is also [dpc_csr_t]. *)
Definition epc_read h (n : csr_name) : Z := csr h n .& pc_alignment_mask.
Definition epc_write h (n : csr_name) (val : Z) : hart D := set_csr h n (val .& u64 (Z.lnot 1)).

Definition mideleg_read h : Z := if extension_enabled isa EXT_H then csr h MIDELEG .| MIDELEG_FORCED_MASK else csr h MIDELEG.
Definition hideleg_read h : Z := csr h HIDELEG .& mideleg_read h.

(** ** Counters of instructions and cycles *)

Definition is_counting_enabled h (config : csr_name) : bool :=
  let prv := if prv_changed h then prev_prv h else st_prv h in
  let v := if v_changed h then st_v h else prev_v h in
  let mask := if prv =? PRV_S then (if v : bool then MHPMEVENT_VSINH else MHPMEVENT_SINH)
              else if prv =? PRV_U then (if v then MHPMEVENT_VUINH else MHPMEVENT_UINH) else MHPMEVENT_MINH in
  csr h config .& mask =? 0.

(** [bump]; the configuration is not written while instructions run, so
    [read_prev] is [read]. *)
Definition bump h (n config : csr_name) (howmuch : Z) : hart D :=
  if is_counting_enabled h config then set_csr h n (u64 (csr h n + howmuch)) else h.

(** ** What the walk of the page tables reads *)

Definition view h : hart_t := {|
  hart_xlen := max_xlen isa; Mmu.prv := st_prv h; virt_mode := st_v h; debug_mode := st_debug_mode h;
  svnapot := extension_enabled isa EXT_SVNAPOT; mstatus := csr h MSTATUS;
  mnstatus := if extension_enabled isa EXT_SMRNMI then Some (csr h MNSTATUS) else None;
  hstatus := csr h HSTATUS; sstatus := sstatus_proxy_read h; vsstatus := csr h VSSTATUS;
  menvcfg := csr h MENVCFG; henvcfg := csr h HENVCFG; satp := csr h SATP; vsatp := csr h VSATP; hgatp := csr h HGATP;
  pmp := st_pmp h |}.

(** ** Taking traps

    The state after the trap and the program counter. *)

Definition tvec_target (tvec : Z) (interrupt : bool) (bit : Z) : Z :=
  let vector := if nz (tvec .& 1) && interrupt then 4 * bit else 0 in u64 ((tvec .& u64 (Z.lnot 1)) + vector).

(** The bits of a supervisor status on entry. *)
Definition enter_supervisor (s prv : Z) : Z :=
  let s := set_field s MSTATUS_SPIE (field s MSTATUS_SIE) in
  let s := set_field s MSTATUS_SPP prv in
  set_field s MSTATUS_SIE 0.

Definition nmie h : bool := negb (extension_enabled isa EXT_SMRNMI && negb (nz (field (csr h MNSTATUS) MNSTATUS_NMIE))).

Definition trap_to_vs h (t : trap_t) (epc : Z) (interrupt : bool) (bit : Z) : hart D * Z :=
  let pc := tvec_target (csr h VSTVEC) interrupt bit in
  let h := set_csr h VSCAUSE (if interrupt then t_cause t - 1 else t_cause t) in
  let h := epc_write h VSEPC epc in
  let h := set_csr h VSTVAL (t_tval t) in
  let h := sstatus_write h (enter_supervisor (sstatus_read h) (st_prv h)) in
  (set_privilege h PRV_S true, pc).

Definition trap_to_hs h (t : trap_t) (epc : Z) (interrupt : bool) (bit : Z) : hart D * Z :=
  let curr_virt := st_v h in
  let pc := tvec_target (csr h STVEC) interrupt bit in
  let h := set_csr h SCAUSE (t_cause t) in
  let h := epc_write h SEPC epc in
  let h := set_csr h STVAL (t_tval t) in
  let h := set_csr h HTVAL (t_tval2 t) in
  let h := set_csr h HTINST (t_tinst t) in
  let h := sstatus_proxy_write h (enter_supervisor (sstatus_proxy_read h) (st_prv h)) in
  let h :=
    if extension_enabled isa EXT_H then
      let s := csr h HSTATUS in
      let s := if curr_virt then set_field s HSTATUS_SPVP (st_prv h) else s in
      let s := set_field s HSTATUS_SPV (b2z curr_virt) in
      let s := set_field s HSTATUS_GVA (b2z (t_has_gva t)) in
      hstatus_write h s
    else h in
  (set_privilege h PRV_S false, pc).

Definition enter_machine (s prv : Z) (virt gva : bool) : Z :=
  let s := set_field s MSTATUS_MPIE (field s MSTATUS_MIE) in
  let s := set_field s MSTATUS_MPP prv in
  let s := set_field s MSTATUS_MIE 0 in
  let s := set_field s MSTATUS_MPV (b2z virt) in
  set_field s MSTATUS_GVA (b2z gva).

Definition trap_to_m h (t : trap_t) (epc : Z) (interrupt : bool) (bit : Z) : hart D * Z :=
  let curr_virt := st_v h in
  let pc := if nmie h then tvec_target (csr h MTVEC) interrupt bit else 0 in
  let h := epc_write h MEPC epc in
  let h := set_csr h MCAUSE (t_cause t) in
  let h := set_csr h MTVAL (t_tval t) in
  let h := set_csr h MTVAL2 (t_tval2 t) in
  let h := set_csr h MTINST (t_tinst t) in
  let s := enter_machine (csr h MSTATUS) (st_prv h) curr_virt (t_has_gva t) in
  let h := mstatus_write h s in
  let h := if max_xlen isa =? 32 then mstatus_write_high h (s .>> 32) else h in
  (set_privilege h PRV_M false, pc).

(** The delegation a cause is looked up in: that to VS-mode and that to HS-mode. *)
Definition delegation h (interrupt : bool) : Z * Z :=
  let low := st_prv h <=? PRV_S in
  if interrupt then (if st_v h && low then hideleg_read h else 0, if low then mideleg_read h else 0)
  else (if st_v h && low then csr h MEDELEG .& csr h HEDELEG else 0, if low then csr h MEDELEG else 0).

Definition take_trap h (t : trap_t) (epc : Z) : hart D * Z :=
  if st_debug_mode h then (h, if t_cause t =? CAUSE_BREAKPOINT then DEBUG_ROM_ENTRY else DEBUG_ROM_TVEC) else
  let top := 1 .<< (max_xlen isa - 1) in
  let interrupt := nz (t_cause t .& top) in
  let bit := if interrupt then t_cause t .& u64 (Z.lnot top) else t_cause t in
  let '(vsdeleg, hsdeleg) := delegation h interrupt in
  let low := st_prv h <=? PRV_S in
  if low && (bit <? max_xlen isa) && nz ((vsdeleg .>> bit) .& 1) then trap_to_vs h t epc interrupt bit
  else if low && (bit <? max_xlen isa) && nz ((hsdeleg .>> bit) .& 1) then trap_to_hs h t epc interrupt bit
  else trap_to_m h t epc interrupt bit.

(** [None] where the source aborts. *)
Definition interrupt_select (enabled : Z) : option Z :=
  if nz (enabled .>> (IRQ_M_EXT + 1)) then Some ((enabled .>> (IRQ_M_EXT + 1)) .<< (IRQ_M_EXT + 1))
  else if nz (enabled .& (1 .<< IRQ_M_EXT)) then Some (1 .<< IRQ_M_EXT)
  else if nz (enabled .& (1 .<< IRQ_M_SOFT)) then Some (1 .<< IRQ_M_SOFT)
  else if nz (enabled .& (1 .<< IRQ_M_TIMER)) then Some (1 .<< IRQ_M_TIMER)
  else if nz (enabled .& (1 .<< IRQ_S_EXT)) then Some (1 .<< IRQ_S_EXT)
  else if nz (enabled .& (1 .<< IRQ_S_SOFT)) then Some (1 .<< IRQ_S_SOFT)
  else if nz (enabled .& (1 .<< IRQ_S_TIMER)) then Some (1 .<< IRQ_S_TIMER)
  else if nz (enabled .& (1 .<< IRQ_LCOF)) then Some (1 .<< IRQ_LCOF)
  else if nz (enabled .& MIP_VSEIP) then Some MIP_VSEIP
  else if nz (enabled .& MIP_VSSIP) then Some MIP_VSSIP
  else if nz (enabled .& MIP_VSTIP) then Some MIP_VSTIP
  else None.

(** What is pending and may interrupt: for M-mode, else for HS-mode, else for
    VS-mode. *)
Definition enabled_interrupts h (pending : Z) : Z :=
  let m_enabled := (st_prv h <? PRV_M) || ((st_prv h =? PRV_M) && nz (field (csr h MSTATUS) MSTATUS_MIE)) in
  let enabled := if m_enabled then pending .& u64 (Z.lnot (mideleg_read h)) else 0 in
  if negb (enabled =? 0) then enabled else
  let deleg_to_hs := mideleg_read h .& u64 (Z.lnot (hideleg_read h)) in
  let sie := nz (field (sstatus_read h) MSTATUS_SIE) in
  let hs_enabled := st_v h || (st_prv h <? PRV_S) || ((st_prv h =? PRV_S) && sie) in
  let enabled := if hs_enabled then pending .& deleg_to_hs else 0 in
  if st_v h && (enabled =? 0) then
    let vs_enabled := (st_prv h <? PRV_S) || ((st_prv h =? PRV_S) && sie) in
    if vs_enabled then pending .& hideleg_read h else 0
  else enabled.

(** The interrupt that is thrown, if any; [None] where the source aborts. *)
Definition take_interrupt h (pending : Z) : option (option trap_t) :=
  if pending =? 0 then Some None else
  let enabled := enabled_interrupts h pending in
  if negb (st_debug_mode h) && nmie h && nz enabled then
    chosen ← interrupt_select enabled; Some (Some (plain_trap ((1 .<< (max_xlen isa - 1)) .| ctz chosen)))
  else Some None.

Definition take_pending_interrupt h : option (option trap_t) := take_interrupt h (csr h MIP .& csr h MIE).

Definition enter_debug_mode h (pc cause : Z) : hart D * Z :=
  let d := dcsr h in
  let h := set_debug h true (Dcsr (st_prv h) (st_v h) (dcsr_step d) cause (dcsr_halt d) (ebreakm d) (ebreaks d) (ebreaku d) (ebreakvs d) (ebreakvu d)) in
  let h := set_privilege h PRV_M false in
  (epc_write h DPC pc, DEBUG_ROM_ENTRY).

(** ** Returning from traps

    The state after the return and [STATE.pc]; the trap where it is refused. *)

Definition mret h (bits : Z) : trap_t + (hart D * Z) :=
  if negb (PRV_M <=? st_prv h) then inl (trap_illegal_instruction bits) else
  let pc := epc_read h MEPC .& pc_alignment_mask in
  let s := csr h MSTATUS in
  let prev_prv := field s MSTATUS_MPP in
  let prev_virt := field s MSTATUS_MPV in
  let s := if negb (prev_prv =? PRV_M) then set_field s MSTATUS_MPRV 0 else s in
  let s := set_field s MSTATUS_MIE (field s MSTATUS_MPIE) in
  let s := set_field s MSTATUS_MPIE 1 in
  let s := set_field s MSTATUS_MPP (if extension_enabled isa EXT_U then PRV_U else PRV_M) in
  let s := set_field s MSTATUS_MPV 0 in
  let h := put_csr_mstatus h s in
  inr (set_privilege h prev_prv (nz prev_virt), pc).

Definition sret_refused h (bits : Z) : option trap_t :=
  if negb (extension_enabled isa EXT_S) then Some (trap_illegal_instruction bits)
  else if st_v h then
    if (st_prv h =? PRV_U) || nz (field (csr h HSTATUS) HSTATUS_VTSR) then Some (trap_virtual_instruction bits) else None
  else if negb ((if nz (field (csr h MSTATUS) MSTATUS_TSR) then PRV_M else PRV_S) <=? st_prv h) then Some (trap_illegal_instruction bits)
  else None.

Definition sret h (bits : Z) : trap_t + (hart D * Z) :=
  let prev_hstatus := csr h HSTATUS in
  match sret_refused h bits with
  | Some t => inl t
  | None =>
      let next_pc := if st_v h then epc_read h VSEPC else epc_read h SEPC in
      let pc := next_pc .& pc_alignment_mask in
      let s := sstatus_read h in
      let prev_prv := field s MSTATUS_SPP in
      let s := set_field s MSTATUS_SIE (field s MSTATUS_SPIE) in
      let s := set_field s MSTATUS_SPIE 1 in
      let s := set_field s MSTATUS_SPP PRV_U in
      let h := sstatus_write h s in
      if st_v h then inr (set_privilege h prev_prv true, pc)
      else
        let '(prev_virt, h) :=
          if extension_enabled isa EXT_H then
            (nz (field prev_hstatus HSTATUS_SPV), hstatus_write h (set_field prev_hstatus HSTATUS_SPV 0))
          else (false, h) in
        let h := mstatus_write h (set_field (csr h MSTATUS) MSTATUS_MPRV 0) in
        inr (set_privilege h prev_prv prev_virt, pc)
  end.
End Hart.
