(* ===== verification/CsrFacts.v ===== *)
(** * Spike: facts about privilege and traps

    The invariant of a hart, the bits of the status registers, and what writing them,
    changing privilege and taking traps keep. *)

From stdpp Require Import base option list gmap functions.
From S2P Require Import Prelude.
From S2P Require Import Arith.
From S2P Require Import Pmp.
From S2P Require Import Devices.
From S2P Require Import Mmu.
From S2P Require Import MmuFacts.
From S2P Require Import Decode.
From S2P Require Import Memory.
From S2P Require Import Csrs.

(** ** Addresses of instructions *)

Lemma u64_parity p : (u64 p) mod 2 = p mod 2.
Proof. unfold uwrap. change (2 ^ 64) with (2 * 2 ^ 63). rewrite Z.rem_mul_r by lia. rewrite (Z.mul_comm 2), Z_mod_plus_full, Zmod_mod. done. Qed.

Definition pc_ok (p : Z) : Prop := 0 <= p < 2 ^ 64 /\ p mod 2 = 0.

Lemma pc_u64 p : p mod 2 = 0 -> pc_ok (u64 p).
Proof. intros Hp. split; [apply uwrap_range; lia|by rewrite u64_parity]. Qed.

Lemma clear_bit0 p : 0 <= p < 2 ^ 64 -> p .& u64 (Z.lnot 1) = p - p mod 2.
Proof. intros Hp. change 1 with (b2z true). rewrite clear_low_bit by done. simpl. rewrite Zmod_odd. by destruct (Z.odd p). Qed.

Lemma pc_clear p : 0 <= p < 2 ^ 64 -> pc_ok (p .& u64 (Z.lnot 1)).
Proof. intros Hp. rewrite clear_bit0 by done. pose proof (Z.mod_pos_bound p 2). split; [|by rewrite Zminus_mod, Zmod_mod, Z.sub_diag]. split; [|lia]. pose proof (Z.mod_le p 2). lia. Qed.

(** ** Bits of registers *)

Lemma bit_mask_low k : 0 <= k < 63 -> 2 ^ k .& u64 (Z.lnot (u64 (2 ^ k .<< 1))) = 2 ^ k.
Proof.
  intros Hk. rewrite shiftl_mul, <- (Z.pow_add_r 2 k 1) by lia. pose proof (pow2_pos (k + 1) ltac:(lia)). rewrite (uwrap_small 64 (2 ^ (k + 1))) by (split; [lia|apply pow2_lt; lia]).
  apply Z.bits_inj'. intros i Hi. rewrite Z.land_spec. destruct (Z.eq_dec i k) as [->|Hne].
  - rewrite Z.pow2_bits_true by lia. simpl. unfold uwrap. rewrite Z.mod_pow2_bits_low, Z.lnot_spec, Z.pow2_bits_false by lia. done.
  - by rewrite Z.pow2_bits_false by lia.
Qed.

Lemma field_bit r k : 0 <= k < 63 -> field r (2 ^ k) = b2z (Z.testbit r k).
Proof.
  intros Hk. unfold field, get_field. rewrite bit_mask_low by lia.
  replace (2 ^ k) with (Z.ones 1 .<< k) at 1 by (rewrite shiftl_mul by lia; apply Z.mul_1_l). rewrite land_field by lia.
  rewrite shiftl_mul, Z.div_mul by lia. change (2 ^ 1) with 2. rewrite Zmod_odd, <- Z.shiftr_div_pow2, Z.testbit_odd by lia. by destruct (Z.odd _).
Qed.

Lemma field_nz r k : 0 <= k < 63 -> nz (field r (2 ^ k)) = Z.testbit r k.
Proof. intros Hk. rewrite field_bit by done. by destruct (Z.testbit r k). Qed.

Lemma u64_lnot_bit m i : 0 <= i < 64 -> Z.testbit (u64 (Z.lnot m)) i = negb (Z.testbit m i).
Proof. intros Hi. unfold uwrap. rewrite Z.mod_pow2_bits_low, Z.lnot_spec by lia. done. Qed.

Lemma set_bit_spec r k v i : 0 <= k < 63 -> 0 <= i < 64 ->
  Z.testbit (set_field r (2 ^ k) v) i = if i =? k then Z.testbit v 0 else Z.testbit r i.
Proof.
  intros Hk Hi. unfold set_field. rewrite bit_mask_low, Z.lor_spec, !Z.land_spec, u64_lnot_bit by lia. unfold uwrap. rewrite Z.mod_pow2_bits_low, Z.mul_pow2_bits by lia.
  destruct (Z.eqb_spec i k) as [->|Hne].
  - rewrite Z.pow2_bits_true, Z.sub_diag by lia. simpl. by rewrite andb_false_r, andb_true_r.
  - rewrite Z.pow2_bits_false by lia. simpl. by rewrite andb_false_r, andb_true_r, orb_false_r.
Qed.

(** The two bits of [MPP]. *)
Lemma field_mpp r : field r MSTATUS_MPP = b2z (Z.testbit r 11) + 2 * b2z (Z.testbit r 12).
Proof.
  unfold field, get_field. change (MSTATUS_MPP .& u64 (Z.lnot (u64 (MSTATUS_MPP .<< 1)))) with (2 ^ 11). change MSTATUS_MPP with (Z.ones 2 .<< 11).
  rewrite land_field by lia. rewrite shiftl_mul, Z.div_mul by lia. change (2 ^ 2) with (2 * 2). rewrite Z.rem_mul_r, !Zmod_odd by lia.
  rewrite !(Z.testbit_odd r), Z.div_div, !Z.shiftr_div_pow2 by lia. change (2 ^ 11 * 2) with (2 ^ 12). by destruct (Z.odd _), (Z.odd _).
Qed.

Lemma set_mpp_spec r v i : 0 <= v < 4 -> 0 <= i < 64 ->
  Z.testbit (set_field r MSTATUS_MPP v) i = if i =? 11 then Z.testbit v 0 else if i =? 12 then Z.testbit v 1 else Z.testbit r i.
Proof.
  intros Hv Hi. unfold set_field. change (MSTATUS_MPP .& u64 (Z.lnot (u64 (MSTATUS_MPP .<< 1)))) with (2 ^ 11). change MSTATUS_MPP with (Z.ones 2 .<< 11).
  rewrite Z.lor_spec, !Z.land_spec, u64_lnot_bit, !Z.shiftl_spec by lia. unfold uwrap. rewrite Z.mod_pow2_bits_low, Z.mul_pow2_bits, !Z.testbit_ones by lia.
  destruct (Z.eqb_spec i 11) as [->|]; [simpl; by rewrite andb_false_r, andb_true_r|]. destruct (Z.eqb_spec i 12) as [->|]; [simpl; by rewrite andb_false_r, andb_true_r|].
  assert ((0 <=? i - 11) && (i - 11 <? 2) = false) as -> by lia. simpl. by rewrite andb_false_r, andb_true_r, orb_false_r.
Qed.

Lemma merge_spec mask old v i : 0 <= i < 64 -> Z.testbit (merge mask old v) i = if Z.testbit mask i then Z.testbit v i else Z.testbit old i.
Proof.
  intros Hi. unfold merge. rewrite Z.lor_spec, !Z.land_spec, u64_lnot_bit by lia. destruct (Z.testbit mask i), (Z.testbit old i), (Z.testbit v i); done.
Qed.


(** The function of an application. *)
Ltac head_of t := lazymatch t with ?f _ => head_of f | _ => t end.

(** Membership in lists of registers. *)
Ltac in_list := refine (bool_decide_unpack _ _); exact I.
Ltac cases_in H := repeat (apply elem_of_cons in H as [->|H]; [|]); [..|by apply not_elem_of_nil in H].

(** ** The order of interrupts *)

(** The standard ones and those of the virtual supervisor; the lowest of those above
    them comes first. *)
Definition local_order : list Z := [IRQ_M_EXT; IRQ_M_SOFT; IRQ_M_TIMER; IRQ_S_EXT; IRQ_S_SOFT; IRQ_S_TIMER; IRQ_VS_EXT; IRQ_VS_SOFT; IRQ_VS_TIMER].
Definition interrupt_order : list Z :=
  [12; 13; 14; 15; 16; 17; 18; 19; 20; 21; 22; 23; 24; 25; 26; 27; 28; 29; 30; 31; 32; 33; 34; 35; 36; 37; 38; 39; 40; 41; 42; 43; 44; 45; 46; 47;
   48; 49; 50; 51; 52; 53; 54; 55; 56; 57; 58; 59; 60; 61; 62; 63] ++ local_order.

Lemma nz_bit_shl x k : 0 <= k -> nz (x .& (1 .<< k)) = Z.testbit x k.
Proof. intros Hk. rewrite shiftl_mul, Z.mul_1_l by done. by apply nz_bit. Qed.

Lemma ctz_single k : 0 <= k < 64 -> ctz (1 .<< k) = k.
Proof.
  intros Hk. rewrite shiftl_mul by lia. rewrite Z.mul_comm. apply ctz_ok; [lia|done|]. rewrite Z.mul_1_r. split; [apply pow2_pos; lia|apply pow2_lt; lia].
Qed.

(** The lowest bit of a number. *)
Lemma low_bit x : 0 < x -> exists z q, 0 <= z /\ Z.odd q = true /\ x = 2 ^ z * q /\ 0 < q.
Proof.
  intros Hx. assert (exists n : nat, x < 2 ^ Z.of_nat n) as [n Hn] by (exists (Z.to_nat x); rewrite Z2Nat.id by lia; apply Z.pow_gt_lin_r; lia).
  revert x Hx Hn. induction n as [|n IH]; intros x Hx Hn; [simpl in Hn; lia|]. rewrite Nat2Z.inj_succ, Z.pow_succ_r in Hn by lia.
  destruct (Z.odd x) eqn:Eo; [exists 0, x; split_and!; try done; lia|].
  assert (x = 2 * (x / 2)) as Ex by (pose proof (Zmod_odd x) as H; rewrite Eo in H; pose proof (Z.div_mod x 2); lia).
  destruct (IH (x / 2)) as (z & q & Hz & Hq & E & Hp); [lia|lia|]. exists (z + 1), q. split_and!; try done; [lia|]. rewrite pow2_succ by done. lia.
Qed.

Lemma find_first (f : Z -> bool) i l1 l2 : (forall j, j ∈ l1 -> f j = false) -> f i = true -> List.find f (l1 ++ i :: l2) = Some i.
Proof.
  intros H1 H2. induction l1 as [|j l1 IH]; simpl; [by rewrite H2|]. rewrite H1 by left. apply IH. intros k Hk. apply H1. by right.
Qed.

Lemma find_skip (f : Z -> bool) l1 l2 : (forall j, j ∈ l1 -> f j = false) -> List.find f (l1 ++ l2) = List.find f l2.
Proof.
  intros H1. induction l1 as [|j l1 IH]; simpl; [done|]. rewrite H1 by left. apply IH. intros k Hk. apply H1. by right.
Qed.

(** The local interrupts, in the order of the list. *)
Lemma select_high x : 0 <= x < 2 ^ 64 -> x .>> 12 <> 0 ->
  exists i, 12 <= i < 64 /\ ctz ((x .>> 12) .<< 12) = i /\ Z.testbit x i = true /\ forall j, 12 <= j < i -> Z.testbit x j = false.
Proof.
  intros Hx Hn. assert (0 < x .>> 12) as Hpos by (pose proof (proj2 (Z.shiftr_nonneg x 12)); lia). destruct (low_bit _ Hpos) as (z & q & Hz & Hq & E & Hqp).
  assert (2 ^ z * q < 2 ^ 52) as Hlt. { rewrite <- E, shiftr_div by lia. apply Z.div_lt_upper_bound; lia. }
  assert (z < 52) as Hz52. { destruct (Z.lt_ge_cases z 52); [done|]. pose proof (pow2_le 52 z ltac:(lia)). nia. }
  assert (forall j, 12 <= j -> Z.testbit x j = Z.testbit (2 ^ z * q) (j - 12)) as Hb by (intros j Hj; rewrite <- E, Z.shiftr_spec by lia; f_equal; lia).
  exists (z + 12). split_and!; try lia.
  - rewrite E, shiftl_mul by lia. replace (2 ^ z * q * 2 ^ 12) with (2 ^ (z + 12) * q) by (rewrite Z.pow_add_r by lia; ring). apply ctz_ok; [lia|done|].
    rewrite Z.pow_add_r by lia. pose proof (pow2_pos z Hz). nia.
  - rewrite Hb by lia. replace (z + 12 - 12) with (z + 0) by lia. rewrite Z.mul_comm, Z.add_comm. rewrite Z.mul_pow2_bits by lia. rewrite Z.add_0_l, Z.sub_diag, Z.bit0_odd. done.
  - intros j Hj. rewrite Hb by lia. rewrite Z.mul_comm. apply Z.mul_pow2_bits_low. lia.
Qed.

Lemma interrupt_selected x : 0 <= x < 2 ^ 64 -> x .& 0x111 = 0 -> x <> 0 ->
  exists c i, interrupt_select x = Some c /\ ctz c = i /\ List.find (Z.testbit x) interrupt_order = Some i.
Proof.
  intros Hx Hu Hn. unfold interrupt_select. change (IRQ_M_EXT + 1) with 12. destruct (nz (x .>> 12)) eqn:Eh.
  - apply nz_true in Eh. destruct (select_high x Hx Eh) as (i & Hi & Hc & Hb & Hl). eexists _, i. split; [done|]. split; [done|].
    assert (exists n : nat, (n < 52)%nat /\ i = 12 + Z.of_nat n) as (n & Hn52 & ->) by (exists (Z.to_nat (i - 12)); lia).
    assert (interrupt_order = firstn n interrupt_order ++ (12 + Z.of_nat n) :: skipn (S n) interrupt_order) as -> by (clear - Hn52; do 52 (destruct n as [|n]; [reflexivity|]); lia).
    apply find_first; [|done]. intros j Hj. apply Hl. clear - Hn52 Hj. apply list_elem_of_lookup in Hj as [k Hk]. apply lookup_take_Some in Hk as [Hk Hkn].
    assert (interrupt_order !! k = Some (12 + Z.of_nat k)) as E by (clear - Hkn Hn52; assert (k < 52)%nat as H by lia; clear Hkn Hn52 n; do 52 (destruct k as [|k]; [reflexivity|]); lia). rewrite E in Hk. injection Hk as <-. lia.
  - apply nz_false in Eh. assert (forall j, 12 <= j -> Z.testbit x j = false) as Hhigh by (intros j Hj; replace j with (j - 12 + 12) by lia; rewrite <- Z.shiftr_spec, Eh by lia; apply Z.bits_0).
    unfold interrupt_order. rewrite find_skip by (intros j Hj; apply Hhigh; clear - Hj; cases_in Hj; lia).
    unfold MIP_VSEIP, MIP_VSSIP, MIP_VSTIP. rewrite !nz_bit_shl by done. unfold local_order. cbn [List.find]. rewrite (Hhigh IRQ_LCOF) by done.
    repeat (match goal with |- context [if Z.testbit x ?k then Some _ else _] => destruct (Z.testbit x k) eqn:? end; [by eexists _, _; split_and!; [done|by apply ctz_single|]|]).
    exfalso. apply Hn. apply Z.bits_inj'. intros j Hj. rewrite Z.bits_0. destruct (Z.lt_ge_cases j 12); [|by apply Hhigh].
    assert (forall k, 0 <= k -> Z.testbit 0x111 k = true -> Z.testbit x k = false) as Hlow.
    { intros k Hk Ht. pose proof (f_equal (fun y => Z.testbit y k) Hu) as E. cbn beta in E. by rewrite Z.land_spec, Ht, andb_true_r, Z.bits_0 in E. }
    assert (j = 0 \/ j = 1 \/ j = 2 \/ j = 3 \/ j = 4 \/ j = 5 \/ j = 6 \/ j = 7 \/ j = 8 \/ j = 9 \/ j = 10 \/ j = 11) as Hc by lia.
    repeat destruct Hc as [->|Hc]; first [assumption | by apply Hlow | subst j; assumption].
Qed.

Section Hart.
Context (isa : isa_t) {D : Type} `{!Memory D}.

(** An instruction of the tables, or the illegal one. *)
Definition known (o : opcode) : bool := match o with other _ => false | _ => true end.

(** The privilege and the previous one are modes, interrupts that may be pending have
    a place in the order of priority, and the trap vectors and return addresses are
    even. *)
Record hart_ok (h : hart D) : Prop := {
  hart_prv : is_mode (st_prv h);
  hart_mpp : is_mode (field (csr h MSTATUS) MSTATUS_MPP);
  hart_mie : csr h MIE .& 0x111 = 0;
  hart_ints : 0 <= csr h MIE < 2 ^ 64 /\ 0 <= csr h MIP < 2 ^ 64;
  hart_tables : mem_ready (view isa h);
  hart_memory : mem_inv (port h);
  hart_vectors : forall n, n ∈ [MTVEC; STVEC; VSTVEC] -> 0 <= csr h n < 2 ^ 64;
  hart_epcs : forall n, n ∈ [MEPC; SEPC; VSEPC; DPC] -> pc_ok (csr h n);
  hart_icache : forall i e, icache h !! i = Some e -> pc_ok (tag e) /\ i = (tag e / 2) mod 1024 /\ known (fetch_func (data e)) = true
}.


Implicit Types h : hart D.

(** ** Writes keep the invariant *)

Lemma csr_set h n v m : csr (set_csr h n v) m = if decide (n = m) then v else csr h m.
Proof. done. Qed.

Lemma csr_set_eq h n v : csr (set_csr h n v) n = v.
Proof. apply fn_lookup_insert. Qed.

Lemma csr_set_ne h n v m : n <> m -> csr (set_csr h n v) m = csr h m.
Proof. intros Hn. by apply fn_lookup_insert_ne. Qed.

(** The registers the invariant speaks of. *)
Definition guarded_csrs : list csr_name := [MSTATUS; MIE; MIP; MTVEC; STVEC; VSTVEC; MEPC; SEPC; VSEPC; DPC; SATP; VSATP; HGATP].

Lemma list_subseteq_guard n l : n ∈ l -> Forall (fun m => m ∈ guarded_csrs) l -> n ∈ guarded_csrs.
Proof. intros Hn Hl. apply (proj1 (List.Forall_forall _ _) Hl). by apply list_elem_of_In. Qed.

Lemma hart_same_csrs h h' : hart_ok h -> is_mode (st_prv h') -> st_pmp h' = st_pmp h ->
  (forall n, n ∈ guarded_csrs -> csr h' n = csr h n) -> mem_inv (port h') -> (icache h' = icache h \/ icache h' = ∅) -> hart_ok h'.
Proof.
  intros [H1 H0 H2 H3 H4 H5 H6 H7 H8] Hp Hpm Hc Hm Hi. assert (forall n, n ∈ guarded_csrs -> csr h' n = csr h n) as Hc' by done.
  split; try done.
  - rewrite Hc by in_list. done.
  - rewrite Hc by in_list. done.
  - rewrite !Hc by in_list. done.
  - eapply mem_ready_same; [|exact H4]. unfold same_tables, view. simpl. rewrite !Hc by in_list. by rewrite Hpm.
  - intros n Hn. rewrite Hc by (apply (list_subseteq_guard _ _ Hn); in_list). by apply H6.
  - intros n Hn. rewrite Hc by (apply (list_subseteq_guard _ _ Hn); in_list). by apply H7.
  - intros i e. destruct Hi as [-> | ->]; [apply H8|by rewrite lookup_empty].
Qed.

Lemma hart_set_csr h n v : hart_ok h -> n ∉ guarded_csrs -> hart_ok (set_csr h n v).
Proof.
  intros Hh Hn. apply (hart_same_csrs h); try apply Hh; [done| |by left]. intros m Hm. apply csr_set_ne. by intros ->.
Qed.

Lemma pc_land_mask p m : pc_ok p -> pc_ok (p .& u64 (Z.lnot m)).
Proof.
  intros [Hr Hp]. pose proof (land_le_r (u64 (Z.lnot m)) p ltac:(lia)) as H. rewrite Z.land_comm in H. split; [lia|].
  rewrite Zmod_odd in *. rewrite <- Z.bit0_odd in *. rewrite Z.land_spec. destruct (Z.testbit p 0); done.
Qed.

Lemma hart_epc_write h n v : hart_ok h -> n ∈ [MEPC; SEPC; VSEPC; DPC] -> 0 <= v < 2 ^ 64 -> hart_ok (epc_write h n v).
Proof.
  intros [H1 H0 H2 H3 H4 H5 H6 H7 H8] Hn Hv. assert (forall m, m ∉ [MEPC; SEPC; VSEPC; DPC] -> csr (epc_write h n v) m = csr h m) as Hc.
  { intros m Hm. unfold epc_write. apply csr_set_ne. by intros ->. }
  split; try done.
  - rewrite Hc by in_list. done.
  - rewrite Hc by in_list. done.
  - rewrite !Hc by in_list. done.
  - eapply mem_ready_same; [|exact H4]. unfold same_tables, view. cbn [hart_xlen satp vsatp hgatp pmp]. rewrite !Hc by in_list. done.
  - intros m Hm. rewrite Hc; [by apply H6|]. cases_in Hm; in_list.
  - intros m Hm. unfold epc_write. rewrite csr_set. destruct (decide _); [by apply pc_clear|by apply H7].
Qed.

Lemma hart_flush_icache h : hart_ok h -> hart_ok (flush_icache h).
Proof. intros Hh. apply (hart_same_csrs h); try done; [apply Hh|apply Hh|auto]. Qed.

Lemma hart_flush_tlb h : hart_ok h -> hart_ok (flush_tlb h).
Proof. intros Hh. apply (hart_same_csrs h); try done; [apply Hh|apply mem_flush_inv, Hh|by right]. Qed.

Lemma legalize_modes p : 0 <= p < 4 -> is_mode (legalize_privilege isa p).
Proof.
  intros Hp. unfold is_mode, legalize_privilege, PRV_HS, PRV_U, PRV_S, PRV_M. destruct (negb _); [by right; right|]. destruct (Z.eqb_spec p (1 + 1)); simpl; [by left|].
  destruct ((p =? 1) && _) eqn:E; [by left|]. assert (p = 0 \/ p = 1 \/ p = 3) by lia. tauto.
Qed.

Lemma hart_set_privilege h p v : hart_ok h -> 0 <= p < 4 -> hart_ok (set_privilege isa h p v).
Proof.
  intros Hh Hp. pose proof (hart_flush_tlb h Hh) as Hf. apply (hart_same_csrs _ _ Hf); [by apply legalize_modes|done|done|apply Hf|by left].
Qed.

Lemma hart_maybe_flush h o v : hart_ok h -> hart_ok (maybe_flush_tlb isa h o v).
Proof. intros Hh. unfold maybe_flush_tlb. destruct (nz _); [by apply hart_flush_tlb|done]. Qed.

Lemma csr_maybe_flush h o v : csr (maybe_flush_tlb isa h o v) = csr h.
Proof. unfold maybe_flush_tlb. by destruct (nz _). Qed.

Ltac not_guarded := in_list.

(** A bit of [mstatus] after a write, but for those that summarise others. *)
Definition mstatus_bit h (v i : Z) : bool :=
  if i =? 11 then Z.testbit (legalize_privilege isa (field v MSTATUS_MPP)) 0
  else if i =? 12 then Z.testbit (legalize_privilege isa (field v MSTATUS_MPP)) 1
  else if Z.testbit (mstatus_write_mask isa) i then Z.testbit v i else Z.testbit (csr h MSTATUS) i.

Lemma sd_place : sd_bit isa = 2 ^ 63 \/ sd_bit isa = 2 ^ 31.
Proof. unfold sd_bit. case_match; auto. Qed.

Lemma adjust_sd_bit v i : 0 <= i < 64 -> i <> 31 -> i <> 63 -> Z.testbit (adjust_sd isa v) i = Z.testbit v i.
Proof.
  intros Hi H1 H2. unfold adjust_sd. assert (Z.testbit (sd_bit isa) i = false) as Hs by (destruct sd_place as [-> | ->]; by apply Z.pow2_bits_false).
  case_match; [rewrite Z.lor_spec|rewrite Z.land_spec, u64_lnot_bit by done]; rewrite Hs; [by rewrite orb_false_r|by rewrite andb_true_r].
Qed.

Lemma mstatus_mask_mpp i : i = 11 \/ i = 12 -> Z.testbit (mstatus_write_mask isa) i = true.
Proof.
  intros Hi. unfold mstatus_write_mask. rewrite !Z.lor_spec. assert (Z.testbit MSTATUS_MPP i = true) as -> by by destruct Hi as [-> | ->].
  by rewrite orb_true_r.
Qed.

Lemma mpp_range s : 0 <= field s MSTATUS_MPP < 4.
Proof. rewrite field_mpp. pose proof (b2z_range (Z.testbit s 11)). pose proof (b2z_range (Z.testbit s 12)). lia. Qed.

Lemma mode_range p : is_mode p -> 0 <= p < 4.
Proof. unfold is_mode, PRV_U, PRV_S, PRV_M. lia. Qed.

Lemma mstatus_write_bit h v i : 0 <= i < 64 -> i <> 31 -> i <> 63 -> Z.testbit (csr (mstatus_write isa h v) MSTATUS) i = mstatus_bit h v i.
Proof.
  intros Hi H1 H2. unfold mstatus_write. rewrite csr_set_eq, adjust_sd_bit, merge_spec by done. unfold mstatus_bit.
  pose proof (mode_range _ (legalize_modes _ (mpp_range v))) as Hr. rewrite set_mpp_spec by done.
  destruct (Z.eqb_spec i 11) as [->|]; [by rewrite mstatus_mask_mpp by lia|]. destruct (Z.eqb_spec i 12) as [->|]; [by rewrite mstatus_mask_mpp by lia|]. done.
Qed.

Lemma mstatus_write_mpp h v : field (csr (mstatus_write isa h v) MSTATUS) MSTATUS_MPP = legalize_privilege isa (field v MSTATUS_MPP).
Proof.
  rewrite field_mpp, !mstatus_write_bit by lia. unfold mstatus_bit. simpl. destruct (legalize_modes _ (mpp_range v)) as [-> | [-> | ->]]; done.
Qed.

Lemma hart_mstatus_write h v : hart_ok h -> hart_ok (mstatus_write isa h v).
Proof.
  intros Hh. pose proof (mstatus_write_mpp h v) as Hm. unfold mstatus_write in *. cbv zeta in *.
  match goal with |- hart_ok (set_csr (maybe_flush_tlb isa h ?o ?n) _ _) => set (h1 := maybe_flush_tlb isa h o n) in *; pose proof (hart_maybe_flush h o n Hh : hart_ok h1) as Hf end.
  revert Hm. set (h2 := set_csr h1 MSTATUS _). intros Hm. assert (forall n, n <> MSTATUS -> csr h2 n = csr h1 n) as Hc by (intros n Hn; by apply csr_set_ne).
  destruct Hf as [H1 H0 H2 H3 H4 H5 H6 H7 H8]. split; try done; rewrite ?Hc by done; try done.
  - rewrite Hm. apply legalize_modes, mpp_range.
  - eapply mem_ready_same; [|exact H4]. unfold same_tables, view. cbn [hart_xlen satp vsatp hgatp pmp]. by rewrite !Hc.
  - intros n Hn. rewrite Hc; [by apply H6|]. cases_in Hn; done.
  - intros n Hn. rewrite Hc; [by apply H7|]. cases_in Hn; done.
Qed.

Lemma hart_vsstatus_write h v : hart_ok h -> hart_ok (vsstatus_write isa h v).
Proof. intros Hh. unfold vsstatus_write. apply hart_set_csr; [|not_guarded]. destruct (st_v h); [by apply hart_maybe_flush|done]. Qed.

Lemma hart_sstatus_write h v : hart_ok h -> hart_ok (sstatus_write isa h v).
Proof. intros Hh. unfold sstatus_write. destruct (st_v h); [by apply hart_vsstatus_write|by apply hart_mstatus_write]. Qed.

Lemma hart_hstatus_write h v : hart_ok h -> hart_ok (hstatus_write isa h v).
Proof. intros Hh. unfold hstatus_write. apply hart_set_csr; [done|not_guarded]. Qed.

Lemma hart_set_debug h b d : hart_ok h -> hart_ok (set_debug h b d).
Proof. intros Hh. apply (hart_same_csrs h); try done; [apply Hh|apply Hh|auto]. Qed.

Lemma prv_range h : hart_ok h -> 0 <= st_prv h < 4.
Proof. intros [H _ _ _ _ _ _ _ _]. unfold is_mode, PRV_U, PRV_S, PRV_M in H. lia. Qed.

Lemma tvec_even tvec i bit : pc_ok (tvec_target tvec i bit) \/ ~ 0 <= tvec < 2 ^ 64.
Proof.
  destruct (decide (0 <= tvec < 2 ^ 64)) as [Hr|]; [left|by right]. unfold tvec_target. apply pc_u64. rewrite Zplus_mod. destruct (pc_clear tvec Hr) as [_ ->].
  destruct (nz _ && i); [|done]. change 4 with (2 * 2). rewrite <- Z.mul_assoc, Z.mul_comm, Z_mod_mult. done.
Qed.

(** ** Traps and returns keep the invariant *)

Lemma tvec_pc h n i bit : hart_ok h -> n ∈ [MTVEC; STVEC; VSTVEC] -> pc_ok (tvec_target (csr h n) i bit).
Proof. intros Hh Hn. destruct (tvec_even (csr h n) i bit) as [?|[]]; [done|]. by apply (hart_vectors _ Hh). Qed.

Lemma bit_range s k : 0 <= k < 63 -> 0 <= field s (2 ^ k) < 4.
Proof. intros Hk. rewrite field_bit by done. pose proof (b2z_range (Z.testbit s k)). lia. Qed.

Ltac hart_keep := repeat (cbv beta iota; lazymatch goal with
  | |- hart_ok (set_privilege _ _ _ _) => apply hart_set_privilege; [|unfold PRV_M, PRV_S; lia]
  | |- hart_ok (mstatus_write _ _ _) => apply hart_mstatus_write
  | |- hart_ok (vsstatus_write _ _ _) => apply hart_vsstatus_write
  | |- hart_ok (sstatus_write _ _ _) => apply hart_sstatus_write
  | |- hart_ok (hstatus_write _ _ _) => apply hart_hstatus_write
  | |- hart_ok (epc_write _ _ _) => apply hart_epc_write; [|in_list|lia]
  | |- hart_ok (set_csr _ _ _) => apply hart_set_csr; [|in_list]
  | |- _ => assumption
  end).

Definition hart_pc_ok (r : hart D * Z) : Prop := hart_ok r.1 /\ pc_ok r.2.

Lemma trap_to_vs_ok h t epc i bit : hart_ok h -> pc_ok epc -> hart_pc_ok (trap_to_vs isa h t epc i bit).
Proof.
  intros Hh [Hr _]. unfold trap_to_vs. cbv zeta. split; cbn [fst snd]; [hart_keep|]. apply tvec_pc; [done|in_list].
Qed.

Lemma trap_to_hs_ok h t epc i bit : hart_ok h -> pc_ok epc -> hart_pc_ok (trap_to_hs isa h t epc i bit).
Proof.
  intros Hh [Hr _]. unfold trap_to_hs. cbv zeta. split; cbn [fst snd]; [|apply tvec_pc; [done|in_list]].
  destruct (extension_enabled isa EXT_H); unfold sstatus_proxy_write; hart_keep.
Qed.

Lemma trap_to_m_ok h t epc i bit : hart_ok h -> pc_ok epc -> hart_pc_ok (trap_to_m isa h t epc i bit).
Proof.
  intros Hh [Hr _]. unfold trap_to_m. cbv zeta. split; cbn [fst snd].
  - destruct (max_xlen isa =? 32); unfold mstatus_write_high; hart_keep.
  - destruct (nmie isa h); [apply tvec_pc; [done|in_list]|done].
Qed.

Lemma take_trap_ok h t epc : hart_ok h -> pc_ok epc -> hart_pc_ok (take_trap isa h t epc).
Proof.
  intros Hh He. unfold take_trap. destruct (st_debug_mode h); [by case_match|]. destruct (delegation _ _ _) as [vs hs].
  cbv zeta. destruct (_ && _ && nz ((vs .>> _) .& 1)); [by apply trap_to_vs_ok|]. destruct (_ && _ && nz ((hs .>> _) .& 1)); [by apply trap_to_hs_ok|by apply trap_to_m_ok].
Qed.

Lemma enter_debug_ok h p c : hart_ok h -> pc_ok p -> hart_pc_ok (enter_debug_mode isa h p c).
Proof. intros Hh [Hr _]. unfold enter_debug_mode. cbv zeta. split; cbn [fst snd]; [|done]. hart_keep. by apply hart_set_debug. Qed.

Lemma epc_pc h n : hart_ok h -> n ∈ [MEPC; SEPC; VSEPC; DPC] -> pc_ok (epc_read isa h n .& pc_alignment_mask isa).
Proof.
  intros Hh Hn. unfold epc_read, pc_alignment_mask. do 2 apply pc_land_mask. by apply (hart_epcs _ Hh).
Qed.

Lemma mret_ok h b h' p : hart_ok h -> mret isa h b = inr (h', p) -> hart_ok h' /\ pc_ok p.
Proof.
  intros Hh. unfold mret. destruct (negb _); [done|]. cbv zeta. intros [= <- <-]. split; [|apply epc_pc; [done|in_list]].
  apply hart_set_privilege; [|apply mpp_range]. unfold put_csr_mstatus, mstatus_write_low. destruct (max_xlen isa =? 32); hart_keep.
Qed.

Lemma sret_ok h b h' p : hart_ok h -> sret isa h b = inr (h', p) -> hart_ok h' /\ pc_ok p.
Proof.
  intros Hh. unfold sret. destruct (sret_refused isa h b); [done|]. cbv zeta.
  assert (0 <= field (sstatus_read isa h) MSTATUS_SPP < 4) as Hp by exact (bit_range _ 8 ltac:(lia)).
  assert (pc_ok ((if st_v h then epc_read isa h VSEPC else epc_read isa h SEPC) .& pc_alignment_mask isa)) as Hpc by (destruct (st_v h); apply epc_pc; done || in_list).
  set (h1 := sstatus_write isa h _). assert (hart_ok h1) as H1 by (unfold h1; hart_keep). destruct (st_v h1) eqn:Ev.
  - intros [= <- <-]. split; [by apply hart_set_privilege|done].
  - destruct (extension_enabled isa EXT_H); intros [= <- <-]; (split; [|done]); apply hart_set_privilege; try done; hart_keep.
Qed.

(** ** What the writes leave alone *)

(** Only the status registers are written. *)
Lemma mstatus_write_frame h v n : n <> MSTATUS -> csr (mstatus_write isa h v) n = csr h n.
Proof. intros Hn. unfold mstatus_write. rewrite csr_set_ne by done. by rewrite csr_maybe_flush. Qed.

Lemma vsstatus_write_frame h v n : n <> VSSTATUS -> csr (vsstatus_write isa h v) n = csr h n.
Proof. intros Hn. unfold vsstatus_write. rewrite csr_set_ne by done. destruct (st_v h); [by rewrite csr_maybe_flush|done]. Qed.

Lemma sstatus_write_frame h v n : n <> MSTATUS -> n <> VSSTATUS -> csr (sstatus_write isa h v) n = csr h n.
Proof. intros H1 H2. unfold sstatus_write. destruct (st_v h); [by apply vsstatus_write_frame|by apply mstatus_write_frame]. Qed.

Lemma hstatus_write_frame h v n : n <> HSTATUS -> csr (hstatus_write isa h v) n = csr h n.
Proof. intros Hn. unfold hstatus_write. by rewrite csr_set_ne. Qed.

Lemma set_privilege_csr h p v : csr (set_privilege isa h p v) = csr h.
Proof. done. Qed.

(** ** Interrupts *)

Lemma enabled_masked h p : exists m, enabled_interrupts isa h p = p .& m.
Proof.
  unfold enabled_interrupts. cbv zeta. set (m1 := if _ || _ then p .& _ else 0). assert (exists m, m1 = p .& m) as H1 by (unfold m1; destruct (_ || _); eexists; [done|symmetry; apply Z.land_0_r]).
  destruct (negb (m1 =? 0)); [done|]. set (m2 := if _ || _ || _ then p .& _ else 0).
  assert (exists m, m2 = p .& m) as H2 by (unfold m2; destruct (_ || _ || _); eexists; [done|symmetry; apply Z.land_0_r]).
  destruct (st_v h && (m2 =? 0)); [|done]. destruct ((st_prv h <? PRV_S) || _); eexists; [done|symmetry; apply Z.land_0_r].
Qed.

Lemma take_pending_total h : hart_ok h -> exists r, take_pending_interrupt isa h = Some r.
Proof.
  intros Hh. unfold take_pending_interrupt, take_interrupt. cbv zeta. set (p := csr h MIP .& csr h MIE). destruct (p =? 0); [by eexists|].
  destruct (negb (st_debug_mode h) && nmie isa h); cbn [andb]; [|by eexists]. destruct (nz (enabled_interrupts isa h p)) eqn:En; [|by eexists].
  apply nz_true in En. destruct (enabled_masked h p) as [m Em]. destruct (hart_ints _ Hh) as [Hie _]. pose proof (hart_mie _ Hh) as Hu.
  destruct (interrupt_selected (enabled_interrupts isa h p)) as (c & i & -> & _); [|..|by eexists]; rewrite Em in *; unfold p in *.
  - pose proof (land_le_r (csr h MIP .& m) (csr h MIE) ltac:(lia)) as Hr. rewrite <- Z.land_assoc, (Z.land_comm (csr h MIE) m), Z.land_assoc. lia.
  - rewrite <- Z.land_assoc, (Z.land_comm m), Z.land_assoc, <- (Z.land_assoc (csr h MIP)), Hu, Z.land_0_r. done.
  - done.
Qed.
End Hart.
