(* ===== verification/Isa.v ===== *)
(** * Spike: the integer instructions

    Model of the instructions of RV32I, RV64I, their M, Zca and Zcb extensions
    ([src/riscv-isa-sim/riscv/insns/*.h]) with the macros of [decode_macros.h] and the
    functions [insn_template.cc] makes of them.  The branches and [ebreak] report to
    the statistics of [BranchStats]; loads and stores go through [Memory]. *)

From stdpp Require Import base option list gmap.
From S2P Require Import Prelude.
From S2P Require Import Arith.
From S2P Require Import Pmp.
From S2P Require Import Devices.
From S2P Require Import Mmu.
From S2P Require Import BranchStats.
From S2P Require Import Decode.
From S2P Require Import Memory.
From S2P Require Import Csrs.

Definition X_RA : Z := 1.
Definition X_SP : Z := 2.

(** What ends an instruction: a value, a trap, the trap into debug mode, an [abort] or
    an undefined access, or that the instruction is not modelled. *)
Inductive outcome (A : Type) : Type := Done (a : A) | Raise (t : trap_t) | RaiseDebug | Stuck | Unmodelled.
Arguments Done {A} a.
Arguments Raise {A} t.
Arguments RaiseDebug {A}.
Arguments Stuck {A}.
Arguments Unmodelled {A}.

Section Isa.
Context (isa : isa_t) {D : Type} `{Memory D} {Pp Tp : Type} `{!BranchPredictor Pp} `{!BranchPredictor Tp}.

(** The processor: the integer registers, the privileged state, the decoder and the
    branch statistics. *)
Record state_t : Type := State {
  pc : Z;
  XPR : list Z;
  cpu : hart D;
  decode_tables : decoder opcode;
  stats : processor_t Pp Tp
}.

Definition X (A : Type) : Type := state_t -> outcome A * state_t.

Definition ret {A} (a : A) : X A := fun s => (Done a, s).
Definition throw {A} (t : trap_t) : X A := fun s => (Raise t, s).
Definition stuck {A} : X A := fun s => (Stuck, s).
Definition unmodelled {A} : X A := fun s => (Unmodelled, s).
Definition bind {A B} (m : X A) (f : A -> X B) : X B := fun s =>
  match m s with
  | (Done a, s) => f a s
  | (Raise t, s) => (Raise t, s)
  | (RaiseDebug, s) => (RaiseDebug, s)
  | (Stuck, s) => (Stuck, s)
  | (Unmodelled, s) => (Unmodelled, s)
  end.

Local Notation "x <-- m ; f" := (bind m (fun x => f)) (at level 100, m at next level, f at level 200, right associativity).
Local Notation "m ;; f" := (bind m (fun _ => f)) (at level 100, f at level 200, right associativity).

Definition set_pc_reg (s : state_t) (p : Z) : state_t := State p (XPR s) (cpu s) (decode_tables s) (stats s).
Definition set_XPR (s : state_t) (l : list Z) : state_t := State (pc s) l (cpu s) (decode_tables s) (stats s).
Definition set_cpu (s : state_t) (h : hart D) : state_t := State (pc s) (XPR s) h (decode_tables s) (stats s).
Definition set_decoder (s : state_t) (d : decoder opcode) : state_t := State (pc s) (XPR s) (cpu s) d (stats s).
Definition set_stats (s : state_t) (p : processor_t Pp Tp) : state_t := State (pc s) (XPR s) (cpu s) (decode_tables s) p.

Definition get {A} (f : state_t -> A) : X A := fun s => (Done (f s), s).

(** ** The macros *)

Definition xlen : Z := max_xlen isa.
Definition ext (e : isa_extension_t) : bool := extension_enabled isa e.

Definition sext_xlen (v : Z) : Z := s64 (v .<< (64 - xlen)) .>> (64 - xlen).
Definition zext_xlen (v : Z) : Z := u64 (v .<< (64 - xlen)) .>> (64 - xlen).
Definition sext32 (v : Z) : Z := s32 v.
Definition zext32 (v : Z) : Z := u32 v.

Definition require (b : Z) (c : bool) : X unit := if c then ret tt else throw (trap_illegal_instruction b).
Definition require_extension (b : Z) (e : isa_extension_t) : X unit := require b (ext e).
Definition require_either_extension (b : Z) (e1 e2 : isa_extension_t) : X unit := require b (ext e1 || ext e2).
Definition require_rv64 (b : Z) : X unit := require b (xlen =? 64).

(** The functions for E have a [CHECK_REG] that tests the register. *)
Definition CHECK_REG (b reg : Z) : X unit := if ext EXT_E then require b (reg <? 16) else ret tt.

Definition READ_REG (b reg : Z) : X Z :=
  CHECK_REG b reg ;; fun s => match XPR s !! Z.to_nat reg with Some v => (Done v, s) | None => (Stuck, s) end.

(** [regfile_t::write]. *)
Definition regfile_write (l : list Z) (i value : Z) : list Z := if i =? 0 then l else <[Z.to_nat i := value]> l.

Definition WRITE_REG (b reg value : Z) : X unit :=
  CHECK_REG b reg ;; fun s => (Done tt, set_XPR s (regfile_write (XPR s) reg (u64 value))).

Definition RS1 (b : Z) : X Z := READ_REG b (rs1 b).
Definition RS2 (b : Z) : X Z := READ_REG b (rs2 b).
Definition WRITE_RD (b value : Z) : X unit := WRITE_REG b (rd b) value.
Definition RVC_RS1 (b : Z) : X Z := READ_REG b (rvc_rs1 b).
Definition RVC_RS2 (b : Z) : X Z := READ_REG b (rvc_rs2 b).
Definition RVC_RS1S (b : Z) : X Z := READ_REG b (rvc_rs1s b).
Definition RVC_RS2S (b : Z) : X Z := READ_REG b (rvc_rs2s b).
Definition RVC_SP (b : Z) : X Z := READ_REG b X_SP.
Definition WRITE_RVC_RS1S (b value : Z) : X unit := WRITE_REG b (rvc_rs1s b) value.
Definition WRITE_RVC_RS2S (b value : Z) : X unit := WRITE_REG b (rvc_rs2s b) value.
Definition SHAMT (b : Z) : Z := i_imm b .& 0x3F.

Definition check_pc_alignment (p : Z) : X unit := fun s =>
  if nz (p .& u64 (Z.lnot (pc_alignment_mask isa))) then (Raise (trap_instruction_address_misaligned (st_v (cpu s)) p), s) else (Done tt, s).

(** [set_pc]: the new [npc]. *)
Definition set_pc (p : Z) : X Z := check_pc_alignment p ;; ret (u64 (sext_xlen p)).

(** [MMU.load] and [MMU.store] at types of [len] bytes; the value is unsigned. *)
Definition of_memory {A} (f : hart_t -> D -> result A * D) : X A := fun s =>
  let '(r, d) := f (view isa (cpu s)) (port (cpu s)) in
  let s := set_cpu s (set_port (cpu s) d) in
  match r with Ok a => (Done a, s) | Throw t => (Raise (mem_trap t), s) | Undef => (Stuck, s) end.
Definition MMU_load (addr len : Z) : X Z := of_memory (fun h d => mem_load h d (u64 addr) len).
Definition MMU_store (addr len v : Z) : X unit := of_memory (fun h d => mem_store h d (u64 addr) len (uwrap (8 * len) v)).

(** ** The calls to the processor *)

Definition note_branch (p : Z) (taken : bool) : X unit := fun s =>
  match note_conditional_branch (stats s) p taken with Some q => (Done tt, set_stats s q) | None => (Stuck, s) end.

(** [handle_roi_ebreak] reads [a0] and the counter of retired instructions. *)
Definition roi_ebreak : X bool := fun s =>
  match XPR s !! 10%nat with
  | Some marker => let '(b, q) := handle_roi_ebreak (stats s) marker (csr (cpu s) MINSTRET) in (Done b, set_stats s q)
  | None => (Stuck, s)
  end.

(** ** The instructions

    Each takes the word, its address and the address of the next instruction, and
    gives the address to go on at. *)

Definition plain (npc : Z) (m : X unit) : X Z := m ;; ret npc.

Definition insn_lui (b pc npc : Z) : X Z :=
  plain npc (WRITE_RD b (u_imm b)).
Definition insn_auipc (b pc npc : Z) : X Z :=
  plain npc (WRITE_RD b (sext_xlen (u_imm b + pc))).
Definition insn_jal (b pc npc : Z) : X Z :=
  new <-- set_pc (u64 (pc + uj_imm b)) ; plain new (WRITE_RD b npc).
Definition insn_jalr (b pc npc : Z) : X Z :=
  x1 <-- RS1 b ; new <-- set_pc (u64 (x1 + i_imm b) .& u64 (Z.lnot 1)) ; plain new (WRITE_RD b npc).

Definition branch (pc npc target : Z) (taken : bool) : X Z := note_branch pc taken ;; if taken then set_pc (u64 target) else ret npc.

Definition insn_beq (b pc npc : Z) : X Z :=
  x1 <-- RS1 b ; x2 <-- RS2 b ; branch pc npc (pc + sb_imm b) (x1 =? x2).
Definition insn_bne (b pc npc : Z) : X Z :=
  x1 <-- RS1 b ; x2 <-- RS2 b ; branch pc npc (pc + sb_imm b) (negb (x1 =? x2)).
Definition insn_blt (b pc npc : Z) : X Z :=
  x1 <-- RS1 b ; x2 <-- RS2 b ; branch pc npc (pc + sb_imm b) (s64 x1 <? s64 x2).
Definition insn_bge (b pc npc : Z) : X Z :=
  x1 <-- RS1 b ; x2 <-- RS2 b ; branch pc npc (pc + sb_imm b) (s64 x2 <=? s64 x1).
Definition insn_bltu (b pc npc : Z) : X Z :=
  x1 <-- RS1 b ; x2 <-- RS2 b ; branch pc npc (pc + sb_imm b) (x1 <? x2).
Definition insn_bgeu (b pc npc : Z) : X Z :=
  x1 <-- RS1 b ; x2 <-- RS2 b ; branch pc npc (pc + sb_imm b) (x2 <=? x1).

Definition insn_lb (b pc npc : Z) : X Z :=
  x1 <-- RS1 b ; v <-- MMU_load (x1 + i_imm b) 1 ; plain npc (WRITE_RD b (s8 v)).
Definition insn_lh (b pc npc : Z) : X Z :=
  x1 <-- RS1 b ; v <-- MMU_load (x1 + i_imm b) 2 ; plain npc (WRITE_RD b (s16 v)).
Definition insn_lw (b pc npc : Z) : X Z :=
  x1 <-- RS1 b ; v <-- MMU_load (x1 + i_imm b) 4 ; plain npc (WRITE_RD b (s32 v)).
Definition insn_lbu (b pc npc : Z) : X Z :=
  x1 <-- RS1 b ; v <-- MMU_load (x1 + i_imm b) 1 ; plain npc (WRITE_RD b v).
Definition insn_lhu (b pc npc : Z) : X Z :=
  x1 <-- RS1 b ; v <-- MMU_load (x1 + i_imm b) 2 ; plain npc (WRITE_RD b v).
Definition insn_lwu (b pc npc : Z) : X Z :=
  require_rv64 b ;; x1 <-- RS1 b ; v <-- MMU_load (x1 + i_imm b) 4 ; plain npc (WRITE_RD b v).
Definition insn_ld (b pc npc : Z) : X Z :=
  require_rv64 b ;; x1 <-- RS1 b ; v <-- MMU_load (x1 + i_imm b) 8 ; plain npc (WRITE_RD b (s64 v)).
Definition insn_sb (b pc npc : Z) : X Z :=
  x1 <-- RS1 b ; x2 <-- RS2 b ; plain npc (MMU_store (x1 + s_imm b) 1 x2).
Definition insn_sh (b pc npc : Z) : X Z :=
  x1 <-- RS1 b ; x2 <-- RS2 b ; plain npc (MMU_store (x1 + s_imm b) 2 x2).
Definition insn_sw (b pc npc : Z) : X Z :=
  x1 <-- RS1 b ; x2 <-- RS2 b ; plain npc (MMU_store (x1 + s_imm b) 4 x2).
Definition insn_sd (b pc npc : Z) : X Z :=
  require_rv64 b ;; x1 <-- RS1 b ; x2 <-- RS2 b ; plain npc (MMU_store (x1 + s_imm b) 8 x2).

Definition insn_addi (b pc npc : Z) : X Z :=
  x1 <-- RS1 b ; plain npc (WRITE_RD b (sext_xlen (x1 + i_imm b))).
Definition insn_slti (b pc npc : Z) : X Z :=
  x1 <-- RS1 b ; plain npc (WRITE_RD b (b2z (s64 x1 <? i_imm b))).
Definition insn_sltiu (b pc npc : Z) : X Z :=
  x1 <-- RS1 b ; plain npc (WRITE_RD b (b2z (x1 <? u64 (i_imm b)))).
Definition insn_xori (b pc npc : Z) : X Z :=
  x1 <-- RS1 b ; plain npc (WRITE_RD b (i_imm b .^ x1)).
Definition insn_ori (b pc npc : Z) : X Z :=
  x1 <-- RS1 b ; plain npc (WRITE_RD b (i_imm b .| x1)).
Definition insn_andi (b pc npc : Z) : X Z :=
  x1 <-- RS1 b ; plain npc (WRITE_RD b (i_imm b .& x1)).

Definition SHAMT_ok (b : Z) : X unit := require b (SHAMT b <? xlen).

Definition insn_slli (b pc npc : Z) : X Z :=
  SHAMT_ok b ;; x1 <-- RS1 b ; plain npc (WRITE_RD b (sext_xlen (x1 .<< SHAMT b))).
Definition insn_srli (b pc npc : Z) : X Z :=
  SHAMT_ok b ;; x1 <-- RS1 b ; plain npc (WRITE_RD b (sext_xlen (zext_xlen x1 .>> SHAMT b))).
Definition insn_srai (b pc npc : Z) : X Z :=
  SHAMT_ok b ;; x1 <-- RS1 b ; plain npc (WRITE_RD b (sext_xlen (sext_xlen x1 .>> SHAMT b))).

Definition insn_add (b pc npc : Z) : X Z :=
  x1 <-- RS1 b ; x2 <-- RS2 b ; plain npc (WRITE_RD b (sext_xlen (x1 + x2))).
Definition insn_sub (b pc npc : Z) : X Z :=
  x1 <-- RS1 b ; x2 <-- RS2 b ; plain npc (WRITE_RD b (sext_xlen (x1 - x2))).
Definition insn_sll (b pc npc : Z) : X Z :=
  x1 <-- RS1 b ; x2 <-- RS2 b ; plain npc (WRITE_RD b (sext_xlen (x1 .<< (x2 .& (xlen - 1))))).
Definition insn_slt (b pc npc : Z) : X Z :=
  x1 <-- RS1 b ; x2 <-- RS2 b ; plain npc (WRITE_RD b (b2z (s64 x1 <? s64 x2))).
Definition insn_sltu (b pc npc : Z) : X Z :=
  x1 <-- RS1 b ; x2 <-- RS2 b ; plain npc (WRITE_RD b (b2z (x1 <? x2))).
Definition insn_xor (b pc npc : Z) : X Z :=
  x1 <-- RS1 b ; x2 <-- RS2 b ; plain npc (WRITE_RD b (x1 .^ x2)).
Definition insn_srl (b pc npc : Z) : X Z :=
  x1 <-- RS1 b ; x2 <-- RS2 b ; plain npc (WRITE_RD b (sext_xlen (zext_xlen x1 .>> (x2 .& (xlen - 1))))).
Definition insn_sra (b pc npc : Z) : X Z :=
  x1 <-- RS1 b ; x2 <-- RS2 b ; plain npc (WRITE_RD b (sext_xlen (sext_xlen x1 .>> (x2 .& (xlen - 1))))).
Definition insn_or (b pc npc : Z) : X Z :=
  x1 <-- RS1 b ; x2 <-- RS2 b ; plain npc (WRITE_RD b (x1 .| x2)).
Definition insn_and (b pc npc : Z) : X Z :=
  x1 <-- RS1 b ; x2 <-- RS2 b ; plain npc (WRITE_RD b (x1 .& x2)).

Definition insn_addiw (b pc npc : Z) : X Z :=
  require_rv64 b ;; x1 <-- RS1 b ; plain npc (WRITE_RD b (sext32 (i_imm b + x1))).
Definition insn_slliw (b pc npc : Z) : X Z :=
  require_rv64 b ;; x1 <-- RS1 b ; plain npc (WRITE_RD b (sext32 (x1 .<< SHAMT b))).
Definition insn_srliw (b pc npc : Z) : X Z :=
  require_rv64 b ;; x1 <-- RS1 b ; plain npc (WRITE_RD b (sext32 (u32 x1 .>> SHAMT b))).
Definition insn_sraiw (b pc npc : Z) : X Z :=
  require_rv64 b ;; x1 <-- RS1 b ; plain npc (WRITE_RD b (sext32 (s32 x1 .>> SHAMT b))).
Definition insn_addw (b pc npc : Z) : X Z :=
  require_rv64 b ;; x1 <-- RS1 b ; x2 <-- RS2 b ; plain npc (WRITE_RD b (sext32 (x1 + x2))).
Definition insn_subw (b pc npc : Z) : X Z :=
  require_rv64 b ;; x1 <-- RS1 b ; x2 <-- RS2 b ; plain npc (WRITE_RD b (sext32 (x1 - x2))).
Definition insn_sllw (b pc npc : Z) : X Z :=
  require_rv64 b ;; x1 <-- RS1 b ; x2 <-- RS2 b ; plain npc (WRITE_RD b (sext32 (x1 .<< (x2 .& 0x1F)))).
Definition insn_srlw (b pc npc : Z) : X Z :=
  require_rv64 b ;; x1 <-- RS1 b ; x2 <-- RS2 b ; plain npc (WRITE_RD b (sext32 (u32 x1 .>> (x2 .& 0x1F)))).
Definition insn_sraw (b pc npc : Z) : X Z :=
  require_rv64 b ;; x1 <-- RS1 b ; x2 <-- RS2 b ; plain npc (WRITE_RD b (sext32 (s32 x1 .>> (x2 .& 0x1F)))).

Definition insn_fence (b pc npc : Z) : X Z := ret npc.
Definition insn_fence_i (b pc npc : Z) : X Z := fun s => (Done npc, set_cpu s (flush_icache (cpu s))).

Definition insn_ecall (b pc npc : Z) : X Z :=
  prv <-- get (fun s => st_prv (cpu s)) ;
  v <-- get (fun s => st_v (cpu s)) ;
  if prv =? PRV_U then throw (plain_trap CAUSE_USER_ECALL)
  else if prv =? PRV_S then throw (plain_trap (if v : bool then CAUSE_VIRTUAL_SUPERVISOR_ECALL else CAUSE_SUPERVISOR_ECALL))
  else if prv =? PRV_M then throw (plain_trap CAUSE_MACHINE_ECALL)
  else stuck.

(** Whether [dcsr] sends a breakpoint to debug mode. *)
Definition to_debug_mode (h : hart D) : bool :=
  negb (st_debug_mode h) &&
  ((negb (st_v h) && (st_prv h =? PRV_M) && ebreakm (dcsr h)) || (negb (st_v h) && (st_prv h =? PRV_S) && ebreaks (dcsr h)) ||
   (negb (st_v h) && (st_prv h =? PRV_U) && ebreaku (dcsr h)) || (st_v h && (st_prv h =? PRV_S) && ebreakvs (dcsr h)) ||
   (st_v h && (st_prv h =? PRV_U) && ebreakvu (dcsr h))).

(** The common text of [ebreak] and [c_ebreak]. *)
Definition break (pc len : Z) : X Z :=
  handled <-- roi_ebreak ;
  if handled : bool then set_pc (u64 (pc + len)) else
  debug <-- get (fun s => to_debug_mode (cpu s)) ;
  if debug : bool then (fun s => (RaiseDebug, s)) else
  v <-- get (fun s => st_v (cpu s)) ; throw (trap_breakpoint v pc).

Definition insn_ebreak (b pc npc : Z) : X Z := break pc (insn_length (MATCH ebreak_)).

(** [set_pc_and_serialize] leaves the next address in the state. *)
Definition PC_SERIALIZE_BEFORE : Z := 3.
Definition PC_SERIALIZE_AFTER : Z := 5.

Definition returning (r : hart D -> trap_t + (hart D * Z)) : X Z := fun s =>
  match r (cpu s) with
  | inl t => (Raise t, s)
  | inr (h, p) => (Done PC_SERIALIZE_AFTER, set_pc_reg (set_cpu s h) p)
  end.
Definition insn_mret (b pc npc : Z) : X Z := returning (fun h => mret isa h b).
Definition insn_sret (b pc npc : Z) : X Z := returning (fun h => sret isa h b).

(** *** Multiplication and division *)

Definition INT64_MIN : Z := - 2 ^ 63.

Definition insn_mul (b pc npc : Z) : X Z :=
  require_either_extension b EXT_M EXT_ZMMUL ;; x1 <-- RS1 b ; x2 <-- RS2 b ;
  plain npc (WRITE_RD b (sext_xlen (x1 * x2))).
Definition insn_mulh (b pc npc : Z) : X Z :=
  require_either_extension b EXT_M EXT_ZMMUL ;; x1 <-- RS1 b ; x2 <-- RS2 b ;
  plain npc (WRITE_RD b (if xlen =? 64 then mulh (s64 x1) (s64 x2) else sext32 (s64 (sext32 x1 * sext32 x2) .>> 32))).
Definition insn_mulhsu (b pc npc : Z) : X Z :=
  require_either_extension b EXT_M EXT_ZMMUL ;; x1 <-- RS1 b ; x2 <-- RS2 b ;
  plain npc (WRITE_RD b (if xlen =? 64 then mulhsu (s64 x1) x2 else sext32 (u64 (sext32 x1 * u32 x2) .>> 32))).
Definition insn_mulhu (b pc npc : Z) : X Z :=
  require_either_extension b EXT_M EXT_ZMMUL ;; x1 <-- RS1 b ; x2 <-- RS2 b ;
  plain npc (WRITE_RD b (if xlen =? 64 then mulhu x1 x2 else sext32 (u64 (u32 x1 * u32 x2) .>> 32))).

Definition div_signed (lhs rhs : Z) : Z :=
  if rhs =? 0 then UINT64_MAX else if (lhs =? INT64_MIN) && (rhs =? -1) then lhs else sext_xlen (Z.quot lhs rhs).
Definition rem_signed (lhs rhs : Z) : Z :=
  if rhs =? 0 then lhs else if (lhs =? INT64_MIN) && (rhs =? -1) then 0 else sext_xlen (Z.rem lhs rhs).

Definition insn_div (b pc npc : Z) : X Z :=
  require_extension b EXT_M ;; x1 <-- RS1 b ; x2 <-- RS2 b ; plain npc (WRITE_RD b (div_signed (sext_xlen x1) (sext_xlen x2))).
Definition insn_divu (b pc npc : Z) : X Z :=
  require_extension b EXT_M ;; x1 <-- RS1 b ; x2 <-- RS2 b ; plain npc (WRITE_RD b (if zext_xlen x2 =? 0 then UINT64_MAX else sext_xlen (zext_xlen x1 / zext_xlen x2))).
Definition insn_rem (b pc npc : Z) : X Z :=
  require_extension b EXT_M ;; x1 <-- RS1 b ; x2 <-- RS2 b ; plain npc (WRITE_RD b (rem_signed (sext_xlen x1) (sext_xlen x2))).
Definition insn_remu (b pc npc : Z) : X Z :=
  require_extension b EXT_M ;; x1 <-- RS1 b ; x2 <-- RS2 b ; plain npc (WRITE_RD b (if zext_xlen x2 =? 0 then sext_xlen x1 else sext_xlen (zext_xlen x1 mod zext_xlen x2))).
Definition insn_mulw (b pc npc : Z) : X Z :=
  require_either_extension b EXT_M EXT_ZMMUL ;; require_rv64 b ;; x1 <-- RS1 b ; x2 <-- RS2 b ; plain npc (WRITE_RD b (sext32 (x1 * x2))).
Definition insn_divw (b pc npc : Z) : X Z :=
  require_extension b EXT_M ;; require_rv64 b ;; x1 <-- RS1 b ; x2 <-- RS2 b ;
  plain npc (WRITE_RD b (if sext32 x2 =? 0 then UINT64_MAX else sext32 (Z.quot (sext32 x1) (sext32 x2)))).
Definition insn_divuw (b pc npc : Z) : X Z :=
  require_extension b EXT_M ;; require_rv64 b ;; x1 <-- RS1 b ; x2 <-- RS2 b ;
  plain npc (WRITE_RD b (if zext32 x2 =? 0 then UINT64_MAX else sext32 (zext32 x1 / zext32 x2))).
Definition insn_remw (b pc npc : Z) : X Z :=
  require_extension b EXT_M ;; require_rv64 b ;; x1 <-- RS1 b ; x2 <-- RS2 b ;
  plain npc (WRITE_RD b (if sext32 x2 =? 0 then sext32 x1 else sext32 (Z.rem (sext32 x1) (sext32 x2)))).
Definition insn_remuw (b pc npc : Z) : X Z :=
  require_extension b EXT_M ;; require_rv64 b ;; x1 <-- RS1 b ; x2 <-- RS2 b ;
  plain npc (WRITE_RD b (if zext32 x2 =? 0 then sext32 (zext32 x1) else sext32 (zext32 x1 mod zext32 x2))).

(** *** Compressed instructions *)

Definition require_zca (b : Z) : X unit := require_extension b EXT_ZCA.

Definition insn_c_add (b pc npc : Z) : X Z :=
  require_zca b ;; require b (negb (rvc_rs2 b =? 0)) ;; x1 <-- RVC_RS1 b ; x2 <-- RVC_RS2 b ; plain npc (WRITE_RD b (sext_xlen (x1 + x2))).
Definition insn_c_addi (b pc npc : Z) : X Z :=
  require_zca b ;; x1 <-- RVC_RS1 b ; plain npc (WRITE_RD b (sext_xlen (x1 + rvc_imm b))).
Definition insn_c_addi4spn (b pc npc : Z) : X Z :=
  require_zca b ;; require b (negb (rvc_addi4spn_imm b =? 0)) ;; sp <-- RVC_SP b ;
  plain npc (WRITE_RVC_RS2S b (sext_xlen (sp + rvc_addi4spn_imm b))).
Definition insn_c_addw (b pc npc : Z) : X Z :=
  require_zca b ;; require_rv64 b ;; x1 <-- RVC_RS1S b ; x2 <-- RVC_RS2S b ; plain npc (WRITE_RVC_RS1S b (sext32 (x1 + x2))).
Definition insn_c_and (b pc npc : Z) : X Z :=
  require_zca b ;; x1 <-- RVC_RS1S b ; x2 <-- RVC_RS2S b ; plain npc (WRITE_RVC_RS1S b (x1 .& x2)).
Definition insn_c_andi (b pc npc : Z) : X Z :=
  require_zca b ;; x1 <-- RVC_RS1S b ; plain npc (WRITE_RVC_RS1S b (x1 .& rvc_imm b)).
Definition insn_c_beqz (b pc npc : Z) : X Z :=
  require_zca b ;; x1 <-- RVC_RS1S b ; branch pc npc (pc + rvc_b_imm b) (x1 =? 0).
Definition insn_c_bnez (b pc npc : Z) : X Z :=
  require_zca b ;; x1 <-- RVC_RS1S b ; branch pc npc (pc + rvc_b_imm b) (negb (x1 =? 0)).
Definition insn_c_ebreak (b pc npc : Z) : X Z :=
  require_zca b ;; break pc (insn_length (MATCH c_ebreak_)).

(** The floating-point forms of RV32 are not modelled beyond their guard. *)
Definition zcf_guard (b : Z) : X Z := require_extension b EXT_ZCF ;; unmodelled.

Definition insn_c_flw (b pc npc : Z) : X Z :=
  if xlen =? 32 then zcf_guard b else
  require_zca b ;; x1 <-- RVC_RS1S b ; v <-- MMU_load (x1 + rvc_ld_imm b) 8 ; plain npc (WRITE_RVC_RS2S b (s64 v)).
Definition insn_c_flwsp (b pc npc : Z) : X Z :=
  if xlen =? 32 then zcf_guard b else
  require_zca b ;; require b (negb (rvc_rd b =? 0)) ;; sp <-- RVC_SP b ; v <-- MMU_load (sp + rvc_ldsp_imm b) 8 ; plain npc (WRITE_RD b (s64 v)).
Definition insn_c_fsw (b pc npc : Z) : X Z :=
  if xlen =? 32 then zcf_guard b else
  require_zca b ;; x1 <-- RVC_RS1S b ; x2 <-- RVC_RS2S b ; plain npc (MMU_store (x1 + rvc_ld_imm b) 8 x2).
Definition insn_c_fswsp (b pc npc : Z) : X Z :=
  if xlen =? 32 then zcf_guard b else
  require_zca b ;; sp <-- RVC_SP b ; x2 <-- RVC_RS2 b ; plain npc (MMU_store (sp + rvc_sdsp_imm b) 8 x2).

Definition insn_c_j (b pc npc : Z) : X Z :=
  require_zca b ;; set_pc (u64 (pc + rvc_j_imm b)).
Definition insn_c_jal (b pc npc : Z) : X Z :=
  require_zca b ;; 
  if xlen =? 32 then new <-- set_pc (u64 (pc + rvc_j_imm b)) ; plain new (WRITE_REG b X_RA npc)
  else require b (negb (rvc_rd b =? 0)) ;; x1 <-- RVC_RS1 b ; plain npc (WRITE_RD b (sext32 (x1 + rvc_imm b))).
Definition insn_c_jalr (b pc npc : Z) : X Z :=
  require_zca b ;; require b (negb (rvc_rs1 b =? 0)) ;; x1 <-- RVC_RS1 b ; new <-- set_pc (x1 .& u64 (Z.lnot 1)) ; plain new (WRITE_REG b X_RA npc).
Definition insn_c_jr (b pc npc : Z) : X Z :=
  require_zca b ;; require b (negb (rvc_rs1 b =? 0)) ;; x1 <-- RVC_RS1 b ; set_pc (x1 .& u64 (Z.lnot 1)).
Definition insn_c_li (b pc npc : Z) : X Z :=
  require_zca b ;; plain npc (WRITE_RD b (rvc_imm b)).
Definition insn_c_mop_N (b pc npc : Z) : X Z :=
  require_zca b ;; require_extension b EXT_ZCMOP ;; ret npc.
Definition insn_c_lui (b pc npc : Z) : X Z :=
  require_zca b ;; 
  if rvc_rd b =? 2 then
    require b (negb (rvc_addi16sp_imm b =? 0)) ;; sp <-- RVC_SP b ; plain npc (WRITE_REG b X_SP (sext_xlen (sp + rvc_addi16sp_imm b)))
  else if negb (rvc_imm b =? 0) then plain npc (WRITE_RD b (rvc_imm b .<< 12))
  else if nz (rvc_rd b .& 1) then insn_c_mop_N b pc npc
  else require b false ;; ret npc.

Definition insn_c_lw (b pc npc : Z) : X Z :=
  require_zca b ;; x1 <-- RVC_RS1S b ; v <-- MMU_load (x1 + rvc_lw_imm b) 4 ; plain npc (WRITE_RVC_RS2S b (s32 v)).
Definition insn_c_lwsp (b pc npc : Z) : X Z :=
  require_zca b ;; require b (negb (rvc_rd b =? 0)) ;; sp <-- RVC_SP b ; v <-- MMU_load (sp + rvc_lwsp_imm b) 4 ; plain npc (WRITE_RD b (s32 v)).
Definition insn_c_mv (b pc npc : Z) : X Z :=
  require_zca b ;; require b (negb (rvc_rs2 b =? 0)) ;; x2 <-- RVC_RS2 b ; plain npc (WRITE_RD b x2).
Definition insn_c_or (b pc npc : Z) : X Z :=
  require_zca b ;; x1 <-- RVC_RS1S b ; x2 <-- RVC_RS2S b ; plain npc (WRITE_RVC_RS1S b (x1 .| x2)).

Definition zimm_ok (b : Z) : X unit := require b (rvc_zimm b <? xlen).

Definition insn_c_slli (b pc npc : Z) : X Z :=
  require_zca b ;; zimm_ok b ;; x1 <-- RVC_RS1 b ; plain npc (WRITE_RD b (sext_xlen (x1 .<< rvc_zimm b))).
Definition insn_c_srai (b pc npc : Z) : X Z :=
  require_zca b ;; zimm_ok b ;; x1 <-- RVC_RS1S b ; plain npc (WRITE_RVC_RS1S b (sext_xlen (sext_xlen x1 .>> rvc_zimm b))).
Definition insn_c_srli (b pc npc : Z) : X Z :=
  require_zca b ;; zimm_ok b ;; x1 <-- RVC_RS1S b ; plain npc (WRITE_RVC_RS1S b (sext_xlen (zext_xlen x1 .>> rvc_zimm b))).
Definition insn_c_sub (b pc npc : Z) : X Z :=
  require_zca b ;; x1 <-- RVC_RS1S b ; x2 <-- RVC_RS2S b ; plain npc (WRITE_RVC_RS1S b (sext_xlen (x1 - x2))).
Definition insn_c_subw (b pc npc : Z) : X Z :=
  require_zca b ;; require_rv64 b ;; x1 <-- RVC_RS1S b ; x2 <-- RVC_RS2S b ; plain npc (WRITE_RVC_RS1S b (sext32 (x1 - x2))).
Definition insn_c_xor (b pc npc : Z) : X Z :=
  require_zca b ;; x1 <-- RVC_RS1S b ; x2 <-- RVC_RS2S b ; plain npc (WRITE_RVC_RS1S b (x1 .^ x2)).
Definition insn_c_sw (b pc npc : Z) : X Z :=
  require_zca b ;; x1 <-- RVC_RS1S b ; x2 <-- RVC_RS2S b ; plain npc (MMU_store (x1 + rvc_lw_imm b) 4 x2).
Definition insn_c_swsp (b pc npc : Z) : X Z :=
  require_zca b ;; sp <-- RVC_SP b ; x2 <-- RVC_RS2 b ; plain npc (MMU_store (sp + rvc_swsp_imm b) 4 x2).

Definition require_zcb (b : Z) : X unit := require_extension b EXT_ZCB.

Definition insn_c_lbu (b pc npc : Z) : X Z :=
  require_zcb b ;; x1 <-- RVC_RS1S b ; v <-- MMU_load (x1 + rvc_lbimm b) 1 ; plain npc (WRITE_RVC_RS2S b v).
Definition insn_c_lh (b pc npc : Z) : X Z :=
  require_zcb b ;; x1 <-- RVC_RS1S b ; v <-- MMU_load (x1 + rvc_lhimm b) 2 ; plain npc (WRITE_RVC_RS2S b (s16 v)).
Definition insn_c_lhu (b pc npc : Z) : X Z :=
  require_zcb b ;; x1 <-- RVC_RS1S b ; v <-- MMU_load (x1 + rvc_lhimm b) 2 ; plain npc (WRITE_RVC_RS2S b v).
Definition insn_c_sb (b pc npc : Z) : X Z :=
  require_zcb b ;; x1 <-- RVC_RS1S b ; x2 <-- RVC_RS2S b ; plain npc (MMU_store (x1 + rvc_lbimm b) 1 x2).
Definition insn_c_sh (b pc npc : Z) : X Z :=
  require_zcb b ;; x1 <-- RVC_RS1S b ; x2 <-- RVC_RS2S b ; plain npc (MMU_store (x1 + rvc_lhimm b) 2 x2).
Definition insn_c_zext_b (b pc npc : Z) : X Z :=
  require_zcb b ;; x1 <-- RVC_RS1S b ; plain npc (WRITE_RVC_RS1S b (u8 x1)).
Definition insn_c_sext_b (b pc npc : Z) : X Z :=
  require_zcb b ;; require_extension b EXT_ZBB ;; x1 <-- RVC_RS1S b ; plain npc (WRITE_RVC_RS1S b (s8 x1)).
Definition insn_c_zext_h (b pc npc : Z) : X Z :=
  require_zcb b ;; require_extension b EXT_ZBB ;; x1 <-- RVC_RS1S b ; plain npc (WRITE_RVC_RS1S b (u16 x1)).
Definition insn_c_sext_h (b pc npc : Z) : X Z :=
  require_zcb b ;; require_extension b EXT_ZBB ;; x1 <-- RVC_RS1S b ; plain npc (WRITE_RVC_RS1S b (s16 x1)).
Definition insn_c_zext_w (b pc npc : Z) : X Z :=
  require_zcb b ;; require_extension b EXT_ZBA ;; require_rv64 b ;; x1 <-- RVC_RS1S b ; plain npc (WRITE_RVC_RS1S b (u32 x1)).
Definition insn_c_not (b pc npc : Z) : X Z :=
  require_zcb b ;; x1 <-- RVC_RS1S b ; plain npc (WRITE_RVC_RS1S b (sext_xlen (Z.lnot x1))).
Definition insn_c_mul (b pc npc : Z) : X Z :=
  require_zcb b ;; require_either_extension b EXT_M EXT_ZMMUL ;; x1 <-- RVC_RS1S b ; x2 <-- RVC_RS2S b ;
  plain npc (WRITE_RVC_RS1S b (sext_xlen (x1 * x2))).

(** ** The functions of the template

    [illegal_instruction] reports the low 32 bits of the word. *)

Definition body (o : opcode) (b pc npc : Z) : X Z :=
  match o with
  | add_ => insn_add b pc npc
  | addi_ => insn_addi b pc npc
  | addiw_ => insn_addiw b pc npc
  | addw_ => insn_addw b pc npc
  | and_ => insn_and b pc npc
  | andi_ => insn_andi b pc npc
  | auipc_ => insn_auipc b pc npc
  | beq_ => insn_beq b pc npc
  | bge_ => insn_bge b pc npc
  | bgeu_ => insn_bgeu b pc npc
  | blt_ => insn_blt b pc npc
  | bltu_ => insn_bltu b pc npc
  | bne_ => insn_bne b pc npc
  | jal_ => insn_jal b pc npc
  | jalr_ => insn_jalr b pc npc
  | lb_ => insn_lb b pc npc
  | lbu_ => insn_lbu b pc npc
  | ld_ => insn_ld b pc npc
  | lh_ => insn_lh b pc npc
  | lhu_ => insn_lhu b pc npc
  | lui_ => insn_lui b pc npc
  | lw_ => insn_lw b pc npc
  | lwu_ => insn_lwu b pc npc
  | or_ => insn_or b pc npc
  | ori_ => insn_ori b pc npc
  | sb_ => insn_sb b pc npc
  | sd_ => insn_sd b pc npc
  | sh_ => insn_sh b pc npc
  | sll_ => insn_sll b pc npc
  | slli_ => insn_slli b pc npc
  | slliw_ => insn_slliw b pc npc
  | sllw_ => insn_sllw b pc npc
  | slt_ => insn_slt b pc npc
  | slti_ => insn_slti b pc npc
  | sltiu_ => insn_sltiu b pc npc
  | sltu_ => insn_sltu b pc npc
  | sra_ => insn_sra b pc npc
  | srai_ => insn_srai b pc npc
  | sraiw_ => insn_sraiw b pc npc
  | sraw_ => insn_sraw b pc npc
  | srl_ => insn_srl b pc npc
  | srli_ => insn_srli b pc npc
  | srliw_ => insn_srliw b pc npc
  | srlw_ => insn_srlw b pc npc
  | sub_ => insn_sub b pc npc
  | subw_ => insn_subw b pc npc
  | sw_ => insn_sw b pc npc
  | xor_ => insn_xor b pc npc
  | xori_ => insn_xori b pc npc
  | fence_ => insn_fence b pc npc
  | fence_i_ => insn_fence_i b pc npc
  | ebreak_ => insn_ebreak b pc npc
  | ecall_ => insn_ecall b pc npc
  | mret_ => insn_mret b pc npc
  | sret_ => insn_sret b pc npc
  | div_ => insn_div b pc npc
  | divu_ => insn_divu b pc npc
  | divuw_ => insn_divuw b pc npc
  | divw_ => insn_divw b pc npc
  | mul_ => insn_mul b pc npc
  | mulh_ => insn_mulh b pc npc
  | mulhsu_ => insn_mulhsu b pc npc
  | mulhu_ => insn_mulhu b pc npc
  | mulw_ => insn_mulw b pc npc
  | rem_ => insn_rem b pc npc
  | remu_ => insn_remu b pc npc
  | remuw_ => insn_remuw b pc npc
  | remw_ => insn_remw b pc npc
  | c_add_ => insn_c_add b pc npc
  | c_addi_ => insn_c_addi b pc npc
  | c_addi4spn_ => insn_c_addi4spn b pc npc
  | c_addw_ => insn_c_addw b pc npc
  | c_and_ => insn_c_and b pc npc
  | c_andi_ => insn_c_andi b pc npc
  | c_beqz_ => insn_c_beqz b pc npc
  | c_bnez_ => insn_c_bnez b pc npc
  | c_ebreak_ => insn_c_ebreak b pc npc
  | c_flw_ => insn_c_flw b pc npc
  | c_flwsp_ => insn_c_flwsp b pc npc
  | c_fsw_ => insn_c_fsw b pc npc
  | c_fswsp_ => insn_c_fswsp b pc npc
  | c_j_ => insn_c_j b pc npc
  | c_jal_ => insn_c_jal b pc npc
  | c_jalr_ => insn_c_jalr b pc npc
  | c_jr_ => insn_c_jr b pc npc
  | c_li_ => insn_c_li b pc npc
  | c_lui_ => insn_c_lui b pc npc
  | c_lw_ => insn_c_lw b pc npc
  | c_lwsp_ => insn_c_lwsp b pc npc
  | c_mv_ => insn_c_mv b pc npc
  | c_or_ => insn_c_or b pc npc
  | c_slli_ => insn_c_slli b pc npc
  | c_srai_ => insn_c_srai b pc npc
  | c_srli_ => insn_c_srli b pc npc
  | c_sub_ => insn_c_sub b pc npc
  | c_subw_ => insn_c_subw b pc npc
  | c_sw_ => insn_c_sw b pc npc
  | c_swsp_ => insn_c_swsp b pc npc
  | c_xor_ => insn_c_xor b pc npc
  | c_lbu_ => insn_c_lbu b pc npc
  | c_lh_ => insn_c_lh b pc npc
  | c_lhu_ => insn_c_lhu b pc npc
  | c_sb_ => insn_c_sb b pc npc
  | c_sh_ => insn_c_sh b pc npc
  | c_zext_b_ => insn_c_zext_b b pc npc
  | c_sext_b_ => insn_c_sext_b b pc npc
  | c_zext_h_ => insn_c_zext_h b pc npc
  | c_sext_h_ => insn_c_sext_h b pc npc
  | c_zext_w_ => insn_c_zext_w b pc npc
  | c_mul_ => insn_c_mul b pc npc
  | c_not_ => insn_c_not b pc npc
  | illegal_instruction => throw (trap_illegal_instruction (b .& 0xffffffff))
  | other _ => unmodelled
  end.

(** [npc] is computed from the length of the instruction's match. *)
Definition execute (o : opcode) (b pc : Z) : X Z := body o b pc (u64 (sext_xlen (pc + insn_length (MATCH o)))).
End Isa.

Arguments state_t : clear implicits.
