(* ===== verification/IsaFacts.v ===== *)
(** * Spike: what every instruction keeps

    The invariant of a hart and that the macros and instructions keep it: registers
    hold values of the register width, the program counter stays even, the
    predictors stay usable, and nothing is undefined. *)

From stdpp Require Import base option list gmap functions.
From S2P Require Import Prelude.
From S2P Require Import Arith.
From S2P Require Import Pmp.
From S2P Require Import Devices.
From S2P Require Import Mmu.
From S2P Require Import BranchStats.
From S2P Require Import Decode.
From S2P Require Import DecodeTheorems.
From S2P Require Import Memory.
From S2P Require Import Csrs.
From S2P Require Import CsrFacts.
From S2P Require Import Isa.

(** ** Integers of the register width *)

Section Width.
Context (w : Z) (Hw : w = 32 \/ w = 64).

(** A signed integer of [w] bits, and a register that holds one. *)
Definition fits (z : Z) : Prop := - 2 ^ (w - 1) <= z < 2 ^ (w - 1).
Definition reg_ok (v : Z) : Prop := exists z, fits z /\ v = u64 z.

Lemma width_pos : 0 < w.
Proof. lia. Qed.

Lemma half_le : 2 ^ (w - 1) <= 2 ^ 63.
Proof. destruct Hw as [-> | ->]; lia. Qed.

Lemma half_ge : 2 ^ 31 <= 2 ^ (w - 1).
Proof. destruct Hw as [-> | ->]; lia. Qed.

Lemma reg_range v : reg_ok v -> 0 <= v < 2 ^ 64.
Proof. intros (z & _ & ->). apply uwrap_range. lia. Qed.

Lemma swrap_mod n k x : 0 <= k < n -> (swrap n x) mod 2 ^ k = x mod 2 ^ k.
Proof.
  intros Hk. unfold swrap. replace (2 ^ n) with (2 ^ k * 2 ^ (n - k)) by (rewrite <- Z.pow_add_r by lia; f_equal; lia).
  replace (2 ^ (n - 1)) with (2 ^ k * 2 ^ (n - 1 - k)) by (rewrite <- Z.pow_add_r by lia; f_equal; lia).
  rewrite Zminus_mod, Z.rem_mul_r by lia.
  rewrite (Z.mul_comm (2 ^ k) ((_ / _) mod _)), Z_mod_plus_full.
  rewrite (Z.mul_comm (2 ^ k) (2 ^ (n - 1 - k))), Z_mod_mult, Z.sub_0_r, !Zmod_mod, Z_mod_plus_full. done.
Qed.

Lemma fits_swrap x : fits (swrap w x).
Proof. apply swrap_range. apply width_pos. Qed.

Lemma reg_swrap x : reg_ok (u64 (swrap w x)).
Proof. exists (swrap w x). split; [apply fits_swrap|done]. Qed.

Lemma reg_fits z : fits z -> reg_ok (u64 z).
Proof. by exists z. Qed.

Lemma reg_small z : - 2 ^ 31 <= z < 2 ^ 31 -> reg_ok (u64 z).
Proof. intros H. apply reg_fits. pose proof half_ge. unfold fits. lia. Qed.

Lemma reg_s32 x : reg_ok (u64 (s32 x)).
Proof. apply reg_small. pose proof (swrap_range 32 x ltac:(lia)). change (2 ^ (32 - 1)) with (2 ^ 31) in *. lia. Qed.

(** A register as a signed integer. *)
Definition sgn (v : Z) : Z := swrap w v.

Lemma s64_of_u64 z : - 2 ^ 63 <= z < 2 ^ 63 -> s64 (u64 z) = z.
Proof.
  intros H. unfold uwrap, swrap. change (2 ^ (64 - 1)) with (2 ^ 63). rewrite Zplus_mod_idemp_l, Z.mod_small; lia.
Qed.

Lemma reg_s64 v : reg_ok v -> fits (s64 v) /\ v = u64 (s64 v).
Proof.
  intros (z & Hz & ->). rewrite s64_of_u64; [done|]. pose proof half_le. unfold fits in Hz. lia.
Qed.

Lemma u64_s64 x : u64 (s64 x) = u64 x.
Proof. unfold uwrap, swrap. rewrite Zminus_mod_idemp_l. f_equal. ring. Qed.

Lemma swrap_u64 z : swrap w (u64 z) = swrap w z.
Proof.
  unfold swrap, uwrap. f_equal. rewrite <- (Zplus_mod_idemp_l (z mod 2 ^ 64)). replace (2 ^ 64) with (2 ^ w * 2 ^ (64 - w)) by (rewrite <- Z.pow_add_r by lia; f_equal; lia).
  rewrite Z.rem_mul_r, (Z.mul_comm (2 ^ w)), Z_mod_plus_full, Zmod_mod by (destruct Hw as [-> | ->]; lia). apply Zplus_mod_idemp_l.
Qed.

Lemma reg_sgn v : reg_ok v -> fits (sgn v) /\ v = u64 (sgn v).
Proof.
  intros (z & Hz & ->). unfold sgn. rewrite swrap_u64, (swrap_small w z) by (apply width_pos || done). done.
Qed.

(** Bitwise operations on the signed values. *)
Lemma fits_bits z : fits z <-> forall i, w - 1 <= i -> Z.testbit z i = Z.testbit z (w - 1).
Proof.
  unfold fits. set (n := w - 1). assert (0 <= n) as Hn by (unfold n; lia). split.
  - intros Hz i Hi. destruct (Z.ltb_spec z 0) as [Hneg|Hpos].
    + assert (forall j, n <= j -> Z.testbit z j = true) as H; [|by rewrite !H by lia].
      intros j Hj. rewrite <- (Z.lnot_involutive z), Z.lnot_spec by lia. apply negb_true_iff.
      assert (0 <= Z.lnot z < 2 ^ n) as Hl by (unfold Z.lnot; lia). apply Z.bits_above_log2; [lia|].
      destruct (Z.eq_dec (Z.lnot z) 0) as [->|]; [simpl; pose proof width_pos; destruct Hw; lia|]. apply Z.log2_lt_pow2; [lia|].
      apply Z.lt_le_trans with (2 ^ n); [lia|]. apply Z.pow_le_mono_r; lia.
    + assert (forall j, n <= j -> Z.testbit z j = false) as H; [|by rewrite !H by lia].
      intros j Hj. apply Z.bits_above_log2; [lia|]. destruct (Z.eq_dec z 0) as [->|]; [simpl; destruct Hw; lia|]. apply Z.log2_lt_pow2; [lia|].
      apply Z.lt_le_trans with (2 ^ n); [lia|]. apply Z.pow_le_mono_r; lia.
  - intros H. assert (z / 2 ^ n = - Z.b2z (Z.testbit z n)) as Hd.
    { apply Z.bits_inj'. intros i Hi. rewrite <- Z.shiftr_div_pow2, Z.shiftr_spec, H by lia.
      destruct (Z.testbit z n); simpl; [by rewrite Z.bits_m1 by lia|by rewrite Z.bits_0]. }
    pose proof (Z.div_mod z (2 ^ n)) as Hdm. pose proof (Z.mod_pos_bound z (2 ^ n)). pose proof (pow2_pos n Hn).
    rewrite Hd in Hdm. destruct (Z.testbit z n); simpl in *; nia.
Qed.

Lemma u64_bits_ext a b : u64 a = u64 b <-> forall i, 0 <= i < 64 -> Z.testbit a i = Z.testbit b i.
Proof.
  split.
  - intros H i Hi. unfold uwrap in H. rewrite <- (Z.mod_pow2_bits_low a 64 i), <- (Z.mod_pow2_bits_low b 64 i) by lia. by rewrite H.
  - intros H. unfold uwrap. apply Z.bits_inj'. intros i Hi. destruct (Z.lt_ge_cases i 64).
    + rewrite !Z.mod_pow2_bits_low by lia. apply H. lia.
    + rewrite !Z.mod_pow2_bits_high by lia. done.
Qed.

(** An operation on bits, of registers and signed immediates. *)
Lemma reg_bitwise (op : Z -> Z -> Z) (f : bool -> bool -> bool) a b :
  (forall x y i, 0 <= i -> Z.testbit (op x y) i = f (Z.testbit x i) (Z.testbit y i)) ->
  (exists za, fits za /\ u64 a = u64 za) -> (exists zb, fits zb /\ u64 b = u64 zb) -> reg_ok (u64 (op a b)).
Proof.
  intros Hop (za & Ha & Ea) (zb & Hb & Eb). exists (op za zb). split.
  - apply fits_bits. intros i Hi. assert (0 <= w - 1) by lia. rewrite !Hop by lia. rewrite (proj1 (fits_bits za) Ha i), (proj1 (fits_bits zb) Hb i) by lia. done.
  - apply u64_bits_ext. intros i Hi. rewrite !Hop by lia. rewrite (proj1 (u64_bits_ext a za) Ea i), (proj1 (u64_bits_ext b zb) Eb i) by lia. done.
Qed.

Lemma u64_u64 x : u64 (u64 x) = u64 x.
Proof. apply Zmod_mod. Qed.

Lemma reg_as a : reg_ok a -> exists za, fits za /\ u64 a = u64 za.
Proof. intros (z & Hz & ->). exists z. by rewrite u64_u64. Qed.

Lemma imm_as z : - 2 ^ 31 <= z < 2 ^ 31 -> exists za, fits za /\ u64 z = u64 za.
Proof. intros H. exists z. split; [|done]. pose proof half_ge. unfold fits. lia. Qed.

Lemma reg_same v : reg_ok v -> reg_ok (u64 v).
Proof. intros (z & Hz & ->). rewrite u64_u64. by apply reg_fits. Qed.
End Width.

(** ** The macros on integers *)

Section Macros.
Context (isa : isa_t) (Hx : max_xlen isa = 32 \/ max_xlen isa = 64).

Lemma shift_swrap n v : 0 < n <= 64 -> s64 (v .<< (64 - n)) .>> (64 - n) = swrap n v.
Proof.
  intros Hn. rewrite shiftl_mul, shiftr_div by lia. unfold swrap. set (k := 64 - n).
  assert (0 < 2 ^ k) by (apply pow2_pos; unfold k; lia).
  replace (2 ^ 64) with (2 ^ n * 2 ^ k) by (rewrite <- Z.pow_add_r by (unfold k; lia); f_equal; unfold k; lia).
  replace (2 ^ (64 - 1)) with (2 ^ (n - 1) * 2 ^ k) by (rewrite <- Z.pow_add_r by (unfold k; lia); f_equal; unfold k; lia).
  rewrite <- Z.mul_add_distr_r, Z.mul_mod_distr_r by (try (apply Z.pow_nonzero; lia); lia).
  rewrite <- Z.mul_sub_distr_r, Z.div_mul by lia. done.
Qed.

Lemma sext_xlen_swrap v : sext_xlen isa v = swrap (max_xlen isa) v.
Proof. apply shift_swrap. unfold xlen. destruct Hx as [-> | ->]; lia. Qed.

Lemma zext_xlen_mod v : zext_xlen isa v = v mod 2 ^ max_xlen isa.
Proof.
  unfold zext_xlen, xlen. rewrite shiftl_mul, shiftr_div by lia. unfold uwrap.
  replace (2 ^ 64) with (2 ^ max_xlen isa * 2 ^ (64 - max_xlen isa)) by (rewrite <- Z.pow_add_r by lia; f_equal; lia).
  rewrite Z.mul_mod_distr_r by (apply Z.pow_nonzero; lia). apply Z.div_mul. apply Z.pow_nonzero; lia.
Qed.

Lemma swrap_parity n p : 1 < n -> (swrap n p) mod 2 = p mod 2.
Proof. intros Hn. pose proof (swrap_mod n 1 p). change (2 ^ 1) with 2 in *. lia. Qed.

Lemma pc_sext p : p mod 2 = 0 -> pc_ok (u64 (sext_xlen isa p)).
Proof. intros Hp. apply pc_u64. rewrite sext_xlen_swrap, swrap_parity by (destruct Hx as [-> | ->]; lia). done. Qed.

(** *** Immediates *)

Lemma field_x b lo len : 0 <= lo -> 0 <= len -> x b lo len = (b / 2 ^ lo) mod 2 ^ len.
Proof. intros H1 H2. unfold x. rewrite shiftr_div by lia. apply land_mod; [lia|]. rewrite shiftl_mul; lia. Qed.

Lemma x_range b lo len : 0 <= lo -> 0 <= len -> 0 <= x b lo len < 2 ^ len.
Proof. intros H1 H2. rewrite field_x by lia. apply Z.mod_pos_bound. apply pow2_pos. lia. Qed.

Lemma xs_swrap b lo len : 0 <= lo -> 0 < len -> lo + len <= 64 -> xs b lo len = swrap len (b / 2 ^ lo).
Proof.
  intros H1 H2 H3. unfold xs.
  assert (b .<< (64 - lo - len) = (b / 2 ^ lo) * 2 ^ (64 - len) + (b mod 2 ^ lo) * 2 ^ (64 - lo - len)) as E.
  { rewrite shiftl_mul by lia. rewrite (Z.div_mod b (2 ^ lo)) at 1 by (apply Z.pow_nonzero; lia).
    replace (2 ^ (64 - len)) with (2 ^ lo * 2 ^ (64 - lo - len)) by (rewrite <- Z.pow_add_r by lia; f_equal; lia). ring. }
  rewrite E, shiftr_div by lia. unfold swrap. set (q := b / 2 ^ lo). set (r := b mod 2 ^ lo).
  assert (0 <= r * 2 ^ (64 - lo - len) < 2 ^ (64 - len)) as Hr.
  { pose proof (Z.mod_pos_bound b (2 ^ lo) ltac:(apply pow2_pos; lia)) as Hm. fold r in Hm.
    replace (2 ^ (64 - len)) with (2 ^ lo * 2 ^ (64 - lo - len)) by (rewrite <- Z.pow_add_r by lia; f_equal; lia).
    pose proof (pow2_pos (64 - lo - len) ltac:(lia)). nia. }
  set (s := r * 2 ^ (64 - lo - len)) in *. set (k := 64 - len) in *.
  replace (2 ^ 64) with (2 ^ k * 2 ^ len) by (rewrite <- Z.pow_add_r by (unfold k; lia); f_equal; unfold k; lia).
  replace (2 ^ (64 - 1)) with (2 ^ (len - 1) * 2 ^ k) by (rewrite <- Z.pow_add_r by (unfold k; lia); f_equal; unfold k; lia).
  pose proof (pow2_pos k ltac:(unfold k; lia)). replace (q * 2 ^ k + s + 2 ^ (len - 1) * 2 ^ k) with (s + (q + 2 ^ (len - 1)) * 2 ^ k) by ring.
  rewrite Z.rem_mul_r by lia. rewrite Z_mod_plus_full, Z.div_add, (Z.mod_small s), (Z.div_small s), Z.add_0_l by lia.
  symmetry. apply (Z.div_unique _ _ _ s); [left; lia|ring].
Qed.

Lemma xs_range b lo len : 0 <= lo -> 0 < len -> lo + len <= 64 -> - 2 ^ (len - 1) <= xs b lo len < 2 ^ (len - 1).
Proof. intros H1 H2 H3. rewrite xs_swrap by lia. by apply swrap_range. Qed.

Lemma shl_even a k : 0 < k -> (a .<< k) mod 2 = 0.
Proof. intros Hk. rewrite shiftl_mul by lia. replace (2 ^ k) with (2 ^ (k - 1) * 2) by (rewrite Z.mul_comm, <- pow2_succ by lia; f_equal; lia). rewrite Z.mul_assoc. apply Z_mod_mult. Qed.

Lemma s64_even p : p mod 2 = 0 -> (s64 p) mod 2 = 0.
Proof. intros H. by rewrite swrap_parity by lia. Qed.

Lemma even_add a c : a mod 2 = 0 -> c mod 2 = 0 -> (a + c) mod 2 = 0.
Proof. intros Ha Hc. by rewrite Zplus_mod, Ha, Hc. Qed.

Ltac evens := repeat (apply s64_even || (apply shl_even; lia) || apply even_add).

Lemma sb_imm_even b : sb_imm b mod 2 = 0.
Proof. unfold sb_imm. evens. Qed.
Lemma uj_imm_even b : uj_imm b mod 2 = 0.
Proof. unfold uj_imm. evens. Qed.
Lemma rvc_j_imm_even b : rvc_j_imm b mod 2 = 0.
Proof. unfold rvc_j_imm. evens. Qed.
Lemma rvc_b_imm_even b : rvc_b_imm b mod 2 = 0.
Proof. unfold rvc_b_imm. evens. Qed.

Lemma i_imm_range b : - 2 ^ 11 <= i_imm b < 2 ^ 11.
Proof. exact (xs_range b 20 12 ltac:(lia) ltac:(lia) ltac:(lia)). Qed.

Lemma u_imm_range b : - 2 ^ 31 <= u_imm b < 2 ^ 31.
Proof.
  unfold u_imm. pose proof (xs_range b 12 20 ltac:(lia) ltac:(lia) ltac:(lia)) as H. change (2 ^ (20 - 1)) with (2 ^ 19) in H.
  rewrite shiftl_mul by lia. rewrite swrap_small by lia. lia.
Qed.

Lemma rvc_imm_range b : - 2 ^ 5 <= rvc_imm b < 2 ^ 5.
Proof.
  unfold rvc_imm. pose proof (xs_range b 12 1 ltac:(lia) ltac:(lia) ltac:(lia)) as H1. pose proof (x_range b 2 5 ltac:(lia) ltac:(lia)) as H2.
  change (2 ^ (1 - 1)) with 1 in H1. rewrite shiftl_mul by lia. rewrite swrap_small; lia.
Qed.

(** Register numbers are those of the file. *)
Lemma reg_number b lo : 0 <= lo -> 0 <= x b lo 5 < 32.
Proof. intros H. pose proof (x_range b lo 5 H ltac:(lia)). lia. Qed.
Lemma short_number b lo : 0 <= lo -> 0 <= 8 + x b lo 3 < 32.
Proof. intros H. pose proof (x_range b lo 3 H ltac:(lia)). lia. Qed.
End Macros.

(** ** The invariant of the processor *)

Section Facts.
Context (isa : isa_t) {D : Type} `{!Memory D} {Pp Tp : Type} `{!BranchPredictor Pp} `{!BranchPredictor Tp}.
Context (Hx : max_xlen isa = 32 \/ max_xlen isa = 64).
Context (ds : list (insn_desc_t opcode)) (Hds : decodable ds).
Local Notation state := (state_t D Pp Tp).
Local Notation X := (@X D Pp Tp).

Local Notation hart_ok := (CsrFacts.hart_ok isa).

Record state_ok (s : state) : Prop := {
  state_pc : pc_ok (pc s);
  state_regs : length (XPR s) = 32%nat /\ XPR s !! 0%nat = Some 0 /\ Forall (reg_ok (max_xlen isa)) (XPR s);
  state_hart : hart_ok (cpu s);
  state_decoder : decoder_ok illegal_instruction ds (decode_tables s);
  state_stats : predictors_ok (perceptron_predictor (stats s)) (tage_predictor (stats s))
}.

(** What no instruction changes. *)
Record hframe (h h' : hart D) : Prop := {
  frame_debug : st_debug_mode h' = st_debug_mode h;
  frame_step : single_step h' = single_step h;
  frame_dcsr : dcsr h' = dcsr h;
  frame_csr : forall n, n ∉ [MSTATUS; VSSTATUS; HSTATUS] -> csr h' n = csr h n
}.

#[export] Instance hframe_pre : PreOrder hframe.
Proof.
  split; [by split|]. intros h1 h2 h3 [a1 b1 c1 d1] [a2 b2 c2 d2]. split; [congruence..|]. intros n Hn. by rewrite d2, d1.
Qed.

(** A computation on good states ends well. *)
Definition keeps {A} (ok : A -> Prop) (m : X A) : Prop := forall s, state_ok s ->
  hframe (cpu s) (cpu (m s).2) /\
  match (m s).1 with
  | Done a => state_ok (m s).2 /\ ok a
  | Raise _ => state_ok (m s).2
  | RaiseDebug => state_ok (m s).2 /\ st_debug_mode (cpu s) = false
  | Stuck => False
  | Unmodelled => max_xlen isa = 32
  end.

Lemma keeps_ret {A} (ok : A -> Prop) a : ok a -> keeps ok (Isa.ret a).
Proof. intros Ha s Hs. simpl. done. Qed.

Lemma keeps_throw {A} (ok : A -> Prop) t : keeps ok (Isa.throw t).
Proof. intros s Hs. simpl. done. Qed.

Lemma keeps_unmodelled {A} (ok : A -> Prop) : max_xlen isa = 32 -> keeps ok unmodelled.
Proof. intros Hn s Hs. simpl. done. Qed.

Lemma keeps_bind {A B} (okA : A -> Prop) (okB : B -> Prop) (m : X A) (f : A -> X B) :
  keeps okA m -> (forall a, okA a -> keeps okB (f a)) -> keeps okB (Isa.bind m f).
Proof.
  intros Hm Hf s Hs. unfold Isa.bind. specialize (Hm s Hs). destruct (m s) as [[a|t| | |] s1]; simpl in *; try done.
  destruct Hm as (F1 & Hs1 & Ha). destruct (Hf a Ha s1 Hs1) as (F2 & Hr). split; [by transitivity (cpu s1)|].
  destruct (f a s1) as [[c|t| | |] s2]; simpl in *; try done. destruct Hr as [H1 H2]. split; [done|]. rewrite <- H2. symmetry. apply frame_debug, F1.
Qed.

Lemma keeps_get {A} (ok : A -> Prop) f : (forall s, state_ok s -> ok (f s)) -> keeps ok (get f).
Proof. intros Hf s Hs. simpl. split; [done|auto]. Qed.

Lemma keeps_if {A} (ok : A -> Prop) (c : bool) (m1 m2 : X A) : (c = true -> keeps ok m1) -> (c = false -> keeps ok m2) -> keeps ok (if c then m1 else m2).
Proof. destruct c; auto. Qed.

Lemma keeps_post {A} (P Q : A -> Prop) (m : X A) : keeps P m -> (forall a, P a -> Q a) -> keeps Q m.
Proof. intros Hm HPQ s Hs. destruct (Hm s Hs) as (F & H). split; [done|]. destruct (m s) as [[a|t| | |] s1]; simpl in *; try done. destruct H. auto. Qed.

(** ** The macros *)

Notation ok_unit := (fun _ : unit => True).
Notation ok_reg := (reg_ok (max_xlen isa)).

Lemma keeps_require b c : keeps (fun _ => c = true) (require b c).
Proof. unfold require. destruct c; [by apply keeps_ret|apply keeps_throw]. Qed.

Lemma keeps_check b reg : keeps ok_unit (CHECK_REG isa b reg).
Proof. unfold CHECK_REG. destruct (ext isa EXT_E); [|by apply keeps_ret]. by eapply keeps_post; [apply keeps_require|]. Qed.

Lemma keeps_read b reg : 0 <= reg < 32 -> keeps ok_reg (READ_REG isa b reg).
Proof.
  intros Hr. unfold READ_REG. eapply keeps_bind; [apply keeps_check|]. intros _ _ s Hs. destruct (state_regs _ Hs) as (Hl & _ & Hf).
  destruct (lookup_lt_is_Some_2 (XPR s) (Z.to_nat reg)) as [v Hv]; [lia|]. rewrite Hv. simpl. split; [done|]. split; [done|]. by apply (Forall_lookup_1 _ _ _ _ Hf Hv).
Qed.

Lemma state_set_regs s l : state_ok s -> length l = 32%nat -> l !! 0%nat = Some 0 -> Forall ok_reg l -> state_ok (set_XPR s l).
Proof. intros [H1 H2 H3 H4 H5] Hl H0 Hf. by split. Qed.

Lemma keeps_write b reg v : 0 <= reg < 32 -> ok_reg (u64 v) -> keeps ok_unit (WRITE_REG isa b reg v).
Proof.
  intros Hr Hv. unfold WRITE_REG. eapply keeps_bind; [apply keeps_check|]. intros _ _ s Hs. simpl. split; [done|]. split; [|done].
  destruct (state_regs _ Hs) as (Hl & H0 & Hf). unfold regfile_write. destruct (Z.eqb_spec reg 0) as [->|Hn]; [by apply state_set_regs|]. apply state_set_regs; [done| | |].
  - by rewrite length_insert.
  - by rewrite list_lookup_insert_ne by lia.
  - by apply Forall_insert.
Qed.

Lemma keeps_align p : keeps ok_unit (check_pc_alignment isa p).
Proof. intros s Hs. unfold check_pc_alignment. destruct (nz _); simpl; done. Qed.

Lemma keeps_set_pc p : p mod 2 = 0 -> keeps pc_ok (set_pc isa p).
Proof. intros Hp. unfold set_pc. eapply keeps_bind; [apply keeps_align|]. intros _ _. apply keeps_ret. by apply pc_sext. Qed.

Lemma note_total (p : processor_t Pp Tp) a t : predictors_ok (perceptron_predictor p) (tage_predictor p) -> exists q, note_conditional_branch p a t = Some q.
Proof.
  intros Hok. unfold note_conditional_branch. destruct (negb (perceptron_stats_enabled p)); [by eexists|]. destruct (negb (roi_active p)); [by eexists|].
  destruct (predict_kind_total (branch_predictor_kind p) _ _ a Hok) as (b & pp & tp & -> & Hok1 & _). simpl.
  destruct (train_kind_total (branch_predictor_kind p) pp tp a t Hok1) as (pp' & tp' & -> & _). simpl. by eexists.
Qed.

Lemma keeps_note p t : keeps ok_unit (note_branch p t).
Proof.
  intros s Hs. unfold note_branch. destruct (state_stats _ Hs) as [Hp Ht].
  destruct (note_conditional_branch (stats s) p t) as [q|] eqn:E.
  - simpl. split; [done|]. split; [|done]. destruct Hs. split; try done. simpl.
    assert (run_events (stats s) [EvBranch p t] = Some q) as Hr by (simpl; by rewrite E). by apply run_same in Hr as [? _].
  - exfalso. destruct (note_total (stats s) p t) as (q & Hq); [done|]. congruence.
Qed.

Lemma keeps_roi : keeps (fun _ => True) roi_ebreak.
Proof.
  intros s Hs. unfold roi_ebreak. destruct (state_regs _ Hs) as (Hl & _ & _).
  destruct (lookup_lt_is_Some_2 (XPR s) 10) as [m Hm]; [lia|]. rewrite Hm.
  destruct (handle_roi_ebreak _ _ _) as [b q] eqn:E. simpl. split; [done|]. split; [|done]. pose proof (state_stats _ Hs) as Hst. destruct Hs. split; try done. simpl.
  assert (run_events (stats s) [EvEbreak m (csr (cpu s) MINSTRET)] = Some q) as Hr by (simpl; by rewrite E). by apply run_same in Hr as [? _].
Qed.

(** Changing the memory behind the port. *)
Lemma hart_set_port h d : hart_ok h -> mem_inv d -> hart_ok (set_port h d).
Proof. intros [] Hd. by split. Qed.

Lemma state_set_cpu s h : state_ok s -> hart_ok h -> state_ok (set_cpu s h).
Proof. intros [] Hh. by split. Qed.

Lemma keeps_memory {A} (ok : A -> Prop) f :
  (forall h d, mem_ready h -> modes_ok h -> mem_inv d -> ends_well mem_inv ok (f h d)) -> keeps ok (of_memory isa f).
Proof.
  intros Hf s Hs. unfold of_memory. pose proof (state_hart _ Hs) as Hh. specialize (Hf (view isa (cpu s)) (port (cpu s)) (hart_tables isa _ Hh) (conj (hart_prv isa _ Hh) (hart_mpp isa _ Hh)) (hart_memory isa _ Hh)) as [Hd Ho].
  destruct (f _ _) as [r d]. simpl in *. assert (state_ok (set_cpu s (set_port (cpu s) d))) by (apply state_set_cpu; [done|by apply hart_set_port]).
  destruct r; simpl; try done; by split.
Qed.

Lemma keeps_load addr len : len = 1 \/ len = 2 \/ len = 4 \/ len = 8 -> keeps (fun v => 0 <= v < 2 ^ (8 * len)) (MMU_load isa addr len).
Proof. intros Hl. apply keeps_memory. intros h d Hh Hm Hd. apply mem_load_ends; [done|done|done|apply uwrap_range; lia|done]. Qed.

Lemma keeps_store addr len v : len = 1 \/ len = 2 \/ len = 4 \/ len = 8 -> keeps ok_unit (MMU_store isa addr len v).
Proof. intros Hl. apply keeps_memory. intros h d Hh Hm Hd. apply mem_store_ends; [done|done|done|apply uwrap_range; lia|done|apply uwrap_range; lia]. Qed.

Lemma keeps_plain npc m : pc_ok npc -> keeps ok_unit m -> keeps pc_ok (plain npc m).
Proof. intros Hn Hm. unfold plain. eapply keeps_bind; [done|]. intros _ _. by apply keeps_ret. Qed.

Lemma keeps_branch p npc target t : pc_ok npc -> target mod 2 = 0 -> keeps pc_ok (branch isa p npc target t).
Proof.
  intros Hn Ht. unfold branch. eapply keeps_bind; [apply keeps_note|]. intros _ _. destruct t; [|by apply keeps_ret]. apply keeps_set_pc. by rewrite u64_parity.
Qed.

Lemma keeps_fence_i b p npc : pc_ok npc -> keeps pc_ok (insn_fence_i b p npc).
Proof. intros Hn s Hs. simpl. split; [by split|]. split; [|done]. apply state_set_cpu; [done|]. apply hart_flush_icache, state_hart, Hs. Qed.

Lemma keeps_break p len : pc_ok p -> len mod 2 = 0 -> keeps pc_ok (break isa p len).
Proof.
  intros [_ Hp] Hl. unfold break. eapply keeps_bind; [apply keeps_roi|]. intros handled _. destruct handled; [apply keeps_set_pc; by rewrite u64_parity, Zplus_mod, Hp, Hl|].
  intros s Hs. unfold get, Isa.bind. destruct (to_debug_mode (cpu s)) eqn:E; simpl; [|done].
  split; [done|]. split; [done|]. unfold to_debug_mode in E. by destruct (st_debug_mode (cpu s)).
Qed.

Lemma keeps_returning (r : hart D -> trap_t + (hart D * Z)) :
  (forall h h' p, hart_ok h -> r h = inr (h', p) -> hart_ok h' /\ pc_ok p) -> (forall h h' p, r h = inr (h', p) -> hframe h h') ->
  keeps (fun npc => npc = PC_SERIALIZE_AFTER) (returning r).
Proof.
  intros Hok Hf s Hs. unfold returning. destruct (r (cpu s)) as [t|[h p]] eqn:E; simpl; [done|].
  destruct (Hok _ _ _ (state_hart _ Hs) E) as [Hh Hp]. split; [by eapply Hf|]. split; [|done]. destruct Hs. by split.
Qed.

Lemma hframe_same h h' : st_debug_mode h' = st_debug_mode h -> single_step h' = single_step h -> dcsr h' = dcsr h ->
  (forall n, n <> MSTATUS -> n <> VSSTATUS -> n <> HSTATUS -> csr h' n = csr h n) -> hframe h h'.
Proof. intros H1 H2 H3 H4. split; try done. intros n Hn. apply H4; intros ->; apply Hn; in_list. Qed.

Lemma flush_if_frame h o v : hframe h (maybe_flush_tlb isa h o v).
Proof. unfold maybe_flush_tlb. destruct (nz _); by apply hframe_same. Qed.

Lemma mstatus_frame h v : hframe h (mstatus_write isa h v).
Proof.
  unfold mstatus_write. etransitivity; [apply flush_if_frame|]. apply hframe_same; try done. intros n H1 _ _. by apply csr_set_ne.
Qed.

Lemma vsstatus_frame h v : hframe h (vsstatus_write isa h v).
Proof.
  unfold vsstatus_write. transitivity (if st_v h then maybe_flush_tlb isa h (csr h VSSTATUS) (merge (sstatus_write_mask isa) (csr h VSSTATUS) v) else h).
  - destruct (st_v h); [apply flush_if_frame|done].
  - apply hframe_same; try done. intros n _ H2 _. by apply csr_set_ne.
Qed.

Lemma sstatus_frame h v : hframe h (sstatus_write isa h v).
Proof. unfold sstatus_write. destruct (st_v h); [apply vsstatus_frame|apply mstatus_frame]. Qed.

Lemma hstatus_frame h v : hframe h (hstatus_write isa h v).
Proof. unfold hstatus_write. apply hframe_same; try done. intros n _ _ H2. by apply csr_set_ne. Qed.

Lemma privilege_frame h p v : hframe h (set_privilege isa h p v).
Proof. by apply hframe_same. Qed.

Lemma mret_frame h b h' p : mret isa h b = inr (h', p) -> hframe h h'.
Proof.
  unfold mret. destruct (negb _); [done|]. cbv zeta. intros [= <- _]. etransitivity; [|apply privilege_frame].
  unfold put_csr_mstatus, mstatus_write_low. destruct (max_xlen isa =? 32); apply mstatus_frame.
Qed.

Lemma sret_frame h b h' p : sret isa h b = inr (h', p) -> hframe h h'.
Proof.
  unfold sret. destruct (sret_refused isa h b); [done|]. cbv zeta. set (h1 := sstatus_write isa h _). assert (hframe h h1) as H1 by apply sstatus_frame.
  destruct (st_v h1); [intros [= <- _]; transitivity h1; [done|apply privilege_frame]|].
  destruct (extension_enabled isa EXT_H); intros [= <- _]; (etransitivity; [|apply privilege_frame]); (etransitivity; [|apply mstatus_frame]); [|done].
  transitivity h1; [done|apply hstatus_frame].
Qed.

(** ** Every instruction *)

Definition npc_ok (npc : Z) : Prop := pc_ok npc \/ npc = PC_SERIALIZE_AFTER.

Lemma ok_sext v : ok_reg (u64 (sext_xlen isa v)).
Proof. rewrite sext_xlen_swrap by done. by apply reg_swrap. Qed.

Lemma ok_small z : - 2 ^ 31 <= z < 2 ^ 31 -> ok_reg (u64 z).
Proof. by apply reg_small. Qed.

Lemma ok_npc p k : ok_reg (u64 (u64 (sext_xlen isa (p + k)))).
Proof. rewrite u64_u64. apply ok_sext. Qed.

(** The values instructions write. *)
Lemma ok_wide v : xlen isa = 64 -> ok_reg (u64 v).
Proof. intros E. unfold xlen in E. exists (s64 v). rewrite E. split; [apply swrap_range; lia|]. by rewrite u64_s64. Qed.

Lemma ok_bits op f a c :
  (forall x y i, 0 <= i -> Z.testbit (op x y) i = f (Z.testbit x i) (Z.testbit y i)) -> ok_reg (u64 a) -> ok_reg (u64 c) -> ok_reg (u64 (op a c)).
Proof.
  intros Hop Ha Hc. apply (reg_bitwise _ Hx op f); [done| |].
  - destruct (reg_as _ _ Ha) as (z & Hz & E). exists z. by rewrite u64_u64 in E.
  - destruct (reg_as _ _ Hc) as (z & Hz & E). exists z. by rewrite u64_u64 in E.
Qed.

Lemma ok_land a c : ok_reg (u64 a) -> ok_reg (u64 c) -> ok_reg (u64 (a .& c)).
Proof. apply (ok_bits Z.land andb). intros. apply Z.land_spec. Qed.
Lemma ok_lor a c : ok_reg (u64 a) -> ok_reg (u64 c) -> ok_reg (u64 (a .| c)).
Proof. apply (ok_bits Z.lor orb). intros. apply Z.lor_spec. Qed.
Lemma ok_lxor a c : ok_reg (u64 a) -> ok_reg (u64 c) -> ok_reg (u64 (a .^ c)).
Proof. apply (ok_bits Z.lxor xorb). intros. apply Z.lxor_spec. Qed.

Lemma ok_i_imm b : ok_reg (u64 (i_imm b)).
Proof. apply ok_small. pose proof (i_imm_range b). lia. Qed.
Lemma ok_u_imm b : ok_reg (u64 (u_imm b)).
Proof. apply ok_small. apply u_imm_range. Qed.
Lemma ok_rvc_imm b : ok_reg (u64 (rvc_imm b)).
Proof. apply ok_small. pose proof (rvc_imm_range b). lia. Qed.
Lemma ok_rvc_lui b : ok_reg (u64 (rvc_imm b .<< 12)).
Proof. apply ok_small. pose proof (rvc_imm_range b). rewrite shiftl_mul by lia. lia. Qed.
Lemma ok_b2z c : ok_reg (u64 (b2z c)).
Proof. apply ok_small. pose proof (b2z_range c). lia. Qed.
Lemma ok_s8 v : ok_reg (u64 (s8 v)).
Proof. apply ok_small. pose proof (swrap_range 8 v). lia. Qed.
Lemma ok_s16 v : ok_reg (u64 (s16 v)).
Proof. apply ok_small. pose proof (swrap_range 16 v). lia. Qed.
Lemma ok_s32 v : ok_reg (u64 (s32 v)).
Proof. by apply reg_s32. Qed.
Lemma ok_u8 v : ok_reg (u64 (u8 v)).
Proof. apply ok_small. pose proof (uwrap_range 8 v). lia. Qed.
Lemma ok_u16 v : ok_reg (u64 (u16 v)).
Proof. apply ok_small. pose proof (uwrap_range 16 v). lia. Qed.
Lemma ok_loaded v n : n = 8 * 1 \/ n = 8 * 2 -> 0 <= v < 2 ^ n -> ok_reg (u64 v).
Proof. intros [-> | ->] Hv; apply ok_small; lia. Qed.
Lemma ok_ones : ok_reg (u64 UINT64_MAX).
Proof. change (u64 UINT64_MAX) with (u64 (-1)). apply ok_small. lia. Qed.
Lemma ok_if (c : bool) v1 v2 : ok_reg (u64 v1) -> ok_reg (u64 v2) -> ok_reg (u64 (if c then v1 else v2)).
Proof. by destruct c. Qed.
Lemma ok_reg_u64 v : ok_reg v -> ok_reg (u64 v).
Proof. apply reg_same. Qed.
Lemma ok_div a c : ok_reg (u64 (div_signed isa (sext_xlen isa a) c)).
Proof. unfold div_signed. apply ok_if; [apply ok_ones|apply ok_if; apply ok_sext]. Qed.
Lemma ok_rem a c : ok_reg (u64 (rem_signed isa (sext_xlen isa a) c)).
Proof. unfold rem_signed. apply ok_if; [apply ok_sext|apply ok_if; [by apply ok_small|apply ok_sext]]. Qed.

#[local] Hint Resolve ok_sext ok_i_imm ok_u_imm ok_rvc_imm ok_rvc_lui ok_b2z ok_s8 ok_s16 ok_s32 ok_u8 ok_u16 ok_ones ok_reg_u64 ok_land ok_lor ok_lxor ok_if ok_div ok_rem ok_npc : isa.

Lemma ok_by_width v1 v2 : ok_reg (u64 v2) -> ok_reg (u64 (if xlen isa =? 64 then v1 else v2)).
Proof. intros H2. destruct (Z.eqb_spec (xlen isa) 64) as [E|]; [by apply ok_wide|done]. Qed.

#[local] Hint Resolve ok_by_width : isa.

Lemma not_narrow : (xlen isa =? 32) = false -> xlen isa = 64.
Proof. intros E. apply Z.eqb_neq in E. by destruct Hx. Qed.

Ltac wide := apply ok_wide; first [apply not_narrow; assumption | apply (proj1 (Z.eqb_eq _ _)); assumption].
Ltac value := first [solve [auto 6 with isa] | (eapply ok_loaded; [|eassumption]; lia) | wide].
Ltac number := first [apply reg_number; lia | apply short_number; lia | unfold X_SP, X_RA; lia].
Ltac get_value := let H := fresh in intros ? H; cbv beta in H.

(** One macro of an instruction at a time. *)
Ltac keep := repeat (cbv beta zeta; lazymatch goal with
  | |- keeps _ (Isa.bind (RS1 _ _) _) => eapply keeps_bind; [apply keeps_read; number|get_value]
  | |- keeps _ (Isa.bind (RS2 _ _) _) => eapply keeps_bind; [apply keeps_read; number|get_value]
  | |- keeps _ (Isa.bind (RVC_RS1 _ _) _) => eapply keeps_bind; [apply keeps_read; number|get_value]
  | |- keeps _ (Isa.bind (RVC_RS2 _ _) _) => eapply keeps_bind; [apply keeps_read; number|get_value]
  | |- keeps _ (Isa.bind (RVC_RS1S _ _) _) => eapply keeps_bind; [apply keeps_read; number|get_value]
  | |- keeps _ (Isa.bind (RVC_RS2S _ _) _) => eapply keeps_bind; [apply keeps_read; number|get_value]
  | |- keeps _ (Isa.bind (RVC_SP _ _) _) => eapply keeps_bind; [apply keeps_read; number|get_value]
  | |- keeps _ (Isa.bind (MMU_load _ _ _) _) => eapply keeps_bind; [apply keeps_load; lia|get_value]
  | |- keeps _ (Isa.bind (set_pc _ _) _) => eapply keeps_bind; [apply keeps_set_pc|get_value]
  | |- keeps _ (Isa.bind _ _) => eapply keeps_bind; [apply keeps_require|get_value]
  | |- keeps _ (Isa.ret _) => apply keeps_ret
  | |- keeps _ unmodelled => apply keeps_unmodelled; apply (proj1 (Z.eqb_eq _ _)); assumption
  | |- keeps _ (Isa.throw _) => apply keeps_throw
  | |- keeps _ (if _ then _ else _) => apply keeps_if; intros
  | |- keeps _ (plain _ (MMU_store _ _ _ _)) => apply keeps_plain; [assumption|apply keeps_store; lia]
  | |- keeps _ (plain _ _) => apply keeps_plain; [assumption|apply keeps_write; [number|value]]
  | |- keeps _ (branch _ _ _ _ _) => apply keeps_branch; [assumption|]
  | |- keeps _ (set_pc _ _) => apply keeps_set_pc
  end).

Ltac unfold_insn := lazymatch goal with |- keeps _ ?t => let h := head_of t in unfold h end.

Lemma target_even p k : pc_ok p -> k mod 2 = 0 -> (p + k) mod 2 = 0.
Proof. intros [_ Hp] Hk. by rewrite Zplus_mod, Hp, Hk. Qed.

Lemma keeps_npc (m : X Z) : keeps pc_ok m -> keeps npc_ok m.
Proof. intros Hm. eapply keeps_post; [done|]. by left. Qed.

Lemma clear_even v : (u64 v .& u64 (Z.lnot 1)) mod 2 = 0.
Proof. apply pc_clear. apply uwrap_range. lia. Qed.

Lemma reg_clear_even v : ok_reg v -> (v .& u64 (Z.lnot 1)) mod 2 = 0.
Proof. intros Hv. apply pc_clear. by eapply reg_range. Qed.

(** Parity of the addresses of jumps from [p]. *)
Ltac target Ht := first
  [ assumption
  | apply clear_even
  | apply reg_clear_even; assumption
  | rewrite ?u64_parity; apply Ht; first [apply sb_imm_even | apply uj_imm_even | apply rvc_j_imm_even | apply rvc_b_imm_even ] ].

Ltac insn Ht := apply keeps_npc; unfold_insn; keep; target Ht.

Lemma keeps_base o b p npc : o ∈ riscv_insn_ext_i ++ riscv_insn_ext_m -> pc_ok p -> pc_ok npc -> ok_reg (u64 npc) -> keeps npc_ok (body isa o b p npc).
Proof.
  intros Ho Hp Hn Hr. pose proof (fun k => target_even p k Hp) as Ht.
  unfold riscv_insn_ext_i, riscv_insn_ext_m in Ho. simpl in Ho. cases_in Ho; unfold body.
  all: try (insn Ht; fail).
  - apply keeps_npc. by apply keeps_fence_i.
  - apply keeps_npc. by apply keeps_break.
  - unfold insn_ecall. intros s Hs. unfold get, Isa.bind, Isa.throw, stuck. pose proof (hart_prv isa _ (state_hart _ Hs)) as Hprv. unfold is_mode in Hprv.
    destruct (Z.eqb_spec (st_prv (cpu s)) PRV_U); [done|]. destruct (Z.eqb_spec (st_prv (cpu s)) PRV_S); [done|]. destruct (Z.eqb_spec (st_prv (cpu s)) PRV_M); [done|]. tauto.
  - eapply keeps_post; [apply keeps_returning|]; [intros ? ? ?; apply mret_ok|intros ? ? ?; apply mret_frame|by right].
  - eapply keeps_post; [apply keeps_returning|]; [intros ? ? ?; apply sret_ok|intros ? ? ?; apply sret_frame|by right].
Qed.

Lemma keeps_compressed o b p npc : o ∈ riscv_insn_ext_c ++ riscv_insn_ext_zcb -> pc_ok p -> pc_ok npc -> ok_reg (u64 npc) -> keeps npc_ok (body isa o b p npc).
Proof.
  intros Ho Hp Hn Hr. pose proof (fun k => target_even p k Hp) as Ht.
  unfold riscv_insn_ext_c, riscv_insn_ext_zcb in Ho. simpl in Ho. cases_in Ho; unfold body.
  all: try (insn Ht; fail).
  all: apply keeps_npc; unfold_insn; keep; try (unfold zcf_guard; keep; fail).
  - by apply keeps_break.
  - unfold insn_c_mop_N. by keep.
  - done.
Qed.

Lemma lengths_even o : (insn_length (MATCH o)) mod 2 = 0.
Proof. unfold insn_length. by repeat case_match. Qed.

Lemma opcode_cases o : o ∈ riscv_insn_list \/ o = illegal_instruction \/ exists n, o = other n.
Proof.
  destruct o; [left; apply list_elem_of_In; cbn; repeat first [left; reflexivity | right]..| |]; eauto.
Qed.

(** Executing an instruction of the tables ends well, whatever the word; on RV32 the
    compressed loads and stores of floating-point registers are not modelled. *)
Lemma keeps_execute o b p : known o = true -> pc_ok p -> keeps npc_ok (execute isa o b p).
Proof.
  intros Hk Hp. unfold execute. set (npc := u64 _). assert (pc_ok npc) as Hn by (apply pc_sext; [done|]; apply target_even; [done|apply lengths_even]).
  assert (ok_reg (u64 npc)) as Hr by apply ok_npc.
  destruct (opcode_cases o) as [Ho|[->|[n ->]]]; [|apply keeps_throw|done].
  unfold riscv_insn_list in Ho. rewrite !app_assoc in Ho. rewrite <- (app_assoc _ riscv_insn_ext_c) in Ho. apply elem_of_app in Ho as [Ho|Ho]; [by apply keeps_base|by apply keeps_compressed].
Qed.
End Facts.
