(* ===== verification/Step.v ===== *)
(** * Spike: the loop of a hart

    Model of the instruction cache ([src/riscv-isa-sim/riscv/mmu.h]) and of
    [processor_t::step] ([execute.cc]): the fast and the slow loop, how a batch of
    instructions ends, and when the counters move.  Triggers, WFI and logging are
    left out. *)

From stdpp Require Import base option list gmap.
From S2P Require Import Prelude.
From S2P Require Import Arith.
From S2P Require Import Pmp.
From S2P Require Import Devices.
From S2P Require Import Mmu.
From S2P Require Import BranchStats.
From S2P Require Import Decode.
From S2P Require Import Memory.
From S2P Require Import Csrs.
From S2P Require Import Isa.

Definition ICACHE_ENTRIES : Z := 1024.
Definition PC_ALIGN : Z := 2.

Inductive halt_request_t : Type := HR_NONE | HR_REGULAR | HR_GROUP.

(** How the inner loop ended: the counted instructions ran or one of them wants the
    loop restarted; a trap at an address; the trap into debug mode; an [abort] or an
    undefined access; an instruction that is not modelled. *)
Inductive ending : Type := Completed | Trapped (t : trap_t) (epc : Z) | DebugTrapped | Lost | Outside.

(** The end of [step]. *)
Inductive run_result (S : Type) : Type := Ran (s : S) | OutOfFuel | Undefined | NotModelled.
Arguments Ran {S} s.
Arguments OutOfFuel {S}.
Arguments Undefined {S}.
Arguments NotModelled {S}.

Section Step.
Context (isa : isa_t) {D : Type} `{Memory D} {Pp Tp : Type} `{!BranchPredictor Pp} `{!BranchPredictor Tp}.

Local Notation state := (state_t D Pp Tp).
Local Notation X := (@X D Pp Tp).
Local Notation "x <-- m ; f" := (Isa.bind m (fun x => f)) (at level 100, m at next level, f at level 200, right associativity).

(** ** Fetching *)

Definition icache_index (addr : Z) : Z := (addr / PC_ALIGN) mod ICACHE_ENTRIES.

Definition fetch_parcel (addr : Z) : X Z := of_memory isa (fun h d => mem_fetch h d (u64 addr)).

Definition read_insn (addr : Z) : X Z :=
  insn <-- fetch_parcel addr ;
  let length := insn_length insn in
  if length =? 4 then p1 <-- fetch_parcel (addr + 2) ; Isa.ret (insn .| (p1 .<< 16))
  else if length =? 2 then Isa.ret insn
  else if length =? 6 then
    p1 <-- fetch_parcel (addr + 2) ; p2 <-- fetch_parcel (addr + 4) ; Isa.ret (insn .| (p1 .<< 16) .| (p2 .<< 32))
  else
    p1 <-- fetch_parcel (addr + 2) ; p2 <-- fetch_parcel (addr + 4) ; p3 <-- fetch_parcel (addr + 6) ;
    Isa.ret (insn .| (p1 .<< 16) .| (p2 .<< 32) .| (p3 .<< 48)).

Definition decode (insn : Z) : X opcode := fun s : state =>
  match decode_insn illegal_instruction (decode_tables s) insn with
  | Some (f, d) => (Done f, set_decoder s d)
  | None => (Stuck, s)
  end.

(** [load_insn] is the same with an entry that is thrown away. *)
Definition refill (addr : Z) : X icache_entry_t :=
  insn <-- read_insn addr ;
  f <-- decode insn ;
  Isa.ret (ICache addr (icache_index (addr + insn_length insn)) (Fetch f insn)).

Definition tag_hit (slot addr : Z) : X (option icache_entry_t) := fun s : state =>
  (Done (match icache (cpu s) !! slot with Some e => if tag e =? addr then Some e else None | None => None end), s).

Definition fill_slot (slot : Z) (e : icache_entry_t) : X unit := fun s : state =>
  (Done tt, set_cpu s (set_icache (cpu s) (<[slot := e]> (icache (cpu s))))).

Definition access_icache (addr : Z) : X icache_entry_t :=
  hit <-- tag_hit (icache_index addr) addr ;
  match hit with
  | Some e => Isa.ret e
  | None => e <-- refill addr ; _ <-- fill_slot (icache_index addr) e ; Isa.ret e
  end.

(** ** The loops

    The ending, the instructions counted and the state. *)

Definition invalid_pc (p : Z) : bool := nz (p .& 1).

(** [advance_pc]: [None] goes on, otherwise the loop is left. *)
Definition advance_pc (npc instret : Z) (s : state) : option ending * Z * state :=
  if invalid_pc npc then
    if npc =? PC_SERIALIZE_AFTER then (Some Completed, instret + 1, s) else (Some Lost, instret, s)
  else (None, instret + 1, set_pc_reg s npc).

(** What an exception makes of the loop. *)
Definition stopped {A} (o : outcome A) (p : Z) : ending :=
  match o with Raise t => Trapped t p | RaiseDebug => DebugTrapped | Unmodelled => Outside | _ => Lost end.

(** One instruction from a fetched entry, and its next address. *)
Definition run_entry (e : icache_entry_t) : X Z := fun s : state => execute isa (fetch_func (data e)) (fetch_insn (data e)) (pc s) s.

(** [k] instructions are left; [cur] is the entry the inner loop goes on with. *)
Fixpoint fast_loop (k : nat) (cur : option icache_entry_t) (instret : Z) (s : state) : ending * Z * state :=
  match k with
  | O => (Completed, instret, s)
  | S k =>
      match (match cur with Some e => Isa.ret e | None => access_icache (pc s) end) s with
      | (Done e, s1) =>
          match run_entry e s1 with
          | (Done npc, s2) =>
              match tag_hit (next e) npc s2 with
              | (Done (Some e'), _) =>
                  if (k =? 0)%nat then
                    match advance_pc npc instret s2 with (Some en, i, s3) => (en, i, s3) | (None, i, s3) => fast_loop k None i s3 end
                  else fast_loop k (Some e') (instret + 1) (set_pc_reg s2 npc)
              | _ => match advance_pc npc instret s2 with (Some en, i, s3) => (en, i, s3) | (None, i, s3) => fast_loop k None i s3 end
              end
          | (o, s2) => (stopped o (pc s), instret, s2)
          end
      | (o, s1) => (stopped o (pc s), instret, s1)
      end
  end.

Definition debug_entry (s : state) (cause : Z) : state :=
  let '(h, p) := enter_debug_mode isa (cpu s) (pc s) cause in set_pc_reg (set_cpu s h) p.

Definition set_step (s : state) (x : single_step_t) : state := set_cpu s (set_single_step (cpu s) x).

(** The start of an iteration of the slow loop: [inr] leaves it. *)
Definition slow_check (s : state) : state + state :=
  match single_step (cpu s) with
  | STEP_STEPPED =>
      let s := set_step s STEP_NONE in
      if st_debug_mode (cpu s) then inl s else inr (debug_entry s DCSR_CAUSE_STEP)
  | STEP_STEPPING => inl (set_step s STEP_STEPPED)
  | STEP_NONE => inl s
  end.

Fixpoint slow_loop (k : nat) (instret : Z) (s : state) : ending * Z * state :=
  match k with
  | O => (Completed, instret, s)
  | S k =>
      match slow_check s with
      | inr s => (Completed, instret, s)
      | inl s =>
          match refill (pc s) s with
          | (Done e, s1) =>
              match run_entry e s1 with
              | (Done npc, s2) => match advance_pc npc instret s2 with (Some en, i, s3) => (en, i, s3) | (None, i, s3) => slow_loop k i s3 end
              | (o, s2) => (stopped o (pc s), instret, s2)
              end
          | (o, s1) => (stopped o (pc s), instret, s1)
          end
      end
  end.

(** ** A batch *)

Definition slow_path (h : hart D) : bool := negb (match single_step h with STEP_NONE => true | _ => false end) || st_debug_mode h.

Definition batch (n : nat) (s : state) : ending * Z * state :=
  match take_pending_interrupt isa (cpu s) with
  | None => (Lost, 0, s)
  | Some (Some t) => (Trapped t (pc s), 0, s)
  | Some None => if slow_path (cpu s) then slow_loop n 0 s else fast_loop n None 0 s
  end.

(** The handlers: the new [n] is [instret] after a trap. *)
Definition handle (n : Z) (r : ending * Z * state) : Z * Z * state + run_result state :=
  let '(en, instret, s) := r in
  match en with
  | Completed => inl (n, instret, s)
  | Trapped t epc =>
      let '(h, p) := take_trap isa (cpu s) t epc in
      let s := set_pc_reg (set_cpu s h) p in
      inl (instret, instret, match single_step (cpu s) with STEP_STEPPED => debug_entry (set_step s STEP_NONE) DCSR_CAUSE_STEP | _ => s end)
  | DebugTrapped => inl (n, instret, debug_entry s DCSR_CAUSE_SWBP)
  | Lost => inr Undefined
  | Outside => inr NotModelled
  end.

Definition count (s : state) (instret : Z) : state :=
  set_cpu s (bump (bump (cpu s) MINSTRET MINSTRETCFG instret) MCYCLE MCYCLECFG instret).

(** [fuel] bounds the turns of the outer loop. *)
Fixpoint step_loop (fuel : nat) (n : Z) (s : state) : run_result state :=
  if n <=? 0 then Ran s else
  match fuel with
  | O => OutOfFuel
  | S fuel =>
      let s := set_cpu s (set_changed (cpu s) false false) in
      match handle n (batch (Z.to_nat n) s) with
      | inl (n, instret, s) => step_loop fuel (n - instret) (count s instret)
      | inr r => r
      end
  end.

Definition halting (req : halt_request_t) (s : state) : state :=
  if st_debug_mode (cpu s) then s else
  match req with
  | HR_REGULAR => debug_entry s DCSR_CAUSE_DEBUGINT
  | HR_GROUP => debug_entry s DCSR_CAUSE_GROUP
  | HR_NONE => if dcsr_halt (dcsr (cpu s)) then debug_entry s DCSR_CAUSE_HALT else s
  end.

Definition step (fuel : nat) (req : halt_request_t) (n : Z) (s : state) : run_result state := step_loop fuel n (halting req s).
End Step.
