(* ===== verification/StepFacts.v ===== *)
(** * Spike: facts about the loop of a hart

    Fetching and the two loops keep the invariant of the processor; the fast loop,
    with its chain of cached entries, is the loop that fetches every instruction; and
    the outer loop ends.

    The branches and markers of the instructions a batch executes, in program order,
    and that the statistics of [BranchStats] are those of that sequence. *)

From stdpp Require Import base option list gmap functions.
From S2P Require Import Prelude.
From S2P Require Import BranchStats.
From S2P Require Import Arith.
From S2P Require Import Pmp.
From S2P Require Import Devices.
From S2P Require Import Mmu.
From S2P Require Import Decode.
From S2P Require Import DecodeTheorems.
From S2P Require Import Memory.
From S2P Require Import Csrs.
From S2P Require Import CsrFacts.
From S2P Require Import Isa.
From S2P Require Import IsaFacts.
From S2P Require Import Step.

Section Facts.
Context (isa : isa_t) {D : Type} `{!Memory D} {Pp Tp : Type} `{!BranchPredictor Pp} `{!BranchPredictor Tp}.
Context (Hx : max_xlen isa = 32 \/ max_xlen isa = 64).
Context (ds : list (insn_desc_t opcode)) (Hds : decodable ds) (Hkn : forall d, d ∈ ds -> known (func d) = true).
Local Notation state := (state_t D Pp Tp).
Local Notation X := (@X D Pp Tp).
Local Notation state_ok := (IsaFacts.state_ok (Pp := Pp) (Tp := Tp) isa ds).
Local Notation keeps := (IsaFacts.keeps (Pp := Pp) (Tp := Tp) isa ds).
Local Notation hart_ok := (CsrFacts.hart_ok isa).
Implicit Types s : state.

(** ** Fetching *)

Lemma keeps_parcel addr : addr mod 2 = 0 -> keeps (fun v => 0 <= v < 2 ^ 16) (fetch_parcel isa addr).
Proof. intros Ha. apply keeps_memory. intros h d Hh Hm Hd. apply mem_fetch_ends; [done|done|done|apply uwrap_range; lia|by rewrite u64_parity]. Qed.

Lemma keeps_read_insn addr : addr mod 2 = 0 -> keeps (fun _ => True) (read_insn isa addr).
Proof.
  intros Ha. assert (forall k, k mod 2 = 0 -> (addr + k) mod 2 = 0) as Hk by (intros k Hk; by rewrite Zplus_mod, Ha, Hk).
  unfold read_insn. eapply keeps_bind; [by apply keeps_parcel|]. intros insn _. cbv beta zeta.
  repeat (apply keeps_if; intros); repeat (eapply keeps_bind; [apply keeps_parcel; by apply Hk|intros ? _; cbv beta]); by apply keeps_ret.
Qed.

Lemma decodes_known bits f : decodes illegal_instruction ds bits f \/ bits = 0 /\ f = illegal_instruction -> known f = true.
Proof. intros [[(d & Hd & _ & <- & _)|[-> _]]|[_ ->]]; [by apply Hkn|done|done]. Qed.

Lemma keeps_decode insn : keeps (fun f => known f = true) (decode insn).
Proof.
  intros s Hs. unfold decode. destruct (decode_insn_ok illegal_instruction ds (decode_tables s) insn Hds (state_decoder _ _ _ Hs)) as (f & d & -> & Hd & Hf).
  simpl. split; [done|]. split; [|by eapply decodes_known]. destruct Hs. by split.
Qed.

Notation entry_ok addr := (fun e : icache_entry_t => tag e = addr /\ known (fetch_func (data e)) = true).

Lemma keeps_refill addr : pc_ok addr -> keeps (entry_ok addr) (refill isa addr).
Proof.
  intros [_ Ha]. unfold refill. eapply keeps_bind; [by apply keeps_read_insn|]. intros insn _. eapply keeps_bind; [apply keeps_decode|]. intros f Hf. by apply keeps_ret.
Qed.

Lemma keeps_tag_hit slot addr : keeps (fun r => forall e, r = Some e -> tag e = addr /\ known (fetch_func (data e)) = true) (tag_hit slot addr).
Proof.
  intros s Hs. unfold tag_hit. simpl. split; [done|]. split; [done|]. intros e. destruct (_ !! slot) as [e'|] eqn:El; [|done].
  destruct (Z.eqb_spec (tag e') addr); [|done]. intros [= <-]. by destruct (hart_icache isa _ (state_hart _ _ _ Hs) _ _ El) as (_ & _ & ?).
Qed.

Lemma keeps_fill e : pc_ok (tag e) -> known (fetch_func (data e)) = true -> keeps (fun _ => True) (fill_slot (icache_index (tag e)) e).
Proof.
  intros He Hf s Hs. unfold fill_slot. simpl. split; [by split|]. split; [|done]. apply state_set_cpu; [done|].
  destruct (state_hart _ _ _ Hs). split; try done. intros i e'. simpl. rewrite lookup_insert. destruct (decide _) as [<-|]; [|auto]. by intros [= <-].
Qed.

Lemma keeps_access addr : pc_ok addr -> keeps (entry_ok addr) (access_icache isa addr).
Proof.
  intros Ha. unfold access_icache. eapply keeps_bind; [apply keeps_tag_hit|]. intros [e|] He; [apply keeps_ret; by apply He|].
  eapply keeps_bind; [by apply keeps_refill|]. intros e [<- Hek]. eapply keeps_bind; [by apply keeps_fill|]. intros _ _. by apply keeps_ret.
Qed.

Lemma keeps_run e : known (fetch_func (data e)) = true -> keeps npc_ok (run_entry isa e).
Proof. intros He s Hs. apply (keeps_execute isa Hx ds (fetch_func (data e)) (fetch_insn (data e)) (pc s) He (state_pc _ _ _ Hs) s Hs). Qed.

(** An entry is the one its tag is looked up in, so a hit through the chain is the
    hit of a new access. *)
Lemma chain_is_access s slot npc e : state_ok s -> tag_hit slot npc s = (Done (Some e), s) -> pc_ok npc /\ access_icache isa npc s = (Done e, s).
Proof.
  intros Hs. unfold tag_hit. intros E. destruct (icache (cpu s) !! slot) as [e'|] eqn:El; [|done]. destruct (Z.eqb_spec (tag e') npc) as [Et|]; [|done].
  injection E as <-. destruct (hart_icache _ _ (state_hart _ _ _ Hs) _ _ El) as (Hp & Hi & _). rewrite Et in *. split; [done|].
  unfold access_icache, Isa.bind, tag_hit, icache_index, PC_ALIGN, ICACHE_ENTRIES. rewrite <- Hi, El, Et, Z.eqb_refl. done.
Qed.

Lemma even_valid p : pc_ok p -> invalid_pc p = false.
Proof. intros [_ Hp]. unfold invalid_pc. apply nz_false. by rewrite (land_mod p 1 1) by lia. Qed.

(** ** The loop one instruction at a time *)

Fixpoint one_by_one (k : nat) (instret : Z) (s : state) : ending * Z * state :=
  match k with
  | O => (Completed, instret, s)
  | S k =>
      match access_icache isa (pc s) s with
      | (Done e, s1) =>
          match run_entry isa e s1 with
          | (Done npc, s2) => match advance_pc npc instret s2 with (Some en, i, s3) => (en, i, s3) | (None, i, s3) => one_by_one k i s3 end
          | (o, s2) => (stopped o (pc s), instret, s2)
          end
      | (o, s1) => (stopped o (pc s), instret, s1)
      end
  end.

Lemma state_set_pc s p : state_ok s -> pc_ok p -> state_ok (set_pc_reg s p).
Proof. intros [] Hp. by split. Qed.

(** What an access and an execution give. *)
Lemma access_cases s : state_ok s ->
  match access_icache isa (pc s) s with (Done e, s1) => state_ok s1 /\ hframe (cpu s) (cpu s1) /\ known (fetch_func (data e)) = true | (Raise _, s1) => state_ok s1 /\ hframe (cpu s) (cpu s1) | (Stuck, _) => False
  | (RaiseDebug, s1) => state_ok s1 /\ hframe (cpu s) (cpu s1) /\ st_debug_mode (cpu s) = false | (Unmodelled, s1) => hframe (cpu s) (cpu s1) /\ max_xlen isa = 32 end.
Proof.
  intros Hs. destruct (keeps_access (pc s) (state_pc _ _ _ Hs) s Hs) as [F Hr]. destruct (access_icache isa (pc s) s) as [[e|t| | |] s1]; simpl in *; tauto.
Qed.

Lemma run_cases e s : known (fetch_func (data e)) = true -> state_ok s ->
  match run_entry isa e s with (Done npc, s1) => state_ok s1 /\ hframe (cpu s) (cpu s1) /\ npc_ok npc | (Raise _, s1) => state_ok s1 /\ hframe (cpu s) (cpu s1) | (Stuck, _) => False
  | (RaiseDebug, s1) => state_ok s1 /\ hframe (cpu s) (cpu s1) /\ st_debug_mode (cpu s) = false | (Unmodelled, s1) => hframe (cpu s) (cpu s1) /\ max_xlen isa = 32 end.
Proof.
  intros He Hs. destruct (keeps_run e He s Hs) as [F Hr]. destruct (run_entry isa e s) as [[npc|t| | |] s1]; simpl in *; tauto.
Qed.

Lemma fast_is_one_by_one k : forall i s, state_ok s -> fast_loop isa k None i s = one_by_one k i s.
Proof.
  induction k as [|k IH]; intros i s Hs; [done|]. cbn [fast_loop one_by_one]. pose proof (access_cases s Hs) as Ha.
  destruct (access_icache isa (pc s) s) as [[e|t| | |] s1]; try done. destruct Ha as (Hs1 & _ & He).
  pose proof (run_cases e s1 He Hs1) as Hr. destruct (run_entry isa e s1) as [[npc|t| | |] s2]; try done. destruct Hr as (Hs2 & _ & Hn).
  assert (match advance_pc npc i s2 with (Some en, j, s3) => (en, j, s3) | (None, j, s3) => fast_loop isa k None j s3 end =
          match advance_pc npc i s2 with (Some en, j, s3) => (en, j, s3) | (None, j, s3) => one_by_one k j s3 end) as Eadv.
  { unfold advance_pc. destruct (invalid_pc npc) eqn:Ei; [by destruct (npc =? _)|]. apply IH. apply state_set_pc; [done|]. destruct Hn as [| ->]; [done|]. done. }
  destruct (tag_hit (next e) npc s2) as [o s2'] eqn:Eh. assert (s2' = s2) as -> by (unfold tag_hit in Eh; by injection Eh).
  destruct o as [[e'|]|t| | |]; try exact Eadv. destruct (Nat.eqb_spec k 0) as [|Hk]; [exact Eadv|].
  assert (tag_hit (next e) npc (set_pc_reg s2 npc) = (Done (Some e'), set_pc_reg s2 npc)) as Eh' by (unfold tag_hit in *; injection Eh as Eh; change (cpu (set_pc_reg s2 npc)) with (cpu s2); by rewrite Eh).
  destruct (chain_is_access s2 _ _ _ Hs2 Eh) as [Hp _]. assert (state_ok (set_pc_reg s2 npc)) as Hs3 by (by apply state_set_pc).
  destruct (chain_is_access _ _ _ _ Hs3 Eh') as [_ Hacc]. unfold advance_pc. rewrite even_valid by done.
  rewrite <- IH by done. destruct k as [|k]; [done|]. cbn [fast_loop]. change (pc (set_pc_reg s2 npc)) with npc. by rewrite Hacc.
Qed.

(** ** How the loops end *)

Definition loop_ok (s : state) (k i : Z) (r : ending * Z * state) : Prop :=
  let '(en, j, s') := r in
  i <= j <= i + k /\ csr (cpu s') MINSTRET = csr (cpu s) MINSTRET /\
  match en with
  | Completed => state_ok s' /\ (j = i + k \/ i < j \/ (st_debug_mode (cpu s) = false /\ st_debug_mode (cpu s') = true)) /\
      (st_debug_mode (cpu s) = true -> st_debug_mode (cpu s') = true)
  | Trapped t epc => state_ok s' /\ pc_ok epc
  | DebugTrapped => state_ok s' /\ st_debug_mode (cpu s) = false
  | Lost => False
  | Outside => max_xlen isa = 32
  end.

Lemma hframe_minstret (h h' : hart D) : hframe h h' -> csr h' MINSTRET = csr h MINSTRET /\ st_debug_mode h' = st_debug_mode h.
Proof. intros F. split; [apply (frame_csr _ _ F); in_list|apply (frame_debug _ _ F)]. Qed.

(** A step of the loop in front of the rest. *)
Lemma loop_ok_step s s3 k i r : 0 <= k -> csr (cpu s3) MINSTRET = csr (cpu s) MINSTRET -> st_debug_mode (cpu s3) = st_debug_mode (cpu s) ->
  loop_ok s3 k (i + 1) r -> loop_ok s (k + 1) i r.
Proof.
  intros Hk Hm Hd. destruct r as [[en j] s']. unfold loop_ok. rewrite Hm, Hd. intros (Hj & Hc & H). split; [lia|]. split; [done|].
  destruct en; try done. destruct H as (H1 & H2 & H3). split_and!; try done. lia.
Qed.

(** One instruction from a fetched entry, then the rest of either loop. *)
Lemma advance_ok s e s1 k i rest : known (fetch_func (data e)) = true -> state_ok s -> state_ok s1 -> hframe (cpu s) (cpu s1) -> 0 <= k ->
  (forall s3, state_ok s3 -> loop_ok s3 k (i + 1) (rest (i + 1) s3)) ->
  loop_ok s (k + 1) i (match run_entry isa e s1 with
    | (Done npc, s2) => match advance_pc npc i s2 with (Some en, j, s3) => (en, j, s3) | (None, j, s3) => rest j s3 end
    | (o, s2) => (stopped o (pc s), i, s2) end).
Proof.
  intros He Hs Hs1 F1 Hk0 Hrest. destruct (hframe_minstret _ _ F1) as [M1 B1]. pose proof (run_cases e s1 He Hs1) as Hr.
  destruct (run_entry isa e s1) as [[npc|t| | |] s2]; simpl.
  - destruct Hr as (Hs2 & F2 & Hn). destruct (hframe_minstret _ _ F2) as [M2 B2]. unfold advance_pc. destruct Hn as [Hn| ->].
    + rewrite even_valid by done. apply (loop_ok_step s (set_pc_reg s2 npc)); [done|simpl; congruence|simpl; congruence|]. apply Hrest. by apply state_set_pc.
    + change (invalid_pc PC_SERIALIZE_AFTER) with true. cbn [Z.eqb]. unfold loop_ok. split_and!; try lia; try done; try congruence.
  - destruct Hr as [Hs2 F2]. destruct (hframe_minstret _ _ F2) as [M2 B2]. split_and!; try lia; try done; try congruence. apply (state_pc _ _ _ Hs).
  - destruct Hr as (Hs2 & F2 & Hd). destruct (hframe_minstret _ _ F2) as [M2 B2]. split_and!; try lia; try done; congruence.
  - done.
  - destruct Hr as [F2 Hn]. destruct (hframe_minstret _ _ F2) as [M2 B2]. split_and!; try lia; try done; congruence.
Qed.

Lemma one_by_one_ok k : forall i s, state_ok s -> loop_ok s (Z.of_nat k) i (one_by_one k i s).
Proof.
  induction k as [|k IH]; intros i s Hs; [simpl; split_and!; try done; lia|]. cbn [one_by_one]. rewrite Nat2Z.inj_succ, <- Z.add_1_r.
  pose proof (access_cases s Hs) as Ha. destruct (access_icache isa (pc s) s) as [[e|t| | |] s1].
  - destruct Ha as (Hs1 & F1 & He). apply (advance_ok s e s1 _ _ (one_by_one k)); [done|done|done|done|lia|]. intros s3 Hs3. by apply IH.
  - destruct Ha as [Hs1 F1]. destruct (hframe_minstret _ _ F1) as [M2 B2]. cbn [stopped]. unfold loop_ok. split_and!; try lia; try done. apply (state_pc _ _ _ Hs).
  - destruct Ha as (Hs1 & F1 & Hd). destruct (hframe_minstret _ _ F1) as [M2 B2]. cbn [stopped]. unfold loop_ok. split_and!; try lia; done.
  - done.
  - destruct Ha as [F1 Hn]. destruct (hframe_minstret _ _ F1) as [M2 B2]. cbn [stopped]. unfold loop_ok. split_and!; try lia; done.
Qed.

Lemma state_cpu s h : state_ok s -> hart_ok h -> state_ok (set_cpu s h).
Proof. apply state_set_cpu. Qed.

(** Changes of a hart outside the invariant. *)
Lemma hart_other (h h' : hart D) : hart_ok h -> st_prv h' = st_prv h -> st_pmp h' = st_pmp h -> csr h' = csr h -> port h' = port h -> icache h' = icache h -> hart_ok h'.
Proof. intros Hh H1 H0 H2 H3 H4. apply (hart_same_csrs isa h); [done|rewrite H1; apply Hh|done|by rewrite H2|rewrite H3; apply Hh|by left]. Qed.

Lemma set_step_ok s x : state_ok s -> state_ok (set_step s x).
Proof. intros Hs. apply state_set_cpu; [done|]. apply (hart_other (cpu s)); try done. apply (state_hart _ _ _ Hs). Qed.

Lemma debug_entry_ok s c : state_ok s -> state_ok (debug_entry isa s c) /\ st_debug_mode (cpu (debug_entry isa s c)) = true /\ csr (cpu (debug_entry isa s c)) MINSTRET = csr (cpu s) MINSTRET.
Proof.
  intros Hs. unfold debug_entry. pose proof (enter_debug_ok isa (cpu s) (pc s) c (state_hart _ _ _ Hs) (state_pc _ _ _ Hs)) as [Hh Hp].
  destruct (enter_debug_mode isa (cpu s) (pc s) c) as [h p] eqn:E. cbn [fst snd] in *. split; [apply state_set_pc; [by apply state_set_cpu|done]|].
  unfold enter_debug_mode in E. injection E as <- <-. cbn [cpu set_pc_reg set_cpu]. done.
Qed.

Lemma slow_check_ok s : state_ok s ->
  match slow_check isa s with
  | inl s' => state_ok s' /\ st_debug_mode (cpu s') = st_debug_mode (cpu s) /\ csr (cpu s') MINSTRET = csr (cpu s) MINSTRET
  | inr s' => state_ok s' /\ st_debug_mode (cpu s) = false /\ st_debug_mode (cpu s') = true /\ csr (cpu s') MINSTRET = csr (cpu s) MINSTRET
  end.
Proof.
  intros Hs. unfold slow_check. destruct (single_step (cpu s)); [done|by split; [apply set_step_ok|]|].
  assert (state_ok (set_step s STEP_NONE)) as H1 by by apply set_step_ok. cbn zeta. change (st_debug_mode (cpu (set_step s STEP_NONE))) with (st_debug_mode (cpu s)).
  destruct (st_debug_mode (cpu s)) eqn:Ed; [done|]. destruct (debug_entry_ok _ DCSR_CAUSE_STEP H1) as (H2 & H3 & H4). split_and!; done.
Qed.

Lemma slow_loop_ok k : forall i s, state_ok s -> loop_ok s (Z.of_nat k) i (slow_loop isa k i s).
Proof.
  induction k as [|k IH]; intros i s Hs; [simpl; split_and!; try done; lia|]. cbn [slow_loop]. rewrite Nat2Z.inj_succ, <- Z.add_1_r.
  pose proof (slow_check_ok s Hs) as Hc. destruct (slow_check isa s) as [s0|s0].
  - destruct Hc as (Hs0 & Hd & Hm). assert (forall r, loop_ok s0 (Z.of_nat k + 1) i r -> loop_ok s (Z.of_nat k + 1) i r) as Hw by (intros [[en j] s']; unfold loop_ok; by rewrite Hd, Hm).
    apply Hw. destruct (keeps_refill (pc s0) (state_pc _ _ _ Hs0) s0 Hs0) as [F1 Hr]. destruct (hframe_minstret _ _ F1) as [M2 B2].
    destruct (refill isa (pc s0) s0) as [[e|t| | |] s1]; cbn [fst snd] in *.
    + destruct Hr as (Hs1 & _ & He). apply (advance_ok s0 e s1 _ _ (slow_loop isa k)); [done|done|done|done|lia|]. intros s3 Hs3. by apply IH.
    + cbn [stopped]. unfold loop_ok. split_and!; try lia; try done. apply (state_pc _ _ _ Hs0).
    + destruct Hr as [Hs1 Hdm]. cbn [stopped]. unfold loop_ok. split_and!; try lia; done.
    + done.
    + cbn [stopped]. unfold loop_ok. split_and!; try lia; done.
  - destruct Hc as (Hs0 & Hd & Hd' & Hm). unfold loop_ok. split_and!; try lia; try done. right; right. done.
Qed.

(** ** A batch and the handlers *)

Lemma batch_ok n s : state_ok s -> loop_ok s (Z.of_nat n) 0 (batch isa n s).
Proof.
  intros Hs. unfold batch. destruct (take_pending_total isa (cpu s) (state_hart _ _ _ Hs)) as [r ->]. destruct r as [t|].
  - unfold loop_ok. split_and!; try lia; try done. apply (state_pc _ _ _ Hs).
  - destruct (slow_path (cpu s)); [by apply slow_loop_ok|]. rewrite fast_is_one_by_one by done. by apply one_by_one_ok.
Qed.

(** What is left to do, and whether debug mode can still be entered. *)
Definition turns (n : Z) (s : state) : Z := n + (if st_debug_mode (cpu s) then 0 else 1).

Lemma handle_ok n s r : state_ok s -> 0 < n -> loop_ok s n 0 r ->
  match handle isa n r with
  | inl (n', i, s') => state_ok s' /\ 0 <= n' - i /\ (n' - i = 0 \/ turns (n' - i) s' < turns n s)
  | inr NotModelled => max_xlen isa = 32
  | inr _ => False
  end.
Proof.
  intros Hs Hn. destruct r as [[en j] s']. unfold loop_ok, handle, turns. intros (Hj & Hc & H). destruct en.
  - destruct H as (H1 & H2 & H3). split; [done|]. split; [lia|]. destruct (st_debug_mode (cpu s)) eqn:Ed; [rewrite H3 by done|destruct (st_debug_mode (cpu s'))]; destruct H2 as [?|[?|[? ?]]]; try done; try lia.
  - destruct H as [H1 H2]. pose proof (take_trap_ok isa (cpu s') t epc (state_hart _ _ _ H1) H2) as [Hh Hp].
    destruct (take_trap isa (cpu s') t epc) as [h p]. cbn [fst snd] in *. split; [|split; [lia|left; lia]].
    assert (state_ok (set_pc_reg (set_cpu s' h) p)) as H3 by (apply state_set_pc; [by apply state_set_cpu|done]).
    destruct (single_step _); [done|done|]. by apply debug_entry_ok, set_step_ok.
  - destruct H as [H1 H2]. destruct (debug_entry_ok s' DCSR_CAUSE_SWBP H1) as (H3 & H4 & _). split; [done|]. split; [lia|]. right. rewrite H2, H4. lia.
  - done.
  - done.
Qed.

Lemma bump_ok (h : hart D) n config i : hart_ok h -> n ∉ guarded_csrs -> hart_ok (bump h n config i).
Proof. intros Hh Hn. unfold bump. destruct (is_counting_enabled h config); [by apply hart_set_csr|done]. Qed.

Lemma bump_debug (h : hart D) n config i : st_debug_mode (bump h n config i) = st_debug_mode h.
Proof. unfold bump. by destruct (is_counting_enabled h config). Qed.

Lemma count_ok s i : state_ok s -> state_ok (count s i) /\ st_debug_mode (cpu (count s i)) = st_debug_mode (cpu s).
Proof.
  intros Hs. unfold count. split; [|cbn [cpu set_cpu]; by rewrite !bump_debug]. apply state_set_cpu; [done|]. apply bump_ok; [|in_list]. apply bump_ok; [|in_list]. apply (state_hart _ _ _ Hs).
Qed.

Lemma step_loop_ok fuel : forall n s, state_ok s -> 0 <= n -> turns n s <= Z.of_nat fuel ->
  match step_loop isa fuel n s with Ran s' => state_ok s' | NotModelled => max_xlen isa = 32 | _ => False end.
Proof.
  induction fuel as [|fuel IH]; intros n s Hs Hn Ht; cbn [step_loop]; destruct (Z.leb_spec n 0) as [|Hpos]; try done.
  - unfold turns in Ht. destruct (st_debug_mode (cpu s)); lia.
  - set (s0 := set_cpu s (set_changed (cpu s) false false)).
    assert (state_ok s0) as Hs0 by (apply state_set_cpu; [done|]; apply (hart_other (cpu s)); try done; apply (state_hart _ _ _ Hs)).
    pose proof (batch_ok (Z.to_nat n) s0 Hs0) as Hb. rewrite Z2Nat.id in Hb by lia. pose proof (handle_ok n s0 _ Hs0 Hpos Hb) as Hh.
    destruct (handle isa n (batch isa (Z.to_nat n) s0)) as [[[n' i] s']|r]; [|by destruct r].
    destruct Hh as (Hs' & Hni & Hm). destruct (count_ok s' i Hs') as [Hc Hd]. destruct Hm as [Hz|Hm].
    + rewrite Hz. destruct fuel; exact Hc.
    + apply IH; [done|lia|]. unfold turns in *. rewrite Hd. change (st_debug_mode (cpu s0)) with (st_debug_mode (cpu s)) in Hm. lia.
Qed.
End Facts.

Section Trace.
Context (isa : isa_t) {D : Type} `{!Memory D} {Pp Tp : Type} `{!BranchPredictor Pp} `{!BranchPredictor Tp}.
Context (Hx : max_xlen isa = 32 \/ max_xlen isa = 64).
Context (ds : list (insn_desc_t opcode)) (Hds : decodable ds) (Hkn : forall d, d ∈ ds -> known (func d) = true).
Local Notation state := (state_t D Pp Tp).
Local Notation X := (@X D Pp Tp).
Local Notation state_ok := (IsaFacts.state_ok (Pp := Pp) (Tp := Tp) isa ds).
Implicit Types s : state.

(** ** The events of an instruction *)

(** A register an instruction may read. *)
Definition readable s (r : Z) : option Z := if ext isa EXT_E && negb (r <? 16) then None else XPR s !! Z.to_nat r.

Definition condition (o : opcode) : option (Z -> Z -> bool) :=
  match o with
  | beq_ => Some Z.eqb
  | bne_ => Some (fun a b => negb (a =? b))
  | blt_ => Some (fun a b => s64 a <? s64 b)
  | bge_ => Some (fun a b => s64 b <=? s64 a)
  | bltu_ => Some Z.ltb
  | bgeu_ => Some (fun a b => b <=? a)
  | _ => None
  end.

Definition branch_event s (o : opcode) (b p : Z) : list event :=
  match condition o, readable s (rs1 b), readable s (rs2 b) with Some c, Some v1, Some v2 => [EvBranch p (c v1 v2)] | _, _, _ => [] end.

Definition zero_event s (c : Z -> bool) (b p : Z) : list event :=
  match readable s (rvc_rs1s b) with Some v => if ext isa EXT_ZCA then [EvBranch p (c v)] else [] | None => [] end.

Definition marker_event s : list event := match XPR s !! 10%nat with Some m => [EvEbreak m (csr (cpu s) MINSTRET)] | None => [] end.

Definition events s (o : opcode) (b p : Z) : list event :=
  match o with
  | c_beqz_ => zero_event s (fun v => v =? 0) b p
  | c_bnez_ => zero_event s (fun v => negb (v =? 0)) b p
  | ebreak_ => marker_event s
  | c_ebreak_ => if ext isa EXT_ZCA then marker_event s else []
  | _ => branch_event s o b p
  end.

(** ** Instructions without events leave the statistics alone *)

Definition quiet {A} (m : X A) : Prop := forall s, stats (m s).2 = stats s.

Lemma quiet_bind {A B} (m : X A) (f : A -> X B) : quiet m -> (forall a, quiet (f a)) -> quiet (Isa.bind m f).
Proof. intros Hm Hf s. unfold Isa.bind. specialize (Hm s). destruct (m s) as [[a|t| | |] s1]; simpl in *; try done. by rewrite Hf. Qed.

Lemma quiet_if {A} (c : bool) (m1 m2 : X A) : quiet m1 -> quiet m2 -> quiet (if c then m1 else m2).
Proof. by destruct c. Qed.

Lemma quiet_require b c : quiet (require b c).
Proof. unfold require. by destruct c. Qed.

Lemma quiet_check b r : quiet (CHECK_REG isa b r).
Proof. unfold CHECK_REG. apply quiet_if; [apply quiet_require|done]. Qed.

Lemma quiet_read b r : quiet (READ_REG isa b r).
Proof. unfold READ_REG. apply quiet_bind; [apply quiet_check|]. intros _ s. by destruct (XPR s !! _). Qed.

Lemma quiet_write b r v : quiet (WRITE_REG isa b r v).
Proof. unfold WRITE_REG. apply quiet_bind; [apply quiet_check|]. by intros _ s. Qed.

Lemma quiet_align p : quiet (check_pc_alignment isa p).
Proof. intros s. unfold check_pc_alignment. by destruct (nz _). Qed.

Lemma quiet_set_pc p : quiet (set_pc isa p).
Proof. unfold set_pc. apply quiet_bind; [apply quiet_align|by intros _ s]. Qed.

Lemma quiet_memory {A} (f : hart_t -> D -> result A * D) : quiet (of_memory isa f).
Proof. intros s. unfold of_memory. destruct (f _ _) as [[a|t|] d]; done. Qed.

Lemma quiet_returning r : quiet (returning r).
Proof. intros s. unfold returning. destruct (r (cpu s)) as [t|[h p]]; done. Qed.

Lemma quiet_plain npc m : quiet m -> quiet (plain npc m).
Proof. intros Hm. apply quiet_bind; [done|by intros _ s]. Qed.

Ltac hush := repeat (cbv beta zeta; lazymatch goal with
  | |- quiet (READ_REG _ _ _) => apply quiet_read
  | |- quiet (WRITE_REG _ _ _ _) => apply quiet_write
  | |- quiet (RS1 _ _) => apply quiet_read
  | |- quiet (RS2 _ _) => apply quiet_read
  | |- quiet (RVC_RS1 _ _) => apply quiet_read
  | |- quiet (RVC_RS2 _ _) => apply quiet_read
  | |- quiet (RVC_RS1S _ _) => apply quiet_read
  | |- quiet (RVC_RS2S _ _) => apply quiet_read
  | |- quiet (RVC_SP _ _) => apply quiet_read
  | |- quiet (WRITE_RD _ _ _) => apply quiet_write
  | |- quiet (WRITE_RVC_RS1S _ _ _) => apply quiet_write
  | |- quiet (WRITE_RVC_RS2S _ _ _) => apply quiet_write
  | |- quiet (MMU_load _ _ _) => apply quiet_memory
  | |- quiet (MMU_store _ _ _ _) => apply quiet_memory
  | |- quiet (set_pc _ _) => apply quiet_set_pc
  | |- quiet (plain _ _) => apply quiet_plain
  | |- quiet (if _ then _ else _) => apply quiet_if
  | |- quiet (Isa.bind _ _) => apply quiet_bind; [|intros ?]
  | |- quiet (returning _) => apply quiet_returning
  | |- quiet (Isa.ret _) => by intros ?
  | |- quiet (Isa.throw _) => by intros ?
  | |- quiet unmodelled => by intros ?
  | |- quiet stuck => by intros ?
  | |- quiet (get _) => by intros ?
  | |- quiet (fun _ => _) => by intros ?
  | |- quiet ?t => let h := head_of t in first [apply quiet_require | unfold h]
  end).

Definition speaks (o : opcode) : bool :=
  match o with beq_ | bne_ | blt_ | bge_ | bltu_ | bgeu_ | c_beqz_ | c_bnez_ | ebreak_ | c_ebreak_ => true | _ => false end.

Lemma quiet_body o b p npc : speaks o = false -> quiet (body isa o b p npc).
Proof. destruct o; intros Ho; try discriminate Ho; unfold body; hush. Qed.

Lemma quiet_events s o b p : speaks o = false -> events s o b p = [].
Proof. by destruct o. Qed.

(** ** Instructions with events *)

Lemma read_readable s b r : state_ok s -> 0 <= r < 32 ->
  READ_REG isa b r s = match readable s r with Some v => (Done v, s) | None => (Raise (trap_illegal_instruction b), s) end.
Proof.
  intros Hs Hr. unfold READ_REG, CHECK_REG, require, readable, Isa.bind. destruct (state_regs _ _ _ Hs) as (Hl & _ & _).
  destruct (lookup_lt_is_Some_2 (XPR s) (Z.to_nat r)) as [v Hv]; [lia|]. rewrite Hv. destruct (ext isa EXT_E); simpl; [|by rewrite Hv]. destruct (r <? 16); simpl; [by rewrite Hv|done].
Qed.

Lemma branch_stats s p npc target t : state_ok s -> run_events (stats s) [EvBranch p t] = Some (stats (branch isa p npc target t s).2).
Proof.
  intros Hs. unfold branch, Isa.bind, note_branch. destruct (note_total (stats s) p t (state_stats _ _ _ Hs)) as [q Hq]. rewrite Hq. simpl. rewrite Hq. simpl.
  destruct t; [|done]. by rewrite quiet_set_pc.
Qed.

Lemma branch_events s b p npc target (c : Z -> Z -> bool) : state_ok s ->
  run_events (stats s) (match readable s (rs1 b), readable s (rs2 b) with Some v1, Some v2 => [EvBranch p (c v1 v2)] | _, _ => [] end) =
  Some (stats (Isa.bind (RS1 isa b) (fun x1 => Isa.bind (RS2 isa b) (fun x2 => branch isa p npc target (c x1 x2))) s).2).
Proof.
  intros Hs. unfold RS1, RS2, Isa.bind. rewrite read_readable by (done || apply reg_number; lia).
  destruct (readable s (rs1 b)) as [v1|]; [|done]. rewrite read_readable by (done || apply reg_number; lia).
  destruct (readable s (rs2 b)) as [v2|]; [|done]. by apply branch_stats.
Qed.

Lemma zero_events c s b p npc target : state_ok s ->
  run_events (stats s) (zero_event s c b p) =
  Some (stats (Isa.bind (require_zca isa b) (fun _ => Isa.bind (RVC_RS1S isa b) (fun x1 => branch isa p npc target (c x1))) s).2).
Proof.
  intros Hs. unfold zero_event, require_zca, require_extension, require, RVC_RS1S. unfold Isa.bind at 1.
  destruct (ext isa EXT_ZCA); [|destruct (readable s (rvc_rs1s b)); done]. unfold Isa.ret, Isa.bind. rewrite read_readable by (done || apply short_number; lia).
  destruct (readable s (rvc_rs1s b)) as [v|]; [|done]. by apply branch_stats.
Qed.

Lemma break_events s p len : state_ok s -> run_events (stats s) (marker_event s) = Some (stats (break isa p len s).2).
Proof.
  intros Hs. unfold marker_event, break, roi_ebreak, Isa.bind. destruct (state_regs _ _ _ Hs) as (Hl & _ & _).
  destruct (lookup_lt_is_Some_2 (XPR s) 10) as [m Hm]; [lia|]. rewrite Hm. simpl. destruct (handle_roi_ebreak _ _ _) as [handled q]. simpl.
  destruct handled; [by rewrite quiet_set_pc|]. unfold get. by destruct (to_debug_mode _).
Qed.

(** Every execution gives the statistics its events. *)
Lemma body_events o s b p npc : state_ok s -> run_events (stats s) (events s o b p) = Some (stats (body isa o b p npc s).2).
Proof.
  intros Hs. destruct (speaks o) eqn:Eo; [|by rewrite quiet_events, quiet_body].
  destruct o; try discriminate Eo; cbn [events body]; unfold branch_event; cbn [condition].
  1-6: by apply branch_events.
  - by apply break_events.
  - by apply zero_events.
  - by apply zero_events.
  - unfold insn_c_ebreak, require_zca, require_extension, require. unfold Isa.bind at 1. destruct (ext isa EXT_ZCA); [by apply break_events|done].
Qed.

Lemma entry_stats s (e : icache_entry_t) : state_ok s -> run_events (stats s) (events s (fetch_func (data e)) (fetch_insn (data e)) (pc s)) = Some (stats (run_entry isa e s).2).
Proof. intros Hs. unfold run_entry, execute. by apply body_events. Qed.

(** ** The events of a batch *)

Definition entry_events s (e : icache_entry_t) : list event := events s (fetch_func (data e)) (fetch_insn (data e)) (pc s).

Fixpoint trace (k : nat) s : list event :=
  match k with
  | O => []
  | S k =>
      match access_icache isa (pc s) s with
      | (Done e, s1) =>
          entry_events s1 e ++
          match run_entry isa e s1 with
          | (Done npc, s2) => match advance_pc npc 0 s2 with (None, _, s3) => trace k s3 | _ => [] end
          | _ => []
          end
      | _ => []
      end
  end.

Lemma quiet_access p : quiet (access_icache isa p).
Proof.
  assert (forall a, quiet (fetch_parcel isa a)) as Hp by (intros a; apply quiet_memory).
  unfold access_icache. apply quiet_bind; [by intros s|]. intros [e|]; [by intros s|]. apply quiet_bind; [|intros e; apply quiet_bind; [by intros s|by intros ? s]].
  unfold refill. apply quiet_bind; [|intros insn; apply quiet_bind; [|by intros ? ?]].
  - unfold read_insn. apply quiet_bind; [apply Hp|]. intros insn. repeat apply quiet_if; repeat (apply quiet_bind; [apply Hp|intros ?]); by intros ?.
  - intros s. unfold decode. by destruct (decode_insn _ _ _) as [[f d]|].
Qed.

Lemma run_events_app (p q : processor_t Pp Tp) es es' : run_events p es = Some q -> run_events p (es ++ es') = run_events q es'.
Proof. revert p. induction es as [|e es IH]; intros p; simpl; [by intros [= ->]|]. destruct (BranchStats.step p e); [|done]. simpl. apply IH. Qed.

Lemma run_events_none (p : processor_t Pp Tp) es es' : run_events p es = None -> run_events p (es ++ es') = None.
Proof. revert p. induction es as [|e es IH]; intros p; simpl; [done|]. destruct (BranchStats.step p e); [|done]. simpl. apply IH. Qed.

Lemma one_by_one_events k : forall i s, state_ok s -> run_events (stats s) (trace k s) = Some (stats (one_by_one isa k i s).2).
Proof.
  induction k as [|k IH]; intros i s Hs; [done|]. cbn [trace one_by_one]. pose proof (access_cases isa Hx ds Hds Hkn s Hs) as Ha. pose proof (quiet_access (pc s) s) as Hq.
  destruct (access_icache isa (pc s) s) as [[e|t| | |] s1]; cbn [fst snd] in *; rewrite <- Hq; try done. destruct Ha as (Hs1 & _ & He).
  unfold entry_events. rewrite (run_events_app _ _ _ _ (entry_stats s1 e Hs1)).
  pose proof (run_cases isa Hx ds e s1 He Hs1) as Hr. destruct (run_entry isa e s1) as [[npc|t| | |] s2]; cbn [fst snd]; try done.
  destruct Hr as (Hs2 & _ & Hn). unfold advance_pc. destruct (invalid_pc npc) eqn:Ei; [by destruct (npc =? _)|].
  change (stats s2) with (stats (set_pc_reg s2 npc)). apply IH. apply state_set_pc; [done|]. by destruct Hn as [| ->].
Qed.

(** ** The counter the markers see *)

Definition stamped (c : Z) (e : event) : Prop := match e with EvBranch _ _ => True | EvEbreak _ i => i = c | _ => False end.

Lemma events_stamped s o b p : Forall (stamped (csr (cpu s) MINSTRET)) (events s o b p).
Proof.
  unfold events, branch_event, zero_event, marker_event. destruct o; cbn [condition]; repeat case_match; repeat constructor.
Qed.

Lemma trace_stamped k : forall s, state_ok s -> Forall (stamped (csr (cpu s) MINSTRET)) (trace k s).
Proof.
  induction k as [|k IH]; intros s Hs; [constructor|]. cbn [trace]. pose proof (access_cases isa Hx ds Hds Hkn s Hs) as Ha.
  destruct (access_icache isa (pc s) s) as [[e|t| | |] s1]; try constructor. destruct Ha as (Hs1 & F1 & He). destruct (hframe_minstret _ _ F1) as [M1 _].
  apply Forall_app. split; [rewrite <- M1; apply events_stamped|].
  pose proof (run_cases isa Hx ds e s1 He Hs1) as Hr. destruct (run_entry isa e s1) as [[npc|t| | |] s2]; try constructor. destruct Hr as (Hs2 & F2 & Hn).
  destruct (hframe_minstret _ _ F2) as [M2 _]. unfold advance_pc. destruct (invalid_pc npc) eqn:Ei; [destruct (npc =? _); constructor|].
  rewrite <- M1, <- M2. change (cpu s2) with (cpu (set_pc_reg s2 npc)). apply IH. apply state_set_pc; [done|]. by destruct Hn as [| ->].
Qed.

(** No such event changes the switch of the statistics. *)
Lemma stamped_enabled c es : forall p q : processor_t Pp Tp, Forall (stamped c) es -> run_events p es = Some q -> perceptron_stats_enabled q = perceptron_stats_enabled p.
Proof.
  induction es as [|e es IH]; intros p q Hf Hr; simpl in Hr; [by injection Hr as <-|]. inversion Hf as [|? ? He Hf']; subst.
  destruct (BranchStats.step p e) as [p1|] eqn:Es; [|done]. simpl in Hr. rewrite (IH p1 q Hf' Hr). clear IH Hr Hf Hf'.
  destruct e as [a t|m i|on|kd]; simpl in Es, He; try (injection Es as <-); try done.
  - unfold note_conditional_branch in Es. repeat (destruct (negb _); [by injection Es as <-|]). destruct (predict_kind _ _ _ _) as [[[? ?] ?]|]; simpl in Es; [|done].
    destruct (train_kind _ _ _ _ _) as [[? ?]|]; simpl in Es; [|done]. by injection Es as <-.
  - unfold handle_roi_ebreak. destruct (negb _); [done|]. destruct (m =? ROI_START_MARKER); [done|]. by destruct (m =? ROI_END_MARKER).
Qed.

(** A region opened at a count that is the count of every later marker stays
    empty. *)
Lemma region_empty c es : forall p q : processor_t Pp Tp, Forall (stamped c) es -> run_events p es = Some q -> perceptron_roi_instructions p = 0 -> perceptron_roi_start_instructions p = c ->
  perceptron_roi_instructions q = 0 /\ perceptron_roi_start_instructions q = c.
Proof.
  induction es as [|e es IH]; intros p q Hf Hr Hi Hc; simpl in Hr; [by injection Hr as <-|]. inversion Hf as [|? ? He Hf']; subst.
  destruct (BranchStats.step p e) as [p1|] eqn:Es; [|done]. simpl in Hr. apply (IH p1 q Hf' Hr); clear IH Hr Hf Hf'.
  all: destruct e as [a t|m i|on|kd]; simpl in Es, He; try (injection Es as <-); try done.
  1,3: unfold note_conditional_branch in Es; repeat (destruct (negb _); [by injection Es as <-|]); destruct (predict_kind _ _ _ _) as [[[? ?] ?]|]; simpl in Es; [|done];
    destruct (train_kind _ _ _ _ _) as [[? ?]|]; simpl in Es; [|done]; by injection Es as <-.
  all: unfold handle_roi_ebreak; destruct (negb _); [done|]; destruct (m =? ROI_START_MARKER); [done|]; destruct (m =? ROI_END_MARKER); simpl; try done.
  destruct (roi_active p); [|done]. subst i. rewrite Z.sub_diag, Hi. done.
Qed.
End Trace.
