(* ===== verification/StepDemo.v ===== *)
(** * Spike: a program on a small machine

    A hart of RV64 with a flat memory of bytes instead of the memory system, and a
    loop between region markers, for the witnesses. *)

From stdpp Require Import base option list gmap.
From S2P Require Import Prelude.
From S2P Require Import Arith.
From S2P Require Import Pmp.
From S2P Require Import PmpFacts.
From S2P Require Import Devices.
From S2P Require Import DevicesFacts.
From S2P Require Import Mmu.
From S2P Require Import MmuFacts.
From S2P Require Import MmuStages.
From S2P Require Import MmuDemo.
From S2P Require Import Perceptron.
From S2P Require Import Tage.
From S2P Require Import BranchStats.
From S2P Require Import Decode.
From S2P Require Import DecodeTheorems.
From S2P Require Import Memory.
From S2P Require Import Access.
From S2P Require Import AccessBus.
From S2P Require Import AccessPaths.
From S2P Require Import AccessDemo.
From S2P Require Import Csrs.
From S2P Require Import CsrFacts.
From S2P Require Import Isa.
From S2P Require Import IsaFacts.
From S2P Require Import Step.
From S2P Require Import StepFacts.

(** ** A flat memory *)

Definition flat : Type := gmap Z Z.

Definition flat_byte (m : flat) (a : Z) : Z := u8 (default 0 (m !! a)).

Definition flat_read (m : flat) (addr len : Z) : Z := from_le (map (fun i => flat_byte m (addr + Z.of_nat i)) (seq 0 (Z.to_nat len))).

Definition flat_write (m : flat) (addr : Z) (bytes : list Z) : flat := foldr (fun p m => <[addr + Z.of_nat p.1 := p.2]> m) m (zip (seq 0 (length bytes)) bytes).

Lemma flat_read_range m addr len : 0 <= len -> 0 <= flat_read m addr len < 2 ^ (8 * len).
Proof.
  intros Hl. unfold flat_read. set (l := map _ _). assert (8 * len = 8 * Z.of_nat (length l)) as -> by (unfold l; rewrite length_map, length_seq; lia).
  apply from_le_range, List.Forall_forall. intros x Hx. apply in_map_iff in Hx as (i & <- & _). unfold flat_byte. apply (uwrap_range 8). lia.
Qed.

#[export] Program Instance flat_memory : Memory flat := {|
  mem_load h m addr len := (Ok (flat_read m addr len), m);
  mem_store h m addr len v := (Ok tt, flat_write m addr (to_le (Z.to_nat len) v));
  mem_fetch h m addr := (Ok (flat_read m addr 2), m);
  mem_flush_tlb m := m;
  mem_ready h := True;
  mem_inv m := True
|}.
Next Obligation. done. Qed.
Next Obligation. intros h m addr len _ _ _ _ Hl. split; [done|]. apply flat_read_range. lia. Qed.
Next Obligation. done. Qed.
Next Obligation. intros h m addr _ _ _ _ _. split; [done|]. by apply (flat_read_range m addr 2). Qed.
Next Obligation. done. Qed.

(** ** A hart *)

Definition demo_isa : isa_t :=
  Isa 64 (fun e => match e with EXT_M | EXT_S | EXT_U | EXT_ZCA => true | _ => false end) false true.

Definition demo_dcsr : dcsr_csr_t := Dcsr PRV_M false false 0 false false false false false false.

(** In M-mode with a trap vector and the supervisor's page faults delegated. *)
Definition demo_csr (n : csr_name) : Z :=
  match n with MTVEC => 0x2000 | STVEC => 0x3000 | MEDELEG => 0xb000 | _ => 0 end.

Definition demo_cpu {D} (mem : D) : hart D :=
  HartState PRV_M false PRV_M false false false false STEP_NONE demo_dcsr demo_csr (PmpState (replicate 64 (Pmpaddr 0 0)) 0 2 0 64) ∅ mem.

(** The words of a program, in memory. *)
Definition load_words (addr : Z) (ws : list Z) : flat := flat_write ∅ addr (concat (map (to_le 4) ws)).

(** [li a0, 1; ebreak; li t0, 3; 1: addi t0, t0, -1; bne t0, zero, 1b; li a0, 2;
    ebreak; j .]. *)
Definition demo_program : list Z := [0x00100513; 0x00100073; 0x00300293; 0xfff28293; 0xfe029ee3; 0x00200513; 0x00100073; 0x0000006f].

Definition demo_perceptron : perceptron_predictor_t := default (mk_perceptron 0 0 0 0 [] [] [] 0) (perceptron_new 16 4 4).

Definition demo_stats : processor_t perceptron_predictor_t tage_predictor_t := set_perceptron_stats (processor_new demo_perceptron (tage_new boom_like_default)) true.

Lemma demo_width : max_xlen demo_isa = 32 \/ max_xlen demo_isa = 64.
Proof. by right. Defined.

Lemma demo_stats_ok : predictors_ok (perceptron_predictor demo_stats) (tage_predictor demo_stats).
Proof.
  split.
  - destruct (Perceptron.perceptron_new_wf 16 4 4) as (pp & Hpp & Hwf & _); [unfold Perceptron.good_params; lia|].
    change (Perceptron.wf demo_perceptron). unfold demo_perceptron. by rewrite Hpp.
  - change (Tage.wf (tage_new boom_like_default)). rewrite tage_new_fresh by apply boom_like_default_ok. apply fresh_wf; [apply boom_like_default_ok|apply ref_max_hist_nonneg].
Qed.

Lemma demo_hart_ok {D} `{!Memory D} (m : D) : mem_ready (D := D) (view demo_isa (demo_cpu m)) -> mem_inv m -> hart_ok demo_isa (demo_cpu m).
Proof.
  intros Hr Hi. split; try done; [by right; right|by left| |]; intros n Hn; by destruct n.
Qed.

(** The program at [pc] in a memory. *)
Definition demo_state_at {D} (pc : Z) (m : D) : state_t D perceptron_predictor_t tage_predictor_t :=
  State pc (replicate 32 0) (demo_cpu m) (decoder_new illegal_instruction insn_table) demo_stats.

Lemma demo_state_at_ok {D} `{!Memory D} pc (m : D) : pc_ok pc -> mem_ready (D := D) (view demo_isa (demo_cpu m)) -> mem_inv m -> state_ok demo_isa insn_table (demo_state_at pc m).
Proof.
  intros Hp Hr Hi. split; [done| |by apply demo_hart_ok|apply table_decoder_ok|apply demo_stats_ok].
  split; [done|]. split; [done|]. apply Forall_replicate. by exists 0.
Qed.

Definition demo_state : state_t flat perceptron_predictor_t tage_predictor_t := demo_state_at 0x1000 (load_words 0x1000 demo_program).

Lemma demo_state_ok : state_ok demo_isa insn_table demo_state.
Proof. by apply demo_state_at_ok. Qed.

(** ** The memory of the simulator

    The same program behind the bus, the translation and the TLB. *)

Definition demo_port : mmu_t rom_device_t :=
  mmu_new [(0x80000000, DMem (MemT {[0 := list_inserts 0 (concat (map (to_le 4) demo_program)) zero_page]} 0x8000))] (replicate 256 no_entry) [0; 0] false.

Lemma demo_port_ok : mmu_ok demo_port.
Proof.
  apply mmu_new_ok; [|reflexivity|reflexivity|exact (replicate_bytes 2)]. apply good_bus; [|constructor; [by vm_compute|constructor]].
  constructor; [repeat constructor|repeat constructor; by vm_compute|]. constructor; [|constructor].
  constructor; [split; by vm_compute|by vm_compute|]. apply (bool_decide_unpack _). by vm_compute.
Qed.

Lemma demo_port_ready : mem_ready (D := mmu_t rom_device_t) (view demo_isa (demo_cpu demo_port)).
Proof.
  apply ready_of; [by right|apply atp_valid_zero..|]. constructor; simpl; unfold max_pmp, PMP_SHIFT; try lia. repeat (apply Forall_cons; split; [by vm_compute|]). constructor.
Qed.

Definition machine_state : state_t (mmu_t rom_device_t) perceptron_predictor_t tage_predictor_t := demo_state_at 0x80000000 demo_port.

Lemma machine_state_ok : state_ok demo_isa insn_table machine_state.
Proof. apply demo_state_at_ok; [done|exact demo_port_ready|exact demo_port_ok]. Qed.

Lemma table_known : forall d, d ∈ insn_table -> known (func d) = true.
Proof. intros d Hd%list_elem_of_In. revert d Hd. apply List.Forall_forall. apply (bool_decide_unpack _). by vm_compute. Qed.
