(* ===== verification/StepTheorems.v ===== *)
(** * Spike: theorems about the loop of a hart *)

From stdpp Require Import base option list gmap.
From S2P Require Import Prelude.
From S2P Require Import Arith.
From S2P Require Import Pmp.
From S2P Require Import Devices.
From S2P Require Import Mmu.
From S2P Require Import Perceptron.
From S2P Require Import Tage.
From S2P Require Import BranchStats.
From S2P Require Import Decode.
From S2P Require Import DecodeTheorems.
From S2P Require Import Memory.
From S2P Require Import Access.
From S2P Require Import AccessBus.
From S2P Require Import AccessPaths.
From S2P Require Import Csrs.
From S2P Require Import CsrFacts.
From S2P Require Import Isa.
From S2P Require Import IsaFacts.
From S2P Require Import Step.
From S2P Require Import StepFacts.
From S2P Require Import StepDemo.

(** The theorems are about a decoder [ds] that can be built and whose entries are
    all modelled: instructions of RV32I or RV64I, M, Zca and Zcb, [ecall],
    [ebreak], [mret] and [sret].  A decoder with CSR, atomic, floating-point or
    vector instructions as well is outside of them. *)
Section Theorems.
Context (isa : isa_t) {D : Type} `{!Memory D} {Pp Tp : Type} `{!BranchPredictor Pp} `{!BranchPredictor Tp}.
Context (Hx : max_xlen isa = 32 \/ max_xlen isa = 64).
Context (ds : list (insn_desc_t opcode)) (Hds : decodable ds) (Hkn : forall d, d ∈ ds -> known (func d) = true).
Local Notation state := (state_t D Pp Tp).
Local Notation state_ok := (IsaFacts.state_ok (Pp := Pp) (Tp := Tp) isa ds).

Lemma halting_ok req (s : state) : state_ok s -> state_ok (halting isa req s) /\ turns 0 (halting isa req s) <= 1.
Proof.
  intros Hs. assert (forall s : state, turns 0 s <= 1) as Ht by (intros s'; unfold turns; by destruct (st_debug_mode _)). split; [|apply Ht].
  unfold halting. destruct (st_debug_mode (cpu s)); [done|]. destruct req; [|by apply debug_entry_ok|by apply debug_entry_ok].
  destruct (dcsr_halt _); [by apply debug_entry_ok|done].
Qed.

(** C4: A hart whose decoder holds modelled instructions never goes wrong.  Let the
    decoder hold instructions of RV32I or RV64I, M, Zca, Zcb, [ecall], [ebreak],
    [mret] and [sret] only, so that every other word executes as the illegal
    instruction.  From a good state - an even program counter, 32 registers that
    hold sign-extended words with 0 in the first, legal modes, a coherent
    instruction cache, decoder and predictors - [step] ends within [n + 1] turns of
    its outer loop whatever words the memory holds and whatever the interrupts and
    the requests of the debugger: no [abort], no access outside an object, and a
    good state again.  Of these instructions only the compressed floating-point
    accesses of RV32 leave the model; decoders with CSR, atomic, floating-point or
    vector instructions are not covered. *)
Theorem step_ends fuel req n (s : state) : state_ok s -> 0 <= n < Z.of_nat fuel ->
  match step isa fuel req n s with
  | Ran s' => state_ok s'
  | NotModelled => max_xlen isa = 32
  | OutOfFuel | Undefined => False
  end.
Proof.
  intros Hs Hn. unfold step. destruct (halting_ok req s Hs) as [Hh Ht].
  apply (step_loop_ok isa Hx ds Hds Hkn fuel n _ Hh); [lia|]. unfold turns in *. lia.
Qed.

(** C29: Every instruction keeps the machine typed.  Whatever the word and the address
    it is executed at, an instruction of the tables leaves 32 registers that are
    sign-extended words of the hart's width, the first of them 0, and continues at
    an even address or asks for the loop to be restarted; it never reads outside the
    registers and never reaches an [abort]. *)
Theorem instructions_typed o b (s : state) : known o = true -> state_ok s ->
  match execute isa o b (pc s) s with
  | (Done npc, s') => state_ok s' /\ (pc_ok npc \/ npc = PC_SERIALIZE_AFTER)
  | (Raise _, s') => state_ok s'
  | (RaiseDebug, s') => state_ok s' /\ st_debug_mode (cpu s) = false
  | (Stuck, _) => False
  | (Unmodelled, _) => max_xlen isa = 32
  end.
Proof.
  intros Ho Hs. destruct (keeps_execute isa Hx ds o b (pc s) Ho (state_pc _ _ _ Hs) s Hs) as [_ H].
  by destruct (execute isa o b (pc s) s) as [[npc|t| | |] s'].
Qed.

(** C18: The fast loop is the loop that looks every instruction up.  With a decoder
    whose instructions are all modelled, chaining from one cached instruction to the
    next, with the program counter compared only through the tags of the cache,
    executes the same instructions, ends the same way, counts the same and leaves the
    same state as looking up the program counter before every instruction. *)
Theorem fast_loop_correct n instret (s : state) : state_ok s -> fast_loop isa n None instret s = one_by_one isa n instret s.
Proof. by apply (fast_is_one_by_one isa Hx ds Hds Hkn). Qed.

(** C10: The branch statistics are those of the execution.  With a decoder whose
    instructions are all modelled, the statistics after the fast loop are the
    statistics before it fed with the conditional branches - their address, and the
    outcome computed from the registers the branch reads - and the markers of the
    executed instructions, in program order and each once. *)
Theorem statistics_follow_execution n instret (s : state) : state_ok s ->
  run_events (stats s) (trace isa n s) = Some (stats (fast_loop isa n None instret s).2).
Proof.
  intros Hs. rewrite (fast_is_one_by_one isa Hx ds Hds Hkn) by done. by apply (one_by_one_events isa Hx ds Hds Hkn).
Qed.

(** C31: The instructions of a region of interest are not counted inside a batch.
    The markers read a counter that moves only when the loop ends: if the region is
    opened while the loop runs, with a decoder whose instructions are all modelled,
    then however many instructions follow and whether or not it is closed again, the
    loop leaves 0 instructions in its count. *)
Theorem region_in_batch_empty n instret (s : state) m es1 es2 : state_ok s -> perceptron_stats_enabled (stats s) = true ->
  trace isa n s = es1 ++ EvEbreak ROI_START_MARKER m :: es2 ->
  perceptron_roi_instructions (stats (fast_loop isa n None instret s).2) = 0.
Proof.
  intros Hs Hon E. pose proof (trace_stamped isa Hx ds Hds Hkn n s Hs) as Hst.
  pose proof (one_by_one_events isa Hx ds Hds Hkn n instret s Hs) as Hr. rewrite <- (fast_is_one_by_one isa Hx ds Hds Hkn) in Hr by done.
  rewrite E in Hst, Hr. apply Forall_app in Hst as [H1 H2]. destruct (run_events (stats s) es1) as [p|] eqn:E1.
  - rewrite (run_events_app _ _ _ _ E1) in Hr. cbn [run_events BranchStats.step] in Hr. apply Forall_cons in H2 as [Hm H2].
    assert (perceptron_stats_enabled p = true) as Hp by (by rewrite (stamped_enabled _ _ _ _ H1 E1)).
    eapply region_empty; [exact H2|exact Hr| |]; unfold handle_roi_ebreak; by rewrite Hp.
  - exfalso. by rewrite (run_events_none _ _ _ E1) in Hr.
Qed.
End Theorems.

(** The program on the memory system of the simulator: three branches are counted. *)
Lemma step_ends_witness : match step demo_isa 13 HR_NONE 12 machine_state with
  | Ran s' => state_ok demo_isa insn_table s' /\ perceptron_branch_count (stats s') = 3
  | NotModelled => max_xlen demo_isa = 32 | OutOfFuel | Undefined => False end.
Proof.
  pose proof (step_ends demo_isa demo_width insn_table table_decodable table_known 13 HR_NONE 12 machine_state machine_state_ok ltac:(lia)) as H.
  assert (match step demo_isa 13 HR_NONE 12 machine_state with Ran s' => perceptron_branch_count (stats s') = 3 | _ => True end) as E by (vm_compute; reflexivity).
  destruct (step demo_isa 13 HR_NONE 12 machine_state); [by split|done..].
Defined.

(** The [bne] of the program. *)
Lemma instructions_typed_witness : match execute demo_isa bne_ 0xfe029ee3 (pc demo_state) demo_state with
  | (Done npc, s') => state_ok demo_isa insn_table s' /\ (pc_ok npc \/ npc = PC_SERIALIZE_AFTER)
  | (Raise _, s') => state_ok demo_isa insn_table s'
  | (RaiseDebug, s') => state_ok demo_isa insn_table s' /\ st_debug_mode (cpu demo_state) = false
  | (Stuck, _) => False | (Unmodelled, _) => max_xlen demo_isa = 32 end.
Proof. apply (instructions_typed demo_isa demo_width insn_table bne_ 0xfe029ee3 demo_state); [reflexivity|apply demo_state_ok]. Defined.

(** The whole program: two markers and three branches, in twelve instructions. *)
Lemma fast_loop_correct_witness : fast_loop demo_isa 12 None 0 demo_state = one_by_one demo_isa 12 0 demo_state /\ (fast_loop demo_isa 12 None 0 demo_state).1 = (Completed, 12).
Proof.
  split; [apply (fast_loop_correct demo_isa demo_width insn_table table_decodable table_known 12 0 demo_state demo_state_ok)|].
  vm_compute. reflexivity.
Defined.

Lemma statistics_follow_execution_witness :
  run_events (stats demo_state) [EvEbreak 1 0; EvBranch 0x1010 true; EvBranch 0x1010 true; EvBranch 0x1010 false; EvEbreak 2 0] =
  Some (stats (fast_loop demo_isa 12 None 0 demo_state).2).
Proof.
  assert (trace demo_isa 12 demo_state = [EvEbreak 1 0; EvBranch 0x1010 true; EvBranch 0x1010 true; EvBranch 0x1010 false; EvEbreak 2 0]) as <- by (vm_compute; reflexivity).
  apply (statistics_follow_execution demo_isa demo_width insn_table table_decodable table_known 12 0 demo_state demo_state_ok).
Defined.

(** The region of the program has ten instructions and the batch twelve; the count
    is 0. *)
Lemma region_in_batch_empty_witness :
  perceptron_roi_instructions (stats (fast_loop demo_isa 12 None 0 demo_state).2) = 0 /\
  perceptron_branch_count (stats (fast_loop demo_isa 12 None 0 demo_state).2) = 3.
Proof.
  split; [|vm_compute; reflexivity].
  apply (region_in_batch_empty demo_isa demo_width insn_table table_decodable table_known 12 0 demo_state 0 []
    [EvBranch 0x1010 true; EvBranch 0x1010 true; EvBranch 0x1010 false; EvEbreak 2 0] demo_state_ok); [reflexivity|].
  vm_compute. reflexivity.
Defined.
