(* ===== verification/TrapTheorems.v ===== *)
(** * Spike: theorems about interrupts, traps and returns

    Which interrupt is taken, level by level; the bits of the status registers after
    a trap and after a return. *)

From stdpp Require Import base option list gmap functions.
From S2P Require Import Prelude.
From S2P Require Import Arith.
From S2P Require Import Pmp.
From S2P Require Import Devices.
From S2P Require Import Mmu.
From S2P Require Import MmuFacts.
From S2P Require Import Decode.
From S2P Require Import Memory.
From S2P Require Import Csrs.
From S2P Require Import CsrFacts.
From S2P Require Import StepDemo.

(** ** Levels *)

Inductive level : Type := Machine | Supervisor | Guest.

#[export] Instance level_eq : EqDecision level.
Proof. solve_decision. Defined.

Section Interrupts.
Context (isa : isa_t) {D : Type} `{!Memory D}.
Implicit Types h : hart D.

(** Where an interrupt goes, whether the level can be interrupted, and whether an
    interrupt of the level is due. *)
Definition interrupt_level h (i : Z) : level :=
  if negb (Z.testbit (mideleg_read isa h) i) then Machine else if Z.testbit (hideleg_read isa h) i then Guest else Supervisor.

Definition interruptible h (l : level) : bool :=
  match l with
  | Machine => (st_prv h <? PRV_M) || ((st_prv h =? PRV_M) && nz (field (csr h MSTATUS) MSTATUS_MIE))
  | Supervisor => st_v h || (st_prv h <? PRV_S) || ((st_prv h =? PRV_S) && nz (field (sstatus_read isa h) MSTATUS_SIE))
  | Guest => st_v h && ((st_prv h <? PRV_S) || ((st_prv h =? PRV_S) && nz (field (sstatus_read isa h) MSTATUS_SIE)))
  end.

Definition due h (l : level) (i : Z) : bool :=
  Z.testbit (csr h MIP) i && Z.testbit (csr h MIE) i && bool_decide (interrupt_level h i = l) && interruptible h l.

(** The interrupts of a level as a mask. *)
Definition due_mask h (l : level) : Z :=
  if interruptible h l then
    (csr h MIP .& csr h MIE) .&
    match l with
    | Machine => u64 (Z.lnot (mideleg_read isa h))
    | Supervisor => mideleg_read isa h .& u64 (Z.lnot (hideleg_read isa h))
    | Guest => hideleg_read isa h
    end
  else 0.

Lemma hideleg_bit h i : Z.testbit (hideleg_read isa h) i = Z.testbit (csr h HIDELEG) i && Z.testbit (mideleg_read isa h) i.
Proof. unfold hideleg_read. apply Z.land_spec. Qed.

Lemma due_mask_bit h l i : 0 <= i < 64 -> Z.testbit (due_mask h l) i = due h l i.
Proof.
  intros Hi. unfold due_mask, due. destruct (interruptible h l); [|by rewrite andb_false_r, Z.bits_0]. rewrite !Z.land_spec, andb_true_r.
  f_equal. unfold interrupt_level. pose proof (hideleg_bit h i) as Hh.
  destruct l; rewrite ?Z.land_spec, ?u64_lnot_bit by done; destruct (Z.testbit (mideleg_read isa h) i), (Z.testbit (hideleg_read isa h) i), (Z.testbit (csr h HIDELEG) i); done.
Qed.

Lemma enabled_is_first h : enabled_interrupts isa h (csr h MIP .& csr h MIE) =
  if negb (due_mask h Machine =? 0) then due_mask h Machine else if negb (due_mask h Supervisor =? 0) then due_mask h Supervisor else due_mask h Guest.
Proof.
  unfold enabled_interrupts, due_mask, interruptible. cbv zeta. set (pend := csr h MIP .& csr h MIE). set (sie := nz (field (sstatus_read isa h) MSTATUS_SIE)).
  set (m := if _ || _ then pend .& u64 _ else 0). destruct (negb (m =? 0)); [done|].
  set (s := if _ || _ || _ then pend .& _ else 0). destruct (Z.eqb_spec s 0) as [E|]; cbn [negb]; [|by rewrite andb_false_r].
  rewrite andb_true_r. destruct (st_v h); [done|exact E].
Qed.

Lemma due_range h l : hart_ok isa h -> 0 <= due_mask h l < 2 ^ 64 /\ due_mask h l .& 0x111 = 0.
Proof.
  intros Hh. unfold due_mask. destruct (interruptible h l); [|done]. set (m := match l with Machine => _ | _ => _ end). destruct (hart_ints _ _ Hh) as [Hr _].
  rewrite (Z.land_comm (csr h MIP)), <- Z.land_assoc. split.
  - pose proof (land_le_r (csr h MIP .& m) (csr h MIE)) as Hl. rewrite Z.land_comm in Hl. lia.
  - by rewrite <- Z.land_assoc, (Z.land_comm _ 0x111), Z.land_assoc, (hart_mie _ _ Hh).
Qed.

Lemma find_none (f : Z -> bool) l : (forall i, i ∈ l -> f i = false) -> List.find f l = None.
Proof. induction l as [|i l IH]; intros Hf; simpl; [done|]. rewrite Hf by left. apply IH. intros j Hj. apply Hf. by right. Qed.

Lemma find_same (f g : Z -> bool) l : (forall i, i ∈ l -> f i = g i) -> List.find f l = List.find g l.
Proof. induction l as [|i l IH]; intros Hf; simpl; [done|]. rewrite Hf by left. destruct (g i); [done|]. apply IH. intros j Hj. apply Hf. by right. Qed.

Lemma order_range i : i ∈ interrupt_order -> 0 <= i < 64.
Proof. assert (Forall (fun i => 0 <= i < 64) interrupt_order) as Hf by (apply (bool_decide_unpack _); by vm_compute). rewrite List.Forall_forall in Hf. intros Hi%list_elem_of_In. by apply Hf. Qed.

(** The first interrupt of a level. *)
Definition first_due h (l : level) : option Z := List.find (due h l) interrupt_order.

Lemma first_due_mask h l : first_due h l = List.find (Z.testbit (due_mask h l)) interrupt_order.
Proof. apply find_same. intros i Hi. symmetry. by apply due_mask_bit, order_range. Qed.

Lemma first_due_none h l : due_mask h l = 0 -> first_due h l = None.
Proof. intros E. rewrite first_due_mask, E. apply find_none. intros i _. apply Z.bits_0. Qed.

Lemma first_due_some h l : hart_ok isa h -> due_mask h l <> 0 -> exists c i, interrupt_select (due_mask h l) = Some c /\ ctz c = i /\ first_due h l = Some i.
Proof.
  intros Hh Hn. destruct (due_range h l Hh) as [Hr Hu]. destruct (interrupt_selected _ Hr Hu Hn) as (c & i & Hc & Hi & Hf). exists c, i. by rewrite first_due_mask.
Qed.

(** The interrupt to take: the first of the highest level that has one. *)
Definition interrupt_due h : option Z :=
  match first_due h Machine with
  | Some i => Some i
  | None => match first_due h Supervisor with Some i => Some i | None => first_due h Guest end
  end.

Definition interrupt_trap (i : Z) : trap_t := plain_trap ((1 .<< (max_xlen isa - 1)) .| i).

(** What is made of the enabled interrupts. *)
Definition select (e : Z) : option (option trap_t) :=
  if nz e then chosen ← interrupt_select e; Some (Some (interrupt_trap (ctz chosen))) else Some None.

Lemma select_first h l : hart_ok isa h -> due_mask h l <> 0 -> is_Some (first_due h l) /\ select (due_mask h l) = Some (interrupt_trap <$> first_due h l).
Proof.
  intros Hh Hn. destruct (first_due_some h l Hh Hn) as (c & i & Hc & Hi & Hf). rewrite Hf. split; [by eexists|]. unfold select, nz. apply Z.eqb_neq in Hn. rewrite Hn, Hc. simpl. by rewrite Hi.
Qed.

Lemma select_due h : hart_ok isa h -> select (enabled_interrupts isa h (csr h MIP .& csr h MIE)) = Some (interrupt_trap <$> interrupt_due h).
Proof.
  intros Hh. rewrite enabled_is_first. unfold interrupt_due.
  destruct (Z.eqb_spec (due_mask h Machine) 0) as [EM|Hn]; cbn [negb]; [rewrite (first_due_none h Machine EM)|by destruct (select_first h Machine Hh Hn) as [[i ->] ->]].
  destruct (Z.eqb_spec (due_mask h Supervisor) 0) as [ES|Hn]; cbn [negb]; [rewrite (first_due_none h Supervisor ES)|by destruct (select_first h Supervisor Hh Hn) as [[i ->] ->]].
  destruct (Z.eqb_spec (due_mask h Guest) 0) as [EG|Hn]; [rewrite (first_due_none h Guest EG), EG; done|by apply (select_first h Guest Hh Hn)].
Qed.

Lemma take_pending_first h : hart_ok isa h ->
  take_pending_interrupt isa h = Some (if st_debug_mode h || negb (nmie isa h) then None else interrupt_trap <$> interrupt_due h).
Proof.
  intros Hh. pose proof (select_due h Hh) as Hs. unfold take_pending_interrupt, take_interrupt. cbv zeta.
  destruct (Z.eqb_spec (csr h MIP .& csr h MIE) 0) as [E|].
  - destruct (enabled_masked isa h (csr h MIP .& csr h MIE)) as [m Em]. rewrite Em, E, Z.land_0_l in Hs. unfold select in Hs. cbn in Hs.
    injection Hs as Hs. rewrite <- Hs. by destruct (_ || _).
  - unfold select in Hs. destruct (st_debug_mode h); [done|]. destruct (nmie isa h); [|done]. exact Hs.
Qed.
End Interrupts.

(** ** Bits of the status registers *)

(** The masks of single bits by their place. *)
Lemma status_masks : MSTATUS_SIE = 2 ^ 1 /\ MSTATUS_MIE = 2 ^ 3 /\ MSTATUS_SPIE = 2 ^ 5 /\ MSTATUS_MPIE = 2 ^ 7 /\ MSTATUS_SPP = 2 ^ 8 /\
  MSTATUS_MPRV = 2 ^ 17 /\ MSTATUS_TSR = 2 ^ 22 /\ MSTATUS_GVA = 2 ^ 38 /\ MSTATUS_MPV = 2 ^ 39 /\
  HSTATUS_GVA = 2 ^ 6 /\ HSTATUS_SPV = 2 ^ 7 /\ HSTATUS_SPVP = 2 ^ 8 /\ HSTATUS_VTSR = 2 ^ 22.
Proof. done. Qed.

Lemma b2z_bit b : Z.testbit (b2z b) 0 = b.
Proof. by destruct b. Qed.

Ltac masks := destruct status_masks as (E1 & E2 & E3 & E4 & E5 & E6 & E7 & E8 & E9 & E10 & E11 & E12 & E13); rewrite ?E1, ?E2, ?E3, ?E4, ?E5, ?E6, ?E7, ?E8, ?E9, ?E10, ?E11, ?E12, ?E13; clear E1 E2 E3 E4 E5 E6 E7 E8 E9 E10 E11 E12 E13.

(** Comparisons of literals. *)
Ltac places := repeat match goal with
  | |- context [?a =? ?b] => let r := eval vm_compute in (a =? b) in lazymatch r with true => idtac | false => idtac end; change (a =? b) with r; cbv iota
  end.

Lemma enter_supervisor_bit s prv i : 0 <= i < 64 ->
  Z.testbit (enter_supervisor s prv) i = if i =? 1 then false else if i =? 8 then Z.testbit prv 0 else if i =? 5 then Z.testbit s 1 else Z.testbit s i.
Proof.
  intros Hi. unfold enter_supervisor. masks. rewrite !set_bit_spec, field_bit, b2z_bit by lia. done.
Qed.

Lemma enter_machine_bit s prv virt gva i : 0 <= i < 64 -> 0 <= prv < 4 ->
  Z.testbit (enter_machine s prv virt gva) i =
  if i =? 38 then gva else if i =? 39 then virt else if i =? 3 then false else if i =? 11 then Z.testbit prv 0 else if i =? 12 then Z.testbit prv 1
  else if i =? 7 then Z.testbit s 3 else Z.testbit s i.
Proof.
  intros Hi Hp. unfold enter_machine. masks. rewrite !set_bit_spec, set_mpp_spec, set_bit_spec, field_bit, !b2z_bit by lia. done.
Qed.

Section Status.
Context (isa : isa_t) {D : Type} `{!Memory D}.
Context (HS : extension_enabled isa EXT_S = true) (HU : extension_enabled isa EXT_U = true).
Implicit Types h : hart D.

Lemma legal_mode p : is_mode p -> legalize_privilege isa p = p.
Proof. unfold is_mode, legalize_privilege. rewrite HS, HU. by intros [-> | [-> | ->]]. Qed.

Lemma smask_entry i : i = 1 \/ i = 5 \/ i = 8 -> Z.testbit (sstatus_write_mask isa) i = true.
Proof. intros Hi. unfold sstatus_write_mask. rewrite HS, !Z.lor_spec. by destruct Hi as [-> | [-> | ->]]. Qed.

Lemma smask_outside i : i ∈ [3; 7; 11; 12; 17; 22; 38; 39] -> Z.testbit (sstatus_write_mask isa) i = false.
Proof. intros Hi. unfold sstatus_write_mask. rewrite !Z.lor_spec. cases_in Hi; repeat case_match; reflexivity. Qed.

Lemma mmask_entry i : i ∈ [1; 5; 8; 3; 7; 17; 22] -> Z.testbit (mstatus_write_mask isa) i = true.
Proof.
  intros Hi. unfold mstatus_write_mask. rewrite HS, HU, !Z.lor_spec. cases_in Hi; rewrite ?smask_entry by lia; rewrite ?orb_true_r; reflexivity.
Qed.

Lemma mmask_virt : extension_enabled isa EXT_H = true -> Z.testbit (mstatus_write_mask isa) 39 = true.
Proof. intros HH. unfold mstatus_write_mask. rewrite HH, !Z.lor_spec. by rewrite !orb_true_r. Qed.

Lemma mmask_no_virt : extension_enabled isa EXT_H = false -> Z.testbit (mstatus_write_mask isa) 39 = false.
Proof. intros HH. unfold mstatus_write_mask. rewrite HH, !Z.lor_spec, smask_outside by in_list. by repeat case_match. Qed.

(** Writes to [mstatus] and to the supervisor's view of it, bit by bit. *)
Lemma mwrite_entry h v i : i ∈ [1; 5; 8; 3; 7; 17; 22] -> Z.testbit (csr (mstatus_write isa h v) MSTATUS) i = Z.testbit v i.
Proof.
  intros Hi. assert (0 <= i < 64 /\ i <> 31 /\ i <> 63 /\ i <> 11 /\ i <> 12) as (? & ? & ? & ? & ?) by (cases_in Hi; lia).
  rewrite mstatus_write_bit by done. unfold mstatus_bit. rewrite mmask_entry by done. by do 2 (rewrite (proj2 (Z.eqb_neq _ _)) by done).
Qed.

Lemma swrite_entry h v i : i = 1 \/ i = 5 \/ i = 8 -> Z.testbit (csr (sstatus_proxy_write isa h v) MSTATUS) i = Z.testbit v i.
Proof.
  intros Hi. unfold sstatus_proxy_write. rewrite mwrite_entry by (destruct Hi as [-> | [-> | ->]]; in_list). rewrite merge_spec by lia. by rewrite smask_entry.
Qed.

Lemma swrite_outside h v i : i ∈ [3; 7; 17; 22] -> Z.testbit (csr (sstatus_proxy_write isa h v) MSTATUS) i = Z.testbit (csr h MSTATUS) i.
Proof.
  intros Hi. unfold sstatus_proxy_write. rewrite mwrite_entry by (cases_in Hi; in_list). assert (0 <= i < 64) by (cases_in Hi; lia).
  rewrite merge_spec by done. by rewrite smask_outside by (cases_in Hi; in_list).
Qed.

Lemma vwrite_entry h v i : i = 1 \/ i = 5 \/ i = 8 -> Z.testbit (csr (vsstatus_write isa h v) VSSTATUS) i = Z.testbit v i.
Proof. intros Hi. unfold vsstatus_write. rewrite csr_set_eq, adjust_sd_bit, merge_spec by lia. by rewrite smask_entry. Qed.

Lemma sread_entry h i : i = 1 \/ i = 5 \/ i = 8 -> Z.testbit (sstatus_proxy_read isa h) i = Z.testbit (csr h MSTATUS) i.
Proof.
  intros Hi. unfold sstatus_proxy_read, sstatus_read_mask. rewrite Z.land_spec, !Z.lor_spec, smask_entry by done. by rewrite andb_true_r.
Qed.

(** The high half of [mstatus]. *)
Lemma high_value m x i : 0 <= i < 64 -> Z.testbit ((u64 (m .<< 32) .>> 32) .| u64 ((x .& 0xffffffff) .<< 32)) i = if i <? 32 then Z.testbit m i else Z.testbit x (i - 32).
Proof.
  intros Hi. rewrite Z.lor_spec, Z.shiftr_spec by lia. unfold uwrap. change 0xffffffff with (Z.ones 32). destruct (Z.ltb_spec i 32).
  - rewrite !Z.mod_pow2_bits_low, !Z.shiftl_spec by lia. rewrite (Z.testbit_neg_r _ (i - 32)) by lia. rewrite orb_false_r. f_equal. lia.
  - rewrite Z.mod_pow2_bits_high, Z.mod_pow2_bits_low, Z.shiftl_spec, Z.land_spec, Z.testbit_ones by lia. simpl.
    assert ((0 <=? i - 32) && (i - 32 <? 32) = true) as -> by lia. apply andb_true_r.
Qed.

Lemma low_value m x i : 0 <= i < 64 -> Z.testbit (u64 ((m .>> 32) .<< 32) .| (x .& 0xffffffff)) i = if i <? 32 then Z.testbit x i else Z.testbit m i.
Proof.
  intros Hi. rewrite Z.lor_spec. unfold uwrap. change 0xffffffff with (Z.ones 32). rewrite Z.mod_pow2_bits_low, Z.shiftl_spec, Z.land_spec, Z.testbit_ones by lia.
  destruct (Z.ltb_spec i 32).
  - rewrite (Z.testbit_neg_r _ (i - 32)) by lia. assert ((0 <=? i) && true = true) as -> by lia. apply andb_true_r.
  - rewrite Z.shiftr_spec by lia. assert ((0 <=? i) && false = false) as -> by lia. rewrite andb_false_r, orb_false_r. f_equal. lia.
Qed.

(** ** Where a trap goes *)

(** Its kind and number. *)
Definition is_interrupt (t : trap_t) : bool := Z.testbit (t_cause t) (max_xlen isa - 1).
Definition trap_number (t : trap_t) : Z := if is_interrupt t then t_cause t - 2 ^ (max_xlen isa - 1) else t_cause t.

Definition trap_level h (t : trap_t) : level :=
  let n := trap_number t in
  let hs := Z.testbit (if is_interrupt t then mideleg_read isa h else csr h MEDELEG) n in
  let guest := Z.testbit (if is_interrupt t then csr h HIDELEG else csr h HEDELEG) n in
  if (st_prv h =? PRV_M) || (max_xlen isa <=? n) then Machine
  else if st_v h && hs && guest then Guest else if hs then Supervisor else Machine.

Lemma bits_high v k i : 0 <= v < 2 ^ k -> 0 <= k <= i -> Z.testbit v i = false.
Proof. intros Hv Hk. rewrite <- (Z.mod_small v (2 ^ k)) by done. by apply Z.mod_pow2_bits_high. Qed.

Lemma nz_place v n : 0 <= n -> nz ((v .>> n) .& 1) = Z.testbit v n.
Proof.
  intros Hn. rewrite (land_mod _ 1 1) by lia. change (2 ^ 1) with 2. rewrite Zmod_odd, <- Z.bit0_odd, Z.shiftr_spec by lia. rewrite Z.add_0_l. by destruct (Z.testbit v n).
Qed.

Lemma cause_parts t : max_xlen isa = 32 \/ max_xlen isa = 64 -> 0 <= t_cause t < 2 ^ max_xlen isa ->
  nz (t_cause t .& (1 .<< (max_xlen isa - 1))) = is_interrupt t /\
  (if is_interrupt t then t_cause t .& u64 (Z.lnot (1 .<< (max_xlen isa - 1))) else t_cause t) = trap_number t /\ 0 <= trap_number t.
Proof.
  intros Hx Hc. unfold trap_number, is_interrupt. set (k := max_xlen isa - 1). assert (0 <= k < 64) as Hk by lia.
  rewrite nz_bit_shl by lia. split; [done|]. destruct (Z.testbit (t_cause t) k) eqn:E; [|lia].
  assert (t_cause t .& u64 (Z.lnot (1 .<< k)) = t_cause t - 2 ^ k) as ->; [|split; [done|]].
  - rewrite shiftl_mul, Z.mul_1_l by lia.
    assert (t_cause t .& u64 (Z.lnot (2 ^ k)) = Z.ldiff (t_cause t) (2 ^ k)) as ->.
    { apply Z.bits_inj'. intros i Hi. rewrite Z.land_spec, Z.ldiff_spec. destruct (Z.lt_ge_cases i 64); [by rewrite u64_lnot_bit by lia|].
      assert (Z.testbit (t_cause t) i = false) as ->; [|done]. apply (bits_high _ 64); [|lia]. split; [lia|]. destruct Hx as [Hx|Hx]; rewrite Hx in Hc; lia. }
    rewrite <- Z.sub_nocarry_ldiff; [done|]. apply Z.bits_inj'. intros i Hi. rewrite Z.ldiff_spec, Z.bits_0. destruct (Z.eq_dec i k) as [->|Hn]; [by rewrite E, andb_false_r|].
    by rewrite Z.pow2_bits_false by lia.
  - destruct (Z.lt_ge_cases (t_cause t) (2 ^ k)) as [Hlt|]; [|lia]. rewrite (bits_high _ k) in E; [done|lia|lia].
Qed.

(** [take_trap] by level. *)
Definition trap_by_level h t epc : hart D * Z :=
  match trap_level h t with
  | Machine => trap_to_m isa h t epc (is_interrupt t) (trap_number t)
  | Supervisor => trap_to_hs isa h t epc (is_interrupt t) (trap_number t)
  | Guest => trap_to_vs isa h t epc (is_interrupt t) (trap_number t)
  end.

Lemma take_trap_level h t epc : max_xlen isa = 32 \/ max_xlen isa = 64 -> hart_ok isa h -> 0 <= t_cause t < 2 ^ max_xlen isa -> st_debug_mode h = false ->
  take_trap isa h t epc = trap_by_level h t epc.
Proof.
  intros Hx Hh Hc Hd. destruct (cause_parts t Hx Hc) as (E1 & E2 & Hn). unfold take_trap, trap_by_level, trap_level. rewrite Hd. cbv zeta. rewrite E1, E2.
  unfold delegation. assert ((st_prv h <=? PRV_S) = negb (st_prv h =? PRV_M)) as El.
  { destruct (hart_prv _ _ Hh) as [-> | [-> | ->]]; done. }
  rewrite El, Z.leb_antisym. destruct (is_interrupt t); rewrite !nz_place by done; destruct (st_prv h =? PRV_M); cbn [negb andb orb]; try done;
    destruct (trap_number t <? max_xlen isa); cbn [negb andb orb]; try done; destruct (st_v h); cbn [negb andb orb]; rewrite ?Z.bits_0; try done.
  - rewrite hideleg_bit. by destruct (Z.testbit (csr h HIDELEG) _), (Z.testbit (mideleg_read isa h) _).
  - by destruct (Z.testbit (mideleg_read isa h) _).
  - rewrite Z.land_spec. by destruct (Z.testbit (csr h HEDELEG) _), (Z.testbit (csr h MEDELEG) _).
  - by destruct (Z.testbit (csr h MEDELEG) _).
Qed.

(** Delegated traps come from below M-mode, those for a guest from a guest. *)
Lemma level_low h t l : hart_ok isa h -> trap_level h t = l -> l <> Machine -> st_prv h <> PRV_M /\ st_prv h <= PRV_S.
Proof.
  intros Hh <-. unfold trap_level. cbv zeta. destruct (Z.eqb_spec (st_prv h) PRV_M); [done|]. intros _. split; [done|]. by destruct (hart_prv _ _ Hh) as [E|[E|E]]; rewrite E in *.
Qed.

Lemma guest_virtual h t : trap_level h t = Guest -> st_v h = true /\ st_prv h <> PRV_M.
Proof.
  unfold trap_level. cbv zeta. destruct (Z.eqb_spec (st_prv h) PRV_M); [done|]. destruct (max_xlen isa <=? _); [done|]. simpl. destruct (st_v h); [done|]. simpl. by case_match.
Qed.

(** ** After a trap *)

(** Virtualisation needs the hypervisor extension and is never on in M-mode. *)
Record virt_ok h : Prop := {
  virt_on : st_v h = true -> extension_enabled isa EXT_H = true /\ st_prv h <> PRV_M;
  virt_off : extension_enabled isa EXT_H = false -> Z.testbit (csr h MSTATUS) 39 = false
}.

(** The stack of M-mode in [mstatus] for a trap from [h]. *)
Definition machine_stack h (m : Z) : Prop :=
  field m MSTATUS_MPP = st_prv h /\ Z.testbit m 39 = st_v h /\ Z.testbit m 7 = Z.testbit (csr h MSTATUS) 3 /\ Z.testbit m 3 = false.

Lemma mpp_of_bits m p : is_mode p -> Z.testbit m 11 = Z.testbit p 0 -> Z.testbit m 12 = Z.testbit p 1 -> field m MSTATUS_MPP = p.
Proof. intros Hp E1 E2. rewrite field_mpp, E1, E2. by destruct Hp as [-> | [-> | ->]]. Qed.

Lemma mpp_bits v p : field v MSTATUS_MPP = p -> is_mode p -> Z.testbit v 11 = Z.testbit p 0 /\ Z.testbit v 12 = Z.testbit p 1.
Proof. rewrite field_mpp. intros <- _. by destruct (Z.testbit v 11), (Z.testbit v 12). Qed.

(** Bits 3, 7 and 39 and the field [MPP] after a write to [mstatus]. *)
Lemma mwrite_stack h v : is_mode (field v MSTATUS_MPP) ->
  let m := csr (mstatus_write isa h v) MSTATUS in
  field m MSTATUS_MPP = field v MSTATUS_MPP /\ Z.testbit m 39 = (if extension_enabled isa EXT_H then Z.testbit v 39 else Z.testbit (csr h MSTATUS) 39) /\
  Z.testbit m 7 = Z.testbit v 7 /\ Z.testbit m 3 = Z.testbit v 3.
Proof.
  intros Hm m. unfold m. rewrite mstatus_write_mpp, legal_mode by done. rewrite (mwrite_entry h v 7), (mwrite_entry h v 3), mstatus_write_bit by (in_list || lia). unfold mstatus_bit. places.
  destruct (extension_enabled isa EXT_H) eqn:E; [by rewrite mmask_virt|by rewrite mmask_no_virt].
Qed.

Lemma enter_machine_stack h gva : is_mode (st_prv h) -> machine_stack h (enter_machine (csr h MSTATUS) (st_prv h) (st_v h) gva).
Proof.
  intros Hp. pose proof (mode_range _ Hp) as Hr. unfold machine_stack. rewrite (mpp_of_bits _ (st_prv h)) by (done || by rewrite enter_machine_bit by lia).
  by rewrite !enter_machine_bit by lia.
Qed.

(** The writes of [mstatus] by a trap to M-mode, on RV64 and on RV32. *)
Lemma machine_entry h (h0 : hart D) gva : is_mode (st_prv h) -> virt_ok h -> csr h0 MSTATUS = csr h MSTATUS ->
  let s := enter_machine (csr h MSTATUS) (st_prv h) (st_v h) gva in
  machine_stack h (csr (mstatus_write isa h0 s) MSTATUS) /\ machine_stack h (csr (mstatus_write_high isa (mstatus_write isa h0 s) (s .>> 32)) MSTATUS).
Proof.
  intros Hp [Hv Hn] Hc s. destruct (enter_machine_stack h gva Hp) as (A1 & A2 & A3 & A4). fold s in A1, A2, A3, A4.
  assert (extension_enabled isa EXT_H = false -> st_v h = false) as Hnv by (intros HH; destruct (st_v h); [by destruct Hv; congruence|done]).
  destruct (mwrite_stack h0 s) as (B1 & B2 & B3 & B4); [by rewrite A1|]. set (h1 := mstatus_write isa h0 s) in *.
  assert (Z.testbit (csr h1 MSTATUS) 39 = st_v h) as B2' by (rewrite B2; destruct (extension_enabled isa EXT_H); [done|rewrite Hc, Hn, Hnv by done; done]).
  assert (machine_stack h (csr h1 MSTATUS)) as Hs1 by (split; [congruence|split; [done|split; congruence]]). split; [exact Hs1|].
  unfold mstatus_write_high. set (x := _ .| _). assert (forall i, 0 <= i < 64 -> Z.testbit x i = if i <? 32 then Z.testbit (csr h1 MSTATUS) i else Z.testbit s i) as Hx.
  { intros i Hi. unfold x. rewrite high_value by done. destruct (Z.ltb_spec i 32); [done|]. rewrite Z.shiftr_spec by lia. f_equal. lia. }
  destruct Hs1 as (C1 & C2 & C3 & C4). destruct (mpp_bits _ _ C1 Hp) as [E1 E2].
  assert (field x MSTATUS_MPP = st_prv h) as Em by (apply mpp_of_bits; [done|by rewrite Hx by lia..]).
  destruct (mwrite_stack h1 x) as (F1 & F2 & F3 & F4); [by rewrite Em|]. unfold machine_stack. rewrite F1, F2, F3, F4, Em, !Hx by lia. simpl.
  split_and!; try done. by destruct (extension_enabled isa EXT_H).
Qed.

Lemma field_bool m k : 0 <= k < 63 -> nz (field m (2 ^ k)) = Z.testbit m k.
Proof. apply field_nz. Qed.

(** What a trap to M-mode leaves. *)
Lemma trap_to_m_state h t epc i n : is_mode (st_prv h) -> virt_ok h ->
  let '(h', p) := trap_to_m isa h t epc i n in
  st_prv h' = PRV_M /\ st_v h' = false /\ p = (if nmie isa h then tvec_target (csr h MTVEC) i n else 0) /\
  csr h' MEPC = epc .& u64 (Z.lnot 1) /\ csr h' MCAUSE = t_cause t /\ csr h' MTVAL = t_tval t /\ csr h' MTVAL2 = t_tval2 t /\ csr h' MTINST = t_tinst t /\
  machine_stack h (csr h' MSTATUS).
Proof.
  intros Hp Hv. unfold trap_to_m. cbv zeta. set (h0 := set_csr _ MTINST _).
  assert (csr h0 MSTATUS = csr h MSTATUS) as Hc by done. rewrite Hc. destruct (machine_entry h h0 (t_has_gva t) Hp Hv Hc) as [M1 M2]. set (s := enter_machine _ _ _ _) in *.
  set (h2 := if max_xlen isa =? 32 then _ else _). assert (machine_stack h (csr h2 MSTATUS)) as Hst by (unfold h2; by destruct (max_xlen isa =? 32)).
  assert (forall m, m <> MSTATUS -> csr h2 m = csr h0 m) as Hf.
  { intros m Hm. unfold h2, mstatus_write_high. destruct (max_xlen isa =? 32); by rewrite !mstatus_write_frame. }
  unfold set_privilege. cbv zeta. rewrite legal_mode by (by right; right). cbn [set_prv st_prv st_v csr flush_tlb flush_icache set_icache set_port].
  rewrite !Hf by done. split_and!; done.
Qed.

(** The stack of S-mode in its status register, from the old value. *)
Definition supervisor_stack (prv old m : Z) : Prop :=
  Z.testbit m 8 = Z.testbit prv 0 /\ Z.testbit m 5 = Z.testbit old 1 /\ Z.testbit m 1 = false.

Lemma enter_supervisor_stack old s prv : Z.testbit s 1 = Z.testbit old 1 -> supervisor_stack prv old (enter_supervisor s prv).
Proof. intros E. unfold supervisor_stack. by rewrite !enter_supervisor_bit by lia. Qed.

Lemma stack_entries prv old v m : (forall i, i = 1 \/ i = 5 \/ i = 8 -> Z.testbit m i = Z.testbit v i) -> supervisor_stack prv old v -> supervisor_stack prv old m.
Proof. intros Hm (A & B & C). unfold supervisor_stack. by rewrite !Hm by lia. Qed.

Lemma st_v_proxy h v : st_v (sstatus_proxy_write isa h v) = st_v h.
Proof. unfold sstatus_proxy_write, mstatus_write, maybe_flush_tlb. cbv zeta. by destruct (nz _). Qed.

Lemma proxy_write_frame h v n : n <> MSTATUS -> csr (sstatus_proxy_write isa h v) n = csr h n.
Proof. apply mstatus_write_frame. Qed.

Lemma hmask_spv : Z.testbit (hstatus_mask isa) 7 = true.
Proof. unfold hstatus_mask. by case_match. Qed.

Lemma hwrite_spv h v : Z.testbit (csr (hstatus_write isa h v) HSTATUS) 7 = Z.testbit v 7.
Proof. unfold hstatus_write. by rewrite csr_set_eq, merge_spec, hmask_spv by lia. Qed.

(** What a trap to HS-mode leaves. *)
Lemma trap_to_hs_state h t epc i n :
  let '(h', p) := trap_to_hs isa h t epc i n in
  st_prv h' = PRV_S /\ st_v h' = false /\ p = tvec_target (csr h STVEC) i n /\
  csr h' SEPC = epc .& u64 (Z.lnot 1) /\ csr h' SCAUSE = t_cause t /\ csr h' STVAL = t_tval t /\ csr h' HTVAL = t_tval2 t /\ csr h' HTINST = t_tinst t /\
  supervisor_stack (st_prv h) (csr h MSTATUS) (csr h' MSTATUS) /\ Z.testbit (csr h' MSTATUS) 22 = Z.testbit (csr h MSTATUS) 22 /\
  (extension_enabled isa EXT_H = true -> Z.testbit (csr h' HSTATUS) 7 = st_v h).
Proof.
  unfold trap_to_hs. cbv zeta. set (h0 := set_csr _ HTINST _). set (v := enter_supervisor _ _). set (h1 := sstatus_proxy_write isa h0 v).
  assert (supervisor_stack (st_prv h) (csr h MSTATUS) (csr h1 MSTATUS)) as Hst.
  { apply (stack_entries _ _ v); [intros j Hj; by apply swrite_entry|]. apply enter_supervisor_stack. by rewrite sread_entry by lia. }
  assert (Z.testbit (csr h1 MSTATUS) 22 = Z.testbit (csr h MSTATUS) 22) as Htsr by (apply (swrite_outside h0 v); in_list).
  set (h2 := if extension_enabled isa EXT_H then _ else _).
  assert (forall m, m <> HSTATUS -> csr h2 m = csr h1 m) as Hf by (intros m Hm; unfold h2; destruct (extension_enabled isa EXT_H); [by apply hstatus_write_frame|done]).
  assert (extension_enabled isa EXT_H = true -> Z.testbit (csr h2 HSTATUS) 7 = st_v h) as Hspv.
  { intros HH. unfold h2. rewrite HH, hwrite_spv. masks. rewrite !set_bit_spec by lia. apply b2z_bit. }
  unfold set_privilege. cbv zeta. rewrite legal_mode by (by right; left). cbn [set_prv st_prv st_v csr flush_tlb flush_icache set_icache set_port].
  rewrite !Hf by done. unfold h1 in *. rewrite !proxy_write_frame by done. split_and!; done.
Qed.

(** What a trap to VS-mode leaves. *)
Lemma trap_to_vs_state h t epc i n : st_v h = true ->
  let '(h', p) := trap_to_vs isa h t epc i n in
  st_prv h' = PRV_S /\ st_v h' = true /\ p = tvec_target (csr h VSTVEC) i n /\
  csr h' VSEPC = epc .& u64 (Z.lnot 1) /\ csr h' VSCAUSE = (if i then t_cause t - 1 else t_cause t) /\ csr h' VSTVAL = t_tval t /\
  supervisor_stack (st_prv h) (csr h VSSTATUS) (csr h' VSSTATUS) /\ csr h' HSTATUS = csr h HSTATUS.
Proof.
  intros Hv. unfold trap_to_vs. cbv zeta. set (h0 := set_csr _ VSTVAL _). unfold sstatus_write. assert (st_v h0 = true) as Hv0 by done. rewrite Hv0.
  set (v := enter_supervisor _ _). assert (supervisor_stack (st_prv h) (csr h VSSTATUS) (csr (vsstatus_write isa h0 v) VSSTATUS)) as Hst.
  { apply (stack_entries _ _ v); [intros j Hj; by apply vwrite_entry|]. apply enter_supervisor_stack. unfold sstatus_read. by rewrite Hv0. }
  unfold set_privilege. cbv zeta. rewrite legal_mode by (by right; left). cbn [set_prv st_prv st_v csr flush_tlb flush_icache set_icache set_port].
  split_and!; try done; by rewrite vsstatus_write_frame.
Qed.

(** ** Back from a trap *)

Lemma mret_back h h' b : is_mode (st_prv h) -> virt_ok h -> st_prv h' = PRV_M -> machine_stack h (csr h' MSTATUS) ->
  exists h2, mret isa h' b = inr (h2, epc_read isa h' MEPC .& pc_alignment_mask isa) /\ st_prv h2 = st_prv h /\ st_v h2 = st_v h /\
    Z.testbit (csr h2 MSTATUS) 3 = Z.testbit (csr h MSTATUS) 3.
Proof.
  intros Hp [Hv _] Hm (A1 & A2 & A3 & A4). unfold mret. rewrite Hm. cbn [negb PRV_M Z.leb Z.compare]. change (negb (PRV_M <=? PRV_M)) with false. cbv iota zeta.
  set (s := set_field _ MSTATUS_MPV 0). assert (Z.testbit s 3 = Z.testbit (csr h MSTATUS) 3) as Hs.
  { rewrite <- A3. unfold s. masks. rewrite HU. rewrite set_bit_spec by lia. places. rewrite set_mpp_spec by (unfold PRV_U; lia). places.
    rewrite !set_bit_spec by lia. places. rewrite field_bit, b2z_bit by lia. case_match; [|done]. by rewrite set_bit_spec by lia. }
  eexists. split; [reflexivity|]. rewrite A1. unfold set_privilege. cbv zeta. rewrite legal_mode by done. cbn [set_prv st_prv st_v csr flush_tlb flush_icache set_icache set_port].
  split; [done|]. split.
  - masks. rewrite field_nz, A2 by lia. destruct (st_v h); [|done]. destruct (Hv eq_refl) as [_ Hn]. apply Z.eqb_neq in Hn. by rewrite Hn.
  - unfold put_csr_mstatus, mstatus_write_low. case_match; rewrite mwrite_entry by in_list; [|done]. rewrite low_value by lia. change (3 <? 32) with true. cbv iota. by rewrite Z.mod_pow2_bits_low by lia.
Qed.

Lemma prv_low p : is_mode p -> p <> PRV_M -> b2z (Z.testbit p 0) = p.
Proof. unfold is_mode. intros [-> | [-> | ->]]; done. Qed.

(** The supervisor bits of the value [sret] writes. *)
Lemma sret_value s : Z.testbit (set_field (set_field (set_field s MSTATUS_SIE (field s MSTATUS_SPIE)) MSTATUS_SPIE 1) MSTATUS_SPP PRV_U) 1 = Z.testbit s 5.
Proof. masks. rewrite !set_bit_spec by lia. places. by rewrite field_bit, b2z_bit by lia. Qed.

Lemma sret_guest_back h h' b : is_mode (st_prv h) -> st_prv h <> PRV_M -> st_prv h' = PRV_S -> st_v h' = true ->
  supervisor_stack (st_prv h) (csr h VSSTATUS) (csr h' VSSTATUS) -> Z.testbit (csr h' HSTATUS) 22 = false ->
  exists h2, sret isa h' b = inr (h2, epc_read isa h' VSEPC .& pc_alignment_mask isa) /\ st_prv h2 = st_prv h /\ st_v h2 = true /\
    Z.testbit (csr h2 VSSTATUS) 1 = Z.testbit (csr h VSSTATUS) 1.
Proof.
  intros Hp Hn Hp' Hv' (A1 & A2 & A3) Ht. unfold sret, sret_refused. rewrite HS, Hv', Hp'. cbn [negb]. change (PRV_S =? PRV_U) with false. cbn [orb].
  assert (nz (field (csr h' HSTATUS) HSTATUS_VTSR) = false) as -> by (masks; by rewrite field_nz by lia). cbv zeta. unfold sstatus_read, sstatus_write. rewrite Hv'.
  assert (field (csr h' VSSTATUS) MSTATUS_SPP = st_prv h) as -> by (masks; rewrite field_bit, A1 by lia; by apply prv_low).
  assert (forall v, st_v (vsstatus_write isa h' v) = true) as -> by (intros v; unfold vsstatus_write, maybe_flush_tlb; cbv zeta; rewrite Hv'; by destruct (nz _)).
  eexists. split; [reflexivity|]. unfold set_privilege. cbv zeta. rewrite legal_mode by done. cbn [set_prv st_prv st_v csr flush_tlb flush_icache set_icache set_port].
  apply Z.eqb_neq in Hn as ->. split_and!; [done|done|]. rewrite vwrite_entry, sret_value by lia. done.
Qed.

Lemma sret_back h h' b : is_mode (st_prv h) -> st_prv h <> PRV_M -> virt_ok h -> st_prv h' = PRV_S -> st_v h' = false ->
  supervisor_stack (st_prv h) (csr h MSTATUS) (csr h' MSTATUS) -> Z.testbit (csr h' MSTATUS) 22 = false ->
  (extension_enabled isa EXT_H = true -> Z.testbit (csr h' HSTATUS) 7 = st_v h) ->
  exists h2, sret isa h' b = inr (h2, epc_read isa h' SEPC .& pc_alignment_mask isa) /\ st_prv h2 = st_prv h /\ st_v h2 = st_v h /\
    Z.testbit (csr h2 MSTATUS) 1 = Z.testbit (csr h MSTATUS) 1.
Proof.
  intros Hp Hn [Hv _] Hp' Hv' (A1 & A2 & A3) Ht Hspv. unfold sret, sret_refused. rewrite HS, Hv', Hp'. cbn [negb].
  assert (nz (field (csr h' MSTATUS) MSTATUS_TSR) = false) as -> by (masks; by rewrite field_nz by lia). change (negb (PRV_S <=? PRV_S)) with false. cbv iota zeta.
  unfold sstatus_read, sstatus_write. rewrite Hv'.
  assert (field (sstatus_proxy_read isa h') MSTATUS_SPP = st_prv h) as -> by (masks; rewrite field_bit, sread_entry, A1 by lia; by apply prv_low).
  set (v := set_field _ MSTATUS_SPP PRV_U). change (mstatus_write isa h' (merge (sstatus_write_mask isa) (csr h' MSTATUS) v)) with (sstatus_proxy_write isa h' v).
  rewrite st_v_proxy, Hv'. assert (Z.testbit (csr (sstatus_proxy_write isa h' v) MSTATUS) 1 = Z.testbit (csr h MSTATUS) 1) as Hie.
  { rewrite swrite_entry by lia. unfold v. rewrite sret_value, sread_entry, A2 by lia. done. }
  apply Z.eqb_neq in Hn. destruct (extension_enabled isa EXT_H) eqn:HH; cbv iota beta zeta.
  - eexists. split; [reflexivity|]. unfold set_privilege. cbv zeta. rewrite legal_mode by done. cbn [set_prv st_prv st_v csr flush_tlb flush_icache set_icache set_port].
    split; [done|]. split; [masks; rewrite field_nz, Hspv by (done || lia); rewrite Hn; apply andb_true_r|].
    rewrite mwrite_entry by in_list. masks. rewrite set_bit_spec by lia. places. by rewrite hstatus_write_frame.
  - eexists. split; [reflexivity|]. unfold set_privilege. cbv zeta. rewrite legal_mode by done. cbn [set_prv st_prv st_v csr flush_tlb flush_icache set_icache set_port].
    split; [done|]. split; [destruct (st_v h); [by destruct Hv|done]|].
    rewrite mwrite_entry by in_list. masks. rewrite set_bit_spec by lia. exact Hie.
Qed.
End Status.

Section Theorems.
Context (isa : isa_t) {D : Type} `{!Memory D}.
Context (HS : extension_enabled isa EXT_S = true) (HU : extension_enabled isa EXT_U = true).
Implicit Types h : hart D.

(** C22: Interrupts are taken by level and by priority.  Outside debug mode, and unless
    a non-maskable trap is being handled, the hart takes the first interrupt, in the
    order of priority, of the highest level that has one due: M-mode, then HS-mode,
    then VS-mode.  An interrupt is due when it is pending, enabled, delegated to the
    level, and the level is above that of the hart or its own with interrupts
    enabled.  With none due the hart goes on, and no choice reaches the [abort]. *)
Theorem interrupts_by_priority h : hart_ok isa h ->
  take_pending_interrupt isa h =
  Some (if st_debug_mode h || negb (nmie isa h) then None else interrupt_trap isa <$> interrupt_due isa h).
Proof. apply take_pending_first. Qed.

(** What a trap of [h] to a level leaves in [h'], and its handler [p]. *)
Definition delivered h (t : trap_t) (epc : Z) (l : level) (h' : hart D) (p : Z) : Prop :=
  let i := is_interrupt isa t in let n := trap_number isa t in
  match l with
  | Machine =>
      st_prv h' = PRV_M /\ st_v h' = false /\ p = (if nmie isa h then tvec_target (csr h MTVEC) i n else 0) /\
      csr h' MEPC = epc /\ csr h' MCAUSE = t_cause t /\ csr h' MTVAL = t_tval t /\ csr h' MTVAL2 = t_tval2 t /\ csr h' MTINST = t_tinst t /\
      field (csr h' MSTATUS) MSTATUS_MPP = st_prv h /\ Z.testbit (csr h' MSTATUS) 39 = st_v h /\
      Z.testbit (csr h' MSTATUS) 7 = Z.testbit (csr h MSTATUS) 3 /\ Z.testbit (csr h' MSTATUS) 3 = false
  | Supervisor =>
      st_prv h' = PRV_S /\ st_v h' = false /\ p = tvec_target (csr h STVEC) i n /\
      csr h' SEPC = epc /\ csr h' SCAUSE = t_cause t /\ csr h' STVAL = t_tval t /\ csr h' HTVAL = t_tval2 t /\ csr h' HTINST = t_tinst t /\
      Z.testbit (csr h' MSTATUS) 8 = Z.testbit (st_prv h) 0 /\
      Z.testbit (csr h' MSTATUS) 5 = Z.testbit (csr h MSTATUS) 1 /\ Z.testbit (csr h' MSTATUS) 1 = false
  | Guest =>
      st_prv h' = PRV_S /\ st_v h' = true /\ p = tvec_target (csr h VSTVEC) i n /\
      csr h' VSEPC = epc /\ csr h' VSCAUSE = (if i then t_cause t - 1 else t_cause t) /\ csr h' VSTVAL = t_tval t /\
      Z.testbit (csr h' VSSTATUS) 8 = Z.testbit (st_prv h) 0 /\
      Z.testbit (csr h' VSSTATUS) 5 = Z.testbit (csr h VSSTATUS) 1 /\ Z.testbit (csr h' VSSTATUS) 1 = false
  end.

Lemma even_epc epc : pc_ok epc -> epc .& u64 (Z.lnot 1) = epc.
Proof. intros [Hr Hp]. rewrite clear_bit0 by done. lia. Qed.

(** C13: Traps are delivered where they are delegated.  A trap of a hart that is not
    in debug mode goes to M-mode unless its number is delegated and the hart is below
    M-mode; then it goes to HS-mode, or to VS-mode when a guest runs and the
    hypervisor delegates it too.  Its level gets the address, the cause and the
    values of the trap, its previous mode and interrupt enable are those of the hart,
    its interrupts are off, and the handler is the one of its vector.  The mode is
    never lowered and a guest is never entered from outside. *)
Theorem traps_delivered h t epc : max_xlen isa = 32 \/ max_xlen isa = 64 -> hart_ok isa h -> virt_ok isa h -> st_debug_mode h = false -> pc_ok epc ->
  0 <= t_cause t < 2 ^ max_xlen isa ->
  let '(h', p) := take_trap isa h t epc in
  delivered h t epc (trap_level isa h t) h' p /\ st_prv h <= st_prv h' /\ (st_v h = false -> st_v h' = false).
Proof.
  intros Hx Hh Hv Hd He Hc. rewrite take_trap_level by done. unfold trap_by_level. pose proof (hart_prv _ _ Hh) as Hp.
  pose proof (even_epc epc He) as Ee. unfold delivered. destruct (trap_level isa h t) eqn:El.
  - pose proof (trap_to_m_state isa HS HU h t epc (is_interrupt isa t) (trap_number isa t) Hp Hv) as Hm.
    destruct (trap_to_m _ _ _ _ _ _) as [h' p]. rewrite Ee in Hm. destruct Hm as (A1 & A2 & A3 & A4 & A5 & A6 & A7 & A8 & (B1 & B2 & B3 & B4)). split_and!; try done.
    rewrite A1. by destruct Hp as [-> | [-> | ->]].
  - pose proof (trap_to_hs_state isa HS HU h t epc (is_interrupt isa t) (trap_number isa t)) as Hm.
    destruct (trap_to_hs _ _ _ _ _ _) as [h' p]. rewrite Ee in Hm. destruct Hm as (A1 & A2 & A3 & A4 & A5 & A6 & A7 & A8 & (B1 & B2 & B3) & _). split_and!; try done.
    rewrite A1. by apply (level_low isa h t Supervisor Hh El).
  - destruct (guest_virtual isa h t El) as [Hvt _]. pose proof (trap_to_vs_state isa HS HU h t epc (is_interrupt isa t) (trap_number isa t) Hvt) as Hm.
    destruct (trap_to_vs _ _ _ _ _ _) as [h' p]. rewrite Ee in Hm. destruct Hm as (A1 & A2 & A3 & A4 & A5 & A6 & (B1 & B2 & B3) & _). split_and!; try done; [|congruence].
    rewrite A1. by apply (level_low isa h t Guest Hh El).
Qed.

(** The return instruction of a level. *)
Definition return_from (l : level) h (bits : Z) : trap_t + (hart D * Z) := match l with Machine => mret isa h bits | _ => sret isa h bits end.

(** The interrupt enable of a level. *)
Definition interrupt_enable (l : level) h : bool :=
  match l with Machine => Z.testbit (csr h MSTATUS) 3 | Supervisor => Z.testbit (csr h MSTATUS) 1 | Guest => Z.testbit (csr h VSSTATUS) 1 end.

(** C26: Returning undoes a trap.  After a trap at an address instructions can have,
    the return instruction of the level it went to goes back to that address, mode
    and virtualisation, with the interrupt enable of the level as it was; [sret]
    is assumed not to be trapped ([TSR], [VTSR]). *)
Theorem trap_returns h t epc bits : max_xlen isa = 32 \/ max_xlen isa = 64 -> hart_ok isa h -> virt_ok isa h -> st_debug_mode h = false ->
  pc_ok epc -> epc .& pc_alignment_mask isa = epc -> 0 <= t_cause t < 2 ^ max_xlen isa ->
  Z.testbit (csr h MSTATUS) 22 = false -> Z.testbit (csr h HSTATUS) 22 = false ->
  exists h2, return_from (trap_level isa h t) (take_trap isa h t epc).1 bits = inr (h2, epc) /\ st_prv h2 = st_prv h /\ st_v h2 = st_v h /\
    interrupt_enable (trap_level isa h t) h2 = interrupt_enable (trap_level isa h t) h.
Proof.
  intros Hx Hh Hv Hd He Ha Hc Ht Hht. rewrite take_trap_level by done. unfold trap_by_level. pose proof (hart_prv _ _ Hh) as Hp.
  pose proof (even_epc epc He) as Ee. unfold return_from, interrupt_enable. destruct (trap_level isa h t) eqn:El.
  - pose proof (trap_to_m_state isa HS HU h t epc (is_interrupt isa t) (trap_number isa t) Hp Hv) as Hm.
    destruct (trap_to_m _ _ _ _ _ _) as [h' p]. rewrite Ee in Hm. destruct Hm as (A1 & A2 & A3 & A4 & _ & _ & _ & _ & Hst).
    destruct (mret_back isa HS HU h h' bits Hp Hv A1 Hst) as (h2 & E & H1 & H2 & H3). unfold epc_read in E. rewrite A4, !Ha in E. by exists h2.
  - pose proof (trap_to_hs_state isa HS HU h t epc (is_interrupt isa t) (trap_number isa t)) as Hm.
    destruct (trap_to_hs _ _ _ _ _ _) as [h' p]. rewrite Ee in Hm. destruct Hm as (A1 & A2 & A3 & A4 & _ & _ & _ & _ & Hst & Htsr & Hspv). rewrite Ht in Htsr.
    destruct (level_low isa h t Supervisor Hh El) as [Hn _]; [done|].
    destruct (sret_back isa HS HU h h' bits Hp Hn Hv A1 A2 Hst Htsr Hspv) as (h2 & E & H1 & H2 & H3). unfold epc_read in E. rewrite A4, !Ha in E. by exists h2.
  - destruct (guest_virtual isa h t El) as [Hvt _]. pose proof (trap_to_vs_state isa HS HU h t epc (is_interrupt isa t) (trap_number isa t) Hvt) as Hm.
    destruct (trap_to_vs _ _ _ _ _ _) as [h' p]. rewrite Ee in Hm. destruct Hm as (A1 & A2 & A3 & A4 & _ & _ & Hst & Hhs). rewrite <- Hhs in Hht.
    destruct (level_low isa h t Guest Hh El) as [Hn _]; [done|].
    destruct (sret_guest_back isa HS HU h h' bits Hp Hn A1 A2 Hst Hht) as (h2 & E & H1 & H2 & H3). unfold epc_read in E. rewrite A4, !Ha in E. rewrite Hvt. by exists h2.
Qed.
End Theorems.

(** ** Witnesses *)

(** A user program; with interrupts of the counters, the timer and software pending. *)
Definition demo_user : hart flat := set_prv (demo_cpu (∅ : flat)) PRV_U false.
Definition demo_pending : hart flat := set_csr (set_csr demo_user MIP 0x2088) MIE 0x2088.

Lemma demo_user_ok : hart_ok demo_isa demo_user /\ virt_ok demo_isa demo_user.
Proof. split; [|done]. assert (hart_ok demo_isa (demo_cpu (∅ : flat))) as [] by by apply demo_hart_ok. split; try done; by left. Qed.

Lemma demo_pending_ok : hart_ok demo_isa demo_pending.
Proof. split; try done; [by left|by left| |]; intros n Hn; by destruct n. Qed.

Lemma interrupts_by_priority_witness : take_pending_interrupt demo_isa demo_pending = Some (Some (plain_trap (2 ^ 63 .| IRQ_LCOF))).
Proof. rewrite (interrupts_by_priority demo_isa demo_pending demo_pending_ok). vm_compute. reflexivity. Defined.

(** A page fault of a load of the program, delegated to S-mode. *)
Definition demo_fault : trap_t := Trap CAUSE_LOAD_PAGE_FAULT false 0x5000 0 0.

Lemma traps_delivered_witness : trap_level demo_isa demo_user demo_fault = Supervisor /\
  let '(h', p) := take_trap demo_isa demo_user demo_fault 0x1008 in
  delivered demo_isa demo_user demo_fault 0x1008 (trap_level demo_isa demo_user demo_fault) h' p /\ st_prv demo_user <= st_prv h' /\ (st_v demo_user = false -> st_v h' = false).
Proof.
  split; [vm_compute; reflexivity|].
  apply (traps_delivered demo_isa eq_refl eq_refl demo_user demo_fault 0x1008); [apply demo_width|apply demo_user_ok|apply demo_user_ok|reflexivity|done|done].
Defined.

Lemma trap_returns_witness : trap_level demo_isa demo_user demo_fault = Supervisor /\
  exists h2, return_from demo_isa (trap_level demo_isa demo_user demo_fault) (take_trap demo_isa demo_user demo_fault 0x1008).1 0x10200073 = inr (h2, 0x1008) /\
  st_prv h2 = st_prv demo_user /\ st_v h2 = st_v demo_user /\
  interrupt_enable (trap_level demo_isa demo_user demo_fault) h2 = interrupt_enable (trap_level demo_isa demo_user demo_fault) demo_user.
Proof.
  split; [vm_compute; reflexivity|].
  apply (trap_returns demo_isa eq_refl eq_refl demo_user demo_fault 0x1008 0x10200073);
    [apply demo_width|apply demo_user_ok|apply demo_user_ok|reflexivity|done|vm_compute; reflexivity|done|vm_compute; reflexivity|vm_compute; reflexivity].
Defined.
