(* ===== verification/AluTheorems.v ===== *)
(** * Spike: the arithmetic of the integer instructions

    The operations of the architecture on signed integers of the width of the hart,
    and that the instructions compute them on sign-extended registers. *)

From stdpp Require Import base option list gmap.
From S2P Require Import Prelude.
From S2P Require Import Perceptron.
From S2P Require Import Tage.
From S2P Require Import BranchStats.
From S2P Require Import Arith.
From S2P Require Import Pmp.
From S2P Require Import Devices.
From S2P Require Import Mmu.
From S2P Require Import Decode.
From S2P Require Import DecodeTheorems.
From S2P Require Import Memory.
From S2P Require Import Csrs.
From S2P Require Import CsrFacts.
From S2P Require Import Isa.
From S2P Require Import IsaFacts.
From S2P Require Import StepDemo.

(** ** The operations

    On signed operands of [w] bits; the result is taken modulo [2 ^ w]. *)

Inductive operation : Type :=
  | Add | Sub | Sll | Slt | Sltu | Xor | Srl | Sra | Or | And
  | Mul | Mulh | Mulhsu | Mulhu | Div | Divu | Rem | Remu.

Definition unsigned (w a : Z) : Z := a mod 2 ^ w.

Definition operate (w : Z) (op : operation) (a b : Z) : Z :=
  match op with
  | Add => a + b
  | Sub => a - b
  | Sll => a * 2 ^ (b mod w)
  | Slt => b2z (a <? b)
  | Sltu => b2z (unsigned w a <? unsigned w b)
  | Xor => Z.lxor a b
  | Srl => unsigned w a / 2 ^ (b mod w)
  | Sra => a / 2 ^ (b mod w)
  | Or => Z.lor a b
  | And => Z.land a b
  | Mul => a * b
  | Mulh => a * b / 2 ^ w
  | Mulhsu => a * unsigned w b / 2 ^ w
  | Mulhu => unsigned w a * unsigned w b / 2 ^ w
  | Div => if b =? 0 then -1 else Z.quot a b
  | Divu => if b =? 0 then -1 else unsigned w a / unsigned w b
  | Rem => if b =? 0 then a else Z.rem a b
  | Remu => if b =? 0 then a else unsigned w a mod unsigned w b
  end.

(** The operation of an instruction, whether it is on words of 32 bits, and whether
    the second operand is an immediate. *)
Definition alu (o : opcode) : option (operation * bool * bool) :=
  match o with
  | add_ => Some (Add, false, false) | sub_ => Some (Sub, false, false) | sll_ => Some (Sll, false, false)
  | slt_ => Some (Slt, false, false) | sltu_ => Some (Sltu, false, false) | xor_ => Some (Xor, false, false)
  | srl_ => Some (Srl, false, false) | sra_ => Some (Sra, false, false) | or_ => Some (Or, false, false) | and_ => Some (And, false, false)
  | addw_ => Some (Add, true, false) | subw_ => Some (Sub, true, false) | sllw_ => Some (Sll, true, false)
  | srlw_ => Some (Srl, true, false) | sraw_ => Some (Sra, true, false)
  | addi_ => Some (Add, false, true) | slti_ => Some (Slt, false, true) | sltiu_ => Some (Sltu, false, true)
  | xori_ => Some (Xor, false, true) | ori_ => Some (Or, false, true) | andi_ => Some (And, false, true)
  | slli_ => Some (Sll, false, true) | srli_ => Some (Srl, false, true) | srai_ => Some (Sra, false, true)
  | addiw_ => Some (Add, true, true) | slliw_ => Some (Sll, true, true) | srliw_ => Some (Srl, true, true) | sraiw_ => Some (Sra, true, true)
  | mul_ => Some (Mul, false, false) | mulh_ => Some (Mulh, false, false) | mulhsu_ => Some (Mulhsu, false, false) | mulhu_ => Some (Mulhu, false, false)
  | div_ => Some (Div, false, false) | divu_ => Some (Divu, false, false) | rem_ => Some (Rem, false, false) | remu_ => Some (Remu, false, false)
  | mulw_ => Some (Mul, true, false) | divw_ => Some (Div, true, false) | divuw_ => Some (Divu, true, false)
  | remw_ => Some (Rem, true, false) | remuw_ => Some (Remu, true, false)
  | _ => None
  end.

(** Immediate shifts by more than the width are illegal. *)
Definition shift (op : operation) : bool := match op with Sll | Srl | Sra => true | _ => false end.

(** ** Wrapping *)

Lemma swrap_eq w x y : x mod 2 ^ w = y mod 2 ^ w -> swrap w x = swrap w y.
Proof. intros E. unfold swrap. f_equal. by rewrite <- (Zplus_mod_idemp_l x), E, Zplus_mod_idemp_l. Qed.

Lemma swrap_mod_same w x : (swrap w x) mod 2 ^ w = x mod 2 ^ w.
Proof. unfold swrap. rewrite Zminus_mod_idemp_l. f_equal. lia. Qed.

Lemma swrap_swrap w x : swrap w (swrap w x) = swrap w x.
Proof. apply swrap_eq, swrap_mod_same. Qed.

Lemma swrap_add w x y : swrap w (swrap w x + swrap w y) = swrap w (x + y).
Proof. apply swrap_eq. by rewrite Zplus_mod, !swrap_mod_same, <- Zplus_mod. Qed.

Lemma swrap_sub w x y : swrap w (swrap w x - swrap w y) = swrap w (x - y).
Proof. apply swrap_eq. by rewrite Zminus_mod, !swrap_mod_same, <- Zminus_mod. Qed.

Lemma swrap_mul w x y : swrap w (swrap w x * swrap w y) = swrap w (x * y).
Proof. apply swrap_eq. by rewrite Zmult_mod, !swrap_mod_same, <- Zmult_mod. Qed.

Lemma swrap_mul_l w x y : swrap w (swrap w x * y) = swrap w (x * y).
Proof. apply swrap_eq. by rewrite Zmult_mod, swrap_mod_same, <- Zmult_mod. Qed.

Lemma unsigned_swrap w x : unsigned w (swrap w x) = x mod 2 ^ w.
Proof. apply swrap_mod_same. Qed.

Lemma unsigned_cases w a : 0 < w -> - 2 ^ (w - 1) <= a < 2 ^ (w - 1) -> unsigned w a = if a <? 0 then a + 2 ^ w else a.
Proof.
  intros Hw Ha. unfold unsigned. assert (2 ^ w = 2 * 2 ^ (w - 1)) as E by (rewrite <- Z.pow_succ_r by lia; f_equal; lia).
  destruct (Z.ltb_spec a 0); [|apply Z.mod_small; lia]. rewrite <- (Z_mod_plus_full a 1), Z.mul_1_l. apply Z.mod_small. lia.
Qed.

Lemma fits_small w z : 2 ^ 31 <= 2 ^ (w - 1) -> - 2 ^ 31 <= z < 2 ^ 31 -> fits w z.
Proof. unfold fits. lia. Qed.

(** The low bits of a shift amount. *)
Lemma shift_amount w x : w = 32 \/ w = 64 -> x .& (w - 1) = (swrap w x) mod w.
Proof.
  intros Hw. destruct Hw as [-> | ->].
  - rewrite (land_mod x (32 - 1) 5) by lia. by rewrite <- (swrap_mod 32 5 x) by lia.
  - rewrite (land_mod x (64 - 1) 6) by lia. by rewrite <- (swrap_mod 64 6 x) by lia.
Qed.

(** ** Registers *)

Section Values.
Context (w : Z) (Hw : w = 32 \/ w = 64).

Lemma reg_signed v : reg_ok w v -> s64 v = swrap w v.
Proof.
  intros Hv. destruct (reg_sgn w Hw v Hv) as [Hf E]. unfold sgn in *. rewrite E at 1. apply s64_of_u64. pose proof (half_le w Hw). unfold fits in Hf. lia.
Qed.

(** Comparing sign-extended words is comparing words. *)
Lemma reg_ltb v1 v2 : reg_ok w v1 -> reg_ok w v2 -> (v1 <? v2) = (unsigned w (swrap w v1) <? unsigned w (swrap w v2)).
Proof.
  intros H1 H2. destruct (reg_sgn w Hw v1 H1) as [F1 E1], (reg_sgn w Hw v2 H2) as [F2 E2]. unfold sgn in *. rewrite E1 at 1. rewrite E2 at 1.
  rewrite !(unsigned_cases w) by (done || lia). pose proof (half_le w Hw). unfold fits in *. change u64 with (unsigned 64). rewrite !(unsigned_cases 64) by lia.
  set (a := swrap w v1) in *. set (b := swrap w v2) in *. assert (2 ^ w = 2 * 2 ^ (w - 1)) as E by (rewrite <- Z.pow_succ_r by lia; f_equal; lia).
  destruct (Z.ltb_spec a 0), (Z.ltb_spec b 0); lia.
Qed.

Lemma reg_bits (op : Z -> Z -> Z) (f : bool -> bool -> bool) v1 v2 :
  (forall x y i, 0 <= i -> Z.testbit (op x y) i = f (Z.testbit x i) (Z.testbit y i)) ->
  reg_ok w (u64 v1) -> reg_ok w (u64 v2) -> u64 (op v1 v2) = u64 (swrap w (op (swrap w v1) (swrap w v2))).
Proof.
  intros Hop H1 H2. assert (forall v, reg_ok w (u64 v) -> fits w (swrap w v) /\ u64 v = u64 (swrap w v)) as Hs.
  { intros v Hv. destruct (reg_sgn w Hw _ Hv) as [F E]. unfold sgn in *. by rewrite swrap_u64 in *. }
  destruct (Hs _ H1) as [F1 E1], (Hs _ H2) as [F2 E2]. rewrite (swrap_small w (op _ _)).
  - apply u64_bits_ext. intros i Hi. rewrite !Hop by lia. by rewrite (proj1 (u64_bits_ext _ _) E1 i Hi), (proj1 (u64_bits_ext _ _) E2 i Hi).
  - apply width_pos. done.
  - pose proof (proj1 (fits_bits w Hw _) F1) as G1. pose proof (proj1 (fits_bits w Hw _) F2) as G2. apply (fits_bits w Hw). intros i Hi. rewrite !Hop by lia. by rewrite G1, G2.
Qed.

(** High words of products on RV32. *)
Lemma high_32 m : - 2 ^ 63 <= m < 2 ^ 63 -> s64 m .>> 32 = m / 2 ^ 32.
Proof. intros Hm. rewrite shiftr_div by lia. by rewrite swrap_small by lia. Qed.

Lemma high_u32 m : s32 (u64 m .>> 32) = s32 (m / 2 ^ 32).
Proof.
  rewrite shiftr_div by lia. apply swrap_eq. unfold uwrap. change (2 ^ 64) with (2 ^ 32 * 2 ^ 32). rewrite Z.rem_mul_r by lia.
  rewrite (Z.mul_comm (2 ^ 32) ((m / 2 ^ 32) mod _)), Z.div_add, Z.div_small by (try lia; apply Z.mod_pos_bound; lia). by rewrite Z.add_0_l, Zmod_mod.
Qed.

Lemma s32_range x : - 2 ^ 31 <= s32 x < 2 ^ 31.
Proof. apply (swrap_range 32). lia. Qed.

Lemma u32_range x : 0 <= u32 x < 2 ^ 32.
Proof. apply (uwrap_range 32). lia. Qed.

(** Division by zero in either reading. *)
Lemma unsigned_zero a : fits w a -> (unsigned w a =? 0) = (a =? 0).
Proof.
  unfold fits. intros Ha. rewrite unsigned_cases by (done || lia). assert (2 ^ w = 2 * 2 ^ (w - 1)) as E by (rewrite <- Z.pow_succ_r by lia; f_equal; lia).
  destruct (Z.ltb_spec a 0); lia.
Qed.
End Values.

(** ** The values the instructions write *)

Section Written.
Context (isa : isa_t) (Hx : max_xlen isa = 32 \/ max_xlen isa = 64).
Local Notation w := (max_xlen isa).

(** [v] is what the operation makes of the operands, as a register. *)
Definition computes (n : Z) (op : operation) (v1 v2 v : Z) : Prop := u64 v = u64 (swrap n (operate n op (swrap n v1) (swrap n v2))).

Lemma fits_of v : fits w (swrap w v).
Proof. by apply fits_swrap. Qed.

Lemma b2z_fits n c : n = 32 \/ n = 64 -> swrap n (b2z c) = b2z c.
Proof. intros Hn. apply swrap_small; [lia|]. pose proof (b2z_range c). destruct Hn as [-> | ->]; lia. Qed.

Lemma v_add v1 v2 : computes w Add v1 v2 (sext_xlen isa (v1 + v2)).
Proof. unfold computes, operate. by rewrite sext_xlen_swrap, swrap_add. Qed.
Lemma v_sub v1 v2 : computes w Sub v1 v2 (sext_xlen isa (v1 - v2)).
Proof. unfold computes, operate. by rewrite sext_xlen_swrap, swrap_sub. Qed.
Lemma v_sll v1 v2 : computes w Sll v1 v2 (sext_xlen isa (v1 .<< (v2 .& (xlen isa - 1)))).
Proof.
  unfold computes, operate, xlen. rewrite sext_xlen_swrap, shift_amount by done. rewrite swrap_mul_l, shiftl_mul; [done|]. apply Z.mod_pos_bound. lia.
Qed.
Lemma v_srl v1 v2 : computes w Srl v1 v2 (sext_xlen isa (zext_xlen isa v1 .>> (v2 .& (xlen isa - 1)))).
Proof.
  unfold computes, operate, xlen. rewrite sext_xlen_swrap, zext_xlen_mod, shift_amount by done. rewrite shiftr_div by (apply Z.mod_pos_bound; lia). by rewrite unsigned_swrap.
Qed.
Lemma v_sra v1 v2 : computes w Sra v1 v2 (sext_xlen isa (sext_xlen isa v1 .>> (v2 .& (xlen isa - 1)))).
Proof.
  unfold computes, operate, xlen. rewrite !sext_xlen_swrap, shift_amount by done. by rewrite shiftr_div by (apply Z.mod_pos_bound; lia).
Qed.
Lemma v_slt v1 v2 : reg_ok w v1 -> s64 v2 = swrap w v2 -> computes w Slt v1 v2 (b2z (s64 v1 <? s64 v2)).
Proof. intros H1 H2. unfold computes, operate. by rewrite (reg_signed w Hx v1 H1), H2, b2z_fits by done. Qed.
Lemma v_sltu v1 v2 : reg_ok w v1 -> reg_ok w (u64 v2) -> computes w Sltu v1 v2 (b2z (v1 <? u64 v2)).
Proof. intros H1 H2. unfold computes, operate. rewrite (reg_ltb w Hx v1 _ H1 H2), swrap_u64 by done. by rewrite b2z_fits. Qed.
Lemma v_xor v1 v2 : reg_ok w (u64 v1) -> reg_ok w (u64 v2) -> computes w Xor v1 v2 (v1 .^ v2).
Proof. intros H1 H2. unfold computes, operate. apply (reg_bits w Hx Z.lxor xorb); [|done|done]. intros. apply Z.lxor_spec. Qed.
Lemma v_or v1 v2 : reg_ok w (u64 v1) -> reg_ok w (u64 v2) -> computes w Or v1 v2 (v1 .| v2).
Proof. intros H1 H2. unfold computes, operate. apply (reg_bits w Hx Z.lor orb); [|done|done]. intros. apply Z.lor_spec. Qed.
Lemma v_and v1 v2 : reg_ok w (u64 v1) -> reg_ok w (u64 v2) -> computes w And v1 v2 (v1 .& v2).
Proof. intros H1 H2. unfold computes, operate. apply (reg_bits w Hx Z.land andb); [|done|done]. intros. apply Z.land_spec. Qed.

Lemma w_add v1 v2 : computes 32 Add v1 v2 (sext32 (v1 + v2)).
Proof. unfold computes, operate, sext32. by rewrite swrap_add. Qed.
Lemma w_sub v1 v2 : computes 32 Sub v1 v2 (sext32 (v1 - v2)).
Proof. unfold computes, operate, sext32. by rewrite swrap_sub. Qed.
Lemma w_sll v1 v2 : computes 32 Sll v1 v2 (sext32 (v1 .<< (v2 .& 0x1F))).
Proof.
  unfold computes, operate, sext32. change 0x1F with (32 - 1). rewrite shift_amount by (by left). rewrite swrap_mul_l, shiftl_mul; [done|]. apply Z.mod_pos_bound. lia.
Qed.
Lemma w_srl v1 v2 : computes 32 Srl v1 v2 (sext32 (u32 v1 .>> (v2 .& 0x1F))).
Proof.
  unfold computes, operate, sext32. change 0x1F with (32 - 1). rewrite shift_amount by (by left). rewrite shiftr_div by (apply Z.mod_pos_bound; lia). by rewrite unsigned_swrap.
Qed.
Lemma w_sra v1 v2 : computes 32 Sra v1 v2 (sext32 (s32 v1 .>> (v2 .& 0x1F))).
Proof.
  unfold computes, operate, sext32. change 0x1F with (32 - 1). rewrite shift_amount by (by left). by rewrite shiftr_div by (apply Z.mod_pos_bound; lia).
Qed.

Lemma v_mul v1 v2 : computes w Mul v1 v2 (sext_xlen isa (v1 * v2)).
Proof. unfold computes, operate. by rewrite sext_xlen_swrap, swrap_mul. Qed.
Lemma v_mulh v1 v2 : computes w Mulh v1 v2 (if xlen isa =? 64 then mulh (s64 v1) (s64 v2) else sext32 (s64 (sext32 v1 * sext32 v2) .>> 32)).
Proof.
  unfold computes, operate, xlen, sext32. destruct Hx as [E|E]; rewrite E; cbv iota beta; cbn [Z.eqb Pos.eqb].
  - pose proof (s32_range v1). pose proof (s32_range v2). rewrite high_32 by nia. done.
  - pose proof (swrap_range 64 v1). pose proof (swrap_range 64 v2). rewrite mulh_high by lia. by rewrite u64_s64.
Qed.
Lemma v_mulhsu v1 v2 : 0 <= v2 < 2 ^ 64 -> computes w Mulhsu v1 v2 (if xlen isa =? 64 then mulhsu (s64 v1) v2 else sext32 (u64 (sext32 v1 * u32 v2) .>> 32)).
Proof.
  intros H2. unfold computes, operate, xlen, sext32. rewrite unsigned_swrap. destruct Hx as [E|E]; rewrite E; cbv iota beta; cbn [Z.eqb Pos.eqb].
  - by rewrite high_u32.
  - pose proof (swrap_range 64 v1). rewrite mulhsu_high by lia. rewrite (Z.mod_small v2) by done. by rewrite u64_s64.
Qed.
Lemma v_mulhu v1 v2 : 0 <= v1 < 2 ^ 64 -> 0 <= v2 < 2 ^ 64 -> computes w Mulhu v1 v2 (if xlen isa =? 64 then mulhu v1 v2 else sext32 (u64 (u32 v1 * u32 v2) .>> 32)).
Proof.
  intros H1 H2. unfold computes, operate, xlen, sext32. rewrite !unsigned_swrap. destruct Hx as [E|E]; rewrite E; cbv iota beta; cbn [Z.eqb Pos.eqb].
  - by rewrite high_u32.
  - rewrite mulhu_high by done. rewrite !(Z.mod_small _ (2 ^ 64)) by done. by rewrite u64_s64.
Qed.

Lemma minus_one n : n = 32 \/ n = 64 -> u64 UINT64_MAX = u64 (swrap n (-1)).
Proof. by intros [-> | ->]. Qed.

Lemma v_div v1 v2 : computes w Div v1 v2 (div_signed isa (sext_xlen isa v1) (sext_xlen isa v2)).
Proof.
  unfold computes, operate, div_signed. rewrite !sext_xlen_swrap by done. pose proof (fits_of v1) as F1. set (a := swrap w v1) in *. set (c := swrap w v2) in *.
  destruct (c =? 0); [by apply minus_one|]. destruct (Z.eqb_spec a INT64_MIN) as [Ea|]; simpl; [|done]. destruct (Z.eqb_spec c (-1)) as [Ec|]; [|done].
  rewrite Ea, Ec. unfold fits in F1. rewrite Ea in F1. destruct Hx as [E|E]; rewrite E in *; [unfold INT64_MIN in F1; lia|done].
Qed.
Lemma v_rem v1 v2 : computes w Rem v1 v2 (rem_signed isa (sext_xlen isa v1) (sext_xlen isa v2)).
Proof.
  unfold computes, operate, rem_signed. rewrite !sext_xlen_swrap by done. set (a := swrap w v1) in *. set (c := swrap w v2) in *.
  destruct (c =? 0); [unfold a; by rewrite swrap_swrap|]. destruct (Z.eqb_spec a INT64_MIN) as [Ea|]; simpl; [|done]. destruct (Z.eqb_spec c (-1)) as [Ec|]; [|done].
  rewrite Ea, Ec. by destruct Hx as [E|E]; rewrite E.
Qed.
Lemma v_divu v1 v2 : computes w Divu v1 v2 (if zext_xlen isa v2 =? 0 then UINT64_MAX else sext_xlen isa (zext_xlen isa v1 / zext_xlen isa v2)).
Proof.
  unfold computes, operate. rewrite !zext_xlen_mod, <- !unsigned_swrap, unsigned_zero by (done || apply fits_of). destruct (_ =? 0); [by apply minus_one|]. by rewrite sext_xlen_swrap.
Qed.
Lemma v_remu v1 v2 : computes w Remu v1 v2 (if zext_xlen isa v2 =? 0 then sext_xlen isa v1 else sext_xlen isa (zext_xlen isa v1 mod zext_xlen isa v2)).
Proof.
  unfold computes, operate. rewrite !zext_xlen_mod, <- !unsigned_swrap, unsigned_zero by (done || apply fits_of). rewrite !sext_xlen_swrap by done. destruct (_ =? 0); [by rewrite swrap_swrap|done].
Qed.

Lemma w_mul v1 v2 : computes 32 Mul v1 v2 (sext32 (v1 * v2)).
Proof. unfold computes, operate, sext32. by rewrite swrap_mul. Qed.
Lemma w_div v1 v2 : computes 32 Div v1 v2 (if sext32 v2 =? 0 then UINT64_MAX else sext32 (Z.quot (sext32 v1) (sext32 v2))).
Proof. unfold computes, operate, sext32. by destruct (_ =? 0). Qed.
Lemma w_rem v1 v2 : computes 32 Rem v1 v2 (if sext32 v2 =? 0 then sext32 v1 else sext32 (Z.rem (sext32 v1) (sext32 v2))).
Proof. unfold computes, operate, sext32. destruct (_ =? 0); [by rewrite swrap_swrap|done]. Qed.

Lemma s32_fits v : fits 32 (swrap 32 v).
Proof. apply fits_swrap. by left. Qed.

Lemma w_divu v1 v2 : computes 32 Divu v1 v2 (if zext32 v2 =? 0 then UINT64_MAX else sext32 (zext32 v1 / zext32 v2)).
Proof.
  unfold computes, operate, zext32, uwrap. rewrite <- !unsigned_swrap, (unsigned_zero 32) by (by left || apply s32_fits). by destruct (_ =? 0).
Qed.
Lemma w_remu v1 v2 : computes 32 Remu v1 v2 (if zext32 v2 =? 0 then sext32 (zext32 v1) else sext32 (zext32 v1 mod zext32 v2)).
Proof.
  unfold computes, operate, zext32, uwrap. rewrite <- !unsigned_swrap, (unsigned_zero 32) by (by left || apply s32_fits). destruct (_ =? 0); [|done].
  assert (sext32 (unsigned 32 (s32 v1)) = s32 (s32 v1)) as ->; [|done]. apply swrap_eq. apply Zmod_mod.
Qed.

(** *** Immediate operands *)

Lemma shamt_amount n b : n = 32 \/ n = 64 -> SHAMT b < n -> SHAMT b = (swrap n (i_imm b)) mod n.
Proof.
  unfold SHAMT. rewrite (land_mod (i_imm b) 0x3F 6) by lia. intros [-> | ->] Hs.
  - rewrite (swrap_mod 32 5) by lia. change (2 ^ 6) with (32 * 2) in *. rewrite Z.rem_mul_r in * by lia. change (2 ^ 5) with 32.
    pose proof (Z.mod_pos_bound (i_imm b) 32 ltac:(lia)). pose proof (Z.mod_pos_bound (i_imm b / 32) 2 ltac:(lia)). lia.
  - by rewrite (swrap_mod 64 6) by lia.
Qed.

Lemma i_slli v1 b : SHAMT b < w -> computes w Sll v1 (i_imm b) (sext_xlen isa (v1 .<< SHAMT b)).
Proof.
  intros Hs. unfold computes, operate. rewrite sext_xlen_swrap, (shamt_amount w b) by done. rewrite swrap_mul_l, shiftl_mul; [done|]. apply Z.mod_pos_bound. lia.
Qed.
Lemma i_srli v1 b : SHAMT b < w -> computes w Srl v1 (i_imm b) (sext_xlen isa (zext_xlen isa v1 .>> SHAMT b)).
Proof.
  intros Hs. unfold computes, operate. rewrite sext_xlen_swrap, zext_xlen_mod, (shamt_amount w b) by done. rewrite shiftr_div by (apply Z.mod_pos_bound; lia). by rewrite unsigned_swrap.
Qed.
Lemma i_srai v1 b : SHAMT b < w -> computes w Sra v1 (i_imm b) (sext_xlen isa (sext_xlen isa v1 .>> SHAMT b)).
Proof.
  intros Hs. unfold computes, operate. rewrite !sext_xlen_swrap, (shamt_amount w b) by done. by rewrite shiftr_div by (apply Z.mod_pos_bound; lia).
Qed.
Lemma i_slliw v1 b : SHAMT b < 32 -> computes 32 Sll v1 (i_imm b) (sext32 (v1 .<< SHAMT b)).
Proof.
  intros Hs. unfold computes, operate, sext32. rewrite (shamt_amount 32 b) by (done || by left). rewrite swrap_mul_l, shiftl_mul; [done|]. apply Z.mod_pos_bound. lia.
Qed.
Lemma i_srliw v1 b : SHAMT b < 32 -> computes 32 Srl v1 (i_imm b) (sext32 (u32 v1 .>> SHAMT b)).
Proof.
  intros Hs. unfold computes, operate, sext32. rewrite (shamt_amount 32 b) by (done || by left). rewrite shiftr_div by (apply Z.mod_pos_bound; lia). by rewrite unsigned_swrap.
Qed.
Lemma i_sraiw v1 b : SHAMT b < 32 -> computes 32 Sra v1 (i_imm b) (sext32 (s32 v1 .>> SHAMT b)).
Proof.
  intros Hs. unfold computes, operate, sext32. rewrite (shamt_amount 32 b) by (done || by left). by rewrite shiftr_div by (apply Z.mod_pos_bound; lia).
Qed.

Lemma imm_reg b : reg_ok w (u64 (i_imm b)).
Proof. apply reg_small; [done|]. pose proof (i_imm_range b). lia. Qed.

Lemma imm_small n b : n = 32 \/ n = 64 -> swrap n (i_imm b) = i_imm b.
Proof. intros Hn. apply swrap_small; [lia|]. pose proof (i_imm_range b). destruct Hn as [-> | ->]; lia. Qed.
End Written.

Section Theorems.
Context (isa : isa_t) {D : Type} `{!Memory D} {Pp Tp : Type} `{!BranchPredictor Pp} `{!BranchPredictor Tp}.
Context (Hx : max_xlen isa = 32 \/ max_xlen isa = 64) (HE : extension_enabled isa EXT_E = false) (HM : extension_enabled isa EXT_M = true).
Context (ds : list (insn_desc_t opcode)).
Local Notation state := (state_t D Pp Tp).
Local Notation state_ok := (IsaFacts.state_ok (Pp := Pp) (Tp := Tp) isa ds).
Local Notation w := (max_xlen isa).
Implicit Types s : state.

(** The value of a register. *)
Definition reg s (r : Z) : Z := nth (Z.to_nat r) (XPR s) 0.

Lemma reg_good s r : state_ok s -> reg_ok w (reg s r).
Proof.
  intros Hs. destruct (state_regs _ _ _ Hs) as (_ & _ & Hf). unfold reg. destruct (nth_in_or_default (Z.to_nat r) (XPR s) 0) as [Hi | ->].
  - rewrite List.Forall_forall in Hf. by apply Hf.
  - exists 0. split; [|done]. apply fits_small; [by apply half_ge|lia].
Qed.

Lemma reads s b r : state_ok s -> 0 <= r < 32 -> READ_REG isa b r s = (Done (reg s r), s).
Proof.
  intros Hs Hr. unfold READ_REG, CHECK_REG, ext. rewrite HE. unfold Isa.bind, Isa.ret. destruct (state_regs _ _ _ Hs) as (Hl & _ & _). unfold reg.
  destruct (lookup_lt_is_Some_2 (XPR s) (Z.to_nat r)) as [v Hv]; [lia|]. by rewrite Hv, (nth_lookup_Some _ _ _ _ Hv).
Qed.

(** The state with a result written, and going on. *)
Definition written s (b npc v : Z) : outcome Z * state := (Done npc, set_XPR s (regfile_write (XPR s) (rd b) (u64 v))).

Lemma run_one s b npc (g : Z -> Z) : state_ok s -> Isa.bind (RS1 isa b) (fun x1 => plain npc (WRITE_RD isa b (g x1))) s = written s b npc (g (reg s (rs1 b))).
Proof.
  intros Hs. unfold RS1, Isa.bind at 1. rewrite reads by (done || apply reg_number; lia). unfold plain, WRITE_RD, WRITE_REG, CHECK_REG, ext. by rewrite HE.
Qed.

Lemma run_two s b npc (g : Z -> Z -> Z) : state_ok s ->
  Isa.bind (RS1 isa b) (fun x1 => Isa.bind (RS2 isa b) (fun x2 => plain npc (WRITE_RD isa b (g x1 x2)))) s = written s b npc (g (reg s (rs1 b)) (reg s (rs2 b))).
Proof.
  intros Hs. unfold RS1, RS2, Isa.bind at 1. rewrite reads by (done || apply reg_number; lia). unfold Isa.bind at 1. rewrite reads by (done || apply reg_number; lia).
  unfold plain, WRITE_RD, WRITE_REG, CHECK_REG, ext. by rewrite HE.
Qed.

Lemma run_require {A} s b (c : bool) (f : unit -> X A) : c = true -> Isa.bind (require b c) f s = f tt s.
Proof. by intros ->. Qed.

(** A guard that holds, the operands, and the value. *)
Ltac holds Hw := first [exact HM | (unfold ext; by rewrite HM) | (unfold xlen; by rewrite Hw) | (apply Z.ltb_lt; auto)].
Ltac guards Hw := repeat lazymatch goal with
  | |- Isa.bind (RS1 _ _) _ _ = _ => fail
  | |- Isa.bind _ _ _ = _ => etransitivity; [apply run_require; holds Hw|cbv beta]
  end.
Ltac value := lazymatch goal with
  | |- computes 32 Sll _ (i_imm _) _ => apply i_slliw
  | |- computes _ Sll _ (i_imm _) _ => apply i_slli
  | |- computes 32 Srl _ (i_imm _) _ => apply i_srliw
  | |- computes _ Srl _ (i_imm _) _ => apply i_srli
  | |- computes 32 Sra _ (i_imm _) _ => apply i_sraiw
  | |- computes _ Sra _ (i_imm _) _ => apply i_srai
  | |- computes 32 Add _ _ _ => apply w_add
  | |- computes 32 Sub _ _ _ => apply w_sub
  | |- computes 32 Sll _ _ _ => apply w_sll
  | |- computes 32 Srl _ _ _ => apply w_srl
  | |- computes 32 Sra _ _ _ => apply w_sra
  | |- computes 32 Mul _ _ _ => apply w_mul
  | |- computes 32 Div _ _ _ => apply w_div
  | |- computes 32 Rem _ _ _ => apply w_rem
  | |- computes 32 Divu _ _ _ => apply w_divu
  | |- computes 32 Remu _ _ _ => apply w_remu
  | |- computes _ Add _ _ _ => apply v_add
  | |- computes _ Sub _ _ _ => apply v_sub
  | |- computes _ Sll _ _ _ => apply v_sll
  | |- computes _ Srl _ _ _ => apply v_srl
  | |- computes _ Sra _ _ _ => apply v_sra
  | |- computes _ Mul _ _ _ => apply v_mul
  | |- computes _ Mulh _ _ _ => apply v_mulh
  | |- computes _ Mulhsu _ _ _ => apply v_mulhsu
  | |- computes _ Mulhu _ _ _ => apply v_mulhu
  | |- computes _ Div _ _ _ => apply v_div
  | |- computes _ Rem _ _ _ => apply v_rem
  | |- computes _ Divu _ _ _ => apply v_divu
  | |- computes _ Remu _ _ _ => apply v_remu
  | |- computes _ Slt _ _ _ => apply v_slt
  | |- computes _ Sltu _ _ _ => apply v_sltu
  | |- computes _ Xor _ _ _ => apply v_xor
  | |- computes _ Or _ _ _ => apply v_or
  | |- computes _ And _ _ _ => apply v_and
  end.

(** C6: The integer instructions compute.  Every instruction of RV32I, RV64I and M
    that combines two registers or a register and an immediate - forty-one of them, the
    word forms and both shifts by immediates included - writes to its destination the
    operation of the architecture on signed integers of its width, wrapped to the
    width and sign-extended, and goes on at the next instruction; nothing else
    changes.  Division by zero and the overflow of division are those of the
    architecture. *)
Theorem alu_correct o op (word imm : bool) b p s : state_ok s -> alu o = Some (op, word, imm) -> (word = true -> w = 64) ->
  let n := if word then 32 else w in
  (imm && shift op = true -> SHAMT b < n) ->
  execute isa o b p s =
  (Done (u64 (swrap w (p + 4))),
   set_XPR s (regfile_write (XPR s) (rd b) (u64 (swrap n (operate n op (swrap n (reg s (rs1 b))) (if imm then i_imm b else swrap n (reg s (rs2 b)))))))).
Proof.
  intros Hs Ho Hw n Hsh. pose proof (reg_good s (rs1 b) Hs) as R1. pose proof (reg_good s (rs2 b) Hs) as R2.
  pose proof (reg_range _ _ R1) as B1. pose proof (reg_range _ _ R2) as B2. pose proof (imm_reg isa Hx b) as R3.
  set (npc := u64 (swrap w (p + 4))).
  assert (forall v, computes n op (reg s (rs1 b)) (if imm then i_imm b else reg s (rs2 b)) v -> written s b npc v =
    (Done npc, set_XPR s (regfile_write (XPR s) (rd b) (u64 (swrap n (operate n op (swrap n (reg s (rs1 b))) (if imm then i_imm b else swrap n (reg s (rs2 b))))))))) as G.
  { intros v E. unfold written. rewrite E. do 5 f_equal. destruct imm; [|done]. rewrite imm_small; [done|]. unfold n. destruct word; auto. }
  destruct o; try discriminate Ho; injection Ho as <- <- <-; subst n; cbv iota in *; unfold execute;
    (assert (u64 (sext_xlen isa (p + insn_length (MATCH _))) = npc) as -> by (by rewrite sext_xlen_swrap)); unfold body;
    lazymatch goal with |- ?t _ = _ => let h := head_of t in unfold h end; guards Hw;
    (etransitivity; [first [apply run_two; exact Hs | apply run_one; exact Hs]|]); apply G; try (value; auto; fail).
  - rewrite Z.add_comm. apply w_add.
  - apply v_and; [done|by apply reg_same..].
  - rewrite Z.land_comm. apply v_and; [done|by apply reg_same|done].
  - apply v_or; [done|by apply reg_same..].
  - rewrite Z.lor_comm. apply v_or; [done|by apply reg_same|done].
  - apply v_slt; [done|done|by apply reg_signed].
  - rewrite <- (imm_small 64 b) at 2 by auto. apply v_slt; [done|done|by rewrite !imm_small by auto].
  - rewrite <- (Z.mod_small (reg s (rs2 b)) (2 ^ 64)) at 2 by done. apply v_sltu; [done|done|by apply reg_same].
  - apply v_xor; [done|by apply reg_same..].
  - rewrite Z.lxor_comm. apply v_xor; [done|by apply reg_same|done].
Qed.
End Theorems.

(** [mulh], [addi] and the signed overflow of [div], on a state with operands in two
    registers. *)
Definition demo_operands (x y : Z) : state_t flat perceptron_predictor_t tage_predictor_t := set_XPR demo_state (<[5%nat := u64 x]> (<[6%nat := u64 y]> (replicate 32 0))).

Lemma demo_operands_ok x y : fits 64 x -> fits 64 y -> state_ok demo_isa insn_table (demo_operands x y).
Proof.
  intros Hx Hy. destruct demo_state_ok. split; try done. change (XPR (demo_operands x y)) with (<[5%nat := u64 x]> (<[6%nat := u64 y]> (replicate 32 0))).
  split; [by rewrite !length_insert|]. split; [done|]. repeat apply Forall_insert; [apply Forall_replicate; by exists 0|by exists y|by exists x].
Qed.

(** [div t2, t0, t1]. *)
Lemma alu_correct_witness :
  execute demo_isa div_ 0x0262c3b3 0x1000 (demo_operands (- 2 ^ 63) (-1)) =
  (Done 0x1004, set_XPR (demo_operands (- 2 ^ 63) (-1)) (<[7%nat := 2 ^ 63]> (XPR (demo_operands (- 2 ^ 63) (-1))))).
Proof.
  rewrite (alu_correct demo_isa demo_width eq_refl eq_refl insn_table div_ Div false false 0x0262c3b3 0x1000 (demo_operands (- 2 ^ 63) (-1)));
    [vm_compute; reflexivity|by apply demo_operands_ok|reflexivity|discriminate|discriminate].
Defined.
